(* ===== verification/_CoqProject ===== *)
-Q . S2P
Prelude.v
PatchParser.v
PatchGrammar.v
PatchDocument.v
SeekSequence.v
FileUpdate.v
ApplyPatch.v
ApplyPatchSpec.v
ExecPolicy.v
ExecPolicyBuilder.v
HeadTail.v
Truncate.v
StreamText.v
PlanParser.v
AssistantText.v
BashParser.v
DangerousCommand.v
PowerShellParser.v
Permissions.v
PolicyTransforms.v
ExecApproval.v
ExecApprovalSpec.v
History.v
HistorySpec.v
NetAddr.v
NetworkPolicy.v
MitmHook.v
MitmHookSpec.v
NetworkState.v
NetworkPolicySpec.v
NetworkProxy.v
NetworkProxySpec.v
MitmPolicy.v
ConfigMerge.v
ConfigMergeSpec.v
ConfigLayers.v
ConfigShellSpec.v
ConfigSpec.v
ConfigOrigins.v
ThreadItems.v
ThreadHistory.v
ThreadHistorySpec.v
ThreadProjection.v
ThreadSync.v
RolloutStore.v
RolloutStoreSpec.v
HistoryPaging.v
HistoryPagingSpec.v
MemoryJobs.v
MemoryJobsSpec.v
TurnDiff.v
TurnDiffSpec.v
RequestQueue.v
RequestQueueSpec.v
RetainedContext.v
RetainedContextSpec.v
