(* ===== verification/Prelude.v ===== *)
(** * A verification library for the agent kernel ([kernel/codex-rs])

    The kernel is the Rust program that runs a coding agent: it talks to a model,
    executes the tools the model asks for and keeps what they produced. This
    library models the parts of it that decide what happens to the user's
    machine and what the model and the user get to see, and proves them correct.
    Paths below are relative to [kernel/codex-rs].

    ** The parts and the files that model them

    Patches ([apply-patch/src]). The model edits files by sending a patch text.
    - [PatchParser.v]: [parser.rs] and [streaming_parser.rs]. The streaming parser
      is a state machine ([StreamingPatchParser]: line buffer, mode, hunks, line
      number) stepped by [push_char] and [process_line]; [parse_patch] is the entry
      point with its strict and lenient boundary checks.
    - [PatchGrammar.v]: the Lark grammar of the module comment as syntax trees, the
      text they stand for and the hunks they mean, for texts the parser accepts.
      [PatchDocument.v]: the grammar in full, and which of its texts are accepted.
    - [SeekSequence.v]: [seek_sequence.rs], the search for lines in four passes of
      decreasing strictness.
    - [FileUpdate.v]: [file_update.rs] and [text_file.rs], the replacements computed
      from chunks and applied to a file in either line-ending mode. Subtraction
      below zero, slices and insertions out of range are values ([Panicked]).
    - [ApplyPatch.v]: [lib.rs], the hunks applied to a file system with the delta
      they record. File system and paths are interfaces ([ExecutorFileSystem],
      [PathOps]): they are other crates.
    - [ApplyPatchSpec.v]: the laws a file system obeys ([LawfulFS]), replay and
      revert of deltas, and an in-memory file system that obeys the laws.

    Execution policy ([execpolicy/src]). Which commands may run.
    - [ExecPolicy.v]: [decision.rs], [rule.rs], [policy.rs], [executable_name.rs]:
      patterns, rules, evaluation, overlays, network domains.
    - [ExecPolicyBuilder.v]: [parser.rs] (the functions a policy file calls, and the
      validation of its examples), [amend.rs] (lines appended to a policy file) and
      the listings of [policy.rs]. The Starlark interpreter is a parameter: a file
      is the sequence of calls its evaluation makes.

    Commands ([shell-command/src]). What a command line would run.
    - [BashParser.v]: [bash.rs] and [shell_detect.rs]. Syntax trees come from
      tree-sitter; read from them are the plain commands of a script made of
      literal words, and the literal part of every command of any script.
    - [DangerousCommand.v]: [command_safety/is_dangerous_command.rs] and
      [windows_dangerous_commands.rs], the classifier that looks through [sudo],
      [env], [trap] and shells.
    - [PowerShellParser.v]: [powershell.rs] and
      [command_safety/powershell_tree_sitter.rs], the lowering of a literal subset
      of PowerShell.

    Permissions ([protocol/src/permissions.rs], [sandboxing/src]). What a command
    may touch.
    - [Permissions.v]: sandbox policies, the resolution of access to a path,
      protected metadata, deny-read globs, permission profiles. Path URIs are an
      interface ([PathUris] with the laws [LawfulPathUris]).
    - [PolicyTransforms.v]: [policy_transforms.rs], permissions requested on top of
      the sandbox: normalised, intersected with a grant, merged, added.

    Approvals ([core/src/exec_policy.rs] and its modules). Whether a command runs,
    is put to the user or is refused.
    - [ExecApproval.v]: the requirement computed from the policy ([ExecPolicy]), the
      split of the script ([BashParser], [PowerShellParser]), the heuristic
      ([DangerousCommand], [Permissions]) and the approval setting; amendments.
    - [ExecApprovalSpec.v]: what these requirements guarantee.

    History ([core/src/context_manager]). What the model is sent.
    - [History.v]: the items of [protocol/src/models.rs], [normalize.rs], and from
      [history.rs] the removal of the oldest item, the walk back of a rollback and
      the token estimates and totals.
    - [HistorySpec.v]: normalisation as a one-pass function, pairing, totals.
    - [RetainedContext.v]: [history/src/retained_context.rs] and
      [reconciled_retained_context.rs], the user's instructions and verified answers
      kept apart from the history within limits, and their reconciliation with it.
      [RetainedContextSpec.v]: a run without limits as the specification.

    Network ([network-proxy/src]). Which hosts a sandboxed command may reach.
    - [NetAddr.v]: addresses as the standard library reads them, and those that
      [policy.rs] takes for local.
    - [NetworkPolicy.v]: [policy.rs] and [config.rs], hosts, patterns and their
      compilation to globs (classes [Matching], [Mitm] and [SocketPaths] stand for
      other packages, hooks and the file system), lists of domains and sockets.
    - [MitmHook.v]: [mitm_hook.rs] and [authorization_path.rs], the hooks that
      authorise intercepted requests, an instance of [Mitm]; [MitmHookSpec.v]: what
      they match and do.
    - [NetworkState.v]: [state.rs] and [environment_policy.rs], managed constraints,
      the compiled state and the policy of an environment.
    - [NetworkPolicySpec.v]: patterns as sets of hosts, what constraints ask, what
      an environment may change, a matcher that obeys the laws of globs.
    - [NetworkProxy.v]: [runtime.rs], [network_policy.rs] and [connect_policy.rs],
      the decisions on hosts, requests and connections, and the operations on the
      shared state as threads that a step relation interleaves at the lock.
    - [NetworkProxySpec.v]: what the running proxy guarantees, and a small proxy.
    - [MitmPolicy.v]: [mitm.rs], the policy on requests inside a tunnel.

    Configuration ([config/src]). Where a setting comes from.
    - [ConfigMerge.v]: [merge.rs], [key_aliases.rs], [overrides.rs], documents and
      their merge; [ConfigMergeSpec.v]: positions a document takes on a path.
    - [ConfigLayers.v]: [state.rs], [config_layer_source.rs], [fingerprint.rs],
      [shell_environment_policy.rs], [constraint.rs], the stack of layers, origins
      and constrained values; [ConfigShellSpec.v], [ConfigSpec.v] and
      [ConfigOrigins.v]: what a stack guarantees.

    Threads ([app-server-protocol/src/protocol], [thread-store/src/local]). What is
    shown of a recorded conversation.
    - [ThreadItems.v]: [item_builders.rs], the items and events. Values that are only
      copied, and functions of other components, are the class [Wire].
    - [ThreadHistory.v]: [thread_history.rs], the builder that reduces events to
      turns, the index of a turn, the changes it reports and their coalescing.
    - [ThreadHistorySpec.v], [ThreadProjection.v], [ThreadSync.v]: the index, the
      reports, and a client that holds tables and applies reports.
    - [RolloutStore.v]: [thread_history_projection.rs],
      [thread_history_materialization.rs], [thread_history.rs], a file of lines that
      only grows, projected into tables past a checkpoint; the decoding of a line is
      a parameter. [RolloutStoreSpec.v]: stages, checkpoints, finished turns.
    - [HistoryPaging.v]: [rollout_lineage.rs] and
      [thread_history/{read,segment_paging,turn_lookup}.rs], forked histories read
      in pages; the text of a cursor is a parameter with its round trip as a law.
      [HistoryPagingSpec.v]: what following the pages shows.

    Turns, memories and requests. What a turn changed, what is remembered of it, and
    in which order requests run.
    - [TurnDiff.v]: [core/src/turn_diff_tracker.rs], the tracker that accumulates the
      deltas of [ApplyPatch] into one diff, with its cache of rendered diffs. The line
      diff, the hash and relative paths are parameters; [TurnDiffSpec.v]: the
      diff as the net change of the file systems.
    - [MemoryJobs.v]: [state/src/runtime/memories.rs], the jobs that extract and
      consolidate memories as rows with tokens and leases, one definition per
      transaction; operations that query outside a transaction take what each query
      sees ([Views]) or what others do in between; [MemoryJobsSpec.v]: workers that call them at any times.
    - [RequestQueue.v]: [app-server/src/request_serialization.rs] and
      [connection_rpc_gate.rs], queues of requests by resource and the tasks that
      drain them, as a step relation between the waits of the tasks;
      [RequestQueueSpec.v]: every interleaving of them.

    Output ([core/src/unified_exec/head_tail_buffer.rs], [utils/string/src/truncate.rs],
    [utils/output-truncation/src/lib.rs]). What is kept of what commands print.
    - [HeadTail.v]: the capped buffer that keeps a head and a tail.
    - [Truncate.v]: truncation of texts and of lists of items to a budget.

    Streams ([utils/stream-parser/src]). What is shown of what the model says.
    - [StreamText.v]: [stream_text.rs], [inline_hidden_tag.rs], [citation.rs]; the
      class [Streams] states what a stream parser promises its clients.
    - [PlanParser.v]: [tagged_line_parser.rs], [proposed_plan.rs].
    - [AssistantText.v]: [assistant_text.rs], which composes the two, and
      [utf8_stream.rs], which feeds any parser that keeps the promise from bytes.

    ** What the theorems show

    - Patches: of the texts of the documented grammar the parser accepts exactly
      those whose update hunks have a changed line after every ["@@"] line, with their
      meaning (the others, pure renames among them, are rejected); it is
      indifferent to how the text is cut, and never lets the application panic;
      the search returns the best position; the update splices exactly the computed
      replacements; and, renames of a file onto itself apart, a delta marked exact
      accounts for the whole effect on the
      file system, so that it can be replayed and reverted. Three theorems describe
      behaviour that is not what the code means to do: a rename to the same path
      deletes the file, and in LF mode a final blank line is lost and an
      end-of-file chunk may overlap an earlier one.
    - Policy: evaluation is total and returns the strictest matching decision;
      patterns, additions, overlays, host executables and network domains do
      exactly what their specifications say; policies built from files satisfy an
      invariant and their examples.
    - Commands: the plain reading of a script gives the arguments the shell would
      pass, and the search for dangerous commands overlooks none of them; the
      classifier is exactly bounded unwrapping, and no chain of wrappers hides a
      flagged command; PowerShell is lowered only when the commands cover the
      script. Setting UTF-8 output overwrites a trailing argument, which is proved.
    - Permissions: the most specific entry decides; full write access and metadata
      protection mean what they say; profiles survive their compilation; an
      intersection lets nothing be read that was not both requested and granted, denied
      patterns included where they match below the prefix that is compared (a denied
      pattern with braces may be dropped, and a requested read-only carve-out is lost
      for writing, which is shown too);
      additions act only through their entries.
    - Approvals: every request gets an answer; a dangerous command no rule speaks
      about is never run unasked; the sandbox is bypassed only where rules allow
      every command; prompts respect the setting; an accepted amendment settles
      what it was proposed for, except under a narrowed environment policy.
    - History: the index arithmetic of the normalisation computes a one-pass
      function whose results pair calls with outputs and are fixed points; the
      oldest item is dropped with its partner; a rollback removes exactly the
      context injected before the cut; totals saturate and never wrap. Retained
      evidence that is said to be complete is all there was; a rollback undoes what
      was recorded since while nothing is evicted or replaced, and a checkpoint restores
      the state it was taken of up to the counter, which moves past surviving orders.
    - Network: the lists, where single stars are their only wildcards, decide as the hosts they stand for say, denials first and
      local addresses only when spelled out or allowed in general, up to the address
      that is connected to; managed patterns admit exactly the narrower ones; the
      check of constraints accepts exactly what respects them, and every state that
      interleaved clients can reach does; an update of a list loses no change of the
      configuration, while a blocked request recorded during it is lost, which is
      proved; an environment lifts no denial, and neither does a decider; inside a
      tunnel the host, the mode and the hooks are enforced, on paths that no decoding
      upstream can turn into others.
    - Configuration: the effective configuration answers each setting from the
      highest enabled layer that takes a position on it, the shell-environment policy and
      tables of domains apart; the recorded origin is that
      layer, and an override reads back; stacks stay ordered and their
      shell-environment policies valid under every operation; a constrained value
      satisfies every validator installed.
    - Threads: a client that applies the reports of changes, coalesced in any
      batches, shows what a rebuild of the whole rollout gives; the lazily built
      index agrees with a search; catching up with a file in stages gives the tables
      of catching up once, and a finished turn stays as it ended; following the
      cursors visits each row of a lineage once and in order, shadowed turns
      excepted, by creation or by updates after a watermark, and resolving a lineage
      ends even on a cycle of forks.
    - Turns: while every delta was exact the diff of a turn is the net effect of its
      patches on the file systems, and the cache never shows.
    - Memories: two unexpired leases on a job are the same lease, whatever the calls,
      unless one was voided by deleting the memory; finished work is not claimed again,
      failures use up three retries until the memory is deleted, the number
      of running jobs is capped, and the paged selection is one query while nothing
      changes in between (a usage raised between two pages can repeat a row, which is
      shown).
    - Requests: of a key, conflicting requests run one after the other in the order
      they were queued; none is lost, and the tasks come to rest; a closed gate lets
      nothing begin.
    - Output: the buffer is a function of the whole output, whatever the chunks;
      truncation keeps the longest ends within the budget on character boundaries
      and accounts for every item.
    - Streams: each parser computes a function of the whole message, whatever the
      chunks, and so do their composition and the UTF-8 wrapper.

    ** Conventions

    A [char] is a code point and a string the list of its code points; where the
    source counts bytes, so does the model ([len_utf8], [byte_len]). Positions that
    the source finds by searching a string are counted in characters. [usize] and
    [u64] arithmetic that saturates or may go below zero is written out. Fallible
    functions return [result], functions that may panic [outcome] or [option], with
    a theorem that the panic does not occur where that is so. Loops that are not
    structural have fuel: the hidden-tag loop runs at most once per pending
    character plus one, decoding at most once per byte, the walks over syntax trees
    at most once per node, the coverage check of PowerShell scripts and the lowering
    of a command at most once per character, and all are proved to return; wrappers
    are followed eight deep because the source stops there. A lineage is followed for at
    most as many rollouts as exist plus two, which is proved to be enough, and pages
    for as many as there are rows plus one; the selection of memories turns at most once
    more than rows are stored at any time. The retry loops of the
    proxy are threads without a bound; alone, one is proved to end in three steps.
    Rust's [MultiMap] and [HashMap] are finite maps, whose iteration order the
    theorems do not depend on.

    ** What is not modelled

    Of the parts above: the unified diff shown for approval (a third-party crate),
    source locations in policy errors, file locking and I/O errors of amendments,
    the loading of policy files, legacy sandbox policies, the recording and
    replacement of history and the guardian's review history; the deserialisation of
    configuration; of the thread store the writing and compression of files, search
    and the metadata of threads; errors of the database of memories, and the wait for
    running requests when a connection shuts down. Syntax trees, path URIs, globs,
    JSON and its size, UUIDs, line diffs, hashes, timestamps and image sizes come from other
    packages and are parameters or classes. The line diff is taken not to hit its
    timeout, and a request that has begun to be able to end.

    Other parts of the kernel are left out, because most of what they do happens in
    other packages or on the host's file system, or because they are tables of
    special cases: the
    recognition of [apply_patch] in shell scripts, command summaries
    ([shell-command/src/parse_command.rs]), the intersection of profiles for remote
    environments, the composition of requirements on the configuration
    ([config/src/config_requirements.rs]), the credential broker, servers and
    certificates of the proxy. User interfaces, model clients, login and the platform
    sandboxes are I/O.

    ** This file

    The prelude: text, results, machine integers, vectors and the functions of
    Rust's standard library that the components use, with the lemmas, hints and
    tactics they share. *)

From stdpp Require Import prelude list strings pretty gmap sorting.
From Stdlib Require Import Ascii.

(** ** Text

    Rust's [char] is a Unicode scalar value and [&str]/[String] a sequence of
    them; both are modelled by code points. Byte lengths, where the code
    counts bytes, go through [len_utf8]. *)
Abbreviation char := N.
Abbreviation str := (list N).

Declare Scope rust_scope.
Delimit Scope rust_scope with rust.

(** ASCII literals of the source. *)
Definition lit (s : string) : str := N_of_ascii <$> String.list_ascii_of_string s.
Notation "$ s" := (lit s%string) (at level 5, s at level 0, format "$ s") : rust_scope.
Open Scope rust_scope.

Definition LF : char := 10%N.
Definition CR : char := 13%N.
Definition SPACE : char := 32%N.

(** [format!("{n}")] for an unsigned integer. *)
Definition fmt_nat (n : nat) : str := lit (pretty n).
Definition fmt_N (n : N) : str := lit (pretty n).

(** ** Results

    [Result<A, E>] of the source. *)
Inductive result (E A : Type) : Type :=
| Ok (a : A)
| Err (e : E).
Arguments Ok {E A} a.
Arguments Err {E A} e.

(** Code that can panic (an index out of range, an unsigned subtraction below
    zero) returns an [outcome]; [Panicked] is a value, so that its absence is a
    theorem. *)
Inductive outcome (E A : Type) : Type :=
| Done (a : A)
| Failed (e : E)
| Panicked.
Arguments Done {E A} a.
Arguments Failed {E A} e.
Arguments Panicked {E A}.

Definition rbind {E A B} (m : result E A) (f : A → result E B) : result E B :=
  match m with Ok a => f a | Err e => Err e end.
Definition obind {E A B} (m : outcome E A) (f : A → outcome E B) : outcome E B :=
  match m with Done a => f a | Failed e => Failed e | Panicked => Panicked end.

Notation "'let?' x ':=' m 'in' k" := (rbind m (λ x, k))
  (at level 10, x pattern, m at level 100, k at level 200) : rust_scope.
Notation "'let!' x ':=' m 'in' k" := (obind m (λ x, k))
  (at level 10, x pattern, m at level 100, k at level 200) : rust_scope.

Definition is_ok {E A} (r : result E A) : bool :=
  match r with Ok _ => true | Err _ => false end.

Definition from_result {E A} (r : result E A) : outcome E A :=
  match r with Ok a => Done a | Err e => Failed e end.

Definition opt_panic {E A} (o : option A) : outcome E A :=
  match o with Some a => Done a | None => Panicked end.

#[global] Instance result_eq_dec {E A} `{EqDecision E, EqDecision A} : EqDecision (result E A).
Proof. solve_decision. Defined.
#[global] Instance outcome_eq_dec {E A} `{EqDecision E, EqDecision A} : EqDecision (outcome E A).
Proof. solve_decision. Defined.

(** ** Machine integers: [usize] and [u64] arithmetic of the source *)
Definition USIZE_MAX : N := (2 ^ 64 - 1)%N.
Definition saturating_add (a b : N) : N := N.min (a + b) USIZE_MAX.
Definition saturating_mul (a b : N) : N := N.min (a * b) USIZE_MAX.
Definition saturating_sub (a b : N) : N := (a - b)%N.

(** [a - b] on [usize], which panics below zero. *)
Definition checked_sub (a b : nat) : option nat :=
  if decide (b ≤ a) then Some (a - b) else None.

(** ** Slices and vectors *)

(** [&v[a..b]], which panics unless [a <= b <= v.len()]. *)
Definition slice {A} (v : list A) (a b : nat) : option (list A) :=
  if decide (a ≤ b ∧ b ≤ length v) then Some (take (b - a) (drop a v)) else None.

(** [v.insert(i, x)], which panics when [i > v.len()]. *)
Definition vec_insert {A} (i : nat) (x : A) (v : list A) : option (list A) :=
  if decide (i ≤ length v) then Some (take i v ++ x :: drop i v) else None.

(** [if i < v.len() { v.remove(i); }] *)
Definition vec_remove_guarded {A} (i : nat) (v : list A) : list A :=
  take i v ++ drop (S i) v.

(** [v.last_mut()] with the update [f] applied through it. *)
Fixpoint update_last {A} (f : A → A) (v : list A) : list A :=
  match v with
  | [] => []
  | [x] => [f x]
  | x :: v' => x :: update_last f v'
  end.

(** [v.last().is_some_and(p)] *)
Definition last_is {A} (p : A → bool) (v : list A) : bool :=
  match last v with Some x => p x | None => false end.

(** [v.pop()] *)
Definition pop {A} (v : list A) : list A := take (length v - 1) v.

Definition is_empty {A} (v : list A) : bool :=
  match v with [] => true | _ => false end.

(** [v.sort_by_key(key)] for a [usize] key; the standard library's sort is
    stable, which an insertion sort that keeps equal keys in order is. *)
Fixpoint insert_by_key {A} (key : A → nat) (x : A) (v : list A) : list A :=
  match v with
  | [] => [x]
  | y :: v' => if decide (key x ≤ key y) then x :: v else y :: insert_by_key key x v'
  end.
Definition sort_by_key {A} (key : A → nat) (v : list A) : list A :=
  foldr (insert_by_key key) [] v.

(** ** String functions of Rust's standard library *)

(** [char::is_whitespace]: the Unicode property [White_Space]. *)
Definition is_whitespace (c : char) : bool :=
  ((9 <=? c) && (c <=? 13) || (c =? 32) || (c =? 133) || (c =? 160) || (c =? 5760)
   || (8192 <=? c) && (c <=? 8202) || (c =? 8232) || (c =? 8233) || (c =? 8239)
   || (c =? 8287) || (c =? 12288))%N.

Fixpoint trim_start_matches (p : char → bool) (s : str) : str :=
  match s with
  | [] => []
  | c :: s' => if p c then trim_start_matches p s' else s
  end.

Fixpoint trim_end_matches (p : char → bool) (s : str) : str :=
  match s with
  | [] => []
  | c :: s' =>
      match trim_end_matches p s' with
      | [] => if p c then [] else [c]
      | t => c :: t
      end
  end.

Definition trim_start : str → str := trim_start_matches is_whitespace.
Definition trim_end : str → str := trim_end_matches is_whitespace.
Definition trim (s : str) : str := trim_end (trim_start s).

Fixpoint strip_prefix (p s : str) : option str :=
  match p, s with
  | [], _ => Some s
  | c :: p', d :: s' => if decide (c = d) then strip_prefix p' s' else None
  | _ :: _, [] => None
  end.
Definition starts_with (p s : str) : bool :=
  match strip_prefix p s with Some _ => true | None => false end.

Definition strip_suffix (p s : str) : option str :=
  match strip_prefix (reverse p) (reverse s) with
  | Some r => Some (reverse r)
  | None => None
  end.
Definition ends_with (p s : str) : bool :=
  match strip_suffix p s with Some _ => true | None => false end.

(** [line.strip_suffix('\r').unwrap_or(line)] *)
Definition strip_cr (s : str) : str :=
  match last s with
  | Some c => if decide (c = CR) then pop s else s
  | None => s
  end.

(** [str::lines]: lines end at LF; the LF and one CR before it are removed, and
    a last line that has no LF is kept as it is, unless it is empty. *)
Fixpoint lines_from (cur s : str) : list str :=
  match s with
  | [] => if is_empty cur then [] else [cur]
  | c :: s' => if decide (c = LF) then strip_cr cur :: lines_from [] s'
               else lines_from (cur ++ [c]) s'
  end.
Definition lines (s : str) : list str := lines_from [] s.

(** [s.split(c)] for one character. *)
Fixpoint split_char (c : char) (s : str) : list str :=
  match s with
  | [] => [[]]
  | d :: s' =>
      if decide (d = c) then [] :: split_char c s'
      else match split_char c s' with
           | h :: t => (d :: h) :: t
           | [] => [[d]]
           end
  end.

(** [v.join(sep)] *)
Fixpoint join (sep : str) (v : list str) : str :=
  match v with
  | [] => []
  | [x] => x
  | x :: v' => x ++ sep ++ join sep v'
  end.

(** [s.find(p)] as a position in characters, and [s.contains(p)]. *)
Fixpoint find_str (p s : str) : option nat :=
  if starts_with p s then Some 0
  else match s with
       | [] => None
       | _ :: s' => S <$> find_str p s'
       end.
Definition contains_str (p s : str) : bool :=
  match find_str p s with Some _ => true | None => false end.

Definition contains_char (c : char) (s : str) : bool := existsb (N.eqb c) s.

(** [s.split_once(c)]: around the first [c]. *)
Fixpoint split_once (c : char) (s : str) : option (str * str) :=
  match s with
  | [] => None
  | d :: s' => if decide (d = c) then Some ([], s')
               else match split_once c s' with
                    | Some (a, b) => Some (d :: a, b)
                    | None => None
                    end
  end.
(** [s.rsplit_once(c)]: around the last [c]. *)
Definition rsplit_once (c : char) (s : str) : option (str * str) :=
  match split_once c (reverse s) with
  | Some (a, b) => Some (reverse b, reverse a)
  | None => None
  end.

Definition is_ascii_digit (c : char) : bool := ((48 <=? c) && (c <=? 57))%N.
Definition to_ascii_lowercase (s : str) : str :=
  (λ c, if ((65 <=? c) && (c <=? 90))%N then (c + 32)%N else c) <$> s.

Definition is_ascii_alphabetic (c : char) : bool :=
  ((65 <=? c) && (c <=? 90) || (97 <=? c) && (c <=? 122))%N.
Definition eq_ignore_ascii_case (s t : str) : bool :=
  bool_decide (to_ascii_lowercase s = to_ascii_lowercase t).

(** [s.split(p)] for a character predicate, and the same on slices. *)
Fixpoint split_by {A} (p : A → bool) (s : list A) : list (list A) :=
  match s with
  | [] => [[]]
  | d :: s' =>
      if p d then [] :: split_by p s'
      else match split_by p s' with
           | h :: t => (d :: h) :: t
           | [] => [[d]]
           end
  end.
(** [s.rsplit(p).next()] *)
Definition after_last (p : char → bool) (s : str) : str := default [] (last (split_by p s)).
(** [s.trim_matches(c)] *)
Definition trim_matches (c : char) (s : str) : str :=
  trim_end_matches (N.eqb c) (trim_start_matches (N.eqb c) s).
(** [iter.find_map(f)] *)
Fixpoint find_map {A B} (f : A → option B) (l : list A) : option B :=
  match l with
  | [] => None
  | x :: l' => match f x with Some y => Some y | None => find_map f l' end
  end.
(** Membership of a string in a list of literals: [matches!(s, "a" | "b")]. *)
Definition one_of (ks : list str) (s : str) : bool := existsb (λ k, bool_decide (s = k)) ks.

(** [char::len_utf8] and [str::len]. *)
Definition len_utf8 (c : char) : nat :=
  if (c <? 128)%N then 1 else if (c <? 2048)%N then 2 else if (c <? 65536)%N then 3 else 4.
Definition str_len (s : str) : nat := sum_list_with len_utf8 s.

(** ** Automation *)
Create HintDb rust discriminated.
Create Rewrite HintDb rust_simpl.
#[export] Hint Constants Opaque : rust.
#[export] Hint Variables Opaque : rust.

(** Case analysis on the boolean tests and matches of a goal or hypothesis. *)
Ltac case_test :=
  match goal with
  | |- context [if ?b then _ else _] => destruct b eqn:?
  | |- context [match ?x with _ => _ end] => destruct x eqn:?
  end.
Ltac case_test_in H :=
  match type of H with
  | context [if ?b then _ else _] => destruct b eqn:?
  | context [match ?x with _ => _ end] => destruct x eqn:?
  end.
Ltac split_tests := repeat (case_test; simplify_eq/=; try done).
Ltac split_tests_in H := repeat (case_test_in H; simplify_eq/=; try done).

(** ** Lemmas on vectors *)
Section vectors.
Context {A : Type}.
Implicit Types (v l : list A) (x y : A).

Lemma update_last_snoc (f : A → A) l x : update_last f (l ++ [x]) = l ++ [f x].
Proof.
  induction l as [|y l IH]; [done|]. simpl.
  destruct (l ++ [x]) eqn:E; [by destruct l|]. by rewrite IH.
Qed.

Lemma last_is_snoc (p : A → bool) l x : last_is p (l ++ [x]) = p x.
Proof. unfold last_is. by rewrite last_snoc. Qed.

Lemma pop_snoc l x : pop (l ++ [x]) = l.
Proof. unfold pop. rewrite length_app. simpl. rewrite Nat.add_sub. by rewrite take_app_length. Qed.

Lemma last_Some_snoc v x : last v = Some x → ∃ l, v = l ++ [x].
Proof. intros Hl. apply last_Some in Hl as [l ->]. eauto. Qed.

Lemma last_cases v : v = [] ∨ ∃ l x, v = l ++ [x].
Proof. induction v as [|x l _] using rev_ind; [by left|right; eauto]. Qed.

Lemma length_update_last (f : A → A) v : length (update_last f v) = length v.
Proof.
  destruct (last_cases v) as [->|(l & x & ->)]; [done|].
  rewrite update_last_snoc, !length_app. done.
Qed.

Lemma insert_snoc l x y : <[length l:=x]> (l ++ [y]) = l ++ [x].
Proof. induction l as [|z l IH]; simpl; [done|]. by rewrite IH. Qed.

Lemma vec_insert_Some i x v w :
  vec_insert i x v = Some w ↔ i ≤ length v ∧ w = take i v ++ x :: drop i v.
Proof. unfold vec_insert. case_decide; split; intros; destruct_and?; simplify_eq; done. Qed.

Lemma checked_sub_Some a b : b ≤ a → checked_sub a b = Some (a - b).
Proof. intros. unfold checked_sub. by rewrite decide_True. Qed.

Lemma slice_Some v a b : a ≤ b → b ≤ length v → slice v a b = Some (take (b - a) (drop a v)).
Proof. intros. unfold slice. by rewrite decide_True. Qed.

(** Stable sorting keeps every element, and turns any relation that holds
    between earlier and later elements of the input, up to the key order, into
    one that holds along the output. *)
Lemma insert_by_key_perm (key : A → nat) x v : insert_by_key key x v ≡ₚ x :: v.
Proof.
  induction v as [|y v IH]; simpl; [done|]. case_decide; [done|].
  rewrite IH. constructor.
Qed.

Lemma sort_by_key_perm (key : A → nat) v : sort_by_key key v ≡ₚ v.
Proof.
  induction v as [|x v IH]; simpl; [done|].
  by rewrite insert_by_key_perm, IH.
Qed.

Lemma insert_by_key_sorted (key : A → nat) (R : A → A → Prop) x v :
  (∀ y z, y ∈ v → z ∈ v → key x ≤ key y → R y z → R x y → R x z) →
  (∀ y, y ∈ v → key x ≤ key y → R x y) →
  (∀ y, y ∈ v → key y < key x → R y x) →
  StronglySorted R v → StronglySorted R (insert_by_key key x v).
Proof.
  intros Htr Hle Hlt Hs. induction Hs as [|y v Hs IH Hy]; simpl; [repeat constructor|].
  rewrite Forall_forall in Hy. case_decide as Hk.
  - constructor; [constructor; [done|by apply Forall_forall]|].
    apply Forall_forall. intros z [->|Hz]%elem_of_cons; [apply Hle; set_solver|].
    apply (Htr y z); [set_solver|set_solver|done|by apply Hy|apply Hle; set_solver].
  - constructor.
    + apply IH.
      * intros y' z ????. apply (Htr y' z); set_solver.
      * intros y' ??. apply Hle; set_solver.
      * intros y' ??. apply Hlt; set_solver.
    + apply Forall_forall. intros z Hz. rewrite insert_by_key_perm in Hz.
      apply elem_of_cons in Hz as [->|Hz]; [apply Hlt; [set_solver|lia]|by apply Hy].
Qed.

End vectors.

(** ** Lemmas on strings *)
Lemma strip_prefix_app p r : strip_prefix p (p ++ r) = Some r.
Proof. induction p as [|c p IH]; simpl; [done|]. by rewrite decide_True. Qed.

Lemma strip_prefix_Some p s r : strip_prefix p s = Some r ↔ s = p ++ r.
Proof.
  split; [|intros ->; apply strip_prefix_app].
  revert s. induction p as [|c p IH]; intros [|d s]; simpl; intros; simplify_eq; try done.
  case_decide; [|done]. subst. f_equal. by apply IH.
Qed.

Lemma starts_with_true p s : starts_with p s = true ↔ ∃ r, s = p ++ r.
Proof.
  unfold starts_with. destruct (strip_prefix p s) as [r|] eqn:E.
  - apply strip_prefix_Some in E. naive_solver.
  - split; [done|]. intros [r ->]. by rewrite strip_prefix_app in E.
Qed.

Lemma ends_with_true p s : ends_with p s = true ↔ ∃ r, s = r ++ p.
Proof.
  unfold ends_with, strip_suffix. destruct (strip_prefix _ _) as [r|] eqn:H.
  - split; [intros _|done]. apply strip_prefix_Some in H. exists (reverse r).
    apply (f_equal reverse) in H. by rewrite reverse_involutive, reverse_app, reverse_involutive in H.
  - split; [done|]. intros [r ->]. rewrite reverse_app, strip_prefix_app in H. done.
Qed.

Lemma strip_prefix_head_ne c p d s : c ≠ d → strip_prefix (c :: p) (d :: s) = None.
Proof. intros. simpl. by rewrite decide_False. Qed.

Lemma trim_end_matches_app p a b :
  trim_end_matches p (a ++ b) =
    match trim_end_matches p b with [] => trim_end_matches p a | t => a ++ t end.
Proof.
  induction a as [|c a IH]; simpl; [by destruct (trim_end_matches p b)|].
  rewrite IH. destruct (trim_end_matches p b); [done|].
  destruct a; done.
Qed.

Lemma trim_end_matches_idemp p s :
  trim_end_matches p (trim_end_matches p s) = trim_end_matches p s.
Proof.
  induction s as [|c s IH]; simpl; [done|].
  destruct (trim_end_matches p s) as [|d t] eqn:E.
  - destruct (p c) eqn:Hc; simpl; [done|]. by rewrite Hc.
  - change (trim_end_matches p (c :: d :: t)) with
      (match trim_end_matches p (d :: t) with [] => if p c then [] else [c] | u => c :: u end).
    by rewrite IH.
Qed.

Lemma trim_start_matches_incl q (s : str) c : c ∈ trim_start_matches q s → c ∈ s.
Proof. induction s as [|d s IH]; cbn; [done|]. case_match; [right; auto|done]. Qed.

Lemma trim_end_matches_incl q (s : str) c : c ∈ trim_end_matches q s → c ∈ s.
Proof.
  induction s as [|d s IH]; cbn; [done|]. destruct (trim_end_matches q s) as [|x t].
  - case_match; set_solver.
  - rewrite !elem_of_cons in *. naive_solver.
Qed.

(** A string whose last character is not trimmed is left alone. *)
Lemma trim_end_matches_snoc p s c : p c = false → trim_end_matches p (s ++ [c]) = s ++ [c].
Proof. intros H. rewrite trim_end_matches_app. simpl. by rewrite H. Qed.

Lemma trim_end_matches_fix p s :
  trim_end_matches p s = s ↔ ∀ c, last s = Some c → p c = false.
Proof.
  destruct (last_cases s) as [->|(l & x & ->)]; [naive_solver|].
  rewrite last_snoc. split.
  - intros H c [= <-]. destruct (p x) eqn:Hx; [|done].
    rewrite trim_end_matches_app in H. simpl in H. rewrite Hx in H.
    assert (length (trim_end_matches p l) ≤ length l) as Hlen.
    { clear. induction l as [|c l IH]; simpl; [done|].
      destruct (trim_end_matches p l); simpl in *; [destruct (p c); simpl|]; lia. }
    rewrite H, length_app in Hlen. simpl in Hlen. lia.
  - intros H. apply trim_end_matches_snoc. by apply H.
Qed.

Lemma trim_start_cons c s : is_whitespace c = false → trim_start (c :: s) = c :: s.
Proof. intros H. unfold trim_start. simpl. by rewrite H. Qed.

Lemma trim_cons c s : is_whitespace c = false → trim (c :: s) = trim_end (c :: s).
Proof. intros. unfold trim. by rewrite trim_start_cons. Qed.

Lemma trim_end_app_fix a b : b ≠ [] → trim_end b = b → trim_end (a ++ b) = a ++ b.
Proof.
  intros Hb Hfix. unfold trim_end in *. rewrite trim_end_matches_app, Hfix.
  by destruct b.
Qed.

Lemma strip_cr_id s : last s ≠ Some CR → strip_cr s = s.
Proof. unfold strip_cr. destruct (last s); [|done]. intros. case_decide; congruence. Qed.

Lemma lines_from_line cur l s :
  LF ∉ l → lines_from cur (l ++ LF :: s) = strip_cr (cur ++ l) :: lines_from [] s.
Proof.
  revert cur. induction l as [|c l IH]; intros cur Hl; simpl.
  - rewrite app_nil_r. done.
  - rewrite decide_False by set_solver. rewrite IH by set_solver.
    by rewrite <- app_assoc.
Qed.

Lemma lines_from_last cur l : LF ∉ l → (cur ++ l) ≠ [] → lines_from cur l = [cur ++ l].
Proof.
  revert cur. induction l as [|c l IH]; intros cur Hl Hne; simpl.
  - rewrite app_nil_r in *. by destruct cur.
  - rewrite decide_False by set_solver. rewrite IH; [by rewrite <- app_assoc|set_solver|].
    by destruct cur.
Qed.

(** A line that [lines] and the streaming parsers leave as it is. *)
Definition plain_line (s : str) : Prop := (LF ∉ s) ∧ (last s ≠ Some CR).

Lemma join_cons sep x v : v ≠ [] → join sep (x :: v) = x ++ sep ++ join sep v.
Proof. by destruct v. Qed.

(** [lines] undoes [join("\n")] on plain lines when the last one is not empty. *)
Lemma lines_join ls l :
  Forall plain_line ls → LF ∉ l → l ≠ [] → lines (join [LF] (ls ++ [l])) = ls ++ [l].
Proof.
  intros Hls Hl Hne. unfold lines. induction Hls as [|x ls [Hx Hcr] _ IH].
  - by apply lines_from_last.
  - simpl (_ ++ _). rewrite join_cons by (by destruct ls).
    simpl ([LF] ++ _). rewrite lines_from_line by done. simpl.
    rewrite strip_cr_id by done. by rewrite IH.
Qed.

Lemma split_char_ne c s : split_char c s ≠ [].
Proof. destruct s; simpl; repeat case_match; done. Qed.

Lemma join_split_char c s : join [c] (split_char c s) = s.
Proof.
  induction s as [|d s IH]; [done|]. simpl. case_decide as Hd.
  - rewrite join_cons by apply split_char_ne. rewrite IH. by subst.
  - destruct (split_char c s) as [|h t] eqn:E; [by destruct (split_char_ne c s)|].
    destruct t as [|t1 ts]; simpl in *; by rewrite <- IH.
Qed.

Lemma split_char_app c l s : c ∉ l → split_char c (l ++ c :: s) = l :: split_char c s.
Proof.
  induction l as [|d l IH]; intros Hl; simpl; [by rewrite decide_True|].
  rewrite decide_False by set_solver. rewrite IH by set_solver. done.
Qed.

Lemma split_char_no c l : c ∉ l → split_char c l = [l].
Proof.
  induction l as [|d l IH]; intros Hl; simpl; [done|].
  rewrite decide_False by set_solver. by rewrite IH by set_solver.
Qed.

Lemma split_char_join c v :
  v ≠ [] → Forall (λ l, c ∉ l) v → split_char c (join [c] v) = v.
Proof.
  intros Hne Hv. induction Hv as [|x v Hx Hv IH]; [done|].
  destruct v as [|y v]; [by apply split_char_no|].
  rewrite join_cons by done. change ([c] ++ ?s) with (c :: s).
  rewrite split_char_app by done. by rewrite IH.
Qed.

Lemma split_once_Some c s a b : split_once c s = Some (a, b) → s = a ++ c :: b ∧ c ∉ a.
Proof.
  revert a b. induction s as [|d s IH]; intros a b; simpl; [done|].
  case_decide as Hd; [intros [= <- <-]; subst; split; [done|by intros ?%elem_of_nil]|].
  destruct (split_once c s) as [[a' b']|]; [|done]. intros [= <- <-].
  destruct (IH a' b' eq_refl) as [-> Hc]. split; [done|].
  rewrite elem_of_cons. intros [?|?]; congruence.
Qed.

Lemma rsplit_once_Some c s a b : rsplit_once c s = Some (a, b) → s = a ++ c :: b ∧ c ∉ b.
Proof.
  unfold rsplit_once. destruct (split_once c (reverse s)) as [[x y]|] eqn:E; [|done].
  intros [= <- <-]. apply split_once_Some in E as [E Hc].
  split; [|by rewrite elem_of_reverse].
  rewrite <- (reverse_involutive s), E, reverse_app, reverse_cons, <- app_assoc. done.
Qed.

(** Lines, each with its LF. *)
Definition unlines (ls : list str) : str := mjoin ((λ l, l ++ [LF]) <$> ls).

Lemma unlines_cons l ls : unlines (l :: ls) = l ++ LF :: unlines ls.
Proof. unfold unlines. simpl. by rewrite <- app_assoc. Qed.

Lemma join_snoc_lines ls l : join [LF] (ls ++ [l]) = unlines ls ++ l.
Proof.
  induction ls as [|x ls IH]; [done|]. simpl (_ ++ _).
  rewrite join_cons by (by destruct ls). rewrite IH, unlines_cons. by rewrite <- app_assoc.
Qed.

Lemma split_unlines ls : Forall (λ l, LF ∉ l) ls → split_char LF (unlines ls) = ls ++ [[]].
Proof.
  intros H. rewrite <- (app_nil_r (unlines ls)), <- join_snoc_lines.
  apply split_char_join; [by destruct ls|]. apply Forall_app. split; [done|].
  constructor; [|done]. by intros ?%elem_of_nil.
Qed.

Lemma sort_by_key_sorted {A} (key : A → nat) (v : list A) :
  StronglySorted (λ x y, key x ≤ key y) (sort_by_key key v).
Proof.
  induction v as [|x v IH]; simpl; [constructor|].
  apply insert_by_key_sorted; [lia|done|lia|done].
Qed.

Lemma one_of_true ks s : one_of ks s = true ↔ s ∈ ks.
Proof.
  unfold one_of. rewrite existsb_exists. setoid_rewrite <-list_elem_of_In.
  setoid_rewrite bool_decide_eq_true. naive_solver.
Qed.

(** Membership in [List.filter] and [existsb] over stdpp's [∈]. *)
Lemma elem_of_filterb {A} (f : A → bool) l x : x ∈ List.filter f l ↔ x ∈ l ∧ f x = true.
Proof. rewrite !list_elem_of_In. apply filter_In. Qed.
Lemma filterb_filterb {A} (f g : A → bool) l : List.filter f (List.filter g l) = List.filter (λ x, g x && f x) l.
Proof. induction l as [|x l IH]; cbn; [done|]. destruct (g x); cbn; [destruct (f x); by rewrite IH|done]. Qed.
Lemma existsb_ext {A} (f g : A → bool) l : (∀ x, f x = g x) → existsb f l = existsb g l.
Proof. intros Hfg. induction l as [|x l IH]; cbn; [done|]. by rewrite Hfg, IH. Qed.

Lemma existsb_elem {A} (f : A → bool) l : existsb f l = true ↔ ∃ x, x ∈ l ∧ f x = true.
Proof. rewrite existsb_exists. by setoid_rewrite list_elem_of_In. Qed.

Lemma find_map_Some {A B} (f : A → option B) l y :
  find_map f l = Some y ↔ ∃ l1 x l2, l = l1 ++ x :: l2 ∧ f x = Some y ∧ Forall (λ x, f x = None) l1.
Proof.
  split.
  - induction l as [|x l IH]; [done|]. cbn. destruct (f x) as [z|] eqn:Hx.
    + intros [= ->]. by exists [], x, l.
    + intros (l1 & x' & l2 & -> & Hy & Hl)%IH. exists (x :: l1), x', l2. auto.
  - intros (l1 & x & l2 & -> & Hy & Hl). induction Hl as [|z l1 Hz _ IH]; cbn; [by rewrite Hy|].
    by rewrite Hz.
Qed.

Lemma find_map_None {A B} (f : A → option B) l : find_map f l = None ↔ Forall (λ x, f x = None) l.
Proof.
  induction l as [|x l IH]; cbn; [by split; [constructor|]|]. rewrite Forall_cons.
  destruct (f x); [|naive_solver]. split; [done|by intros [? _]].
Qed.

Lemma list_length_ind {A} (P : list A → Prop) :
  (∀ l, (∀ k, length k < length l → P k) → P l) → ∀ l, P l.
Proof.
  intros H l. remember (length l) as n eqn:Hn. revert l Hn.
  induction (lt_wf n) as [n _ IH]. intros l ->. apply H. intros k Hk. by eapply IH.
Qed.

Lemma split_by_ne {A} (p : A → bool) s : split_by p s ≠ [].
Proof. destruct s; cbn; [done|]. destruct (p a); [done|]. by destruct (split_by p s). Qed.

(** ** Orders *)

(** The derived order on strings and vectors: lexicographic. *)
Section lex.
Context {A : Type} `{EqDecision A} (R : relation A) `{!RelDecision R}.

Fixpoint lex_le (l k : list A) : Prop :=
  match l, k with
  | [], _ => True
  | _ :: _, [] => False
  | x :: l', y :: k' => if decide (x = y) then lex_le l' k' else R x y
  end.

#[global] Instance lex_le_dec : RelDecision lex_le.
Proof.
  intros l. induction l as [|x l IH]; intros [|y k]; cbn; try (left; done) || (right; tauto).
  destruct (decide (x = y)); [apply IH|apply RelDecision0].
Defined.

#[global] Instance lex_le_total `{!Total R} : Total lex_le.
Proof.
  intros l; induction l as [|x l IH]; intros [|y k]; cbn; auto.
  destruct (decide (x = y)) as [->|Hne].
  - rewrite decide_True by done. apply IH.
  - rewrite decide_False by done. apply (total R).
Qed.

#[global] Instance lex_le_antisymm `{!AntiSymm (=) R} : AntiSymm (=) lex_le.
Proof.
  intros l; induction l as [|x l IH]; intros [|y k]; cbn; try done.
  destruct (decide (x = y)) as [->|Hne].
  - rewrite decide_True by done. intros. f_equal. auto.
  - rewrite decide_False by done. intros. by destruct Hne; apply (anti_symm R).
Qed.

#[global] Instance lex_le_transitive `{!Transitive R, !AntiSymm (=) R} : Transitive lex_le.
Proof.
  intros l; induction l as [|x l IH]; intros [|y k] [|z m]; cbn; try done.
  destruct (decide (x = y)) as [->|Hxy], (decide (y = z)) as [->|Hyz].
  - apply IH.
  - done.
  - by rewrite decide_False.
  - intros Hx Hy. rewrite decide_False; [by etrans|]. intros ->. by destruct Hxy; apply (anti_symm R).
Qed.
End lex.

Definition str_le : relation str := lex_le N.le.
Definition vec_le : relation (list str) := lex_le str_le.

#[export] Hint Resolve strip_prefix_app trim_end_matches_snoc split_char_ne : rust.
#[export] Hint Rewrite @update_last_snoc @last_is_snoc @last_snoc @pop_snoc
  strip_prefix_app : rust_simpl.
