(* ===== verification/PatchParser.v ===== *)
(** * The patch format: [apply-patch/src/parser.rs] and [streaming_parser.rs]

    The hunks of a patch, the incremental parser that turns streamed text into
    them, and [parse_patch], which runs it on a complete text. The parser's
    state is passed explicitly; a step returns the state it leaves behind with
    its result, since an error keeps what was parsed before it. *)

From stdpp Require Import prelude list strings.
From S2P Require Import Prelude.

Definition BEGIN_PATCH_MARKER : str := $"*** Begin Patch".
Definition END_PATCH_MARKER : str := $"*** End Patch".
Definition ADD_FILE_MARKER : str := $"*** Add File: ".
Definition DELETE_FILE_MARKER : str := $"*** Delete File: ".
Definition UPDATE_FILE_MARKER : str := $"*** Update File: ".
Definition MOVE_TO_MARKER : str := $"*** Move to: ".
Definition EOF_MARKER : str := $"*** End of File".
Definition CHANGE_CONTEXT_MARKER : str := $"@@ ".
Definition EMPTY_CHANGE_CONTEXT_MARKER : str := $"@@".
Definition ENVIRONMENT_ID_MARKER : str := $"*** Environment ID:".

Inductive ParseError : Type :=
| InvalidPatchError (message : str)
| InvalidHunkError (message : str) (line_number : nat).

Record UpdateFileChunk := mkChunk {
  change_context : option str;
  old_lines : list str;
  new_lines : list str;
  context_line_indices : list (nat * nat);
  is_end_of_file : bool
}.

(** [UpdateFileChunk::default()] *)
Definition default_chunk : UpdateFileChunk := mkChunk None [] [] [] false.

(** Paths are the text between the marker and the end of the line. *)
Inductive Hunk : Type :=
| AddFile (path : str) (contents : str)
| DeleteFile (path : str)
| UpdateFile (path : str) (move_path : option str) (chunks : list UpdateFileChunk).

(** [Hunk::path]: the destination of a rename, the path of any other hunk. *)
Definition hunk_path (h : Hunk) : str :=
  match h with
  | AddFile path _ => path
  | DeleteFile path => path
  | UpdateFile _ (Some path) _ => path
  | UpdateFile path None _ => path
  end.

#[global] Instance ParseError_eq_dec : EqDecision ParseError.
Proof. solve_decision. Defined.
#[global] Instance UpdateFileChunk_eq_dec : EqDecision UpdateFileChunk.
Proof. solve_decision. Defined.
#[global] Instance Hunk_eq_dec : EqDecision Hunk.
Proof. solve_decision. Defined.

Definition push_context_line (line : str) (c : UpdateFileChunk) : UpdateFileChunk :=
  mkChunk (change_context c) (old_lines c ++ [line]) (new_lines c ++ [line])
    (context_line_indices c ++ [(length (old_lines c), length (new_lines c))])
    (is_end_of_file c).

Definition push_new_line (line : str) (c : UpdateFileChunk) : UpdateFileChunk :=
  mkChunk (change_context c) (old_lines c) (new_lines c ++ [line])
    (context_line_indices c) (is_end_of_file c).

Definition push_old_line (line : str) (c : UpdateFileChunk) : UpdateFileChunk :=
  mkChunk (change_context c) (old_lines c ++ [line]) (new_lines c)
    (context_line_indices c) (is_end_of_file c).

Definition mark_end_of_file (c : UpdateFileChunk) : UpdateFileChunk :=
  mkChunk (change_context c) (old_lines c) (new_lines c) (context_line_indices c) true.

Definition chunk_has_no_lines (c : UpdateFileChunk) : bool :=
  is_empty (old_lines c) && is_empty (new_lines c).

(** ** The streaming parser *)
Inductive StreamingParserMode : Type :=
| NotStarted
| StartedPatch
| InAddFile
| InDeleteFile
| InUpdateFile (hunk_line_number : nat)
| EndedPatch.

Record StreamingParserState := mkState {
  mode : StreamingParserMode;
  hunks : list Hunk;
  environment_id : option str
}.

Record StreamingPatchParser := mkParser {
  line_buffer : str;
  state : StreamingParserState;
  line_number : nat
}.

Definition default_parser : StreamingPatchParser :=
  mkParser [] (mkState NotStarted [] None) 0.

Definition set_mode (m : StreamingParserMode) (p : StreamingPatchParser) : StreamingPatchParser :=
  mkParser (line_buffer p) (mkState m (hunks (state p)) (environment_id (state p)))
    (line_number p).
Definition set_environment_id (e : str) (p : StreamingPatchParser) : StreamingPatchParser :=
  mkParser (line_buffer p) (mkState (mode (state p)) (hunks (state p)) (Some e))
    (line_number p).
(** Push a hunk and enter the mode that reads its body. *)
Definition open_hunk (h : Hunk) (m : StreamingParserMode) (p : StreamingPatchParser) : StreamingPatchParser :=
  mkParser (line_buffer p) (mkState m (hunks (state p) ++ [h]) (environment_id (state p)))
    (line_number p).
(** Write back the hunk borrowed with [hunks.last_mut()]. *)
Definition set_last_hunk (h : Hunk) (p : StreamingPatchParser) : StreamingPatchParser :=
  mkParser (line_buffer p)
    (mkState (mode (state p)) (update_last (λ _, h) (hunks (state p))) (environment_id (state p)))
    (line_number p).

Definition unexpected_line_message (line : str) : str :=
  $"Unexpected line found in update hunk: '" ++ line ++
  $"'. Every line should start with ' ' (context line), '+' (added line), or '-' (removed line)".
Definition not_a_header_message (trimmed : str) : str :=
  $"'" ++ trimmed ++
  $"' is not a valid hunk header. Valid hunk headers: '*** Add File: {path}', '*** Delete File: {path}', '*** Update File: {path}'".
Definition expected_context_message (line : str) : str :=
  $"Expected update hunk to start with a @@ context marker, got: '" ++ line ++ $"'".
Definition first_line_message : str :=
  $"The first line of the patch must be '*** Begin Patch'".
Definition last_line_message : str :=
  $"The last line of the patch must be '*** End Patch'".

Definition ensure_update_hunk_is_not_empty (p : StreamingPatchParser) (line : str) : result ParseError unit :=
  match last (hunks (state p)) with
  | Some (UpdateFile path _ chunks) =>
      match is_empty chunks, mode (state p) with
      | true, InUpdateFile hunk_line_number =>
          Err (InvalidHunkError ($"Update file hunk for path '" ++ path ++ $"' is empty")
                 hunk_line_number)
      | _, _ =>
          if last_is chunk_has_no_lines chunks then
            if decide (line = END_PATCH_MARKER)
            then Err (InvalidHunkError ($"Update hunk does not contain any lines") (line_number p))
            else Err (InvalidHunkError (unexpected_line_message line) (line_number p))
          else Ok tt
      end
  | _ => Ok tt
  end.

Definition in_started_patch (p : StreamingPatchParser) : bool :=
  match mode (state p) with StartedPatch => true | _ => false end.

(** The headers that end one hunk and begin another: each first requires that
    the update hunk being read has content. *)
Definition handle_hunk_header (p : StreamingPatchParser) (trimmed : str) : StreamingPatchParser * result ParseError bool :=
  let guarded (p' : StreamingPatchParser) :=
    match ensure_update_hunk_is_not_empty p trimmed with
    | Err e => (p, Err e)
    | Ok _ => (p', Ok true)
    end in
  if decide (trimmed = END_PATCH_MARKER) then guarded (set_mode EndedPatch p) else
  match strip_prefix ADD_FILE_MARKER trimmed with
  | Some path => guarded (open_hunk (AddFile path []) InAddFile p)
  | None =>
  match strip_prefix DELETE_FILE_MARKER trimmed with
  | Some path => guarded (open_hunk (DeleteFile path) InDeleteFile p)
  | None =>
  match strip_prefix UPDATE_FILE_MARKER trimmed with
  | Some path => guarded (open_hunk (UpdateFile path None []) (InUpdateFile (line_number p)) p)
  | None => (p, Ok false)
  end end end.

Definition handle_hunk_headers_and_end_patch (p : StreamingPatchParser) (trimmed : str) : StreamingPatchParser * result ParseError bool :=
  match (if in_started_patch p then strip_prefix ENVIRONMENT_ID_MARKER trimmed else None) with
  | Some raw =>
      match environment_id (state p) with
      | Some _ => (p, Err (InvalidPatchError
                     ($"apply_patch environment_id cannot be specified more than once")))
      | None =>
          let e := trim raw in
          if is_empty e
          then (p, Err (InvalidPatchError ($"apply_patch environment_id cannot be empty")))
          else (set_environment_id e p, Ok true)
      end
  | None => handle_hunk_header p trimmed
  end.

Definition is_change_context (update_line : str) : bool :=
  bool_decide (update_line = EMPTY_CHANGE_CONTEXT_MARKER)
  || starts_with CHANGE_CONTEXT_MARKER update_line.

(** [if chunks.is_empty() { push(default) }; chunks.last_mut() ...] *)
Definition edit_last_chunk (f : UpdateFileChunk → UpdateFileChunk) (chunks : list UpdateFileChunk) : list UpdateFileChunk :=
  update_last f (if is_empty chunks then [default_chunk] else chunks).

(** The body of the [UpdateFile] arm of [process_line] once no header matched:
    the new [move_path] and chunks of the last hunk, or an error. *)
Definition process_update_body (move_path : option str) (chunks : list UpdateFileChunk)
    (line : str) (line_number : nat) : result ParseError (option str * list UpdateFileChunk) :=
  let update_line := trim_end line in
  if last_is is_end_of_file chunks && is_empty update_line then Ok (move_path, chunks) else
  if last_is is_end_of_file chunks && negb (is_change_context update_line)
  then Err (InvalidHunkError (expected_context_message line) line_number) else
  match (if is_empty chunks && bool_decide (move_path = None)
         then strip_prefix MOVE_TO_MARKER update_line else None) with
  | Some move_to_path => Ok (Some move_to_path, chunks)
  | None =>
  if is_change_context update_line && last_is chunk_has_no_lines chunks
  then Err (InvalidHunkError (unexpected_line_message line) line_number) else
  if decide (update_line = EMPTY_CHANGE_CONTEXT_MARKER)
  then Ok (move_path, chunks ++ [default_chunk]) else
  match strip_prefix CHANGE_CONTEXT_MARKER update_line with
  | Some ctx => Ok (move_path, chunks ++ [mkChunk (Some ctx) [] [] [] false])
  | None =>
  if decide (update_line = EOF_MARKER) then
    if last_is chunk_has_no_lines chunks
    then Err (InvalidHunkError ($"Update hunk does not contain any lines") line_number)
    else Ok (move_path, update_last mark_end_of_file chunks)
  else
  match line with
  | [] => Ok (move_path, edit_last_chunk (push_context_line []) chunks)
  | c :: rest =>
      if decide (c = SPACE) then Ok (move_path, edit_last_chunk (push_context_line rest) chunks)
      else if decide ([c] = $"+") then Ok (move_path, edit_last_chunk (push_new_line rest) chunks)
      else if decide ([c] = $"-") then Ok (move_path, edit_last_chunk (push_old_line rest) chunks)
      else if last_is (λ chunk, negb (chunk_has_no_lines chunk)) chunks
      then Err (InvalidHunkError (expected_context_message line) line_number)
      else Err (InvalidHunkError (unexpected_line_message line) line_number)
  end end end.

(** The body of the [AddFile] arm: a ['+'] line extends the last hunk. *)
Definition process_add_body (p : StreamingPatchParser) (line : str) : option StreamingPatchParser :=
  match strip_prefix ($"+") line, last (hunks (state p)) with
  | Some line_to_add, Some (AddFile path contents) =>
      Some (set_last_hunk (AddFile path (contents ++ line_to_add ++ [LF])) p)
  | _, _ => None
  end.

Definition process_line (p : StreamingPatchParser) (line : str) : StreamingPatchParser * result ParseError unit :=
  let trimmed := trim line in
  match mode (state p) with
  | NotStarted =>
      if decide (trimmed = BEGIN_PATCH_MARKER) then (set_mode StartedPatch p, Ok tt)
      else (p, Err (InvalidPatchError first_line_message))
  | StartedPatch | InDeleteFile =>
      match handle_hunk_headers_and_end_patch p trimmed with
      | (p', Err e) => (p', Err e)
      | (p', Ok true) => (p', Ok tt)
      | (p', Ok false) =>
          (p', Err (InvalidHunkError (not_a_header_message trimmed) (line_number p)))
      end
  | InAddFile =>
      match handle_hunk_headers_and_end_patch p trimmed with
      | (p', Err e) => (p', Err e)
      | (p', Ok true) => (p', Ok tt)
      | (p', Ok false) =>
          match process_add_body p' line with
          | Some p'' => (p'', Ok tt)
          | None =>
              (p', Err (InvalidHunkError (not_a_header_message trimmed) (line_number p)))
          end
      end
  | InUpdateFile hunk_line_number =>
      match handle_hunk_headers_and_end_patch p (trim_end line) with
      | (p', Err e) => (p', Err e)
      | (p', Ok true) => (p', Ok tt)
      | (p', Ok false) =>
          match last (hunks (state p')) with
          | Some (UpdateFile path move_path chunks) =>
              match process_update_body move_path chunks line (line_number p') with
              | Ok (move_path', chunks') =>
                  (set_last_hunk (UpdateFile path move_path' chunks') p', Ok tt)
              | Err e => (p', Err e)
              end
          | _ => (p', Err (InvalidHunkError (unexpected_line_message line) (line_number p')))
          end
      end
  | EndedPatch =>
      if is_empty trimmed then (p, Ok tt)
      else (p, Err (InvalidPatchError last_line_message))
  end.

(** [mem::take] of the line buffer together with the line count. *)
Definition take_line (p : StreamingPatchParser) : StreamingPatchParser :=
  mkParser [] (state p) (S (line_number p)).

Definition push_char (p : StreamingPatchParser) (ch : char) : StreamingPatchParser * result ParseError unit :=
  if decide (ch = LF) then process_line (take_line p) (strip_cr (line_buffer p))
  else (mkParser (line_buffer p ++ [ch]) (state p) (line_number p), Ok tt).

Fixpoint push_chars (p : StreamingPatchParser) (delta : str) : StreamingPatchParser * result ParseError unit :=
  match delta with
  | [] => (p, Ok tt)
  | ch :: rest =>
      match push_char p ch with
      | (p', Err e) => (p', Err e)
      | (p', Ok _) => push_chars p' rest
      end
  end.

Definition push_delta (p : StreamingPatchParser) (delta : str) : StreamingPatchParser * result ParseError (list Hunk) :=
  match push_chars p delta with
  | (p', Ok _) => (p', Ok (hunks (state p')))
  | (p', Err e) => (p', Err e)
  end.

(** The last line, which has no LF. *)
Definition finish_line (p : StreamingPatchParser) : StreamingPatchParser * result ParseError unit :=
  let line := line_buffer p in
  if is_empty line then (p, Ok tt) else
  if decide (trim line = END_PATCH_MARKER) then
    match ensure_update_hunk_is_not_empty (take_line p) (trim line) with
    | Err e => (take_line p, Err e)
    | Ok _ => (set_mode EndedPatch (take_line p), Ok tt)
    end
  else process_line (take_line p) line.

Definition finish (p : StreamingPatchParser) : StreamingPatchParser * result ParseError (list Hunk) :=
  match finish_line p with
  | (p', Err e) => (p', Err e)
  | (p', Ok _) =>
      match mode (state p') with
      | EndedPatch => (p', Ok (hunks (state p')))
      | _ => (p', Err (InvalidPatchError last_line_message))
      end
  end.

(** ** [parse_patch] on a complete text *)
Record ApplyPatchArgs := mkArgs {
  args_patch : str;
  args_hunks : list Hunk;
  workdir : option str;
  args_environment_id : option str
}.

Inductive ParseMode : Type := Strict | Lenient.

(** [const PARSE_IN_STRICT_MODE: bool = false] *)
Definition PARSE_IN_STRICT_MODE : bool := false.

Definition check_start_and_end_lines_strict (first_line last_line : option str) : result ParseError unit :=
  match trim <$> first_line, trim <$> last_line with
  | Some first, Some last =>
      if decide (first = BEGIN_PATCH_MARKER ∧ last = END_PATCH_MARKER) then Ok tt
      else if decide (first ≠ BEGIN_PATCH_MARKER)
      then Err (InvalidPatchError first_line_message)
      else Err (InvalidPatchError last_line_message)
  | Some first, None =>
      if decide (first ≠ BEGIN_PATCH_MARKER)
      then Err (InvalidPatchError first_line_message)
      else Err (InvalidPatchError last_line_message)
  | None, _ => Err (InvalidPatchError last_line_message)
  end.

Definition check_patch_boundaries_strict (ls : list str) : result ParseError (list str) :=
  let? _ := check_start_and_end_lines_strict (head ls) (last ls) in Ok ls.

Definition QUOTE : char := 34%N.
Definition is_heredoc_start (l : str) : bool :=
  bool_decide (l = $"<<EOF") || bool_decide (l = $"<<'EOF'")
  || bool_decide (l = $"<<" ++ [QUOTE] ++ $"EOF" ++ [QUOTE]).

Definition check_patch_boundaries_lenient (original_lines : list str) : result ParseError (list str) :=
  match check_patch_boundaries_strict original_lines with
  | Ok ls => Ok ls
  | Err original_parse_error =>
      match head original_lines, last original_lines with
      | Some first, Some last =>
          if decide (2 ≤ length original_lines) then
            if is_heredoc_start first && ends_with ($"EOF") last
               && (4 <=? length original_lines)
            then check_patch_boundaries_strict
                   (take (length original_lines - 2) (drop 1 original_lines))
            else Err original_parse_error
          else Err original_parse_error
      | _, _ => Err original_parse_error
      end
  end.

Definition parse_patch_text (patch : str) (m : ParseMode) : result ParseError ApplyPatchArgs :=
  let ls := lines (trim patch) in
  let? patch_lines := match m with
                      | Strict => check_patch_boundaries_strict ls
                      | Lenient => check_patch_boundaries_lenient ls
                      end in
  let patch' := join [LF] patch_lines in
  match push_delta default_parser patch' with
  | (_, Err e) => Err e
  | (p, Ok _) =>
      match finish p with
      | (_, Err e) => Err e
      | (p', Ok hs) => Ok (mkArgs patch' hs None (environment_id (state p')))
      end
  end.

Definition parse_patch (patch : str) : result ParseError ApplyPatchArgs :=
  parse_patch_text patch (if PARSE_IN_STRICT_MODE then Strict else Lenient).

Example parse_patch_example :
  parse_patch (join [LF] [ $"<<'EOF'"; $"*** Begin Patch"; $"*** Add File: foo"; $"+hi"; $"*** Update File: a.py";
    $"*** Move to: b.py"; $"@@ def f():"; $" x"; $"-y"; $"+z"; $"*** End of File"; $"*** End Patch"; $"EOF"])
  = Ok (mkArgs (join [LF] [ $"*** Begin Patch"; $"*** Add File: foo"; $"+hi"; $"*** Update File: a.py";
    $"*** Move to: b.py"; $"@@ def f():"; $" x"; $"-y"; $"+z"; $"*** End of File"; $"*** End Patch"])
    [AddFile ($"foo") ($"hi" ++ [LF]);
     UpdateFile ($"a.py") (Some ($"b.py"))
       [mkChunk (Some ($"def f():")) [ $"x"; $"y"] [ $"x"; $"z"] [(0, 0)] true]] None None).
Proof. vm_compute. reflexivity. Qed.

(** ** Streaming: the split of the text into deltas does not matter *)
Lemma push_chars_app p d1 d2 :
  push_chars p (d1 ++ d2) =
    match push_chars p d1 with
    | (p', Ok _) => push_chars p' d2
    | (p', Err e) => (p', Err e)
    end.
Proof.
  revert p. induction d1 as [|ch d1 IH]; intros p; simpl; [done|].
  destruct (push_char p ch) as [p' [[]|e]]; [apply IH|done].
Qed.

(** ** The invariant of parsed hunks *)

(** Context indices increase in both components, so that the stretches between
    them are slices of the two sides. *)
Fixpoint indices_from (i j : nat) (ctx : list (nat * nat)) : Prop :=
  match ctx with
  | [] => True
  | (a, b) :: rest => i ≤ a ∧ j ≤ b ∧ indices_from (S a) (S b) rest
  end.

Definition same_line (olds news : list str) (ab : nat * nat) : Prop :=
  ∃ l, olds !! ab.1 = Some l ∧ news !! ab.2 = Some l.

(** A chunk whose context indices are increasing and pair equal lines. *)
Definition chunk_wf (c : UpdateFileChunk) : Prop :=
  indices_from 0 0 (context_line_indices c) ∧
  Forall (same_line (old_lines c) (new_lines c)) (context_line_indices c).

Definition chunk_complete (c : UpdateFileChunk) : Prop :=
  chunk_wf c ∧ chunk_has_no_lines c = false.

(** What a consumer of a parsed hunk may rely on. *)
Definition hunk_wf (h : Hunk) : Prop :=
  match h with
  | AddFile _ contents => contents = [] ∨ last contents = Some LF
  | DeleteFile _ => True
  | UpdateFile _ _ chunks => chunks ≠ [] ∧ Forall chunk_complete chunks
  end.

(** The chunks of an update hunk that is still being read: the last may have
    no lines yet. *)
Definition chunks_open (chunks : list UpdateFileChunk) : Prop :=
  chunks = [] ∨ ∃ cs c, chunks = cs ++ [c] ∧ Forall chunk_complete cs ∧ chunk_wf c.

Definition parser_inv (p : StreamingPatchParser) : Prop :=
  match mode (state p) with
  | NotStarted | StartedPatch => hunks (state p) = []
  | InAddFile | InDeleteFile | EndedPatch => Forall hunk_wf (hunks (state p))
  | InUpdateFile _ => ∃ hs path mv chunks,
      hunks (state p) = hs ++ [UpdateFile path mv chunks] ∧
      Forall hunk_wf hs ∧ chunks_open chunks
  end.

Lemma indices_from_snoc i j ctx a b :
  indices_from i j ctx → i ≤ a → j ≤ b →
  Forall (λ ab, ab.1 < a ∧ ab.2 < b) ctx → indices_from i j (ctx ++ [(a, b)]).
Proof.
  intros H Ha Hb Hall. revert i j H Ha Hb.
  induction Hall as [|[a' b'] ctx [Ha' Hb'] _ IH]; intros i j H ??; simpl in *; [done|].
  destruct H as (?&?&?). split_and!; [done..|]. apply IH; [done|lia|lia].
Qed.

Lemma same_line_mono olds news olds' news' ab :
  same_line olds news ab → same_line (olds ++ olds') (news ++ news') ab.
Proof. intros (l & H1 & H2). exists l. split; by apply lookup_app_l_Some. Qed.

Lemma chunk_wf_push_context l c : chunk_wf c → chunk_wf (push_context_line l c).
Proof.
  intros [Hi Hs]. split; simpl.
  - apply indices_from_snoc; [done|lia|lia|]. eapply Forall_impl; [exact Hs|].
    intros ab (x & H1 & H2). split; by eapply lookup_lt_Some.
  - apply Forall_app. split.
    + eapply Forall_impl; [exact Hs|]. intros. by apply same_line_mono.
    + constructor; [|done]. exists l. split; simpl; by apply list_lookup_middle.
Qed.

Lemma chunk_wf_push_new l c : chunk_wf c → chunk_wf (push_new_line l c).
Proof.
  intros [Hi Hs]. split; [done|]. eapply Forall_impl; [exact Hs|]. intros ab H.
  simpl. rewrite <- (app_nil_r (old_lines c)). by apply same_line_mono.
Qed.

Lemma chunk_wf_push_old l c : chunk_wf c → chunk_wf (push_old_line l c).
Proof.
  intros [Hi Hs]. split; [done|]. eapply Forall_impl; [exact Hs|]. intros ab H.
  simpl. rewrite <- (app_nil_r (new_lines c)). by apply same_line_mono.
Qed.

Lemma chunk_wf_fresh ctx eof : chunk_wf (mkChunk ctx [] [] [] eof).
Proof. by repeat constructor. Qed.

#[export] Hint Resolve chunk_wf_push_context chunk_wf_push_new chunk_wf_push_old
  chunk_wf_fresh : rust.

Lemma chunks_open_edit f chunks :
  (∀ c, chunk_wf c → chunk_wf (f c)) → chunks_open chunks → chunks_open (edit_last_chunk f chunks).
Proof.
  intros Hf [->|(cs & c & -> & Hcs & Hc)]; right.
  - exists [], (f default_chunk). split_and!; [done..|]. apply Hf, chunk_wf_fresh.
  - exists cs, (f c). unfold edit_last_chunk.
    replace (is_empty (cs ++ [c])) with false by (by destruct cs).
    rewrite update_last_snoc. auto.
Qed.

Lemma chunks_open_push ctx chunks :
  last_is chunk_has_no_lines chunks = false → chunks_open chunks →
  chunks_open (chunks ++ [mkChunk ctx [] [] [] false]).
Proof.
  intros Hl [->|(cs & c & -> & Hcs & Hc)]; right; eexists _, _; split_and!; try done.
  all: eauto with rust. rewrite last_is_snoc in Hl.
  apply Forall_app. split; [done|]. constructor; [by split|done].
Qed.

Lemma chunks_open_eof chunks :
  chunks_open chunks → chunks_open (update_last mark_end_of_file chunks).
Proof.
  intros [->|(cs & c & -> & Hcs & Hc)]; [by left|right].
  rewrite update_last_snoc. eauto 10.
Qed.

Lemma process_update_body_open mv chunks line n mv' chunks' :
  chunks_open chunks → process_update_body mv chunks line n = Ok (mv', chunks') →
  chunks_open chunks'.
Proof.
  intros Ho. unfold process_update_body.
  destruct (last_is is_end_of_file chunks && is_empty (trim_end line)); [by intros [= <- <-]|].
  destruct (last_is is_end_of_file chunks && negb _); [done|].
  destruct (if is_empty chunks && _ then _ else _); [by intros [= <- <-]|].
  destruct (is_change_context (trim_end line) && last_is chunk_has_no_lines chunks) eqn:Hno;
    [done|].
  case_decide as Hempty.
  { intros [= <- <-]. apply chunks_open_push; [|done].
    unfold is_change_context in Hno. by rewrite bool_decide_true in Hno. }
  destruct (strip_prefix CHANGE_CONTEXT_MARKER (trim_end line)) eqn:Hctx.
  { intros [= <- <-]. apply chunks_open_push; [|done].
    unfold is_change_context, starts_with in Hno. rewrite Hctx, orb_true_r in Hno. done. }
  case_decide; [case_match; [done|]; intros [= <- <-]; by apply chunks_open_eof|].
  destruct line as [|c rest]; [intros [= <- <-]; apply chunks_open_edit; eauto with rust|].
  repeat case_decide; try (intros [= <- <-]; apply chunks_open_edit; eauto with rust).
  by case_match.
Qed.

Lemma update_hunk_closed p line hs path mv chunks n :
  hunks (state p) = hs ++ [UpdateFile path mv chunks] → mode (state p) = InUpdateFile n →
  Forall hunk_wf hs → chunks_open chunks →
  ensure_update_hunk_is_not_empty p line = Ok tt → Forall hunk_wf (hunks (state p)).
Proof.
  intros Hh Hm Hhs Ho. unfold ensure_update_hunk_is_not_empty. rewrite Hh, Hm, last_snoc.
  destruct Ho as [->|(cs & c & -> & Hcs & Hc)]; [done|].
  replace (is_empty (cs ++ [c])) with false by (by destruct cs). rewrite last_is_snoc.
  case_match eqn:Hl; [by case_decide|]. intros _.
  apply Forall_app. split; [done|]. constructor; [|done]. split; [by destruct cs|].
  apply Forall_app. split; [done|]. constructor; [by split|done].
Qed.

(** A successful header check closes the last hunk. *)
Lemma ensure_closes p line :
  parser_inv p → ensure_update_hunk_is_not_empty p line = Ok tt →
  Forall hunk_wf (hunks (state p)).
Proof.
  unfold parser_inv. intros Hinv He. destruct (mode (state p)) eqn:Hm; try (by rewrite Hinv); try done.
  destruct Hinv as (hs & path & mv & chunks & Hh & Hhs & Ho). by eapply update_hunk_closed.
Qed.

Lemma handle_header_inv p trimmed p' r :
  parser_inv p → mode (state p) ≠ EndedPatch → handle_hunk_header p trimmed = (p', r) →
  parser_inv p' ∧ (r = Ok false → p' = p).
Proof.
  intros Hinv Hm. unfold handle_hunk_header.
  destruct (ensure_update_hunk_is_not_empty p trimmed) as [[]|e] eqn:He;
    repeat case_match; intros [= <- <-]; try done;
    pose proof (ensure_closes _ _ Hinv He) as Hwf; (split; [|done]).
  all: unfold parser_inv; simpl; try done.
  - apply Forall_app. split; [done|]. by repeat constructor.
  - apply Forall_app. split; [done|]. by repeat constructor.
  - eexists _, _, _, _. split_and!; [done..|]. by left.
Qed.

Lemma handle_headers_inv p trimmed p' r :
  parser_inv p → mode (state p) ≠ EndedPatch →
  handle_hunk_headers_and_end_patch p trimmed = (p', r) →
  parser_inv p' ∧ (r = Ok false → p' = p).
Proof.
  intros Hinv Hm. unfold handle_hunk_headers_and_end_patch.
  case_match; [|by apply handle_header_inv].
  repeat case_match; intros [= <- <-]; done.
Qed.

Lemma process_add_body_inv p line p' :
  mode (state p) = InAddFile → Forall hunk_wf (hunks (state p)) →
  process_add_body p line = Some p' → parser_inv p'.
Proof.
  intros Hm Hwf. unfold process_add_body.
  destruct (strip_prefix _ _) as [l|]; [|done].
  destruct (last (hunks (state p))) as [[path contents| |]|] eqn:Hl; try done.
  intros [= <-]. unfold parser_inv. simpl. rewrite Hm.
  apply last_Some_snoc in Hl as [hs Hl]. rewrite Hl in *. rewrite update_last_snoc.
  apply Forall_app in Hwf as [Hhs _]. apply Forall_app. split; [done|].
  constructor; [|done]. right. by rewrite app_assoc, last_snoc.
Qed.

Lemma process_line_inv p line p' r :
  parser_inv p → process_line p line = (p', r) → parser_inv p'.
Proof.
  intros Hinv. pose proof Hinv as Hinv'. unfold parser_inv in Hinv. unfold process_line.
  destruct (mode (state p)) eqn:Hm.
  - case_decide; intros [= <- <-]; done.
  - destruct (handle_hunk_headers_and_end_patch p (trim line)) as [q s] eqn:Hh.
    apply handle_headers_inv in Hh as [Hq _]; [|done|by rewrite Hm].
    repeat case_match; intros [= <- <-]; done.
  - destruct (handle_hunk_headers_and_end_patch p (trim line)) as [q s] eqn:Hh.
    apply handle_headers_inv in Hh as [Hq Hsame]; [|done|by rewrite Hm].
    destruct s as [[]|]; [by intros [= <- <-]| |by intros [= <- <-]].
    rewrite (Hsame eq_refl).
    destruct (process_add_body p line) eqn:Ha; intros [= <- <-]; [|done].
    by eapply process_add_body_inv.
  - destruct (handle_hunk_headers_and_end_patch p (trim line)) as [q s] eqn:Hh.
    apply handle_headers_inv in Hh as [Hq _]; [|done|by rewrite Hm].
    repeat case_match; intros [= <- <-]; done.
  - destruct (handle_hunk_headers_and_end_patch p (trim_end line)) as [q s] eqn:Hh.
    apply handle_headers_inv in Hh as [Hq Hsame]; [|done|by rewrite Hm].
    destruct s as [[]|]; [by intros [= <- <-]| |by intros [= <- <-]].
    rewrite (Hsame eq_refl). destruct Hinv as (hs & path & mv & chunks & Hhs & Hwf & Ho).
    rewrite Hhs, last_snoc.
    destruct (process_update_body mv chunks line (line_number p)) as [[mv' chunks']|] eqn:Hb;
      intros [= <- <-]; [|done].
    unfold parser_inv. simpl. rewrite Hm, Hhs, update_last_snoc.
    eexists hs, path, mv', chunks'.
    split_and!; [done..|]. by eapply process_update_body_open.
  - repeat case_match; intros [= <- <-]; done.
Qed.

Lemma push_chars_inv p delta p' r :
  parser_inv p → push_chars p delta = (p', r) → parser_inv p'.
Proof.
  revert p. induction delta as [|ch delta IH]; intros p Hp; simpl; [by intros [= <- <-]|].
  unfold push_char. case_decide.
  - destruct (process_line (take_line p) _) as [q [[]|e]] eqn:Hl.
    + apply IH. by eapply process_line_inv, Hl.
    + intros [= <- <-]. by eapply process_line_inv, Hl.
  - apply IH. exact Hp.
Qed.

Lemma finish_inv p p' hs :
  parser_inv p → finish p = (p', Ok hs) → Forall hunk_wf hs.
Proof.
  intros Hp. unfold finish, finish_line.
  destruct (is_empty (line_buffer p)).
  { unfold parser_inv in Hp. destruct (mode (state p)); try done. by intros [= <- <-]. }
  case_decide.
  - destruct (ensure_update_hunk_is_not_empty (take_line p) _) as [[]|] eqn:He; [|done].
    simpl. intros [= <- <-]. by apply (ensure_closes (take_line p) _ Hp He).
  - destruct (process_line (take_line p) (line_buffer p)) as [q [[]|e]] eqn:Hl; [|done].
    apply process_line_inv in Hl; [|exact Hp]. unfold parser_inv in Hl.
    case_match; try done. by intros [= <- <-].
Qed.

Lemma parse_patch_hunks_wf text args :
  parse_patch text = Ok args → Forall hunk_wf (args_hunks args).
Proof.
  unfold parse_patch, parse_patch_text. intros H.
  destruct (check_patch_boundaries_lenient _) as [ls|e]; simplify_eq/=.
  destruct (push_delta default_parser _) as [p [hs|e]] eqn:Hp; [|done].
  destruct (finish p) as [p' [hs'|e]] eqn:Hf; simplify_eq/=.
  eapply finish_inv; [|exact Hf]. unfold push_delta in Hp.
  destruct (push_chars _ _) as [q [[]|e]] eqn:Hq; simplify_eq.
  by eapply push_chars_inv, Hq.
Qed.
