(* ===== verification/PatchGrammar.v ===== *)
(** * The documented patch grammar and the parser's adequacy for it

    The module comment of [apply-patch/src/parser.rs] gives the patch format as
    a Lark grammar. This file has its syntax trees, the text each stands for
    ([render_patch]) and the hunks it means ([denote_hunk]), and shows that
    [parse_patch] accepts every such text with exactly that meaning. *)

From stdpp Require Import prelude list strings.
From S2P Require Import Prelude PatchParser.

(** ** Syntax trees *)
Inductive change_line : Type :=
| Context (s : str)
| Added (s : str)
| Removed (s : str).

(** [change_context: ("@@" | "@@ " /(.+)/) LF]; the first change of an update
    hunk may have none. *)
Inductive change_header : Type :=
| NoHeader
| EmptyHeader
| ContextHeader (s : str).

#[global] Instance change_header_eq_dec : EqDecision change_header.
Proof. solve_decision. Defined.

Record change := mkChange {
  header : change_header;
  first_line : change_line;
  more_lines : list change_line;
  at_eof : bool
}.

Inductive hunk_syntax : Type :=
| SAdd (path : str) (ls : list str)
| SDelete (path : str)
| SUpdate (path : str) (move : option str) (first : change) (rest : list change).

Record patch_syntax := mkPatch {
  p_environment : option str;
  p_hunks : list hunk_syntax
}.

(** ** Text *)
Definition render_change_line (l : change_line) : str :=
  match l with
  | Context s => $" " ++ s
  | Added s => $"+" ++ s
  | Removed s => $"-" ++ s
  end.

Definition render_header (h : change_header) : list str :=
  match h with
  | NoHeader => []
  | EmptyHeader => [EMPTY_CHANGE_CONTEXT_MARKER]
  | ContextHeader s => [CHANGE_CONTEXT_MARKER ++ s]
  end.

Definition render_change (c : change) : list str :=
  render_header (header c) ++ (render_change_line <$> (first_line c :: more_lines c))
  ++ (if at_eof c then [EOF_MARKER] else []).

Definition render_hunk (h : hunk_syntax) : list str :=
  match h with
  | SAdd path ls => (ADD_FILE_MARKER ++ path) :: ((λ l, $"+" ++ l) <$> ls)
  | SDelete path => [DELETE_FILE_MARKER ++ path]
  | SUpdate path move first rest =>
      (UPDATE_FILE_MARKER ++ path)
      :: match move with Some dest => [MOVE_TO_MARKER ++ dest] | None => [] end
      ++ render_change first ++ mjoin (render_change <$> rest)
  end.

Definition render_lines (s : patch_syntax) : list str :=
  BEGIN_PATCH_MARKER
  :: match p_environment s with
     | Some e => [ENVIRONMENT_ID_MARKER ++ $" " ++ e]
     | None => []
     end
  ++ mjoin (render_hunk <$> p_hunks s).

Definition render_patch (s : patch_syntax) : str :=
  join [LF] (render_lines s ++ [END_PATCH_MARKER]).

(** ** Meaning *)
Definition denote_line (l : change_line) (c : UpdateFileChunk) : UpdateFileChunk :=
  match l with
  | Context s => push_context_line s c
  | Added s => push_new_line s c
  | Removed s => push_old_line s c
  end.

Definition denote_change (c : change) : UpdateFileChunk :=
  let start := mkChunk (match header c with ContextHeader s => Some s | _ => None end)
                 [] [] [] false in
  let body := foldl (λ acc l, denote_line l acc) start (first_line c :: more_lines c) in
  if at_eof c then mark_end_of_file body else body.

Definition denote_hunk (h : hunk_syntax) : Hunk :=
  match h with
  | SAdd path ls => AddFile path (unlines ls)
  | SDelete path => DeleteFile path
  | SUpdate path move first rest => UpdateFile path move (denote_change <$> first :: rest)
  end.

(** ** Side conditions: a name fills the rest of its line, which ends at LF and
    loses trailing white space; a changed line is any plain line. *)
Definition valid_name (s : str) : Prop := (s ≠ []) ∧ (trim_end s = s) ∧ (LF ∉ s).
Definition valid_change_line (l : change_line) : Prop :=
  match l with Context s | Added s | Removed s => plain_line s end.
Definition valid_header (h : change_header) : Prop :=
  match h with ContextHeader s => valid_name s | _ => True end.
Definition valid_change (c : change) : Prop :=
  valid_header (header c) ∧ Forall valid_change_line (first_line c :: more_lines c).
Definition valid_hunk (h : hunk_syntax) : Prop :=
  match h with
  | SAdd path ls => valid_name path ∧ Forall plain_line ls
  | SDelete path => valid_name path
  | SUpdate path move first rest =>
      valid_name path ∧ (∀ d, move = Some d → valid_name d) ∧ valid_change first
      ∧ Forall (λ c, valid_change c ∧ header c ≠ NoHeader) rest
  end.
Definition valid_patch (s : patch_syntax) : Prop :=
  (∀ e, p_environment s = Some e → valid_name e ∧ trim e = e) ∧ Forall valid_hunk (p_hunks s).

(** ** Lines and text *)
Fixpoint process_lines (p : StreamingPatchParser) (ls : list str) : StreamingPatchParser * result ParseError unit :=
  match ls with
  | [] => (p, Ok tt)
  | l :: ls' =>
      match process_line (take_line p) l with
      | (p', Err e) => (p', Err e)
      | (p', Ok _) => process_lines p' ls'
      end
  end.

Lemma process_lines_app p p' l1 l2 :
  process_lines p l1 = (p', Ok tt) → process_lines p (l1 ++ l2) = process_lines p' l2.
Proof.
  revert p. induction l1 as [|l l1 IH]; intros p; simpl; [by intros [= ->]|].
  destruct (process_line (take_line p) l) as [q [[]|e]]; [apply IH|done].
Qed.

Lemma push_chars_buffer p l s :
  LF ∉ l → push_chars p (l ++ s) =
    push_chars (mkParser (line_buffer p ++ l) (state p) (line_number p)) s.
Proof.
  revert p. induction l as [|c l IH]; intros p Hl; simpl.
  - rewrite app_nil_r. by destruct p.
  - unfold push_char at 1. rewrite decide_False by set_solver.
    rewrite IH by set_solver. simpl. by rewrite <- app_assoc.
Qed.

Lemma handle_headers_keep_buffer p t p' r :
  handle_hunk_headers_and_end_patch p t = (p', r) → line_buffer p' = line_buffer p.
Proof.
  unfold handle_hunk_headers_and_end_patch, handle_hunk_header.
  intros H. repeat case_match; simplify_eq/=; done.
Qed.

Lemma process_line_keep_buffer p l p' r :
  process_line p l = (p', r) → line_buffer p' = line_buffer p.
Proof.
  unfold process_line, process_add_body. intros H.
  repeat case_match; simplify_eq/=;
    try match goal with
        | E : handle_hunk_headers_and_end_patch _ _ = _ |- _ =>
            apply handle_headers_keep_buffer in E
        end; done.
Qed.

(** Complete lines are processed one by one. *)
Lemma push_chars_lines p ls s :
  line_buffer p = [] → Forall plain_line ls →
  push_chars p (unlines ls ++ s) =
    match process_lines p ls with
    | (p', Ok _) => push_chars p' s
    | (p', Err e) => (p', Err e)
    end.
Proof.
  intros Hp Hls. revert p Hp. induction Hls as [|l ls [Hl Hcr] _ IH]; intros p Hp; [done|].
  rewrite unlines_cons, <- app_assoc, push_chars_buffer by done. rewrite Hp. simpl.
  unfold push_char. simpl. rewrite strip_cr_id by done.
  change (take_line _) with (take_line p).
  destruct (process_line (take_line p) l) as [q [[]|e]] eqn:E; [|done].
  apply IH. by apply process_line_keep_buffer in E.
Qed.

(** ** Single lines *)

(** Text that does not begin with an asterisk is never a header. *)
Definition STAR : char := 42%N.

Lemma handle_not_header p t :
  head t ≠ Some STAR → handle_hunk_headers_and_end_patch p t = (p, Ok false).
Proof.
  intros Ht. unfold handle_hunk_headers_and_end_patch, handle_hunk_header.
  assert (∀ m, strip_prefix (STAR :: m) t = None) as Hnone.
  { intros m. destruct t as [|c t]; [done|]. apply strip_prefix_head_ne. simpl in Ht. congruence. }
  change ENVIRONMENT_ID_MARKER with (STAR :: $"** Environment ID:"). rewrite Hnone.
  rewrite decide_False by (intros ->; done).
  change ADD_FILE_MARKER with (STAR :: $"** Add File: "). rewrite Hnone.
  change DELETE_FILE_MARKER with (STAR :: $"** Delete File: "). rewrite Hnone.
  change UPDATE_FILE_MARKER with (STAR :: $"** Update File: "). rewrite Hnone.
  by destruct (in_started_patch p).
Qed.

Lemma trim_end_cons c s : trim_end (c :: s) = [] ∨ ∃ t, trim_end (c :: s) = c :: t.
Proof. unfold trim_end. simpl. repeat case_match; eauto. Qed.

Lemma head_trim_end c s d : c ≠ d → head (trim_end (c :: s)) ≠ Some d.
Proof. intros. destruct (trim_end_cons c s) as [->|[t ->]]; simpl; congruence. Qed.

Lemma trim_marker c m s :
  is_whitespace c = false → valid_name s → trim ((c :: m) ++ s) = (c :: m) ++ s.
Proof.
  intros Hc (Hne & Hfix & _). simpl. rewrite trim_cons by done.
  rewrite (app_comm_cons m s c). by apply trim_end_app_fix.
Qed.

(** Ready for a header: outside a hunk, or inside one that is complete. *)
Record ready (p : StreamingPatchParser) (hs : list Hunk) (env : option str) : Prop := {
  ready_buffer : line_buffer p = [];
  ready_hunks : hunks (state p) = hs;
  ready_env : environment_id (state p) = env;
  ready_mode : match mode (state p) with NotStarted | EndedPatch => False | _ => True end;
  ready_ensure : ∀ line, ensure_update_hunk_is_not_empty (take_line p) line = Ok tt
}.

(** A header line acts as [handle_hunk_header] in every mode that reads one. *)
Lemma process_header p l p' :
  match mode (state p) with NotStarted | EndedPatch => False | _ => True end →
  trim l = l → trim_end l = l → strip_prefix ENVIRONMENT_ID_MARKER l = None →
  handle_hunk_header p l = (p', Ok true) → process_line p l = (p', Ok tt).
Proof.
  intros Hm Ht Hte Henv Hh. unfold process_line, handle_hunk_headers_and_end_patch.
  rewrite Ht, Hte, Henv.
  destruct (mode (state p)); try done; destruct (in_started_patch p); by rewrite Hh.
Qed.

Lemma process_file_header p hs env m path h md :
  ready p hs env → valid_name path →
  ((m = $"** Add File: " ∧ h = AddFile path [] ∧ md = InAddFile) ∨
   (m = $"** Delete File: " ∧ h = DeleteFile path ∧ md = InDeleteFile) ∨
   (m = $"** Update File: " ∧ h = UpdateFile path None [] ∧ md = InUpdateFile (S (line_number p)))) →
  process_line (take_line p) ((STAR :: m) ++ path) = (open_hunk h md (take_line p), Ok tt).
Proof.
  intros Hr Hv Hm. pose proof Hv as (Hne & Hfix & _).
  apply process_header.
  - apply (ready_mode _ _ _ Hr).
  - by apply trim_marker.
  - by apply trim_end_app_fix.
  - destruct Hm as [(->&_)|[(->&_)|(->&_)]]; reflexivity.
  - unfold handle_hunk_header. rewrite (ready_ensure _ _ _ Hr).
    rewrite decide_False by (destruct Hm as [(->&_)|[(->&_)|(->&_)]]; done).
    destruct Hm as [(->&->&->)|[(->&->&->)|(->&->&->)]]; reflexivity.
Qed.

(** ** Inside a hunk *)
Record at_hunk (p : StreamingPatchParser) (m : StreamingParserMode) (hs : list Hunk)
    (h : Hunk) (env : option str) : Prop := {
  at_buffer : line_buffer p = [];
  at_mode : mode (state p) = m;
  at_hunks : hunks (state p) = hs ++ [h];
  at_env : environment_id (state p) = env
}.

Lemma at_hunk_open p hs env h m : ready p hs env → at_hunk (open_hunk h m (take_line p)) m hs h env.
Proof. intros []. by split; simpl; subst. Qed.

Lemma at_hunk_set p m hs h env h' :
  at_hunk p m hs h env → at_hunk (set_last_hunk h' (take_line p)) m hs h' env.
Proof. intros [Hb Hm Hh He]. split; simpl; [done|done| |done]. by rewrite Hh, update_last_snoc. Qed.

Lemma at_hunk_ready p m hs h env :
  at_hunk p m hs h env →
  match m, h with
  | InAddFile, AddFile _ _ | InDeleteFile, DeleteFile _ => True
  | InUpdateFile _, UpdateFile _ _ chunks =>
      chunks ≠ [] ∧ last_is chunk_has_no_lines chunks = false
  | _, _ => False
  end → ready p (hs ++ [h]) env.
Proof.
  intros [Hb Hm Hh He] Hok. split; try done.
  - rewrite Hm. by destruct m.
  - intros line. unfold ensure_update_hunk_is_not_empty. simpl. rewrite Hh, Hm, last_snoc.
    destruct m, h; try done. destruct Hok as [Hne Hl]. rewrite Hl. by destruct chunks.
Qed.

Lemma process_add_lines p hs path c env ls :
  at_hunk p InAddFile hs (AddFile path c) env →
  ∃ p', process_lines p ((λ l, $"+" ++ l) <$> ls) = (p', Ok tt) ∧
    at_hunk p' InAddFile hs (AddFile path (c ++ unlines ls)) env.
Proof.
  revert p c. induction ls as [|l ls IH]; intros p c Hp; simpl.
  { exists p. by rewrite app_nil_r. }
  change (lit "+" ++ l) with (43%N :: l).
  unfold process_line. simpl (mode _). rewrite (at_mode _ _ _ _ _ Hp).
  rewrite handle_not_header by (rewrite trim_cons by done; by apply head_trim_end).
  unfold process_add_body. simpl (strip_prefix _ _). simpl (hunks _).
  rewrite (at_hunks _ _ _ _ _ Hp), last_snoc.
  destruct (IH _ _ (at_hunk_set _ _ _ _ _ (AddFile path (c ++ l ++ [LF])) Hp)) as (p' & Hp' & Hat).
  exists p'. split; [exact Hp'|]. rewrite unlines_cons. by rewrite <- !app_assoc in Hat.
Qed.

Lemma process_update_step p n hs path mv chunks env line mv' chunks' :
  at_hunk p (InUpdateFile n) hs (UpdateFile path mv chunks) env →
  handle_hunk_headers_and_end_patch (take_line p) (trim_end line) = (take_line p, Ok false) →
  process_update_body mv chunks line (S (line_number p)) = Ok (mv', chunks') →
  process_line (take_line p) line =
    (set_last_hunk (UpdateFile path mv' chunks') (take_line p), Ok tt).
Proof.
  intros Hp Hh Hb. unfold process_line. simpl (mode _). rewrite (at_mode _ _ _ _ _ Hp), Hh.
  simpl (hunks _). rewrite (at_hunks _ _ _ _ _ Hp), last_snoc.
  simpl (line_number _). by rewrite Hb.
Qed.

(** A line that begins with neither ['*'] nor ['@'] is body text. *)
Lemma is_change_context_head t : head t ≠ Some 64%N → is_change_context t = false.
Proof.
  intros Ht. unfold is_change_context, starts_with.
  rewrite bool_decide_false by (intros ->; done).
  destruct t as [|c t]; [done|]. change CHANGE_CONTEXT_MARKER with (64%N :: $"@ ").
  rewrite strip_prefix_head_ne; [done|simpl in Ht; congruence].
Qed.

Lemma process_change_line mv chunks l k :
  last_is is_end_of_file chunks = false →
  process_update_body mv chunks (render_change_line l) k =
    Ok (mv, edit_last_chunk (denote_line l) chunks).
Proof.
  intros Heof.
  assert (∃ c s, render_change_line l = c :: s ∧ (c = SPACE ∨ c = 43%N ∨ c = 45%N)) as (c & s & Hl & Hc)
    by (destruct l; eexists _, _; split; eauto).
  assert (∀ d, d = STAR ∨ d = 64%N → head (trim_end (c :: s)) ≠ Some d) as Hhd.
  { intros d Hd. apply head_trim_end. destruct Hc as [->|[->| ->]], Hd as [->| ->]; done. }
  assert (∀ d m, d = STAR ∨ d = 64%N → strip_prefix (d :: m) (trim_end (c :: s)) = None) as Hsp.
  { intros d m Hd. specialize (Hhd d Hd). destruct (trim_end (c :: s)); [done|].
    apply strip_prefix_head_ne. simpl in Hhd. congruence. }
  unfold process_update_body. rewrite Hl, Heof. simpl (false && _).
  rewrite is_change_context_head by (by apply Hhd; right). simpl (false && _).
  change MOVE_TO_MARKER with (STAR :: $"** Move to: "). rewrite Hsp by (by left).
  assert (∀ b : bool, (if b then None else None) = @None str) as -> by (by intros []).
  rewrite decide_False by (intros E; rewrite E in Hhd; by apply (Hhd 64%N); [right|]).
  change CHANGE_CONTEXT_MARKER with (64%N :: $"@ "). rewrite Hsp by (by right).
  rewrite decide_False by (intros E; rewrite E in Hhd; by apply (Hhd STAR); [left|]).
  destruct l; simplify_eq/=; reflexivity.
Qed.

Lemma denote_line_has_lines l c : chunk_has_no_lines (denote_line l c) = false.
Proof. destruct l; unfold chunk_has_no_lines; simpl; by destruct (old_lines c), (new_lines c). Qed.
Lemma denote_line_eof l c : is_end_of_file (denote_line l c) = is_end_of_file c.
Proof. by destruct l. Qed.

Lemma edit_last_chunk_snoc f cs c : edit_last_chunk f (cs ++ [c]) = cs ++ [f c].
Proof.
  unfold edit_last_chunk. replace (is_empty (cs ++ [c])) with false by (by destruct cs).
  apply update_last_snoc.
Qed.

Lemma handle_change_line p l :
  handle_hunk_headers_and_end_patch p (trim_end (render_change_line l)) = (p, Ok false).
Proof.
  apply handle_not_header.
  destruct l as [s|s|s]; [apply (head_trim_end 32 s)|apply (head_trim_end 43 s)|
    apply (head_trim_end 45 s)]; done.
Qed.

(** The lines of a change after the first. *)
Lemma process_change_lines p n hs path mv cs c env ls :
  at_hunk p (InUpdateFile n) hs (UpdateFile path mv (cs ++ [c])) env →
  is_end_of_file c = false → Forall valid_change_line ls →
  ∃ p', process_lines p (render_change_line <$> ls) = (p', Ok tt) ∧
    at_hunk p' (InUpdateFile n) hs
      (UpdateFile path mv (cs ++ [foldl (λ acc l, denote_line l acc) c ls])) env.
Proof.
  intros Hp Heof Hls. revert p c Hp Heof.
  induction Hls as [|l ls Hl _ IH]; intros p c Hp Heof; simpl; [by exists p|].
  rewrite (process_update_step _ _ _ _ _ _ _ _ _ _ Hp (handle_change_line _ _)
    (process_change_line _ _ _ _ (eq_trans (last_is_snoc _ _ _) Heof))).
  rewrite edit_last_chunk_snoc. apply IH.
  - by eapply at_hunk_set.
  - by rewrite denote_line_eof.
Qed.

Lemma foldl_denote_has_lines c l ls :
  chunk_has_no_lines (foldl (λ acc l, denote_line l acc) c (l :: ls)) = false.
Proof.
  revert c l. induction ls as [|l' ls IH]; intros c l; [apply denote_line_has_lines|].
  apply (IH (denote_line l c) l').
Qed.
Lemma foldl_denote_eof c ls :
  is_end_of_file (foldl (λ acc l, denote_line l acc) c ls) = is_end_of_file c.
Proof. revert c. induction ls as [|l ls IH]; intros c; simpl; [done|]. by rewrite IH, denote_line_eof. Qed.

Lemma denote_change_has_lines c : chunk_has_no_lines (denote_change c) = false.
Proof.
  pose proof (foldl_denote_has_lines
    (mkChunk (match header c with ContextHeader s => Some s | _ => None end) [] [] [] false)
    (first_line c) (more_lines c)) as H.
  unfold denote_change. destruct (at_eof c); exact H.
Qed.

Definition header_context (h : change_header) : option str :=
  match h with ContextHeader s => Some s | _ => None end.

Lemma update_not_started p n : mode (state p) = InUpdateFile n → in_started_patch p = false.
Proof. unfold in_started_patch. by intros ->. Qed.

(** The ["@@"] line of a change, when the chunks before it have lines. *)
Lemma process_change_header mv chunks h k line :
  last_is chunk_has_no_lines chunks = false → valid_header h → render_header h = [line] →
  process_update_body mv chunks line k = Ok (mv, chunks ++ [mkChunk (header_context h) [] [] [] false])
  ∧ head (trim_end line) ≠ Some STAR.
Proof.
  intros Hl Hv Hr. unfold process_update_body.
  assert (∀ b : bool, (if b then None else None) = @None str) as Hif by (by intros []).
  destruct h as [| |s]; [done| |].
  - assert (line = EMPTY_CHANGE_CONTEXT_MARKER) as -> by (unfold render_header in Hr; congruence).
    change (trim_end EMPTY_CHANGE_CONTEXT_MARKER) with EMPTY_CHANGE_CONTEXT_MARKER. simpl.
    rewrite !andb_false_r, Hif, Hl. done.
  - assert (line = CHANGE_CONTEXT_MARKER ++ s) as -> by (unfold render_header in Hr; congruence).
    destruct Hv as (Hne & Hfix & _).
    assert (trim_end (CHANGE_CONTEXT_MARKER ++ s) = CHANGE_CONTEXT_MARKER ++ s) as ->
      by (by apply trim_end_app_fix).
    assert (is_change_context (CHANGE_CONTEXT_MARKER ++ s) = true) as ->.
    { unfold is_change_context, starts_with. by rewrite strip_prefix_app, orb_true_r. }
    rewrite Hl, strip_prefix_app. simpl (is_empty _). simpl (strip_prefix _ _).
    rewrite !andb_false_r, Hif. done.
Qed.

Lemma process_header_line p n hs path mv chunks env h :
  at_hunk p (InUpdateFile n) hs (UpdateFile path mv chunks) env →
  last_is chunk_has_no_lines chunks = false → valid_header h → h ≠ NoHeader →
  ∃ p', process_lines p (render_header h) = (p', Ok tt) ∧
    at_hunk p' (InUpdateFile n) hs
      (UpdateFile path mv (chunks ++ [mkChunk (header_context h) [] [] [] false])) env.
Proof.
  intros Hp Hl Hv Hh.
  assert (∃ line, render_header h = [line]) as [line Hr] by (destruct h; simpl; eauto; done).
  rewrite Hr. simpl.
  destruct (process_change_header mv chunks h (S (line_number p)) line Hl Hv Hr) as [Hb Hhd].
  rewrite (process_update_step _ _ _ _ _ _ _ _ _ _ Hp (handle_not_header _ _ Hhd) Hb).
  eexists. split; [done|]. by eapply at_hunk_set.
Qed.

Lemma process_eof_line p n hs path mv cs c env :
  at_hunk p (InUpdateFile n) hs (UpdateFile path mv (cs ++ [c])) env →
  is_end_of_file c = false → chunk_has_no_lines c = false →
  ∃ p', process_lines p [EOF_MARKER] = (p', Ok tt) ∧
    at_hunk p' (InUpdateFile n) hs (UpdateFile path mv (cs ++ [mark_end_of_file c])) env.
Proof.
  intros Hp He Hl. unfold process_lines.
  rewrite (process_update_step _ _ _ _ _ _ _ _ mv (cs ++ [mark_end_of_file c]) Hp).
  - eexists. split; [done|]. by eapply at_hunk_set.
  - unfold handle_hunk_headers_and_end_patch.
    rewrite (update_not_started _ n) by apply (at_mode _ _ _ _ _ Hp). reflexivity.
  - unfold process_update_body. rewrite !last_is_snoc, He, Hl.
    change (trim_end EOF_MARKER) with EOF_MARKER. simpl (is_change_context _).
    simpl (false && _). replace (is_empty (cs ++ [c])) with false by (by destruct cs).
    simpl (false && _). rewrite update_last_snoc. reflexivity.
Qed.

(** A whole change appends the chunk it denotes. *)
Lemma process_change p n hs path mv chunks env c :
  at_hunk p (InUpdateFile n) hs (UpdateFile path mv chunks) env →
  last_is chunk_has_no_lines chunks = false → valid_change c →
  (header c = NoHeader → chunks = []) →
  ∃ p', process_lines p (render_change c) = (p', Ok tt) ∧
    at_hunk p' (InUpdateFile n) hs (UpdateFile path mv (chunks ++ [denote_change c])) env.
Proof.
  intros Hp Hl [Hvh Hvl] Hno. unfold render_change.
  set (start := mkChunk (header_context (header c)) [] [] [] false).
  assert (∃ p1, process_lines p (render_header (header c) ++ [render_change_line (first_line c)]) = (p1, Ok tt)
    ∧ at_hunk p1 (InUpdateFile n) hs
        (UpdateFile path mv (chunks ++ [denote_line (first_line c) start])) env) as (p1 & Hp1 & Hat1).
  { destruct (decide (header c = NoHeader)) as [Hn|Hn].
    - rewrite (Hno Hn) in *. rewrite Hn. simpl.
      rewrite (process_update_step _ _ _ _ _ _ _ _ _ _ Hp (handle_change_line _ _)
        (process_change_line _ [] _ _ eq_refl)).
      eexists. split; [done|]. subst start. rewrite Hn. by eapply at_hunk_set.
    - destruct (process_header_line _ _ _ _ _ _ _ _ Hp Hl Hvh Hn) as (q & Hq & Hatq).
      rewrite (process_lines_app _ _ _ _ Hq). simpl.
      rewrite (process_update_step _ _ _ _ _ _ _ _ _ _ Hatq (handle_change_line _ _)
        (process_change_line _ _ _ _ (last_is_snoc is_end_of_file chunks start))).
      rewrite edit_last_chunk_snoc. eexists. split; [done|]. by eapply at_hunk_set. }
  apply Forall_cons in Hvl as [_ Hvl].
  destruct (process_change_lines _ _ _ _ _ _ _ _ (more_lines c) Hat1) as (p2 & Hp2 & Hat2);
    [by rewrite denote_line_eof|done|].
  rewrite fmap_cons, <- (app_nil_l (render_change_line <$> more_lines c)), app_comm_cons.
  rewrite <- app_assoc, app_assoc, (process_lines_app _ _ _ _ Hp1), (process_lines_app _ _ _ _ Hp2).
  unfold denote_change. simpl (foldl _ _ _).
  destruct (at_eof c); [|by exists p2].
  eapply process_eof_line; [exact Hat2|by rewrite foldl_denote_eof, denote_line_eof|].
  apply (foldl_denote_has_lines start (first_line c) (more_lines c)).
Qed.

Lemma process_changes p n hs path mv chunks env cs :
  at_hunk p (InUpdateFile n) hs (UpdateFile path mv chunks) env →
  last_is chunk_has_no_lines chunks = false →
  Forall (λ c, valid_change c ∧ header c ≠ NoHeader) cs →
  ∃ p', process_lines p (mjoin (render_change <$> cs)) = (p', Ok tt) ∧
    at_hunk p' (InUpdateFile n) hs (UpdateFile path mv (chunks ++ (denote_change <$> cs))) env.
Proof.
  intros Hp Hl Hcs. revert p chunks Hp Hl.
  induction Hcs as [|c cs [Hc Hh] _ IH]; intros p chunks Hp Hl; simpl.
  { exists p. by rewrite app_nil_r. }
  destruct (process_change _ _ _ _ _ _ _ _ Hp Hl Hc) as (p1 & Hp1 & Hat1); [done|].
  rewrite (process_lines_app _ _ _ _ Hp1).
  destruct (IH _ _ Hat1) as (p2 & Hp2 & Hat2).
  { rewrite last_is_snoc. apply denote_change_has_lines. }
  exists p2. split; [done|]. by rewrite <- app_assoc in Hat2.
Qed.

Lemma process_move_line p n hs path env dest :
  at_hunk p (InUpdateFile n) hs (UpdateFile path None []) env → valid_name dest →
  ∃ p', process_lines p [MOVE_TO_MARKER ++ dest] = (p', Ok tt) ∧
    at_hunk p' (InUpdateFile n) hs (UpdateFile path (Some dest) []) env.
Proof.
  intros Hp (Hne & Hfix & _).
  assert (trim_end (MOVE_TO_MARKER ++ dest) = MOVE_TO_MARKER ++ dest) as Ht
    by (by apply trim_end_app_fix).
  unfold process_lines. rewrite (process_update_step _ _ _ _ _ _ _ _ (Some dest) [] Hp).
  - eexists. split; [done|]. by eapply at_hunk_set.
  - rewrite Ht. unfold handle_hunk_headers_and_end_patch.
    rewrite (update_not_started _ n) by apply (at_mode _ _ _ _ _ Hp). reflexivity.
  - unfold process_update_body. rewrite Ht. simpl (is_empty _ && _). cbn iota.
    rewrite strip_prefix_app. done.
Qed.

Lemma process_lines_cons p p' l ls :
  process_line (take_line p) l = (p', Ok tt) → process_lines p (l :: ls) = process_lines p' ls.
Proof. simpl. by intros ->. Qed.

Lemma process_hunk p hs env h :
  ready p hs env → valid_hunk h →
  ∃ p', process_lines p (render_hunk h) = (p', Ok tt) ∧ ready p' (hs ++ [denote_hunk h]) env.
Proof.
  intros Hp Hv. destruct h as [path ls|path|path move first rest]; unfold render_hunk.
  - destruct Hv as [Hv _].
    assert (process_line (take_line p) (ADD_FILE_MARKER ++ path) = (open_hunk (AddFile path []) InAddFile (take_line p), Ok tt))
      as Hhd by (apply (process_file_header _ _ _ _ _ _ _ Hp Hv); auto).
    rewrite (process_lines_cons _ _ _ _ Hhd).
    destruct (process_add_lines _ _ _ _ _ ls (at_hunk_open _ _ _ (AddFile path []) InAddFile Hp))
      as (p' & -> & Hat). exists p'. split; [done|]. by apply (at_hunk_ready _ _ _ _ _ Hat).
  - assert (process_line (take_line p) (DELETE_FILE_MARKER ++ path) = (open_hunk (DeleteFile path) InDeleteFile (take_line p), Ok tt))
      as Hhd by (apply (process_file_header _ _ _ _ _ _ _ Hp Hv); auto).
    rewrite (process_lines_cons _ _ _ _ Hhd).
    eexists. split; [done|].
    apply (at_hunk_ready _ _ _ _ _ (at_hunk_open _ _ _ (DeleteFile path) InDeleteFile Hp)). done.
  - destruct Hv as (Hv & Hmv & Hfirst & Hrest).
    set (md := InUpdateFile (S (line_number p))).
    assert (process_line (take_line p) (UPDATE_FILE_MARKER ++ path) = (open_hunk (UpdateFile path None []) md (take_line p), Ok tt))
      as Hhd by (apply (process_file_header _ _ _ _ _ _ _ Hp Hv); auto).
    rewrite (process_lines_cons _ _ _ _ Hhd).
    pose proof (at_hunk_open _ _ _ (UpdateFile path None []) md Hp) as Hat0.
    assert (∃ q, process_lines (open_hunk (UpdateFile path None []) md (take_line p))
      (match move with Some dest => [MOVE_TO_MARKER ++ dest] | None => [] end) = (q, Ok tt)
      ∧ at_hunk q md hs (UpdateFile path move []) env) as (q & Hq & Hatq).
    { destruct move as [dest|]; [|by eexists]. eapply process_move_line; [done|by apply Hmv]. }
    rewrite (process_lines_app _ _ _ _ Hq).
    destruct (process_change _ _ _ _ _ _ _ _ Hatq eq_refl Hfirst) as (q1 & Hq1 & Hat1); [done|].
    rewrite (process_lines_app _ _ _ _ Hq1). simpl in Hat1.
    destruct (process_changes _ _ _ _ _ _ _ _ Hat1 (denote_change_has_lines first) Hrest)
      as (q2 & Hq2 & Hat2).
    exists q2. split; [done|]. apply (at_hunk_ready _ _ _ _ _ Hat2). split; [done|].
    clear. unfold last_is. destruct (last_cases rest) as [->|(l & x & ->)]; simpl.
    + apply denote_change_has_lines.
    + rewrite fmap_app. change (denote_change <$> [x]) with [denote_change x].
      rewrite app_comm_cons, last_snoc. apply denote_change_has_lines.
Qed.

Lemma process_hunks p hs env ss :
  ready p hs env → Forall valid_hunk ss →
  ∃ p', process_lines p (mjoin (render_hunk <$> ss)) = (p', Ok tt) ∧
    ready p' (hs ++ (denote_hunk <$> ss)) env.
Proof.
  intros Hp Hss. revert p hs Hp. induction Hss as [|h ss Hh _ IH]; intros p hs Hp; simpl.
  { exists p. by rewrite app_nil_r. }
  destruct (process_hunk _ _ _ _ Hp Hh) as (q & Hq & Hrq). rewrite (process_lines_app _ _ _ _ Hq).
  destruct (IH _ _ Hrq) as (q' & Hq' & Hr'). exists q'. split; [done|].
  by rewrite <- app_assoc in Hr'.
Qed.

(** ** The whole text *)
Lemma valid_name_plain m s : plain_line m → valid_name s → plain_line (m ++ s).
Proof.
  intros [Hm _] (Hne & Hfix & Hs). split; [rewrite elem_of_app; tauto|].
  destruct (last_cases s) as [->|(l & x & ->)]; [done|].
  rewrite app_assoc, last_snoc. intros Hx. simplify_eq.
  apply trim_end_matches_fix with (c := CR) in Hfix; [done|]. by rewrite last_snoc.
Qed.

Lemma plain_line_lit m : forallb (λ c, negb (c =? LF)%N) m && negb (bool_decide (last m = Some CR)) = true → plain_line m.
Proof.
  intros H. apply andb_true_iff in H as [H1 H2]. split.
  - rewrite forallb_forall in H1. intros Hin. apply list_elem_of_In in Hin. by apply H1 in Hin.
  - apply negb_true_iff in H2. by apply bool_decide_eq_false in H2.
Qed.

Lemma plain_line_cons c s : c ≠ LF → c ≠ CR → plain_line s → plain_line (c :: s).
Proof.
  intros ?? [Hs Hl]. split; [rewrite elem_of_cons; intros [?|?]; congruence|].
  destruct s; simpl in *; congruence.
Qed.

Lemma render_change_plain c : valid_change c → Forall plain_line (render_change c).
Proof.
  intros [Hh Hl]. unfold render_change. apply Forall_app. split; [|apply Forall_app; split].
  - destruct (header c); unfold render_header; [constructor| |].
    + constructor; [|done]. by apply plain_line_lit.
    + constructor; [|done]. apply valid_name_plain; [by apply plain_line_lit|done].
  - apply Forall_fmap. eapply Forall_impl; [exact Hl|].
    intros [s|s|s] Hs; by apply plain_line_cons.
  - destruct (at_eof c); constructor; [|done]. by apply plain_line_lit.
Qed.

Lemma Forall_mjoin_fmap {A B} (P : B → Prop) (Q : A → Prop) (f : A → list B) l :
  (∀ x, Q x → Forall P (f x)) → Forall Q l → Forall P (mjoin (f <$> l)).
Proof. intros Hf Hl. induction Hl; simpl; [constructor|]. apply Forall_app. auto. Qed.

Lemma render_hunk_plain h : valid_hunk h → Forall plain_line (render_hunk h).
Proof.
  destruct h as [path ls|path|path move first rest]; unfold render_hunk, valid_hunk.
  - intros [Hp Hls]. constructor; [by apply valid_name_plain; [apply plain_line_lit|]|].
    apply Forall_fmap. eapply Forall_impl; [exact Hls|]. intros s Hs. by apply plain_line_cons.
  - intros Hp. constructor; [|done]. by apply valid_name_plain; [apply plain_line_lit|].
  - intros (Hp & Hm & Hf & Hr). constructor; [by apply valid_name_plain; [apply plain_line_lit|]|].
    apply Forall_app. split; [|apply Forall_app; split].
    + destruct move; constructor; [|done].
      apply valid_name_plain; [by apply plain_line_lit|by apply Hm].
    + by apply render_change_plain.
    + eapply Forall_mjoin_fmap; [|exact Hr]. intros c [Hc _]. by apply render_change_plain.
Qed.

Lemma render_lines_plain s : valid_patch s → Forall plain_line (render_lines s).
Proof.
  intros [He Hh]. unfold render_lines. constructor; [by apply plain_line_lit|].
  apply Forall_app. split.
  - destruct (p_environment s) as [e|]; constructor; [|done].
    rewrite app_assoc. apply valid_name_plain; [by apply plain_line_lit|by apply He].
  - eapply Forall_mjoin_fmap; [|exact Hh]. by apply render_hunk_plain.
Qed.

(** ["*** Begin Patch"] and the optional environment line. *)
Lemma process_preamble s :
  valid_patch s →
  ∃ p, process_lines default_parser (BEGIN_PATCH_MARKER ::
         match p_environment s with
         | Some e => [ENVIRONMENT_ID_MARKER ++ $" " ++ e] | None => [] end) = (p, Ok tt)
    ∧ ready p [] (p_environment s).
Proof.
  intros [He _]. destruct (p_environment s) as [e|].
  - destruct (He e eq_refl) as [Hv Ht].
    assert (trim (ENVIRONMENT_ID_MARKER ++ $" " ++ e) = ENVIRONMENT_ID_MARKER ++ $" " ++ e) as Htr.
    { rewrite app_assoc. by apply trim_marker. }
    eexists. split.
    + unfold process_lines, process_line at 1. simpl (mode _).
      rewrite decide_True by reflexivity. unfold process_line. simpl (mode _). rewrite Htr.
      unfold handle_hunk_headers_and_end_patch.
      rewrite strip_prefix_app. change (in_started_patch _) with true.
      simpl (environment_id _). cbn iota beta zeta.
      assert (trim ($" " ++ e) = e) as ->.
      { rewrite <- Ht at 2. reflexivity. }
      replace (is_empty e) with false by (destruct Hv as [Hne _]; by destruct e).
      reflexivity.
    + by split.
  - eexists. split; [reflexivity|]. by split.
Qed.

(** The last line ends the patch and yields the hunks. *)
Lemma finish_end_marker p hs env :
  ready p hs env →
  ∃ p', finish (mkParser END_PATCH_MARKER (state p) (line_number p)) = (p', Ok hs)
    ∧ environment_id (state p') = env.
Proof.
  intros Hr. unfold finish, finish_line. simpl (is_empty _). cbn iota. simpl (line_buffer _).
  rewrite decide_True by reflexivity.
  change (take_line (mkParser END_PATCH_MARKER (state p) (line_number p))) with (take_line p).
  rewrite (ready_ensure _ _ _ Hr). simpl. eexists. split.
  - by rewrite (ready_hunks _ _ _ Hr).
  - apply (ready_env _ _ _ Hr).
Qed.

Lemma parse_rendered s :
  valid_patch s →
  ∃ p p', push_delta default_parser (render_patch s) = (p, Ok (denote_hunk <$> p_hunks s)) ∧
    finish p = (p', Ok (denote_hunk <$> p_hunks s)) ∧
    environment_id (state p') = p_environment s.
Proof.
  intros Hv. destruct (process_preamble s Hv) as (p0 & Hp0 & Hr0).
  destruct (process_hunks _ _ _ _ Hr0 (proj2 Hv)) as (p1 & Hp1 & Hr1). simpl in Hr1.
  unfold push_delta, render_patch. rewrite join_snoc_lines.
  rewrite push_chars_lines; [|done|by apply render_lines_plain].
  unfold render_lines. rewrite app_comm_cons, (process_lines_app _ _ _ _ Hp0), Hp1.
  rewrite <- (app_nil_r END_PATCH_MARKER), push_chars_buffer by (by apply (plain_line_lit END_PATCH_MARKER)).
  rewrite (ready_buffer _ _ _ Hr1). simpl (push_chars _ []). cbn iota beta.
  destruct (finish_end_marker _ _ _ Hr1) as (p' & Hp' & He).
  eexists _, p'. split; [|split; [exact Hp'|done]].
  simpl. by rewrite (ready_hunks _ _ _ Hr1).
Qed.

Lemma trim_join_rendered s : trim (render_patch s) = render_patch s.
Proof.
  unfold render_patch. rewrite join_snoc_lines. unfold render_lines.
  assert (∀ m, trim (BEGIN_PATCH_MARKER ++ m ++ END_PATCH_MARKER)
               = BEGIN_PATCH_MARKER ++ m ++ END_PATCH_MARKER) as H.
  { intros m. rewrite app_assoc. apply (trim_marker STAR ($"** Begin Patch" ++ m)); [done|].
    split_and!; [done|reflexivity|by apply (plain_line_lit END_PATCH_MARKER)]. }
  rewrite unlines_cons, <- app_assoc. apply H.
Qed.

Lemma boundaries_rendered s :
  check_patch_boundaries_lenient (render_lines s ++ [END_PATCH_MARKER])
  = Ok (render_lines s ++ [END_PATCH_MARKER]).
Proof.
  unfold check_patch_boundaries_lenient, check_patch_boundaries_strict.
  rewrite last_snoc.
  change (head (render_lines s ++ [END_PATCH_MARKER])) with (Some BEGIN_PATCH_MARKER).
  reflexivity.
Qed.

(** ** Properties *)

(** Every text of these syntax trees parses, in full and in order, to
    the hunks and environment id that it means; the patch text handed on is the
    text itself. *)
Theorem parse_patch_grammar s :
  valid_patch s →
  parse_patch (render_patch s)
  = Ok (mkArgs (render_patch s) (denote_hunk <$> p_hunks s) None (p_environment s)).
Proof.
  intros Hv. change (parse_patch ?x) with (parse_patch_text x Lenient).
  unfold parse_patch_text. rewrite trim_join_rendered. unfold render_patch at 1.
  rewrite lines_join; [|by apply render_lines_plain|by apply (plain_line_lit END_PATCH_MARKER)|done].
  rewrite boundaries_rendered. unfold rbind. cbn beta iota zeta.
  change (join [LF] (render_lines s ++ [END_PATCH_MARKER])) with (render_patch s).
  destruct (parse_rendered s Hv) as (p & p' & -> & -> & ->). done.
Qed.

(** The way a text is cut into deltas does not matter: the streaming
    parser ends in the same state, with the same hunks or the same error. *)
Theorem push_delta_app p d1 d2 :
  push_delta p (d1 ++ d2) =
    match push_delta p d1 with
    | (p', Ok _) => push_delta p' d2
    | (p', Err e) => (p', Err e)
    end.
Proof.
  unfold push_delta. rewrite push_chars_app.
  destruct (push_chars p d1) as [p' [[]|e]]; done.
Qed.

(** Whatever text is accepted, the hunks that come out are well formed:
    added text ends in a newline, every update hunk has chunks, every chunk has
    lines, and its context indices increase and pair equal lines. *)
Theorem parse_patch_wf text args :
  parse_patch text = Ok args → Forall hunk_wf (args_hunks args).
Proof. apply parse_patch_hunks_wf. Qed.

(** ** Instances *)
Definition sample_patch : patch_syntax :=
  mkPatch None
    [SAdd ($"new.txt") [ $"hello"; []];
     SUpdate ($"src/a.rs") (Some ($"src/b.rs"))
       (mkChange (ContextHeader ($"fn main")) (Context ($"x")) [Removed ($"y"); Added ($"z")] false)
       [mkChange EmptyHeader (Added ($"end")) [] true];
     SDelete ($"old.txt")].

Lemma parse_patch_grammar_witness :
  parse_patch (render_patch sample_patch)
  = Ok (mkArgs (render_patch sample_patch) (denote_hunk <$> p_hunks sample_patch) None None).
Proof.
  refine (parse_patch_grammar sample_patch _).
  assert (Hname : ∀ s, (s ≠ []) ∧ (trim_end s = s) ∧ bool_decide (LF ∉ s) = true → valid_name s).
  { intros s (? & ? & ?%bool_decide_eq_true). done. }
  assert (Hplain : ∀ s, bool_decide (LF ∉ s) = true ∧ bool_decide (last s ≠ Some CR) = true → plain_line s).
  { intros s [?%bool_decide_eq_true ?%bool_decide_eq_true]. done. }
  split; [done|]. repeat apply Forall_cons_2; try apply Forall_nil_2; cbn [valid_hunk];
    repeat (match goal with
      | |- _ ∧ _ => split
      | |- Forall _ _ => constructor
      | |- valid_name _ => apply Hname; split_and!; [done|vm_compute; reflexivity..]
      | |- plain_line _ => apply Hplain; split; vm_compute; reflexivity
      | |- ∀ d, Some _ = Some d → _ => intros ? [= <-]
      | |- valid_change _ => split
      | |- valid_header _ => cbn [valid_header header]
      | |- valid_change_line _ => cbn [valid_change_line first_line more_lines]
      | |- header _ ≠ _ => done
      | |- True => exact I
      end); try done.
Defined.

Lemma parse_patch_wf_witness :
  Forall hunk_wf (denote_hunk <$> p_hunks sample_patch).
Proof.
  refine (parse_patch_wf (render_patch sample_patch)
    (mkArgs (render_patch sample_patch) (denote_hunk <$> p_hunks sample_patch) None None) _).
  vm_compute. reflexivity.
Defined.
