(* ===== verification/PatchDocument.v ===== *)
(** * The documented patch grammar, as it is written

    [PatchGrammar.v] has the texts the parser accepts with their meaning. The Lark
    grammar in the comment of [apply-patch/src/parser.rs] derives more of them: an
    update hunk may have no change at all, and the ["@@"] lines of a change may
    follow each other or end it. This file has the syntax trees of that grammar and
    shows exactly which of its texts are accepted. *)

From stdpp Require Import prelude list strings.
From S2P Require Import Prelude PatchParser PatchGrammar.

(** ** Syntax trees *)
(** [change: (change_context | change_line)+ eof_line?] *)
Inductive change_item : Type :=
| IHeader (context : option str)
| ILine (l : change_line).

(** [update_hunk: "*** Update File: " filename LF change_move? change?] *)
Inductive document_hunk : Type :=
| DAdd (path : str) (ls : list str)
| DDelete (path : str)
| DUpdate (path : str) (move : option str) (change : option (list change_item * bool)).

Record document := mkDocument { d_environment : option str; d_hunks : list document_hunk }.

(** ** Text *)
Definition item_header (context : option str) : change_header :=
  match context with None => EmptyHeader | Some s => ContextHeader s end.
Definition render_item (i : change_item) : list str :=
  match i with IHeader h => render_header (item_header h) | ILine l => [render_change_line l] end.
Definition render_body (chg : option (list change_item * bool)) : list str :=
  match chg with
  | None => []
  | Some (items, eof) => mjoin (render_item <$> items) ++ (if eof then [EOF_MARKER] else [])
  end.
Definition render_move (move : option str) : list str := match move with Some dest => [MOVE_TO_MARKER ++ dest] | None => [] end.
Definition render_document_hunk (h : document_hunk) : list str :=
  match h with
  | DAdd path ls => (ADD_FILE_MARKER ++ path) :: ((λ l, $"+" ++ l) <$> ls)
  | DDelete path => [DELETE_FILE_MARKER ++ path]
  | DUpdate path move chg => (UPDATE_FILE_MARKER ++ path) :: render_move move ++ render_body chg
  end.
Definition preamble (environment : option str) : list str :=
  BEGIN_PATCH_MARKER :: match environment with Some e => [ENVIRONMENT_ID_MARKER ++ $" " ++ e] | None => [] end.
Definition render_document (d : document) : str :=
  join [LF] ((preamble (d_environment d) ++ mjoin (render_document_hunk <$> d_hunks d)) ++ [END_PATCH_MARKER]).

(** [end_patch: "*** End Patch" LF?] *)
Definition document_text (d : document) (newline : bool) : str := render_document d ++ (if newline then [LF] else []).

Definition valid_item (i : change_item) : Prop :=
  match i with IHeader (Some s) => valid_name s | IHeader None => True | ILine l => valid_change_line l end.
Definition valid_document_hunk (h : document_hunk) : Prop :=
  match h with
  | DAdd path ls => valid_name path ∧ Forall plain_line ls
  | DDelete path => valid_name path
  | DUpdate path move chg =>
      valid_name path ∧ (∀ d, move = Some d → valid_name d) ∧
      ∀ items eof, chg = Some (items, eof) → items ≠ [] ∧ Forall valid_item items
  end.
Definition valid_document (d : document) : Prop :=
  (∀ e, d_environment d = Some e → valid_name e ∧ trim e = e) ∧ Forall valid_document_hunk (d_hunks d).

(** ** Meaning *)
(** The lines before the first ["@@"] line, and those that follow each. *)
Fixpoint groups (items : list change_item) : list change_line * list (change_header * list change_line) :=
  match items with
  | [] => ([], [])
  | ILine l :: items => let '(ls, gs) := groups items in (l :: ls, gs)
  | IHeader h :: items => let '(ls, gs) := groups items in ([], (item_header h, ls) :: gs)
  end.
Definition all_groups (items : list change_item) : list (change_header * list change_line) :=
  let '(ls, gs) := groups items in (if is_empty ls then [] else [(NoHeader, ls)]) ++ gs.

(** A change per group; a group without lines has none. *)
Definition to_change (eof : bool) (g : change_header * list change_line) : option change :=
  match g.2 with [] => None | l :: ls => Some (mkChange g.1 l ls eof) end.
Fixpoint to_changes (eof : bool) (gs : list (change_header * list change_line)) : option (list change) :=
  match gs with
  | [] => Some []
  | [g] => c ← to_change eof g; Some [c]
  | g :: gs => c ← to_change false g; cs ← to_changes eof gs; Some (c :: cs)
  end.

Definition meaning_hunk (h : document_hunk) : option Hunk :=
  match h with
  | DAdd path ls => Some (AddFile path (unlines ls))
  | DDelete path => Some (DeleteFile path)
  | DUpdate path move None => None
  | DUpdate path move (Some (items, eof)) => cs ← to_changes eof (all_groups items); Some (UpdateFile path move (denote_change <$> cs))
  end.
Definition meaning (d : document) : option (list Hunk) := mapM meaning_hunk (d_hunks d).

(** ** Accepted texts *)
Definition syntax_hunk (h : document_hunk) : option hunk_syntax :=
  match h with
  | DAdd path ls => Some (SAdd path ls)
  | DDelete path => Some (SDelete path)
  | DUpdate path move None => None
  | DUpdate path move (Some (items, eof)) =>
      cs ← to_changes eof (all_groups items); match cs with c :: cs => Some (SUpdate path move c cs) | [] => None end
  end.

Lemma groups_text items : mjoin (render_item <$> items) =
  mjoin ((λ g, render_header g.1 ++ (render_change_line <$> g.2)) <$> all_groups items).
Proof.
  assert (mjoin (render_item <$> items) = (render_change_line <$> (groups items).1) ++
    mjoin ((λ g, render_header g.1 ++ (render_change_line <$> g.2)) <$> (groups items).2)) as H.
  { induction items as [|i items IH]; [done|]. change (render_item i ++ mjoin (render_item <$> items) = (render_change_line <$> (groups (i :: items)).1) ++
      mjoin ((λ g, render_header g.1 ++ (render_change_line <$> g.2)) <$> (groups (i :: items)).2)).
    rewrite IH. destruct i as [h|l]; cbn [groups]; destruct (groups items) as [ls gs]; [|done].
    change (render_header (item_header h) ++ (render_change_line <$> ls) ++ mjoin ((λ g, render_header g.1 ++ (render_change_line <$> g.2)) <$> gs) =
      (render_header (item_header h) ++ (render_change_line <$> ls)) ++ mjoin ((λ g, render_header g.1 ++ (render_change_line <$> g.2)) <$> gs)).
    by rewrite (assoc_L app). }
  rewrite H. unfold all_groups. destruct (groups items) as [[|l ls] gs]; [done|]. cbn. done.
Qed.

Lemma groups_valid items : Forall valid_item items →
  Forall (λ g, valid_header g.1 ∧ Forall valid_change_line g.2) (all_groups items).
Proof.
  intros H. assert (Forall valid_change_line (groups items).1 ∧ Forall (λ g, valid_header g.1 ∧ Forall valid_change_line g.2) (groups items).2) as [H1 H2].
  { induction H as [|[h|l] items Hi _ [IH1 IH2]]; [done|..]; cbn [groups]; destruct (groups items) as [ls gs]; cbn in *.
    - split; [constructor|]. constructor; [|done]. split; [by destruct h|done].
    - split; [by constructor|done]. }
  unfold all_groups. destruct (groups items) as [ls gs]. apply Forall_app. split; [|done]. destruct ls as [|l ls]; [constructor|]. apply Forall_singleton. done.
Qed.

Lemma groups_headers items g gs : all_groups items = g :: gs → Forall (λ g, g.1 ≠ NoHeader) gs.
Proof.
  assert (Forall (λ g, g.1 ≠ NoHeader) (groups items).2) as H.
  { induction items as [|[h|l] items IH]; [constructor|..]; cbn [groups]; destruct (groups items) as [ls gs']; cbn in *; [|done].
    constructor; [by destruct h|done]. }
  unfold all_groups. destruct (groups items) as [[|l ls] gs']; cbn in *; [|by intros [= _ <-]].
  intros ->. by apply Forall_cons in H as [_ ?].
Qed.
Lemma groups_nonempty items : items ≠ [] → all_groups items ≠ [].
Proof.
  destruct items as [|[h|l] items]; [done|..]; intros _; unfold all_groups; cbn [groups]; by destruct (groups items) as [ls gs].
Qed.

Lemma to_changes_cons eof g gs : gs ≠ [] →
  to_changes eof (g :: gs) = (c ← to_change false g; cs ← to_changes eof gs; Some (c :: cs)).
Proof. by destruct gs. Qed.

(** What a list of changes reads as. *)
Lemma to_changes_spec eof gs cs : to_changes eof gs = Some cs → gs ≠ [] →
  mjoin (render_change <$> cs) = mjoin ((λ g, render_header g.1 ++ (render_change_line <$> g.2)) <$> gs) ++ (if eof then [EOF_MARKER] else []) ∧
  header <$> cs = gs.*1 ∧
  (Forall (λ g, valid_header g.1 ∧ Forall valid_change_line g.2) gs → Forall valid_change cs).
Proof.
  revert cs. induction gs as [|g gs IH]; intros cs H Hne; [done|]. destruct (decide (gs = [])) as [->|Hgs].
  - destruct g as [h [|l ls]]; [done|]. injection H as <-. cbn. unfold render_change. cbn. split_and!; [by rewrite !app_nil_r, <-(assoc_L app)|done|].
    rewrite !Forall_singleton. done.
  - rewrite to_changes_cons in H by done. destruct g as [h [|l ls]]; [done|]. cbn in H. destruct (to_changes eof gs) as [cs'|]; [|done].
    injection H as <-. destruct (IH cs' eq_refl Hgs) as (H1 & H2 & H3).
    change (mjoin (render_change <$> mkChange h l ls false :: cs')) with (render_change (mkChange h l ls false) ++ mjoin (render_change <$> cs')).
    rewrite H1. unfold render_change. cbn [header first_line more_lines at_eof]. rewrite app_nil_r.
    split_and!; [|cbn; by rewrite H2|].
    { change (mjoin (?f <$> (h, l :: ls) :: gs)) with (f (h, l :: ls) ++ mjoin (f <$> gs)). cbn [fst snd]. by rewrite <-!(assoc_L app). }
    intros [Hg Hr]%Forall_cons. constructor; [done|by apply H3].
Qed.

Lemma to_changes_nonempty eof gs : gs ≠ [] → to_changes eof gs ≠ Some [].
Proof. intros Hne H. destruct (to_changes_spec eof gs [] H Hne) as (_ & E & _). by destruct gs. Qed.

Lemma syntax_hunk_spec h t : valid_document_hunk h → syntax_hunk h = Some t →
  render_hunk t = render_document_hunk h ∧ valid_hunk t ∧ meaning_hunk h = Some (denote_hunk t).
Proof.
  destruct h as [path ls|path|path move [[items eof]|]]; cbn [syntax_hunk meaning_hunk valid_document_hunk]; try (by intros ? [= <-]).
  intros (Hp & Hm & Hv). destruct (Hv items eof eq_refl) as [Hne Hi]. destruct (to_changes eof (all_groups items)) as [cs|] eqn:E; [|done].
  pose proof (groups_nonempty items Hne) as Hg. cbn [mbind option_bind]. destruct cs as [|c cs]; [done|]. intros [= <-].
  destruct (to_changes_spec _ _ _ E Hg) as (H1 & H2 & H3). specialize (H3 (groups_valid items Hi)). split_and!; [| |done].
  - cbn [render_hunk render_document_hunk render_body]. rewrite groups_text, <-H1. done.
  - apply Forall_cons in H3 as [Hc Hcs]. split_and!; [done|done|done|].
    destruct (all_groups items) as [|g gs] eqn:Eg; [done|]. pose proof (groups_headers _ _ _ Eg) as Hh. assert (header <$> cs = gs.*1) as H2' by (by injection H2).
    apply Forall_forall. intros c' Hc'. rewrite Forall_forall in Hcs. pose proof (proj1 (Forall_forall _ _) Hh) as Hh'. split; [by apply Hcs|].
    assert (header c' ∈ gs.*1) as (g' & -> & Hg')%list_elem_of_fmap by (rewrite <-H2'; by apply list_elem_of_fmap_2). by apply Hh'.
Qed.

Lemma syntax_hunk_None h : valid_document_hunk h → syntax_hunk h = None → meaning_hunk h = None.
Proof.
  destruct h as [path ls|path|path move [[items eof]|]]; cbn [syntax_hunk meaning_hunk]; try done. intros (_ & _ & Hv).
  destruct (Hv items eof eq_refl) as [Hne _]. destruct (to_changes eof (all_groups items)) as [[|c cs]|] eqn:E; [|done|done].
  by destruct (to_changes_nonempty eof _ (groups_nonempty items Hne)).
Qed.

Lemma document_syntax hs : Forall valid_document_hunk hs →
  match mapM meaning_hunk hs with
  | Some ms => ∃ ts, Forall valid_hunk ts ∧ mjoin (render_hunk <$> ts) = mjoin (render_document_hunk <$> hs) ∧ denote_hunk <$> ts = ms
  | None => ∃ before bad after ts, hs = before ++ bad :: after ∧ Forall valid_hunk ts ∧
      mjoin (render_hunk <$> ts) = mjoin (render_document_hunk <$> before) ∧ meaning_hunk bad = None
  end.
Proof.
  induction 1 as [|h hs Hh _ IH]; [by exists []|]. cbn [mapM]. destruct (syntax_hunk h) as [t|] eqn:E.
  - destruct (syntax_hunk_spec h t Hh E) as (H1 & H2 & H3). rewrite H3. cbn [mbind option_bind]. destruct (mapM meaning_hunk hs) as [ms|]; cbn.
    + destruct IH as (ts & H4 & H5 & H6). exists (t :: ts). split_and!; [by constructor| |by rewrite <-H6].
      change (render_hunk t ++ mjoin (render_hunk <$> ts) = render_document_hunk h ++ mjoin (render_document_hunk <$> hs)). by rewrite H1, H5.
    + destruct IH as (before & bad & after & ts & -> & H4 & H5 & H6). exists (h :: before), bad, after, (t :: ts).
      split_and!; [done|by constructor| |done].
      change (render_hunk t ++ mjoin (render_hunk <$> ts) = render_document_hunk h ++ mjoin (render_document_hunk <$> before)). by rewrite H1, H5.
  - rewrite (syntax_hunk_None h Hh E). cbn. exists [], h, hs, []. split_and!; try done. by apply syntax_hunk_None.
Qed.

(** ** Rejected texts *)
Definition fails (r : StreamingPatchParser * result ParseError unit) : Prop := ∃ p e, r = (p, Err e).

(** In an update hunk that is not complete. *)
Definition stuck (p : StreamingPatchParser) : Prop :=
  ∃ n hs path mv chunks env, at_hunk p (InUpdateFile n) hs (UpdateFile path mv chunks) env ∧
    (chunks = [] ∨ last_is chunk_has_no_lines chunks = true).

Lemma stuck_ensure p line : stuck p → ∃ e, ensure_update_hunk_is_not_empty (take_line p) line = Err e.
Proof.
  intros (n & hs & path & mv & chunks & env & [_ Hm Hh _] & Hc). unfold ensure_update_hunk_is_not_empty. cbn [take_line state].
  rewrite Hh, last_snoc, Hm. destruct Hc as [->|Hc]; [cbn; eauto|]. rewrite Hc. destruct chunks; cbn [is_empty]; [eauto|].
  destruct (decide _); eauto.
Qed.

Lemma stuck_header p m path : stuck p → valid_name path →
  m = $"** Add File: " ∨ m = $"** Delete File: " ∨ m = $"** Update File: " →
  fails (process_line (take_line p) ((STAR :: m) ++ path)).
Proof.
  intros Hs (Hne & Hfix & _) Hm. pose proof Hs as (n & hs & p0 & mv & chunks & env & [_ Hmode _ _] & _).
  assert (trim_end ((STAR :: m) ++ path) = (STAR :: m) ++ path) as Ht by (by apply trim_end_app_fix).
  unfold process_line. cbn [take_line mode state]. rewrite Hmode, Ht. unfold handle_hunk_headers_and_end_patch.
  rewrite (update_not_started _ n) by done. unfold handle_hunk_header.
  rewrite decide_False by (destruct Hm as [->|[->| ->]]; done).
  destruct (stuck_ensure p ((STAR :: m) ++ path) Hs) as [e He].
  change (mkParser [] (state p) (S (line_number p))) with (take_line p).
  rewrite He. destruct Hm as [->|[->| ->]]; cbn -[take_line]; by eexists _, _.
Qed.

Lemma fails_app p ls ls' : fails (process_lines p ls) → fails (process_lines p (ls ++ ls')).
Proof.
  intros (q & e & H). revert p H. induction ls as [|l ls IH]; intros p H; [done|]. cbn in *.
  destruct (process_line (take_line p) l) as [p' [[]|e']]; [by apply IH|by eexists _, _].
Qed.
Lemma fails_cons p l ls : fails (process_line (take_line p) l) → fails (process_lines p (l :: ls)).
Proof. intros (q & e & H). cbn. rewrite H. by eexists _, _. Qed.

Lemma stuck_hunk p h ls : stuck p → valid_document_hunk h → fails (process_lines p (render_document_hunk h ++ ls)).
Proof.
  intros Hs Hv. destruct h as [path l|path|path move chg]; cbn [render_document_hunk app]; apply fails_cons.
  - apply (stuck_header p ($"** Add File: ")); [done|exact (proj1 Hv)|by left].
  - apply (stuck_header p ($"** Delete File: ")); [done|exact Hv|right; by left].
  - apply (stuck_header p ($"** Update File: ")); [done|exact (proj1 Hv)|by right; right].
Qed.

Lemma process_update_err p n hs path mv chunks env line e :
  at_hunk p (InUpdateFile n) hs (UpdateFile path mv chunks) env →
  handle_hunk_headers_and_end_patch (take_line p) (trim_end line) = (take_line p, Ok false) →
  process_update_body mv chunks line (S (line_number p)) = Err e → fails (process_line (take_line p) line).
Proof.
  intros Hp Hh Hb. unfold process_line. cbn [take_line mode state]. rewrite (at_mode _ _ _ _ _ Hp).
  change (mkParser [] (state p) (S (line_number p))) with (take_line p). rewrite Hh.
  change (state (take_line p)) with (state p). rewrite (at_hunks _ _ _ _ _ Hp), last_snoc. change (line_number (take_line p)) with (S (line_number p)).
  rewrite Hb. by eexists _, _.
Qed.

(** After an ["@@"] line comes another, or the end-of-file line. *)
Lemma header_after_header p n hs path mv cs ctx env h ls :
  at_hunk p (InUpdateFile n) hs (UpdateFile path mv (cs ++ [mkChunk ctx [] [] [] false])) env → valid_header h → h ≠ NoHeader →
  fails (process_lines p (render_header h ++ ls)).
Proof.
  intros Hp Hv Hh. assert (∃ line, render_header h = [line]) as [line Hr] by (destruct h; cbn; eauto; done). rewrite Hr. cbn [app].
  destruct (process_change_header None [] h 0 line eq_refl Hv Hr) as [_ Hhd]. apply fails_cons.
  assert (is_change_context (trim_end line) = true) as Hc.
  { destruct h as [| |s]; [done|injection Hr as <-; reflexivity|]. destruct Hv as (Hne & Hfix & _).
    assert (line = CHANGE_CONTEXT_MARKER ++ s) as -> by (unfold render_header in Hr; congruence). rewrite trim_end_app_fix by done.
    unfold is_change_context, starts_with. by rewrite strip_prefix_app, orb_true_r. }
  eapply process_update_err; [exact Hp|by apply handle_not_header|]. unfold process_update_body.
  rewrite !last_is_snoc, Hc. cbn [is_end_of_file andb negb chunk_has_no_lines old_lines new_lines is_empty].
  replace (is_empty (cs ++ [_])) with false by (by destruct cs). reflexivity.
Qed.
Lemma eof_after_header p n hs path mv cs ctx env ls :
  at_hunk p (InUpdateFile n) hs (UpdateFile path mv (cs ++ [mkChunk ctx [] [] [] false])) env → fails (process_lines p (EOF_MARKER :: ls)).
Proof.
  intros Hp. apply fails_cons. eapply process_update_err; [exact Hp| |].
  - unfold handle_hunk_headers_and_end_patch. rewrite (update_not_started _ n) by apply (at_mode _ _ _ _ _ Hp). reflexivity.
  - unfold process_update_body. rewrite !last_is_snoc. change (trim_end EOF_MARKER) with EOF_MARKER.
    replace (is_empty (cs ++ [_])) with false by (by destruct cs). reflexivity.
Qed.

Definition rejected (p : StreamingPatchParser) (ls : list str) : Prop :=
  (∃ q, process_lines p ls = (q, Ok tt) ∧ stuck q) ∨ fails (process_lines p ls).

Lemma rejected_after p q l1 l2 : process_lines p l1 = (q, Ok tt) → rejected q l2 → rejected p (l1 ++ l2).
Proof. intros H. unfold rejected. by rewrite (process_lines_app _ _ _ _ H). Qed.

Lemma to_change_spec eof g c : to_change eof g = Some c →
  render_change c = render_header g.1 ++ (render_change_line <$> g.2) ++ (if eof then [EOF_MARKER] else []) ∧ header c = g.1 ∧
  (valid_header g.1 ∧ Forall valid_change_line g.2 → valid_change c).
Proof. destruct g as [h [|l ls]]; [done|]. intros [= <-]. done. Qed.

(** A group without lines stops the hunk. *)
Lemma process_bad_groups eof gs : ∀ p n hs path mv chunks env,
  gs ≠ [] → to_changes eof gs = None →
  at_hunk p (InUpdateFile n) hs (UpdateFile path mv chunks) env → last_is chunk_has_no_lines chunks = false →
  Forall (λ g, valid_header g.1 ∧ Forall valid_change_line g.2) gs →
  (∀ g, g ∈ gs → g.1 = NoHeader → chunks = [] ∧ g.2 ≠ [] ∧ head gs = Some g) →
  Forall (λ g, g.1 ≠ NoHeader) (tail gs) →
  rejected p (mjoin ((λ g, render_header g.1 ++ (render_change_line <$> g.2)) <$> gs) ++ (if eof then [EOF_MARKER] else [])).
Proof.
  induction gs as [|g gs IH]; intros p n hs path mv chunks env Hne Hbad Hp Hl Hv Hno Hh; [done|]. apply Forall_cons in Hv as [Hg Hgs]. cbn [tail] in Hh.
  change (mjoin (?f <$> g :: gs)) with (f g ++ mjoin (f <$> gs)). cbv beta. rewrite <-(assoc_L app).
  destruct (to_change (bool_decide (gs = []) && eof) g) as [c|] eqn:Ec.
  - destruct (to_change_spec _ _ _ Ec) as (Hc1 & Hc2 & Hc3). destruct (decide (gs = [])) as [->|Hgn].
    { cbn in Ec, Hbad. by rewrite Ec in Hbad. }
    rewrite bool_decide_eq_false_2 in Ec, Hc1 by done. cbn [andb] in *. rewrite app_nil_r in Hc1.
    rewrite to_changes_cons, Ec in Hbad by done. cbn in Hbad. destruct (to_changes eof gs) eqn:E; [done|].
    destruct (process_change p n hs path mv chunks env c Hp Hl (Hc3 Hg)) as (q & Hq & Hat).
    { rewrite Hc2. intros Hn. apply (Hno g); [left|done]. }
    rewrite Hc1 in Hq. apply (rejected_after p q _ _ Hq). apply (IH q n hs path mv _ env Hgn eq_refl Hat); [|done| |by destruct gs; apply Forall_tail in Hh || constructor].
    + rewrite last_is_snoc. apply denote_change_has_lines.
    + intros g' Hg' Hn. rewrite Forall_forall in Hh. by destruct (Hh g' Hg').
  - assert (g.2 = []) as Hg2 by (destruct g as [h [|l ls]]; done).
    assert (g.1 ≠ NoHeader) as Hgh by (intros E; destruct (Hno g) as (_ & H & _); [left|done|done]).
    rewrite Hg2. cbn [fmap list_fmap]. rewrite app_nil_r.
    destruct (process_header_line p n hs path mv chunks env g.1 Hp Hl (proj1 Hg) Hgh) as (q & Hq & Hat). apply (rejected_after p q _ _ Hq).
    destruct gs as [|g' gs].
    + cbn [fmap list_fmap]. change (mjoin []) with (@nil str). cbn [app]. destruct eof; [right; by eapply eof_after_header|].
      left. exists q. split; [done|]. exists n, hs, path, mv, (chunks ++ [mkChunk (header_context g.1) [] [] [] false]), env. split; [done|right; by rewrite last_is_snoc].
    + right. change (mjoin (?f <$> g' :: gs)) with (f g' ++ mjoin (f <$> gs)). cbv beta. rewrite <-!(assoc_L app). apply Forall_cons in Hgs as [[Hg' _] _].
      apply Forall_cons in Hh as [Hh _]. by eapply header_after_header.
Qed.

Lemma groups_leading items g : g ∈ all_groups items → g.1 = NoHeader → g.2 ≠ [] ∧ head (all_groups items) = Some g.
Proof.
  intros Hg Hn. destruct (all_groups items) as [|g0 gs] eqn:E; [set_solver|]. apply elem_of_cons in Hg as [->|Hg].
  - split; [|done]. unfold all_groups in E. assert (Forall (λ g, g.1 ≠ NoHeader) (groups items).2) as H.
    { clear. induction items as [|[h|l] items IH]; [constructor|..]; cbn [groups]; destruct (groups items) as [ls gs']; cbn in *; [|done].
      constructor; [by destruct h|done]. }
    destruct (groups items) as [[|l ls] gs']; cbn in *; [|by injection E as <- _]. rewrite E in H. by apply Forall_cons in H as [? _].
  - pose proof (proj1 (Forall_forall _ _) (groups_headers _ _ _ E)) as H. by destruct (H g Hg).
Qed.

Lemma bad_hunk p hs env h : ready p hs env → valid_document_hunk h → meaning_hunk h = None → rejected p (render_document_hunk h).
Proof.
  intros Hp Hv Hbad. destruct h as [path ls|path|path move chg]; [done|done|]. destruct Hv as (Hv & Hmv & Hchg).
  cbn [render_document_hunk]. set (md := InUpdateFile (S (line_number p))).
  assert (process_line (take_line p) (UPDATE_FILE_MARKER ++ path) = (open_hunk (UpdateFile path None []) md (take_line p), Ok tt))
    as Hhd by (apply (process_file_header _ _ _ _ _ _ _ Hp Hv); auto).
  unfold rejected, fails. rewrite (process_lines_cons _ _ _ _ Hhd).
  pose proof (at_hunk_open _ _ _ (UpdateFile path None []) md Hp) as Hat0.
  assert (∃ q, process_lines (open_hunk (UpdateFile path None []) md (take_line p)) (render_move move) = (q, Ok tt)
    ∧ at_hunk q md hs (UpdateFile path move []) env) as (q & Hq & Hat).
  { destruct move as [dest|]; [|by eexists]. eapply process_move_line; [done|by apply Hmv]. }
  apply (rejected_after _ _ _ _ Hq). destruct chg as [[items eof]|]; cbn [render_body].
  - destruct (Hchg items eof eq_refl) as [Hne Hi]. rewrite groups_text. eapply process_bad_groups.
    + by apply groups_nonempty.
    + cbn [meaning_hunk] in Hbad. by destruct (to_changes eof (all_groups items)).
    + exact Hat.
    + done.
    + by apply groups_valid.
    + intros g Hg Hn. destruct (groups_leading items g Hg Hn). done.
    + destruct (all_groups items) as [|g gs] eqn:E; [constructor|]. by eapply groups_headers.
  - left. exists q. split; [done|]. exists (S (line_number p)), hs, path, move, [], env. split; [done|by left].
Qed.

Lemma rejected_hunks p hs env bad after : ready p hs env → valid_document_hunk bad → meaning_hunk bad = None →
  Forall valid_document_hunk after → rejected p (render_document_hunk bad ++ mjoin (render_document_hunk <$> after)).
Proof.
  intros Hp Hv Hbad Hafter. destruct (bad_hunk p hs env bad Hp Hv Hbad) as [(q & Hq & Hs)|Hf]; [|right; by apply fails_app].
  apply (rejected_after _ _ _ _ Hq). destruct Hafter as [|h after Hh _]; [left; by exists q|].
  right. change (mjoin (?f <$> h :: after)) with (f h ++ mjoin (f <$> after)). by apply stuck_hunk.
Qed.

(** ** The text as a whole *)
Lemma item_plain i : valid_item i → Forall plain_line (render_item i).
Proof.
  destruct i as [[s|]|l]; cbn [render_item]; intros Hv.
  - apply Forall_singleton, valid_name_plain; [by apply (plain_line_lit CHANGE_CONTEXT_MARKER)|done].
  - apply Forall_singleton. by apply (plain_line_lit EMPTY_CHANGE_CONTEXT_MARKER).
  - apply Forall_singleton. destruct l; by apply plain_line_cons.
Qed.
Lemma document_hunk_plain h : valid_document_hunk h → Forall plain_line (render_document_hunk h).
Proof.
  destruct h as [path ls|path|path move chg]; cbn [render_document_hunk].
  - intros [Hp Hls]. constructor; [by apply valid_name_plain; [apply (plain_line_lit ADD_FILE_MARKER)|]|].
    apply Forall_fmap. eapply Forall_impl; [exact Hls|]. intros s Hs. by apply plain_line_cons.
  - intros Hp. apply Forall_singleton, valid_name_plain; [by apply (plain_line_lit DELETE_FILE_MARKER)|done].
  - intros (Hp & Hm & Hc). constructor; [by apply valid_name_plain; [apply (plain_line_lit UPDATE_FILE_MARKER)|]|].
    apply Forall_app. split.
    + destruct move as [dest|]; [|constructor]. apply Forall_singleton, valid_name_plain; [by apply (plain_line_lit MOVE_TO_MARKER)|by apply Hm].
    + destruct chg as [[items eof]|]; [|constructor]. destruct (Hc items eof eq_refl) as [_ Hi]. apply Forall_app. split.
      * eapply Forall_mjoin_fmap; [apply item_plain|done].
      * destruct eof; [|constructor]. apply Forall_singleton. by apply (plain_line_lit EOF_MARKER).
Qed.

Lemma preamble_plain environment : (∀ e, environment = Some e → valid_name e ∧ trim e = e) → Forall plain_line (preamble environment).
Proof.
  intros He. constructor; [by apply (plain_line_lit BEGIN_PATCH_MARKER)|]. destruct environment as [e|]; [|constructor].
  apply Forall_singleton. rewrite (assoc_L app). apply valid_name_plain; [by apply (plain_line_lit (ENVIRONMENT_ID_MARKER ++ $" "))|by apply He].
Qed.

Lemma finish_stuck q : line_buffer q = [] → stuck q → ∃ q' e, finish (mkParser END_PATCH_MARKER (state q) (line_number q)) = (q', Err e).
Proof.
  intros Hb Hs. unfold finish, finish_line. change (is_empty _) with false. cbn iota. cbn [line_buffer].
  rewrite decide_True by reflexivity. change (take_line (mkParser END_PATCH_MARKER (state q) (line_number q))) with (take_line q).
  destruct (stuck_ensure q (trim END_PATCH_MARKER) Hs) as [e ->]. by eexists _, _.
Qed.

Lemma lines_of_text (ls : list str) : Forall plain_line ls →
  trim (join [LF] ((BEGIN_PATCH_MARKER :: ls) ++ [END_PATCH_MARKER])) = join [LF] ((BEGIN_PATCH_MARKER :: ls) ++ [END_PATCH_MARKER]) ∧
  lines (join [LF] ((BEGIN_PATCH_MARKER :: ls) ++ [END_PATCH_MARKER])) = (BEGIN_PATCH_MARKER :: ls) ++ [END_PATCH_MARKER].
Proof.
  intros H. split.
  - rewrite join_snoc_lines, unlines_cons, <-(assoc_L app).
    set (m := (LF :: unlines ls)). change (BEGIN_PATCH_MARKER ++ LF :: unlines ls ++ END_PATCH_MARKER) with (BEGIN_PATCH_MARKER ++ m ++ END_PATCH_MARKER).
    rewrite (assoc_L app). apply (trim_marker STAR ($"** Begin Patch" ++ m)); [done|].
    split_and!; [done|reflexivity|by apply (plain_line_lit END_PATCH_MARKER)].
  - apply lines_join; [|by apply (plain_line_lit END_PATCH_MARKER)|done]. constructor; [by apply (plain_line_lit BEGIN_PATCH_MARKER)|done].
Qed.

(** A text whose lines are rejected before the end marker is no patch. *)
Lemma rejected_text environment ls : (∀ e, environment = Some e → valid_name e ∧ trim e = e) → Forall plain_line ls →
  (∀ p, ready p [] environment → rejected p ls) →
  ∃ e, parse_patch (join [LF] ((preamble environment ++ ls) ++ [END_PATCH_MARKER])) = Err e.
Proof.
  intros He Hls Hr. set (text := join [LF] _). change (parse_patch text) with (parse_patch_text text Lenient).
  unfold parse_patch_text. pose proof (preamble_plain environment He) as Hpre.
  assert (Forall plain_line (tail (preamble environment) ++ ls)) as Htail by (apply Forall_app; split; [by apply Forall_tail in Hpre|done]).
  destruct (lines_of_text _ Htail) as [E1 E2]. change (BEGIN_PATCH_MARKER :: tail (preamble environment) ++ ls) with (preamble environment ++ ls) in E1, E2.
  fold text in E1, E2. rewrite E1, E2.
  assert (check_patch_boundaries_lenient ((preamble environment ++ ls) ++ [END_PATCH_MARKER]) = Ok ((preamble environment ++ ls) ++ [END_PATCH_MARKER])) as ->.
  { unfold check_patch_boundaries_lenient, check_patch_boundaries_strict. rewrite last_snoc.
    change (head ((preamble environment ++ ls) ++ [END_PATCH_MARKER])) with (Some BEGIN_PATCH_MARKER). reflexivity. }
  cbn [rbind]. fold text. unfold push_delta, text. rewrite join_snoc_lines, push_chars_lines; [|done|by apply Forall_app].
  destruct (process_preamble (mkPatch environment [])) as (p & Hp & Hready); [split; [done|constructor]|]. cbn [p_environment] in Hp, Hready.
  change (BEGIN_PATCH_MARKER :: _) with (preamble environment) in Hp. rewrite (process_lines_app _ _ _ _ Hp).
  destruct (Hr p Hready) as [(q & -> & Hs)|(q & e & ->)]; [|by exists e].
  pose proof Hs as (n & hs & path & mv & chunks & env & [Hb _ _ _] & _).
  rewrite <-(app_nil_r END_PATCH_MARKER), push_chars_buffer by (by apply (plain_line_lit END_PATCH_MARKER)). rewrite Hb. cbn [app push_chars].
  destruct (finish_stuck q Hb Hs) as (q' & e & E). rewrite E. by exists e.
Qed.

Lemma parse_final_newline d newline : parse_patch (document_text d newline) = parse_patch (render_document d).
Proof.
  unfold document_text. destruct newline; [|by rewrite app_nil_r].
  assert (∃ m, render_document d = STAR :: m) as [m ->].
  { unfold render_document, preamble. rewrite join_snoc_lines. cbn [app]. rewrite unlines_cons. by eexists. }
  assert (trim ((STAR :: m) ++ [LF]) = trim (STAR :: m)) as E.
  { rewrite <-app_comm_cons, !trim_cons by done. rewrite app_comm_cons. unfold trim_end. by rewrite trim_end_matches_app. }
  unfold parse_patch, parse_patch_text. by rewrite E.
Qed.

(** C3: the texts of the documented grammar, in full, with or without a last line
    feed. A text with names that do not end in white space (an environment id not
    starting with it either) and lines that do not end in a carriage return is accepted
    exactly when every update hunk has a change and every ["@@"] line is followed by
    a changed line; it is then parsed, in full and in order, to the hunks and
    environment id that it means. A text without a change, or with an ["@@"] line
    that another or the end of the hunk follows, is rejected, although the grammar
    derives it. *)
Theorem documented_grammar_exact d newline : valid_document d →
  match meaning d with
  | Some hs => parse_patch (document_text d newline) = Ok (mkArgs (render_document d) hs None (d_environment d))
  | None => ∃ e, parse_patch (document_text d newline) = Err e
  end.
Proof.
  intros [He Hv]. rewrite parse_final_newline. pose proof (document_syntax (d_hunks d) Hv) as H. unfold meaning. destruct (mapM meaning_hunk (d_hunks d)) as [ms|].
  - destruct H as (ts & Hts & Htext & <-). assert (render_document d = render_patch (mkPatch (d_environment d) ts)) as ->.
    { unfold render_document, render_patch, render_lines. cbn [p_environment p_hunks]. by rewrite Htext. }
    apply (parse_patch_grammar (mkPatch (d_environment d) ts)). by split.
  - destruct H as (before & bad & after & ts & Hd & Hts & Htext & Hbad). apply rejected_text; [done|..].
    + eapply Forall_mjoin_fmap; [apply document_hunk_plain|done].
    + rewrite Hd in Hv |- *. apply Forall_app in Hv as [_ Hv]. apply Forall_cons in Hv as [Hb Ha].
      intros p Hp. destruct (process_hunks p [] _ ts Hp Hts) as (q & Hq & Hqr). rewrite Htext in Hq.
      rewrite fmap_app, join_app. apply (rejected_after _ _ _ _ Hq).
      change (mjoin (?f <$> bad :: after)) with (f bad ++ mjoin (f <$> after)). by eapply rejected_hunks.
Qed.

(** ** Examples *)
Module DocumentExamples.
Definition edit : change_item := ILine (Added ($"x")).
Definition accepted_document : document :=
  mkDocument None [DUpdate ($"a.rs") None (Some ([edit; IHeader (Some ($"fn f")); edit], true)); DDelete ($"b.rs")].
(** A pure rename, which the grammar derives. *)
Definition rename_document : document := mkDocument None [DDelete ($"b.rs"); DUpdate ($"a.rs") (Some ($"c.rs")) None].
Definition two_headers : document :=
  mkDocument None [DUpdate ($"a.rs") None (Some ([IHeader (Some ($"impl A")); IHeader (Some ($"fn f")); edit], false))].

Lemma name_valid s : (s ≠ []) ∧ (trim_end s = s) ∧ bool_decide (LF ∉ s) = true → valid_name s.
Proof. intros (? & ? & ?%bool_decide_eq_true). done. Qed.
Lemma line_valid s : bool_decide (LF ∉ s) = true ∧ bool_decide (last s ≠ Some CR) = true → plain_line s.
Proof. intros [?%bool_decide_eq_true ?%bool_decide_eq_true]. done. Qed.

Ltac solve_document :=
  split; [done|]; repeat (match goal with
    | |- valid_name _ => apply name_valid; split_and!; [done|vm_compute; reflexivity..]
    | |- plain_line _ => apply line_valid; split; vm_compute; reflexivity
    | |- Forall _ _ => constructor
    | |- valid_document_hunk _ => cbn [valid_document_hunk]
    | |- valid_item _ => cbn [valid_item]
    | |- valid_change_line _ => cbn [valid_change_line]
    | |- _ ∧ _ => split
    | |- ∀ d, _ = Some d → _ => intros ? ?; simplify_eq
    | |- ∀ items eof, _ = Some (items, eof) → _ => intros ? ? ?; simplify_eq
    | |- _ ≠ [] => done
    | |- True => exact I
    end); try done.

Lemma documented_grammar_exact_witness :
  parse_patch (document_text accepted_document true) = Ok (mkArgs (render_document accepted_document) (default [] (meaning accepted_document)) None None) ∧
  length (default [] (meaning accepted_document)) = 2 ∧
  (∃ e, parse_patch (document_text rename_document false) = Err e) ∧ ∃ e, parse_patch (document_text two_headers true) = Err e.
Proof.
  assert (valid_document accepted_document) as H1 by (unfold accepted_document, edit; solve_document).
  assert (valid_document rename_document) as H2 by (unfold rename_document; solve_document).
  assert (valid_document two_headers) as H3 by (unfold two_headers, edit; solve_document).
  split; [exact (documented_grammar_exact accepted_document true H1)|]. split; [vm_compute; reflexivity|].
  split; [exact (documented_grammar_exact rename_document false H2)|exact (documented_grammar_exact two_headers true H3)].
Defined.
End DocumentExamples.
