(* ===== verification/SeekSequence.v ===== *)
(** * Locating lines in a file: [apply-patch/src/seek_sequence.rs]

    The search for the lines a patch expects, with four tests of decreasing
    strictness, and its characterisation: the strictest test that succeeds
    anywhere decides, at its first position. *)

From stdpp Require Import prelude list strings.
From S2P Require Import Prelude.

Inductive ApplyPatchFileUpdateMode : Type := NormalizeToLf | PreserveLineEndings.

(** The character map of [normalise]: dashes, quotes and odd spaces. *)
Definition normalise_char (c : char) : char :=
  (if (8208 <=? c) && (c <=? 8213) || (c =? 8722) then 45
   else if (8216 <=? c) && (c <=? 8219) then 39
   else if (8220 <=? c) && (c <=? 8223) then 34
   else if (c =? 160) || (8194 <=? c) && (c <=? 8202) || (c =? 8239) || (c =? 8287)
           || (c =? 12288) then 32
   else c)%N.
Definition normalise (s : str) : str := normalise_char <$> trim s.

(** The tests of the four passes. *)
Definition exact_eq (l p : str) : bool := bool_decide (l = p).
Definition rstrip_eq (l p : str) : bool := bool_decide (trim_end l = trim_end p).
Definition trim_eq (l p : str) : bool := bool_decide (trim l = trim p).
Definition normalised_eq (l p : str) : bool := bool_decide (normalise l = normalise p).

Fixpoint lines_match (eqv : str → str → bool) (window pattern : list str) : bool :=
  match window, pattern with
  | [], [] => true
  | l :: window', p :: pattern' => eqv l p && lines_match eqv window' pattern'
  | _, _ => false
  end.

(** [for i in i..=last], [count] iterations. *)
Fixpoint seek_pass (eqv : str → str → bool) (ls pattern : list str) (i count : nat) : option nat :=
  match count with
  | 0 => None
  | S count' =>
      if lines_match eqv (take (length pattern) (drop i ls)) pattern then Some i
      else seek_pass eqv ls pattern (S i) count'
  end.

Definition search_start (ls pattern : list str) (start : nat) (eof : bool)
    (update_file_mode : ApplyPatchFileUpdateMode) : nat :=
  if eof && (length pattern <=? length ls) then
    let eof_start := length ls - length pattern in
    match update_file_mode with
    | NormalizeToLf => eof_start
    | PreserveLineEndings => eof_start `max` start
    end
  else start.

Definition seek_sequence (ls pattern : list str) (start : nat) (eof : bool)
    (update_file_mode : ApplyPatchFileUpdateMode) : option nat :=
  if is_empty pattern then Some start else
  if length ls <? length pattern then None else
  let from := search_start ls pattern start eof update_file_mode in
  let count := S (length ls - length pattern) - from in
  match seek_pass exact_eq ls pattern from count with
  | Some i => Some i
  | None =>
  match seek_pass rstrip_eq ls pattern from count with
  | Some i => Some i
  | None =>
  match seek_pass trim_eq ls pattern from count with
  | Some i => Some i
  | None => seek_pass normalised_eq ls pattern from count
  end end end.

(** ** Specification *)

(** [pattern] occurs in [ls] at [i], up to [eqv]. *)
Definition occurs_at (eqv : str → str → bool) (ls pattern : list str) (i : nat) : Prop :=
  i + length pattern ≤ length ls ∧
  ∀ k p, pattern !! k = Some p → ∃ l, ls !! (i + k) = Some l ∧ eqv l p = true.

(** The tests, strictest first. *)
Definition tests : list (str → str → bool) := [exact_eq; rstrip_eq; trim_eq; normalised_eq].

(** [i] is the first position of the strictest test that succeeds at or after
    [from]. *)
Definition best_position (ls pattern : list str) (from i : nat) : Prop :=
  ∃ stricter eqv looser, tests = stricter ++ eqv :: looser ∧
    from ≤ i ∧ occurs_at eqv ls pattern i ∧
    (∀ j, from ≤ j → j < i → ¬ occurs_at eqv ls pattern j) ∧
    (∀ eqv' j, eqv' ∈ stricter → from ≤ j → ¬ occurs_at eqv' ls pattern j).

Lemma lines_match_spec eqv window pattern :
  lines_match eqv window pattern = true ↔
  length window = length pattern ∧
  ∀ k p, pattern !! k = Some p → ∃ l, window !! k = Some l ∧ eqv l p = true.
Proof.
  revert pattern. induction window as [|l window IH]; intros [|p pattern]; simpl.
  - split; [|done]. intros _. split; [done|]. intros k p. by rewrite lookup_nil.
  - split; [done|]. by intros [? _].
  - split; [done|]. by intros [? _].
  - rewrite andb_true_iff, IH. split.
    + intros (Hl & Hlen & Hk). split; [lia|]. intros [|k] q Hq; simplify_eq/=; eauto.
    + intros [Hlen Hk]. split_and!; [|lia|].
      * destruct (Hk 0 p eq_refl) as (? & ? & ?). by simplify_eq/=.
      * intros k q Hq. apply (Hk (S k) q Hq).
Qed.

Lemma window_match eqv ls pattern i :
  i + length pattern ≤ length ls →
  lines_match eqv (take (length pattern) (drop i ls)) pattern = true ↔ occurs_at eqv ls pattern i.
Proof.
  intros Hi. rewrite lines_match_spec. unfold occurs_at.
  rewrite length_take, length_drop. split.
  - intros [_ Hk]. split; [done|]. intros k p Hp. destruct (Hk k p Hp) as (l & Hl & He).
    rewrite lookup_take_lt, lookup_drop in Hl by (by eapply lookup_lt_Some). eauto.
  - intros [_ Hk]. split; [lia|]. intros k p Hp. destruct (Hk k p Hp) as (l & Hl & He).
    exists l. rewrite lookup_take_lt, lookup_drop by (by eapply lookup_lt_Some). eauto.
Qed.

(** One pass finds the first position of its range, or there is none. *)
Lemma seek_pass_spec eqv ls pattern from count :
  from + count ≤ S (length ls - length pattern) → length pattern ≤ length ls →
  match seek_pass eqv ls pattern from count with
  | Some i => from ≤ i ∧ i < from + count ∧ occurs_at eqv ls pattern i ∧
      ∀ j, from ≤ j → j < i → ¬ occurs_at eqv ls pattern j
  | None => ∀ j, from ≤ j → j < from + count → ¬ occurs_at eqv ls pattern j
  end.
Proof.
  revert from. induction count as [|count IH]; intros from Hc Hp; simpl; [lia|].
  destruct (lines_match eqv _ pattern) eqn:Hm.
  - apply window_match in Hm; [|lia]. split_and!; [lia|lia|done|lia].
  - assert (¬ occurs_at eqv ls pattern from) as Hno.
    { rewrite <- window_match by lia. by rewrite Hm. }
    specialize (IH (S from)). destruct (seek_pass eqv ls pattern (S from) count) as [i|].
    + destruct IH as (? & ? & ? & Hj); [lia|lia|]. split_and!; [lia|lia|done|].
      intros j ??. destruct (decide (j = from)) as [->|]; [done|]. apply Hj; lia.
    + intros j ??. destruct (decide (j = from)) as [->|]; [done|]. apply IH; lia.
Qed.

(** An occurrence at or after [from] lies in the range the passes search. *)
Lemma occurs_in_range eqv ls pattern from j :
  from ≤ j → occurs_at eqv ls pattern j → j < from + (S (length ls - length pattern) - from).
Proof. intros ? [? _]. lia. Qed.

Lemma seek_pass_full eqv ls pattern from :
  length pattern ≤ length ls →
  match seek_pass eqv ls pattern from (S (length ls - length pattern) - from) with
  | Some i => from ≤ i ∧ occurs_at eqv ls pattern i ∧
      ∀ j, from ≤ j → j < i → ¬ occurs_at eqv ls pattern j
  | None => ∀ j, from ≤ j → ¬ occurs_at eqv ls pattern j
  end.
Proof.
  intros Hp. destruct (decide (from ≤ S (length ls - length pattern))) as [Hf|Hf].
  - pose proof (seek_pass_spec eqv ls pattern from (S (length ls - length pattern) - from)) as H.
    destruct (seek_pass _ _ _ _ _) as [i|].
    + destruct H as (? & ? & ? & ?); [lia|done|]. auto.
    + intros j Hj Ho. apply (H ltac:(lia) Hp j Hj); [|done]. by eapply occurs_in_range.
  - replace (S (length ls - length pattern) - from) with 0 by lia. simpl.
    intros j Hj [? _]. lia.
Qed.

(** The tests only get more permissive. *)
Lemma trim_via_end s : trim s = trim (trim_end s).
Proof.
  unfold trim, trim_end, trim_start.
  pose proof (trim_end_matches_idemp is_whitespace) as Hid.
  induction s as [|c s IH]; [done|].
  specialize (Hid s). simpl.
  destruct (is_whitespace c) eqn:Hc; destruct (trim_end_matches is_whitespace s) as [|d t] eqn:Et;
    simpl in *; rewrite ?Hc; simpl; rewrite ?Et, ?Hid, ?Hc; done.
Qed.

Lemma tests_permissive eqv l p : eqv ∈ tests → eqv l p = true → normalised_eq l p = true.
Proof.
  unfold tests, exact_eq, rstrip_eq, trim_eq, normalised_eq, normalise.
  intros Hin. rewrite !elem_of_cons, elem_of_nil in Hin.
  destruct Hin as [->|[->|[->|[->|[]]]]]; rewrite !bool_decide_eq_true; intros H; [by subst| |by rewrite H|done].
  by rewrite (trim_via_end l), H, <- trim_via_end.
Qed.

Lemma occurs_normalised eqv ls pattern i :
  eqv ∈ tests → occurs_at eqv ls pattern i → occurs_at normalised_eq ls pattern i.
Proof.
  intros Hin [Hle Hk]. split; [done|]. intros k p Hp.
  destruct (Hk k p Hp) as (l & Hl & He). eauto using tests_permissive.
Qed.

Lemma seek_sequence_spec ls pattern start eof m :
  pattern ≠ [] →
  let from := search_start ls pattern start eof m in
  match seek_sequence ls pattern start eof m with
  | Some i => best_position ls pattern from i
  | None => ∀ eqv j, eqv ∈ tests → from ≤ j → ¬ occurs_at eqv ls pattern j
  end.
Proof.
  intros Hne from. unfold seek_sequence. replace (is_empty pattern) with false by (by destruct pattern).
  destruct (Nat.ltb_spec (length ls) (length pattern)) as [Hlt|Hle].
  { intros eqv j _ _ [? _]. lia. }
  fold from. cbv zeta.
  pose proof (seek_pass_full exact_eq ls pattern from Hle) as H1.
  pose proof (seek_pass_full rstrip_eq ls pattern from Hle) as H2.
  pose proof (seek_pass_full trim_eq ls pattern from Hle) as H3.
  pose proof (seek_pass_full normalised_eq ls pattern from Hle) as H4.
  destruct (seek_pass exact_eq _ _ _ _) as [i|].
  { destruct H1 as (?&?&?). exists [], exact_eq, [rstrip_eq; trim_eq; normalised_eq].
    split_and!; [done..|]. intros ? ? []%elem_of_nil. }
  destruct (seek_pass rstrip_eq _ _ _ _) as [i|].
  { destruct H2 as (?&?&?). exists [exact_eq], rstrip_eq, [trim_eq; normalised_eq].
    split_and!; [done..|]. intros eqv' j Hin. apply list_elem_of_singleton in Hin as ->. auto. }
  destruct (seek_pass trim_eq _ _ _ _) as [i|].
  { destruct H3 as (?&?&?). exists [exact_eq; rstrip_eq], trim_eq, [normalised_eq].
    split_and!; [done..|]. intros eqv' j Hin. rewrite !elem_of_cons, elem_of_nil in Hin.
    destruct Hin as [->|[->|[]]]; auto. }
  destruct (seek_pass normalised_eq _ _ _ _) as [i|].
  { destruct H4 as (?&?&?). exists [exact_eq; rstrip_eq; trim_eq], normalised_eq, [].
    split_and!; [done..|]. intros eqv' j Hin. rewrite !elem_of_cons, elem_of_nil in Hin.
    destruct Hin as [->|[->|[->|[]]]]; auto. }
  intros eqv j Hin Hj Ho. apply (H4 j Hj). by eapply occurs_normalised.
Qed.

(** What the users of the search rely on: the match is in range and not before
    the starting point. *)
Lemma seek_sequence_bounds ls pattern start eof m i :
  pattern ≠ [] → seek_sequence ls pattern start eof m = Some i →
  search_start ls pattern start eof m ≤ i ∧ i + length pattern ≤ length ls.
Proof.
  intros Hne Hs. pose proof (seek_sequence_spec ls pattern start eof m Hne) as H.
  simpl in H. rewrite Hs in H. destruct H as (? & ? & ? & ? & ? & [? _] & _). done.
Qed.

Lemma search_start_preserve ls pattern start eof :
  start ≤ search_start ls pattern start eof PreserveLineEndings.
Proof. unfold search_start. case_match; lia. Qed.

(** ** Properties *)

(** A successful search returns the first position, from its starting
    point on, of the strictest of the four tests that succeeds anywhere there;
    a failed one means that none of the tests succeeds anywhere there. *)
Theorem seek_sequence_best ls pattern start eof m :
  pattern ≠ [] →
  match seek_sequence ls pattern start eof m with
  | Some i => best_position ls pattern (search_start ls pattern start eof m) i
  | None => ∀ eqv j, eqv ∈ tests → search_start ls pattern start eof m ≤ j →
      ¬ occurs_at eqv ls pattern j
  end.
Proof. apply seek_sequence_spec. Qed.

(** With [eof] the only position considered is the end of the file: there
    is no second search from [start], although the function's comment
    announces one. *)
Theorem seek_sequence_eof_only ls pattern start m i :
  pattern ≠ [] → seek_sequence ls pattern start true m = Some i →
  i = length ls - length pattern.
Proof.
  intros Hne Hs. apply seek_sequence_bounds in Hs as [Hfrom Hend]; [|done].
  unfold search_start in Hfrom.
  destruct (Nat.leb_spec (length pattern) (length ls)); simpl in Hfrom; [|lia].
  destruct m; lia.
Qed.

(** ** Instances *)
Definition seek_lines : list str := [ $"a"; $"b "; $"b"; $"c"].

Lemma seek_sequence_best_witness :
  seek_sequence seek_lines [ $"b"; $"c"] 0 false NormalizeToLf = Some 2 ∧
  best_position seek_lines [ $"b"; $"c"] 0 2.
Proof.
  split; [vm_compute; reflexivity|].
  exact (seek_sequence_best seek_lines [ $"b"; $"c"] 0 false NormalizeToLf ltac:(done)).
Defined.

Lemma seek_sequence_eof_only_witness :
  seek_sequence seek_lines [ $"c"] 0 true NormalizeToLf = Some 3 ∧ 3 = length seek_lines - length [ $"c"].
Proof.
  split; [vm_compute; reflexivity|].
  apply (seek_sequence_eof_only seek_lines [ $"c"] 0 NormalizeToLf 3); [done|]. vm_compute. reflexivity.
Defined.
