(* ===== verification/FileUpdate.v ===== *)
(** * Updating a file: [apply-patch/src/file_update.rs] and [text_file.rs]

    From the chunks of an update hunk to the new contents of the file: the
    replacements of line ranges ([compute_replacements]) and the two ways of
    applying them, [apply_replacements] on LF-normalised lines and
    [SourceFile] with the line endings kept. Slices, subtractions and insertions
    that would panic are values of [outcome]. *)

From stdpp Require Import prelude list strings sorting.
From S2P Require Import Prelude PatchParser SeekSequence.

(** ** [text_file.rs] *)

(** [(start_index, old_len, new_lines)] *)
Abbreviation Replacement := (nat * nat * list str)%type.

Inductive LineEnding : Type := Lf | CrLf | Cr.

Definition ending_as_str (e : LineEnding) : str :=
  match e with Lf => [LF] | CrLf => [CR; LF] | Cr => [CR] end.

Record SourceLine := mkLine { text : str; ending : option LineEnding }.

Record SourceFile := mkSource { lines_of : list SourceLine; preferred_ending : LineEnding }.

(** The loop of [SourceFile::parse], with the characters of the current line
    instead of its bounds. *)
Fixpoint parse_source_lines (cur contents : str) : list SourceLine :=
  match contents with
  | [] => if is_empty cur then [] else [mkLine cur None]
  | c :: rest =>
      if decide (c = CR) then
        match rest with
        | d :: rest' =>
            if decide (d = LF) then mkLine cur (Some CrLf) :: parse_source_lines [] rest'
            else mkLine cur (Some Cr) :: parse_source_lines [] rest
        | [] => mkLine cur (Some Cr) :: parse_source_lines [] rest
        end
      else if decide (c = LF) then mkLine cur (Some Lf) :: parse_source_lines [] rest
      else parse_source_lines (cur ++ [c]) rest
  end.

(** The first line ending met; LF when there is none. *)
Fixpoint first_ending (ls : list SourceLine) : option LineEnding :=
  match ls with
  | [] => None
  | l :: ls' => match ending l with Some e => Some e | None => first_ending ls' end
  end.

Definition parse_source (contents : str) : SourceFile :=
  let ls := parse_source_lines [] contents in
  mkSource ls (default Lf (first_ending ls)).

Definition line_texts (f : SourceFile) : list str := text <$> lines_of f.

(** [line.ending.get_or_insert(preferred)] *)
Definition fill_ending (preferred : LineEnding) (l : SourceLine) : SourceLine :=
  mkLine (text l) (Some (default preferred (ending l))).

Fixpoint source_apply_loop (preferred : LineEnding) (source_index : nat)
    (source_lines : list SourceLine) (reps : list Replacement) : outcome str (list SourceLine) :=
  match reps with
  | [] => Done source_lines
  | (start_idx, old_len, new_segment) :: reps' =>
      let! skip := opt_panic (checked_sub start_idx source_index) in
      let kept := take skip source_lines in
      let source_lines' := drop old_len (drop skip source_lines) in
      let! rest := source_apply_loop preferred (start_idx + old_len) source_lines' reps' in
      Done (kept ++ ((λ t, mkLine t (Some preferred)) <$> new_segment) ++ rest)
  end.

Definition source_apply_replacements (reps : list Replacement) (f : SourceFile) : outcome str SourceFile :=
  let! new_lines := source_apply_loop (preferred_ending f) 0 (lines_of f) reps in
  Done (mkSource (fill_ending (preferred_ending f) <$> new_lines) (preferred_ending f)).

Definition render_source_line (l : SourceLine) : str :=
  text l ++ match ending l with Some e => ending_as_str e | None => [] end.
Definition into_contents (f : SourceFile) : str := mjoin (render_source_line <$> lines_of f).

(** ** [file_update.rs] *)
Section compute.
Context (original_lines : list str) (path : str) (update_file_mode : ApplyPatchFileUpdateMode).

(** The stretches of a located chunk between its context lines. *)
Fixpoint context_replacements (start_idx : nat) (pattern new_slice : list str)
    (ctx : list (nat * nat)) (old_start new_start : nat) : outcome str (list Replacement) :=
  let last_stretch :=
    if decide (old_start ≠ length pattern ∨ new_start ≠ length new_slice) then
      let! old_len := opt_panic (checked_sub (length pattern) old_start) in
      let! news := opt_panic (slice new_slice new_start (length new_slice)) in
      Done [(start_idx + old_start, old_len, news)]
    else Done [] in
  match ctx with
  | [] => last_stretch
  | (old_context, new_context) :: ctx' =>
      if (length pattern <=? old_context) || (length new_slice <=? new_context)
      then last_stretch
      else
        let! here :=
          if decide (old_start ≠ old_context ∨ new_start ≠ new_context) then
            let! old_len := opt_panic (checked_sub old_context old_start) in
            let! news := opt_panic (slice new_slice new_start new_context) in
            Done [(start_idx + old_start, old_len, news)]
          else Done [] in
        let! rest := context_replacements start_idx pattern new_slice ctx'
                       (S old_context) (S new_context) in
        Done (here ++ rest)
  end.

(** [line_index] after the chunk's context line. *)
Definition seek_context (chunk : UpdateFileChunk) (line_index : nat) : result str nat :=
  match change_context chunk with
  | None => Ok line_index
  | Some ctx_line =>
      match seek_sequence original_lines [ctx_line] line_index false update_file_mode with
      | Some idx => Ok (S idx)
      | None => Err ($"Failed to find context '" ++ ctx_line ++ $"' in " ++ path)
      end
  end.

(** Where a chunk without old lines is inserted. *)
Definition insertion_idx : nat :=
  match update_file_mode with
  | NormalizeToLf =>
      if last_is is_empty original_lines then length original_lines - 1
      else length original_lines
  | PreserveLineEndings => length original_lines
  end.

(** The search for the old lines, retried without a final empty line: the
    position with the old and new lines that it stands for. *)
Definition find_old_lines (chunk : UpdateFileChunk) (line_index : nat) : option (nat * list str * list str) :=
  match seek_sequence original_lines (old_lines chunk) line_index (is_end_of_file chunk)
          update_file_mode with
  | Some start_idx => Some (start_idx, old_lines chunk, new_lines chunk)
  | None =>
      if last_is is_empty (old_lines chunk) then
        let pattern := pop (old_lines chunk) in
        let new_slice := if last_is is_empty (new_lines chunk) then pop (new_lines chunk)
                         else new_lines chunk in
        match seek_sequence original_lines pattern line_index (is_end_of_file chunk)
                update_file_mode with
        | Some start_idx => Some (start_idx, pattern, new_slice)
        | None => None
        end
      else None
  end.

(** One iteration of the loop over the chunks. *)
Definition compute_chunk (chunk : UpdateFileChunk) (line_index : nat) : outcome str (nat * list Replacement) :=
  let! line_index := from_result (seek_context chunk line_index) in
  if is_empty (old_lines chunk) then
    Done (line_index, [(insertion_idx, 0, new_lines chunk)])
  else
    match find_old_lines chunk line_index with
    | Some (start_idx, pattern, new_slice) =>
        let! reps := match update_file_mode with
                     | NormalizeToLf => Done [(start_idx, length pattern, new_slice)]
                     | PreserveLineEndings =>
                         context_replacements start_idx pattern new_slice
                           (context_line_indices chunk) 0 0
                     end in
        Done (start_idx + length pattern, reps)
    | None => Failed ($"Failed to find expected lines in " ++ path ++ $":" ++ [LF]
                      ++ join [LF] (old_lines chunk))
    end.

Fixpoint compute_chunks (chunks : list UpdateFileChunk) (line_index : nat) : outcome str (list Replacement) :=
  match chunks with
  | [] => Done []
  | chunk :: chunks' =>
      let! (line_index', reps) := compute_chunk chunk line_index in
      let! rest := compute_chunks chunks' line_index' in
      Done (reps ++ rest)
  end.

Definition compute_replacements (chunks : list UpdateFileChunk) : outcome str (list Replacement) :=
  let! reps := compute_chunks chunks 0 in
  Done (sort_by_key (λ r, r.1.1) reps).
End compute.

(** Remove [old_len] lines at [start_idx], one by one, then insert the new ones. *)
Fixpoint insert_segment (ls : list str) (at_idx : nat) (new_segment : list str) : option (list str) :=
  match new_segment with
  | [] => Some ls
  | l :: new_segment' =>
      match vec_insert at_idx l ls with
      | Some ls' => insert_segment ls' (S at_idx) new_segment'
      | None => None
      end
  end.

Definition apply_replacement (ls : list str) (rep : Replacement) : option (list str) :=
  let '(start_idx, old_len, new_segment) := rep in
  insert_segment (Nat.iter old_len (vec_remove_guarded start_idx) ls) start_idx new_segment.

Fixpoint apply_in_order (ls : list str) (reps : list Replacement) : option (list str) :=
  match reps with
  | [] => Some ls
  | rep :: reps' =>
      match apply_replacement ls rep with
      | Some ls' => apply_in_order ls' reps'
      | None => None
      end
  end.

(** [for .. in replacements.iter().rev()] *)
Definition apply_replacements (ls : list str) (reps : list Replacement) : option (list str) :=
  apply_in_order ls (reverse reps).

(** The contents computed by [derive_new_contents_from_chunks], once the file
    has been read. *)
Definition derive_new_contents (original_contents path_text : str)
    (chunks : list UpdateFileChunk) (update_file_mode : ApplyPatchFileUpdateMode) : outcome str str :=
  match update_file_mode with
  | NormalizeToLf =>
      let split := split_char LF original_contents in
      let original_lines := if last_is is_empty split then pop split else split in
      let! reps := compute_replacements original_lines path_text update_file_mode chunks in
      let! new_lines := opt_panic (apply_replacements original_lines reps) in
      Done (join [LF] (if last_is is_empty new_lines then new_lines else new_lines ++ [[]]))
  | PreserveLineEndings =>
      let source_file := parse_source original_contents in
      let! reps := compute_replacements (line_texts source_file) path_text update_file_mode chunks in
      let! source_file' := source_apply_replacements reps source_file in
      Done (into_contents source_file')
  end.

Example derive_example :
  derive_new_contents ($"a" ++ [CR; LF] ++ $"b" ++ [LF] ++ $"c") ($"f")
    [mkChunk None [ $"a"; $"b"] [ $"a"; $"B"; $"B2"] [(0, 0)] false] PreserveLineEndings
  = Done ($"a" ++ [CR; LF] ++ $"B" ++ [CR; LF] ++ $"B2" ++ [CR; LF] ++ $"c" ++ [CR; LF]).
Proof. vm_compute. reflexivity. Qed.

(** ** Reference: one pass over the lines

    [splice] copies the lines up to each replacement, writes the new ones and
    continues behind the old ones. *)
Definition rep_start (r : Replacement) : nat := r.1.1.
Definition rep_end (r : Replacement) : nat := r.1.1 + r.1.2.
Definition rep_new (r : Replacement) : list str := r.2.

Fixpoint splice {A} (mk : str → A) (src : nat) (ls : list A) (reps : list Replacement) : list A :=
  match reps with
  | [] => ls
  | r :: reps' =>
      take (rep_start r - src) ls ++ (mk <$> rep_new r)
      ++ splice mk (rep_end r) (drop (rep_end r - src) ls) reps'
  end.

(** Replacements in source order that do not overlap. *)
Definition before (r s : Replacement) : Prop := rep_end r ≤ rep_start s.
Definition ordered (reps : list Replacement) : Prop := StronglySorted before reps.
Definition within (n : nat) (r : Replacement) : Prop := rep_end r ≤ n.

(** *** In-place application *)
Lemma iter_remove s n (ls : list str) :
  Nat.iter n (vec_remove_guarded s) ls = take s ls ++ drop (s + n) ls.
Proof.
  revert ls. induction n as [|n IH]; intros ls.
  - rewrite Nat.add_0_r. simpl. by rewrite take_drop.
  - rewrite Nat.iter_succ_r, IH. unfold vec_remove_guarded.
    destruct (decide (s ≤ length ls)) as [Hs|Hs].
    + rewrite take_app_le, take_take, Nat.min_id by (rewrite length_take; lia).
      rewrite drop_app_ge by (rewrite length_take; lia).
      rewrite drop_drop, length_take. do 2 f_equal. lia.
    + rewrite (take_ge ls s), (drop_ge ls (S s)), app_nil_r by lia.
      rewrite take_ge, !drop_ge by lia. done.
Qed.

Lemma insert_segment_spec (ls : list str) i news :
  i ≤ length ls → insert_segment ls i news = Some (take i ls ++ news ++ drop i ls).
Proof.
  revert ls i. induction news as [|l news IH]; intros ls i Hi; simpl.
  - by rewrite take_drop.
  - unfold vec_insert. rewrite decide_True by done.
    rewrite IH by (rewrite length_app; simpl; rewrite length_take, length_drop; lia).
    f_equal. assert (length (take i ls) = i) as Hlen by (rewrite length_take; lia).
    rewrite take_app_ge, Hlen by lia. replace (S i - i) with 1 by lia. simpl.
    rewrite drop_app_ge, Hlen by lia. replace (S i - i) with 1 by lia. simpl.
    by rewrite <- app_assoc.
Qed.

Lemma apply_replacement_spec (ls : list str) r :
  rep_start r ≤ length ls →
  apply_replacement ls r =
    Some (take (rep_start r) ls ++ rep_new r ++ drop (rep_end r) ls).
Proof.
  destruct r as [[s n] news]. unfold rep_start, rep_end, rep_new. simpl. intros Hs.
  rewrite iter_remove. assert (length (take s ls) = s) as Hlen by (rewrite length_take; lia).
  rewrite insert_segment_spec by (rewrite length_app, Hlen; lia).
  rewrite take_app_le, take_take, Nat.min_id by lia.
  rewrite drop_app_ge, Hlen, Nat.sub_diag by lia. done.
Qed.

Lemma apply_in_order_app ls r1 r2 :
  apply_in_order ls (r1 ++ r2) =
    match apply_in_order ls r1 with Some ls' => apply_in_order ls' r2 | None => None end.
Proof.
  revert ls. induction r1 as [|r r1 IH]; intros ls; simpl; [done|].
  destruct (apply_replacement ls r); [apply IH|done].
Qed.

Lemma splice_skip {A} (mk : str → A) k src (ls : list A) reps :
  Forall (λ r, src + k ≤ rep_start r) reps → k ≤ length ls → ordered reps →
  splice mk src ls reps = take k ls ++ splice mk (src + k) (drop k ls) reps.
Proof.
  intros Hall Hk _. destruct reps as [|r reps]; simpl; [by rewrite take_drop|].
  apply Forall_cons in Hall as [Hr _].
  assert (rep_start r ≤ rep_end r) by (unfold rep_start, rep_end; lia).
  replace (rep_start r - src) with (k + (rep_start r - (src + k))) by lia.
  rewrite <- (take_drop k ls) at 1.
  rewrite take_app_ge by (rewrite length_take; lia). rewrite length_take, Nat.min_l by lia.
  replace (k + (rep_start r - (src + k)) - k) with (rep_start r - (src + k)) by lia.
  rewrite drop_drop. replace (k + (rep_end r - (src + k))) with (rep_end r - src) by lia.
  by rewrite <- app_assoc.
Qed.

Lemma ordered_start r reps : ordered (r :: reps) → Forall (λ s, rep_end r ≤ rep_start s) reps.
Proof. intros H. by apply StronglySorted_inv in H as [_ H]. Qed.

Lemma take_drop_app_mid {A} (a b : nat) (l m : list A) :
  a ≤ b → b ≤ length l → take a (take b l ++ m) = take a l ∧ drop b (take b l ++ m) = m.
Proof.
  intros. rewrite take_app_le by (rewrite length_take; lia). rewrite take_take, Nat.min_l by lia.
  split; [done|]. rewrite drop_app_ge by (rewrite length_take; lia).
  rewrite length_take, Nat.min_l, Nat.sub_diag by lia. done.
Qed.

Lemma apply_replacements_splice (ls : list str) reps :
  ordered reps → Forall (within (length ls)) reps →
  apply_replacements ls reps = Some (splice id 0 ls reps).
Proof.
  unfold apply_replacements. intros Ho Hw. induction reps as [|r reps IH]; [done|].
  pose proof (ordered_start _ _ Ho) as Hstart. apply StronglySorted_inv in Ho as [Ho _].
  apply Forall_cons in Hw as [Hr Hw]. unfold within in Hr.
  rewrite reverse_cons, apply_in_order_app, IH by done. simpl.
  assert (rep_start r ≤ rep_end r) by (unfold rep_start, rep_end; lia).
  rewrite (splice_skip id (rep_end r) 0 ls reps) by (done || lia). simpl.
  rewrite apply_replacement_spec by (rewrite length_app, length_take; lia).
  destruct (take_drop_app_mid (rep_start r) (rep_end r) ls
    (splice id (rep_end r) (drop (rep_end r) ls) reps)) as [-> ->]; [done..|].
  by rewrite !Nat.sub_0_r, list_fmap_id.
Qed.

(** *** Application with line endings *)
Lemma source_apply_loop_splice pref src ls reps :
  ordered reps → Forall (λ r, src ≤ rep_start r) reps →
  source_apply_loop pref src ls reps = Done (splice (λ t, mkLine t (Some pref)) src ls reps).
Proof.
  revert src ls. induction reps as [|[[s n] news] reps IH]; intros src ls Ho Hs; [done|].
  pose proof (ordered_start _ _ Ho) as Hstart. apply StronglySorted_inv in Ho as [Ho _].
  apply Forall_cons in Hs as [Hr _]. unfold rep_start in Hr. simpl in *.
  rewrite checked_sub_Some by done. simpl. rewrite IH; [|done|exact Hstart].
  simpl. unfold rep_start, rep_end, rep_new. simpl. do 4 f_equal.
  rewrite drop_drop. f_equal. lia.
Qed.

Lemma splice_fmap {A} (mk : str → A) (f : A → str) src (ls : list A) reps :
  (∀ t, f (mk t) = t) → f <$> splice mk src ls reps = splice id src (f <$> ls) reps.
Proof.
  intros Hf. revert src ls. induction reps as [|r reps IH]; intros src ls; simpl; [done|].
  rewrite !fmap_app, IH, <- list_fmap_compose, fmap_take, fmap_drop. do 2 f_equal.
  rewrite list_fmap_id. rewrite <- (list_fmap_id (rep_new r)) at 2.
  apply list_fmap_ext. intros. apply Hf.
Qed.

(** *** Round trip of [SourceFile] *)
Lemma parse_source_cr cur s :
  head s ≠ Some LF →
  parse_source_lines cur (CR :: s) = mkLine cur (Some Cr) :: parse_source_lines [] s.
Proof. intros Hs. destruct s as [|d s]; [done|]. simpl. rewrite decide_False; [done|]. simpl in Hs. congruence. Qed.

Lemma parse_source_crlf cur s :
  parse_source_lines cur (CR :: LF :: s) = mkLine cur (Some CrLf) :: parse_source_lines [] s.
Proof. done. Qed.

Lemma parse_source_lf cur s :
  parse_source_lines cur (LF :: s) = mkLine cur (Some Lf) :: parse_source_lines [] s.
Proof. done. Qed.

Lemma parse_source_char cur c s :
  c ≠ CR → c ≠ LF → parse_source_lines cur (c :: s) = parse_source_lines (cur ++ [c]) s.
Proof. intros. simpl. by rewrite !decide_False. Qed.

Lemma render_cons l ls :
  mjoin (render_source_line <$> l :: ls) = render_source_line l ++ mjoin (render_source_line <$> ls).
Proof. done. Qed.

Lemma render_parse_lines cur s :
  mjoin (render_source_line <$> parse_source_lines cur s) = cur ++ s.
Proof.
  revert cur. induction s as [s IH] using (induction_ltof1 _ (@length N)). unfold ltof in IH.
  intros cur. destruct s as [|c s].
  { destruct cur; [done|]. unfold render_source_line. simpl. by rewrite !app_nil_r. }
  destruct (decide (c = CR)) as [->|Hc]; [destruct (decide (head s = Some LF)) as [Hs|Hs]|].
  - destruct s as [|d s]; [done|]. injection Hs as ->. rewrite parse_source_crlf, render_cons, IH by (simpl; lia).
    unfold render_source_line. simpl. by rewrite <- app_assoc.
  - rewrite parse_source_cr, render_cons, IH by (done || simpl; lia).
    unfold render_source_line. simpl. by rewrite <- app_assoc.
  - destruct (decide (c = LF)) as [->|Hl].
    + rewrite parse_source_lf, render_cons, IH by (simpl; lia).
      unfold render_source_line. simpl. by rewrite <- app_assoc.
    + rewrite parse_source_char, IH by (done || simpl; lia). by rewrite <- app_assoc.
Qed.

(** ** The computed replacements *)

(** Replacements of one chunk stay inside its region and in order. *)
Fixpoint reps_between (lo hi : nat) (reps : list Replacement) : Prop :=
  match reps with
  | [] => lo ≤ hi
  | r :: reps' => lo ≤ rep_start r ∧ reps_between (rep_end r) hi reps'
  end.

Lemma reps_between_lo lo lo' hi reps : lo' ≤ lo → reps_between lo hi reps → reps_between lo' hi reps.
Proof. destruct reps; simpl; [lia|]. intros ? [? ?]. split; [lia|done]. Qed.

Lemma reps_between_Forall lo hi reps :
  reps_between lo hi reps → lo ≤ hi ∧ Forall (λ r, lo ≤ rep_start r ∧ rep_end r ≤ hi) reps.
Proof.
  revert lo. induction reps as [|r reps IH]; intros lo; simpl; [done|]. intros [Hr Hreps].
  assert (rep_start r ≤ rep_end r) by (unfold rep_start, rep_end; lia).
  destruct (IH _ Hreps) as [? Hall]. split; [lia|]. constructor; [lia|].
  eapply Forall_impl; [exact Hall|]. simpl. lia.
Qed.

Lemma reps_between_ordered lo hi reps : reps_between lo hi reps → ordered reps.
Proof.
  revert lo. induction reps as [|r reps IH]; intros lo; simpl; [constructor|]. intros [Hr Hreps].
  constructor; [by eapply IH|]. apply reps_between_Forall in Hreps as [_ Hall].
  eapply Forall_impl; [exact Hall|]. unfold before. simpl. lia.
Qed.

(** With increasing context indices no subtraction or slice panics, and the
    stretches lie in the region of the chunk. *)
Lemma context_replacements_ok start pattern news ctx os ns :
  indices_from os ns ctx → os ≤ length pattern → ns ≤ length news →
  ∃ reps, context_replacements start pattern news ctx os ns = Done reps ∧
    reps_between (start + os) (start + length pattern) reps.
Proof.
  revert os ns. induction ctx as [|[oc nc] ctx IH]; intros os ns Hi Ho Hn.
  - simpl. case_decide as Hd; [|exists []; split; [done|simpl; lia]].
    rewrite checked_sub_Some, slice_Some by lia. simpl. eexists. split; [done|].
    simpl. unfold rep_start, rep_end. simpl. lia.
  - destruct Hi as (H1 & H2 & Hi). cbn [context_replacements].
    destruct (Nat.leb_spec (length pattern) oc); [|destruct (Nat.leb_spec (length news) nc)];
      cbn [orb]; [|..].
    1,2: case_decide as Hd; [|exists []; split; [done|simpl; lia]];
      rewrite checked_sub_Some, slice_Some by lia; simpl; eexists; split; [done|];
      simpl; unfold rep_start, rep_end; simpl; lia.
    destruct (IH (S oc) (S nc) Hi) as (reps & -> & Hreps); [lia|lia|].
    case_decide as Hd; [rewrite checked_sub_Some, slice_Some by lia|];
      simpl; eexists; (split; [done|]); simpl.
    + unfold rep_start, rep_end. simpl. split; [lia|].
      eapply reps_between_lo; [|exact Hreps]. lia.
    + eapply reps_between_lo; [|exact Hreps]. lia.
Qed.

(** Every chunk is computed without a panic. *)
Lemma compute_chunk_no_panic ls path m chunk li :
  chunk_wf chunk → compute_chunk ls path m chunk li ≠ Panicked.
Proof.
  intros [Hi _]. unfold compute_chunk. destruct (seek_context ls path m chunk li) as [li'|e]; [|done].
  simpl. destruct (is_empty (old_lines chunk)); [done|].
  destruct (find_old_lines ls m chunk li') as [[[st pat] news]|]; [|done].
  destruct m; [done|].
  destruct (context_replacements_ok st pat news _ 0 0 Hi) as (reps & -> & _); [lia|lia|done].
Qed.

Lemma compute_chunks_no_panic ls path m chunks li :
  Forall chunk_wf chunks → compute_chunks ls path m chunks li ≠ Panicked.
Proof.
  intros Hc. revert li. induction Hc as [|c chunks Hc _ IH]; intros li; simpl; [done|].
  pose proof (compute_chunk_no_panic ls path m c li Hc) as Hn.
  destruct (compute_chunk ls path m c li) as [[li' reps]| |]; simpl; [|done|done].
  specialize (IH li'). by destruct (compute_chunks ls path m chunks li').
Qed.

(** An insertion at the end of the file, the only replacement that may come
    before others in the list and behind them in the file. *)
Definition at_end (n : nat) (r : Replacement) : Prop := rep_start r = n ∧ rep_end r = n.
Definition before_or_end (n : nat) (r s : Replacement) : Prop := before r s ∨ at_end n r.

Lemma find_old_lines_bounds ls chunk li st pat news :
  li ≤ length ls → find_old_lines ls PreserveLineEndings chunk li = Some (st, pat, news) →
  li ≤ st ∧ st + length pat ≤ length ls.
Proof.
  intros Hli. unfold find_old_lines.
  assert (∀ p i, seek_sequence ls p li (is_end_of_file chunk) PreserveLineEndings = Some i →
    li ≤ i ∧ i + length p ≤ length ls) as Hseek.
  { intros p i Hs. destruct (decide (p = [])) as [->|Hp].
    - unfold seek_sequence in Hs. simplify_eq/=. lia.
    - apply seek_sequence_bounds in Hs as [Hfrom Hend]; [|done].
      pose proof (search_start_preserve ls p li (is_end_of_file chunk)). lia. }
  intros H. repeat case_match; simplify_eq; by apply Hseek.
Qed.

Lemma seek_context_bounds ls path chunk li li' :
  li ≤ length ls → seek_context ls path PreserveLineEndings chunk li = Ok li' →
  li ≤ li' ∧ li' ≤ length ls.
Proof.
  intros Hli. unfold seek_context. destruct (change_context chunk) as [ctx|]; [|by intros [= <-]].
  destruct (seek_sequence ls [ctx] li false PreserveLineEndings) as [i|] eqn:Hs; intros; simplify_eq.
  apply seek_sequence_bounds in Hs as [Hfrom Hend]; [|done]. unfold search_start in Hfrom.
  simpl in *. lia.
Qed.

Lemma compute_chunk_bounds ls path chunk li li' reps :
  chunk_wf chunk → li ≤ length ls →
  compute_chunk ls path PreserveLineEndings chunk li = Done (li', reps) →
  li ≤ li' ∧ li' ≤ length ls ∧
  (reps_between li li' reps ∨ ∃ r, reps = [r] ∧ at_end (length ls) r).
Proof.
  intros [Hi _] Hli. unfold compute_chunk.
  destruct (seek_context ls path PreserveLineEndings chunk li) as [l0|] eqn:Hctx; [|done].
  apply seek_context_bounds in Hctx as [??]; [|done]. simpl.
  destruct (is_empty (old_lines chunk)).
  { intros [= <- <-]. split_and!; [done..|]. right. eexists. split; [done|].
    unfold at_end, rep_start, rep_end. simpl. lia. }
  destruct (find_old_lines ls PreserveLineEndings chunk l0) as [[[st pat] news]|] eqn:Hf; [|done].
  apply find_old_lines_bounds in Hf as [??]; [|done].
  destruct (context_replacements_ok st pat news _ 0 0 Hi) as (rs & -> & Hrs); [lia|lia|].
  intros [= <- <-]. split_and!; [lia|lia|]. left.
  eapply reps_between_lo; [|exact Hrs]. lia.
Qed.

Lemma StronglySorted_app_2 {A} (R : A → A → Prop) l1 l2 :
  StronglySorted R l1 → StronglySorted R l2 → (∀ x y, x ∈ l1 → y ∈ l2 → R x y) →
  StronglySorted R (l1 ++ l2).
Proof.
  intros H1 H2 H. induction H1 as [|x l1 H1 IH Hx]; simpl; [done|].
  constructor; [apply IH; intros; apply H; set_solver|].
  apply Forall_app. split; [done|]. apply Forall_forall. intros y Hy. apply H; set_solver.
Qed.

Lemma StronglySorted_weaken {A} (R S : A → A → Prop) l :
  (∀ x y, R x y → S x y) → StronglySorted R l → StronglySorted S l.
Proof. intros HRS H. induction H; constructor; eauto using Forall_impl. Qed.

Lemma compute_chunks_bounds ls path chunks li reps :
  Forall chunk_wf chunks → li ≤ length ls →
  compute_chunks ls path PreserveLineEndings chunks li = Done reps →
  Forall (λ r, li ≤ rep_start r ∧ within (length ls) r) reps ∧
  StronglySorted (before_or_end (length ls)) reps.
Proof.
  intros Hc. revert li reps. induction Hc as [|c chunks Hc _ IH]; intros li reps Hli; simpl.
  { intros [= <-]. by repeat constructor. }
  destruct (compute_chunk ls path PreserveLineEndings c li) as [[li' rs]| |] eqn:Hrs; try done.
  simpl. destruct (compute_chunks ls path PreserveLineEndings chunks li') as [rest| |] eqn:Hrest; try done.
  simpl. intros [= <-].
  apply compute_chunk_bounds in Hrs as (Hle & Hle' & Hshape); [|done..].
  destruct (IH _ _ Hle' Hrest) as [Hall Hsorted].
  assert (Forall (λ r, li ≤ rep_start r ∧ within (length ls) r) rest) as Hall'.
  { eapply Forall_impl; [exact Hall|]. intros ? [? ?]. split; [lia|done]. }
  destruct Hshape as [Hb|(r & -> & Hr)].
  - pose proof (reps_between_Forall _ _ _ Hb) as [_ Hin]. split.
    + apply Forall_app. split; [|done]. eapply Forall_impl; [exact Hin|].
      unfold within. simpl. lia.
    + apply StronglySorted_app_2; [|done|].
      * eapply StronglySorted_weaken; [|by eapply reps_between_ordered]. by left.
      * rewrite Forall_forall in Hin, Hall. intros x y Hx Hy. left. unfold before.
        specialize (Hin x Hx). specialize (Hall y Hy). simpl in *. lia.
  - split.
    + constructor; [|done]. destruct Hr. unfold within. lia.
    + constructor; [done|]. apply Forall_forall. intros. by right.
Qed.

(** Stable sorting brings the insertions at the end behind everything else. *)
Lemma sort_ordered n reps :
  Forall (within n) reps → StronglySorted (before_or_end n) reps →
  ordered (sort_by_key (λ r, r.1.1) reps).
Proof.
  intros Hw Hs. induction Hs as [|r reps Hs IH Hr]; [constructor|].
  apply Forall_cons in Hw as [Hwr Hw]. simpl.
  assert (∀ s, s ∈ sort_by_key (λ r, r.1.1) reps → before_or_end n r s ∧ within n s) as Hin.
  { intros s Hin. rewrite sort_by_key_perm in Hin.
    rewrite Forall_forall in Hr, Hw. split; [by apply Hr|by apply Hw]. }
  unfold within, before_or_end, before, at_end, rep_start, rep_end in *.
  apply insert_by_key_sorted; [| | |by apply IH].
  - intros y z Hy Hz Hk Hyz Hry. unfold before, rep_start, rep_end in *. lia.
  - intros y Hy Hk. destruct (Hin y Hy) as [[?|[??]] ?]; unfold before, rep_start, rep_end in *; lia.
  - intros y Hy Hk. destruct (Hin y Hy) as [[?|[??]] ?]; unfold before, rep_start, rep_end in *; lia.
Qed.

Lemma compute_replacements_ordered ls path chunks reps :
  Forall chunk_wf chunks →
  compute_replacements ls path PreserveLineEndings chunks = Done reps →
  ordered reps ∧ Forall (within (length ls)) reps.
Proof.
  intros Hc. unfold compute_replacements.
  destruct (compute_chunks ls path PreserveLineEndings chunks 0) as [rs| |] eqn:Hrs; try done.
  simpl. intros [= <-]. destruct (compute_chunks_bounds _ _ _ _ _ Hc (le_0_n _) Hrs) as [Hall Hs].
  assert (Forall (within (length ls)) rs) as Hw.
  { eapply Forall_impl; [exact Hall|]. by intros ? [_ ?]. }
  split; [by eapply sort_ordered|]. by rewrite sort_by_key_perm.
Qed.

(** ** No update panics *)
Lemma seek_in_range ls p li eof m i :
  li ≤ length ls → seek_sequence ls p li eof m = Some i → i + length p ≤ length ls.
Proof.
  intros Hli Hs. destruct (decide (p = [])) as [->|Hp].
  - unfold seek_sequence in Hs. simplify_eq/=. lia.
  - by apply seek_sequence_bounds in Hs as [_ ?].
Qed.

Lemma find_old_lines_range ls m chunk li st pat news :
  li ≤ length ls → find_old_lines ls m chunk li = Some (st, pat, news) →
  st + length pat ≤ length ls.
Proof.
  intros Hli. unfold find_old_lines. intros H.
  repeat case_match; simplify_eq; by eapply seek_in_range.
Qed.

Lemma normalize_chunk_range ls path chunk li li' reps :
  li ≤ length ls → compute_chunk ls path NormalizeToLf chunk li = Done (li', reps) →
  li' ≤ length ls ∧ Forall (λ r, rep_start r ≤ length ls) reps.
Proof.
  intros Hli. unfold compute_chunk.
  destruct (seek_context ls path NormalizeToLf chunk li) as [l0|] eqn:Hctx; [|done]. simpl.
  assert (l0 ≤ length ls) as Hl0.
  { unfold seek_context in Hctx. repeat case_match; simplify_eq; [|done].
    match goal with H : seek_sequence _ _ _ _ _ = _ |- _ => apply seek_in_range in H; simpl in *; lia end. }
  destruct (is_empty (old_lines chunk)).
  { intros [= <- <-]. split; [done|]. constructor; [|done].
    unfold rep_start, insertion_idx. simpl. case_match; lia. }
  destruct (find_old_lines ls NormalizeToLf chunk l0) as [[[st pat] news]|] eqn:Hf; [|done].
  apply find_old_lines_range in Hf; [|done]. intros [= <- <-]. split; [done|].
  constructor; [|done]. unfold rep_start. simpl. lia.
Qed.

Lemma normalize_chunks_range ls path chunks li reps :
  li ≤ length ls → compute_chunks ls path NormalizeToLf chunks li = Done reps →
  Forall (λ r, rep_start r ≤ length ls) reps.
Proof.
  revert li reps. induction chunks as [|c chunks IH]; intros li reps Hli; simpl.
  { by intros [= <-]. }
  destruct (compute_chunk ls path NormalizeToLf c li) as [[li' rs]| |] eqn:Hrs; try done.
  simpl. apply normalize_chunk_range in Hrs as [Hli' Hrs]; [|done].
  destruct (compute_chunks ls path NormalizeToLf chunks li') as [rest| |] eqn:Hrest; try done.
  simpl. intros [= <-]. apply Forall_app. eauto.
Qed.

(** In descending order every insertion point still exists. *)
Lemma apply_replacements_total ls reps :
  StronglySorted (λ r s, rep_start r ≤ rep_start s) reps →
  Forall (λ r, rep_start r ≤ length ls) reps →
  ∃ ls', apply_replacements ls reps = Some ls' ∧
    ∀ k, k ≤ length ls → Forall (λ r, k ≤ rep_start r) reps → k ≤ length ls'.
Proof.
  unfold apply_replacements. intros Hs Hr. induction Hs as [|r reps Hs IH Hle]; [by eexists|].
  apply Forall_cons in Hr as [Hr Hrs]. destruct (IH Hrs) as (ls' & Hls' & Hlen).
  rewrite reverse_cons, apply_in_order_app, Hls'. simpl.
  specialize (Hlen (rep_start r) Hr Hle).
  rewrite apply_replacement_spec by done. eexists. split; [done|].
  intros k _ Hk. apply Forall_cons in Hk as [Hk _]. rewrite length_app, length_take. lia.
Qed.

Lemma derive_normalize_no_panic contents path chunks :
  Forall chunk_wf chunks → derive_new_contents contents path chunks NormalizeToLf ≠ Panicked.
Proof.
  intros Hc. unfold derive_new_contents, compute_replacements.
  set (ls := if last_is _ _ then _ else _). clearbody ls.
  pose proof (compute_chunks_no_panic ls path NormalizeToLf chunks 0 Hc) as Hn.
  destruct (compute_chunks ls path NormalizeToLf chunks 0) as [reps| |] eqn:Hreps; [|done|done].
  simpl. destruct (apply_replacements_total ls (sort_by_key (λ r, r.1.1) reps)) as (ls' & -> & _).
  - apply (sort_by_key_sorted (λ r : Replacement, r.1.1)).
  - rewrite sort_by_key_perm. eapply normalize_chunks_range; [|exact Hreps]. lia.
  - done.
Qed.

(** The complete behaviour with line endings preserved. *)
Definition preserve_spec (f : SourceFile) (reps : list Replacement) : str :=
  mjoin (render_source_line <$> (fill_ending (preferred_ending f) <$>
    splice (λ t, mkLine t (Some (preferred_ending f))) 0 (lines_of f) reps)).

Lemma source_apply_spec f reps :
  ordered reps →
  source_apply_replacements reps f =
    Done (mkSource (fill_ending (preferred_ending f) <$>
      splice (λ t, mkLine t (Some (preferred_ending f))) 0 (lines_of f) reps) (preferred_ending f)).
Proof.
  intros Ho. unfold source_apply_replacements.
  rewrite source_apply_loop_splice; [done|done|]. apply Forall_forall. lia.
Qed.

Lemma derive_preserve contents path chunks :
  Forall chunk_wf chunks →
  derive_new_contents contents path chunks PreserveLineEndings =
    match compute_replacements (line_texts (parse_source contents)) path PreserveLineEndings chunks with
    | Done reps => Done (preserve_spec (parse_source contents) reps)
    | Failed e => Failed e
    | Panicked => Panicked
    end.
Proof.
  intros Hc. unfold derive_new_contents.
  destruct (compute_replacements _ _ _ _) as [reps| |] eqn:Hreps; try done.
  simpl. apply compute_replacements_ordered in Hreps as [Ho _]; [|done].
  by rewrite source_apply_spec.
Qed.

Lemma compute_replacements_no_panic ls path m chunks :
  Forall chunk_wf chunks → compute_replacements ls path m chunks ≠ Panicked.
Proof.
  intros Hc. unfold compute_replacements.
  pose proof (compute_chunks_no_panic ls path m chunks 0 Hc) as Hn.
  by destruct (compute_chunks ls path m chunks 0).
Qed.

Lemma derive_no_panic contents path chunks m :
  Forall chunk_wf chunks → derive_new_contents contents path chunks m ≠ Panicked.
Proof.
  intros Hc. destruct m; [by apply derive_normalize_no_panic|].
  rewrite derive_preserve by done.
  pose proof (compute_replacements_no_panic (line_texts (parse_source contents)) path
    PreserveLineEndings chunks Hc). by destruct (compute_replacements _ _ _ _).
Qed.

(** ** Properties *)

(** Splitting a file into lines with their endings and writing them out
    again gives the file back, whatever mixture of LF, CRLF and CR it has. *)
Theorem source_file_roundtrip contents : into_contents (parse_source contents) = contents.
Proof. apply (render_parse_lines [] contents). Qed.

(** On chunks as the parser produces them, an update never panics: no
    subtraction goes below zero, no slice or insertion is out of range, in
    either mode and for any file. *)
Theorem derive_new_contents_no_panic contents path chunks m :
  Forall chunk_wf chunks → derive_new_contents contents path chunks m ≠ Panicked.
Proof. apply derive_no_panic. Qed.

(** C25: with line endings preserved, the new file is the old one with the
    computed ranges replaced in one pass: lines outside them keep their text
    and ending, new lines take the preferred ending, and an unterminated last
    line receives it. *)
Theorem preserve_mode_spec contents path chunks reps :
  Forall chunk_wf chunks →
  compute_replacements (line_texts (parse_source contents)) path PreserveLineEndings chunks = Done reps →
  ordered reps ∧ Forall (within (length (line_texts (parse_source contents)))) reps ∧
  derive_new_contents contents path chunks PreserveLineEndings
    = Done (preserve_spec (parse_source contents) reps).
Proof.
  intros Hc Hr. destruct (compute_replacements_ordered _ _ _ _ Hc Hr).
  rewrite derive_preserve, Hr by done. done.
Qed.

(** Editing the lines in place, last replacement first and line by line,
    gives the one-pass result, and agrees with the text of the lines that the
    ending-preserving representation holds after the same replacements. *)
Theorem apply_replacements_correct f reps :
  ordered reps → Forall (within (length (line_texts f))) reps →
  ∃ f', source_apply_replacements reps f = Done f' ∧
    apply_replacements (line_texts f) reps = Some (line_texts f') ∧
    line_texts f' = splice id 0 (line_texts f) reps.
Proof.
  intros Ho Hw. eexists. split; [by apply source_apply_spec|].
  rewrite apply_replacements_splice by done. unfold line_texts. simpl.
  rewrite <- (splice_fmap (λ t, mkLine t (Some (preferred_ending f))) text) by done.
  rewrite <- list_fmap_compose. done.
Qed.

(** Drop a blank last line. *)
Definition without_blank_last (ls : list str) : list str :=
  if last_is is_empty ls then pop ls else ls.

Lemma join_terminated ls :
  join [LF] (if last_is is_empty ls then ls else ls ++ [[]]) = unlines (without_blank_last ls).
Proof.
  unfold without_blank_last. destruct (last_cases ls) as [->|(l & x & ->)]; [done|].
  rewrite last_is_snoc. destruct x as [|c x]; simpl.
  - rewrite join_snoc_lines, pop_snoc, app_nil_r. done.
  - by rewrite join_snoc_lines, app_nil_r.
Qed.

(** A chunk whose old lines first occur verbatim behind [pre] replaces
    exactly them, in LF mode; a blank line at the very end of the resulting
    file is lost. *)
Theorem normalize_single_chunk pre old new post path ctx :
  old ≠ [] → Forall (λ l, LF ∉ l) (pre ++ old ++ post) →
  (∀ j, j < length pre → ¬ occurs_at exact_eq (pre ++ old ++ post) old j) →
  derive_new_contents (unlines (pre ++ old ++ post)) path [mkChunk None old new ctx false] NormalizeToLf
  = Done (unlines (without_blank_last (pre ++ new ++ post))).
Proof.
  intros Hne Hlf Hfirst. unfold derive_new_contents.
  rewrite split_unlines, last_is_snoc, pop_snoc by done. cbn [is_empty].
  assert (occurs_at exact_eq (pre ++ old ++ post) old (length pre)) as Hocc.
  { split; [rewrite !length_app; lia|]. intros k q Hq. exists q.
    rewrite lookup_app_r by lia. replace (length pre + k - length pre) with k by lia.
    split; [by apply lookup_app_l_Some|]. by apply bool_decide_eq_true. }
  assert (seek_sequence (pre ++ old ++ post) old 0 false NormalizeToLf = Some (length pre)) as Hseek.
  { unfold seek_sequence. replace (is_empty old) with false by (by destruct old).
    destruct (Nat.ltb_spec (length (pre ++ old ++ post)) (length old)) as [Hlt|Hle];
      [rewrite !length_app in Hlt; lia|].
    cbn [search_start andb]. pose proof (seek_pass_full exact_eq _ _ 0 Hle) as Hp.
    destruct (seek_pass exact_eq _ _ _ _) as [i|]; [|by destruct (Hp (length pre)); [lia|]].
    destruct Hp as (_ & Hi & Hmin). f_equal.
    destruct (lt_eq_lt_dec i (length pre)) as [[?|?]|?]; [by destruct (Hfirst i)|done|].
    destruct (Hmin (length pre)); [lia|done|done]. }
  unfold compute_replacements, compute_chunks, compute_chunk, seek_context, find_old_lines.
  cbn [change_context from_result obind old_lines new_lines is_end_of_file].
  replace (is_empty old) with false by (by destruct old). rewrite Hseek.
  cbn [obind app sort_by_key foldr insert_by_key].
  rewrite apply_replacements_splice; [|by repeat constructor|].
  - simpl. unfold rep_start, rep_end, rep_new. simpl. rewrite !Nat.sub_0_r.
    rewrite take_app_length, list_fmap_id, <- drop_drop, drop_app_length, drop_app_length.
    by rewrite join_terminated.
  - constructor; [|done]. unfold within, rep_end. simpl. rewrite !length_app. lia.
Qed.

(** In LF mode a chunk marked end-of-file is placed at the end of the file
    even when an earlier chunk of the same hunk already claimed those lines; the
    two replacements overlap and the later chunk's lines disappear. *)
Theorem normalize_eof_overlap_loses_edit :
  derive_new_contents (unlines [ $"a"]) ($"f")
    [mkChunk None [ $"a"] [ $"b"] [] false; mkChunk None [ $"a"] [ $"c"] [] true] NormalizeToLf
  = Done (unlines [ $"b"]) ∧
  ∃ e, derive_new_contents (unlines [ $"a"]) ($"f")
    [mkChunk None [ $"a"] [ $"b"] [] false; mkChunk None [ $"a"] [ $"c"] [] true] PreserveLineEndings
  = Failed e.
Proof. split; [vm_compute; reflexivity|]. eexists. vm_compute. reflexivity. Qed.

(** ** Instances *)
Definition sample_chunk : UpdateFileChunk := mkChunk None [ $"b"] [ $"x"; $"y"] [] false.
Definition sample_file : str := $"a" ++ [CR; LF] ++ $"b" ++ [LF] ++ $"c".

Lemma sample_chunk_wf : Forall chunk_wf [sample_chunk].
Proof. constructor; [|constructor]. split_and!; try done; repeat constructor. Qed.

Lemma derive_new_contents_no_panic_witness :
  derive_new_contents sample_file ($"f") [sample_chunk] NormalizeToLf ≠ Panicked.
Proof. exact (derive_new_contents_no_panic sample_file ($"f") [sample_chunk] NormalizeToLf sample_chunk_wf). Defined.

Lemma preserve_mode_spec_witness :
  ∃ reps, compute_replacements (line_texts (parse_source sample_file)) ($"f") PreserveLineEndings [sample_chunk] = Done reps ∧
    derive_new_contents sample_file ($"f") [sample_chunk] PreserveLineEndings
      = Done (preserve_spec (parse_source sample_file) reps).
Proof.
  eexists. split; [vm_compute; reflexivity|].
  refine (proj2 (proj2 (preserve_mode_spec sample_file ($"f") [sample_chunk] _ sample_chunk_wf _))).
  vm_compute. reflexivity.
Defined.

Lemma apply_replacements_correct_witness :
  ∃ f', source_apply_replacements [(1, 1, [ $"x"; $"y"])] (parse_source sample_file) = Done f' ∧
    line_texts f' = splice id 0 (line_texts (parse_source sample_file)) [(1, 1, [ $"x"; $"y"])].
Proof.
  destruct (apply_replacements_correct (parse_source sample_file) [(1, 1, [ $"x"; $"y"])]) as (f' & H & _ & Hs).
  - repeat constructor.
  - repeat constructor; vm_compute; lia.
  - exists f'. split; [exact H|exact Hs].
Defined.

Lemma normalize_single_chunk_witness :
  derive_new_contents (unlines [ $"a"; $"b"; $"c"]) ($"f") [mkChunk None [ $"b"] [ $"x"; $"y"] [] false] NormalizeToLf
  = Done (unlines [ $"a"; $"x"; $"y"; $"c"]).
Proof.
  refine (normalize_single_chunk [ $"a"] [ $"b"] [ $"x"; $"y"] [ $"c"] ($"f") [] _ _ _).
  - done.
  - repeat constructor; apply (bool_decide_unpack _); vm_compute; exact I.
  - intros j Hj. replace j with 0 by (cbn in Hj; lia). intros [_ Hocc].
    destruct (Hocc 0 _ eq_refl) as (l & [= <-] & Heq). vm_compute in Heq. discriminate.
Defined.
