(* ===== verification/ApplyPatch.v ===== *)
(** * Applying a patch to a file system: [apply-patch/src/lib.rs]

    The file system and the path arithmetic are interfaces of other crates
    ([ExecutorFileSystem], [PathUri]): type classes here, over which every
    operation is written and every theorem proved. The file-system state is
    passed explicitly, with the delta of committed changes that the code
    accumulates through a mutable reference. *)

From stdpp Require Import prelude list strings gmap.
From S2P Require Import Prelude PatchParser SeekSequence FileUpdate.

(** ** Interfaces *)

(** The error kinds that the code tells apart. *)
Inductive ErrorKind : Type := NotFound | InvalidInput | OtherKind.
Record io_error := mkIoError { kind : ErrorKind; message : str }.

#[global] Instance ErrorKind_eq_dec : EqDecision ErrorKind.
Proof. solve_decision. Defined.
#[global] Instance io_error_eq_dec : EqDecision io_error.
Proof. solve_decision. Defined.

Record FileMetadata := mkMetadata {
  is_directory : bool;
  is_file : bool;
  is_symlink : bool
}.

(** [PathUri] of [utils/path-uri]; a parse error is its message. *)
Class PathOps := {
  PathUri : Type;
  #[global] PathUri_eq_dec :: EqDecision PathUri;
  path_join : PathUri → str → result str PathUri;
  path_parent : PathUri → option PathUri;
  native_string : PathUri → str
}.

(** [ExecutorFileSystem] of [file-system], for a fixed sandbox context: what
    this crate calls of it. The boolean is [follow_symlinks]; text written is
    the UTF-8 of a string, so contents are strings. *)
Class ExecutorFileSystem {P : PathOps} := {
  fs_state : Type;
  read_file_text : fs_state → PathUri → bool → result io_error str;
  get_metadata : fs_state → PathUri → bool → result io_error FileMetadata;
  write_file : fs_state → PathUri → str → bool → fs_state * result io_error unit;
  create_directory : fs_state → PathUri → bool → fs_state * result io_error unit;
  remove : fs_state → PathUri → bool → fs_state * result io_error unit
}.

(** ** Errors *)
Inductive ApplyPatchError : Type :=
| ParseErrorE (e : ParseError)
| IoErrorE (context : str) (source : str)
| ComputeReplacements (msg : str)
| PathUriE (msg : str)
| ImplicitInvocation.

Definition parse_error_display (e : ParseError) : str :=
  match e with
  | InvalidPatchError m => $"invalid patch: " ++ m
  | InvalidHunkError m n => $"invalid hunk at line " ++ fmt_nat n ++ $", " ++ m
  end.

(** The [#[error(..)]] attributes. *)
Definition apply_patch_error_display (e : ApplyPatchError) : str :=
  match e with
  | ParseErrorE e => parse_error_display e
  | IoErrorE context source => context ++ $": " ++ source
  | ComputeReplacements msg => msg
  | PathUriE msg => msg
  | ImplicitInvocation =>
      $"patch detected without explicit call to apply_patch. Rerun as [" ++ [QUOTE]
      ++ $"apply_patch" ++ [QUOTE] ++ $", " ++ [QUOTE] ++ $"<patch>" ++ [QUOTE] ++ $"]"
  end.

(** [anyhow::Error] as this crate builds it: an I/O error, perhaps under a
    context message, or an error of another type. *)
Inductive AnyError : Type :=
| AnyIo (context : option str) (e : io_error)
| AnyApply (e : ApplyPatchError)
| AnyPath (msg : str)
| AnyMsg (msg : str).

Definition any_display (e : AnyError) : str :=
  match e with
  | AnyIo (Some context) _ => context
  | AnyIo None e => message e
  | AnyApply e => apply_patch_error_display e
  | AnyPath msg => msg
  | AnyMsg msg => msg
  end.

(** [impl From<&std::io::Error> for ApplyPatchError], and the other branch of
    the downcast in [apply_hunks_with_options]. *)
Definition any_to_apply_error (e : AnyError) : ApplyPatchError :=
  match e with
  | AnyIo _ io => IoErrorE ($"I/O error") (message io)
  | _ => IoErrorE (any_display e) (any_display e)
  end.

Record ApplyPatchOptions := mkOptions {
  update_file_mode : ApplyPatchFileUpdateMode;
  follow_symlinks : bool
}.
Definition default_options : ApplyPatchOptions := mkOptions NormalizeToLf true.

(** [apply_patch_file_update_mode_from_env], given the variable's value. *)
Definition update_mode_from_env (value : option str) : ApplyPatchFileUpdateMode :=
  if bool_decide (value = Some ($"1")) then PreserveLineEndings else NormalizeToLf.

Section apply.
Context `{FS : ExecutorFileSystem}.

(** ** The delta of committed changes *)
Inductive AppliedPatchFileChange : Type :=
| DeltaAdd (content : str) (overwritten_content : option str)
| DeltaDelete (content : str)
| DeltaUpdate (move_path : option PathUri) (old_content : str)
    (overwritten_move_content : option str) (new_content : str).

Record AppliedPatchChange := mkChangeAt { change_path : PathUri; change : AppliedPatchFileChange }.

Record AppliedPatchDelta := mkDelta { changes : list AppliedPatchChange; exact : bool }.

Definition empty_delta : AppliedPatchDelta := mkDelta [] true.
Definition and_exact (b : bool) (d : AppliedPatchDelta) : AppliedPatchDelta :=
  mkDelta (changes d) (exact d && b).
Definition push_change (c : AppliedPatchChange) (d : AppliedPatchDelta) : AppliedPatchDelta :=
  mkDelta (changes d ++ [c]) (exact d).
(** [delta.changes[i] = c] *)
Definition set_change (i : nat) (c : AppliedPatchChange) (d : AppliedPatchDelta) : AppliedPatchDelta :=
  mkDelta (<[i:=c]> (changes d)) (exact d).
(** [AppliedPatchDelta::append] *)
Definition delta_append (d other : AppliedPatchDelta) : AppliedPatchDelta :=
  mkDelta (changes d ++ changes other) (exact d && exact other).

(** ** Helpers on the file system *)
Definition ensure_not_directory (s : fs_state) (p : PathUri) (follow : bool) : result io_error unit :=
  match get_metadata s p follow with
  | Err e => Err e
  | Ok md => if is_directory md then Err (mkIoError InvalidInput ($"path is a directory"))
             else Ok tt
  end.

Definition remove_failure_was_side_effect_free (s : fs_state) (p : PathUri)
    (expected : option str) (follow : bool) : bool :=
  match expected with
  | Some expected =>
      match read_file_text s p follow with
      | Ok content => bool_decide (content = expected)
      | Err _ => false
      end
  | None => false
  end.

(** The new value of [exact] after [note_existing_path_delta_support]. *)
Definition note_existing_path (s : fs_state) (p : PathUri) (follow ex : bool) : bool :=
  match get_metadata s p follow with
  | Ok md => if is_file md && negb (is_symlink md) then ex else false
  | Err e => if decide (kind e = NotFound) then ex else false
  end.

Definition read_optional_file_text_for_delta (s : fs_state) (p : PathUri) (follow ex : bool) : option str * bool :=
  let ex := note_existing_path s p follow ex in
  match read_file_text s p follow with
  | Ok content => (Some content, ex)
  | Err e => if decide (kind e = NotFound) then (None, ex) else (None, false)
  end.

Definition context_err (m : string) (p : PathUri) (e : io_error) : AnyError :=
  AnyIo (Some (lit m ++ native_string p)) e.

Definition retry_write (s : fs_state) (p : PathUri) (contents : str) (follow : bool) : fs_state * result AnyError unit :=
  match write_file s p contents follow with
  | (s', Ok _) => (s', Ok tt)
  | (s', Err e) => (s', Err (context_err "Failed to write file " p e))
  end.

Definition write_file_with_missing_parent_retry (s : fs_state) (p : PathUri) (contents : str)
    (follow : bool) : fs_state * result AnyError unit :=
  match write_file s p contents follow with
  | (s1, Ok _) => (s1, Ok tt)
  | (s1, Err e) =>
      if decide (kind e = NotFound) then
        match path_parent p with
        | Some parent =>
            match create_directory s1 parent follow with
            | (s2, Err e') =>
                (s2, Err (context_err "Failed to create parent directories for " p e'))
            | (s2, Ok _) => retry_write s2 p contents follow
            end
        | None => retry_write s1 p contents follow
        end
      else (s1, Err (context_err "Failed to write file " p e))
  end.

(** [derive_new_contents_from_chunks]: the old and the new contents. *)
Definition derive_new_contents_from_chunks (s : fs_state) (p : PathUri)
    (chunks : list UpdateFileChunk) (m : ApplyPatchFileUpdateMode) (follow : bool) : outcome ApplyPatchError (str * str) :=
  match read_file_text s p follow with
  | Err e => Failed (IoErrorE ($"Failed to read file to update " ++ native_string p) (message e))
  | Ok original =>
      match derive_new_contents original (native_string p) chunks m with
      | Done new => Done (original, new)
      | Failed msg => Failed (ComputeReplacements msg)
      | Panicked => Panicked
      end
  end.

(** ** One hunk *)
Inductive Affected : Type := AAdded (path : str) | AModified (path : str) | ADeleted (path : str).

(** [Hunk::resolve_path] *)
Definition resolve_path (h : Hunk) (cwd : PathUri) : result str PathUri :=
  match h with
  | UpdateFile path _ _ => path_join cwd path
  | _ => path_join cwd (hunk_path h)
  end.

Definition apply_add (opts : ApplyPatchOptions) (s : fs_state) (delta : AppliedPatchDelta)
    (affected : str) (p : PathUri) (contents : str) : fs_state * AppliedPatchDelta * outcome AnyError Affected :=
  let follow := follow_symlinks opts in
  let '(overwritten, ex) := read_optional_file_text_for_delta s p follow (exact delta) in
  let delta := mkDelta (changes delta) ex in
  match write_file_with_missing_parent_retry s p contents follow with
  | (s', Err e) => (s', and_exact false delta, Failed e)
  | (s', Ok _) =>
      (s', push_change (mkChangeAt p (DeltaAdd contents overwritten)) delta, Done (AAdded affected))
  end.

Definition apply_delete (opts : ApplyPatchOptions) (s : fs_state) (delta : AppliedPatchDelta)
    (affected : str) (p : PathUri) : fs_state * AppliedPatchDelta * outcome AnyError Affected :=
  let follow := follow_symlinks opts in
  let delta := mkDelta (changes delta) (note_existing_path s p follow (exact delta)) in
  let deleted_content := match read_file_text s p follow with Ok c => Some c | Err _ => None end in
  let delta := match deleted_content with Some _ => delta | None => and_exact false delta end in
  match ensure_not_directory s p follow with
  | Err e => (s, delta, Failed (context_err "Failed to delete file " p e))
  | Ok _ =>
      match remove s p follow with
      | (s', Err e) =>
          (s', and_exact (remove_failure_was_side_effect_free s' p deleted_content follow) delta,
           Failed (context_err "Failed to delete file " p e))
      | (s', Ok _) =>
          let delta := match deleted_content with
                       | Some content => push_change (mkChangeAt p (DeltaDelete content)) delta
                       | None => delta
                       end in
          (s', delta, Done (ADeleted affected))
      end
  end.

(** The rename branch: write the destination, then remove the original. *)
Definition apply_move (opts : ApplyPatchOptions) (s : fs_state) (delta : AppliedPatchDelta)
    (affected : str) (p dest : PathUri) (original new : str) : fs_state * AppliedPatchDelta * outcome AnyError Affected :=
  let follow := follow_symlinks opts in
  let '(overwritten, ex) := read_optional_file_text_for_delta s dest follow (exact delta) in
  let delta := mkDelta (changes delta) ex in
  match write_file_with_missing_parent_retry s dest new follow with
  | (s1, Err e) => (s1, and_exact false delta, Failed e)
  | (s1, Ok _) =>
      let dest_write_change_index := length (changes delta) in
      let delta := push_change (mkChangeAt dest (DeltaAdd new overwritten)) delta in
      match ensure_not_directory s1 p follow with
      | Err e => (s1, delta, Failed (context_err "Failed to remove original " p e))
      | Ok _ =>
          match remove s1 p follow with
          | (s2, Err e) =>
              (s2, and_exact (remove_failure_was_side_effect_free s2 p (Some original) follow) delta,
               Failed (context_err "Failed to remove original " p e))
          | (s2, Ok _) =>
              (s2, set_change dest_write_change_index
                     (mkChangeAt p (DeltaUpdate (Some dest) original overwritten new)) delta,
               Done (AModified affected))
          end
      end
  end.

Definition apply_update (opts : ApplyPatchOptions) (cwd : PathUri) (s : fs_state)
    (delta : AppliedPatchDelta) (affected : str) (p : PathUri) (move_path : option str)
    (chunks : list UpdateFileChunk) : fs_state * AppliedPatchDelta * outcome AnyError Affected :=
  let follow := follow_symlinks opts in
  let delta := mkDelta (changes delta) (note_existing_path s p follow (exact delta)) in
  match derive_new_contents_from_chunks s p chunks (update_file_mode opts) follow with
  | Failed e => (s, delta, Failed (AnyApply e))
  | Panicked => (s, delta, Panicked)
  | Done (original, new) =>
      match move_path with
      | Some dest =>
          match path_join cwd dest with
          | Err e => (s, delta, Failed (AnyPath e))
          | Ok dest_uri => apply_move opts s delta affected p dest_uri original new
          end
      | None =>
          match write_file s p new follow with
          | (s', Err e) =>
              (s', and_exact false delta, Failed (context_err "Failed to write file " p e))
          | (s', Ok _) =>
              (s', push_change (mkChangeAt p (DeltaUpdate None original None new)) delta,
               Done (AModified affected))
          end
      end
  end.

Definition apply_hunk (opts : ApplyPatchOptions) (cwd : PathUri) (s : fs_state)
    (delta : AppliedPatchDelta) (h : Hunk) : fs_state * AppliedPatchDelta * outcome AnyError Affected :=
  match resolve_path h cwd with
  | Err e => (s, delta, Failed (AnyPath e))
  | Ok p =>
      match h with
      | AddFile _ contents => apply_add opts s delta (hunk_path h) p contents
      | DeleteFile _ => apply_delete opts s delta (hunk_path h) p
      | UpdateFile _ move_path chunks =>
          apply_update opts cwd s delta (hunk_path h) p move_path chunks
      end
  end.

(** ** All hunks *)
Record AffectedPaths := mkAffected { added : list str; modified : list str; deleted : list str }.

Definition note_affected (a : Affected) (ps : AffectedPaths) : AffectedPaths :=
  match a with
  | AAdded p => mkAffected (added ps ++ [p]) (modified ps) (deleted ps)
  | AModified p => mkAffected (added ps) (modified ps ++ [p]) (deleted ps)
  | ADeleted p => mkAffected (added ps) (modified ps) (deleted ps ++ [p])
  end.

Fixpoint apply_hunk_list (opts : ApplyPatchOptions) (cwd : PathUri) (s : fs_state)
    (delta : AppliedPatchDelta) (ps : AffectedPaths) (hs : list Hunk) : fs_state * AppliedPatchDelta * outcome AnyError AffectedPaths :=
  match hs with
  | [] => (s, delta, Done ps)
  | h :: hs' =>
      match apply_hunk opts cwd s delta h with
      | (s', delta', Done a) => apply_hunk_list opts cwd s' delta' (note_affected a ps) hs'
      | (s', delta', Failed e) => (s', delta', Failed e)
      | (s', delta', Panicked) => (s', delta', Panicked)
      end
  end.

Definition apply_hunks_to_files (hs : list Hunk) (opts : ApplyPatchOptions) (cwd : PathUri)
    (s : fs_state) (delta : AppliedPatchDelta) : fs_state * AppliedPatchDelta * outcome AnyError AffectedPaths :=
  if is_empty hs then (s, delta, Failed (AnyMsg ($"No files were modified.")))
  else apply_hunk_list opts cwd s delta (mkAffected [] [] []) hs.

(** The text of [print_summary]. *)
Definition summary_text (ps : AffectedPaths) : str :=
  unlines ($"Success. Updated the following files:"
    :: ((λ p, $"A " ++ p) <$> added ps) ++ ((λ p, $"M " ++ p) <$> modified ps)
    ++ ((λ p, $"D " ++ p) <$> deleted ps)).

(** ** Entry points. [stdout] and [stderr] answer whether a text can be written
    to them; the texts themselves are part of the result. *)
Record ApplyPatchFailure := mkFailure { failure_error : ApplyPatchError; failure_delta : AppliedPatchDelta }.

Record run := mkRun {
  run_state : fs_state;
  run_stdout : str;
  run_stderr : str;
  run_result : outcome ApplyPatchFailure AppliedPatchDelta
}.

Section entry.
Context (stdout stderr : str → result io_error unit).

Definition apply_hunks_with_options (hs : list Hunk) (opts : ApplyPatchOptions) (cwd : PathUri)
    (s : fs_state) : run :=
  match apply_hunks_to_files hs opts cwd s empty_delta with
  | (s', delta, Done ps) =>
      match stdout (summary_text ps) with
      | Ok _ => mkRun s' (summary_text ps) [] (Done delta)
      | Err e => mkRun s' [] [] (Failed (mkFailure (any_to_apply_error (AnyIo None e)) delta))
      end
  | (s', delta, Failed error) =>
      let msg := any_display error ++ [LF] in
      match stderr msg with
      | Ok _ => mkRun s' [] msg (Failed (mkFailure (any_to_apply_error error) delta))
      | Err e => mkRun s' [] [] (Failed (mkFailure (any_to_apply_error (AnyIo None e)) delta))
      end
  | (s', delta, Panicked) => mkRun s' [] [] Panicked
  end.

Definition parse_failure_text (e : ParseError) : str :=
  match e with
  | InvalidPatchError m => $"Invalid patch: " ++ m ++ [LF]
  | InvalidHunkError m n => $"Invalid patch hunk on line " ++ fmt_nat n ++ $": " ++ m ++ [LF]
  end.

Definition apply_patch_with_options (patch : str) (opts : ApplyPatchOptions) (cwd : PathUri)
    (s : fs_state) : run :=
  match parse_patch patch with
  | Ok args => apply_hunks_with_options (args_hunks args) opts cwd s
  | Err e =>
      match stderr (parse_failure_text e) with
      | Ok _ => mkRun s [] (parse_failure_text e)
                  (Failed (mkFailure (ParseErrorE e) empty_delta))
      | Err io => mkRun s [] [] (Failed (mkFailure (any_to_apply_error (AnyIo None io)) empty_delta))
      end
  end.

Definition apply_patch (patch : str) (cwd : PathUri) (s : fs_state) : run :=
  apply_patch_with_options patch default_options cwd s.
End entry.
End apply.
