(* ===== verification/ApplyPatchSpec.v ===== *)
(** * What applying a patch promises

    Laws of the file system that the delta bookkeeping of
    [apply-patch/src/lib.rs] relies on, the meaning of a delta as a change of
    the file contents, and the theorems: an exact delta is replayable and
    revertible whether the application succeeded or failed; the summary names
    every hunk; nothing is touched when the text does not parse. A small
    in-memory file system satisfies the laws and runs the witnesses. *)

From stdpp Require Import prelude list strings gmap.
From S2P Require Import Prelude PatchParser SeekSequence FileUpdate ApplyPatch.

(** ** Views of the file system *)
Section views.
Context `{FS : ExecutorFileSystem} (follow : bool).

(** What reading each path returns. *)
Definition view : Type := PathUri → option str.
Definition content (s : fs_state) : view :=
  λ p, match read_file_text s p follow with Ok c => Some c | Err _ => None end.

Definition view_eq (v w : view) : Prop := ∀ q, v q = w q.
#[export] Instance view_eq_equivalence : Equivalence view_eq.
Proof. split; [by intros ? ?|by intros ?? H ?|intros ??? H1 H2 q; by rewrite H1]. Qed.

Definition upd (p : PathUri) (x : option str) (v : view) : view :=
  λ q, if decide (q = p) then x else v q.
#[export] Instance upd_proper p x : Proper (view_eq ==> view_eq) (upd p x).
Proof. intros v w H q. unfold upd. by case_decide. Qed.

Lemma upd_upd p x y v : view_eq (upd p x (upd p y v)) (upd p x v).
Proof. intros q. unfold upd. by case_decide. Qed.
Lemma upd_id p v : view_eq (upd p (v p) v) v.
Proof. intros q. unfold upd. case_decide; by subst. Qed.

(** ** Meaning of a delta *)
Definition replay_change (c : AppliedPatchChange) (v : view) : view :=
  let p := change_path c in
  match change c with
  | DeltaAdd new _ => upd p (Some new) v
  | DeltaDelete _ => upd p None v
  | DeltaUpdate None _ _ new => upd p (Some new) v
  | DeltaUpdate (Some dest) _ _ new => upd p None (upd dest (Some new) v)
  end.

Definition revert_change (c : AppliedPatchChange) (v : view) : view :=
  let p := change_path c in
  match change c with
  | DeltaAdd _ overwritten => upd p overwritten v
  | DeltaDelete old => upd p (Some old) v
  | DeltaUpdate None old _ _ => upd p (Some old) v
  | DeltaUpdate (Some dest) old overwritten _ => upd p (Some old) (upd dest overwritten v)
  end.

(** First change first; the last change is undone first. *)
Definition replay (cs : list AppliedPatchChange) (v : view) : view :=
  foldl (λ v c, replay_change c v) v cs.
Definition revert (cs : list AppliedPatchChange) (v : view) : view :=
  foldr revert_change v cs.

#[export] Instance replay_change_proper c : Proper (view_eq ==> view_eq) (replay_change c).
Proof. intros v w H. unfold replay_change. repeat case_match; by rewrite H. Qed.
#[export] Instance revert_change_proper c : Proper (view_eq ==> view_eq) (revert_change c).
Proof. intros v w H. unfold revert_change. repeat case_match; by rewrite H. Qed.
#[export] Instance replay_proper cs : Proper (view_eq ==> view_eq) (replay cs).
Proof.
  induction cs as [|c cs IH]; intros v w H; simpl; [done|]. apply IH. by rewrite H.
Qed.
#[export] Instance revert_proper cs : Proper (view_eq ==> view_eq) (revert cs).
Proof. induction cs as [|c cs IH]; intros v w H; simpl; [done|]. by rewrite (IH v w H). Qed.

(** The changes [cs] account exactly for the difference between two states. *)
Definition tracks (s : fs_state) (cs : list AppliedPatchChange) (s' : fs_state) : Prop :=
  view_eq (replay cs (content s)) (content s') ∧ view_eq (revert cs (content s')) (content s).

Lemma tracks_same s s' : view_eq (content s') (content s) → tracks s [] s'.
Proof. by split. Qed.

Lemma tracks_app s c1 s1 c2 s2 : tracks s c1 s1 → tracks s1 c2 s2 → tracks s (c1 ++ c2) s2.
Proof.
  intros [H1 H2] [H3 H4]. unfold tracks, replay, revert. rewrite foldl_app, foldr_app. split.
  - change (view_eq (replay c2 (replay c1 (content s))) (content s2)). by rewrite H1.
  - change (view_eq (revert c1 (revert c2 (content s2))) (content s)). by rewrite H4.
Qed.

(** One write, with the overwritten contents on record. *)
Lemma tracks_write s s' p new :
  view_eq (content s') (upd p (Some new) (content s)) →
  tracks s [mkChangeAt p (DeltaAdd new (content s p))] s'.
Proof.
  intros H. split; simpl; unfold replay_change, revert_change; simpl; [by symmetry|].
  by rewrite H, upd_upd, upd_id.
Qed.

(** ** Laws of the file system *)

(** What [note_existing_path_delta_support] looks for: a regular file that is
    no symlink, or nothing at all. *)
Definition plain (s : fs_state) (p : PathUri) : Prop := note_existing_path s p follow true = true.

(** Operations on plain paths act on that path alone; a write refused because
    its directory is missing, and the creation of the directory, leave the
    files as they are. A failed removal promises nothing about its own path, and
    any other failed write nothing at all. *)
Class LawfulFS : Prop := {
  law_write_ok s p c s' : plain s p → write_file s p c follow = (s', Ok tt) →
    view_eq (content s') (upd p (Some c) (content s));
  law_write_plain s p c s' q : write_file s p c follow = (s', Ok tt) → plain s q → plain s' q;
  law_write_missing s p c s' e : write_file s p c follow = (s', Err e) → kind e = NotFound →
    view_eq (content s') (content s) ∧ ∀ q, plain s q → plain s' q;
  law_create s d s' : create_directory s d follow = (s', Ok tt) →
    view_eq (content s') (content s) ∧
    ∀ q, plain s q → is_Some (content s q) ∨ path_parent q = Some d → plain s' q;
  law_remove_ok s p s' : plain s p → remove s p follow = (s', Ok tt) →
    view_eq (content s') (upd p None (content s));
  law_remove_err s p s' e : remove s p follow = (s', Err e) →
    ∀ q, q ≠ p → content s' q = content s q
}.
End views.

Section tracking.
Context `{FS : ExecutorFileSystem} (opts : ApplyPatchOptions).
Let follow := follow_symlinks opts.
Context {Laws : LawfulFS follow}.

Lemma note_existing_exact s p ex :
  note_existing_path s p follow ex = true → ex = true ∧ plain follow s p.
Proof. unfold plain, note_existing_path. intros H. repeat case_match; simplify_eq; done. Qed.

Lemma retry_write_spec s p c s' :
  plain follow s p → retry_write s p c follow = (s', Ok tt) →
  view_eq (content follow s') (upd p (Some c) (content follow s)) ∧
  ∀ q, plain follow s q → plain follow s' q.
Proof.
  intros Hp. unfold retry_write.
  destruct (write_file s p c follow) as [s1 [[]|e]] eqn:Hw; intros; simplify_eq.
  split; [by eapply law_write_ok|]. intros. by eapply law_write_plain.
Qed.

(** The write with its retry acts like a plain write. *)
Lemma write_with_retry_spec s p c s' :
  plain follow s p → write_file_with_missing_parent_retry s p c follow = (s', Ok tt) →
  view_eq (content follow s') (upd p (Some c) (content follow s)) ∧
  ∀ q, plain follow s q → is_Some (content follow s q) ∨ q = p → plain follow s' q.
Proof.
  intros Hp. unfold write_file_with_missing_parent_retry.
  destruct (write_file s p c follow) as [s1 [[]|e]] eqn:Hw.
  { intros. simplify_eq. split; [by eapply law_write_ok|]. intros. by eapply law_write_plain. }
  case_decide as Hk; [|done].
  destruct (law_write_missing _ _ _ _ _ _ Hw Hk) as [Hv1 Hpl1].
  destruct (path_parent p) as [d|] eqn:Hd.
  - destruct (create_directory s1 d follow) as [s2 [[]|e']] eqn:Hc; [|done].
    destruct (law_create _ _ _ _ Hc) as [Hv2 Hpl2]. intros Hr.
    destruct (retry_write_spec _ _ _ _ (Hpl2 p (Hpl1 p Hp) (or_intror Hd)) Hr) as [Hv3 Hpl3].
    split; [by rewrite Hv3, Hv2, Hv1|]. intros q Hpq Hq. apply Hpl3.
    apply Hpl2; [by apply Hpl1|]. rewrite (Hv1 q). destruct Hq as [?| ->]; auto.
  - intros Hr. destruct (retry_write_spec _ _ _ _ (Hpl1 p Hp) Hr) as [Hv3 Hpl3].
    split; [by rewrite Hv3, Hv1|]. intros q Hpq _. apply Hpl3; auto.
Qed.

Lemma read_optional_spec s p ex o :
  read_optional_file_text_for_delta s p follow ex = (o, true) →
  ex = true ∧ plain follow s p ∧ o = content follow s p.
Proof.
  unfold read_optional_file_text_for_delta, content. intros H.
  destruct (read_file_text s p follow) as [c|e].
  - injection H as <- Hn. destruct (note_existing_exact _ _ _ Hn). auto.
  - case_decide; [|done]. injection H as <- Hn. destruct (note_existing_exact _ _ _ Hn). auto.
Qed.

(** A removal that failed, with the contents read back unchanged. *)
Lemma remove_failed_spec s p s' e old :
  remove s p follow = (s', Err e) →
  remove_failure_was_side_effect_free s' p (Some old) follow = true →
  content follow s p = Some old → view_eq (content follow s') (content follow s).
Proof.
  intros Hr Hf Hold q. destruct (decide (q = p)) as [->|Hq]; [|by eapply law_remove_err].
  rewrite Hold. unfold remove_failure_was_side_effect_free in Hf. unfold content.
  destruct (read_file_text s' p follow); [|done]. apply bool_decide_eq_true in Hf. by subst.
Qed.

(** What one hunk contributes to the delta. *)
Definition step_tracked (s : fs_state) (d : AppliedPatchDelta) (s' : fs_state) (d' : AppliedPatchDelta) : Prop :=
  exact d' = true → exact d = true ∧
  ∃ cs, changes d' = changes d ++ cs ∧ tracks follow s cs s'.

Lemma step_tracked_none s d d' :
  changes d' = changes d → (exact d' = true → exact d = true) → step_tracked s d s d'.
Proof.
  intros Hc He H. split; [auto|]. exists []. rewrite app_nil_r. split; [done|].
  by apply tracks_same.
Qed.

Lemma step_tracked_inexact s d s' d' : exact d' = false → step_tracked s d s' d'.
Proof. intros H H'. congruence. Qed.

Lemma and_exact_false d : exact (and_exact false d) = false.
Proof. simpl. apply andb_false_r. Qed.

Lemma apply_add_tracked s d a p c s' d' r :
  apply_add opts s d a p c = (s', d', r) → step_tracked s d s' d'.
Proof.
  unfold apply_add. fold follow.
  destruct (read_optional_file_text_for_delta s p follow (exact d)) as [o ex] eqn:Hro.
  destruct (write_file_with_missing_parent_retry s p c follow) as [s1 [[]|e]] eqn:Hw;
    intros; simplify_eq; [|by apply step_tracked_inexact, and_exact_false].
  intros He. simpl in He. subst ex. apply read_optional_spec in Hro as (Hex & Hp & ->).
  split; [done|]. eexists. split; [done|].
  apply tracks_write. by eapply write_with_retry_spec.
Qed.

Lemma apply_delete_tracked s d a p s' d' r :
  apply_delete opts s d a p = (s', d', r) → step_tracked s d s' d'.
Proof.
  unfold apply_delete. fold follow.
  set (n := note_existing_path s p follow (exact d)).
  set (dc := match read_file_text s p follow with Ok c => Some c | Err _ => None end).
  assert (dc = content follow s p) as Hdc by done. clearbody dc.
  destruct (ensure_not_directory s p follow) as [[]|e].
  2: { intros [= <- <- <-]. apply step_tracked_none; [by destruct dc|].
       intros He. assert (n = true) as Hn.
       { destruct dc; simpl in He; [done|]. by rewrite andb_false_r in He. }
       by apply note_existing_exact in Hn as []. }
  destruct (remove s p follow) as [s1 [[]|e]] eqn:Hr; intros [= <- <- <-].
  - destruct dc as [c|]; [|by apply step_tracked_inexact; simpl; rewrite andb_false_r].
    intros He. simpl in He. subst n. apply note_existing_exact in He as [Hex Hp].
    split; [done|]. eexists. split; [done|]. pose proof (law_remove_ok _ _ _ _ Hp Hr) as Hv.
    split; simpl; unfold replay_change, revert_change; simpl; [by symmetry|].
    rewrite Hv, upd_upd, Hdc. apply upd_id.
  - destruct dc as [c|]; [|by apply step_tracked_inexact; simpl; rewrite !andb_false_r].
    intros He. cbn [exact and_exact changes] in He. apply andb_true_iff in He as [He Hf].
    subst n. apply note_existing_exact in He as [Hex Hp].
    split; [done|]. exists []. rewrite app_nil_r. split; [done|]. apply tracks_same.
    by eapply remove_failed_spec.
Qed.

Lemma content_read s p c : read_file_text s p follow = Ok c → content follow s p = Some c.
Proof. unfold content. by intros ->. Qed.

Lemma derive_reads s p chunks m original new :
  derive_new_contents_from_chunks s p chunks m follow = Done (original, new) →
  content follow s p = Some original ∧
  derive_new_contents original (native_string p) chunks m = Done new.
Proof.
  unfold derive_new_contents_from_chunks. destruct (read_file_text s p follow) as [c|] eqn:Hr; [|done].
  destruct (derive_new_contents c _ _ _) eqn:Hd; intros; simplify_eq.
  split; [by apply content_read|done].
Qed.

Lemma apply_move_tracked s d a p dest original new s' d' r :
  p ≠ dest → plain follow s p → content follow s p = Some original →
  apply_move opts s d a p dest original new = (s', d', r) → step_tracked s d s' d'.
Proof.
  intros Hne Hp Horig. unfold apply_move. fold follow.
  destruct (read_optional_file_text_for_delta s dest follow (exact d)) as [o ex] eqn:Hro.
  destruct (write_file_with_missing_parent_retry s dest new follow) as [s1 [[]|e]] eqn:Hw;
    [|intros [= <- <- <-]; by apply step_tracked_inexact, and_exact_false].
  cbn [changes exact push_change].
  destruct (ensure_not_directory s1 p follow) as [[]|e].
  2: { intros [= <- <- <-] He. simpl in He. subst ex.
       apply read_optional_spec in Hro as (Hex & Hd & ->).
       destruct (write_with_retry_spec _ _ _ _ Hd Hw) as [Hv1 Hpl1]. split; [done|].
       eexists. split; [done|]. by apply tracks_write. }
  destruct (remove s1 p follow) as [s2 [[]|e]] eqn:Hr; intros [= <- <- <-] He;
    cbn [exact and_exact set_change push_change changes] in He.
  - subst ex. apply read_optional_spec in Hro as (Hex & Hd & ->).
    destruct (write_with_retry_spec _ _ _ _ Hd Hw) as [Hv1 Hpl1]. split; [done|].
    eexists. split; [simpl; by rewrite insert_snoc|].
    pose proof (law_remove_ok _ _ _ _ (Hpl1 p Hp (or_introl (mk_is_Some _ _ Horig))) Hr) as Hv2.
    split; simpl; unfold replay_change, revert_change; simpl.
    + by rewrite Hv2, Hv1.
    + rewrite Hv2, Hv1. intros q. unfold upd.
      repeat case_decide; subst; congruence.
  - apply andb_true_iff in He as [-> Hf].
    apply read_optional_spec in Hro as (Hex & Hd & ->).
    destruct (write_with_retry_spec _ _ _ _ Hd Hw) as [Hv1 Hpl1]. split; [done|].
    eexists. split; [done|]. apply tracks_write. rewrite <- Hv1.
    eapply remove_failed_spec; [exact Hr|exact Hf|].
    rewrite (Hv1 p). unfold upd. by rewrite decide_False.
Qed.

(** The hunk does not rename a file to itself. *)
Definition no_self_move (cwd : PathUri) (h : Hunk) : Prop :=
  match h with
  | UpdateFile path (Some dest) _ => path_join cwd path ≠ path_join cwd dest
  | _ => True
  end.

Lemma apply_update_tracked s d cwd a path p mv chunks s' d' r :
  no_self_move cwd (UpdateFile path mv chunks) → path_join cwd path = Ok p →
  apply_update opts cwd s d a p mv chunks = (s', d', r) → step_tracked s d s' d'.
Proof.
  intros Hns Hpath. unfold apply_update. fold follow.
  set (d1 := mkDelta (changes d) (note_existing_path s p follow (exact d))).
  assert (exact d1 = true → exact d = true ∧ plain follow s p) as Hd1
    by apply note_existing_exact.
  assert (∀ s' d', step_tracked s d1 s' d' → step_tracked s d s' d') as Hlift.
  { intros s2 d2 H He. destruct (H He) as [H1 H2]. split; [by apply Hd1|exact H2]. }
  destruct (derive_new_contents_from_chunks s p chunks _ follow) as [[original new]| |] eqn:Hder.
  2,3: intros [= <- <- <-]; apply step_tracked_none; [done|]; intros; by apply Hd1.
  apply derive_reads in Hder as [Horig _].
  destruct mv as [dest|].
  - destruct (path_join cwd dest) as [dest_uri|] eqn:Hj.
    2: { intros [= <- <- <-]. apply step_tracked_none; [done|]. intros. by apply Hd1. }
    intros Hm. simpl in Hns.
    destruct (exact d1) eqn:Hex1.
    + destruct (Hd1 eq_refl) as [_ Hp]. apply Hlift. eapply apply_move_tracked; [|done..|exact Hm].
      rewrite Hpath, Hj in Hns. congruence.
    + apply Hlift. intros He. exfalso. revert Hm He. unfold apply_move.
      clearbody d1. fold follow. destruct (read_optional_file_text_for_delta s dest_uri follow (exact d1)) as [o ex] eqn:Hro.
      intros Hm He. assert (ex = true) as ->.
      { repeat case_match; simplify_eq/=; try done; try by rewrite andb_false_r in He.
        by apply andb_true_iff in He as [??]. }
      apply read_optional_spec in Hro as (? & _). congruence.
  - destruct (write_file s p new follow) as [s1 [[]|e]] eqn:Hw; intros [= <- <- <-].
    2: by apply step_tracked_inexact, and_exact_false.
    intros He. destruct (Hd1 He) as [Hex Hp]. split; [done|]. eexists. split; [done|].
    pose proof (law_write_ok _ _ _ _ _ Hp Hw) as Hv.
    split; simpl; unfold replay_change, revert_change; simpl; [by symmetry|].
    rewrite Hv, upd_upd, <- Horig. apply upd_id.
Qed.

Lemma apply_hunk_tracked s d cwd h s' d' r :
  no_self_move cwd h → apply_hunk opts cwd s d h = (s', d', r) → step_tracked s d s' d'.
Proof.
  intros Hns. unfold apply_hunk. destruct (resolve_path h cwd) as [p|e] eqn:Hp.
  2: { intros [= <- <- <-]. by apply step_tracked_none. }
  destruct h as [path contents|path|path mv chunks].
  - apply apply_add_tracked.
  - apply apply_delete_tracked.
  - by eapply apply_update_tracked.
Qed.

Lemma apply_hunk_list_tracked hs s d cwd ps s' d' r :
  Forall (no_self_move cwd) hs →
  apply_hunk_list opts cwd s d ps hs = (s', d', r) → step_tracked s d s' d'.
Proof.
  intros Hns. revert s d ps. induction Hns as [|h hs Hh _ IH]; intros s d ps; simpl.
  { intros [= <- <- <-]. by apply step_tracked_none. }
  destruct (apply_hunk opts cwd s d h) as [[s1 d1] [a|e|]] eqn:Hap;
    apply apply_hunk_tracked in Hap; try done; [|by intros [= <- <- <-]..].
  intros Hrest He. destruct (IH _ _ _ Hrest He) as (He1 & cs2 & Hc2 & Ht2).
  destruct (Hap He1) as (He0 & cs1 & Hc1 & Ht1). split; [done|]. exists (cs1 ++ cs2).
  split; [by rewrite Hc2, Hc1, app_assoc|]. by eapply tracks_app.
Qed.

(** Renaming a file to itself: the removal takes away what was just written. *)
Lemma apply_move_self s d a p original new s' d' aff :
  plain follow s p → apply_move opts s d a p p original new = (s', d', Done aff) →
  content follow s' p = None.
Proof.
  intros Hp. unfold apply_move. fold follow.
  destruct (read_optional_file_text_for_delta s p follow (exact d)) as [o ex].
  destruct (write_file_with_missing_parent_retry s p new follow) as [s1 [[]|e]] eqn:Hw; [|done].
  destruct (write_with_retry_spec _ _ _ _ Hp Hw) as [_ Hpl1].
  destruct (ensure_not_directory s1 p follow) as [[]|e]; [|done].
  destruct (remove s1 p follow) as [s2 [[]|e]] eqn:Hr; [|done]. intros [= <- <- <-].
  rewrite (law_remove_ok _ _ _ _ (Hpl1 p Hp (or_intror eq_refl)) Hr p).
  unfold upd. by rewrite decide_True.
Qed.
End tracking.

(** ** No panic *)
Section safety.
Context `{FS : ExecutorFileSystem}.

Lemma apply_hunk_no_panic opts cwd s d h :
  hunk_wf h → (apply_hunk opts cwd s d h).2 ≠ Panicked.
Proof.
  intros Hwf. unfold apply_hunk. destruct (resolve_path h cwd) as [p|]; [|done].
  destruct h as [path contents|path|path mv chunks].
  - unfold apply_add. repeat case_match; done.
  - unfold apply_delete. repeat case_match; done.
  - unfold apply_update, derive_new_contents_from_chunks.
    destruct (read_file_text s p _) as [original|]; [|done].
    destruct Hwf as [_ Hc].
    pose proof (derive_no_panic original (native_string p) chunks (update_file_mode opts)) as Hn.
    destruct (derive_new_contents _ _ _ _); [|done|].
    + destruct mv; [|by repeat case_match]. unfold apply_move. repeat case_match; done.
    + destruct Hn; [|done]. eapply Forall_impl; [exact Hc|]. by intros c [? _].
Qed.

Lemma apply_hunk_list_no_panic opts cwd hs s d ps :
  Forall hunk_wf hs → (apply_hunk_list opts cwd s d ps hs).2 ≠ Panicked.
Proof.
  intros Hwf. revert s d ps. induction Hwf as [|h hs Hh _ IH]; intros s d ps; simpl; [done|].
  pose proof (apply_hunk_no_panic opts cwd s d h Hh) as Hn.
  destruct (apply_hunk opts cwd s d h) as [[s1 d1] [a|e|]]; simpl in *; [apply IH|done|done].
Qed.

(** ** The summary *)
Definition affected_of (h : Hunk) : Affected :=
  match h with
  | AddFile _ _ => AAdded (hunk_path h)
  | DeleteFile _ => ADeleted (hunk_path h)
  | UpdateFile _ _ _ => AModified (hunk_path h)
  end.

Lemma apply_hunk_affected opts cwd s d h s' d' a :
  apply_hunk opts cwd s d h = (s', d', Done a) → a = affected_of h.
Proof.
  unfold apply_hunk. destruct (resolve_path h cwd) as [p|]; [|done].
  destruct h as [path contents|path|path mv chunks]; unfold affected_of.
  - unfold apply_add. intros H. repeat case_match; by simplify_eq.
  - unfold apply_delete. intros H. repeat case_match; by simplify_eq.
  - unfold apply_update, apply_move. intros H. repeat case_match; by simplify_eq.
Qed.

Lemma apply_hunk_list_affected opts cwd hs s d ps s' d' ps' :
  apply_hunk_list opts cwd s d ps hs = (s', d', Done ps') →
  ps' = foldl (λ ps h, note_affected (affected_of h) ps) ps hs.
Proof.
  revert s d ps. induction hs as [|h hs IH]; intros s d ps; simpl; [by intros [= _ _ ->]|].
  destruct (apply_hunk opts cwd s d h) as [[s1 d1] [a|e|]] eqn:Ha; [|done|done].
  apply apply_hunk_affected in Ha as ->. apply IH.
Qed.

Definition is_add (h : Hunk) : bool := match h with AddFile _ _ => true | _ => false end.
Definition is_delete (h : Hunk) : bool := match h with DeleteFile _ => true | _ => false end.
Definition is_update (h : Hunk) : bool := match h with UpdateFile _ _ _ => true | _ => false end.

Lemma foldl_affected ps hs :
  foldl (λ ps h, note_affected (affected_of h) ps) ps hs =
  mkAffected (added ps ++ (hunk_path <$> List.filter is_add hs))
    (modified ps ++ (hunk_path <$> List.filter is_update hs))
    (deleted ps ++ (hunk_path <$> List.filter is_delete hs)).
Proof.
  revert ps. induction hs as [|h hs IH]; intros ps; simpl.
  { rewrite !app_nil_r. by destruct ps. }
  rewrite IH. destruct h; simpl; by rewrite <- !app_assoc.
Qed.
End safety.

(** ** An in-memory file system

    Files and directories by absolute path; writing needs the parent directory
    to exist. It satisfies the laws, so they are consistent. *)
Definition SLASH : char := 47%N.

Definition mem_parent (p : str) : option str := fst <$> rsplit_once SLASH p.

#[export] Instance mem_paths : PathOps := {|
  PathUri := str;
  path_join cwd p := Ok (if starts_with [SLASH] p then p else cwd ++ [SLASH] ++ p);
  path_parent := mem_parent;
  native_string p := p
|}.

Record mem_state := mkMem { files : gmap str str; dirs : gset str }.

Definition not_found : io_error := mkIoError NotFound ($"No such file or directory").
Definition other_error : io_error := mkIoError OtherKind ($"Is a directory").

Definition parent_exists (s : mem_state) (p : str) : bool :=
  match mem_parent p with Some d => bool_decide (d ∈ dirs s) | None => true end.

Definition mem_read (s : mem_state) (p : str) (_ : bool) : result io_error str :=
  match files s !! p with
  | Some c => Ok c
  | None => if decide (p ∈ dirs s) then Err other_error else Err not_found
  end.
Definition mem_metadata (s : mem_state) (p : str) (_ : bool) : result io_error FileMetadata :=
  match files s !! p with
  | Some _ => Ok (mkMetadata false true false)
  | None => if decide (p ∈ dirs s) then Ok (mkMetadata true false false) else Err not_found
  end.
Definition mem_write (s : mem_state) (p : str) (c : str) (_ : bool) : mem_state * result io_error unit :=
  if decide (p ∈ dirs s) then (s, Err other_error)
  else if parent_exists s p then (mkMem (<[p:=c]> (files s)) (dirs s), Ok tt)
  else (s, Err not_found).
Definition mem_mkdir (s : mem_state) (p : str) (_ : bool) : mem_state * result io_error unit :=
  match files s !! p with
  | Some _ => (s, Err other_error)
  | None => (mkMem (files s) ({[p]} ∪ dirs s), Ok tt)
  end.
Definition mem_remove (s : mem_state) (p : str) (_ : bool) : mem_state * result io_error unit :=
  match files s !! p with
  | Some _ => (mkMem (delete p (files s)) (dirs s), Ok tt)
  | None => (s, Err (if decide (p ∈ dirs s) then other_error else not_found))
  end.

#[export] Instance mem_fs : @ExecutorFileSystem mem_paths := {|
  fs_state := mem_state;
  read_file_text := mem_read : mem_state → @PathUri mem_paths → bool → _;
  get_metadata := mem_metadata : mem_state → @PathUri mem_paths → bool → _;
  write_file := mem_write : mem_state → @PathUri mem_paths → str → bool → _;
  create_directory := mem_mkdir : mem_state → @PathUri mem_paths → bool → _;
  remove := mem_remove : mem_state → @PathUri mem_paths → bool → _
|}.

Lemma mem_content f s (p : str) : content f s p = files s !! p.
Proof. unfold content. simpl. unfold mem_read. destruct (files s !! p); [done|]. by case_decide. Qed.

Lemma mem_plain f s (p : str) : plain f s p ↔ is_Some (files s !! p) ∨ p ∉ dirs s.
Proof.
  unfold plain, note_existing_path. simpl. unfold mem_metadata. destruct (files s !! p) as [c|]; simpl.
  - split; [eauto|done].
  - case_decide; simpl; split; [done| |eauto|done]. intros [[? ?]|?]; done.
Qed.

Lemma mem_parent_ne p d : mem_parent p = Some d → d ≠ p.
Proof.
  unfold mem_parent. destruct (rsplit_once SLASH p) as [[a b]|] eqn:E; [|done].
  apply rsplit_once_Some in E as [E _]. intros [= <-] ->.
  apply (f_equal length) in E. rewrite length_app in E. simpl in E. lia.
Qed.

Lemma mem_write_ok s p c f s' :
  mem_write s p c f = (s', Ok tt) → s' = mkMem (<[p:=c]> (files s)) (dirs s).
Proof. unfold mem_write. case_decide; [done|]. case_match; [|done]. by intros [= <-]. Qed.
Lemma mem_write_err s p c f s' e : mem_write s p c f = (s', Err e) → s' = s.
Proof. unfold mem_write. case_decide; [by intros [= <- _]|]. case_match; [done|]. by intros [= <- _]. Qed.
Lemma mem_mkdir_ok s p f s' :
  mem_mkdir s p f = (s', Ok tt) → s' = mkMem (files s) ({[p]} ∪ dirs s).
Proof. unfold mem_mkdir. case_match; [done|]. by intros [= <-]. Qed.
Lemma mem_remove_ok s p f s' :
  mem_remove s p f = (s', Ok tt) → s' = mkMem (delete p (files s)) (dirs s).
Proof. unfold mem_remove. case_match; [|done]. by intros [= <-]. Qed.
Lemma mem_remove_err s p f s' e : mem_remove s p f = (s', Err e) → s' = s.
Proof. unfold mem_remove. case_match; [done|]. by intros [= <- _]. Qed.

#[export] Instance mem_lawful f : LawfulFS (FS := mem_fs) f.
Proof.
  split.
  - intros s p c s' _ ->%mem_write_ok q. unfold upd. rewrite !mem_content. simpl.
    case_decide; [subst; apply lookup_insert_eq|by apply lookup_insert_ne].
  - intros s p c s' q ->%mem_write_ok. rewrite !mem_plain. simpl.
    destruct (decide (p = q)) as [->|?]; [rewrite lookup_insert_eq; eauto|].
    by rewrite lookup_insert_ne.
  - intros s p c s' e ->%mem_write_err _. done.
  - intros s d s' ->%mem_mkdir_ok. split; [intros q; by rewrite !mem_content|].
    intros q. rewrite !mem_plain, mem_content. simpl. intros Hq [?|Hpar]; [by left|].
    apply mem_parent_ne in Hpar. destruct Hq as [?|?]; [by left|right]. set_solver.
  - intros s p s' _ ->%mem_remove_ok q. unfold upd. rewrite !mem_content. simpl.
    case_decide; [subst; apply lookup_delete_eq|by apply lookup_delete_ne].
  - intros s p s' e ->%mem_remove_err q _. done.
Qed.

(** ** Properties *)

(** C1: on a file system that keeps the laws of [LawfulFS], and for hunks none of
    which renames a file onto itself ([self_move_deletes_file] shows what such a
    hunk does): whenever the delta says it is exact, the recorded changes account
    for the whole effect on the file system, whether the hunks were applied or an
    error stopped them half way: replaying them on the old contents gives the
    new ones, and reverting them gives the old ones back. *)
Theorem exact_delta_is_faithful `{FS : ExecutorFileSystem} opts (Laws : LawfulFS (follow_symlinks opts))
    hs cwd s s' d r :
  Forall (no_self_move cwd) hs →
  apply_hunks_to_files hs opts cwd s empty_delta = (s', d, r) → exact d = true →
  let v := content (follow_symlinks opts) in
  view_eq (replay (changes d) (v s)) (v s') ∧ view_eq (revert (changes d) (v s')) (v s).
Proof.
  intros Hns Hap He v. unfold apply_hunks_to_files in Hap.
  assert (step_tracked opts s empty_delta s' d) as Hst.
  { destruct (is_empty hs); [|by eapply apply_hunk_list_tracked].
    injection Hap as <- <- <-. by apply step_tracked_none. }
  destruct (Hst He) as (_ & cs & Hcs & Ht). simpl in Hcs. rewrite Hcs. exact Ht.
Qed.

(** An update hunk whose rename resolves to the path it updates deletes the
    file: the new contents are written and then removed as the original. *)
Theorem self_move_deletes_file `{FS : ExecutorFileSystem} opts (Laws : LawfulFS (follow_symlinks opts))
    cwd s d path dest chunks p s' d' a :
  path_join cwd path = Ok p → path_join cwd dest = Ok p → plain (follow_symlinks opts) s p →
  apply_hunk opts cwd s d (UpdateFile path (Some dest) chunks) = (s', d', Done a) →
  content (follow_symlinks opts) s' p = None.
Proof.
  intros Hp Hd Hpl. unfold apply_hunk, resolve_path. rewrite Hp. unfold apply_update.
  destruct (derive_new_contents_from_chunks _ _ _ _ _) as [[original new]| |]; [|done|done].
  rewrite Hd. by apply apply_move_self.
Qed.

(** C39: no patch text makes the application panic, on any file system, in
    either mode: what the parser accepts is within the assumptions of the
    update. *)
Theorem apply_patch_no_panic `{FS : ExecutorFileSystem} stdout stderr patch opts cwd s :
  run_result (apply_patch_with_options stdout stderr patch opts cwd s) ≠ Panicked.
Proof.
  unfold apply_patch_with_options. destruct (parse_patch patch) as [args|e] eqn:Hp; [|by case_match].
  apply parse_patch_hunks_wf in Hp. unfold apply_hunks_with_options, apply_hunks_to_files.
  destruct (is_empty (args_hunks args)); [by repeat case_match|].
  pose proof (apply_hunk_list_no_panic opts cwd (args_hunks args) s empty_delta (mkAffected [] [] []) Hp) as Hn.
  destruct (apply_hunk_list _ _ _ _ _ _) as [[s1 d1] [ps|e|]]; [| |done]; by case_match.
Qed.

(** When the hunks are applied, the summary lists every hunk once, under
    its kind and in patch order, renames under their destination. *)
Theorem apply_hunks_summary `{FS : ExecutorFileSystem} hs opts cwd s d s' d' ps :
  apply_hunks_to_files hs opts cwd s d = (s', d', Done ps) →
  ps = mkAffected (hunk_path <$> List.filter is_add hs) (hunk_path <$> List.filter is_update hs)
         (hunk_path <$> List.filter is_delete hs).
Proof.
  unfold apply_hunks_to_files. destruct (is_empty hs); [done|].
  intros H. apply apply_hunk_list_affected in H as ->. by rewrite foldl_affected.
Qed.

(** ** Instances: a directory with two files *)
Definition demo_state : mem_state :=
  mkMem {[ $"/w/a" := $"one" ++ [LF]; $"/w/b" := $"two" ++ [LF] ]} {[ $"/w" ]}.
Definition demo_cwd : @PathUri mem_paths := $"/w".
Definition demo_opts : ApplyPatchOptions := mkOptions PreserveLineEndings false.
Definition demo_hunks : list Hunk :=
  [AddFile ($"d/n") ($"new" ++ [LF]); DeleteFile ($"b");
   UpdateFile ($"a") (Some ($"c")) [mkChunk None [ $"one"] [ $"uno"] [] false]].
Definition demo_run := apply_hunks_to_files (FS := mem_fs) demo_hunks demo_opts demo_cwd demo_state empty_delta.

Lemma demo_run_eq : demo_run = (demo_run.1.1, demo_run.1.2, demo_run.2).
Proof. vm_compute. reflexivity. Qed.

Lemma exact_delta_is_faithful_witness :
  view_eq (revert (changes demo_run.1.2) (content (FS := mem_fs) false demo_run.1.1)) (content (FS := mem_fs) false demo_state).
Proof.
  refine (proj2 (exact_delta_is_faithful (FS := mem_fs) demo_opts (mem_lawful false) demo_hunks demo_cwd demo_state
    demo_run.1.1 demo_run.1.2 demo_run.2 _ demo_run_eq _)).
  - repeat constructor; vm_compute; done.
  - vm_compute. reflexivity.
Defined.

Lemma apply_hunks_summary_witness :
  demo_run.2 = Done (mkAffected [ $"d/n"] [ $"c"] [ $"b"]).
Proof.
  destruct demo_run.2 as [ps|e|] eqn:Hr; [|exfalso; vm_compute in Hr; discriminate..].
  f_equal. refine (apply_hunks_summary (FS := mem_fs) demo_hunks demo_opts demo_cwd demo_state empty_delta
    demo_run.1.1 demo_run.1.2 ps _).
  fold demo_run. rewrite <-Hr. exact demo_run_eq.
Defined.

Definition self_move : Hunk := UpdateFile ($"a") (Some ($"/w/a")) [mkChunk None [ $"one"] [ $"uno"] [] false].
Definition self_run := apply_hunk (FS := mem_fs) demo_opts demo_cwd demo_state empty_delta self_move.

Lemma self_move_deletes_file_witness :
  content (FS := mem_fs) false demo_state ($"/w/a") = Some ($"one" ++ [LF]) ∧
  content (FS := mem_fs) false self_run.1.1 ($"/w/a") = None.
Proof.
  split; [vm_compute; reflexivity|].
  destruct self_run.2 as [a|e|] eqn:Hr; [|exfalso; vm_compute in Hr; discriminate..].
  refine (self_move_deletes_file (FS := mem_fs) demo_opts (mem_lawful false) demo_cwd demo_state empty_delta
    ($"a") ($"/w/a") [mkChunk None [ $"one"] [ $"uno"] [] false] ($"/w/a") self_run.1.1 self_run.1.2 a _ _ _ _).
  - vm_compute. reflexivity.
  - vm_compute. reflexivity.
  - vm_compute. done.
  - fold self_move self_run. rewrite <-Hr. vm_compute. reflexivity.
Defined.
