(* ===== verification/ExecPolicy.v ===== *)
(** * The execution policy: [execpolicy/src/decision.rs], [rule.rs], [policy.rs]
    and [executable_name.rs]

    Rules that match a prefix of a command's words, the policy that collects
    them by program, and the evaluation that decides whether a command may run.
    [MultiMap] and [HashMap] are finite maps; the only implementation of the
    [Rule] trait is [PrefixRule]. Absolute paths come from another crate and
    are an interface. *)

From stdpp Require Import prelude list strings gmap.
From S2P Require Import Prelude.

(** ** Decisions *)
Inductive Decision : Type := Allow | Prompt | Forbidden.

#[global] Instance Decision_eq_dec : EqDecision Decision.
Proof. solve_decision. Defined.

(** The derived [Ord]: declaration order. *)
Definition decision_rank (d : Decision) : nat :=
  match d with Allow => 0 | Prompt => 1 | Forbidden => 2 end.
Definition decision_le (d e : Decision) : Prop := decision_rank d ≤ decision_rank e.
Definition decision_max (d e : Decision) : Decision :=
  if decision_rank d <=? decision_rank e then e else d.
(** [Iterator::max] *)
Definition max_decision (ds : list Decision) : option Decision :=
  match ds with
  | [] => None
  | d :: ds' => Some (foldl decision_max d ds')
  end.

Inductive Error : Type :=
| InvalidDecision (s : str)
| InvalidPattern (s : str)
| InvalidExample (s : str)
| InvalidRule (s : str)
| ExampleDidNotMatch (rules examples : list str)
| ExampleDidMatch (rule example : str).

Definition parse_decision (raw : str) : result Error Decision :=
  if bool_decide (raw = $"allow") then Ok Allow
  else if bool_decide (raw = $"prompt") then Ok Prompt
  else if bool_decide (raw = $"forbidden") then Ok Forbidden
  else Err (InvalidDecision raw).

(** ** Rules *)
Inductive PatternToken : Type :=
| Single (expected : str)
| Alts (alternatives : list str).

Definition token_matches (t : PatternToken) (token : str) : bool :=
  match t with
  | Single expected => bool_decide (expected = token)
  | Alts alternatives => existsb (λ alt, bool_decide (alt = token)) alternatives
  end.

Definition alternatives (t : PatternToken) : list str :=
  match t with Single expected => [expected] | Alts alts => alts end.

Record PrefixPattern := mkPattern { first : str; rest : list PatternToken }.

(** [self.rest.iter().zip(&cmd[1..])]: all of the zipped pairs match. *)
Fixpoint tokens_match (ts : list PatternToken) (ws : list str) : bool :=
  match ts, ws with
  | t :: ts', w :: ws' => token_matches t w && tokens_match ts' ws'
  | _, _ => true
  end.

Definition matches_prefix (p : PrefixPattern) (cmd : list str) : option (list str) :=
  let pattern_length := S (length (rest p)) in
  match cmd with
  | [] => None
  | word :: words =>
      if (length cmd <? pattern_length) || negb (bool_decide (word = first p)) then None
      else if tokens_match (rest p) (take (pattern_length - 1) words)
      then Some (take pattern_length cmd)
      else None
  end.

(** [AbsolutePathBuf] of [utils/absolute-path]. *)
Class AbsolutePaths := {
  AbsolutePathBuf : Type;
  #[global] AbsolutePathBuf_eq_dec :: EqDecision AbsolutePathBuf;
  absolute_try_from : str → option AbsolutePathBuf;
  path_file_name : AbsolutePathBuf → option str
}.

Inductive NetworkRuleProtocol : Type := Http | Https | Socks5Tcp | Socks5Udp.

Definition parse_protocol (raw : str) : result Error NetworkRuleProtocol :=
  if bool_decide (raw = $"http") then Ok Http
  else if bool_decide (raw = $"https") || bool_decide (raw = $"https_connect")
          || bool_decide (raw = $"http-connect") then Ok Https
  else if bool_decide (raw = $"socks5_tcp") then Ok Socks5Tcp
  else if bool_decide (raw = $"socks5_udp") then Ok Socks5Udp
  else Err (InvalidRule
    ($"network_rule protocol must be one of http, https, socks5_tcp, socks5_udp (got "
     ++ raw ++ $")")).

Definition as_policy_string (p : NetworkRuleProtocol) : str :=
  match p with
  | Http => $"http" | Https => $"https" | Socks5Tcp => $"socks5_tcp" | Socks5Udp => $"socks5_udp"
  end.

Record PrefixRule := mkRule {
  pattern : PrefixPattern;
  rule_decision : Decision;
  justification : option str
}.

Record NetworkRule := mkNetworkRule {
  host : str;
  protocol : NetworkRuleProtocol;
  net_decision : Decision;
  net_justification : option str
}.

(** [port.chars().all(|c| c.is_ascii_digit())] on a nonempty port *)
Definition is_port (port : str) : bool := negb (is_empty port) && forallb is_ascii_digit port.

(** The host between the brackets, or before a single [:port]. *)
Definition strip_port (raw h : str) : result Error str :=
  match strip_prefix ($"[") h with
  | Some stripped =>
      match split_once 93%N stripped with
      | None => Err (InvalidRule ($"network_rule host has an invalid bracketed IPv6 literal"))
      | Some (inside, rest) =>
          let port_ok := match strip_prefix ($":") rest with
                         | Some port => is_port port
                         | None => false
                         end in
          if negb (is_empty rest) && negb port_ok
          then Err (InvalidRule ($"network_rule host contains an unsupported suffix: " ++ raw))
          else Ok inside
      end
  | None =>
      if decide (length (List.filter (N.eqb 58) h) = 1) then
        match rsplit_once 58%N h with
        | Some (candidate, port) =>
            if negb (is_empty candidate) && is_port port then Ok candidate else Ok h
        | None => Ok h
        end
      else Ok h
  end.

Definition normalize_network_rule_host (raw : str) : result Error str :=
  let h := trim raw in
  if is_empty h then Err (InvalidRule ($"network_rule host cannot be empty")) else
  if contains_str ($"://") h || contains_char 47 h || contains_char 63 h || contains_char 35 h
  then Err (InvalidRule
    ($"network_rule host must be a hostname or IP literal (without scheme or path)")) else
  let? h := strip_port raw h in
  let normalized := to_ascii_lowercase (trim (trim_end_matches (N.eqb 46) h)) in
  if is_empty normalized then Err (InvalidRule ($"network_rule host cannot be empty")) else
  if contains_char 42 normalized
  then Err (InvalidRule
    ($"network_rule host must be a specific host; wildcards are not allowed")) else
  if existsb is_whitespace normalized
  then Err (InvalidRule ($"network_rule host cannot contain whitespace")) else
  Ok normalized.

Section policy.
Context {AP : AbsolutePaths}.

Inductive RuleMatch : Type :=
| PrefixRuleMatch (matched_prefix : list str) (decision : Decision)
    (resolved_program : option AbsolutePathBuf) (justification : option str)
| HeuristicsRuleMatch (command : list str) (decision : Decision).

Definition match_decision (m : RuleMatch) : Decision :=
  match m with PrefixRuleMatch _ d _ _ => d | HeuristicsRuleMatch _ d => d end.

Definition with_resolved_program (program : AbsolutePathBuf) (m : RuleMatch) : RuleMatch :=
  match m with
  | PrefixRuleMatch matched_prefix d _ j => PrefixRuleMatch matched_prefix d (Some program) j
  | other => other
  end.

(** [impl Rule for PrefixRule] *)
Definition rule_program (r : PrefixRule) : str := first (pattern r).
Definition rule_matches (r : PrefixRule) (cmd : list str) : option RuleMatch :=
  match matches_prefix (pattern r) cmd with
  | Some matched_prefix =>
      Some (PrefixRuleMatch matched_prefix (rule_decision r) None (justification r))
  | None => None
  end.

(** ** The policy *)
Record MatchOptions := mkMatchOptions { resolve_host_executables : bool }.
Definition default_match_options : MatchOptions := mkMatchOptions false.

Record Policy := mkPolicy {
  rules_by_program : gmap str (list PrefixRule);
  network_rules : list NetworkRule;
  host_executables_by_name : gmap str (list AbsolutePathBuf)
}.

Definition empty_policy : Policy := mkPolicy ∅ [] ∅.

(** [MultiMap::insert] and [MultiMap::get_vec] *)
Definition multimap_insert (k : str) (r : PrefixRule) (m : gmap str (list PrefixRule)) : gmap str (list PrefixRule) :=
  <[k := default [] (m !! k) ++ [r]]> m.

Definition add_prefix_rule (p : Policy) (prefix : list str) (d : Decision) : result Error Policy :=
  match prefix with
  | [] => Err (InvalidPattern ($"prefix cannot be empty"))
  | first_token :: rest_tokens =>
      let rule := mkRule (mkPattern first_token (Single <$> rest_tokens)) d None in
      Ok (mkPolicy (multimap_insert first_token rule (rules_by_program p)) (network_rules p)
            (host_executables_by_name p))
  end.

Definition add_network_rule (p : Policy) (h : str) (proto : NetworkRuleProtocol) (d : Decision)
    (j : option str) : result Error Policy :=
  let? h := normalize_network_rule_host h in
  if match j with Some raw => is_empty (trim raw) | None => false end
  then Err (InvalidRule ($"justification cannot be empty"))
  else Ok (mkPolicy (rules_by_program p) (network_rules p ++ [mkNetworkRule h proto d j])
             (host_executables_by_name p)).

Definition set_host_executable_paths (p : Policy) (name : str) (paths : list AbsolutePathBuf) : Policy :=
  mkPolicy (rules_by_program p) (network_rules p) (<[name := paths]> (host_executables_by_name p)).

(** The overlay's rules are inserted program by program, rule by rule; its host
    executables replace the base's of the same name. *)
Definition insert_rules (program : str) (rules : list PrefixRule) (m : gmap str (list PrefixRule)) : gmap str (list PrefixRule) :=
  foldl (λ combined rule, multimap_insert program rule combined) m rules.
Definition merge_overlay (base overlay : Policy) : Policy :=
  mkPolicy
    (map_fold insert_rules (rules_by_program base) (rules_by_program overlay))
    (network_rules base ++ network_rules overlay)
    (host_executables_by_name overlay ∪ host_executables_by_name base).

Definition upsert_domain (entries : list str) (h : str) : list str :=
  List.filter (λ e, negb (bool_decide (e = h))) entries ++ [h].

Definition compile_network_rule (acc : list str * list str) (r : NetworkRule) : list str * list str :=
  let '(allowed, denied) := acc in
  let drop_host := List.filter (λ e, negb (bool_decide (e = host r))) in
  match net_decision r with
  | Allow => (upsert_domain allowed (host r), drop_host denied)
  | Forbidden => (drop_host allowed, upsert_domain denied (host r))
  | Prompt => (allowed, denied)
  end.
Definition compiled_network_domains (p : Policy) : list str * list str :=
  foldl compile_network_rule ([], []) (network_rules p).

(** ** Executable names: [windows] stands for [cfg(windows)]. *)
Definition WINDOWS_EXECUTABLE_SUFFIXES : list str := [ $".exe"; $".cmd"; $".bat"; $".com"].

Fixpoint strip_first_suffix (suffixes : list str) (raw : str) : str :=
  match suffixes with
  | [] => raw
  | suffix :: suffixes' =>
      match strip_suffix suffix raw with
      | Some stripped => stripped
      | None => strip_first_suffix suffixes' raw
      end
  end.

Definition executable_lookup_key (windows : bool) (raw : str) : str :=
  if windows then strip_first_suffix WINDOWS_EXECUTABLE_SUFFIXES (to_ascii_lowercase raw) else raw.

Definition executable_path_lookup_key (windows : bool) (path : AbsolutePathBuf) : option str :=
  executable_lookup_key windows <$> path_file_name path.

(** ** Matching *)
Definition match_exact_rules (p : Policy) (cmd : list str) : option (list RuleMatch) :=
  match cmd with
  | [] => None
  | word :: _ => Some (omap (λ r, rule_matches r cmd) (default [] (rules_by_program p !! word)))
  end.

Definition match_host_executable_rules (windows : bool) (p : Policy) (cmd : list str) : list RuleMatch :=
  match cmd with
  | [] => []
  | word :: words =>
      match absolute_try_from word with
      | None => []
      | Some program =>
          match executable_path_lookup_key windows program with
          | None => []
          | Some basename =>
              match rules_by_program p !! basename with
              | None => []
              | Some rules =>
                  if match host_executables_by_name p !! basename with
                     | Some paths => negb (existsb (λ q, bool_decide (q = program)) paths)
                     | None => false
                     end
                  then []
                  else with_resolved_program program
                       <$> omap (λ r, rule_matches r (basename :: words)) rules
              end
          end
      end
  end.

Section evaluate.
Context (windows : bool).

(** Exact rules first; host executables when there is no exact match and they
    are enabled. *)
Definition policy_matches (p : Policy) (cmd : list str) (options : MatchOptions) : list RuleMatch :=
  let exact := default [] (match_exact_rules p cmd) in
  if negb (is_empty exact) then exact
  else if resolve_host_executables options then match_host_executable_rules windows p cmd
  else [].

Definition matches_for_command_with_options (p : Policy) (cmd : list str)
    (heuristics_fallback : option (list str → Decision)) (options : MatchOptions) : list RuleMatch :=
  let matched_rules := policy_matches p cmd options in
  match is_empty matched_rules, heuristics_fallback with
  | true, Some fallback => [HeuristicsRuleMatch cmd (fallback cmd)]
  | _, _ => matched_rules
  end.

Record Evaluation := mkEvaluation { decision : Decision; matched_rules : list RuleMatch }.

Definition is_match (e : Evaluation) : bool :=
  existsb (λ m, match m with HeuristicsRuleMatch _ _ => false | _ => true end) (matched_rules e).

(** [None] is the panic of [expect]. *)
Definition from_matches (ms : list RuleMatch) : option Evaluation :=
  match max_decision (match_decision <$> ms) with
  | Some d => Some (mkEvaluation d ms)
  | None => None
  end.

Definition check_with_options (p : Policy) (cmd : list str) (fallback : list str → Decision)
    (options : MatchOptions) : option Evaluation :=
  from_matches (matches_for_command_with_options p cmd (Some fallback) options).
Definition check (p : Policy) (cmd : list str) (fallback : list str → Decision) : option Evaluation :=
  check_with_options p cmd fallback default_match_options.

Definition check_multiple_with_options (p : Policy) (cmds : list (list str))
    (fallback : list str → Decision) (options : MatchOptions) : option Evaluation :=
  from_matches (mjoin ((λ cmd, matches_for_command_with_options p cmd (Some fallback) options) <$> cmds)).
Definition check_multiple (p : Policy) (cmds : list (list str)) (fallback : list str → Decision) : option Evaluation :=
  check_multiple_with_options p cmds fallback default_match_options.

(** ** Examples attached to rules. The renderings of rules ([{rule:?}]), of
    matches and of commands ([shlex::try_join]) are parameters. *)
Context (show_rule : PrefixRule → str) (show_match : RuleMatch → str) (try_join : list str → option str).

Definition render_example (example : list str) : str :=
  default ($"unable to render example") (try_join example).

Definition validate_match_examples (p : Policy) (rules : list PrefixRule) (examples : list (list str)) : result Error unit :=
  let unmatched := render_example <$> List.filter
    (λ ex, is_empty (matches_for_command_with_options p ex None (mkMatchOptions true))) examples in
  if is_empty unmatched then Ok tt else Err (ExampleDidNotMatch (show_rule <$> rules) unmatched).

Fixpoint validate_not_match_examples (p : Policy) (examples : list (list str)) : result Error unit :=
  match examples with
  | [] => Ok tt
  | example :: examples' =>
      match matches_for_command_with_options p example None (mkMatchOptions true) with
      | m :: _ => Err (ExampleDidMatch (show_match m) (render_example example))
      | [] => validate_not_match_examples p examples'
      end
  end.
End evaluate.
End policy.


(** ** Decisions: the maximum *)
Lemma decision_max_ge_l d e : decision_le d (decision_max d e).
Proof. destruct d, e; cbv; lia. Qed.
Lemma decision_max_ge_r d e : decision_le e (decision_max d e).
Proof. destruct d, e; cbv; lia. Qed.
Lemma decision_max_either d e : decision_max d e = d ∨ decision_max d e = e.
Proof. destruct d, e; cbv; auto. Qed.
#[global] Instance decision_le_refl : Reflexive decision_le.
Proof. intros d. unfold decision_le. lia. Qed.
#[global] Instance decision_le_trans : Transitive decision_le.
Proof. intros a b c. unfold decision_le. lia. Qed.
Lemma decision_le_antisym d e : decision_le d e → decision_le e d → d = e.
Proof. destruct d, e; cbv; intros; lia || done. Qed.

#[export] Hint Resolve decision_max_ge_l decision_max_ge_r : rust.

Lemma foldl_max_spec ds d :
  (∀ x, x ∈ d :: ds → decision_le x (foldl decision_max d ds)) ∧ foldl decision_max d ds ∈ d :: ds.
Proof.
  revert d; induction ds as [|e ds IH]; intros d; cbn [foldl].
  { split; [|set_solver]. intros x ->%list_elem_of_singleton. reflexivity. }
  destruct (IH (decision_max d e)) as [Hub Hin]. split.
  - intros x [->|[->|Hx]%elem_of_cons]%elem_of_cons.
    + etrans; [apply decision_max_ge_l|apply Hub; left].
    + etrans; [apply decision_max_ge_r|apply Hub; left].
    + apply Hub. by right.
  - destruct (decision_max_either d e) as [Heq|Heq]; rewrite Heq in Hin |- *; set_solver.
Qed.

(** [d] is the strictest decision of the list. *)
Definition strictest (d : Decision) (ds : list Decision) : Prop :=
  d ∈ ds ∧ ∀ x, x ∈ ds → decision_le x d.

Lemma max_decision_spec ds d : max_decision ds = Some d ↔ strictest d ds.
Proof.
  destruct ds as [|e ds]; cbn.
  - split; [done|]. intros [[]%elem_of_nil _].
  - destruct (foldl_max_spec ds e) as [Hub Hin]. split.
    + intros [= <-]. done.
    + intros [Hd Hub']. f_equal. by apply decision_le_antisym; auto.
Qed.

Lemma max_decision_Some ds : ds ≠ [] → is_Some (max_decision ds).
Proof. destruct ds; [done|]. intros _. eexists. reflexivity. Qed.

(** ** Patterns *)
Lemma token_matches_spec t w : token_matches t w = true ↔ w ∈ alternatives t.
Proof.
  destruct t as [e|alts]; cbn.
  - rewrite bool_decide_eq_true, list_elem_of_singleton. naive_solver.
  - rewrite existsb_exists. setoid_rewrite bool_decide_eq_true.
    setoid_rewrite <-list_elem_of_In. naive_solver.
Qed.

Lemma tokens_match_spec ts ws :
  length ts = length ws → tokens_match ts ws = true ↔ Forall2 (λ t w, w ∈ alternatives t) ts ws.
Proof.
  revert ws; induction ts as [|t ts IH]; intros [|w ws] Hl; try done; cbn [tokens_match].
  rewrite andb_true_iff, token_matches_spec, IH by (cbn in Hl; lia).
  split; [by intros []; constructor|by inversion 1].
Qed.

Lemma matches_prefix_iff p cmd pre :
  matches_prefix p cmd = Some pre ↔
  ∃ ws more, cmd = first p :: ws ++ more ∧ pre = first p :: ws ∧
    Forall2 (λ t w, w ∈ alternatives t) (rest p) ws.
Proof.
  unfold matches_prefix. split.
  - destruct cmd as [|w ws]; [done|]. cbn [length].
    destruct (_ || _) eqn:Hg; [done|]. apply orb_false_iff in Hg as [Hlen Hw].
    apply Nat.ltb_ge in Hlen. apply negb_false_iff, bool_decide_eq_true in Hw as ->.
    destruct (tokens_match _ _) eqn:Ht; [|done]. intros [= <-].
    replace (S (length (rest p)) - 1) with (length (rest p)) in Ht by lia.
    apply tokens_match_spec in Ht; [|rewrite length_take; lia].
    exists (take (length (rest p)) ws), (drop (length (rest p)) ws). by rewrite take_drop.
  - intros (ws & more & -> & -> & Hf). pose proof (Forall2_length _ _ _ Hf) as Hl.
    cbn [length]. rewrite length_app.
    replace (_ <? _) with false by (symmetry; apply Nat.ltb_ge; lia).
    rewrite bool_decide_true by done. cbn [orb negb].
    replace (S (length (rest p)) - 1) with (length ws) by lia.
    rewrite (take_app_length ws more), (proj2 (tokens_match_spec _ _ Hl) Hf).
    cbn [take]. by rewrite Hl, (take_app_length ws more).
Qed.

(** ** Evaluation *)
Section evaluation.
Context {AP : AbsolutePaths} (windows : bool).
Implicit Types (p : Policy) (cmd : list str) (ms : list RuleMatch) (o : MatchOptions).

Lemma from_matches_spec ms e :
  from_matches ms = Some e ↔ matched_rules e = ms ∧ strictest (decision e) (match_decision <$> ms).
Proof.
  unfold from_matches. destruct (max_decision _) as [d|] eqn:Hd.
  - apply max_decision_spec in Hd. split; [by intros [= <-]|].
    destruct e as [d' ms']; cbn. intros [-> Hd']. do 2 f_equal.
    destruct Hd, Hd'. by apply decision_le_antisym; auto.
  - split; [done|]. intros [_ Hs]. apply max_decision_spec in Hs. congruence.
Qed.

Lemma from_matches_Some ms : ms ≠ [] → ∃ e, from_matches ms = Some e.
Proof.
  intros Hne. unfold from_matches.
  destruct (max_decision_Some (match_decision <$> ms)) as [d ->]; [|eauto].
  by destruct ms.
Qed.

Lemma matches_with_fallback_ne p cmd f o :
  matches_for_command_with_options windows p cmd (Some f) o ≠ [].
Proof.
  unfold matches_for_command_with_options.
  by destruct (policy_matches _ _ _ _) eqn:H; cbn.
Qed.

(** C6: Checking a command never panics, and the decision it returns is the
    strictest one: some matched rule (or the heuristics, which are consulted
    exactly when no rule matches) carries it and no matched rule is stricter. *)
Theorem check_strictest p cmd f o :
  ∃ e, check_with_options windows p cmd f o = Some e ∧
    strictest (decision e) (match_decision <$> matched_rules e) ∧
    matched_rules e =
      (if decide (policy_matches windows p cmd o = [])
       then [HeuristicsRuleMatch cmd (f cmd)] else policy_matches windows p cmd o).
Proof.
  destruct (from_matches_Some _ (matches_with_fallback_ne p cmd f o)) as [e He].
  exists e. split; [exact He|]. apply from_matches_spec in He as [Hms Hs].
  rewrite Hms. split; [done|].
  unfold matches_for_command_with_options. by destruct (policy_matches _ _ _ _).
Qed.

Lemma strictest_ms d ms :
  strictest d (match_decision <$> ms) ↔
  (∃ m, m ∈ ms ∧ match_decision m = d) ∧ ∀ m, m ∈ ms → decision_le (match_decision m) d.
Proof.
  unfold strictest. setoid_rewrite list_elem_of_fmap. split.
  - intros [(m & -> & Hm) Hub]. split; [by exists m|]. intros m' Hm'. apply Hub. eauto.
  - intros [(m & Hm & <-) Hub]. split; [eauto|]. intros x (m' & -> & Hm'). auto.
Qed.

(** Checking several commands panics on no command at all and otherwise
    returns the strictest of the decisions the commands get one by one. *)
Theorem check_multiple_strictest p cmds f o :
  let one cmd := check_with_options windows p cmd f o in
  (check_multiple_with_options windows p [] f o = None) ∧
  (cmds ≠ [] → ∃ e, check_multiple_with_options windows p cmds f o = Some e ∧
     (∀ cmd e', cmd ∈ cmds → one cmd = Some e' → decision_le (decision e') (decision e)) ∧
     (∃ cmd e', cmd ∈ cmds ∧ one cmd = Some e' ∧ decision e' = decision e)).
Proof.
  intros one. split; [done|]. intros Hne.
  set (go cmd := matches_for_command_with_options windows p cmd (Some f) o).
  destruct (from_matches_Some (mjoin (go <$> cmds))) as [e He].
  { destruct cmds as [|cmd cmds]; [done|]. intros Hnil. apply app_eq_nil in Hnil as [Hnil _].
    by apply (matches_with_fallback_ne p cmd f o). }
  exists e. split; [exact He|]. apply from_matches_spec in He as [_ [(m & Hm & Hd) Hub]%strictest_ms].
  assert (Hone : ∀ cmd e', one cmd = Some e' → strictest (decision e') (match_decision <$> go cmd)).
  { intros cmd e' [Hms Hs]%from_matches_spec. done. }
  split.
  - intros cmd e' Hin He'. apply Hone, strictest_ms in He' as [(m' & Hm' & <-) _]. apply Hub.
    apply list_elem_of_join. exists (go cmd). split; [done|]. by apply list_elem_of_fmap_2.
  - apply list_elem_of_join in Hm as (l & Hm & (cmd & -> & Hin)%list_elem_of_fmap).
    destruct (from_matches_Some (go cmd) (matches_with_fallback_ne p cmd f o)) as [e' He'].
    exists cmd, e'. split; [done|]. split; [done|].
    pose proof (Hone _ _ He') as [(m' & Hm' & Hd') Hub']%strictest_ms.
    apply decision_le_antisym; [|rewrite <-Hd; by apply Hub'].
    rewrite <-Hd'. apply Hub. apply list_elem_of_join. exists (go cmd). split; [done|].
    by apply list_elem_of_fmap_2.
Qed.

(** A pattern matches exactly the commands that start with its program
    followed by one alternative per token, and reports that prefix. *)
Theorem matches_prefix_spec (pat : PrefixPattern) cmd pre :
  matches_prefix pat cmd = Some pre ↔
  ∃ ws more, cmd = first pat :: ws ++ more ∧ pre = first pat :: ws ∧
    Forall2 (λ t w, w ∈ alternatives t) (rest pat) ws.
Proof. apply matches_prefix_iff. Qed.

(** ** Adding and merging rules *)
Definition get_rules (m : gmap str (list PrefixRule)) (program : str) : list PrefixRule :=
  default [] (m !! program).
Definition rules_of p (program : str) : list PrefixRule := get_rules (rules_by_program p) program.
Definition exact_matches p cmd : list RuleMatch := default [] (match_exact_rules p cmd).

Lemma get_rules_insert k r m k' :
  get_rules (multimap_insert k r m) k' = get_rules m k' ++ (if decide (k = k') then [r] else []).
Proof.
  unfold get_rules, multimap_insert. case_decide as Hk.
  - subst. by rewrite lookup_insert_eq.
  - by rewrite lookup_insert_ne, app_nil_r.
Qed.

Lemma exact_matches_cons p w ws :
  exact_matches p (w :: ws) = omap (λ r, rule_matches r (w :: ws)) (rules_of p w).
Proof. done. Qed.

Lemma matches_prefix_literal prefix w ws cmd :
  prefix = w :: ws →
  matches_prefix (mkPattern w (Single <$> ws)) cmd =
    if decide (prefix `prefix_of` cmd) then Some prefix else None.
Proof.
  intros ->. destruct (matches_prefix _ cmd) as [pre|] eqn:Hm.
  - apply matches_prefix_iff in Hm as (us & more & -> & -> & Hf); cbn [first rest] in *.
    assert (us = ws) as ->.
    { clear -Hf. remember (Single <$> ws) as ts eqn:Hts. revert ws Hts.
      induction Hf as [|t u ts us Hu _ IH]; intros [|w ws]; try done; cbn.
      intros [= -> ->]. f_equal; [|by apply IH]. by apply list_elem_of_singleton in Hu. }
    rewrite decide_True; [done|]. by exists more.
  - case_decide as Hp; [|done]. destruct Hp as [more ->]. exfalso.
    apply eq_None_not_Some in Hm. apply Hm. exists (w :: ws). apply matches_prefix_iff.
    exists ws, more. split; [done|]. split; [done|]. apply Forall2_fmap_l, Forall_Forall2_diag, Forall_true.
    intros u. by apply list_elem_of_singleton.
Qed.

Lemma omap_snoc {A B} (g : A → option B) l x :
  omap g (l ++ [x]) = omap g l ++ match g x with Some y => [y] | None => [] end.
Proof. rewrite omap_app. cbn. by destruct (g x). Qed.

Lemma exact_matches_add p prefix d p' cmd :
  add_prefix_rule p prefix d = Ok p' →
  exact_matches p' cmd = exact_matches p cmd ++
    (if decide (prefix `prefix_of` cmd) then [PrefixRuleMatch prefix d None None] else []).
Proof.
  destruct prefix as [|w ws]; [done|]. intros [= <-]. destruct cmd as [|u us].
  { rewrite decide_False by (by intros ?%prefix_nil_inv). done. }
  rewrite !exact_matches_cons. unfold rules_of; cbn [rules_by_program].
  rewrite get_rules_insert. destruct (decide (w = u)) as [<-|Hwu].
  - rewrite omap_snoc. f_equal. unfold rule_matches.
    cbn [pattern rule_decision justification]. rewrite (matches_prefix_literal (w :: ws)) by done.
    by case_decide.
  - rewrite decide_False; [by rewrite !app_nil_r|]. intros [= Heq]%prefix_cons_inv_1. done.
Qed.

(** Adding a prefix rule fails on the empty prefix only; otherwise it adds,
    after the rules already there, a match that reports the prefix with the
    decision to exactly the commands that start with the prefix. *)
Theorem add_prefix_rule_effect p prefix d :
  (add_prefix_rule p [] d = Err (InvalidPattern ($"prefix cannot be empty"))) ∧
  (prefix ≠ [] → ∃ p', add_prefix_rule p prefix d = Ok p' ∧ ∀ cmd,
    exact_matches p' cmd =
      exact_matches p cmd ++
      (if decide (prefix `prefix_of` cmd) then [PrefixRuleMatch prefix d None None] else [])).
Proof.
  split; [done|]. intros Hne. destruct prefix as [|w ws]; [done|].
  eexists. split; [done|]. intros cmd. by apply exact_matches_add.
Qed.

(** ** Merging *)
Lemma get_rules_insert_rules k rs m k' :
  get_rules (insert_rules k rs m) k' = get_rules m k' ++ (if decide (k = k') then rs else []).
Proof.
  unfold insert_rules. revert m; induction rs as [|r rs IH]; intros m; cbn [foldl].
  - by case_decide; rewrite app_nil_r.
  - rewrite IH, get_rules_insert, <-app_assoc. f_equal. by case_decide.
Qed.

Lemma get_rules_merge base overlay k :
  get_rules (map_fold insert_rules base overlay) k = get_rules base k ++ get_rules overlay k.
Proof.
  revert overlay. refine (map_fold_weak_ind (λ r m, get_rules r k = get_rules base k ++ get_rules m k) _ _ _ _).
  - unfold get_rules at 3. by rewrite lookup_empty, app_nil_r.
  - intros i rs m r Hi IH. rewrite get_rules_insert_rules, IH, <-app_assoc. f_equal.
    unfold get_rules. case_decide as Hik.
    + subst. by rewrite lookup_insert_eq, Hi.
    + by rewrite lookup_insert_ne, app_nil_r.
Qed.

Lemma exact_matches_merge base overlay cmd :
  exact_matches (merge_overlay base overlay) cmd = exact_matches base cmd ++ exact_matches overlay cmd.
Proof.
  destruct cmd as [|w ws]; [done|]. rewrite !exact_matches_cons. unfold rules_of.
  cbn [merge_overlay rules_by_program]. by rewrite get_rules_merge, omap_app.
Qed.

Lemma strictest_app_l d d' (ds ds' : list Decision) :
  strictest d ds → strictest d' (ds ++ ds') → decision_le d d'.
Proof. intros [Hd _] [_ Hub]. apply Hub. set_solver. Qed.

(** The merged policy's exact matches are the base's followed by the
    overlay's, so an overlay never relaxes the decision on a command that the
    base matches exactly; its host executables shadow the base's by name. *)
Theorem merge_overlay_sound base overlay cmd f o e e' :
  exact_matches base cmd ≠ [] →
  check_with_options windows base cmd f o = Some e →
  check_with_options windows (merge_overlay base overlay) cmd f o = Some e' →
  matched_rules e' = matched_rules e ++ exact_matches overlay cmd ∧
  decision_le (decision e) (decision e') ∧
  (∀ name, host_executables_by_name (merge_overlay base overlay) !! name =
     match host_executables_by_name overlay !! name with
     | Some paths => Some paths
     | None => host_executables_by_name base !! name
     end).
Proof.
  intros Hne [Hms Hs]%from_matches_spec [Hms' Hs']%from_matches_spec.
  assert (Hex : ∀ p, exact_matches p cmd ≠ [] →
    matches_for_command_with_options windows p cmd (Some f) o = exact_matches p cmd).
  { intros p Hp. unfold matches_for_command_with_options, policy_matches.
    fold (exact_matches p cmd). by destruct (exact_matches p cmd). }
  rewrite Hex in Hms, Hs by done. 
  rewrite Hex in Hms', Hs' by (rewrite exact_matches_merge; by destruct (exact_matches base cmd)).
  rewrite exact_matches_merge in Hms', Hs'. rewrite fmap_app in Hs'.
  split; [by rewrite Hms', Hms|]. split; [by eapply strictest_app_l|].
  intros name. cbn. rewrite lookup_union.
  by destruct (host_executables_by_name overlay !! name), (host_executables_by_name base !! name).
Qed.

(** ** Host executables *)
(** A match that is not exact was found by resolving the command's program
    as an absolute path: host resolution is enabled, the path is among those
    listed for its base name (when the policy lists any), the match records the
    path and comes from a rule for the base name that matches the command with
    the base name in place of the path. *)
Theorem host_executable_match_sound p cmd o m :
  exact_matches p cmd = [] →
  m ∈ policy_matches windows p cmd o →
  ∃ word words program basename r pre,
    cmd = word :: words ∧ resolve_host_executables o = true ∧
    absolute_try_from word = Some program ∧
    executable_path_lookup_key windows program = Some basename ∧
    (∀ paths, host_executables_by_name p !! basename = Some paths → program ∈ paths) ∧
    r ∈ rules_of p basename ∧ matches_prefix (pattern r) (basename :: words) = Some pre ∧
    m = PrefixRuleMatch pre (rule_decision r) (Some program) (justification r).
Proof.
  intros Hex. unfold policy_matches. fold (exact_matches p cmd). rewrite Hex. cbn [is_empty negb].
  destruct (resolve_host_executables o) eqn:Ho; [|by intros ?%elem_of_nil].
  destruct cmd as [|word words]; [by intros ?%elem_of_nil|]. cbn [match_host_executable_rules].
  destruct (absolute_try_from word) as [program|] eqn:Hprog; [|by intros ?%elem_of_nil].
  destruct (executable_path_lookup_key windows program) as [basename|] eqn:Hbase; [|by intros ?%elem_of_nil].
  destruct (rules_by_program p !! basename) as [rules|] eqn:Hrules; [|by intros ?%elem_of_nil].
  intros Hm. exists word, words, program, basename.
  assert (Hlisted : ∀ paths, host_executables_by_name p !! basename = Some paths → program ∈ paths).
  { intros paths Hp. rewrite Hp in Hm. destruct (existsb _ paths) eqn:Hx; cbn in Hm; [|by apply elem_of_nil in Hm].
    apply existsb_exists in Hx as (q & Hq & ->%bool_decide_eq_true). by apply list_elem_of_In. }
  assert (Hin : m ∈ with_resolved_program program <$> omap (λ r, rule_matches r (basename :: words)) rules).
  { destruct (match host_executables_by_name p !! basename with Some _ => _ | None => _ end);
      [by apply elem_of_nil in Hm|done]. }
  apply list_elem_of_fmap in Hin as (m0 & -> & (r & Hr & Hrm)%list_elem_of_omap).
  unfold rule_matches in Hrm. destruct (matches_prefix _ _) as [pre|] eqn:Hpre; [|done].
  injection Hrm as <-. exists r, pre. unfold rules_of, get_rules. by rewrite Hrules.
Qed.

(** ** Network rules *)

(** The decision of the last rule for the host that decides anything. *)
Definition effective_decision (h : str) (rules : list NetworkRule) : option Decision :=
  last (omap (λ r, if decide (host r = h ∧ net_decision r ≠ Prompt) then Some (net_decision r) else None) rules).

Lemma effective_decision_snoc h rules r :
  effective_decision h (rules ++ [r]) =
    if decide (host r = h ∧ net_decision r ≠ Prompt) then Some (net_decision r)
    else effective_decision h rules.
Proof.
  unfold effective_decision. rewrite omap_snoc. case_decide; [by rewrite last_snoc|by rewrite app_nil_r].
Qed.

Lemma elem_of_drop_host (h x : str) l :
  x ∈ List.filter (λ e, negb (bool_decide (e = h))) l ↔ x ∈ l ∧ x ≠ h.
Proof. rewrite !list_elem_of_In, filter_In, negb_true_iff, bool_decide_eq_false. done. Qed.

Lemma elem_of_upsert (h x : str) l : x ∈ upsert_domain l h ↔ x = h ∨ x ∈ l.
Proof.
  unfold upsert_domain. rewrite elem_of_app, elem_of_drop_host, list_elem_of_singleton.
  destruct (decide (x = h)); naive_solver.
Qed.

Lemma NoDup_drop_host (h : str) l : NoDup l → NoDup (List.filter (λ e, negb (bool_decide (e = h))) l).
Proof. rewrite !NoDup_ListNoDup. apply List.NoDup_filter. Qed.

Lemma NoDup_upsert h l : NoDup l → NoDup (upsert_domain l h).
Proof.
  intros. unfold upsert_domain. apply NoDup_app. split; [by apply NoDup_drop_host|].
  split; [|apply NoDup_singleton]. intros x [_ Hx]%elem_of_drop_host. by rewrite list_elem_of_singleton.
Qed.

Definition domains_ok (rules : list NetworkRule) (acc : list str * list str) : Prop :=
  NoDup acc.1 ∧ NoDup acc.2 ∧ ∀ h,
    (h ∈ acc.1 ↔ effective_decision h rules = Some Allow) ∧
    (h ∈ acc.2 ↔ effective_decision h rules = Some Forbidden).

Lemma compile_network_rule_ok rules acc r :
  domains_ok rules acc → domains_ok (rules ++ [r]) (compile_network_rule acc r).
Proof.
  destruct acc as [allowed denied]. intros (Ha & Hd & Hspec).
  split; [|split]; [..|intros h; specialize (Hspec h); rewrite !effective_decision_snoc];
    unfold compile_network_rule; destruct (net_decision r) eqn:Hr; cbn [fst snd] in *;
    rewrite ?elem_of_upsert, ?elem_of_drop_host; auto using NoDup_upsert, NoDup_drop_host;
    case_decide; naive_solver.
Qed.

(** Compiling the network rules gives two duplicate-free lists of hosts:
    a host is allowed (denied) exactly when the last of its rules that is not a
    prompt allows (forbids) it, so no host is in both. *)
Theorem compiled_network_domains_spec p :
  let '(allowed, denied) := compiled_network_domains p in
  NoDup allowed ∧ NoDup denied ∧ ∀ h,
    (h ∈ allowed ↔ effective_decision h (network_rules p) = Some Allow) ∧
    (h ∈ denied ↔ effective_decision h (network_rules p) = Some Forbidden).
Proof.
  unfold compiled_network_domains.
  assert (Hok : domains_ok (network_rules p) (foldl compile_network_rule ([], []) (network_rules p))).
  { induction (network_rules p) as [|r rules IH] using rev_ind.
    - split; [constructor|]. split; [constructor|]. intros h. cbn. set_solver.
    - rewrite foldl_snoc. by apply compile_network_rule_ok. }
  by destruct (foldl _ _ _).
Qed.
End evaluation.

(** ** Normalised hosts *)
Lemma trim_incl (s : str) c : c ∈ trim s → c ∈ s.
Proof. intros H%trim_end_matches_incl. by eapply trim_start_matches_incl. Qed.

Lemma strip_port_incl raw h h' c : strip_port raw h = Ok h' → c ∈ h' → c ∈ h.
Proof.
  unfold strip_port. destruct (strip_prefix _ h) as [stripped|] eqn:Hp.
  - apply strip_prefix_Some in Hp as ->.
    destruct (split_once 93 stripped) as [[inside more]|] eqn:Hs; [|done].
    apply split_once_Some in Hs as [-> _].
    destruct (_ && _); [done|]. intros [= <-]. set_solver.
  - case_decide; [|by intros [= <-]].
    destruct (rsplit_once 58 h) as [[candidate port]|] eqn:Hr; [|by intros [= <-]].
    apply rsplit_once_Some in Hr as [-> _].
    destruct (_ && _); intros [= <-]; [set_solver|done].
Qed.

Lemma contains_char_false c s : contains_char c s = false ↔ c ∉ s.
Proof.
  unfold contains_char. rewrite <-not_true_iff_false, existsb_exists.
  setoid_rewrite N.eqb_eq. setoid_rewrite <-list_elem_of_In. naive_solver.
Qed.

Lemma elem_of_lowercase c s :
  c ∈ to_ascii_lowercase s → (c ∈ s ∨ (97 ≤ c ∧ c ≤ 122)%N) ∧ ¬ (65 ≤ c ∧ c ≤ 90)%N.
Proof.
  unfold to_ascii_lowercase. intros (d & -> & Hd)%list_elem_of_fmap.
  destruct (65 <=? d)%N eqn:H1, (d <=? 90)%N eqn:H2; cbn;
    rewrite ?N.leb_le, ?N.leb_gt in *; (split; [|lia]); (by left) || (right; lia).
Qed.

(** What a host of a network rule looks like: not empty, no white space, no
    wildcard, no upper-case ASCII letter, no scheme, path, query or fragment. *)
Definition host_char (c : char) : Prop :=
  is_whitespace c = false ∧ c ∉ [42; 47; 63; 35]%N ∧ ¬ (65 ≤ c ∧ c ≤ 90)%N.
Definition normal_host (h : str) : Prop := h ≠ [] ∧ ∀ c, c ∈ h → host_char c.

Lemma normalize_host_normal raw h : normalize_network_rule_host raw = Ok h → normal_host h.
Proof.
  unfold normalize_network_rule_host. destruct (is_empty (trim raw)); [done|].
  destruct (_ || contains_char 35 (trim raw)) eqn:Hg; [done|].
  apply orb_false_iff in Hg as [[[_ H1]%orb_false_iff H2]%orb_false_iff H3].
  apply contains_char_false in H1, H2, H3.
  destruct (strip_port raw (trim raw)) as [host'|] eqn:Hsp; [|done]. cbn [rbind].
  set (n := to_ascii_lowercase _).
  destruct (is_empty n) eqn:Hne; [done|]. destruct (contains_char 42 n) eqn:Hstar; [done|].
  destruct (existsb is_whitespace n) eqn:Hws; [done|]. intros [= <-].
  split; [by destruct n|]. intros c Hc. unfold host_char.
  apply contains_char_false in Hstar.
  assert (Hw : is_whitespace c = false).
  { apply not_true_iff_false. intros Hw. apply not_true_iff_false in Hws. apply Hws.
    apply existsb_exists. exists c. by rewrite <-list_elem_of_In. }
  split; [done|]. pose proof Hc as [Hor Hup]%elem_of_lowercase. split; [|done].
  assert (Hraw : c ∈ trim raw ∨ (97 ≤ c ∧ c ≤ 122)%N).
  { destruct Hor as [Hor|Hor]; [left|by right].
    by eapply strip_port_incl, trim_end_matches_incl, trim_incl. }
  intros Hbad. rewrite !elem_of_cons in Hbad.
  destruct Hbad as [->|[->|[->|[->|[]%elem_of_nil]]]]; [done|..]; destruct Hraw; done || lia.
Qed.

(** A network rule that is accepted is added at the end with a normalised
    host, the justification, if any, not blank, and nothing else changes. *)
Theorem add_network_rule_normal `{AbsolutePaths} (p p' : Policy) h proto d j :
  add_network_rule p h proto d j = Ok p' →
  ∃ h', network_rules p' = network_rules p ++ [mkNetworkRule h' proto d j] ∧ normal_host h' ∧
    (∀ raw, j = Some raw → trim raw ≠ []) ∧
    rules_by_program p' = rules_by_program p ∧
    host_executables_by_name p' = host_executables_by_name p.
Proof.
  unfold add_network_rule. destruct (normalize_network_rule_host h) as [h'|] eqn:Hn; [|done].
  cbn [rbind]. destruct (match j with Some _ => _ | None => _ end) eqn:Hj; [done|].
  intros [= <-]. exists h'. split; [done|]. split; [by eapply normalize_host_normal|].
  split; [|done]. intros raw -> Hraw. by rewrite Hraw in Hj.
Qed.

(** ** Instances: Unix paths as text, and a small policy *)
Definition unix_file_name (path : str) : option str :=
  match last (List.filter (λ c, negb (is_empty c)) (split_char 47 path)) with
  | Some name => if decide (name = $"..") then None else Some name
  | None => None
  end.
Definition unix_paths : AbsolutePaths := {|
  AbsolutePathBuf := str;
  absolute_try_from := λ s, if starts_with ($"/") s then Some s else None;
  path_file_name := unix_file_name
|}.

Definition git_push : list str := [ $"git"; $"push"].
Definition demo_base : @Policy unix_paths :=
  @mkPolicy unix_paths
    {[ $"git" := [mkRule (mkPattern ($"git") [Alts [ $"push"; $"fetch"]]) Prompt None];
       $"rm" := [mkRule (mkPattern ($"rm") []) Forbidden None] ]}
    [] {[ $"rm" := [ $"/bin/rm"] ]}.
Definition demo_overlay : @Policy unix_paths :=
  @mkPolicy unix_paths
    {[ $"git" := [mkRule (mkPattern ($"git") [Single ($"push")]) Forbidden None] ]} [] ∅.
Definition always (d : Decision) : list str → Decision := λ _, d.

Lemma check_multiple_strictest_witness :
  ∃ e, check_multiple_with_options (AP := unix_paths) false demo_base [git_push; [ $"ls"]] (always Allow)
         (mkMatchOptions false) = Some e ∧ decision e = Prompt.
Proof.
  destruct (check_multiple_strictest (AP := unix_paths) false demo_base [git_push; [ $"ls"]] (always Allow)
    (mkMatchOptions false)) as [_ H].
  destruct H as (e & He & _); [done|]. exists e. split; [exact He|].
  vm_compute in He. by injection He as <-.
Defined.

Lemma add_prefix_rule_effect_witness :
  ∃ p', add_prefix_rule demo_base git_push Forbidden = Ok p' ∧
    exact_matches p' (git_push ++ [ $"-f"]) =
      exact_matches demo_base (git_push ++ [ $"-f"]) ++ [PrefixRuleMatch git_push Forbidden None None].
Proof.
  destruct (add_prefix_rule_effect (AP := unix_paths) demo_base git_push Forbidden) as [_ H].
  destruct H as (p' & Hp & Hm); [done|]. exists p'. split; [exact Hp|]. apply Hm.
Defined.

Lemma merge_overlay_sound_witness :
  ∃ e e', check_with_options (AP := unix_paths) false demo_base git_push (always Allow) (mkMatchOptions true) = Some e ∧
    check_with_options (AP := unix_paths) false (merge_overlay demo_base demo_overlay) git_push (always Allow)
      (mkMatchOptions true) = Some e' ∧ decision_le (decision e) (decision e').
Proof.
  do 2 eexists. split; [vm_compute; reflexivity|]. split; [vm_compute; reflexivity|].
  eapply (merge_overlay_sound (AP := unix_paths) false demo_base demo_overlay git_push (always Allow) (mkMatchOptions true));
    [|vm_compute; reflexivity..]. by vm_compute.
Defined.

Lemma host_executable_match_sound_witness :
  ∃ m, m ∈ policy_matches (AP := unix_paths) false demo_base [ $"/bin/rm"; $"-r"] (mkMatchOptions true) ∧
    match_decision m = Forbidden ∧ ∃ program : str, program = $"/bin/rm".
Proof.
  exists (PrefixRuleMatch (AP := unix_paths) [ $"rm"] Forbidden (Some ($"/bin/rm")) None).
  assert (Hm : PrefixRuleMatch (AP := unix_paths) [ $"rm"] Forbidden (Some ($"/bin/rm")) None
    ∈ policy_matches (AP := unix_paths) false demo_base [ $"/bin/rm"; $"-r"] (mkMatchOptions true)).
  { vm_compute. left. }
  split; [exact Hm|]. split; [reflexivity|].
  destruct (host_executable_match_sound (AP := unix_paths) false demo_base [ $"/bin/rm"; $"-r"]
    (mkMatchOptions true) _ eq_refl Hm) as (word & words & program & _ & _ & _ & [= <- <-] & _ & Hp & _).
  exists program. vm_compute in Hp. by injection Hp as <-.
Defined.

Lemma add_network_rule_normal_witness :
  ∃ p', add_network_rule (AP := unix_paths) demo_base ($" API.Example.com:443 ") Https Allow None = Ok p' ∧
    ∃ h, normal_host h ∧ network_rules p' = [mkNetworkRule h Https Allow None].
Proof.
  eexists. split; [vm_compute; reflexivity|].
  destruct (add_network_rule_normal (H := unix_paths) demo_base
    (@mkPolicy unix_paths (rules_by_program demo_base)
      [mkNetworkRule ($"api.example.com") Https Allow None] (host_executables_by_name demo_base))
    ($" API.Example.com:443 ") Https Allow None) as (h & Hn & Hh & _); [vm_compute; reflexivity|].
  exists h. split; [exact Hh|]. exact Hn.
Defined.
