(* ===== verification/ExecPolicyBuilder.v ===== *)
(** * Building execution policies: [execpolicy/src/parser.rs], [amend.rs] and
    the listing operations of [policy.rs]

    The built-in functions a policy file calls ([prefix_rule], [network_rule],
    [host_executable]) as operations on the [PolicyBuilder], the validation of
    the examples attached to rules, the lines that amendments append to a
    policy file, and the sorted listings of a policy. The Starlark interpreter
    is a third-party package: its values are an interface and a policy file is
    the sequence of calls its evaluation makes. *)

From stdpp Require Import prelude list strings gmap sorting.
From S2P Require Import Prelude ExecPolicy.

(** [starlark::values::Value], as far as the built-ins inspect it. *)
Class StarlarkValues := {
  Value : Type;
  unpack_str : Value → option str;
  list_content : Value → option (list Value);
  get_type : Value → str
}.

(** [std::path::Path] on the platform. *)
Class StdPaths := {
  is_absolute : str → bool;
  component_count : str → nat;
  str_file_name : str → option str
}.

(** [iter.map(f).collect::<Result<Vec<_>, _>>()]: stops at the first error. *)
Fixpoint collect {E A B} (f : A → result E B) (l : list A) : result E (list B) :=
  match l with
  | [] => Ok []
  | x :: l' => let? y := f x in let? ys := collect f l' in Ok (y :: ys)
  end.

Section builder.
Context {AP : AbsolutePaths} {SV : StarlarkValues} {SP : StdPaths}.
Context (windows : bool) (shlex_split : str → option (list str)) (absolute_error : str → str).
Context (show_rule : PrefixRule → str) (show_match : RuleMatch → str) (try_join : list str → option str).

Record PendingExampleValidation := mkPending {
  pending_rules : list PrefixRule;
  pending_matches : list (list str);
  pending_not_matches : list (list str)
}.

Record PolicyBuilder := mkBuilder {
  b_rules_by_program : gmap str (list PrefixRule);
  b_network_rules : list NetworkRule;
  b_host_executables_by_name : gmap str (list AbsolutePathBuf);
  pending_example_validations : list PendingExampleValidation
}.
Definition builder_new : PolicyBuilder := mkBuilder ∅ [] ∅ [].

Definition add_rule (b : PolicyBuilder) (r : PrefixRule) : PolicyBuilder :=
  mkBuilder (multimap_insert (rule_program r) r (b_rules_by_program b)) (b_network_rules b)
    (b_host_executables_by_name b) (pending_example_validations b).
Definition builder_add_network_rule (b : PolicyBuilder) (r : NetworkRule) : PolicyBuilder :=
  mkBuilder (b_rules_by_program b) (b_network_rules b ++ [r])
    (b_host_executables_by_name b) (pending_example_validations b).
Definition add_host_executable (b : PolicyBuilder) (name : str) (paths : list AbsolutePathBuf) : PolicyBuilder :=
  mkBuilder (b_rules_by_program b) (b_network_rules b)
    (<[name := paths]> (b_host_executables_by_name b)) (pending_example_validations b).
Definition add_pending_example_validation (b : PolicyBuilder) (v : PendingExampleValidation) : PolicyBuilder :=
  mkBuilder (b_rules_by_program b) (b_network_rules b)
    (b_host_executables_by_name b) (pending_example_validations b ++ [v]).

(** The policy a validation is checked against: the call's own rules. *)
Definition validation_policy (b : PolicyBuilder) (v : PendingExampleValidation) : Policy :=
  mkPolicy (foldl (λ m r, multimap_insert (rule_program r) r m) ∅ (pending_rules v)) []
    (b_host_executables_by_name b).

Fixpoint validate_pending (b : PolicyBuilder) (vs : list PendingExampleValidation) : result Error unit :=
  match vs with
  | [] => Ok tt
  | v :: vs' =>
      let policy := validation_policy b v in
      let? _ := validate_not_match_examples windows show_match try_join policy (pending_not_matches v) in
      let? _ := validate_match_examples windows show_rule try_join policy (pending_rules v) (pending_matches v) in
      validate_pending b vs'
  end.
Definition validate_pending_examples_from (b : PolicyBuilder) (start : nat) : result Error unit :=
  validate_pending b (drop start (pending_example_validations b)).

Definition build (b : PolicyBuilder) : Policy :=
  mkPolicy (b_rules_by_program b) (b_network_rules b) (b_host_executables_by_name b).

(** ** Arguments of the built-ins *)
Definition parse_string_value (message : str) (wrap : str → Error) (v : Value) : result Error str :=
  match unpack_str v with
  | Some s => Ok s
  | None => Err (wrap (message ++ $" (got " ++ get_type v ++ $")"))
  end.

Definition parse_pattern_token (v : Value) : result Error PatternToken :=
  match unpack_str v with
  | Some s => Ok (Single s)
  | None =>
      match list_content v with
      | Some content =>
          let? tokens := collect (parse_string_value ($"pattern alternative must be a string") InvalidPattern) content in
          match tokens with
          | [] => Err (InvalidPattern ($"pattern alternatives cannot be empty"))
          | [single] => Ok (Single single)
          | _ => Ok (Alts tokens)
          end
      | None => Err (InvalidPattern
          ($"pattern element must be a string or list of strings (got " ++ get_type v ++ $")"))
      end
  end.

Definition parse_pattern (items : list Value) : result Error (list PatternToken) :=
  let? tokens := collect parse_pattern_token items in
  if is_empty tokens then Err (InvalidPattern ($"pattern cannot be empty")) else Ok tokens.

Definition parse_string_example (raw : str) : result Error (list str) :=
  match shlex_split raw with
  | None => Err (InvalidExample ($"example string has invalid shell syntax"))
  | Some tokens =>
      if is_empty tokens then Err (InvalidExample ($"example cannot be an empty string")) else Ok tokens
  end.

Definition parse_list_example (content : list Value) : result Error (list str) :=
  let? tokens := collect (parse_string_value ($"example tokens must be strings") InvalidExample) content in
  if is_empty tokens then Err (InvalidExample ($"example cannot be an empty list")) else Ok tokens.

Definition parse_example (v : Value) : result Error (list str) :=
  match unpack_str v with
  | Some raw => parse_string_example raw
  | None =>
      match list_content v with
      | Some content => parse_list_example content
      | None => Err (InvalidExample
          ($"example must be a string or list of strings (got " ++ get_type v ++ $")"))
      end
  end.
Definition parse_examples : list Value → result Error (list (list str)) := collect parse_example.
Definition parse_optional_examples (o : option (list Value)) : result Error (list (list str)) :=
  match o with Some items => parse_examples items | None => Ok [] end.

Definition parse_literal_absolute_path (raw : str) : result Error AbsolutePathBuf :=
  if negb (is_absolute raw)
  then Err (InvalidRule ($"host_executable paths must be absolute (got " ++ raw ++ $")"))
  else match absolute_try_from raw with
       | Some path => Ok path
       | None => Err (InvalidRule ($"invalid absolute path `" ++ raw ++ $"`: " ++ absolute_error raw))
       end.

Definition validate_host_executable_name (name : str) : result Error unit :=
  if is_empty name then Err (InvalidRule ($"host_executable name cannot be empty")) else
  if negb (component_count name =? 1) || negb (bool_decide (str_file_name name = Some name))
  then Err (InvalidRule ($"host_executable name must be a bare executable name (got " ++ name ++ $")"))
  else Ok tt.

Definition parse_network_rule_decision (raw : str) : result Error Decision :=
  if bool_decide (raw = $"deny") then Ok Forbidden else parse_decision raw.

Definition parse_justification (j : option str) : result Error (option str) :=
  match j with
  | Some raw => if is_empty (trim raw) then Err (InvalidRule ($"justification cannot be empty")) else Ok (Some raw)
  | None => Ok None
  end.

(** ** The built-in functions *)
Definition prefix_rule (b : PolicyBuilder) (pattern : list Value) (decision : option str)
    (match_ not_match : option (list Value)) (justification : option str) : result Error PolicyBuilder :=
  let? decision := match decision with Some raw => parse_decision raw | None => Ok Allow end in
  let? justification := parse_justification justification in
  let? pattern_tokens := parse_pattern pattern in
  let? matches := parse_optional_examples match_ in
  let? not_matches := parse_optional_examples not_match in
  match pattern_tokens with
  | [] => Err (InvalidPattern ($"pattern cannot be empty"))
  | first_token :: remaining_tokens =>
      let rules := (λ head, mkRule (mkPattern head remaining_tokens) decision justification)
                   <$> alternatives first_token in
      Ok (foldl add_rule (add_pending_example_validation b (mkPending rules matches not_matches)) rules)
  end.

Definition network_rule (b : PolicyBuilder) (host protocol decision : str) (justification : option str) : result Error PolicyBuilder :=
  let? protocol := parse_protocol protocol in
  let? decision := parse_network_rule_decision decision in
  let? justification := parse_justification justification in
  let? host := normalize_network_rule_host host in
  Ok (builder_add_network_rule b (mkNetworkRule host protocol decision justification)).

Definition parse_host_path (name : str) (parsed_paths : list AbsolutePathBuf) (v : Value) : result Error (list AbsolutePathBuf) :=
  let? raw := parse_string_value ($"host_executable paths must be strings") InvalidRule v in
  let? path := parse_literal_absolute_path raw in
  let bad_basename := Err (InvalidRule
    ($"host_executable path `" ++ raw ++ $"` must have basename `" ++ name ++ $"`")) in
  match executable_path_lookup_key windows path with
  | None => bad_basename
  | Some path_name =>
      if negb (bool_decide (path_name = executable_lookup_key windows name)) then bad_basename
      else if existsb (λ existing, bool_decide (existing = path)) parsed_paths then Ok parsed_paths
      else Ok (parsed_paths ++ [path])
  end.

Fixpoint parse_host_paths (name : str) (parsed_paths : list AbsolutePathBuf) (items : list Value) : result Error (list AbsolutePathBuf) :=
  match items with
  | [] => Ok parsed_paths
  | v :: items' => let? parsed := parse_host_path name parsed_paths v in parse_host_paths name parsed items'
  end.

Definition host_executable (b : PolicyBuilder) (name : str) (paths : list Value) : result Error PolicyBuilder :=
  let? _ := validate_host_executable_name name in
  let? parsed_paths := parse_host_paths name [] paths in
  Ok (add_host_executable b (executable_lookup_key windows name) parsed_paths).

(** ** Parsing a policy file

    Evaluating the file makes calls; the first one that fails ends it, and so
    may an error of the file's own. What was added before stays. *)
Inductive BuiltinCall : Type :=
| CallPrefixRule (pattern : list Value) (decision : option str) (match_ not_match : option (list Value)) (justification : option str)
| CallNetworkRule (host protocol decision : str) (justification : option str)
| CallHostExecutable (name : str) (paths : list Value).

Definition call_builtin (b : PolicyBuilder) (c : BuiltinCall) : result Error PolicyBuilder :=
  match c with
  | CallPrefixRule pattern decision m nm j => prefix_rule b pattern decision m nm j
  | CallNetworkRule host protocol decision j => network_rule b host protocol decision j
  | CallHostExecutable name paths => host_executable b name paths
  end.

Fixpoint eval_calls (b : PolicyBuilder) (calls : list BuiltinCall) : PolicyBuilder * result Error unit :=
  match calls with
  | [] => (b, Ok tt)
  | c :: calls' =>
      match call_builtin b c with
      | Ok b' => eval_calls b' calls'
      | Err e => (b, Err e)
      end
  end.

(** Errors of a built-in surface wrapped by the interpreter, as its own do. *)
Inductive PolicyError : Type :=
| Starlark (cause : str + Error)
| Invalid (e : Error).

(** [PolicyParser::parse]; [starlark] gives the calls a file makes and the
    error of the interpreter's own, if any, that it ends with. *)
Definition policy_parse (starlark : str → str → list BuiltinCall * option str)
    (b : PolicyBuilder) (policy_identifier contents : str) : PolicyBuilder * result PolicyError unit :=
  let pending_validation_count := length (pending_example_validations b) in
  let '(calls, failure) := starlark policy_identifier contents in
  match eval_calls b calls, failure with
  | (b', Err e), _ => (b', Err (Starlark (inr e)))
  | (b', Ok _), Some message => (b', Err (Starlark (inl message)))
  | (b', Ok _), None =>
      match validate_pending_examples_from b' pending_validation_count with
      | Ok u => (b', Ok u)
      | Err e => (b', Err (Invalid e))
      end
  end.

(** ** The builder's invariant *)
Definition justified (j : option str) : Prop := ∀ raw, j = Some raw → trim raw ≠ [].
Definition token_ok (t : PatternToken) : Prop :=
  match t with Single _ => True | Alts l => 2 ≤ length l end.
Definition rule_ok (r : PrefixRule) : Prop :=
  justified (justification r) ∧ Forall token_ok (rest (pattern r)).

Record builder_ok (b : PolicyBuilder) : Prop := {
  ok_rules : ∀ k r, r ∈ get_rules (b_rules_by_program b) k → rule_program r = k ∧ rule_ok r;
  ok_network : ∀ r, r ∈ b_network_rules b → normal_host (host r) ∧ justified (net_justification r);
  ok_hosts : ∀ name paths, b_host_executables_by_name b !! name = Some paths →
    NoDup paths ∧ ∀ q, q ∈ paths → executable_path_lookup_key windows q = Some name;
  ok_pending : ∀ v r, v ∈ pending_example_validations b → r ∈ pending_rules v →
    r ∈ get_rules (b_rules_by_program b) (rule_program r)
}.

Lemma collect_Ok {E A B} (f : A → result E B) l ys :
  collect f l = Ok ys → Forall2 (λ x y, f x = Ok y) l ys.
Proof.
  revert ys; induction l as [|x l IH]; intros ys; cbn [collect]; [by intros [= <-]|].
  destruct (f x) as [y|] eqn:Hx; [|done]; cbn [rbind].
  destruct (collect f l) as [ys'|]; [|done]; cbn [rbind]. intros [= <-]. eauto.
Qed.

Lemma parse_justification_Ok j j' : parse_justification j = Ok j' → j' = j ∧ justified j'.
Proof.
  unfold parse_justification. destruct j as [raw|]; [|by intros [= <-]].
  destruct (trim raw) as [|c t] eqn:Ht; [done|]. intros [= <-]. split; [done|].
  intros ? [= <-]. congruence.
Qed.

Lemma parse_pattern_token_ok v t : parse_pattern_token v = Ok t → token_ok t.
Proof.
  unfold parse_pattern_token. destruct (unpack_str v); [by intros [= <-]|].
  destruct (list_content v) as [content|]; [|done].
  destruct (collect _ content) as [[|t1 [|t2 ts]]|]; cbn [rbind]; try done.
  - by intros [= <-].
  - intros [= <-]. cbn. lia.
Qed.

Lemma parse_pattern_Ok items ts : parse_pattern items = Ok ts → Forall token_ok ts.
Proof.
  unfold parse_pattern. destruct (collect _ items) as [ts'|] eqn:Hc; [|done]; cbn [rbind].
  destruct (is_empty ts'); [done|]. intros [= <-]. apply collect_Ok in Hc.
  eapply Forall2_Forall_r; [exact Hc|]. apply Forall_true. intros v t. apply parse_pattern_token_ok.
Qed.

Lemma builder_new_ok : builder_ok builder_new.
Proof. constructor; cbn; intros *; unfold get_rules; rewrite ?lookup_empty; set_solver. Qed.

Lemma get_rules_add_rule b r k :
  get_rules (b_rules_by_program (add_rule b r)) k =
    get_rules (b_rules_by_program b) k ++ (if decide (rule_program r = k) then [r] else []).
Proof. apply get_rules_insert. Qed.

Lemma foldl_add_rule_rest rules b :
  b_network_rules (foldl add_rule b rules) = b_network_rules b ∧
  b_host_executables_by_name (foldl add_rule b rules) = b_host_executables_by_name b ∧
  pending_example_validations (foldl add_rule b rules) = pending_example_validations b.
Proof. revert b; induction rules as [|r rules IH]; intros b; [done|]. apply (IH (add_rule b r)). Qed.

Lemma elem_of_foldl_add_rule rules b k r :
  r ∈ get_rules (b_rules_by_program (foldl add_rule b rules)) k ↔
  r ∈ get_rules (b_rules_by_program b) k ∨ (r ∈ rules ∧ rule_program r = k).
Proof.
  revert b; induction rules as [|r' rules IH]; intros b; cbn [foldl]; [set_solver|].
  rewrite IH, get_rules_add_rule, elem_of_app, elem_of_cons. case_decide as Hk; [subst|].
  - rewrite list_elem_of_singleton. naive_solver.
  - set_solver.
Qed.

Lemma prefix_rule_ok b b' pat d m nm j :
  builder_ok b → prefix_rule b pat d m nm j = Ok b' → builder_ok b'.
Proof.
  intros [Hr Hn Hh Hp]. unfold prefix_rule.
  destruct (match d with Some _ => _ | None => _ end) as [d'|]; [|done]; cbn [rbind].
  destruct (parse_justification j) as [j'|] eqn:Hj; [|done]; cbn [rbind].
  apply parse_justification_Ok in Hj as [-> Hj].
  destruct (parse_pattern pat) as [ts|] eqn:Hpat; [|done]; cbn [rbind]. apply parse_pattern_Ok in Hpat.
  destruct (parse_optional_examples m) as [ms|]; [|done]; cbn [rbind].
  destruct (parse_optional_examples nm) as [nms|]; [|done]; cbn [rbind].
  destruct ts as [|t ts]; [done|]. intros [= <-]. apply Forall_cons in Hpat as [_ Hts].
  set (rules := _ <$> _). set (b0 := add_pending_example_validation _ _).
  destruct (foldl_add_rule_rest rules b0) as (En & Eh & Ep).
  assert (Hrules : ∀ r, r ∈ rules → rule_ok r).
  { intros r (head & -> & _)%list_elem_of_fmap. done. }
  constructor.
  - intros k r [Hold|[Hin Hk]]%elem_of_foldl_add_rule; [by apply Hr|]. eauto.
  - rewrite En. apply Hn.
  - rewrite Eh. apply Hh.
  - rewrite Ep. intros v r Hv Hin. apply elem_of_foldl_add_rule.
    cbn in Hv. apply elem_of_app in Hv as [Hv|Hv]; [left; by eapply Hp|].
    apply list_elem_of_singleton in Hv as ->. by right.
Qed.

Lemma network_rule_ok b b' h pr d j :
  builder_ok b → network_rule b h pr d j = Ok b' → builder_ok b'.
Proof.
  intros [Hr Hn Hh Hp]. unfold network_rule.
  destruct (parse_protocol pr) as [pr'|]; [|done]; cbn [rbind].
  destruct (parse_network_rule_decision d) as [d'|]; [|done]; cbn [rbind].
  destruct (parse_justification j) as [j'|] eqn:Hj; [|done]; cbn [rbind].
  apply parse_justification_Ok in Hj as [-> Hj].
  destruct (normalize_network_rule_host h) as [h'|] eqn:Hnorm; [|done]; cbn [rbind].
  intros [= <-]. constructor; [done| |done|done].
  cbn. intros r [Hold| ->%list_elem_of_singleton]%elem_of_app; [by apply Hn|].
  split; [by eapply normalize_host_normal|done].
Qed.

Definition host_paths_ok (name : str) (paths : list AbsolutePathBuf) : Prop :=
  NoDup paths ∧ ∀ q, q ∈ paths → executable_path_lookup_key windows q = Some (executable_lookup_key windows name).

Lemma parse_host_path_ok name acc v acc' :
  host_paths_ok name acc → parse_host_path name acc v = Ok acc' → host_paths_ok name acc'.
Proof.
  intros [Hnd Hall]. unfold parse_host_path.
  destruct (parse_string_value _ _ v) as [raw|]; [|done]; cbn [rbind].
  destruct (parse_literal_absolute_path raw) as [path|]; [|done]; cbn [rbind].
  destruct (executable_path_lookup_key windows path) as [path_name|] eqn:Hk; [|done].
  destruct (bool_decide _) eqn:Hb; [|done]; cbn [negb]. apply bool_decide_eq_true in Hb as ->.
  destruct (existsb _ acc) eqn:Hx; intros [= <-]; [done|].
  assert (path ∉ acc).
  { intros Hin. apply not_true_iff_false in Hx. apply Hx, existsb_exists. exists path.
    split; [by apply list_elem_of_In|by apply bool_decide_eq_true]. }
  split.
  - apply NoDup_app. split; [done|]. split; [set_solver|apply NoDup_singleton].
  - intros q [Hq| ->%list_elem_of_singleton]%elem_of_app; auto.
Qed.

Lemma parse_host_paths_ok name items acc acc' :
  host_paths_ok name acc → parse_host_paths name acc items = Ok acc' → host_paths_ok name acc'.
Proof.
  revert acc; induction items as [|v items IH]; intros acc Hacc; cbn [parse_host_paths]; [by intros [= <-]|].
  destruct (parse_host_path name acc v) as [acc1|] eqn:H1; [|done]; cbn [rbind].
  apply IH. by eapply parse_host_path_ok.
Qed.

Lemma host_executable_ok b b' name paths :
  builder_ok b → host_executable b name paths = Ok b' → builder_ok b'.
Proof.
  intros [Hr Hn Hh Hp]. unfold host_executable.
  destruct (validate_host_executable_name name); [|done]; cbn [rbind].
  destruct (parse_host_paths name [] paths) as [parsed|] eqn:Hpp; [|done]; cbn [rbind].
  intros [= <-]. constructor; [done|done| |done]. cbn. intros n ps.
  destruct (decide (n = executable_lookup_key windows name)) as [->|Hne].
  - rewrite lookup_insert_eq. intros [= <-].
    eapply parse_host_paths_ok; [|exact Hpp]. split; [constructor|set_solver].
  - rewrite lookup_insert_ne by done. apply Hh.
Qed.

Lemma call_builtin_ok b b' c : builder_ok b → call_builtin b c = Ok b' → builder_ok b'.
Proof. destruct c; cbn; eauto using prefix_rule_ok, network_rule_ok, host_executable_ok. Qed.

Lemma eval_calls_ok calls b : builder_ok b → builder_ok (eval_calls b calls).1.
Proof.
  revert b; induction calls as [|c calls IH]; intros b Hb; cbn [eval_calls]; [done|].
  destruct (call_builtin b c) eqn:Hc; [|done]. by eapply IH, call_builtin_ok.
Qed.

Lemma policy_parse_fst starlark b id contents :
  (policy_parse starlark b id contents).1 = (eval_calls b (starlark id contents).1).1.
Proof.
  unfold policy_parse. destruct (starlark id contents) as [calls failure]; cbn [fst].
  destruct (eval_calls b calls) as [b' [u|e]]; [|done].
  destruct failure; [done|]. by destruct (validate_pending_examples_from _ _).
Qed.

(** C40: Whatever policy files are parsed, and whether or not they fail, the
    policy that is built files each rule under its own program, with patterns
    whose alternatives are real choices; network rules have normalised hosts;
    justifications are never blank; host executables are listed once each under
    the base name they resolve to. *)
Theorem parsed_policies_ok starlark (files : list (str * str)) :
  builder_ok (foldl (λ b file, (policy_parse starlark b file.1 file.2).1) builder_new files).
Proof.
  generalize builder_new_ok. generalize builder_new as b.
  induction files as [|[id contents] files IH]; intros b Hb; cbn [foldl fst snd]; [done|].
  apply IH. rewrite policy_parse_fst. by apply eval_calls_ok.
Qed.
(** ** Examples *)
Lemma get_rules_validation b v k r :
  r ∈ get_rules (rules_by_program (validation_policy b v)) k ↔ r ∈ pending_rules v ∧ rule_program r = k.
Proof.
  cbn [validation_policy rules_by_program].
  assert (H : ∀ m, r ∈ get_rules (foldl (λ m r, multimap_insert (rule_program r) r m) m (pending_rules v)) k ↔
    r ∈ get_rules m k ∨ (r ∈ pending_rules v ∧ rule_program r = k)).
  { induction (pending_rules v) as [|r' rules IH]; intros m; cbn [foldl]; [set_solver|].
    rewrite IH, get_rules_insert, elem_of_app, elem_of_cons. case_decide as Hk; [subst|].
    - rewrite list_elem_of_singleton. naive_solver.
    - set_solver. }
  rewrite H. unfold get_rules at 1. rewrite lookup_empty. set_solver.
Qed.

Lemma validate_match_Ok p rules examples ex :
  validate_match_examples windows show_rule try_join p rules examples = Ok tt → ex ∈ examples →
  policy_matches windows p ex (mkMatchOptions true) ≠ [].
Proof.
  unfold validate_match_examples. destruct (is_empty _) eqn:He; [|done]. intros _ Hin Hnil.
  assert (Hf : ex ∈ List.filter (λ ex, is_empty
    (matches_for_command_with_options windows p ex None (mkMatchOptions true))) examples).
  { apply list_elem_of_In, filter_In. split; [by apply list_elem_of_In|].
    unfold matches_for_command_with_options. by rewrite Hnil. }
  by destruct (List.filter _ examples); [apply elem_of_nil in Hf|].
Qed.

Lemma validate_not_match_Ok p examples ex :
  validate_not_match_examples windows show_match try_join p examples = Ok tt → ex ∈ examples →
  policy_matches windows p ex (mkMatchOptions true) = [].
Proof.
  induction examples as [|e examples IH]; cbn [validate_not_match_examples]; [set_solver|].
  unfold matches_for_command_with_options at 1.
  destruct (policy_matches windows p e _) eqn:He; cbn [is_empty]; [|done].
  intros Hrest [->|Hin]%elem_of_cons; [done|]. by apply IH.
Qed.

Lemma validate_pending_Ok b vs v :
  validate_pending b vs = Ok tt → v ∈ vs →
  validate_not_match_examples windows show_match try_join (validation_policy b v) (pending_not_matches v) = Ok tt ∧
  validate_match_examples windows show_rule try_join (validation_policy b v) (pending_rules v) (pending_matches v) = Ok tt.
Proof.
  induction vs as [|w vs IH]; cbn [validate_pending]; [set_solver|].
  destruct (validate_not_match_examples _ _ _ _ (pending_not_matches w)) as [[]|] eqn:Hnm; [|done]; cbn [rbind].
  destruct (validate_match_examples _ _ _ _ _ (pending_matches w)) as [[]|] eqn:Hm; [|done]; cbn [rbind].
  intros Hrest [->|Hin]%elem_of_cons; [done|]. by apply IH.
Qed.

(** Matching only depends on which rules there are, and more rules match more. *)
Lemma omap_ne_mono {A B} (g : A → option B) l l' :
  (∀ x, x ∈ l → x ∈ l') → omap g l ≠ [] → omap g l' ≠ [].
Proof.
  intros Hsub Hne. destruct (omap g l) as [|y ys] eqn:Hl; [done|].
  assert (Hy : y ∈ omap g l) by (rewrite Hl; left).
  apply list_elem_of_omap in Hy as (x & Hx & Hgx). intros Hnil.
  assert (Hy' : y ∈ omap g l') by (apply list_elem_of_omap; eauto).
  rewrite Hnil in Hy'. by apply elem_of_nil in Hy'.
Qed.

Lemma fmap_nil_iff {A B} (g : A → B) l : g <$> l = [] ↔ l = [].
Proof. by destruct l. Qed.

Lemma exact_matches_mono p p' cmd :
  (∀ k r, r ∈ rules_of p k → r ∈ rules_of p' k) → exact_matches p cmd ≠ [] → exact_matches p' cmd ≠ [].
Proof. intros Hsub. destruct cmd as [|w ws]; [done|]. rewrite !exact_matches_cons. apply omap_ne_mono, Hsub. Qed.

Lemma host_matches_mono p p' cmd :
  (∀ k r, r ∈ rules_of p k → r ∈ rules_of p' k) →
  host_executables_by_name p = host_executables_by_name p' →
  match_host_executable_rules windows p cmd ≠ [] → match_host_executable_rules windows p' cmd ≠ [].
Proof.
  intros Hsub Hhost. destruct cmd as [|w ws]; [done|]. cbn [match_host_executable_rules].
  destruct (absolute_try_from w) as [program|]; [|done].
  destruct (executable_path_lookup_key windows program) as [base|]; [|done].
  destruct (rules_by_program p !! base) as [rules|] eqn:Hr; [|done].
  rewrite Hhost. destruct (match host_executables_by_name p' !! base with Some _ => _ | None => _ end) eqn:Hlist; [done|].
  rewrite fmap_nil_iff. specialize (Hsub base). unfold rules_of, get_rules in Hsub. rewrite Hr in Hsub.
  intros Hne. destruct (rules_by_program p' !! base) as [rules'|]; cbn in Hsub.
  - rewrite fmap_nil_iff. by eapply omap_ne_mono.
  - exfalso. apply Hne. destruct rules as [|r rules]; [done|].
    specialize (Hsub r). rewrite elem_of_nil in Hsub. exfalso. apply Hsub. left.
Qed.

Lemma policy_matches_mono p p' cmd :
  (∀ k r, r ∈ rules_of p k → r ∈ rules_of p' k) →
  host_executables_by_name p = host_executables_by_name p' →
  policy_matches windows p cmd (mkMatchOptions true) ≠ [] →
  policy_matches windows p' cmd (mkMatchOptions true) ≠ [].
Proof.
  intros Hsub Hhost. unfold policy_matches. fold (exact_matches p cmd) (exact_matches p' cmd).
  pose proof (exact_matches_mono p p' cmd Hsub) as Hex.
  destruct (exact_matches p cmd) as [|m ms]; cbn.
  - destruct (exact_matches p' cmd); cbn; [|done]. by apply host_matches_mono.
  - intros _. destruct (exact_matches p' cmd); [by destruct Hex|done].
Qed.

(** When a policy file parses without error, every example that one of its
    rules says must match is matched by the policy built so far, and none of
    the examples that must not match is matched by the rules of its own call. *)
Theorem parsed_examples_hold starlark b id contents b' v :
  builder_ok b →
  policy_parse starlark b id contents = (b', Ok tt) →
  v ∈ drop (length (pending_example_validations b)) (pending_example_validations b') →
  (∀ ex, ex ∈ pending_matches v → policy_matches windows (build b') ex (mkMatchOptions true) ≠ []) ∧
  (∀ ex r, ex ∈ pending_not_matches v → r ∈ pending_rules v → rule_matches r ex = None).
Proof.
  intros Hb Hparse Hv.
  assert (Hb' : builder_ok b').
  { replace b' with (policy_parse starlark b id contents).1 by (by rewrite Hparse).
    rewrite policy_parse_fst. by apply eval_calls_ok. }
  assert (Hval : validate_pending_examples_from b' (length (pending_example_validations b)) = Ok tt).
  { revert Hparse. unfold policy_parse. destruct (starlark id contents) as [calls failure].
    destruct (eval_calls b calls) as [b1 [u|e]]; [|done]. destruct failure; [done|].
    destruct (validate_pending_examples_from b1 _) as [[]|] eqn:He; [|done]. by intros [= <-]. }
  destruct (validate_pending_Ok _ _ _ Hval Hv) as [Hnm Hm].
  assert (Hpend : v ∈ pending_example_validations b').
  { eapply elem_of_subseteq; [|exact Hv]. apply subseteq_drop. }
  split.
  - intros ex Hex. eapply policy_matches_mono; [| |by eapply validate_match_Ok]; [|done].
    intros k r [Hr <-]%get_rules_validation. by eapply (ok_pending _ Hb').
  - intros ex r Hex Hr. pose proof (validate_not_match_Ok _ _ _ Hnm Hex) as Hnil.
    destruct ex as [|w ws]; [done|].
    destruct (rule_matches r (w :: ws)) as [m|] eqn:Hrm; [|done]. exfalso. revert Hnil.
    unfold policy_matches. fold (exact_matches (validation_policy b' v) (w :: ws)).
    destruct (exact_matches (validation_policy b' v) (w :: ws)) as [|m' ms'] eqn:He; [intros _|done].
    assert (Hm' : m ∈ exact_matches (validation_policy b' v) (w :: ws)).
    { rewrite exact_matches_cons. apply list_elem_of_omap. exists r. split; [|done].
      apply get_rules_validation. split; [done|]. unfold rule_matches in Hrm.
      destruct (matches_prefix (pattern r) (w :: ws)) as [pre|] eqn:Hp; [|done].
      by apply matches_prefix_iff in Hp as (? & ? & [= -> _] & _). }
    rewrite He in Hm'. by apply elem_of_nil in Hm'.
Qed.
End builder.

(** ** Listings: sorted texts *)

(** [Vec::dedup]: drops an element equal to the next kept one. *)
Fixpoint dedup {A} `{EqDecision A} (l : list A) : list A :=
  match l with
  | [] => []
  | x :: l' =>
      match dedup l' with
      | y :: t => if decide (x = y) then y :: t else x :: y :: t
      | [] => [x]
      end
  end.

Lemma elem_of_dedup {A} `{EqDecision A} (l : list A) x : x ∈ dedup l ↔ x ∈ l.
Proof.
  induction l as [|y l IH]; cbn; [done|].
  destruct (dedup l) as [|z t]; [set_solver|]. case_decide; set_solver.
Qed.

(** Sorted without repetition. *)
Lemma dedup_strict {A} `{EqDecision A} (R : relation A) `{!AntiSymm (=) R} (l : list A) :
  StronglySorted R l → StronglySorted (λ a b, R a b ∧ a ≠ b) (dedup l).
Proof.
  induction 1 as [|x l Hs IH Hall]; cbn; [constructor|].
  assert (Hle : ∀ y, y ∈ dedup l → R x y).
  { intros y Hy. rewrite elem_of_dedup in Hy. rewrite Forall_forall in Hall. auto. }
  destruct (dedup l) as [|z t] eqn:Hd; [repeat constructor|].
  case_decide as Hxz; [done|]. constructor; [done|]. apply Forall_forall. intros y Hy.
  split; [by apply Hle|]. intros <-. apply StronglySorted_inv in IH as [_ Hz].
  apply elem_of_cons in Hy as [->|Hy]; [done|].
  rewrite Forall_forall in Hz. destruct (Hz _ Hy) as [Hzx _]. apply Hxz.
  apply (anti_symm R); [apply Hle; left|done].
Qed.

Section listings.
Context {AP : AbsolutePaths} (show_rule : PrefixRule → str).

Definition render_pattern_token (t : PatternToken) : str :=
  match t with
  | Single value => value
  | Alts alternatives => $"[" ++ join ($"|") alternatives ++ $"]"
  end.

Definition render_prefix (r : PrefixRule) : list str :=
  first (pattern r) :: (render_pattern_token <$> rest (pattern r)).

(** [iter_all] visits the programs in an order of the map's own. *)
Definition all_rules (p : Policy) : list (str * PrefixRule) :=
  map_to_list (rules_by_program p) ≫= λ '(program, rules), pair program <$> rules.

Definition get_allowed_prefixes (p : Policy) : list (list str) :=
  dedup (merge_sort vec_le
    (render_prefix <$> List.filter (λ r, bool_decide (rule_decision r = Allow)) (snd <$> all_rules p))).

(** [RequirementsExecPolicy::fingerprint] *)
Definition fingerprint_entries (p : Policy) : list str :=
  (λ '(program, r), program ++ $":" ++ show_rule r) <$> all_rules p.
Definition fingerprint (p : Policy) : list str := merge_sort str_le (fingerprint_entries p).

Lemma elem_of_all_rules p k r : (k, r) ∈ all_rules p ↔ r ∈ rules_of p k.
Proof.
  unfold all_rules, rules_of, get_rules. rewrite list_elem_of_bind. split.
  - intros ([k' rules] & Hin & Hm). apply list_elem_of_fmap in Hin as (r' & [= -> ->] & Hr).
    apply elem_of_map_to_list in Hm as ->. done.
  - destruct (rules_by_program p !! k) as [rules|] eqn:Hk; [|by intros ?%elem_of_nil].
    intros Hr. exists (k, rules). split; [by apply list_elem_of_fmap_2|by apply elem_of_map_to_list].
Qed.

(** The allowed prefixes are listed in strictly increasing order (so without
    repetition), and they are the renderings of exactly the allow rules. *)
Theorem get_allowed_prefixes_spec p :
  StronglySorted (λ a b, vec_le a b ∧ a ≠ b) (get_allowed_prefixes p) ∧
  ∀ prefix, prefix ∈ get_allowed_prefixes p ↔
    ∃ program r, r ∈ rules_of p program ∧ rule_decision r = Allow ∧ prefix = render_prefix r.
Proof.
  split.
  - unfold vec_le, str_le. apply (dedup_strict _), (StronglySorted_merge_sort _).
  - intros prefix. unfold get_allowed_prefixes. rewrite elem_of_dedup, merge_sort_Permutation, list_elem_of_fmap.
    setoid_rewrite list_elem_of_In at 1. setoid_rewrite filter_In.
    setoid_rewrite <-list_elem_of_In. setoid_rewrite list_elem_of_fmap.
    setoid_rewrite bool_decide_eq_true. split.
    + intros (r & -> & ([program r'] & -> & Hin) & Hd). exists program, r'. by rewrite <-elem_of_all_rules.
    + intros (program & r & Hr%elem_of_all_rules & Hd & ->). exists r. split; [done|]. split; [|done].
      by exists (program, r).
Qed.

(** Two requirement policies are equal exactly when their rules are the
    same up to order. *)
Theorem fingerprint_order_independent p q :
  fingerprint p = fingerprint q ↔ fingerprint_entries p ≡ₚ fingerprint_entries q.
Proof.
  unfold fingerprint. split.
  - intros Heq. by rewrite <-(merge_sort_Permutation str_le (fingerprint_entries p)), Heq, merge_sort_Permutation.
  - intros Hperm. unfold str_le. apply (StronglySorted_unique (lex_le N.le));
      [apply (StronglySorted_merge_sort _)..|]. by rewrite !merge_sort_Permutation.
Qed.
End listings.

(** ** Amendments: the lines appended to a policy file

    The file's contents are a text; opening, locking and writing the file are
    the operating system's. *)
Inductive AmendError : Type :=
| EmptyPrefix
| InvalidNetworkRule (error : Error).

Definition append_locked_line (contents line : str) : str :=
  if existsb (λ existing, bool_decide (existing = line)) (lines contents) then contents
  else (if negb (is_empty contents) && negb (ends_with [LF] contents) then contents ++ [LF] else contents)
       ++ line ++ [LF].

Section amend.
(** [serde_json::to_string] of a string. *)
Context (to_json : str → str).

Definition blocking_append_allow_prefix_rule (contents : str) (prefix : list str) : result AmendError str :=
  if is_empty prefix then Err EmptyPrefix else
  let pattern := $"[" ++ join ($", ") (to_json <$> prefix) ++ $"]" in
  Ok (append_locked_line contents
        ($"prefix_rule(pattern=" ++ pattern ++ $", decision=" ++ [34%N] ++ $"allow" ++ [34%N] ++ $")")).

Definition amend_decision (d : Decision) : str :=
  match d with Allow => $"allow" | Prompt => $"prompt" | Forbidden => $"deny" end.

Definition blocking_append_network_rule (contents host : str) (protocol : NetworkRuleProtocol)
    (d : Decision) (justification : option str) : result AmendError str :=
  match normalize_network_rule_host host with
  | Err e => Err (InvalidNetworkRule e)
  | Ok host =>
      if match justification with Some raw => is_empty (trim raw) | None => false end
      then Err (InvalidNetworkRule (InvalidRule ($"justification cannot be empty")))
      else
        let args := [ $"host=" ++ to_json host; $"protocol=" ++ to_json (as_policy_string protocol);
                      $"decision=" ++ to_json (amend_decision d)]
                    ++ match justification with
                       | Some j => [ $"justification=" ++ to_json j]
                       | None => []
                       end in
        Ok (append_locked_line contents ($"network_rule(" ++ join ($", ") args ++ $")"))
  end.
End amend.

Lemma lines_from_app_LF cur (s t : str) :
  lines_from cur (s ++ LF :: t) = lines_from cur (s ++ [LF]) ++ lines t.
Proof.
  revert cur; induction s as [|c s IH]; intros cur; cbn [app lines_from].
  - rewrite decide_True by done. by destruct (decide (LF = LF)).
  - case_decide; [|apply IH]. by rewrite IH.
Qed.

Lemma lines_from_snoc_LF cur (s : str) :
  last s ≠ Some LF → last (cur ++ s) ≠ Some CR → cur ++ s ≠ [] →
  lines_from cur (s ++ [LF]) = lines_from cur s.
Proof.
  revert cur; induction s as [|c s IH]; intros cur Hlf Hcr Hne; cbn [app lines_from].
  - rewrite decide_True by done. rewrite app_nil_r in *. rewrite strip_cr_id by done. by destruct cur.
  - rewrite last_app, last_cons in Hcr. rewrite last_cons in Hlf.
    case_decide as Hc; [f_equal|].
    + destruct s as [|d s]; [by subst|]. apply IH; [|cbn [app]|done].
      * by destruct (last (d :: s)).
      * by destruct (last (d :: s)).
    + apply IH; [by destruct (last s)| |by destruct cur].
      rewrite !last_app. cbn [last]. by destruct (last s).
Qed.

Lemma append_line_lines contents line :
  plain_line line → last contents ≠ Some CR → line ∉ lines contents →
  lines (append_locked_line contents line) = lines contents ++ [line].
Proof.
  intros [Hlf Hcr] Hlast Hnew. unfold append_locked_line.
  destruct (existsb _ _) eqn:Hx.
  { destruct Hnew. apply existsb_exists in Hx as (l & Hl & ->%bool_decide_eq_true). by apply list_elem_of_In. }
  assert (Hline : lines (line ++ [LF]) = [line]).
  { unfold lines. rewrite lines_from_line by done. by rewrite strip_cr_id. }
  destruct contents as [|c contents]; [exact Hline|]. cbn [is_empty negb andb].
  set (s := c :: contents) in *.
  assert (Hstep : ∀ t, lines (s ++ [LF] ++ t) = lines (s ++ [LF]) ++ lines t).
  { intros t. apply lines_from_app_LF. }
  destruct (ends_with [LF] s) eqn:He; cbn [negb].
  - destruct (last_cases s) as [?|(l & x & Hs)]; [done|]. rewrite Hs in *.
    assert (x = LF) as ->.
    { unfold ends_with, strip_suffix in He. rewrite reverse_app in He. cbn in He. by case_decide. }
    unfold lines. rewrite <-app_assoc. cbn [app]. rewrite lines_from_app_LF, Hline. done.
  - rewrite <-app_assoc, Hstep, Hline. f_equal. apply lines_from_snoc_LF; [|done|done].
    intros (l & ->)%last_Some_snoc. unfold ends_with, strip_suffix in He.
    rewrite reverse_app in He. done.
Qed.

(** Appending a rule line to a policy file keeps every line that is there,
    adds the line at the end unless the file already has it, and appending it
    again changes nothing. *)
Theorem append_locked_line_spec contents line :
  plain_line line → last contents ≠ Some CR →
  lines (append_locked_line contents line) =
    (if decide (line ∈ lines contents) then lines contents else lines contents ++ [line]) ∧
  append_locked_line (append_locked_line contents line) line = append_locked_line contents line.
Proof.
  intros Hplain Hcr.
  assert (Hid : ∀ s, line ∈ lines s → append_locked_line s line = s).
  { intros s Hin. unfold append_locked_line. destruct (existsb _ _) eqn:Hx; [done|].
    exfalso. apply not_true_iff_false in Hx. apply Hx, existsb_exists. exists line.
    split; [by apply list_elem_of_In|by apply bool_decide_eq_true]. }
  case_decide as Hin.
  - by rewrite !Hid.
  - pose proof (append_line_lines _ _ Hplain Hcr Hin) as Hl. split; [exact Hl|]. apply Hid. rewrite Hl. set_solver.
Qed.

(** ** Instances *)
Inductive script_value : Type :=
| VStr (s : str)
| VList (l : list script_value).
Definition script_values : StarlarkValues := {|
  Value := script_value;
  unpack_str := λ v, match v with VStr s => Some s | VList _ => None end;
  list_content := λ v, match v with VStr _ => None | VList l => Some l end;
  get_type := λ v, match v with VStr _ => $"string" | VList _ => $"list" end
|}.
Definition unix_std_paths : StdPaths := {|
  is_absolute := starts_with ($"/");
  component_count := λ s, length (List.filter (λ c, negb (is_empty c)) (split_char 47 s));
  str_file_name := unix_file_name
|}.
Definition split_words (s : str) : option (list str) :=
  Some (List.filter (λ w, negb (is_empty w)) (split_char SPACE s)).
Definition show_nothing {A} (_ : A) : str := [].
Definition join_words (ws : list str) : option str := Some (join [SPACE] ws).

(** [prefix_rule(pattern=["git", ["push", "fetch"]], decision="prompt",
    match=["git push"], not_match=["git status"])] *)
Definition demo_script (_ _ : str) : list (@BuiltinCall script_values) * option str :=
  ([@CallPrefixRule script_values [VStr ($"git"); VList [VStr ($"push"); VStr ($"fetch")]] (Some ($"prompt"))
      (Some [VStr ($"git push")]) (Some [VStr ($"git status")]) None], None).
Definition demo_parse : @PolicyBuilder unix_paths * result PolicyError unit :=
  @policy_parse unix_paths script_values unix_std_paths false split_words show_nothing show_nothing show_nothing
    join_words demo_script builder_new [] [].

Lemma parsed_examples_hold_witness :
  policy_matches (AP := unix_paths) false (build demo_parse.1) [ $"git"; $"push"] (mkMatchOptions true) ≠ [].
Proof.
  refine (proj1 (@parsed_examples_hold unix_paths script_values unix_std_paths false split_words show_nothing
    show_nothing show_nothing join_words demo_script builder_new [] [] demo_parse.1
    (mkPending [mkRule (mkPattern ($"git") [Alts [ $"push"; $"fetch"]]) Prompt None]
       [[ $"git"; $"push"]] [[ $"git"; $"status"]]) _ _ _) _ _).
  - apply builder_new_ok.
  - vm_compute. reflexivity.
  - vm_compute. left.
  - left.
Defined.

Lemma append_locked_line_spec_witness :
  lines (append_locked_line ($"a") ($"b")) = [ $"a"; $"b"] ∧
  append_locked_line (append_locked_line ($"a") ($"b")) ($"b") = append_locked_line ($"a") ($"b").
Proof.
  refine (append_locked_line_spec ($"a") ($"b") _ _).
  - split; [|done]. apply (bool_decide_unpack _). vm_compute. exact I.
  - done.
Defined.
