(* ===== verification/HeadTail.v ===== *)
(** * The capped output buffer: [core/src/unified_exec/head_tail_buffer.rs]

    A buffer that keeps the first half and the last half of its capacity of the
    bytes pushed to it and counts what it drops in between. It refines
    [summary], the function of the whole output. *)

From stdpp Require Import prelude list strings.
From S2P Require Import Prelude.

Abbreviation byte := N.

(** The last [n] elements. *)
Definition lastn {A} (n : nat) (l : list A) : list A := drop (length l - n) l.

Record HeadTailBuffer := mkBuffer {
  head : list byte;
  tail : list byte;
  omitted_bytes : N
}.
(** The derived [Default]. *)
Definition empty_buffer : HeadTailBuffer := mkBuffer [] [] 0.

Section buffer.
(** The capacity, a const parameter of the type. *)
Context (MAX_BYTES : nat).

Definition HEAD_BUDGET : nat := MAX_BYTES / 2.
Definition TAIL_BUDGET : nat := MAX_BYTES - HEAD_BUDGET.

Definition retained_bytes (b : HeadTailBuffer) : N :=
  saturating_add (N.of_nat (length (head b))) (N.of_nat (length (tail b))).
Definition total_bytes (b : HeadTailBuffer) : N :=
  saturating_add (retained_bytes b) (omitted_bytes b).

(** Fills the head and returns the bytes that did not fit. *)
Definition fill_head (b : HeadTailBuffer) (chunk : list byte) : HeadTailBuffer * list byte :=
  let remaining_head := HEAD_BUDGET - length (head b) in
  let '(chunk_head, chunk_tail) :=
    if decide (remaining_head ≤ length chunk) then (take remaining_head chunk, drop remaining_head chunk)
    else (chunk, []) in
  (mkBuffer (head b ++ chunk_head) (tail b) (omitted_bytes b), chunk_tail).

Definition push_tail (b : HeadTailBuffer) (chunk : list byte) : HeadTailBuffer :=
  let remaining_tail := TAIL_BUDGET - length (tail b) in
  let excess_tail := length chunk - remaining_tail in
  let omitted := saturating_add (omitted_bytes b) (N.of_nat excess_tail) in
  match checked_sub excess_tail (length (tail b)) with
  | None => mkBuffer (head b) (drop excess_tail (tail b) ++ chunk) omitted
  | Some skip => mkBuffer (head b) ([] ++ drop skip chunk) omitted
  end.

Definition push_chunk (b : HeadTailBuffer) (chunk : list byte) : HeadTailBuffer :=
  let '(b, chunk) := fill_head b chunk in
  push_tail b chunk.

Definition to_bytes (b : HeadTailBuffer) : list byte := head b ++ tail b.

Definition format_output_omission_marker (omitted : N) : str :=
  $"... " ++ fmt_N omitted ++ $" bytes omitted ...".

Definition to_bytes_with_omission_marker (b : HeadTailBuffer) : list byte :=
  if (omitted_bytes b =? 0)%N then to_bytes b
  else head b ++ [LF] ++ format_output_omission_marker (omitted_bytes b) ++ [LF] ++ tail b.

(** [at_] is where the ring buffer of the source tail wraps: [as_slices] cuts
    it there. *)
Definition push_buffer (b buffer : HeadTailBuffer) (at_ : nat) : HeadTailBuffer :=
  let b := mkBuffer (head b) (tail b) (saturating_add (omitted_bytes b) (omitted_bytes buffer)) in
  let '(b, overflow) :=
    if is_empty (head b) then (mkBuffer (head buffer) (tail b) (omitted_bytes b), [])
    else fill_head b (head buffer) in
  if decide (length (tail buffer) = TAIL_BUDGET) then
    mkBuffer (head b) (tail buffer)
      (saturating_add (saturating_add (omitted_bytes b) (N.of_nat (length (tail b))))
         (N.of_nat (length overflow)))
  else
    let b := push_tail b overflow in
    if is_empty (tail b) then mkBuffer (head b) (tail buffer) (omitted_bytes b)
    else
      let '(first, second) := (take at_ (tail buffer), drop at_ (tail buffer)) in
      push_tail (push_tail b first) second.

(** ** The specification: what the buffer says of the whole output *)
Definition summary (output : list byte) : HeadTailBuffer :=
  mkBuffer (take HEAD_BUDGET output) (lastn TAIL_BUDGET (drop HEAD_BUDGET output))
    (N.min (N.of_nat (length output - MAX_BYTES)) USIZE_MAX).

Lemma budgets : HEAD_BUDGET + TAIL_BUDGET = MAX_BYTES ∧ HEAD_BUDGET ≤ TAIL_BUDGET.
Proof.
  unfold TAIL_BUDGET, HEAD_BUDGET.
  pose proof (Nat.div_mod_eq MAX_BYTES 2). pose proof (Nat.mod_upper_bound MAX_BYTES 2). lia.
Qed.

Lemma length_lastn {A} n (l : list A) : length (lastn n l) = min n (length l).
Proof. unfold lastn. rewrite length_drop. lia. Qed.

Lemma lastn_app_lastn {A} n (u c : list A) : lastn n (lastn n u ++ c) = lastn n (u ++ c).
Proof.
  unfold lastn. rewrite !length_app, length_drop.
  rewrite <-(drop_app_le u c (length u - n)) by lia. rewrite drop_drop. f_equal. lia.
Qed.

Lemma lastn_app_long {A} n (u v : list A) : n ≤ length v → lastn n (u ++ v) = lastn n v.
Proof.
  intros. unfold lastn. rewrite length_app, drop_app_ge by lia. f_equal. lia.
Qed.

Lemma lastn_all {A} n (l : list A) : length l ≤ n → lastn n l = l.
Proof. intros. unfold lastn. by replace (length l - n) with 0 by lia. Qed.

(** A count as the saturating additions accumulate it. *)
Definition sat (n : nat) : N := N.min (N.of_nat n) USIZE_MAX.

Lemma sat_add (a b : nat) : saturating_add (sat a) (N.of_nat b) = sat (a + b).
Proof. unfold saturating_add, sat. lia. Qed.
Lemma sat_sat (a b : nat) : saturating_add (sat a) (sat b) = sat (a + b).
Proof. unfold saturating_add, sat. lia. Qed.

Lemma push_tail_spec h (u c : list byte) :
  push_tail (mkBuffer h (lastn TAIL_BUDGET u) (sat (length u - TAIL_BUDGET))) c =
  mkBuffer h (lastn TAIL_BUDGET (u ++ c)) (sat (length (u ++ c) - TAIL_BUDGET)).
Proof.
  unfold push_tail; cbn [head tail omitted_bytes]. rewrite <-lastn_app_lastn.
  pose proof (length_lastn TAIL_BUDGET u) as Hl. set (t := lastn TAIL_BUDGET u) in *.
  rewrite sat_add, length_app.
  assert (Hx : length c - (TAIL_BUDGET - length t) = length t + length c - TAIL_BUDGET) by lia.
  rewrite Hx. replace (length u - TAIL_BUDGET + (length t + length c - TAIL_BUDGET))
    with (length u + length c - TAIL_BUDGET) by lia.
  unfold checked_sub, lastn. rewrite length_app. case_decide as Hd.
  - by rewrite drop_app_ge by lia.
  - by rewrite drop_app_le by lia.
Qed.

Lemma fill_head_spec (s c : list byte) t o :
  fill_head (mkBuffer (take HEAD_BUDGET s) t o) c =
  (mkBuffer (take HEAD_BUDGET (s ++ c)) t o, drop (HEAD_BUDGET - length s) c).
Proof.
  unfold fill_head; cbn [head tail omitted_bytes]. rewrite length_take.
  replace (HEAD_BUDGET - HEAD_BUDGET `min` length s) with (HEAD_BUDGET - length s) by lia.
  case_decide as Hd; rewrite take_app.
  - done.
  - by rewrite (take_ge c), (drop_ge c) by lia.
Qed.

Lemma summary_sat s :
  summary s = mkBuffer (take HEAD_BUDGET s) (lastn TAIL_BUDGET (drop HEAD_BUDGET s))
    (sat (length (drop HEAD_BUDGET s) - TAIL_BUDGET)).
Proof.
  destruct budgets. unfold summary. fold (sat (length s - MAX_BYTES)). rewrite length_drop.
  apply f_equal, (f_equal sat). lia.
Qed.

Lemma push_chunk_summary s c : push_chunk (summary s) c = summary (s ++ c).
Proof.
  unfold push_chunk. rewrite !summary_sat, fill_head_spec, push_tail_spec. by rewrite drop_app.
Qed.

Lemma push_chunks_summary (chunks : list (list byte)) :
  foldl push_chunk empty_buffer chunks = summary (mjoin chunks).
Proof.
  assert (H : ∀ s, foldl push_chunk (summary s) chunks = summary (s ++ mjoin chunks)).
  { induction chunks as [|c chunks IH]; intros s; cbn [foldl mjoin list_join].
    - by rewrite app_nil_r.
    - by rewrite push_chunk_summary, IH, <-app_assoc. }
  specialize (H []). cbn [app] in H. rewrite <-H. f_equal.
  unfold summary, lastn. by rewrite take_nil, drop_nil.
Qed.

(** C31: However the output is cut into chunks, the buffer holds its first
    [HEAD_BUDGET] bytes, the last [TAIL_BUDGET] of the others, and the number of
    bytes in between, which saturates instead of overflowing. *)
Theorem push_chunks_refine_summary (chunks : list (list byte)) :
  foldl push_chunk empty_buffer chunks = summary (mjoin chunks).
Proof. apply push_chunks_summary. Qed.

Lemma rest_app (s t : list byte) :
  drop HEAD_BUDGET (s ++ t) =
  (drop HEAD_BUDGET s ++ drop (HEAD_BUDGET - length s) (take HEAD_BUDGET t)) ++ drop HEAD_BUDGET t.
Proof.
  rewrite <-app_assoc, drop_app. f_equal.
  rewrite <-(take_drop HEAD_BUDGET t) at 1. destruct (decide (HEAD_BUDGET ≤ length t)).
  - rewrite drop_app_le; [done|]. rewrite length_take. lia.
  - by rewrite (drop_ge t), !app_nil_r by lia.
Qed.

Lemma push_buffer_head (b c : HeadTailBuffer) :
  length (head c) ≤ HEAD_BUDGET →
  (if is_empty (head b) then (mkBuffer (head c) (tail b) (omitted_bytes b), []) else fill_head b (head c))
  = fill_head b (head c).
Proof.
  destruct b as [[|x h] t o]; [|done]. cbn [is_empty head tail omitted_bytes]. intros Hc. unfold fill_head; cbn [head length app].
  rewrite Nat.sub_0_r. case_decide; [|done]. rewrite take_ge, drop_ge by lia. done.
Qed.

(** Appending the buffer of a later output gives the buffer of the
    concatenation, omission count included, wherever the ring buffer wraps. *)
Theorem push_buffer_concat (s t : list byte) (at_ : nat) :
  push_buffer (summary s) (summary t) at_ = summary (s ++ t).
Proof.
  unfold push_buffer. rewrite !summary_sat. cbn [head tail omitted_bytes]. rewrite sat_sat.
  set (u := drop HEAD_BUDGET s). set (v := drop HEAD_BUDGET t).
  set (n := sat (length u - TAIL_BUDGET + (length v - TAIL_BUDGET))).
  pose proof (push_buffer_head (mkBuffer (take HEAD_BUDGET s) (lastn TAIL_BUDGET u) n) (summary t)) as Hh.
  cbn [head tail omitted_bytes summary] in Hh. rewrite Hh by (rewrite length_take; lia). clear Hh.
  rewrite fill_head_spec, rest_app. rewrite take_app, take_take, Nat.min_l, <-take_app by lia.
  fold u v. set (o := drop (HEAD_BUDGET - length s) (take HEAD_BUDGET t)).
  cbn [head tail omitted_bytes]. rewrite length_lastn. subst n. case_decide as Hfull.
  - rewrite length_lastn, !sat_add, (lastn_app_long _ (u ++ o)) by lia.
    apply f_equal, (f_equal sat). rewrite !length_app. lia.
  - rewrite (lastn_all TAIL_BUDGET v) by lia.
    replace (length v - TAIL_BUDGET) with 0 by lia. rewrite Nat.add_0_r, push_tail_spec.
    cbn [head tail omitted_bytes].
    destruct (lastn TAIL_BUDGET (u ++ o)) as [|x l] eqn:Ht; cbn [is_empty].
    + apply (f_equal length) in Ht. rewrite length_lastn in Ht. cbn [length] in Ht.
      assert (u ++ o = []) as -> by (apply nil_length_inv; lia).
      cbn [app length]. rewrite lastn_all by lia. apply f_equal, (f_equal sat). lia.
    + by rewrite <-Ht, !push_tail_spec, <-(app_assoc (u ++ o)), take_drop.
Qed.
(** What the buffer reports of an output pushed in chunks: at most
    [MAX_BYTES] bytes are retained, the total is the output's length (at most
    [USIZE_MAX]), an output that fits is returned unchanged, and one that does
    not is returned as head, marker with the number of bytes left out, tail. *)
Theorem buffer_reports (chunks : list (list byte)) :
  let output := mjoin chunks in
  let b := foldl push_chunk empty_buffer chunks in
  length (to_bytes b) = min (length output) MAX_BYTES ∧
  total_bytes b = N.min (N.of_nat (length output)) USIZE_MAX ∧
  to_bytes_with_omission_marker b =
    if decide (length output ≤ MAX_BYTES) then output
    else take HEAD_BUDGET output ++ [LF] ++
         format_output_omission_marker (N.min (N.of_nat (length output - MAX_BYTES)) USIZE_MAX) ++
         [LF] ++ lastn TAIL_BUDGET output.
Proof.
  cbn zeta. rewrite push_chunks_summary. set (output := mjoin chunks). destruct budgets as [Hb Hle].
  assert (Hlens : length (head (summary output)) = min HEAD_BUDGET (length output) ∧
    length (tail (summary output)) = min TAIL_BUDGET (length output - HEAD_BUDGET)).
  { cbn [summary head tail]. by rewrite length_take, length_lastn, length_drop. }
  destruct Hlens as [Hh Ht]. split; [|split].
  - unfold to_bytes. rewrite length_app, Hh, Ht. lia.
  - unfold total_bytes, retained_bytes, saturating_add. rewrite Hh, Ht. cbn [summary omitted_bytes].
    assert (Hsum : min HEAD_BUDGET (length output) + min TAIL_BUDGET (length output - HEAD_BUDGET)
      + (length output - MAX_BYTES) = length output) by lia.
    clear Hh Ht Hb Hle. lia.
  - unfold to_bytes_with_omission_marker, to_bytes. cbn [summary head tail omitted_bytes].
    case_decide as Hfit.
    + replace (length output - MAX_BYTES) with 0 by lia. cbn [N.of_nat N.min N.eqb N.compare].
      rewrite lastn_all, take_drop by (rewrite length_drop; lia). done.
    + replace (_ =? 0)%N with false by (symmetry; apply N.eqb_neq; unfold USIZE_MAX; lia).
      do 4 f_equal. unfold lastn. rewrite length_drop, drop_drop. f_equal. lia.
Qed.
End buffer.
