(* ===== verification/Truncate.v ===== *)
(** * Truncation of text: [utils/string/src/truncate.rs] and
    [utils/output-truncation/src/lib.rs]

    The middle of a text that exceeds its budget is replaced by a marker; the
    budget is counted in bytes, the cut falls on character boundaries. Lists of
    content items share one budget. Byte counts are [usize]; slicing a string
    at an offset that is not a character boundary panics, which is [None]. *)

From stdpp Require Import prelude list strings.
From S2P Require Import Prelude.

Definition byte_len (s : str) : N := N.of_nat (str_len s).
Definition char_len (c : char) : N := N.of_nat (len_utf8 c).

(** [(&s[..n], &s[n..])], which panics unless [n] is a boundary. *)
Fixpoint split_at_byte (n : N) (s : str) : option (str * str) :=
  if (n =? 0)%N then Some ([], s) else
  match s with
  | [] => None
  | c :: s' =>
      if (char_len c <=? n)%N then
        match split_at_byte (n - char_len c) s' with
        | Some (a, b) => Some (c :: a, b)
        | None => None
        end
      else None
  end.

(** ** [truncate.rs] *)
Definition APPROX_BYTES_PER_TOKEN : N := 4.

Definition approx_token_count (text : str) : N :=
  (saturating_add (byte_len text) (APPROX_BYTES_PER_TOKEN - 1) / APPROX_BYTES_PER_TOKEN)%N.
Definition approx_bytes_for_tokens (tokens : N) : N := saturating_mul tokens APPROX_BYTES_PER_TOKEN.
Definition approx_tokens_from_byte_count (bytes : N) : N :=
  (saturating_add bytes (APPROX_BYTES_PER_TOKEN - 1) / APPROX_BYTES_PER_TOKEN)%N.

(** The variables of the loop over [char_indices]; [ss_idx] is the next index. *)
Record SplitState := mkSplit {
  ss_idx : N;
  prefix_end : N;
  suffix_start : N;
  removed_chars : N;
  suffix_started : bool
}.

Definition split_step (beginning_bytes tail_start_target : N) (st : SplitState) (ch : char) : SplitState :=
  let idx := ss_idx st in
  let char_end := (idx + char_len ch)%N in
  if (char_end <=? beginning_bytes)%N then
    mkSplit char_end char_end (suffix_start st) (removed_chars st) (suffix_started st)
  else if (tail_start_target <=? idx)%N then
    if negb (suffix_started st) then mkSplit char_end (prefix_end st) idx (removed_chars st) true
    else mkSplit char_end (prefix_end st) (suffix_start st) (removed_chars st) (suffix_started st)
  else mkSplit char_end (prefix_end st) (suffix_start st) (saturating_add (removed_chars st) 1) (suffix_started st).

Definition split_string (s : str) (beginning_bytes end_bytes : N) : option (N * str * str) :=
  if is_empty s then Some (0%N, [], []) else
  let len := byte_len s in
  let tail_start_target := saturating_sub len end_bytes in
  let st := foldl (split_step beginning_bytes tail_start_target) (mkSplit 0 0 len 0 false) s in
  let start := if (suffix_start st <? prefix_end st)%N then prefix_end st else suffix_start st in
  '(before, _) ← split_at_byte (prefix_end st) s;
  '(_, after) ← split_at_byte start s;
  Some (removed_chars st, before, after).

Definition split_budget (budget : N) : N * N :=
  let left := (budget / 2)%N in (left, (budget - left)%N).

Definition ELLIPSIS : char := 8230%N.
Definition format_truncation_marker (use_tokens : bool) (removed_count : N) : str :=
  if use_tokens then [ELLIPSIS] ++ fmt_N removed_count ++ $" tokens truncated" ++ [ELLIPSIS]
  else [ELLIPSIS] ++ fmt_N removed_count ++ $" chars truncated" ++ [ELLIPSIS].

Definition removed_units (use_tokens : bool) (removed_bytes removed_chars : N) : N :=
  if use_tokens then approx_tokens_from_byte_count removed_bytes else removed_chars.

Definition assemble_truncated_output (prefix suffix marker : str) : str := prefix ++ marker ++ suffix.

Definition truncate_with_byte_estimate (s : str) (max_bytes : N) (use_tokens : bool) : option str :=
  if is_empty s then Some [] else
  let total_chars := N.of_nat (length s) in
  if (max_bytes =? 0)%N then
    Some (format_truncation_marker use_tokens (removed_units use_tokens (byte_len s) total_chars))
  else if (byte_len s <=? max_bytes)%N then Some s
  else
    let total_bytes := byte_len s in
    let '(left_budget, right_budget) := split_budget max_bytes in
    '(removed, before, after) ← split_string s left_budget right_budget;
    let marker := format_truncation_marker use_tokens
      (removed_units use_tokens (saturating_sub total_bytes max_bytes) removed) in
    Some (assemble_truncated_output before after marker).

Definition truncate_middle_chars (s : str) (max_bytes : N) : option str :=
  truncate_with_byte_estimate s max_bytes false.

Definition truncate_middle_with_token_budget (s : str) (max_tokens : N) : option (str * option N) :=
  if is_empty s then Some ([], None) else
  if (0 <? max_tokens)%N && (byte_len s <=? approx_bytes_for_tokens max_tokens)%N then Some (s, None) else
  truncated ← truncate_with_byte_estimate s (approx_bytes_for_tokens max_tokens) true;
  let total_tokens := approx_token_count s in
  if decide (truncated = s) then Some (truncated, None) else Some (truncated, Some total_tokens).

(** ** [output-truncation/src/lib.rs] *)
Inductive TruncationPolicy : Type :=
| Bytes (bytes : N)
| Tokens (tokens : N).

Definition token_budget (p : TruncationPolicy) : N :=
  match p with Bytes bytes => approx_tokens_from_byte_count bytes | Tokens tokens => tokens end.
Definition byte_budget (p : TruncationPolicy) : N :=
  match p with Bytes bytes => bytes | Tokens tokens => approx_bytes_for_tokens tokens end.

Definition truncate_text (content : str) (policy : TruncationPolicy) : option str :=
  match policy with
  | Bytes bytes => truncate_middle_chars content bytes
  | Tokens tokens => fst <$> truncate_middle_with_token_budget content tokens
  end.

Definition formatted_truncate_text (content : str) (policy : TruncationPolicy) : option str :=
  if (byte_len content <=? byte_budget policy)%N then Some content else
  let original_token_count := approx_token_count content in
  let total_lines := length (lines content) in
  result ← truncate_text content policy;
  Some ($"Warning: truncated output (original token count: " ++ fmt_N original_token_count ++ $")" ++ [LF]
        ++ $"Total output lines: " ++ fmt_nat total_lines ++ [LF; LF] ++ result).

Inductive ImageDetail : Type := Auto | Low | High | Original.

(** [FunctionCallOutputContentItem]; an image's detail is carried along. *)
Inductive ContentItem : Type :=
| InputText (text : str)
| InputImage (image_url : str) (detail : option ImageDetail)
| InputAudio (audio_url : str)
| EncryptedContent (encrypted_content : str).

Definition text_of (i : ContentItem) : option str :=
  match i with InputText text => Some text | _ => None end.
Definition is_media (i : ContentItem) : bool :=
  match i with InputText _ => false | _ => true end.

Definition combine_text (combined text : str) : str :=
  (if negb (is_empty combined) then combined ++ [LF] else combined) ++ text.

Definition formatted_truncate_text_content_items_with_policy (items : list ContentItem) (policy : TruncationPolicy)
    : option (list ContentItem * option N) :=
  let text_segments := omap text_of items in
  if is_empty text_segments then Some (items, None) else
  let combined := foldl combine_text [] text_segments in
  if (byte_len combined <=? byte_budget policy)%N then Some (items, None) else
  let original_token_count := approx_token_count combined in
  text ← formatted_truncate_text combined policy;
  Some (InputText text :: List.filter is_media items, Some original_token_count).

Record ItemsState := mkItems {
  out : list ContentItem;
  remaining_budget : N;
  omitted_text_items : nat;
  omitted_audio_items : nat
}.

Section items.
Context (policy : TruncationPolicy) (estimate_audio_token_count : str → N).

Definition text_cost (text : str) : N :=
  match policy with Bytes _ => byte_len text | Tokens _ => approx_token_count text end.
Definition audio_cost (url : str) : N :=
  let token_cost := estimate_audio_token_count url in
  match policy with Bytes _ => approx_bytes_for_tokens token_cost | Tokens _ => token_cost end.
Definition snippet_policy (remaining : N) : TruncationPolicy :=
  match policy with Bytes _ => Bytes remaining | Tokens _ => Tokens remaining end.

Definition truncate_item (st : ItemsState) (item : ContentItem) : option ItemsState :=
  match item with
  | InputText text =>
      if is_empty text then Some st else
      if (remaining_budget st =? 0)%N
      then Some (mkItems (out st) (remaining_budget st) (S (omitted_text_items st)) (omitted_audio_items st)) else
      let cost := text_cost text in
      if (cost <=? remaining_budget st)%N then
        Some (mkItems (out st ++ [InputText text]) (saturating_sub (remaining_budget st) cost)
                (omitted_text_items st) (omitted_audio_items st))
      else
        snippet ← truncate_text text (snippet_policy (remaining_budget st));
        if is_empty snippet
        then Some (mkItems (out st) 0 (S (omitted_text_items st)) (omitted_audio_items st))
        else Some (mkItems (out st ++ [InputText snippet]) 0 (omitted_text_items st) (omitted_audio_items st))
  | InputAudio url =>
      let cost := audio_cost url in
      if (cost <=? remaining_budget st)%N then
        Some (mkItems (out st ++ [InputAudio url]) (saturating_sub (remaining_budget st) cost)
                (omitted_text_items st) (omitted_audio_items st))
      else Some (mkItems (out st) (remaining_budget st) (omitted_text_items st) (S (omitted_audio_items st)))
  | InputImage _ _ | EncryptedContent _ =>
      Some (mkItems (out st ++ [item]) (remaining_budget st) (omitted_text_items st) (omitted_audio_items st))
  end.

Fixpoint truncate_item_list (st : ItemsState) (items : list ContentItem) : option ItemsState :=
  match items with
  | [] => Some st
  | item :: items' => st ← truncate_item st item; truncate_item_list st items'
  end.

Definition omission_markers (st : ItemsState) : list ContentItem :=
  (if (0 <? omitted_text_items st)
   then [InputText ($"[omitted " ++ fmt_nat (omitted_text_items st) ++ $" text items ...]")] else []) ++
  (if (0 <? omitted_audio_items st)
   then [InputText ($"[omitted " ++ fmt_nat (omitted_audio_items st) ++ $" audio items ...]")] else []).

Definition items_budget : N :=
  match policy with Bytes _ => byte_budget policy | Tokens _ => token_budget policy end.

Definition truncate_function_output_items_with_policy (items : list ContentItem) : option (list ContentItem) :=
  st ← truncate_item_list (mkItems [] items_budget 0 0) items;
  Some (out st ++ omission_markers st).
End items.

Inductive OutputBody : Type :=
| Text (text : str)
| ContentItems (items : list ContentItem).

Definition truncate_function_output_payload (body : OutputBody) (policy : TruncationPolicy)
    (estimate_audio_token_count : str → N) : option OutputBody :=
  match body with
  | Text text => Text <$> truncate_text text policy
  | ContentItems items =>
      ContentItems <$> truncate_function_output_items_with_policy policy estimate_audio_token_count items
  end.

(** ** Byte lengths *)
Lemma byte_len_nil : byte_len [] = 0%N.
Proof. done. Qed.
Lemma byte_len_cons c s : byte_len (c :: s) = (char_len c + byte_len s)%N.
Proof. unfold byte_len, char_len, str_len. cbn. lia. Qed.
Lemma byte_len_app s t : byte_len (s ++ t) = (byte_len s + byte_len t)%N.
Proof. induction s as [|c s IH]; [done|]. cbn [app]. rewrite !byte_len_cons, IH. lia. Qed.
Lemma char_len_pos c : (1 ≤ char_len c)%N.
Proof. unfold char_len, len_utf8. repeat case_match; lia. Qed.
Lemma byte_len_zero s : byte_len s = 0%N → s = [].
Proof. destruct s as [|c s]; [done|]. rewrite byte_len_cons. pose proof (char_len_pos c). lia. Qed.

Create Rewrite HintDb bytes.
#[export] Hint Rewrite byte_len_nil byte_len_cons byte_len_app : bytes.
Ltac bytes := autorewrite with bytes in *; try lia.

Lemma split_at_byte_app s t : split_at_byte (byte_len s) (s ++ t) = Some (s, t).
Proof.
  induction s as [|c s IH]; [by destruct t|]. cbn [app split_at_byte].
  rewrite byte_len_cons. pose proof (char_len_pos c).
  rewrite (proj2 (N.eqb_neq _ _)), (proj2 (N.leb_le _ _)) by lia.
  by replace (char_len c + byte_len s - char_len c)%N with (byte_len s) by lia; rewrite IH.
Qed.

(** ** The loop of [split_string], in three phases *)

(** The longest start of [s] that ends by [b], [s] standing at [i]. *)
Fixpoint span_prefix (b i : N) (s : str) : str * str :=
  match s with
  | [] => ([], [])
  | c :: s' =>
      if (i + char_len c <=? b)%N
      then let '(x, y) := span_prefix b (i + char_len c) s' in (c :: x, y)
      else ([], s)
  end.
(** The longest start of [s] whose characters begin before [t]. *)
Fixpoint span_mid (t i : N) (s : str) : str * str :=
  match s with
  | [] => ([], [])
  | c :: s' =>
      if (t <=? i)%N then ([], s)
      else let '(m, a) := span_mid t (i + char_len c) s' in (c :: m, a)
  end.

Lemma span_prefix_spec b i s x y :
  span_prefix b i s = (x, y) →
  s = x ++ y ∧ (x ≠ [] → (i + byte_len x ≤ b)%N) ∧ (∀ c r, y = c :: r → (b < i + byte_len x + char_len c)%N).
Proof.
  revert i x y; induction s as [|c s IH]; intros i x y; cbn [span_prefix]; [by intros [= <- <-]|].
  destruct (i + char_len c <=? b)%N eqn:Hc.
  - destruct (span_prefix b _ s) as [x' y'] eqn:Hs. intros [= <- <-].
    apply IH in Hs as (-> & Hx & Hy). apply N.leb_le in Hc. split; [done|]. split.
    + intros _. destruct x' as [|d x']; [bytes|]. specialize (Hx ltac:(done)). bytes.
    + intros d r ->. specialize (Hy _ _ eq_refl). bytes.
  - intros [= <- <-]. apply N.leb_gt in Hc. split; [done|]. split; [done|]. intros d r [= <- <-]. bytes.
Qed.

Lemma span_mid_spec t i s m a :
  span_mid t i s = (m, a) →
  s = m ++ a ∧ (∀ m' c, m = m' ++ [c] → (i + byte_len m' < t)%N) ∧ (a ≠ [] → (t ≤ i + byte_len m)%N).
Proof.
  revert i m a; induction s as [|c s IH]; intros i m a; cbn [span_mid].
  { intros [= <- <-]. split; [done|]. split; [|done]. by intros [|] ? ?. }
  destruct (t <=? i)%N eqn:Hc.
  - intros [= <- <-]. apply N.leb_le in Hc. split; [done|]. split; [by intros [|] ? ?|]. bytes.
  - destruct (span_mid t _ s) as [m' a'] eqn:Hs. intros [= <- <-].
    apply IH in Hs as (-> & Hm & Ha). apply N.leb_gt in Hc. split; [done|]. split.
    + intros [|d u] e; [intros _; bytes|]. intros [= <- ->]. specialize (Hm _ _ eq_refl). bytes.
    + intros Ha'. specialize (Ha Ha'). bytes.
Qed.

Section split.
Context (b t L : N).

Lemma fold_prefix s x y i :
  span_prefix b i s = (x, y) →
  foldl (split_step b t) (mkSplit i i L 0 false) s =
  foldl (split_step b t) (mkSplit (i + byte_len x) (i + byte_len x) L 0 false) y.
Proof.
  revert i x y; induction s as [|c s IH]; intros i x y; cbn [span_prefix].
  { intros [= <- <-]. bytes. by rewrite N.add_0_r. }
  destruct (i + char_len c <=? b)%N eqn:Hc; [|intros [= <- <-]; bytes; by rewrite N.add_0_r].
  destruct (span_prefix b _ s) as [x' y'] eqn:Hs. intros [= <- <-]. cbn [foldl].
  unfold split_step at 2; cbn [ss_idx prefix_end suffix_start removed_chars suffix_started]. rewrite Hc.
  rewrite (IH _ _ _ Hs). bytes. by rewrite N.add_assoc.
Qed.

Lemma split_step_past i p u r started c :
  (b < i + char_len c)%N →
  split_step b t (mkSplit i p u r started) c =
    if (t <=? i)%N then mkSplit (i + char_len c) p (if started then u else i) r true
    else mkSplit (i + char_len c) p u (saturating_add r 1) started.
Proof.
  intros Hb. unfold split_step; cbn [ss_idx prefix_end suffix_start removed_chars suffix_started].
  apply N.leb_gt in Hb. rewrite Hb. by destruct started.
Qed.

Lemma fold_after s i p u r :
  (∀ c, hd_error s = Some c → (b < i + char_len c)%N) → (t ≤ i)%N →
  foldl (split_step b t) (mkSplit i p u r true) s = mkSplit (i + byte_len s) p u r true.
Proof.
  revert i; induction s as [|c s IH]; intros i Hb Ht; cbn [foldl].
  { bytes. by rewrite N.add_0_r. }
  specialize (Hb _ eq_refl). rewrite split_step_past, (proj2 (N.leb_le _ _)) by done.
  rewrite IH; [|intros d _; pose proof (char_len_pos d); lia|lia]. bytes. by rewrite N.add_assoc.
Qed.

Lemma fold_mid s i p r m a :
  (∀ c, hd_error s = Some c → (b < i + char_len c)%N) → (r ≤ USIZE_MAX)%N → span_mid t i s = (m, a) →
  let st := foldl (split_step b t) (mkSplit i p L r false) s in
  prefix_end st = p ∧
  suffix_start st = (if is_empty a then L else i + byte_len m)%N ∧
  removed_chars st = N.min (r + N.of_nat (length m)) USIZE_MAX.
Proof.
  revert i r m a; induction s as [|c s IH]; intros i r m a Hb Hr; cbn [span_mid foldl].
  { intros [= <- <-]. cbn. split_and!; [done|done|lia]. }
  specialize (Hb _ eq_refl). rewrite split_step_past by done. cbn zeta. destruct (t <=? i)%N eqn:Ht.
  - intros [= <- <-]. apply N.leb_le in Ht. rewrite fold_after; [|intros d _; pose proof (char_len_pos d); lia|lia].
    cbn. split_and!; bytes.
  - destruct (span_mid t _ s) as [m' a'] eqn:Hs. intros [= <- <-].
    destruct (IH (i + char_len c)%N (saturating_add r 1) m' a') as (-> & -> & ->);
      [intros d _; pose proof (char_len_pos d); lia|unfold saturating_add; lia|done|].
    split; [done|]. cbn [length]. bytes. unfold saturating_add. split; [|lia].
    destruct a'; [done|]. cbn [is_empty]. lia.
Qed.
End split.

(** [s] is [before], [mid] and [after]; [before] ([after]) is the longest start
    (end of the rest) within [b] ([e]) bytes. *)
Definition middle_cut (b e : N) (s before mid after : str) : Prop :=
  s = before ++ mid ++ after ∧ (byte_len before ≤ b)%N ∧ (byte_len after ≤ e)%N ∧
  (∀ c r, mid ++ after = c :: r → (b < byte_len before + char_len c)%N) ∧
  (∀ m c, mid = m ++ [c] → (e < char_len c + byte_len after)%N).

Lemma split_string_cut s b e :
  ∃ before mid after,
    split_string s b e = Some (N.min (N.of_nat (length mid)) USIZE_MAX, before, after) ∧
    middle_cut b e s before mid after.
Proof.
  destruct s as [|c0 s0]; [exists [], [], []; split; [done|]; split_and!; try done; bytes; by intros [|] ?|].
  set (s := c0 :: s0). unfold split_string. cbn [is_empty]. change (is_empty s) with false. cbn match.
  set (t := saturating_sub (byte_len s) e).
  destruct (span_prefix b 0 s) as [x y] eqn:Hx. destruct (span_mid t (0 + byte_len x) y) as [m a] eqn:Hm.
  rewrite (fold_prefix _ _ _ _ _ _ _ Hx). apply span_prefix_spec in Hx as (Hs & Hxb & Hyb).
  destruct (fold_mid b t (byte_len s) y (0 + byte_len x) (0 + byte_len x) 0 m a) as (Hp & Hst & Hr); [|unfold USIZE_MAX; lia|done|].
  { intros c Hc. destruct y as [|d y]; [done|]. injection Hc as ->. exact (Hyb _ _ eq_refl). }
  rewrite Hp, Hst, Hr. apply span_mid_spec in Hm as (Hy & Hmt & Hat).
  rewrite Hy in Hs. exists x, m, a.
  assert (Hlen : byte_len s = (byte_len x + byte_len m + byte_len a)%N) by (rewrite Hs; bytes).
  assert (Hstart : (if is_empty a then byte_len s else 0 + byte_len x + byte_len m)%N = byte_len (x ++ m)).
  { destruct a; cbn [is_empty]; bytes. }
  rewrite Hstart, !N.add_0_l. rewrite (proj2 (N.ltb_ge _ _)) by bytes. split.
  - rewrite Hs, split_at_byte_app, app_assoc, split_at_byte_app. done.
  - split; [done|]. split_and!.
    + destruct x; [bytes|]. specialize (Hxb ltac:(done)). lia.
    + destruct a; [bytes|]. specialize (Hat ltac:(done)). unfold t, saturating_sub in Hat. lia.
    + intros c r Hc. specialize (Hyb c r). rewrite Hy in Hyb. specialize (Hyb Hc). lia.
    + intros m' c ->. specialize (Hmt _ _ eq_refl). unfold t, saturating_sub in Hmt. bytes.
Qed.

(** ** Truncating one text *)

(** The size of every string of the source: at most [isize::MAX] bytes. *)
Definition rust_string (s : str) : Prop := (byte_len s < 2 ^ 63)%N.

Lemma length_le_byte_len s : (N.of_nat (length s) ≤ byte_len s)%N.
Proof. induction s as [|c s IH]; [done|]. cbn [length]. bytes. pose proof (char_len_pos c). lia. Qed.

(** The marker of a cut that removes [mid] from [s] for the budget [max]. *)
Definition cut_marker (use_tokens : bool) (max : N) (s mid : str) : str :=
  format_truncation_marker use_tokens
    (removed_units use_tokens (byte_len s - max) (N.of_nat (length mid))).

Lemma middle_cut_zero s : middle_cut 0 0 s [] s [].
Proof.
  split_and!; [by rewrite app_nil_r|done|done|..].
  - intros c r _. pose proof (char_len_pos c). bytes.
  - intros m c _. pose proof (char_len_pos c). bytes.
Qed.

Lemma truncate_estimate_spec s max use_tokens :
  rust_string s →
  if decide (byte_len s ≤ max)%N then truncate_with_byte_estimate s max use_tokens = Some s
  else ∃ before mid after, middle_cut (max / 2) (max - max / 2) s before mid after ∧
    truncate_with_byte_estimate s max use_tokens = Some (before ++ cut_marker use_tokens max s mid ++ after).
Proof.
  intros Hs. unfold truncate_with_byte_estimate. case_decide as Hfit.
  - destruct s as [|c s]; [done|]. cbn [is_empty].
    assert (max ≠ 0)%N by (pose proof (char_len_pos c); bytes).
    by rewrite (proj2 (N.eqb_neq _ _)), (proj2 (N.leb_le _ _)).
  - destruct s as [|c s]; [bytes|]. cbn [is_empty]. destruct (N.eqb_spec max 0) as [->|Hmax].
    + exists [], (c :: s), []. split; [apply middle_cut_zero|].
      rewrite app_nil_r. unfold cut_marker. by rewrite N.sub_0_r.
    + rewrite (proj2 (N.leb_gt _ _)) by lia. unfold split_budget.
      destruct (split_string_cut (c :: s) (max / 2) (max - max / 2)) as (before & mid & after & -> & Hcut).
      exists before, mid, after. split; [done|]. cbn. unfold assemble_truncated_output, cut_marker, saturating_sub.
      rewrite N.min_l; [done|]. destruct Hcut as (Heq & _). pose proof (length_le_byte_len mid).
      unfold rust_string in Hs. rewrite Heq in Hs. unfold USIZE_MAX. bytes.
Qed.

(** Truncating to a number of bytes never cuts a character: a text that
    fits is unchanged; otherwise the longest start within half of the budget
    and the longest end within the other half are kept, and the marker between
    them says how many characters were removed. *)
Theorem truncate_middle_chars_spec s max_bytes :
  rust_string s →
  if decide (byte_len s ≤ max_bytes)%N then truncate_middle_chars s max_bytes = Some s
  else ∃ before mid after, middle_cut (max_bytes / 2) (max_bytes - max_bytes / 2) s before mid after ∧
    truncate_middle_chars s max_bytes =
      Some (before ++ [ELLIPSIS] ++ fmt_nat (length mid) ++ $" chars truncated" ++ [ELLIPSIS] ++ after).
Proof.
  intros Hs. pose proof (truncate_estimate_spec s max_bytes false Hs) as H. case_decide; [done|].
  destruct H as (before & mid & after & Hcut & H). exists before, mid, after. split; [done|].
  unfold truncate_middle_chars. rewrite H. unfold cut_marker, format_truncation_marker, removed_units.
  rewrite <-!app_assoc. done.
Qed.

Lemma token_count_le s n :
  rust_string s → (approx_token_count s ≤ n ↔ byte_len s ≤ approx_bytes_for_tokens n)%N.
Proof.
  unfold rust_string, approx_token_count, approx_bytes_for_tokens, saturating_add, saturating_mul,
    APPROX_BYTES_PER_TOKEN, USIZE_MAX. intros Hs.
  rewrite N.min_l by lia.
  change (4 - 1)%N with 3%N. change (2 ^ 63)%N with 9223372036854775808%N in Hs.
  change (2 ^ 64 - 1)%N with 18446744073709551615%N.
  pose proof (N.div_mod (byte_len s + 3) 4 ltac:(done)) as Hd.
  pose proof (N.mod_lt (byte_len s + 3) 4 ltac:(done)) as Hm.
  set (q := ((byte_len s + 3) / 4)%N) in *. set (m := ((byte_len s + 3) mod 4)%N) in *.
  clearbody q m. split; lia.
Qed.

(** Truncating to a number of (approximate) tokens: a text within the budget
    is unchanged; otherwise the middle is cut to the budget's bytes and the
    marker says how many tokens the removed bytes make. The original token
    count is reported exactly when the text changed. *)
Theorem truncate_token_budget_spec s max_tokens :
  rust_string s →
  ∃ truncated, truncate_middle_with_token_budget s max_tokens =
      Some (truncated, if decide (truncated = s) then None else Some (approx_token_count s)) ∧
    if decide (approx_token_count s ≤ max_tokens)%N then truncated = s
    else let max_bytes := approx_bytes_for_tokens max_tokens in
      ∃ before mid after, middle_cut (max_bytes / 2) (max_bytes - max_bytes / 2) s before mid after ∧
        truncated = before ++ cut_marker true max_bytes s mid ++ after.
Proof.
  intros Hs. pose proof (truncate_estimate_spec s (approx_bytes_for_tokens max_tokens) true Hs) as H.
  unfold truncate_middle_with_token_budget. pose proof (token_count_le s max_tokens Hs) as Hle.
  destruct s as [|c s].
  { exists []. split; [done|]. rewrite decide_True; [done|]. apply (N.le_0_l max_tokens). }
  cbn [is_empty]. destruct (_ && _) eqn:Hg.
  - apply andb_true_iff in Hg as [_ Hg%N.leb_le]. exists (c :: s).
    rewrite decide_True by done. split; [done|]. by rewrite decide_True by tauto.
  - destruct (decide (byte_len (c :: s) ≤ approx_bytes_for_tokens max_tokens)%N) as [Hfit|Hfit].
    + exists (c :: s). rewrite H. cbn. rewrite !decide_True by (done || tauto). done.
    + destruct H as (before & mid & after & Hcut & ->).
      exists (before ++ cut_marker true (approx_bytes_for_tokens max_tokens) (c :: s) mid ++ after). split.
      * cbn [mbind option_bind]. by case_decide.
      * rewrite decide_False by tauto. exists before, mid, after. done.
Qed.

Lemma truncate_text_Some s policy : rust_string s → ∃ t, truncate_text s policy = Some t.
Proof.
  intros Hs. destruct policy as [n|n]; cbn [truncate_text].
  - pose proof (truncate_estimate_spec s n false Hs) as H. unfold truncate_middle_chars.
    case_decide; [eauto|]. destruct H as (? & ? & ? & _ & ?). eauto.
  - unfold truncate_middle_with_token_budget.
    pose proof (truncate_estimate_spec s (approx_bytes_for_tokens n) true Hs) as H.
    destruct (is_empty s); [eexists; reflexivity|]. destruct (_ && _); [eexists; reflexivity|].
    assert (∃ t, truncate_with_byte_estimate s (approx_bytes_for_tokens n) true = Some t) as [t ->].
    { case_decide; [eauto|]. destruct H as (? & ? & ? & _ & ?). eauto. }
    exists t. cbn [mbind option_bind]. by destruct (decide (t = s)).
Qed.

Lemma cut_marker_ne ut max s mid : cut_marker ut max s mid ≠ [].
Proof. by destruct ut. Qed.

Lemma truncate_text_ne s policy t :
  s ≠ [] → rust_string s → truncate_text s policy = Some t → t ≠ [].
Proof.
  intros Hne Hs.
  assert (Hest : ∀ n ut u, truncate_with_byte_estimate s n ut = Some u → u ≠ []).
  { intros n ut u Hu. pose proof (truncate_estimate_spec s n ut Hs) as H. case_decide; [congruence|].
    destruct H as (b & m & a & _ & H). rewrite H in Hu. injection Hu as <-.
    intros [_ [[]%cut_marker_ne _]%app_eq_nil]%app_eq_nil. }
  destruct policy as [n|n]; cbn [truncate_text]; [apply Hest|].
  unfold truncate_middle_with_token_budget. destruct (is_empty s) eqn:He; [by destruct s|].
  destruct (_ && _); [cbn; congruence|].
  destruct (truncate_with_byte_estimate _ _ _) as [u|] eqn:Hu; [|done]. apply Hest in Hu.
  cbn [mbind option_bind]. destruct (decide (u = s)); cbn; congruence.
Qed.

(** ** Truncating content items *)
Section items_spec.
Context (policy : TruncationPolicy) (estimate : str → N).

Definition item_cost (i : ContentItem) : N :=
  match i with
  | InputText text => if is_empty text then 0 else text_cost policy text
  | InputAudio url => audio_cost policy estimate url
  | InputImage _ _ | EncryptedContent _ => 0
  end.
Definition total_cost (l : list ContentItem) : N := foldr (λ i n, item_cost i + n)%N 0%N l.

Definition is_full_text (i : ContentItem) : bool :=
  match i with InputText text => negb (is_empty text) | _ => false end.
Definition is_audio (i : ContentItem) : bool :=
  match i with InputAudio _ => true | _ => false end.
Definition count (f : ContentItem → bool) (l : list ContentItem) : nat := length (List.filter f l).

Lemma total_cost_cons i l : total_cost (i :: l) = (item_cost i + total_cost l)%N.
Proof. done. Qed.
Lemma total_cost_app l k : total_cost (l ++ k) = (total_cost l + total_cost k)%N.
Proof. induction l as [|i l IH]; [done|]. cbn [app]. rewrite !total_cost_cons, IH. lia. Qed.
Lemma total_cost_snoc l i : total_cost (l ++ [i]) = (total_cost l + item_cost i)%N.
Proof. rewrite total_cost_app, total_cost_cons. cbn [total_cost foldr]. lia. Qed.
Lemma count_app f l k : count f (l ++ k) = count f l + count f k.
Proof. unfold count. by rewrite List.filter_app, length_app. Qed.

Definition budget : N := items_budget policy.

(** What the loop has kept of the items it has seen: [kept] and [rest] whole,
    between them at most one shortened text, after which only items that cost
    nothing are kept. *)
Record items_inv (seen : list ContentItem) (st : ItemsState) (kept snippets rest : list ContentItem) : Prop := {
  inv_out : out st = kept ++ snippets ++ rest;
  inv_sublist : (kept ++ rest) `sublist_of` seen;
  inv_budget : (total_cost kept ≤ budget)%N;
  inv_phase : (snippets = [] ∧ rest = [] ∧ remaining_budget st = budget - total_cost kept)%N ∨
              (remaining_budget st = 0 ∧ total_cost rest = 0)%N;
  inv_snippet : snippets = [] ∨ ∃ text snippet, InputText text ∈ seen ∧ snippets = [InputText snippet] ∧
    truncate_text text (snippet_policy policy (budget - total_cost kept)) = Some snippet;
  inv_texts : count is_full_text seen = count is_full_text (kept ++ rest) + length snippets + omitted_text_items st;
  inv_audios : count is_audio seen = count is_audio (kept ++ rest) + omitted_audio_items st
}.

Lemma sublist_snoc_skip {A} (l k : list A) x : l `sublist_of` k → l `sublist_of` k ++ [x].
Proof. intros. by apply sublist_inserts_r. Qed.

(** An item that is kept whole. *)
Lemma items_inv_keep seen st i kept snippets rest :
  items_inv seen st kept snippets rest → (item_cost i ≤ remaining_budget st)%N →
  (∀ text, i = InputText text → text ≠ []) →
  ∃ kept' rest', items_inv (seen ++ [i])
    (mkItems (out st ++ [i]) (remaining_budget st - item_cost i) (omitted_text_items st) (omitted_audio_items st))
    kept' snippets rest'.
Proof.
  intros [Ho Hs Hb Hp Hsn Ht Ha] Hc Htext.
  assert (Hsn' : snippets = [] ∨ ∃ text snippet, InputText text ∈ seen ++ [i] ∧ snippets = [InputText snippet] ∧
    truncate_text text (snippet_policy policy (budget - total_cost kept)) = Some snippet).
  { destruct Hsn as [|(text & sn & Hin & ? & ?)]; [by left|right]. exists text, sn. set_solver. }
  destruct Hp as [(-> & -> & Hr)|[Hr Hz]].
  - exists (kept ++ [i]), []. rewrite app_nil_r in *. constructor; cbn [out remaining_budget omitted_text_items omitted_audio_items].
    + by rewrite Ho, !app_nil_r.
    + rewrite app_nil_r. by apply sublist_app.
    + rewrite total_cost_snoc. lia.
    + left. split; [done|]. split; [done|]. rewrite total_cost_snoc. lia.
    + by left.
    + rewrite !count_app, Ht. cbn. lia.
    + rewrite app_nil_r, !count_app, Ha. lia.
  - exists kept, (rest ++ [i]). constructor; cbn [out remaining_budget omitted_text_items omitted_audio_items].
    + by rewrite Ho, <-!app_assoc.
    + rewrite app_assoc. by apply sublist_app.
    + done.
    + right. rewrite total_cost_snoc. lia.
    + done.
    + rewrite app_assoc, !count_app, Ht, count_app. lia.
    + rewrite app_assoc, !count_app, Ha, count_app. lia.
Qed.

(** An item that is dropped, and counted if it is a text or an audio. *)
Lemma items_inv_drop seen st i kept snippets rest nt na :
  items_inv seen st kept snippets rest →
  nt = omitted_text_items st + count is_full_text [i] → na = omitted_audio_items st + count is_audio [i] →
  items_inv (seen ++ [i]) (mkItems (out st) (remaining_budget st) nt na) kept snippets rest.
Proof.
  intros [Ho Hs Hb Hp Hsn Ht Ha] -> ->. constructor; cbn [out remaining_budget omitted_text_items omitted_audio_items]; try done.
  - by apply sublist_snoc_skip.
  - destruct Hsn as [|(text & sn & Hin & ? & ?)]; [by left|right]. exists text, sn. set_solver.
  - rewrite count_app, Ht. lia.
  - rewrite count_app, Ha. lia.
Qed.
(** A text that is shortened takes the whole remaining budget. *)
Lemma items_inv_shorten seen st text sn kept snippets rest :
  items_inv seen st kept snippets rest → text ≠ [] → remaining_budget st ≠ 0%N →
  truncate_text text (snippet_policy policy (remaining_budget st)) = Some sn →
  items_inv (seen ++ [InputText text])
    (mkItems (out st ++ [InputText sn]) 0 (omitted_text_items st) (omitted_audio_items st))
    kept [InputText sn] [].
Proof.
  intros [Ho Hs Hb Hp Hsn Ht Ha] Hne Hr Htr. destruct Hp as [(-> & -> & Hrb)|[? _]]; [|done].
  rewrite !app_nil_r in *. constructor; cbn [out remaining_budget omitted_text_items omitted_audio_items].
  - by rewrite Ho, app_nil_r.
  - rewrite app_nil_r. by apply sublist_snoc_skip.
  - done.
  - by right.
  - right. exists text, sn. rewrite <-Hrb. set_solver.
  - rewrite app_nil_r, count_app, Ht. destruct text; [done|]. cbn. lia.
  - rewrite app_nil_r, count_app, Ha. cbn. lia.
Qed.

Lemma truncate_item_inv seen st i kept snippets rest :
  (∀ text, i = InputText text → rust_string text) →
  items_inv seen st kept snippets rest →
  ∃ st' kept' snippets' rest', truncate_item policy estimate st i = Some st' ∧
    items_inv (seen ++ [i]) st' kept' snippets' rest'.
Proof.
  intros Hstr Hinv.
  assert (Hkeep : (item_cost i ≤ remaining_budget st)%N → (∀ text, i = InputText text → text ≠ []) →
    ∃ st' kept' snippets' rest',
      Some (mkItems (out st ++ [i]) (remaining_budget st - item_cost i) (omitted_text_items st) (omitted_audio_items st))
      = Some st' ∧ items_inv (seen ++ [i]) st' kept' snippets' rest').
  { intros Hc Ht. destruct (items_inv_keep _ _ _ _ _ _ Hinv Hc Ht) as (k & r & Hk). eauto 10. }
  assert (Hdrop : ∃ st' kept' snippets' rest',
    Some (mkItems (out st) (remaining_budget st) (omitted_text_items st + count is_full_text [i])
      (omitted_audio_items st + count is_audio [i])) = Some st' ∧ items_inv (seen ++ [i]) st' kept' snippets' rest').
  { do 4 eexists. split; [done|]. by eapply items_inv_drop. }
  destruct i as [text|url d|url|enc]; cbn [truncate_item].
  - destruct text as [|c text]; cbn [is_empty].
    { cbn in Hdrop. rewrite !Nat.add_0_r in Hdrop. by destruct st. }
    destruct (N.eqb_spec (remaining_budget st) 0) as [Hz|Hz].
    { cbn in Hdrop. rewrite Nat.add_0_r, Nat.add_1_r in Hdrop. done. }
    destruct (N.leb_spec (text_cost policy (c :: text)) (remaining_budget st)) as [Hc|Hc].
    { apply Hkeep; [done|]. by intros ? [= <-]. }
    destruct (truncate_text_Some (c :: text) (snippet_policy policy (remaining_budget st)) (Hstr _ eq_refl)) as [sn Hsn].
    rewrite Hsn. cbn [mbind option_bind]. destruct (is_empty sn) eqn:He.
    + exfalso. apply (truncate_text_ne (c :: text) (snippet_policy policy (remaining_budget st)) sn); [done| |done|by destruct sn].
      by apply Hstr.
    + do 4 eexists. split; [done|]. by eapply items_inv_shorten.
  - cbn [item_cost] in Hkeep. rewrite N.sub_0_r in Hkeep. apply Hkeep; [lia|done].
  - unfold saturating_sub.
    destruct (N.leb_spec (audio_cost policy estimate url) (remaining_budget st)) as [Hc|Hc]; [by apply Hkeep|].
    cbn in Hdrop. by rewrite Nat.add_0_r, Nat.add_1_r in Hdrop.
  - cbn [item_cost] in Hkeep. rewrite N.sub_0_r in Hkeep. apply Hkeep; [lia|done].
Qed.

Definition rust_items (items : list ContentItem) : Prop :=
  ∀ text, InputText text ∈ items → rust_string text.

Lemma truncate_item_list_inv items seen st kept snippets rest :
  rust_items items → items_inv seen st kept snippets rest →
  ∃ st' kept' snippets' rest', truncate_item_list policy estimate st items = Some st' ∧
    items_inv (seen ++ items) st' kept' snippets' rest'.
Proof.
  revert seen st kept snippets rest; induction items as [|i items IH]; intros seen st k sn r Hstr Hinv; cbn [truncate_item_list].
  { rewrite app_nil_r. eauto 10. }
  destruct (truncate_item_inv seen st i k sn r) as (st1 & k1 & sn1 & r1 & -> & H1); [|done|].
  { intros text ->. apply Hstr. left. }
  cbn [mbind option_bind]. replace (seen ++ i :: items) with ((seen ++ [i]) ++ items) by (by rewrite <-app_assoc).
  eapply IH; [|done]. intros text Hin. apply Hstr. by right.
Qed.

Lemma items_inv_init : items_inv [] (mkItems [] budget 0 0) [] [] [].
Proof. constructor; cbn; try done; [lia|left; split; [done|]; split; [done|]; lia|by left]. Qed.

(** Items that share a budget: the items kept whole are among the given
    ones, in their order, and together cost no more than the budget; at most
    one text is shortened, to what the items kept before it leave; and every
    non-empty text and every audio item is kept, shortened or counted in an
    omission marker. *)
Theorem truncate_items_accounting items :
  rust_items items →
  ∃ kept snippets rest st,
    truncate_function_output_items_with_policy policy estimate items =
      Some (kept ++ snippets ++ rest ++ omission_markers st) ∧
    (kept ++ rest) `sublist_of` items ∧
    (total_cost (kept ++ rest) ≤ budget)%N ∧
    (snippets = [] ∨ ∃ text snippet, InputText text ∈ items ∧ snippets = [InputText snippet] ∧
       truncate_text text (snippet_policy policy (budget - total_cost kept)) = Some snippet) ∧
    count is_full_text items = count is_full_text (kept ++ rest) + length snippets + omitted_text_items st ∧
    count is_audio items = count is_audio (kept ++ rest) + omitted_audio_items st.
Proof.
  intros Hstr.
  destruct (truncate_item_list_inv items [] _ _ _ _ Hstr items_inv_init) as (st & k & sn & r & Hrun & Hinv).
  exists k, sn, r, st. unfold truncate_function_output_items_with_policy. fold budget. rewrite Hrun.
  cbn [mbind option_bind]. destruct Hinv as [Ho Hs Hb Hp Hsn Ht Ha]. cbn [app] in *.
  split; [by rewrite Ho, <-!app_assoc|]. split; [done|]. split; [|done].
  rewrite total_cost_app. destruct Hp as [(_ & -> & _)|[_ Hz]]; [cbn|]; lia.
Qed.
Lemma text_cost_pos text : text ≠ [] → (1 ≤ text_cost policy text)%N.
Proof.
  destruct text as [|c text]; [done|]. intros _. unfold text_cost. pose proof (char_len_pos c).
  destruct policy; [bytes|]. unfold approx_token_count. bytes.
  apply (proj2 (N.le_succ_l 0 _)), N.div_str_pos. unfold saturating_add, APPROX_BYTES_PER_TOKEN, USIZE_MAX. lia.
Qed.

(** The items that carry content: all but empty texts. *)
Definition has_content (i : ContentItem) : bool :=
  match i with InputText text => negb (is_empty text) | _ => true end.

Lemma truncate_item_fits st i :
  (item_cost i ≤ remaining_budget st)%N →
  truncate_item policy estimate st i =
    Some (mkItems (out st ++ List.filter has_content [i]) (remaining_budget st - item_cost i)
            (omitted_text_items st) (omitted_audio_items st)).
Proof.
  destruct st as [o r nt na]. cbn [out remaining_budget omitted_text_items omitted_audio_items].
  destruct i as [[|c text]|url d|url|enc]; cbn [truncate_item item_cost is_empty List.filter has_content negb
    out remaining_budget omitted_text_items omitted_audio_items]; intros Hc.
  - by rewrite app_nil_r, N.sub_0_r.
  - pose proof (text_cost_pos (c :: text) ltac:(done)).
    by rewrite (proj2 (N.eqb_neq _ _)), (proj2 (N.leb_le _ _)) by lia.
  - by rewrite N.sub_0_r.
  - by rewrite (proj2 (N.leb_le _ _)) by lia.
  - by rewrite N.sub_0_r.
Qed.

Lemma truncate_item_list_fits items st :
  (total_cost items ≤ remaining_budget st)%N →
  truncate_item_list policy estimate st items =
    Some (mkItems (out st ++ List.filter has_content items) (remaining_budget st - total_cost items)
            (omitted_text_items st) (omitted_audio_items st)).
Proof.
  revert st; induction items as [|i items IH]; intros st Hc; cbn [truncate_item_list].
  { cbn [List.filter total_cost foldr]. rewrite app_nil_r, N.sub_0_r. by destruct st. }
  rewrite total_cost_cons in *. rewrite truncate_item_fits by lia. cbn [mbind option_bind].
  rewrite IH by (cbn [remaining_budget]; lia). cbn [out remaining_budget omitted_text_items omitted_audio_items].
  rewrite <-app_assoc, <-List.filter_app, N.sub_add_distr. done.
Qed.

(** Items that together fit in the budget are all returned, empty texts
    apart, unchanged and without a marker. *)
Theorem truncate_items_fit items :
  (total_cost items ≤ budget)%N →
  truncate_function_output_items_with_policy policy estimate items = Some (List.filter has_content items).
Proof.
  intros Hc. unfold truncate_function_output_items_with_policy. fold budget.
  rewrite truncate_item_list_fits by done. cbn. by rewrite app_nil_r.
Qed.

Definition is_attachment (i : ContentItem) : bool :=
  match i with InputImage _ _ | EncryptedContent _ => true | _ => false end.

Lemma truncate_item_attachments st st' i :
  truncate_item policy estimate st i = Some st' →
  List.filter is_attachment (out st') = List.filter is_attachment (out st) ++ List.filter is_attachment [i].
Proof.
  destruct i as [text|url d|url|enc]; cbn [truncate_item].
  - destruct (is_empty text); [intros [= <-]; by rewrite app_nil_r|].
    destruct (_ =? _)%N; [intros [= <-]; by rewrite app_nil_r|].
    destruct (_ <=? _)%N; [intros [= <-]; apply List.filter_app|].
    destruct (truncate_text _ _) as [sn|]; [|done]. cbn [mbind option_bind].
    destruct (is_empty sn); intros [= <-]; cbn [out]; [by rewrite app_nil_r|by rewrite List.filter_app].
  - intros [= <-]. apply List.filter_app.
  - destruct (_ <=? _)%N; intros [= <-]; [apply List.filter_app|by rewrite app_nil_r].
  - intros [= <-]. apply List.filter_app.
Qed.

Lemma truncate_item_list_attachments items st st' :
  truncate_item_list policy estimate st items = Some st' →
  List.filter is_attachment (out st') = List.filter is_attachment (out st) ++ List.filter is_attachment items.
Proof.
  revert st; induction items as [|i items IH]; intros st; cbn [truncate_item_list].
  { intros [= <-]. by rewrite app_nil_r. }
  destruct (truncate_item policy estimate st i) as [st1|] eqn:H1; [|done]. cbn [mbind option_bind].
  intros Hrun. rewrite (IH _ Hrun), (truncate_item_attachments _ _ _ H1), <-app_assoc.
  by rewrite <-List.filter_app.
Qed.

(** Images and encrypted content are never dropped, changed or reordered. *)
Theorem truncate_items_attachments items out' :
  truncate_function_output_items_with_policy policy estimate items = Some out' →
  List.filter is_attachment out' = List.filter is_attachment items.
Proof.
  unfold truncate_function_output_items_with_policy.
  destruct (truncate_item_list _ _ _ items) as [st|] eqn:Hrun; [|done]. cbn [mbind option_bind]. intros [= <-].
  rewrite List.filter_app, (truncate_item_list_attachments _ _ _ Hrun). cbn [out List.filter app].
  assert (List.filter is_attachment (omission_markers st) = []) as ->; [|by rewrite app_nil_r].
  unfold omission_markers. by destruct (0 <? omitted_text_items st), (0 <? omitted_audio_items st).
Qed.
End items_spec.

(** ** Instances *)
Definition demo_text : str := $"hello world, this is long".

Lemma truncate_middle_chars_spec_witness :
  ∃ before mid after, middle_cut 5 5 demo_text before mid after ∧
    truncate_middle_chars demo_text 10 =
      Some (before ++ [ELLIPSIS] ++ fmt_nat (length mid) ++ $" chars truncated" ++ [ELLIPSIS] ++ after).
Proof.
  assert (Hs : rust_string demo_text) by (vm_compute; reflexivity).
  exact (truncate_middle_chars_spec demo_text 10 Hs).
Defined.

Lemma truncate_token_budget_spec_witness :
  ∃ truncated, truncate_middle_with_token_budget demo_text 2 =
    Some (truncated, if decide (truncated = demo_text) then None else Some (approx_token_count demo_text)).
Proof.
  assert (Hs : rust_string demo_text) by (vm_compute; reflexivity).
  destruct (truncate_token_budget_spec demo_text 2 Hs) as (t & Ht & _). exists t. exact Ht.
Defined.

Definition demo_items : list ContentItem :=
  [InputText ($"hello world"); InputImage ($"u") None; InputText []; InputAudio ($"a"); InputText ($"bye")].
Lemma demo_items_rust : rust_items demo_items.
Proof.
  intros text Hin. unfold demo_items in Hin. rewrite !elem_of_cons, elem_of_nil in Hin.
  destruct Hin as [[= ->]|[[=]|[[= ->]|[[=]|[[= ->]|[]]]]]]; vm_compute; reflexivity.
Qed.

Lemma truncate_items_accounting_witness :
  ∃ kept snippets rest st,
    truncate_function_output_items_with_policy (Bytes 8) (λ _, 1%N) demo_items =
      Some (kept ++ snippets ++ rest ++ omission_markers st) ∧ (kept ++ rest) `sublist_of` demo_items.
Proof.
  destruct (truncate_items_accounting (Bytes 8) (λ _, 1%N) demo_items demo_items_rust)
    as (kept & snippets & rest & st & H & Hs & _).
  exists kept, snippets, rest, st. split; [exact H|exact Hs].
Defined.

Lemma truncate_items_fit_witness :
  truncate_function_output_items_with_policy (Bytes 100) (λ _, 1%N) demo_items =
  Some [InputText ($"hello world"); InputImage ($"u") None; InputAudio ($"a"); InputText ($"bye")].
Proof. refine (truncate_items_fit (Bytes 100) (λ _, 1%N) demo_items _). vm_compute. discriminate. Defined.

Lemma truncate_items_attachments_witness :
  ∃ out', truncate_function_output_items_with_policy (Bytes 8) (λ _, 1%N) demo_items = Some out' ∧
    List.filter is_attachment out' = [InputImage ($"u") None].
Proof.
  eexists. split; [vm_compute; reflexivity|].
  refine (truncate_items_attachments (Bytes 8) (λ _, 1%N) demo_items _ _). vm_compute. reflexivity.
Defined.
