(* ===== verification/StreamText.v ===== *)
(** * Streamed text: [utils/stream-parser/src/stream_text.rs],
    [inline_hidden_tag.rs] and [citation.rs]

    The interface of parsers that are fed text in chunks, and the parser that
    hides inline tags and extracts what they enclose. It refines [strip_tags],
    a function of the whole text, for every way of cutting the text. Positions
    in strings are counted in characters. *)

From stdpp Require Import prelude list strings.
From S2P Require Import Prelude.

(** ** [stream_text.rs] *)
Record StreamTextChunk (E : Type) := mkChunk { visible_text : str; extracted : list E }.
Arguments mkChunk {E}.
Arguments visible_text {E}.
Arguments extracted {E}.

Definition empty_chunk {E} : StreamTextChunk E := mkChunk [] [].
Definition chunk_is_empty {E} (c : StreamTextChunk E) : bool := is_empty (visible_text c) && is_empty (extracted c).
(** Outputs of successive calls, put together as every caller does. *)
Definition chunk_app {E} (a b : StreamTextChunk E) : StreamTextChunk E :=
  mkChunk (visible_text a ++ visible_text b) (extracted a ++ extracted b).

Lemma chunk_app_assoc {E} (a b c : StreamTextChunk E) : chunk_app a (chunk_app b c) = chunk_app (chunk_app a b) c.
Proof. unfold chunk_app; cbn. by rewrite !app_assoc. Qed.
Lemma chunk_app_empty_l {E} (a : StreamTextChunk E) : chunk_app empty_chunk a = a.
Proof. by destruct a. Qed.
Lemma chunk_app_empty_r {E} (a : StreamTextChunk E) : chunk_app a empty_chunk = a.
Proof. destruct a. unfold chunk_app; cbn. by rewrite !app_nil_r. Qed.

(** The trait; [None] is a call that does not return. *)
Class StreamTextParser (P E : Type) := {
  push_str : P → str → option (P * StreamTextChunk E);
  finish : P → P * StreamTextChunk E
}.

(** Feeding a parser chunk by chunk to the end. *)
Fixpoint feed {P E} `{StreamTextParser P E} (p : P) (chunks : list str) : option (P * StreamTextChunk E) :=
  match chunks with
  | [] => Some (p, empty_chunk)
  | chunk :: chunks' =>
      '(p, out) ← push_str p chunk;
      '(p, rest) ← feed p chunks';
      Some (p, chunk_app out rest)
  end.
Definition feed_all {P E} `{StreamTextParser P E} (p : P) (chunks : list str) : option (StreamTextChunk E) :=
  '(p, out) ← feed p chunks;
  Some (chunk_app out (finish p).2).

(** ** [inline_hidden_tag.rs] *)
Section inline.
Context {T : Type}.

Record ExtractedInlineTag := mkExtracted { ex_tag : T; ex_content : str }.
Record InlineTagSpec := mkSpec { spec_tag : T; open : str; close : str }.
Record ActiveTag := mkActive { act_tag : T; act_close : str; act_content : str }.
Record InlineHiddenTagParser := mkInline {
  specs : list InlineTagSpec;
  pending : str;
  active : option ActiveTag
}.

(** [None] is a failed assertion. *)
Definition inline_new (specs : list InlineTagSpec) : option InlineHiddenTagParser :=
  if negb (is_empty specs) && forallb (λ spec, negb (is_empty (open spec)) && negb (is_empty (close spec))) specs
  then Some (mkInline specs [] None) else None.

Fixpoint suffix_prefix_from (k : nat) (s needle : str) : nat :=
  match k with
  | 0 => 0
  | S k' => if ends_with (take k needle) s then k else suffix_prefix_from k' s needle
  end.
Definition longest_suffix_prefix_len (s needle : str) : nat :=
  suffix_prefix_from (min (length s) (length needle - 1)) s needle.

(** The order of the [min_by]: earliest, then longest, then first listed. *)
Definition open_before (a b : nat * nat * nat) : bool :=
  let '(pos_a, len_a, idx_a) := a in
  let '(pos_b, len_b, idx_b) := b in
  (pos_a <? pos_b) || (pos_a =? pos_b) && ((len_b <? len_a) || (len_a =? len_b) && (idx_a <? idx_b)).
Definition min_open (best : option (nat * nat * nat)) (x : nat * nat * nat) : option (nat * nat * nat) :=
  match best with
  | None => Some x
  | Some b => if open_before x b then Some x else Some b
  end.

Definition find_next_open (specs : list InlineTagSpec) (pending : str) : option (nat * nat) :=
  let candidates := omap id (imap (λ idx spec,
    (λ pos, (pos, str_len (open spec), idx)) <$> find_str (open spec) pending) specs) in
  match foldl min_open None candidates with
  | Some (pos, _, idx) => Some (pos, idx)
  | None => None
  end.

Definition max_open_prefix_suffix_len (specs : list InlineTagSpec) (pending : str) : nat :=
  foldr max 0 ((λ spec, longest_suffix_prefix_len pending (open spec)) <$> specs).

(** The loop of [push_str]; each round but the last consumes a delimiter, so
    the number of pending characters bounds the rounds. *)
Fixpoint inline_loop (fuel : nat) (p : InlineHiddenTagParser) (out : StreamTextChunk ExtractedInlineTag)
    : option (InlineHiddenTagParser * StreamTextChunk ExtractedInlineTag) :=
  match fuel with
  | 0 => None
  | S fuel' =>
      match active p with
      | Some act =>
          match find_str (act_close act) (pending p) with
          | Some close_idx =>
              let content := act_content act ++ take close_idx (pending p) in
              inline_loop fuel'
                (mkInline (specs p) (drop (close_idx + length (act_close act)) (pending p)) None)
                (mkChunk (visible_text out) (extracted out ++ [mkExtracted (act_tag act) content]))
          | None =>
              let keep := longest_suffix_prefix_len (pending p) (act_close act) in
              let n := length (pending p) - keep in
              Some (mkInline (specs p) (drop n (pending p))
                      (Some (mkActive (act_tag act) (act_close act) (act_content act ++ take n (pending p)))), out)
          end
      | None =>
          match find_next_open (specs p) (pending p) with
          | Some (open_idx, spec_idx) =>
              match specs p !! spec_idx with
              | None => None
              | Some spec =>
                  inline_loop fuel'
                    (mkInline (specs p) (drop (open_idx + length (open spec)) (pending p))
                      (Some (mkActive (spec_tag spec) (close spec) [])))
                    (mkChunk (visible_text out ++ take open_idx (pending p)) (extracted out))
              end
          | None =>
              let keep := max_open_prefix_suffix_len (specs p) (pending p) in
              let n := length (pending p) - keep in
              Some (mkInline (specs p) (drop n (pending p)) None,
                    mkChunk (visible_text out ++ take n (pending p)) (extracted out))
          end
      end
  end.

Definition inline_push_str (p : InlineHiddenTagParser) (chunk : str)
    : option (InlineHiddenTagParser * StreamTextChunk ExtractedInlineTag) :=
  let p := mkInline (specs p) (pending p ++ chunk) (active p) in
  inline_loop (S (length (pending p))) p empty_chunk.

Definition inline_finish (p : InlineHiddenTagParser) : InlineHiddenTagParser * StreamTextChunk ExtractedInlineTag :=
  match active p with
  | Some act => (mkInline (specs p) [] None, mkChunk [] [mkExtracted (act_tag act) (act_content act ++ pending p)])
  | None => (mkInline (specs p) [] None, mkChunk (pending p) [])
  end.

#[global] Instance inline_parser : StreamTextParser InlineHiddenTagParser ExtractedInlineTag :=
  {| push_str := inline_push_str; finish := inline_finish |}.
End inline.
Arguments ExtractedInlineTag : clear implicits.
Arguments InlineTagSpec : clear implicits.
Arguments ActiveTag : clear implicits.
Arguments InlineHiddenTagParser : clear implicits.

(** ** [citation.rs] *)
Inductive CitationTag : Type := Citation.
Definition CITATION_OPEN : str := $"<oai-mem-citation>".
Definition CITATION_CLOSE : str := $"</oai-mem-citation>".
Definition citation_spec : InlineTagSpec CitationTag := mkSpec Citation CITATION_OPEN CITATION_CLOSE.

Record CitationStreamParser := mkCitation { inner : InlineHiddenTagParser CitationTag }.
Definition citation_new : option CitationStreamParser := mkCitation <$> inline_new [citation_spec].

Definition citation_chunk (c : StreamTextChunk (ExtractedInlineTag CitationTag)) : StreamTextChunk str :=
  mkChunk (visible_text c) (ex_content <$> extracted c).
Definition citation_push_str (p : CitationStreamParser) (chunk : str) : option (CitationStreamParser * StreamTextChunk str) :=
  '(q, c) ← push_str (inner p) chunk;
  Some (mkCitation q, citation_chunk c).
Definition citation_finish (p : CitationStreamParser) : CitationStreamParser * StreamTextChunk str :=
  let '(q, c) := finish (inner p) in (mkCitation q, citation_chunk c).
#[global] Instance citation_parser : StreamTextParser CitationStreamParser str :=
  {| push_str := citation_push_str; finish := citation_finish |}.

Definition strip_citations (text : str) : option (str * list str) :=
  p ← citation_new;
  '(p, out) ← push_str p text;
  let '(_, tail) := finish p in
  Some (visible_text out ++ visible_text tail, extracted out ++ extracted tail).

Example strip_citations_example :
  strip_citations ($"a<oai-mem-citation>doc</oai-mem-citation>b<oai-mem-") =
  Some ($"ab<oai-mem-", [ $"doc"]).
Proof. vm_compute. reflexivity. Qed.

(** ** Searching *)
Definition at_pos (p s : str) (j : nat) : Prop := starts_with p (drop j s) = true.

Lemma find_str_Some p s i :
  find_str p s = Some i ↔ at_pos p s i ∧ i ≤ length s ∧ ∀ j, j < i → ¬ at_pos p s j.
Proof.
  revert i; induction s as [|c s IH]; intros i; cbn [find_str].
  - unfold at_pos. destruct (starts_with p []) eqn:H0; rewrite ?drop_nil; split.
    + intros [= <-]. cbn. split_and!; [done|lia|lia].
    + intros (_ & Hi & _). cbn in Hi. f_equal. lia.
    + done.
    + intros (Hi & _). congruence.
  - destruct (starts_with p (c :: s)) eqn:H0.
    + split; [intros [= <-]; split_and!; [done|cbn; lia|lia]|].
      intros (_ & _ & Hmin). destruct i as [|i]; [done|]. destruct (Hmin 0); [lia|done].
    + rewrite fmap_Some. setoid_rewrite IH. split.
      * intros (j & (Hj & Hl & Hmin) & ->). split_and!; [done|cbn; lia|].
        intros [|k] Hk; [unfold at_pos; cbn; congruence|]. apply Hmin. lia.
      * intros (Hi & Hl & Hmin). destruct i as [|i]; [unfold at_pos in Hi; cbn in Hi; congruence|].
        exists i. split; [|done]. split_and!; [done|cbn in Hl; lia|]. intros j Hj. apply (Hmin (S j)). lia.
Qed.

Lemma find_str_None p s : p ≠ [] → find_str p s = None ↔ ∀ j, ¬ at_pos p s j.
Proof.
  intros Hp. split.
  - intros Hn j Hj.
    assert (Hlt : j < length s).
    { destruct (decide (j < length s)); [done|]. unfold at_pos in Hj. rewrite drop_ge in Hj by lia. by destruct p. }
    clear Hp. revert j Hj Hlt Hn. induction s as [|c s IH]; intros j Hj Hlt; [cbn in Hlt; lia|].
    cbn [find_str]. destruct (starts_with p (c :: s)) eqn:H0; [done|].
    destruct j as [|j]; [unfold at_pos in Hj; cbn in Hj; congruence|].
    intros ?%fmap_None. apply (IH j); [done| |done]. cbn in Hlt. lia.
  - intros Hno. destruct (find_str p s) as [i|] eqn:Hf; [|done].
    apply find_str_Some in Hf as (Hi & _). by destruct (Hno i).
Qed.

Lemma at_pos_app p s t j : at_pos p s j → at_pos p (s ++ t) j.
Proof.
  unfold at_pos. intros [r Hr]%starts_with_true. apply starts_with_true.
  destruct (decide (j ≤ length s)).
  - exists (r ++ t). by rewrite drop_app_le, Hr, <-app_assoc by done.
  - rewrite drop_ge in Hr by lia. destruct p; [|done]. by eexists.
Qed.

Lemma at_pos_app_inv p s t j : j + length p ≤ length s → at_pos p (s ++ t) j → at_pos p s j.
Proof.
  unfold at_pos. intros Hj. rewrite drop_app_le by lia. intros [r Hr]%starts_with_true.
  apply starts_with_true. apply (f_equal (take (length p))) in Hr as Ht.
  rewrite take_app_length, take_app_le in Ht by (rewrite length_drop; lia).
  exists (drop (length p) (drop j s)). by rewrite <-(take_drop (length p) (drop j s)), Ht at 1.
Qed.

Lemma at_pos_length p s j : p ≠ [] → at_pos p s j → j + length p ≤ length s.
Proof.
  unfold at_pos. intros Hp [r Hr]%starts_with_true. apply (f_equal length) in Hr.
  rewrite length_drop, length_app in Hr. destruct p; [done|]. cbn in *. lia.
Qed.

Lemma find_str_app p s t i : p ≠ [] → find_str p s = Some i → find_str p (s ++ t) = Some i.
Proof.
  intros Hp (Hi & Hl & Hmin)%find_str_Some. apply find_str_Some.
  split_and!; [by apply at_pos_app|rewrite length_app; lia|]. intros j Hj Hat.
  apply (Hmin j Hj). eapply at_pos_app_inv; [|done].
  pose proof (at_pos_length _ _ _ Hp Hi). lia.
Qed.

Lemma find_str_bound p s i : p ≠ [] → find_str p s = Some i → i + length p ≤ length s.
Proof. intros Hp (Hi & _)%find_str_Some. by apply at_pos_length. Qed.

(** ** The suffix that may start a delimiter *)
Lemma suffix_prefix_from_spec n s needle :
  let k := suffix_prefix_from n s needle in
  k ≤ n ∧ (k = 0 ∨ ends_with (take k needle) s = true) ∧
  ∀ j, k < j → j ≤ n → ends_with (take j needle) s = false.
Proof.
  induction n as [|n IH]; cbn zeta; cbn [suffix_prefix_from]; [split_and!; [lia|by left|lia]|].
  destruct (ends_with (take (S n) needle) s) eqn:He.
  - split_and!; [lia|by right|lia].
  - destruct IH as (Hk & Hor & Hmax). split_and!; [lia|done|]. intros j Hj Hjn.
    destruct (decide (j = S n)) as [->|]; [done|]. apply Hmax; lia.
Qed.

(** No occurrence of the needle starts before the kept suffix, whatever comes. *)
Lemma keep_suffix p s t j :
  p ≠ [] → find_str p s = None → at_pos p (s ++ t) j →
  length s - longest_suffix_prefix_len s p ≤ j.
Proof.
  intros Hp Hn Hat. destruct (decide (length s ≤ j)); [lia|].
  unfold longest_suffix_prefix_len.
  destruct (suffix_prefix_from_spec (min (length s) (length p - 1)) s p) as (_ & _ & Hmax).
  set (k := suffix_prefix_from _ _ _) in *.
  destruct (decide (length s - k ≤ j)); [done|]. exfalso.
  destruct (decide (j + length p ≤ length s)) as [Hin|Hin].
  { destruct (proj1 (find_str_None p s Hp) Hn j). by eapply at_pos_app_inv. }
  assert (Hf : ends_with (take (length s - j) p) s = false) by (apply Hmax; lia).
  apply not_true_iff_false in Hf. apply Hf, ends_with_true. exists (take j s).
  unfold at_pos in Hat. apply starts_with_true in Hat as [r Hr]. rewrite drop_app_le in Hr by lia.
  apply (f_equal (take (length s - j))) in Hr.
  rewrite take_app_le, take_ge in Hr by (rewrite length_drop; lia).
  rewrite take_app_le in Hr by lia. rewrite <-Hr. by rewrite take_drop.
Qed.

Lemma keep_le p s : longest_suffix_prefix_len s p ≤ length s.
Proof.
  unfold longest_suffix_prefix_len.
  destruct (suffix_prefix_from_spec (min (length s) (length p - 1)) s p) as (H & _). lia.
Qed.

(** Cutting the kept suffix off moves the search along. *)
Lemma find_str_keep p s t n :
  p ≠ [] → find_str p s = None → n = length s - longest_suffix_prefix_len s p →
  find_str p (s ++ t) = (λ i, n + i) <$> find_str p (drop n s ++ t).
Proof.
  intros Hp Hn Hneq. pose proof (keep_le p s) as Hle.
  assert (Hpos : ∀ j, at_pos p (s ++ t) (n + j) ↔ at_pos p (drop n s ++ t) j).
  { intros j. unfold at_pos. rewrite <-drop_app_le, drop_drop by lia. done. }
  destruct (find_str p (drop n s ++ t)) as [i|] eqn:Hi; cbn.
  - apply find_str_Some in Hi as (Hi & Hl & Hmin). apply find_str_Some. split_and!.
    + by apply Hpos.
    + rewrite length_app, length_drop in *. lia.
    + intros j Hj Hat. pose proof (keep_suffix p s t j Hp Hn Hat) as Hk.
      apply (Hmin (j - n)); [lia|]. apply Hpos. by replace (n + (j - n)) with j by lia.
  - apply find_str_None; [done|]. intros j Hat. pose proof (keep_suffix p s t j Hp Hn Hat).
    apply (proj1 (find_str_None _ _ Hp) Hi (j - n)), Hpos. by replace (n + (j - n)) with j by lia.
Qed.

(** ** The specification: hiding one tag in a whole text *)
Section hiding.
Context (o c : str).

(** Outside a tag, the text up to the next [o] is visible; inside, the text up
    to the next [c] (or to the end) is the content. *)
Fixpoint strip_go (fuel : nat) (inside : option str) (s : str) : str * list str :=
  match fuel with
  | 0 => ([], [])
  | S fuel' =>
      match inside with
      | None =>
          match find_str o s with
          | None => (s, [])
          | Some i => let '(v, e) := strip_go fuel' (Some []) (drop (i + length o) s) in (take i s ++ v, e)
          end
      | Some k =>
          match find_str c s with
          | None => ([], [k ++ s])
          | Some i => let '(v, e) := strip_go fuel' None (drop (i + length c) s) in (v, (k ++ take i s) :: e)
          end
      end
  end.
Definition strip_tags (inside : option str) (s : str) : str * list str := strip_go (S (length s)) inside s.

Hypothesis (Ho : o ≠ []) (Hc : c ≠ []).

Lemma drop_shorter p (s : str) i : p ≠ [] → find_str p s = Some i → length (drop (i + length p) s) < length s.
Proof.
  intros Hp Hf. pose proof (find_str_bound _ _ _ Hp Hf). rewrite length_drop.
  destruct p; [done|]. cbn in *. lia.
Qed.

Lemma strip_go_enough n m inside s :
  length s < n → length s < m → strip_go n inside s = strip_go m inside s.
Proof.
  revert m inside s; induction n as [|n IH]; intros [|m] inside s Hn Hm; try lia. cbn [strip_go].
  destruct inside as [k|].
  - destruct (find_str c s) as [i|] eqn:Hf; [|done]. pose proof (drop_shorter _ _ _ Hc Hf).
    by rewrite (IH m) by lia.
  - destruct (find_str o s) as [i|] eqn:Hf; [|done]. pose proof (drop_shorter _ _ _ Ho Hf).
    by rewrite (IH m) by lia.
Qed.

Lemma strip_tags_outside s :
  strip_tags None s =
    match find_str o s with
    | None => (s, [])
    | Some i => let '(v, e) := strip_tags (Some []) (drop (i + length o) s) in (take i s ++ v, e)
    end.
Proof.
  unfold strip_tags at 1. cbn [strip_go]. destruct (find_str o s) as [i|] eqn:Hf; [|done].
  pose proof (drop_shorter _ _ _ Ho Hf). unfold strip_tags.
  rewrite (strip_go_enough (length s) (S (length (drop (i + length o) s)))) by lia. done.
Qed.

Lemma strip_tags_inside k s :
  strip_tags (Some k) s =
    match find_str c s with
    | None => ([], [k ++ s])
    | Some i => let '(v, e) := strip_tags None (drop (i + length c) s) in (v, (k ++ take i s) :: e)
    end.
Proof.
  unfold strip_tags at 1. cbn [strip_go]. destruct (find_str c s) as [i|] eqn:Hf; [|done].
  pose proof (drop_shorter _ _ _ Hc Hf). unfold strip_tags.
  rewrite (strip_go_enough (length s) (S (length (drop (i + length c) s)))) by lia. done.
Qed.

(** Text that cannot be part of a delimiter may be moved out. *)
Lemma strip_tags_outside_keep s t n :
  find_str o s = None → n = length s - longest_suffix_prefix_len s o →
  strip_tags None (s ++ t) =
    let '(v, e) := strip_tags None (drop n s ++ t) in (take n s ++ v, e).
Proof.
  intros Hn Hneq. rewrite !strip_tags_outside, (find_str_keep o s t n) by done.
  assert (Hle : n ≤ length s) by lia.
  assert (Hst : s ++ t = take n s ++ drop n s ++ t) by (by rewrite app_assoc, take_drop).
  assert (Hl : length (take n s) = n) by (rewrite length_take; lia).
  destruct (find_str o (drop n s ++ t)) as [i|]; cbn [fmap option_fmap option_map].
  - replace (drop (n + i + length o) (s ++ t)) with (drop (i + length o) (drop n s ++ t)).
    2: { rewrite <-drop_app_le, drop_drop by lia. f_equal. lia. }
    destruct (strip_tags (Some []) _) as [v e]. f_equal. rewrite Hst at 1.
    rewrite take_app_add', <-app_assoc by done. done.
  - by rewrite Hst.
Qed.

Lemma strip_tags_inside_keep k s t n :
  find_str c s = None → n = length s - longest_suffix_prefix_len s c →
  strip_tags (Some k) (s ++ t) = strip_tags (Some (k ++ take n s)) (drop n s ++ t).
Proof.
  intros Hn Hneq. rewrite !strip_tags_inside, (find_str_keep c s t n) by done.
  assert (Hle : n ≤ length s) by lia.
  assert (Hst : s ++ t = take n s ++ drop n s ++ t) by (by rewrite app_assoc, take_drop).
  assert (Hl : length (take n s) = n) by (rewrite length_take; lia).
  destruct (find_str c (drop n s ++ t)) as [i|]; cbn [fmap option_fmap option_map].
  - replace (drop (n + i + length c) (s ++ t)) with (drop (i + length c) (drop n s ++ t)).
    2: { rewrite <-drop_app_le, drop_drop by lia. f_equal. lia. }
    destruct (strip_tags None _) as [v e]. do 2 f_equal. rewrite Hst at 1.
    rewrite take_app_add', <-app_assoc by done. done.
  - rewrite Hst. by rewrite <-app_assoc.
Qed.
End hiding.

(** ** The parser of one tag refines the specification *)
Section refinement.
Context {T : Type} (spec : InlineTagSpec T).
Hypothesis (Ho : open spec ≠ []) (Hc : close spec ≠ []).
Implicit Types p : InlineHiddenTagParser T.
Notation strip := (strip_tags (open spec) (close spec)).

Definition inside_of p : option str := act_content <$> active p.
Ltac cbn_state := cbn [inside_of active pending fmap option_fmap option_map act_content app].
Tactic Notation "cbn_state" "in" hyp(H) :=
  cbn [inside_of active pending fmap option_fmap option_map act_content app] in H.

Definition single_inv p : Prop :=
  specs p = [spec] ∧ ∀ act, active p = Some act → act_close act = close spec ∧ act_tag act = spec_tag spec.
(** Nothing the parser is looking for is left in the pending text. *)
Definition quiet p : Prop :=
  match active p with
  | None => find_str (open spec) (pending p) = None
  | Some _ => find_str (close spec) (pending p) = None
  end.
Definition tagged (es : list str) : list (ExtractedInlineTag T) := mkExtracted (spec_tag spec) <$> es.

Lemma find_next_open_single s : find_next_open [spec] s = (λ i, (i, 0)) <$> find_str (open spec) s.
Proof. unfold find_next_open. cbn. by destruct (find_str (open spec) s). Qed.
Lemma max_open_single s : max_open_prefix_suffix_len [spec] s = longest_suffix_prefix_len s (open spec).
Proof. unfold max_open_prefix_suffix_len. cbn. lia. Qed.

Lemma find_str_drop d s n : d ≠ [] → find_str d s = None → find_str d (drop n s) = None.
Proof.
  intros Hd Hn. apply find_str_None; [done|]. intros j Hj.
  apply (proj1 (find_str_None _ _ Hd) Hn (n + j)). unfold at_pos in *. by rewrite drop_drop in Hj.
Qed.

(** One output [(v, es)] and the text still to come make up the whole. *)
Definition accounts p p' (v : str) (es : list str) (chunk : str) : Prop :=
  ∀ t, strip (inside_of p) (pending p ++ chunk ++ t) =
    let '(v', es') := strip (inside_of p') (pending p' ++ t) in (v ++ v', es ++ es').

Lemma accounts_trans p q r v v' es es' a b :
  accounts p q v es a → accounts q r v' es' b → accounts p r (v ++ v') (es ++ es') (a ++ b).
Proof.
  intros H1 H2 t. rewrite <-app_assoc, H1, H2. destruct (strip (inside_of r) _). by rewrite !app_assoc.
Qed.

Lemma drop_found d s t i :
  d ≠ [] → find_str d s = Some i →
  find_str d (s ++ t) = Some i ∧ take i (s ++ t) = take i s ∧
  drop (i + length d) (s ++ t) = drop (i + length d) s ++ t.
Proof.
  intros Hd Hf. pose proof (find_str_bound _ _ _ Hd Hf).
  split; [by apply find_str_app|]. by rewrite take_app_le, drop_app_le by lia.
Qed.

Lemma inline_loop_spec fuel p out :
  length (pending p) < fuel → single_inv p →
  ∃ p' v es, inline_loop fuel p out = Some (p', chunk_app out (mkChunk v (tagged es))) ∧
    single_inv p' ∧ quiet p' ∧ accounts p p' v es [].
Proof.
  revert p out; induction fuel as [|fuel IH]; intros [sp s act] out Hfuel [Hsp Hact]; cbn [specs pending] in Hsp, Hfuel; [lia|subst sp].
  cbn [inline_loop active pending specs].
  destruct act as [[tg cl k]|].
  - destruct (Hact _ eq_refl) as [Hcl Htg]; cbn in Hcl, Htg; subst cl tg. cbn [act_close act_tag act_content].
    destruct (find_str (close spec) s) as [i|] eqn:Hf.
    + pose proof (drop_shorter (close spec) s i Hc Hf) as Hlt.
      destruct (IH (mkInline [spec] (drop (i + length (close spec)) s) None)
        (mkChunk (visible_text out) (extracted out ++ [mkExtracted (spec_tag spec) (k ++ take i s)])))
        as (p' & v & es & -> & Hinv & Hq & Hacc); [cbn; lia|done|].
      exists p', v, ((k ++ take i s) :: es). split_and!; [|done|done|].
      * unfold chunk_app; cbn. by rewrite <-app_assoc.
      * intros t. cbn_state.
        destruct (drop_found (close spec) s t i Hc Hf) as (Hf' & Htk & Hdr).
        rewrite strip_tags_inside, Hf', Htk, Hdr by done. specialize (Hacc t). cbn_state in Hacc. rewrite Hacc.
        by destruct (strip (inside_of p') _).
    + eexists _, [], []. split_and!; [do 2 f_equal; symmetry; apply chunk_app_empty_r| |by apply find_str_drop|].
      * split; [done|]. by intros ? [= <-].
      * intros t. cbn_state.
        erewrite strip_tags_inside_keep by done. by destruct (strip _ _).
  - rewrite find_next_open_single, max_open_single. destruct (find_str (open spec) s) as [i|] eqn:Hf; cbn.
    + pose proof (drop_shorter (open spec) s i Ho Hf) as Hlt.
      destruct (IH (mkInline [spec] (drop (i + length (open spec)) s) (Some (mkActive (spec_tag spec) (close spec) [])))
        (mkChunk (visible_text out ++ take i s) (extracted out)))
        as (p' & v & es & -> & Hinv & Hq & Hacc); [cbn; lia|split; [done|by intros ? [= <-]]|].
      exists p', (take i s ++ v), es. split_and!; [|done|done|].
      * unfold chunk_app; cbn. by rewrite <-app_assoc.
      * intros t. cbn_state.
        destruct (drop_found (open spec) s t i Ho Hf) as (Hf' & Htk & Hdr).
        rewrite strip_tags_outside, Hf', Htk, Hdr by done. specialize (Hacc t). cbn_state in Hacc. rewrite Hacc.
        destruct (strip (inside_of p') _). by rewrite <-app_assoc.
    + eexists _, (take (length s - longest_suffix_prefix_len s (open spec)) s), [].
      split_and!; [unfold chunk_app; cbn; by rewrite app_nil_r| |by apply find_str_drop|].
      * split; [done|]. by intros ?.
      * intros t. cbn_state.
        erewrite strip_tags_outside_keep by done. by destruct (strip _ _).
Qed.

Lemma inline_push_spec p chunk :
  single_inv p →
  ∃ p' v es, push_str p chunk = Some (p', mkChunk v (tagged es)) ∧ single_inv p' ∧ quiet p' ∧ accounts p p' v es chunk.
Proof.
  intros [Hsp Hact]. destruct (inline_loop_spec (S (length (pending p ++ chunk)))
    (mkInline (specs p) (pending p ++ chunk) (active p)) empty_chunk) as (p' & v & es & Hrun & Hinv & Hq & Hacc); [cbn; lia|done|].
  exists p', v, es. split_and!; [|done|done|].
  - change (push_str p chunk) with (inline_push_str p chunk). unfold inline_push_str. cbn [pending].
    by rewrite Hrun, chunk_app_empty_l.
  - intros t. specialize (Hacc t). cbn_state in Hacc. by rewrite <-app_assoc in Hacc.
Qed.

Lemma inline_feed_spec chunks p :
  single_inv p → quiet p →
  ∃ p' v es, feed p chunks = Some (p', mkChunk v (tagged es)) ∧ single_inv p' ∧ quiet p' ∧ accounts p p' v es (mjoin chunks).
Proof.
  revert p; induction chunks as [|chunk chunks IH]; intros p Hp Hq; cbn [feed].
  { exists p, [], []. split_and!; try done. intros t. cbn [mjoin list_join app].
    by destruct (strip (inside_of p) _). }
  destruct (inline_push_spec p chunk Hp) as (p1 & v1 & es1 & -> & Hp1 & Hq1 & Hacc1). cbn [mbind option_bind].
  destruct (IH p1 Hp1 Hq1) as (p2 & v2 & es2 & -> & Hp2 & Hq2 & Hacc2). cbn [mbind option_bind].
  exists p2, (v1 ++ v2), (es1 ++ es2). split_and!; [|done|done|by eapply accounts_trans].
  unfold chunk_app, tagged; cbn. by rewrite fmap_app.
Qed.

Lemma inline_finish_spec p :
  single_inv p → quiet p →
  (finish p).2 = let '(v, es) := strip (inside_of p) (pending p) in mkChunk v (tagged es).
Proof.
  destruct p as [sp s [[tg cl k]|]]; intros [Hsp Hact] Hq;
    unfold quiet in Hq; cbn [active pending] in Hq; cbn_state.
  - destruct (Hact _ eq_refl) as [Hcl Htg]; cbn in Htg; subst tg.
    by rewrite strip_tags_inside, Hq by done.
  - by rewrite strip_tags_outside, Hq by done.
Qed.

(** However the text is cut, the outputs put together are those of the whole. *)
Lemma inline_feed_all chunks :
  feed_all (mkInline [spec] [] None) chunks =
    let '(v, es) := strip None (mjoin chunks) in Some (mkChunk v (tagged es)).
Proof.
  unfold feed_all.
  destruct (inline_feed_spec chunks (mkInline [spec] [] None)) as (p' & v & es & -> & Hp & Hq & Hacc).
  { split; [done|]. by intros ?. }
  { unfold quiet; cbn. by destruct (open spec). }
  cbn [mbind option_bind]. rewrite inline_finish_spec by done.
  specialize (Hacc []). cbn_state in Hacc. rewrite !app_nil_r in Hacc. rewrite Hacc.
  destruct (strip (inside_of p') (pending p')) as [v' es']. unfold chunk_app, tagged; cbn. by rewrite fmap_app.
Qed.
End refinement.

(** ** What a parser promises its clients

    Fed from [init] to the end, it computes a function of the whole text, up to
    [sim]. *)
Class Streams {P E : Type} `{StreamTextParser P E} (init : P) (sim : relation (StreamTextChunk E)) := {
  whole : str → StreamTextChunk E;
  feed_all_whole : ∀ chunks, ∃ out, feed_all init chunks = Some out ∧ sim out (whole (mjoin chunks))
}.

Lemma citation_feed q chunks :
  feed (mkCitation q) chunks = (λ '(q, c), (mkCitation q, citation_chunk c)) <$> feed q chunks.
Proof.
  revert q; induction chunks as [|chunk chunks IH]; intros q; cbn [feed]; [done|].
  cbn [push_str citation_parser]. unfold citation_push_str. cbn [inner].
  destruct (push_str q chunk) as [[q1 c1]|]; [|done]. cbn [mbind option_bind]. rewrite IH.
  destruct (feed q1 chunks) as [[q2 c2]|]; [|done]. cbn. do 2 f_equal.
  unfold chunk_app, citation_chunk; cbn. by rewrite fmap_app.
Qed.

Lemma citation_feed_all q chunks : feed_all (mkCitation q) chunks = citation_chunk <$> feed_all q chunks.
Proof.
  unfold feed_all. rewrite citation_feed. destruct (feed q chunks) as [[q' c]|]; [|done].
  cbn [fmap option_fmap option_map mbind option_bind]. f_equal.
  cbn [finish citation_parser]. unfold citation_finish. cbn [inner]. destruct (finish q') as [q2 c2]. cbn [snd].
  unfold chunk_app, citation_chunk; cbn. by rewrite fmap_app.
Qed.

Definition citation_init : CitationStreamParser := mkCitation (mkInline [citation_spec] [] None).
(** Citations hidden in a whole text. *)
Definition hide_citations (text : str) : StreamTextChunk str :=
  let '(v, es) := strip_tags CITATION_OPEN CITATION_CLOSE None text in mkChunk v es.

Lemma citation_feed_whole chunks : feed_all citation_init chunks = Some (hide_citations (mjoin chunks)).
Proof.
  unfold citation_init. rewrite citation_feed_all, inline_feed_all by done. unfold hide_citations.
  change (open citation_spec) with CITATION_OPEN. change (close citation_spec) with CITATION_CLOSE.
  destruct (strip_tags _ _ _ _) as [v es]. cbn. unfold citation_chunk, tagged; cbn.
  rewrite <-list_fmap_compose. cbn. by rewrite list_fmap_id.
Qed.

#[global] Instance citation_streams : Streams citation_init (=).
Proof. exists hide_citations. intros chunks. eexists. split; [apply citation_feed_whole|done]. Defined.

(** C32: The citation parser always returns, and however a message is cut into
    chunks, what it shows and the citations it extracts are those of the whole
    message: a citation runs from its opening tag to the next closing one, or
    to the end, and the rest is visible. *)
Theorem citation_stream_refines chunks :
  citation_new = Some citation_init ∧
  feed_all citation_init chunks = Some (hide_citations (mjoin chunks)) ∧
  strip_citations (mjoin chunks) =
    Some (visible_text (hide_citations (mjoin chunks)), extracted (hide_citations (mjoin chunks))).
Proof.
  split; [done|]. split; [apply citation_feed_whole|].
  pose proof (citation_feed_whole [mjoin chunks]) as H. cbn [mjoin list_join] in H. rewrite app_nil_r in H.
  unfold strip_citations. change citation_new with (Some citation_init). cbn [mbind option_bind].
  unfold feed_all in H. cbn [feed] in H.
  destruct (push_str citation_init (mjoin chunks)) as [[p out]|]; [|done]. cbn [mbind option_bind] in H |- *.
  rewrite chunk_app_empty_r in H. apply (inj Some) in H. rewrite <-H. destruct (finish p) as [p' tail]. done.
Qed.

(** For any tag with non-empty delimiters text without a complete
    opening tag passes through unchanged and nothing is extracted, however it is
    cut. *)
Theorem inline_plain_text {T} (spec : InlineTagSpec T) chunks :
  open spec ≠ [] → close spec ≠ [] → find_str (open spec) (mjoin chunks) = None →
  feed_all (mkInline [spec] [] None) chunks = Some (mkChunk (mjoin chunks) []).
Proof.
  intros Ho Hc Hn. rewrite inline_feed_all by done. by rewrite strip_tags_outside, Hn by done.
Qed.

Lemma inline_plain_text_witness :
  feed_all (mkInline [citation_spec] [] None) [ $"a <oai-"; $"mem"; $" b"] = Some (mkChunk ($"a <oai-mem b") []).
Proof.
  refine (inline_plain_text citation_spec [ $"a <oai-"; $"mem"; $" b"] _ _ _); done.
Defined.
