(* ===== verification/PlanParser.v ===== *)
(** * Plan blocks in streamed text: [utils/stream-parser/src/tagged_line_parser.rs]
    and [proposed_plan.rs]

    Tags that stand alone on a line delimit blocks. The parser holds a line back
    only while it may still turn out to be a tag; it refines [line_spec], which
    looks at complete lines. How text is grouped into segments depends on the
    chunks, so the two are compared by the events the segments stand for. *)

From stdpp Require Import prelude list strings.
From S2P Require Import Prelude StreamText.

(** ** [tagged_line_parser.rs] *)
Record TagSpec (T : Type) := mkTagSpec { tag_open : str; tag_close : str; tag : T }.
Arguments mkTagSpec {T}.
Arguments tag_open {T}.
Arguments tag_close {T}.
Arguments tag {T}.

Inductive TaggedLineSegment (T : Type) : Type :=
| Normal (text : str)
| TagStart (tag : T)
| TagDelta (tag : T) (text : str)
| TagEnd (tag : T).
Arguments Normal {T}.
Arguments TagStart {T}.
Arguments TagDelta {T}.
Arguments TagEnd {T}.

Section tagged.
Context {T : Type} `{EqDecision T}.

Record TaggedLineParser := mkTagged {
  tl_specs : list (TagSpec T);
  active_tag : option T;
  detect_tag : bool;
  line_buffer : str
}.
Definition tagged_new (specs : list (TagSpec T)) : TaggedLineParser := mkTagged specs None true [].

Definition push_segment (segments : list (TaggedLineSegment T)) (segment : TaggedLineSegment T) : list (TaggedLineSegment T) :=
  match segment with
  | Normal delta =>
      if is_empty delta then segments else
      match last segments with
      | Some (Normal existing) => update_last (λ _, Normal (existing ++ delta)) segments
      | _ => segments ++ [Normal delta]
      end
  | TagDelta t delta =>
      if is_empty delta then segments else
      match last segments with
      | Some (TagDelta existing_tag existing) =>
          if decide (existing_tag = t) then update_last (λ _, TagDelta existing_tag (existing ++ delta)) segments
          else segments ++ [TagDelta t delta]
      | _ => segments ++ [TagDelta t delta]
      end
  | TagStart t => segments ++ [TagStart t]
  | TagEnd t => segments ++ [TagEnd t]
  end.

Definition push_text (p : TaggedLineParser) (text : str) (segments : list (TaggedLineSegment T)) : list (TaggedLineSegment T) :=
  match active_tag p with
  | Some t => push_segment segments (TagDelta t text)
  | None => push_segment segments (Normal text)
  end.

Definition is_tag_prefix (specs : list (TagSpec T)) (slug : str) : bool :=
  let slug := trim_end slug in
  existsb (λ spec, starts_with slug (tag_open spec) || starts_with slug (tag_close spec)) specs.
Definition match_open (specs : list (TagSpec T)) (slug : str) : option T :=
  tag <$> List.find (λ spec, bool_decide (tag_open spec = slug)) specs.
Definition match_close (specs : list (TagSpec T)) (slug : str) : option T :=
  tag <$> List.find (λ spec, bool_decide (tag_close spec = slug)) specs.

(** The text of a line between its white space, its newline removed. *)
Definition line_slug (line : str) : str :=
  trim_end (trim_start (default line (strip_suffix [LF] line))).

(** [finish_line]; the buffered line is taken. *)
Definition finish_line (p : TaggedLineParser) (segments : list (TaggedLineSegment T)) : TaggedLineParser * list (TaggedLineSegment T) :=
  let line := line_buffer p in
  let slug := line_slug line in
  let text := (mkTagged (tl_specs p) (active_tag p) true [], push_text p line segments) in
  let close_or_text :=
    match match_close (tl_specs p) slug with
    | Some t => if decide (active_tag p = Some t)
                then (mkTagged (tl_specs p) None true [], push_segment segments (TagEnd t)) else text
    | None => text
    end in
  match match_open (tl_specs p) slug with
  | Some t => match active_tag p with
              | None => (mkTagged (tl_specs p) (Some t) true [], push_segment segments (TagStart t))
              | Some _ => close_or_text
              end
  | None => close_or_text
  end.

(** The body of the loop of [parse]: the parser, the segments and the run. *)
Definition parse_char (st : TaggedLineParser * list (TaggedLineSegment T) * str) (ch : char)
    : TaggedLineParser * list (TaggedLineSegment T) * str :=
  let '(p, segments, run) := st in
  if detect_tag p then
    let segments := if is_empty run then segments else push_text p run segments in
    let p := mkTagged (tl_specs p) (active_tag p) true (line_buffer p ++ [ch]) in
    if decide (ch = LF) then let '(p, segments) := finish_line p segments in (p, segments, [])
    else
      let slug := trim_start (line_buffer p) in
      if is_empty slug || is_tag_prefix (tl_specs p) slug then (p, segments, [])
      else
        let buffered := line_buffer p in
        let p := mkTagged (tl_specs p) (active_tag p) false [] in
        (p, push_text p buffered segments, [])
  else
    let run := run ++ [ch] in
    if decide (ch = LF)
    then (mkTagged (tl_specs p) (active_tag p) true (line_buffer p), push_text p run segments, [])
    else (p, segments, run).

Definition parse (p : TaggedLineParser) (delta : str) : TaggedLineParser * list (TaggedLineSegment T) :=
  let '(p, segments, run) := foldl parse_char (p, [], []) delta in
  (p, if is_empty run then segments else push_text p run segments).

Definition tagged_finish (p : TaggedLineParser) : TaggedLineParser * list (TaggedLineSegment T) :=
  let '(p, segments) :=
    if is_empty (line_buffer p) then (p, []) else
    let buffered := line_buffer p in
    let slug := line_slug buffered in
    let text := (mkTagged (tl_specs p) (active_tag p) (detect_tag p) [], push_text p buffered []) in
    let close_or_text :=
      match match_close (tl_specs p) slug with
      | Some t => if decide (active_tag p = Some t)
                  then (mkTagged (tl_specs p) None (detect_tag p) [], push_segment [] (TagEnd t)) else text
      | None => text
      end in
    match match_open (tl_specs p) slug with
    | Some t => match active_tag p with
                | None => (mkTagged (tl_specs p) (Some t) (detect_tag p) [], push_segment [] (TagStart t))
                | Some _ => close_or_text
                end
    | None => close_or_text
    end in
  (mkTagged (tl_specs p) None true (line_buffer p),
   match active_tag p with Some t => push_segment segments (TagEnd t) | None => segments end).
End tagged.
Arguments TaggedLineParser : clear implicits.

(** ** [proposed_plan.rs] *)
Definition OPEN_TAG : str := $"<proposed_plan>".
Definition CLOSE_TAG : str := $"</proposed_plan>".
Inductive PlanTag : Type := ProposedPlan.
#[global] Instance PlanTag_eq_dec : EqDecision PlanTag.
Proof. solve_decision. Defined.

Inductive ProposedPlanSegment : Type :=
| PlanNormal (text : str)
| ProposedPlanStart
| ProposedPlanDelta (text : str)
| ProposedPlanEnd.

Record ProposedPlanParser := mkPlanParser { plan_parser : TaggedLineParser PlanTag }.
Definition plan_specs : list (TagSpec PlanTag) := [mkTagSpec OPEN_TAG CLOSE_TAG ProposedPlan].
Definition plan_new : ProposedPlanParser := mkPlanParser (tagged_new plan_specs).

Definition map_segment (s : TaggedLineSegment PlanTag) : ProposedPlanSegment :=
  match s with
  | Normal text => PlanNormal text
  | TagStart ProposedPlan => ProposedPlanStart
  | TagDelta ProposedPlan text => ProposedPlanDelta text
  | TagEnd ProposedPlan => ProposedPlanEnd
  end.
Definition map_step (out : StreamTextChunk ProposedPlanSegment) (s : TaggedLineSegment PlanTag) : StreamTextChunk ProposedPlanSegment :=
  let mapped := map_segment s in
  mkChunk (match mapped with PlanNormal text => visible_text out ++ text | _ => visible_text out end)
          (extracted out ++ [mapped]).
Definition map_segments (segments : list (TaggedLineSegment PlanTag)) : StreamTextChunk ProposedPlanSegment :=
  foldl map_step empty_chunk segments.

Definition plan_push_str (p : ProposedPlanParser) (chunk : str) : option (ProposedPlanParser * StreamTextChunk ProposedPlanSegment) :=
  let '(q, segments) := parse (plan_parser p) chunk in Some (mkPlanParser q, map_segments segments).
Definition plan_finish (p : ProposedPlanParser) : ProposedPlanParser * StreamTextChunk ProposedPlanSegment :=
  let '(q, segments) := tagged_finish (plan_parser p) in (mkPlanParser q, map_segments segments).
#[global] Instance plan_stream : StreamTextParser ProposedPlanParser ProposedPlanSegment :=
  {| push_str := plan_push_str; finish := plan_finish |}.

Definition strip_proposed_plan_blocks (text : str) : option str :=
  '(p, out) ← push_str plan_new text;
  Some (visible_text out ++ visible_text (finish p).2).

Definition plan_text_step (st : str * bool) (s : ProposedPlanSegment) : str * bool :=
  let '(plan_text, saw_plan_block) := st in
  match s with
  | ProposedPlanStart => ([], true)
  | ProposedPlanDelta delta => (plan_text ++ delta, saw_plan_block)
  | ProposedPlanEnd | PlanNormal _ => (plan_text, saw_plan_block)
  end.
Definition extract_proposed_plan_text (text : str) : option (option str) :=
  '(p, out) ← push_str plan_new text;
  let '(plan_text, saw_plan_block) :=
    foldl plan_text_step ([], false) (extracted out ++ extracted (finish p).2) in
  Some (if saw_plan_block then Some plan_text else None).

Example extract_plan_example :
  extract_proposed_plan_text ($"a" ++ [LF] ++ $" <proposed_plan> " ++ [LF] ++ $"- x" ++ [LF] ++ $"</proposed_plan>") =
  Some (Some ($"- x" ++ [LF])).
Proof. vm_compute. reflexivity. Qed.

(** ** Events: what segments say, whatever their grouping *)
Section events.
Context {T : Type} `{EqDecision T}.
Implicit Types (a : option T) (segments : list (TaggedLineSegment T)).

Inductive event : Type :=
| ENormal (c : char)
| EStart (t : T)
| EDelta (t : T) (c : char)
| EEnd (t : T).

Definition text_events a (text : str) : list event :=
  match a with None => ENormal <$> text | Some t => EDelta t <$> text end.
Definition segment_events (s : TaggedLineSegment T) : list event :=
  match s with
  | Normal text => text_events None text
  | TagStart t => [EStart t]
  | TagDelta t text => text_events (Some t) text
  | TagEnd t => [EEnd t]
  end.
Definition events segments : list event := mjoin (segment_events <$> segments).
Definition close_events a : list event := match a with Some t => [EEnd t] | None => [] end.

Lemma events_snoc segments s : events (segments ++ [s]) = events segments ++ segment_events s.
Proof. unfold events. rewrite fmap_app, join_app. cbn. by rewrite app_nil_r. Qed.
Lemma events_app s1 s2 : events (s1 ++ s2) = events s1 ++ events s2.
Proof. unfold events. by rewrite fmap_app, join_app. Qed.
Lemma text_events_app a s t : text_events a (s ++ t) = text_events a s ++ text_events a t.
Proof. destruct a; cbn; by rewrite fmap_app. Qed.

Lemma events_push_segment segments s : events (push_segment segments s) = events segments ++ segment_events s.
Proof.
  destruct s as [d|t|t d|t]; cbn [push_segment]; try apply events_snoc.
  - destruct d as [|x d]; [by rewrite app_nil_r|]. cbn [is_empty].
    destruct (last_cases segments) as [->|(l & [e|u|u e|u] & ->)]; rewrite ?last_snoc; try apply events_snoc.
    rewrite update_last_snoc, !events_snoc, <-app_assoc. f_equal. apply (text_events_app None).
  - destruct d as [|x d]; [by rewrite app_nil_r|]. cbn [is_empty].
    destruct (last_cases segments) as [->|(l & [e|u|u e|u] & ->)]; rewrite ?last_snoc; try apply events_snoc.
    case_decide as Hut; [subst u|apply events_snoc].
    rewrite update_last_snoc, !events_snoc, <-app_assoc. f_equal. apply (text_events_app (Some t)).
Qed.

Lemma events_push_text p text segments :
  events (push_text p text segments) = events segments ++ text_events (active_tag p) text.
Proof. unfold push_text. destruct (active_tag p); apply events_push_segment. Qed.

(** ** The specification: complete lines *)
Context (specs : list (TagSpec T)).

(** What a line does: it opens a block, closes the open one, or is text. *)
Definition line_step a (line : str) : option T * list event :=
  let close_or_text :=
    match match_close specs (line_slug line) with
    | Some t => if decide (a = Some t) then (None, [EEnd t]) else (a, text_events a line)
    | None => (a, text_events a line)
    end in
  match match_open specs (line_slug line) with
  | Some t => match a with None => (Some t, [EStart t]) | Some _ => close_or_text end
  | None => close_or_text
  end.

(** Line by line, [cur] being the current one; a block left open is closed. *)
Fixpoint line_spec_from (cur : str) a (s : str) : list event :=
  match s with
  | [] => let '(a', ev) := if is_empty cur then (a, []) else line_step a cur in ev ++ close_events a'
  | c :: s' =>
      if decide (c = LF) then let '(a', ev) := line_step a (cur ++ [LF]) in ev ++ line_spec_from [] a' s'
      else line_spec_from (cur ++ [c]) a s'
  end.
Definition line_spec (s : str) : list event := line_spec_from [] None s.

(** The rest of a line that is known to be text, and what follows it. *)
Fixpoint text_line a (s : str) : list event :=
  match s with
  | [] => close_events a
  | c :: s' => text_events a [c] ++ (if decide (c = LF) then line_spec_from [] a s' else text_line a s')
  end.

(** ** A line that has stopped being a prefix of a tag is text *)
Lemma trim_end_prefix (x w : str) : trim_end x `prefix_of` trim_end (x ++ w).
Proof.
  unfold trim_end. rewrite trim_end_matches_app. destruct (trim_end_matches is_whitespace w) as [|c w']; [done|].
  trans x; [|by exists (c :: w')]. clear. induction x as [|d x IH]; [done|]. cbn [trim_end_matches].
  destruct (trim_end_matches is_whitespace x) as [|e y]; [|by apply prefix_cons].
  destruct (is_whitespace d); [apply prefix_nil|]. apply prefix_cons, prefix_nil.
Qed.

Lemma trim_start_app (b w : str) : trim_start b ≠ [] → trim_start (b ++ w) = trim_start b ++ w.
Proof.
  unfold trim_start. induction b as [|c b IH]; [done|]. cbn [app trim_start_matches].
  destruct (is_whitespace c); [apply IH|done].
Qed.

Lemma line_slug_extends b w : b ≠ [] → LF ∉ b → ∃ w', line_slug (b ++ w) = trim_end (trim_start (b ++ w')).
Proof.
  intros Hb Hlf. unfold line_slug. destruct (strip_suffix [LF] (b ++ w)) as [r|] eqn:Hs; [|by exists w].
  cbn. unfold strip_suffix in Hs. destruct (strip_prefix _ _) as [q|] eqn:Hq; [|done]. injection Hs as <-.
  apply strip_prefix_Some in Hq. apply (f_equal reverse) in Hq.
  rewrite reverse_involutive, reverse_app, reverse_involutive in Hq.
  destruct (last_cases w) as [->|(w' & x & ->)].
  - rewrite app_nil_r in Hq. destruct Hlf. rewrite Hq. set_solver.
  - rewrite app_assoc in Hq. apply app_inj_tail in Hq as [<- _]. by exists w'.
Qed.

Lemma find_exists {A} (f : A → bool) l x : List.find f l = Some x → x ∈ l ∧ f x = true.
Proof. intros H%find_some. by rewrite list_elem_of_In. Qed.

Lemma tag_line_prefix b w t :
  b ≠ [] → LF ∉ b → trim_start b ≠ [] →
  match_open specs (line_slug (b ++ w)) = Some t ∨ match_close specs (line_slug (b ++ w)) = Some t →
  is_tag_prefix specs (trim_start b) = true.
Proof.
  intros Hb Hlf Hts Hm. destruct (line_slug_extends b w Hb Hlf) as [w' Hw]. rewrite Hw, trim_start_app in Hm by done.
  destruct (trim_end_prefix (trim_start b) w') as [r Hr]. unfold is_tag_prefix. apply existsb_exists.
  destruct Hm as [Hm|Hm]; apply fmap_Some in Hm as (spec & [Hin Heq%bool_decide_eq_true]%find_exists & ->);
    exists spec; (split; [by apply list_elem_of_In|]); apply orb_true_iff; [left|right];
    apply starts_with_true; exists r; by rewrite Heq.
Qed.

Lemma line_step_text a b w :
  b ≠ [] → LF ∉ b → trim_start b ≠ [] → is_tag_prefix specs (trim_start b) = false →
  line_step a (b ++ w) = (a, text_events a (b ++ w)).
Proof.
  intros Hb Hlf Hts Hno. pose proof (tag_line_prefix b w) as Hp. unfold line_step.
  destruct (match_open specs _) as [t|]; [rewrite (Hp t) in Hno by auto; done|].
  destruct (match_close specs _) as [t|]; [rewrite (Hp t) in Hno by auto; done|]. done.
Qed.

Lemma line_spec_text a b w s :
  b ≠ [] → LF ∉ b → trim_start b ≠ [] → is_tag_prefix specs (trim_start b) = false →
  line_spec_from (b ++ w) a s = text_events a (b ++ w) ++ text_line a s.
Proof.
  intros Hb Hlf Hts Hno. revert w; induction s as [|c s IH]; intros w; cbn [line_spec_from text_line].
  - replace (is_empty (b ++ w)) with false by (by destruct b). by rewrite line_step_text.
  - case_decide as Hc; [subst c|]; rewrite <-app_assoc.
    + rewrite line_step_text by done. by rewrite !app_assoc, <-text_events_app, <-!app_assoc.
    + rewrite IH, (app_assoc b w), text_events_app, <-app_assoc. done.
Qed.
(** ** The parser refines the specification *)

(** The buffered text is the start of a line that may still be a tag. *)
Definition tagged_inv (p : TaggedLineParser T) : Prop :=
  tl_specs p = specs ∧ (if detect_tag p then LF ∉ line_buffer p else line_buffer p = []).

(** What the parser still owes for the text [s] to come. *)
Definition owes (p : TaggedLineParser T) (s : str) : list event :=
  if detect_tag p then line_spec_from (line_buffer p) (active_tag p) s else text_line (active_tag p) s.

Lemma finish_line_step p segments p' segments' :
  tl_specs p = specs → finish_line p segments = (p', segments') →
  p' = mkTagged specs (line_step (active_tag p) (line_buffer p)).1 true [] ∧
  events segments' = events segments ++ (line_step (active_tag p) (line_buffer p)).2.
Proof.
  intros Hs. unfold finish_line, line_step. rewrite Hs.
  destruct (match_open specs (line_slug (line_buffer p))) as [t|],
    (match_close specs (line_slug (line_buffer p))) as [t'|], (active_tag p) as [u|] eqn:Ha;
    try (case_decide; [simplify_eq|]); intros [= <- <-];
    rewrite ?events_push_text, ?events_push_segment, ?events_snoc, ?Ha; done.
Qed.

Lemma parse_char_step p segments run ch p' segments' run' :
  tagged_inv p → parse_char (p, segments, run) ch = (p', segments', run') →
  tagged_inv p' ∧ ∃ ev,
    events segments' ++ text_events (active_tag p') run' =
      (events segments ++ text_events (active_tag p) run) ++ ev ∧
    ∀ t, owes p (ch :: t) = ev ++ owes p' t.
Proof.
  intros [Hs Hb]. unfold parse_char. destruct (detect_tag p) eqn:Hd.
  - set (segs1 := if is_empty run then segments else push_text p run segments).
    assert (H1 : events segs1 = events segments ++ text_events (active_tag p) run).
    { subst segs1. destruct run; [destruct (active_tag p); cbn; by rewrite app_nil_r|]. apply events_push_text. }
    rewrite <-H1. clearbody segs1. case_decide as Hch.
    + subst ch. destruct (finish_line _ _) as [q segs2] eqn:Hf.
      apply finish_line_step in Hf as [-> Hev]; [|done]. cbn [active_tag line_buffer] in *. intros [= <- <- <-].
      split; [split; [done|]; cbn; set_solver|]. eexists. split.
      { rewrite Hev. by destruct (line_step _ _).1; cbn; rewrite app_nil_r. }
      intros t. unfold owes. rewrite Hd. cbn [line_spec_from detect_tag line_buffer active_tag].
      rewrite decide_True by done. by destruct (line_step _ _).
    + cbn [line_buffer tl_specs active_tag]. rewrite Hs. set (b := line_buffer p ++ [ch]).
      assert (Hlf : LF ∉ b) by (subst b; set_solver).
      assert (Hnil : ∀ a, text_events a [] = []) by (by intros []).
      destruct (_ || _) eqn:Hp; intros [= <- <- <-]; (split; [by split|]); cbn [active_tag].
      * exists []. rewrite Hnil, !app_nil_r. split; [done|]. intros t. unfold owes. rewrite Hd.
        cbn [line_spec_from detect_tag line_buffer active_tag]. by rewrite decide_False.
      * apply orb_false_iff in Hp as [Hne Hno]. exists (text_events (active_tag p) b).
        rewrite events_push_text, Hnil, app_nil_r. split; [done|]. intros t. unfold owes. rewrite Hd.
        cbn [line_spec_from detect_tag line_buffer active_tag]. rewrite decide_False by done. fold b.
        rewrite <-(app_nil_r b) at 1. rewrite line_spec_text; [by rewrite app_nil_r| |done| |done].
        -- subst b. by destruct (line_buffer p).
        -- by destruct (trim_start b).
  - assert (Hnil : ∀ a, text_events a [] = []) by (by intros []).
    case_decide as Hch; intros [= <- <- <-].
    + subst ch. split; [split; [done|]; cbn; rewrite Hb; set_solver|]. exists (text_events (active_tag p) [LF]).
      cbn [active_tag]. rewrite events_push_text, Hnil, app_nil_r, text_events_app, app_assoc. split; [done|].
      intros t. unfold owes. rewrite Hd. cbn [text_line detect_tag active_tag line_buffer].
      rewrite decide_True by done. by rewrite Hb.
    + split; [split; [done|]; by rewrite Hd|]. exists (text_events (active_tag p) [ch]).
      rewrite text_events_app, app_assoc. split; [done|].
      intros t. unfold owes. rewrite Hd. cbn [text_line]. by rewrite decide_False.
Qed.

Lemma parse_fold s p segments run p' segments' run' :
  tagged_inv p → foldl parse_char (p, segments, run) s = (p', segments', run') →
  tagged_inv p' ∧ ∃ ev,
    events segments' ++ text_events (active_tag p') run' =
      (events segments ++ text_events (active_tag p) run) ++ ev ∧
    ∀ t, owes p (s ++ t) = ev ++ owes p' t.
Proof.
  revert p segments run; induction s as [|c s IH]; intros p segments run Hp; cbn [foldl].
  { intros [= <- <- <-]. split; [done|]. exists []. by rewrite app_nil_r. }
  destruct (parse_char (p, segments, run) c) as [[p1 segs1] run1] eqn:H1.
  apply parse_char_step in H1 as [Hp1 (ev1 & He1 & Ho1)]; [|done]. intros H2.
  apply IH in H2 as [Hp2 (ev2 & He2 & Ho2)]; [|done]. split; [done|]. exists (ev1 ++ ev2).
  split; [by rewrite He2, He1, !app_assoc|]. intros t. cbn [app]. by rewrite Ho1, Ho2, app_assoc.
Qed.

Lemma parse_step p s p' segments :
  tagged_inv p → parse p s = (p', segments) →
  tagged_inv p' ∧ ∀ t, owes p (s ++ t) = events segments ++ owes p' t.
Proof.
  intros Hp. unfold parse. destruct (foldl _ _ s) as [[q segs] run] eqn:Hf.
  apply parse_fold in Hf as [Hq (ev & He & Ho)]; [|done]. intros [= <- <-]. split; [done|].
  intros t. rewrite Ho. f_equal.
  replace (events [] ++ text_events (active_tag p) []) with (@nil event) in He by (by destruct (active_tag p)).
  cbn [app] in He. rewrite <-He. destruct run as [|x run]; [|symmetry; apply events_push_text].
  destruct (active_tag q); cbn; by rewrite app_nil_r.
Qed.

Lemma tagged_finish_step p : tagged_inv p → events (tagged_finish p).2 = owes p [].
Proof.
  destruct p as [sp a d b]. intros [Hs Hb]; cbn [tl_specs detect_tag line_buffer] in *; subst sp.
  assert (Hclose : ∀ a segs, events (match a with Some t => push_segment segs (TagEnd t) | None => segs end)
    = events segs ++ close_events a).
  { intros [t|] segs; [apply events_push_segment|by rewrite app_nil_r]. }
  unfold tagged_finish, owes; cbn [line_buffer detect_tag active_tag tl_specs].
  destruct d; [|subst b; cbn [is_empty snd]; by rewrite Hclose].
  destruct b as [|x b]; [cbn [is_empty snd line_spec_from]; by rewrite Hclose|]. cbn [is_empty line_spec_from].
  set (line := x :: b). unfold line_step, push_text; cbn [active_tag].
  destruct (match_open specs (line_slug line)) as [t|], (match_close specs (line_slug line)) as [t'|], a as [u|];
    try (case_decide; [simplify_eq|]); cbn [snd active_tag close_events];
    rewrite ?events_push_segment, ?events_snoc, ?app_nil_r; done.
Qed.
End events.

(** ** Plans *)
Arguments event : clear implicits.

Definition unmap_segment (s : ProposedPlanSegment) : TaggedLineSegment PlanTag :=
  match s with
  | PlanNormal text => Normal text
  | ProposedPlanStart => TagStart ProposedPlan
  | ProposedPlanDelta text => TagDelta ProposedPlan text
  | ProposedPlanEnd => TagEnd ProposedPlan
  end.
Definition plan_events (segments : list ProposedPlanSegment) : list (event PlanTag) := events (unmap_segment <$> segments).
Definition visible_char (e : event PlanTag) : option char := match e with ENormal c => Some c | _ => None end.
Definition visible_of (evs : list (event PlanTag)) : str := omap visible_char evs.

Lemma unmap_map s : unmap_segment (map_segment s) = s.
Proof. by destruct s as [|[]|[]|[]]. Qed.
Lemma plan_events_app a b : plan_events (a ++ b) = plan_events a ++ plan_events b.
Proof. unfold plan_events. by rewrite fmap_app, events_app. Qed.
Lemma visible_of_app a b : visible_of (a ++ b) = visible_of a ++ visible_of b.
Proof. apply omap_app. Qed.

Lemma visible_of_segment s :
  visible_of (segment_events s) = match map_segment s with PlanNormal text => text | _ => [] end.
Proof.
  destruct s as [text|[]|[] text|[]]; try done; cbn [segment_events text_events map_segment].
  - induction text as [|c text IH]; [done|]. cbn. f_equal. exact IH.
  - by induction text as [|c text IH].
Qed.

Lemma map_segments_fold segments out :
  foldl map_step out segments =
    mkChunk (visible_text out ++ visible_of (events segments)) (extracted out ++ (map_segment <$> segments)).
Proof.
  revert out; induction segments as [|s segments IH]; intros out; cbn [foldl].
  { destruct out. cbn. by rewrite !app_nil_r. }
  rewrite IH. unfold map_step; cbn [visible_text extracted fmap list_fmap]. f_equal; [|by rewrite <-app_assoc].
  change (s :: segments) with ([s] ++ segments). rewrite events_app, visible_of_app.
  assert (events [s] = segment_events s) as -> by (unfold events; cbn; by rewrite app_nil_r).
  rewrite visible_of_segment. destruct (map_segment s); cbn; by rewrite <-?app_assoc.
Qed.

Lemma map_segments_events segments :
  plan_events (extracted (map_segments segments)) = events segments ∧
  visible_text (map_segments segments) = visible_of (events segments).
Proof.
  unfold map_segments. rewrite map_segments_fold. cbn [visible_text extracted empty_chunk app]. split; [|done].
  unfold plan_events. rewrite <-list_fmap_compose. f_equal.
  rewrite <-(list_fmap_id segments) at 2. apply list_fmap_ext. intros. apply unmap_map.
Qed.

(** A chunk that says what the events say. *)
Definition says (c : StreamTextChunk ProposedPlanSegment) (evs : list (event PlanTag)) : Prop :=
  plan_events (extracted c) = evs ∧ visible_text c = visible_of evs.

Lemma says_app c d e f : says c e → says d f → says (chunk_app c d) (e ++ f).
Proof.
  intros [H1 H2] [H3 H4]. unfold says, chunk_app; cbn [extracted visible_text].
  by rewrite plan_events_app, visible_of_app, H1, H2, H3, H4.
Qed.

Definition plan_inv (p : ProposedPlanParser) : Prop := tagged_inv plan_specs (plan_parser p).
Definition plan_owes (p : ProposedPlanParser) (s : str) : list (event PlanTag) := owes plan_specs (plan_parser p) s.

Lemma plan_push_step p chunk :
  plan_inv p → ∃ p' c evs, push_str p chunk = Some (p', c) ∧ plan_inv p' ∧ says c evs ∧
    ∀ t, plan_owes p (chunk ++ t) = evs ++ plan_owes p' t.
Proof.
  intros Hp. cbn [push_str plan_stream]. unfold plan_push_str.
  destruct (parse (plan_parser p) chunk) as [q segments] eqn:Hparse.
  apply (parse_step plan_specs) in Hparse as [Hq Ho]; [|done].
  exists (mkPlanParser q), (map_segments segments), (events segments).
  split; [done|]. split; [done|]. split; [apply map_segments_events|done].
Qed.

Lemma plan_finish_step p : plan_inv p → says (finish p).2 (plan_owes p []).
Proof.
  intros Hp. cbn [finish plan_stream]. unfold plan_finish.
  pose proof (tagged_finish_step plan_specs _ Hp) as Hf.
  destruct (tagged_finish (plan_parser p)) as [q segments]. cbn [snd] in *.
  unfold plan_owes. rewrite <-Hf. apply map_segments_events.
Qed.

Lemma plan_feed_step chunks p :
  plan_inv p → ∃ p' c evs, feed p chunks = Some (p', c) ∧ plan_inv p' ∧ says c evs ∧
    ∀ t, plan_owes p (mjoin chunks ++ t) = evs ++ plan_owes p' t.
Proof.
  revert p; induction chunks as [|chunk chunks IH]; intros p Hp; cbn [feed].
  { by exists p, empty_chunk, []. }
  destruct (plan_push_step p chunk Hp) as (p1 & c1 & e1 & -> & Hp1 & Hs1 & Ho1). cbn [mbind option_bind].
  destruct (IH p1 Hp1) as (p2 & c2 & e2 & -> & Hp2 & Hs2 & Ho2). cbn [mbind option_bind].
  exists p2, (chunk_app c1 c2), (e1 ++ e2). split; [done|]. split; [done|]. split; [by apply says_app|].
  intros t. cbn [mjoin list_join]. by rewrite <-app_assoc, Ho1, Ho2, app_assoc.
Qed.

Lemma plan_new_inv : plan_inv plan_new.
Proof. split; [done|]. cbn. set_solver. Qed.

Lemma plan_feed_all chunks :
  ∃ out, feed_all plan_new chunks = Some out ∧ says out (line_spec plan_specs (mjoin chunks)).
Proof.
  destruct (plan_feed_step chunks plan_new plan_new_inv) as (p & c & evs & Hf & Hp & Hs & Ho).
  unfold feed_all. rewrite Hf. cbn [mbind option_bind]. eexists. split; [done|].
  specialize (Ho []). rewrite app_nil_r in Ho.
  change (line_spec plan_specs (mjoin chunks)) with (plan_owes plan_new (mjoin chunks)). rewrite Ho.
  apply says_app; [done|]. by apply plan_finish_step.
Qed.

(** However a message is cut into chunks, the plan parser's segments say
    what its complete lines say: a line that is exactly a tag, white space
    apart, opens or closes the plan block, every other line is text of the
    block or of the message; the visible text is the text outside blocks. *)
Theorem plan_stream_refines chunks :
  ∃ out, feed_all plan_new chunks = Some out ∧
    plan_events (extracted out) = line_spec plan_specs (mjoin chunks) ∧
    visible_text out = visible_of (line_spec plan_specs (mjoin chunks)).
Proof. destruct (plan_feed_all chunks) as (out & Hf & Hs & Hv). eauto. Qed.

(** The text of the last block that was opened. *)
Definition plan_event_step (st : str * bool) (e : event PlanTag) : str * bool :=
  match e with
  | EStart _ => ([], true)
  | EDelta _ c => (st.1 ++ [c], st.2)
  | EEnd _ | ENormal _ => st
  end.
Definition last_plan (evs : list (event PlanTag)) : option str :=
  let '(plan, saw) := foldl plan_event_step ([], false) evs in if saw then Some plan else None.

Lemma plan_text_steps segments st :
  foldl plan_text_step st segments = foldl plan_event_step st (plan_events segments).
Proof.
  revert st; induction segments as [|s segments IH]; intros [plan saw]; [done|].
  change (s :: segments) with ([s] ++ segments). rewrite plan_events_app, !foldl_app, <-IH. f_equal.
  unfold plan_events. cbn [fmap list_fmap]. unfold events. cbn [fmap list_fmap mjoin list_join]. rewrite app_nil_r.
  destruct s as [text| |text|]; try done; cbn [unmap_segment segment_events text_events foldl plan_text_step].
  - induction text as [|c text IHt]; [done|]. cbn. apply IHt.
  - clear IH. revert plan. induction text as [|c text IHt]; intros plan; cbn; [by rewrite app_nil_r|].
    rewrite <-IHt, <-app_assoc. done.
Qed.

(** The plan text extracted from a message is that of the last block its
    lines open, and there is none exactly when no line opens one; stripping
    the blocks leaves the text outside them. *)
Theorem plan_text_spec text :
  extract_proposed_plan_text text = Some (last_plan (line_spec plan_specs text)) ∧
  strip_proposed_plan_blocks text = Some (visible_of (line_spec plan_specs text)).
Proof.
  destruct (plan_feed_all [text]) as (out & Hf & He & Hv). cbn [mjoin list_join] in He, Hv. rewrite app_nil_r in He, Hv.
  unfold feed_all in Hf. cbn [feed] in Hf. unfold extract_proposed_plan_text, strip_proposed_plan_blocks.
  destruct (push_str plan_new text) as [[p c]|]; [|done]. cbn [mbind option_bind] in Hf |- *.
  rewrite chunk_app_empty_r in Hf. apply (inj Some) in Hf. subst out.
  cbn [chunk_app extracted visible_text] in He, Hv. rewrite plan_text_steps, He, Hv.
  unfold last_plan. by destruct (foldl _ _ _) as [plan []].
Qed.

(** As a promise to clients: outputs that say the same are alike. *)
Definition segment_of_event (e : event PlanTag) : ProposedPlanSegment :=
  match e with
  | ENormal c => PlanNormal [c]
  | EStart _ => ProposedPlanStart
  | EDelta _ c => ProposedPlanDelta [c]
  | EEnd _ => ProposedPlanEnd
  end.
Definition plan_whole (text : str) : StreamTextChunk ProposedPlanSegment :=
  let evs := line_spec plan_specs text in mkChunk (visible_of evs) (segment_of_event <$> evs).
Definition alike (c d : StreamTextChunk ProposedPlanSegment) : Prop :=
  plan_events (extracted c) = plan_events (extracted d) ∧ visible_text c = visible_text d.

#[global] Instance alike_equiv : Equivalence alike.
Proof. split; unfold alike; [done|intros ?? [??]; split; congruence|intros ??? [??] [??]; split; congruence]. Qed.
#[global] Instance chunk_app_alike : Proper (alike ==> alike ==> alike) (@chunk_app ProposedPlanSegment).
Proof.
  intros a b [H1 H2] c d [H3 H4]. unfold alike, chunk_app; cbn [extracted visible_text].
  by rewrite !plan_events_app, H1, H2, H3, H4.
Qed.

Lemma plan_events_of_events evs : plan_events (segment_of_event <$> evs) = evs.
Proof.
  induction evs as [|e evs IH]; [done|]. cbn [fmap list_fmap].
  change (?x :: ?l) with ([x] ++ l) at 1. rewrite plan_events_app, IH. by destruct e as [|[]|[]|[]].
Qed.

#[global] Instance plan_streams : Streams plan_new alike.
Proof.
  exists plan_whole. intros chunks. destruct (plan_feed_all chunks) as (out & Hf & He & Hv).
  exists out. split; [done|]. split; [|done]. cbn [plan_whole extracted]. by rewrite plan_events_of_events.
Defined.
