(* ===== verification/AssistantText.v ===== *)
(** * Assistant text: [utils/stream-parser/src/assistant_text.rs] and
    [utf8_stream.rs]

    The parser of assistant messages composes the citation and the plan
    parsers; the UTF-8 wrapper feeds any stream parser from bytes. Both are
    verified against what the parsers they use promise. *)

From stdpp Require Import prelude list strings.
From S2P Require Import Prelude StreamText PlanParser.

(** ** [assistant_text.rs] *)
Record AssistantTextChunk := mkAssistantChunk {
  a_visible_text : str;
  a_citations : list str;
  plan_segments : list ProposedPlanSegment
}.
Definition assistant_chunk_app (x y : AssistantTextChunk) : AssistantTextChunk :=
  mkAssistantChunk (a_visible_text x ++ a_visible_text y) (a_citations x ++ a_citations y)
    (plan_segments x ++ plan_segments y).

Record AssistantTextStreamParser := mkAssistant {
  plan_mode : bool;
  citations : CitationStreamParser;
  plan : ProposedPlanParser
}.
Definition assistant_new (mode : bool) : option AssistantTextStreamParser :=
  c ← citation_new; Some (mkAssistant mode c plan_new).

Definition parse_visible_text (p : AssistantTextStreamParser) (visible : str) : option (AssistantTextStreamParser * AssistantTextChunk) :=
  if negb (plan_mode p) then Some (p, mkAssistantChunk visible [] []) else
  '(q, plan_chunk) ← push_str (plan p) visible;
  Some (mkAssistant (plan_mode p) (citations p) q,
        mkAssistantChunk (visible_text plan_chunk) [] (extracted plan_chunk)).

Definition assistant_push_str (p : AssistantTextStreamParser) (chunk : str) : option (AssistantTextStreamParser * AssistantTextChunk) :=
  '(c, citation_chunk) ← push_str (citations p) chunk;
  '(p, out) ← parse_visible_text (mkAssistant (plan_mode p) c (plan p)) (visible_text citation_chunk);
  Some (p, mkAssistantChunk (a_visible_text out) (extracted citation_chunk) (plan_segments out)).

Definition assistant_finish (p : AssistantTextStreamParser) : option (AssistantTextStreamParser * AssistantTextChunk) :=
  let '(c, citation_chunk) := finish (citations p) in
  '(p, out) ← parse_visible_text (mkAssistant (plan_mode p) c (plan p)) (visible_text citation_chunk);
  let '(p, out) :=
    if plan_mode p then
      let '(q, tail) := finish (plan p) in
      let p := mkAssistant (plan_mode p) (citations p) q in
      if negb (chunk_is_empty tail)
      then (p, mkAssistantChunk (a_visible_text out ++ visible_text tail) (a_citations out)
                 (plan_segments out ++ extracted tail))
      else (p, out)
    else (p, out) in
  Some (p, mkAssistantChunk (a_visible_text out) (extracted citation_chunk) (plan_segments out)).

Fixpoint assistant_feed (p : AssistantTextStreamParser) (chunks : list str) : option (AssistantTextStreamParser * AssistantTextChunk) :=
  match chunks with
  | [] => Some (p, mkAssistantChunk [] [] [])
  | chunk :: chunks' =>
      '(p, out) ← assistant_push_str p chunk;
      '(p, rest) ← assistant_feed p chunks';
      Some (p, assistant_chunk_app out rest)
  end.
Definition assistant_feed_all (p : AssistantTextStreamParser) (chunks : list str) : option AssistantTextChunk :=
  '(p, out) ← assistant_feed p chunks;
  '(_, tail) ← assistant_finish p;
  Some (assistant_chunk_app out tail).

(** What an assistant chunk shows, given the text [v] with citations hidden. *)
Definition shows (mode : bool) (x : AssistantTextChunk) (v : str) (evs : list (event PlanTag)) : Prop :=
  if mode then says (mkChunk (a_visible_text x) (plan_segments x)) evs
  else a_visible_text x = v ∧ plan_segments x = [].

Lemma shows_app mode x y v w e f : shows mode x v e → shows mode y w f → shows mode (assistant_chunk_app x y) (v ++ w) (e ++ f).
Proof.
  destruct mode; cbn.
  - apply (says_app (mkChunk (a_visible_text x) (plan_segments x)) (mkChunk (a_visible_text y) (plan_segments y))).
  - by intros [-> ->] [-> ->].
Qed.

(** Parsing visible text moves the plan parser along, in plan mode. *)
Definition plan_moves (mode : bool) (q q' : ProposedPlanParser) (v : str) (evs : list (event PlanTag)) : Prop :=
  ∀ t, plan_owes q (v ++ t) = evs ++ plan_owes q' t ∨ mode = false.

Lemma parse_visible_step p v :
  plan_inv (plan p) → ∃ p' out evs, parse_visible_text p v = Some (p', out) ∧
    plan_mode p' = plan_mode p ∧ citations p' = citations p ∧ plan_inv (plan p') ∧
    a_citations out = [] ∧ shows (plan_mode p) out v evs ∧ plan_moves (plan_mode p) (plan p) (plan p') v evs.
Proof.
  intros Hp. unfold parse_visible_text. destruct (plan_mode p) eqn:Hm; cbn [negb].
  - destruct (plan_push_step (plan p) v Hp) as (q & c & evs & -> & Hq & Hs & Ho). cbn [mbind option_bind].
    do 2 eexists. exists evs. split; [done|]. cbn. rewrite ?Hm. do 4 (split; [done|]).
    split; [by destruct c|]. intros t. left. apply Ho.
  - do 2 eexists. exists []. split; [done|]. rewrite Hm. do 5 (split; [done|]). intros t. by right.
Qed.

Lemma assistant_feed_step chunks p q c :
  plan_inv (plan p) → feed (citations p) chunks = Some (q, c) →
  ∃ p' out evs, assistant_feed p chunks = Some (p', out) ∧
    plan_mode p' = plan_mode p ∧ citations p' = q ∧ plan_inv (plan p') ∧
    a_citations out = extracted c ∧ shows (plan_mode p) out (visible_text c) evs ∧
    plan_moves (plan_mode p) (plan p) (plan p') (visible_text c) evs.
Proof.
  revert p c; induction chunks as [|chunk chunks IH]; intros p c Hp; cbn [feed assistant_feed].
  { intros [= <- <-]. exists p, (mkAssistantChunk [] [] []), []. split; [done|].
    do 4 (split; [done|]). split; [by destruct (plan_mode p)|]. intros t. by left. }
  unfold assistant_push_str. destruct (push_str (citations p) chunk) as [[q1 c1]|]; [|done]. cbn [mbind option_bind].
  destruct (parse_visible_step (mkAssistant (plan_mode p) q1 (plan p)) (visible_text c1) Hp)
    as (p1 & out1 & e1 & -> & Hm1 & Hc1 & Hp1 & _ & Hs1 & Ho1).
  cbn [plan_mode citations plan mbind option_bind] in *.
  destruct (feed q1 chunks) as [[q2 c2]|] eqn:Hf; [|done]. cbn [mbind option_bind]. intros [= <- <-].
  destruct (IH p1 c2 Hp1) as (p2 & out2 & e2 & -> & Hm2 & Hc2 & Hp2 & Hcit & Hs2 & Ho2); [by rewrite Hc1|].
  cbn [mbind option_bind]. do 2 eexists. exists (e1 ++ e2). split; [done|]. rewrite Hm2, Hm1 in *.
  do 3 (split; [done|]). split; [cbn; by rewrite Hcit|]. split; [by apply (shows_app _ (mkAssistantChunk _ _ _))|].
  intros t. destruct (Ho1 (visible_text c2 ++ t)) as [H1|]; [|by right].
  destruct (Ho2 t) as [H2|]; [left|by right]. cbn. by rewrite <-app_assoc, H1, H2, app_assoc.
Qed.

(** The assistant parser always returns, and however a message is cut into
    chunks: the citations are those of the whole message; outside plan mode the
    visible text is the message without citations; in plan mode plan blocks are
    found in the message without citations, and the visible text is what is
    outside them. *)
Theorem assistant_stream_refines (mode : bool) chunks :
  let hidden := hide_citations (mjoin chunks) in
  let evs := line_spec plan_specs (visible_text hidden) in
  ∃ p out, assistant_new mode = Some p ∧ assistant_feed_all p chunks = Some out ∧
    a_citations out = extracted hidden ∧
    if mode then plan_events (plan_segments out) = evs ∧ a_visible_text out = visible_of evs
    else plan_segments out = [] ∧ a_visible_text out = visible_text hidden.
Proof.
  intros hidden evs. exists (mkAssistant mode citation_init plan_new).
  pose proof (citation_feed_whole chunks) as Hwhole. unfold feed_all in Hwhole. fold hidden in Hwhole.
  destruct (feed citation_init chunks) as [[q c]|] eqn:Hf; [|done]. cbn [mbind option_bind] in Hwhole.
  apply (inj Some) in Hwhole. unfold assistant_feed_all.
  destruct (assistant_feed_step chunks (mkAssistant mode citation_init plan_new) q c plan_new_inv Hf)
    as (p1 & out1 & e1 & -> & Hm1 & Hc1 & Hp1 & Hcit1 & Hs1 & Ho1).
  cbn [plan_mode citations plan mbind option_bind] in *. unfold assistant_finish. rewrite Hc1.
  destruct (finish q) as [q2 c2]. cbn [snd] in Hwhole.
  destruct (parse_visible_step (mkAssistant (plan_mode p1) q2 (plan p1)) (visible_text c2) Hp1)
    as (p2 & out2 & e2 & -> & Hm2 & Hc2 & Hp2 & Hcit2 & Hs2 & Ho2).
  cbn [plan_mode citations plan mbind option_bind] in *. rewrite Hm2, Hm1 in *.
  assert (Hvis : visible_text c ++ visible_text c2 = visible_text hidden) by (by rewrite <-Hwhole).
  assert (Hext : extracted c ++ extracted c2 = extracted hidden) by (by rewrite <-Hwhole).
  pose proof (shows_app _ _ _ _ _ _ _ Hs1 Hs2) as Hs.
  destruct mode.
  - pose proof (plan_finish_step (plan p2) Hp2) as Hfin. destruct (finish (plan p2)) as [q3 tail]. cbn [snd] in Hfin.
    assert (Hev : evs = (e1 ++ e2) ++ plan_owes (plan p2) []).
    { unfold evs. change (line_spec plan_specs ?s) with (plan_owes plan_new s). rewrite <-Hvis.
      destruct (Ho1 (visible_text c2)) as [->|]; [|done]. destruct (Ho2 []) as [H2|]; [|done].
      rewrite app_nil_r in H2. by rewrite H2, app_assoc. }
    pose proof (says_app _ _ _ _ Hs Hfin) as [Hpe Hvt]. rewrite <-Hev in Hpe, Hvt.
    cbn [assistant_chunk_app chunk_app extracted visible_text plan_segments a_visible_text] in Hpe, Hvt.
    destruct (chunk_is_empty tail) eqn:He; cbn [negb mbind option_bind]; eexists; (split; [done|]); (split; [done|]);
      cbn [assistant_chunk_app a_citations a_visible_text plan_segments]; (split; [by rewrite Hcit1|]).
    + destruct tail as [[|] [|]]; try done. cbn [visible_text extracted] in Hpe, Hvt. by rewrite !app_nil_r in Hpe, Hvt.
    + by rewrite !app_assoc.
  - cbn [mbind option_bind]. eexists. split; [done|]. split; [done|].
    cbn [assistant_chunk_app a_citations a_visible_text plan_segments]. split; [by rewrite Hcit1|].
    cbn [shows assistant_chunk_app a_visible_text plan_segments] in Hs. destruct Hs as [Hv ->]. by rewrite Hv.
Qed.

(** ** [std::str::from_utf8] *)
Inductive utf8_step : Type :=
| UChar (c : char) (width : nat)
| UInvalid (error_len : nat)
| UIncomplete.

Definition in_range (lo hi b : N) : bool := ((lo <=? b) && (b <=? hi))%N.
Definition is_cont : N → bool := in_range 128 191.
(** The second bytes allowed after a first byte of three or four. *)
Definition second_ok (b0 b1 : N) : bool :=
  if (b0 =? 224)%N then in_range 160 191 b1
  else if (b0 =? 237)%N then in_range 128 159 b1
  else if (b0 =? 240)%N then in_range 144 191 b1
  else if (b0 =? 244)%N then in_range 128 143 b1
  else is_cont b1.

Definition bits (b n : N) : N := N.land b (2 ^ n - 1).
Definition join_bits (x b : N) : N := N.lor (N.shiftl x 6) (bits b 6).

(** The first character of a non-empty byte string. *)
Definition decode_first (bs : list N) : utf8_step :=
  match bs with
  | [] => UIncomplete
  | b0 :: r =>
      if (b0 <? 128)%N then UChar b0 1
      else if in_range 194 223 b0 then
        match r with
        | [] => UIncomplete
        | b1 :: _ => if is_cont b1 then UChar (join_bits (bits b0 5) b1) 2 else UInvalid 1
        end
      else if in_range 224 239 b0 then
        match r with
        | [] => UIncomplete
        | b1 :: r =>
            if second_ok b0 b1 then
              match r with
              | [] => UIncomplete
              | b2 :: _ => if is_cont b2 then UChar (join_bits (join_bits (bits b0 4) b1) b2) 3 else UInvalid 2
              end
            else UInvalid 1
        end
      else if in_range 240 244 b0 then
        match r with
        | [] => UIncomplete
        | b1 :: r =>
            if second_ok b0 b1 then
              match r with
              | [] => UIncomplete
              | b2 :: r =>
                  if is_cont b2 then
                    match r with
                    | [] => UIncomplete
                    | b3 :: _ =>
                        if is_cont b3 then UChar (join_bits (join_bits (join_bits (bits b0 3) b1) b2) b3) 4
                        else UInvalid 3
                    end
                  else UInvalid 2
              end
            else UInvalid 1
        end
      else UInvalid 1
  end.

(** The text decoded, the bytes it took, and why it stopped before the end:
    an incomplete character ([Some None]) or an invalid one. *)
Fixpoint utf8_scan (fuel : nat) (bs : list N) : str * nat * option (option nat) :=
  match fuel with
  | 0 => ([], 0, None)
  | S fuel' =>
      match bs with
      | [] => ([], 0, None)
      | _ =>
          match decode_first bs with
          | UChar c width =>
              let '(text, n, stop) := utf8_scan fuel' (drop width bs) in (c :: text, width + n, stop)
          | UInvalid error_len => ([], 0, Some (Some error_len))
          | UIncomplete => ([], 0, Some None)
          end
      end
  end.
Definition scan (bs : list N) : str * nat * option (option nat) := utf8_scan (length bs) bs.

(** [Utf8Error]: [valid_up_to] and [error_len]. *)
Definition from_utf8 (bs : list N) : result (nat * option nat) str :=
  let '(text, valid_up_to, stop) := scan bs in
  match stop with None => Ok text | Some error_len => Err (valid_up_to, error_len) end.

(** ** [utf8_stream.rs] *)
Inductive Utf8StreamParserError : Type :=
| InvalidUtf8 (valid_up_to error_len : nat)
| IncompleteUtf8AtEof.

Section utf8.
Context {P E : Type} `{!StreamTextParser P E}.

Record Utf8StreamParser := mkUtf8 { utf8_inner : P; pending_utf8 : list N }.

(** [None] is an inner call that does not return. *)
Definition push_bytes (p : Utf8StreamParser) (chunk : list N)
    : option (Utf8StreamParser * result Utf8StreamParserError (StreamTextChunk E)) :=
  let old := pending_utf8 p in
  let buffered := old ++ chunk in
  match from_utf8 buffered with
  | Ok text =>
      '(q, out) ← push_str (utf8_inner p) text;
      Some (mkUtf8 q [], Ok out)
  | Err (valid_up_to, Some error_len) =>
      Some (mkUtf8 (utf8_inner p) (take (length old) buffered), Err (InvalidUtf8 valid_up_to error_len))
  | Err (valid_up_to, None) =>
      if valid_up_to =? 0 then Some (mkUtf8 (utf8_inner p) buffered, Ok empty_chunk) else
      match from_utf8 (take valid_up_to buffered) with
      | Ok text =>
          '(q, out) ← push_str (utf8_inner p) text;
          Some (mkUtf8 q (drop valid_up_to buffered), Ok out)
      | Err (valid_up_to, error_len) =>
          Some (mkUtf8 (utf8_inner p) (take (length old) buffered),
                Err (InvalidUtf8 valid_up_to (default 0 error_len)))
      end
  end.

Definition utf8_finish (p : Utf8StreamParser)
    : option (Utf8StreamParser * result Utf8StreamParserError (StreamTextChunk E)) :=
  match from_utf8 (pending_utf8 p) with
  | Err (valid_up_to, error_len) =>
      Some (p, Err match error_len with
                   | Some error_len => InvalidUtf8 valid_up_to error_len
                   | None => IncompleteUtf8AtEof
                   end)
  | Ok text =>
      '(q, out) ← (if is_empty (pending_utf8 p) then Some (utf8_inner p, empty_chunk)
                   else push_str (utf8_inner p) text);
      let '(q, tail) := finish q in
      Some (mkUtf8 q [], Ok (chunk_app out tail))
  end.

Definition into_inner (p : Utf8StreamParser) : result Utf8StreamParserError P :=
  if is_empty (pending_utf8 p) then Ok (utf8_inner p) else
  match from_utf8 (pending_utf8 p) with
  | Ok _ => Ok (utf8_inner p)
  | Err (valid_up_to, Some error_len) => Err (InvalidUtf8 valid_up_to error_len)
  | Err (_, None) => Err IncompleteUtf8AtEof
  end.

(** Feeding bytes to the end, until an error. *)
Fixpoint feed_bytes (p : Utf8StreamParser) (chunks : list (list N))
    : option (Utf8StreamParser * result Utf8StreamParserError (StreamTextChunk E)) :=
  match chunks with
  | [] => utf8_finish p
  | chunk :: chunks' =>
      '(p, r) ← push_bytes p chunk;
      match r with
      | Err e => Some (p, Err e)
      | Ok out =>
          '(p, rest) ← feed_bytes p chunks';
          Some (p, match rest with Ok rest => Ok (chunk_app out rest) | Err e => Err e end)
      end
  end.
End utf8.
Arguments Utf8StreamParser : clear implicits.

(** ** Decoding in pieces *)
Lemma decode_first_char bs more c w :
  decode_first bs = UChar c w → 1 ≤ w ∧ w ≤ length bs ∧ decode_first (bs ++ more) = UChar c w.
Proof.
  unfold decode_first. destruct bs as [|b0 [|b1 [|b2 [|b3 bs]]]]; [done|..]; cbn [app length];
    intros H; repeat case_match; simplify_eq/=; split_and!; (done || lia).
Qed.
Lemma decode_first_invalid bs more n :
  decode_first bs = UInvalid n → decode_first (bs ++ more) = UInvalid n.
Proof.
  unfold decode_first. destruct bs as [|b0 [|b1 [|b2 [|b3 bs]]]]; [done|..]; cbn [app];
    intros H; repeat case_match; simplify_eq/=; done.
Qed.

Lemma decode_first_take bs c w n :
  decode_first bs = UChar c w → w ≤ n → decode_first (take n bs) = UChar c w.
Proof.
  unfold decode_first. destruct bs as [|b0 [|b1 [|b2 [|b3 bs]]]]; [done|..];
    destruct n as [|[|[|[|n]]]]; cbn [take]; intros H Hn; repeat case_match; simplify_eq/=; (done || lia).
Qed.

Lemma utf8_scan_enough n m bs : length bs ≤ n → length bs ≤ m → utf8_scan n bs = utf8_scan m bs.
Proof.
  revert m bs; induction n as [|n IH]; intros [|m] [|b bs] Hn Hm; try done; cbn in Hn, Hm; try lia.
  cbn [utf8_scan]. destruct (decode_first (b :: bs)) as [c w| |] eqn:Hd; [|done|done].
  destruct (decode_first_char _ [] _ _ Hd) as (Hw & _). rewrite (IH m); [done|..];
    rewrite length_drop; cbn [length]; lia.
Qed.

Lemma scan_cons b bs :
  scan (b :: bs) =
    match decode_first (b :: bs) with
    | UChar c width => let '(text, n, stop) := scan (drop width (b :: bs)) in (c :: text, width + n, stop)
    | UInvalid error_len => ([], 0, Some (Some error_len))
    | UIncomplete => ([], 0, Some None)
    end.
Proof.
  unfold scan at 1. cbn [length utf8_scan]. destruct (decode_first (b :: bs)) as [c w| |] eqn:Hd; [|done|done].
  destruct (decode_first_char _ [] _ _ Hd) as (Hw & _). unfold scan.
  rewrite (utf8_scan_enough (length bs) (length (drop w (b :: bs)))); [done|..]; rewrite length_drop; cbn [length]; lia.
Qed.

(** What a scan that did not meet an invalid character says of longer inputs. *)
Lemma scan_pieces (bs : list N) t v stop :
  scan bs = (t, v, stop) →
  v ≤ length bs ∧ (v = 0 → t = []) ∧ scan (take v bs) = (t, v, None) ∧
  match stop with
  | None => v = length bs
  | Some None => scan (drop v bs) = ([], 0, Some None)
  | Some (Some n) => True
  end ∧
  ∀ more, scan (bs ++ more) =
    match stop with
    | Some (Some n) => (t, v, stop)
    | _ => let '(t', v', stop') := scan (drop v bs ++ more) in (t ++ t', v + v', stop')
    end.
Proof.
  remember (length bs) as n eqn:Hn. revert bs Hn t v stop.
  induction n as [n IH] using (well_founded_induction lt_wf). intros [|b bs] -> t v stop.
  { intros [= <- <- <-]. split_and!; try done. intros more. cbn [app drop]. by destruct (scan more) as [[??]?]. }
  rewrite scan_cons. destruct (decode_first (b :: bs)) as [c w|k|] eqn:Hd.
  - destruct (decode_first_char _ [] _ _ Hd) as (Hw & Hwl & _).
    destruct (scan (drop w (b :: bs))) as [[t1 v1] s1] eqn:Hs. intros [= <- <- <-].
    destruct (IH (length (drop w (b :: bs))) ltac:(rewrite length_drop; cbn [length] in *; lia) (drop w (b :: bs)) eq_refl t1 v1 s1 Hs)
      as (Hv & Hz & Htk & Hstop & Hmore). clear IH.
    rewrite length_drop in Hv. split_and!.
    + lia.
    + lia.
    + destruct w as [|w]; [lia|]. cbn [plus take]. rewrite scan_cons.
      assert (Hd' : decode_first (b :: take (w + v1) bs) = UChar c (S w)).
      { apply (decode_first_take (b :: bs) c (S w) (S (w + v1)) Hd). lia. }
      rewrite Hd'. cbn [drop] in Htk |- *. rewrite skipn_firstn_comm. replace (w + v1 - w) with v1 by lia. by rewrite Htk.
    + destruct s1 as [[|]|]; [done| |].
      * by rewrite <-drop_drop.
      * rewrite length_drop in Hstop. lia.
    + intros more. destruct (decode_first_char _ more _ _ Hd) as (_ & _ & Hd').
      cbn [app] in Hd' |- *. rewrite scan_cons, Hd'. change (b :: bs ++ more) with ((b :: bs) ++ more).
      rewrite drop_app_le by done. rewrite Hmore. rewrite <-drop_drop.
      destruct s1 as [[|]|]; [done|..]; destruct (scan (drop v1 _ ++ more)) as [[??]?]; by rewrite Nat.add_assoc.
  - intros [= <- <- <-]. split_and!; try done; [lia|]. intros more.
    cbn [app]. rewrite scan_cons. change (b :: bs ++ more) with ((b :: bs) ++ more).
    by rewrite (decode_first_invalid _ more _ Hd).
  - intros [= <- <- <-]. split_and!; try done; [lia|by rewrite drop_0, scan_cons, Hd|]. intros more.
    rewrite drop_0. by destruct (scan _) as [[??]?].
Qed.

Lemma from_utf8_scan bs : from_utf8 bs = let '(t, v, stop) := scan bs in
  match stop with None => Ok t | Some e => Err (v, e) end.
Proof. done. Qed.

(** ** The wrapper *)
Section wrapper.
Context {P E : Type} `{!StreamTextParser P E}.
Implicit Types (q : P) (p : Utf8StreamParser P).

(** Bytes held back: none, or the start of a character. *)
Definition held (d : list N) : Prop := d = [] ∨ scan d = ([], 0, Some None).

(** The outcomes of one push, by what the scan of the buffered bytes says. *)
Lemma push_bytes_cases q d chunk t v stop :
  scan (d ++ chunk) = (t, v, stop) →
  push_bytes (mkUtf8 q d) chunk =
    match stop with
    | Some (Some n) => Some (mkUtf8 q d, Err (InvalidUtf8 v n))
    | Some None =>
        if v =? 0 then Some (mkUtf8 q (d ++ chunk), Ok empty_chunk)
        else '(q, out) ← push_str q t; Some (mkUtf8 q (drop v (d ++ chunk)), Ok out)
    | None => '(q, out) ← push_str q t; Some (mkUtf8 q [], Ok out)
    end.
Proof.
  intros Hs. destruct (scan_pieces _ _ _ _ Hs) as (_ & _ & Htk & _ & _).
  unfold push_bytes. cbn [pending_utf8 utf8_inner]. rewrite from_utf8_scan, Hs.
  destruct stop as [[n|]|]; [by rewrite take_app_length| |done].
  destruct (v =? 0); [done|]. by rewrite from_utf8_scan, Htk.
Qed.

(** Bytes that decode are fed to the inner parser as text, in some chunks. *)
Lemma feed_bytes_text chunks q d text :
  held d → from_utf8 (d ++ mjoin chunks) = Ok text →
  ∃ ts, mjoin ts = text ∧ snd <$> feed_bytes (mkUtf8 q d) chunks = Ok <$> feed_all q ts.
Proof.
  revert q d text; induction chunks as [|chunk chunks IH]; intros q d text Hd Hok; cbn [feed_bytes mjoin list_join] in *.
  - rewrite app_nil_r in Hok. destruct Hd as [->|Hd]; [|by rewrite from_utf8_scan, Hd in Hok].
    injection Hok as <-. exists []. split; [done|]. unfold utf8_finish, feed_all; cbn.
    by destruct (finish q).
  - rewrite app_assoc in Hok. destruct (scan (d ++ chunk)) as [[t v] stop] eqn:Hs.
    destruct (scan_pieces _ _ _ _ Hs) as (Hv & Hz & _ & Hstop & Hmore).
    rewrite from_utf8_scan, Hmore in Hok. rewrite (push_bytes_cases _ _ _ _ _ _ Hs).
    assert (Hpush : ∀ d', held d' → d' = drop v (d ++ chunk) →
      (let '(t', _, stop') := scan (d' ++ mjoin chunks) in
       match stop' with None => Ok (t ++ t') | Some e => Err (v, e) end) = Ok text →
      ∃ ts, mjoin ts = text ∧
        snd <$> ('(p, r) ← ('(q, out) ← push_str q t; Some (mkUtf8 q d', Ok out));
          match r with
          | Err e => Some (p, Err e)
          | Ok out => '(p, rest) ← feed_bytes p chunks;
                      Some (p, match rest with Ok rest => Ok (chunk_app out rest) | Err e => Err e end)
          end) = Ok <$> feed_all q ts).
    { intros d' Hd' _ Heq. destruct (scan (d' ++ mjoin chunks)) as [[t' v'] stop'] eqn:Hs'.
      destruct stop'; [done|]. injection Heq as <-.
      destruct (push_str q t) as [[q1 out]|] eqn:Hq.
      - destruct (IH q1 d' t' Hd') as (ts & Hts & Hfeed); [by rewrite from_utf8_scan, Hs'|].
        exists (t :: ts). split; [by rewrite <-Hts|]. cbn [mbind option_bind].
        unfold feed_all in Hfeed |- *. cbn [feed]. rewrite Hq. cbn [mbind option_bind].
        destruct (feed_bytes (mkUtf8 q1 d') chunks) as [[p2 r2]|], (feed q1 ts) as [[q2 out2]|]; cbn in Hfeed |- *; try done.
        injection Hfeed as ->. by rewrite chunk_app_assoc.
      - exists [t; t']. split; [cbn; by rewrite app_nil_r|]. unfold feed_all. cbn [feed]. by rewrite Hq. }
    destruct stop as [[n|]|]; [done| |].
    + destruct (Nat.eqb_spec v 0) as [->|Hne].
      * rewrite drop_0 in *. rewrite (Hz eq_refl) in *. cbn [mbind option_bind].
        destruct (IH q (d ++ chunk) text) as (ts & Hts & Hfeed); [by right| |].
        { rewrite from_utf8_scan. revert Hok.
          destruct (scan ((d ++ chunk) ++ mjoin chunks)) as [[??][?|]]; [by intros [=]|done]. }
        exists ts. split; [done|]. rewrite <-Hfeed.
        destruct (feed_bytes _ _) as [[p2 [r2|]]|]; cbn; [|done|done]. by rewrite chunk_app_empty_l.
      * apply (Hpush (drop v (d ++ chunk))); [by right|done|].
        revert Hok. destruct (scan (drop v (d ++ chunk) ++ mjoin chunks)) as [[??][?|]]; [by intros [=]|done].
    + subst v. rewrite drop_all in *. apply (Hpush []); [by left|done|].
      revert Hok. destruct (scan ([] ++ mjoin chunks)) as [[??][?|]]; [by intros [=]|done].
Qed.

(** Bytes that are valid UTF-8 when put together may be cut anywhere, also
    inside a character: the wrapper's outputs put together are those the inner
    parser promises for the decoded text. *)
Theorem utf8_stream_decodes (init : P) (sim : relation (StreamTextChunk E)) `{!Streams init sim} chunks text :
  from_utf8 (mjoin chunks) = Ok text →
  ∃ p out, feed_bytes (mkUtf8 init []) chunks = Some (p, Ok out) ∧ sim out (whole text).
Proof.
  intros Hok. destruct (feed_bytes_text chunks init [] text) as (ts & <- & Hfeed); [by left|done|].
  destruct (feed_all_whole ts) as (out & Hout & Hsim). rewrite Hout in Hfeed.
  destruct (feed_bytes _ chunks) as [[p r]|]; [|done]. cbn in Hfeed. injection Hfeed as ->. by exists p, out.
Qed.

Lemma feed_bytes_error chunks q d e p r :
  held d → from_utf8 (d ++ mjoin chunks) = Err e → feed_bytes (mkUtf8 q d) chunks = Some (p, r) → ∃ e', r = Err e'.
Proof.
  revert q d e p r; induction chunks as [|chunk chunks IH]; intros q d e p r Hd Herr; cbn [feed_bytes mjoin list_join] in *.
  - rewrite app_nil_r in Herr. unfold utf8_finish. cbn [pending_utf8]. rewrite Herr. destruct e. intros [= <- <-]. eauto.
  - rewrite app_assoc in Herr. destruct (scan (d ++ chunk)) as [[t v] stop] eqn:Hs.
    destruct (scan_pieces _ _ _ _ Hs) as (Hv & _ & _ & Hstop & Hmore).
    rewrite from_utf8_scan, Hmore in Herr. rewrite (push_bytes_cases _ _ _ _ _ _ Hs).
    assert (Hrest : ∀ q' d' out, held d' →
      (∃ e', from_utf8 (d' ++ mjoin chunks) = Err e') →
      ('(p, rest) ← feed_bytes (mkUtf8 q' d') chunks;
       Some (p, match rest with Ok rest => Ok (chunk_app out rest) | Err e => Err e end)) = Some (p, r) → ∃ e', r = Err e').
    { intros q' d' out Hd' [e' He']. destruct (feed_bytes _ chunks) as [[p' r']|] eqn:Hf; [|done].
      destruct (IH _ _ _ _ _ Hd' He' Hf) as [e'' ->]. cbn. intros [= <- <-]. eauto. }
    assert (Hsc : stop = None ∨ stop = Some None → ∃ e', from_utf8 (drop v (d ++ chunk) ++ mjoin chunks) = Err e').
    { intros Hor. rewrite from_utf8_scan. revert Herr. destruct Hor as [Hor|Hor]; rewrite Hor;
        destruct (scan (drop v (d ++ chunk) ++ mjoin chunks)) as [[t' v'] [s'|]]; by eauto. }
    destruct stop as [[n|]|].
    + cbn. intros [= <- <-]. eauto.
    + destruct (Nat.eqb_spec v 0) as [->|Hne].
      * cbn [mbind option_bind]. rewrite drop_0 in *. apply Hrest; [by right|auto].
      * destruct (push_str q t) as [[q1 out]|]; [|done]. cbn [mbind option_bind].
        apply Hrest; [by right|auto].
    + destruct (push_str q t) as [[q1 out]|]; [|done]. cbn [mbind option_bind]. subst v.
      rewrite drop_all in *. apply Hrest; [by left|auto].
Qed.

(** Bytes that are not UTF-8 when put together end in an error, wherever
    they are cut, and a push that fails leaves the wrapper as it was: the inner
    parser sees nothing of the chunk. *)
Theorem utf8_stream_errors (init : P) chunks e p r :
  from_utf8 (mjoin chunks) = Err e → feed_bytes (mkUtf8 init []) chunks = Some (p, r) →
  (∃ e', r = Err e') ∧
  ∀ (q q' : Utf8StreamParser P) chunk e', push_bytes q chunk = Some (q', Err e') → q' = q.
Proof.
  intros Herr Hfeed. split; [eapply feed_bytes_error; [by left|done|done]|].
  intros [q d] q' chunk e' Hpush. destruct (scan (d ++ chunk)) as [[t v] stop] eqn:Hs.
  rewrite (push_bytes_cases _ _ _ _ _ _ Hs) in Hpush.
  destruct stop as [[n|]|]; [by injection Hpush as <- _|destruct (v =? 0); [done|]|];
    by destruct (push_str q t) as [[??]|].
Qed.
End wrapper.

(** ** Instances: [é] cut in two *)
Lemma utf8_stream_decodes_witness :
  ∃ p out, feed_bytes (mkUtf8 citation_init []) [[104; 195]; [169; 33]]%N = Some (p, Ok out) ∧
    out = mkChunk [104; 233; 33]%N [].
Proof.
  destruct (utf8_stream_decodes citation_init (=) [[104; 195]; [169; 33]]%N [104; 233; 33]%N) as (p & out & Hf & Hs);
    [vm_compute; reflexivity|]. exists p, out. split; [exact Hf|]. rewrite Hs. vm_compute. reflexivity.
Defined.

Lemma utf8_stream_errors_witness :
  ∃ p r, feed_bytes (mkUtf8 citation_init []) [[104]; [195]; [33]]%N = Some (p, r) ∧ ∃ e, r = Err e.
Proof.
  do 2 eexists. split; [vm_compute; reflexivity|].
  refine (proj1 (utf8_stream_errors citation_init [[104]; [195]; [33]]%N _ _ _ _ _)); vm_compute; reflexivity.
Defined.
