(* ===== verification/BashParser.v ===== *)
(** * Shell scripts: [shell-command/src/bash.rs] and [detect_shell_type] of
    [shell_detect.rs]

    What the kernel reads out of a [bash -lc "..."] invocation. Parsing itself
    is tree-sitter's: a syntax tree is the data its interface exposes about the
    nodes of a parsed script (kind, whether it is named, whether it holds an
    error, its first byte, its text, its children). Two readings of a tree are
    modelled: the plain commands of a script that consists of nothing but
    literal words and safe operators, on which approvals are based, and the
    literal part of every command of any script, which is searched for
    dangerous commands. *)

From stdpp Require Import prelude list strings sorting.
From S2P Require Import Prelude.

(** [tree_sitter::Node]: [utf8_text] is the node's text in the parsed source,
    [None] where it is not UTF-8. *)
Inductive Node : Type := mkNode {
  kind : str;
  is_named : bool;
  has_error : bool;
  start_byte : nat;
  utf8_text : option str;
  children : list Node
}.

Definition named_children (n : Node) : list Node := List.filter is_named (children n).
Definition named_child (n : Node) (i : nat) : option Node := named_children n !! i.

Definition is_kind (k : str) (n : Node) : bool := bool_decide (kind n = k).
Definition kind_in (ks : list str) (n : Node) : bool := existsb (λ k, bool_decide (kind n = k)) ks.

(** ** Which words are literal *)

(** The characters of [is_literal_word_or_number] that make the shell expand a
    word or remove characters from it: [{ } * ? [ ] \ ~ ^ # $ `]. *)
Definition EXPANSION_CHARS : list char := [123; 125; 42; 63; 91; 93; 92; 126; 94; 35; 36; 96]%N.
Definition is_expansion_char (c : char) : bool := existsb (N.eqb c) EXPANSION_CHARS.

Definition literal_text (word : str) : bool :=
  negb (starts_with ($"=") word) && negb (existsb is_expansion_char word).

Definition is_literal_word_or_number (n : Node) : bool :=
  kind_in [ $"word"; $"number"] n && is_empty (named_children n)
  && match utf8_text n with Some word => literal_text word | None => false end.

(** The byte pairs of a double-quoted string that the shell rewrites: a
    backslash before [$], a backquote, a double quote, a backslash or LF. *)
Definition BACKSLASH : char := 92%N.
Definition QUOTE : char := 34%N.
Definition APOSTROPHE : char := 39%N.
Definition is_escapable (c : char) : bool := existsb (N.eqb c) [36; 96; 34; 92; 10]%N.
Fixpoint has_escape (s : str) : bool :=
  match s with
  | a :: ((b :: _) as s') => (N.eqb a BACKSLASH && is_escapable b) || has_escape s'
  | _ => false
  end.

(** [raw.strip_prefix(q).and_then(|text| text.strip_suffix(q))] *)
Definition strip_quotes (q : char) (raw : str) : option str :=
  match strip_prefix [q] raw with
  | Some text => strip_suffix [q] text
  | None => None
  end.

Definition parse_double_quoted_string (n : Node) : option str :=
  if negb (is_kind ($"string") n) then None
  else if negb (forallb (is_kind ($"string_content")) (named_children n)) then None
  else match utf8_text n with
       | None => None
       | Some raw =>
           match strip_quotes QUOTE raw with
           | None => None
           | Some stripped => if has_escape stripped then None else Some stripped
           end
       end.

Definition parse_raw_string (n : Node) : option str :=
  if negb (is_kind ($"raw_string") n) then None
  else match utf8_text n with
       | None => None
       | Some raw => strip_quotes APOSTROPHE raw
       end.

(** ** Plain commands *)

(** One part of a concatenation. *)
Definition parse_concat_part (part : Node) : option str :=
  if kind_in [ $"word"; $"number"] part then utf8_text part
  else if is_kind ($"string") part then parse_double_quoted_string part
  else if is_kind ($"raw_string") part then parse_raw_string part
  else None.

Definition parse_concatenation (n : Node) : option str :=
  match mapM parse_concat_part (named_children n) with
  | Some parts => if is_empty (mjoin parts) then None else Some (mjoin parts)
  | None => None
  end.

(** The word a named child of a command stands for. *)
Definition parse_plain_word (child : Node) : option str :=
  if is_kind ($"command_name") child then
    match named_child child 0 with
    | Some word_node => if is_kind ($"word") word_node then utf8_text word_node else None
    | None => None
    end
  else if kind_in [ $"word"; $"number"] child then utf8_text child
  else if is_kind ($"string") child then parse_double_quoted_string child
  else if is_kind ($"raw_string") child then parse_raw_string child
  else if is_kind ($"concatenation") child then parse_concatenation child
  else None.

Definition parse_plain_command_from_node (cmd : Node) : option (list str) :=
  if negb (is_kind ($"command") cmd) then None else mapM parse_plain_word (named_children cmd).

Definition ALLOWED_KINDS : list str :=
  [ $"program"; $"list"; $"pipeline"; $"command"; $"command_name"; $"word"; $"string";
    $"string_content"; $"raw_string"; $"number"; $"concatenation"].
Definition ALLOWED_PUNCT_TOKENS : list str := [ $"&&"; $"||"; $";"; $"|"; [QUOTE]; [APOSTROPHE]].

(** The tests on one node of the walk; [false] rejects the script. *)
Definition node_allowed (n : Node) : bool :=
  if is_named n then
    kind_in ALLOWED_KINDS n
    && negb (kind_in [ $"word"; $"number"] n && negb (is_literal_word_or_number n))
  else
    negb (existsb (λ c, existsb (N.eqb c) ($"&;|")) (kind n) && negb (kind_in ALLOWED_PUNCT_TOKENS n))
    && (kind_in ALLOWED_PUNCT_TOKENS n || is_empty (trim (kind n))).

Definition is_command (n : Node) : bool := is_named n && is_kind ($"command") n.

(** The walk with its stack, the top first: the children of a node are pushed
    in order, so the last is visited next. [None] is running out of fuel,
    [Some None] a rejected script. *)
Fixpoint word_only_walk (fuel : nat) (stack command_nodes : list Node) : option (option (list Node)) :=
  match fuel with
  | 0 => None
  | S fuel =>
      match stack with
      | [] => Some (Some command_nodes)
      | node :: stack =>
          if negb (node_allowed node) then Some None
          else word_only_walk fuel (reverse (children node) ++ stack)
                 (if is_command node then command_nodes ++ [node] else command_nodes)
      end
  end.

(** The number of nodes of a tree. *)
Fixpoint node_size (n : Node) : nat :=
  match n with mkNode _ _ _ _ _ cs => S (sum_list_with node_size cs) end.

Definition try_parse_word_only_commands_sequence (root : Node) : option (option (list (list str))) :=
  if has_error root then Some None
  else match word_only_walk (S (node_size root)) [root] [] with
       | None => None
       | Some None => Some None
       | Some (Some command_nodes) =>
           Some (mapM parse_plain_command_from_node (sort_by_key start_byte command_nodes))
       end.

(** ** Literal commands *)

(** The concatenation's parts are read recursively. *)
Fixpoint parse_literal_shell_word (n : Node) : option str :=
  match n with
  | mkNode _ _ _ _ text cs =>
      if kind_in [ $"word"; $"number"] n then
        if is_literal_word_or_number n then text else None
      else if is_kind ($"string") n then parse_double_quoted_string n
      else if is_kind ($"raw_string") n then parse_raw_string n
      else if is_kind ($"concatenation") n then
        match (fix parts (l : list Node) : option str :=
                 match l with
                 | [] => Some []
                 | part :: l' =>
                     if is_named part then
                       match parse_literal_shell_word part with
                       | Some word => match parts l' with Some s => Some (word ++ s) | None => None end
                       | None => None
                       end
                     else parts l'
                 end) cs with
        | Some concatenated => if is_empty concatenated then None else Some concatenated
        | None => None
        end
      else None
  end.

(** The loop over the named children of a command: words are kept once the
    command's name is found, and words that are not literal are left out. *)
Fixpoint literal_words (found_command_name : bool) (words : list str) (l : list Node)
    : option (bool * list str) :=
  match l with
  | [] => Some (found_command_name, words)
  | child :: l' =>
      if is_kind ($"command_name") child then
        match named_child child 0 with
        | None => None
        | Some name =>
            match parse_literal_shell_word name with
            | None => None
            | Some command_name => literal_words true (words ++ [command_name]) l'
            end
        end
      else match parse_literal_shell_word child with
           | Some word => literal_words found_command_name
                            (if found_command_name then words ++ [word] else words) l'
           | None => literal_words found_command_name words l'
           end
  end.

Definition parse_literal_command_from_node (cmd : Node) : option (list str) :=
  if negb (is_kind ($"command") cmd) then None
  else match literal_words false [] (named_children cmd) with
       | Some (true, words) => Some words
       | _ => None
       end.

Fixpoint literal_walk (fuel : nat) (stack : list Node) (commands : list (list str)) : option (list (list str)) :=
  match fuel with
  | 0 => None
  | S fuel =>
      match stack with
      | [] => Some commands
      | node :: stack =>
          literal_walk fuel (reverse (named_children node) ++ stack)
            (if is_kind ($"command") node then
               match parse_literal_command_from_node node with
               | Some command => commands ++ [command]
               | None => commands
               end
             else commands)
      end
  end.

(** ** Shell invocations *)
Inductive ShellType : Type := Zsh | Bash | PowerShell | Sh | Cmd.

#[global] Instance ShellType_eq_dec : EqDecision ShellType.
Proof. solve_decision. Defined.

(** [std::path::Path] of the host: [file_stem] and equality of paths. *)
Class ShellPaths := {
  file_stem : str → option str;
  same_path : str → str → bool;
  file_stem_shorter p s : file_stem p = Some s → same_path s p = false → length s < length p
}.

Section shells.
Context {SP : ShellPaths}.

(** [detect_shell_type] calls itself on the file stem. *)
Fixpoint detect_shell_type_loop (fuel : nat) (shell_path : str) : option (option ShellType) :=
  match fuel with
  | 0 => None
  | S fuel =>
      if bool_decide (shell_path = $"zsh") then Some (Some Zsh)
      else if bool_decide (shell_path = $"sh") then Some (Some Sh)
      else if bool_decide (shell_path = $"cmd") then Some (Some Cmd)
      else if bool_decide (shell_path = $"bash") then Some (Some Bash)
      else if bool_decide (shell_path = $"pwsh") then Some (Some PowerShell)
      else if bool_decide (shell_path = $"powershell") then Some (Some PowerShell)
      else match file_stem shell_path with
           | Some shell_name =>
               if same_path shell_name shell_path then Some None
               else detect_shell_type_loop fuel shell_name
           | None => Some None
           end
  end.
Definition detect_shell_type (shell_path : str) : option ShellType :=
  default None (detect_shell_type_loop (S (length shell_path)) shell_path).

Definition extract_bash_command (command : list str) : option (str * str) :=
  match command with
  | [shell; flag; script] =>
      if negb (bool_decide (flag = $"-lc") || bool_decide (flag = $"-c"))
         || negb (bool_decide (detect_shell_type shell = Some Zsh)
                  || bool_decide (detect_shell_type shell = Some Bash)
                  || bool_decide (detect_shell_type shell = Some Sh))
      then None
      else Some (shell, script)
  | _ => None
  end.

(** [Parser::parse] of tree-sitter with the bash grammar. *)
Context (try_parse_shell : str → option Node).

Definition parse_shell_script_into_commands (script : str) : option (list (list str)) :=
  match try_parse_shell script with
  | Some tree => default None (try_parse_word_only_commands_sequence tree)
  | None => None
  end.

Definition parse_shell_lc_plain_commands (command : list str) : option (list (list str)) :=
  match extract_bash_command command with
  | Some (_, script) => parse_shell_script_into_commands script
  | None => None
  end.

Definition literal_commands (root : Node) : option (list (list str)) :=
  if has_error root then None else literal_walk (S (node_size root)) [root] [].

Definition parse_shell_lc_literal_commands (command : list str) : option (list (list str)) :=
  match extract_bash_command command with
  | Some (_, script) =>
      match try_parse_shell script with
      | Some root => literal_commands root
      | None => None
      end
  | None => None
  end.
End shells.

(** ** Trees *)
Lemma Node_tree_ind (P : Node → Prop) : (∀ n, Forall P (children n) → P n) → ∀ n, P n.
Proof.
  intros H. fix IH 1. intros [k nm er sb tx cs]. apply H. cbn.
  induction cs as [|c cs IHcs]; constructor; [apply IH|apply IHcs].
Qed.

(** The nodes of a tree, a node before its children. *)
Fixpoint preorder (n : Node) : list Node :=
  match n with mkNode _ _ _ _ _ cs => n :: mjoin (preorder <$> cs) end.
Definition forest (l : list Node) : list Node := mjoin (preorder <$> l).

Lemma preorder_eq n : preorder n = n :: forest (children n).
Proof. by destruct n. Qed.
Lemma node_size_eq n : node_size n = S (sum_list_with node_size (children n)).
Proof. by destruct n. Qed.
Lemma forest_app l k : forest (l ++ k) = forest l ++ forest k.
Proof. unfold forest. by rewrite fmap_app, join_app. Qed.
Lemma forest_cons n l : forest (n :: l) = preorder n ++ forest l.
Proof. done. Qed.
#[global] Instance forest_perm : Proper ((≡ₚ) ==> (≡ₚ)) forest.
Proof.
  intros l k Hlk. unfold forest. induction Hlk; cbn; [done|by f_equiv| |by etrans].
  rewrite !app_assoc. f_equiv. apply Permutation_app_comm.
Qed.
Lemma forallb_perm {A} (f : A → bool) l k : l ≡ₚ k → forallb f l = forallb f k.
Proof. induction 1; cbn; [done|congruence| |congruence]. by rewrite !andb_assoc, (andb_comm (f y)). Qed.
Lemma filter_perm {A} (f : A → bool) l k : l ≡ₚ k → List.filter f l ≡ₚ List.filter f k.
Proof. induction 1; cbn; repeat case_match; try done; [by constructor|constructor|by etrans]. Qed.
Lemma sum_list_with_reverse {A} (f : A → nat) l : sum_list_with f (reverse l) = sum_list_with f l.
Proof. by rewrite (reverse_Permutation l). Qed.
Lemma sum_list_with_app_eq {A} (f : A → nat) l k :
  sum_list_with f (l ++ k) = sum_list_with f l + sum_list_with f k.
Proof. apply sum_list_with_app. Qed.

(** A sort of any arrangement of a list that is strictly increasing in the key
    is that list. *)
Lemma sorted_perm_unique {A} (key : A → nat) (l k : list A) :
  StronglySorted (λ x y, key x < key y) l → StronglySorted (λ x y, key x ≤ key y) k → k ≡ₚ l → k = l.
Proof.
  intros Hl. revert k. induction Hl as [|x l Hl IH Hx]; intros k Hk Hp.
  { by apply Permutation_nil_r in Hp. }
  destruct k as [|y k]; [by apply Permutation_nil_cons in Hp|].
  apply StronglySorted_inv in Hk as [Hk Hy]. rewrite Forall_forall in Hx, Hy.
  assert (y = x) as ->.
  { assert (Hin : y ∈ x :: l) by (rewrite <-Hp; left).
    apply elem_of_cons in Hin as [->|Hin]; [done|]. apply Hx in Hin.
    assert (Hin' : x ∈ y :: k) by (rewrite Hp; left).
    apply elem_of_cons in Hin' as [->|Hin']; [done|]. apply Hy in Hin'. lia. }
  f_equal. apply IH; [done|]. by apply Permutation_cons_inv in Hp.
Qed.

Lemma sort_by_key_unique {A} (key : A → nat) (l k : list A) :
  StronglySorted (λ x y, key x < key y) l → k ≡ₚ l → sort_by_key key k = l.
Proof.
  intros Hl Hp. apply (sorted_perm_unique key); [done|apply sort_by_key_sorted|].
  by rewrite sort_by_key_perm.
Qed.

(** ** The walks *)
Definition commands_of (n : Node) : list Node := List.filter is_command (preorder n).

Lemma word_only_walk_spec fuel stack acc :
  sum_list_with node_size stack < fuel →
  if forallb node_allowed (forest stack)
  then ∃ cs, word_only_walk fuel stack acc = Some (Some cs) ∧
         cs ≡ₚ acc ++ List.filter is_command (forest stack)
  else word_only_walk fuel stack acc = Some None.
Proof.
  revert stack acc. induction fuel as [|fuel IH]; intros stack acc Hf; [lia|].
  destruct stack as [|n stack]; cbn [word_only_walk].
  { exists acc. split; [done|]. by rewrite app_nil_r. }
  rewrite forest_cons, preorder_eq. cbn [app forallb List.filter].
  destruct (node_allowed n) eqn:Hn; [|done]. cbn [negb andb].
  assert (Hp : forest (reverse (children n) ++ stack) ≡ₚ forest (children n) ++ forest stack).
  { by rewrite forest_app, reverse_Permutation. }
  rewrite <-(forallb_perm _ _ _ Hp).
  specialize (IH (reverse (children n) ++ stack)
                 (if is_command n then acc ++ [n] else acc)).
  rewrite sum_list_with_app_eq, sum_list_with_reverse in IH.
  cbn [sum_list_with] in Hf. rewrite node_size_eq in Hf. specialize (IH ltac:(lia)).
  destruct (forallb _ _); [|done]. destruct IH as (cs & -> & Hcs). exists cs. split; [done|].
  rewrite Hcs, (filter_perm _ _ _ Hp). destruct (is_command n); [|done].
  rewrite <-app_assoc. cbn. done.
Qed.

Lemma word_only_result root :
  StronglySorted (λ a b, start_byte a < start_byte b) (commands_of root) →
  try_parse_word_only_commands_sequence root =
    Some (if has_error root then None
          else if forallb node_allowed (preorder root)
          then mapM parse_plain_command_from_node (commands_of root)
          else None).
Proof.
  intros Hs. unfold try_parse_word_only_commands_sequence. destruct (has_error root); [done|].
  assert (Hr : forest [root] = preorder root) by (cbn; by rewrite app_nil_r).
  pose proof (word_only_walk_spec (S (node_size root)) [root] []) as Hw. rewrite Hr in Hw.
  cbn [sum_list_with] in Hw. specialize (Hw ltac:(lia)).
  destruct (forallb _ _); [|by rewrite Hw]. destruct Hw as (cs & -> & Hcs).
  by rewrite (sort_by_key_unique start_byte (commands_of root) cs).
Qed.

(** Reading a script for plain commands always ends. A tree with an error
    is rejected, as is one that holds any node besides literal words, quoted
    strings and the operators of a plain sequence; otherwise the commands are
    those of the tree in source order, although the walk finds them in
    another, each read word by word. *)
Theorem word_only_spec root :
  StronglySorted (λ a b, start_byte a < start_byte b) (commands_of root) →
  try_parse_word_only_commands_sequence root =
    Some (if has_error root then None
          else if forallb node_allowed (preorder root)
          then mapM parse_plain_command_from_node (commands_of root)
          else None).
Proof. apply word_only_result. Qed.

(** ** What the shell makes of the words

    Quote removal of the POSIX shell, on words that no expansion touches. *)

(** Outside quotes a backslash stands for the next character, before LF for
    nothing. *)
Fixpoint unescape_unquoted (s : str) : str :=
  match s with
  | [] => []
  | c :: s' =>
      if N.eqb c BACKSLASH then
        match s' with
        | [] => [c]
        | d :: s'' => if N.eqb d LF then unescape_unquoted s'' else d :: unescape_unquoted s''
        end
      else c :: unescape_unquoted s'
  end.

(** Between double quotes it does so only before the escapable characters. *)
Fixpoint unescape_quoted (s : str) : str :=
  match s with
  | [] => []
  | c :: s' =>
      match s' with
      | d :: s'' =>
          if N.eqb c BACKSLASH && is_escapable d
          then if N.eqb d LF then unescape_quoted s'' else d :: unescape_quoted s''
          else c :: unescape_quoted s'
      | [] => [c]
      end
  end.

(** Braces, globs, tildes, parameters, commands, comments and, in zsh,
    [=command], [^] and [#] patterns depend on the machine. *)
Definition depends_on_machine (s : str) : bool :=
  starts_with ($"=") s || existsb (λ c, existsb (N.eqb c) [123; 125; 42; 63; 91; 93; 126; 94; 35; 36; 96]%N) s.

(** The argument the shell passes for a node, [None] where it depends on the
    machine the script runs on. *)
Fixpoint shell_value (n : Node) : option str :=
  match n with
  | mkNode _ _ _ _ text cs =>
      let parts := (fix go (l : list Node) : option str :=
                      match l with
                      | [] => Some []
                      | c :: l' =>
                          if is_named c then
                            match shell_value c, go l' with
                            | Some a, Some b => Some (a ++ b)
                            | _, _ => None
                            end
                          else go l'
                      end) in
      if kind_in [ $"word"; $"number"] n then
        match text with
        | Some s => if depends_on_machine s then None else Some (unescape_unquoted s)
        | None => None
        end
      else if is_kind ($"string") n then
        match text with
        | Some raw =>
            if forallb (is_kind ($"string_content")) (named_children n)
            then unescape_quoted <$> strip_quotes QUOTE raw
            else None
        | None => None
        end
      else if is_kind ($"raw_string") n then
        match text with Some raw => strip_quotes APOSTROPHE raw | None => None end
      else if is_kind ($"concatenation") n || is_kind ($"command_name") n then parts cs
      else None
  end.

Definition shell_argv (cmd : Node) : option (list str) := mapM shell_value (named_children cmd).

Lemma unescape_unquoted_id s : existsb is_expansion_char s = false → unescape_unquoted s = s.
Proof.
  induction s as [|c s IH]; [done|]. cbn. intros [Hc Hs]%orb_false_iff.
  destruct (N.eqb_spec c BACKSLASH) as [->|_]; [done|]. by rewrite IH.
Qed.

Lemma unescape_quoted_id s : has_escape s = false → unescape_quoted s = s.
Proof.
  induction s as [|c s IH]; [done|]. destruct s as [|d s]; [done|].
  change (has_escape (c :: d :: s)) with ((N.eqb c BACKSLASH && is_escapable d) || has_escape (d :: s)).
  intros [Hc Hs]%orb_false_iff.
  change (unescape_quoted (c :: d :: s)) with
    (if N.eqb c BACKSLASH && is_escapable d
     then if N.eqb d LF then unescape_quoted s else d :: unescape_quoted s
     else c :: unescape_quoted (d :: s)).
  by rewrite Hc, IH.
Qed.

Lemma existsb_weaken {A} (f g : A → bool) l :
  (∀ x, g x = true → f x = true) → existsb f l = false → existsb g l = false.
Proof.
  intros Hfg Hf. apply not_true_is_false. rewrite existsb_exists. intros (x & Hx & Hg).
  apply not_false_iff_true in Hf; [done|]. apply existsb_exists. eauto.
Qed.

Lemma literal_text_machine s : literal_text s = true → depends_on_machine s = false.
Proof.
  unfold literal_text, depends_on_machine. intros [Ha Hb]%andb_true_iff.
  apply negb_true_iff in Ha, Hb. rewrite Ha. cbn [orb].
  revert Hb. apply existsb_weaken. intros c. unfold is_expansion_char.
  rewrite !existsb_exists. intros (d & Hd & Hcd). exists d. split; [|done].
  revert Hd. cbn. tauto.
Qed.

(** The recursive readings as equations on a node's named children. *)
Lemma shell_value_eq n :
  shell_value n =
    if kind_in [ $"word"; $"number"] n then
      match utf8_text n with
      | Some s => if depends_on_machine s then None else Some (unescape_unquoted s)
      | None => None
      end
    else if is_kind ($"string") n then
      match utf8_text n with
      | Some raw =>
          if forallb (is_kind ($"string_content")) (named_children n)
          then unescape_quoted <$> strip_quotes QUOTE raw
          else None
      | None => None
      end
    else if is_kind ($"raw_string") n then
      match utf8_text n with Some raw => strip_quotes APOSTROPHE raw | None => None end
    else if is_kind ($"concatenation") n || is_kind ($"command_name") n
    then mjoin <$> mapM shell_value (named_children n)
    else None.
Proof.
  destruct n as [k nm er sb tx cs]. cbn [shell_value utf8_text].
  repeat (match goal with |- (if ?b then _ else _) = (if ?b then _ else _) => destruct b; [done|] end).
  destruct (_ || _); [|done]. unfold named_children; cbn [children].
  induction cs as [|c cs IH]; [done|]. cbn [List.filter]. destruct (is_named c); [|done].
  rewrite IH. cbn. destruct (shell_value c); [|done]. cbn. by destruct (mapM _ _).
Qed.

Lemma parse_literal_shell_word_eq n :
  parse_literal_shell_word n =
    if kind_in [ $"word"; $"number"] n then
      if is_literal_word_or_number n then utf8_text n else None
    else if is_kind ($"string") n then parse_double_quoted_string n
    else if is_kind ($"raw_string") n then parse_raw_string n
    else if is_kind ($"concatenation") n then
      match mapM parse_literal_shell_word (named_children n) with
      | Some parts => if is_empty (mjoin parts) then None else Some (mjoin parts)
      | None => None
      end
    else None.
Proof.
  destruct n as [k nm er sb tx cs]. cbn [parse_literal_shell_word utf8_text].
  repeat (match goal with |- (if ?b then _ else _) = (if ?b then _ else _) => destruct b; [done|] end).
  destruct (is_kind ($"concatenation") _); [|done]. unfold named_children; cbn [children].
  match goal with |- match ?f cs with _ => _ end = _ =>
    assert (f cs = mjoin <$> mapM parse_literal_shell_word (List.filter is_named cs)) as -> end.
  { induction cs as [|c cs IH]; [done|]. cbn [List.filter]. destruct (is_named c); [|done].
    rewrite IH. cbn. destruct (parse_literal_shell_word c); [|done]. cbn. by destruct (mapM _ _). }
  by destruct (mapM _ _).
Qed.

Lemma kind_in_true ks n : kind_in ks n = true ↔ kind n ∈ ks.
Proof.
  unfold kind_in. rewrite existsb_exists. setoid_rewrite <-list_elem_of_In.
  setoid_rewrite bool_decide_eq_true. naive_solver.
Qed.
Lemma is_kind_true k n : is_kind k n = true ↔ kind n = k.
Proof. apply bool_decide_eq_true. Qed.

(** Evaluate the tests on a node whose kind is known. *)
Ltac by_kind H :=
  unfold kind_in, is_kind in *; rewrite H; cbn [existsb];
  repeat (rewrite bool_decide_true by done || rewrite bool_decide_false by done); cbn [orb].

(** What a word, a string and a raw string are read as is what the shell
    passes. *)
Lemma literal_word_value n s :
  is_literal_word_or_number n = true → utf8_text n = Some s → shell_value n = Some s.
Proof.
  unfold is_literal_word_or_number. intros [[Hk _]%andb_true_iff Ht]%andb_true_iff Hs.
  rewrite shell_value_eq, Hk, Hs in *. rewrite literal_text_machine by done.
  f_equal. apply unescape_unquoted_id. by apply andb_true_iff in Ht as [_ ?%negb_true_iff].
Qed.

Lemma string_value n s : parse_double_quoted_string n = Some s → shell_value n = Some s.
Proof.
  unfold parse_double_quoted_string. destruct (is_kind _ n) eqn:Hk; [|done].
  destruct (forallb _ _) eqn:Hc; [|done]. cbn [negb]. intros H. rewrite shell_value_eq.
  apply is_kind_true in Hk. by_kind Hk. rewrite Hc.
  destruct (utf8_text n) as [raw|]; [|done].
  destruct (strip_quotes _ raw) as [t|]; [|done]. cbn.
  destruct (has_escape t) eqn:He; [done|]. simplify_eq. by rewrite unescape_quoted_id.
Qed.

Lemma raw_string_value n s : parse_raw_string n = Some s → shell_value n = Some s.
Proof.
  unfold parse_raw_string. destruct (is_kind _ n) eqn:Hk; [|done].
  rewrite shell_value_eq. apply is_kind_true in Hk. by_kind Hk. done.
Qed.

(** ** Plain scripts *)
Definition plain_tree (n : Node) : Prop := forallb node_allowed (preorder n) = true.

Lemma named_children_elem n c : c ∈ named_children n ↔ is_named c = true ∧ c ∈ children n.
Proof. unfold named_children. rewrite !list_elem_of_In, filter_In. tauto. Qed.

Lemma elem_of_forest n l : n ∈ forest l ↔ ∃ m, m ∈ l ∧ n ∈ preorder m.
Proof. unfold forest. rewrite list_elem_of_join. setoid_rewrite list_elem_of_fmap. naive_solver. Qed.

Lemma preorder_self n : n ∈ preorder n.
Proof. rewrite preorder_eq. left. Qed.

Lemma preorder_sub n m : m ∈ preorder n → preorder m ⊆ preorder n.
Proof.
  revert m. induction n as [n IH] using Node_tree_ind. intros m. rewrite (preorder_eq n).
  intros [->|Hm]%elem_of_cons; [by rewrite <-preorder_eq|]. intros x Hx. right.
  apply elem_of_forest in Hm as (c & Hc & Hm). apply elem_of_forest. exists c. split; [done|].
  rewrite Forall_forall in IH. by apply (IH c Hc m).
Qed.

Lemma preorder_child n c : c ∈ children n → c ∈ preorder n.
Proof. intros Hc. rewrite preorder_eq. right. apply elem_of_forest. eauto using preorder_self. Qed.

Lemma plain_tree_elem n m : plain_tree n → m ∈ preorder n → node_allowed m = true.
Proof. unfold plain_tree. rewrite forallb_forall. intros H Hm. apply H. by apply list_elem_of_In. Qed.

Lemma plain_tree_sub n m : plain_tree n → m ∈ preorder n → plain_tree m.
Proof.
  unfold plain_tree. rewrite !forallb_forall. intros H Hm x Hx. apply H.
  rewrite <-list_elem_of_In in *. by apply (preorder_sub n m).
Qed.

Lemma plain_tree_child n c : plain_tree n → c ∈ named_children n → plain_tree c ∧ is_named c = true.
Proof.
  intros H [Hn Hc]%named_children_elem. split; [|done].
  apply (plain_tree_sub n); [done|]. by apply preorder_child.
Qed.

Lemma plain_word_literal n :
  plain_tree n → is_named n = true → kind_in [ $"word"; $"number"] n = true → is_literal_word_or_number n = true.
Proof.
  intros Hp Hn Hk. apply plain_tree_elem with (m := n) in Hp; [|apply preorder_self].
  unfold node_allowed in Hp. rewrite Hn, Hk in Hp. apply andb_true_iff in Hp as [_ Hp].
  by destruct (is_literal_word_or_number n).
Qed.

Lemma mapM_weaken {A B} (f g : A → option B) l ys :
  (∀ x y, x ∈ l → f x = Some y → g x = Some y) → mapM f l = Some ys → mapM g l = Some ys.
Proof.
  rewrite !mapM_Some. intros H Hf. induction Hf as [|x y l ys Hxy Hf IH]; constructor.
  - apply H; [left|done].
  - apply IH. intros x' y' Hx'. apply H. by right.
Qed.

(** On the nodes of a plain script the two readings agree with each other and
    with the shell. *)
Lemma concat_part_agrees n s :
  plain_tree n → is_named n = true → parse_concat_part n = Some s →
  shell_value n = Some s ∧ parse_literal_shell_word n = Some s.
Proof.
  intros Hp Hn. unfold parse_concat_part. rewrite parse_literal_shell_word_eq.
  destruct (kind_in _ n) eqn:Hk.
  { intros Hs. pose proof (plain_word_literal n Hp Hn Hk) as Hl. rewrite Hl.
    auto using literal_word_value. }
  destruct (is_kind ($"string") n); [auto using string_value|].
  destruct (is_kind ($"raw_string") n); [auto using raw_string_value|done].
Qed.

Lemma plain_arg_agrees n s :
  plain_tree n → is_named n = true → is_kind ($"command_name") n = false → parse_plain_word n = Some s →
  shell_value n = Some s ∧ parse_literal_shell_word n = Some s.
Proof.
  intros Hp Hn Hk. unfold parse_plain_word. rewrite Hk. intros Hs.
  destruct (parse_concat_part n) as [t|] eqn:Hc.
  { assert (t = s) as ->; [|by apply concat_part_agrees]. unfold parse_concat_part in Hc.
    repeat case_match; congruence. }
  unfold parse_concat_part in Hc. rewrite parse_literal_shell_word_eq, (shell_value_eq n), Hk.
  destruct (kind_in _ n); [congruence|].
  destruct (is_kind ($"string") n); [congruence|].
  destruct (is_kind ($"raw_string") n); [congruence|].
  destruct (is_kind ($"concatenation") n); [|done]. cbn [orb].
  unfold parse_concatenation in Hs. destruct (mapM parse_concat_part _) as [parts|] eqn:Hm; [|done].
  pose proof (λ x y Hx Hy, concat_part_agrees x y
    (proj1 (plain_tree_child n x Hp Hx)) (proj2 (plain_tree_child n x Hp Hx)) Hy) as Hag.
  rewrite (mapM_weaken parse_concat_part shell_value _ parts), (mapM_weaken parse_concat_part parse_literal_shell_word _ parts);
    [|naive_solver..].
  destruct (is_empty _); [done|]. simplify_eq. done.
Qed.

(** The shape tree-sitter-bash gives to trees: tokens are leaves, commands come
    in source order, and a command without assignments or redirections starts
    with its name, which is one word. *)
Record bash_tree (root : Node) : Prop := {
  bt_named : is_named root = true;
  bt_leaf n : n ∈ preorder root → is_named n = false → children n = [];
  bt_order : StronglySorted (λ a b, start_byte a < start_byte b) (commands_of root);
  bt_command c : c ∈ commands_of root → plain_tree c →
    ∃ name word args, named_children c = name :: args ∧ kind name = $"command_name" ∧
      named_children name = [word] ∧ Forall (λ a, kind a ≠ $"command_name") args
}.

Lemma literal_words_args words l :
  Forall (λ n, is_kind ($"command_name") n = false) l →
  literal_words true words l = Some (true, words ++ omap parse_literal_shell_word l).
Proof.
  intros Hl. revert words. induction Hl as [|n l Hn _ IH]; intros words; cbn [literal_words].
  { by rewrite app_nil_r. }
  rewrite Hn. destruct (parse_literal_shell_word n) eqn:E; rewrite IH; cbn; rewrite E; [|done].
  by rewrite <-app_assoc.
Qed.

Lemma omap_of_mapM {A B} (f : A → option B) l ys : mapM f l = Some ys → omap f l = ys.
Proof. rewrite mapM_Some. induction 1 as [|x y l ys Hxy _ IH]; [done|]. cbn. by rewrite Hxy, IH. Qed.

Lemma plain_command_agrees root c ws :
  bash_tree root → plain_tree root → c ∈ commands_of root →
  parse_plain_command_from_node c = Some ws →
  shell_argv c = Some ws ∧ parse_literal_command_from_node c = Some ws.
Proof.
  intros Hb Hp Hc. unfold parse_plain_command_from_node, parse_literal_command_from_node, shell_argv.
  destruct (is_kind _ c) eqn:Hk; [|done]. cbn [negb]. intros Hws.
  assert (Hpc : plain_tree c).
  { apply (plain_tree_sub root); [done|]. unfold commands_of in Hc.
    rewrite list_elem_of_In, filter_In, <-list_elem_of_In in Hc. tauto. }
  destruct (bt_command root Hb c Hc Hpc) as (name & word & args & Hnc & Hname & Hword & Hargs).
  rewrite Hnc in *. cbn in Hws. apply bind_Some in Hws as (w & Hw & Hws).
  apply bind_Some in Hws as (ws' & Hws & [= <-]).
  destruct (plain_tree_child c name Hpc ltac:(rewrite Hnc; left)) as [Hpn _].
  destruct (plain_tree_child name word Hpn ltac:(rewrite Hword; left)) as [Hpw Hnw].
  assert (Hall : ∀ x y, x ∈ args → parse_plain_word x = Some y →
    shell_value x = Some y ∧ parse_literal_shell_word x = Some y).
  { intros x y Hx Hy. destruct (plain_tree_child c x Hpc ltac:(rewrite Hnc; by right)) as [Hpx Hnx].
    apply plain_arg_agrees; [done..| |done]. apply bool_decide_eq_false.
    rewrite Forall_forall in Hargs. by apply Hargs. }
  unfold parse_plain_word, named_child in Hw.
  rewrite Hword, (proj2 (is_kind_true _ name) Hname) in Hw. cbn [lookup list_lookup] in Hw.
  destruct (is_kind ($"word") word) eqn:Hkw; [|done].
  assert (Hkin : kind_in [ $"word"; $"number"] word = true).
  { apply is_kind_true in Hkw. apply kind_in_true. rewrite Hkw. left. }
  pose proof (plain_word_literal word Hpw Hnw Hkin) as Hlit. split.
  - cbn. rewrite (shell_value_eq name). by_kind Hname. rewrite Hword. cbn.
    rewrite (literal_word_value word w) by done. cbn. rewrite app_nil_r.
    rewrite (mapM_weaken parse_plain_word shell_value args ws') by naive_solver. done.
  - cbn [literal_words]. rewrite (proj2 (is_kind_true _ name) Hname). unfold named_child. rewrite Hword. cbn [lookup list_lookup].
    rewrite parse_literal_shell_word_eq, Hkin, Hlit, Hw. rewrite literal_words_args.
    2:{ eapply Forall_impl; [exact Hargs|]. intros a Ha. by apply bool_decide_eq_false. }
    cbn. do 2 f_equal. apply omap_of_mapM. eapply mapM_weaken; [|done]. naive_solver.
Qed.

Lemma word_only_Some root cmds :
  bash_tree root → try_parse_word_only_commands_sequence root = Some (Some cmds) →
  has_error root = false ∧ plain_tree root ∧
  mapM parse_plain_command_from_node (commands_of root) = Some cmds.
Proof.
  intros Hb. rewrite word_only_result by apply (bt_order _ Hb). unfold plain_tree.
  destruct (has_error root); [done|]. destruct (forallb _ _); [|done]. by intros [= ->].
Qed.

(** C28: The words read from a plain script are the arguments the shell passes:
    no command of the script is left out, none is invented, and quote removal
    and expansion, which the reader does not perform, would not change a
    word. *)
Theorem plain_commands_argv root cmds :
  bash_tree root → try_parse_word_only_commands_sequence root = Some (Some cmds) →
  mapM shell_argv (commands_of root) = Some cmds.
Proof.
  intros Hb Hc. apply word_only_Some in Hc as (_ & Hp & Hm); [|done].
  eapply mapM_weaken; [|exact Hm]. intros c ws Hin Hws. by eapply plain_command_agrees.
Qed.

(** ** Literal commands *)
Lemma filter_named_forest l :
  (∀ n, n ∈ forest l → is_named n = false → children n = []) →
  List.filter is_named (forest (List.filter is_named l)) = List.filter is_named (forest l).
Proof.
  induction l as [|n l IH]; intros Hl; [done|]. cbn [List.filter].
  assert (Hl' : ∀ m, m ∈ forest l → is_named m = false → children m = []).
  { intros m Hm. apply Hl. rewrite forest_cons. apply elem_of_app. by right. }
  destruct (is_named n) eqn:Hn; rewrite ?forest_cons, ?List.filter_app, IH by done; [done|].
  rewrite preorder_eq. cbn [List.filter]. rewrite Hn, Hl; [done| |done].
  rewrite forest_cons. apply elem_of_app. left. apply preorder_self.
Qed.

Lemma literal_command_kind n : is_kind ($"command") n = false → parse_literal_command_from_node n = None.
Proof. unfold parse_literal_command_from_node. by intros ->. Qed.

Lemma omap_perm {A B} (f : A → option B) l k : l ≡ₚ k → omap f l ≡ₚ omap f k.
Proof. intros H. by rewrite H. Qed.

Lemma literal_walk_spec fuel stack acc :
  sum_list_with node_size stack < fuel → Forall (λ n, is_named n = true) stack →
  (∀ n, n ∈ forest stack → is_named n = false → children n = []) →
  ∃ cs, literal_walk fuel stack acc = Some cs ∧
    cs ≡ₚ acc ++ omap parse_literal_command_from_node (List.filter is_named (forest stack)).
Proof.
  revert stack acc. induction fuel as [|fuel IH]; intros stack acc Hf Hn Hl; [lia|].
  destruct stack as [|n stack]; cbn [literal_walk].
  { exists acc. split; [done|]. by rewrite app_nil_r. }
  apply Forall_cons in Hn as [Hn Hns].
  assert (Hsize : sum_list_with node_size (named_children n) ≤ sum_list_with node_size (children n)).
  { unfold named_children. clear. induction (children n) as [|c cs IH]; cbn; [lia|].
    destruct (is_named c); cbn; lia. }
  cbn [sum_list_with] in Hf. rewrite node_size_eq in Hf.
  rewrite forest_cons, preorder_eq in Hl. cbn [app] in Hl.
  edestruct (IH (reverse (named_children n) ++ stack)) as (cs & Hcs & Hp).
  { rewrite sum_list_with_app_eq, sum_list_with_reverse. lia. }
  { apply Forall_app. split; [|done]. apply Forall_reverse, Forall_forall.
    intros c Hc. by apply named_children_elem in Hc as [? _]. }
  { intros m. rewrite forest_app, reverse_Permutation, elem_of_app. intros Hm. apply Hl.
    right. apply elem_of_app. destruct Hm as [Hm|Hm]; [left|by right].
    apply elem_of_forest in Hm as (c & [_ Hc]%named_children_elem & Hm). apply elem_of_forest. eauto. }
  exists cs. split; [exact Hcs|]. rewrite Hp. clear Hcs Hp IH.
  rewrite forest_app, List.filter_app, omap_app.
  rewrite (omap_perm _ _ _ (filter_perm is_named _ _ (forest_perm _ _ (reverse_Permutation _)))).
  unfold named_children at 1. rewrite filter_named_forest.
  2:{ intros m Hm. apply Hl. right. apply elem_of_app. by left. }
  rewrite forest_cons, preorder_eq. cbn [app List.filter]. rewrite Hn, List.filter_app.
  cbn [omap list_omap]. rewrite omap_app.
  destruct (is_kind ($"command") n) eqn:Hk.
  - destruct (parse_literal_command_from_node n); [|done]. by rewrite <-app_assoc.
  - by rewrite literal_command_kind.
Qed.

Lemma literal_commands_cover root cmds :
  bash_tree root → try_parse_word_only_commands_sequence root = Some (Some cmds) →
  ∃ lits, literal_commands root = Some lits ∧ lits ≡ₚ cmds.
Proof.
  intros Hb Hc. apply word_only_Some in Hc as (He & Hp & Hm); [|done].
  assert (Hr : forest [root] = preorder root) by (cbn; by rewrite app_nil_r).
  unfold literal_commands. rewrite He.
  destruct (literal_walk_spec (S (node_size root)) [root] []) as (lits & Hlits & Hperm).
  { cbn. lia. }
  { constructor; [apply (bt_named _ Hb)|constructor]. }
  { rewrite Hr. apply (bt_leaf _ Hb). }
  exists lits. split; [done|]. rewrite Hperm, Hr. cbn [app].
  assert (Hcmd : omap parse_literal_command_from_node (List.filter is_named (preorder root))
                 = omap parse_literal_command_from_node (commands_of root)).
  { unfold commands_of, is_command. clear. induction (preorder root) as [|n l IH]; [done|].
    cbn [List.filter]. destruct (is_named n) eqn:Hn; cbn [andb]; [|done].
    destruct (is_kind ($"command") n) eqn:Hk; cbn [omap list_omap]; [by rewrite IH|].
    by rewrite literal_command_kind. }
  rewrite Hcmd, (omap_of_mapM _ _ cmds); [done|]. eapply mapM_weaken; [|exact Hm].
  intros c ws Hin Hws. by eapply plain_command_agrees.
Qed.

(** The search for dangerous commands overlooks nothing of a plain script:
    it also ends, and what it extracts are the commands of the plain reading,
    in some order. *)
Theorem literal_reading_covers_plain root cmds :
  bash_tree root → try_parse_word_only_commands_sequence root = Some (Some cmds) →
  ∃ lits, literal_commands root = Some lits ∧ lits ≡ₚ cmds.
Proof. apply literal_commands_cover. Qed.

(** ** Detecting the shell *)
Section detect.
Context {SP : ShellPaths}.

Lemma detect_shell_type_enough fuel p : length p < fuel → is_Some (detect_shell_type_loop fuel p).
Proof.
  revert p. induction fuel as [|fuel IH]; intros p Hp; [lia|]. cbn [detect_shell_type_loop].
  do 6 (case_match; [eauto|]). destruct (file_stem p) as [s|] eqn:Hs; [|eauto].
  destruct (same_path s p) eqn:He; [eauto|]. apply IH.
  pose proof (file_stem_shorter p s Hs He). lia.
Qed.

Lemma detect_shell_type_loop_fuel fuel p r :
  detect_shell_type_loop fuel p = Some r → detect_shell_type p = r.
Proof.
  unfold detect_shell_type. destruct (detect_shell_type_enough (S (length p)) p) as [r' Hr']; [lia|].
  rewrite Hr'. cbn. revert Hr'. generalize (S (length p)) as fuel'. intros fuel'. revert fuel' p.
  induction fuel as [|fuel IH]; intros fuel' p; [done|]. destruct fuel' as [|fuel']; [done|].
  cbn [detect_shell_type_loop]. do 6 (case_match; [congruence|]).
  destruct (file_stem p); [|congruence]. destruct (same_path _ _); [congruence|]. apply IH.
Qed.
End detect.

(** [std::path::Path] on Unix: components, [file_name] and [file_stem]. *)
Inductive Component : Type := RootDir | CurDir | ParentDir | Normal (s : str).

#[global] Instance Component_eq_dec : EqDecision Component.
Proof. solve_decision. Defined.

Definition SLASH : char := 47%N.
Definition component_of (part : str) : option Component :=
  if is_empty part || bool_decide (part = $".") then None
  else if bool_decide (part = $"..") then Some ParentDir
  else Some (Normal part).
Definition unix_components (p : str) : list Component :=
  match split_char SLASH p with
  | [] => []
  | part :: parts =>
      (if starts_with [SLASH] p then [RootDir]
       else if bool_decide (part = $".") then [CurDir]
       else option_list (component_of part)) ++ omap component_of parts
  end.
Definition unix_path_file_name (p : str) : option str :=
  match last (unix_components p) with Some (Normal s) => Some s | _ => None end.
Definition unix_file_stem (p : str) : option str :=
  match unix_path_file_name p with
  | Some name =>
      match rsplit_once 46%N name with
      | Some (before, _) => if is_empty before then Some name else Some before
      | None => Some name
      end
  | None => None
  end.
Definition unix_same_path (p q : str) : bool := bool_decide (unix_components p = unix_components q).

Lemma split_char_part c p x : x ∈ split_char c p → x = p ∨ length x < length p.
Proof.
  revert x. induction p as [|d p IH]; intros x; cbn.
  { intros ->%list_elem_of_singleton. by left. }
  case_decide as Hd.
  - intros [->|Hx]%elem_of_cons; right; cbn; [lia|]. destruct (IH x Hx) as [->|]; lia.
  - destruct (split_char c p) as [|h t] eqn:Hs; [by destruct (split_char_ne c p)|].
    intros [->|Hx]%elem_of_cons.
    + destruct (IH h ltac:(left)) as [->|]; [by left|right; cbn; lia].
    + destruct (IH x ltac:(by right)) as [->|]; right; cbn; lia.
Qed.

Lemma unix_file_name_part p s : unix_path_file_name p = Some s → s ∈ split_char SLASH p.
Proof.
  unfold unix_path_file_name, unix_components. destruct (split_char SLASH p) as [|part parts]; [done|].
  assert (Hin : ∀ q x, component_of q = Some (Normal x) → x = q).
  { intros q x. unfold component_of. repeat case_match; congruence. }
  intros Hl. destruct (last _) as [c|] eqn:E; [|done].
  destruct c as [| | |x]; try done. simplify_eq. apply last_Some in E as [l E].
  assert (Hx : Normal s ∈ l ++ [Normal s]) by (apply elem_of_app; right; left).
  rewrite <-E in Hx. apply elem_of_app in Hx as [Hx|(q & Hq & Hx)%list_elem_of_omap].
  - apply elem_of_cons; left. repeat case_match; try (by apply list_elem_of_singleton in Hx).
    destruct (component_of part) as [c|] eqn:Hc; [|by apply elem_of_nil in Hx].
    apply list_elem_of_singleton in Hx. subst. by apply Hin.
  - apply elem_of_cons; right. by rewrite (Hin _ _ Hx).
Qed.

#[export] Program Instance unix_shell_paths : ShellPaths := {|
  file_stem := unix_file_stem; same_path := unix_same_path
|}.
Next Obligation.
  intros p s Hs Hne. unfold unix_file_stem in Hs.
  destruct (unix_path_file_name p) as [name|] eqn:Hn; [|done].
  apply unix_file_name_part, split_char_part in Hn.
  assert (Hle : s = name ∨ length s < length name).
  { destruct (rsplit_once 46 name) as [[before after]|] eqn:Hr; [|naive_solver].
    destruct (is_empty before); [naive_solver|]. apply rsplit_once_Some in Hr as [-> _].
    simplify_eq. right. rewrite length_app. cbn. lia. }
  destruct Hn as [->|]; destruct Hle as [->|]; try lia.
  exfalso. revert Hne. unfold unix_same_path. by rewrite bool_decide_true.
Qed.

(** ** Instances: [ls -l && echo 'a b'] *)
Definition leaf (k : str) (named : bool) (at_byte : nat) (text : str) : Node :=
  mkNode k named false at_byte (Some text) [].
Definition name_node (at_byte : nat) (text : str) : Node :=
  mkNode ($"command_name") true false at_byte (Some text) [leaf ($"word") true at_byte text].
Definition demo_ls : Node :=
  mkNode ($"command") true false 0 (Some ($"ls -l")) [name_node 0 ($"ls"); leaf ($"word") true 3 ($"-l")].
Definition demo_echo : Node :=
  mkNode ($"command") true false 9 (Some ($"echo 'a b'"))
    [name_node 9 ($"echo"); leaf ($"raw_string") true 14 ($"'a b'")].
Definition demo_tree : Node :=
  mkNode ($"program") true false 0 (Some ($"ls -l && echo 'a b'"))
    [mkNode ($"list") true false 0 (Some ($"ls -l && echo 'a b'"))
       [demo_ls; leaf ($"&&") false 6 ($"&&"); demo_echo]].
Definition demo_commands : list (list str) := [[ $"ls"; $"-l"]; [ $"echo"; $"a b"]].

Lemma demo_tree_commands : commands_of demo_tree = [demo_ls; demo_echo].
Proof. vm_compute. reflexivity. Qed.

Lemma demo_tree_ok : bash_tree demo_tree.
Proof.
  split; rewrite ?demo_tree_commands.
  - reflexivity.
  - intros n Hn Hnamed.
    assert (Hall : forallb (λ n, is_named n || is_empty (children n)) (preorder demo_tree) = true)
      by (vm_compute; reflexivity).
    rewrite forallb_forall in Hall. apply list_elem_of_In, Hall in Hn. rewrite Hnamed in Hn.
    by destruct (children n).
  - repeat constructor.
  - intros c [->|[->|[]%elem_of_nil]%elem_of_cons]%elem_of_cons _.
    + exists (name_node 0 ($"ls")), (leaf ($"word") true 0 ($"ls")), [leaf ($"word") true 3 ($"-l")].
      split_and!; [reflexivity..|]. by repeat constructor.
    + exists (name_node 9 ($"echo")), (leaf ($"word") true 9 ($"echo")),
        [leaf ($"raw_string") true 14 ($"'a b'")].
      split_and!; [reflexivity..|]. by repeat constructor.
Qed.

Lemma word_only_spec_witness :
  StronglySorted (λ a b, start_byte a < start_byte b) (commands_of demo_tree) ∧
  try_parse_word_only_commands_sequence demo_tree = Some (Some demo_commands).
Proof.
  split; [apply (bt_order _ demo_tree_ok)|].
  rewrite (word_only_spec demo_tree (bt_order _ demo_tree_ok)). vm_compute. reflexivity.
Defined.

Lemma plain_commands_argv_witness :
  mapM shell_argv (commands_of demo_tree) = Some demo_commands.
Proof.
  apply (plain_commands_argv demo_tree demo_commands demo_tree_ok). vm_compute. reflexivity.
Defined.

Lemma literal_reading_covers_plain_witness :
  ∃ lits, literal_commands demo_tree = Some lits ∧ lits ≡ₚ demo_commands.
Proof.
  apply (literal_reading_covers_plain demo_tree demo_commands demo_tree_ok). vm_compute. reflexivity.
Defined.

Example detect_unix :
  detect_shell_type ($"/usr/local/bin/bash") = Some Bash ∧ detect_shell_type ($"zsh.exe") = Some Zsh ∧
  detect_shell_type ($"bash/") = None ∧ detect_shell_type ($"/bin/") = None.
Proof. vm_compute. auto. Qed.
