(* ===== verification/DangerousCommand.v ===== *)
(** * Dangerous commands: [shell-command/src/command_safety]

    [is_dangerous_command.rs] and [windows_dangerous_commands.rs]: whether the
    words of a command match one of the rules for commands that must not run
    without approval. [sudo], [env], [trap] and shell scripts wrap commands in
    commands; the classifier looks through at most eight of them and treats
    what is deeper as dangerous. The shell's parser, [shlex], the regular
    expression that isolates a URL and the URL parser are third-party code and
    parameters. *)

From stdpp Require Import prelude list strings.
From S2P Require Import Prelude BashParser Truncate.

Inductive DangerousCommandPlatform : Type := Posix | Windows.
Inductive DangerousCommandMatch : Type := ForcedRm | OtherMatch.

#[global] Instance DangerousCommandPlatform_eq_dec : EqDecision DangerousCommandPlatform.
Proof. solve_decision. Defined.
#[global] Instance DangerousCommandMatch_eq_dec : EqDecision DangerousCommandMatch.
Proof. solve_decision. Defined.

Definition MAX_DANGEROUS_COMMAND_WRAPPER_DEPTH : nat := 8.

Definition is_path_separator (c : char) : bool := N.eqb c SLASH || N.eqb c BACKSLASH.

(** [name[2..]] after a drive letter and a colon. *)
Definition strip_drive (name : str) : str :=
  match name with
  | drive :: colon :: rest => if is_ascii_alphabetic drive && N.eqb colon 58 then rest else name
  | _ => name
  end.

Definition executable_name_lookup_key (raw : str) (platform : DangerousCommandPlatform) : option str :=
  match platform with
  | Posix =>
      let name := after_last (N.eqb SLASH) raw in
      if is_empty name then None else Some name
  | Windows =>
      let name := after_last is_path_separator raw in
      if is_empty name then None
      else
        let name := to_ascii_lowercase (strip_drive name) in
        match find_map (λ suffix, strip_suffix suffix name) [ $".exe"; $".cmd"; $".bat"; $".com"] with
        | Some stripped => Some stripped
        | None => if is_empty name then None else Some name
        end
  end.

(** [args.iter().take_while(|arg| arg != "--").any(..)] *)
Definition is_force_option (arg : str) : bool :=
  bool_decide (arg = $"--force")
  || match strip_prefix ($"-") arg with
     | Some flags => negb (starts_with ($"-") flags) && contains_char 102 flags
     | None => false
     end.
Fixpoint rm_args_include_force_option (args : list str) : bool :=
  match args with
  | [] => false
  | arg :: args' =>
      if bool_decide (arg = $"--") then false
      else is_force_option arg || rm_args_include_force_option args'
  end.

(** The loop of [dangerous_command_match_for_env]: what is left of the
    arguments after options and assignments. *)
Definition is_env_setting (argument : str) : bool :=
  bool_decide (argument = $"-i") || bool_decide (argument = $"--ignore-environment")
  || match split_once 61%N argument with
     | Some (name, _) => negb (is_empty name) && negb (starts_with ($"-") name)
     | None => false
     end.
Fixpoint env_command (args : list str) : list str :=
  match args with
  | [] => []
  | argument :: args' =>
      if bool_decide (argument = $"--") then args'
      else if is_env_setting argument then env_command args'
      else args
  end.

(** The shell command a trap's action stands for. *)
Definition trap_command (args : list str) : option (list str) :=
  let args := match args with
              | argument :: args' => if bool_decide (argument = $"--") then args' else args
              | [] => []
              end in
  match args with
  | action :: _ => if starts_with ($"-") action then None else Some [ $"sh"; $"-c"; action]
  | [] => None
  end.

(** ** Windows *)
Section windows.
Context (shlex_split : str → option (list str)).
(** The first group of the regular expression of [looks_like_url], and the
    scheme [Url::parse] finds. *)
Context (url_capture : str → option str) (url_scheme : str → option str).

Definition looks_like_url (token : str) : bool :=
  let lowercase_token := to_ascii_lowercase token in
  let urlish := match find_str ($"https://") lowercase_token with
                | Some idx => drop idx token
                | None => match find_str ($"http://") lowercase_token with
                          | Some idx => drop idx token
                          | None => token
                          end
                end in
  let candidate := default urlish (url_capture urlish) in
  match url_scheme candidate with
  | Some scheme => one_of [ $"http"; $"https"] scheme
  | None => false
  end.
Definition args_have_url (args : list str) : bool := existsb looks_like_url args.

Definition executable_basename (exe : str) : option str :=
  let name := after_last is_path_separator exe in
  if is_empty name then None
  else let name := strip_drive name in
       if is_empty name then None else Some (to_ascii_lowercase name).

Definition is_powershell_executable (exe : str) : bool :=
  match executable_basename exe with
  | Some base => one_of [ $"powershell"; $"powershell.exe"; $"pwsh"; $"pwsh.exe"] base
  | None => false
  end.
Definition is_browser_executable : str → bool :=
  one_of [ $"chrome"; $"chrome.exe"; $"msedge"; $"msedge.exe"; $"firefox"; $"firefox.exe";
           $"iexplore"; $"iexplore.exe"].

Definition has_flag (flag : str) (args : list str) : bool := existsb (λ a, eq_ignore_ascii_case a flag) args.
Definition has_force_flag_cmd : list str → bool := has_flag ($"/f").
Definition has_recursive_flag_cmd : list str → bool := has_flag ($"/s").
Definition has_quiet_flag_cmd : list str → bool := has_flag ($"/q").

(** [parse_powershell_invocation]: the loop over the arguments. *)
Fixpoint parse_powershell_invocation (args : list str) : option (list str) :=
  match args with
  | [] => None
  | arg :: args' =>
      let lower := to_ascii_lowercase arg in
      if one_of [ $"-command"; $"/command"; $"-c"] lower then
        match args' with
        | [script] => shlex_split script
        | _ => None
        end
      else if starts_with ($"-command:") lower || starts_with ($"/command:") lower then
        match args' with
        | [] => match split_once 58%N arg with
                | Some (_, script) => shlex_split script
                | None => None
                end
        | _ => None
        end
      else if one_of [ $"-nologo"; $"-noprofile"; $"-noninteractive"; $"-mta"; $"-sta"] lower
      then parse_powershell_invocation args'
      else if starts_with ($"-") lower then parse_powershell_invocation args'
      else Some args
  end.

(** ** Forced deletion in PowerShell *)
Definition DELETE_CMDLETS : list str :=
  [ $"remove-item"; $"ri"; $"rm"; $"del"; $"erase"; $"rd"; $"rmdir"].
(** [; | & LF CR TAB] and [{ } ( ) [ ] , ;] *)
Definition is_seg_sep (c : char) : bool := existsb (N.eqb c) [59; 124; 38; 10; 13; 9]%N.
Definition is_soft_sep (c : char) : bool := existsb (N.eqb c) [123; 125; 40; 41; 91; 93; 44; 59]%N.

(** [segments.last_mut()] gets the trimmed piece unless it is empty. *)
Definition push_piece (segments : list (list str)) (cur : str) : list (list str) :=
  let s := trim cur in
  if is_empty s then segments else update_last (λ seg, seg ++ [s]) segments.
(** One character of a token: a separator ends the piece and, unless the last
    segment is empty, the segment. *)
Definition segment_char (st : list (list str) * str) (ch : char) : list (list str) * str :=
  let '(segments, cur) := st in
  if is_seg_sep ch then
    let segments := push_piece segments cur in
    (if last_is (λ seg, negb (is_empty seg)) segments then segments ++ [[]] else segments, [])
  else (segments, cur ++ [ch]).
Definition segment_token (segments : list (list str)) (tok : str) : list (list str) :=
  let '(segments, cur) := foldl segment_char (segments, []) tok in push_piece segments cur.

Definition segment_atoms (seg : list str) : list str :=
  List.filter (λ s, negb (is_empty s)) (trim <$> mjoin (split_by is_soft_sep <$> seg)).
Definition is_delete_cmdlet (a : str) : bool := existsb (eq_ignore_ascii_case a) DELETE_CMDLETS.
Definition is_force_flag (a : str) : bool :=
  eq_ignore_ascii_case a ($"-force")
  || match split_at_byte 7 a with
     | Some (p, _) => eq_ignore_ascii_case p ($"-force:")
     | None => false
     end.
Definition segment_forces_delete (seg : list str) : bool :=
  existsb is_delete_cmdlet (segment_atoms seg) && existsb is_force_flag (segment_atoms seg).

Definition has_force_delete_cmdlet (tokens : list str) : bool :=
  existsb segment_forces_delete (foldl segment_token [[]] tokens).

Definition is_dangerous_powershell_words (words : list str) : bool :=
  let tokens_lc := (λ t, to_ascii_lowercase (trim_matches QUOTE (trim_matches APOSTROPHE t))) <$> words in
  let has_url := args_have_url words in
  if has_url && existsb (λ t, one_of [ $"start-process"; $"start"; $"saps"; $"invoke-item"; $"ii"] t
                              || contains_str ($"start-process") t || contains_str ($"invoke-item") t)
                  tokens_lc
  then true
  else if has_url && existsb (λ t, contains_str ($"shellexecute") t || contains_str ($"shell.application") t)
                       tokens_lc
  then true
  else if match tokens_lc with
          | [] => false
          | first :: _ =>
              bool_decide (first = $"rundll32")
              && existsb (contains_str ($"url.dll,fileprotocolhandler")) tokens_lc && has_url
              || bool_decide (first = $"mshta") && has_url
              || is_browser_executable first && has_url
              || one_of [ $"explorer"; $"explorer.exe"] first && has_url
          end
  then true
  else has_force_delete_cmdlet tokens_lc.

Definition is_dangerous_powershell (command : list str) : bool :=
  match command with
  | [] => false
  | exe :: rest =>
      if negb (is_powershell_executable exe) then false
      else match parse_powershell_invocation rest with
           | Some tokens => is_dangerous_powershell_words tokens
           | None => false
           end
  end.

(** ** [cmd.exe] *)

(** [CMD] operators split out of a token; [cur] is the text since the last. *)
Fixpoint split_operators (cur token : str) : list str :=
  match token with
  | [] => if is_empty cur then [] else [cur]
  | ch :: token' =>
      if N.eqb ch 38 || N.eqb ch 124 then
        (if is_empty cur then [] else [cur]) ++
        match token' with
        | next :: token'' =>
            if N.eqb next ch then [ch; next] :: split_operators [] token''
            else [ch] :: split_operators [] token'
        | [] => [[ch]]
        end
      else split_operators (cur ++ [ch]) token'
  end.
Definition split_embedded_cmd_operators (token : str) : list str :=
  List.filter (λ s, negb (is_empty (trim s))) (split_operators [] token).

(** The arguments after [/c], [/r] or [-c]; [None] is the early return. *)
Fixpoint cmd_body (args : list str) : option (list str) :=
  match args with
  | [] => Some []
  | arg :: args' =>
      let lower := to_ascii_lowercase arg in
      if one_of [ $"/c"; $"/r"; $"-c"] lower then Some args'
      else if starts_with ($"/") lower then cmd_body args'
      else None
  end.

Definition cmd_segment_dangerous (segment : list str) : bool :=
  match segment with
  | [] => false
  | cmd :: _ =>
      eq_ignore_ascii_case cmd ($"start") && args_have_url segment
      || (eq_ignore_ascii_case cmd ($"del") || eq_ignore_ascii_case cmd ($"erase"))
         && has_force_flag_cmd segment
      || (eq_ignore_ascii_case cmd ($"rd") || eq_ignore_ascii_case cmd ($"rmdir"))
         && has_recursive_flag_cmd segment && has_quiet_flag_cmd segment
  end.

Definition is_dangerous_cmd (command : list str) : bool :=
  match command with
  | [] => false
  | exe :: rest =>
      match executable_basename exe with
      | None => false
      | Some base =>
          if negb (one_of [ $"cmd"; $"cmd.exe"] base) then false
          else match cmd_body rest with
               | None | Some [] => false
               | Some remaining =>
                   let cmd_tokens := match remaining with
                                     | [only] => default [only] (shlex_split only)
                                     | _ => remaining
                                     end in
                   let tokens := mjoin (split_embedded_cmd_operators <$> cmd_tokens) in
                   existsb cmd_segment_dangerous
                     (split_by (one_of [ $"&"; $"&&"; $"|"; $"||"]) tokens)
               end
      end
  end.

Definition is_direct_gui_launch (command : list str) : bool :=
  match command with
  | [] => false
  | exe :: rest =>
      match executable_basename exe with
      | None => false
      | Some base =>
          one_of [ $"explorer"; $"explorer.exe"] base && args_have_url rest
          || one_of [ $"mshta"; $"mshta.exe"] base && args_have_url rest
          || one_of [ $"rundll32"; $"rundll32.exe"] base
             && existsb (λ t, contains_str ($"url.dll,fileprotocolhandler") (to_ascii_lowercase t)) rest
             && args_have_url rest
          || is_browser_executable base && args_have_url rest
      end
  end.

Definition is_dangerous_command_windows (command : list str) : bool :=
  is_dangerous_powershell command || is_dangerous_cmd command || is_direct_gui_launch command.

(** ** The classifier *)
Section classifier.
Context {SP : ShellPaths} (try_parse_shell : str → option Node).
Context (platform : DangerousCommandPlatform).

(** [dangerous_command_match_for_exec] with the recursive call a parameter. *)
Definition dangerous_command_match_for_exec (self : list str → option DangerousCommandMatch)
    (command : list str) : option DangerousCommandMatch :=
  match command with
  | [] => None
  | word :: args =>
      match executable_name_lookup_key word platform with
      | None => None
      | Some cmd0 =>
          if bool_decide (cmd0 = $"rm") && rm_args_include_force_option args then Some ForcedRm
          else if bool_decide (cmd0 = $"sudo") then self args
          else if bool_decide (cmd0 = $"env") then self (env_command args)
          else if bool_decide (cmd0 = $"trap") then
            match trap_command args with Some shell_command => self shell_command | None => None end
          else None
      end
  end.

(** [dangerous_command_match_with_depth] at depth
    [MAX_DANGEROUS_COMMAND_WRAPPER_DEPTH + 1 - remaining]. *)
Fixpoint match_within (remaining : nat) (command : list str) : option DangerousCommandMatch :=
  match remaining with
  | 0 => Some OtherMatch
  | S remaining =>
      match dangerous_command_match_for_exec (match_within remaining) command with
      | Some dangerous_match => Some dangerous_match
      | None =>
          match match parse_shell_lc_literal_commands try_parse_shell command with
                | Some commands => find_map (match_within remaining) commands
                | None => None
                end with
          | Some dangerous_match => Some dangerous_match
          | None =>
              if bool_decide (platform = Windows) && is_dangerous_command_windows command
              then Some OtherMatch else None
          end
      end
  end.
Definition dangerous_command_match_with_depth (command : list str) (wrapper_depth : nat)
    : option DangerousCommandMatch :=
  match_within (S MAX_DANGEROUS_COMMAND_WRAPPER_DEPTH - wrapper_depth) command.
Definition dangerous_command_match_for_platform (command : list str) : option DangerousCommandMatch :=
  dangerous_command_match_with_depth command 0.

Definition dangerous_powershell_words_match (command : list str) : option DangerousCommandMatch :=
  if bool_decide (platform = Windows) then
    if is_dangerous_powershell_words command then Some OtherMatch else None
  else None.
End classifier.
End windows.

(** ** The rules as relations *)
Section rules.
Context (shlex_split : str → option (list str)) (url_capture url_scheme : str → option str).
Context {SP : ShellPaths} (try_parse_shell : str → option Node).
Context (platform : DangerousCommandPlatform).
Implicit Types command inner args : list str.

Let within := match_within shlex_split url_capture url_scheme try_parse_shell platform.
Let for_platform :=
  dangerous_command_match_for_platform shlex_split url_capture url_scheme try_parse_shell platform.
Let windows_rule := is_dangerous_command_windows shlex_split url_capture url_scheme.

(** [inner] is a command that [command] runs. *)
Inductive wraps : list str → list str → Prop :=
| wraps_sudo word args :
    executable_name_lookup_key word platform = Some ($"sudo") → wraps (word :: args) args
| wraps_env word args :
    executable_name_lookup_key word platform = Some ($"env") → wraps (word :: args) (env_command args)
| wraps_trap word args shell_command :
    executable_name_lookup_key word platform = Some ($"trap") →
    trap_command args = Some shell_command → wraps (word :: args) shell_command
| wraps_script command commands inner :
    parse_shell_lc_literal_commands try_parse_shell command = Some commands →
    inner ∈ commands → wraps command inner.

Definition forced_rm command : Prop :=
  ∃ word args, command = word :: args ∧ executable_name_lookup_key word platform = Some ($"rm") ∧
    rm_args_include_force_option args = true.
Definition flagged command : Prop :=
  forced_rm command ∨ platform = Windows ∧ windows_rule command = true.

Lemma for_exec_cases self command m :
  dangerous_command_match_for_exec platform self command = Some m ↔
  forced_rm command ∧ m = ForcedRm ∨
  ∃ word args key, command = word :: args ∧ executable_name_lookup_key word platform = Some key ∧
    (key = $"sudo" ∧ self args = Some m ∨ key = $"env" ∧ self (env_command args) = Some m ∨
     key = $"trap" ∧ ∃ c, trap_command args = Some c ∧ self c = Some m).
Proof.
  unfold dangerous_command_match_for_exec, forced_rm. destruct command as [|word args]; [naive_solver|].
  destruct (executable_name_lookup_key word platform) as [key|] eqn:Hk; [|naive_solver].
  destruct (decide (key = $"rm")) as [->|Hrm].
  { rewrite bool_decide_true by done. cbn [andb]. destruct (rm_args_include_force_option args) eqn:Hf; [naive_solver|].
    split; [done|]. intros [[(w & a & Hwa & _ & ?) _]|(w & a & k & Hwa & Hk' & Hc)]; [congruence|].
    simplify_eq. by destruct Hc as [[? _]|[[? _]|[? _]]]. }
  rewrite bool_decide_false by done. cbn [andb].
  destruct (decide (key = $"sudo")) as [->|Hsudo]; [rewrite bool_decide_true by done|rewrite bool_decide_false by done].
  { split; [naive_solver|]. intros [[(w & a & ?) _]|(w & a & k & Hwa & Hk' & Hc)]; [naive_solver|].
    simplify_eq. by destruct Hc as [[_ ?]|[[? _]|[? _]]]. }
  destruct (decide (key = $"env")) as [->|Henv]; [rewrite bool_decide_true by done|rewrite bool_decide_false by done].
  { split; [naive_solver|]. intros [[(w & a & ?) _]|(w & a & k & Hwa & Hk' & Hc)]; [naive_solver|].
    simplify_eq. by destruct Hc as [[? _]|[[_ ?]|[? _]]]. }
  destruct (decide (key = $"trap")) as [->|Htrap]; [rewrite bool_decide_true by done|rewrite bool_decide_false by done];
    [destruct (trap_command args) eqn:Ht|]; naive_solver.
Qed.

Lemma for_exec_wraps self command inner m :
  wraps command inner → self inner = Some m →
  (∃ commands, parse_shell_lc_literal_commands try_parse_shell command = Some commands ∧ inner ∈ commands) ∨
  is_Some (dangerous_command_match_for_exec platform self command).
Proof.
  intros Hw Hm. destruct Hw; [..|eauto]; right; exists m; apply for_exec_cases; right;
    do 3 eexists; (split; [done|]); (split; [done|]); naive_solver.
Qed.

(** One level of the classifier: a match comes from a rule on the command
    itself or from a command it wraps. *)
Lemma match_within_step r command :
  (is_Some (within (S r) command) ↔
     flagged command ∨ ∃ inner, wraps command inner ∧ is_Some (within r inner)) ∧
  (within (S r) command = Some ForcedRm →
     forced_rm command ∨ ∃ inner, wraps command inner ∧ within r inner = Some ForcedRm).
Proof.
  unfold within. cbn [match_within]. fold within.
  destruct (dangerous_command_match_for_exec platform (within r) command) as [m|] eqn:He.
  { apply for_exec_cases in He as [[Hrm ->]|(w & args & key & -> & Hk & Hc)].
    { unfold flagged. split; [|naive_solver]. split; [naive_solver|eauto]. }
    assert (Hin : ∃ inner, wraps (w :: args) inner ∧ within r inner = Some m).
    { destruct Hc as [[-> ?]|[[-> ?]|(-> & c & ? & ?)]]; eauto using wraps. }
    clear Hc. split; [|naive_solver]. split; [|eauto]. intros _. right. naive_solver. }
  assert (Hexec : ∀ inner m, wraps command inner → within r inner = Some m →
    ∃ commands, parse_shell_lc_literal_commands try_parse_shell command = Some commands ∧ inner ∈ commands).
  { intros inner m Hw Hm. destruct (for_exec_wraps (within r) _ _ _ Hw Hm) as [?|[? ?]]; [done|congruence]. }
  assert (Hnrm : ¬ forced_rm command).
  { intros Hrm.
    assert (Hs : dangerous_command_match_for_exec platform (within r) command = Some ForcedRm)
      by (apply for_exec_cases; auto). congruence. }
  destruct (match parse_shell_lc_literal_commands try_parse_shell command with
            | Some commands => find_map (within r) commands | None => None end) as [m|] eqn:Hs.
  { destruct (parse_shell_lc_literal_commands _ _) as [commands|] eqn:Hp; [|done].
    apply find_map_Some in Hs as (l1 & inner & l2 & -> & Hm & _).
    assert (wraps command inner).
    { eapply wraps_script; [exact Hp|]. apply elem_of_app. right. left. }
    split; [|naive_solver]. split; [|eauto]. intros _. right. naive_solver. }
  assert (Hnone : ∀ inner, wraps command inner → within r inner = None).
  { intros inner Hw. destruct (within r inner) as [m|] eqn:Hm; [|done]. exfalso.
    destruct (Hexec inner m Hw Hm) as (commands & Hp & Hin). rewrite Hp in Hs.
    apply find_map_None in Hs. rewrite Forall_forall in Hs. apply Hs in Hin. congruence. }
  assert (Hno : ¬ ∃ inner, wraps command inner ∧ is_Some (within r inner)).
  { intros (inner & Hw & m & Hm). rewrite Hnone in Hm; done. }
  unfold flagged. fold windows_rule. destruct (decide (platform = Windows)) as [Hpl|Hpl].
  - rewrite bool_decide_true by done. cbn [andb]. destruct (windows_rule command) eqn:Hwin; [|split; [|done]].
    + split; [|done]. split; [auto|eauto].
    + split; [by intros []|]. intros [[?|[_ ?]]|?]; [tauto|congruence|tauto].
  - rewrite bool_decide_false by done. cbn [andb]. split; [|done].
    split; [by intros []|]. intros [[?|[? _]]|?]; tauto.
Qed.

Lemma match_within_exact r command :
  is_Some (within r command) ↔
  (∃ n inner, n < r ∧ nsteps wraps n command inner ∧ flagged inner) ∨ ∃ inner, nsteps wraps r command inner.
Proof.
  revert command. induction r as [|r IH]; intros command.
  { split; [|by exists OtherMatch]. intros _. right. exists command. constructor. }
  rewrite (proj1 (match_within_step r command)). setoid_rewrite IH. split.
  - intros [Hf|(inner & Hw & [(n & x & Hn & Hs & Hf)|(x & Hs)])].
    + left. exists 0, command. split; [lia|]. split; [constructor|done].
    + left. exists (S n), x. split; [lia|]. split; [by econstructor|done].
    + right. exists x. by econstructor.
  - intros [(n & x & Hn & Hs & Hf)|(x & Hs)].
    + destruct Hs as [|n c y z Hw Hs]; [by left|]. right. exists y. split; [done|]. left. exists n, z.
      split; [lia|done].
    + inversion Hs; subst. right. eauto.
Qed.

(** C27: A command is classified as dangerous exactly when the rules flag it or
    a command that it runs through at most eight wrappers ([sudo], [env],
    [trap], shell scripts), or when nine wrappers follow one another. *)
Theorem dangerous_match_exact command :
  is_Some (for_platform command) ↔
  (∃ n inner, n ≤ MAX_DANGEROUS_COMMAND_WRAPPER_DEPTH ∧ nsteps wraps n command inner ∧ flagged inner) ∨
  (∃ inner, nsteps wraps (S MAX_DANGEROUS_COMMAND_WRAPPER_DEPTH) command inner).
Proof.
  unfold for_platform, dangerous_command_match_for_platform, dangerous_command_match_with_depth.
  fold within. rewrite Nat.sub_0_r, match_within_exact. setoid_rewrite Nat.lt_succ_r. done.
Qed.

(** No chain of wrappers, however long, hides a command the rules flag; and
    where the classifier reports a forced [rm], the command does run one. *)
Theorem wrappers_do_not_hide command :
  (∀ inner, rtc wraps command inner → flagged inner → is_Some (for_platform command)) ∧
  (for_platform command = Some ForcedRm → ∃ inner, rtc wraps command inner ∧ forced_rm inner).
Proof.
  unfold for_platform, dangerous_command_match_for_platform, dangerous_command_match_with_depth.
  fold within. rewrite Nat.sub_0_r. generalize (S MAX_DANGEROUS_COMMAND_WRAPPER_DEPTH) as r. split.
  - intros inner [n Hn]%rtc_nsteps Hf. apply match_within_exact.
    destruct (decide (n < r)) as [Hlt|Hge]; [by left; exists n, inner|]. right.
    assert (∃ k, n = r + k) as [k ->] by (exists (n - r); lia).
    apply nsteps_add_inv in Hn as (x & Hn & _). eauto.
  - revert command. induction r as [|r IH]; intros command; [done|].
    intros [Hrm|(inner & Hw & Hm)]%match_within_step; [exists command; by split; [|]|].
    apply IH in Hm as (x & Hx & Hrm). exists x. split; [by eapply rtc_l|done].
Qed.

(** A command that is flagged does not run unnoticed inside a plain script:
    when the script of a shell invocation is read as plain commands and one of
    them is flagged, so is the invocation. *)
Theorem plain_script_danger command shell script tree commands inner :
  extract_bash_command command = Some (shell, script) → try_parse_shell script = Some tree →
  bash_tree tree → parse_shell_lc_plain_commands try_parse_shell command = Some commands →
  inner ∈ commands → flagged inner → is_Some (for_platform command).
Proof.
  intros Hx Ht Hb Hc Hin Hf.
  assert (Hw : wraps command inner).
  { unfold parse_shell_lc_plain_commands, parse_shell_script_into_commands in Hc. rewrite Hx, Ht in Hc.
    destruct (try_parse_word_only_commands_sequence tree) as [[cmds|]|] eqn:Hp; simplify_eq/=.
    destruct (literal_commands_cover tree commands Hb Hp) as (lits & Hl & Hperm).
    apply (wraps_script _ lits); [|by rewrite Hperm]. unfold parse_shell_lc_literal_commands. by rewrite Hx, Ht. }
  unfold for_platform, dangerous_command_match_for_platform, dangerous_command_match_with_depth.
  apply match_within_exact. left. exists 1, inner. split; [unfold MAX_DANGEROUS_COMMAND_WRAPPER_DEPTH; lia|].
  split; [|done]. econstructor; [done|constructor].
Qed.
End rules.

(** ** Operators of [cmd.exe] *)
Definition is_operator_char (c : char) : bool := N.eqb c 38 || N.eqb c 124.
Definition cmd_operators : list str := [ $"&"; $"&&"; $"|"; $"||"].
Definition operator_part (s : str) : Prop := s ∈ cmd_operators ∨ Forall (λ c, is_operator_char c = false) s.

Lemma split_operators_parts n token cur :
  length token ≤ n → Forall (λ c, is_operator_char c = false) cur →
  mjoin (split_operators cur token) = cur ++ token ∧
  Forall (λ s, s ≠ [] ∧ operator_part s) (split_operators cur token).
Proof.
  revert token cur. induction n as [|n IH]; intros [|ch token] cur Hn Hcur; cbn in Hn; try lia; cbn [split_operators].
  1,2: destruct cur; cbn; rewrite ?app_nil_r; split; try done; constructor; try done; split; [done|by right].
  destruct (N.eqb ch 38 || N.eqb ch 124) eqn:Hop.
  2:{ destruct (IH token (cur ++ [ch]) ltac:(lia)) as [Hj Hp].
      - apply Forall_app. auto.
      - by rewrite <-app_assoc in Hj. }
  assert (Hone : operator_part [ch] ∧ operator_part [ch; ch]).
  { apply orb_true_iff in Hop as [->%N.eqb_eq| ->%N.eqb_eq]; split; left; apply one_of_true; vm_compute; done. }
  assert (Htail : mjoin (split_operators [] token) = token ∧
                  Forall (λ s, s ≠ [] ∧ operator_part s) (split_operators [] token))
    by (apply IH; [lia|constructor]).
  assert (Hc : Forall (λ s, s ≠ [] ∧ operator_part s) (if is_empty cur then [] else [cur]) ∧
               mjoin (if is_empty cur then [] else [cur]) = cur).
  { destruct cur; cbn; [done|]. rewrite app_nil_r. split; [|done]. constructor; [|done]. split; [done|by right]. }
  rewrite join_app, Forall_app, (proj2 Hc). split_and!; [|apply Hc|].
  - f_equal. destruct token as [|next token]; [done|]. destruct (N.eqb_spec next ch) as [->|].
    + cbn. do 2 f_equal. apply IH; [cbn in Hn; lia|constructor].
    + change (mjoin ([ch] :: split_operators [] (next :: token)))
        with (ch :: mjoin (split_operators [] (next :: token))). by rewrite (proj1 Htail).
  - destruct token as [|next token]; [constructor; [by split; [|apply Hone]|constructor]|].
    destruct (N.eqb_spec next ch) as [->|].
    + constructor; [by split; [|apply Hone]|]. apply IH; [cbn in Hn; lia|constructor].
    + constructor; [by split; [|apply Hone]|apply Htail].
Qed.

(** Splitting the operators of [cmd.exe] out of a token loses nothing: the
    parts in order are the token, each is an operator or holds none, and only
    parts of white space are dropped. *)
Theorem split_operators_lossless token :
  mjoin (split_operators [] token) = token ∧
  Forall (λ s, s ≠ [] ∧ (s ∈ cmd_operators ∨ Forall (λ c, is_operator_char c = false) s)) (split_operators [] token) ∧
  split_embedded_cmd_operators token `sublist_of` split_operators [] token ∧
  (∀ s, s ∈ split_operators [] token → s ∈ split_embedded_cmd_operators token ∨ trim s = []).
Proof.
  destruct (split_operators_parts (length token) token []) as [Hj Hp]; [done|constructor|].
  split; [done|]. split; [done|]. unfold split_embedded_cmd_operators. split.
  - generalize (split_operators [] token). intros l. induction l as [|s l IH]; cbn; [done|].
    destruct (negb _); by constructor.
  - intros s Hs. destruct (trim s) eqn:Ht; [by right|left].
    apply list_elem_of_In, filter_In. rewrite Ht. split; [by apply list_elem_of_In|done].
Qed.

(** ** Instances *)
Definition demo_rm : list str := [ $"/bin/rm"; $"-rf"; $"x"].
Definition demo_rm_tree : Node :=
  mkNode ($"program") true false 0 (Some ($"rm -rf x"))
    [mkNode ($"command") true false 0 (Some ($"rm -rf x"))
       [name_node 0 ($"rm"); leaf ($"word") true 3 ($"-rf"); leaf ($"word") true 7 ($"x")]].
Definition demo_parse_shell (script : str) : option Node :=
  if bool_decide (script = $"rm -rf x") then Some demo_rm_tree else None.
Definition demo_invocation : list str := [ $"bash"; $"-lc"; $"rm -rf x"].
Definition no_words (_ : str) : option (list str) := None.
Definition no_url (_ : str) : option str := None.

Lemma demo_rm_tree_ok : bash_tree demo_rm_tree.
Proof.
  split.
  - reflexivity.
  - intros n Hn Hnamed.
    assert (Hall : forallb (λ n, is_named n || is_empty (children n)) (preorder demo_rm_tree) = true)
      by (vm_compute; reflexivity).
    rewrite forallb_forall in Hall. apply list_elem_of_In, Hall in Hn. rewrite Hnamed in Hn.
    by destruct (children n).
  - vm_compute. repeat constructor.
  - intros c Hc _. replace (commands_of demo_rm_tree) with (children demo_rm_tree) in Hc by reflexivity.
    apply list_elem_of_singleton in Hc as ->.
    exists (name_node 0 ($"rm")), (leaf ($"word") true 0 ($"rm")), [leaf ($"word") true 3 ($"-rf"); leaf ($"word") true 7 ($"x")].
    split_and!; [reflexivity..|]. by repeat constructor.
Qed.

Lemma demo_rm_flagged : flagged no_words no_url no_url Posix [ $"rm"; $"-rf"; $"x"].
Proof. left. exists ($"rm"), [ $"-rf"; $"x"]. split_and!; vm_compute; reflexivity. Qed.

Lemma plain_script_danger_witness :
  is_Some (dangerous_command_match_for_platform no_words no_url no_url demo_parse_shell Posix demo_invocation).
Proof.
  apply (plain_script_danger no_words no_url no_url demo_parse_shell Posix demo_invocation ($"bash") ($"rm -rf x")
           demo_rm_tree [[ $"rm"; $"-rf"; $"x"]] [ $"rm"; $"-rf"; $"x"]).
  - vm_compute. reflexivity.
  - vm_compute. reflexivity.
  - apply demo_rm_tree_ok.
  - vm_compute. reflexivity.
  - left.
  - apply demo_rm_flagged.
Defined.

Lemma wrappers_do_not_hide_witness :
  is_Some (dangerous_command_match_for_platform no_words no_url no_url demo_parse_shell Posix
             ($"sudo" :: $"env" :: $"A=1" :: [ $"rm"; $"-rf"; $"x"])).
Proof.
  apply (proj1 (wrappers_do_not_hide no_words no_url no_url demo_parse_shell Posix
           ($"sudo" :: $"env" :: $"A=1" :: [ $"rm"; $"-rf"; $"x"])) [ $"rm"; $"-rf"; $"x"]); [|apply demo_rm_flagged].
  eapply rtc_l; [apply wraps_sudo; vm_compute; reflexivity|].
  eapply rtc_l; [apply wraps_env; vm_compute; reflexivity|].
  replace (env_command _) with [ $"rm"; $"-rf"; $"x"] by (vm_compute; reflexivity). apply rtc_refl.
Defined.
