(* ===== verification/PowerShellParser.v ===== *)
(** * PowerShell scripts: [shell-command/src/powershell.rs] and
    [command_safety/powershell_tree_sitter.rs]

    What the kernel reads out of a [pwsh -Command "..."] invocation: the
    commands of a script written in a small literal subset of the language, and
    nothing at all for every other script. As for bash, parsing is tree-sitter's
    and a syntax tree is the data its interface exposes; nodes carry the byte
    range they span, because the text of a node is cut out of the script and not
    out of the masked copy that is parsed. *)

From stdpp Require Import prelude list strings.
From S2P Require Import Prelude BashParser Truncate.

(** [tree_sitter::Node] *)
Inductive PsNode : Type := mkPsNode {
  ps_kind : str;
  ps_named : bool;
  ps_error : bool;
  ps_start : N;
  ps_end : N;
  ps_children : list PsNode
}.

Definition ps_named_children (n : PsNode) : list PsNode := List.filter ps_named (ps_children n).
Fixpoint ps_size (n : PsNode) : nat :=
  match n with mkPsNode _ _ _ _ _ cs => S (sum_list_with ps_size cs) end.

(** [node.utf8_text(script.as_bytes())]: the slice panics when it is out of
    range and is an error when it does not start and end between characters. *)
Definition node_text (script : str) (n : PsNode) : outcome str str :=
  if ((ps_end n <? ps_start n) || (byte_len script <? ps_end n))%N then Panicked else
  match split_at_byte (ps_start n) script with
  | Some (_, rest) =>
      match split_at_byte (ps_end n - ps_start n) rest with
      | Some (text, _) => Done text
      | None => Failed ($"command source is not UTF-8")
      end
  | None => Failed ($"command source is not UTF-8")
  end.

(** ** Words *)
Section words.
(** [{ch:?}] *)
Context (debug_char : char → str).

Definition DOLLAR : char := 36%N.
Definition BACKTICK : char := 96%N.
Definition HASH : char := 35%N.

Definition decode_backtick_escape (ch : char) : char :=
  (if ch =? 48 then 0 else if ch =? 97 then 7 else if ch =? 98 then 8 else if ch =? 102 then 12
   else if ch =? 110 then 10 else if ch =? 114 then 13 else if ch =? 116 then 9
   else if ch =? 118 then 11 else ch)%N.

(** Dollar, at, both quotes, the brackets of three kinds, semicolon, bar,
    ampersand, the redirections and the comma. *)
Definition is_rejected_bare_character (ch : char) : bool :=
  existsb (N.eqb ch) [36; 64; 39; 34; 40; 41; 123; 125; 91; 93; 59; 124; 38; 62; 60; 44]%N.

(** The parsers of words read the characters from [start] on and return the word
    with the characters that follow it; [value] is the word read so far. *)
Fixpoint parse_single_quoted (value chars : str) : result str (str * str) :=
  match chars with
  | [] => Err ($"unterminated single-quoted string")
  | ch :: chars' =>
      if N.eqb ch APOSTROPHE then
        match chars' with
        | next :: chars'' =>
            if N.eqb next APOSTROPHE then parse_single_quoted (value ++ [APOSTROPHE]) chars''
            else Ok (value, chars')
        | [] => Ok (value, chars')
        end
      else parse_single_quoted (value ++ [ch]) chars'
  end.

Fixpoint parse_double_quoted (value chars : str) : result str (str * str) :=
  match chars with
  | [] => Err ($"unterminated double-quoted string")
  | ch :: chars' =>
      if N.eqb ch QUOTE then Ok (value, chars')
      else if N.eqb ch DOLLAR then Err ($"expandable string contains variable syntax")
      else if N.eqb ch BACKTICK then
        match chars' with
        | [] => Err ($"trailing PowerShell escape")
        | escaped :: chars'' =>
            if N.eqb escaped 101 then Err ($"PowerShell-version-dependent escape")
            else if N.eqb escaped 117 && bool_decide (head chars'' = Some 123%N)
            then Err ($"PowerShell Unicode escape")
            else parse_double_quoted (value ++ [decode_backtick_escape escaped]) chars''
        end
      else parse_double_quoted (value ++ [ch]) chars'
  end.

Fixpoint bare_word_loop (value chars : str) : result str (str * str) :=
  match chars with
  | [] => Ok (value, chars)
  | ch :: chars' =>
      if is_whitespace ch then Ok (value, chars)
      else if N.eqb ch BACKTICK then
        match chars' with
        | [] => Err ($"trailing PowerShell escape")
        | escaped :: chars'' =>
            if N.eqb escaped 101 then Err ($"PowerShell-version-dependent escape")
            else bare_word_loop (value ++ [decode_backtick_escape escaped]) chars''
        end
      else if is_rejected_bare_character ch
      then Err ($"dynamic or structural bare character: " ++ debug_char ch)
      else bare_word_loop (value ++ [ch]) chars'
  end.
Definition parse_bare_word (chars : str) : result str (str * str) :=
  let? (value, rest) := bare_word_loop [] chars in
  if is_empty value then Err ($"empty bare word") else Ok (value, rest).

Definition reject_unsupported_bare_word (word : str) : result str unit :=
  if starts_with ($"-") word && negb (starts_with ($"--") word) && contains_char 58 word
  then Err ($"attached PowerShell parameter value")
  else if match word with ch :: _ => is_ascii_digit ch | [] => false end
          && negb (bool_decide (word = $"0")
                   || negb (starts_with ($"0") word) && forallb is_ascii_digit word)
  then Err ($"non-canonical numeric-leading bare word")
  else Ok tt.

(** The body of the loop of [lower_command_text] at a character that starts a
    word: the word and the characters after it. *)
Definition lower_word (chars : str) : result str (str * str) :=
  let? (word, rest, is_bare) :=
    match chars with
    | ch :: chars' =>
        if N.eqb ch APOSTROPHE then let? (word, rest) := parse_single_quoted [] chars' in Ok (word, rest, false)
        else if N.eqb ch QUOTE then let? (word, rest) := parse_double_quoted [] chars' in Ok (word, rest, false)
        else let? (word, rest) := parse_bare_word chars in Ok (word, rest, true)
    | [] => let? (word, rest) := parse_bare_word chars in Ok (word, rest, true)
    end in
  if match rest with next :: _ => negb (is_whitespace next) && negb (N.eqb next HASH) | [] => false end
  then Err ($"adjacent/concatenated command elements")
  else if is_empty word then Err ($"empty word")
  else let? _ := if is_bare then reject_unsupported_bare_word word else Ok tt in Ok (word, rest).

Fixpoint lower_words (fuel : nat) (words : list str) (chars : str) : option (result str (list str)) :=
  match fuel with
  | 0 => None
  | S fuel =>
      match trim_start chars with
      | [] => Some (Ok words)
      | (ch :: _) as chars' =>
          if N.eqb ch HASH then Some (Ok words) else
          match lower_word chars' with
          | Ok (word, rest) => lower_words fuel (words ++ [word]) rest
          | Err e => Some (Err e)
          end
      end
  end.

Definition no_words_error : str := $"command lowered to no words".
Definition lower_command_text (command_text : str) : result str (list str) :=
  let chars := trim command_text in
  match lower_words (S (length chars)) [] chars with
  | Some (Ok words) => if is_empty words then Err no_words_error else Ok words
  | Some (Err e) => Err e
  | None => Err []
  end.
End words.

(** ** Syntax trees *)

(** The loops of [has_requires_directive] and [first_unrecognized_named_kind]: a
    stack of nodes is popped until one of them answers; the named children of a
    node are pushed in order. *)
Fixpoint find_node {A} (visit : PsNode → outcome str (option A)) (fuel : nat) (stack : list PsNode)
    : outcome str (option A) :=
  match fuel with
  | 0 => Done None
  | S fuel =>
      match stack with
      | [] => Done None
      | n :: stack' =>
          let! found := visit n in
          match found with
          | Some a => Done (Some a)
          | None => find_node visit fuel (reverse (ps_named_children n) ++ stack')
          end
      end
  end.

Definition is_requires_comment (script : str) (n : PsNode) : outcome str (option unit) :=
  if bool_decide (ps_kind n = $"comment") then
    match node_text script n with
    | Done comment =>
        Done (if starts_with ($"#requires") (to_ascii_lowercase (trim_start comment)) then Some tt else None)
    | Failed _ => Done None
    | Panicked => Panicked
    end
  else Done None.
Definition has_requires_directive (root : PsNode) (script : str) : outcome str bool :=
  let! found := find_node (is_requires_comment script) (ps_size root) [root] in Done (bool_decide (found ≠ None)).

Definition allowed_named_kinds : list str :=
  [ $"program"; $"statement_list"; $"pipeline"; $"pipeline_chain"; $"pipeline_chain_tail"; $"command";
    $"command_name"; $"command_elements"; $"command_argument_sep"; $"command_parameter"; $"generic_token";
    $"array_literal_expression"; $"unary_expression"; $"string_literal"; $"verbatim_string_characters";
    $"expandable_string_literal"; $"integer_literal"; $"decimal_integer_literal"; $"comment";
    $"empty_statement"; $"expression_with_unary_operator"].
Definition is_allowed_named_kind (kind : str) : bool := one_of allowed_named_kinds kind.

Definition unrecognized_kind (n : PsNode) : outcome str (option str) :=
  Done (if ps_named n && negb (is_allowed_named_kind (ps_kind n)) then Some (ps_kind n) else None).
Definition first_unrecognized_named_kind (root : PsNode) : outcome str (option str) :=
  find_node unrecognized_kind (ps_size root) [root].

(** Named children are pushed last first, so that commands come out in the
    order of the source; a command's own children are not visited. *)
Fixpoint collect_loop (fuel : nat) (stack commands : list PsNode) : list PsNode :=
  match fuel with
  | 0 => commands
  | S fuel =>
      match stack with
      | [] => commands
      | n :: stack' =>
          if bool_decide (ps_kind n = $"command") then collect_loop fuel stack' (commands ++ [n])
          else collect_loop fuel (ps_named_children n ++ stack') commands
      end
  end.
Definition collect_command_nodes (root : PsNode) : list PsNode := collect_loop (ps_size root) [root] [].

(** ** The source that is parsed *)
Definition is_inline_parameter_token_separator (ch : char) : bool :=
  is_whitespace ch || contains_char ch ($"|&;#><(){}").
Definition is_rejected_inline_parameter_character (ch : char) : bool :=
  is_whitespace ch || is_rejected_bare_character ch || N.eqb ch BACKTICK || N.eqb ch HASH.

(** [token] is [&script[start..end]]. *)
Definition push_inline_parameter_equals (equals : list N) (token : str) (start : N) : list N :=
  if starts_with ($"--") token && forallb (λ ch, negb (is_rejected_inline_parameter_character ch)) token then
    match find_str ($"=") token with
    | Some k =>
        let relative_equals := byte_len (take k token) in
        if ((2 <? relative_equals) && (relative_equals + 1 <? byte_len token))%N
        then equals ++ [(start + relative_equals)%N] else equals
    | None => equals
    end
  else equals.

Fixpoint inline_equals_loop (equals : list N) (token s : str) (start index : N) : list N :=
  match s with
  | [] => push_inline_parameter_equals equals token start
  | ch :: s' =>
      let next := (index + char_len ch)%N in
      if is_inline_parameter_token_separator ch
      then inline_equals_loop (push_inline_parameter_equals equals token start) [] s' next next
      else inline_equals_loop equals (token ++ [ch]) s' start next
  end.
Definition inline_double_dash_parameter_equals (script : str) : list N := inline_equals_loop [] [] script 0 0.

(** The bytes at the given positions become spaces. *)
Fixpoint mask_at (equals : list N) (s : str) (index : N) : str :=
  match s with
  | [] => []
  | ch :: s' => (if bool_decide (index ∈ equals) then SPACE else ch) :: mask_at equals s' (index + char_len ch)%N
  end.
Definition parse_source (script : str) : str := mask_at (inline_double_dash_parameter_equals script) script 0.

(** ** Nothing outside the commands *)
Definition is_newline (ch : char) : bool := N.eqb ch CR || N.eqb ch LF.
Fixpoint until_newline (s : str) : str :=
  match s with
  | ch :: s' => if is_newline ch then [] else ch :: until_newline s'
  | [] => []
  end.
Definition token_boundary (before : str) : bool :=
  match last before with Some previous => is_whitespace previous || N.eqb previous 59 | None => false end.

Record Cover := mkCover { can_chain : bool; needs_command : bool; paren_depth : N }.

(** One character outside the commands: the new position and state, or [None]
    where the script is rejected. *)
Definition cover_step (index : N) (before : str) (ch : char) (after : str) (st : Cover) : option (N * Cover) :=
  let next := (index + char_len ch)%N in
  let 'mkCover chain needs depth := st in
  if is_newline ch then Some (next, mkCover false needs depth)
  else if is_whitespace ch then Some (next, st)
  else if N.eqb ch 59 then if needs then None else Some (next, mkCover false needs depth)
  else if N.eqb ch 40 && negb chain then Some (next, mkCover chain needs (depth + 1)%N)
  else if N.eqb ch 41 && (0 <? depth)%N && negb needs then Some (next, mkCover chain needs (depth - 1)%N)
  else if N.eqb ch 124 && chain
  then Some (if starts_with ($"|") after then (next + 1)%N else next, mkCover false true depth)
  else if N.eqb ch 38 && chain && starts_with ($"&") after then Some ((next + 1)%N, mkCover false true depth)
  else if N.eqb ch HASH && negb needs then
    if (0 <? index)%N && negb (token_boundary before) then None
    else Some ((next + byte_len (until_newline after))%N, st)
  else if starts_with ($"<#") (ch :: after) && negb needs && (N.eqb index 0 || token_boundary before) then
    match find_str ($"#>") after with
    | Some k => Some ((next + byte_len (take k after) + 2)%N, st)
    | None => None
    end
  else None.

(** [Failed] is the end of the fuel. *)
Fixpoint cover_loop (fuel : nat) (script : str) (index : N) (ranges : list (N * N)) (st : Cover)
    : outcome unit bool :=
  match fuel with
  | 0 => Failed tt
  | S fuel =>
      if (byte_len script <=? index)%N
      then Done (is_empty ranges && negb (needs_command st) && N.eqb (paren_depth st) 0)
      else
        let here :=
          match split_at_byte index script with
          | Some (before, ch :: after) =>
              match cover_step index before ch after st with
              | Some (index', st') => cover_loop fuel script index' ranges st'
              | None => Done false
              end
          | Some (_, []) => Done false
          | None => Panicked
          end in
        match ranges with
        | (start, stop) :: ranges' =>
            if N.eqb index start then cover_loop fuel script stop ranges' (mkCover true false (paren_depth st))
            else here
        | [] => here
        end
  end.
Definition cover_fuel (script : str) (ranges : list (N * N)) : nat :=
  (N.to_nat (byte_len script) + 2) * S (length ranges).
Definition source_is_covered_by_commands (script : str) (ranges : list (N * N)) : outcome unit bool :=
  cover_loop (cover_fuel script ranges) script 0 ranges (mkCover false false 0).

(** ** The lowering *)
Section lowering.
Context (debug_char : char → str).
(** The parser with the PowerShell grammar, or why the grammar did not load. *)
Context (ps_parser : result str (str → option PsNode)).

(** The typographic quotes and dashes PowerShell reads as quotes and dashes. *)
Definition is_syntax_alias (ch : char) : bool :=
  existsb (N.eqb ch) [8216; 8217; 8220; 8221; 8211; 8212; 8213]%N.

Fixpoint lower_command_nodes (script : str) (nodes : list PsNode) : outcome str (list (list str)) :=
  match nodes with
  | [] => Done []
  | n :: nodes' =>
      let! text := node_text script n in
      let! command := from_result (lower_command_text debug_char text) in
      let! commands := lower_command_nodes script nodes' in
      Done (command :: commands)
  end.

Definition check_tree (script : str) (root : PsNode) : outcome str unit :=
  if ps_error root then Failed ($"tree contains ERROR or missing nodes") else
  let! requires := has_requires_directive root script in
  if requires then Failed ($"requires directives can execute before command lowering") else
  let! kind := first_unrecognized_named_kind root in
  match kind with
  | Some kind => Failed ($"unrecognized named node: " ++ kind)
  | None => Done tt
  end.

Definition lower_tree (script : str) (root : PsNode) : outcome str (list (list str)) :=
  let! _ := check_tree script root in
  let command_nodes := collect_command_nodes root in
  if is_empty command_nodes then Failed ($"no literal command nodes") else
  let! commands := lower_command_nodes script command_nodes in
  match source_is_covered_by_commands script ((λ n, (ps_start n, ps_end n)) <$> command_nodes) with
  | Done covered =>
      if negb covered then Failed ($"source outside literal command nodes")
      else if existsb (λ command, match command with
                                  | word :: _ => eq_ignore_ascii_case word ($"using")
                                  | [] => false
                                  end) commands
      then Failed ($"using declarations require the PowerShell AST oracle")
      else if existsb (λ command, is_empty command || existsb is_empty command) commands
      then Failed ($"empty lowered command or word")
      else Done commands
  | _ => Panicked
  end.

Definition lower_with_tree_sitter (script : str) : outcome str (list (list str)) :=
  if existsb is_syntax_alias script then Failed ($"PowerShell Unicode syntax alias") else
  match ps_parser with
  | Err e => Failed ($"load grammar: " ++ e)
  | Ok parse =>
      match parse (parse_source script) with
      | None => Failed ($"tree-sitter returned no tree")
      | Some root => lower_tree script root
      end
  end.

(** [.ok()]; a panic is outside the option. *)
Definition try_parse_powershell_commands (script : str) : outcome unit (option (list (list str))) :=
  match lower_with_tree_sitter script with
  | Done commands => Done (Some commands)
  | Failed _ => Done None
  | Panicked => Panicked
  end.
End lowering.

(** ** Invocations *)
Section invocations.
Context {SP : ShellPaths}.

Definition POWERSHELL_FLAGS : list str := [ $"-nologo"; $"-noprofile"; $"-command"; $"-c"].
Definition UTF8_OUTPUT_PREFIX : str :=
  $"try { [Console]::OutputEncoding=[System.Text.Encoding]::UTF8 } catch {}" ++ [LF].

(** The loop over the flags: [args] are the words from [i] on. *)
Fixpoint powershell_script (args : list str) : option str :=
  match args with
  | flag :: ((script :: _) as args') =>
      if negb (one_of POWERSHELL_FLAGS (to_ascii_lowercase flag)) then None
      else if eq_ignore_ascii_case flag ($"-Command") || eq_ignore_ascii_case flag ($"-c") then Some script
      else powershell_script args'
  | _ => None
  end.
Definition extract_powershell_command (command : list str) : option (str * str) :=
  match command with
  | shell :: args =>
      if length command <? 3 then None
      else if negb (bool_decide (detect_shell_type shell = Some PowerShell)) then None
      else (λ script, (shell, script)) <$> powershell_script args
  | [] => None
  end.

Definition prefix_powershell_script_with_utf8 (command : list str) : list str :=
  match extract_powershell_command command with
  | None => command
  | Some (_, script) =>
      take (length command - 1) command ++
      [if starts_with UTF8_OUTPUT_PREFIX (trim_start script) then script else UTF8_OUTPUT_PREFIX ++ script]
  end.
End invocations.

Section plain.
Context {SP : ShellPaths} (debug_char : char → str) (ps_parser : result str (str → option PsNode)).

Definition parse_powershell_command_into_plain_commands (command : list str)
    : outcome unit (option (list (list str))) :=
  match extract_powershell_command command with
  | Some (_, script) => try_parse_powershell_commands debug_char ps_parser script
  | None => Done None
  end.
End plain.

(** ** Words: termination and quoting *)
Section lower_words.
Context (debug_char : char → str).

Lemma single_quoted_shorter chars value word rest :
  parse_single_quoted value chars = Ok (word, rest) → length rest < length chars.
Proof.
  revert value. induction chars as [[|ch chars] IH] using list_length_ind; intros value; [done|].
  cbn [parse_single_quoted]. destruct (N.eqb ch APOSTROPHE).
  - destruct chars as [|next chars]; [intros [= _ <-]; cbn; lia|]. destruct (N.eqb next APOSTROPHE).
    + intros Hq%IH; cbn in *; lia.
    + intros [= _ <-]. cbn. lia.
  - intros Hq%IH; cbn in *; lia.
Qed.

Lemma double_quoted_shorter chars value word rest :
  parse_double_quoted value chars = Ok (word, rest) → length rest < length chars.
Proof.
  revert value. induction chars as [[|ch chars] IH] using list_length_ind; intros value; [done|].
  cbn [parse_double_quoted]. destruct (N.eqb ch QUOTE); [intros [= _ <-]; cbn; lia|].
  destruct (N.eqb ch DOLLAR); [done|]. destruct (N.eqb ch BACKTICK).
  - destruct chars as [|escaped chars]; [done|]. do 2 (case_match; [done|]). intros Hq%IH; cbn in *; lia.
  - intros Hq%IH; cbn in *; lia.
Qed.

Lemma bare_word_shorter chars value word rest :
  bare_word_loop debug_char value chars = Ok (word, rest) → (word = value ∧ rest = chars) ∨ length rest < length chars.
Proof.
  revert value. induction chars as [[|ch chars] IH] using list_length_ind; intros value; cbn [bare_word_loop].
  { intros [= <- <-]. by left. }
  destruct (is_whitespace ch); [intros [= <- <-]; by left|].
  destruct (N.eqb ch BACKTICK).
  - destruct chars as [|escaped chars]; [done|]. case_match; [done|].
    intros [[_ ->]|?]%IH; cbn in *; first [lia|right; lia].
  - case_match; [done|]. intros [[_ ->]|?]%IH; cbn in *; first [lia|right; lia].
Qed.

Lemma lower_word_shorter chars word rest :
  lower_word debug_char chars = Ok (word, rest) → length rest < length chars ∧ word ≠ [].
Proof.
  unfold lower_word. set (m := match chars with [] => _ | _ :: _ => _ end).
  destruct m as [[[w r] b]|e] eqn:Hm; cbn [rbind]; [|done]. case_match; [done|].
  destruct w as [|c w]; [done|]. cbn [is_empty]. intros H1.
  assert (word = c :: w ∧ rest = r) as [-> ->].
  { destruct b; [destruct (reject_unsupported_bare_word _)|]; naive_solver. }
  split; [|done]. clear H1 H. unfold m in Hm. clear m.
  assert (Hbare : ∀ cs, parse_bare_word debug_char cs = Ok (c :: w, r) → length r < length cs).
  { intros cs. unfold parse_bare_word. destruct (bare_word_loop _ _ _) as [[v r']|] eqn:Hl; cbn [rbind]; [|done].
    destruct (is_empty v) eqn:Hv; [done|]. intros [= -> ->]. by apply bare_word_shorter in Hl as [[? _]|?]. }
  destruct chars as [|ch chars].
  - destruct (parse_bare_word _ _) as [[? ?]|] eqn:Hp; [|done]. injection Hm as -> -> _. auto.
  - destruct (N.eqb ch APOSTROPHE); [|destruct (N.eqb ch QUOTE)].
    + destruct (parse_single_quoted _ _) as [[? ?]|] eqn:Hp; [|done]. injection Hm as -> -> _.
      apply single_quoted_shorter in Hp. cbn. lia.
    + destruct (parse_double_quoted _ _) as [[? ?]|] eqn:Hp; [|done]. injection Hm as -> -> _.
      apply double_quoted_shorter in Hp. cbn. lia.
    + destruct (parse_bare_word _ _) as [[? ?]|] eqn:Hp; [|done]. injection Hm as -> -> _. auto.
Qed.

Lemma trim_start_shorter (s : str) : length (trim_start s) ≤ length s.
Proof. unfold trim_start. induction s as [|c s IH]; cbn; [lia|]. case_match; cbn in *; lia. Qed.

(** The fuel is enough, and every word read is appended to [words]. *)
Lemma lower_words_spec fuel words chars :
  length chars < fuel →
  ∃ r, lower_words debug_char fuel words chars = Some r ∧
    ∀ ws, r = Ok ws → ∃ more, ws = words ++ more ∧ Forall (λ w, w ≠ []) more.
Proof.
  revert words chars. induction fuel as [|fuel IH]; intros words chars Hlen; [lia|]. cbn [lower_words].
  pose proof (trim_start_shorter chars). destruct (trim_start chars) as [|ch chars'] eqn:Ht.
  { eexists. split; [done|]. intros ws [= <-]. exists []. by rewrite app_nil_r. }
  destruct (N.eqb ch HASH).
  { eexists. split; [done|]. intros ws [= <-]. exists []. by rewrite app_nil_r. }
  destruct (lower_word debug_char (ch :: chars')) as [[word rest]|e] eqn:Hw; [|exists (Err e); split; [done|intros ? [=]]].
  apply lower_word_shorter in Hw as [Hlt Hne].
  destruct (IH (words ++ [word]) rest) as (r & Hr & Hws); [lia|]. exists r. split; [done|].
  intros ws Hok. destruct (Hws _ Hok) as (more & -> & Hm). exists (word :: more). rewrite <-app_assoc. auto.
Qed.

Lemma lower_command_text_words text ws :
  lower_command_text debug_char text = Ok ws → ws ≠ [] ∧ Forall (λ w, w ≠ []) ws.
Proof.
  unfold lower_command_text. destruct (lower_words_spec (S (length (trim text))) [] (trim text)) as (r & -> & Hr); [lia|].
  destruct r as [ws'|e]; [|done]. destruct (Hr _ eq_refl) as (more & -> & Hm). cbn [app].
  destruct more; [done|]. intros [= <-]. done.
Qed.

(** A literal single-quoted word: the quote doubled inside. *)
Definition quote_body (w : str) : str :=
  mjoin ((λ c, if N.eqb c APOSTROPHE then [APOSTROPHE; APOSTROPHE] else [c]) <$> w) ++ [APOSTROPHE].
Definition quote_word (w : str) : str := APOSTROPHE :: quote_body w.

Lemma parse_quote_body w value rest :
  head rest ≠ Some APOSTROPHE → parse_single_quoted value (quote_body w ++ rest) = Ok (value ++ w, rest).
Proof.
  intros Hr. unfold quote_body. revert value. induction w as [|c w IH]; intros value; cbn.
  - rewrite app_nil_r. destruct rest as [|d rest]; [done|]. destruct (N.eqb d APOSTROPHE) eqn:Hd; [|done].
    apply N.eqb_eq in Hd as ->. done.
  - destruct (N.eqb c APOSTROPHE) eqn:Hc; cbn in *.
    + apply N.eqb_eq in Hc as ->. rewrite IH. by rewrite <-app_assoc.
    + rewrite Hc, IH. by rewrite <-app_assoc.
Qed.

Lemma lower_quoted w rest :
  w ≠ [] → (rest = [] ∨ ∃ r, rest = SPACE :: r) → lower_word debug_char (quote_word w ++ rest) = Ok (w, rest).
Proof.
  intros Hw Hrest. unfold lower_word, quote_word. cbn [app]. replace (N.eqb APOSTROPHE APOSTROPHE) with true by done.
  rewrite parse_quote_body by (by destruct Hrest as [->|[r ->]]).
  cbn [rbind app]. destruct w; [done|]. by destruct Hrest as [->|[r ->]].
Qed.

Lemma lower_words_quoted fuel words w rest :
  w ≠ [] → (rest = [] ∨ ∃ r, rest = SPACE :: r) →
  lower_words debug_char (S fuel) words (quote_word w ++ rest) = lower_words debug_char fuel (words ++ [w]) rest.
Proof.
  intros Hw Hrest. pose proof (lower_quoted w rest Hw Hrest) as Hl. cbn [lower_words].
  change (trim_start (quote_word w ++ rest)) with (APOSTROPHE :: (quote_body w ++ rest)).
  change (quote_word w ++ rest) with (APOSTROPHE :: (quote_body w ++ rest)) in Hl.
  change (N.eqb APOSTROPHE HASH) with false. cbv iota. by rewrite Hl.
Qed.

(** Leading spaces are skipped. *)
Lemma lower_words_space fuel words rest :
  lower_words debug_char (S fuel) words (SPACE :: rest) = lower_words debug_char (S fuel) words rest.
Proof. done. Qed.

Lemma lower_quoted_words fuel ws words :
  Forall (λ w, w ≠ []) ws → length ws < fuel →
  lower_words debug_char fuel words (join [SPACE] (quote_word <$> ws)) = Some (Ok (words ++ ws)).
Proof.
  intros Hall. revert fuel words. induction Hall as [|w ws Hw Hall IH]; intros [|fuel] words Hlen; cbn in Hlen; try lia.
  { cbn. by rewrite app_nil_r. }
  destruct ws as [|w' ws].
  - cbn [fmap list_fmap join]. rewrite <-(app_nil_r (quote_word w)), lower_words_quoted by auto.
    destruct fuel; [lia|done].
  - rewrite fmap_cons, join_cons, lower_words_quoted by eauto. cbn [app].
    destruct fuel as [|fuel]; [lia|]. rewrite lower_words_space.
    rewrite (IH (S fuel) (words ++ [w])) by (cbn in *; lia). by rewrite <-app_assoc.
Qed.

Lemma quoted_words_trimmed ws : trim (join [SPACE] (quote_word <$> ws)) = join [SPACE] (quote_word <$> ws).
Proof.
  destruct ws as [|w ws]; [done|]. unfold trim.
  assert (Hs : trim_start (join [SPACE] (quote_word <$> (w :: ws))) = join [SPACE] (quote_word <$> (w :: ws))).
  { by destruct ws. }
  rewrite Hs. unfold trim_end.
  assert (∃ s, join [SPACE] (quote_word <$> (w :: ws)) = s ++ [APOSTROPHE]) as [s ->].
  { clear Hs. revert w. induction ws as [|w' ws IH]; intros w; cbn [fmap list_fmap].
    - cbn [join]. unfold quote_word, quote_body. eexists (APOSTROPHE :: _). done.
    - rewrite join_cons by done. destruct (IH w') as [s Hs]. cbn [fmap list_fmap] in Hs. rewrite Hs.
      exists (quote_word w ++ [SPACE] ++ s). by rewrite <-!app_assoc. }
  by apply trim_end_matches_snoc.
Qed.

Lemma join_quoted_length ws : length ws ≤ length (join [SPACE] (quote_word <$> ws)).
Proof.
  induction ws as [|w ws IH]; [done|]. destruct ws as [|w' ws]; [cbn; lia|].
  cbn [fmap list_fmap] in *. rewrite join_cons by done. rewrite !length_app. cbn in *. lia.
Qed.

(** Quoting and lowering are inverse: a command written as non-empty words
    in single quotes, the quotes inside them doubled, is read back as those
    words, whatever characters they hold. *)
Theorem powershell_quote_roundtrip ws :
  ws ≠ [] → Forall (λ w, w ≠ []) ws →
  lower_command_text debug_char (join [SPACE] (quote_word <$> ws)) = Ok ws.
Proof.
  intros Hne Hall. unfold lower_command_text. rewrite quoted_words_trimmed, lower_quoted_words;
    [by destruct ws|done|]. pose proof (join_quoted_length ws). lia.
Qed.
End lower_words.

(** ** Coverage *)

(** What may stand between commands: white space, statement separators,
    parentheses and the chain operators; a comment to the end of the line; a
    block comment up to its first end. *)
Inductive gap : str → str → Prop :=
| gap_space c rest : is_whitespace c = true → gap [c] rest
| gap_operator op rest : op ∈ [ $";"; $"("; $")"; $"|"; $"||"; $"&&"] → gap op rest
| gap_line_comment body rest :
    Forall (λ c, is_newline c = false) body → (rest = [] ∨ ∃ c r, rest = c :: r ∧ is_newline c = true) →
    gap (HASH :: body) rest
| gap_block_comment body rest : gap ($"<" ++ body ++ $"#>") rest.

(** The script is the given commands, in order, with nothing but gaps around them. *)
Inductive covered : list str → str → Prop :=
| covered_end : covered [] []
| covered_gap piece texts rest : gap piece rest → covered texts rest → covered texts (piece ++ rest)
| covered_command text texts rest : covered texts rest → covered (text :: texts) (text ++ rest).

Lemma split_at_byte_Some n s a b : split_at_byte n s = Some (a, b) → s = a ++ b ∧ byte_len a = n.
Proof.
  revert n a. induction s as [|c s IH]; intros n a; cbn [split_at_byte].
  - destruct (N.eqb_spec n 0) as [->|]; [|done]. intros [= <- <-]. done.
  - destruct (N.eqb_spec n 0) as [->|]; [intros [= <- <-]; done|].
    destruct (N.leb_spec (char_len c) n); [|done].
    destruct (split_at_byte (n - char_len c) s) as [[x y]|] eqn:Hs; [|done]. intros [= <- ->].
    apply IH in Hs as [-> Hl]. split; [done|]. bytes.
Qed.

Lemma byte_split_unique (a b x y : str) : a ++ b = x ++ y → byte_len a = byte_len x → a = x ∧ b = y.
Proof.
  intros Heq Hl. pose proof (split_at_byte_app a b) as H1. rewrite Heq, Hl, split_at_byte_app in H1.
  by injection H1 as -> ->.
Qed.

Lemma split_at_script (script before rest : str) :
  script = before ++ rest → split_at_byte (byte_len before) script = Some (before, rest).
Proof. intros ->. apply split_at_byte_app. Qed.

Lemma until_newline_spec s :
  ∃ rest, s = until_newline s ++ rest ∧ Forall (λ c, is_newline c = false) (until_newline s) ∧
    (rest = [] ∨ ∃ c r, rest = c :: r ∧ is_newline c = true).
Proof.
  induction s as [|c s IH]; cbn; [by exists []; auto|]. destruct (is_newline c) eqn:Hc.
  - exists (c :: s). naive_solver.
  - destruct IH as (rest & Hs & Hall & Hr). exists rest. split; [by rewrite Hs at 1|]. auto.
Qed.

Lemma find_str_splits p s k : find_str p s = Some k → ∃ rest, s = take k s ++ p ++ rest.
Proof.
  revert k. induction s as [|c s IH]; intros k; cbn [find_str].
  - destruct (starts_with p []) eqn:Hp; [|done]. intros [= <-]. apply starts_with_true in Hp as [r ->]. by exists r.
  - destruct (starts_with p (c :: s)) eqn:Hp.
    + intros [= <-]. apply starts_with_true in Hp as [r ->]. by exists r.
    + destruct (find_str p s) as [j|] eqn:Hf; [|done]. intros [= <-]. destruct (IH j eq_refl) as [r Hr].
      exists r. cbn. by rewrite Hr at 1.
Qed.

(** A step reads one gap. *)
Lemma cover_step_gap index before ch after st index' st' :
  cover_step index before ch after st = Some (index', st') →
  ∃ piece rest, ch :: after = piece ++ rest ∧ piece ≠ [] ∧ index' = (index + byte_len piece)%N ∧ gap piece rest.
Proof.
  unfold cover_step. destruct st as [chain needs depth].
  assert (Hone : ∀ i, is_whitespace ch = true ∨ [ch] ∈ [ $";"; $"("; $")"; $"|"; $"||"; $"&&"] →
    i = (index + char_len ch)%N →
    ∃ piece rest, ch :: after = piece ++ rest ∧ piece ≠ [] ∧ i = (index + byte_len piece)%N ∧ gap piece rest).
  { intros i Hch ->. exists [ch], after. split_and!; [done|done|bytes|]. destruct Hch; by constructor. }
  assert (Htwo : ∀ i d, [ch; d] ∈ [ $";"; $"("; $")"; $"|"; $"||"; $"&&"] → char_len d = 1%N →
    starts_with [d] after = true → i = (index + char_len ch + 1)%N →
    ∃ piece rest, ch :: after = piece ++ rest ∧ piece ≠ [] ∧ i = (index + byte_len piece)%N ∧ gap piece rest).
  { intros i d Hd Hlen Hs ->. apply starts_with_true in Hs as [r ->]. exists [ch; d], r.
    split_and!; [done|done|bytes|by constructor]. }
  destruct (is_newline ch) eqn:Hnl.
  { intros [= <- _]. apply Hone; [left|done]. unfold is_newline in Hnl.
    apply orb_true_iff in Hnl as [->%N.eqb_eq| ->%N.eqb_eq]; done. }
  destruct (is_whitespace ch) eqn:Hws; [intros [= <- _]; by apply Hone; [left|]|].
  destruct (N.eqb_spec ch 59) as [->|_].
  { destruct needs; [done|]. intros [= <- _]. apply Hone; [right; set_solver|done]. }
  destruct (N.eqb ch 40 && negb chain) eqn:H40.
  { apply andb_true_iff in H40 as [->%N.eqb_eq _]. intros [= <- _]. apply Hone; [right; set_solver|done]. }
  destruct (N.eqb ch 41 && (0 <? depth)%N && negb needs) eqn:H41.
  { rewrite !andb_true_iff in H41. destruct H41 as [[->%N.eqb_eq _] _].
    intros [= <- _]. apply Hone; [right; set_solver|done]. }
  destruct (N.eqb ch 124 && chain) eqn:H124.
  { apply andb_true_iff in H124 as [->%N.eqb_eq _]. intros [= <- _].
    destruct (starts_with ($"|") after) eqn:Hbar; [by apply (Htwo _ 124%N); [set_solver|..]|].
    apply Hone; [right; set_solver|done]. }
  destruct (N.eqb ch 38 && chain && starts_with ($"&") after) eqn:H38.
  { rewrite !andb_true_iff in H38. destruct H38 as [[->%N.eqb_eq _] Hamp]. intros [= <- _].
    by apply (Htwo _ 38%N); [set_solver|..]. }
  destruct (N.eqb ch HASH && negb needs) eqn:Hhash.
  { apply andb_true_iff in Hhash as [->%N.eqb_eq _]. case_match; [done|]. intros [= <- _].
    destruct (until_newline_spec after) as (rest & Hs & Hall & Hr).
    exists (HASH :: until_newline after), rest. split_and!; [by rewrite Hs at 1|done|bytes|by constructor]. }
  destruct (starts_with ($"<#") (ch :: after) && negb needs && (N.eqb index 0 || token_boundary before)) eqn:Hb; [|done].
  rewrite !andb_true_iff in Hb. destruct Hb as [[Hlt _] _]. apply starts_with_true in Hlt as [r [= -> _]].
  destruct (find_str ($"#>") after) as [k|] eqn:Hf; [|done]. intros [= <- _].
  destruct (find_str_splits _ _ _ Hf) as [rest Hrest]. exists ($"<" ++ take k after ++ $"#>"), rest.
  split_and!; [|done| |by constructor].
  - rewrite <-!app_assoc. cbn [app]. f_equal. exact Hrest.
  - rewrite !byte_len_app. change (byte_len ($"<")) with 1%N. change (byte_len ($"#>")) with 2%N.
    match goal with |- context [char_len ?c] => change (char_len c) with 1%N end. lia.
Qed.

(** The texts the ranges cut out of the script. *)
Definition cuts (script : str) (range : N * N) (text : str) : Prop :=
  ∃ x y, script = x ++ text ++ y ∧ byte_len x = range.1 ∧ range.2 = (range.1 + byte_len text)%N.

Lemma cover_loop_sound fuel script ranges texts st before rest :
  script = before ++ rest → Forall2 (cuts script) ranges texts →
  cover_loop fuel script (byte_len before) ranges st = Done true → covered texts rest.
Proof.
  revert ranges texts st before rest. induction fuel as [|fuel IH]; intros ranges texts st before rest Hs Hcuts; [done|].
  cbn [cover_loop]. destruct (N.leb_spec (byte_len script) (byte_len before)) as [Hle|Hlt].
  - destruct Hcuts as [|? ? ? ? ? Hcuts]; [|done]. intros _. rewrite Hs, byte_len_app in Hle.
    rewrite (byte_len_zero rest) by lia. constructor.
  - set (here := match split_at_byte _ _ with Some _ => _ | None => _ end).
    assert (Hhere : here = Done true → covered texts rest).
    { unfold here. rewrite (split_at_script _ _ _ Hs). destruct rest as [|ch after]; [done|].
      destruct (cover_step _ _ _ _ _) as [[index' st']|] eqn:Hstep; [|done]. intros Hrec.
      apply cover_step_gap in Hstep as (piece & rest & Heq & _ & -> & Hgap). rewrite Heq.
      constructor; [done|]. rewrite <-byte_len_app in Hrec. revert Hrec. apply IH; [|done].
      by rewrite <-app_assoc, <-Heq. }
    destruct Hcuts as [|[start stop] text ranges texts (x & y & Hxy & Hx & Hstop) Hcuts]; [done|].
    cbn [fst snd] in *. destruct (N.eqb_spec (byte_len before) start) as [Heq|]; [|done].
    subst stop. destruct (byte_split_unique before rest x (text ++ y)) as [-> ->]; [congruence|congruence|].
    intros Hrec. apply covered_command. revert Hrec. rewrite <-Heq, <-byte_len_app. apply IH; [|done].
    by rewrite <-app_assoc.
Qed.

Lemma cover_loop_total fuel script ranges texts st before rest :
  script = before ++ rest → Forall2 (cuts script) ranges texts →
  (N.to_nat (byte_len script - byte_len before) + (N.to_nat (byte_len script) + 2) * length ranges) < fuel →
  ∃ b, cover_loop fuel script (byte_len before) ranges st = Done b.
Proof.
  revert ranges texts st before rest. induction fuel as [|fuel IH]; intros ranges texts st before rest Hs Hcuts Hf; [lia|].
  cbn [cover_loop]. destruct (N.leb_spec (byte_len script) (byte_len before)) as [Hle|Hlt]; [eauto|].
  set (here := match split_at_byte _ _ with Some _ => _ | None => _ end).
  assert (Hhere : ∃ b, here = Done b).
  { unfold here. rewrite (split_at_script _ _ _ Hs). destruct rest as [|ch after]; [eauto|].
    destruct (cover_step _ _ _ _ _) as [[index' st']|] eqn:Hstep; [|eauto].
    apply cover_step_gap in Hstep as (piece & rest & Heq & Hne & -> & _). rewrite <-byte_len_app.
    apply (IH ranges texts st' (before ++ piece) rest); [by rewrite <-app_assoc, <-Heq|done|].
    assert (0 < byte_len piece)%N.
    { destruct piece as [|c piece]; [done|]. rewrite byte_len_cons. pose proof (char_len_pos c). lia. }
    rewrite byte_len_app in *. lia. }
  destruct Hcuts as [|[start stop] text ranges texts (x & y & Hxy & Hx & Hstop) Hcuts]; [done|].
  cbn [fst snd] in *. destruct (N.eqb_spec (byte_len before) start) as [Heq|]; [|done].
  subst stop. destruct (byte_split_unique before rest x (text ++ y)) as [-> ->]; [congruence|congruence|].
  rewrite <-Heq, <-byte_len_app. apply (IH ranges texts _ _ y); [by rewrite <-app_assoc|done|].
  cbn [length] in Hf. lia.
Qed.

Lemma source_covered script ranges texts :
  Forall2 (cuts script) ranges texts →
  ∃ b, source_is_covered_by_commands script ranges = Done b ∧ (b = true → covered texts script).
Proof.
  intros Hcuts.
  destruct (cover_loop_total (cover_fuel script ranges) script ranges texts (mkCover false false 0) [] script)
    as [b Hb]; [done|done|unfold cover_fuel; cbn; lia|].
  exists b. split; [exact Hb|]. intros ->.
  exact (cover_loop_sound _ script ranges texts _ [] script eq_refl Hcuts Hb).
Qed.

(** ** Trees *)
Lemma PsNode_tree_ind (P : PsNode → Prop) : (∀ n, Forall P (ps_children n) → P n) → ∀ n, P n.
Proof.
  intros H. fix IH 1. intros [k nm e a b cs]. apply H. cbn. induction cs as [|c cs IHcs]; constructor; [apply IH|done].
Qed.

(** The nodes reached through named children. *)
Inductive reaches : PsNode → PsNode → Prop :=
| reaches_self n : reaches n n
| reaches_child n c m : c ∈ ps_named_children n → reaches c m → reaches n m.

Lemma named_size n : sum_list_with ps_size (ps_named_children n) < ps_size n.
Proof.
  destruct n as [k nm e a b cs]. unfold ps_named_children. cbn [ps_children ps_size].
  induction cs as [|c cs IH]; cbn; [lia|]. destruct (ps_named c); cbn in *; lia.
Qed.

Lemma find_node_none {A} (visit : PsNode → outcome str (option A)) fuel stack :
  sum_list_with ps_size stack ≤ fuel → find_node visit fuel stack = Done None →
  ∀ n m, n ∈ stack → reaches n m → visit m = Done None.
Proof.
  revert stack. induction fuel as [|fuel IH]; intros stack Hf.
  - intros _ n m Hn. destruct stack as [|[] stack]; [by apply elem_of_nil in Hn|cbn in Hf; lia].
  - destruct stack as [|n stack]; cbn [find_node]; [by intros _ ? ? ?%elem_of_nil|].
    destruct (visit n) as [[a|]|e|] eqn:Hv; cbn [obind]; [done| |done..]. intros Hrec n' m Hn Hr.
    pose proof (named_size n) as Hsz. cbn in Hf.
    assert (Hall : ∀ c, c ∈ reverse (ps_named_children n) ++ stack → reaches c m → visit m = Done None).
    { intros c Hc Hcm. refine (IH _ _ Hrec c m Hc Hcm). rewrite sum_list_with_app_eq, sum_list_with_reverse. lia. }
    apply elem_of_cons in Hn as [->|Hn].
    + destruct Hr as [|n c m Hc Hr]; [done|]. apply (Hall c); [|done]. apply elem_of_app. left. by apply elem_of_reverse.
    + apply (Hall n'); [|done]. apply elem_of_app. by right.
Qed.

(** The outermost commands below a node, in order. *)
Fixpoint outermost (n : PsNode) : list PsNode :=
  match n with
  | mkPsNode k _ _ _ _ cs =>
      if bool_decide (k = $"command") then [n]
      else mjoin ((λ c, if ps_named c then outermost c else []) <$> cs)
  end.

Lemma outermost_eq n :
  outermost n = if bool_decide (ps_kind n = $"command") then [n] else mjoin (outermost <$> ps_named_children n).
Proof.
  destruct n as [k nm e a b cs]. unfold ps_named_children. cbn [outermost ps_kind ps_children].
  destruct (bool_decide _); [done|]. induction cs as [|c cs IH]; [done|]. rewrite fmap_cons.
  change (mjoin (?x :: ?l)) with (x ++ mjoin l). rewrite IH. cbn [List.filter]. by destruct (ps_named c).
Qed.

Lemma collect_loop_spec fuel stack acc :
  sum_list_with ps_size stack ≤ fuel → collect_loop fuel stack acc = acc ++ mjoin (outermost <$> stack).
Proof.
  revert stack acc. induction fuel as [|fuel IH]; intros stack acc Hf.
  - destruct stack as [|[] stack]; [by rewrite app_nil_r|cbn in Hf; lia].
  - destruct stack as [|n stack]; [by rewrite app_nil_r|]. cbn [collect_loop]. rewrite fmap_cons.
    change (mjoin (outermost n :: ?l)) with (outermost n ++ mjoin l). rewrite outermost_eq.
    pose proof (named_size n) as Hsz. cbn in Hf. destruct (bool_decide _).
    + rewrite IH by lia. by rewrite <-app_assoc.
    + rewrite IH by (rewrite sum_list_with_app_eq; lia). by rewrite fmap_app, join_app.
Qed.

Lemma collect_outermost root : collect_command_nodes root = outermost root.
Proof. unfold collect_command_nodes. rewrite collect_loop_spec by (cbn; lia). cbn. by rewrite app_nil_r. Qed.

Lemma outermost_reached n m : m ∈ outermost n → reaches n m.
Proof.
  revert m. induction n as [n IH] using PsNode_tree_ind. intros m. rewrite outermost_eq.
  destruct (bool_decide _); [intros ->%list_elem_of_singleton; constructor|].
  intros (l & Hm & (c & -> & Hc)%list_elem_of_fmap)%list_elem_of_join.
  apply (reaches_child n c m Hc). rewrite Forall_forall in IH. apply IH; [|done].
  apply elem_of_filterb in Hc. apply Hc.
Qed.

Lemma node_text_cuts script n text :
  node_text script n = Done text → cuts script (ps_start n, ps_end n) text.
Proof.
  unfold node_text. destruct (_ || _)%bool eqn:Hr; [done|]. apply orb_false_iff in Hr as [Hle _].
  apply N.ltb_ge in Hle.
  destruct (split_at_byte _ script) as [[x rest]|] eqn:H1; [|done].
  destruct (split_at_byte _ rest) as [[t y]|] eqn:H2; [|done]. intros [= ->].
  apply split_at_byte_Some in H1 as [-> H1]. apply split_at_byte_Some in H2 as [-> H2].
  exists x, y. cbn. rewrite H1, H2. split_and!; [done|done|lia].
Qed.

(** ** Masking *)
Definition at_equals (script : str) (e : N) : Prop := ∃ a b, script = a ++ 61%N :: b ∧ e = byte_len a.

Lemma push_equals_ok script equals pre token s :
  script = pre ++ token ++ s → Forall (at_equals script) equals →
  Forall (at_equals script) (push_inline_parameter_equals equals token (byte_len pre)).
Proof.
  intros Hs Hall. unfold push_inline_parameter_equals. case_match; [|done].
  destruct (find_str ($"=") token) as [k|] eqn:Hf; [|done]. case_match; [|done].
  apply Forall_app. split; [done|]. constructor; [|constructor].
  destruct (find_str_splits _ _ _ Hf) as [rest Hrest]. exists (pre ++ take k token), (rest ++ s).
  rewrite byte_len_app. split; [|done]. rewrite Hs, Hrest at 1. by rewrite <-!app_assoc.
Qed.

Lemma inline_equals_ok script equals pre token s :
  script = pre ++ token ++ s → Forall (at_equals script) equals →
  Forall (at_equals script) (inline_equals_loop equals token s (byte_len pre) (byte_len (pre ++ token))).
Proof.
  revert equals pre token. induction s as [|ch s IH]; intros equals pre token Hs Hall; cbn [inline_equals_loop].
  - by eapply push_equals_ok.
  - replace (byte_len (pre ++ token) + char_len ch)%N with (byte_len ((pre ++ token) ++ [ch])) by (bytes).
    case_match.
    + rewrite <-(app_nil_r ((pre ++ token) ++ [ch])) at 2. apply IH; [by rewrite <-!app_assoc|].
      by eapply push_equals_ok.
    + rewrite <-app_assoc. apply IH; [by rewrite <-app_assoc|done].
Qed.

Lemma mask_at_length script equals pre s :
  script = pre ++ s → Forall (at_equals script) equals →
  byte_len (mask_at equals s (byte_len pre)) = byte_len s.
Proof.
  intros Hs Hall. revert pre Hs. induction s as [|ch s IH]; intros pre Hs; [done|]. cbn [mask_at].
  replace (byte_len pre + char_len ch)%N with (byte_len (pre ++ [ch])) by bytes.
  rewrite !byte_len_cons, IH by (by rewrite <-app_assoc). f_equal. case_bool_decide as Hin; [|done].
  rewrite Forall_forall in Hall. destruct (Hall _ Hin) as (a & b & Hab & Hlen).
  destruct (byte_split_unique pre (ch :: s) a (61%N :: b)) as [_ [= -> _]]; [congruence|done|done].
Qed.

Lemma parse_source_length script : byte_len (parse_source script) = byte_len script.
Proof.
  apply (mask_at_length script _ []); [done|]. apply (inline_equals_ok script [] [] []); [done|constructor].
Qed.

(** ** What lowering guarantees *)
Section guarantees.
Context (debug_char : char → str).
Implicit Types (script : str) (root : PsNode).

Lemma lower_command_nodes_Done script nodes commands :
  lower_command_nodes debug_char script nodes = Done commands →
  ∃ texts, Forall2 (λ n text, node_text script n = Done text) nodes texts ∧
    Forall2 (λ text command, lower_command_text debug_char text = Ok command) texts commands.
Proof.
  revert commands. induction nodes as [|n nodes IH]; intros commands; cbn [lower_command_nodes].
  { intros [= <-]. exists []. auto. }
  destruct (node_text script n) as [text| |] eqn:Ht; cbn [obind]; [|done..].
  destruct (lower_command_text debug_char text) as [command|] eqn:Hc; cbn [from_result obind]; [|done].
  destruct (lower_command_nodes debug_char script nodes) as [commands'| |]; cbn [obind]; [|done..].
  intros [= <-]. destruct (IH _ eq_refl) as (texts & ? & ?). exists (text :: texts). auto.
Qed.

Lemma texts_cut script nodes texts :
  Forall2 (λ n text, node_text script n = Done text) nodes texts →
  Forall2 (cuts script) ((λ n, (ps_start n, ps_end n)) <$> nodes) texts.
Proof. intros H. apply Forall2_fmap_l. eapply Forall2_impl; [exact H|]. intros n t. apply node_text_cuts. Qed.

Lemma check_tree_Done script root :
  check_tree script root = Done tt →
  ps_error root = false ∧
  ∀ m, reaches root m → ps_named m = true → is_allowed_named_kind (ps_kind m) = true.
Proof.
  unfold check_tree. destruct (ps_error root); [done|]. destruct (has_requires_directive root script) as [[]| |]; cbn [obind]; try done.
  unfold first_unrecognized_named_kind. destruct (find_node _ _ _) as [[k|]| |] eqn:Hf; cbn [obind]; try done.
  intros _. split; [done|]. intros m Hm Hnamed.
  assert (Hv : unrecognized_kind m = Done None).
  { eapply (find_node_none _ _ _ _ Hf root m); [by left|done]. Unshelve. cbn. lia. }
  unfold unrecognized_kind in Hv. rewrite Hnamed in Hv. cbn [andb] in Hv.
  destruct (is_allowed_named_kind (ps_kind m)); [done|]. cbn in Hv. done.
Qed.

(** Lowering fails closed. When it returns commands, the tree holds no error
    and only kinds of nodes on the list, the commands are the lowered texts of
    the outermost command nodes in order, each with at least one word and no
    empty one, and the script is made of those texts with nothing around them
    but white space, separators, parentheses, chain operators and comments. *)
Theorem powershell_lowering_covers parse script commands :
  lower_with_tree_sitter debug_char (Ok parse) script = Done commands →
  ∃ root texts, parse (parse_source script) = Some root ∧ ps_error root = false ∧
    (∀ m, reaches root m → ps_named m = true → is_allowed_named_kind (ps_kind m) = true) ∧
    Forall2 (λ n text, node_text script n = Done text) (outermost root) texts ∧
    Forall2 (λ text command, lower_command_text debug_char text = Ok command) texts commands ∧
    covered texts script ∧ commands ≠ [] ∧ Forall (λ c, c ≠ [] ∧ Forall (λ w, w ≠ []) c) commands.
Proof.
  unfold lower_with_tree_sitter. destruct (existsb is_syntax_alias script); [done|].
  destruct (parse (parse_source script)) as [root|]; [|done]. unfold lower_tree.
  destruct (check_tree script root) as [[]| |] eqn:Hcheck; cbn [obind]; [|done..].
  apply check_tree_Done in Hcheck as [Herr Hkinds]. rewrite collect_outermost.
  destruct (is_empty (outermost root)) eqn:Hne; [done|].
  destruct (lower_command_nodes _ _ _) as [cs| |] eqn:Hl; cbn [obind]; [|done..].
  apply lower_command_nodes_Done in Hl as (texts & Htexts & Hlow).
  destruct (source_covered script _ texts (texts_cut _ _ _ Htexts)) as (b & -> & Hcov).
  destruct b; cbn [negb]; [|done]. do 2 (case_match; [done|]). intros [= <-].
  exists root, texts. split_and!; [done..|by apply Hcov| |].
  - intros ->. apply Forall2_nil_inv_r in Hlow as ->. apply Forall2_nil_inv_r in Htexts. by rewrite Htexts in Hne.
  - clear -Hlow. induction Hlow as [|t c ts cs Hc _ IH]; constructor; [|done].
    by apply lower_command_text_words in Hc.
Qed.

(** Every node lies within the parsed text. *)
Definition in_source (src : str) (n : PsNode) : Prop := (ps_start n ≤ ps_end n)%N ∧ (ps_end n ≤ byte_len src)%N.

Lemma node_text_in_source script src n :
  byte_len src = byte_len script → in_source src n → node_text script n ≠ Panicked.
Proof.
  intros Hlen [H1 H2]. unfold node_text. rewrite Hlen in H2.
  rewrite (proj2 (N.ltb_ge _ _) H1), (proj2 (N.ltb_ge _ _) H2). cbn [orb]. by repeat case_match.
Qed.

Lemma find_node_no_panic {A} (visit : PsNode → outcome str (option A)) fuel stack :
  (∀ n m, n ∈ stack → reaches n m → visit m ≠ Panicked) → find_node visit fuel stack ≠ Panicked.
Proof.
  revert stack. induction fuel as [|fuel IH]; intros stack Hv; [done|]. destruct stack as [|n stack]; [done|].
  cbn [find_node]. destruct (visit n) as [[a|]|e|] eqn:Hn; cbn [obind]; [done| |done|].
  - apply IH. intros c m. rewrite elem_of_app, elem_of_reverse. intros [Hc|Hc] Hm.
    + apply (Hv n); [left|exact (reaches_child n c m Hc Hm)].
    + apply (Hv c); [by right|done].
  - by destruct (Hv n n ltac:(left) (reaches_self n)).
Qed.

Lemma lower_nodes_no_panic script nodes :
  (∀ n, n ∈ nodes → node_text script n ≠ Panicked) → lower_command_nodes debug_char script nodes ≠ Panicked.
Proof.
  induction nodes as [|n nodes IH]; intros H; [done|]. cbn [lower_command_nodes].
  pose proof (H n ltac:(left)). destruct (node_text script n) as [t| |]; cbn [obind]; [|done..].
  destruct (lower_command_text _ _); cbn [from_result obind]; [|done].
  pose proof (IH (λ n Hn, H n (list_elem_of_further _ _ _ Hn))). by destruct (lower_command_nodes _ _ _).
Qed.

(** A parser whose nodes lie within the text they were parsed from. *)
Definition parser_in_source (parse : str → option PsNode) : Prop :=
  ∀ src root m, parse src = Some root → reaches root m → in_source src m.

Lemma lowering_no_panic parse script :
  parser_in_source parse → lower_with_tree_sitter debug_char (Ok parse) script ≠ Panicked.
Proof.
  intros Hparse. unfold lower_with_tree_sitter.
  destruct (existsb is_syntax_alias script); [done|].
  destruct (parse (parse_source script)) as [root|] eqn:Hroot; [|done].
  assert (Htext : ∀ m, reaches root m → node_text script m ≠ Panicked).
  { intros m Hm. eapply node_text_in_source; [apply parse_source_length|by eapply Hparse]. }
  unfold lower_tree. assert (Hcheck : check_tree script root ≠ Panicked).
  { unfold check_tree, has_requires_directive, first_unrecognized_named_kind. destruct (ps_error root); [done|].
    assert (H1 : find_node (is_requires_comment script) (ps_size root) [root] ≠ Panicked).
    { apply find_node_no_panic. intros n m ->%list_elem_of_singleton Hm. unfold is_requires_comment.
      case_match; [|done]. pose proof (Htext m Hm). by destruct (node_text script m). }
    assert (H2 : find_node unrecognized_kind (ps_size root) [root] ≠ Panicked).
    { by apply find_node_no_panic. }
    destruct (find_node (is_requires_comment script) _ _); cbn [obind]; [|done..]. case_match; [done|].
    destruct (find_node unrecognized_kind _ _) as [[]| |]; done. }
  destruct (check_tree script root) as [[]| |]; cbn [obind]; [|done..]. rewrite collect_outermost.
  case_match; [done|].
  assert (Hl : lower_command_nodes debug_char script (outermost root) ≠ Panicked).
  { apply lower_nodes_no_panic. intros n Hn. by apply Htext, outermost_reached. }
  destruct (lower_command_nodes debug_char script (outermost root)) as [cs| |] eqn:Hcs; cbn [obind]; [|done..].
  apply lower_command_nodes_Done in Hcs as (texts & Htexts & _).
  destruct (source_covered script _ texts (texts_cut _ _ _ Htexts)) as (b & -> & _). by repeat case_match.
Qed.

(** Masking keeps the length of the script in bytes, so as long as every
    node of a tree lies within the text it was parsed from, lowering panics on
    no script: no slice is out of range and the coverage loop ends. *)
Theorem powershell_lowering_no_panic parse script :
  parser_in_source parse →
  byte_len (parse_source script) = byte_len script ∧
  lower_with_tree_sitter debug_char (Ok parse) script ≠ Panicked.
Proof. intros Hparse. split; [apply parse_source_length|by apply lowering_no_panic]. Qed.
End guarantees.

(** ** Instances *)
Definition demo_ps_script : str := $"Get-Item 'a b'; exit 0 # done".
Definition demo_ps_command (start stop : N) : PsNode := mkPsNode ($"command") true false start stop [].
Definition demo_ps_tree : PsNode :=
  mkPsNode ($"program") true false 0 29 [demo_ps_command 0 14; demo_ps_command 16 22].
Definition demo_ps_parser (src : str) : option PsNode :=
  if bool_decide (src = demo_ps_script) then Some demo_ps_tree else None.
Definition no_debug (_ : char) : str := [].
Definition demo_ps_commands : list (list str) := [[ $"Get-Item"; $"a b"]; [ $"exit"; $"0"]].

Lemma powershell_quote_roundtrip_witness :
  lower_command_text no_debug ($"'it''s' 'a $b'") = Ok [ $"it's"; $"a $b"].
Proof.
  apply (powershell_quote_roundtrip no_debug [ $"it's"; $"a $b"]); [discriminate|].
  repeat constructor; discriminate.
Defined.

Lemma powershell_lowering_covers_witness :
  lower_with_tree_sitter no_debug (Ok demo_ps_parser) demo_ps_script = Done demo_ps_commands ∧
  ∃ texts, covered texts demo_ps_script ∧
    Forall2 (λ text command, lower_command_text no_debug text = Ok command) texts demo_ps_commands.
Proof.
  split; [vm_compute; reflexivity|].
  destruct (powershell_lowering_covers no_debug demo_ps_parser demo_ps_script demo_ps_commands)
    as (root & texts & _ & _ & _ & _ & H & Hc & _); [vm_compute; reflexivity|].
  exists texts. split; [exact Hc|exact H].
Defined.

Lemma demo_ps_parser_in_source : parser_in_source demo_ps_parser.
Proof.
  intros src root m. unfold demo_ps_parser. case_bool_decide as Hsrc; [|discriminate]. intros [= <-] Hm. subst src.
  unfold in_source. change (byte_len demo_ps_script) with 29%N.
  inversion Hm as [|? c ? Hc Hcm]; subst; [cbn; lia|].
  apply elem_of_filterb in Hc as [Hc _]. cbn in Hc.
  apply elem_of_cons in Hc as [->|[->|[]%elem_of_nil]%elem_of_cons];
    inversion Hcm as [|? d ? Hd _]; subst; first [cbn; lia|by apply elem_of_nil in Hd].
Qed.

Lemma powershell_lowering_no_panic_witness :
  lower_with_tree_sitter no_debug (Ok demo_ps_parser) ($"git log --format=%H") ≠ Panicked.
Proof.
  apply (powershell_lowering_no_panic no_debug demo_ps_parser ($"git log --format=%H")).
  exact demo_ps_parser_in_source.
Defined.

(** A script that is not the last argument is run as it is, and its prefixed
    copy takes the place of the last argument. *)
Theorem utf8_prefix_overwrites_trailing_argument :
  let pwsh := [ $"pwsh"; $"-Command"; $"Get-Date"] in
  prefix_powershell_script_with_utf8 (pwsh ++ [ $"extra"]) = pwsh ++ [UTF8_OUTPUT_PREFIX ++ $"Get-Date"].
Proof. vm_compute. reflexivity. Qed.
