(* ===== verification/Permissions.v ===== *)
(** * Permissions: [protocol/src/permissions.rs] and the profiles of
    [protocol/src/models.rs]

    What a sandboxed command may read and write. A policy is a list of entries
    that give paths an access mode; the most specific entry decides, and on a
    tie denial beats writing and writing beats reading. Paths are [PathUri]s of
    [utils/path-uri], an interface here, and so are glob matchers, which a
    third-party package compiles. *)

From stdpp Require Import prelude list strings.
From S2P Require Import Prelude.

Inductive PathConvention : Type := PosixPaths | WindowsPaths.
Inductive NetworkSandboxPolicy : Type := NetRestricted | NetEnabled.
Inductive FileSystemAccessMode : Type := Read | Write | Deny.
Inductive FileSystemSpecialPath : Type :=
| Root
| Minimal
| ProjectRoots (subpath : option str)
| Tmpdir
| SlashTmp
| UnknownPath (path : str) (subpath : option str).
Inductive FileSystemSandboxKind : Type := Restricted | Unrestricted | ExternalSandbox.
Inductive MissingPathBehavior : Type := Skip.

#[global] Instance PathConvention_eq_dec : EqDecision PathConvention.
Proof. solve_decision. Defined.
#[global] Instance NetworkSandboxPolicy_eq_dec : EqDecision NetworkSandboxPolicy.
Proof. solve_decision. Defined.
#[global] Instance FileSystemAccessMode_eq_dec : EqDecision FileSystemAccessMode.
Proof. solve_decision. Defined.
#[global] Instance FileSystemSpecialPath_eq_dec : EqDecision FileSystemSpecialPath.
Proof. solve_decision. Defined.
#[global] Instance FileSystemSandboxKind_eq_dec : EqDecision FileSystemSandboxKind.
Proof. solve_decision. Defined.
#[global] Instance MissingPathBehavior_eq_dec : EqDecision MissingPathBehavior.
Proof. solve_decision. Defined.

Definition net_is_enabled (n : NetworkSandboxPolicy) : bool := bool_decide (n = NetEnabled).
Definition can_read (m : FileSystemAccessMode) : bool := match m with Deny => false | _ => true end.
Definition can_write (m : FileSystemAccessMode) : bool := match m with Write => true | _ => false end.
(** The derived [Ord]: declaration order. *)
Definition access_rank (m : FileSystemAccessMode) : nat :=
  match m with Read => 0 | Write => 1 | Deny => 2 end.

(** [codex_utils_path_uri::PathUri], as far as policies inspect it. *)
Class PathUris := {
  PathUri : Type;
  #[global] PathUri_eq_dec :: EqDecision PathUri;
  infer_path_convention : PathUri → option PathConvention;
  lexical_depth : PathUri → option nat;
  is_opaque : PathUri → bool;
  path_starts_with : PathUri → PathUri → bool;
  path_join : PathUri → str → option PathUri;
  join_descendant : PathUri → str → option PathUri;
  path_parent : PathUri → option PathUri;
  (** [ancestors().last()] *)
  last_ancestor : PathUri → PathUri;
  path_basename : PathUri → option str;
  decoded_path : PathUri → str;
  inferred_native_path_string : PathUri → str
}.

(** The laws of containment its documentation states: reflexive, transitive,
    an ancestor is not deeper, and two ancestors of a path are comparable. *)
Class LawfulPathUris `{PathUris} : Prop := {
  starts_with_refl p : path_starts_with p p = true;
  starts_with_trans p q r :
    path_starts_with p q = true → path_starts_with q r = true → path_starts_with p r = true;
  starts_with_depth p q n :
    path_starts_with p q = true → lexical_depth p = Some n → ∃ m, lexical_depth q = Some m ∧ m ≤ n;
  starts_with_comparable x p q m n :
    path_starts_with x p = true → path_starts_with x q = true →
    lexical_depth p = Some m → lexical_depth q = Some n → m ≤ n → path_starts_with q p = true
}.

(** [PathUri::overlaps] *)
Definition overlaps `{PathUris} (p q : PathUri) : option bool :=
  if bool_decide (p = q) then Some true
  else match lexical_depth p, lexical_depth q with
       | Some _, Some _ => Some (path_starts_with p q || path_starts_with q p)
       | _, _ => None
       end.

Section policies.
Context {PU : PathUris}.

Inductive FileSystemPath : Type :=
| PathEntry (path : PathUri)
| GlobPattern (pattern : str)
| Special (value : FileSystemSpecialPath).
#[global] Instance FileSystemPath_eq_dec : EqDecision FileSystemPath.
Proof. solve_decision. Defined.

Record FileSystemSandboxEntry := mkEntry {
  entry_path : FileSystemPath;
  access : FileSystemAccessMode;
  missing_path_behavior : option MissingPathBehavior
}.
#[global] Instance FileSystemSandboxEntry_eq_dec : EqDecision FileSystemSandboxEntry.
Proof. solve_decision. Defined.

Definition new_entry (path : FileSystemPath) (m : FileSystemAccessMode) : FileSystemSandboxEntry :=
  mkEntry path m None.
Definition skip_missing_path (path : FileSystemPath) (m : FileSystemAccessMode) : FileSystemSandboxEntry :=
  mkEntry path m (Some Skip).
Definition skips_missing_path (e : FileSystemSandboxEntry) : bool :=
  bool_decide (missing_path_behavior e = Some Skip).

Record FileSystemSandboxPolicy := mkFsPolicy {
  policy_kind : FileSystemSandboxKind;
  glob_scan_max_depth : option N;
  entries : list FileSystemSandboxEntry
}.

Record FileSystemSandboxPolicyContext := mkContext {
  cwd : PathUri;
  workspace_roots : list PathUri;
  user_home_dir : option PathUri;
  temporary_directories : option (list PathUri)
}.

Definition is_restricted (p : FileSystemSandboxPolicy) : bool := bool_decide (policy_kind p = Restricted).

Definition unrestricted : FileSystemSandboxPolicy := mkFsPolicy Unrestricted None [].
Definition external_sandbox : FileSystemSandboxPolicy := mkFsPolicy ExternalSandbox None [].
Definition restricted (es : list FileSystemSandboxEntry) : FileSystemSandboxPolicy := mkFsPolicy Restricted None es.
Definition read_only_file_system_entries : list FileSystemSandboxEntry := [new_entry (Special Root) Read].
Definition fs_read_only : FileSystemSandboxPolicy := restricted read_only_file_system_entries.
Definition with_entries (p : FileSystemSandboxPolicy) (es : list FileSystemSandboxEntry) : FileSystemSandboxPolicy :=
  mkFsPolicy (policy_kind p) (glob_scan_max_depth p) es.

Definition remove_skip_missing_path_entries (p : FileSystemSandboxPolicy) : FileSystemSandboxPolicy :=
  with_entries p (List.filter (λ e, negb (skips_missing_path e)) (entries p)).

Definition contains_entry (e : FileSystemSandboxEntry) (es : list FileSystemSandboxEntry) : bool :=
  existsb (λ x, bool_decide (x = e)) es.
(** [if !entries.contains(&entry) { entries.push(entry) }] *)
Definition push_new (es : list FileSystemSandboxEntry) (e : FileSystemSandboxEntry) : list FileSystemSandboxEntry :=
  if contains_entry e es then es else es ++ [e].
Definition is_deny (e : FileSystemSandboxEntry) : bool := bool_decide (access e = Deny).

Definition preserve_deny_read_restrictions_from (p existing : FileSystemSandboxPolicy) : FileSystemSandboxPolicy :=
  let has_deny_read_entries := existsb is_deny (entries existing) in
  let p := if bool_decide (policy_kind p = Unrestricted) && has_deny_read_entries
           then restricted [new_entry (Special Root) Write] else p in
  if negb (is_restricted p) then p
  else mkFsPolicy (policy_kind p)
         (match glob_scan_max_depth p with Some d => Some d | None => glob_scan_max_depth existing end)
         (foldl push_new (entries p) (List.filter is_deny (entries existing))).

(** ** Root access and narrowing entries *)
Definition has_root_access (p : FileSystemSandboxPolicy) (predicate : FileSystemAccessMode → bool) : bool :=
  is_restricted p
  && existsb (λ e, match entry_path e with Special Root => predicate (access e) | _ => false end) (entries p).

(** [unix] stands for [cfg!(unix)]. *)
Definition has_denied_read_restrictions (unix : bool) (p : FileSystemSandboxPolicy) : bool :=
  is_restricted p
  && existsb (λ e, is_deny e && negb (bool_decide (entry_path e = Special SlashTmp) && negb unix)) (entries p).

Definition special_paths_share_target (left right : FileSystemSpecialPath) : bool :=
  match left, right with
  | Root, Root | Minimal, Minimal | Tmpdir, Tmpdir | SlashTmp, SlashTmp => true
  | ProjectRoots l, ProjectRoots r => bool_decide (l = r)
  | UnknownPath l ls, UnknownPath r rs => bool_decide (l = r) && bool_decide (ls = rs)
  | _, _ => false
  end.

Definition special_path_matches_path_uri (value : FileSystemSpecialPath) (path : PathUri) : bool :=
  match value with
  | Root => bool_decide (is_Some (lexical_depth path)) && bool_decide (path_parent path = None)
  | SlashTmp =>
      bool_decide (infer_path_convention path = Some PosixPaths)
      && bool_decide (lexical_depth path = Some 1) && bool_decide (path_basename path = Some ($"tmp"))
  | _ => false
  end.

Definition file_system_paths_share_target (left right : FileSystemPath) (convention : PathConvention) : bool :=
  match left, right with
  | PathEntry l, PathEntry r => bool_decide (l = r)
  | Special l, Special r => special_paths_share_target l r
  | PathEntry path, Special value | Special value, PathEntry path =>
      bool_decide (infer_path_convention path = Some convention) && special_path_matches_path_uri value path
  | GlobPattern l, GlobPattern r => bool_decide (l = r)
  | GlobPattern _, _ | _, GlobPattern _ => false
  end.

Definition has_same_target_write_override (p : FileSystemSandboxPolicy) (e : FileSystemSandboxEntry)
    (convention : PathConvention) : bool :=
  existsb (λ candidate, can_write (access candidate) && (access_rank (access e) <? access_rank (access candidate))
             && file_system_paths_share_target (entry_path candidate) (entry_path e) convention) (entries p).

Definition narrows_write (p : FileSystemSandboxPolicy) (convention : PathConvention) (e : FileSystemSandboxEntry) : bool :=
  if can_write (access e) then false
  else match entry_path e with
       | PathEntry _ => negb (has_same_target_write_override p e convention)
       | GlobPattern _ => true
       | Special Root => bool_decide (access e = Deny)
       | Special SlashTmp =>
           if bool_decide (convention = WindowsPaths) then false
           else negb (has_same_target_write_override p e convention)
       | Special Minimal | Special (UnknownPath _ _) => false
       | Special _ => negb (has_same_target_write_override p e convention)
       end.
Definition has_write_narrowing_entries (p : FileSystemSandboxPolicy) (convention : PathConvention) : bool :=
  is_restricted p && existsb (narrows_write p convention) (entries p).

Definition has_full_disk_read_access (unix : bool) (p : FileSystemSandboxPolicy) : bool :=
  match policy_kind p with
  | Unrestricted | ExternalSandbox => true
  | Restricted => has_root_access p can_read && negb (has_denied_read_restrictions unix p)
  end.
Definition has_full_disk_write_access_for_convention (p : FileSystemSandboxPolicy)
    (convention : option PathConvention) : bool :=
  match policy_kind p with
  | Unrestricted | ExternalSandbox => true
  | Restricted =>
      match convention with
      | Some convention => has_root_access p can_write && negb (has_write_narrowing_entries p convention)
      | None => false
      end
  end.
(** [PathConvention::native()] *)
Definition native_convention (unix : bool) : PathConvention := if unix then PosixPaths else WindowsPaths.
Definition has_full_disk_write_access (unix : bool) (p : FileSystemSandboxPolicy) : bool :=
  has_full_disk_write_access_for_convention p (Some (native_convention unix)).
Definition has_full_disk_write_access_with_context (p : FileSystemSandboxPolicy)
    (context : FileSystemSandboxPolicyContext) : bool :=
  has_full_disk_write_access_for_convention p (infer_path_convention (cwd context)).
Definition include_platform_defaults (unix : bool) (p : FileSystemSandboxPolicy) : bool :=
  negb (has_full_disk_read_access unix p) && is_restricted p
  && existsb (λ e, match entry_path e with Special Minimal => can_read (access e) | _ => false end) (entries p).

(** ** Resolving access *)
Definition file_system_root (context : FileSystemSandboxPolicyContext) : option PathUri :=
  match lexical_depth (cwd context) with
  | Some _ => Some (last_ancestor (cwd context))
  | None => None
  end.

Definition entry_targets (context : FileSystemSandboxPolicyContext) (path : FileSystemPath) : list PathUri :=
  match path with
  | PathEntry path => [path]
  | GlobPattern _ => []
  | Special Root => option_list (file_system_root context)
  | Special (ProjectRoots subpath) =>
      omap (λ root, match subpath with Some subpath => path_join root subpath | None => Some root end)
        (workspace_roots context)
  | Special Tmpdir => default [] (temporary_directories context)
  | Special SlashTmp =>
      if bool_decide (infer_path_convention (cwd context) = Some PosixPaths)
      then option_list (path_join (cwd context) ($"/tmp")) else []
  | Special Minimal | Special (UnknownPath _ _) => []
  end.
Definition resolve_entry (context : FileSystemSandboxPolicyContext) (e : FileSystemSandboxEntry)
    : list (PathUri * FileSystemAccessMode) :=
  (λ path, (path, access e)) <$>
    List.filter (λ path, bool_decide (infer_path_convention path = infer_path_convention (cwd context)))
      (entry_targets context (entry_path e)).
Definition resolved_entries (p : FileSystemSandboxPolicy) (context : FileSystemSandboxPolicyContext)
    : list (PathUri * FileSystemAccessMode) :=
  mjoin (resolve_entry context <$> entries p).

(** The [try_fold]: opaque roots are left out, other roots without a depth
    fail. *)
Fixpoint with_depths (roots : list (PathUri * FileSystemAccessMode))
    : option (list (PathUri * FileSystemAccessMode * nat)) :=
  match roots with
  | [] => Some []
  | (root, m) :: roots' =>
      match lexical_depth root with
      | Some depth => match with_depths roots' with
                      | Some es => Some ((root, m, depth) :: es)
                      | None => None
                      end
      | None => if is_opaque root then with_depths roots' else None
      end
  end.

(** [max_by_key(|(_, access, depth)| (depth, access))]: the last of the largest. *)
Definition key_le (a b : PathUri * FileSystemAccessMode * nat) : bool :=
  let '(_, m, d) := a in
  let '(_, m', d') := b in
  (d <? d') || (d =? d') && (access_rank m <=? access_rank m').
Definition max_entry (best : option (PathUri * FileSystemAccessMode * nat))
    (e : PathUri * FileSystemAccessMode * nat) : option (PathUri * FileSystemAccessMode * nat) :=
  match best with
  | None => Some e
  | Some b => if key_le b e then Some e else Some b
  end.

Definition resolve_access (p : FileSystemSandboxPolicy) (path : PathUri)
    (context : FileSystemSandboxPolicyContext) : FileSystemAccessMode :=
  match policy_kind p with
  | Unrestricted | ExternalSandbox => Write
  | Restricted =>
      match infer_path_convention (cwd context) with
      | None => Deny
      | Some convention =>
          if negb (bool_decide (infer_path_convention path = Some convention))
             || bool_decide (lexical_depth path = None) || bool_decide (lexical_depth (cwd context) = None)
          then Deny
          else match with_depths (resolved_entries p context) with
               | None => Deny
               | Some es =>
                   match foldl max_entry None (List.filter (λ e, path_starts_with path e.1.1) es) with
                   | Some (_, m, _) => m
                   | None => Deny
                   end
               end
      end
  end.

(** ** Protected metadata *)
Definition PROTECTED_METADATA_PATH_NAMES : list str := [ $".git"; $".agents"; $".codex"].

Definition protected_under (path root : PathUri) : option (PathUri * str) :=
  find_map (λ name, match join_descendant root name with
                    | Some protected => if path_starts_with path protected then Some (protected, name) else None
                    | None => None
                    end) PROTECTED_METADATA_PATH_NAMES.

Definition metadata_write_denial (p : FileSystemSandboxPolicy) (path : PathUri)
    (context : FileSystemSandboxPolicyContext) : option str :=
  if negb (is_restricted p) then None
  else
    let es := resolved_entries p context in
    match find_map (λ '(root, _), protected_under path root) (List.filter (λ e, can_write e.2) es) with
    | None => None
    | Some (protected, metadata_name) =>
        if existsb (λ '(root, m), can_write m && path_starts_with path root && path_starts_with root protected) es
        then None else Some metadata_name
    end.

Definition can_write_path (p : FileSystemSandboxPolicy) (path : PathUri)
    (context : FileSystemSandboxPolicyContext) : bool :=
  if negb (can_write (resolve_access p path context)) then false
  else has_full_disk_write_access_with_context p context
       || bool_decide (metadata_write_denial p path context = None).

Definition has_configured_writable_roots (p : FileSystemSandboxPolicy) (context : FileSystemSandboxPolicyContext) : bool :=
  negb (has_full_disk_write_access_with_context p context)
  && existsb (λ '(path, m), can_write m && can_write_path p path context) (resolved_entries p context).

(** [forbidden_agent_metadata_write], once the native paths are resolved. *)
Definition forbidden_agent_metadata_write (p : FileSystemSandboxPolicy) (path : PathUri)
    (context : FileSystemSandboxPolicyContext) : option str :=
  if negb (is_restricted p) then None
  else match metadata_write_denial p path context with
       | Some name => if can_write_path p path context then None else Some name
       | None => None
       end.

(** ** Workspace policies. [default_read_only_subpaths] lists the protected
    subpaths of a writable root that the file system has. *)
Definition append_default_read_only_entry_if_no_explicit_rule (unix : bool) (es : list FileSystemSandboxEntry)
    (path : FileSystemPath) : list FileSystemSandboxEntry :=
  if existsb (λ e, file_system_paths_share_target (entry_path e) path (native_convention unix)) es then es
  else es ++ [skip_missing_path path Read].

Definition fs_workspace_write (unix : bool) (default_read_only_subpaths : PathUri → list PathUri)
    (writable_roots : list PathUri) (exclude_tmpdir_env_var exclude_slash_tmp : bool) : FileSystemSandboxPolicy :=
  let append := append_default_read_only_entry_if_no_explicit_rule unix in
  let es := [new_entry (Special Root) Read; new_entry (Special (ProjectRoots None)) Write]
            ++ (if exclude_slash_tmp then [] else [new_entry (Special SlashTmp) Write])
            ++ (if exclude_tmpdir_env_var then [] else [new_entry (Special Tmpdir) Write])
            ++ ((λ path, new_entry (PathEntry path) Write) <$> writable_roots) in
  let es := foldl (λ es name, append es (Special (ProjectRoots (Some name)))) es
              [ $".git"; $".agents"; $".codex"] in
  restricted (foldl (λ es path, append es (PathEntry path)) es
                (mjoin (default_read_only_subpaths <$> writable_roots))).

(** ** The deny matcher of [ReadDenyMatcher::from_context] *)
Section deny_matcher.
(** [GlobBuilder] with the settings of [build_glob_matcher]. *)
Context (build_glob : str → PathConvention → option (str → bool)).

Definition replace_char (a b : char) (s : str) : str := (λ c, if N.eqb c a then b else c) <$> s.
Definition build_glob_matcher (pattern : str) (convention : PathConvention) : option (str → bool) :=
  build_glob (match convention with WindowsPaths => replace_char 92 47 pattern | PosixPaths => pattern end) convention.

Record PreparedReadDenyMatcher := mkMatcher {
  denied_roots : list PathUri;
  deny_read_matchers : list (str → bool);
  invalid_pattern : bool
}.

Definition is_separator (windows : bool) (c : char) : bool := N.eqb c 47 || windows && N.eqb c 92.

(** One pattern of [deny_read_globs]. *)
Definition deny_read_glob (context : FileSystemSandboxPolicyContext) (pattern : str) : option str :=
  let is_windows := bool_decide (infer_path_convention (cwd context) = Some WindowsPaths) in
  let home_relative := match strip_prefix ($"~/") pattern with
                       | Some suffix => Some suffix
                       | None => if is_windows then strip_prefix ($"~\") pattern else None
                       end in
  match home_relative with
  | Some suffix =>
      match user_home_dir context with
      | Some home => inferred_native_path_string
                       <$> path_join home (trim_start_matches (is_separator is_windows) suffix)
      | None => None
      end
  | None => inferred_native_path_string <$> path_join (cwd context) pattern
  end.
Definition deny_patterns (p : FileSystemSandboxPolicy) : list str :=
  omap (λ e, match entry_path e with GlobPattern pattern => Some pattern | _ => None end)
    (List.filter is_deny (entries p)).
Definition deny_read_globs (p : FileSystemSandboxPolicy) (context : FileSystemSandboxPolicyContext) : option (list str) :=
  mapM (deny_read_glob context) (deny_patterns p).

(** [prepare_deny_read_matcher] with [FailClosed]. *)
Definition prepare_deny_read_matcher (p : FileSystemSandboxPolicy) (context : FileSystemSandboxPolicyContext)
    : PreparedReadDenyMatcher :=
  let at_root root := match file_system_root context with
                      | Some fsr => path_starts_with root fsr && path_starts_with fsr root
                      | None => false
                      end in
  let roots := fst <$> List.filter (λ e, bool_decide (e.2 = Deny) && negb (at_root e.1)) (resolved_entries p context) in
  match infer_path_convention (cwd context) with
  | None => mkMatcher roots [] true
  | Some convention =>
      match deny_read_globs p context with
      | None => mkMatcher roots [] true
      | Some patterns =>
          let built := (λ pattern, build_glob_matcher pattern convention) <$> patterns in
          mkMatcher roots (omap id built) (existsb (λ o, match o with None => true | Some _ => false end) built)
      end
  end.

Definition matches_prepared_read_deny (path : PathUri) (context : FileSystemSandboxPolicyContext)
    (prepared : PreparedReadDenyMatcher) : bool :=
  match infer_path_convention (cwd context) with
  | None => true
  | Some convention =>
      if negb (bool_decide (infer_path_convention path = Some convention))
         || bool_decide (lexical_depth path = None) || bool_decide (lexical_depth (cwd context) = None)
      then true
      else if invalid_pattern prepared then true
      else existsb (path_starts_with path) (denied_roots prepared)
           || existsb (λ matcher, matcher (match convention with
                                           | PosixPaths => decoded_path path
                                           | WindowsPaths => replace_char 92 47 (inferred_native_path_string path)
                                           end)) (deny_read_matchers prepared)
  end.

Definition read_deny_from_context (p : FileSystemSandboxPolicy) (context : FileSystemSandboxPolicyContext)
    : option PreparedReadDenyMatcher :=
  if existsb is_deny (entries p) then Some (prepare_deny_read_matcher p context) else None.
End deny_matcher.

(** ** Permission profiles of [models.rs] *)
Inductive SandboxEnforcement : Type := EnforcementManaged | EnforcementDisabled | EnforcementExternal.
#[global] Instance SandboxEnforcement_eq_dec : EqDecision SandboxEnforcement.
Proof. solve_decision. Defined.

(** [NonZeroUsize::new] on the depth. *)
Definition non_zero (d : option N) : option N :=
  match d with Some n => if (n =? 0)%N then None else Some n | None => None end.

Inductive ManagedFileSystemPermissions : Type :=
| ManagedRestricted (es : list FileSystemSandboxEntry) (depth : option N)
| ManagedUnrestricted.

(** [None] is the [unreachable!] of an external policy. *)
Definition from_sandbox_policy (p : FileSystemSandboxPolicy) : option ManagedFileSystemPermissions :=
  match policy_kind p with
  | Restricted => Some (ManagedRestricted (entries p) (non_zero (glob_scan_max_depth p)))
  | Unrestricted => Some ManagedUnrestricted
  | ExternalSandbox => None
  end.
Definition to_sandbox_policy (m : ManagedFileSystemPermissions) : FileSystemSandboxPolicy :=
  match m with
  | ManagedRestricted es depth => mkFsPolicy Restricted depth es
  | ManagedUnrestricted => unrestricted
  end.

Inductive PermissionProfile : Type :=
| Managed (file_system : ManagedFileSystemPermissions) (network : NetworkSandboxPolicy)
| Disabled
| External (network : NetworkSandboxPolicy).

Definition enforcement (profile : PermissionProfile) : SandboxEnforcement :=
  match profile with
  | Managed _ _ => EnforcementManaged | Disabled => EnforcementDisabled | External _ => EnforcementExternal
  end.
Definition file_system_sandbox_policy (profile : PermissionProfile) : FileSystemSandboxPolicy :=
  match profile with
  | Managed fs _ => to_sandbox_policy fs
  | Disabled => unrestricted
  | External _ => external_sandbox
  end.
Definition network_sandbox_policy (profile : PermissionProfile) : NetworkSandboxPolicy :=
  match profile with Managed _ n => n | External n => n | Disabled => NetEnabled end.
Definition to_runtime_permissions (profile : PermissionProfile) : FileSystemSandboxPolicy * NetworkSandboxPolicy :=
  (file_system_sandbox_policy profile, network_sandbox_policy profile).

Definition from_runtime_permissions_with_enforcement (e : SandboxEnforcement) (p : FileSystemSandboxPolicy)
    (n : NetworkSandboxPolicy) : option PermissionProfile :=
  match policy_kind p with
  | ExternalSandbox => Some (External n)
  | Unrestricted => if bool_decide (e = EnforcementDisabled) then Some Disabled
                    else (λ fs, Managed fs n) <$> from_sandbox_policy p
  | Restricted => (λ fs, Managed fs n) <$> from_sandbox_policy p
  end.
Definition from_runtime_permissions (p : FileSystemSandboxPolicy) (n : NetworkSandboxPolicy) : option PermissionProfile :=
  from_runtime_permissions_with_enforcement
    (match policy_kind p with Restricted | Unrestricted => EnforcementManaged | ExternalSandbox => EnforcementExternal end)
    p n.

Definition read_only_access (m : FileSystemAccessMode) : FileSystemAccessMode :=
  match m with Read | Write => Read | Deny => Deny end.
(** The outer [None] is the panic, the inner one the source's [None]. *)
Definition intersect_with_read_only (profile : PermissionProfile) : option (option PermissionProfile) :=
  let p := file_system_sandbox_policy profile in
  match policy_kind p with
  | Restricted =>
      Some <$> from_runtime_permissions
        (with_entries p ((λ e, mkEntry (entry_path e) (read_only_access (access e)) (missing_path_behavior e)) <$> entries p))
        NetRestricted
  | Unrestricted => Some <$> from_runtime_permissions fs_read_only NetRestricted
  | ExternalSandbox => Some None
  end.
End policies.

(** ** The most specific entry *)
Section resolution.
Context {PU : PathUris}.
Implicit Types (p : FileSystemSandboxPolicy) (context : FileSystemSandboxPolicyContext) (path root : PathUri)
  (m : FileSystemAccessMode) (es : list (PathUri * FileSystemAccessMode * nat)).

(** An entry that is at least as specific as every other one of the list. *)
Definition tops es (e : PathUri * FileSystemAccessMode * nat) : Prop :=
  e ∈ es ∧ ∀ e', e' ∈ es → key_le e' e = true.

Lemma key_le_refl e : key_le e e = true.
Proof. destruct e as [[r m] d]. cbn. rewrite Nat.eqb_refl, Nat.leb_refl. by rewrite orb_true_r. Qed.
Lemma key_le_iff r m d r' m' d' :
  key_le (r, m, d) (r', m', d') = true ↔ d < d' ∨ d = d' ∧ access_rank m ≤ access_rank m'.
Proof.
  unfold key_le. rewrite orb_true_iff, andb_true_iff, Nat.ltb_lt, Nat.eqb_eq, Nat.leb_le. done.
Qed.
Lemma key_le_total e e' : key_le e e' = true ∨ key_le e' e = true.
Proof. destruct e as [[r m] d], e' as [[r' m'] d']. rewrite !key_le_iff. lia. Qed.
Lemma key_le_trans e e' e'' : key_le e e' = true → key_le e' e'' = true → key_le e e'' = true.
Proof.
  destruct e as [[r m] d], e' as [[r' m'] d'], e'' as [[r'' m''] d'']. rewrite !key_le_iff. lia.
Qed.

Lemma max_entry_fold es b :
  ∃ e, foldl max_entry (Some b) es = Some e ∧ tops (b :: es) e.
Proof.
  revert b. induction es as [|x es IH]; intros b; cbn [foldl].
  { exists b. split; [done|]. split; [left|]. intros e' ->%list_elem_of_singleton. apply key_le_refl. }
  cbn [max_entry]. destruct (key_le b x) eqn:Hbx.
  - destruct (IH x) as (e & He & Hin & Htop). exists e. split; [done|]. split; [by right|].
    intros e' [->|He']%elem_of_cons; [|by apply Htop].
    eapply key_le_trans; [exact Hbx|]. apply Htop. left.
  - destruct (IH b) as (e & He & Hin & Htop). exists e. split; [done|]. split; [set_solver|].
    intros e' [->|[->|He']%elem_of_cons]%elem_of_cons; [apply Htop; left| |apply Htop; by right].
    destruct (key_le_total b x) as [?|Hxb]; [congruence|]. eapply key_le_trans; [exact Hxb|]. apply Htop. left.
Qed.

Lemma max_entry_spec es :
  match foldl max_entry None es with Some e => tops es e | None => es = [] end.
Proof.
  destruct es as [|b es]; [done|]. cbn [foldl max_entry].
  destruct (max_entry_fold es b) as (e & -> & He). done.
Qed.

Lemma with_depths_elem roots es root m d :
  with_depths roots = Some es → (root, m, d) ∈ es ↔ (root, m) ∈ roots ∧ lexical_depth root = Some d.
Proof.
  revert es. induction roots as [|[r n] roots IH]; intros es; cbn.
  { intros [= <-]. set_solver. }
  destruct (lexical_depth r) as [k|] eqn:Hr.
  - destruct (with_depths roots) as [es'|]; [|done]. intros [= <-].
    rewrite !elem_of_cons, (IH es' eq_refl). naive_solver.
  - destruct (is_opaque r); [|done]. intros H. rewrite (IH es H), elem_of_cons. naive_solver.
Qed.

Lemma with_depths_is_Some roots :
  is_Some (with_depths roots) ↔ ∀ root m, (root, m) ∈ roots → is_Some (lexical_depth root) ∨ is_opaque root = true.
Proof.
  induction roots as [|[r n] roots IH]; cbn.
  { split; [intros _ root m []%elem_of_nil|eauto]. }
  setoid_rewrite elem_of_cons. destruct (lexical_depth r) as [k|] eqn:Hr.
  - transitivity (is_Some (with_depths roots)).
    { destruct (with_depths roots); split; intros [? ?]; eauto; done. }
    rewrite IH. split; [|naive_solver]. intros H root m [[= -> ->]|?]; [rewrite Hr; eauto|eauto].
  - destruct (is_opaque r) eqn:Ho.
    + rewrite IH. split; [|naive_solver]. intros H root m [[= -> ->]|?]; eauto.
    + split; [by intros [? ?]|]. intros H. destruct (H r n ltac:(by left)) as [[? ?]|?]; congruence.
Qed.

Lemma with_depths_sub roots roots' :
  (∀ r m, (r, m) ∈ roots → (r, m) ∈ roots') → is_Some (with_depths roots') → is_Some (with_depths roots).
Proof. rewrite !with_depths_is_Some. naive_solver. Qed.

(** A path a policy can judge: it follows the executor's convention and its
    components are unambiguous, as are those of the working directory. *)
Definition judged context path : Prop :=
  ∃ c, infer_path_convention (cwd context) = Some c ∧ infer_path_convention path = Some c ∧
    is_Some (lexical_depth path) ∧ is_Some (lexical_depth (cwd context)).

(** The resolved entries that cover [path], with their depths. *)
Definition covers p context path root m d : Prop :=
  (root, m) ∈ resolved_entries p context ∧ path_starts_with path root = true ∧ lexical_depth root = Some d.

Lemma resolve_access_cases p context path :
  is_restricted p = true → judged context path → is_Some (with_depths (resolved_entries p context)) →
  (∃ root d, covers p context path root (resolve_access p path context) d ∧
     ∀ root' m' d', covers p context path root' m' d' →
       d' < d ∨ d' = d ∧ access_rank m' ≤ access_rank (resolve_access p path context)) ∨
  (resolve_access p path context = Deny ∧ ∀ root' m' d', ¬ covers p context path root' m' d').
Proof.
  intros Hr (c & Hc & Hp & [n Hn] & [k Hk]) [es Hes].
  apply bool_decide_eq_true in Hr. unfold resolve_access. rewrite Hr, Hc, Hes.
  rewrite bool_decide_true by done. rewrite !bool_decide_false by congruence. cbn [negb orb].
  pose proof (max_entry_spec (List.filter (λ e, path_starts_with path e.1.1) es)) as Hmax.
  assert (Hcov : ∀ root m d, (root, m, d) ∈ List.filter (λ e, path_starts_with path e.1.1) es ↔ covers p context path root m d).
  { intros root m d. rewrite list_elem_of_In, filter_In, <-list_elem_of_In. cbn.
    rewrite (with_depths_elem _ _ _ _ _ Hes). unfold covers. tauto. }
  destruct (foldl max_entry None _) as [[[root m] d]|].
  - left. destruct Hmax as [Hin Htop]. exists root, d. split; [by apply Hcov|].
    intros root' m' d' H'. apply Hcov, Htop in H'. by apply key_le_iff in H'.
  - right. split; [done|]. intros root' m' d' H'%Hcov. rewrite Hmax in H'. by apply elem_of_nil in H'.
Qed.

Lemma elem_of_resolved p context root m :
  (root, m) ∈ resolved_entries p context ↔
  ∃ e, e ∈ entries p ∧ access e = m ∧ root ∈ entry_targets context (entry_path e) ∧
    infer_path_convention root = infer_path_convention (cwd context).
Proof.
  unfold resolved_entries, resolve_entry. rewrite list_elem_of_join. setoid_rewrite list_elem_of_fmap. split.
  - intros (l & Hl & e & -> & He). apply list_elem_of_fmap in Hl as (r & [= -> ->] & Hr).
    apply list_elem_of_In, filter_In in Hr as [Hr Hc]. apply list_elem_of_In in Hr. apply bool_decide_eq_true in Hc. eauto.
  - intros (e & He & <- & Hr & Hc). eexists. split; [|eauto]. apply list_elem_of_fmap. exists root. split; [done|].
    apply list_elem_of_In, filter_In. rewrite <-list_elem_of_In. split; [done|]. by apply bool_decide_eq_true.
Qed.

Lemma resolve_access_kind p context path : is_restricted p = false → resolve_access p path context = Write.
Proof. unfold is_restricted, resolve_access. intros H%bool_decide_eq_false. by destruct (policy_kind p). Qed.

Lemma resolve_access_judged p context path :
  is_restricted p = true → resolve_access p path context ≠ Deny →
  judged context path ∧ is_Some (with_depths (resolved_entries p context)).
Proof.
  intros Hr%bool_decide_eq_true. unfold resolve_access, judged. rewrite Hr.
  destruct (infer_path_convention (cwd context)) as [c|]; [|done].
  case_bool_decide; [|done]. destruct (lexical_depth path); [|done].
  destruct (lexical_depth (cwd context)); [|done]. rewrite !bool_decide_false by done. cbn [negb orb].
  destruct (with_depths _); [|done]. eauto 10.
Qed.
(** Every resolved entry has a depth, or is opaque and then covers nothing. *)
Definition measured (p : FileSystemSandboxPolicy) (context : FileSystemSandboxPolicyContext) : Prop :=
  ∀ root m, (root, m) ∈ resolved_entries p context → is_Some (lexical_depth root) ∨ is_opaque root = true.

End resolution.

(** ** Full disk access *)

(** What POSIX paths add: every path lies below the root, and [/tmp] names one
    directory. *)
Class PosixPathUris `{PathUris} : Prop := {
  posix_root c path :
    infer_path_convention c = Some PosixPaths → infer_path_convention path = Some PosixPaths →
    is_Some (lexical_depth c) → is_Some (lexical_depth path) →
    path_starts_with path (last_ancestor c) = true ∧ lexical_depth (last_ancestor c) = Some 0 ∧
    infer_path_convention (last_ancestor c) = Some PosixPaths;
  posix_parentless u :
    infer_path_convention u = Some PosixPaths → is_Some (lexical_depth u) → path_parent u = None →
    lexical_depth u = Some 0;
  posix_tmp c : infer_path_convention c = Some PosixPaths →
    ∃ t, path_join c ($"/tmp") = Some t ∧ infer_path_convention t = Some PosixPaths ∧ lexical_depth t = Some 1 ∧
      ∀ u, infer_path_convention u = Some PosixPaths → lexical_depth u = Some 1 → path_basename u = Some ($"tmp") →
        ∀ path, path_starts_with path u = path_starts_with path t
}.

Section full_disk.
Context {PU : PathUris} {LP : LawfulPathUris} {PX : PosixPathUris}.
Implicit Types (p : FileSystemSandboxPolicy) (context : FileSystemSandboxPolicyContext) (path root : PathUri).

Lemma special_share_eq l r : special_paths_share_target l r = true → l = r.
Proof.
  destruct l, r; try done; cbn; rewrite ?andb_true_iff, ?bool_decide_eq_true; naive_solver.
Qed.

(** An entry that a write entry for the same target overrides is matched, depth
    for depth, by that entry. *)
Lemma shared_target_covers context path (l r : FileSystemPath) root d :
  infer_path_convention (cwd context) = Some PosixPaths → judged context path →
  file_system_paths_share_target l r PosixPaths = true →
  root ∈ entry_targets context r → infer_path_convention root = Some PosixPaths →
  path_starts_with path root = true → lexical_depth root = Some d →
  ∃ root', root' ∈ entry_targets context l ∧ infer_path_convention root' = Some PosixPaths ∧
    path_starts_with path root' = true ∧ lexical_depth root' = Some d.
Proof.
  intros Hcwd (c & Hc & Hp & Hdp & Hdc) Hs Hroot Hconv Hst Hd.
  assert (c = PosixPaths) as -> by congruence.
  destruct l as [u|g|v], r as [u'|g'|v']; try done; cbn [file_system_paths_share_target] in Hs.
  - apply bool_decide_eq_true in Hs as ->. eauto.
  - apply andb_true_iff in Hs as [Hu%bool_decide_eq_true Hm]. destruct v'; try done;
    cbn [special_path_matches_path_uri] in Hm; cbn [entry_targets] in Hroot.
    + rewrite andb_true_iff, !bool_decide_eq_true in Hm. destruct Hm as [Hsu Hpar].
      unfold file_system_root in Hroot. destruct Hdc as [k Hk]. rewrite Hk in Hroot. apply list_elem_of_singleton in Hroot as ->.
      destruct (posix_root (cwd context) path) as (Hpr & Hd0 & _); [done..|eauto|done|].
      exists u. split; [by left|]. split; [done|]. pose proof (posix_parentless u Hu Hsu Hpar) as Hu0.
      split; [|congruence].
      destruct (posix_root u path) as (Hpu & Hlu & _); [done..|].
      destruct (posix_root u u) as (Huu & _); [done..|].
      eapply starts_with_trans; [exact Hpu|].
      eapply (starts_with_comparable u); [apply starts_with_refl|done|exact Hu0|exact Hlu|done].
    + rewrite !andb_true_iff, !bool_decide_eq_true in Hm. destruct Hm as [[_ Hd1] Hb].
      rewrite Hcwd, bool_decide_true in Hroot by done.
      destruct (posix_tmp (cwd context) Hcwd) as (t & Ht & _ & Hdt & Hall). rewrite Ht in Hroot.
      apply list_elem_of_singleton in Hroot as ->. exists u. split; [by left|]. split; [done|].
      rewrite (Hall u) by done. split; [done|congruence].
  - apply bool_decide_eq_true in Hs as ->. by apply elem_of_nil in Hroot.
  - apply andb_true_iff in Hs as [Hu%bool_decide_eq_true Hm]. apply list_elem_of_singleton in Hroot as ->.
    destruct v; try done; cbn [special_path_matches_path_uri] in Hm.
    + rewrite andb_true_iff, !bool_decide_eq_true in Hm. destruct Hm as [Hsu Hpar].
      destruct (posix_root (cwd context) path) as (Hpr & Hd0 & Hcv); [done..|].
      exists (last_ancestor (cwd context)). split.
      { cbn. unfold file_system_root. destruct Hdc as [k ->]. by left. }
      pose proof (posix_parentless u' Hu Hsu Hpar). split; [done|]. split; [done|congruence].
    + rewrite !andb_true_iff, !bool_decide_eq_true in Hm. destruct Hm as [[_ Hd1] Hb].
      destruct (posix_tmp (cwd context) Hcwd) as (t & Ht & Hct & Hdt & Hall). exists t. split.
      { cbn [entry_targets]. rewrite Hcwd, bool_decide_true by done. rewrite Ht. by left. }
      rewrite <-(Hall u') by done. split; [done|]. split; [done|congruence].
  - apply special_share_eq in Hs as ->. eauto.
Qed.

(** What the test for full write access finds in a restricted policy. *)
Lemma full_write_parts p context :
  is_restricted p = true → infer_path_convention (cwd context) = Some PosixPaths →
  has_full_disk_write_access_with_context p context = true →
  (∃ e, e ∈ entries p ∧ entry_path e = Special Root ∧ access e = Write) ∧
  (∀ e, e ∈ entries p → narrows_write p PosixPaths e = false).
Proof.
  intros Hr Hcwd Hfull. pose proof Hr as Hk. apply bool_decide_eq_true in Hk.
  unfold has_full_disk_write_access_with_context, has_full_disk_write_access_for_convention in Hfull.
  rewrite Hk, Hcwd in Hfull. apply andb_true_iff in Hfull as [Hroot Hnarrow].
  apply andb_true_iff in Hroot as [_ Hroot]. apply existsb_exists in Hroot as (e0 & He0 & Hroot).
  apply list_elem_of_In in He0. apply negb_true_iff in Hnarrow. unfold has_write_narrowing_entries in Hnarrow.
  rewrite Hr in Hnarrow. cbn [andb] in Hnarrow. split.
  - exists e0. destruct (entry_path e0) as [| |[]]; try done. by destruct (access e0).
  - intros e He. apply not_true_is_false. intros Hn. apply not_false_iff_true in Hnarrow; [done|].
    apply existsb_exists. exists e. by rewrite <-list_elem_of_In.
Qed.

(** On a POSIX executor the root entry reaches every judged path, at depth zero. *)
Lemma root_entry_target context path root :
  infer_path_convention (cwd context) = Some PosixPaths → judged context path →
  root ∈ entry_targets context (Special Root) ↔ root = last_ancestor (cwd context).
Proof.
  intros Hcwd (c & Hc & _ & _ & k & Hdc). cbn. unfold file_system_root. rewrite Hdc. apply list_elem_of_singleton.
Qed.
Lemma root_entry_covers p context path e :
  infer_path_convention (cwd context) = Some PosixPaths → judged context path →
  e ∈ entries p → entry_path e = Special Root → access e = Write →
  covers p context path (last_ancestor (cwd context)) Write 0.
Proof.
  intros Hcwd Hj He Hp Ha. pose proof Hj as (c & Hc & Hpc & Hdp & Hdc). assert (c = PosixPaths) as -> by congruence.
  destruct (posix_root (cwd context) path) as (Hpr & Hd0 & Hcv); [done..|].
  split; [|done]. apply elem_of_resolved. exists e. rewrite Hp. split_and!; [done..| |congruence].
  by apply (root_entry_target context path).
Qed.

(** A read entry that does not narrow is matched by a write entry of the same place. *)
Lemma unnarrowed_read p context path root d e :
  infer_path_convention (cwd context) = Some PosixPaths → judged context path →
  narrows_write p PosixPaths e = false → access e = Read →
  root ∈ entry_targets context (entry_path e) → infer_path_convention root = infer_path_convention (cwd context) →
  path_starts_with path root = true → lexical_depth root = Some d →
  entry_path e = Special Root ∨ ∃ root', covers p context path root' Write d.
Proof.
  intros Hcwd Hj Hn Hacc Htgt Hcv Hst Hd. unfold narrows_write in Hn. rewrite Hacc in Hn. cbn [can_write] in Hn.
  assert (entry_path e = Special Root ∨ has_same_target_write_override p e PosixPaths = true) as [Hsp|Hover]; [|by left|right].
  { destruct (entry_path e) as [u|g|v]; [right|done|]; [by apply negb_false_iff|].
    destruct v; try (right; by apply negb_false_iff); [by left|by apply elem_of_nil in Htgt|by apply elem_of_nil in Htgt]. }
  unfold has_same_target_write_override in Hover. apply existsb_exists in Hover as (e' & He' & Hm).
  apply list_elem_of_In in He'. rewrite !andb_true_iff in Hm. destruct Hm as [[Hw _] Hshare].
  destruct (shared_target_covers context path (entry_path e') (entry_path e) root d) as (root' & Ht' & Hcv' & Hst' & Hd');
    [done..|congruence|done|done|].
  exists root'. split; [|done]. apply elem_of_resolved. exists e'. destruct (access e'); try done.
  split_and!; [done..|congruence].
Qed.

(** A denying entry narrows, wherever it applies. *)
Lemma unnarrowed_deny p context root e :
  narrows_write p PosixPaths e = false → access e = Deny → root ∈ entry_targets context (entry_path e) → False.
Proof.
  intros Hn Hacc Htgt. unfold narrows_write in Hn. rewrite Hacc in Hn. cbn [can_write] in Hn.
  assert (Hno' : has_same_target_write_override p e PosixPaths = false).
  { unfold has_same_target_write_override. apply not_true_is_false. intros (e' & _ & Hm)%existsb_exists.
    rewrite Hacc in Hm. by destruct (access e'). }
  destruct (entry_path e) as [u|g|v]; [by rewrite Hno' in Hn|done|].
  destruct v; rewrite ?Hno' in Hn; try done; by apply elem_of_nil in Htgt.
Qed.

(** Full disk write access is what it says: on a POSIX executor a policy
    that has it lets every judged path be written, protected metadata
    included. *)
Theorem full_disk_write_sound p context path :
  infer_path_convention (cwd context) = Some PosixPaths → judged context path →
  is_Some (with_depths (resolved_entries p context)) →
  has_full_disk_write_access_with_context p context = true →
  resolve_access p path context = Write ∧ can_write_path p path context = true.
Proof.
  intros Hcwd Hj Hes Hfull.
  enough (Hw : resolve_access p path context = Write).
  { split; [done|]. unfold can_write_path. by rewrite Hw, Hfull. }
  destruct (policy_kind p) eqn:Hk; [|unfold resolve_access; by rewrite Hk..].
  assert (Hr : is_restricted p = true) by (by apply bool_decide_eq_true).
  destruct (full_write_parts p context Hr Hcwd Hfull) as [(e0 & He0 & Hp0 & Ha0) Hno].
  pose proof (root_entry_covers p context path e0 Hcwd Hj He0 Hp0 Ha0) as Hcov0.
  destruct (resolve_access_cases p context path Hr Hj Hes) as [(root & d & Hcov & Htop)|[_ Hnone]];
    [|by destruct (Hnone _ _ _ Hcov0)].
  destruct (resolve_access p path context) eqn:Hres; [exfalso|done|exfalso];
    destruct Hcov as ((e & He & Hacc & Htgt & Hcv)%elem_of_resolved & Hst & Hd).
  - destruct (unnarrowed_read p context path root d e) as [Hsp|[root' Hc']]; auto.
    + rewrite Hsp in Htgt. apply (root_entry_target context path) in Htgt as ->; [|done..].
      destruct Hcov0 as (_ & _ & Hd0). assert (d = 0) as -> by congruence.
      pose proof (Htop _ _ _ (root_entry_covers p context path e0 Hcwd Hj He0 Hp0 Ha0)) as Ht. cbn in Ht. lia.
    + apply Htop in Hc'. cbn in Hc'. lia.
  - by eapply unnarrowed_deny; eauto.
Qed.
End full_disk.

(** ** Denials that are kept, metadata that is protected *)
Section restrictions.
Context {PU : PathUris} {LP : LawfulPathUris}.
Implicit Types (p existing : FileSystemSandboxPolicy) (context : FileSystemSandboxPolicyContext) (path root : PathUri).

Lemma elem_of_contains e (es : list FileSystemSandboxEntry) : contains_entry e es = true ↔ e ∈ es.
Proof.
  unfold contains_entry. rewrite existsb_exists. setoid_rewrite <-list_elem_of_In.
  setoid_rewrite bool_decide_eq_true. naive_solver.
Qed.
Lemma elem_of_push_new es e x : x ∈ push_new es e ↔ x ∈ es ∨ x = e.
Proof.
  unfold push_new. destruct (contains_entry e es) eqn:Hc.
  - apply elem_of_contains in Hc. split; [auto|]. by intros [?| ->].
  - rewrite elem_of_app, list_elem_of_singleton. done.
Qed.
Lemma elem_of_push_all es l x : x ∈ foldl push_new es l ↔ x ∈ es ∨ x ∈ l.
Proof.
  revert es. induction l as [|e l IH]; intros es; cbn; [set_solver|].
  rewrite IH, elem_of_push_new, elem_of_cons. tauto.
Qed.
Lemma elem_of_denies es e : e ∈ List.filter is_deny es ↔ e ∈ es ∧ access e = Deny.
Proof. rewrite !list_elem_of_In, filter_In. unfold is_deny. by rewrite bool_decide_eq_true. Qed.

Lemma preserve_entries p existing :
  (* the policy before the denials are appended *)
  let p0 := if bool_decide (policy_kind p = Unrestricted) && existsb is_deny (entries existing)
            then restricted [new_entry (Special Root) Write] else p in
  let p' := preserve_deny_read_restrictions_from p existing in
  policy_kind p' = policy_kind p0 ∧
  (is_restricted p0 = true → ∀ e, e ∈ entries p' ↔ e ∈ entries p0 ∨ e ∈ entries existing ∧ access e = Deny).
Proof.
  intros p0 p'. unfold p', preserve_deny_read_restrictions_from. fold p0.
  destruct (is_restricted p0); [|done]. cbn. split; [done|]. intros _ e.
  by rewrite elem_of_push_all, elem_of_denies.
Qed.

(** A path an entry denies outright is denied. *)
Lemma denied_root p context e q :
  is_restricted p = true → e ∈ entries p → access e = Deny → entry_path e = PathEntry q →
  resolve_access p q context = Deny.
Proof.
  intros Hr He Hd Hq. destruct (decide (resolve_access p q context = Deny)) as [|Hne]; [done|].
  destruct (resolve_access_judged p context q Hr Hne) as [Hj Hes].
  pose proof Hj as (c & Hc & Hcq & [n Hn] & _).
  assert (Hcov : covers p context q q Deny n).
  { split; [|split; [apply starts_with_refl|done]]. apply elem_of_resolved. exists e. rewrite Hq.
    split; [done|]. split; [done|]. split; [by left|congruence]. }
  destruct (resolve_access_cases p context q Hr Hj Hes) as [(root & d & (Hin & Hst & Hdd) & Htop)|[_ Hno]].
  - apply Htop in Hcov. destruct (starts_with_depth q root n Hst Hn) as (m & Hm & Hle).
    assert (m = d) as -> by congruence. destruct (resolve_access p q context); cbn in Hcov; lia || done.
  - by destruct (Hno _ _ _ Hcov).
Qed.

(** Entries that are added to a policy change the access to a path only where
    one of them decides it. *)
Lemma added_entries_decide p p' context path :
  is_restricted p = true → is_restricted p' = true → (∀ e, e ∈ entries p → e ∈ entries p') →
  resolve_access p' path context ≠ Deny →
  resolve_access p' path context = resolve_access p path context ∨
  ∃ e root d, e ∈ entries p' ∧ e ∉ entries p ∧ access e = resolve_access p' path context ∧
    root ∈ entry_targets context (entry_path e) ∧ covers p' context path root (resolve_access p' path context) d.
Proof.
  intros Hr Hr' Hent Hne. destruct (resolve_access_judged p' context path Hr' Hne) as [Hj Hes].
  destruct (resolve_access_cases p' context path Hr' Hj Hes) as [(root & d & Hcov & Htop)|[? _]]; [|done].
  pose proof Hcov as ((e & He & Hacc & Htgt & Hcv)%elem_of_resolved & Hst & Hdd).
  destruct (decide (e ∈ entries p)) as [Hep|Hnep]; [left|right; eauto 10].
  assert (Hsub : ∀ r m, (r, m) ∈ resolved_entries p context → (r, m) ∈ resolved_entries p' context).
  { intros r m (x & Hx & ?)%elem_of_resolved. apply elem_of_resolved. exists x. auto. }
  assert (Hc1 : covers p context path root (resolve_access p' path context) d).
  { split; [|done]. apply elem_of_resolved. eauto 10. }
  destruct (resolve_access_cases p context path Hr Hj) as [(root0 & d0 & (Hin0 & Hc0) & Htop0)|[_ Hno]].
  - by apply (with_depths_sub _ (resolved_entries p' context)).
  - apply Htop0 in Hc1. assert (Hc2 : covers p' context path root0 (resolve_access p path context) d0) by (split; auto).
    apply Htop in Hc2.
    assert (Heq : access_rank (resolve_access p' path context) = access_rank (resolve_access p path context)) by lia.
    revert Heq. generalize (resolve_access p' path context) (resolve_access p path context). by intros [] [].
  - by destruct (Hno _ _ _ Hc1).
Qed.

(** Replacing the allowing side of a policy keeps the denials of the old
    one: unless the sandbox is external, a path the old policy denies outright
    stays denied, and no path gains access over what the new side alone
    gives. *)
Theorem preserved_denials p existing context :
  policy_kind p ≠ ExternalSandbox →
  let p' := preserve_deny_read_restrictions_from p existing in
  (∀ e q, e ∈ entries existing → access e = Deny → entry_path e = PathEntry q →
     resolve_access p' q context = Deny) ∧
  (∀ path, resolve_access p' path context = Deny ∨ resolve_access p' path context = resolve_access p path context).
Proof.
  intros Hk p'. destruct (preserve_entries p existing) as [Hkind Hent]. fold p' in Hkind, Hent.
  set (p0 := if _ && _ then _ else _) in *.
  assert (Hrr : is_restricted p' = is_restricted p0) by (unfold is_restricted; by rewrite Hkind).
  split.
  - intros e q He Hd Hq.
    assert (Hr0 : is_restricted p0 = true).
    { apply bool_decide_eq_true. unfold p0.
      assert (existsb is_deny (entries existing) = true) as ->.
      { apply existsb_exists. exists e. rewrite <-list_elem_of_In. split; [done|]. by apply bool_decide_eq_true. }
      rewrite andb_true_r. by destruct (policy_kind p) eqn:E. }
    apply (denied_root p' context e q); [by rewrite Hrr| |done|done]. apply Hent; [done|]. by right.
  - intros path. destruct (is_restricted p0) eqn:Hr.
    2:{ right. rewrite !resolve_access_kind; [done| |by rewrite Hrr]. unfold p0 in Hr.
        destruct (bool_decide _ && _); [done|done]. }
    destruct (decide (resolve_access p' path context = Deny)) as [|Hne]; [by left|right].
    destruct (added_entries_decide p0 p' context path Hr Hrr) as [Heq|(e & root & d & He & Hne0 & Hacc & _)];
      [intros e He; apply Hent; auto|done| |apply Hent in He as [?|[_ ?]]; [done|congruence|done]].
    rewrite Heq. unfold p0 in *. destruct (bool_decide (policy_kind p = Unrestricted)) eqn:Hu; cbn [andb] in *; [|done].
    destruct (existsb is_deny (entries existing)); [|done]. apply bool_decide_eq_true in Hu.
    rewrite (resolve_access_kind p) by (by apply bool_decide_eq_false; rewrite Hu).
    rewrite Heq in Hne. destruct (resolve_access_judged _ context path Hr Hne) as [Hj Hes].
    destruct (resolve_access_cases _ context path Hr Hj Hes) as [(root & d & (Hin & _) & _)|[? _]]; [|done].
    apply elem_of_resolved in Hin as (e & ->%list_elem_of_singleton & <- & _). done.
Qed.

(** Under a writable root the directories [.git], [.agents] and [.codex]
    cannot be written, unless the policy gives full disk access or an entry
    makes a path inside the directory writable. *)
Theorem metadata_protected p context path root name protected :
  is_restricted p = true → has_full_disk_write_access_with_context p context = false →
  (root, Write) ∈ resolved_entries p context → name ∈ PROTECTED_METADATA_PATH_NAMES →
  join_descendant root name = Some protected → path_starts_with path protected = true →
  (∀ r root' name' q, (r, Write) ∈ resolved_entries p context → path_starts_with path r = true →
     (root', Write) ∈ resolved_entries p context → name' ∈ PROTECTED_METADATA_PATH_NAMES →
     join_descendant root' name' = Some q → path_starts_with path q = true → path_starts_with r q = false) →
  can_write_path p path context = false ∧ is_Some (metadata_write_denial p path context).
Proof.
  intros Hr Hfull Hroot Hname Hprot Hpath Hinside.
  enough (Hden : is_Some (metadata_write_denial p path context)).
  { split; [|done]. unfold can_write_path. destruct (can_write _); [|done]. cbn [negb]. rewrite Hfull.
    apply bool_decide_eq_false. by intros ?%eq_None_not_Some. }
  unfold metadata_write_denial. rewrite Hr. cbn [negb].
  destruct (find_map _ _) as [[q n]|] eqn:Hf.
  - apply find_map_Some in Hf as (l1 & [r m] & l2 & Hl & Hq & _).
    assert (Hin : (r, m) ∈ List.filter (λ e, can_write e.2) (resolved_entries p context)).
    { rewrite Hl. apply elem_of_app. right. left. }
    rewrite list_elem_of_In, filter_In, <-list_elem_of_In in Hin. destruct Hin as [Hin Hm]. destruct m; try done.
    apply find_map_Some in Hq as (k1 & n' & k2 & Hk & Hq & _).
    destruct (join_descendant r n') as [q'|] eqn:Hj; [|done]. destruct (path_starts_with path q') eqn:Hq'; [|done].
    simplify_eq. destruct (existsb _ _) eqn:Hx; [|eauto]. exfalso.
    apply existsb_exists in Hx as ([r' m'] & Hin' & Hx). apply list_elem_of_In in Hin'.
    rewrite !andb_true_iff in Hx. destruct Hx as [[Hm' Hr'] Hrq]. destruct m'; try done.
    assert (Hn : n ∈ PROTECTED_METADATA_PATH_NAMES) by (rewrite Hk; apply elem_of_app; right; left).
    by rewrite (Hinside r' r n q) in Hrq.
  - exfalso. apply find_map_None in Hf. rewrite Forall_forall in Hf.
    assert (Hin : (root, Write) ∈ List.filter (λ e, can_write e.2) (resolved_entries p context)).
    { by rewrite list_elem_of_In, filter_In, <-list_elem_of_In. }
    apply Hf in Hin. apply find_map_None in Hin. rewrite Forall_forall in Hin.
    apply Hin in Hname. by rewrite Hprot, Hpath in Hname.
Qed.
End restrictions.

(** ** Profiles *)
Section profiles.
Context {PU : PathUris}.
Implicit Types (p : FileSystemSandboxPolicy) (context : FileSystemSandboxPolicyContext) (profile : PermissionProfile).

Definition demote p : FileSystemSandboxPolicy :=
  with_entries p ((λ e, mkEntry (entry_path e) (read_only_access (access e)) (missing_path_behavior e)) <$> entries p).

Lemma covers_demote p context path root d :
  (∀ m, covers (demote p) context path root m d ↔ ∃ m', m = read_only_access m' ∧ covers p context path root m' d).
Proof.
  intros m. unfold covers. rewrite elem_of_resolved. split.
  - intros [(e & He & <- & Ht & Hc) H]. cbn in He. apply list_elem_of_fmap in He as (e0 & -> & He0).
    exists (access e0). split; [done|]. split; [|done]. apply elem_of_resolved. eauto.
  - intros (m' & -> & (e & He & <- & Ht & Hc)%elem_of_resolved & H). split; [|done].
    eexists (mkEntry _ _ _). split; [|by eauto]. cbn. apply list_elem_of_fmap. eauto.
Qed.

Lemma resolve_demote p context path :
  is_restricted p = true → resolve_access (demote p) path context = read_only_access (resolve_access p path context).
Proof.
  intros Hr. assert (Hr' : is_restricted (demote p) = true) by done.
  assert (Hes : is_Some (with_depths (resolved_entries (demote p) context)) ↔
                is_Some (with_depths (resolved_entries p context))).
  { rewrite !with_depths_is_Some. split; intros H root m.
    - intros (e & He & <- & Ht & Hc)%elem_of_resolved. apply (H root (read_only_access (access e))).
      apply elem_of_resolved. exists (mkEntry (entry_path e) (read_only_access (access e)) (missing_path_behavior e)).
      split; [|done]. cbn. apply list_elem_of_fmap. eauto.
    - intros (e & He & <- & Ht & Hc)%elem_of_resolved. cbn in He. apply list_elem_of_fmap in He as (e0 & -> & He0).
      apply (H root (access e0)). apply elem_of_resolved. eauto. }
  destruct (decide (resolve_access p path context = Deny)) as [HD|HnD].
  - rewrite HD. cbn. destruct (decide (resolve_access (demote p) path context = Deny)) as [|Hne]; [done|exfalso].
    destruct (resolve_access_judged _ context path Hr' Hne) as [Hj Hs].
    destruct (resolve_access_cases _ context path Hr' Hj Hs) as [(root & d & Hc & Htop)|[? _]]; [|done].
    destruct (resolve_access_cases p context path Hr Hj (proj1 Hes Hs)) as [(root0 & d0 & Hc0 & Htop0)|[_ Hno]].
    + apply covers_demote in Hc as (m' & Hm' & Hc). apply Htop0 in Hc.
      assert (Hc1 : covers (demote p) context path root0 Deny d0).
      { apply covers_demote. eexists. split; [|exact Hc0]. by rewrite HD. }
      apply Htop in Hc1. rewrite Hm' in *. rewrite HD in *. destruct m'; cbn in *; lia || done.
    + apply covers_demote in Hc as (m' & _ & Hc). by destruct (Hno _ _ _ Hc).
  - destruct (resolve_access_judged p context path Hr HnD) as [Hj Hs].
    destruct (resolve_access_cases p context path Hr Hj Hs) as [(root & d & Hc & Htop)|[? _]]; [|done].
    assert (Hc1 : covers (demote p) context path root (read_only_access (resolve_access p path context)) d)
      by (apply covers_demote; eauto).
    destruct (resolve_access_cases _ context path Hr' Hj (proj2 Hes Hs)) as [(root' & d' & Hc' & Htop')|[_ Hno]];
      [|by destruct (Hno _ _ _ Hc1)].
    apply Htop' in Hc1. apply covers_demote in Hc' as (m' & Hm' & Hc'). apply Htop in Hc'. rewrite Hm' in *.
    destruct (resolve_access p path context), m'; cbn in *; lia || done.
Qed.

(** The depth of a stored profile is a [NonZeroUsize]. *)
Definition profile_ok profile : Prop :=
  match profile with Managed (ManagedRestricted _ depth) _ => depth ≠ Some 0%N | _ => True end.

Lemma non_zero_ok d : d ≠ Some 0%N → non_zero d = d.
Proof. destruct d as [n|]; cbn; [|done]. intros H. destruct (N.eqb_spec n 0); congruence. Qed.

(** A profile is recovered from the runtime permissions it compiles to and
    its enforcement, and the conversion does not reach its unreachable case. *)
Theorem profile_roundtrip profile :
  profile_ok profile →
  from_runtime_permissions_with_enforcement (enforcement profile)
    (to_runtime_permissions profile).1 (to_runtime_permissions profile).2 = Some profile.
Proof.
  destruct profile as [[es depth|] n| |n]; cbn; try done. intros H.
  unfold from_runtime_permissions_with_enforcement, from_sandbox_policy; cbn. by rewrite non_zero_ok.
Qed.

(** Intersecting a profile with read-only access never panics. Unless the
    sandbox is external, the result has no network and gives a restricted
    profile's paths the access they had with writing reduced to reading; an
    unrestricted profile becomes the read-only one. *)
Theorem intersect_read_only_spec profile :
  profile_ok profile →
  match intersect_with_read_only profile with
  | None => False
  | Some None => ∃ n, profile = External n
  | Some (Some profile') =>
      network_sandbox_policy profile' = NetRestricted ∧
      (∀ path context, resolve_access (file_system_sandbox_policy profile') path context ≠ Write) ∧
      (is_restricted (file_system_sandbox_policy profile) = true → ∀ path context,
         resolve_access (file_system_sandbox_policy profile') path context =
         read_only_access (resolve_access (file_system_sandbox_policy profile) path context)) ∧
      (is_restricted (file_system_sandbox_policy profile) = false →
         file_system_sandbox_policy profile' = fs_read_only)
  end.
Proof.
  assert (Hro : ∀ path context, resolve_access fs_read_only path context ≠ Write).
  { intros path context. change fs_read_only with (demote fs_read_only). rewrite resolve_demote by done.
    by destruct (resolve_access _ _ _). }
  destruct profile as [[es depth|] n| |n]; intros Hok; [|by split_and!|by split_and!|by exists n].
  cbn [intersect_with_read_only file_system_sandbox_policy to_sandbox_policy policy_kind].
  change (with_entries (mkFsPolicy Restricted depth es) _) with (demote (mkFsPolicy Restricted depth es)).
  unfold from_runtime_permissions, from_runtime_permissions_with_enforcement, from_sandbox_policy.
  cbn [demote with_entries policy_kind glob_scan_max_depth fmap option_fmap option_map]. cbn in Hok.
  rewrite non_zero_ok by done. split; [done|].
  assert (Hd : ∀ path context, resolve_access (demote (mkFsPolicy Restricted depth es)) path context =
    read_only_access (resolve_access (mkFsPolicy Restricted depth es) path context))
    by (intros; by apply resolve_demote).
  split_and!; [|done|done]. intros path context. cbn [file_system_sandbox_policy to_sandbox_policy entries].
  change (mkFsPolicy Restricted depth _) with (demote (mkFsPolicy Restricted depth es)).
  rewrite Hd. by destruct (resolve_access _ _ _).
Qed.
End profiles.

(** ** Instances: POSIX paths as lists of segments *)
Definition path_parts (s : str) : list str := List.filter (λ c, negb (is_empty c)) (split_char 47 s).
Definition show_posix (segments : list str) : str := mjoin ((λ s, 47%N :: s) <$> segments).

#[export] Instance posix_uris : PathUris := {|
  PathUri := list str;
  infer_path_convention := λ _, Some PosixPaths;
  lexical_depth := λ p, Some (length p);
  is_opaque := λ _, false;
  path_starts_with := λ p q, bool_decide (q `prefix_of` p);
  path_join := λ p s, Some ((if starts_with ($"/") s then [] else p) ++ path_parts s);
  join_descendant := λ p s, Some (p ++ path_parts s);
  path_parent := λ p, match p with [] => None | _ => Some (take (length p - 1) p) end;
  last_ancestor := λ _, [];
  path_basename := last;
  decoded_path := show_posix;
  inferred_native_path_string := show_posix
|}.

#[export] Instance posix_lawful : LawfulPathUris.
Proof.
  split; cbn.
  - intros p. by apply bool_decide_eq_true.
  - intros p q r. rewrite !bool_decide_eq_true. intros. by etrans.
  - intros p q n. rewrite bool_decide_eq_true. intros Hp [= <-]. eexists. split; [done|]. by apply prefix_length.
  - intros x p q m n. rewrite !bool_decide_eq_true. intros Hp Hq [= <-] [= <-] Hle.
    destruct (prefix_weak_total p q x Hp Hq) as [?|Hqp]; [done|].
    by rewrite (prefix_length_eq q p Hqp Hle).
Qed.

#[export] Instance posix_posix : PosixPathUris.
Proof.
  split; cbn.
  - intros c path _ _ _ _. split_and!; [|done|done]. apply bool_decide_eq_true, prefix_nil.
  - intros u _ _. by destruct u.
  - intros c _. eexists. split_and!; [vm_compute; reflexivity|done|done|].
    intros u _ Hu Hb path. destruct u as [|a [|b u]]; try done. cbn in Hb. injection Hb as ->. done.
Qed.

(** A workspace at [/w]. *)
Definition demo_context : FileSystemSandboxPolicyContext :=
  mkContext [ $"w"] [[ $"w"]] (Some [ $"home"]) (Some [[ $"var"]]).
Definition demo_workspace : FileSystemSandboxPolicy :=
  fs_workspace_write true (λ _, []) [] true true.
Definition demo_full : FileSystemSandboxPolicy :=
  restricted [new_entry (Special Root) Write; new_entry (Special SlashTmp) Read;
              new_entry (PathEntry [ $"tmp"]) Write].

Lemma demo_judged path : judged demo_context path.
Proof. exists PosixPaths. cbn. eauto. Qed.


Lemma full_disk_write_sound_witness :
  has_full_disk_write_access_with_context demo_full demo_context = true ∧
  can_write_path demo_full [ $"tmp"; $".git"] demo_context = true.
Proof.
  split; [vm_compute; reflexivity|].
  apply (full_disk_write_sound demo_full demo_context [ $"tmp"; $".git"]).
  - reflexivity.
  - apply demo_judged.
  - vm_compute. eauto.
  - vm_compute. reflexivity.
Defined.

Lemma preserved_denials_witness :
  resolve_access (preserve_deny_read_restrictions_from unrestricted
    (restricted [new_entry (PathEntry [ $"secret"]) Deny])) [ $"secret"] demo_context = Deny.
Proof.
  refine (proj1 (preserved_denials unrestricted (restricted [new_entry (PathEntry [ $"secret"]) Deny]) demo_context _)
            (new_entry (PathEntry [ $"secret"]) Deny) [ $"secret"] _ eq_refl eq_refl); [done|left].
Defined.

Definition demo_open : FileSystemSandboxPolicy :=
  restricted [new_entry (Special Root) Read; new_entry (PathEntry [ $"w"]) Write].
Lemma metadata_protected_witness :
  can_write_path demo_open [ $"w"; $".git"; $"hooks"] demo_context = false.
Proof.
  apply (metadata_protected demo_open demo_context [ $"w"; $".git"; $"hooks"] [ $"w"] ($".git") [ $"w"; $".git"]).
  - reflexivity.
  - vm_compute. reflexivity.
  - vm_compute. right. left.
  - left.
  - vm_compute. reflexivity.
  - vm_compute. reflexivity.
  - intros r root' name' q Hr _ Hroot' Hname' Hq Hpath.
    assert (Hw : ∀ x, (x, Write) ∈ resolved_entries demo_open demo_context → x = [ $"w"]).
    { intros x Hx. vm_compute in Hx.
      repeat (apply elem_of_cons in Hx as [Hx|Hx]; [by injection Hx as ?|]). by apply elem_of_nil in Hx. }
    apply Hw in Hr as ->. apply Hw in Hroot' as ->. cbn in Hq, Hpath |- *. injection Hq as <-.
    apply bool_decide_eq_false. intros Hpre%prefix_length. cbn in Hpre.
    enough (length (path_parts name') = 1) by lia. clear -Hname'. unfold PROTECTED_METADATA_PATH_NAMES in Hname'.
    repeat (apply elem_of_cons in Hname' as [->|Hname']; [vm_compute; reflexivity|]). by apply elem_of_nil in Hname'.
Defined.

Lemma profile_roundtrip_witness :
  from_runtime_permissions_with_enforcement EnforcementManaged (mkFsPolicy Restricted (Some 3%N) []) NetRestricted
    = Some (Managed (ManagedRestricted [] (Some 3%N)) NetRestricted).
Proof. apply (profile_roundtrip (Managed (ManagedRestricted [] (Some 3%N)) NetRestricted)). done. Defined.

Lemma intersect_read_only_spec_witness :
  ∃ profile', intersect_with_read_only (Managed (ManagedRestricted (entries demo_workspace) None) NetEnabled)
                = Some (Some profile') ∧ network_sandbox_policy profile' = NetRestricted.
Proof.
  pose proof (intersect_read_only_spec (Managed (ManagedRestricted (entries demo_workspace) None) NetEnabled)
                ltac:(done)) as H.
  destruct (intersect_with_read_only _) as [[profile'|]|].
  - exists profile'. split; [done|]. apply H.
  - destruct H as [n Hn]. discriminate Hn.
  - destruct H.
Defined.

(** The order of the entries matters for protected directories inside protected
    directories: only the first one found is considered. *)
Example nested_metadata_order :
  let write es := new_entry (PathEntry es) Write in
  let nested := [ $"w"; $".git"; $".git"; $"f"] in
  can_write_path (restricted [write [ $"w"]; write [ $"w"; $".git"]]) nested demo_context = true ∧
  can_write_path (restricted [write [ $"w"; $".git"]; write [ $"w"]]) nested demo_context = false.
Proof. vm_compute. auto. Qed.
