(* ===== verification/PolicyTransforms.v ===== *)
(** * Permission transformations: [sandboxing/src/policy_transforms.rs]

    A command may ask for permissions on top of the sandbox's. Here requests
    are normalised and resolved against the executor's paths, intersected with
    what the user granted, merged with earlier grants, and added to the
    policy. *)

From stdpp Require Import prelude list strings.
From S2P Require Import Prelude Permissions.

Record NetworkPermissions := mkNet { net_enabled : option bool }.
#[global] Instance NetworkPermissions_eq_dec : EqDecision NetworkPermissions.
Proof. solve_decision. Defined.
Definition net_is_empty (n : NetworkPermissions) : bool := bool_decide (net_enabled n = None).

Section transforms.
Context {PU : PathUris}.
Context (build_glob : str → PathConvention → option (str → bool)).

Record FileSystemPermissions := mkFsPerms {
  perm_entries : list FileSystemSandboxEntry;
  perm_depth : option N
}.
Definition perms_is_empty (fs : FileSystemPermissions) : bool := is_empty (perm_entries fs).
Definition default_perms : FileSystemPermissions := mkFsPerms [] None.

Record AdditionalPermissionProfile := mkAdditional {
  add_network : option NetworkPermissions;
  add_file_system : option FileSystemPermissions
}.
Definition additional_is_empty (a : AdditionalPermissionProfile) : bool :=
  bool_decide (add_network a = None)
  && match add_file_system a with None => true | Some _ => false end.

(** [opt.filter(p)] *)
Definition opt_filter {A} (p : A → bool) (o : option A) : option A :=
  match o with Some x => if p x then Some x else None | None => None end.

(** ** Normalisation *)
Definition is_glob (e : FileSystemSandboxEntry) : bool :=
  match entry_path e with GlobPattern _ => true | _ => false end.

Fixpoint normalize_entries (acc es : list FileSystemSandboxEntry) : result str (list FileSystemSandboxEntry) :=
  match es with
  | [] => Ok acc
  | e :: es' =>
      if is_glob e && negb (is_deny e)
      then Err ($"glob file system permissions only support deny-read entries")
      else normalize_entries (push_new acc e) es'
  end.

Definition normalize_additional_permissions (a : AdditionalPermissionProfile) : result str AdditionalPermissionProfile :=
  let network := opt_filter (λ n, negb (net_is_empty n)) (add_network a) in
  match add_file_system a with
  | Some fs =>
      let? es := normalize_entries [] (perm_entries fs) in
      let fs' := mkFsPerms es (perm_depth fs) in
      Ok (mkAdditional network (if perms_is_empty fs' then None else Some fs'))
  | None => Ok (mkAdditional network None)
  end.

(** [show] renders a path in the error message. *)
Context (show : PathUri → str).
Fixpoint check_conventions (context : FileSystemSandboxPolicyContext) (es : list FileSystemSandboxEntry)
    : result str unit :=
  match es with
  | [] => Ok tt
  | e :: es' =>
      match entry_path e with
      | PathEntry path =>
          if bool_decide (infer_path_convention path = None)
             || negb (bool_decide (infer_path_convention path = infer_path_convention (cwd context)))
             || bool_decide (path_join path ($".") = None)
          then Err ($"permission path `" ++ show path ++ $"` does not match executor cwd `"
                    ++ show (cwd context) ++ $"`")
          else check_conventions context es'
      | _ => check_conventions context es'
      end
  end.
Definition normalize_additional_permissions_with_context (a : AdditionalPermissionProfile)
    (context : FileSystemSandboxPolicyContext) : result str AdditionalPermissionProfile :=
  let? normalized := normalize_additional_permissions a in
  match add_file_system normalized with
  | Some fs => let? _ := check_conventions context (perm_entries fs) in Ok normalized
  | None => Ok normalized
  end.

(** ** Entries resolved against the executor's paths *)
Definition resolve_permission_path (path : FileSystemPath) (context : FileSystemSandboxPolicyContext) : option PathUri :=
  match path with
  | PathEntry path => Some path
  | GlobPattern _ => None
  | Special Root => file_system_root context
  | Special (ProjectRoots subpath) =>
      match workspace_roots context with
      | [] => None
      | root :: _ => match subpath with Some subpath => path_join root subpath | None => Some root end
      end
  | Special Tmpdir => match temporary_directories context with Some (d :: _) => Some d | _ => None end
  | Special SlashTmp =>
      if bool_decide (infer_path_convention (cwd context) = Some PosixPaths)
      then path_join (cwd context) ($"/tmp") else None
  | Special Minimal | Special (UnknownPath _ _) => None
  end.

Definition materialized_path_entry (e : FileSystemSandboxEntry) (path : PathUri) : FileSystemSandboxEntry :=
  mkEntry (PathEntry path) (access e) (missing_path_behavior e).

Definition materialize_cwd_dependent_entry (e : FileSystemSandboxEntry) (context : FileSystemSandboxPolicyContext)
    : option FileSystemSandboxEntry :=
  match entry_path e with
  | GlobPattern pattern =>
      let is_windows := bool_decide (infer_path_convention (cwd context) = Some WindowsPaths) in
      let home_relative := match strip_prefix ($"~/") pattern with
                           | Some suffix => Some suffix
                           | None => if bool_decide (pattern = $"~") then Some []
                                     else if is_windows then strip_prefix ($"~\") pattern else None
                           end in
      let target := match home_relative with
                    | Some suffix => match user_home_dir context with
                                     | Some home => Some (home, trim_start_matches (is_separator is_windows) suffix)
                                     | None => None
                                     end
                    | None => Some (cwd context, pattern)
                    end in
      match target with
      | None => None
      | Some (root, pattern) =>
          match path_join root pattern with
          | Some path => Some (mkEntry (GlobPattern (inferred_native_path_string path)) (access e) (missing_path_behavior e))
          | None => None
          end
      end
  | _ => Some e
  end.

(** The paths of a workspace-root entry, root by root; [None] is the early
    return for a denial that cannot be resolved. *)
Fixpoint materialize_roots (e : FileSystemSandboxEntry) (context : FileSystemSandboxPolicyContext)
    (roots : list PathUri) : option (list FileSystemSandboxEntry) :=
  match roots with
  | [] => Some []
  | root :: roots' =>
      let root_context := mkContext (cwd context) [root] (user_home_dir context) (temporary_directories context) in
      match resolve_permission_path (entry_path e) root_context with
      | Some path => cons (materialized_path_entry e path) <$> materialize_roots e context roots'
      | None => if is_deny e then None else materialize_roots e context roots'
      end
  end.

Definition materialize_entry (context : FileSystemSandboxPolicyContext) (e : FileSystemSandboxEntry)
    : option (list FileSystemSandboxEntry) :=
  match entry_path e with
  | Special (ProjectRoots _) =>
      match materialize_roots e context (workspace_roots context) with
      | None => None
      | Some resolved => if is_deny e && is_empty resolved then None else Some resolved
      end
  | Special Tmpdir =>
      match temporary_directories context with
      | None => if is_deny e then None else Some [e]
      | Some dirs => Some (materialized_path_entry e <$> dirs)
      end
  | Special Root =>
      match resolve_permission_path (entry_path e) context with Some _ => Some [e] | None => None end
  | _ => match materialize_cwd_dependent_entry e context with
         | Some e' => Some [e']
         | None => if is_deny e then None else Some []
         end
  end.
Definition materialize_context_dependent_entries (es : list FileSystemSandboxEntry)
    (context : FileSystemSandboxPolicyContext) : option (list FileSystemSandboxEntry) :=
  mjoin <$> mapM (materialize_entry context) es.

Definition materialize_additional_permissions_with_context (a : AdditionalPermissionProfile)
    (context : FileSystemSandboxPolicyContext) : result str AdditionalPermissionProfile :=
  match add_file_system a with
  | Some fs =>
      match materialize_context_dependent_entries (perm_entries fs) context with
      | Some es => normalize_additional_permissions_with_context
                     (mkAdditional (add_network a) (Some (mkFsPerms es (perm_depth fs)))) context
      | None => Err ($"unable to resolve permission path in `" ++ show (cwd context) ++ $"`")
      end
  | None => normalize_additional_permissions_with_context a context
  end.

(** ** Merging *)
Inductive GlobScanDepth : Type := Bounded (d : N) | Unbounded.

Definition effective_glob_scan_depth (es : list FileSystemSandboxEntry) (depth : option N) : option GlobScanDepth :=
  if existsb (λ e, is_deny e && is_glob e) es
  then Some (match depth with Some d => Bounded d | None => Unbounded end) else None.
Definition merge_glob_scan_max_depth (left_entries : list FileSystemSandboxEntry) (left_depth : option N)
    (right_entries : list FileSystemSandboxEntry) (right_depth : option N) : option N :=
  match effective_glob_scan_depth left_entries left_depth, effective_glob_scan_depth right_entries right_depth with
  | Some Unbounded, _ | _, Some Unbounded => None
  | Some (Bounded l), Some (Bounded r) => Some (N.max l r)
  | Some (Bounded d), None | None, Some (Bounded d) => Some d
  | None, None => None
  end.

Definition merge_permission_entries (base permissions : list FileSystemSandboxEntry) : list FileSystemSandboxEntry :=
  foldl push_new [] (base ++ permissions).

Definition net_on : NetworkPermissions := mkNet (Some true).
Definition is_net_on (n : option NetworkPermissions) : bool := bool_decide (n = Some net_on).

Definition merge_permission_profiles (base permissions : option AdditionalPermissionProfile)
    : option AdditionalPermissionProfile :=
  match permissions with
  | None => base
  | Some permissions =>
      match base with
      | Some base =>
          let network := if is_net_on (add_network base) || is_net_on (add_network permissions)
                         then Some net_on else None in
          let file_system := match add_file_system base, add_file_system permissions with
                             | Some b, Some p =>
                                 opt_filter (λ fs, negb (perms_is_empty fs))
                                   (Some (mkFsPerms (merge_permission_entries (perm_entries b) (perm_entries p))
                                      (non_zero (merge_glob_scan_max_depth (perm_entries b) (perm_depth b)
                                                   (perm_entries p) (perm_depth p)))))
                             | Some b, None => Some b
                             | None, Some p => Some p
                             | None, None => None
                             end in
          opt_filter (λ a, negb (additional_is_empty a)) (Some (mkAdditional network file_system))
      | None => opt_filter (λ a, negb (additional_is_empty a)) (Some permissions)
      end
  end.

(** ** Intersection *)
Definition access_covers (requested granted : FileSystemAccessMode) : bool :=
  match granted with Read => can_read requested | Write => can_write requested | Deny => false end.
Definition is_root_entry (e : FileSystemSandboxEntry) : bool := bool_decide (entry_path e = Special Root).

Definition granted_file_system_entry_within_request (requested : FileSystemPermissions)
    (requested_policy : FileSystemSandboxPolicy) (matcher : option PreparedReadDenyMatcher)
    (granted_entry : FileSystemSandboxEntry) (context : FileSystemSandboxPolicyContext) : bool :=
  let convention := infer_path_convention (cwd context) in
  if negb (can_read (access granted_entry))
     || bool_decide (entry_path granted_entry = Special SlashTmp) && negb (bool_decide (convention = Some PosixPaths))
  then false
  else if bool_decide (convention = Some WindowsPaths) && is_root_entry granted_entry
          && negb (existsb (λ r, is_root_entry r && access_covers (access r) (access granted_entry))
                     (perm_entries requested))
  then false
  else match resolve_permission_path (entry_path granted_entry) context with
       | Some path =>
           if negb (bool_decide (infer_path_convention path = convention))
              || match matcher with Some m => matches_prepared_read_deny path context m | None => false end
           then false
           else access_covers (resolve_access requested_policy path context) (access granted_entry)
       | None => existsb (λ r, access_covers (access r) (access granted_entry)
                               && bool_decide (entry_path r = entry_path granted_entry)) (perm_entries requested)
       end.

Definition paths_overlap (left right : PathUri) : bool := default true (overlaps left right).

(** [pattern.find(['*', '?', '[', ']'])] as the text before the wildcard. *)
Definition is_wildcard (c : char) : bool := existsb (N.eqb c) [42; 63; 91; 93]%N.
Fixpoint before_wildcard (pattern : str) : str * bool :=
  match pattern with
  | [] => ([], false)
  | c :: pattern' => if is_wildcard c then ([], true)
                     else let '(prefix, found) := before_wildcard pattern' in (c :: prefix, found)
  end.
Definition glob_static_prefix_path (pattern : str) (context : FileSystemSandboxPolicyContext) : option PathUri :=
  let is_windows := bool_decide (infer_path_convention (cwd context) = Some WindowsPaths) in
  let '(prefix, found) := before_wildcard pattern in
  if found && is_empty prefix then None
  else
    let wildcard_in_segment := found && negb (ends_with ($"/") prefix || is_windows && ends_with ($"\") prefix) in
    match path_join (cwd context) prefix with
    | Some path => if wildcard_in_segment then path_parent path else Some path
    | None => None
    end.

Definition deny_entry_constrains_accepted_grant (deny_entry : FileSystemSandboxEntry)
    (accepted : list FileSystemSandboxEntry) (context : FileSystemSandboxPolicyContext) : bool :=
  existsb (λ e,
    can_read (access e) &&
    (is_root_entry e ||
     match resolve_permission_path (entry_path e) context with
     | None => true
     | Some grant_path =>
         match entry_path deny_entry with
         | GlobPattern pattern =>
             match glob_static_prefix_path pattern context with
             | Some prefix => paths_overlap prefix grant_path | None => true end
         | path =>
             match resolve_permission_path path context with
             | Some deny_path => paths_overlap deny_path grant_path | None => true end
         end
     end)) accepted.

Definition retained_denies (source accepted : list FileSystemSandboxEntry)
    (context : FileSystemSandboxPolicyContext) : list FileSystemSandboxEntry :=
  List.filter (λ e, is_deny e && deny_entry_constrains_accepted_grant e accepted context) source.
(** The output gets the retained entries it does not have. *)
Definition retain_constraining_deny_entries (source accepted : list FileSystemSandboxEntry)
    (context : FileSystemSandboxPolicyContext) (output : list FileSystemSandboxEntry) : list FileSystemSandboxEntry :=
  foldl push_new output (retained_denies source accepted context).

Definition intersect_file_system (requested granted : FileSystemPermissions)
    (context : FileSystemSandboxPolicyContext) : option FileSystemPermissions :=
  match materialize_context_dependent_entries (perm_entries requested) context,
        materialize_context_dependent_entries (perm_entries granted) context with
  | Some requested_entries, Some granted_entries =>
      let requested_policy := restricted requested_entries in
      let matcher := read_deny_from_context build_glob requested_policy context in
      let accepted := foldl push_new []
        (List.filter (λ e, granted_file_system_entry_within_request requested requested_policy matcher e context)
           granted_entries) in
      let es := retain_constraining_deny_entries requested_entries accepted context accepted in
      let es := retain_constraining_deny_entries granted_entries accepted context es in
      Some (mkFsPerms es
        (non_zero (merge_glob_scan_max_depth
           (retained_denies requested_entries accepted context) (perm_depth requested)
           (retained_denies granted_entries accepted context) (perm_depth granted))))
  | _, _ => None
  end.

Definition intersect_permission_profiles_with_context (requested granted : AdditionalPermissionProfile)
    (context : FileSystemSandboxPolicyContext) : AdditionalPermissionProfile :=
  let file_system :=
    opt_filter (λ fs, negb (perms_is_empty fs))
      (match add_file_system requested with
       | Some r => intersect_file_system r (default default_perms (add_file_system granted)) context
       | None => None
       end) in
  let network := if is_net_on (add_network requested) && is_net_on (add_network granted) then Some net_on else None in
  mkAdditional network file_system.

(** ** Effective permissions *)
Definition merge_file_system_policy_with_additional_permissions (p : FileSystemSandboxPolicy)
    (fs : FileSystemPermissions) : FileSystemSandboxPolicy :=
  match policy_kind p with
  | Restricted => mkFsPolicy Restricted
      (merge_glob_scan_max_depth (entries p) (glob_scan_max_depth p) (perm_entries fs) (perm_depth fs))
      (foldl push_new (entries p) (perm_entries fs))
  | Unrestricted | ExternalSandbox => p
  end.
Definition effective_file_system_sandbox_policy (p : FileSystemSandboxPolicy)
    (additional : option AdditionalPermissionProfile) : FileSystemSandboxPolicy :=
  match additional with
  | Some a => match add_file_system a with
              | Some fs => if perms_is_empty fs then p
                           else merge_file_system_policy_with_additional_permissions p fs
              | None => p
              end
  | None => p
  end.

Definition merge_network_access (base : bool) (a : AdditionalPermissionProfile) : bool :=
  base || match add_network a with Some n => default false (net_enabled n) | None => false end.
Definition effective_network_sandbox_policy (n : NetworkSandboxPolicy)
    (additional : option AdditionalPermissionProfile) : NetworkSandboxPolicy :=
  match additional with
  | Some a => if merge_network_access (net_is_enabled n) a then NetEnabled else NetRestricted
  | None => n
  end.
Definition effective_permission_profile (profile : PermissionProfile)
    (additional : option AdditionalPermissionProfile) : option PermissionProfile :=
  let '(p, n) := to_runtime_permissions profile in
  from_runtime_permissions_with_enforcement (enforcement profile)
    (effective_file_system_sandbox_policy p additional) (effective_network_sandbox_policy n additional).

Definition should_require_platform_sandbox (unix : bool) (p : FileSystemSandboxPolicy) (n : NetworkSandboxPolicy)
    (has_managed_network_requirements : bool) : bool :=
  if has_managed_network_requirements then true
  else if negb (net_is_enabled n) then negb (bool_decide (policy_kind p = ExternalSandbox))
  else match policy_kind p with
       | Restricted => negb (has_full_disk_write_access unix p)
       | Unrestricted | ExternalSandbox => false
       end.
End transforms.

(** ** Materialised entries *)
Section intersection.
Context {PU : PathUris} {LP : LawfulPathUris}.
Context (build_glob : str → PathConvention → option (str → bool)).
Implicit Types (context : FileSystemSandboxPolicyContext) (e : FileSystemSandboxEntry) (path root : PathUri)
  (es : list FileSystemSandboxEntry).

(** An entry that names at most one place, the one grants are compared at. *)
Definition settled context e : Prop :=
  ∀ root, root ∈ entry_targets context (entry_path e) → resolve_permission_path (entry_path e) context = Some root.

Lemma settled_path context path m b : settled context (mkEntry (PathEntry path) m b).
Proof. intros root ->%list_elem_of_singleton. done. Qed.

Lemma materialize_roots_settled context e roots es :
  materialize_roots e context roots = Some es → Forall (settled context) es.
Proof.
  revert es. induction roots as [|r roots IH]; intros es; cbn; [intros [= <-]; constructor|].
  destruct (resolve_permission_path _ _) as [path|].
  - destruct (materialize_roots e context roots) as [es'|]; [|done]. intros [= <-].
    constructor; [apply settled_path|by apply IH].
  - destruct (is_deny e); [done|]. apply IH.
Qed.

Lemma materialize_entry_settled context e es :
  materialize_entry context e = Some es → Forall (settled context) es.
Proof.
  unfold materialize_entry. destruct (entry_path e) as [path|pattern|v] eqn:He.
  - unfold materialize_cwd_dependent_entry. rewrite He. intros [= <-]. repeat constructor.
    intros root. by rewrite He; intros ->%list_elem_of_singleton.
  - unfold materialize_cwd_dependent_entry. rewrite He. intros H.
    assert (Hg : ∀ s m b, settled context (mkEntry (GlobPattern s) m b)) by (intros s m b root []%elem_of_nil).
    repeat case_match; simplify_eq; repeat constructor; apply Hg.
  - destruct v as [| |sub| | |u sub].
    + destruct (resolve_permission_path _ _) eqn:Hr; [|done]. intros [= <-]. repeat constructor.
      intros root. rewrite He in *. cbn in *. rewrite Hr. cbn. by intros ->%list_elem_of_singleton.
    + unfold materialize_cwd_dependent_entry. rewrite He. intros [= <-]. repeat constructor.
      intros root. rewrite He. intros []%elem_of_nil.
    + destruct (materialize_roots _ _ _) as [es'|] eqn:Hr; [|done]. destruct (_ && _); [done|]. intros [= <-].
      by eapply materialize_roots_settled.
    + destruct (temporary_directories context) as [dirs|] eqn:Ht.
      * intros [= <-]. apply Forall_fmap, Forall_true. intros d. apply settled_path.
      * destruct (is_deny e); [done|]. intros [= <-]. repeat constructor. intros root. rewrite He. cbn. rewrite Ht.
        intros []%elem_of_nil.
    + unfold materialize_cwd_dependent_entry. rewrite He. intros [= <-]. repeat constructor.
      intros root. rewrite He. cbn [entry_targets resolve_permission_path]. case_bool_decide; [|intros []%elem_of_nil].
      destruct (path_join _ _); cbn; [by intros ->%list_elem_of_singleton|intros []%elem_of_nil].
    + unfold materialize_cwd_dependent_entry. rewrite He. intros [= <-]. repeat constructor.
      intros root. rewrite He. intros []%elem_of_nil.
Qed.

Lemma materialize_settled context es es' e :
  materialize_context_dependent_entries es context = Some es' → e ∈ es' → settled context e.
Proof.
  unfold materialize_context_dependent_entries. destruct (mapM _ _) as [ess|] eqn:Hm; [|done]. intros [= <-].
  apply mapM_Some in Hm. rewrite list_elem_of_join. intros (l & He & Hl).
  assert (Hx : ∃ x, materialize_entry context x = Some l).
  { clear He. induction Hm as [|y k es' ks Hy _ IH]; [by apply elem_of_nil in Hl|].
    apply elem_of_cons in Hl as [->|Hl]; eauto. }
  destruct Hx as [x Hmx]. apply materialize_entry_settled in Hmx. rewrite Forall_forall in Hmx. auto.
Qed.

(** ** What an intersection contains *)
Lemma accepted_spec requested context requested_policy m granted_entries e :
  e ∈ foldl push_new []
        (List.filter (λ e, granted_file_system_entry_within_request requested requested_policy m e context) granted_entries)
  ↔ e ∈ granted_entries ∧ granted_file_system_entry_within_request requested requested_policy m e context = true.
Proof.
  rewrite elem_of_push_all, elem_of_filterb. split; [intros [[]%elem_of_nil|?]; done|auto].
Qed.

Lemma within_request_covers requested requested_policy m e context path :
  granted_file_system_entry_within_request requested requested_policy m e context = true →
  resolve_permission_path (entry_path e) context = Some path →
  access_covers (resolve_access requested_policy path context) (access e) = true.
Proof.
  unfold granted_file_system_entry_within_request. intros H Hp. rewrite Hp in H.
  repeat match type of H with (if ?b then _ else _) = true => destruct b; [done|] end. done.
Qed.

Lemma within_request_reads requested requested_policy m e context :
  granted_file_system_entry_within_request requested requested_policy m e context = true → access e ≠ Deny.
Proof. unfold granted_file_system_entry_within_request. by destruct (access e). Qed.

Lemma intersect_entries requested granted context fs :
  intersect_file_system build_glob requested granted context = Some fs →
  ∃ req gra accepted,
    materialize_context_dependent_entries (perm_entries requested) context = Some req ∧
    materialize_context_dependent_entries (perm_entries granted) context = Some gra ∧
    (∀ e, e ∈ accepted ↔ e ∈ gra ∧ granted_file_system_entry_within_request requested (restricted req)
            (read_deny_from_context build_glob (restricted req) context) e context = true) ∧
    (∀ e, e ∈ perm_entries fs ↔ e ∈ accepted ∨
       (e ∈ req ∨ e ∈ gra) ∧ access e = Deny ∧ deny_entry_constrains_accepted_grant e accepted context = true).
Proof.
  unfold intersect_file_system. destruct (materialize_context_dependent_entries (perm_entries requested) context) as [req|]; [|done].
  destruct (materialize_context_dependent_entries (perm_entries granted) context) as [gra|]; [|done]. intros [= <-].
  eexists req, gra, _. split; [done|]. split; [done|]. split; [intros e; apply accepted_spec|].
  intros e. cbn. unfold retain_constraining_deny_entries, retained_denies.
  rewrite !elem_of_push_all, !elem_of_filterb, !andb_true_iff. unfold is_deny. rewrite bool_decide_eq_true. tauto.
Qed.

Lemma overlap_common x p q m n :
  path_starts_with x p = true → path_starts_with x q = true → lexical_depth p = Some m → lexical_depth q = Some n →
  paths_overlap p q = true.
Proof.
  intros Hp Hq Hm Hn. unfold paths_overlap, overlaps. case_bool_decide; [done|]. rewrite Hm, Hn. cbn.
  destruct (decide (m ≤ n)) as [Hle|Hle].
  - rewrite (starts_with_comparable x p q m n) by done. apply orb_true_r.
  - by rewrite (starts_with_comparable x q p n m) by (done || lia).
Qed.

(** A denial that covers a path below an accepted grant is kept. *)
Lemma constrains_common context accepted e d p q x m n :
  settled context e → settled context d → e ∈ accepted → access e ≠ Deny →
  p ∈ entry_targets context (entry_path e) → q ∈ entry_targets context (entry_path d) →
  path_starts_with x p = true → path_starts_with x q = true → lexical_depth p = Some m → lexical_depth q = Some n →
  deny_entry_constrains_accepted_grant d accepted context = true.
Proof.
  intros Hse Hsd Hin Hacc Hp Hq Hxp Hxq Hm Hn. unfold deny_entry_constrains_accepted_grant.
  apply existsb_elem. exists e. split; [done|].
  replace (can_read (access e)) with true by (by destruct (access e)). cbn [andb].
  destruct (is_root_entry e); [done|]. cbn [orb]. rewrite (Hse p Hp).
  destruct (entry_path d) as [u|g|v] eqn:Hd; [|by apply elem_of_nil in Hq|]; unfold settled in Hsd; rewrite Hd in Hsd;
    rewrite (Hsd q Hq); by eapply overlap_common.
Qed.

(** A denial that applies where an accepted entry decides is kept, so it cannot be as specific. *)
Lemma kept_denials context accepted es src path e p d :
  settled context e → e ∈ accepted → access e ≠ Deny →
  p ∈ entry_targets context (entry_path e) → path_starts_with path p = true → lexical_depth p = Some d →
  (∀ x, x ∈ src → settled context x) →
  (∀ x, x ∈ src → access x = Deny → deny_entry_constrains_accepted_grant x accepted context = true → x ∈ es) →
  (∀ root m n, covers (restricted es) context path root m n → n < d ∨ n = d ∧ access_rank m ≤ access_rank (access e)) →
  ∀ q n, covers (restricted src) context path q Deny n → n < d.
Proof.
  intros Hse Hin Hacc Hp Hst Hd Hset Hkeep Htop q n (Hq & Hxq & Hn).
  apply elem_of_resolved in Hq as (x & Hx & Hxd & Hxt & Hxc).
  assert (Hxfs : x ∈ es).
  { apply Hkeep; [done..|]. eapply (constrains_common context accepted e x p q path); eauto. }
  assert (Hc : covers (restricted es) context path q Deny n) by (split; [apply elem_of_resolved; eauto|done]).
  apply Htop in Hc. destruct (access e); cbn in Hc; lia || done.
Qed.

(** Where a directory is readable and no denial is deeper than it, what is below is readable. *)
Lemma readable_below es context path p d :
  judged context path → path_starts_with path p = true → lexical_depth p = Some d →
  resolve_access (restricted es) p context ≠ Deny →
  (∀ q n, covers (restricted es) context path q Deny n → n < d) →
  can_read (resolve_access (restricted es) path context) = true.
Proof.
  intros Hj Hst Hd Hnp Hdeny.
  destruct (resolve_access_judged (restricted es) context p eq_refl Hnp) as [Hjp Hesr].
  destruct (resolve_access_cases (restricted es) context p eq_refl Hjp Hesr) as [(r & dr & Hcr & Htopr)|[? _]]; [|done].
  destruct Hcr as (Hrin & Hpr & Hdr).
  assert (Hcrx : covers (restricted es) context path r (resolve_access (restricted es) p context) dr).
  { split; [done|]. split; [by eapply starts_with_trans|done]. }
  destruct (resolve_access_cases (restricted es) context path eq_refl Hj Hesr) as [(q & dq & Hcq & Htopq)|[_ Hno]];
    [|by destruct (Hno _ _ _ Hcrx)].
  destruct (resolve_access (restricted es) path context) eqn:Hrx; [done..|exfalso].
  pose proof (Hdeny q dq Hcq) as Hlt. destruct Hcq as (Hqin & Hxq & Hdq).
  assert (Hpq : path_starts_with p q = true).
  { apply (starts_with_comparable path q p dq d); [done..|lia]. }
  pose proof (Htopr q Deny dq ltac:(by split)) as Hpq'. apply Htopq in Hcrx.
  destruct (resolve_access (restricted es) p context); cbn in *; lia || done.
Qed.

(** The accepted entry that decides on a readable path. *)
Definition decided_below context (accepted es : list FileSystemSandboxEntry) path : Prop :=
  judged context path ∧ ∃ e p d, e ∈ accepted ∧ p ∈ entry_targets context (entry_path e) ∧
    infer_path_convention p = infer_path_convention (cwd context) ∧ path_starts_with path p = true ∧ lexical_depth p = Some d ∧
    ∀ root m n, covers (restricted es) context path root m n → n < d ∨ n = d ∧ access_rank m ≤ access_rank (access e).

Lemma decided_by_accepted context accepted es path :
  (∀ e, e ∈ es → e ∈ accepted ∨ access e = Deny) →
  can_read (resolve_access (restricted es) path context) = true → decided_below context accepted es path.
Proof.
  intros Hes Hread. assert (Hne : resolve_access (restricted es) path context ≠ Deny) by (by destruct (resolve_access (restricted es) path context)).
  destruct (resolve_access_judged (restricted es) context path eq_refl Hne) as [Hj Hd]. split; [done|].
  destruct (resolve_access_cases (restricted es) context path eq_refl Hj Hd) as [(p & d & Hcov & Htop)|[? _]]; [|done].
  destruct Hcov as ((e & He & Hea & Hep & Hec)%elem_of_resolved & Hst & Hd'). exists e, p, d. rewrite Hea.
  split_and!; try done. destruct (Hes e He) as [?|?]; [done|congruence].
Qed.

(** What an entry that does not deny covers is readable where no denial is as deep. *)
Lemma covered_readable es context path e p d :
  judged context path → measured (restricted es) context → e ∈ es → access e ≠ Deny →
  p ∈ entry_targets context (entry_path e) → infer_path_convention p = infer_path_convention (cwd context) →
  path_starts_with path p = true → lexical_depth p = Some d →
  (∀ q n, covers (restricted es) context path q Deny n → n < d) →
  can_read (resolve_access (restricted es) path context) = true.
Proof.
  intros Hj Hm He Ha Hep Hec Hst Hd Hdeny. pose proof (proj2 (with_depths_is_Some (resolved_entries (restricted es) context)) Hm) as Hes.
  assert (Hce : covers (restricted es) context path p (access e) d) by (split; [apply elem_of_resolved; eauto 10|done]).
  destruct (resolve_access_cases (restricted es) context path eq_refl Hj Hes) as [(q & dq & Hcq & Htopq)|[_ Hno]];
    [|by destruct (Hno _ _ _ Hce)].
  destruct (resolve_access (restricted es) path context) eqn:Hgx; [done..|exfalso].
  pose proof (Hdeny q dq Hcq). apply Htopq in Hce. lia.
Qed.

(** ** Denials as they are enforced *)

(** A path is read if an entry allows it and the matcher of denials does not match it. *)
Definition read_denied p context path : bool :=
  match read_deny_from_context build_glob p context with Some m => matches_prepared_read_deny path context m | None => false end.
Definition effectively_readable p context path : Prop :=
  can_read (resolve_access p path context) = true ∧ read_denied p context path = false.

Definition candidate (convention : PathConvention) path : str :=
  match convention with
  | PosixPaths => decoded_path path
  | WindowsPaths => replace_char 92 47 (inferred_native_path_string path)
  end.
(** What a denied pattern matches. *)
Definition glob_denies context (pattern : str) path : Prop :=
  ∃ c native f, infer_path_convention (cwd context) = Some c ∧ deny_read_glob context pattern = Some native ∧
    build_glob_matcher build_glob native c = Some f ∧ f (candidate c path) = true.
(** All of it lies below the place that stands for the pattern in an intersection. *)
Definition anchored context (pattern : str) : Prop :=
  ∀ path prefix, judged context path → glob_denies context pattern path →
    glob_static_prefix_path pattern context = Some prefix → path_starts_with path prefix = true.
Definition anchored_globs context es : Prop :=
  ∀ x pattern, x ∈ es → access x = Deny → entry_path x = GlobPattern pattern → anchored context pattern.
Definition buildable p context : Prop := invalid_pattern (prepare_deny_read_matcher build_glob p context) = false.

Definition at_root context root : bool :=
  match file_system_root context with Some fsr => path_starts_with root fsr && path_starts_with fsr root | None => false end.
(** An entry by which a path is denied. *)
Definition denied_by p context path (x : FileSystemSandboxEntry) : Prop := x ∈ entries p ∧ access x = Deny ∧
  ((∃ q, q ∈ entry_targets context (entry_path x) ∧ infer_path_convention q = infer_path_convention (cwd context) ∧
      at_root context q = false ∧ path_starts_with path q = true) ∨
   (∃ pattern, entry_path x = GlobPattern pattern ∧ glob_denies context pattern path)).

Lemma prepared_roots p context : denied_roots (prepare_deny_read_matcher build_glob p context) =
  fst <$> List.filter (λ r, bool_decide (r.2 = Deny) && negb (at_root context r.1)) (resolved_entries p context).
Proof. unfold prepare_deny_read_matcher. destruct (infer_path_convention (cwd context)); [destruct (deny_read_globs p context)|]; reflexivity. Qed.

Lemma elem_prepared_roots p context q : q ∈ denied_roots (prepare_deny_read_matcher build_glob p context) ↔
  ∃ x, x ∈ entries p ∧ access x = Deny ∧ q ∈ entry_targets context (entry_path x) ∧
    infer_path_convention q = infer_path_convention (cwd context) ∧ at_root context q = false.
Proof.
  rewrite prepared_roots, list_elem_of_fmap. split.
  - intros ([q' m] & -> & [H (Hm%bool_decide_eq_true & Hr%negb_true_iff)%andb_true_iff]%elem_of_filterb). cbn [fst snd] in *. subst m.
    apply elem_of_resolved in H as (x & ? & ? & ? & ?). by exists x.
  - intros (x & ? & ? & ? & ? & Hr). exists (q, Deny). split; [done|]. apply elem_of_filterb. cbn [fst snd]. rewrite Hr. split; [|done].
    apply elem_of_resolved. by exists x.
Qed.

Lemma elem_deny_patterns p pattern : pattern ∈ deny_patterns p ↔
  ∃ x, x ∈ entries p ∧ access x = Deny ∧ entry_path x = GlobPattern pattern.
Proof.
  unfold deny_patterns. rewrite list_elem_of_omap. unfold is_deny. setoid_rewrite elem_of_filterb. setoid_rewrite bool_decide_eq_true. split.
  - intros (x & [? ?] & Hx). exists x. by destruct (entry_path x); simplify_eq.
  - intros (x & ? & ? & Hx). exists x. by rewrite Hx.
Qed.

(** What the prepared matcher matches: what an entry denies, or all of it when a pattern cannot be built. *)
Lemma prepared_denies p context path : judged context path →
  matches_prepared_read_deny path context (prepare_deny_read_matcher build_glob p context) = true ↔
  ¬ buildable p context ∨ ∃ x, denied_by p context path x.
Proof.
  intros (c & Hc & Hp & [n Hn] & [k Hk]). unfold matches_prepared_read_deny, buildable. rewrite Hc, Hn, Hk.
  rewrite bool_decide_eq_true_2, !bool_decide_eq_false_2 by done. cbn [negb orb].
  destruct (invalid_pattern _) eqn:Hi; [split; [by left|done]|]. fold (candidate c path). rewrite orb_true_iff, !existsb_elem.
  assert (∀ f, f ∈ deny_read_matchers (prepare_deny_read_matcher build_glob p context) ↔ ∃ x pattern native, x ∈ entries p ∧ access x = Deny ∧
    entry_path x = GlobPattern pattern ∧ deny_read_glob context pattern = Some native ∧ build_glob_matcher build_glob native c = Some f) as Hf.
  { unfold prepare_deny_read_matcher in *. rewrite Hc in *. destruct (deny_read_globs p context) as [natives|] eqn:Hg; [|done].
    apply mapM_Some in Hg. intros f. cbn [deny_read_matchers]. rewrite list_elem_of_omap. setoid_rewrite list_elem_of_fmap. split.
    - intros (o & (native & -> & Hin) & Hb). apply list_elem_of_lookup in Hin as [i Hin].
      destruct (Forall2_lookup_r _ _ _ _ _ Hg Hin) as (pattern & Hpat & Hd). apply list_elem_of_lookup_2, elem_deny_patterns in Hpat as (x & ? & ? & ?).
      by exists x, pattern, native.
    - intros (x & pattern & native & Hx & Ha & He & Hd & Hb). exists (Some f). split; [|done]. exists native. split; [done|].
      assert (pattern ∈ deny_patterns p) as Hin by (apply elem_deny_patterns; eauto). apply list_elem_of_lookup in Hin as [i Hin].
      destruct (Forall2_lookup_l _ _ _ _ _ Hg Hin) as (native' & Hin' & Hd'). replace native with native' by congruence. by eapply list_elem_of_lookup_2. }
  setoid_rewrite elem_prepared_roots. setoid_rewrite Hf. split.
  - intros [(q & (x & ? & ? & ? & ? & ?) & ?)|(f & (x & pattern & native & ? & ? & ? & ? & ?) & ?)]; right; exists x; (split_and!; [done..|]).
    + left. by exists q.
    + right. exists pattern. split; [done|]. by exists c, native, f.
  - intros [[]|(x & Hx & Ha & [(q & ? & ? & ? & ?)|(pattern & He & c' & native & f & Hc' & ? & Hb & Hcand)])]; [done| |].
    + left. exists q. split; [|done]. by exists x.
    + right. assert (c' = c) as -> by congruence. exists f. split; [|done]. by exists x, pattern, native.
Qed.

Lemma read_denied_iff p context path : judged context path →
  read_denied p context path = true ↔ existsb is_deny (entries p) = true ∧ ¬ buildable p context ∨ ∃ x, denied_by p context path x.
Proof.
  intros Hj. unfold read_denied, read_deny_from_context. destruct (existsb is_deny (entries p)) eqn:Hd.
  - rewrite prepared_denies by done. tauto.
  - split; [done|]. intros [[? _]|(x & Hx & Ha & _)]; [done|]. rewrite <-Hd. apply existsb_elem. exists x. split; [done|].
    by apply bool_decide_eq_true.
Qed.

(** A denial of a source that matches a path below an accepted grant is kept. *)
Lemma kept_matches context accepted es src path e p d :
  settled context e → e ∈ accepted → access e ≠ Deny → judged context path →
  p ∈ entry_targets context (entry_path e) → path_starts_with path p = true → lexical_depth p = Some d →
  (∀ x, x ∈ src → settled context x) → anchored_globs context src → (existsb is_deny src = true → buildable (restricted src) context) →
  (∀ x, x ∈ src → access x = Deny → deny_entry_constrains_accepted_grant x accepted context = true → x ∈ es) →
  read_denied (restricted es) context path = false → read_denied (restricted src) context path = false.
Proof.
  intros Hse Hin Hacc Hj Hp Hst Hd Hset Hanc Hb Hkeep Hes. apply not_true_iff_false. rewrite read_denied_iff by done.
  intros [[? []]|(x & Hx & Hxa & Hxd)]; [by apply Hb|]. cbn [entries restricted] in Hx.
  assert (x ∈ es) as Hxes.
  { apply Hkeep; [done..|]. destruct Hxd as [(q & Hq & _ & _ & Hs)|(pattern & Hg & Hm)].
    - destruct Hj as (c & _ & _ & [n Hn] & _). destruct (starts_with_depth path q n Hs Hn) as (m & Hm & _).
      eapply (constrains_common context accepted e x p q path); eauto.
    - unfold deny_entry_constrains_accepted_grant. apply existsb_elem. exists e. split; [done|].
      replace (can_read (access e)) with true by (by destruct (access e)). cbn [andb].
      destruct (is_root_entry e); [done|]. cbn [orb]. rewrite (Hse p Hp), Hg.
      destruct (glob_static_prefix_path pattern context) as [prefix|] eqn:Hpre; [|done].
      pose proof (Hanc x pattern Hx Hxa Hg path prefix Hj Hm Hpre) as Hs.
      destruct Hj as (c & _ & _ & [n Hn] & _). destruct (starts_with_depth path prefix n Hs Hn) as (m & Hm' & _).
      by eapply (overlap_common path). }
  assert (read_denied (restricted es) context path = true) as Ht; [|by rewrite Ht in Hes].
  apply read_denied_iff; [done|]. right. by exists x.
Qed.

(** An accepted grant of a place was not matched by the request's denials. *)
Lemma within_request_buildable requested req e context path :
  granted_file_system_entry_within_request requested (restricted req) (read_deny_from_context build_glob (restricted req) context) e context = true →
  resolve_permission_path (entry_path e) context = Some path → judged context path →
  existsb is_deny req = true → buildable (restricted req) context.
Proof.
  unfold granted_file_system_entry_within_request. intros H Hp Hj Hd. rewrite Hp in H.
  repeat match type of H with (if ?b then _ else _) = true => destruct b eqn:?; [done|] end.
  unfold buildable. destruct (invalid_pattern _) eqn:Hi; [|done]. exfalso.
  match goal with E : _ || _ = false |- _ => apply orb_false_iff in E as [_ E]; revert E end.
  unfold read_deny_from_context. cbn [entries restricted]. rewrite Hd. apply not_false_iff_true. apply prepared_denies; [done|]. left.
  unfold buildable. by rewrite Hi.
Qed.

(** C30: what the intersection of a request and a grant lets a command read, the
    request asked for and the grant allows. First, by the entries that name places: a
    path that the resulting entries make readable is readable under the requested
    entries and, where the depths of the granted entries are known, under the granted
    ones, denials inside the granted directories included. Second, with the denied
    patterns as they are enforced: a path that is readable under the result and not
    matched by its denials is not matched by those of the request either, nor by
    those of the grant where its patterns can be built, if what each denied pattern
    matches lies below the pattern's static prefix, which the intersection compares. *)
Theorem intersection_reads_sound requested granted context fs req gra path :
  intersect_file_system build_glob requested granted context = Some fs →
  materialize_context_dependent_entries (perm_entries requested) context = Some req →
  materialize_context_dependent_entries (perm_entries granted) context = Some gra →
  (can_read (resolve_access (restricted (perm_entries fs)) path context) = true →
   can_read (resolve_access (restricted req) path context) = true ∧
   (measured (restricted gra) context → can_read (resolve_access (restricted gra) path context) = true)) ∧
  (effectively_readable (restricted (perm_entries fs)) context path →
   (anchored_globs context req → effectively_readable (restricted req) context path) ∧
   (anchored_globs context gra → measured (restricted gra) context → buildable (restricted gra) context →
    effectively_readable (restricted gra) context path)).
Proof.
  intros Hint Hreq Hgra.
  destruct (intersect_entries _ _ _ _ Hint) as (req' & gra' & accepted & Hreq' & Hgra' & Hacc & Hfs).
  assert (req' = req) as -> by congruence. assert (gra' = gra) as -> by congruence. clear Hreq' Hgra' Hint.
  assert (can_read (resolve_access (restricted (perm_entries fs)) path context) = true →
    decided_below context accepted (perm_entries fs) path) as Hdec.
  { apply decided_by_accepted. intros e. rewrite Hfs. intros [?|(_ & ? & _)]; auto. }
  assert (∀ x, x ∈ accepted → settled context x ∧ access x ≠ Deny) as Hset.
  { intros x [Hx Hw]%Hacc. split; [by eapply (materialize_settled context (perm_entries granted))|by eapply within_request_reads]. }
  assert (∀ src, (src = req ∨ src = gra) → ∀ x, x ∈ src → access x = Deny →
    deny_entry_constrains_accepted_grant x accepted context = true → x ∈ perm_entries fs) as Hkeep.
  { intros src [-> | ->] x ???; apply Hfs; auto 6. }
  assert (can_read (resolve_access (restricted (perm_entries fs)) path context) = true →
    can_read (resolve_access (restricted req) path context) = true ∧
    (measured (restricted gra) context → can_read (resolve_access (restricted gra) path context) = true)) as H1.
  { intros (Hj & e & p & d & Hin & Hep & Hec & Hst & Hd & Htop)%Hdec. destruct (Hset e Hin) as [Hse Hrd].
    pose proof (proj1 (Hacc e) Hin) as [Heg Hwithin]. split.
    - apply (readable_below req context path p d); [done..| |].
      + pose proof (within_request_covers _ _ _ _ _ p Hwithin (Hse p Hep)) as Hcv. intros HD. rewrite HD in Hcv. by destruct (access e).
      + eapply (kept_denials context accepted (perm_entries fs) req); eauto using materialize_settled.
    - intros Hm. apply (covered_readable gra context path e p d); try done.
      eapply (kept_denials context accepted (perm_entries fs) gra); eauto using materialize_settled. }
  split; [done|]. intros [Hread Hden]. destruct (H1 Hread) as [H1r H1g].
  destruct (Hdec Hread) as (Hj & e & p & d & Hin & Hep & Hec & Hst & Hd & Htop). destruct (Hset e Hin) as [Hse Hrd].
  pose proof (proj1 (Hacc e) Hin) as [Heg Hwithin]. split; intros Hanc; [|intros Hm Hb]; (split; [by auto|]).
  - eapply (kept_matches context accepted (perm_entries fs) req path e p d); eauto using materialize_settled.
    intros Hx. eapply within_request_buildable; [exact Hwithin|by apply Hse| |done].
    destruct Hj as (c & Hc & Hp & Hn & Hk). exists c. rewrite Hec. split_and!; eauto.
  - eapply (kept_matches context accepted (perm_entries fs) gra path e p d); eauto using materialize_settled.
Qed.

(** The intersection grants no more than either side at the places it
    names: an entry that does not deny is one of the granted entries, the
    requested policy covers its access at its path, and the network is on only
    if it was requested and granted. *)
Theorem intersection_within_request requested granted context :
  let a := intersect_permission_profiles_with_context build_glob requested granted context in
  (add_network a ≠ None ↔ add_network requested = Some net_on ∧ add_network granted = Some net_on) ∧
  (∀ fs, add_file_system a = Some fs →
   ∃ r req gra, add_file_system requested = Some r ∧
     materialize_context_dependent_entries (perm_entries r) context = Some req ∧
     materialize_context_dependent_entries
       (perm_entries (default default_perms (add_file_system granted))) context = Some gra ∧
     ∀ e, e ∈ perm_entries fs → access e ≠ Deny →
       e ∈ gra ∧ ∀ path, resolve_permission_path (entry_path e) context = Some path →
         access_covers (resolve_access (restricted req) path context) (access e) = true).
Proof.
  intros a. split.
  - unfold a; cbn. unfold is_net_on. repeat case_bool_decide; cbn; naive_solver.
  - intros fs. unfold a; cbn. destruct (add_file_system requested) as [r|]; [|done]. cbn.
    destruct (intersect_file_system _ _ _ _) as [fs'|] eqn:Hint; [|done]. cbn.
    destruct (negb (perms_is_empty fs')); [|done]. intros [= <-].
    destruct (intersect_entries _ _ _ _ Hint) as (req & gra & accepted & Hreq & Hgra & Hacc & Hfs).
    exists r, req, gra. split_and!; [done..|]. intros e He Hne.
    apply Hfs in He as [Hin|(_ & ? & _)]; [|done]. apply Hacc in Hin as [Hin Hwithin].
    split; [done|]. intros path Hp. exact (within_request_covers _ _ _ _ _ _ Hwithin Hp).
Qed.
End intersection.

(** ** Effective permissions *)
Section effective.
Context {PU : PathUris} {LP : LawfulPathUris}.
Implicit Types (context : FileSystemSandboxPolicyContext) (path : PathUri) (p : FileSystemSandboxPolicy).

(** Additional permissions act only through their own entries: a path is
    denied, or has the access the policy alone gives it, or one of the added
    entries decides it; an unrestricted or external policy stays as it is. *)
Theorem effective_policy_local p additional context path :
  let p' := effective_file_system_sandbox_policy p additional in
  (is_restricted p = false → p' = p) ∧
  (resolve_access p' path context = Deny ∨ resolve_access p' path context = resolve_access p path context ∨
   ∃ a fs e root d, additional = Some a ∧ add_file_system a = Some fs ∧ e ∈ perm_entries fs ∧ e ∉ entries p ∧
     access e = resolve_access p' path context ∧ root ∈ entry_targets context (entry_path e) ∧
     covers p' context path root (access e) d).
Proof.
  intros p'. unfold p', effective_file_system_sandbox_policy.
  destruct additional as [a|]; [|auto]. destruct (add_file_system a) as [fs|] eqn:Hfs; [|auto].
  destruct (perms_is_empty fs); [auto|]. unfold merge_file_system_policy_with_additional_permissions.
  destruct (policy_kind p) eqn:Hk; [|split; [auto|right; by left]..].
  assert (Hr : is_restricted p = true) by (by apply bool_decide_eq_true).
  split; [congruence|]. set (q := mkFsPolicy Restricted _ _).
  destruct (decide (resolve_access q path context = Deny)) as [|Hne]; [by left|right].
  destruct (added_entries_decide p q context path Hr eq_refl) as [?|(e & root & d & He & Hnot & Hacc & Ht & Hc)].
  - intros e He. apply (elem_of_push_all (entries p) (perm_entries fs) e). by left.
  - done.
  - by left.
  - right. apply (elem_of_push_all (entries p) (perm_entries fs) e) in He as [?|He]; [done|].
    exists a, fs, e, root, d. rewrite Hacc. split_and!; done.
Qed.

(** Computing the effective profile never reaches its unreachable case; it
    keeps who enforces the sandbox, and the network is on exactly when the
    profile has it or the additional permissions turn it on. *)
Theorem effective_profile_spec profile additional :
  profile_ok profile →
  ∃ profile', effective_permission_profile profile additional = Some profile' ∧
    enforcement profile' = enforcement profile ∧
    (profile ≠ Disabled →
     network_sandbox_policy profile' = NetEnabled ↔
     network_sandbox_policy profile = NetEnabled ∨
     ∃ a n, additional = Some a ∧ add_network a = Some n ∧ net_enabled n = Some true).
Proof.
  intros Hok. unfold effective_permission_profile, to_runtime_permissions.
  set (n' := effective_network_sandbox_policy _ _).
  assert (Hn' : n' = NetEnabled ↔ network_sandbox_policy profile = NetEnabled ∨
     ∃ a n, additional = Some a ∧ add_network a = Some n ∧ net_enabled n = Some true).
  { unfold n', effective_network_sandbox_policy, merge_network_access, net_is_enabled.
    destruct additional as [a|]; [|naive_solver]. case_bool_decide; cbn [orb]; [naive_solver|].
    destruct (add_network a) as [[[[]|]]|] eqn:Ha; cbn; naive_solver. }
  destruct profile as [[es depth|] n| |n]; cbn [file_system_sandbox_policy to_sandbox_policy enforcement] in *.
  - assert (Hkind : policy_kind (effective_file_system_sandbox_policy (mkFsPolicy Restricted depth es) additional) = Restricted).
    { unfold effective_file_system_sandbox_policy. repeat case_match; done. }
    unfold from_runtime_permissions_with_enforcement, from_sandbox_policy. rewrite Hkind. cbn.
    eexists. split; [done|]. split; [done|]. intros _. exact Hn'.
  - assert (Hp : effective_file_system_sandbox_policy unrestricted additional = unrestricted).
    { unfold effective_file_system_sandbox_policy. repeat case_match; done. }
    rewrite Hp. eexists. split; [done|]. split; [done|]. intros _. exact Hn'.
  - assert (Hp : effective_file_system_sandbox_policy unrestricted additional = unrestricted).
    { unfold effective_file_system_sandbox_policy. repeat case_match; done. }
    rewrite Hp. eexists. split; [done|]. split; [done|]. done.
  - assert (Hp : effective_file_system_sandbox_policy external_sandbox additional = external_sandbox).
    { unfold effective_file_system_sandbox_policy. repeat case_match; done. }
    rewrite Hp. eexists. split; [done|]. split; [done|]. intros _. exact Hn'.
Qed.

(** ** Normalisation *)
Lemma normalize_entries_spec es acc es' :
  NoDup acc → normalize_entries acc es = Ok es' →
  NoDup es' ∧ (∀ e, e ∈ es' ↔ e ∈ acc ∨ e ∈ es) ∧ Forall (λ e, is_glob e = true → access e = Deny) es.
Proof.
  revert acc. induction es as [|e es IH]; intros acc Hnd; cbn [normalize_entries].
  { intros [= <-]. split_and!; [done|set_solver|constructor]. }
  destruct (is_glob e && negb (is_deny e)) eqn:Hg; [done|]. intros H.
  apply IH in H as (Hnd' & Hel & Hall).
  - split; [done|]. split; [intros x; rewrite Hel, elem_of_push_new; set_solver|].
    constructor; [|done]. intros Hglob. rewrite Hglob in Hg. cbn in Hg. apply negb_false_iff, bool_decide_eq_true in Hg. done.
  - unfold push_new. destruct (contains_entry e acc) eqn:Hc; [done|]. apply NoDup_app. split_and!; [done| |by apply NoDup_singleton].
    intros x Hx ->%list_elem_of_singleton. apply elem_of_contains in Hx. congruence.
Qed.

Lemma normalize_entries_id es acc :
  NoDup (acc ++ es) → Forall (λ e, is_glob e = true → access e = Deny) es → normalize_entries acc es = Ok (acc ++ es).
Proof.
  revert acc. induction es as [|e es IH]; intros acc Hnd Hall; cbn [normalize_entries]; [by rewrite app_nil_r|].
  apply Forall_cons in Hall as [He Hall].
  replace (is_glob e && negb (is_deny e)) with false.
  2:{ symmetry. destruct (is_glob e); [|done]. unfold is_deny. by rewrite bool_decide_true by auto. }
  assert (Hnot : e ∉ acc) by (apply NoDup_app in Hnd as (_ & Hd & _); set_solver).
  replace (push_new acc e) with (acc ++ [e]).
  2:{ unfold push_new. destruct (contains_entry e acc) eqn:Hc; [by apply elem_of_contains in Hc|done]. }
  rewrite IH; [by rewrite <-app_assoc| |done]. by rewrite <-app_assoc.
Qed.

(** Normalised permissions hold each requested entry once, give globs no
    access but denial, and are left alone by normalising again; normalising
    fails exactly on a glob that would allow something. *)
Theorem normalize_additional_spec (a : AdditionalPermissionProfile) :
  match normalize_additional_permissions a with
  | Ok a' =>
      normalize_additional_permissions a' = Ok a' ∧
      ∀ fs, add_file_system a = Some fs →
        Forall (λ e, is_glob e = true → access e = Deny) (perm_entries fs) ∧
        ∃ es, (add_file_system a' = if is_empty es then None else Some (mkFsPerms es (perm_depth fs))) ∧
          NoDup es ∧ ∀ e, e ∈ es ↔ e ∈ perm_entries fs
  | Err _ => ∃ fs e, add_file_system a = Some fs ∧ e ∈ perm_entries fs ∧ is_glob e = true ∧ access e ≠ Deny
  end.
Proof.
  unfold normalize_additional_permissions. destruct a as [net [fs|]]; cbn.
  2:{ split; [|done]. cbn. destruct net as [[[[]|]]|]; done. }
  assert (Herr : ∀ acc err, normalize_entries acc (perm_entries fs) = Err err →
    ∃ e, e ∈ perm_entries fs ∧ is_glob e = true ∧ access e ≠ Deny).
  { induction (perm_entries fs) as [|e es IH]; intros acc err; cbn [normalize_entries]; [done|].
    destruct (is_glob e && negb (is_deny e)) eqn:Hg.
    - intros _. apply andb_true_iff in Hg as [? Hd%negb_true_iff]. apply bool_decide_eq_false in Hd.
      exists e. split; [left|done].
    - intros (x & ? & ?)%IH. exists x. split; [by right|done]. }
  destruct (normalize_entries [] (perm_entries fs)) as [es|err] eqn:Hn; cbn.
  2:{ destruct (Herr _ _ Hn) as (e & ?). eauto. }
  destruct (normalize_entries_spec _ _ _ (NoDup_nil_2) Hn) as (Hnd & Hel & Hall). split.
  - destruct es as [|x es]; [cbn; destruct net as [[[[]|]]|]; done|].
    assert (Hall' : Forall (λ e, is_glob e = true → access e = Deny) (x :: es)).
    { rewrite Forall_forall in Hall |- *. intros e He. apply Hall. apply Hel in He as [[]%elem_of_nil|?]. done. }
    pose proof (normalize_entries_id (x :: es) [] Hnd Hall') as Hid. cbn [app] in Hid.
    cbn [is_empty perms_is_empty negb perm_entries add_file_system add_network]. rewrite Hid. cbn.
    destruct net as [[[[]|]]|]; done.
  - intros fs' [= <-]. split; [done|]. exists es. split; [by destruct es|]. split; [done|].
    intros e. rewrite Hel. split; [intros [[]%elem_of_nil|?]; done|auto].
Qed.
End effective.

(** ** Instances *)
Definition no_glob (_ : str) (_ : PathConvention) : option (str → bool) := None.
Definition grant (segments : list str) (m : FileSystemAccessMode) : FileSystemSandboxEntry :=
  new_entry (PathEntry segments) m.
Definition demo_request : FileSystemPermissions :=
  mkFsPerms [grant [ $"w"] Write; grant [ $"w"; $"secret"] Deny] None.
Definition demo_grant : FileSystemPermissions := mkFsPerms [grant [ $"w"] Write; grant [ $"etc"] Read] None.
Definition demo_intersection : FileSystemPermissions :=
  mkFsPerms [grant [ $"w"] Write; grant [ $"w"; $"secret"] Deny] None.

Lemma intersection_reads_sound_witness :
  intersect_file_system no_glob demo_request demo_grant demo_context = Some demo_intersection ∧
  can_read (resolve_access (restricted (perm_entries demo_request)) [ $"w"; $"a"] demo_context) = true ∧
  effectively_readable no_glob (restricted (perm_entries demo_grant)) demo_context [ $"w"; $"a"].
Proof.
  split; [vm_compute; reflexivity|].
  destruct (intersection_reads_sound no_glob demo_request demo_grant demo_context demo_intersection
           (perm_entries demo_request) (perm_entries demo_grant) [ $"w"; $"a"]) as [H1 H2]; [vm_compute; reflexivity..|].
  assert (can_read (resolve_access (restricted (perm_entries demo_intersection)) [ $"w"; $"a"] demo_context) = true) as Hr
    by (vm_compute; reflexivity).
  split; [exact (proj1 (H1 Hr))|].
  apply H2; [split; [exact Hr|vm_compute; reflexivity]| | |vm_compute; reflexivity].
  - intros x pattern Hx Ha. apply list_elem_of_In in Hx as [<- | [<- | []]]; discriminate.
  - intros root m _. left. eexists. reflexivity.
Defined.

(** A denied pattern with a wildcard, kept by the intersection and enforced. *)
Definition glob_deny (pattern : string) : FileSystemSandboxEntry := new_entry (GlobPattern (lit pattern)) Deny.
Definition secrets (pattern : str) (_ : PathConvention) : option (str → bool) :=
  Some (λ path, if bool_decide (pattern = $"/w/*/secret") || bool_decide (pattern = $"/w/{a,b}/secret")
                then bool_decide (path = $"/w/a/secret") || bool_decide (path = $"/w/b/secret") else bool_decide (path = pattern)).
Definition denied_in (es : list FileSystemSandboxEntry) (path : PathUri) : bool := read_denied secrets (restricted es) demo_context path.
Example star_denial_kept :
  let requested := mkFsPerms [grant [ $"w"] Read; glob_deny "/w/*/secret"] None in
  match intersect_file_system secrets requested (mkFsPerms [grant [ $"w"; $"a"] Read] None) demo_context with
  | Some fs => denied_in (perm_entries fs) [ $"w"; $"a"; $"secret"] = true | None => False end.
Proof. vm_compute. reflexivity. Qed.
(** A pattern with alternatives is not anchored: its static prefix is taken to be all
    of it, so the intersection drops the denial and the path becomes readable. *)
Example brace_denial_dropped :
  let requested := mkFsPerms [grant [ $"w"] Read; glob_deny "/w/{a,b}/secret"] None in
  match intersect_file_system secrets requested (mkFsPerms [grant [ $"w"; $"a"] Read] None) demo_context with
  | Some fs => denied_in (perm_entries requested) [ $"w"; $"a"; $"secret"] = true ∧
      denied_in (perm_entries fs) [ $"w"; $"a"; $"secret"] = false ∧
      can_read (resolve_access (restricted (perm_entries fs)) [ $"w"; $"a"; $"secret"] demo_context) = true
  | None => False end.
Proof. vm_compute. repeat split. Qed.

Lemma effective_profile_spec_witness :
  ∃ profile', effective_permission_profile (Managed ManagedUnrestricted NetRestricted)
                (Some (mkAdditional (Some net_on) None)) = Some profile' ∧ network_sandbox_policy profile' = NetEnabled.
Proof.
  destruct (effective_profile_spec (Managed ManagedUnrestricted NetRestricted) (Some (mkAdditional (Some net_on) None)) I)
    as (profile' & H & _ & Hn).
  exists profile'. split; [exact H|]. apply Hn; [discriminate|]. right. exists (mkAdditional (Some net_on) None), net_on. auto.
Defined.

Lemma intersection_within_request_witness :
  add_network (intersect_permission_profiles_with_context no_glob
    (mkAdditional (Some net_on) (Some demo_request)) (mkAdditional None (Some demo_grant)) demo_context) = None ∧
  ∃ gra, materialize_context_dependent_entries (perm_entries demo_grant) demo_context = Some gra ∧
    grant [ $"w"] Write ∈ gra.
Proof.
  destruct (intersection_within_request no_glob (mkAdditional (Some net_on) (Some demo_request))
              (mkAdditional None (Some demo_grant)) demo_context) as [_ Hfs].
  split; [vm_compute; reflexivity|].
  destruct (Hfs demo_intersection) as (r & req & gra & _ & _ & Hgra & Hin); [vm_compute; reflexivity|].
  exists gra. split; [exact Hgra|]. apply (Hin (grant [ $"w"] Write)); [left|discriminate].
Defined.

Lemma effective_policy_local_witness :
  resolve_access (effective_file_system_sandbox_policy (restricted []) (Some (mkAdditional None (Some demo_grant))))
    [ $"etc"] demo_context = Read ∧
  effective_file_system_sandbox_policy unrestricted (Some (mkAdditional None (Some demo_grant))) = unrestricted.
Proof.
  split; [vm_compute; reflexivity|].
  apply (effective_policy_local unrestricted (Some (mkAdditional None (Some demo_grant))) demo_context [ $"etc"]).
  reflexivity.
Defined.

(** A read entry below a write entry narrows the request, but is not kept by
    the intersection: the path becomes writable. *)
Theorem intersection_drops_read_carveout :
  let requested := mkFsPerms [grant [ $"w"] Write; grant [ $"w"; $"docs"] Read] None in
  let granted := mkFsPerms [grant [ $"w"] Write] None in
  ∃ fs, intersect_file_system no_glob requested granted demo_context = Some fs ∧
    resolve_access (restricted (perm_entries requested)) [ $"w"; $"docs"] demo_context = Read ∧
    resolve_access (restricted (perm_entries fs)) [ $"w"; $"docs"] demo_context = Write.
Proof. eexists. split; [vm_compute; reflexivity|]. split; vm_compute; reflexivity. Qed.
