(* ===== verification/ExecApproval.v ===== *)
(** * Approval of commands: [core/src/exec_policy.rs], [exec_policy/model_policy.rs],
    [exec_policy/executable_identity.rs] and the requirement types of
    [core/src/tools/sandboxing.rs]

    Whether a command runs without asking, is put to the user or is refused.
    The command is first split into the commands its shell script is made of;
    the rules of the policy and, for commands no rule matches, a heuristic
    decide each of them; the strictest decision, read against the user's
    approval setting, gives the requirement. An approval can leave behind an
    amendment of the policy, which is appended to the rules file and added to
    the policy in memory.

    The policy is that of [ExecPolicy], the split that of [BashParser] and
    [PowerShellParser], the heuristic uses [DangerousCommand] and the profiles
    of [Permissions]. *)

From stdpp Require Import prelude list strings gmap.
From S2P Require Import Prelude BashParser Truncate DangerousCommand PowerShellParser ExecPolicy ExecPolicyBuilder Permissions.

(** ** Settings *)
Record GranularApprovalConfig := mkGranular {
  sandbox_approval : bool;
  rules_approval : bool;
  skill_approval : bool;
  request_permissions : bool;
  mcp_elicitations : bool
}.
Inductive AskForApproval : Type :=
| UnlessTrusted
| OnRequest
| Granular (config : GranularApprovalConfig)
| Never.

Inductive SandboxPermissions : Type := UseDefault | RequireEscalated | WithAdditionalPermissions.
Definition requires_escalated_permissions (s : SandboxPermissions) : bool :=
  match s with RequireEscalated => true | _ => false end.
Definition requests_sandbox_override (s : SandboxPermissions) : bool :=
  match s with UseDefault => false | _ => true end.

Inductive WindowsSandboxLevel : Type := WindowsDisabled | RestrictedToken | Elevated.
Inductive AllowPrefixRules : Type := Honor | IgnoreForCyberModel.
Inductive ExecPolicyCommandOrigin : Type := GenericOrigin | PowerShellOrigin.
Inductive UnifiedExecShellMode : Type := Direct | ZshFork.

#[global] Instance AllowPrefixRules_eq_dec : EqDecision AllowPrefixRules.
Proof. solve_decision. Defined.
#[global] Instance WindowsSandboxLevel_eq_dec : EqDecision WindowsSandboxLevel.
Proof. solve_decision. Defined.

Record ExecPolicyCommands := mkCommands { commands : list (list str); command_origin : ExecPolicyCommandOrigin }.

(** [ExecPolicyAmendment] is a command prefix. *)
Inductive ExecApprovalRequirement : Type :=
| Skip (bypass_sandbox : bool) (proposed : option (list str))
| NeedsApproval (reason : option str) (proposed : option (list str))
| Refused (reason : str).

Definition proposed_execpolicy_amendment (r : ExecApprovalRequirement) : option (list str) :=
  match r with Skip _ p | NeedsApproval _ p => p | Refused _ => None end.

Definition PROMPT_CONFLICT_REASON : str := $"approval required by policy, but AskForApproval is set to Never".
Definition REJECT_SANDBOX_APPROVAL_REASON : str :=
  $"approval required by policy, but AskForApproval::Granular.sandbox_approval is false".
Definition REJECT_RULES_APPROVAL_REASON : str :=
  $"approval required by policy rule, but AskForApproval::Granular.rules is false".

Definition prompt_is_rejected_by_policy (approval_policy : AskForApproval) (prompt_is_rule : bool) : option str :=
  match approval_policy with
  | Never => Some PROMPT_CONFLICT_REASON
  | OnRequest | UnlessTrusted => None
  | Granular config =>
      if prompt_is_rule then
        if negb (rules_approval config) then Some REJECT_RULES_APPROVAL_REASON else None
      else if negb (sandbox_approval config) then Some REJECT_SANDBOX_APPROVAL_REASON
      else None
  end.

Definition BANNED_PREFIX_SUGGESTIONS : list (list str) :=
  [[ $"/bin/bash"]; [ $"/bin/bash"; $"-c"]; [ $"/bin/bash"; $"-lc"];
   [ $"/bin/sh"]; [ $"/bin/sh"; $"-c"]; [ $"/bin/sh"; $"-lc"];
   [ $"/bin/zsh"]; [ $"/bin/zsh"; $"-c"]; [ $"/bin/zsh"; $"-lc"];
   [ $"Rscript"]; [ $"bash"]; [ $"bash"; $"-c"]; [ $"bash"; $"-lc"];
   [ $"bun"]; [ $"bun"; $"-e"]; [ $"bun"; $"run"];
   [ $"cmd"]; [ $"cmd"; $"/c"]; [ $"cmd"; $"/k"];
   [ $"cmd.exe"]; [ $"cmd.exe"; $"/c"]; [ $"cmd.exe"; $"/k"];
   [ $"dash"]; [ $"dash"; $"-c"]; [ $"deno"]; [ $"deno"; $"eval"]; [ $"env"];
   [ $"fish"]; [ $"fish"; $"-c"]; [ $"git"]; [ $"julia"]; [ $"julia"; $"-e"];
   [ $"ksh"]; [ $"ksh"; $"-c"]; [ $"lua"]; [ $"lua"; $"-e"];
   [ $"node"]; [ $"node"; $"-e"]; [ $"nodejs"]; [ $"nodejs"; $"-e"]; [ $"npm"; $"run"];
   [ $"osascript"]; [ $"perl"]; [ $"perl"; $"-e"]; [ $"php"]; [ $"php"; $"-r"]; [ $"pnpm"; $"run"];
   [ $"powershell"]; [ $"powershell"; $"-Command"]; [ $"powershell"; $"-EncodedCommand"];
   [ $"powershell"; $"-File"]; [ $"powershell"; $"-c"];
   [ $"powershell.exe"]; [ $"powershell.exe"; $"-Command"]; [ $"powershell.exe"; $"-EncodedCommand"];
   [ $"powershell.exe"; $"-File"]; [ $"powershell.exe"; $"-c"];
   [ $"pwsh"]; [ $"pwsh"; $"-Command"]; [ $"pwsh"; $"-EncodedCommand"]; [ $"pwsh"; $"-File"];
   [ $"pwsh"; $"-c"]; [ $"pwsh"; $"-e"]; [ $"pwsh"; $"-ec"]; [ $"pwsh"; $"-f"];
   [ $"py"]; [ $"py"; $"-3"]; [ $"pypy"]; [ $"pypy3"];
   [ $"python"]; [ $"python"; $"-"]; [ $"python"; $"-c"];
   [ $"python3"]; [ $"python3"; $"-"]; [ $"python3"; $"-c"]; [ $"pythonw"]; [ $"pyw"];
   [ $"rm"]; [ $"ruby"]; [ $"ruby"; $"-e"]; [ $"sh"]; [ $"sh"; $"-c"]; [ $"sh"; $"-lc"];
   [ $"sudo"]; [ $"yarn"; $"run"]; [ $"zsh"]; [ $"zsh"; $"-c"]; [ $"zsh"; $"-lc"]].

(** What the approvals take from outside the kernel: the parsers of shell words,
    of URLs, of bash and of PowerShell, and [shlex::try_join]. *)
Class ShellSyntax := {
  syn_shell_paths :: ShellPaths;
  syn_shlex_split : str → option (list str);
  syn_url_capture : str → option str;
  syn_url_scheme : str → option str;
  syn_parse_shell : str → option Node;
  syn_debug_char : char → str;
  syn_powershell : result str (str → option PsNode);
  syn_try_join : list str → option str
}.

(** [Iterator::max_by_key]: the last of the greatest. *)
Definition max_by_key {A} (key : A → nat) (l : list A) : option A :=
  foldl (λ best x, match best with
                   | Some b => if key b <=? key x then Some x else Some b
                   | None => Some x
                   end) None l.

Section approval.
Context {AP : AbsolutePaths} {PU : PathUris} {SY : ShellSyntax}.
(** [cfg!(windows)] *)
Context (windows : bool).

Definition is_policy_match (m : RuleMatch) : bool :=
  match m with PrefixRuleMatch _ _ _ _ => true | HeuristicsRuleMatch _ _ => false end.
Definition decides (d : Decision) (m : RuleMatch) : bool := bool_decide (match_decision m = d).

(** ** Splitting the command *)
Definition commands_for_exec_policy_for_platform (command : list str) (platform : DangerousCommandPlatform)
    : outcome unit ExecPolicyCommands :=
  let whole := Done (mkCommands [command] GenericOrigin) in
  let powershell :=
    if bool_decide (platform = Windows) then
      let! parsed := parse_powershell_command_into_plain_commands syn_debug_char syn_powershell command in
      match parsed with
      | Some cs => if negb (is_empty cs) then Done (mkCommands cs PowerShellOrigin) else whole
      | None => whole
      end
    else whole in
  match parse_shell_lc_plain_commands syn_parse_shell command with
  | Some cs => if negb (is_empty cs) then Done (mkCommands cs GenericOrigin) else powershell
  | None => powershell
  end.

(** ** The heuristic *)
Definition dangerous_command_match_for_origin (command : list str) (origin : ExecPolicyCommandOrigin)
    (platform : DangerousCommandPlatform) : option DangerousCommandMatch :=
  match origin with
  | GenericOrigin =>
      dangerous_command_match_for_platform syn_shlex_split syn_url_capture syn_url_scheme syn_parse_shell
        platform command
  | PowerShellOrigin => dangerous_powershell_words_match syn_url_capture syn_url_scheme platform command
  end.

Definition dangerous_command_match_for_heuristics (e : Evaluation) (d : Decision)
    (origin : ExecPolicyCommandOrigin) (platform : DangerousCommandPlatform) : option DangerousCommandMatch :=
  find_map (λ m, match m with
                 | HeuristicsRuleMatch command matched_decision =>
                     if bool_decide (matched_decision = d)
                     then dangerous_command_match_for_origin command origin platform else None
                 | PrefixRuleMatch _ _ _ _ => None
                 end) (matched_rules e).

Definition profile_has_managed_filesystem_restrictions (profile : PermissionProfile) : bool :=
  let policy := file_system_sandbox_policy profile in
  match profile with Managed _ _ => true | _ => false end
  && is_restricted policy && negb (has_full_disk_write_access (negb windows) policy).

Record UnmatchedCommandContext := mkUnmatched {
  approval_policy : AskForApproval;
  permission_profile : PermissionProfile;
  windows_sandbox_level : WindowsSandboxLevel;
  sandbox_permissions : SandboxPermissions;
  origin : ExecPolicyCommandOrigin
}.

Definition render_decision_for_unmatched_command_for_platform (command : list str) (ctx : UnmatchedCommandContext)
    (platform : DangerousCommandPlatform) : Decision :=
  let dangerous := dangerous_command_match_for_origin command (origin ctx) platform in
  let policy := file_system_sandbox_policy (permission_profile ctx) in
  let no_sandbox_backend :=
    windows && bool_decide (windows_sandbox_level ctx = WindowsDisabled)
    && profile_has_managed_filesystem_restrictions (permission_profile ctx) in
  let by_sandbox :=
    match policy_kind policy with
    | Unrestricted | ExternalSandbox => Allow
    | Restricted => if requests_sandbox_override (sandbox_permissions ctx) then Prompt else Allow
    end in
  if bool_decide (dangerous ≠ None) || no_sandbox_backend then
    match approval_policy ctx with
    | Never => Forbidden
    | OnRequest | UnlessTrusted | Granular _ => Prompt
    end
  else
    match approval_policy ctx with
    | Never => Allow
    | UnlessTrusted => Prompt
    | OnRequest => by_sandbox
    | Granular _ => by_sandbox
    end.

(** ** Amendments *)
Definition try_derive_execpolicy_amendment_for_prompt_rules (ms : list RuleMatch) : option (list str) :=
  if existsb (λ m, is_policy_match m && decides Prompt m) ms then None else
  find_map (λ m, match m with HeuristicsRuleMatch command Prompt => Some command | _ => None end) ms.

Definition try_derive_execpolicy_amendment_for_allow_rules (ms : list RuleMatch) : option (list str) :=
  if existsb is_policy_match ms then None else
  find_map (λ m, match m with HeuristicsRuleMatch command Allow => Some command | _ => None end) ms.

(** [check_with_options] panics on no match only, which its fallback excludes. *)
Definition prefix_rule_would_approve_all_commands (p : Policy) (prefix_rule : list str) (cmds : list (list str))
    (fallback : list str → Decision) (options : MatchOptions) : bool :=
  match add_prefix_rule p prefix_rule Allow with
  | Err _ => false
  | Ok p' => forallb (λ c, match check_with_options windows p' c fallback options with
                           | Some e => bool_decide (decision e = Allow)
                           | None => false
                           end) cmds
  end.

Definition derive_requested_execpolicy_amendment_from_prefix_rule (prefix_rule : option (list str))
    (ms : list RuleMatch) (p : Policy) (cmds : list (list str)) (fallback : list str → Decision)
    (options : MatchOptions) : option (list str) :=
  match prefix_rule with
  | None => None
  | Some prefix =>
      if is_empty prefix then None
      else if existsb (λ banned, bool_decide (prefix = banned)) BANNED_PREFIX_SUGGESTIONS then None
      else if existsb is_policy_match ms then None
      else if prefix_rule_would_approve_all_commands p prefix cmds fallback options then Some prefix
      else None
  end.

(** ** Reasons *)
Definition render_shlex_command (args : list str) : str := default (join [SPACE] args) (syn_try_join args).
Definition backquoted (s : str) : str := BACKTICK :: s ++ [BACKTICK].

Definition derive_prompt_reason (args : list str) (e : Evaluation) : option str :=
  let command := render_shlex_command args in
  match max_by_key fst (omap (λ m, match m with
                                   | PrefixRuleMatch matched_prefix Prompt _ j => Some (length matched_prefix, j)
                                   | _ => None
                                   end) (matched_rules e)) with
  | Some (_, Some justification) => Some (backquoted command ++ $" requires approval: " ++ justification)
  | Some (_, None) => Some (backquoted command ++ $" requires approval by policy")
  | None => None
  end.

Definition dangerous_command_rejection_reason (m : DangerousCommandMatch) : str :=
  match m with
  | ForcedRm => $"rm -f style commands are not permitted. Use a safer approach"
  | OtherMatch => $"blocked by policy"
  end.

Definition derive_forbidden_reason (args : list str) (e : Evaluation) (dangerous : option DangerousCommandMatch) : str :=
  let command := render_shlex_command args in
  match max_by_key (λ x, length x.1)
          (omap (λ m, match m with
                      | PrefixRuleMatch matched_prefix Forbidden _ j => Some (matched_prefix, j)
                      | _ => None
                      end) (matched_rules e)) with
  | Some (_, Some justification) => backquoted command ++ $" rejected: " ++ justification
  | Some (matched_prefix, None) =>
      backquoted command ++ $" rejected: policy forbids commands starting with "
      ++ backquoted (render_shlex_command matched_prefix)
  | None =>
      match dangerous with
      | Some m => backquoted command ++ $" rejected: " ++ dangerous_command_rejection_reason m
      | None => backquoted command ++ $" rejected: blocked by policy"
      end
  end.

Definition derive_rejected_prompt_reason (fallback_reason : str) (dangerous : option DangerousCommandMatch) : str :=
  match dangerous with
  | Some ForcedRm => dangerous_command_rejection_reason ForcedRm
  | Some OtherMatch | None => fallback_reason
  end.

(** ** The requirement *)
Record ExecApprovalRequest := mkRequest {
  req_command : list str;
  req_approval_policy : AskForApproval;
  req_permission_profile : PermissionProfile;
  req_environment_policy : option Policy;
  req_windows_sandbox_level : WindowsSandboxLevel;
  req_sandbox_permissions : SandboxPermissions;
  req_prefix_rule : option (list str);
  req_allow_prefix_rules : AllowPrefixRules
}.

(** The rules of the policy in force; programs left without a rule have no entry. *)
Definition drop_allow_rules (rules : list PrefixRule) : option (list PrefixRule) :=
  let kept := List.filter (λ r, negb (bool_decide (rule_decision r = Allow))) rules in
  if is_empty kept then None else Some kept.
Definition current_for_prefix_rules (policy : Policy) (allow : AllowPrefixRules) : Policy :=
  match allow with
  | Honor => policy
  | IgnoreForCyberModel =>
      mkPolicy (omap drop_allow_rules (rules_by_program policy)) (network_rules policy)
        (host_executables_by_name policy)
  end.
Definition current_for_environment (policy : Policy) (environment_policy : option Policy)
    (allow : AllowPrefixRules) : Policy :=
  let policy := current_for_prefix_rules policy allow in
  match environment_policy with
  | Some overlay => merge_overlay policy overlay
  | None => policy
  end.

Definition host_options : MatchOptions := mkMatchOptions true.

Definition unmatched_context (req : ExecApprovalRequest) (o : ExecPolicyCommandOrigin) : UnmatchedCommandContext :=
  mkUnmatched (req_approval_policy req) (req_permission_profile req) (req_windows_sandbox_level req)
    (req_sandbox_permissions req) o.

(** [matches_for_command_with_options] without the heuristic has an [Allow] rule. *)
Definition explicitly_allowed (p : Policy) (command : list str) : bool :=
  existsb (λ m, is_policy_match m && decides Allow m)
    (matches_for_command_with_options windows p command None host_options).

Definition create_exec_approval_requirement_for_parsed_commands (policy : Policy) (req : ExecApprovalRequest)
    (parsed : ExecPolicyCommands) (platform : DangerousCommandPlatform) : outcome unit ExecApprovalRequirement :=
  let 'mkCommands cmds o := parsed in
  let exec_policy := current_for_environment policy (req_environment_policy req) (req_allow_prefix_rules req) in
  let auto_amendment_allowed := bool_decide (req_allow_prefix_rules req = Honor) in
  let fallback := λ cmd,
    render_decision_for_unmatched_command_for_platform cmd (unmatched_context req o) platform in
  let! evaluation := opt_panic (check_multiple_with_options windows exec_policy cmds fallback host_options) in
  let requested_amendment :=
    if auto_amendment_allowed then
      derive_requested_execpolicy_amendment_from_prefix_rule (req_prefix_rule req) (matched_rules evaluation)
        exec_policy cmds fallback host_options
    else None in
  Done match decision evaluation with
       | Forbidden =>
           Refused (derive_forbidden_reason (req_command req) evaluation
                      (dangerous_command_match_for_heuristics evaluation Forbidden o platform))
       | Prompt =>
           let prompt_is_rule := existsb (λ m, is_policy_match m && decides Prompt m) (matched_rules evaluation) in
           match prompt_is_rejected_by_policy (req_approval_policy req) prompt_is_rule with
           | Some reason =>
               if prompt_is_rule then Refused reason
               else Refused (derive_rejected_prompt_reason reason
                      (dangerous_command_match_for_heuristics evaluation Prompt o platform))
           | None =>
               NeedsApproval (derive_prompt_reason (req_command req) evaluation)
                 match requested_amendment with
                 | Some a => Some a
                 | None => if auto_amendment_allowed
                           then try_derive_execpolicy_amendment_for_prompt_rules (matched_rules evaluation) else None
                 end
           end
       | Allow =>
           Skip (forallb (explicitly_allowed exec_policy) cmds)
             (if auto_amendment_allowed
              then try_derive_execpolicy_amendment_for_allow_rules (matched_rules evaluation) else None)
       end.

Definition create_exec_approval_requirement_for_command_platform (policy : Policy) (req : ExecApprovalRequest)
    (platform : DangerousCommandPlatform) : outcome unit ExecApprovalRequirement :=
  let! parsed := commands_for_exec_policy_for_platform (req_command req) platform in
  create_exec_approval_requirement_for_parsed_commands policy req parsed platform.

(** ** Unfamiliar executables

    [path_parent] and [path_join] are [Path]'s; [system_root] is the
    environment's [SystemRoot]. *)
Context (path_parent : str → option str) (path_join : str → str → str) (system_root : option str).

Definition is_system_shell (executable : str) : bool :=
  if windows then
    match system_root, path_parent executable with
    | Some root, Some parent =>
        let system_directory := path_join root ($"System32") in
        let powershell_directory := path_join (path_join system_directory ($"WindowsPowerShell")) ($"v1.0") in
        eq_ignore_ascii_case parent system_directory || eq_ignore_ascii_case parent powershell_directory
    | _, _ => false
    end
  else match path_parent executable with
       | Some parent => same_path parent ($"/bin") || same_path parent ($"/usr/bin")
       | None => false
       end.
Definition is_configured_shell (executable shell_path : str) : bool :=
  if windows then eq_ignore_ascii_case executable shell_path else same_path executable shell_path.

Definition shell_approval_command (command : list str) (shell_path : str) (mode : UnifiedExecShellMode) : list str :=
  match command with
  | [] => command
  | executable :: _ =>
      if is_configured_shell executable shell_path || is_system_shell executable
         || match mode with ZshFork => true | Direct => false end
      then command else [executable]
  end.

Definition with_command (req : ExecApprovalRequest) (command : list str) : ExecApprovalRequest :=
  mkRequest command (req_approval_policy req) (req_permission_profile req) (req_environment_policy req)
    (req_windows_sandbox_level req) (req_sandbox_permissions req) (req_prefix_rule req) (req_allow_prefix_rules req).

Definition create_exec_approval_requirement_for_shell (policy : Policy) (req : ExecApprovalRequest)
    (shell_path : str) (mode : UnifiedExecShellMode) (platform : DangerousCommandPlatform)
    : outcome unit ExecApprovalRequirement :=
  let command := req_command req in
  let executable := shell_approval_command command shell_path mode in
  if length executable =? length command
  then create_exec_approval_requirement_for_command_platform policy req platform
  else
    let! parsed :=
      if bool_decide (platform = Windows) then
        match extract_powershell_command command with
        | Some (_, script) =>
            let! cs := try_parse_powershell_commands syn_debug_char syn_powershell script in
            Done (mkCommands (default [command] cs) PowerShellOrigin)
        | None => commands_for_exec_policy_for_platform command platform
        end
      else commands_for_exec_policy_for_platform command platform in
    let 'mkCommands cmds o := parsed in
    create_exec_approval_requirement_for_parsed_commands policy (with_command req executable)
      (mkCommands (executable :: cmds) o) platform.

(** ** Amending the policy

    The state is the policy in memory and the contents of [default.rules].
    [failure] is the error of the lock, of the blocking task or of the file
    system that ends the update before the rule is appended, if there is one. *)
Inductive ExecPolicyUpdateError : Type :=
| AppendRule (source : AmendError)
| AppendRuleIo (message : str)
| JoinBlockingTask (message : str)
| AddRule (source : Error).

Record ExecPolicyManager := mkManager { policy : Policy; default_rules : str }.

Context (to_json : str → str).

Definition already_allowed (p : Policy) (command : list str) : outcome ExecPolicyUpdateError bool :=
  let! e := opt_panic (check_multiple_with_options windows p [command] (λ _, Forbidden) host_options) in
  Done (bool_decide (decision e = Allow) && existsb (λ m, is_policy_match m && decides Allow m) (matched_rules e)).

Definition append_amendment_and_update (m : ExecPolicyManager) (amendment : list str)
    (failure : option ExecPolicyUpdateError) : ExecPolicyManager * outcome ExecPolicyUpdateError unit :=
  match failure with
  | Some e => (m, Failed e)
  | None =>
      match blocking_append_allow_prefix_rule to_json (default_rules m) amendment with
      | Err source => (m, Failed (AppendRule source))
      | Ok contents =>
          let m := mkManager (policy m) contents in
          match already_allowed (policy m) amendment with
          | Done true => (m, Done tt)
          | Done false =>
              match add_prefix_rule (policy m) amendment Allow with
              | Ok updated => (mkManager updated contents, Done tt)
              | Err e => (m, Failed (AddRule e))
              end
          | Failed e => (m, Failed e)
          | Panicked => (m, Panicked)
          end
      end
  end.

Definition append_network_rule_and_update (m : ExecPolicyManager) (host : str) (protocol : NetworkRuleProtocol)
    (d : Decision) (justification : option str) (failure : option ExecPolicyUpdateError)
    : ExecPolicyManager * result ExecPolicyUpdateError unit :=
  match failure with
  | Some e => (m, Err e)
  | None =>
      match blocking_append_network_rule to_json (default_rules m) host protocol d justification with
      | Err source => (m, Err (AppendRule source))
      | Ok contents =>
          match add_network_rule (policy m) host protocol d justification with
          | Ok updated => (mkManager updated contents, Ok tt)
          | Err e => (mkManager (policy m) contents, Err (AddRule e))
          end
      end
  end.
End approval.

(** ** The first attempt: [sandboxing.rs] *)
Section first_attempt.
Context {PU : PathUris} (unix : bool).

Definition default_exec_approval_requirement (ask : AskForApproval) (p : FileSystemSandboxPolicy)
    : ExecApprovalRequirement :=
  let needs_approval :=
    match ask with
    | Never => false
    | OnRequest | Granular _ => is_restricted p
    | UnlessTrusted => true
    end in
  if needs_approval && match ask with Granular config => negb (sandbox_approval config) | _ => false end
  then Refused ($"approval policy disallowed sandbox approval prompt")
  else if needs_approval then NeedsApproval None None
  else Skip false None.

Definition unsandboxed_execution_allowed (p : FileSystemSandboxPolicy) : bool :=
  negb (has_denied_read_restrictions unix p).

Inductive SandboxOverride : Type := NoOverride | BypassSandboxFirstAttempt.

Definition sandbox_override_for_first_attempt (s : SandboxPermissions) (r : ExecApprovalRequirement)
    (p : FileSystemSandboxPolicy) : SandboxOverride :=
  if negb (unsandboxed_execution_allowed p) then NoOverride
  else if match r with Skip true _ => true | _ => false end then BypassSandboxFirstAttempt
  else if requires_escalated_permissions s then BypassSandboxFirstAttempt
  else NoOverride.

Definition sandbox_permissions_preserving_denied_reads (s : SandboxPermissions) (p : FileSystemSandboxPolicy)
    : SandboxPermissions :=
  if requires_escalated_permissions s && negb (unsandboxed_execution_allowed p) then UseDefault else s.
End first_attempt.
