(* ===== verification/ExecApprovalSpec.v ===== *)
(** * What the approvals of [ExecApproval] guarantee

    No panic; a dangerous command no rule speaks about is never run unasked;
    the sandbox is bypassed only where rules allow every command; the approval
    setting is honoured; a proposed amendment, once accepted, settles the
    commands it was proposed for. *)

From stdpp Require Import prelude list strings gmap.
From S2P Require Import Prelude BashParser Truncate DangerousCommand PowerShellParser ExecPolicy ExecPolicyBuilder Permissions ExecApproval.

Section evaluations.
Context {AP : AbsolutePaths} (windows : bool).
Implicit Types (p : Policy) (cmd : list str) (cmds : list (list str)) (f : list str → Decision).

#[local] Notation matches p cmd := (policy_matches windows p cmd host_options).

Lemma policy_matches_rules p cmd m : m ∈ matches p cmd → is_policy_match m = true.
Proof.
  unfold policy_matches. destruct (negb _) eqn:He; cbn [host_options resolve_host_executables].
  - destruct cmd as [|w ws]; [by intros ?%elem_of_nil|]. cbn [match_exact_rules default from_option id].
    intros (r & _ & Hr)%list_elem_of_omap. unfold rule_matches in Hr. case_match; [|done]. by injection Hr as <-.
  - destruct cmd as [|w ws]; [by intros ?%elem_of_nil|]. cbn [match_host_executable_rules].
    repeat case_match; try by intros ?%elem_of_nil.
    all: intros (m0 & -> & (r & _ & Hr)%list_elem_of_omap)%list_elem_of_fmap.
    all: unfold rule_matches in Hr; case_match; [|done]; by injection Hr as <-.
Qed.

(** The matches of an evaluation are those of the rules, and one of the
    heuristic for each command no rule matches. *)
Definition evaluates p cmds f m : Prop :=
  ∃ cmd, cmd ∈ cmds ∧ (m ∈ matches p cmd ∨ matches p cmd = [] ∧ m = HeuristicsRuleMatch cmd (f cmd)).

Lemma evaluation_spec p cmds f e :
  check_multiple_with_options windows p cmds f host_options = Some e →
  (∀ m, m ∈ matched_rules e ↔ evaluates p cmds f m) ∧
  (∃ m, evaluates p cmds f m ∧ match_decision m = decision e) ∧
  (∀ m, evaluates p cmds f m → decision_le (match_decision m) (decision e)).
Proof.
  unfold check_multiple_with_options. rewrite from_matches_spec. intros [Hms Hs].
  assert (Hel : ∀ m, m ∈ matched_rules e ↔ evaluates p cmds f m).
  { intros m. rewrite Hms, list_elem_of_join. unfold evaluates. setoid_rewrite list_elem_of_fmap.
    unfold matches_for_command_with_options. split.
    - intros (l & Hm & cmd & -> & Hc). exists cmd. split; [done|].
      destruct (matches p cmd) as [|x l] eqn:Hl; cbn [is_empty] in Hm; [|by left].
      right. split; [done|]. by apply list_elem_of_singleton in Hm.
    - intros (cmd & Hc & Hm). eexists. split; [|exists cmd; split; [reflexivity|done]].
      destruct Hm as [Hm|[Hnil ->]].
      + destruct (matches p cmd) as [|x l]; [by apply elem_of_nil in Hm|done].
      + rewrite Hnil. cbn [is_empty]. by left. }
  rewrite <-Hms in Hs. apply strictest_ms in Hs as [(m & Hm & Hd) Hub].
  split; [done|]. setoid_rewrite <-Hel. eauto.
Qed.

Lemma evaluation_Some p cmds f :
  cmds ≠ [] → ∃ e, check_multiple_with_options windows p cmds f host_options = Some e.
Proof.
  intros Hne. apply from_matches_Some. destruct cmds as [|cmd cmds]; [done|].
  intros [Hnil _]%app_eq_nil. by apply (matches_with_fallback_ne windows p cmd f host_options).
Qed.

Lemma evaluation_nonempty p cmds f e :
  check_multiple_with_options windows p cmds f host_options = Some e → cmds ≠ [].
Proof. by intros H ->. Qed.

Lemma decision_le_Allow d : decision_le d Allow → d = Allow.
Proof. unfold decision_le. destruct d; cbn; [done|lia..]. Qed.

(** Everything is allowed exactly when every match allows. *)
Lemma evaluation_allows p cmds f e :
  check_multiple_with_options windows p cmds f host_options = Some e →
  decision e = Allow ↔ ∀ m, evaluates p cmds f m → match_decision m = Allow.
Proof.
  intros (Hel & (m & Hm & Hd) & Hub)%evaluation_spec. split.
  - intros Ha m' Hm'. apply decision_le_Allow. rewrite <-Ha. auto.
  - intros Hall. rewrite <-Hd. auto.
Qed.

Lemma exists_policy_match (d : Decision) p cmds f e :
  check_multiple_with_options windows p cmds f host_options = Some e →
  existsb (λ m, is_policy_match m && decides d m) (matched_rules e) = true ↔
  ∃ cmd m, cmd ∈ cmds ∧ m ∈ matches p cmd ∧ match_decision m = d.
Proof.
  intros (Hel & _)%evaluation_spec. rewrite existsb_elem. setoid_rewrite Hel. split.
  - intros (m & (cmd & Hc & [Hm|[_ ->]]) & Hd); [|done]. exists cmd, m. split_and!; [done..|].
    apply andb_true_iff in Hd as [_ Hd%bool_decide_eq_true]. done.
  - intros (cmd & m & Hc & Hm & Hd). exists m. split; [exists cmd; auto|].
    rewrite (policy_matches_rules _ _ _ Hm). by apply bool_decide_eq_true.
Qed.

Lemma explicitly_allowed_spec p cmd :
  explicitly_allowed windows p cmd = true ↔ ∃ m, m ∈ matches p cmd ∧ match_decision m = Allow.
Proof.
  unfold explicitly_allowed, matches_for_command_with_options. rewrite existsb_elem.
  replace (match is_empty (matches p cmd) with true => _ | false => _ end) with (matches p cmd) by (by destruct (is_empty _)).
  split; intros (m & Hm & Hd); exists m; (split; [done|]).
  - apply andb_true_iff in Hd as [_ Hd%bool_decide_eq_true]. done.
  - rewrite (policy_matches_rules _ _ _ Hm). by apply bool_decide_eq_true.
Qed.

(** ** Prefixes *)
Lemma matches_prefix_extends pat cmd more :
  is_Some (matches_prefix pat cmd) → is_Some (matches_prefix pat (cmd ++ more)).
Proof.
  intros [pre Hp]. apply matches_prefix_iff in Hp as (us & rest & -> & -> & Hf). eexists. apply matches_prefix_iff.
  exists us, (rest ++ more). split; [cbn; by rewrite <-app_assoc|done].
Qed.

Lemma omap_rules_extend (rules : list PrefixRule) cmd more :
  omap (λ r, rule_matches r cmd) rules ≠ [] → omap (λ r, rule_matches r (cmd ++ more)) rules ≠ [].
Proof.
  intros Hne Hnil. apply Hne. apply elem_of_nil_inv. intros m (r & Hr & Hm)%list_elem_of_omap.
  destruct (matches_prefix_extends (pattern r) cmd more) as [pre Hpre].
  { unfold rule_matches in Hm. destruct (matches_prefix _ _); [eauto|done]. }
  eapply elem_of_nil. rewrite <-Hnil. apply list_elem_of_omap. exists r. split; [done|].
  unfold rule_matches. by rewrite Hpre.
Qed.

Lemma matches_extend p cmd more : matches p cmd ≠ [] → matches p (cmd ++ more) ≠ [].
Proof.
  unfold policy_matches. cbn [host_options resolve_host_executables].
  destruct cmd as [|w ws]; [done|]. cbn [match_exact_rules app default from_option id].
  set (rules := match rules_by_program p !! w with Some rs => rs | None => [] end).
  change (default [] (rules_by_program p !! w)) with rules.
  pose proof (omap_rules_extend rules (w :: ws) more) as Hext. cbn [app] in Hext.
  destruct (omap (λ r, rule_matches r (w :: ws ++ more)) rules) as [|x l]; [|done]. cbn [is_empty negb].
  destruct (omap (λ r, rule_matches r (w :: ws)) rules) as [|y k]; [|by destruct (Hext ltac:(done))].
  cbn [is_empty negb match_host_executable_rules].
  destruct (absolute_try_from w) as [program|]; [|done].
  destruct (executable_path_lookup_key windows program) as [basename|]; [|done].
  destruct (rules_by_program p !! basename) as [rs|]; [|done]. case_match; [done|].
  intros Hne Hnil. apply fmap_nil_inv in Hnil. revert Hnil. apply (omap_rules_extend rs (basename :: ws) more).
  intros Hn. apply Hne. by rewrite Hn.
Qed.

Lemma host_matches_add p prefix p' cmd m :
  add_prefix_rule p prefix Allow = Ok p' →
  m ∈ match_host_executable_rules windows p' cmd →
  m ∈ match_host_executable_rules windows p cmd ∨ match_decision m = Allow.
Proof.
  destruct prefix as [|w ws]; [done|]. intros [= <-]. destruct cmd as [|u us]; [by intros ?%elem_of_nil|].
  cbn [match_host_executable_rules rules_by_program host_executables_by_name].
  destruct (absolute_try_from u) as [program|]; [|by left].
  destruct (executable_path_lookup_key windows program) as [basename|]; [|by left].
  unfold multimap_insert. destruct (decide (w = basename)) as [<-|Hne]; [|by rewrite lookup_insert_ne; [left|]].
  rewrite lookup_insert_eq. case_match eqn:Hg; [by intros ?%elem_of_nil|]. rewrite omap_snoc, fmap_app, elem_of_app.
  intros [Hm|Hm].
  - left. destruct (rules_by_program p !! w) as [rs|]; [done|]. by apply elem_of_nil in Hm.
  - right. apply list_elem_of_fmap in Hm as (m0 & -> & Hm0).
    unfold rule_matches in Hm0. cbn [pattern rule_decision] in Hm0. destruct (matches_prefix _ _); [|by apply elem_of_nil in Hm0].
    apply list_elem_of_singleton in Hm0 as ->. done.
Qed.

(** With a rule that allows a prefix added, a command the prefix starts is
    matched, and no command gets a match it did not have but one that allows. *)
Lemma matches_add p prefix p' cmd :
  add_prefix_rule p prefix Allow = Ok p' →
  (prefix `prefix_of` cmd → matches p' cmd ≠ []) ∧
  (∀ m, m ∈ matches p' cmd → m ∈ matches p cmd ∨ match_decision m = Allow) ∧
  (matches p' cmd = [] → matches p cmd = []).
Proof.
  intros Hadd. pose proof (exact_matches_add _ _ _ _ cmd Hadd) as Hex.
  unfold policy_matches. fold (exact_matches p' cmd) (exact_matches p cmd).
  cbn [host_options resolve_host_executables]. rewrite Hex. clear Hex. split_and!.
  - intros Hp. rewrite decide_True by done. by destruct (exact_matches p cmd).
  - intros m. destruct (exact_matches p cmd) as [|x l] eqn:He; cbn [app is_empty negb].
    + case_decide; cbn [is_empty negb]; [intros ->%list_elem_of_singleton; by right|]. by apply host_matches_add with prefix.
    + change (x :: l ++ ?k) with ((x :: l) ++ k). rewrite elem_of_app. intros [Hm|Hm]; [by left|right].
      case_decide; [by apply list_elem_of_singleton in Hm as ->|by apply elem_of_nil in Hm].
  - destruct (exact_matches p cmd) as [|x l]; cbn [app is_empty negb]; [|done].
    case_decide; cbn [is_empty negb]; [done|]. intros Hnil. apply elem_of_nil_inv. intros m Hm.
    eapply elem_of_nil. rewrite <-Hnil. clear Hnil. revert Hm. destruct prefix as [|w ws]; [done|].
    injection Hadd as <-. destruct cmd as [|u us]; [done|].
    cbn [match_host_executable_rules rules_by_program host_executables_by_name].
    destruct (absolute_try_from u) as [program|]; [|done].
    destruct (executable_path_lookup_key windows program) as [basename|]; [|done].
    unfold multimap_insert. destruct (decide (w = basename)) as [<-|Hne]; [|by rewrite lookup_insert_ne].
    rewrite lookup_insert_eq. destruct (rules_by_program p !! w) as [rs|]; [|by intros ?%elem_of_nil].
    case_match; [done|]. cbn [default from_option id]. rewrite omap_snoc, fmap_app, elem_of_app. by left.
Qed.
End evaluations.

(** ** Requirements *)
Section requirements.
Context {AP : AbsolutePaths} {PU : PathUris} {SY : ShellSyntax} (windows : bool).
Implicit Types (p : Policy) (cmd : list str) (cmds : list (list str)) (req : ExecApprovalRequest).

#[local] Notation matches p cmd := (policy_matches windows p cmd host_options).

(** The policy and the heuristic a request is judged by. *)
Definition judging_policy p req : Policy :=
  current_for_environment p (req_environment_policy req) (req_allow_prefix_rules req).
Definition judging_heuristic req (o : ExecPolicyCommandOrigin) (platform : DangerousCommandPlatform) : list str → Decision :=
  λ cmd, render_decision_for_unmatched_command_for_platform windows cmd (unmatched_context req o) platform.

#[local] Notation requirement := (create_exec_approval_requirement_for_parsed_commands windows).

Ltac open_requirement e He :=
  match goal with
  | |- requirement ?p ?req (mkCommands ?cmds ?o) ?platform = _ → _ =>
      unfold create_exec_approval_requirement_for_parsed_commands;
      fold (judging_policy p req) (judging_heuristic req o platform);
      destruct (check_multiple_with_options windows (judging_policy p req) cmds
                  (judging_heuristic req o platform) host_options) as [e|] eqn:He;
      cbn [opt_panic obind]; [|done]
  end.

Lemma dangerous_heuristic req o platform cmd :
  dangerous_command_match_for_origin cmd o platform ≠ None →
  judging_heuristic req o platform cmd =
    match req_approval_policy req with Never => Forbidden | _ => Prompt end.
Proof.
  intros Hd. unfold judging_heuristic, render_decision_for_unmatched_command_for_platform.
  cbn [unmatched_context origin approval_policy]. rewrite (bool_decide_true _ Hd). cbn [orb]. by destruct (req_approval_policy req).
Qed.

(** C2: A command that looks dangerous and that no rule speaks about is never run
    unasked: the requirement is not to skip the approval, and where approvals
    are off the command is refused. *)
Theorem dangerous_never_skipped p req cmds o platform cmd r :
  requirement p req (mkCommands cmds o) platform = Done r →
  cmd ∈ cmds → matches (judging_policy p req) cmd = [] →
  dangerous_command_match_for_origin cmd o platform ≠ None →
  (∀ bypass proposed, r ≠ Skip bypass proposed) ∧
  (req_approval_policy req = Never → ∃ reason, r = Refused reason).
Proof.
  open_requirement e He. intros Hr Hin Hnone Hd. injection Hr as <-.
  apply evaluation_spec in He as (_ & _ & Hub).
  specialize (Hub (HeuristicsRuleMatch cmd (judging_heuristic req o platform cmd))). cbn [match_decision] in Hub.
  rewrite (dangerous_heuristic req o platform cmd Hd) in Hub.
  assert (Hle : decision_le (match req_approval_policy req with Never => Forbidden | _ => Prompt end) (decision e)).
  { apply Hub. exists cmd. split; [done|]. right. by rewrite dangerous_heuristic. }
  unfold decision_le in Hle. split.
  - intros bypass proposed. destruct (decision e); [by destruct (req_approval_policy req); cbn in Hle; lia| |done].
    repeat case_match; done.
  - intros Hnever. rewrite Hnever in *. destruct (decision e); cbn in *; [lia|lia|eauto].
Qed.

(** When the approval is skipped, no rule that matches any of the commands
    says anything but to allow it, the heuristic allows the commands no rule
    matches, and the sandbox is bypassed exactly when every command is matched
    by a rule. *)
Theorem bypass_only_by_rules p req cmds o platform bypass proposed :
  requirement p req (mkCommands cmds o) platform = Done (Skip bypass proposed) →
  (∀ cmd m, cmd ∈ cmds → m ∈ matches (judging_policy p req) cmd → match_decision m = Allow) ∧
  (∀ cmd, cmd ∈ cmds → matches (judging_policy p req) cmd = [] → judging_heuristic req o platform cmd = Allow) ∧
  (bypass = true ↔ ∀ cmd, cmd ∈ cmds → matches (judging_policy p req) cmd ≠ []).
Proof.
  open_requirement e He. destruct (decision e) eqn:Hd; [|repeat case_match; done|done].
  intros [= <- _]. pose proof (proj1 (evaluation_allows _ _ _ _ _ He) Hd) as Hall.
  assert (Hm : ∀ cmd m, cmd ∈ cmds → m ∈ matches (judging_policy p req) cmd → match_decision m = Allow).
  { intros cmd m Hc Hm. apply Hall. exists cmd. auto. }
  split; [done|]. split.
  { intros cmd Hc Hnil. apply (Hall (HeuristicsRuleMatch cmd (judging_heuristic req o platform cmd))). exists cmd. auto. }
  rewrite forallb_forall. setoid_rewrite <-list_elem_of_In. setoid_rewrite explicitly_allowed_spec. split.
  - intros Hex cmd Hc Hnil. destruct (Hex cmd Hc) as (m & Hin & _). rewrite Hnil in Hin. by apply elem_of_nil in Hin.
  - intros Hne cmd Hc. destruct (matches (judging_policy p req) cmd) as [|m l] eqn:Hl; [by destruct (Hne cmd Hc)|].
    exists m. split; [left|]. apply (Hm cmd); [done|]. rewrite Hl. left.
Qed.

(** Which prompts the approval setting lets through. *)
Definition prompts (ask : AskForApproval) (by_rule : bool) : Prop :=
  match ask with
  | Never => False
  | OnRequest | UnlessTrusted => True
  | Granular config => (if by_rule then rules_approval config else sandbox_approval config) = true
  end.

Lemma max_by_key_None {A} (key : A → nat) l : max_by_key key l = None ↔ l = [].
Proof.
  split; [|by intros ->]. unfold max_by_key. destruct l as [|x l]; [done|]. cbn [foldl]. revert x.
  induction l as [|y l IH]; intros x; [done|]. cbn [foldl]. case_match; by intros ?%IH.
Qed.

(** The user is asked only as the approval setting permits, separately for
    prompts of rules and of the sandbox, and a reason is given exactly when a
    rule asked for the prompt. *)
Theorem prompts_respect_setting p req cmds o platform reason proposed :
  requirement p req (mkCommands cmds o) platform = Done (NeedsApproval reason proposed) →
  prompts (req_approval_policy req) (bool_decide (reason ≠ None)) ∧
  (reason ≠ None ↔ ∃ cmd m, cmd ∈ cmds ∧ m ∈ matches (judging_policy p req) cmd ∧ match_decision m = Prompt).
Proof.
  open_requirement e He. destruct (decision e) eqn:Hd; [done| |done].
  destruct (prompt_is_rejected_by_policy _ _) eqn:Hrej; [by case_match|]. intros [= <- _].
  assert (Hreason : derive_prompt_reason (req_command req) e ≠ None ↔
    existsb (λ m, is_policy_match m && decides Prompt m) (matched_rules e) = true).
  { unfold derive_prompt_reason. destruct (max_by_key _ _) as [[k [j|]]|] eqn:Hmax.
    1,2: split; [intros _|done].
    1,2: destruct (omap _ (matched_rules e)) as [|x l] eqn:Ho; [by cbn in Hmax|].
    1,2: apply existsb_elem; assert (Hx : x ∈ x :: l) by left; rewrite <-Ho in Hx;
      apply list_elem_of_omap in Hx as (m & Hm & Hmx); exists m; (split; [done|]); by repeat case_match.
    apply max_by_key_None in Hmax. split; [done|]. intros (m & Hm & Hb)%existsb_elem _. 
    apply andb_true_iff in Hb as [Hp Hdec%bool_decide_eq_true]. destruct m as [pre d rp j|]; [|done]. cbn in Hdec. subst d.
    eapply elem_of_nil. rewrite <-Hmax. apply list_elem_of_omap. eexists. split; [exact Hm|reflexivity]. }
  pose proof (exists_policy_match windows Prompt _ _ _ _ He) as Hex. split; [|by rewrite Hreason, Hex].
  set (by_rule := existsb _ _) in *. assert (Hb : bool_decide (derive_prompt_reason (req_command req) e ≠ None) = by_rule).
  { destruct by_rule; [apply bool_decide_eq_true|apply bool_decide_eq_false]; by rewrite Hreason. }
  rewrite Hb. clear -Hrej. clearbody by_rule.
  unfold prompt_is_rejected_by_policy in Hrej. unfold prompts.
  destruct (req_approval_policy req) as [| |config|]; [done..| |done].
  by destruct by_rule, (rules_approval config), (sandbox_approval config).
Qed.

Lemma prompt_amendment ms a :
  try_derive_execpolicy_amendment_for_prompt_rules ms = Some a →
  existsb (λ m, is_policy_match m && decides Prompt m) ms = false ∧ HeuristicsRuleMatch a Prompt ∈ ms.
Proof.
  unfold try_derive_execpolicy_amendment_for_prompt_rules. destruct (existsb _ ms); [done|].
  intros (l & m & k & -> & Hm & _)%find_map_Some. split; [done|]. destruct m as [|c []]; [done..| |done].
  injection Hm as ->. apply elem_of_app. right. left.
Qed.

Lemma allow_amendment ms a :
  try_derive_execpolicy_amendment_for_allow_rules ms = Some a → HeuristicsRuleMatch a Allow ∈ ms.
Proof.
  unfold try_derive_execpolicy_amendment_for_allow_rules. destruct (existsb _ ms); [done|].
  intros (l & m & k & -> & Hm & _)%find_map_Some. destruct m as [|c []]; [done| |done..].
  injection Hm as ->. apply elem_of_app. right. left.
Qed.

Lemma evaluates_heuristic p cmds f cmd d :
  evaluates windows p cmds f (HeuristicsRuleMatch cmd d) → cmd ∈ cmds ∧ matches p cmd = [] ∧ f cmd = d.
Proof. intros (c & Hc & [Hm%policy_matches_rules|[Hnil [= -> ->]]]); [done|]. done. Qed.

(** An amendment asked for by the model: it is not on the list of prefixes that
    are never suggested, and with its rule added every command is allowed. *)
Definition requested_ok p req cmds f (a : list str) : Prop :=
  req_prefix_rule req = Some a ∧ a ≠ [] ∧ a ∉ BANNED_PREFIX_SUGGESTIONS ∧
  (∀ cmd, cmd ∈ cmds → matches p cmd = []) ∧
  ∃ p', add_prefix_rule p a Allow = Ok p' ∧
    ∀ cmd e, cmd ∈ cmds → check_with_options windows p' cmd f host_options = Some e → decision e = Allow.

Lemma requested_amendment_ok p req cmds f e a :
  check_multiple_with_options windows p cmds f host_options = Some e →
  derive_requested_execpolicy_amendment_from_prefix_rule windows (req_prefix_rule req) (matched_rules e) p cmds f
    host_options = Some a →
  requested_ok p req cmds f a.
Proof.
  intros He. unfold derive_requested_execpolicy_amendment_from_prefix_rule.
  destruct (req_prefix_rule req) as [prefix|] eqn:Hp; [|done]. destruct (is_empty prefix) eqn:Hne; [done|].
  destruct (existsb _ BANNED_PREFIX_SUGGESTIONS) eqn:Hb; [done|]. destruct (existsb is_policy_match _) eqn:Hm; [done|].
  unfold prefix_rule_would_approve_all_commands. destruct (add_prefix_rule p prefix Allow) as [p'|] eqn:Hadd; [|done].
  destruct (forallb _ cmds) eqn:Hall; [|done]. intros [= <-]. unfold requested_ok. split_and!.
  - done.
  - by intros ->.
  - intros Hin. apply not_true_iff_false in Hb. apply Hb. apply existsb_elem. exists prefix.
    split; [done|by apply bool_decide_eq_true].
  - intros cmd Hc. apply elem_of_nil_inv. intros m Hin. apply not_true_iff_false in Hm. apply Hm, existsb_elem.
    exists m. split; [|by eapply policy_matches_rules]. apply (evaluation_spec windows) in He as [Hel _]. apply Hel. exists cmd. auto.
  - exists p'. split; [done|]. intros cmd e' Hc He'. rewrite forallb_forall in Hall.
    apply list_elem_of_In in Hc. specialize (Hall cmd Hc). rewrite He' in Hall. by apply bool_decide_eq_true in Hall.
Qed.

(** An amendment is proposed only where the model honours prefix rules. It is
    either the prefix the model asked for, which is non-empty, not on the list
    of prefixes that are never suggested and would have every command allowed,
    or one of the commands, which no rule matches and which the heuristic
    prompted for (or allowed, when the approval is skipped). *)
Theorem amendment_sound p req cmds o platform r a :
  requirement p req (mkCommands cmds o) platform = Done r →
  proposed_execpolicy_amendment r = Some a →
  req_allow_prefix_rules req = Honor ∧
  (requested_ok (judging_policy p req) req cmds (judging_heuristic req o platform) a ∨
   a ∈ cmds ∧ matches (judging_policy p req) a = [] ∧
   judging_heuristic req o platform a = match r with Skip _ _ => Allow | _ => Prompt end).
Proof.
  open_requirement e He. case_bool_decide as Hh; cbv zeta; cbn [negb].
  2:{ intros [= <-]. by repeat case_match. }
  intros [= <-] Ha. split; [done|]. destruct (evaluation_spec windows _ _ _ _ He) as (Hel & _).
  destruct (decision e); cbn [proposed_execpolicy_amendment] in Ha; [| |done].
  - right. apply allow_amendment, Hel, evaluates_heuristic in Ha as (? & ? & ?). done.
  - destruct (prompt_is_rejected_by_policy _ _); [by case_match|]. cbn [proposed_execpolicy_amendment] in Ha.
    destruct (derive_requested_execpolicy_amendment_from_prefix_rule _ _ _ _ _ _ _) as [b|] eqn:Hreq.
    + injection Ha as ->. left. by eapply requested_amendment_ok.
    + right. apply prompt_amendment in Ha as [_ Ha]. apply Hel, evaluates_heuristic in Ha as (? & ? & ?). done.
Qed.

(** ** Accepting an amendment *)

(** What a prompt with an amendment says about the evaluation: no rule asks or
    forbids, and the heuristic asks about some command. *)
Lemma amendment_evaluation p req cmds o platform reason a :
  requirement p req (mkCommands cmds o) platform = Done (NeedsApproval reason (Some a)) →
  req_allow_prefix_rules req = Honor ∧
  (∀ cmd m, cmd ∈ cmds → m ∈ matches (judging_policy p req) cmd → match_decision m = Allow) ∧
  (∃ cmd, cmd ∈ cmds ∧ matches (judging_policy p req) cmd = [] ∧ judging_heuristic req o platform cmd = Prompt).
Proof.
  open_requirement e He. destruct (decision e) eqn:Hd; [done| |done].
  destruct (prompt_is_rejected_by_policy _ _); [by case_match|]. intros [= _ Ha].
  pose proof (exists_policy_match windows Prompt _ _ _ _ He) as Hex.
  destruct (evaluation_spec windows _ _ _ _ He) as (Hel & (m & Hm & Hmd) & Hub).
  assert (Hh : req_allow_prefix_rules req = Honor ∧
    ∀ cmd m, cmd ∈ cmds → m ∈ matches (judging_policy p req) cmd → match_decision m ≠ Prompt).
  { case_bool_decide as Hh; [|done]. split; [done|].
    destruct (derive_requested_execpolicy_amendment_from_prefix_rule _ _ _ _ _ _ _) as [b|] eqn:Hreq.
    - intros cmd m' Hc Hm'. apply (requested_amendment_ok _ _ _ _ _ _ He) in Hreq as (_ & _ & _ & Hnil & _).
      rewrite (Hnil cmd Hc) in Hm'. by apply elem_of_nil in Hm'.
    - apply prompt_amendment in Ha as [Hno _]. intros cmd m' Hc Hm' HP. apply not_true_iff_false in Hno. apply Hno, Hex. eauto. }
  destruct Hh as [Hh Hnp]. split; [done|]. split.
  - intros cmd m' Hc Hm'. pose proof (Hnp cmd m' Hc Hm'). specialize (Hub m' ltac:(exists cmd; auto)).
    rewrite Hd in Hub. unfold decision_le in Hub. destruct (match_decision m'); cbn in *; [done|done|lia].
  - destruct Hm as (cmd & Hc & [Hm|[Hnil ->]]); [|exists cmd; rewrite <-Hd, <-Hmd; auto].
    destruct (Hnp cmd m Hc Hm). congruence.
Qed.

Lemma already_allowed_matches p a : already_allowed windows p a = Done true → matches p a ≠ [].
Proof.
  unfold already_allowed. destruct (check_multiple_with_options _ _ _ _ _) as [e|] eqn:He; cbn [opt_panic obind]; [|done].
  intros [= Hb] Hnil. apply andb_true_iff in Hb as [_ Hb]. apply (exists_policy_match windows Allow _ _ _ _ He) in Hb as (c & m & Hc & Hm & _).
  apply list_elem_of_singleton in Hc as ->. rewrite Hnil in Hm. by apply elem_of_nil in Hm.
Qed.

Context (to_json : str → str).

(** C36: Where no policy of the environment narrows the request's policy
    ([narrowed_environment_asks_again] shows that the user may be asked again
    otherwise), accepting an amendment settles the commands it covers: when the
    approval that proposed it is repeated after the update, and every command the
    heuristic does not allow starts with the amendment, the approval is skipped. *)
Theorem accepted_amendment_settles (m m' : ExecPolicyManager) req cmds o platform reason a :
  req_environment_policy req = None →
  requirement (policy m) req (mkCommands cmds o) platform = Done (NeedsApproval reason (Some a)) →
  append_amendment_and_update windows to_json m a None = (m', Done tt) →
  (∀ cmd, cmd ∈ cmds → judging_heuristic req o platform cmd ≠ Allow → a `prefix_of` cmd) →
  ∃ bypass proposed, requirement (policy m') req (mkCommands cmds o) platform = Done (Skip bypass proposed).
Proof.
  intros Henv Hreq Happ Hcov. apply amendment_evaluation in Hreq as (Hh & Hallow & (c0 & Hc0 & Hnil0 & Hp0)).
  assert (Hj : ∀ p, judging_policy p req = p).
  { intros p. unfold judging_policy, current_for_environment. by rewrite Henv, Hh. }
  rewrite Hj in *. cbn [append_amendment_and_update] in Happ.
  destruct (blocking_append_allow_prefix_rule _ _ _) as [contents|]; [|done]. cbn [policy] in Happ.
  destruct (already_allowed windows (policy m) a) as [[]| |] eqn:Hal; [| |done..].
  { exfalso. apply already_allowed_matches in Hal. destruct (Hcov c0 Hc0) as [more ->]; [congruence|].
    by apply (matches_extend windows (policy m) a more) in Hal. }
  destruct (add_prefix_rule (policy m) a Allow) as [p'|] eqn:Hadd; [|done]. injection Happ as <-. cbn [policy].
  destruct (evaluation_Some windows p' cmds (judging_heuristic req o platform)) as [e He]; [by intros ->; apply elem_of_nil in Hc0|].
  assert (Hd : decision e = Allow).
  { apply (evaluation_allows windows _ _ _ _ He). intros x (cmd & Hc & Hx).
    destruct (matches_add windows (policy m) a p' cmd Hadd) as (Hpre & Hin & Hnil).
    destruct Hx as [Hx|[Hx ->]]; [destruct (Hin x Hx) as [?|?]; [by eapply Hallow|done]|].
    cbn [match_decision]. destruct (decide (judging_heuristic req o platform cmd = Allow)) as [|Hne]; [done|].
    by destruct (Hpre (Hcov cmd Hc Hne)). }
  unfold create_exec_approval_requirement_for_parsed_commands. fold (judging_policy p' req) (judging_heuristic req o platform).
  rewrite Hj, He. cbn [opt_panic obind]. rewrite Hd. eauto.
Qed.

(** ** Models that do not honour prefix rules *)
Lemma get_rules_cyber p k :
  rules_of (current_for_prefix_rules p IgnoreForCyberModel) k =
  List.filter (λ r, negb (bool_decide (rule_decision r = Allow))) (rules_of p k).
Proof.
  unfold rules_of, get_rules. cbn [current_for_prefix_rules rules_by_program]. rewrite lookup_omap.
  destruct (rules_by_program p !! k) as [rs|]; [|done]. cbn [option_bind mbind default from_option id].
  unfold drop_allow_rules. by destruct (List.filter _ rs).
Qed.

Lemma cyber_matches p cmd m :
  m ∈ matches (current_for_prefix_rules p IgnoreForCyberModel) cmd → match_decision m ≠ Allow.
Proof.
  set (q := current_for_prefix_rules p IgnoreForCyberModel).
  assert (Hrule : ∀ k c r x, r ∈ rules_of q k → rule_matches r c = Some x → match_decision x ≠ Allow).
  { intros k c r x Hr Hx. unfold q in Hr. rewrite get_rules_cyber in Hr. apply elem_of_filterb in Hr as [_ Hr].
    apply negb_true_iff, bool_decide_eq_false in Hr. unfold rule_matches in Hx. case_match; [|done]. by injection Hx as <-. }
  destruct (decide (exact_matches q cmd = [])) as [Hnil|Hne].
  - intros Hm. destruct cmd as [|w ws]; [by apply elem_of_nil in Hm|]. unfold policy_matches in Hm.
    fold (exact_matches q (w :: ws)) in Hm. rewrite Hnil in Hm.
    cbn [is_empty negb host_options resolve_host_executables match_host_executable_rules] in Hm.
    destruct (absolute_try_from w) as [program|]; [|by apply elem_of_nil in Hm].
    destruct (executable_path_lookup_key windows program) as [basename|]; [|by apply elem_of_nil in Hm].
    destruct (rules_by_program q !! basename) as [rs|] eqn:Hrs; [|by apply elem_of_nil in Hm].
    destruct (match host_executables_by_name q !! basename with Some _ => _ | None => _ end); [by apply elem_of_nil in Hm|].
    apply list_elem_of_fmap in Hm as (x & -> & (r & Hr & Hx)%list_elem_of_omap).
    assert (Hx' : match_decision x ≠ Allow).
    { apply (Hrule basename (basename :: ws) r); [|done]. unfold rules_of, get_rules. by rewrite Hrs. }
    by destruct x.
  - unfold policy_matches. fold (exact_matches q cmd). destruct (exact_matches q cmd) as [|y l] eqn:He; [done|].
    cbn [is_empty negb]. rewrite <-He. destruct cmd as [|w ws]; [by intros ?%elem_of_nil|].
    rewrite exact_matches_cons. intros (r & Hr & Hx)%list_elem_of_omap. by eapply Hrule.
Qed.

(** For a model whose prefix rules are not honoured, no amendment is ever
    proposed, and where no environment policy adds rules the sandbox is never
    bypassed; the rules that prompt or forbid stay in force, in their order. *)
Theorem ignored_prefix_rules p req cmds o platform r :
  req_allow_prefix_rules req = IgnoreForCyberModel →
  requirement p req (mkCommands cmds o) platform = Done r →
  proposed_execpolicy_amendment r = None ∧
  (req_environment_policy req = None → ∀ proposed, r ≠ Skip true proposed) ∧
  (∀ program, rules_of (current_for_prefix_rules p IgnoreForCyberModel) program =
     List.filter (λ rule, negb (bool_decide (rule_decision rule = Allow))) (rules_of p program)).
Proof.
  intros Hig. open_requirement e He. intros [= <-]. rewrite Hig. cbn [bool_decide decide_rel].
  rewrite (bool_decide_false (IgnoreForCyberModel = Honor)) by done. split; [by repeat case_match|].
  split; [|intros; apply get_rules_cyber]. intros Henv proposed.
  destruct (decision e) eqn:Hd; [|by repeat case_match|done]. intros [= Hall _].
  pose proof (evaluation_nonempty windows _ _ _ _ He) as Hne. destruct cmds as [|cmd cmds]; [done|].
  cbn [forallb] in Hall. apply andb_true_iff in Hall as [Hex _]. apply explicitly_allowed_spec in Hex as (m & Hm & Ha).
  unfold judging_policy, current_for_environment in Hm. rewrite Henv, Hig in Hm. by apply cyber_matches in Hm.
Qed.

(** ** Whole requests *)
Definition powershell_in_source : Prop := ∀ parse, syn_powershell = Ok parse → parser_in_source parse.

Lemma powershell_parse_no_panic script :
  powershell_in_source → ∃ cs, try_parse_powershell_commands syn_debug_char syn_powershell script = Done cs.
Proof.
  intros Hin. unfold try_parse_powershell_commands. destruct syn_powershell as [parse|err] eqn:Hp.
  - pose proof (lowering_no_panic syn_debug_char parse script (Hin parse Hp)).
    destruct (lower_with_tree_sitter _ _ _); eauto. done.
  - unfold lower_with_tree_sitter. destruct (existsb _ _); eauto.
Qed.

Lemma split_commands_Done command platform :
  powershell_in_source →
  ∃ cs o, commands_for_exec_policy_for_platform command platform = Done (mkCommands cs o) ∧ cs ≠ [].
Proof.
  intros Hin. unfold commands_for_exec_policy_for_platform.
  assert (Hps : ∃ cs, parse_powershell_command_into_plain_commands syn_debug_char syn_powershell command = Done cs).
  { unfold parse_powershell_command_into_plain_commands.
    destruct (extract_powershell_command command) as [[shell script]|]; [by apply powershell_parse_no_panic|eauto]. }
  destruct Hps as [cs ->]. cbn [obind].
  assert (Hp : ∃ cs' o, (if bool_decide (platform = Windows)
      then match cs with
           | Some cs => if negb (is_empty cs) then Done (mkCommands cs PowerShellOrigin)
                        else @Done unit _ (mkCommands [command] GenericOrigin)
           | None => Done (mkCommands [command] GenericOrigin) end
      else Done (mkCommands [command] GenericOrigin)) = Done (mkCommands cs' o) ∧ cs' ≠ []).
  { case_bool_decide; [destruct cs as [[|c cs]|]; cbn|]; eexists _, _; (split; [reflexivity|done]). }
  destruct (parse_shell_lc_plain_commands _ _) as [[|c l]|]; [done| |done].
  cbn. eexists _, _. split; [reflexivity|done].
Qed.

Lemma requirement_Done p req cmds o platform :
  cmds ≠ [] → ∃ r, requirement p req (mkCommands cmds o) platform = Done r.
Proof.
  intros Hne. unfold create_exec_approval_requirement_for_parsed_commands.
  destruct (evaluation_Some windows (judging_policy p req) cmds (judging_heuristic req o platform) Hne) as [e He].
  unfold judging_policy, judging_heuristic in He. rewrite He. cbn [opt_panic obind]. eauto.
Qed.

Context (path_parent : str → option str) (path_join : str → str → str) (system_root : option str).

(** Every request gets a requirement: as long as the nodes of PowerShell
    trees lie within the text they were parsed from, neither the split of the
    command, nor the evaluation, whose [expect] needs at least one match, ever
    panics. *)
Theorem request_total p req shell_path mode platform :
  powershell_in_source →
  (∃ r, create_exec_approval_requirement_for_command_platform windows p req platform = Done r) ∧
  (∃ r, create_exec_approval_requirement_for_shell windows path_parent path_join system_root p req shell_path mode
          platform = Done r).
Proof.
  intros Hin.
  assert (Hplat : ∃ r, create_exec_approval_requirement_for_command_platform windows p req platform = Done r).
  { unfold create_exec_approval_requirement_for_command_platform.
    destruct (split_commands_Done (req_command req) platform Hin) as (cs & o & -> & Hne). cbn [obind]. by apply requirement_Done. }
  split; [done|]. unfold create_exec_approval_requirement_for_shell. case_match; [done|].
  assert (Hparsed : ∃ cs o, (if bool_decide (platform = Windows)
      then match extract_powershell_command (req_command req) with
           | Some (_, script) =>
               let! cs := try_parse_powershell_commands syn_debug_char syn_powershell script in
               Done (mkCommands (default [req_command req] cs) PowerShellOrigin)
           | None => commands_for_exec_policy_for_platform (req_command req) platform end
      else commands_for_exec_policy_for_platform (req_command req) platform) = Done (mkCommands cs o)).
  { destruct (split_commands_Done (req_command req) platform Hin) as (cs & o & -> & _).
    case_bool_decide; [|eauto]. destruct (extract_powershell_command _) as [[sh script]|]; [|eauto].
    destruct (powershell_parse_no_panic script Hin) as [cs' ->]. cbn [obind]. eauto. }
  destruct Hparsed as (cs & o & ->). cbn [obind]. by apply requirement_Done.
Qed.

Lemma skip_bypass_explicit p req cmds o platform proposed :
  requirement p req (mkCommands cmds o) platform = Done (Skip true proposed) →
  ∀ cmd, cmd ∈ cmds → explicitly_allowed windows (judging_policy p req) cmd = true.
Proof.
  open_requirement e He. destruct (decision e); [|by repeat case_match|done]. intros [= Hall _] cmd Hc.
  rewrite forallb_forall in Hall. by apply Hall, list_elem_of_In.
Qed.

(** A shell the kernel does not know cannot borrow trust from the commands it
    appears to run: when its executable is neither the configured shell nor one
    of the system's, the sandbox is bypassed only if a rule allows the
    executable itself, without its arguments. *)
Theorem unfamiliar_shell_needs_trust p req shell_path mode platform executable args proposed :
  req_command req = executable :: args → args ≠ [] →
  shell_approval_command windows path_parent path_join system_root (req_command req) shell_path mode = [executable] →
  create_exec_approval_requirement_for_shell windows path_parent path_join system_root p req shell_path mode platform
    = Done (Skip true proposed) →
  explicitly_allowed windows (judging_policy p req) [executable] = true.
Proof.
  intros Hcmd Hargs Hshell. unfold create_exec_approval_requirement_for_shell. rewrite Hshell, Hcmd.
  destruct args as [|a args]; [done|]. cbn [length Nat.eqb].
  set (parsed := if bool_decide _ then _ else _). destruct parsed as [[cs o]| |]; cbn [obind]; [|done..].
  intros Hskip. apply (skip_bypass_explicit _ (with_command req [executable]) _ _ _ _ Hskip [executable]). left.
Qed.
End requirements.

(** The sandbox is dropped on the first attempt only when no read is denied, and
    then for an approval that bypasses it or a request to leave it. *)
Lemma first_attempt_override `{PathUris} unix s r p :
  sandbox_override_for_first_attempt unix s r p = BypassSandboxFirstAttempt ↔
  has_denied_read_restrictions unix p = false ∧ ((∃ a, r = Skip true a) ∨ s = RequireEscalated).
Proof.
  unfold sandbox_override_for_first_attempt, unsandboxed_execution_allowed. rewrite negb_involutive.
  destruct (has_denied_read_restrictions unix p); [naive_solver|].
  destruct r as [[] a| |], s; cbn; naive_solver.
Qed.

(** ** Instances *)
#[export] Instance demo_syntax : ShellSyntax := {|
  syn_shell_paths := unix_shell_paths;
  syn_shlex_split := no_words;
  syn_url_capture := no_url;
  syn_url_scheme := no_url;
  syn_parse_shell := demo_parse_shell;
  syn_debug_char := no_debug;
  syn_powershell := Ok demo_ps_parser;
  syn_try_join := λ _, None
|}.
#[local] Existing Instance unix_paths.

Definition demo_exec_request (command : list str) (ask : AskForApproval) (allow : AllowPrefixRules) : ExecApprovalRequest :=
  mkRequest command ask (Managed ManagedUnrestricted NetRestricted) None WindowsDisabled UseDefault None allow.
Definition forced_rm_command : list str := [ $"rm"; $"-rf"; $"x"].
Definition demo_parent (path : str) : option str := if starts_with ($"/bin/") path then Some ($"/bin") else Some ($"/tmp").
Definition demo_join (a b : str) : str := a ++ $"\" ++ b.

Lemma dangerous_never_skipped_witness :
  ∃ r, create_exec_approval_requirement_for_parsed_commands false empty_policy
         (demo_exec_request forced_rm_command Never Honor) (mkCommands [forced_rm_command] GenericOrigin) Posix = Done r ∧
    ∃ reason, r = Refused reason.
Proof.
  eexists. split; [vm_compute; reflexivity|].
  refine (proj2 (dangerous_never_skipped false empty_policy (demo_exec_request forced_rm_command Never Honor)
    [forced_rm_command] GenericOrigin Posix forced_rm_command _ _ _ _ _) _).
  - vm_compute. reflexivity.
  - left.
  - vm_compute. reflexivity.
  - vm_compute. discriminate.
  - reflexivity.
Defined.

Definition ls : list str := [ $"ls"].
Definition allow_git : Policy :=
  mkPolicy {[ $"git" := [mkRule (mkPattern ($"git") []) Allow None] ]} [] ∅.
Definition prompt_git : Policy :=
  mkPolicy {[ $"git" := [mkRule (mkPattern ($"git") []) Prompt None] ]} [] ∅.

Lemma bypass_only_by_rules_witness :
  create_exec_approval_requirement_for_parsed_commands false allow_git
    (demo_exec_request git_push OnRequest Honor) (mkCommands [git_push] GenericOrigin) Posix = Done (Skip true None) ∧
  policy_matches false allow_git git_push host_options ≠ [].
Proof.
  split; [vm_compute; reflexivity|].
  destruct (bypass_only_by_rules false allow_git (demo_exec_request git_push OnRequest Honor) [git_push]
    GenericOrigin Posix true None) as (_ & _ & H); [vm_compute; reflexivity|].
  apply (proj1 H eq_refl git_push). left.
Defined.

Lemma prompts_respect_setting_witness :
  ∃ reason, create_exec_approval_requirement_for_parsed_commands false prompt_git
    (demo_exec_request git_push UnlessTrusted Honor) (mkCommands [git_push] GenericOrigin) Posix
    = Done (NeedsApproval (Some reason) None) ∧
  ∃ cmd m, cmd ∈ [git_push] ∧ m ∈ policy_matches false prompt_git cmd host_options ∧ match_decision m = Prompt.
Proof.
  eexists. split; [vm_compute; reflexivity|].
  refine (proj1 (proj2 (prompts_respect_setting false prompt_git (demo_exec_request git_push UnlessTrusted Honor)
    [git_push] GenericOrigin Posix _ None _)) _); [vm_compute; reflexivity|discriminate].
Defined.

Lemma amendment_sound_witness :
  judging_heuristic false (demo_exec_request ls UnlessTrusted Honor) GenericOrigin Posix ls = Prompt.
Proof.
  destruct (amendment_sound false empty_policy (demo_exec_request ls UnlessTrusted Honor) [ls] GenericOrigin Posix
    (NeedsApproval None (Some ls)) ls) as [_ [(H & _)|(_ & _ & H)]]; [vm_compute; reflexivity|reflexivity|discriminate|exact H].
Defined.

Definition demo_manager : ExecPolicyManager := mkManager empty_policy [].

Lemma accepted_amendment_settles_witness :
  let m' := (append_amendment_and_update false id demo_manager ls None).1 in
  ∃ bypass proposed, create_exec_approval_requirement_for_parsed_commands false (policy m')
    (demo_exec_request ls UnlessTrusted Honor) (mkCommands [ls] GenericOrigin) Posix = Done (Skip bypass proposed).
Proof.
  intros m'.
  apply (accepted_amendment_settles false id demo_manager m' (demo_exec_request ls UnlessTrusted Honor) [ls] GenericOrigin
    Posix None ls); [reflexivity|vm_compute; reflexivity|vm_compute; reflexivity|].
  intros cmd ->%list_elem_of_singleton _. done.
Defined.

Lemma ignored_prefix_rules_witness :
  create_exec_approval_requirement_for_parsed_commands false allow_git
    (demo_exec_request git_push OnRequest IgnoreForCyberModel) (mkCommands [git_push] GenericOrigin) Posix
    = Done (Skip false None) ∧
  rules_of (current_for_prefix_rules allow_git IgnoreForCyberModel) ($"git") = [].
Proof.
  split; [vm_compute; reflexivity|].
  destruct (ignored_prefix_rules false allow_git (demo_exec_request git_push OnRequest IgnoreForCyberModel) [git_push]
    GenericOrigin Posix (Skip false None)) as (_ & _ & H); [reflexivity|vm_compute; reflexivity|].
  rewrite H. vm_compute. reflexivity.
Defined.

Lemma request_total_witness :
  ∃ r, create_exec_approval_requirement_for_shell false demo_parent demo_join None allow_git
         (demo_exec_request demo_invocation OnRequest Honor) ($"/bin/zsh") Direct Posix = Done r.
Proof.
  apply (request_total false demo_parent demo_join None allow_git (demo_exec_request demo_invocation OnRequest Honor)
    ($"/bin/zsh") Direct Posix).
  intros parse [= <-]. exact demo_ps_parser_in_source.
Defined.

Definition allow_tmp_sh : Policy :=
  mkPolicy {[ $"/tmp/sh" := [mkRule (mkPattern ($"/tmp/sh") []) Allow None];
              $"git" := [mkRule (mkPattern ($"git") []) Allow None] ]} [] ∅.

Lemma unfamiliar_shell_needs_trust_witness :
  explicitly_allowed false allow_tmp_sh [ $"/tmp/sh"] = true.
Proof.
  apply (unfamiliar_shell_needs_trust false demo_parent demo_join None allow_tmp_sh
    (demo_exec_request [ $"/tmp/sh"; $"x"] OnRequest Honor) ($"/bin/zsh") Direct Posix ($"/tmp/sh") [ $"x"] None);
    [reflexivity|discriminate|vm_compute; reflexivity|vm_compute; reflexivity].
Defined.

(** An environment policy can narrow the executables a rule of the base stands
    for. The update asks the base alone whether the amendment is allowed
    already, so the amendment is not recorded and the user is asked again. *)
Definition only_usr_git : Policy := mkPolicy ∅ [] {[ $"git" := [ $"/usr/bin/git"] ]}.
Definition opt_git : list str := [ $"/opt/git"; $"push"].
Theorem narrowed_environment_asks_again :
  let req := mkRequest opt_git UnlessTrusted (Managed ManagedUnrestricted NetRestricted) (Some only_usr_git)
               WindowsDisabled UseDefault None Honor in
  let ask p := create_exec_approval_requirement_for_parsed_commands false p req (mkCommands [opt_git] GenericOrigin) Posix in
  let '(m', r) := append_amendment_and_update false id (mkManager allow_git []) opt_git None in
  ask allow_git = Done (NeedsApproval None (Some opt_git)) ∧ r = Done tt ∧
  ask (policy m') = Done (NeedsApproval None (Some opt_git)).
Proof. vm_compute. auto. Qed.
