(* ===== verification/History.v ===== *)
(** * The conversation history: [core/src/context_manager]

    The data of [protocol/src/models.rs] that a history holds, the normalisation
    of [normalize.rs] and the operations of [history.rs] on the items a
    [ContextManager] keeps. [serde_json] values, the UUID hash, JSON sizes and
    image decoding are other crates and stand behind the class [Wire]; what
    [core/src/context] recognises as injected text is the class [Fragments]. The
    fields of the manager that only the guardian review reads are left out. *)

From stdpp Require Import prelude list gmap strings.
From S2P Require Import Prelude Truncate.

(** ** The items of a history *)
Class Wire := {
  Value : Type;                                   (* serde_json::Value *)
  Number : Type;                                  (* serde_json::Number *)
  ExecutedToolCall : Type;
  new_v5 : N → str → str                          (* the UUID of a name, displayed *)
}.

Inductive MessagePhase : Type := Commentary | FinalAnswer.

Definition ContentItemKind : Type := str.

Inductive AgentMessageInputContent : Type :=
| AgentInputText (text : str)
| AgentEncryptedContent (encrypted_content : str).

Inductive LocalShellStatus : Type := Completed | InProgress | Incomplete.

Record LocalShellExecAction : Type := mkExecAction {
  lse_command : list str;
  lse_timeout_ms : option N;
  lse_working_directory : option str;
  lse_env : option (gmap str str);
  lse_user : option str
}.
Inductive LocalShellAction : Type := Exec (action : LocalShellExecAction).

Inductive WebSearchAction : Type :=
| SearchAction (query : option str) (queries : option (list str))
| OpenPage (url : option str)
| FindInPage (url pattern : option str)
| WebSearchOther.

Inductive ReasoningItemReasoningSummary : Type := SummaryText (text : str).
Inductive ReasoningItemContent : Type :=
| ReasoningText (text : str)
| ReasoningPlainText (text : str).

Inductive ReasoningEffort : Type :=
| EffortNone | Minimal | EffortLow | Medium | EffortHigh | XHigh | Max | Ultra | Persistent
| Custom (effort : str).
Record ConfigurationReasoning : Type := mkReasoning { effort : ReasoningEffort }.

Record FunctionCallOutputPayload : Type := mkPayload {
  body : OutputBody;
  success : option bool
}.

(** The content of a message; tool outputs have their own [Truncate.ContentItem]. *)
Module MessageContent.
Inductive ContentItem : Type :=
| InputText (text : str)
| InputImage (image_url : str) (detail : option ImageDetail)
| InputAudio (audio_url : str)
| OutputText (text : str).
End MessageContent.

Section data.
Context {W : Wire}.

Record InternalChatMessageMetadataPassthrough : Type := mkPassthrough {
  turn_id : option str;
  create_time : option Number;
  content_item_kinds : option (list ContentItemKind);
  cell_id : option str;
  executed_tool_calls : option (list ExecutedToolCall);
  tool_calls_complete : option bool
}.
Definition default_passthrough : InternalChatMessageMetadataPassthrough :=
  mkPassthrough None None None None None None.

Definition ResponseItemId : Type := str.

Inductive ResponseItem : Type :=
| AdditionalTools (id : option ResponseItemId) (role : str) (tools : list Value)
| Message (id : option ResponseItemId) (role : str) (content : list MessageContent.ContentItem)
    (phase : option MessagePhase) (metadata : option InternalChatMessageMetadataPassthrough)
| AgentMessage (id : option ResponseItemId) (author recipient : str)
    (content : list AgentMessageInputContent) (metadata : option InternalChatMessageMetadataPassthrough)
| Reasoning (id : option ResponseItemId) (summary : list ReasoningItemReasoningSummary)
    (content : option (list ReasoningItemContent)) (encrypted_content : option str)
    (metadata : option InternalChatMessageMetadataPassthrough)
| LocalShellCall (id : option ResponseItemId) (call_id : option str) (status : LocalShellStatus)
    (action : LocalShellAction) (metadata : option InternalChatMessageMetadataPassthrough)
| FunctionCall (id : option ResponseItemId) (name : str) (namespace : option str) (arguments : str)
    (encrypted_function_args : option (list str)) (call_id : str)
    (metadata : option InternalChatMessageMetadataPassthrough)
| ToolSearchCall (id : option ResponseItemId) (call_id : option str) (status : option str)
    (execution : str) (arguments : Value) (metadata : option InternalChatMessageMetadataPassthrough)
| FunctionCallOutput (id : option ResponseItemId) (call_id name namespace : option str)
    (output : FunctionCallOutputPayload) (metadata : option InternalChatMessageMetadataPassthrough)
| CustomToolCall (id : option ResponseItemId) (status : option str) (call_id name : str)
    (namespace : option str) (input : str) (metadata : option InternalChatMessageMetadataPassthrough)
| CustomToolCallOutput (id : option ResponseItemId) (call_id : str) (name : option str)
    (output : FunctionCallOutputPayload) (metadata : option InternalChatMessageMetadataPassthrough)
| ToolSearchOutput (id : option ResponseItemId) (call_id : option str) (status execution : str)
    (tools : list Value) (metadata : option InternalChatMessageMetadataPassthrough)
| WebSearchCall (id : option ResponseItemId) (status : option str) (action : option WebSearchAction)
    (metadata : option InternalChatMessageMetadataPassthrough)
| ImageGenerationCall (id : option ResponseItemId) (status : str) (revised_prompt : option str)
    (result : str) (metadata : option InternalChatMessageMetadataPassthrough)
| Compaction (id : option ResponseItemId) (encrypted_content : str)
    (metadata : option InternalChatMessageMetadataPassthrough)
| ConfigurationUpdate (reasoning : ConfigurationReasoning)
| CompactionTrigger
| ContextCompaction (id : option ResponseItemId) (encrypted_content : option str)
    (metadata : option InternalChatMessageMetadataPassthrough)
| Other.

Record CodexHarnessMetadata : Type := mkHarness {
  client_authored : bool;
  fallback_token_limit_override : option N;
  harness_authored_configuration : bool;
  compaction_model_hash : option str;
  user_input_order : option N;
  inherited_user_message : bool
}.

Record ResponseItemEnvelope : Type := mkEnvelope {
  item : ResponseItem;
  metadata : option CodexHarnessMetadata
}.
(** [ResponseItemEnvelope::new]. *)
Definition new_envelope (i : ResponseItem) : ResponseItemEnvelope := mkEnvelope i None.
(** [envelope.item = i]. *)
Definition set_item (e : ResponseItemEnvelope) (i : ResponseItem) : ResponseItemEnvelope :=
  mkEnvelope i (metadata e).

(** [FunctionCallOutputPayload::from_text]. *)
Definition from_text (content : str) : FunctionCallOutputPayload := mkPayload (Text content) None.

(** ** Annotated content ([context-fragments/src/annotated_content.rs]) *)
Definition AnnotatedContent : Type := MessageContent.ContentItem * ContentItemKind.

(** [kinds.into_iter().chain(repeat_with(|| unknown))], zipped with the content. *)
Fixpoint zip_kinds (content : list MessageContent.ContentItem) (kinds : list ContentItemKind)
    : list AnnotatedContent :=
  match content, kinds with
  | [], _ => []
  | c :: content', k :: kinds' => (c, k) :: zip_kinds content' kinds'
  | c :: content', [] => (c, $"unknown") :: zip_kinds content' []
  end.

Definition set_kinds (kinds : option (list ContentItemKind)) (m : InternalChatMessageMetadataPassthrough)
    : InternalChatMessageMetadataPassthrough :=
  mkPassthrough (turn_id m) (create_time m) kinds (cell_id m) (executed_tool_calls m) (tool_calls_complete m).

(** Takes the content and the kinds out of the item: the item that is left and what was taken. *)
Definition to_annotated_content (i : ResponseItem) : ResponseItem * option (list AnnotatedContent) :=
  match i with
  | Message id role content phase metadata =>
      let kinds := default [] (m ← metadata; content_item_kinds m) in
      (Message id role [] phase (set_kinds None <$> metadata), Some (zip_kinds content kinds))
  | _ => (i, None)
  end.

Definition set_annotated_content (i : ResponseItem) (annotated_content : list AnnotatedContent)
    : ResponseItem * option unit :=
  match i with
  | Message id role _ phase metadata =>
      let updated_content := annotated_content.*1 in
      let kinds := annotated_content.*2 in
      (Message id role updated_content phase
         (Some (set_kinds (Some kinds) (default default_passthrough metadata))), Some tt)
  | _ => (i, None)
  end.
End data.

(** ** [normalize.rs] *)

(** [iter().position(p)]. *)
Fixpoint position {A} (p : A → bool) (l : list A) : option nat :=
  match l with
  | [] => None
  | x :: l' => if p x then Some 0 else S <$> position p l'
  end.

(** [Vec::remove]: panics out of range. *)
Definition vec_remove {A} (i : nat) (v : list A) : option (list A) :=
  if i <? length v then Some (delete i v) else None.

Inductive InputModality : Type := TextModality | ImageModality | AudioModality.
#[export] Instance InputModality_eq_dec : EqDecision InputModality.
Proof. solve_decision. Defined.

(** [util.rs]: with debug assertions an inconsistency panics, otherwise it is logged. *)
Definition error_or_panic (debug_assertions : bool) : option unit :=
  if debug_assertions then None else Some tt.

Section normalize.
Context {W : Wire} (debug_assertions : bool).
Notation ResponseItem := (@ResponseItem W).
Notation ResponseItemEnvelope := (@ResponseItemEnvelope W).

Definition SYNTHETIC_OUTPUT_ID_NAMESPACE : N := 0x90d38d3e6a5b4d52bfe22f1e634bfac4%N.

Definition synthetic_output_id (prefix : str) (item_id : option str) : option ResponseItemId :=
  source_id ← item_id;
  if is_empty source_id then None else
  let name := prefix ++ $":" ++ source_id in
  Some (prefix ++ $"_" ++ new_v5 SYNTHETIC_OUTPUT_ID_NAMESPACE name).

(** The three sets of ids an outputs pass collects. *)
Record IdSets : Type := mkIds {
  function_ids : gset str;
  tool_search_ids : gset str;
  custom_tool_ids : gset str
}.
Definition no_ids : IdSets := mkIds ∅ ∅ ∅.

Definition add_output_id (ids : IdSets) (envelope : ResponseItemEnvelope) : IdSets :=
  match item envelope with
  | FunctionCallOutput _ (Some call_id) _ _ _ _ =>
      mkIds ({[call_id]} ∪ function_ids ids) (tool_search_ids ids) (custom_tool_ids ids)
  | ToolSearchOutput _ (Some call_id) _ _ _ _ =>
      mkIds (function_ids ids) ({[call_id]} ∪ tool_search_ids ids) (custom_tool_ids ids)
  | CustomToolCallOutput _ call_id _ _ _ =>
      mkIds (function_ids ids) (tool_search_ids ids) ({[call_id]} ∪ custom_tool_ids ids)
  | _ => ids
  end.

(** The synthetic output an item needs, if any; [None] is a panic. *)
Definition missing_output (ids : IdSets) (envelope : ResponseItemEnvelope)
    : option (option ResponseItemEnvelope) :=
  match item envelope with
  | FunctionCall id _ _ _ _ call_id _ =>
      if decide (call_id ∈ function_ids ids) then Some None else
      Some (Some (new_envelope
        (FunctionCallOutput (synthetic_output_id ($"fco") id) (Some call_id) None None
           (from_text ($"aborted")) None)))
  | ToolSearchCall id (Some call_id) _ _ _ _ =>
      if decide (call_id ∈ tool_search_ids ids) then Some None else
      Some (Some (new_envelope
        (ToolSearchOutput (synthetic_output_id ($"tso") id) (Some call_id)
           ($"completed") ($"client") [] None)))
  | CustomToolCall id _ call_id _ _ _ _ =>
      if decide (call_id ∈ custom_tool_ids ids) then Some None else
      _ ← error_or_panic debug_assertions;
      Some (Some (new_envelope
        (CustomToolCallOutput (synthetic_output_id ($"ctco") id) call_id None
           (from_text ($"aborted")) None)))
  | LocalShellCall id (Some call_id) _ _ _ =>
      if decide (call_id ∈ function_ids ids) then Some None else
      _ ← error_or_panic debug_assertions;
      Some (Some (new_envelope
        (FunctionCallOutput (synthetic_output_id ($"fco") id) (Some call_id) None None
           (from_text ($"aborted")) None)))
  | _ => Some None
  end.

Fixpoint missing_outputs (ids : IdSets) (idx : nat) (items : list ResponseItemEnvelope)
    : option (list (nat * ResponseItemEnvelope)) :=
  match items with
  | [] => Some []
  | envelope :: items' =>
      m ← missing_output ids envelope;
      rest ← missing_outputs ids (S idx) items';
      Some (match m with Some output_item => (idx, output_item) :: rest | None => rest end)
  end.

Fixpoint insert_all (missing : list (nat * ResponseItemEnvelope)) (items : list ResponseItemEnvelope)
    : option (list ResponseItemEnvelope) :=
  match missing with
  | [] => Some items
  | (idx, output_item) :: rest => items ← vec_insert (idx + 1) output_item items; insert_all rest items
  end.

Definition ensure_call_outputs_present (items : list ResponseItemEnvelope)
    : option (list ResponseItemEnvelope) :=
  let ids := foldl add_output_id no_ids items in
  missing_outputs_to_insert ← missing_outputs ids 0 items;
  insert_all (rev missing_outputs_to_insert) items.

Definition add_call_id (ids : IdSets) (envelope : ResponseItemEnvelope) : IdSets :=
  match item envelope with
  | FunctionCall _ _ _ _ _ call_id _ | LocalShellCall _ (Some call_id) _ _ _ =>
      mkIds ({[call_id]} ∪ function_ids ids) (tool_search_ids ids) (custom_tool_ids ids)
  | ToolSearchCall _ (Some call_id) _ _ _ _ =>
      mkIds (function_ids ids) ({[call_id]} ∪ tool_search_ids ids) (custom_tool_ids ids)
  | CustomToolCall _ _ call_id _ _ _ _ =>
      mkIds (function_ids ids) (tool_search_ids ids) ({[call_id]} ∪ custom_tool_ids ids)
  | _ => ids
  end.

(** Whether an item is an output whose call is not in the sets. *)
Definition is_orphan (ids : IdSets) (envelope : ResponseItemEnvelope) : bool :=
  match item envelope with
  | FunctionCallOutput _ (Some call_id) _ _ _ _ => bool_decide (call_id ∉ function_ids ids)
  | CustomToolCallOutput _ call_id _ _ _ => bool_decide (call_id ∉ custom_tool_ids ids)
  | ToolSearchOutput _ (Some call_id) _ execution _ _ =>
      bool_decide (execution ≠ $"server") && bool_decide (call_id ∉ tool_search_ids ids)
  | _ => false
  end.

Fixpoint orphan_positions (ids : IdSets) (position : nat) (items : list ResponseItemEnvelope)
    : option (list nat) :=
  match items with
  | [] => Some []
  | envelope :: items' =>
      if is_orphan ids envelope then
        _ ← error_or_panic debug_assertions;
        rest ← orphan_positions ids (S position) items';
        Some (position :: rest)
      else orphan_positions ids (S position) items'
  end.

(** [items.retain], peeking at the next position to drop. *)
Fixpoint retain_loop (orphans : list nat) (position : nat) (items : list ResponseItemEnvelope)
    : list ResponseItemEnvelope :=
  match items with
  | [] => []
  | envelope :: items' =>
      if decide (head orphans = Some position)
      then retain_loop (tail orphans) (S position) items'
      else envelope :: retain_loop orphans (S position) items'
  end.

Definition remove_orphan_outputs (items : list ResponseItemEnvelope) : option (list ResponseItemEnvelope) :=
  let ids := foldl add_call_id no_ids items in
  orphans ← orphan_positions ids 0 items;
  Some (if is_empty orphans then items else retain_loop orphans 0 items).

Definition remove_first_matching (items : list ResponseItemEnvelope) (predicate : ResponseItem → bool)
    : option (list ResponseItemEnvelope) :=
  match position (λ envelope, predicate (item envelope)) items with
  | Some pos => vec_remove pos items
  | None => Some items
  end.

Definition is_function_output_of (call_id : str) (i : ResponseItem) : bool :=
  match i with FunctionCallOutput _ (Some existing) _ _ _ _ => bool_decide (existing = call_id) | _ => false end.
Definition is_function_call_of (call_id : str) (i : ResponseItem) : bool :=
  match i with FunctionCall _ _ _ _ _ existing _ => bool_decide (existing = call_id) | _ => false end.
Definition is_local_shell_call_of (call_id : str) (i : ResponseItem) : bool :=
  match i with LocalShellCall _ (Some existing) _ _ _ => bool_decide (existing = call_id) | _ => false end.
Definition is_tool_search_output_of (call_id : str) (i : ResponseItem) : bool :=
  match i with ToolSearchOutput _ (Some existing) _ _ _ _ => bool_decide (existing = call_id) | _ => false end.
Definition is_tool_search_call_of (call_id : str) (i : ResponseItem) : bool :=
  match i with ToolSearchCall _ (Some existing) _ _ _ _ => bool_decide (existing = call_id) | _ => false end.
Definition is_custom_output_of (call_id : str) (i : ResponseItem) : bool :=
  match i with CustomToolCallOutput _ existing _ _ _ => bool_decide (existing = call_id) | _ => false end.
Definition is_custom_call_of (call_id : str) (i : ResponseItem) : bool :=
  match i with CustomToolCall _ _ existing _ _ _ _ => bool_decide (existing = call_id) | _ => false end.

Definition remove_corresponding_for (items : list ResponseItemEnvelope) (i : ResponseItem)
    : option (list ResponseItemEnvelope) :=
  match i with
  | FunctionCall _ _ _ _ _ call_id _ => remove_first_matching items (is_function_output_of call_id)
  | FunctionCallOutput _ (Some call_id) _ _ _ _ =>
      match position (λ envelope, is_function_call_of call_id (item envelope)) items with
      | Some pos => vec_remove pos items
      | None =>
          match position (λ envelope, is_local_shell_call_of call_id (item envelope)) items with
          | Some pos => vec_remove pos items
          | None => Some items
          end
      end
  | ToolSearchCall _ (Some call_id) _ _ _ _ => remove_first_matching items (is_tool_search_output_of call_id)
  | ToolSearchOutput _ (Some call_id) _ _ _ _ => remove_first_matching items (is_tool_search_call_of call_id)
  | CustomToolCall _ _ call_id _ _ _ _ => remove_first_matching items (is_custom_output_of call_id)
  | CustomToolCallOutput _ call_id _ _ _ => remove_first_matching items (is_custom_call_of call_id)
  | LocalShellCall _ (Some call_id) _ _ _ => remove_first_matching items (is_function_output_of call_id)
  | _ => Some items
  end.

(** [core/src/context/unsupported_media.rs]: unmarked fragments render as their body. *)
Record UnsupportedMedia : Type := mkUnsupported { um_text : str; um_content_kind : str }.
Definition UNSUPPORTED_IMAGE : UnsupportedMedia :=
  mkUnsupported ($"image content omitted because you do not support image input") ($"images.unsupported").
Definition UNSUPPORTED_AUDIO : UnsupportedMedia :=
  mkUnsupported ($"audio content omitted because you do not support audio input") ($"audio.unsupported").
Definition render (m : UnsupportedMedia) : str := um_text m.
Definition render_fragment (m : UnsupportedMedia) : AnnotatedContent :=
  (MessageContent.InputText (render m), um_content_kind m).

Definition is_input_image (c : MessageContent.ContentItem) : bool :=
  match c with MessageContent.InputImage _ _ => true | _ => false end.
Definition is_input_audio (c : MessageContent.ContentItem) : bool :=
  match c with MessageContent.InputAudio _ => true | _ => false end.

(** The loop both passes run over a message. *)
Definition strip_message (unsupported : MessageContent.ContentItem → bool) (m : UnsupportedMedia)
    (i : ResponseItem) : ResponseItem :=
  match to_annotated_content i with
  | (i, None) => i
  | (i, Some content) =>
      fst (set_annotated_content i ((λ c, if unsupported c.1 then render_fragment m else c) <$> content))
  end.

(** The loop both passes run over the items of a tool output. *)
Definition strip_output (unsupported : Truncate.ContentItem → bool) (m : UnsupportedMedia)
    (output : FunctionCallOutputPayload) : FunctionCallOutputPayload :=
  match body output with
  | Text _ => output
  | ContentItems items =>
      mkPayload (ContentItems ((λ c, if unsupported c then InputText (render m) else c) <$> items))
        (success output)
  end.

Definition is_output_image (c : Truncate.ContentItem) : bool :=
  match c with InputImage _ _ => true | _ => false end.
Definition is_output_audio (c : Truncate.ContentItem) : bool :=
  match c with InputAudio _ => true | _ => false end.

Definition strip_image_item (i : ResponseItem) : ResponseItem :=
  match i with
  | Message _ _ _ _ _ => strip_message is_input_image UNSUPPORTED_IMAGE i
  | FunctionCallOutput id call_id name namespace output metadata =>
      FunctionCallOutput id call_id name namespace
        (strip_output is_output_image UNSUPPORTED_IMAGE output) metadata
  | CustomToolCallOutput id call_id name output metadata =>
      CustomToolCallOutput id call_id name (strip_output is_output_image UNSUPPORTED_IMAGE output) metadata
  | ImageGenerationCall id status revised_prompt _ metadata =>
      ImageGenerationCall id status revised_prompt [] metadata
  | _ => i
  end.

Definition strip_images_when_unsupported (input_modalities : list InputModality)
    (items : list ResponseItemEnvelope) : list ResponseItemEnvelope :=
  if bool_decide (ImageModality ∈ input_modalities) then items
  else (λ envelope, set_item envelope (strip_image_item (item envelope))) <$> items.

Definition strip_audio_item (i : ResponseItem) : ResponseItem :=
  match i with
  | Message _ _ _ _ _ => strip_message is_input_audio UNSUPPORTED_AUDIO i
  | FunctionCallOutput id call_id name namespace output metadata =>
      FunctionCallOutput id call_id name namespace
        (strip_output is_output_audio UNSUPPORTED_AUDIO output) metadata
  | CustomToolCallOutput id call_id name output metadata =>
      CustomToolCallOutput id call_id name (strip_output is_output_audio UNSUPPORTED_AUDIO output) metadata
  | _ => i
  end.

Definition strip_audio_when_unsupported (input_modalities : list InputModality)
    (items : list ResponseItemEnvelope) : list ResponseItemEnvelope :=
  if bool_decide (AudioModality ∈ input_modalities) then items
  else (λ envelope, set_item envelope (strip_audio_item (item envelope))) <$> items.

(** [ContextManager::normalize_history] on the items. *)
Definition normalize_items (input_modalities : list InputModality) (items : list ResponseItemEnvelope)
    : option (list ResponseItemEnvelope) :=
  items ← ensure_call_outputs_present items;
  items ← remove_orphan_outputs items;
  let items := strip_images_when_unsupported input_modalities items in
  Some (strip_audio_when_unsupported input_modalities items).
End normalize.

(** ** Token usage ([protocol/src/protocol.rs]) *)
Definition I64_MAX : Z := (2 ^ 63 - 1)%Z.
Definition I64_MIN : Z := (- 2 ^ 63)%Z.
Definition in_i64 (z : Z) : bool := (I64_MIN <=? z)%Z && (z <=? I64_MAX)%Z.
Definition clamp_i64 (z : Z) : Z := Z.max I64_MIN (Z.min z I64_MAX).
Definition saturating_add_i64 (a b : Z) : Z := clamp_i64 (a + b).
Definition saturating_sub_i64 (a b : Z) : Z := clamp_i64 (a - b).
Definition saturating_mul_i64 (a b : Z) : Z := clamp_i64 (a * b).
(** [+] and [-] on [i64]: overflow panics with debug assertions and wraps without. *)
Definition wrap_i64 (z : Z) : Z := ((z + 2 ^ 63) mod 2 ^ 64 - 2 ^ 63)%Z.
Definition checked_i64 (debug_assertions : bool) (z : Z) : option Z :=
  if in_i64 z then Some z else if debug_assertions then None else Some (wrap_i64 z).
(** [i64::try_from(n).unwrap_or(i64::MAX)] of a [usize]. *)
Definition i64_of_usize (n : N) : Z := Z.min (Z.of_N n) I64_MAX.

Section usage.
Context {W : Wire} (debug_assertions : bool).

Record TokenUsage : Type := mkUsage {
  input_tokens : Z;
  cached_input_tokens : Z;
  cache_write_input_tokens : Z;
  output_tokens : Z;
  reasoning_output_tokens : Z;
  total_tokens : Z;
  codex_rollout_budget_units : option Number
}.
Definition default_usage : TokenUsage := mkUsage 0 0 0 0 0 0 None.
(** [TokenUsage { total_tokens, ..TokenUsage::default() }]. *)
Definition usage_of_total (total : Z) : TokenUsage := mkUsage 0 0 0 0 0 total None.

Record TokenUsageInfo : Type := mkUsageInfo {
  total_token_usage : TokenUsage;
  last_token_usage : TokenUsage;
  model_context_window : option Z
}.

Definition add_assign (self other : TokenUsage) : option TokenUsage :=
  let add a b := checked_i64 debug_assertions (a + b)%Z in
  a ← add (input_tokens self) (input_tokens other);
  b ← add (cached_input_tokens self) (cached_input_tokens other);
  c ← add (cache_write_input_tokens self) (cache_write_input_tokens other);
  d ← add (output_tokens self) (output_tokens other);
  e ← add (reasoning_output_tokens self) (reasoning_output_tokens other);
  f ← add (total_tokens self) (total_tokens other);
  Some (mkUsage a b c d e f (codex_rollout_budget_units self)).

Definition append_last_usage (info : TokenUsageInfo) (last : TokenUsage) : option TokenUsageInfo :=
  total ← add_assign (total_token_usage info) last;
  Some (mkUsageInfo total last (model_context_window info)).

(** The outer [option] is the panic of an overflowing sum. *)
Definition new_or_append (info : option TokenUsageInfo) (last : option TokenUsage) (window : option Z)
    : option (option TokenUsageInfo) :=
  match info, last with
  | None, None => Some None
  | _, _ =>
      let start := default (mkUsageInfo default_usage default_usage window) info in
      appended ← match last with Some last => append_last_usage start last | None => Some start end;
      Some (Some (match window with
                  | Some w => mkUsageInfo (total_token_usage appended) (last_token_usage appended) (Some w)
                  | None => appended
                  end))
  end.

Definition fill_to_context_window (info : TokenUsageInfo) (context_window : Z) : option TokenUsageInfo :=
  let previous_total := total_tokens (total_token_usage info) in
  difference ← checked_i64 debug_assertions (context_window - previous_total)%Z;
  let delta := Z.max difference 0 in
  Some (mkUsageInfo (usage_of_total context_window) (usage_of_total delta) (Some context_window)).

Definition full_context_window (context_window : Z) : option TokenUsageInfo :=
  fill_to_context_window (mkUsageInfo default_usage default_usage (Some context_window)) context_window.
End usage.

(** ** [history.rs] *)

(** What other crates and [core/src/context] say about texts and items. *)
Class Estimates {W : Wire} := {
  serialized_json_bytes : ResponseItem → option N;
  decode_image : str → option (N * N);            (* width and height of a base64 payload *)
  estimate_audio_token_count : str → N
}.
Class Fragments := {
  is_contextual_user_fragment : MessageContent.ContentItem → bool;
  parses_as_communication : str → bool            (* serde_json on InterAgentCommunication *)
}.

Definition approx_tokens_from_byte_count_i64 (bytes : Z) : Z :=
  if (bytes <=? 0)%Z then 0%Z
  else i64_of_usize (approx_tokens_from_byte_count (Z.to_N bytes)).

Definition estimate_reasoning_length (encoded_len : N) : N :=
  saturating_sub (saturating_mul encoded_len 3 / 4)%N 650.

(** [div_ceil(16)]. *)
Definition estimate_encrypted_function_output_length (encoded_len : N) : N :=
  let scaled := saturating_mul encoded_len 9 in
  (scaled / 16 + (if (scaled mod 16 =? 0) then 0 else 1))%N.

Definition RESIZED_IMAGE_BYTES_ESTIMATE : Z := 7373.
Definition ORIGINAL_IMAGE_PATCH_SIZE : Z := 32.
Definition ORIGINAL_IMAGE_MAX_PATCHES : N := 10000.

(** [s.get(..n)]: [None] beyond the end or inside a character. *)
Definition str_get_to (n : N) (s : str) : option str := fst <$> split_at_byte n s.

Definition parse_base64_data_url (url media_type_prefix : str) : option str :=
  if match str_get_to (byte_len ($"data:")) url with
     | Some prefix => eq_ignore_ascii_case prefix ($"data:")
     | None => false
     end
  then
    '(metadata, payload) ← split_once 44%N url;
    let metadata_without_scheme := drop 5 metadata in
    match split_char 59%N metadata_without_scheme with
    | [] => None
    | mime_type :: metadata_parts =>
        let has_base64_marker := existsb (λ part, eq_ignore_ascii_case part ($"base64")) metadata_parts in
        if match str_get_to (byte_len media_type_prefix) mime_type with
           | Some prefix => eq_ignore_ascii_case prefix media_type_prefix
           | None => false
           end
        then if has_base64_marker then Some payload else None
        else None
    end
  else None.
Definition parse_base64_image_data_url (url : str) : option str := parse_base64_data_url url ($"image/").
Definition parse_base64_audio_data_url (url : str) : option str := parse_base64_data_url url ($"audio/").

Section history.
Context {W : Wire} {Es : Estimates} {Fr : Fragments}.
Notation ResponseItem := (@ResponseItem W).
Notation ResponseItemEnvelope := (@ResponseItemEnvelope W).

Definition is_api_message (message : ResponseItem) (metadata : option CodexHarnessMetadata) : bool :=
  match message with
  | Message _ role _ _ _ => bool_decide (role ≠ $"system")
  | ConfigurationUpdate _ =>
      match metadata with Some metadata => harness_authored_configuration metadata | None => false end
  | CompactionTrigger | Other => false
  | _ => true
  end.

(** The closure of the memo table, which is keyed by the digest of the URL. *)
Definition estimate_original_image_bytes (image_url : str) : option Z :=
  payload ← parse_base64_image_data_url image_url;
  '(width, height) ← decode_image payload;
  let patches (n : N) :=
    (saturating_add_i64 (Z.of_N n) (saturating_sub_i64 ORIGINAL_IMAGE_PATCH_SIZE 1)
       / ORIGINAL_IMAGE_PATCH_SIZE)%Z in
  let patch_count := saturating_mul_i64 (patches width) (patches height) in
  let patch_count := N.min (Z.to_N patch_count) ORIGINAL_IMAGE_MAX_PATCHES in
  Some (i64_of_usize (approx_bytes_for_tokens patch_count)).

Definition estimate_image_bytes (image_url : str) (detail : option ImageDetail) : Z :=
  match detail with
  | Some Original => default RESIZED_IMAGE_BYTES_ESTIMATE (estimate_original_image_bytes image_url)
  | _ => RESIZED_IMAGE_BYTES_ESTIMATE
  end.

(** The two sums a scan accumulates: bytes to subtract and bytes to add instead. *)
Definition accumulate (acc : Z * Z) (payload_bytes replacement_bytes : Z) : Z * Z :=
  (saturating_add_i64 acc.1 payload_bytes, saturating_add_i64 acc.2 replacement_bytes).

Definition accumulate_image (acc : Z * Z) (image_url : str) (detail : option ImageDetail) : Z * Z :=
  match parse_base64_image_data_url image_url with
  | Some payload => accumulate acc (i64_of_usize (byte_len payload)) (estimate_image_bytes image_url detail)
  | None => acc
  end.
Definition accumulate_audio (acc : Z * Z) (audio_url : str) : Z * Z :=
  match parse_base64_audio_data_url audio_url with
  | Some payload =>
      accumulate acc (i64_of_usize (byte_len payload))
        (i64_of_usize (approx_bytes_for_tokens (estimate_audio_token_count audio_url)))
  | None => acc
  end.
Definition accumulate_encrypted (acc : Z * Z) (encrypted_content : str) : Z * Z :=
  accumulate acc (i64_of_usize (byte_len encrypted_content))
    (i64_of_usize (estimate_encrypted_function_output_length (byte_len encrypted_content))).

Definition output_items (output : FunctionCallOutputPayload) : list Truncate.ContentItem :=
  match body output with ContentItems items => items | Text _ => [] end.

Definition image_data_url_estimate_adjustment (i : ResponseItem) : Z * Z :=
  match i with
  | Message _ _ content _ _ =>
      foldl (λ acc c, match c with
                      | MessageContent.InputImage image_url detail => accumulate_image acc image_url detail
                      | _ => acc end) (0, 0)%Z content
  | FunctionCallOutput _ _ _ _ output _ | CustomToolCallOutput _ _ _ output _ =>
      foldl (λ acc c, match c with
                      | InputImage image_url detail => accumulate_image acc image_url detail
                      | _ => acc end) (0, 0)%Z (output_items output)
  | _ => (0, 0)%Z
  end.

Definition audio_data_url_estimate_adjustment (i : ResponseItem) : Z * Z :=
  match i with
  | Message _ _ content _ _ =>
      foldl (λ acc c, match c with
                      | MessageContent.InputAudio audio_url => accumulate_audio acc audio_url
                      | _ => acc end) (0, 0)%Z content
  | FunctionCallOutput _ _ _ _ output _ | CustomToolCallOutput _ _ _ output _ =>
      foldl (λ acc c, match c with
                      | InputAudio audio_url => accumulate_audio acc audio_url
                      | _ => acc end) (0, 0)%Z (output_items output)
  | _ => (0, 0)%Z
  end.

Definition encrypted_function_output_estimate_adjustment (i : ResponseItem) : Z * Z :=
  match i with
  | FunctionCallOutput _ _ _ _ output _ =>
      foldl (λ acc c, match c with
                      | EncryptedContent encrypted_content => accumulate_encrypted acc encrypted_content
                      | _ => acc end) (0, 0)%Z (output_items output)
  | AgentMessage _ _ _ content _ =>
      foldl (λ acc c, match c with
                      | AgentEncryptedContent encrypted_content => accumulate_encrypted acc encrypted_content
                      | _ => acc end) (0, 0)%Z content
  | _ => (0, 0)%Z
  end.

Definition estimate_response_item_model_visible_bytes (i : ResponseItem) : Z :=
  match i with
  | Reasoning _ _ _ (Some content) _ | Compaction _ content _ | ContextCompaction _ (Some content) _ =>
      i64_of_usize (estimate_reasoning_length (byte_len content))
  | i =>
      let raw := default 0%Z (i64_of_usize <$> serialized_json_bytes i) in
      let '(image_payload_bytes, image_replacement_bytes) := image_data_url_estimate_adjustment i in
      let '(audio_payload_bytes, audio_replacement_bytes) := audio_data_url_estimate_adjustment i in
      let '(encrypted_payload_bytes, encrypted_replacement_bytes) :=
        encrypted_function_output_estimate_adjustment i in
      let raw := saturating_sub_i64 raw image_payload_bytes in
      let raw := saturating_add_i64 raw image_replacement_bytes in
      let raw := saturating_sub_i64 raw audio_payload_bytes in
      let raw := saturating_add_i64 raw audio_replacement_bytes in
      saturating_add_i64 (saturating_sub_i64 raw encrypted_payload_bytes) encrypted_replacement_bytes
  end.

Definition estimate_item_token_count (i : ResponseItem) : Z :=
  approx_tokens_from_byte_count_i64 (estimate_response_item_model_visible_bytes i).

Definition is_model_generated_item (i : ResponseItem) : bool :=
  match i with
  | Message _ role _ _ _ => bool_decide (role = $"assistant")
  | Reasoning _ _ _ _ _ | FunctionCall _ _ _ _ _ _ _ | ToolSearchCall _ _ _ _ _ _
  | WebSearchCall _ _ _ _ | ImageGenerationCall _ _ _ _ _ | CustomToolCall _ _ _ _ _ _ _
  | LocalShellCall _ _ _ _ _ | Compaction _ _ _ | ContextCompaction _ _ _ => true
  | ConfigurationUpdate _ | CompactionTrigger => false
  | AdditionalTools _ _ _ | FunctionCallOutput _ _ _ _ _ _ | ToolSearchOutput _ _ _ _ _ _
  | CustomToolCallOutput _ _ _ _ _ | AgentMessage _ _ _ _ _ | Other => false
  end.

(** [event_mapping.rs]. *)
Definition CONTEXTUAL_DEVELOPER_PREFIXES : list str :=
  [$"<permissions instructions>"; $"Approved command prefix saved:"; $"<model_switch>";
   $"<managed_developer_instructions>"; $"<persistent_mode>"; $"<apps_instructions>";
   $"<collaboration_mode>"; $"<multi_agent_role>"; $"<multi_agent_mode>";
   $"<environments_instructions>"; $"<git_attribution>"; $"<plugins_instructions>";
   $"<realtime_conversation>"; $"<skills_instructions>"; $"<tools>"; $"<personality_spec>";
   $"<token_budget>"; $"<context_window>"; $"<context_window_guidance>"; $"<rollout_budget>"].

Definition is_contextual_dev_fragment (content_item : MessageContent.ContentItem) : bool :=
  match content_item with
  | MessageContent.InputText text =>
      let trimmed := trim_start text in
      existsb (λ prefix, match str_get_to (byte_len prefix) trimmed with
                         | Some candidate => eq_ignore_ascii_case candidate prefix
                         | None => false
                         end) CONTEXTUAL_DEVELOPER_PREFIXES
  | _ => false
  end.
Definition is_contextual_user_message_content (message : list MessageContent.ContentItem) : bool :=
  existsb is_contextual_user_fragment message.
Definition is_contextual_dev_message_content (message : list MessageContent.ContentItem) : bool :=
  existsb is_contextual_dev_fragment message.
Definition has_non_contextual_dev_message_content (message : list MessageContent.ContentItem) : bool :=
  existsb (λ content_item, negb (is_contextual_dev_fragment content_item)) message.

(** [InterAgentCommunication::is_message_content]. *)
Definition is_inter_agent_instruction_content (content : list MessageContent.ContentItem) : bool :=
  match content with
  | [MessageContent.InputText text] | [MessageContent.OutputText text] => parses_as_communication text
  | _ => false
  end.

Definition is_user_turn_boundary (i : ResponseItem) : bool :=
  match i with
  | AgentMessage _ _ _ _ _ => true
  | Message _ role content _ _ =>
      (bool_decide (role = $"user") && negb (is_contextual_user_message_content content))
      || (bool_decide (role = $"assistant") && is_inter_agent_instruction_content content)
  | _ => false
  end.

Fixpoint user_message_positions_from (idx : nat) (items : list ResponseItemEnvelope) : list nat :=
  match items with
  | [] => []
  | envelope :: items' =>
      if is_user_turn_boundary (item envelope) then idx :: user_message_positions_from (S idx) items'
      else user_message_positions_from (S idx) items'
  end.
Definition user_message_positions : list ResponseItemEnvelope → list nat := user_message_positions_from 0.

(** [iter().rposition(p)]. *)
Fixpoint rposition {A} (p : A → bool) (l : list A) : option nat :=
  match l with
  | [] => None
  | x :: l' => match rposition p l' with Some i => Some (S i) | None => if p x then Some 0 else None end
  end.

(** ** The manager *)
Section manager.
Context {TurnContextItem WorldStateSnapshot : Type} (debug_assertions : bool).

Record ContextManager : Type := mkManager {
  items : list ResponseItemEnvelope;
  token_info : option (@TokenUsageInfo W);
  reference_context_item : option TurnContextItem;
  world_state_baseline : option WorldStateSnapshot
}.

(** [None] is the panic of the inconsistencies that debug builds report. *)
Definition normalize_history (self : ContextManager) (input_modalities : list InputModality)
    : option ContextManager :=
  items ← normalize_items debug_assertions input_modalities (items self);
  Some (mkManager items (token_info self) (reference_context_item self) (world_state_baseline self)).

Definition for_prompt_annotated (self : ContextManager) (input_modalities : list InputModality)
    : option (list ResponseItemEnvelope) :=
  items <$> normalize_history self input_modalities.

Definition for_prompt (self : ContextManager) (input_modalities : list InputModality)
    : option (list ResponseItem) :=
  option_map (map item) (for_prompt_annotated self input_modalities).

Definition remove_first_item (self : ContextManager) : option ContextManager :=
  match items self with
  | [] => Some self
  | removed :: rest =>
      rest ← remove_corresponding_for rest (item removed);
      Some (mkManager rest (token_info self) (reference_context_item self) None)
  end.

(** The walk back from the cut: the new cut, and whether the baseline must be cleared. *)
Fixpoint trim_loop (snapshot : list ResponseItemEnvelope) (first_instruction_turn_idx cut_idx : nat)
    (cleared : bool) : option (nat * bool) :=
  if first_instruction_turn_idx <? cut_idx then
    match cut_idx with
    | 0 => None
    | S before =>
        envelope ← snapshot !! before;
        match item envelope with
        | Message _ role content _ _ =>
            if bool_decide (role = $"developer") && is_contextual_dev_message_content content then
              trim_loop snapshot first_instruction_turn_idx before
                (cleared || has_non_contextual_dev_message_content content)
            else if bool_decide (role = $"user") && is_contextual_user_message_content content then
              trim_loop snapshot first_instruction_turn_idx before cleared
            else Some (cut_idx, cleared)
        | _ => Some (cut_idx, cleared)
        end
    end
  else Some (cut_idx, cleared).

Definition trim_pre_turn_context_updates (self : ContextManager) (snapshot : list ResponseItemEnvelope)
    (first_instruction_turn_idx cut_idx : nat) : option (ContextManager * nat) :=
  '(cut_idx, cleared) ← trim_loop snapshot first_instruction_turn_idx cut_idx false;
  Some (mkManager (items self) (token_info self)
          (if cleared : bool then None else reference_context_item self) (world_state_baseline self), cut_idx).

Definition set_token_usage_full (self : ContextManager) (context_window : Z) : option ContextManager :=
  info ← match token_info self with
         | Some info => fill_to_context_window debug_assertions info context_window
         | None => full_context_window debug_assertions context_window
         end;
  Some (mkManager (items self) (Some info) (reference_context_item self) (world_state_baseline self)).

Definition update_token_info (self : ContextManager) (usage : TokenUsage) (model_context_window : option Z)
    : option ContextManager :=
  info ← new_or_append debug_assertions (token_info self) (Some usage) model_context_window;
  Some (mkManager (items self) info (reference_context_item self) (world_state_baseline self)).

(** [.map(estimate_item_token_count).fold(0i64, i64::saturating_add)]. *)
Definition sum_tokens (l : list ResponseItemEnvelope) : Z :=
  foldl (λ acc envelope, saturating_add_i64 acc (estimate_item_token_count (item envelope))) 0%Z l.

Definition estimate_token_count_with_base_instructions (self : ContextManager) (base_instructions : str)
    : option Z :=
  let base_tokens := i64_of_usize (approx_token_count base_instructions) in
  Some (saturating_add_i64 base_tokens (sum_tokens (items self))).

Definition is_encrypted_reasoning (i : ResponseItem) : bool :=
  match i with Reasoning _ _ _ (Some _) _ => true | _ => false end.

Definition get_non_last_reasoning_items_tokens (self : ContextManager) : Z :=
  match rposition (λ envelope, is_user_turn_boundary (item envelope)) (items self) with
  | None => 0%Z
  | Some last_user_index =>
      sum_tokens (List.filter (λ envelope, is_encrypted_reasoning (item envelope))
                    (take last_user_index (items self)))
  end.

Definition items_after_last_model_generated_item (self : ContextManager)
    : list ResponseItemEnvelope :=
  let start := match rposition (λ envelope, is_model_generated_item (item envelope)) (items self) with
               | Some index => S index
               | None => length (items self)
               end in
  drop start (items self).

Definition get_total_token_usage (self : ContextManager) (server_reasoning_included : bool) : Z :=
  let last_tokens :=
    match token_info self with Some info => total_tokens (last_token_usage info) | None => 0%Z end in
  let after := sum_tokens (items_after_last_model_generated_item self) in
  if server_reasoning_included then saturating_add_i64 last_tokens after
  else saturating_add_i64 (saturating_add_i64 last_tokens (get_non_last_reasoning_items_tokens self)) after.

Definition estimated_tokens_after_last_model_generated_item (self : ContextManager) : Z :=
  sum_tokens (items_after_last_model_generated_item self).
End manager.
End history.
