(* ===== verification/HistorySpec.v ===== *)
(** * What the history promises

    Normalisation as a function of the whole history: every call is followed by
    an output, outputs without a call are dropped, unsupported media is replaced.
    The index arithmetic of [normalize.rs] computes that function; its result is
    a fixed point, with calls and outputs paired, which [remove_first_item] keeps.
    Then the walk back from a rollback cut and the token totals of [history.rs]. *)

From stdpp Require Import prelude list gmap strings.
From S2P Require Import Prelude Truncate History.

(** ** Calls and outputs *)
Inductive Family : Type := FunctionFamily | ToolSearchFamily | CustomFamily.
#[export] Instance Family_eq_dec : EqDecision Family.
Proof. solve_decision. Defined.

Definition family_ids (f : Family) (ids : IdSets) : gset str :=
  match f with
  | FunctionFamily => function_ids ids
  | ToolSearchFamily => tool_search_ids ids
  | CustomFamily => custom_tool_ids ids
  end.

Section pairing.
Context {W : Wire}.
Notation ResponseItem := (@ResponseItem W).
Notation ResponseItemEnvelope := (@ResponseItemEnvelope W).
Implicit Types (e : ResponseItemEnvelope) (items : list ResponseItemEnvelope) (k : Family * str).

(** What call an item makes, and what call an item answers. *)
Definition call_key (i : ResponseItem) : option (Family * str) :=
  match i with
  | FunctionCall _ _ _ _ _ call_id _ => Some (FunctionFamily, call_id)
  | LocalShellCall _ (Some call_id) _ _ _ => Some (FunctionFamily, call_id)
  | ToolSearchCall _ (Some call_id) _ _ _ _ => Some (ToolSearchFamily, call_id)
  | CustomToolCall _ _ call_id _ _ _ _ => Some (CustomFamily, call_id)
  | _ => None
  end.
Definition output_key (i : ResponseItem) : option (Family * str) :=
  match i with
  | FunctionCallOutput _ (Some call_id) _ _ _ _ => Some (FunctionFamily, call_id)
  | ToolSearchOutput _ (Some call_id) _ _ _ _ => Some (ToolSearchFamily, call_id)
  | CustomToolCallOutput _ call_id _ _ _ => Some (CustomFamily, call_id)
  | _ => None
  end.
(** Tool searches that the server ran have no call in the history. *)
Definition server_run (i : ResponseItem) : bool :=
  match i with ToolSearchOutput _ _ _ execution _ _ => bool_decide (execution = $"server") | _ => false end.

Definition has_call items k : bool := existsb (λ e, bool_decide (call_key (item e) = Some k)) items.
Definition has_output items k : bool := existsb (λ e, bool_decide (output_key (item e) = Some k)) items.

(** Calls and outputs of a history belong together. *)
Definition paired items : Prop :=
  (∀ e k, e ∈ items → call_key (item e) = Some k → has_output items k = true) ∧
  (∀ e k, e ∈ items → output_key (item e) = Some k → server_run (item e) = false → has_call items k = true).

(** The output that stands in for one a call never got. *)
Definition aborted_output (i : ResponseItem) : option ResponseItem :=
  match i with
  | FunctionCall id _ _ _ _ call_id _ | LocalShellCall id (Some call_id) _ _ _ =>
      Some (FunctionCallOutput (synthetic_output_id ($"fco") id) (Some call_id) None None
              (from_text ($"aborted")) None)
  | ToolSearchCall id (Some call_id) _ _ _ _ =>
      Some (ToolSearchOutput (synthetic_output_id ($"tso") id) (Some call_id)
              ($"completed") ($"client") [] None)
  | CustomToolCall id _ call_id _ _ _ _ =>
      Some (CustomToolCallOutput (synthetic_output_id ($"ctco") id) call_id None
              (from_text ($"aborted")) None)
  | _ => None
  end.

Definition unanswered items e : bool :=
  match call_key (item e) with Some k => negb (has_output items k) | None => false end.
Definition orphaned items e : bool :=
  match output_key (item e) with
  | Some k => negb (server_run (item e)) && negb (has_call items k)
  | None => false
  end.

(** An item with the output that follows it. *)
Definition answered items e : list ResponseItemEnvelope :=
  e :: (if unanswered items e then option_list (new_envelope <$> aborted_output (item e)) else []).

(** What debug builds panic on. *)
Definition reported items e : bool :=
  (unanswered items e && match item e with CustomToolCall _ _ _ _ _ _ _ | LocalShellCall _ _ _ _ _ => true | _ => false end)
  || orphaned items e.

Definition strip_item (input_modalities : list InputModality) (i : ResponseItem) : ResponseItem :=
  let i := if bool_decide (ImageModality ∈ input_modalities) then i else strip_image_item i in
  if bool_decide (AudioModality ∈ input_modalities) then i else strip_audio_item i.

(** The normalised history, in one pass. *)
Definition normalized (input_modalities : list InputModality) items : list ResponseItemEnvelope :=
  (λ e, set_item e (strip_item input_modalities (item e))) <$>
  List.filter (λ e, negb (orphaned items e)) (items ≫= answered items).

(** *** The id sets *)
Lemma family_add_output ids e f id :
  id ∈ family_ids f (add_output_id ids e) ↔ id ∈ family_ids f ids ∨ output_key (item e) = Some (f, id).
Proof.
  destruct e as [i md]; destruct i; try destruct call_id; destruct f; cbn; set_solver by congruence.
Qed.
Lemma family_add_call ids e f id :
  id ∈ family_ids f (add_call_id ids e) ↔ id ∈ family_ids f ids ∨ call_key (item e) = Some (f, id).
Proof.
  destruct e as [i md]; destruct i; try destruct call_id; destruct f; cbn; set_solver by congruence.
Qed.

(** Both collecting loops are folds of this shape. *)
Lemma family_fold (add : IdSets → ResponseItemEnvelope → IdSets) (key : ResponseItem → option (Family * str))
    items ids f id :
  (∀ ids e, id ∈ family_ids f (add ids e) ↔ id ∈ family_ids f ids ∨ key (item e) = Some (f, id)) →
  id ∈ family_ids f (foldl add ids items) ↔
  id ∈ family_ids f ids ∨ existsb (λ e, bool_decide (key (item e) = Some (f, id))) items = true.
Proof.
  intros Hadd. revert ids. induction items as [|e items IH]; intros ids; cbn [foldl existsb]; [naive_solver|].
  rewrite IH, Hadd, orb_true_iff, bool_decide_eq_true. tauto.
Qed.
Lemma output_ids_spec items f id :
  id ∈ family_ids f (foldl add_output_id no_ids items) ↔ has_output items (f, id) = true.
Proof.
  unfold has_output. rewrite (family_fold _ output_key) by (intros; apply family_add_output).
  destruct f; cbn; set_solver.
Qed.
Lemma call_ids_spec items f id :
  id ∈ family_ids f (foldl add_call_id no_ids items) ↔ has_call items (f, id) = true.
Proof.
  unfold has_call. rewrite (family_fold _ call_key) by (intros; apply family_add_call).
  destruct f; cbn; set_solver.
Qed.

(** *** Adding the missing outputs *)
Definition reports_missing items e : bool :=
  unanswered items e &&
  match item e with CustomToolCall _ _ _ _ _ _ _ | LocalShellCall _ _ _ _ _ => true | _ => false end.

Lemma missing_output_spec debug items e :
  missing_output debug (foldl add_output_id no_ids items) e =
  if debug && reports_missing items e then None
  else Some (if unanswered items e then new_envelope <$> aborted_output (item e) else None).
Proof.
  pose proof (output_ids_spec items FunctionFamily) as Hf.
  pose proof (output_ids_spec items ToolSearchFamily) as Ht.
  pose proof (output_ids_spec items CustomFamily) as Hc. cbn [family_ids] in *.
  unfold missing_output, reports_missing, unanswered, error_or_panic.
  destruct (item e) as [| | | |? [id|] | | ? [id|]| | | | | | | | | | |]; cbn [call_key aborted_output];
    rewrite ?andb_false_r; try done;
    (case_decide as Hd; [apply Hf in Hd || apply Ht in Hd || apply Hc in Hd; rewrite Hd; by destruct debug|]);
    (destruct (has_output _ _) eqn:Ho; [apply Hf in Ho || apply Ht in Ho || apply Hc in Ho; done|]);
    by destruct debug.
Qed.

Lemma missing_outputs_spec debug all items idx :
  missing_outputs debug (foldl add_output_id no_ids all) idx items =
  if debug && existsb (reports_missing all) items then None
  else Some (mjoin (imap (λ n e, pair (idx + n) <$> tail (answered all e)) items)).
Proof.
  revert idx. induction items as [|e items IH]; intros idx; cbn [missing_outputs existsb].
  { by rewrite andb_false_r. }
  rewrite missing_output_spec, IH. destruct (debug && reports_missing all e) eqn:Hd.
  { destruct debug; [|done]. cbn in Hd |- *. by rewrite Hd. }
  replace (debug && (reports_missing all e || existsb (reports_missing all) items))
    with (debug && existsb (reports_missing all) items)
    by (destruct debug; [cbn in Hd |- *; by rewrite Hd|done]).
  cbn [mbind option_bind]. case_match; [done|]. cbn [mbind option_bind imap].
  rewrite (imap_ext _ ((λ n e, pair (idx + n) <$> tail (answered all e)) ∘ S))
    by (intros; unfold compose; by rewrite Nat.add_succ_r).
  change (mjoin (?x :: ?l)) with (x ++ mjoin l). rewrite Nat.add_0_r. cbn [answered tail].
  f_equal. destruct (unanswered all e); [|done]. by destruct (aborted_output (item e)).
Qed.

(** Inserting last position first puts every output behind its item. *)
Lemma insert_all_app l1 l2 items :
  insert_all (l1 ++ l2) items = (items ← insert_all l1 items; insert_all l2 items).
Proof.
  revert items. induction l1 as [|[idx o] l1 IH]; intros items; cbn; [done|].
  destruct (vec_insert _ _ _); cbn; [apply IH|done].
Qed.
Lemma vec_insert_at {A} (pre : list A) x post i : i = length pre → vec_insert i x (pre ++ post) = Some (pre ++ x :: post).
Proof.
  intros ->. apply vec_insert_Some. rewrite length_app. split; [lia|].
  by rewrite take_app_length, drop_app_length.
Qed.
Lemma insert_all_behind all pre items :
  insert_all (rev (mjoin (imap (λ n e, pair (length pre + n) <$> tail (answered all e)) items))) (pre ++ items)
  = Some (pre ++ (items ≫= answered all)).
Proof.
  revert pre. induction items as [|e items IH]; intros pre; [done|].
  cbn [imap]. change (mjoin (?x :: ?l)) with (x ++ mjoin l). rewrite rev_app_distr, insert_all_app.
  rewrite (imap_ext _ (λ n x, pair (length (pre ++ [e]) + n) <$> tail (answered all x)))
    by (intros; unfold compose; by rewrite length_app, Nat.add_succ_r, Nat.add_1_r).
  replace (pre ++ e :: items) with ((pre ++ [e]) ++ items) by (by rewrite <-app_assoc).
  rewrite IH. rewrite Nat.add_0_r, bind_cons. cbn [mbind option_bind].
  unfold answered at 1 3. cbn [tail].
  destruct (unanswered all e); [|by cbn; rewrite <-app_assoc].
  destruct (aborted_output (item e)) as [o|]; cbn; [|by rewrite <-app_assoc].
  rewrite (vec_insert_at (pre ++ [e])) by (rewrite length_app; cbn; lia). cbn. by rewrite <-app_assoc.
Qed.

Lemma ensure_call_outputs_spec debug items :
  ensure_call_outputs_present debug items =
  if debug && existsb (reports_missing items) items then None else Some (items ≫= answered items).
Proof.
  unfold ensure_call_outputs_present. rewrite missing_outputs_spec. case_match; [done|].
  cbn [mbind option_bind]. exact (insert_all_behind items [] items).
Qed.

(** *** Dropping the orphans *)
Lemma is_orphan_spec items e : is_orphan (foldl add_call_id no_ids items) e = orphaned items e.
Proof.
  pose proof (call_ids_spec items FunctionFamily) as Hf.
  pose proof (call_ids_spec items ToolSearchFamily) as Ht.
  pose proof (call_ids_spec items CustomFamily) as Hc. cbn [family_ids] in *.
  unfold is_orphan, orphaned.
  destruct (item e) as [| | | | | | | ? [id|]| | |? [id|]| | | | | | |]; cbn [output_key server_run]; try done;
    try rewrite bool_decide_not; rewrite ?andb_true_l; f_equal; rewrite ?bool_decide_not; f_equal;
    apply eq_bool_prop_intro; rewrite bool_decide_spec, Is_true_true; auto.
Qed.

Lemma orphan_positions_Some debug ids items pos l :
  orphan_positions debug ids pos items = Some l →
  Forall (le pos) l ∧ retain_loop l pos items = List.filter (λ e, negb (is_orphan ids e)) items ∧
  (l = [] → List.filter (λ e, negb (is_orphan ids e)) items = items).
Proof.
  revert pos l. induction items as [|e items IH]; intros pos l; cbn [orphan_positions].
  { intros [= <-]. by repeat split. }
  destruct (is_orphan ids e) eqn:Ho; intros Hl.
  - destruct (error_or_panic debug); [|done]. cbn [mbind option_bind] in Hl.
    destruct (orphan_positions debug ids (S pos) items) as [rest|] eqn:Hr; [|done].
    injection Hl as <-. apply IH in Hr as (Hle & Hret & _). repeat split; [|..|done].
    + constructor; [done|]. eapply Forall_impl; [exact Hle|]. cbn. lia.
    + cbn [retain_loop List.filter head tail]. rewrite decide_True, Ho by done. exact Hret.
  - apply IH in Hl as (Hle & Hret & Hnil). repeat split.
    + eapply Forall_impl; [exact Hle|]. cbn. lia.
    + cbn [retain_loop List.filter]. rewrite Ho. cbn [negb]. rewrite decide_False; [by rewrite Hret|].
      destruct Hle; cbn; [done|]. intros [= ->]. lia.
    + intros ->. cbn [List.filter]. rewrite Ho. cbn [negb]. by rewrite Hnil.
Qed.

Lemma orphan_positions_panics debug ids items pos :
  orphan_positions debug ids pos items = None ↔ debug && existsb (is_orphan ids) items = true.
Proof.
  revert pos. induction items as [|e items IH]; intros pos; cbn [orphan_positions existsb].
  { by destruct debug. }
  destruct (is_orphan ids e); cbn [orb]; [|apply IH].
  destruct debug; cbn; [done|]. specialize (IH (S pos)).
  destruct (orphan_positions false ids (S pos) items); cbn in *; [done|]. naive_solver.
Qed.

Lemma remove_orphan_outputs_spec debug items :
  remove_orphan_outputs debug items =
  if debug && existsb (orphaned items) items then None
  else Some (List.filter (λ e, negb (orphaned items e)) items).
Proof.
  unfold remove_orphan_outputs. set (ids := foldl add_call_id no_ids items).
  assert (∀ l, existsb (is_orphan ids) l = existsb (orphaned items) l) as Hex.
  { induction l as [|e l IHl]; cbn; [done|]. unfold ids. rewrite is_orphan_spec. by f_equal. }
  assert (∀ l, List.filter (λ e, negb (is_orphan ids e)) l = List.filter (λ e, negb (orphaned items e)) l) as Hfl.
  { intros l. apply filter_ext. intros e. unfold ids. by rewrite is_orphan_spec. }
  rewrite <-Hex, <-Hfl. pose proof (orphan_positions_panics debug ids items 0) as Hp.
  destruct (orphan_positions debug ids 0 items) as [l|] eqn:Hl; cbn [mbind option_bind].
  - destruct (debug && existsb (is_orphan ids) items); [naive_solver|].
    apply orphan_positions_Some in Hl as (_ & Hret & Hnil).
    destruct l; cbn [is_empty]; [by rewrite Hnil|by rewrite Hret].
  - destruct (debug && existsb (is_orphan ids) items); [done|naive_solver].
Qed.

(** *** Facts on calls, outputs and stand-ins *)
Lemma has_call_true items k : has_call items k = true ↔ ∃ e, e ∈ items ∧ call_key (item e) = Some k.
Proof. unfold has_call. rewrite existsb_elem. by setoid_rewrite bool_decide_eq_true. Qed.
Lemma has_output_true items k : has_output items k = true ↔ ∃ e, e ∈ items ∧ output_key (item e) = Some k.
Proof. unfold has_output. rewrite existsb_elem. by setoid_rewrite bool_decide_eq_true. Qed.

Lemma aborted_output_key i : output_key <$> aborted_output i = Some <$> call_key i.
Proof. by destruct i; try destruct call_id. Qed.
Lemma aborted_output_plain i o :
  aborted_output i = Some o → call_key o = None ∧ server_run o = false.
Proof. by destruct i; try destruct call_id; intros; simplify_eq/=. Qed.

Lemma elem_of_answered items all e :
  e ∈ items ≫= answered all ↔
  e ∈ items ∨ ∃ c o, c ∈ items ∧ unanswered all c = true ∧ aborted_output (item c) = Some o ∧ e = new_envelope o.
Proof.
  rewrite list_elem_of_bind. split.
  - intros (c & He & Hc). unfold answered in He. apply elem_of_cons in He as [->|He]; [by left|right].
    destruct (unanswered all c) eqn:Hu; [|by apply not_elem_of_nil in He].
    destruct (aborted_output (item c)) as [o|] eqn:Ho; cbn in He; [|by apply not_elem_of_nil in He].
    apply list_elem_of_singleton in He as ->. eauto 6.
  - intros [He|(c & o & Hc & Hu & Ho & ->)]; [exists e; split; [by left|done]|].
    exists c. split; [|done]. unfold answered. rewrite Hu, Ho. by right; left.
Qed.

Lemma has_call_answered items all k : has_call (items ≫= answered all) k = has_call items k.
Proof.
  apply eq_bool_prop_intro. rewrite !Is_true_true, !has_call_true. setoid_rewrite elem_of_answered.
  split; [|naive_solver]. intros (e & [He|(c & o & _ & _ & Ho & ->)] & Hk); [eauto|].
  apply aborted_output_plain in Ho as [Ho _]. cbn in Hk. congruence.
Qed.
Lemma orphaned_answered items all e : orphaned (items ≫= answered all) e = orphaned items e.
Proof. unfold orphaned. case_match; [|done]. by rewrite has_call_answered. Qed.
Lemma stand_in_not_orphaned items c o :
  c ∈ items → aborted_output (item c) = Some o → orphaned items (new_envelope o) = false.
Proof.
  intros Hc Ho. unfold orphaned. cbn. pose proof (aborted_output_key (item c)) as Hk. rewrite Ho in Hk.
  destruct (call_key (item c)) as [k|] eqn:Hck; cbn in Hk; [|done]. injection Hk as ->.
  replace (has_call items k) with true; [by rewrite andb_false_r|].
  symmetry. apply has_call_true. eauto.
Qed.
Lemma existsb_orphaned_answered items all :
  existsb (orphaned items) (items ≫= answered all) = existsb (orphaned items) items.
Proof.
  apply eq_bool_prop_intro. rewrite !Is_true_true, !existsb_elem. setoid_rewrite elem_of_answered.
  split; [|naive_solver]. intros (e & [He|(c & o & Hc & _ & Ho & ->)] & Hx); [eauto|].
  by rewrite (stand_in_not_orphaned items c o) in Hx.
Qed.

(** C24: Normalising a history panics exactly in a debug build on a custom or local shell call
    without an output or on an orphaned output. Otherwise its index arithmetic gives the one-pass
    result: each unanswered call is directly followed by its stand-in, outputs whose call is missing
    are gone unless the server ran them, and every item keeps its order and metadata with only
    unsupported media replaced. *)
Theorem normalize_items_spec debug input_modalities items :
  normalize_items debug input_modalities items =
  if debug && existsb (reported items) items then None else Some (normalized input_modalities items).
Proof.
  unfold normalize_items. rewrite ensure_call_outputs_spec.
  assert (existsb (reported items) items =
          existsb (reports_missing items) items || existsb (orphaned items) items) as ->.
  { apply eq_bool_prop_intro. rewrite !Is_true_true, orb_true_iff, !existsb_elem.
    unfold reported. setoid_rewrite orb_true_iff. unfold reports_missing. naive_solver. }
  destruct (debug && existsb (reports_missing items) items) eqn:Hm.
  { apply andb_true_iff in Hm as [-> ->]. done. }
  cbn [mbind option_bind]. rewrite remove_orphan_outputs_spec.
  rewrite (filter_ext _ _ (λ e, f_equal negb (orphaned_answered items items e))).
  rewrite (existsb_ext _ _ _ (orphaned_answered items items)), existsb_orphaned_answered.
  replace (debug && (existsb (reports_missing items) items || existsb (orphaned items) items))
    with (debug && existsb (orphaned items) items) by (destruct debug; [cbn in Hm |- *; by rewrite Hm|done]).
  case_match; [done|]. cbn [mbind option_bind]. f_equal. unfold normalized, strip_item.
  unfold strip_images_when_unsupported, strip_audio_when_unsupported.
  repeat case_bool_decide; rewrite <-?list_fmap_compose; try done.
  rewrite <-list_fmap_id at 1. apply list_fmap_ext. by intros ? [].
Qed.

(** ** Stripping *)
Definition is_message (i : ResponseItem) : bool := match i with Message _ _ _ _ _ => true | _ => false end.
Definition annotations (i : ResponseItem) : list AnnotatedContent := default [] (snd (to_annotated_content i)).
Definition annotate (i : ResponseItem) (l : list AnnotatedContent) : ResponseItem := fst (set_annotated_content i l).
(** One entry of a message under one pass. *)
Definition strip_content (unsupported : MessageContent.ContentItem → bool) (m : UnsupportedMedia)
    (c : AnnotatedContent) : AnnotatedContent := if unsupported c.1 then render_fragment m else c.

Lemma zip_kinds_unzip (l : list AnnotatedContent) : zip_kinds l.*1 l.*2 = l.
Proof. induction l as [|[c k] l IH]; cbn; [done|]. by rewrite IH. Qed.
Lemma annotations_annotate i l : is_message i = true → annotations (annotate i l) = l.
Proof. destruct i; try done. intros _. apply zip_kinds_unzip. Qed.
Lemma annotate_annotate i l l' : annotate (annotate i l) l' = annotate i l'.
Proof. by destruct i. Qed.
Lemma is_message_annotate i l : is_message (annotate i l) = is_message i.
Proof. by destruct i. Qed.
Lemma strip_message_spec u m i :
  is_message i = true → strip_message u m i = annotate i (strip_content u m <$> annotations i).
Proof. destruct i as [|? ? ? ? [md|]| | | | | | | | | | | | | | | |]; done. Qed.
Lemma strip_message_annotate u m i l :
  is_message i = true → strip_message u m (annotate i l) = annotate i (strip_content u m <$> l).
Proof.
  intros Hi. rewrite strip_message_spec by (by rewrite is_message_annotate).
  by rewrite annotations_annotate, annotate_annotate.
Qed.

(** The two passes on one entry, and on one item of a tool output. *)
Definition strip_entry (input_modalities : list InputModality) (c : AnnotatedContent) : AnnotatedContent :=
  let c := if bool_decide (ImageModality ∈ input_modalities) then c
           else strip_content is_input_image UNSUPPORTED_IMAGE c in
  if bool_decide (AudioModality ∈ input_modalities) then c else strip_content is_input_audio UNSUPPORTED_AUDIO c.
Definition strip_output_entry (input_modalities : list InputModality) (c : Truncate.ContentItem)
    : Truncate.ContentItem :=
  match c with
  | InputImage _ _ => if bool_decide (ImageModality ∈ input_modalities) then c else InputText (render UNSUPPORTED_IMAGE)
  | InputAudio _ => if bool_decide (AudioModality ∈ input_modalities) then c else InputText (render UNSUPPORTED_AUDIO)
  | _ => c
  end.
Definition strip_payload (input_modalities : list InputModality) (output : FunctionCallOutputPayload)
    : FunctionCallOutputPayload :=
  match body output with
  | Text _ => output
  | ContentItems items => mkPayload (ContentItems (strip_output_entry input_modalities <$> items)) (success output)
  end.

Lemma strip_item_message m i :
  is_message i = true → strip_item m i =
  if bool_decide (ImageModality ∈ m) && bool_decide (AudioModality ∈ m) then i
  else annotate i (strip_entry m <$> annotations i).
Proof.
  intros Hi. unfold strip_item, strip_entry.
  assert (∀ x, is_message x = true → strip_image_item x = strip_message is_input_image UNSUPPORTED_IMAGE x) as HI
    by (by intros []).
  assert (∀ x, is_message x = true → strip_audio_item x = strip_message is_input_audio UNSUPPORTED_AUDIO x) as HA
    by (by intros []).
  do 2 case_bool_decide; cbn [andb]; rewrite ?HI, ?HA, ?(strip_message_spec _ _ i) by done; try done.
  rewrite HA by (by rewrite is_message_annotate).
  rewrite strip_message_annotate by done. by rewrite <-list_fmap_compose.
Qed.

Lemma strip_output_both m output :
  let o := if bool_decide (ImageModality ∈ m) then output else strip_output is_output_image UNSUPPORTED_IMAGE output in
  (if bool_decide (AudioModality ∈ m) then o else strip_output is_output_audio UNSUPPORTED_AUDIO o)
  = strip_payload m output.
Proof.
  destruct output as [[text|items] success]; unfold strip_payload, strip_output; cbn.
  { by do 2 case_bool_decide. }
  do 2 case_bool_decide; cbn; do 2 f_equal; rewrite <-?list_fmap_compose;
    [rewrite <-(list_fmap_id items) at 1|..]; apply list_fmap_ext; intros ? [] _; cbn;
    rewrite ?bool_decide_eq_true_2, ?bool_decide_eq_false_2 by done; done.
Qed.

Lemma strip_item_other m i :
  is_message i = false → strip_item m i =
  match i with
  | FunctionCallOutput id call_id name namespace output md =>
      FunctionCallOutput id call_id name namespace (strip_payload m output) md
  | CustomToolCallOutput id call_id name output md => CustomToolCallOutput id call_id name (strip_payload m output) md
  | ImageGenerationCall id status revised_prompt result md =>
      ImageGenerationCall id status revised_prompt (if bool_decide (ImageModality ∈ m) then result else []) md
  | _ => i
  end.
Proof.
  intros Hi. destruct i; try done; rewrite <-?strip_output_both; unfold strip_item;
    by do 2 case_bool_decide.
Qed.

Lemma strip_entry_idemp m c : strip_entry m (strip_entry m c) = strip_entry m c.
Proof. destruct c as [[] k]; unfold strip_entry, strip_content; do 2 case_bool_decide; done. Qed.
Lemma strip_payload_idemp m o : strip_payload m (strip_payload m o) = strip_payload m o.
Proof.
  destruct o as [[text|items] success]; [done|]. unfold strip_payload. cbn. do 2 f_equal.
  rewrite <-list_fmap_compose. apply list_fmap_ext. intros ? [] _; cbn; try done;
    repeat (case_bool_decide; cbn; try done).
Qed.
Lemma strip_item_idemp m i : strip_item m (strip_item m i) = strip_item m i.
Proof.
  destruct (is_message i) eqn:Hi.
  - rewrite !(strip_item_message m i) by done. destruct (bool_decide _ && bool_decide _) eqn:Hb.
    { rewrite strip_item_message by done. by rewrite Hb. }
    rewrite strip_item_message by (by rewrite is_message_annotate). rewrite Hb.
    rewrite annotations_annotate, annotate_annotate by done. f_equal.
    rewrite <-list_fmap_compose. apply list_fmap_ext. intros ? c _. apply strip_entry_idemp.
  - rewrite (strip_item_other m i) by done.
    destruct i; try done; rewrite strip_item_other by done; rewrite ?strip_payload_idemp;
      (done || by case_bool_decide).
Qed.
Lemma strip_item_keys m i :
  call_key (strip_item m i) = call_key i ∧ output_key (strip_item m i) = output_key i ∧
  server_run (strip_item m i) = server_run i.
Proof.
  destruct (is_message i) eqn:Hi.
  - rewrite strip_item_message by done. case_match; [done|]. by destruct i.
  - rewrite strip_item_other by done. by destruct i.
Qed.

(** ** The normalised history is paired, and a fixed point *)
Definition strip_all m items : list ResponseItemEnvelope :=
  (λ e, set_item e (strip_item m (item e))) <$> items.

Lemma has_call_strip m items k : has_call (strip_all m items) k = has_call items k.
Proof.
  unfold has_call, strip_all. induction items as [|e items IH]; [done|]. rewrite fmap_cons. cbn [existsb item set_item].
  rewrite IH. f_equal. apply bool_decide_ext. by rewrite (proj1 (strip_item_keys m (item e))).
Qed.
Lemma has_output_strip m items k : has_output (strip_all m items) k = has_output items k.
Proof.
  unfold has_output, strip_all. induction items as [|e items IH]; [done|]. rewrite fmap_cons. cbn [existsb item set_item].
  rewrite IH. f_equal. apply bool_decide_ext. by rewrite (proj1 (proj2 (strip_item_keys m (item e)))).
Qed.
Lemma paired_strip m items : paired items → paired (strip_all m items).
Proof.
  intros [Hc Ho]. split; intros e k (e' & -> & He')%list_elem_of_fmap; cbn [item set_item];
    destruct (strip_item_keys m (item e')) as (Hk1 & Hk2 & Hk3); rewrite ?Hk1, ?Hk2, ?Hk3, ?has_call_strip, ?has_output_strip; eauto.
Qed.

Lemma elem_of_normalized items e :
  e ∈ List.filter (λ e, negb (orphaned items e)) (items ≫= answered items) ↔
  orphaned items e = false ∧ e ∈ items ≫= answered items.
Proof. rewrite elem_of_filterb, negb_true_iff. tauto. Qed.

Lemma normalized_paired m items : paired (normalized m items).
Proof.
  apply (paired_strip m). set (out := List.filter _ _).
  assert (∀ k, has_call items k = true → has_call out k = true) as Hcalls.
  { intros k (e & He & Hk)%has_call_true. apply has_call_true. exists e. split; [|done].
    apply elem_of_normalized. split; [|apply elem_of_answered; by left].
    unfold orphaned. destruct (item e); try done; by destruct call_id. }
  split.
  - intros e k (Hor & He)%elem_of_normalized Hk. apply elem_of_answered in He as [He|(c & o & _ & _ & Ho & ->)].
    2:{ apply aborted_output_plain in Ho as [Ho _]. cbn in Hk. congruence. }
    assert (has_call items k = true) as Hcall by (apply has_call_true; eauto).
    apply has_output_true. destruct (has_output items k) eqn:Hout.
    + apply has_output_true in Hout as (o & Ho & Hok). exists o. split; [|done].
      apply elem_of_normalized. split; [|apply elem_of_answered; by left].
      unfold orphaned. by rewrite Hok, Hcall, andb_false_r.
    + pose proof (aborted_output_key (item e)) as Hab. rewrite Hk in Hab.
      destruct (aborted_output (item e)) as [o|] eqn:Ho; [|done]. injection Hab as Hab.
      exists (new_envelope o). split; [|done]. apply elem_of_normalized.
      split; [by eapply stand_in_not_orphaned|]. apply elem_of_answered. right. exists e, o.
      repeat split; try done. unfold unanswered. by rewrite Hk, Hout.
  - intros e k (Hor & _)%elem_of_normalized Hk Hs. apply Hcalls.
    unfold orphaned in Hor. rewrite Hk, Hs in Hor. by destruct (has_call items k).
Qed.

Lemma paired_quiet items e : paired items → e ∈ items → unanswered items e = false ∧ orphaned items e = false.
Proof.
  intros [Hc Ho] He. unfold unanswered, orphaned. split.
  - destruct (call_key (item e)) eqn:Hk; [|done]. by rewrite (Hc e).
  - destruct (output_key (item e)) eqn:Hk; [|done]. destruct (server_run (item e)) eqn:Hs; [done|].
    by rewrite (Ho e).
Qed.
Lemma paired_normalized m items : paired items → normalized m items = strip_all m items.
Proof.
  intros Hp. unfold normalized, strip_all. f_equal.
  assert (∀ l, l ⊆ items → List.filter (λ e, negb (orphaned items e)) (l ≫= answered items) = l) as Hl; [|by apply Hl].
  induction l as [|e l IH]; intros Hsub; [done|]. rewrite bind_cons.
  destruct (paired_quiet items e Hp) as [Hu Ho]; [set_solver|].
  unfold answered at 1. rewrite Hu. cbn [app List.filter]. rewrite Ho. cbn [negb]. f_equal. apply IH. set_solver.
Qed.
Lemma paired_unreported items : paired items → existsb (reported items) items = false.
Proof.
  intros Hp. apply not_true_iff_false. intros (e & He & Hr)%existsb_elem.
  destruct (paired_quiet items e Hp He) as [Hu Ho]. unfold reported in Hr. by rewrite Hu, Ho in Hr.
Qed.

(** In a release build normalisation always returns, and in what it returns every call has an
    output of its kind and every output a call, the tool searches run by the server apart. *)
Theorem normalize_items_paired input_modalities items :
  ∃ out, normalize_items false input_modalities items = Some out ∧ paired out.
Proof. rewrite normalize_items_spec. eexists. split; [done|]. apply normalized_paired. Qed.

(** Normalisation is idempotent: normalising its result again, in any build, changes nothing and
    reports nothing. *)
Theorem normalize_items_idempotent debug debug' input_modalities items out :
  normalize_items debug input_modalities items = Some out →
  normalize_items debug' input_modalities out = Some out.
Proof.
  rewrite !normalize_items_spec. case_match; [done|]. intros [= <-].
  pose proof (normalized_paired input_modalities items) as Hp.
  rewrite (paired_unreported _ Hp), andb_false_r, (paired_normalized _ _ Hp). f_equal.
  unfold normalized, strip_all. rewrite <-list_fmap_compose. apply list_fmap_ext. intros ? e _. cbn.
  unfold set_item. cbn. by rewrite strip_item_idemp.
Qed.

(** *** No unsupported media is left *)
Definition no_images (i : ResponseItem) : Prop :=
  match i with
  | Message _ _ content _ _ => Forall (λ c, is_input_image c = false) content
  | FunctionCallOutput _ _ _ _ output _ | CustomToolCallOutput _ _ _ output _ =>
      Forall (λ c, is_output_image c = false) (output_items output)
  | ImageGenerationCall _ _ _ result _ => result = []
  | _ => True
  end.
Definition no_audio (i : ResponseItem) : Prop :=
  match i with
  | Message _ _ content _ _ => Forall (λ c, is_input_audio c = false) content
  | FunctionCallOutput _ _ _ _ output _ | CustomToolCallOutput _ _ _ output _ =>
      Forall (λ c, is_output_audio c = false) (output_items output)
  | _ => True
  end.

Lemma strip_payload_images m o :
  ImageModality ∉ m → Forall (λ c, is_output_image c = false) (output_items (strip_payload m o)).
Proof.
  intros Hm. destruct o as [[text|l] ?]; [by constructor|]. cbn. apply Forall_fmap, Forall_true.
  intros []; cbn; try done; by repeat case_bool_decide.
Qed.
Lemma strip_payload_audio m o :
  AudioModality ∉ m → Forall (λ c, is_output_audio c = false) (output_items (strip_payload m o)).
Proof.
  intros Hm. destruct o as [[text|l] ?]; [by constructor|]. cbn. apply Forall_fmap, Forall_true.
  intros []; cbn; try done; by repeat case_bool_decide.
Qed.
Lemma strip_item_media m i :
  (ImageModality ∉ m → no_images (strip_item m i)) ∧ (AudioModality ∉ m → no_audio (strip_item m i)).
Proof.
  destruct (is_message i) eqn:Hi.
  - rewrite strip_item_message by done. destruct i; try done. split; intros Hm.
    + rewrite (bool_decide_eq_false_2 _ Hm). cbn. rewrite <-list_fmap_compose. apply Forall_fmap, Forall_true.
      intros [[] k]; unfold strip_entry, strip_content; by repeat case_bool_decide.
    + rewrite (bool_decide_eq_false_2 (AudioModality ∈ m) Hm), andb_false_r. cbn.
      rewrite <-list_fmap_compose. apply Forall_fmap, Forall_true.
      intros [[] k]; unfold strip_entry, strip_content; by repeat case_bool_decide.
  - rewrite strip_item_other by done. split; intros Hm; destruct i; try done; cbn;
      auto using strip_payload_images, strip_payload_audio. by rewrite bool_decide_eq_false_2.
Qed.

(** After normalisation for a model, no message or tool output contains an image or a sound the
    model does not accept, and no generated image is left in the history of a model without images. *)
Theorem normalized_media debug input_modalities items out e :
  normalize_items debug input_modalities items = Some out → e ∈ out →
  (ImageModality ∉ input_modalities → no_images (item e)) ∧
  (AudioModality ∉ input_modalities → no_audio (item e)).
Proof.
  rewrite normalize_items_spec. case_match; [done|]. intros [= <-] (e' & -> & _)%list_elem_of_fmap.
  apply strip_item_media.
Qed.

(** ** Dropping the oldest item *)
Definition unique_ids items : Prop :=
  NoDup (omap (λ e, call_key (item e)) items) ∧ NoDup (omap (λ e, output_key (item e)) items).

(** The other half of a pair. *)
Definition partner (i j : ResponseItem) : bool :=
  match call_key i with
  | Some k => bool_decide (output_key j = Some k)
  | None => match output_key i with Some k => bool_decide (call_key j = Some k) | None => false end
  end.

Lemma position_Some {A} (p : A → bool) l i :
  position p l = Some i →
  ∃ l1 x l2, l = l1 ++ x :: l2 ∧ p x = true ∧ vec_remove i l = Some (l1 ++ l2).
Proof.
  revert i. induction l as [|x l IH]; intros i; cbn; [done|]. destruct (p x) eqn:Hx.
  - intros [= <-]. by exists [], x, l.
  - destruct (position p l) as [j|]; [|done]. intros [= <-].
    destruct (IH j eq_refl) as (l1 & y & l2 & -> & Hy & Hr). exists (x :: l1), y, l2. repeat split; [done|].
    revert Hr. unfold vec_remove. cbn [length].
    destruct (j <? length (l1 ++ y :: l2)) eqn:Hj; [|done]. intros [= Hd].
    change (S j <? S ?n) with (j <? n). rewrite Hj.
    change (delete (S j) (x :: ?l)) with (x :: delete j l). by rewrite Hd.
Qed.
Lemma position_None {A} (p : A → bool) l : position p l = None → Forall (λ x, p x = false) l.
Proof.
  induction l as [|x l IH]; cbn; [done|]. destruct (p x) eqn:Hx; [done|].
  destruct (position p l); [done|]. constructor; auto.
Qed.
Lemma filter_all {A} (f : A → bool) l : Forall (λ x, f x = true) l → List.filter f l = l.
Proof. induction 1 as [|x l Hx _ IH]; cbn; [done|]. by rewrite Hx, IH. Qed.

(** Removing the first item with a key that occurs once. *)
Lemma remove_keyed {A B} `{EqDecision B} (key : A → option B) (p : A → bool) (b : B) (l : list A) (i : nat) :
  NoDup (omap key l) → (∀ x, p x = true → key x = Some b) → position p l = Some i →
  vec_remove i l = Some (List.filter (λ x, negb (bool_decide (key x = Some b))) l).
Proof.
  intros Hnd Hp (l1 & x & l2 & -> & Hx & ->)%position_Some. f_equal. apply Hp in Hx.
  rewrite omap_app in Hnd. cbn in Hnd. rewrite Hx in Hnd.
  apply NoDup_app in Hnd as (_ & Hd & [Hn _]%NoDup_cons).
  rewrite List.filter_app. cbn [List.filter]. rewrite bool_decide_eq_true_2 by done. cbn [negb].
  rewrite !filter_all; [done|..]; apply Forall_forall; intros y Hy; apply negb_true_iff, bool_decide_eq_false_2;
    intros Hk.
  - apply Hn, list_elem_of_omap. eauto.
  - apply (Hd b); [apply list_elem_of_omap; eauto|by left].
Qed.

Lemma remove_first_keyed (key : ResponseItem → option (Family * str)) (p : ResponseItem → bool) k l :
  NoDup (omap (λ e, key (item e)) l) → (∀ i, p i = bool_decide (key i = Some k)) →
  remove_first_matching l p = Some (List.filter (λ e, negb (bool_decide (key (item e) = Some k))) l).
Proof.
  intros Hnd Hp. unfold remove_first_matching. destruct (position _ l) as [i|] eqn:Hi.
  - apply (remove_keyed _ _ k _ _ Hnd) in Hi; [done|]. intros x Hx. rewrite Hp in Hx. by apply bool_decide_eq_true in Hx.
  - apply position_None in Hi. f_equal. rewrite filter_all; [done|]. eapply Forall_impl; [exact Hi|].
    intros e He. cbn in He. by rewrite <-Hp, He.
Qed.

(** The patterns of [remove_corresponding_for] test keys. *)
Lemma key_tests id (i : ResponseItem) :
  (is_function_output_of id i = bool_decide (output_key i = Some (FunctionFamily, id))) ∧
  (is_tool_search_output_of id i = bool_decide (output_key i = Some (ToolSearchFamily, id))) ∧
  (is_custom_output_of id i = bool_decide (output_key i = Some (CustomFamily, id))) ∧
  (is_tool_search_call_of id i = bool_decide (call_key i = Some (ToolSearchFamily, id))) ∧
  (is_custom_call_of id i = bool_decide (call_key i = Some (CustomFamily, id))) ∧
  (is_function_call_of id i || is_local_shell_call_of id i = bool_decide (call_key i = Some (FunctionFamily, id))).
Proof.
  destruct i; try destruct call_id; cbn; repeat split; try done; rewrite ?orb_false_r;
    apply bool_decide_ext; naive_solver.
Qed.

Lemma remove_corresponding_spec l i :
  unique_ids l →
  remove_corresponding_for l i = Some (List.filter (λ e, negb (partner i (item e))) l).
Proof.
  intros [Hc Ho]. assert (List.filter (λ _, negb false) l = l) as Hid by (apply filter_all, Forall_true; done).
  destruct i as [| | | |? [id|] | | ? [id|]| ? [id|]| | |? [id|]| | | | | | |];
    unfold partner; cbn [remove_corresponding_for call_key output_key];
    try (by rewrite Hid); try (apply remove_first_keyed; [done|]; intros i; apply (key_tests _ i)).
  (* an output of the function family looks for either kind of call *)
  pose proof (λ e, proj2 (proj2 (proj2 (proj2 (proj2 (key_tests id (item e))))))) as Hkey.
  destruct (position _ l) as [n|] eqn:H1.
  { apply (remove_keyed _ _ (FunctionFamily, id) _ _ Hc) in H1; [done|].
    intros x Hx. eapply bool_decide_eq_true_1. by rewrite <-Hkey, Hx. }
  destruct (position (λ envelope, is_local_shell_call_of id (item envelope)) l) as [n|] eqn:H2.
  { apply (remove_keyed _ _ (FunctionFamily, id) _ _ Hc) in H2; [done|].
    intros x Hx. eapply bool_decide_eq_true_1. by rewrite <-Hkey, Hx, orb_true_r. }
  f_equal. symmetry. apply filter_all. apply position_None in H1, H2. rewrite Forall_forall in H1, H2 |- *.
  intros x Hx. by rewrite <-Hkey, (H1 x Hx), (H2 x Hx).
Qed.

Lemma keys_exclusive (i : ResponseItem) k k' : call_key i = Some k → output_key i = Some k' → False.
Proof. by destruct i. Qed.

Lemma unique_ids_cons h t k :
  unique_ids (h :: t) → ∀ e, e ∈ t →
  (call_key (item h) = Some k → call_key (item e) ≠ Some k) ∧
  (output_key (item h) = Some k → output_key (item e) ≠ Some k).
Proof.
  intros [Hc Ho] e He. cbn in Hc, Ho. split; intros Hh Hk.
  - rewrite Hh in Hc. apply NoDup_cons in Hc as [Hc _]. apply Hc, list_elem_of_omap. eauto.
  - rewrite Hh in Ho. apply NoDup_cons in Ho as [Ho _]. apply Ho, list_elem_of_omap. eauto.
Qed.
Lemma unique_ids_filter h t f : unique_ids (h :: t) → unique_ids (List.filter f t).
Proof.
  assert (∀ (key : ResponseItemEnvelope → option (Family * str)) l,
    NoDup (omap key l) → NoDup (omap key (List.filter f l))) as Hf.
  { intros key l. induction l as [|x l IH]; cbn; [done|]. destruct (key x) as [k|] eqn:Hk.
    - intros [Hn Hnd]%NoDup_cons. destruct (f x); cbn; [|auto]. rewrite Hk. constructor; [|auto].
      intros (y & Hy & Hyk)%list_elem_of_omap. apply elem_of_filterb in Hy as [Hy _].
      apply Hn, list_elem_of_omap. eauto.
    - intros Hnd. destruct (f x); cbn; rewrite ?Hk; auto. }
  intros [Hc Ho]. split; apply Hf.
  - cbn in Hc. destruct (call_key (item h)); [by apply NoDup_cons in Hc as [_ Hc]|done].
  - cbn in Ho. destruct (output_key (item h)); [by apply NoDup_cons in Ho as [_ Ho]|done].
Qed.

Lemma partner_true (i j : ResponseItem) :
  partner i j = true ↔ ∃ k, (call_key i = Some k ∧ output_key j = Some k) ∨ (output_key i = Some k ∧ call_key j = Some k).
Proof.
  unfold partner. destruct (call_key i) as [k|] eqn:Hc; [|destruct (output_key i) as [k|] eqn:Ho].
  - rewrite bool_decide_eq_true. split; [naive_solver|]. intros (k' & [[[= <-] ?]|[Ho _]]); [done|].
    by destruct (keys_exclusive i k k').
  - rewrite bool_decide_eq_true. naive_solver.
  - naive_solver.
Qed.

Lemma paired_drop h t :
  paired (h :: t) → unique_ids (h :: t) → paired (List.filter (λ e, negb (partner (item h) (item e))) t).
Proof.
  intros [Hcalls Houts] Hu. split.
  - intros e k [He Hp]%elem_of_filterb Hk. apply negb_true_iff, not_true_iff_false in Hp. rewrite partner_true in Hp.
    destruct (proj1 (has_output_true _ _) (Hcalls e k (list_elem_of_further _ _ _ He) Hk)) as (o & Ho & Hok).
    apply elem_of_cons in Ho as [->|Ho]; [exfalso; eauto|].
    apply has_output_true. exists o. split; [|done]. apply elem_of_filterb. split; [done|].
    apply negb_true_iff, not_true_iff_false. rewrite partner_true.
    intros (k' & [[Hh Ho']|[_ Ho']]); [|by eapply keys_exclusive].
    simplify_eq. by destruct (unique_ids_cons h t k Hu e He) as [Hn _]; apply Hn.
  - intros e k [He Hp]%elem_of_filterb Hk Hs. apply negb_true_iff, not_true_iff_false in Hp. rewrite partner_true in Hp.
    destruct (proj1 (has_call_true _ _) (Houts e k (list_elem_of_further _ _ _ He) Hk Hs)) as (c & Hc & Hck).
    apply elem_of_cons in Hc as [->|Hc]; [exfalso; eauto|].
    apply has_call_true. exists c. split; [|done]. apply elem_of_filterb. split; [done|].
    apply negb_true_iff, not_true_iff_false. rewrite partner_true.
    intros (k' & [[_ Hc']|[Hh Hc']]); [by eapply keys_exclusive|].
    simplify_eq. by destruct (unique_ids_cons h t k Hu e He) as [_ Hn]; apply Hn.
Qed.

(** Dropping the oldest item of a history whose calls and outputs are paired, under ids that are
    not reused, drops exactly that item and the other half of its pair, without a panic: the history
    stays paired without being normalised again, and the world-state baseline is cleared. *)
Theorem remove_first_item_keeps_pairs {T S} (self : @ContextManager W T S) :
  paired (items self) → unique_ids (items self) → items self ≠ [] →
  ∃ self' oldest rest,
    remove_first_item self = Some self' ∧ items self = oldest :: rest ∧
    items self' = List.filter (λ e, negb (partner (item oldest) (item e))) rest ∧
    paired (items self') ∧ unique_ids (items self') ∧ world_state_baseline self' = None.
Proof.
  intros Hp Hu Hne. unfold remove_first_item. destruct (items self) as [|h t]; [done|].
  assert (unique_ids t) as Ht.
  { rewrite <-(filter_all (λ _, true) t) by (apply Forall_true; done). by eapply unique_ids_filter. }
  rewrite (remove_corresponding_spec t (item h) Ht). cbn [mbind option_bind].
  eexists _, h, t. repeat split; [..|by eapply unique_ids_filter|by eapply unique_ids_filter]; by apply paired_drop.
Qed.
End pairing.

(** ** Rolling back and counting *)
Section history_spec.
Context {W : Wire} {Es : Estimates} {Fr : Fragments}.
Notation ResponseItem := (@ResponseItem W).
Notation ResponseItemEnvelope := (@ResponseItemEnvelope W).
Implicit Types (e : ResponseItemEnvelope) (snapshot : list ResponseItemEnvelope).

(** Context injected before a turn, and developer messages that hold more than such context. *)
Definition pre_turn_context e : bool :=
  match item e with
  | Message _ role content _ _ =>
      (bool_decide (role = $"developer") && is_contextual_dev_message_content content)
      || (bool_decide (role = $"user") && is_contextual_user_message_content content)
  | _ => false
  end.
Definition mixed_bundle e : bool :=
  match item e with
  | Message _ role content _ _ =>
      bool_decide (role = $"developer") && is_contextual_dev_message_content content
      && has_non_contextual_dev_message_content content
  | _ => false
  end.
(** [snapshot[a..b]]. *)
Definition between (a b : nat) snapshot : list ResponseItemEnvelope := take (b - a) (drop a snapshot).

Lemma between_snoc a b snapshot e :
  a ≤ b → snapshot !! b = Some e → between a (S b) snapshot = between a b snapshot ++ [e].
Proof.
  intros Hab He. unfold between. replace (S b - a) with (S (b - a)) by lia.
  apply take_S_r. rewrite lookup_drop. by replace (a + (b - a)) with b by lia.
Qed.

(** One step of the walk back. *)
Lemma trim_loop_step snapshot first before cleared e :
  first ≤ before → snapshot !! before = Some e →
  trim_loop snapshot first (S before) cleared =
  if pre_turn_context e then trim_loop snapshot first before (cleared || mixed_bundle e)
  else Some (S before, cleared).
Proof.
  intros Hle He. cbn [trim_loop]. rewrite (proj2 (Nat.ltb_lt _ _)) by lia. rewrite He. cbn [mbind option_bind].
  unfold pre_turn_context, mixed_bundle. destruct (item e) as [|? role content ? ?| | | | | | | | | | | | | | | |]; try done.
  destruct (decide (role = $"developer")) as [->|Hd].
  - rewrite bool_decide_eq_true_2 by done. cbn [andb].
    destruct (is_contextual_dev_message_content content); cbn [andb orb]; [done|].
    by rewrite bool_decide_eq_false_2 by done.
  - rewrite (bool_decide_eq_false_2 (role = $"developer")) by done. cbn [andb orb]. by rewrite orb_false_r.
Qed.

Lemma trim_loop_spec snapshot first cut cleared :
  first ≤ cut → cut ≤ length snapshot →
  ∃ cut', trim_loop snapshot first cut cleared = Some (cut', cleared || existsb mixed_bundle (between cut' cut snapshot)) ∧
    first ≤ cut' ∧ cut' ≤ cut ∧ Forall (λ e, pre_turn_context e = true) (between cut' cut snapshot) ∧
    (cut' = first ∨ ∃ e, snapshot !! (cut' - 1) = Some e ∧ pre_turn_context e = false).
Proof.
  revert cleared. induction cut as [|before IH]; intros cleared Hle Hlen.
  { exists 0. cbn. rewrite orb_false_r. repeat split; auto with lia. }
  destruct (decide (first = S before)) as [->|Hne].
  { exists (S before). unfold between. rewrite Nat.sub_diag. cbn [trim_loop take existsb].
    rewrite Nat.ltb_irrefl, orb_false_r. repeat split; auto with lia. }
  destruct (lookup_lt_is_Some_2 snapshot before) as [e He]; [lia|].
  rewrite (trim_loop_step snapshot first before cleared e) by (done || lia).
  destruct (pre_turn_context e) eqn:Hctx.
  - destruct (IH (cleared || mixed_bundle e)) as (cut' & Ht & Hl & Hc & Hall & Hend); [lia..|].
    exists cut'. rewrite Ht, (between_snoc cut' before snapshot e), existsb_app by done. cbn [existsb].
    repeat split; [|lia|lia|apply Forall_app_2; [done|by repeat constructor]|done].
    do 2 f_equal. rewrite orb_false_r, <-!orb_assoc. f_equal. apply orb_comm.
  - exists (S before). unfold between. rewrite Nat.sub_diag. cbn [take existsb]. rewrite orb_false_r.
    repeat split; auto with lia. right. exists e. by rewrite Nat.sub_1_r.
Qed.

(** The walk back from a rollback cut removes exactly the run of injected context directly before
    it, never crosses the first instruction turn, always returns, and forgets the reference context
    exactly when a removed developer message also held text that is not injected context. *)
Theorem trim_pre_turn_spec {T S} (self : @ContextManager W T S) snapshot first cut :
  first ≤ cut → cut ≤ length snapshot →
  ∃ self' cut', trim_pre_turn_context_updates self snapshot first cut = Some (self', cut') ∧
    first ≤ cut' ∧ cut' ≤ cut ∧
    Forall (λ e, pre_turn_context e = true) (between cut' cut snapshot) ∧
    (cut' = first ∨ ∃ e, snapshot !! (cut' - 1) = Some e ∧ pre_turn_context e = false) ∧
    items self' = items self ∧ token_info self' = token_info self ∧
    world_state_baseline self' = world_state_baseline self ∧
    reference_context_item self' =
      if existsb mixed_bundle (between cut' cut snapshot) then None else reference_context_item self.
Proof.
  intros Hle Hlen. unfold trim_pre_turn_context_updates.
  destruct (trim_loop_spec snapshot first cut false Hle Hlen) as (cut' & -> & Hf & Hc & Hall & Hend).
  eexists _, cut'. cbn [mbind option_bind]. repeat split; done.
Qed.

(** *** Token totals *)
Definition tokens_of (l : list ResponseItemEnvelope) : Z :=
  foldr (λ e n, estimate_item_token_count (item e) + n)%Z 0%Z l.

Lemma estimate_nonneg (i : ResponseItem) : (0 <= estimate_item_token_count i <= I64_MAX)%Z.
Proof.
  unfold estimate_item_token_count, approx_tokens_from_byte_count_i64, i64_of_usize, I64_MAX.
  destruct (_ <=? 0)%Z; lia.
Qed.
Lemma tokens_of_nonneg l : (0 <= tokens_of l)%Z.
Proof.
  induction l as [|e l IH]; cbn; [done|]. pose proof (estimate_nonneg (item e)).
  fold (tokens_of l). lia.
Qed.
Lemma sum_tokens_spec l : sum_tokens l = Z.min (tokens_of l) I64_MAX.
Proof.
  unfold sum_tokens. assert (∀ acc, (0 <= acc <= I64_MAX)%Z →
    foldl (λ acc e, saturating_add_i64 acc (estimate_item_token_count (item e))) acc l
    = Z.min (acc + tokens_of l) I64_MAX) as Hacc.
  { induction l as [|e l IH]; intros acc Ha; cbn [foldl tokens_of foldr].
    { unfold I64_MAX in *. lia. }
    pose proof (estimate_nonneg (item e)). pose proof (tokens_of_nonneg l). fold (tokens_of l).
    rewrite IH by (unfold saturating_add_i64, clamp_i64, I64_MAX, I64_MIN in *; lia).
    unfold saturating_add_i64, clamp_i64, I64_MAX, I64_MIN in *. lia. }
  rewrite Hacc by (unfold I64_MAX; lia). done.
Qed.
Lemma saturating_sum a b :
  (0 <= a <= I64_MAX)%Z → (0 <= b)%Z → saturating_add_i64 a (Z.min b I64_MAX) = Z.min (a + b) I64_MAX.
Proof. unfold saturating_add_i64, clamp_i64, I64_MAX, I64_MIN. lia. Qed.

Lemma rposition_Some {A} (p : A → bool) l i :
  rposition p l = Some i → ∃ l1 x l2, l = l1 ++ x :: l2 ∧ p x = true ∧ Forall (λ y, p y = false) l2 ∧ i = length l1.
Proof.
  revert i. induction l as [|x l IH]; intros i; cbn; [done|]. destruct (rposition p l) as [j|] eqn:Hj.
  - intros [= <-]. destruct (IH j eq_refl) as (l1 & y & l2 & -> & Hy & Hl2 & ->). by exists (x :: l1), y, l2.
  - destruct (p x) eqn:Hx; [|done]. intros [= <-]. exists [], x, l. repeat split; [done|]. clear IH Hx.
    induction l as [|y l IH]; [done|]. cbn in Hj. destruct (rposition p l); [done|].
    destruct (p y) eqn:Hy; [done|]. constructor; auto.
Qed.
Lemma rposition_None {A} (p : A → bool) l : rposition p l = None → Forall (λ y, p y = false) l.
Proof.
  induction l as [|y l IH]; [done|]. cbn. destruct (rposition p l); [done|].
  destruct (p y) eqn:Hy; [done|]. constructor; auto.
Qed.

(** The token total is the last reported total plus the estimates of the items after the last
    item the model produced (none when it produced none), plus, unless the server counted them, the
    estimates of the encrypted reasoning before the last instruction; sums stop at the largest [i64]
    and never wrap. *)
Theorem total_token_usage_spec {T S} (self : @ContextManager W T S) reported_total :
  reported_total = match token_info self with Some info => total_tokens (last_token_usage info) | None => 0%Z end →
  (0 <= reported_total <= I64_MAX)%Z →
  ∃ after earlier,
    ((after = [] ∧ Forall (λ e, is_model_generated_item (item e) = false) (items self)) ∨
     ∃ before generated, items self = before ++ generated :: after ∧
       is_model_generated_item (item generated) = true ∧
       Forall (λ e, is_model_generated_item (item e) = false) after) ∧
    ((earlier = [] ∧ Forall (λ e, is_user_turn_boundary (item e) = false) (items self)) ∨
     ∃ instruction later, items self = earlier ++ instruction :: later ∧
       is_user_turn_boundary (item instruction) = true ∧
       Forall (λ e, is_user_turn_boundary (item e) = false) later) ∧
    get_total_token_usage self true = Z.min (reported_total + tokens_of after) I64_MAX ∧
    get_total_token_usage self false =
      Z.min (reported_total + tokens_of (List.filter (λ e, is_encrypted_reasoning (item e)) earlier)
             + tokens_of after) I64_MAX.
Proof.
  intros Hr Hlast. unfold get_total_token_usage. rewrite <-Hr. clear Hr.
  exists (items_after_last_model_generated_item self),
    (match rposition (λ e, is_user_turn_boundary (item e)) (items self) with
     | Some n => take n (items self) | None => [] end).
  rewrite sum_tokens_spec.
  pose proof (tokens_of_nonneg (items_after_last_model_generated_item self)) as Ha.
  assert (get_non_last_reasoning_items_tokens self = Z.min (tokens_of (List.filter
     (λ e, is_encrypted_reasoning (item e))
     (match rposition (λ e, is_user_turn_boundary (item e)) (items self) with
      | Some n => take n (items self) | None => [] end))) I64_MAX) as ->.
  { unfold get_non_last_reasoning_items_tokens. case_match; [apply sum_tokens_spec|done]. }
  set (earlier := match rposition _ _ with Some _ => _ | None => _ end).
  pose proof (tokens_of_nonneg (List.filter (λ e, is_encrypted_reasoning (item e)) earlier)) as He.
  split_and!.
  - unfold items_after_last_model_generated_item.
    destruct (rposition (λ e, is_model_generated_item (item e)) (items self)) as [n|] eqn:Hn.
    + apply rposition_Some in Hn as (l1 & g & l2 & -> & Hg & Hl2 & ->). right. exists l1, g.
      replace (drop (Datatypes.S (length l1)) (l1 ++ g :: l2)) with l2; [done|].
      rewrite <-Nat.add_1_r. by rewrite drop_app_add.
    + left. split; [apply drop_ge; done|]. by apply rposition_None.
  - unfold earlier. destruct (rposition _ (items self)) as [n|] eqn:Hn.
    + apply rposition_Some in Hn as (l1 & g & l2 & -> & Hg & Hl2 & ->). right. exists g, l2.
      by rewrite take_app_length.
    + left. split; [done|]. by apply rposition_None.
  - by apply saturating_sum.
  - rewrite (saturating_sum reported_total) by done.
    rewrite saturating_sum by (unfold I64_MAX in *; lia). unfold I64_MAX in *. lia.
Qed.
End history_spec.

(** ** Witnesses *)
Definition demo_wire : Wire :=
  {| Value := unit; Number := unit; ExecutedToolCall := unit; new_v5 _ name := name |}.
Definition demo_estimates : @Estimates demo_wire :=
  {| serialized_json_bytes _ := Some 40%N; decode_image _ := None; estimate_audio_token_count _ := 10%N |}.
Definition demo_fragments : Fragments :=
  {| is_contextual_user_fragment c :=
       match c with MessageContent.InputText text => starts_with ($"<environment_context>") text | _ => false end;
     parses_as_communication _ := false |}.

Section demo.
Local Existing Instance demo_wire.
Local Existing Instance demo_estimates.
Local Existing Instance demo_fragments.

Definition demo_call (id : string) : ResponseItemEnvelope :=
  new_envelope (FunctionCall (Some ($"fc1")) ($"shell") None ($"{}") None (lit id) None).
Definition demo_answer (id : string) : ResponseItemEnvelope :=
  new_envelope (FunctionCallOutput None (Some (lit id)) None None
    (mkPayload (ContentItems [InputImage ($"data:") None; InputText ($"ok")]) None) None).
Definition demo_text (role text : string) : ResponseItemEnvelope :=
  new_envelope (Message None (lit role) [MessageContent.InputText (lit text)] None None).
Definition demo_context : ResponseItemEnvelope :=
  new_envelope (Message None ($"developer")
    [MessageContent.InputText ($"<model_switch> x"); MessageContent.InputText ($"keep")] None None).

(** A call without its output, an orphan, and a pair with an image. *)
Definition demo_history : list ResponseItemEnvelope :=
  [demo_text "user" "hi"; demo_call "a"; demo_answer "b"; demo_call "c"; demo_answer "c"].
Definition demo_manager (l : list ResponseItemEnvelope) : @ContextManager _ nat nat :=
  mkManager l (Some (mkUsageInfo default_usage (usage_of_total 100) None)) (Some 1) (Some 2).

Example demo_normalized :
  option_map (map item) (normalize_items false [TextModality] demo_history) =
  Some [ Message None ($"user") [MessageContent.InputText ($"hi")] None
           (Some (mkPassthrough None None (Some [$"unknown"]) None None None));
         item (demo_call "a");
         FunctionCallOutput (Some ($"fco_fco:fc1")) (Some ($"a")) None None (from_text ($"aborted")) None;
         item (demo_call "c");
         FunctionCallOutput None (Some ($"c")) None None
           (mkPayload (ContentItems [InputText (render UNSUPPORTED_IMAGE); InputText ($"ok")]) None) None ].
Proof. vm_compute. reflexivity. Qed.
Example demo_debug_panics : normalize_items true [TextModality] demo_history = None.
Proof. vm_compute. reflexivity. Qed.

Lemma normalize_items_idempotent_witness :
  ∃ out, normalize_items false [TextModality] demo_history = Some out ∧
         normalize_items true [TextModality] out = Some out.
Proof.
  eexists. split; [vm_compute; reflexivity|].
  apply (normalize_items_idempotent false true [TextModality] demo_history). vm_compute. reflexivity.
Defined.

Lemma normalized_media_witness :
  ∃ out e, normalize_items false [TextModality] demo_history = Some out ∧ out !! 4 = Some e ∧ no_images (item e).
Proof.
  eexists _, _. split; [vm_compute; reflexivity|]. split; [reflexivity|].
  eapply (normalized_media false [TextModality] demo_history); [vm_compute; reflexivity|..].
  - eapply list_elem_of_lookup_2 with (i := 4). reflexivity.
  - apply (bool_decide_unpack (ImageModality ∉ [TextModality])). vm_compute. exact I.
Defined.

Definition demo_paired : list ResponseItemEnvelope := [demo_call "c"; demo_text "user" "hi"; demo_answer "c"].
Lemma demo_paired_ok : paired demo_paired ∧ unique_ids demo_paired.
Proof.
  split; [|by split; apply (bool_decide_unpack (NoDup _)); vm_compute]. split; intros e k He; unfold demo_paired in He;
    repeat (apply elem_of_cons in He as [->|He]); try (by apply not_elem_of_nil in He); cbn; intros; simplify_eq;
    vm_compute; reflexivity.
Qed.
Lemma remove_first_item_keeps_pairs_witness :
  ∃ self', remove_first_item (demo_manager demo_paired) = Some self' ∧ items self' = [demo_text "user" "hi"] ∧
           paired (items self').
Proof.
  destruct (remove_first_item_keeps_pairs (demo_manager demo_paired)
    (proj1 demo_paired_ok) (proj2 demo_paired_ok) ltac:(discriminate))
    as (self' & h & t & Hr & Hht & Hf & Hp & _).
  exists self'. split; [exact Hr|]. split; [|exact Hp]. vm_compute in Hr. injection Hr as <-. reflexivity.
Defined.

Definition demo_rollback : list ResponseItemEnvelope :=
  [demo_text "user" "first"; demo_text "assistant" "done"; demo_context;
   demo_text "user" "<environment_context>"; demo_text "user" "second"].
Lemma trim_pre_turn_spec_witness :
  ∃ self', trim_pre_turn_context_updates (demo_manager demo_rollback) demo_rollback 0 4 = Some (self', 2) ∧
           reference_context_item self' = None ∧
           Forall (λ e, pre_turn_context e = true) (between 2 4 demo_rollback).
Proof.
  destruct (trim_pre_turn_spec (demo_manager demo_rollback) demo_rollback 0 4 ltac:(lia) ltac:(cbn; lia))
    as (self' & cut' & Ht & _ & _ & Hall & _ & _ & _ & _ & Href).
  assert (cut' = 2) as -> by (vm_compute in Ht; congruence).
  exists self'. split; [exact Ht|]. split; [|exact Hall]. rewrite Href. vm_compute. reflexivity.
Defined.

Lemma total_token_usage_spec_witness :
  (0 <= 100 <= I64_MAX)%Z ∧ get_total_token_usage (demo_manager demo_history) true = 110%Z ∧
  ∃ after, get_total_token_usage (demo_manager demo_history) true = Z.min (100 + tokens_of after) I64_MAX.
Proof.
  split; [vm_compute; split; discriminate|]. split; [vm_compute; reflexivity|].
  destruct (total_token_usage_spec (demo_manager demo_history) 100 eq_refl
    ltac:(vm_compute; split; discriminate)) as (after & earlier & _ & _ & Ht & _).
  exists after. exact Ht.
Defined.
End demo.
