(* ===== verification/NetAddr.v ===== *)
(** * Internet addresses: what the proxy uses of [std::net], and
    [is_non_public_ip] of [network-proxy/src/policy.rs]

    An address is its number, of 32 or 128 bits. Reading an address from text
    follows the parser of the standard library: four decimal numbers without
    leading zeros, or eight groups of hexadecimal digits, some of which may be
    left out at one [::] and the last two of which may be written as an IPv4
    address. *)

From stdpp Require Import prelude list strings.
From S2P Require Import Prelude.

Inductive IpAddr : Type := V4 (bits : N) | V6 (bits : N).
#[export] Instance IpAddr_eq_dec : EqDecision IpAddr.
Proof. solve_decision. Defined.

(** ** Reading addresses *)
Definition DOT : char := 46%N.
Definition COLON : char := 58%N.

(** [char::to_digit]. *)
Definition to_digit (radix : N) (c : char) : option N :=
  let d := if is_ascii_digit c then Some (c - 48)%N
           else if ((97 <=? c) && (c <=? 102))%N then Some (c - 87)%N
           else if ((65 <=? c) && (c <=? 70))%N then Some (c - 55)%N
           else None in
  match d with Some d => if (d <? radix)%N then Some d else None | None => None end.

Definition read_given_char (c : char) (s : str) : option str :=
  match s with d :: s' => if (d =? c)%N then Some s' else None | [] => None end.

(** The digits at the front: their value and their number. *)
Fixpoint read_digits (radix value : N) (count : nat) (s : str) : N * nat * str :=
  match s with
  | c :: s' =>
      match to_digit radix c with
      | Some d => read_digits radix (value * radix + d)%N (S count) s'
      | None => (value, count, s)
      end
  | [] => (value, count, s)
  end.

Definition read_number (radix : N) (max_digits : nat) (allow_zero_prefix : bool) (max_value : N) (s : str)
    : option (N * str) :=
  let has_leading_zero := bool_decide (head s = Some 48%N) in
  let '(value, count, rest) := read_digits radix 0 0 s in
  if (max_digits <? count) || (count =? 0) then None
  else if negb allow_zero_prefix && has_leading_zero && (1 <? count) then None
  else if (value <=? max_value)%N then Some (value, rest) else None.

(** [read_separator]: a separator before every part but the first. *)
Definition read_separator {A} (sep : char) (first : bool) (inner : str → option (A * str)) (s : str)
    : option (A * str) :=
  if first then inner s else s ← read_given_char sep s; inner s.

Definition read_ipv4_addr (s : str) : option (N * str) :=
  let octet := read_number 10 3 false 255 in
  '(a, s) ← read_separator DOT true octet s;
  '(b, s) ← read_separator DOT false octet s;
  '(c, s) ← read_separator DOT false octet s;
  '(d, s) ← read_separator DOT false octet s;
  Some (a * 2 ^ 24 + b * 2 ^ 16 + c * 2 ^ 8 + d, s)%N.

(** [read_groups]: the groups read, whether they end in an IPv4 address, and the rest. *)
Fixpoint read_groups (slots : nat) (first : bool) (s : str) : list N * bool * str :=
  match slots with
  | 0 => ([], false, s)
  | S slots =>
      match (if 1 <=? slots then read_separator COLON first read_ipv4_addr s else None) with
      | Some (v4, s) => ([v4 / 2 ^ 16; v4 mod 2 ^ 16]%N, true, s)
      | None =>
          match read_separator COLON first (read_number 16 4 true 65535) s with
          | Some (group, s) => let '(groups, ipv4, s) := read_groups slots false s in (group :: groups, ipv4, s)
          | None => ([], false, s)
          end
      end
  end.

Definition of_groups (groups : list N) : N := foldl (λ acc g, acc * 2 ^ 16 + g)%N 0%N groups.

Definition read_ipv6_addr (s : str) : option (N * str) :=
  let '(head, head_ipv4, s) := read_groups 8 true s in
  if length head =? 8 then Some (of_groups head, s)
  else if head_ipv4 then None
  else
    s ← read_given_char COLON s;
    s ← read_given_char COLON s;
    let '(tail, _, s) := read_groups (8 - (length head + 1)) true s in
    Some (of_groups (head ++ replicate (8 - length head - length tail) 0%N ++ tail), s).

(** [str::parse::<IpAddr>]. *)
Definition parse_ip (s : str) : option IpAddr :=
  match match read_ipv4_addr s with
        | Some (v4, rest) => Some (V4 v4, rest)
        | None => '(v6, rest) ← read_ipv6_addr s; Some (V6 v6, rest)
        end with
  | Some (ip, []) => Some ip
  | _ => None
  end.

Example parse_ip_examples :
  parse_ip ($"127.0.0.1") = Some (V4 0x7f000001) ∧ parse_ip ($"127.00.0.1") = None ∧
  parse_ip ($"256.0.0.1") = None ∧ parse_ip ($"127.0.0") = None ∧
  parse_ip ($"::1") = Some (V6 1) ∧ parse_ip ($"::") = Some (V6 0) ∧
  parse_ip ($"fe80::a:b") = Some (V6 0xfe8000000000000000000000000a000b) ∧
  parse_ip ($"::ffff:10.0.0.1") = Some (V6 0xffff0a000001) ∧
  parse_ip ($"1:2:3:4:5:6:7:8") = Some (V6 0x00010002000300040005000600070008) ∧
  parse_ip ($"1:2:3:4:5:6:7") = None ∧ parse_ip ($"1::2::3") = None ∧ parse_ip ($"fe80::1%eth0") = None.
Proof. vm_compute. repeat split. Qed.

(** ** Kinds of addresses *)
Definition octet (i : N) (v4 : N) : N := N.land (N.shiftr v4 (8 * (3 - i))) 255.

Definition ipv4_is_loopback (ip : N) : bool := (octet 0 ip =? 127)%N.
Definition ipv4_is_private (ip : N) : bool :=
  ((octet 0 ip =? 10)
   || (octet 0 ip =? 172) && (16 <=? octet 1 ip) && (octet 1 ip <=? 31)
   || (octet 0 ip =? 192) && (octet 1 ip =? 168))%N.
Definition ipv4_is_link_local (ip : N) : bool := ((octet 0 ip =? 169) && (octet 1 ip =? 254))%N.
Definition ipv4_is_unspecified (ip : N) : bool := (ip =? 0)%N.
Definition ipv4_is_multicast (ip : N) : bool := ((224 <=? octet 0 ip) && (octet 0 ip <=? 239))%N.
Definition ipv4_is_broadcast (ip : N) : bool := (ip =? 0xffffffff)%N.

Definition first_segment (ip : N) : N := N.shiftr ip 112.
Definition ipv6_is_loopback (ip : N) : bool := (ip =? 1)%N.
Definition ipv6_is_unspecified (ip : N) : bool := (ip =? 0)%N.
Definition ipv6_is_multicast (ip : N) : bool := (N.land (first_segment ip) 0xff00 =? 0xff00)%N.
Definition ipv6_is_unique_local (ip : N) : bool := (N.land (first_segment ip) 0xfe00 =? 0xfc00)%N.
Definition ipv6_is_unicast_link_local (ip : N) : bool := (N.land (first_segment ip) 0xffc0 =? 0xfe80)%N.
(** [Ipv6Addr::to_ipv4]: five zero segments, then zero or [ffff], then the address. *)
Definition to_ipv4 (ip : N) : option N :=
  let high := N.shiftr ip 32 in
  if ((high =? 0) || (high =? 0xffff))%N then Some (N.land ip 0xffffffff) else None.

Definition is_loopback (ip : IpAddr) : bool :=
  match ip with V4 ip => ipv4_is_loopback ip | V6 ip => ipv6_is_loopback ip end.

(** ** [policy.rs] *)
Definition u32_of_octets (base : N * N * N * N) : N :=
  let '(a, b, c, d) := base in (a * 2 ^ 24 + b * 2 ^ 16 + c * 2 ^ 8 + d)%N.

(** [u32::MAX << (32 - prefix)] drops the bits beyond the 32nd. *)
Definition ipv4_in_cidr (ip : N) (base : N * N * N * N) (prefix : N) : bool :=
  let base := u32_of_octets base in
  let mask := if (prefix =? 0)%N then 0%N
              else N.land (N.shiftl 0xffffffff (32 - prefix)) 0xffffffff in
  (N.land ip mask =? N.land base mask)%N.

Definition is_non_public_ipv4 (ip : N) : bool :=
  ipv4_is_loopback ip
  || ipv4_is_private ip
  || ipv4_is_link_local ip
  || ipv4_is_unspecified ip
  || ipv4_is_multicast ip
  || ipv4_is_broadcast ip
  || ipv4_in_cidr ip (0, 0, 0, 0)%N 8
  || ipv4_in_cidr ip (100, 64, 0, 0)%N 10
  || ipv4_in_cidr ip (192, 0, 0, 0)%N 24
  || ipv4_in_cidr ip (192, 0, 2, 0)%N 24
  || ipv4_in_cidr ip (198, 18, 0, 0)%N 15
  || ipv4_in_cidr ip (198, 51, 100, 0)%N 24
  || ipv4_in_cidr ip (203, 0, 113, 0)%N 24
  || ipv4_in_cidr ip (240, 0, 0, 0)%N 4.

Definition is_non_public_ipv6 (ip : N) : bool :=
  match to_ipv4 ip with
  | Some v4 => is_non_public_ipv4 v4 || ipv6_is_loopback ip
  | None =>
      ipv6_is_loopback ip
      || ipv6_is_unspecified ip
      || ipv6_is_multicast ip
      || ipv6_is_unique_local ip
      || ipv6_is_unicast_link_local ip
  end.

Definition is_non_public_ip (ip : IpAddr) : bool :=
  match ip with V4 ip => is_non_public_ipv4 ip | V6 ip => is_non_public_ipv6 ip end.

(** ** The addresses that are not public, as ranges *)
Definition NON_PUBLIC_RANGES : list (N * N) :=
  [(0x00000000, 0x00ffffff);   (* this network *)
   (0x0a000000, 0x0affffff);   (* private *)
   (0x64400000, 0x647fffff);   (* carrier-grade NAT *)
   (0x7f000000, 0x7fffffff);   (* loopback *)
   (0xa9fe0000, 0xa9feffff);   (* link local *)
   (0xac100000, 0xac1fffff);   (* private *)
   (0xc0000000, 0xc00000ff);   (* protocol assignments *)
   (0xc0000200, 0xc00002ff);   (* TEST-NET-1 *)
   (0xc0a80000, 0xc0a8ffff);   (* private *)
   (0xc6120000, 0xc613ffff);   (* benchmarking *)
   (0xc6336400, 0xc63364ff);   (* TEST-NET-2 *)
   (0xcb007100, 0xcb0071ff);   (* TEST-NET-3 *)
   (0xe0000000, 0xffffffff)]%N. (* multicast, reserved and broadcast *)

Lemma octet_div i ip : (i <= 3)%N → octet i ip = (ip / 2 ^ (8 * (3 - i)) mod 2 ^ 8)%N.
Proof. intros _. unfold octet. rewrite (N.land_ones _ 8 : N.land _ 255 = _), N.shiftr_div_pow2. done. Qed.
Lemma octet0 ip : (ip < 2 ^ 32)%N → octet 0 ip = (ip / 2 ^ 24)%N.
Proof.
  intros Hip. rewrite octet_div by lia. apply N.mod_small. apply N.Div0.div_lt_upper_bound. cbn. lia.
Qed.

Lemma mask_land k x :
  (k <= 32)%N → (x < 2 ^ 32)%N →
  N.land x (N.land (N.shiftl 0xffffffff k) 0xffffffff) = (x / 2 ^ k * 2 ^ k)%N.
Proof.
  intros Hk Hx. change 0xffffffff%N with (N.ones 32). rewrite N.land_assoc.
  rewrite <-N.shiftl_mul_pow2, <-N.shiftr_div_pow2. apply N.bits_inj. intros i.
  destruct (N.lt_ge_cases i k) as [Hi|Hi].
  - rewrite !N.land_spec, !N.shiftl_spec_low by done. by rewrite andb_false_r.
  - rewrite !N.land_spec, !N.shiftl_spec_high' by done. rewrite N.shiftr_spec'.
    replace (i - k + k)%N with i by lia. destruct (N.lt_ge_cases i 32) as [H32|H32].
    + rewrite !N.ones_spec_low by lia. by rewrite !andb_true_r.
    + rewrite (N.ones_spec_high 32 i) by done. rewrite andb_false_r. symmetry.
      destruct (N.eq_dec x 0%N) as [->|Hx0]; [apply N.bits_0|]. apply N.bits_above_log2.
      apply N.log2_lt_pow2 in Hx; lia.
Qed.
Lemma cidr_div ip base prefix :
  (0 < prefix <= 32)%N → (ip < 2 ^ 32)%N → (u32_of_octets base < 2 ^ 32)%N →
  ipv4_in_cidr ip base prefix = (ip / 2 ^ (32 - prefix) =? u32_of_octets base / 2 ^ (32 - prefix))%N.
Proof.
  intros Hp Hip Hb. unfold ipv4_in_cidr. rewrite (proj2 (N.eqb_neq prefix 0)) by lia.
  rewrite !mask_land by lia. apply eq_bool_prop_intro. rewrite !Is_true_true, !N.eqb_eq.
  split; [|congruence]. intros H. apply N.mul_cancel_r in H; [done|]. apply N.pow_nonzero. lia.
Qed.

(** Every test is a test of intervals. *)
Definition within (lo hi ip : N) : bool := ((lo <=? ip) && (ip <=? hi))%N.
Lemma within_true lo hi ip : within lo hi ip = true ↔ (lo <= ip ∧ ip <= hi)%N.
Proof. unfold within. by rewrite andb_true_iff, !N.leb_le. Qed.

Lemma div_within ip k c : (ip / 2 ^ k =? c)%N = within (c * 2 ^ k) (c * 2 ^ k + (2 ^ k - 1)) ip.
Proof.
  apply eq_bool_prop_intro. rewrite !Is_true_true, within_true, N.eqb_eq.
  pose proof (N.div_mod' ip (2 ^ k)) as Hd. pose proof (N.pow_nonzero 2 k ltac:(done)) as Hnz.
  pose proof (N.mod_upper_bound ip (2 ^ k) Hnz) as Hm. revert Hd Hnz Hm.
  generalize (2 ^ k)%N, (ip / 2 ^ k)%N, (ip mod 2 ^ k)%N. intros d q r Hd Hnz Hm.
  split; [intros ->; nia|]. intros [? ?]. nia.
Qed.
Lemma octet01_within ip a b :
  (ip < 2 ^ 32)%N → (b < 256)%N →
  ((octet 0 ip =? a) && (octet 1 ip =? b))%N = within ((a * 256 + b) * 2 ^ 16) ((a * 256 + b) * 2 ^ 16 + (2 ^ 16 - 1)) ip.
Proof.
  intros Hip Hb. rewrite <-div_within, octet0 by done. rewrite (octet_div 1) by lia.
  change (2 ^ (8 * (3 - 1)))%N with (2 ^ 16)%N.
  change (2 ^ 24)%N with (2 ^ 16 * 2 ^ 8)%N. rewrite <-N.Div0.div_div.
  set (q := (ip / 2 ^ 16)%N). pose proof (N.div_mod' q (2 ^ 8)) as Hq.
  pose proof (N.mod_upper_bound q (2 ^ 8) ltac:(done)) as Hm. change (2 ^ 8)%N with 256%N in *.
  apply eq_bool_prop_intro. rewrite !Is_true_true, !andb_true_iff, !N.eqb_eq.
  revert Hq Hm. generalize (q / 256)%N, (q mod 256)%N. lia.
Qed.
Lemma octet01_range ip a lo hi :
  (ip < 2 ^ 32)%N → (lo <= hi)%N → (hi < 256)%N →
  ((octet 0 ip =? a) && (lo <=? octet 1 ip) && (octet 1 ip <=? hi))%N =
  within ((a * 256 + lo) * 2 ^ 16) ((a * 256 + hi) * 2 ^ 16 + (2 ^ 16 - 1)) ip.
Proof.
  intros Hip Hlo Hhi. apply eq_bool_prop_intro. rewrite !Is_true_true, within_true, !andb_true_iff, !N.leb_le.
  assert (octet 1 ip < 256)%N as Ho by (rewrite (octet_div 1) by lia; by apply N.mod_upper_bound).
  pose proof (octet01_within ip (octet 0 ip) (octet 1 ip) Hip Ho) as Hw.
  rewrite !N.eqb_refl in Hw. cbn [andb] in Hw. symmetry in Hw. apply within_true in Hw.
  rewrite N.eqb_eq. change (2 ^ 16)%N with 65536%N in *. nia.
Qed.

Lemma cidr_within ip base prefix lo hi :
  (ip < 2 ^ 32)%N → (prefix <= 32)%N ∧ (0 < prefix)%N ∧ (u32_of_octets base < 2 ^ 32)%N ∧
  (lo = u32_of_octets base / 2 ^ (32 - prefix) * 2 ^ (32 - prefix))%N ∧ (hi = lo + (2 ^ (32 - prefix) - 1))%N →
  ipv4_in_cidr ip base prefix = within lo hi ip.
Proof. intros Hip (? & ? & ? & -> & ->). by rewrite cidr_div, div_within. Qed.

Lemma non_public_ipv4_ranges ip :
  (ip < 2 ^ 32)%N → is_non_public_ipv4 ip = existsb (λ r, within r.1 r.2 ip) NON_PUBLIC_RANGES.
Proof.
  intros Hip. unfold is_non_public_ipv4, ipv4_is_loopback, ipv4_is_private, ipv4_is_link_local,
    ipv4_is_unspecified, ipv4_is_multicast, ipv4_is_broadcast.
  rewrite octet01_range by (done || lia). rewrite !octet01_within by (done || lia). rewrite !octet0 by done.
  rewrite (cidr_within ip (0, 0, 0, 0)%N 8 0 0xffffff), (cidr_within ip (100, 64, 0, 0)%N 10 0x64400000 0x647fffff),
    (cidr_within ip (192, 0, 0, 0)%N 24 0xc0000000 0xc00000ff), (cidr_within ip (192, 0, 2, 0)%N 24 0xc0000200 0xc00002ff),
    (cidr_within ip (198, 18, 0, 0)%N 15 0xc6120000 0xc613ffff), (cidr_within ip (198, 51, 100, 0)%N 24 0xc6336400 0xc63364ff),
    (cidr_within ip (203, 0, 113, 0)%N 24 0xcb007100 0xcb0071ff), (cidr_within ip (240, 0, 0, 0)%N 4 0xf0000000 0xffffffff)
    by (done || (vm_compute; repeat split; done)).
  rewrite !div_within. apply eq_bool_prop_intro. rewrite !Is_true_true.
  cbn [existsb NON_PUBLIC_RANGES fst snd]. rewrite !orb_true_iff, andb_true_iff, !within_true, !N.leb_le, !N.eqb_eq.
  pose proof (N.div_mod' ip (2 ^ 24)) as Hd. pose proof (N.mod_upper_bound ip (2 ^ 24) ltac:(done)) as Hm.
  revert Hd Hm. generalize (ip / 2 ^ 24)%N, (ip mod 2 ^ 24)%N. intros q r Hd Hm.
  split; intros H.
  - repeat destruct H as [H|H]; repeat (first [left; lia | right]); lia.
  - destruct (N.lt_ge_cases ip 0xf0000000);
    destruct H as [H|[H|[H|[H|[H|[H|[H|[H|[H|[H|[H|[H|[H|H]]]]]]]]]]]]]; try done;
      repeat (first [right; lia | left]); lia.
Qed.

(** The proxy takes an IPv4 address for local exactly when it lies in one of the reserved ranges,
    and an IPv6 address that embeds an IPv4 address exactly when it takes that one for local. *)
Theorem non_public_ranges ip :
  (ip < 2 ^ 32)%N →
  is_non_public_ip (V4 ip) = existsb (λ r, within r.1 r.2 ip) NON_PUBLIC_RANGES ∧
  is_non_public_ip (V6 (0xffff * 2 ^ 32 + ip)) = is_non_public_ip (V4 ip) ∧
  is_non_public_ip (V6 ip) = is_non_public_ip (V4 ip).
Proof.
  intros Hip. split; [by apply non_public_ipv4_ranges|].
  assert (∀ hi, N.shiftr (hi * 2 ^ 32 + ip) 32 = hi) as Hhigh.
  { intros hi. rewrite N.shiftr_div_pow2, N.div_add_l, N.div_small by done. lia. }
  assert (∀ hi, N.land (hi * 2 ^ 32 + ip) 0xffffffff = ip) as Hlow.
  { intros hi. rewrite (N.land_ones _ 32 : N.land _ 0xffffffff = _), N.add_comm, N.Div0.mod_add.
    by apply N.mod_small. }
  cbn [is_non_public_ip]. unfold is_non_public_ipv6, to_ipv4. split.
  - rewrite Hhigh, Hlow. change ((0xffff =? 0) || (0xffff =? 0xffff))%N with true. cbn [orb].
    unfold ipv6_is_loopback. rewrite (proj2 (N.eqb_neq (0xffff * 2 ^ 32 + ip) 1)) by lia. apply orb_false_r.
  - pose proof (Hhigh 0%N) as H0. pose proof (Hlow 0%N) as L0. rewrite N.mul_0_l, N.add_0_l in H0, L0.
    rewrite H0, L0. cbn [N.eqb orb]. unfold ipv6_is_loopback. destruct (N.eqb_spec ip 1) as [->|_]; [|apply orb_false_r].
    vm_compute. done.
Qed.
Lemma non_public_ranges_witness :
  (0xa9fea9fe < 2 ^ 32)%N ∧ is_non_public_ip (V4 0xa9fea9fe) = true ∧
  is_non_public_ip (V6 (0xffff * 2 ^ 32 + 0xa9fea9fe)) = is_non_public_ip (V4 0xa9fea9fe).
Proof.
  split; [reflexivity|]. split; [vm_compute; reflexivity|].
  exact (proj1 (proj2 (non_public_ranges 0xa9fea9fe%N eq_refl))).
Defined.

(** Reserved IPv6 ranges that embed no IPv4 address in the low bits are not all recognised: neither the
    documentation prefix nor the prefix that translates to an IPv4 network, here to the loopback
    address. *)
Example reserved_ipv6_taken_for_public :
  parse_ip ($"2001:db8::1") = Some (V6 0x20010db8000000000000000000000001) ∧
  is_non_public_ip (V6 0x20010db8000000000000000000000001) = false ∧
  parse_ip ($"64:ff9b::127.0.0.1") = Some (V6 0x0064ff9b00000000000000007f000001) ∧
  is_non_public_ip (V6 0x0064ff9b00000000000000007f000001) = false.
Proof. vm_compute. repeat split. Qed.
