(* ===== verification/NetworkPolicy.v ===== *)
(** * The proxy's policy: [network-proxy/src/policy.rs] and [config.rs]

    Which hosts sandboxed commands may reach. Hosts and patterns are normalised
    texts; a configuration lists patterns with permissions and compiles them to
    sets of globs. Globs are those of the [globset] package and host names in
    constraints are parsed by the [url] package: the class [Matching]. Hooks into
    decrypted traffic are another component: the class [Mitm]. *)

From stdpp Require Import prelude list gmap strings sorting.
From S2P Require Import Prelude NetAddr.

(** ** Hosts ([policy.rs]) *)

(** [str::split_once] at a text. *)
Definition split_once_str (p s : str) : option (str * str) :=
  match find_str p s with
  | Some k => Some (take k s, drop (k + length p) s)
  | None => None
  end.

Definition unscoped_ip_literal (host : str) : option str :=
  '(ip, _) ← split_once 37%N host;
  _ ← parse_ip ip;
  Some ip.

Definition normalize_ip_literal (host : str) : option str :=
  match parse_ip host with
  | Some _ => Some host
  | None =>
      find_map (λ delimiter,
        match split_once_str delimiter host with
        | Some (ip, scope) => match parse_ip ip with Some _ => Some (ip ++ $"%" ++ scope) | None => None end
        | None => None
        end) [$"%25"; $"%"]
  end.

Definition normalize_dns_host_or_ip_literal (host : str) : str :=
  let host := trim_end_matches (N.eqb DOT) (to_ascii_lowercase host) in
  match normalize_ip_literal host with Some ip => ip | None => host end.

Definition normalize_host (host : str) : str :=
  let host := trim host in
  match (if starts_with ($"[") host then find_str ($"]") host else None) with
  | Some e => normalize_dns_host_or_ip_literal (take (e - 1) (drop 1 host))
  | None =>
      if length (List.filter (N.eqb COLON) host) =? 1
      then normalize_dns_host_or_ip_literal (default [] (head (split_char COLON host)))
      else normalize_dns_host_or_ip_literal host
  end.

(** [Host::parse]; a host is its normalised text, which is not empty. *)
Definition parse_host (input : str) : option str :=
  let normalized := normalize_host input in
  if is_empty normalized then None else Some normalized.

Definition is_loopback_host (host : str) : bool :=
  let host := default host (unscoped_ip_literal host) in
  if bool_decide (host = $"localhost") then true
  else match parse_ip host with Some ip => is_loopback ip | None => false end.

(** ** Patterns *)
Inductive DomainPattern : Type :=
| ApexAndSubdomains (domain : str)
| SubdomainsOnly (domain : str)
| Exact (domain : str).

Definition normalize_pattern (pattern : str) : str :=
  let pattern := trim pattern in
  if bool_decide (pattern = $"*") then $"*" else
  match strip_prefix ($"**.") pattern with
  | Some domain => $"**." ++ normalize_host domain
  | None =>
      match strip_prefix ($"*.") pattern with
      | Some domain => $"*." ++ normalize_host domain
      | None => normalize_host pattern
      end
  end.

Definition parse_domain (domain : str) (build : str → DomainPattern) : DomainPattern :=
  let domain := trim domain in
  if is_empty domain then Exact [] else build domain.

Definition parse_pattern (input : str) : DomainPattern :=
  let input := trim input in
  if is_empty input then Exact [] else
  match strip_prefix ($"**.") input with
  | Some domain => parse_domain domain ApexAndSubdomains
  | None =>
      match strip_prefix ($"*.") input with
      | Some domain => parse_domain domain SubdomainsOnly
      | None => Exact input
      end
  end.

Definition expand_domain_pattern (pattern : str) : list str :=
  match parse_pattern pattern with
  | Exact domain => [domain]
  | SubdomainsOnly domain => [$"?*." ++ domain]
  | ApexAndSubdomains domain => [domain; $"?*." ++ domain]
  end.

Definition is_global_wildcard_domain_pattern (pattern : str) : bool :=
  let normalized := normalize_pattern pattern in
  existsb (λ candidate, bool_decide (candidate = $"*")) (expand_domain_pattern normalized).

Definition normalize_domain (domain : str) : str := to_ascii_lowercase (trim_end_matches (N.eqb DOT) domain).
Definition domain_eq (left right : str) : bool := bool_decide (normalize_domain left = normalize_domain right).
Definition is_subdomain_or_equal (child parent : str) : bool :=
  let child := normalize_domain child in
  let parent := normalize_domain parent in
  if bool_decide (child = parent) then true else ends_with ($"." ++ parent) child.
Definition is_strict_subdomain (child parent : str) : bool :=
  let child := normalize_domain child in
  let parent := normalize_domain parent in
  bool_decide (child ≠ parent) && ends_with ($"." ++ parent) child.

(** [DomainPattern::allows]. *)
Definition allows (self candidate : DomainPattern) : bool :=
  match self with
  | Exact domain => match candidate with Exact candidate => domain_eq candidate domain | _ => false end
  | SubdomainsOnly domain =>
      match candidate with
      | Exact candidate => is_strict_subdomain candidate domain
      | SubdomainsOnly candidate => is_subdomain_or_equal candidate domain
      | ApexAndSubdomains candidate => is_strict_subdomain candidate domain
      end
  | ApexAndSubdomains domain =>
      match candidate with
      | Exact candidate | SubdomainsOnly candidate | ApexAndSubdomains candidate =>
          is_subdomain_or_equal candidate domain
      end
  end.

Class Matching := {
  (** [GlobBuilder::new(..).case_insensitive(true).build()] and the matcher it gives *)
  glob_build : str → option (str → bool);
  (** [GlobSetBuilder::build], which may find the set too large *)
  globset_ok : list str → bool;
  (** [url::Host::parse], displayed *)
  url_host_parse : str → option str;
  (** [{:?}] of a list of texts *)
  debug_list : list str → str
}.

(** A compiled set: the globs it was built from and their matchers. *)
Definition GlobSet : Type := list (str → bool).
Definition is_match (set : GlobSet) (host : str) : bool := existsb (λ glob, glob host) set.

Inductive GlobalWildcard : Type := AllowWildcard | RejectWildcard.
#[export] Instance GlobalWildcard_eq_dec : EqDecision GlobalWildcard.
Proof. solve_decision. Defined.

Section compile.
Context {Ma : Matching}.

Definition parse_domain_for_constraints (domain : str) : str :=
  let domain := trim_end_matches (N.eqb DOT) (trim domain) in
  if is_empty domain then [] else
  let host := if starts_with ($"[") domain && ends_with ($"]") domain
              then take (length domain - 1 - 1) (drop 1 domain) else domain in
  if contains_char 42 host || contains_char 63 host || contains_char 37 host then domain else
  match url_host_parse host with Some host => host | None => [] end.

Definition parse_for_constraints (input : str) : DomainPattern :=
  let input := trim input in
  if is_empty input then Exact [] else
  match strip_prefix ($"**.") input with
  | Some domain => ApexAndSubdomains (parse_domain_for_constraints domain)
  | None =>
      match strip_prefix ($"*.") input with
      | Some domain => SubdomainsOnly (parse_domain_for_constraints domain)
      | None => Exact (parse_domain_for_constraints input)
      end
  end.

(** The globs of one pattern: those not seen before. *)
Fixpoint compile_candidates (candidates : list str) (seen : gset str) (globs : list (str * (str → bool)))
    : result str (gset str * list (str * (str → bool))) :=
  match candidates with
  | [] => Ok (seen, globs)
  | candidate :: candidates =>
      if decide (candidate ∈ seen) then compile_candidates candidates seen globs else
      match glob_build candidate with
      | Some glob => compile_candidates candidates ({[candidate]} ∪ seen) (globs ++ [(candidate, glob)])
      | None => Err ($"invalid glob pattern: " ++ candidate)
      end
  end.

Fixpoint compile_patterns (patterns : list str) (global_wildcard : GlobalWildcard) (seen : gset str)
    (globs : list (str * (str → bool))) : result str (list (str * (str → bool))) :=
  match patterns with
  | [] => Ok globs
  | pattern :: patterns =>
      if bool_decide (global_wildcard = RejectWildcard) && is_global_wildcard_domain_pattern pattern
      then Err ($"unsupported global wildcard domain pattern " ++ [34%N] ++ $"*" ++ [34%N] ++
                 $"; use exact hosts or scoped wildcards like *.example.com or **.example.com") else
      let? r := compile_candidates (expand_domain_pattern (normalize_pattern pattern)) seen globs in
      compile_patterns patterns global_wildcard r.1 r.2
  end.

Definition compile_globset_with_policy (patterns : list str) (global_wildcard : GlobalWildcard)
    : result str GlobSet :=
  let? globs := compile_patterns patterns global_wildcard ∅ [] in
  if globset_ok globs.*1 then Ok globs.*2 else Err ($"glob set").
Definition compile_allowlist_globset (patterns : list str) : result str GlobSet :=
  compile_globset_with_policy patterns AllowWildcard.
Definition compile_denylist_globset (patterns : list str) : result str GlobSet :=
  compile_globset_with_policy patterns RejectWildcard.
End compile.

(** ** The configuration ([config.rs]) *)
Inductive NetworkDomainPermission : Type := PermissionNone | PermissionAllow | PermissionDeny.
#[export] Instance NetworkDomainPermission_eq_dec : EqDecision NetworkDomainPermission.
Proof. solve_decision. Defined.
Definition permission_rank (p : NetworkDomainPermission) : nat :=
  match p with PermissionNone => 0 | PermissionAllow => 1 | PermissionDeny => 2 end.

Record NetworkDomainPermissionEntry : Type := mkDomainEntry {
  pattern : str;
  permission : NetworkDomainPermission
}.
#[export] Instance NetworkDomainPermissionEntry_eq_dec : EqDecision NetworkDomainPermissionEntry.
Proof. solve_decision. Defined.
Definition NetworkDomainPermissions : Type := list NetworkDomainPermissionEntry.

(** [effective_entries]: one entry per pattern, in order of first appearance, with
    the strongest permission. The map is built first and then emptied by order. *)
Definition effective_step (acc : list str * gmap str NetworkDomainPermission) (entry : NetworkDomainPermissionEntry)
    : list str * gmap str NetworkDomainPermission :=
  let '(order, perms) := acc in
  match perms !! pattern entry with
  | None => (order ++ [pattern entry], <[pattern entry := permission entry]> perms)
  | Some existing =>
      if permission_rank existing <? permission_rank (permission entry)
      then (order, <[pattern entry := permission entry]> perms) else (order, perms)
  end.
Definition effective_entries (entries : NetworkDomainPermissions) : list NetworkDomainPermissionEntry :=
  let '(order, perms) := foldl effective_step ([], ∅) entries in
  omap (λ p, mkDomainEntry p <$> perms !! p) order.

Inductive NetworkUnixSocketPermission : Type := SocketAllow | SocketDeny.
#[export] Instance NetworkUnixSocketPermission_eq_dec : EqDecision NetworkUnixSocketPermission.
Proof. solve_decision. Defined.
Notation NetworkUnixSocketPermissions := (gmap str NetworkUnixSocketPermission).

Inductive NetworkMode : Type := Limited | Full.
#[export] Instance NetworkMode_eq_dec : EqDecision NetworkMode.
Proof. solve_decision. Defined.
Definition allows_method (mode : NetworkMode) (method : str) : bool :=
  match mode with Full => true | Limited => one_of [$"GET"; $"HEAD"; $"OPTIONS"] method end.

Class Mitm := {
  MitmHookConfig : Type;
  MitmHookConfig_eq_dec :: EqDecision MitmHookConfig;
  MitmState : Type;
  MitmHooksByHost : Type;
  validate_mitm_hook : nat → MitmHookConfig → option str;   (* the error of one hook *)
  compile_hooks : list MitmHookConfig → result str MitmHooksByHost;
  new_mitm_state : bool → result str MitmState
}.

(** [Path::is_absolute] and [AbsolutePathBuf::from_absolute_path] of the host. *)
Class SocketPaths := {
  path_is_absolute : str → bool;
  absolute_path : str → option str;
  canonicalize : str → option str
}.

Arguments validate_mitm_hook {_}.
Arguments compile_hooks {_}.
Arguments new_mitm_state {_}.

Section config.
Context {Mi : Mitm}.

Record NetworkProxyConfig : Type := mkProxyConfig {
  enabled : bool;
  proxy_url : str;
  enable_socks5 : bool;
  socks_url : str;
  enable_socks5_udp : bool;
  allow_upstream_proxy : bool;
  dangerously_allow_non_loopback_proxy : bool;
  dangerously_allow_all_unix_sockets : bool;
  mode : NetworkMode;
  domains : option NetworkDomainPermissions;
  unix_sockets : option NetworkUnixSocketPermissions;
  allow_local_binding : bool;
  mitm : bool;
  credential_broker : bool;
  credential_broker_openai_host : option str;
  dangerously_allow_plaintext_credential_injection : bool;
  mitm_hooks : list MitmHookConfig
}.
#[export] Instance NetworkProxyConfig_eq_dec : EqDecision NetworkProxyConfig.
Proof. solve_decision. Defined.

Definition default_config : NetworkProxyConfig :=
  mkProxyConfig false ($"http://127.0.0.1:3128") true ($"http://127.0.0.1:8081") true true false false Full
    None None false false false None false [].

Definition set_domains (d : option NetworkDomainPermissions) (c : NetworkProxyConfig) : NetworkProxyConfig :=
  mkProxyConfig (enabled c) (proxy_url c) (enable_socks5 c) (socks_url c) (enable_socks5_udp c)
    (allow_upstream_proxy c) (dangerously_allow_non_loopback_proxy c) (dangerously_allow_all_unix_sockets c)
    (mode c) d (unix_sockets c) (allow_local_binding c) (mitm c) (credential_broker c)
    (credential_broker_openai_host c) (dangerously_allow_plaintext_credential_injection c) (mitm_hooks c).
Definition set_enabled (b : bool) (c : NetworkProxyConfig) : NetworkProxyConfig :=
  mkProxyConfig b (proxy_url c) (enable_socks5 c) (socks_url c) (enable_socks5_udp c)
    (allow_upstream_proxy c) (dangerously_allow_non_loopback_proxy c) (dangerously_allow_all_unix_sockets c)
    (mode c) (domains c) (unix_sockets c) (allow_local_binding c) (mitm c) (credential_broker c)
    (credential_broker_openai_host c) (dangerously_allow_plaintext_credential_injection c) (mitm_hooks c).
Definition set_credential_broker (b : bool) (c : NetworkProxyConfig) : NetworkProxyConfig :=
  mkProxyConfig (enabled c) (proxy_url c) (enable_socks5 c) (socks_url c) (enable_socks5_udp c)
    (allow_upstream_proxy c) (dangerously_allow_non_loopback_proxy c) (dangerously_allow_all_unix_sockets c)
    (mode c) (domains c) (unix_sockets c) (allow_local_binding c) (mitm c) b
    (credential_broker_openai_host c) (dangerously_allow_plaintext_credential_injection c) (mitm_hooks c).
Definition set_sockets (us : option NetworkUnixSocketPermissions) (all upstream local : bool)
    (c : NetworkProxyConfig) : NetworkProxyConfig :=
  mkProxyConfig (enabled c) (proxy_url c) (enable_socks5 c) (socks_url c) (enable_socks5_udp c)
    upstream (dangerously_allow_non_loopback_proxy c) all
    (mode c) (domains c) us local (mitm c) (credential_broker c)
    (credential_broker_openai_host c) (dangerously_allow_plaintext_credential_injection c) (mitm_hooks c).
Definition set_mode (m : NetworkMode) (c : NetworkProxyConfig) : NetworkProxyConfig :=
  mkProxyConfig (enabled c) (proxy_url c) (enable_socks5 c) (socks_url c) (enable_socks5_udp c)
    (allow_upstream_proxy c) (dangerously_allow_non_loopback_proxy c) (dangerously_allow_all_unix_sockets c)
    m (domains c) (unix_sockets c) (allow_local_binding c) (mitm c) (credential_broker c)
    (credential_broker_openai_host c) (dangerously_allow_plaintext_credential_injection c) (mitm_hooks c).

(** [(!l.is_empty()).then_some(l)]. *)
Definition non_empty {A} (l : list A) : option (list A) := if is_empty l then None else Some l.

Definition domain_entries (c : NetworkProxyConfig) (p : NetworkDomainPermission) : option (list str) :=
  ds ← domains c;
  non_empty (pattern <$> List.filter (λ entry, bool_decide (permission entry = p)) (effective_entries ds)).
Definition allowed_domains (c : NetworkProxyConfig) : option (list str) := domain_entries c PermissionAllow.
Definition denied_domains (c : NetworkProxyConfig) : option (list str) := domain_entries c PermissionDeny.

(** The map iterates in the order of its keys. *)
Definition allow_unix_sockets (c : NetworkProxyConfig) : list str :=
  match unix_sockets c with
  | Some sockets => merge_sort str_le (map_to_list (filter (λ kv, kv.2 = SocketAllow) sockets)).*1
  | None => []
  end.

Definition upsert_domain_permission (c : NetworkProxyConfig) (host : str) (p : NetworkDomainPermission)
    (normalize : str → str) : NetworkProxyConfig :=
  let entries := default [] (domains c) in
  let normalized_host := normalize host in
  let entries := List.filter (λ entry, bool_decide (normalize (pattern entry) ≠ normalized_host)) entries in
  set_domains (non_empty (entries ++ [mkDomainEntry host p])) c.

(** [set_domain_entries] for one permission. *)
Definition push_domain_entry (p : NetworkDomainPermission) (entries : NetworkDomainPermissions) (entry : str)
    : NetworkDomainPermissions :=
  if existsb (λ existing, bool_decide (pattern existing = entry) && bool_decide (permission existing = p)) entries
  then entries else entries ++ [mkDomainEntry entry p].
Definition set_domain_entries (c : NetworkProxyConfig) (new : list str) (p : NetworkDomainPermission)
    : NetworkProxyConfig :=
  let entries := List.filter (λ entry, bool_decide (permission entry ≠ p)) (default [] (domains c)) in
  set_domains (non_empty (foldl (push_domain_entry p) entries new)) c.
Definition set_allowed_domains (c : NetworkProxyConfig) (new : list str) : NetworkProxyConfig :=
  set_domain_entries c new PermissionAllow.
Definition set_denied_domains (c : NetworkProxyConfig) (new : list str) : NetworkProxyConfig :=
  set_domain_entries c new PermissionDeny.

(** ** Where the proxy listens; a socket address is an address and a port. *)
Definition SocketAddr : Type := IpAddr * N.
Definition LOCALHOST : IpAddr := V4 2130706433%N.

Definition clamp_non_loopback (addr : SocketAddr) (allow_non_loopback : bool) : SocketAddr :=
  if is_loopback addr.1 then addr
  else if allow_non_loopback then addr
  else (LOCALHOST, addr.2).

Definition clamp_bind_addrs (http_addr socks_addr : SocketAddr) (cfg : NetworkProxyConfig)
    : SocketAddr * SocketAddr :=
  let http_addr := clamp_non_loopback http_addr (dangerously_allow_non_loopback_proxy cfg) in
  let socks_addr := clamp_non_loopback socks_addr (dangerously_allow_non_loopback_proxy cfg) in
  if is_empty (allow_unix_sockets cfg) && negb (dangerously_allow_all_unix_sockets cfg)
  then (http_addr, socks_addr)
  else ((LOCALHOST, http_addr.2), (LOCALHOST, socks_addr.2)).

(** ** Socket paths *)
Inductive ValidatedUnixSocketPath : Type :=
| Native (path : str)
| UnixStyleAbsolute (path : str).

Context {So : SocketPaths}.

(** [ValidatedUnixSocketPath::parse]; its errors are only logged or put under the
    caller's own message. *)
Definition parse_socket_path (socket_path : str) : option ValidatedUnixSocketPath :=
  if path_is_absolute socket_path then Native <$> absolute_path socket_path
  else if starts_with ($"/") socket_path then Some (UnixStyleAbsolute socket_path)
  else None.

Fixpoint validate_socket_paths (index : nat) (paths : list str) : result str unit :=
  match paths with
  | [] => Ok ()
  | socket_path :: paths =>
      match parse_socket_path socket_path with
      | Some _ => validate_socket_paths (S index) paths
      | None => Err ($"invalid network.allow_unix_sockets[" ++ fmt_nat index ++ $"]")
      end
  end.
Definition validate_unix_socket_allowlist_paths (cfg : NetworkProxyConfig) : result str unit :=
  validate_socket_paths 0 (allow_unix_sockets cfg).
End config.
