(* ===== verification/MitmHook.v ===== *)
(** * Hooks into intercepted requests: [network-proxy/src/mitm_hook.rs] and
    [authorization_path.rs]

    A hook authorises requests to one host by method, path, query and headers, and
    replaces headers with secrets. [validate_mitm_hook] and [compile_hooks] check
    and compile the configuration; [evaluate_mitm_hooks] finds the first hook that
    matches a request. Paths that an upstream server might read differently never
    match ([is_safe_for_authorization]). Header names and values, globs, the parser
    of queries and the environment are given ([HookOps]). The hooks are an instance
    of the class [Mitm] that the rest of the proxy is written against. *)

From stdpp Require Import prelude list gmap strings.
From S2P Require Import Prelude NetAddr NetworkPolicy.

(** ** Paths ([authorization_path.rs]) *)
Definition PERCENT : char := 37%N.
Definition SLASH : char := 47%N.
Definition BACKSLASH : char := 92%N.

Definition decode_hex_digit (c : char) : option N :=
  if ((48 <=? c) && (c <=? 57))%N then Some (c - 48)%N
  else if ((97 <=? c) && (c <=? 102))%N then Some (c - 97 + 10)%N
  else if ((65 <=? c) && (c <=? 70))%N then Some (c - 65 + 10)%N
  else None.

(** The loop of [is_safe_segment_for_authorization]. The characters it looks for are ASCII, so it may
    walk over characters instead of bytes. *)
Fixpoint safe_segment (segment : str) (decoded_dots : nat) (has_non_dot : bool) : bool :=
  match segment with
  | [] => has_non_dot || negb ((decoded_dots =? 1) || (decoded_dots =? 2))
  | c :: rest =>
      if (c =? DOT)%N then safe_segment rest (S decoded_dots) has_non_dot
      else if (c =? BACKSLASH)%N then false
      else if (c =? PERCENT)%N then
        match rest with
        | h :: l :: rest' =>
            match decode_hex_digit h, decode_hex_digit l with
            | Some high, Some low =>
                let decoded := N.lor (N.shiftl high 4) low in
                if ((decoded =? PERCENT) || (decoded =? SLASH) || (decoded =? BACKSLASH))%N then false
                else if (decoded =? DOT)%N then safe_segment rest' (S decoded_dots) has_non_dot
                else safe_segment rest' decoded_dots true
            | _, _ => false
            end
        | _ => false
        end
      else safe_segment rest decoded_dots true
  end.
Definition is_safe_segment_for_authorization (segment : str) : bool := safe_segment segment 0 false.
Definition is_safe_for_authorization (path : str) : bool :=
  forallb is_safe_segment_for_authorization (split_char SLASH path).

Example safe_paths :
  (is_safe_for_authorization <$> [$"/a/b"; $"/a/a..b"; $"/a/%20space"; $"/a/.%2Egithub"; $"/a/%2e%2e%2e"])
    = [true; true; true; true; true] ∧
  (is_safe_for_authorization <$> [$"/a/../b"; $"/a/./b"; $"/a\..\b"; $"/a/%2e%2e/b"; $"/a/%2f..%2fb";
     $"/a/%252e%252e/b"; $"/a/%"; $"/a/%2"; $"/a/%zz"]) = [false; false; false; false; false; false; false; false; false].
Proof. vm_compute. split; reflexivity. Qed.

(** ** Configuration *)
Class HookOps := {
  Json : Type;
  Json_eq_dec :: EqDecision Json;
  (** [HeaderName::from_bytes] (in lower case), [HeaderValue::from_str]: the value or an error *)
  header_name_from_bytes : str → result str str;
  header_value_from_str : str → option str;
  (** a glob with escapes, and whether its wildcards stop at slashes *)
  build_glob : str → bool → result str (str → bool);
  (** [form_urlencoded::parse] *)
  form_parse : str → list (str * str);
  (** [{:?}] of a text *)
  debug_str : str → str;
  env_var : str → option str;
  read_to_string : str → option str;
  CertificateState : Type;
  new_certificate_state : bool → result str CertificateState
}.

Record InjectedHeaderConfig : Type := mkInjectedConfig {
  inj_name : str;
  secret_env_var : option str;
  secret_file : option str;
  inj_prefix : option str
}.
#[export] Instance InjectedHeaderConfig_eq_dec : EqDecision InjectedHeaderConfig.
Proof. solve_decision. Defined.
Record MitmHookActionsConfig : Type := mkActionsConfig {
  cfg_strip_request_headers : list str;
  cfg_inject_request_headers : list InjectedHeaderConfig
}.
#[export] Instance MitmHookActionsConfig_eq_dec : EqDecision MitmHookActionsConfig.
Proof. solve_decision. Defined.

Inductive MatcherPattern : Type := PatternLiteral (s : str) | PatternGlob (s : str).
Inductive PathMatcher : Type := PathPrefix (s : str) | PathGlob (pattern : str) (glob : str → bool).
Inductive ValueMatcher : Type := ValueExact (s : str) | ValueGlob (pattern : str) (glob : str → bool).
Inductive SecretSource : Type := SecretEnvVar (name : str) | SecretFile (path : str).

Record QueryConstraint : Type := mkQueryConstraint { q_name : str; q_allowed : list ValueMatcher }.
Record HeaderConstraint : Type := mkHeaderConstraint { h_name : str; h_allowed : list ValueMatcher }.
Record ResolvedInjectedHeader : Type := mkInjected { ri_name : str; ri_value : str; ri_source : SecretSource }.
Record MitmHookMatcher : Type := mkMatcher {
  methods : list str;
  path_prefixes : list PathMatcher;
  query : list QueryConstraint;
  headers : list HeaderConstraint
}.
Record MitmHookActions : Type := mkActions {
  strip_request_headers : list str;
  inject_request_headers : list ResolvedInjectedHeader
}.
Record MitmHook : Type := mkHook {
  hook_host : str;
  hook_matcher : MitmHookMatcher;
  hook_actions : MitmHookActions
}.

(** A request: a header has no text when its value is not visible ASCII. *)
Record Request : Type := mkHttpRequest {
  rq_method : str;
  rq_path : str;
  rq_query : option str;
  rq_authority : option str;
  rq_headers : list (str * option str)
}.

Inductive HookEvaluation : Type :=
| NoHooksForHost
| Matched (actions : MitmHookActions)
| HookedHostNoMatch.

Definition to_ascii_uppercase (s : str) : str :=
  (λ c, if ((97 <=? c) && (c <=? 122))%N then (c - 32)%N else c) <$> s.

(** [iter().map(f).collect::<Result<Vec<_>>>()]. *)
Fixpoint map_results {E A B} (f : A → result E B) (l : list A) : result E (list B) :=
  match l with
  | [] => Ok []
  | x :: l => let? y := f x in let? ys := map_results f l in Ok (y :: ys)
  end.
(** [r.with_context(msg)]. *)
Definition with_context {A} (r : result str A) (msg : str) : result str A :=
  match r with Ok a => Ok a | Err _ => Err msg end.

Notation HooksByHost := (gmap str (list MitmHook)).

Section hooks.
Context {Ho : HookOps} {So : SocketPaths}.

(** Maps are listed in the order of their keys. *)
Record HookMatchConfig : Type := mkMatchConfig {
  cfg_methods : list str;
  cfg_path_prefixes : list str;
  cfg_query : list (str * list str);
  cfg_headers : list (str * list str);
  cfg_body : option Json
}.
#[export] Instance HookMatchConfig_eq_dec : EqDecision HookMatchConfig.
Proof. solve_decision. Defined.
Record HookConfig : Type := mkHookConfig {
  cfg_host : str;
  cfg_matcher : HookMatchConfig;
  cfg_actions : MitmHookActionsConfig
}.
#[export] Instance HookConfig_eq_dec : EqDecision HookConfig.
Proof. solve_decision. Defined.

Definition parse_matcher_pattern (pattern : str) : result str MatcherPattern :=
  match strip_prefix ($"literal:") pattern with
  | Some literal => Ok (PatternLiteral literal)
  | None =>
      match strip_prefix ($"pattern:") pattern with
      | None => Ok (PatternLiteral pattern)
      | Some glob_pattern =>
          if is_empty glob_pattern then Err ($"glob pattern must not be empty") else Ok (PatternGlob glob_pattern)
      end
  end.
Definition compile_glob_matcher (pattern : str) (literal_separator : bool) : result str (str → bool) :=
  match build_glob pattern literal_separator with
  | Ok glob => Ok glob
  | Err err => Err ($"invalid glob pattern " ++ debug_str pattern ++ $": " ++ err)
  end.
Definition compile_path_matcher (prefix : str) : result str PathMatcher :=
  let? p := parse_matcher_pattern prefix in
  match p with
  | PatternLiteral prefix =>
      if is_empty prefix then Err ($"path_prefixes must not contain empty entries") else Ok (PathPrefix prefix)
  | PatternGlob glob_pattern => let? g := compile_glob_matcher glob_pattern true in Ok (PathGlob glob_pattern g)
  end.
Definition compile_path_matchers (prefixes : list str) : result str (list PathMatcher) :=
  map_results compile_path_matcher prefixes.
Definition compile_value_matcher (value : str) : result str ValueMatcher :=
  let? p := parse_matcher_pattern value in
  match p with
  | PatternLiteral value => Ok (ValueExact value)
  | PatternGlob glob_pattern => let? g := compile_glob_matcher glob_pattern false in Ok (ValueGlob glob_pattern g)
  end.
Definition compile_value_matchers (values : list str) : result str (list ValueMatcher) :=
  map_results compile_value_matcher values.

Definition normalize_hook_host (host : str) : result str str :=
  let normalized := normalize_host host in
  if is_empty normalized then Err ($"host must not be empty")
  else if contains_char 42 normalized
       then Err ($"MITM hook hosts must be exact hosts and cannot contain wildcards")
  else Ok normalized.
Definition normalize_method (m : str) : result str str :=
  let normalized := to_ascii_uppercase (trim m) in
  if is_empty normalized then Err ($"methods must not contain empty entries") else Ok normalized.
Definition normalize_methods (ms : list str) : result str (list str) := map_results normalize_method ms.
Definition normalize_query_name (name : str) : result str str :=
  if is_empty name then Err ($"query keys must not be empty") else Ok name.
Definition parse_header_name (name : str) : result str str :=
  match header_name_from_bytes name with
  | Ok n => Ok n
  | Err err => Err ($"invalid header name " ++ debug_str name ++ $": " ++ err)
  end.
Definition parse_secret_file (path : str) : result str str :=
  if is_empty (trim path) then Err ($"secret_file must not be empty")
  else if negb (path_is_absolute path) then Err ($"secret_file must be an absolute path: " ++ debug_str path)
  else match absolute_path path with
       | Some p => Ok p
       | None => Err ($"secret_file must be an absolute path: " ++ debug_str path)
       end.

(** ** Validation *)
Fixpoint validate_query_constraints (query : list (str * list str)) : result str unit :=
  match query with
  | [] => Ok ()
  | (name, values) :: query =>
      let? normalized := normalize_query_name name in
      if is_empty normalized then Err ($"query keys must not be empty")
      else if is_empty values
           then Err ($"query key " ++ debug_str name ++ $" must list at least one allowed value")
      else
        let? _ := with_context (compile_value_matchers values) ($"invalid matcher for query key " ++ debug_str name) in
        validate_query_constraints query
  end.
Fixpoint validate_header_constraints (headers : list (str * list str)) : result str unit :=
  match headers with
  | [] => Ok ()
  | (name, values) :: headers =>
      let? _ := parse_header_name name in
      let? _ := with_context (compile_value_matchers values) ($"invalid matcher for header " ++ debug_str name) in
      validate_header_constraints headers
  end.
Fixpoint validate_strip_request_headers (names : list str) : result str unit :=
  match names with
  | [] => Ok ()
  | name :: names => let? _ := parse_header_name name in validate_strip_request_headers names
  end.
Fixpoint validate_injected_headers (headers : list InjectedHeaderConfig) : result str unit :=
  match headers with
  | [] => Ok ()
  | header :: headers =>
      let? _ := parse_header_name (inj_name header) in
      let? _ := match secret_env_var header, secret_file header with
                | Some secret_env_var, None =>
                    if is_empty (trim secret_env_var) then Err ($"secret_env_var must not be empty") else Ok ()
                | None, Some secret_file => let? _ := parse_secret_file secret_file in Ok ()
                | _, _ => Err ($"expected exactly one of secret_env_var or secret_file")
                end in
      validate_injected_headers headers
  end.

(** The checks of one hook, with its index in the messages. *)
Definition check_hook (hook_index : nat) (hook : HookConfig) : result str unit :=
  let at_field (field : str) := $"network.mitm_hooks[" ++ fmt_nat hook_index ++ $"]." ++ field in
  let m := cfg_matcher hook in
  let? host := with_context (normalize_hook_host (cfg_host hook)) ($"invalid " ++ at_field ($"host")) in
  let? methods := with_context (normalize_methods (cfg_methods m)) ($"invalid " ++ at_field ($"match.methods")) in
  if is_empty methods then Err (at_field ($"match.methods must not be empty")) else
  let? paths := with_context (compile_path_matchers (cfg_path_prefixes m))
                  ($"invalid " ++ at_field ($"match.path_prefixes")) in
  if is_empty paths then Err (at_field ($"match.path_prefixes must not be empty")) else
  if bool_decide (cfg_body m ≠ None)
  then Err (at_field ($"match.body is reserved for a future release and is not yet supported")) else
  let? _ := with_context (validate_query_constraints (cfg_query m)) ($"invalid " ++ at_field ($"match.query")) in
  let? _ := with_context (validate_header_constraints (cfg_headers m)) ($"invalid " ++ at_field ($"match.headers")) in
  let? _ := with_context (validate_strip_request_headers (cfg_strip_request_headers (cfg_actions hook)))
              ($"invalid " ++ at_field ($"actions.strip_request_headers")) in
  let? _ := with_context (validate_injected_headers (cfg_inject_request_headers (cfg_actions hook)))
              ($"invalid " ++ at_field ($"actions.inject_request_headers")) in
  if is_empty host then Err (at_field ($"host must not be empty")) else Ok ().
Definition hook_error (hook_index : nat) (hook : HookConfig) : option str :=
  match check_hook hook_index hook with Ok _ => None | Err e => Some e end.

(** ** Compilation *)
Definition resolve_secret (header : InjectedHeaderConfig) : result str (str * SecretSource) :=
  match secret_env_var header, secret_file header with
  | Some name, None =>
      match env_var name with
      | Some value => Ok (value, SecretEnvVar name)
      | None => Err ($"missing required environment variable " ++ name)
      end
  | None, Some file =>
      let? path := parse_secret_file file in
      match read_to_string path with
      | Some value => Ok (trim value, SecretFile path)
      | None => Err ($"failed to read secret file " ++ path)
      end
  | _, _ => Err ($"expected exactly one of secret_env_var or secret_file")
  end.
Definition compile_injected_header (header : InjectedHeaderConfig) : result str ResolvedInjectedHeader :=
  let? name := parse_header_name (inj_name header) in
  let? secret := resolve_secret header in
  match header_value_from_str (default [] (inj_prefix header) ++ secret.1) with
  | Some value => Ok (mkInjected name value secret.2)
  | None => Err ($"invalid value for injected header " ++ inj_name header)
  end.
Definition compile_query_constraint (q : str * list str) : result str QueryConstraint :=
  let? name := normalize_query_name q.1 in
  let? values := compile_value_matchers q.2 in Ok (mkQueryConstraint name values).
Definition compile_header_constraint (h : str * list str) : result str HeaderConstraint :=
  let? name := parse_header_name h.1 in
  let? values := compile_value_matchers h.2 in Ok (mkHeaderConstraint name values).

Definition compile_hook (hook : HookConfig) : result str MitmHook :=
  let m := cfg_matcher hook in
  let? host := normalize_hook_host (cfg_host hook) in
  let? methods := normalize_methods (cfg_methods m) in
  let? paths := compile_path_matchers (cfg_path_prefixes m) in
  let? query := map_results compile_query_constraint (cfg_query m) in
  let? headers := map_results compile_header_constraint (cfg_headers m) in
  let? strip := map_results parse_header_name (cfg_strip_request_headers (cfg_actions hook)) in
  let? inject := map_results (λ header, with_context (compile_injected_header header)
                    ($"failed to compile injected header " ++ inj_name header))
                   (cfg_inject_request_headers (cfg_actions hook)) in
  Ok (mkHook host (mkMatcher methods paths query headers) (mkActions strip inject)).

Definition push_hook (hook : MitmHook) (hooks_by_host : HooksByHost) : HooksByHost :=
  <[hook_host hook := default [] (hooks_by_host !! hook_host hook) ++ [hook]]> hooks_by_host.
Fixpoint compile_hooks_into (hooks_by_host : HooksByHost) (hooks : list HookConfig) : result str HooksByHost :=
  match hooks with
  | [] => Ok hooks_by_host
  | hook :: hooks =>
      let? compiled := compile_hook hook in
      compile_hooks_into (push_hook compiled hooks_by_host) hooks
  end.

#[export] Instance hook_mitm : Mitm :=
  Build_Mitm HookConfig _ CertificateState HooksByHost hook_error (compile_hooks_into ∅) new_certificate_state.

(** ** Evaluation *)
Definition path_matcher_matches (m : PathMatcher) (candidate : str) : bool :=
  match m with PathPrefix prefix => starts_with prefix candidate | PathGlob _ glob => glob candidate end.
Definition path_matches (ms : list PathMatcher) (path : str) : bool :=
  existsb (λ m, path_matcher_matches m path) ms.
Definition value_matches (m : ValueMatcher) (candidate : str) : bool :=
  match m with ValueExact value => bool_decide (value = candidate) | ValueGlob _ glob => glob candidate end.

Definition query_matches (constraints : list QueryConstraint) (req : Request) : bool :=
  if is_empty constraints then true else
  let actual := form_parse (default [] (rq_query req)) in
  forallb (λ c, existsb (λ nv, bool_decide (nv.1 = q_name c) && existsb (λ a, value_matches a nv.2) (q_allowed c)) actual)
    constraints.
Definition headers_match (constraints : list HeaderConstraint) (req : Request) : bool :=
  forallb (λ c,
    let actual := (List.filter (λ nv, bool_decide (nv.1 = h_name c)) (rq_headers req)).*2 in
    if is_empty actual then false
    else if is_empty (h_allowed c) then true
    else existsb (λ value, match value with
                           | Some candidate => existsb (λ a, value_matches a candidate) (h_allowed c)
                           | None => false
                           end) actual) constraints.

Definition hook_matches (hook : MitmHook) (req : Request) : bool :=
  let method := to_ascii_uppercase (rq_method req) in
  if negb (existsb (λ allowed, bool_decide (allowed = method)) (methods (hook_matcher hook))) then false
  else if negb (is_safe_for_authorization (rq_path req)) || negb (path_matches (path_prefixes (hook_matcher hook)) (rq_path req))
       then false
  else if negb (query_matches (query (hook_matcher hook)) req) then false
  else headers_match (headers (hook_matcher hook)) req.

Definition evaluate_mitm_hooks (hooks_by_host : HooksByHost) (host : str) (req : Request) : HookEvaluation :=
  match hooks_by_host !! normalize_host host with
  | None => NoHooksForHost
  | Some hooks =>
      match List.find (λ hook, hook_matches hook req) hooks with
      | Some hook => Matched (hook_actions hook)
      | None => HookedHostNoMatch
      end
  end.

(** [apply_mitm_hook_actions] of [mitm.rs] on the headers, in which a name may occur several times:
    [remove] drops them all, [insert] replaces them by one. *)
Definition remove_header (name : str) (hs : list (str * option str)) : list (str * option str) :=
  List.filter (λ nv, bool_decide (nv.1 ≠ name)) hs.
Definition insert_header (name value : str) (hs : list (str * option str)) : list (str * option str) :=
  remove_header name hs ++ [(name, Some value)].
Definition apply_mitm_hook_actions (hs : list (str * option str)) (actions : option MitmHookActions)
    : list (str * option str) :=
  match actions with
  | None => hs
  | Some actions =>
      let hs := foldl (λ hs name, remove_header name hs) hs (strip_request_headers actions) in
      foldl (λ hs injected, insert_header (ri_name injected) (ri_value injected) hs) hs (inject_request_headers actions)
  end.
End hooks.
