(* ===== verification/MitmHookSpec.v ===== *)
(** * What hooks into intercepted requests guarantee

    A path that is safe for authorisation means the same before and after the
    decoding and resolution an upstream server may do ([safe_path_unambiguous]).
    Compiled hooks are the configured ones, filed by host in their order, and the
    first that matches decides ([hook_evaluation_spec]); a validated hook compiles
    unless a secret is missing; and the headers of a request after a hook's actions
    are exactly the kept and the injected ones. *)

From stdpp Require Import prelude list gmap strings.
From S2P Require Import Prelude NetAddr NetworkPolicy MitmHook.

(** ** Safe paths *)

(** What a server may do to a path: decode escapes, as far as they are escapes, and resolve segments. *)
Fixpoint percent_decode (s : str) : str :=
  match s with
  | [] => []
  | c :: rest =>
      if (c =? PERCENT)%N then
        match rest with
        | h :: l :: rest' =>
            match decode_hex_digit h, decode_hex_digit l with
            | Some high, Some low => N.lor (N.shiftl high 4) low :: percent_decode rest'
            | _, _ => c :: percent_decode rest
            end
        | _ => c :: percent_decode rest
        end
      else c :: percent_decode rest
  end.
Definition resolve_segments (segments : list str) : list str :=
  foldl (λ acc s, if bool_decide (s = $".") then acc else if bool_decide (s = $"..") then pop acc else acc ++ [s])
    [] segments.

Lemma percent_decode_plain c s : c ≠ PERCENT → percent_decode (c :: s) = c :: percent_decode s.
Proof. intros H%N.eqb_neq. cbn [percent_decode]. by rewrite H. Qed.
Lemma percent_decode_escape h l high low s :
  decode_hex_digit h = Some high → decode_hex_digit l = Some low →
  percent_decode (PERCENT :: h :: l :: s) = N.lor (N.shiftl high 4) low :: percent_decode s.
Proof. intros Hh Hl. cbn [percent_decode]. change (PERCENT =? PERCENT)%N with true. cbn iota. by rewrite Hh, Hl. Qed.

(** What a run of the loop has seen: the characters it stands for. *)
Inductive reads : str → str → Prop :=
| reads_nil : reads [] []
| reads_char c s t : c ≠ PERCENT → c ≠ BACKSLASH → reads s t → reads (c :: s) (c :: t)
| reads_escape h l high low s t :
    decode_hex_digit h = Some high → decode_hex_digit l = Some low →
    let d := N.lor (N.shiftl high 4) low in
    d ≠ PERCENT → d ≠ SLASH → d ≠ BACKSLASH → reads s t → reads (PERCENT :: h :: l :: s) (d :: t).

Definition dots_ok (dots : nat) (non_dot : bool) (t : str) : bool :=
  non_dot || existsb (λ c, negb (c =? DOT)%N) t
  || negb ((dots + length t =? 1) || (dots + length t =? 2)).

Lemma safe_segment_reads n s dots non_dot :
  length s ≤ n → safe_segment s dots non_dot = true → ∃ t, reads s t ∧ dots_ok dots non_dot t = true.
Proof.
  revert s dots non_dot. induction n as [|n IH]; intros s dots non_dot Hn H.
  { destruct s; [|cbn in Hn; lia]. exists []. split; [constructor|]. unfold dots_ok. cbn [existsb length].
    by rewrite orb_false_r, Nat.add_0_r. }
  destruct s as [|c s].
  { exists []. split; [constructor|]. unfold dots_ok. cbn [existsb length]. by rewrite orb_false_r, Nat.add_0_r. }
  cbn [safe_segment] in H. cbn [length] in Hn.
  destruct (c =? DOT)%N eqn:Hdot.
  { apply N.eqb_eq in Hdot. subst c. destruct (IH s (S dots) non_dot ltac:(lia) H) as (t & Ht & Hok).
    exists (DOT :: t). split; [by constructor|]. unfold dots_ok in *. cbn [existsb length].
    rewrite <-Nat.add_succ_comm. exact Hok. }
  destruct (c =? BACKSLASH)%N eqn:Hbs; [done|]. destruct (c =? PERCENT)%N eqn:Hpc.
  - apply N.eqb_eq in Hpc. subst c. destruct s as [|h [|l s]]; [done..|].
    destruct (decode_hex_digit h) as [high|] eqn:Hh; [|done]. destruct (decode_hex_digit l) as [low|] eqn:Hl; [|done].
    cbn zeta in H. set (d := N.lor (N.shiftl high 4) low) in *.
    destruct ((d =? PERCENT) || (d =? SLASH) || (d =? BACKSLASH))%N eqn:Hd; [done|].
    rewrite !orb_false_iff, !N.eqb_neq in Hd. destruct Hd as [[? ?] ?]. cbn [length] in Hn.
    destruct (d =? DOT)%N eqn:Hdd.
    + destruct (IH s (S dots) non_dot ltac:(lia) H) as (t & Ht & Hok). exists (d :: t). split; [by econstructor|].
      unfold dots_ok in *. cbn [existsb length]. rewrite Hdd, <-Nat.add_succ_comm. exact Hok.
    + destruct (IH s dots true ltac:(lia) H) as (t & Ht & Hok). exists (d :: t). split; [by econstructor|].
      unfold dots_ok. cbn [existsb]. rewrite Hdd. cbn [negb orb]. by rewrite orb_true_r.
  - destruct (IH s dots true ltac:(lia) H) as (t & Ht & Hok). apply N.eqb_neq in Hbs, Hpc.
    exists (c :: t). split; [by constructor|]. unfold dots_ok. cbn [existsb]. rewrite Hdot. cbn [negb orb].
    by rewrite orb_true_r.
Qed.

Lemma reads_decode s t : reads s t → percent_decode s = t.
Proof.
  induction 1 as [|c s t Hp Hb _ IH|h l high low s t Hh Hl d ? ? ? _ IH]; [done|..].
  - by rewrite percent_decode_plain, IH.
  - by rewrite (percent_decode_escape _ _ high low), IH.
Qed.
Lemma reads_decode_app s t r : reads s t → percent_decode (s ++ r) = t ++ percent_decode r.
Proof.
  induction 1 as [|c s t Hp Hb _ IH|h l high low s t Hh Hl d ? ? ? _ IH]; [done|..]; cbn [app].
  - by rewrite percent_decode_plain, IH.
  - by rewrite (percent_decode_escape _ _ high low), IH.
Qed.
Lemma reads_chars s t c : reads s t → c ∈ t → c ≠ PERCENT ∧ c ≠ BACKSLASH ∧ (SLASH ∉ s → c ≠ SLASH).
Proof.
  induction 1 as [|c' s t Hp Hb _ IH|h l high low s t Hh Hl d ? ? ? _ IH]; [by intros ?%elem_of_nil|..];
    intros [->|Hc]%elem_of_cons; [|..].
  - split_and!; [done..|]. intros Hn ->. apply Hn. by left.
  - destruct (IH Hc) as (? & ? & H3). split_and!; [done..|]. intros Hn. apply H3. set_solver.
  - done.
  - destruct (IH Hc) as (? & ? & H3). split_and!; [done..|]. intros Hn. apply H3. set_solver.
Qed.
Lemma no_percent_decode s : PERCENT ∉ s → percent_decode s = s.
Proof.
  induction s as [|c s IH]; [done|]. intros Hn. rewrite percent_decode_plain by set_solver. rewrite IH by set_solver. done.
Qed.
Lemma safe_segment_facts s :
  is_safe_segment_for_authorization s = true →
  reads s (percent_decode s) ∧ percent_decode s ≠ $"." ∧ percent_decode s ≠ $"..".
Proof.
  intros (t & Ht & Hok)%(safe_segment_reads (length s)); [|done]. rewrite (reads_decode _ _ Ht).
  split_and!; [done|..]; intros ->; vm_compute in Hok; done.
Qed.

Lemma decode_join segs :
  Forall (λ s, is_safe_segment_for_authorization s = true) segs →
  percent_decode (join [SLASH] segs) = join [SLASH] (percent_decode <$> segs).
Proof.
  induction 1 as [|s segs Hs Hf IH]; [done|]. destruct (safe_segment_facts s Hs) as [Hr _]. rewrite fmap_cons.
  destruct segs as [|s' segs]; [done|]. rewrite !join_cons by done. rewrite (reads_decode_app _ _ _ Hr).
  change ([SLASH] ++ ?r) with (SLASH :: r). by rewrite percent_decode_plain, IH.
Qed.
Lemma resolve_plain segs acc :
  Forall (λ s, s ≠ $"." ∧ s ≠ $"..") segs →
  foldl (λ acc s, if bool_decide (s = $".") then acc else if bool_decide (s = $"..") then pop acc else acc ++ [s])
    acc segs = acc ++ segs.
Proof.
  intros H. revert acc. induction H as [|s segs [H1 H2] _ IH]; intros acc; cbn [foldl]; [by rewrite app_nil_r|].
  rewrite !bool_decide_false by done. by rewrite IH, <-app_assoc.
Qed.
Lemma split_char_segments s seg c : seg ∈ split_char c s → c ∉ seg.
Proof.
  revert seg. induction s as [|d s IH]; intros seg; cbn [split_char].
  { intros ->%list_elem_of_singleton. apply not_elem_of_nil. }
  destruct (decide (d = c)) as [->|Hd].
  - intros [->|H]%elem_of_cons; [apply not_elem_of_nil|by apply IH].
  - destruct (split_char c s) as [|p ps] eqn:E; [by destruct (split_char_ne c s)|].
    intros [->|H]%elem_of_cons; [|apply IH; by right]. rewrite not_elem_of_cons. split; [done|]. apply IH. by left.
Qed.
Lemma join_chars (P : char → Prop) c v :
  P c → Forall (λ s, ∀ d, d ∈ s → P d) v → ∀ d, d ∈ join [c] v → P d.
Proof.
  intros Hc. induction 1 as [|s v Hs Hv IH]; intros d; [by intros ?%elem_of_nil|].
  destruct v as [|s' v]; [apply Hs|]. rewrite join_cons by done. rewrite !elem_of_app, list_elem_of_singleton.
  intros [H|[->|H]]; auto.
Qed.

(** C34: A path that is safe for authorisation is unambiguous: decoding its escapes decodes its segments one
    by one without making a separator of either kind or another escape, so a second decoding changes
    nothing; and no segment of it is resolved away. *)
Theorem safe_path_unambiguous path :
  is_safe_for_authorization path = true →
  split_char SLASH (percent_decode path) = percent_decode <$> split_char SLASH path ∧
  (BACKSLASH ∉ percent_decode path) ∧
  percent_decode (percent_decode path) = percent_decode path ∧
  resolve_segments (split_char SLASH (percent_decode path)) = split_char SLASH (percent_decode path).
Proof.
  unfold is_safe_for_authorization. intros Hsafe.
  assert (Forall (λ s, is_safe_segment_for_authorization s = true) (split_char SLASH path)) as Hs.
  { apply Forall_forall. intros s Hin. rewrite forallb_forall in Hsafe. apply Hsafe. by apply list_elem_of_In. }
  assert (Forall (λ s, ∀ c, c ∈ percent_decode s → c ≠ PERCENT ∧ c ≠ BACKSLASH ∧ c ≠ SLASH) (split_char SLASH path)) as Hc.
  { apply Forall_forall. intros s Hin c Hc. rewrite Forall_forall in Hs.
    destruct (reads_chars _ _ _ (proj1 (safe_segment_facts s (Hs s Hin))) Hc) as (? & ? & Hsl).
    split_and!; [done..|]. apply Hsl. by eapply split_char_segments. }
  assert (percent_decode path = join [SLASH] (percent_decode <$> split_char SLASH path)) as Hd.
  { rewrite <-(join_split_char SLASH path) at 1. by apply decode_join. }
  assert (split_char SLASH (percent_decode path) = percent_decode <$> split_char SLASH path) as Hsplit.
  { rewrite Hd. apply split_char_join.
    - intros E%fmap_nil_inv. by destruct (split_char_ne SLASH path).
    - apply Forall_fmap. eapply Forall_impl; [exact Hc|]. intros s H E. by apply H in E as (_ & _ & []). }
  assert (∀ c, c ∈ percent_decode path → c ≠ PERCENT ∧ c ≠ BACKSLASH) as Hall.
  { rewrite Hd. apply (join_chars (λ c, c ≠ PERCENT ∧ c ≠ BACKSLASH)); [done|]. apply Forall_fmap.
    eapply Forall_impl; [exact Hc|]. intros s H c Hin. destruct (H c Hin) as (? & ? & _). done. }
  split_and!; [done| | |].
  - intros E. by apply Hall in E as [_ []].
  - apply no_percent_decode. intros E. by apply Hall in E as [[] _].
  - unfold resolve_segments. rewrite Hsplit. apply (resolve_plain _ []). apply Forall_fmap.
    eapply Forall_impl; [exact Hs|]. intros s H. apply safe_segment_facts in H as (_ & H). exact H.
Qed.
Lemma safe_path_unambiguous_witness :
  is_safe_for_authorization ($"/repos/%2Egithub/a..b") = true ∧
  resolve_segments (split_char SLASH (percent_decode ($"/repos/%2Egithub/a..b"))) = [[]; $"repos"; $".github"; $"a..b"].
Proof.
  assert (is_safe_for_authorization ($"/repos/%2Egithub/a..b") = true) as H by (vm_compute; reflexivity).
  split; [exact H|]. rewrite (proj2 (proj2 (proj2 (safe_path_unambiguous _ H)))). vm_compute. reflexivity.
Defined.

(** ** Hooks *)
Lemma map_results_Ok {E A B} (f : A → result E B) l ys :
  map_results f l = Ok ys ↔ Forall2 (λ x y, f x = Ok y) l ys.
Proof.
  revert ys. induction l as [|x l IH]; intros ys; cbn [map_results].
  - split; [intros [= <-]; constructor|by inversion 1].
  - unfold rbind. split.
    + destruct (f x) as [y|] eqn:Hx; [|done]. destruct (map_results f l) as [ys'|]; [|done].
      intros [= <-]. constructor; [done|]. by apply IH.
    + inversion 1 as [|? y ? ys' Hx Hl]; subst. rewrite Hx. by rewrite (proj2 (IH ys') Hl).
Qed.
Lemma map_results_Err {E A B} (f : A → result E B) l e :
  map_results f l = Err e → ∃ x, x ∈ l ∧ f x = Err e.
Proof.
  induction l as [|x l IH]; cbn [map_results]; [done|]. unfold rbind.
  destruct (f x) as [y|e'] eqn:Hx; [|intros [= ->]; exists x; split; [by left|done]].
  destruct (map_results f l) as [|e']; [done|]. intros [= ->]. destruct (IH eq_refl) as (z & ? & ?).
  exists z. split; [by right|done].
Qed.

Lemma find_first {A} (f : A → bool) l x :
  List.find f l = Some x → ∃ before after, l = before ++ x :: after ∧ f x = true ∧ ∀ y, y ∈ before → f y = false.
Proof.
  induction l as [|y l IH]; cbn [List.find]; [done|]. destruct (f y) eqn:Hy.
  - intros [= ->]. exists [], l. split_and!; [done..|]. by intros ? ?%elem_of_nil.
  - intros (before & after & -> & ? & Hb)%IH. exists (y :: before), after. split_and!; [done..|].
    by intros z [->|Hz]%elem_of_cons; [|apply Hb].
Qed.

Section hooks_spec.
Context {Ho : HookOps} {So : SocketPaths}.

Definition hooks_for (h : str) (hooks : list MitmHook) : list MitmHook :=
  List.filter (λ hook, bool_decide (hook_host hook = h)) hooks.
(** The map files the hooks by host. *)
Definition files (m : HooksByHost) (hooks : list MitmHook) : Prop :=
  ∀ h, m !! h = non_empty (hooks_for h hooks).

Lemma push_hook_files m hooks hook : files m hooks → files (push_hook hook m) (hooks ++ [hook]).
Proof.
  intros Hm h. unfold push_hook, hooks_for in *. rewrite List.filter_app. cbn [List.filter].
  destruct (decide (hook_host hook = h)) as [<-|Hne].
  - rewrite lookup_insert_eq, bool_decide_true by done. rewrite Hm. unfold hooks_for, non_empty.
    by destruct (List.filter _ hooks).
  - rewrite lookup_insert_ne, bool_decide_false by done. rewrite app_nil_r. apply Hm.
Qed.
Lemma compile_hooks_files cfgs m0 hooks0 m :
  files m0 hooks0 → compile_hooks_into m0 cfgs = Ok m →
  ∃ hooks, map_results compile_hook cfgs = Ok hooks ∧ files m (hooks0 ++ hooks).
Proof.
  revert m0 hooks0. induction cfgs as [|cfg cfgs IH]; intros m0 hooks0 Hf H; cbn [compile_hooks_into map_results] in *.
  - simplify_eq. exists []. by rewrite app_nil_r.
  - unfold rbind in *. destruct (compile_hook cfg) as [hook|]; [|done].
    destruct (IH _ (hooks0 ++ [hook]) (push_hook_files _ _ _ Hf) H) as (hooks & -> & Hm).
    exists (hook :: hooks). split; [done|]. by rewrite <-app_assoc in Hm.
Qed.

Lemma evaluate_hooks_cases cfgs m host req :
  compile_hooks_into ∅ cfgs = Ok m →
  ∃ hooks, Forall2 (λ cfg hook, compile_hook cfg = Ok hook) cfgs hooks ∧
    match evaluate_mitm_hooks m host req with
    | NoHooksForHost => hooks_for (normalize_host host) hooks = []
    | HookedHostNoMatch => hooks_for (normalize_host host) hooks ≠ [] ∧
        ∀ hook, hook ∈ hooks_for (normalize_host host) hooks → hook_matches hook req = false
    | Matched actions => ∃ before hook after,
        hooks_for (normalize_host host) hooks = before ++ hook :: after ∧ actions = hook_actions hook ∧
        (∀ other, other ∈ before → hook_matches other req = false) ∧ hook_matches hook req = true ∧
        is_safe_for_authorization (rq_path req) = true ∧
        path_matches (path_prefixes (hook_matcher hook)) (rq_path req) = true ∧
        to_ascii_uppercase (rq_method req) ∈ methods (hook_matcher hook)
    end.
Proof.
  intros H. destruct (compile_hooks_files cfgs ∅ [] m) as (hooks & Hc & Hm); [intros h; by rewrite lookup_empty|done|].
  cbn [app] in Hm. exists hooks. split; [by apply map_results_Ok|].
  unfold evaluate_mitm_hooks. rewrite Hm. set (mine := hooks_for (normalize_host host) hooks).
  unfold non_empty. destruct (is_empty mine) eqn:He; [by destruct mine|].
  destruct (List.find _ mine) as [hook|] eqn:Hf.
  - destruct (find_first _ _ _ Hf) as (before & after & -> & Hk & Hb). exists before, hook, after.
    split_and!; [done..| | |]; unfold hook_matches in Hk; cbn zeta in Hk;
      destruct (existsb _ (methods _)) eqn:Hmeth; cbn [negb] in Hk; try done;
      destruct (is_safe_for_authorization _), (path_matches _ _); cbn in Hk; try done.
    apply existsb_elem in Hmeth as (x & Hx & ->%bool_decide_eq_true). done.
  - split; [by destruct mine|]. intros hook Hin. apply list_elem_of_In in Hin. exact (List.find_none _ _ Hf hook Hin).
Qed.

(** After compilation the hooks of a host are the configured hooks for it, in their order. A request to
    a host without hooks is not judged; to a host with hooks, it is given the actions of the first hook that
    matches it, whose methods include the request's and whose paths match a path that is safe for
    authorisation; and it is refused if none matches. *)
Theorem hook_evaluation_spec cfgs m host req :
  compile_hooks_into ∅ cfgs = Ok m →
  ∃ hooks, Forall2 (λ cfg hook, compile_hook cfg = Ok hook) cfgs hooks ∧
    match evaluate_mitm_hooks m host req with
    | NoHooksForHost => hooks_for (normalize_host host) hooks = []
    | HookedHostNoMatch => hooks_for (normalize_host host) hooks ≠ [] ∧
        ∀ hook, hook ∈ hooks_for (normalize_host host) hooks → hook_matches hook req = false
    | Matched actions => ∃ before hook after,
        hooks_for (normalize_host host) hooks = before ++ hook :: after ∧ actions = hook_actions hook ∧
        (∀ other, other ∈ before → hook_matches other req = false) ∧ hook_matches hook req = true ∧
        is_safe_for_authorization (rq_path req) = true ∧
        path_matches (path_prefixes (hook_matcher hook)) (rq_path req) = true ∧
        to_ascii_uppercase (rq_method req) ∈ methods (hook_matcher hook)
    end.
Proof. apply evaluate_hooks_cases. Qed.

(** ** Validated hooks *)
Lemma with_context_Ok {A} (r : result str A) msg a : with_context r msg = Ok a ↔ r = Ok a.
Proof. by destruct r. Qed.
Lemma rbind_inv {E A B} (m : result E A) (f : A → result E B) b :
  rbind m f = Ok b → ∃ a, m = Ok a ∧ f a = Ok b.
Proof. destruct m; cbn; [eauto|done]. Qed.
Lemma if_inv {E A} (b : bool) (e : E) (r : result E A) a : (if b then Err e else r) = Ok a → b = false ∧ r = Ok a.
Proof. by destruct b. Qed.

Lemma validate_query_compiles q :
  validate_query_constraints q = Ok () → ∃ cs, map_results compile_query_constraint q = Ok cs.
Proof.
  induction q as [|[name values] q IH]; cbn [validate_query_constraints map_results]; [eauto|].
  intros (n & Hn & [_ [_ H]%if_inv]%if_inv)%rbind_inv.
  apply rbind_inv in H as (vs & Hv%with_context_Ok & H). destruct (IH H) as [cs ->].
  unfold compile_query_constraint. cbn [fst snd]. rewrite Hn. cbn [rbind]. rewrite Hv. cbn [rbind]. eauto.
Qed.
Lemma validate_headers_compile hs :
  validate_header_constraints hs = Ok () → ∃ cs, map_results compile_header_constraint hs = Ok cs.
Proof.
  induction hs as [|[name values] hs IH]; cbn [validate_header_constraints map_results]; [eauto|].
  intros (n & Hn & H)%rbind_inv. apply rbind_inv in H as (vs & Hv%with_context_Ok & H). destruct (IH H) as [cs ->].
  unfold compile_header_constraint. cbn [fst snd]. rewrite Hn. cbn [rbind]. rewrite Hv. cbn [rbind]. eauto.
Qed.
Lemma validate_strip_compiles names :
  validate_strip_request_headers names = Ok () → ∃ ns, map_results parse_header_name names = Ok ns.
Proof.
  induction names as [|name names IH]; cbn [validate_strip_request_headers map_results]; [eauto|].
  intros (n & Hn & H)%rbind_inv. destruct (IH H) as [ns ->]. rewrite Hn. cbn [rbind]. eauto.
Qed.
Lemma validate_injected_known hs h :
  validate_injected_headers hs = Ok () → h ∈ hs →
  (∃ n, parse_header_name (inj_name h) = Ok n) ∧
  ((∃ v, secret_env_var h = Some v ∧ secret_file h = None) ∨
   ∃ f p, secret_env_var h = None ∧ secret_file h = Some f ∧ parse_secret_file f = Ok p).
Proof.
  induction hs as [|h' hs IH]; intros H Hin; [by apply elem_of_nil in Hin|]. cbn [validate_injected_headers] in H.
  apply rbind_inv in H as (n & Hn & H). apply rbind_inv in H as ([] & Hs & H).
  apply elem_of_cons in Hin as [->|Hin]; [|by apply IH]. split; [eauto|].
  destruct (secret_env_var h') as [v|], (secret_file h') as [f|]; try done; [left; eauto|].
  apply rbind_inv in Hs as (p & Hp & _). right. eauto.
Qed.

(** Why a secret may be missing: the variable or the file is, or the value cannot be that of a header. *)
Definition secret_unusable (h : InjectedHeaderConfig) : Prop :=
  (∃ v, secret_env_var h = Some v ∧ env_var v = None) ∨
  (∃ f p, secret_file h = Some f ∧ parse_secret_file f = Ok p ∧ read_to_string p = None) ∨
  ∃ secret, resolve_secret h = Ok secret ∧ header_value_from_str (default [] (inj_prefix h) ++ secret.1) = None.
Lemma injected_error hs h e :
  validate_injected_headers hs = Ok () → h ∈ hs → compile_injected_header h = Err e → secret_unusable h.
Proof.
  intros Hv Hin. destruct (validate_injected_known _ _ Hv Hin) as [[n Hn] Hs].
  unfold compile_injected_header. rewrite Hn. cbn [rbind]. destruct (resolve_secret h) as [secret|e'] eqn:Hr; cbn [rbind].
  - destruct (header_value_from_str _) eqn:Hh; [done|]. intros _. right. right. eauto.
  - intros _. unfold resolve_secret in Hr. destruct Hs as [(v & Hv' & Hf)|(f & p & Hv' & Hf & Hp)]; rewrite Hv', Hf in Hr.
    + destruct (env_var v) eqn:He; [done|]. left. eauto.
    + rewrite Hp in Hr. cbn [rbind] in Hr. destruct (read_to_string p) eqn:Hrd; [done|]. right. left. eauto.
Qed.

Lemma check_hook_inv i cfg :
  check_hook i cfg = Ok () →
  ∃ host ms ps, normalize_hook_host (cfg_host cfg) = Ok host ∧ host ≠ [] ∧
    normalize_methods (cfg_methods (cfg_matcher cfg)) = Ok ms ∧ ms ≠ [] ∧
    compile_path_matchers (cfg_path_prefixes (cfg_matcher cfg)) = Ok ps ∧ ps ≠ [] ∧
    validate_query_constraints (cfg_query (cfg_matcher cfg)) = Ok () ∧
    validate_header_constraints (cfg_headers (cfg_matcher cfg)) = Ok () ∧
    validate_strip_request_headers (cfg_strip_request_headers (cfg_actions cfg)) = Ok () ∧
    validate_injected_headers (cfg_inject_request_headers (cfg_actions cfg)) = Ok ().
Proof.
  unfold check_hook. cbn zeta. intros (host & Hh%with_context_Ok & H)%rbind_inv.
  apply rbind_inv in H as (ms & Hm%with_context_Ok & [Em H]%if_inv).
  apply rbind_inv in H as (ps & Hp%with_context_Ok & [Ep [_ H]%if_inv]%if_inv).
  apply rbind_inv in H as ([] & Hq%with_context_Ok & H). apply rbind_inv in H as ([] & Hhd%with_context_Ok & H).
  apply rbind_inv in H as ([] & Hs%with_context_Ok & H). apply rbind_inv in H as ([] & Hi%with_context_Ok & [Eh _]%if_inv).
  exists host, ms, ps. split_and!; try done; by intros ->.
Qed.

(** A hook that passes validation compiles to a hook for one host, with methods and paths, unless a
    secret it injects is missing or unfit for a header, which the error names. *)
Theorem validated_hook_compiles i cfg :
  check_hook i cfg = Ok () →
  match compile_hook cfg with
  | Ok hook => hook_host hook ≠ [] ∧ methods (hook_matcher hook) ≠ [] ∧ path_prefixes (hook_matcher hook) ≠ []
  | Err e => ∃ h, h ∈ cfg_inject_request_headers (cfg_actions cfg) ∧
      e = $"failed to compile injected header " ++ inj_name h ∧ secret_unusable h
  end.
Proof.
  intros (host & ms & ps & Hh & Eh & Hm & Em & Hp & Ep & Hq & Hhd & Hs & Hi)%check_hook_inv.
  apply validate_query_compiles in Hq as [qs Hq]. apply validate_headers_compile in Hhd as [hs Hhd].
  apply validate_strip_compiles in Hs as [ss Hs].
  unfold compile_hook. cbn zeta. rewrite Hh, Hm, Hp, Hq, Hhd, Hs. cbn [rbind].
  destruct (map_results _ (cfg_inject_request_headers (cfg_actions cfg))) as [inj|e] eqn:E; cbn [rbind]; [done|].
  apply map_results_Err in E as (h & Hin & He). exists h. split; [done|].
  destruct (compile_injected_header h) as [|e'] eqn:Hc; cbn in He; [done|]. simplify_eq.
  split; [done|]. by eapply injected_error.
Qed.

(** ** Headers *)
Definition values (name : str) (hs : list (str * option str)) : list (option str) :=
  (List.filter (λ nv, bool_decide (nv.1 = name)) hs).*2.
Definition injected_value (name : str) (inj : list ResolvedInjectedHeader) : option str :=
  last (ri_value <$> List.filter (λ i, bool_decide (ri_name i = name)) inj).

Lemma values_remove name n hs : values name (remove_header n hs) = if bool_decide (n = name) then [] else values name hs.
Proof.
  unfold values, remove_header. induction hs as [|[m v] hs IH]; cbn [List.filter fst]; [by case_bool_decide|].
  destruct (bool_decide (m ≠ n)) eqn:Hm; cbn [List.filter fst].
  - apply bool_decide_eq_true in Hm. destruct (bool_decide (m = name)) eqn:E; [|exact IH].
    apply bool_decide_eq_true in E. subst m. rewrite !fmap_cons, IH, bool_decide_false by done. done.
  - apply bool_decide_eq_false, dec_stable in Hm. subst m. rewrite IH.
    by destruct (bool_decide (n = name)).
Qed.
Lemma values_insert name n v hs :
  values name (insert_header n v hs) = if bool_decide (n = name) then [Some v] else values name hs.
Proof.
  unfold insert_header. unfold values. rewrite List.filter_app, fmap_app. cbn [List.filter fst].
  change ((List.filter (λ nv, bool_decide (nv.1 = name)) (remove_header n hs)).*2) with (values name (remove_header n hs)).
  rewrite values_remove. case_bool_decide; [done|]. cbn. apply app_nil_r.
Qed.
Lemma values_strip name ns hs :
  values name (foldl (λ hs n, remove_header n hs) hs ns) = if bool_decide (name ∈ ns) then [] else values name hs.
Proof.
  revert hs. induction ns as [|n ns IH]; intros hs; cbn [foldl].
  - rewrite bool_decide_false; [done|apply not_elem_of_nil].
  - rewrite IH, values_remove. repeat case_bool_decide; set_solver.
Qed.
Lemma values_inject name inj hs :
  values name (foldl (λ hs i, insert_header (ri_name i) (ri_value i) hs) hs inj) =
  match injected_value name inj with Some v => [Some v] | None => values name hs end.
Proof.
  revert hs. induction inj as [|i inj IH]; intros hs; cbn [foldl]; [done|]. rewrite IH, values_insert.
  unfold injected_value. cbn [List.filter]. destruct (bool_decide (ri_name i = name)); [|done].
  rewrite fmap_cons, last_cons. by destruct (last _).
Qed.

(** After the actions of a hook a header has exactly the last value injected under its name, no value
    if it was stripped and not injected, and the values of the request otherwise. *)
Theorem actions_replace_headers name hs actions :
  values name (apply_mitm_hook_actions hs (Some actions)) =
  match injected_value name (inject_request_headers actions) with
  | Some v => [Some v]
  | None => if bool_decide (name ∈ strip_request_headers actions) then [] else values name hs
  end.
Proof. unfold apply_mitm_hook_actions. cbn zeta. by rewrite values_inject, values_strip. Qed.
End hooks_spec.

(** ** A small set of hooks *)
Definition simple_hook_ops : HookOps :=
  Build_HookOps unit _ (λ n, if is_empty n then Err ($"empty") else Ok (to_ascii_lowercase n)) Some
    (λ _ _, Err ($"no globs")) (λ _, []) (λ s, s)
    (λ n, if bool_decide (n = $"TOKEN") then Some ($"s3cret") else None) (λ _, None) unit (λ _, Ok ()).
Definition absolute_sockets : SocketPaths := Build_SocketPaths (λ p, starts_with ($"/") p) Some (λ _, None).
Definition example_hook : @HookConfig simple_hook_ops :=
  @mkHookConfig simple_hook_ops ($"API.github.com.")
    (@mkMatchConfig simple_hook_ops [$"get"] [$"/repos/openai/"] [] [] None)
    (mkActionsConfig [$"Cookie"] [mkInjectedConfig ($"Authorization") (Some ($"TOKEN")) None (Some ($"Bearer "))]).
Definition example_http (method path : str) : Request :=
  mkHttpRequest method path None None [($"cookie", Some ($"a=b"))].

Lemma validated_hook_compiles_witness :
  @check_hook simple_hook_ops absolute_sockets 0 example_hook = Ok () ∧
  match @compile_hook simple_hook_ops absolute_sockets example_hook with
  | Ok hook => hook_host hook = $"api.github.com" ∧ methods (hook_matcher hook) ≠ []
  | Err _ => False
  end.
Proof.
  assert (@check_hook simple_hook_ops absolute_sockets 0 example_hook = Ok ()) as H by (vm_compute; reflexivity).
  split; [exact H|]. pose proof (@validated_hook_compiles simple_hook_ops absolute_sockets 0 example_hook H) as Hc.
  destruct (compile_hook example_hook) as [hook|e] eqn:E.
  - split; [|exact (proj1 (proj2 Hc))].
    assert (hook_host hook = match @compile_hook simple_hook_ops absolute_sockets example_hook with
            | Ok k => hook_host k | Err _ => [] end) as -> by by rewrite E. vm_compute. reflexivity.
  - destruct Hc as (h & _ & _ & _). vm_compute in E. discriminate E.
Defined.

Definition example_hooks : gmap str (list MitmHook) :=
  match @compile_hooks_into simple_hook_ops absolute_sockets ∅ [example_hook] with Ok m => m | Err _ => ∅ end.
Lemma hook_evaluation_spec_witness :
  (∃ actions, @evaluate_mitm_hooks simple_hook_ops example_hooks ($"api.github.com:443")
     (example_http ($"GET") ($"/repos/openai/codex")) = Matched actions ∧
     values ($"authorization") (apply_mitm_hook_actions [($"cookie", Some ($"a=b"))] (Some actions)) = [Some ($"Bearer s3cret")]) ∧
  @evaluate_mitm_hooks simple_hook_ops example_hooks ($"api.github.com") (example_http ($"GET") ($"/repos/openai/../x"))
    = HookedHostNoMatch ∧
  is_safe_for_authorization (rq_path (example_http ($"GET") ($"/repos/openai/codex"))) = true.
Proof.
  assert (@compile_hooks_into simple_hook_ops absolute_sockets ∅ [example_hook] = Ok example_hooks) as H.
  { unfold example_hooks. destruct (compile_hooks_into ∅ [example_hook]) as [m|e] eqn:E; [reflexivity|].
    exfalso. assert (is_ok (@compile_hooks_into simple_hook_ops absolute_sockets ∅ [example_hook]) = true) as Hok
      by (vm_compute; reflexivity). rewrite E in Hok. discriminate Hok. }
  split; [eexists; split; vm_compute; reflexivity|]. split; [vm_compute; reflexivity|].
  destruct (@hook_evaluation_spec simple_hook_ops absolute_sockets [example_hook] example_hooks ($"api.github.com:443")
    (example_http ($"GET") ($"/repos/openai/codex")) H) as (hooks & _ & Hm).
  assert (match @evaluate_mitm_hooks simple_hook_ops example_hooks ($"api.github.com:443")
            (example_http ($"GET") ($"/repos/openai/codex")) with Matched _ => true | _ => false end = true) as E
    by (vm_compute; reflexivity).
  destruct (evaluate_mitm_hooks _ _ _); try discriminate E. destruct Hm as (_ & _ & _ & _ & _ & _ & _ & Hs & _). exact Hs.
Defined.
