(* ===== verification/NetworkState.v ===== *)
(** * Constraints and compiled state of the proxy: [network-proxy/src/state.rs] and
    [environment_policy.rs]

    A configuration is checked against what an administrator allows
    ([validate_policy_against_constraints]), combined with the policy of the
    environment that owns an execution ([apply_to]) and compiled to the state the
    running proxy reads ([build_config_state]). The checks run in the source's
    order and stop at the first that fails. *)

From stdpp Require Import prelude list gmap strings.
From S2P Require Import Prelude NetAddr NetworkPolicy.

Record NetworkProxyConstraints : Type := mkConstraints {
  max_enabled : option bool;
  max_mode : option NetworkMode;
  max_allow_upstream_proxy : option bool;
  max_allow_non_loopback_proxy : option bool;
  max_allow_all_unix_sockets : option bool;
  managed_allowed_domains : option (list str);
  allowlist_expansion_enabled : option bool;
  managed_denied_domains : option (list str);
  denylist_expansion_enabled : option bool;
  managed_allow_unix_sockets : option (list str);
  max_allow_local_binding : option bool
}.
#[export] Instance NetworkProxyConstraints_eq_dec : EqDecision NetworkProxyConstraints.
Proof. solve_decision. Defined.

Definition no_constraints : NetworkProxyConstraints :=
  mkConstraints None None None None None None None None None None None.

Record NetworkProxyConstraintError : Type := InvalidValue {
  field_name : str;
  candidate : str;
  allowed : str
}.

Definition network_mode_rank (m : NetworkMode) : nat := match m with Limited => 0 | Full => 1 end.
Definition debug_mode (m : NetworkMode) : str := match m with Limited => $"Limited" | Full => $"Full" end.

(** The set of the lower-cased entries. *)
Definition lower_set (entries : list str) : gset str := list_to_set (to_ascii_lowercase <$> entries).

(** [if b { Err(invalid_value(..)) } else { Ok(()) }]. *)
Definition reject_when (b : bool) (e : NetworkProxyConstraintError)
    : result NetworkProxyConstraintError unit := if b then Err e else Ok ().
Definition disabled_by_managed (field : str) : NetworkProxyConstraintError :=
  InvalidValue field ($"true") ($"false (disabled by managed config)").

Definition find_wildcard (patterns : list str) : option str := List.find is_global_wildcard_domain_pattern patterns.
Definition validate_non_global_wildcard_domain_patterns (field : str) (patterns : list str)
    : result NetworkProxyConstraintError unit :=
  match find_wildcard patterns with
  | Some p =>
      Err (InvalidValue field (trim p) ($"exact hosts or scoped wildcards like *.example.com or **.example.com"))
  | None => Ok ()
  end.

Section state.
Context {Ma : Matching} {Mi : Mitm} {So : SocketPaths}.

(** ** Hooks: the shape of the checks of [mitm_hook.rs] *)
Fixpoint validate_hooks (index : nat) (hooks : list MitmHookConfig) : result str unit :=
  match hooks with
  | [] => Ok ()
  | hook :: hooks =>
      match validate_mitm_hook index hook with
      | Some err => Err err
      | None => validate_hooks (S index) hooks
      end
  end.
Definition validate_mitm_hook_config (config : NetworkProxyConfig) : result str unit :=
  if is_empty (mitm_hooks config) then Ok ()
  else if negb (mitm config) then Err ($"network.mitm_hooks requires network.mitm = true")
  else validate_hooks 0 (mitm_hooks config).
Definition compile_mitm_hooks (config : NetworkProxyConfig) : result str MitmHooksByHost :=
  let? _ := validate_mitm_hook_config config in compile_hooks (mitm_hooks config).

(** ** Constraints *)

(** The managed allowlist, by how the user may extend it. *)
Definition validate_allowed_domains (config_allowed : list str) (overrides : gset str) (expansion : option bool)
    (managed : list str) : result NetworkProxyConstraintError unit :=
  match expansion with
  | Some true =>
      let missing := elements (filter (λ entry, entry ∉ lower_set config_allowed ∧ entry ∉ overrides)
                                 (lower_set managed)) in
      reject_when (negb (is_empty missing))
        (InvalidValue ($"network.allowed_domains") ($"missing managed allowed_domains entries") (debug_list missing))
  | Some false =>
      reject_when (bool_decide (lower_set config_allowed ≠ lower_set managed ∖ overrides))
        (InvalidValue ($"network.allowed_domains") (debug_list config_allowed)
           ($"must match managed allowed_domains"))
  | None =>
      let managed_patterns := parse_for_constraints <$> managed in
      let invalid := List.filter (λ entry,
        negb (existsb (λ m, allows m (parse_for_constraints entry)) managed_patterns)) config_allowed in
      reject_when (negb (is_empty invalid))
        (InvalidValue ($"network.allowed_domains") (debug_list invalid) ($"subset of managed allowed_domains"))
  end.

Definition validate_denied_domains (config_denied : list str) (expansion : option bool) (managed : list str)
    : result NetworkProxyConstraintError unit :=
  match expansion with
  | Some false =>
      reject_when (bool_decide (lower_set config_denied ≠ lower_set managed))
        (InvalidValue ($"network.denied_domains") (debug_list config_denied) ($"must match managed denied_domains"))
  | Some true | None =>
      let missing := elements (filter (λ entry, entry ∉ lower_set config_denied) (lower_set managed)) in
      reject_when (negb (is_empty missing))
        (InvalidValue ($"network.denied_domains") ($"missing managed denied_domains entries") (debug_list missing))
  end.

Definition validate_unix_sockets (config_sockets managed : list str) : result NetworkProxyConstraintError unit :=
  let invalid := List.filter (λ entry,
    negb (bool_decide (to_ascii_lowercase entry ∈ lower_set managed))) config_sockets in
  reject_when (negb (is_empty invalid))
    (InvalidValue ($"network.allow_unix_sockets") (debug_list invalid) ($"subset of managed allow_unix_sockets")).

Definition validate_policy_against_constraints (config : NetworkProxyConfig) (constraints : NetworkProxyConstraints)
    : result NetworkProxyConstraintError unit :=
  let config_allowed := default [] (allowed_domains config) in
  let config_denied := default [] (denied_domains config) in
  let denied_domain_overrides := lower_set config_denied in
  let? _ := match validate_mitm_hook_config config with
            | Ok _ => Ok ()
            | Err err => Err (InvalidValue ($"network.mitm_hooks") err ($"valid MITM hook configuration"))
            end in
  let? _ := validate_non_global_wildcard_domain_patterns ($"network.denied_domains") config_denied in
  let? _ := match max_enabled constraints with
            | Some m => reject_when (enabled config && negb m) (disabled_by_managed ($"network.enabled"))
            | None => Ok ()
            end in
  let? _ := match max_mode constraints with
            | Some m =>
                reject_when (network_mode_rank m <? network_mode_rank (mode config))
                  (InvalidValue ($"network.mode") (debug_mode (mode config)) (debug_mode m ++ $" or more restrictive"))
            | None => Ok ()
            end in
  let? _ := match max_allow_upstream_proxy constraints with
            | Some false =>
                reject_when (allow_upstream_proxy config) (disabled_by_managed ($"network.allow_upstream_proxy"))
            | Some true | None => Ok ()
            end in
  let? _ := match max_allow_non_loopback_proxy constraints with
            | Some false =>
                reject_when (dangerously_allow_non_loopback_proxy config)
                  (disabled_by_managed ($"network.dangerously_allow_non_loopback_proxy"))
            | Some true | None => Ok ()
            end in
  let allow_all := default (bool_decide (managed_allow_unix_sockets constraints = None))
                     (max_allow_all_unix_sockets constraints) in
  let? _ := reject_when (dangerously_allow_all_unix_sockets config && negb allow_all)
              (disabled_by_managed ($"network.dangerously_allow_all_unix_sockets")) in
  let? _ := match max_allow_local_binding constraints with
            | Some m =>
                reject_when (allow_local_binding config && negb m) (disabled_by_managed ($"network.allow_local_binding"))
            | None => Ok ()
            end in
  let? _ := match managed_allowed_domains constraints with
            | Some managed =>
                let? _ := validate_non_global_wildcard_domain_patterns ($"network.allowed_domains") managed in
                validate_allowed_domains config_allowed denied_domain_overrides
                  (allowlist_expansion_enabled constraints) managed
            | None => Ok ()
            end in
  let? _ := match managed_denied_domains constraints with
            | Some managed =>
                let? _ := validate_non_global_wildcard_domain_patterns ($"network.denied_domains") managed in
                validate_denied_domains config_denied (denylist_expansion_enabled constraints) managed
            | None => Ok ()
            end in
  match managed_allow_unix_sockets constraints with
  | Some managed => validate_unix_sockets (allow_unix_sockets config) managed
  | None => Ok ()
  end.

(** ** The compiled state ([runtime.rs], [ConfigState]) *)
Record BlockedRequest : Type := mkBlockedRequest {
  br_host : str;
  br_reason : str;
  br_client : option str;
  br_method : option str;
  br_mode : option NetworkMode;
  br_protocol : str;
  br_execution_id : option str;
  br_decision : option str;
  br_source : option str;
  br_port : option N;
  br_timestamp : Z
}.

Record ConfigState : Type := mkConfigState {
  config : NetworkProxyConfig;
  brokerage_created_default_allowlist : bool;
  allow_set : GlobSet;
  deny_set : GlobSet;
  mitm_state : option MitmState;
  mitm_hooks_by_host : MitmHooksByHost;
  constraints : NetworkProxyConstraints;
  blocked : list BlockedRequest;
  blocked_total : N
}.

(** What brokerage of credentials changes: it may start the proxy by itself, and
    then lets everything through unless someone chose an allowlist. *)
Definition brokered_config (config : NetworkProxyConfig) (constraints : NetworkProxyConstraints)
    : NetworkProxyConfig * bool :=
  let config := if bool_decide (max_enabled constraints = Some false) then set_credential_broker false config
                else config in
  let brokerage_created_proxy := credential_broker config && negb (enabled config) in
  let default_allowlist := brokerage_created_proxy && bool_decide (allowed_domains config = None)
                           && bool_decide (managed_allowed_domains constraints = None) in
  let config := if brokerage_created_proxy then set_enabled true config else config in
  let config := if default_allowlist then set_allowed_domains config [$"*"] else config in
  (config, default_allowlist).

Definition constraint_message (e : NetworkProxyConstraintError) : str :=
  $"invalid value for " ++ field_name e ++ $": " ++ candidate e ++ $" (allowed " ++ allowed e ++ $")".

Definition build_config_state (config : NetworkProxyConfig) (constraints : NetworkProxyConstraints)
    : result str ConfigState :=
  let '(config, default_allowlist) := brokered_config config constraints in
  let? _ := validate_unix_socket_allowlist_paths config in
  let? _ := if negb (credential_broker config) || mitm config then Ok ()
            else Err ($"network.credential_broker requires network.mitm = true") in
  let allowed := default [] (allowed_domains config) in
  let denied := default [] (denied_domains config) in
  let? _ := match validate_non_global_wildcard_domain_patterns ($"network.denied_domains") denied with
            | Ok _ => Ok ()
            | Err e => Err (constraint_message e)
            end in
  let? deny := compile_denylist_globset denied in
  let? allow := compile_allowlist_globset allowed in
  let? hooks := compile_mitm_hooks config in
  let? mitm := if mitm config
               then let? m := new_mitm_state (allow_upstream_proxy config) in Ok (Some m)
               else Ok None in
  Ok (mkConfigState config default_allowlist allow deny mitm hooks constraints [] 0).

(** ** The environment's own policy ([environment_policy.rs]) *)
Record EnvironmentNetworkPolicy : Type := mkEnvironmentPolicy {
  env_domains : option NetworkDomainPermissions;
  env_unix_sockets : option NetworkUnixSocketPermissions;
  env_allow_upstream_proxy : bool;
  env_allow_all_unix_sockets : bool;
  env_allow_local_binding : bool;
  env_managed_allowed_domains_only : bool
}.

Definition from_config (c : NetworkProxyConfig) (managed_only : bool) : EnvironmentNetworkPolicy :=
  mkEnvironmentPolicy (domains c) (unix_sockets c) (allow_upstream_proxy c)
    (dangerously_allow_all_unix_sockets c) (allow_local_binding c) managed_only.

Definition some_socket_denied (sockets : NetworkUnixSocketPermissions) : bool :=
  existsb (λ kv, bool_decide (kv.2 = SocketDeny)) (map_to_list sockets).

(** The shared grants of two socket policies, and every denial of either. *)
Definition combine_sockets (inherited owner : NetworkUnixSocketPermissions) (inherited_all owner_all : bool)
    : NetworkUnixSocketPermissions :=
  let kept := filter (λ kv, kv.2 = SocketDeny ∨ inherited_all = true ∨ inherited !! kv.1 = Some SocketAllow) owner in
  filter (λ kv, owner_all = true ∨ kv.2 = SocketDeny) inherited ∪ kept.

Definition apply_to (self : EnvironmentNetworkPolicy) (config : NetworkProxyConfig) : NetworkProxyConfig :=
  let inherited_denials := default [] (denied_domains config) in
  let config := set_domains (env_domains self) config in
  let config := foldl (λ c domain, upsert_domain_permission c domain PermissionDeny normalize_host)
                  config inherited_denials in
  let inherited_sockets := default ∅ (unix_sockets config) in
  let owner_sockets := default ∅ (env_unix_sockets self) in
  let inherited_permits_all := dangerously_allow_all_unix_sockets config && negb (some_socket_denied inherited_sockets) in
  let owner_permits_all := env_allow_all_unix_sockets self && negb (some_socket_denied owner_sockets) in
  let effective := combine_sockets inherited_sockets owner_sockets inherited_permits_all owner_permits_all in
  set_sockets (if bool_decide (effective = ∅) then None else Some effective)
    (inherited_permits_all && owner_permits_all)
    (allow_upstream_proxy config && env_allow_upstream_proxy self)
    (allow_local_binding config && env_allow_local_binding self) config.
End state.
