(* ===== verification/NetworkPolicySpec.v ===== *)
(** * What patterns, lists and constraints of the proxy mean

    [covers] says which hosts a pattern stands for. Patterns are compared as sets
    of hosts when an administrator restricts them ([allows_spec]) and compiled
    globs match these hosts ([compile_covers]), for any matcher that honours what
    the [globset] package documents about the globs used here ([GlobLaws]). Then:
    what the effective entries of a list are, that compiling a valid configuration
    keeps it valid, and what an environment's policy can and cannot change. *)

From stdpp Require Import prelude list gmap strings.
From S2P Require Import Prelude NetAddr NetworkPolicy NetworkState.

(** ** Patterns as sets of hosts *)
Definition domain_of (p : DomainPattern) : str :=
  match p with ApexAndSubdomains d | SubdomainsOnly d | Exact d => d end.
Definition below (d h : str) : Prop := ∃ x, x ≠ [] ∧ h = x ++ $"." ++ d.
Definition covers (p : DomainPattern) (h : str) : Prop :=
  match p with
  | Exact d => h = normalize_domain d
  | SubdomainsOnly d => below (normalize_domain d) h
  | ApexAndSubdomains d => h = normalize_domain d ∨ below (normalize_domain d) h
  end.

Lemma domain_eq_true c d : domain_eq c d = true ↔ normalize_domain c = normalize_domain d.
Proof. unfold domain_eq. apply bool_decide_eq_true. Qed.
Lemma subdomain_or_equal_true c d :
  is_subdomain_or_equal c d = true ↔
  normalize_domain c = normalize_domain d ∨ ∃ y, normalize_domain c = y ++ $"." ++ normalize_domain d.
Proof.
  unfold is_subdomain_or_equal. case_bool_decide as H; [naive_solver|]. rewrite ends_with_true. naive_solver.
Qed.
Lemma strict_subdomain_true c d :
  is_strict_subdomain c d = true ↔ ∃ y, normalize_domain c = y ++ $"." ++ normalize_domain d.
Proof.
  unfold is_strict_subdomain. rewrite andb_true_iff, bool_decide_eq_true, ends_with_true.
  split; [naive_solver|]. intros [y Hy]. split; [|eauto]. intros E. rewrite E in Hy.
  apply (f_equal length) in Hy. rewrite !length_app in Hy. cbn in Hy. lia.
Qed.

(** Reading [x.c = y.d] with [x] one letter. *)
Lemma below_letter a c d y :
  [a] ++ $"." ++ c = y ++ $"." ++ d → y ≠ [] → c = d ∨ ∃ z, c = z ++ $"." ++ d.
Proof.
  intros H Hy. destruct y as [|b [|e y]]; [done| |]; cbn in H; simplify_eq; [by left|].
  destruct y as [|f y]; cbn in *; simplify_eq; right; [by exists []|by exists (f :: y)].
Qed.
Lemma below_below c d h : below c h → (∃ y, c = y ++ $"." ++ d) → below d h.
Proof.
  intros (x & Hx & ->) [y ->]. exists (x ++ $"." ++ y). split; [by destruct x|]. by rewrite <-!app_assoc.
Qed.
Lemma no_dot_below c d : starts_with ($".") c = false → (∃ y, c = y ++ $"." ++ d) → below d c.
Proof.
  intros Hdot [y ->]. exists y. split; [|done]. intros ->.
  assert (starts_with ($".") ([] ++ $"." ++ d) = true) as H; [|congruence]. apply starts_with_true. by exists d.
Qed.
Lemma below_strict c d : below d c → ∃ y, c = y ++ $"." ++ d.
Proof. intros (y & _ & ->). by exists y. Qed.
Lemma letter_below a d : below d ([a] ++ $"." ++ d).
Proof. by exists [a]. Qed.

Lemma allows_sound p q h :
  starts_with ($".") (normalize_domain (domain_of q)) = false → allows p q = true → covers q h → covers p h.
Proof.
  intros Hdot Ha Hq. destruct p as [d|d|d], q as [c|c|c]; cbn [allows covers domain_of] in *; try done.
  - apply subdomain_or_equal_true in Ha as [<-|Hy]; [done|]. right. destruct Hq as [->|Hq].
    + by apply no_dot_below.
    + by eapply below_below.
  - apply subdomain_or_equal_true in Ha as [<-|Hy]; right; [done|]. by eapply below_below.
  - subst h. apply subdomain_or_equal_true in Ha as [<-|Hy]; [by left|]. right. by apply no_dot_below.
  - apply strict_subdomain_true in Ha. destruct Hq as [->|Hq]; [by apply no_dot_below|]. by eapply below_below.
  - apply subdomain_or_equal_true in Ha as [<-|Hy]; [done|]. by eapply below_below.
  - subst h. apply strict_subdomain_true in Ha. by apply no_dot_below.
  - subst h. by apply domain_eq_true in Ha.
Qed.

Lemma allows_complete p q : (∀ h, covers q h → covers p h) → allows p q = true.
Proof.
  intros H. destruct p as [d|d|d], q as [c|c|c]; cbn [allows covers] in *.
  - apply subdomain_or_equal_true. destruct (H _ (or_introl eq_refl)) as [?|Hb]; [by left|].
    right. by apply below_strict.
  - apply subdomain_or_equal_true.
    destruct (H _ (letter_below 97%N _)) as [Ea|(y & Hy & Ea)]; [|by eapply below_letter].
    destruct (H _ (letter_below 98%N _)) as [Eb|(y & Hy & Eb)]; [|by eapply below_letter].
    rewrite <-Ea in Eb. by simplify_eq/=.
  - apply subdomain_or_equal_true. destruct (H _ eq_refl) as [?|Hb]; [by left|]. right. by apply below_strict.
  - apply strict_subdomain_true, below_strict, H. by left.
  - apply subdomain_or_equal_true. destruct (H _ (letter_below 97%N _)) as (y & Hy & Ea). by eapply below_letter.
  - by apply strict_subdomain_true, below_strict, H.
  - exfalso. pose proof (H _ (or_introl eq_refl)) as E. pose proof (H _ (or_intror (letter_below 97%N _))) as Ea.
    rewrite <-E in Ea. apply (f_equal length) in Ea. rewrite !length_app in Ea. cbn in Ea. lia.
  - exfalso. pose proof (H _ (letter_below 97%N _)) as Ea. pose proof (H _ (letter_below 98%N _)) as Eb.
    rewrite <-Ea in Eb. by simplify_eq/=.
  - by apply domain_eq_true, H.
Qed.

(** A managed pattern admits a pattern of the user exactly when every host the user's pattern stands
    for is one the managed pattern stands for; the user's domain does not begin with a dot. *)
Theorem allows_spec p q :
  starts_with ($".") (normalize_domain (domain_of q)) = false →
  allows p q = true ↔ ∀ h, covers q h → covers p h.
Proof. intros Hdot. split; [intros Ha h; by apply allows_sound|apply allows_complete]. Qed.
Lemma allows_spec_witness :
  starts_with ($".") (normalize_domain (domain_of (parse_pattern ($"*.api.example.com")))) = false ∧
  (∀ h, covers (parse_pattern ($"*.api.example.com")) h → covers (parse_pattern ($"*.Example.com.")) h).
Proof.
  split; [reflexivity|]. exact (proj1 (allows_spec (parse_pattern ($"*.Example.com."))
    (parse_pattern ($"*.api.example.com")) eq_refl) eq_refl).
Defined.

(** With a leading dot the two differ: no host of the managed pattern is [.example.com]. *)
Example leading_dot_admitted :
  allows (SubdomainsOnly ($"example.com")) (Exact ($".example.com")) = true ∧
  ¬ covers (SubdomainsOnly ($"example.com")) ($".example.com").
Proof.
  split; [reflexivity|]. intros (x & Hx & H). destruct x as [|c x]; [done|].
  change (normalize_domain ($"example.com")) with ($"example.com") in H.
  apply (f_equal length) in H. rewrite !length_app in H. cbn in H. lia.
Qed.

(** ** Compiled patterns *)

(** Characters that mean something in a glob: [* ? \[ \] { } \\ ,]. *)
Definition STAR : char := 42%N.
Definition glob_special (c : char) : bool := existsb (N.eqb c) [42; 63; 91; 93; 123; 125; 92; 44]%N.
Definition literal (s : str) : bool := negb (existsb glob_special s).

(** A domain in which single stars may stand, in the middle of a label too. *)
Fixpoint wild (s : str) : bool :=
  match s with
  | [] => true
  | c :: s => ((c =? STAR)%N && negb (starts_with [STAR] s) || negb (glob_special c)) && wild s
  end.
(** A star stands for any text, every other character for itself. *)
Fixpoint wild_match (d : str) : str → bool :=
  match d with
  | [] => λ h, is_empty h
  | c :: d =>
      if (c =? STAR)%N
      then fix star h := wild_match d h || match h with [] => false | _ :: h => star h end
      else λ h, match h with [] => false | x :: h => (x =? c)%N && wild_match d h end
  end.
(** Something, a dot, and a text that matches. *)
Definition below_wild (d h : str) : Prop := ∃ x y, x ≠ [] ∧ h = x ++ $"." ++ y ∧ wild_match d y = true.

(** What the package documents of globs that ignore case: a text without special characters but single
    stars matches what has any text in the place of each star, and [?*.] before such a text matches
    what has something and a dot before a match of it. *)
Class GlobLaws {Ma : Matching} : Prop := {
  glob_wild d : wild d = true → ∃ g, glob_build d = Some g ∧
    ∀ h, g h = true ↔ wild_match (to_ascii_lowercase d) (to_ascii_lowercase h) = true;
  glob_below d : wild d = true → ∃ g, glob_build ($"?*." ++ d) = Some g ∧
    ∀ h, g h = true ↔ below_wild (to_ascii_lowercase d) (to_ascii_lowercase h)
}.

Lemma wild_match_star d h : wild_match (STAR :: d) h = true ↔ ∃ x y, h = x ++ y ∧ wild_match d y = true.
Proof.
  change (wild_match (STAR :: d)) with (fix star h := wild_match d h || match h with [] => false | _ :: h => star h end).
  induction h as [|c h IH]; cbn beta iota; rewrite orb_true_iff.
  - split; [intros [?|?]; [by exists [], []|done]|]. intros (x & y & E & ?). left. by destruct x, y.
  - rewrite IH. split.
    + intros [?|(x & y & -> & ?)]; [by exists [], (c :: h)|by exists (c :: x), y].
    + intros ([|c' x] & y & E & ?); [left; by rewrite E|right]. injection E as -> ->. by exists x, y.
Qed.
Lemma wild_match_cons c d h : c ≠ STAR → wild_match (c :: d) h = true ↔ ∃ y, h = c :: y ∧ wild_match d y = true.
Proof.
  intros Hc. cbn [wild_match]. rewrite (proj2 (N.eqb_neq _ _) Hc). destruct h as [|x h]; [naive_solver|].
  rewrite andb_true_iff, N.eqb_eq. naive_solver.
Qed.

(** Without stars the domain matches itself only. *)
Lemma literal_cons c s : literal (c :: s) = true ↔ glob_special c = false ∧ literal s = true.
Proof. unfold literal. cbn [existsb]. by rewrite negb_orb, andb_true_iff, negb_true_iff. Qed.
Lemma literal_wild d : literal d = true → wild d = true.
Proof. induction d as [|c d IH]; [done|]. intros [Hc Hd]%literal_cons. cbn [wild]. by rewrite Hc, IH, orb_true_r. Qed.
Lemma wild_match_literal d h : literal d = true → wild_match d h = true ↔ h = d.
Proof.
  revert h. induction d as [|c d IH]; intros h; [by destruct h|]. intros [Hc Hd]%literal_cons.
  rewrite wild_match_cons by (by intros ->). split.
  - intros (y & -> & ->%IH); done.
  - intros ->. exists d. split; [done|]. by apply IH.
Qed.
Lemma below_wild_literal d h : literal d = true → below_wild d h ↔ below d h.
Proof.
  intros Hd. unfold below_wild, below. split.
  - intros (x & y & Hx & -> & ->%wild_match_literal); [by exists x|done].
  - intros (x & Hx & ->). exists x, d. split_and!; [done|done|by apply wild_match_literal].
Qed.

Lemma literal_lower d : literal (to_ascii_lowercase d) = literal d.
Proof.
  unfold literal, to_ascii_lowercase. f_equal. induction d as [|c d IH]; [done|]. cbn [fmap list_fmap existsb]. rewrite IH. f_equal.
  destruct (_ && _) eqn:E; [|done]. apply andb_true_iff in E as [E1%N.leb_le E2%N.leb_le]. unfold glob_special. cbn [existsb].
  by repeat (rewrite !(proj2 (N.eqb_neq _ _)) by lia).
Qed.
Lemma glob_literal `{GlobLaws} d : literal d = true → ∃ g, glob_build d = Some g ∧
  ∀ h, g h = true ↔ to_ascii_lowercase h = to_ascii_lowercase d.
Proof.
  intros Hd. destruct (glob_wild d (literal_wild d Hd)) as (g & Hg & Hm). exists g. split; [done|]. intros h.
  rewrite Hm. apply wild_match_literal. by rewrite literal_lower.
Qed.

(** The hosts of a pattern whose domain may have stars. *)
Definition wild_covers (q : DomainPattern) (h : str) : Prop :=
  match q with
  | Exact d => wild_match d h = true
  | SubdomainsOnly d => below_wild d h
  | ApexAndSubdomains d => wild_match d h = true ∨ below_wild d h
  end.

(** An entry of a list that stands for hosts: [*], a domain, or a domain behind [*.] or [**.], where the
    domain is in normal form and may have single stars, but no other special character of globs. *)
Definition plain_entry (p : str) : bool :=
  let q := parse_pattern (normalize_pattern p) in
  wild (domain_of q) && bool_decide (normalize_domain (domain_of q) = domain_of q)
  && bool_decide (to_ascii_lowercase (domain_of q) = domain_of q).
Definition entry_covers (p h : str) : Prop := wild_covers (parse_pattern (normalize_pattern p)) h.

Example wild_entries :
  forallb plain_entry [$"*"; $"Example.COM."; $"*.example.com"; $"**.example.com"; $"region*.v2.argotunnel.com"; $"[::1]"] = true ∧
  wild_match ($"region*.v2.argotunnel.com") ($"region1.v2.argotunnel.com") = true ∧
  wild_match ($"region*.v2.argotunnel.com") ($"region.v2.argotunnel.com") = true ∧
  wild_match ($"region*.v2.argotunnel.com") ($"xregion1.v2.argotunnel.com") = false ∧
  wild_match ($"region*.v2.argotunnel.com") ($"foo.region1.v2.argotunnel.com") = false.
Proof. vm_compute. repeat split. Qed.
(** Without stars these are the hosts of the pattern. *)
Lemma literal_entry_covers p h : plain_entry p = true → literal (domain_of (parse_pattern (normalize_pattern p))) = true →
  entry_covers p h ↔ covers (parse_pattern (normalize_pattern p)) h.
Proof.
  unfold plain_entry, entry_covers, wild_covers. intros [[_ Hn%bool_decide_eq_true]%andb_true_iff _]%andb_true_iff Hl.
  destruct (parse_pattern (normalize_pattern p)) as [d|d|d]; cbn [domain_of covers] in *; rewrite Hn;
    by rewrite ?wild_match_literal, ?below_wild_literal.
Qed.

Section compiled.
Context {Ma : Matching} {GL : GlobLaws}.

(** The matchers collected are those of the candidates seen. *)
Definition globs_of (seen : gset str) (globs : list (str * (str → bool))) : Prop :=
  (∀ c g, (c, g) ∈ globs → glob_build c = Some g) ∧ (∀ c, c ∈ seen ↔ c ∈ globs.*1).

Lemma globs_of_snoc seen globs c g :
  globs_of seen globs → glob_build c = Some g → globs_of ({[c]} ∪ seen) (globs ++ [(c, g)]).
Proof.
  intros [H1 H2] Hg. split.
  - intros c' g' [?|[= -> ->]%list_elem_of_singleton]%elem_of_app; eauto.
  - intros c'. rewrite fmap_app, elem_of_union, elem_of_singleton, elem_of_app, H2. cbn.
    rewrite list_elem_of_singleton. tauto.
Qed.
Lemma compile_candidates_spec cs seen globs seen' globs' :
  globs_of seen globs → compile_candidates cs seen globs = Ok (seen', globs') →
  globs_of seen' globs' ∧ ∀ c, c ∈ globs'.*1 ↔ c ∈ globs.*1 ∨ c ∈ cs.
Proof.
  revert seen globs. induction cs as [|c cs IH]; intros seen globs Hg H; cbn [compile_candidates] in H.
  { simplify_eq. split; [done|]. set_solver. }
  case_decide as Hc.
  - destruct (IH _ _ Hg H) as [? Hm]. split; [done|]. intros c'. rewrite Hm, elem_of_cons.
    destruct Hg as [_ Hs]. apply Hs in Hc. naive_solver.
  - destruct (glob_build c) as [g|] eqn:Hb; [|done].
    destruct (IH _ _ (globs_of_snoc _ _ _ _ Hg Hb) H) as [? Hm]. split; [done|].
    intros c'. rewrite Hm, fmap_app, elem_of_app, elem_of_cons. cbn. rewrite list_elem_of_singleton. tauto.
Qed.
Lemma compile_patterns_spec ps w seen globs globs' :
  globs_of seen globs → compile_patterns ps w seen globs = Ok globs' →
  ∃ seen', globs_of seen' globs' ∧
    ∀ c, c ∈ globs'.*1 ↔ c ∈ globs.*1 ∨ ∃ p, p ∈ ps ∧ c ∈ expand_domain_pattern (normalize_pattern p).
Proof.
  revert seen globs. induction ps as [|p ps IH]; intros seen globs Hg H; cbn [compile_patterns] in H.
  { simplify_eq. exists seen. split; [done|]. set_solver. }
  destruct (_ && _); [done|]. unfold rbind in H.
  destruct (compile_candidates _ _ _) as [[seen' globs'']|] eqn:Hc; [|done].
  destruct (compile_candidates_spec _ _ _ _ _ Hg Hc) as [Hg' Hm].
  destruct (IH _ _ Hg' H) as (seen'' & Hg'' & Hm'). exists seen''. split; [done|].
  intros c. rewrite Hm', Hm. set_solver.
Qed.
Lemma compile_globset_matches ps w set h :
  compile_globset_with_policy ps w = Ok set →
  is_match set h = true ↔
  ∃ p c g, p ∈ ps ∧ c ∈ expand_domain_pattern (normalize_pattern p) ∧ glob_build c = Some g ∧ g h = true.
Proof.
  unfold compile_globset_with_policy, rbind. destruct (compile_patterns ps w ∅ []) as [globs|] eqn:Hc; [|done].
  destruct (globset_ok _); [|done]. intros [= <-].
  assert (globs_of ∅ []) as H0 by (split; set_solver).
  destruct (compile_patterns_spec _ _ _ _ _ H0 Hc) as (seen & [Hg _] & Hm).
  unfold is_match. rewrite existsb_elem. split.
  - intros (g & ([c g'] & -> & Hin)%list_elem_of_fmap & Hh). cbn in *.
    destruct (proj1 (Hm c)) as [?|(p & ? & ?)]; [apply list_elem_of_fmap; by exists (c, g')|set_solver|].
    exists p, c, g'. eauto.
  - intros (p & c & g & Hp & Hc' & Hb & Hh). exists g. split; [|done].
    assert (c ∈ globs.*1) as ([c' g'] & Ec & Hin)%list_elem_of_fmap by (apply Hm; eauto).
    cbn in Ec. subst c'. apply list_elem_of_fmap. exists (c, g'). split; [|done].
    apply Hg in Hin. cbn. congruence.
Qed.

Lemma entry_globs p h :
  plain_entry p = true → to_ascii_lowercase h = h →
  (∃ c g, c ∈ expand_domain_pattern (normalize_pattern p) ∧ glob_build c = Some g ∧ g h = true) ↔ entry_covers p h.
Proof.
  unfold plain_entry, expand_domain_pattern, entry_covers, wild_covers.
  intros [[Hw _]%andb_true_iff Hl%bool_decide_eq_true]%andb_true_iff Hh.
  destruct (glob_wild _ Hw) as (gl & Hgl & Hml), (glob_below _ Hw) as (gs & Hgs & Hms).
  specialize (Hml h). specialize (Hms h). rewrite Hh, Hl in *.
  destruct (parse_pattern (normalize_pattern p)) as [d|d|d] eqn:Hq; cbn [domain_of] in *.
  - split.
    + intros (c & g & [->|[->|?]%elem_of_cons]%elem_of_cons & Hg & Hm); [| |set_solver]; naive_solver.
    + intros [?|?].
      * exists d, gl. split; [by left|]. naive_solver.
      * exists ($"?*." ++ d), gs. split; [right; by left|]. naive_solver.
  - split; [intros (c & g & ->%list_elem_of_singleton & Hg & Hm); naive_solver|].
    intros ?. exists ($"?*." ++ d), gs. split; [by left|]. naive_solver.
  - split; [intros (c & g & ->%list_elem_of_singleton & Hg & Hm); naive_solver|].
    intros ?. exists d, gl. split; [by left|]. naive_solver.
Qed.

Lemma compile_covers ps w set h :
  compile_globset_with_policy ps w = Ok set → Forall (λ p, plain_entry p = true) ps → to_ascii_lowercase h = h →
  is_match set h = true ↔ ∃ p, p ∈ ps ∧ entry_covers p h.
Proof.
  intros Hc Hp Hh. rewrite (compile_globset_matches _ _ _ _ Hc). rewrite Forall_forall in Hp. split.
  - intros (p & c & g & Hin & Hr). exists p. split; [done|]. apply entry_globs; eauto.
  - intros (p & Hin & He). apply entry_globs in He as (c & g & Hr); eauto 7.
Qed.
End compiled.

(** ** A matcher of these globs *)
Definition below_wildb (d h : str) : bool :=
  existsb (λ i, bool_decide (h !! i = Some 46%N) && wild_match d (drop (S i) h)) (seq 1 (length h)).
Lemma below_wildb_true d h : below_wildb d h = true ↔ below_wild d h.
Proof.
  unfold below_wildb, below_wild. rewrite existsb_elem. split.
  - intros (i & Hi%elem_of_seq & [Hd%bool_decide_eq_true Hm]%andb_true_iff). exists (take i h), (drop (S i) h). split_and!; [|by rewrite <-(take_drop_middle h i _ Hd) at 1|done].
    apply lookup_lt_Some in Hd. destruct h; [cbn in Hd; lia|]. destruct i; [lia|done].
  - intros (x & y & Hx & -> & Hm). exists (length x). split.
    + apply elem_of_seq. rewrite !length_app. destruct x; [done|]. cbn. lia.
    + rewrite (drop_app_ge x) by lia. replace (S (length x) - length x) with 1 by lia.
      rewrite lookup_app_r, Nat.sub_diag by lia. change (drop 1 ($"." ++ y)) with y. by rewrite Hm, andb_true_r.
Qed.
Definition simple_glob (t : str) : option (str → bool) :=
  match strip_prefix ($"?*.") t with
  | Some d => if wild d then Some (λ h, below_wildb (to_ascii_lowercase d) (to_ascii_lowercase h)) else None
  | None => if wild t then Some (λ h, wild_match (to_ascii_lowercase t) (to_ascii_lowercase h)) else None
  end.
Definition simple_matching : Matching :=
  Build_Matching simple_glob (λ _, true) (λ host, Some (to_ascii_lowercase host)) (λ l, join ($", ") l).

Lemma simple_globs : @GlobLaws simple_matching.
Proof.
  split; cbn [glob_build simple_matching]; unfold simple_glob.
  - intros d Hd. destruct (strip_prefix ($"?*.") d) as [r|] eqn:E; [|rewrite Hd; by eexists].
    apply strip_prefix_Some in E. subst d. change ($"?*." ++ r) with (63%N :: $"*." ++ r) in Hd. discriminate Hd.
  - intros d Hd. rewrite strip_prefix_app, Hd. eexists. split; [done|]. intros h. apply below_wildb_true.
Qed.

(** ** Effective entries *)
Definition strongest (entries : NetworkDomainPermissions) (p : str) : option NetworkDomainPermission :=
  if bool_decide (mkDomainEntry p PermissionDeny ∈ entries) then Some PermissionDeny
  else if bool_decide (mkDomainEntry p PermissionAllow ∈ entries) then Some PermissionAllow
  else if bool_decide (mkDomainEntry p PermissionNone ∈ entries) then Some PermissionNone
  else None.

Definition effective_inv (entries : NetworkDomainPermissions) (acc : list str * gmap str NetworkDomainPermission)
    : Prop :=
  (∀ p, acc.2 !! p = strongest entries p) ∧ (∀ p, p ∈ acc.1 ↔ is_Some (acc.2 !! p)).

Lemma strongest_snoc_ne entries e p : pattern e ≠ p → strongest (entries ++ [e]) p = strongest entries p.
Proof.
  intros Hp. unfold strongest.
  assert (∀ q, bool_decide (mkDomainEntry p q ∈ entries ++ [e]) = bool_decide (mkDomainEntry p q ∈ entries)) as H.
  { intros q. apply bool_decide_ext. rewrite elem_of_app, list_elem_of_singleton. naive_solver. }
  by rewrite !H.
Qed.
Lemma strongest_snoc entries e :
  strongest (entries ++ [e]) (pattern e) =
  match strongest entries (pattern e) with
  | Some q => Some (if permission_rank q <? permission_rank (permission e) then permission e else q)
  | None => Some (permission e)
  end.
Proof.
  destruct e as [p q]. cbn [pattern permission]. unfold strongest.
  assert (∀ r, bool_decide (mkDomainEntry p r ∈ entries ++ [mkDomainEntry p q]) =
               bool_decide (mkDomainEntry p r ∈ entries) || bool_decide (r = q)) as H.
  { intros r. rewrite <-bool_decide_or. apply bool_decide_ext.
    rewrite elem_of_app, list_elem_of_singleton. naive_solver. }
  rewrite !H. destruct (bool_decide (_ PermissionDeny ∈ _)), (bool_decide (_ PermissionAllow ∈ _)),
    (bool_decide (_ PermissionNone ∈ _)), q; reflexivity.
Qed.

Lemma effective_step_inv entries acc e :
  effective_inv entries acc → effective_inv (entries ++ [e]) (effective_step acc e).
Proof.
  destruct acc as [order perms]. intros [H1 H2]. cbn in H1, H2. unfold effective_step.
  destruct (perms !! pattern e) as [q|] eqn:Hq.
  - pose proof (strongest_snoc entries e) as Hs. rewrite <-H1, Hq in Hs.
    case_test; split; cbn; intros p; destruct (decide (pattern e = p)) as [<-|Hne];
      rewrite ?lookup_insert_eq, ?lookup_insert_ne by done;
      rewrite ?strongest_snoc_ne, ?H1 by done; rewrite ?Hs, ?H2, ?Hq; rewrite <-?H1, ?Hq; try done.
  - pose proof (strongest_snoc entries e) as Hs. rewrite <-H1, Hq in Hs.
    split; cbn; intros p; destruct (decide (pattern e = p)) as [<-|Hne];
      rewrite ?elem_of_app, ?list_elem_of_singleton, ?lookup_insert_eq, ?lookup_insert_ne by done;
      rewrite ?strongest_snoc_ne, ?H1 by done; rewrite ?Hs; try done.
    + split; [eauto|by right].
    + rewrite H2, H1. naive_solver.
Qed.
Lemma effective_foldl done_ entries acc :
  effective_inv done_ acc → effective_inv (done_ ++ entries) (foldl effective_step acc entries).
Proof.
  revert done_ acc. induction entries as [|e entries IH]; intros done_ acc H; cbn [foldl].
  - by rewrite app_nil_r.
  - replace (done_ ++ e :: entries) with ((done_ ++ [e]) ++ entries) by by rewrite <-app_assoc.
    by apply IH, effective_step_inv.
Qed.

Lemma effective_entries_elem entries p q :
  mkDomainEntry p q ∈ effective_entries entries ↔ strongest entries p = Some q.
Proof.
  unfold effective_entries. pose proof (effective_foldl [] entries ([], ∅)) as H.
  destruct (foldl effective_step ([], ∅) entries) as [order perms].
  destruct H as [H1 H2]; [split; cbn; intros p'; [by rewrite lookup_empty|]|cbn [app fst snd] in H1, H2].
  { rewrite lookup_empty. split; [by intros ?%elem_of_nil|by intros []]. }
  rewrite list_elem_of_omap, <-H1. split.
  - intros (p' & _ & He). destruct (perms !! p') eqn:Hp; cbn in He; simplify_eq. done.
  - intros Hp. exists p. split; [apply H2; by eexists|]. by rewrite Hp.
Qed.

Section lists.
Context {Mi : Mitm}.

Lemma elem_of_non_empty {A} (l : list A) x : x ∈ default [] (non_empty l) ↔ x ∈ l.
Proof. by destruct l. Qed.
Lemma domain_entries_elem c q p :
  p ∈ default [] (domain_entries c q) ↔ strongest (default [] (domains c)) p = Some q.
Proof.
  unfold domain_entries. destruct (domains c) as [ds|]; cbn [mbind option_bind default]; [|by split; [intros ?%elem_of_nil|]].
  change (default [] (non_empty ?l)) with (default [] (non_empty l)). rewrite elem_of_non_empty.
  rewrite <-effective_entries_elem, list_elem_of_fmap. split.
  - intros ([p' q'] & -> & [Hin Hq%bool_decide_eq_true]%elem_of_filterb). cbn in *. by subst.
  - intros Hin. exists (mkDomainEntry p q). split; [done|]. apply elem_of_filterb. by rewrite bool_decide_eq_true.
Qed.
Lemma denied_elem c p :
  p ∈ default [] (denied_domains c) ↔ mkDomainEntry p PermissionDeny ∈ default [] (domains c).
Proof. unfold denied_domains. rewrite domain_entries_elem. unfold strongest. repeat case_bool_decide; naive_solver. Qed.
Lemma allowed_elem c p :
  p ∈ default [] (allowed_domains c) ↔
  mkDomainEntry p PermissionAllow ∈ default [] (domains c) ∧ mkDomainEntry p PermissionDeny ∉ default [] (domains c).
Proof. unfold allowed_domains. rewrite domain_entries_elem. unfold strongest. repeat case_bool_decide; naive_solver. Qed.
Lemma allowed_None c : allowed_domains c = None ↔ default [] (allowed_domains c) = [].
Proof.
  unfold allowed_domains, domain_entries. destruct (domains c) as [ds|]; cbn [mbind option_bind]; [|done].
  unfold non_empty. by destruct (pattern <$> _).
Qed.

Lemma upsert_elem c h q n e :
  e ∈ default [] (domains (upsert_domain_permission c h q n)) ↔
  (e ∈ default [] (domains c) ∧ n (pattern e) ≠ n h) ∨ e = mkDomainEntry h q.
Proof.
  unfold upsert_domain_permission. cbn [domains set_domains].
  rewrite elem_of_non_empty, elem_of_app, list_elem_of_singleton, elem_of_filterb, bool_decide_eq_true. done.
Qed.
Lemma push_domain_entry_elem q ds p e :
  e ∈ push_domain_entry q ds p ↔ e ∈ ds ∨ e = mkDomainEntry p q.
Proof.
  unfold push_domain_entry. destruct (existsb _ ds) eqn:E.
  - apply existsb_elem in E as ([p' q'] & Hin & Hpq). rewrite andb_true_iff, !bool_decide_eq_true in Hpq.
    cbn in Hpq. naive_solver.
  - by rewrite elem_of_app, list_elem_of_singleton.
Qed.
Lemma set_domain_entries_elem c new q e :
  e ∈ default [] (domains (set_domain_entries c new q)) ↔
  (e ∈ default [] (domains c) ∧ permission e ≠ q) ∨ (pattern e ∈ new ∧ permission e = q).
Proof.
  unfold set_domain_entries. cbn [domains set_domains]. rewrite elem_of_non_empty.
  assert (∀ ds, e ∈ foldl (push_domain_entry q) ds new ↔ e ∈ ds ∨ (pattern e ∈ new ∧ permission e = q)) as H.
  { induction new as [|p new IH]; intros ds; cbn [foldl].
    - set_solver.
    - rewrite IH, push_domain_entry_elem, elem_of_cons. destruct e. naive_solver. }
  rewrite H, elem_of_filterb, bool_decide_eq_true. done.
Qed.

(** ** The environment's policy *)
Lemma upsert_sockets c h q n :
  unix_sockets (upsert_domain_permission c h q n) = unix_sockets c ∧
  dangerously_allow_all_unix_sockets (upsert_domain_permission c h q n) = dangerously_allow_all_unix_sockets c ∧
  allow_upstream_proxy (upsert_domain_permission c h q n) = allow_upstream_proxy c ∧
  allow_local_binding (upsert_domain_permission c h q n) = allow_local_binding c.
Proof. done. Qed.
Definition deny_all (c : NetworkProxyConfig) (ds : list str) : NetworkProxyConfig :=
  foldl (λ c domain, upsert_domain_permission c domain PermissionDeny normalize_host) c ds.
Lemma deny_all_sockets ds c :
  unix_sockets (deny_all c ds) = unix_sockets c ∧
  dangerously_allow_all_unix_sockets (deny_all c ds) = dangerously_allow_all_unix_sockets c ∧
  allow_upstream_proxy (deny_all c ds) = allow_upstream_proxy c ∧
  allow_local_binding (deny_all c ds) = allow_local_binding c.
Proof. revert c. induction ds as [|d ds IH]; intros c; [done|]. apply (IH (upsert_domain_permission _ _ _ _)). Qed.

(** Once denied, a host stays denied however many denials follow. *)
Definition denied_host (c : NetworkProxyConfig) (h : str) : Prop :=
  (∃ p, mkDomainEntry p PermissionDeny ∈ default [] (domains c) ∧ normalize_host p = h) ∧
  ∀ e, e ∈ default [] (domains c) → normalize_host (pattern e) = h → permission e = PermissionDeny.
Lemma upsert_denied_host c d h :
  denied_host c h ∨ normalize_host d = h →
  denied_host (upsert_domain_permission c d PermissionDeny normalize_host) h.
Proof.
  intros H. split.
  - destruct (decide (normalize_host d = h)) as [Hd|Hd].
    + exists d. split; [|done]. apply upsert_elem. by right.
    + destruct H as [[(p & Hp & Hn) _]|]; [|done]. exists p. split; [|done]. apply upsert_elem. left.
      split; [done|]. cbn. congruence.
  - intros e [[He Hne]| ->]%upsert_elem Hn; [|done]. destruct H as [[_ H]|H]; [by apply H|congruence].
Qed.
Lemma deny_all_denies ds c h :
  denied_host c h ∨ h ∈ normalize_host <$> ds → denied_host (deny_all c ds) h.
Proof.
  revert c. induction ds as [|d ds IH]; intros c H; cbn.
  - destruct H as [|?%elem_of_nil]; done.
  - apply IH. rewrite fmap_cons, elem_of_cons in H. destruct H as [?|[->|?]]; [left|left|by right];
      apply upsert_denied_host; auto.
Qed.

(** An environment's policy may replace the lists of domains, but not what was denied before: every
    host entry denied by the controller has a denied entry for the same host afterwards, and no entry
    for that host allows it. *)
Theorem apply_to_keeps_denials env c d :
  d ∈ default [] (denied_domains c) →
  (∃ p, p ∈ default [] (denied_domains (apply_to env c)) ∧ normalize_host p = normalize_host d) ∧
  ∀ p, p ∈ default [] (allowed_domains (apply_to env c)) → normalize_host p ≠ normalize_host d.
Proof.
  intros Hd.
  assert (denied_host (deny_all (set_domains (env_domains env) c) (default [] (denied_domains c))) (normalize_host d))
    as [(p & Hp & Hn) Hall] by (apply deny_all_denies; right; apply list_elem_of_fmap; eauto).
  split.
  - exists p. split; [|done]. by apply denied_elem.
  - intros p' [Ha _]%allowed_elem E. apply Hall in Ha; done.
Qed.

(** What a policy grants for one socket. *)
Definition grants_socket (all : bool) (sockets : NetworkUnixSocketPermissions) (path : str) : Prop :=
  sockets !! path = Some SocketAllow ∨ all = true ∧ ∀ p, sockets !! p ≠ Some SocketDeny.

Lemma some_socket_denied_false sockets :
  some_socket_denied sockets = false ↔ ∀ p, sockets !! p ≠ Some SocketDeny.
Proof.
  unfold some_socket_denied. rewrite <-not_true_iff_false, existsb_elem. split.
  - intros H p Hp. apply H. exists (p, SocketDeny). split; [by apply elem_of_map_to_list|done].
  - intros H ([p q] & Hin%elem_of_map_to_list & Hq%bool_decide_eq_true). cbn in *. subst. by eapply H.
Qed.
Lemma permits_all_true all sockets :
  all && negb (some_socket_denied sockets) = true ↔ all = true ∧ ∀ p, sockets !! p ≠ Some SocketDeny.
Proof. by rewrite andb_true_iff, negb_true_iff, some_socket_denied_false. Qed.

Lemma combine_denies inherited owner ia oa path :
  (oa = true → ∀ p, owner !! p ≠ Some SocketDeny) →
  inherited !! path = Some SocketDeny ∨ owner !! path = Some SocketDeny →
  combine_sockets inherited owner ia oa !! path = Some SocketDeny.
Proof.
  intros Hoa H. unfold combine_sockets. apply lookup_union_Some_raw. rewrite map_lookup_filter_Some, map_lookup_filter_None.
  destruct (decide (inherited !! path = Some SocketDeny)) as [Hi|Hi]; [left; naive_solver|].
  destruct H as [|H]; [done|]. right. split.
  - right. intros q Hq [Hx|Hx]; cbn in Hx; [by eapply Hoa|congruence].
  - apply map_lookup_filter_Some. naive_solver.
Qed.
Lemma combine_allows inherited owner ia oa path :
  combine_sockets inherited owner ia oa !! path = Some SocketAllow →
  (inherited !! path = Some SocketAllow ∨ ia = true) ∧ (owner !! path = Some SocketAllow ∨ oa = true).
Proof.
  unfold combine_sockets. rewrite lookup_union_Some_raw, !map_lookup_filter_Some. naive_solver.
Qed.

(** The sockets granted after an environment's policy is applied are granted by the controller and by
    the environment, a socket either denies stays denied, and the switches for every socket, for
    upstream proxies and for local addresses are on only where both have them on. *)
Theorem apply_to_restricts env c :
  let sockets := default ∅ (unix_sockets (apply_to env c)) in
  let inherited := default ∅ (unix_sockets c) in
  let owner := default ∅ (env_unix_sockets env) in
  (∀ path, grants_socket (dangerously_allow_all_unix_sockets (apply_to env c)) sockets path →
     grants_socket (dangerously_allow_all_unix_sockets c) inherited path ∧
     grants_socket (env_allow_all_unix_sockets env) owner path) ∧
  (∀ path, inherited !! path = Some SocketDeny ∨ owner !! path = Some SocketDeny →
     sockets !! path = Some SocketDeny) ∧
  allow_upstream_proxy (apply_to env c) = allow_upstream_proxy c && env_allow_upstream_proxy env ∧
  allow_local_binding (apply_to env c) = allow_local_binding c && env_allow_local_binding env.
Proof.
  cbn zeta. unfold apply_to. fold (deny_all (set_domains (env_domains env) c) (default [] (denied_domains c))).
  destruct (deny_all_sockets (default [] (denied_domains c)) (set_domains (env_domains env) c)) as (-> & -> & -> & ->).
  cbn [unix_sockets set_sockets set_domains dangerously_allow_all_unix_sockets allow_upstream_proxy allow_local_binding].
  set (inherited := default ∅ (unix_sockets c)). set (owner := default ∅ (env_unix_sockets env)).
  set (ia := dangerously_allow_all_unix_sockets c && _). set (oa := env_allow_all_unix_sockets env && _).
  assert (default ∅ (if bool_decide (combine_sockets inherited owner ia oa = ∅) then None
                     else Some (combine_sockets inherited owner ia oa)) = combine_sockets inherited owner ia oa) as ->
    by (by case_bool_decide).
  pose proof (permits_all_true (dangerously_allow_all_unix_sockets c) inherited) as Hia.
  pose proof (permits_all_true (env_allow_all_unix_sockets env) owner) as Hoa. fold ia in Hia. fold oa in Hoa.
  split_and!; [|intros path; apply combine_denies; naive_solver|done|done].
  intros path [H|[[? ?]%andb_true_iff _]]; [apply combine_allows in H|]; unfold grants_socket; naive_solver.
Qed.
End lists.

(** ** Small instances *)
Definition simple_mitm : Mitm :=
  Build_Mitm unit _ unit unit (λ _ _, None) (λ _, Ok ()) (λ _, Ok ()).
Definition simple_sockets : SocketPaths :=
  Build_SocketPaths (λ p, starts_with ($"/") p) Some (λ _, None).
Lemma apply_to_keeps_denials_witness :
  let env := mkEnvironmentPolicy (Some [mkDomainEntry ($"Evil.com") PermissionAllow]) None true false false false in
  let c := @upsert_domain_permission simple_mitm default_config ($"evil.com") PermissionDeny normalize_host in
  $"evil.com" ∈ default [] (denied_domains c) ∧
  ∀ p, p ∈ default [] (allowed_domains (apply_to env c)) → normalize_host p ≠ normalize_host ($"evil.com").
Proof.
  cbn zeta. assert ($"evil.com" ∈ default [] (denied_domains (@upsert_domain_permission simple_mitm default_config
    ($"evil.com") PermissionDeny normalize_host))) as H by (vm_compute; apply list_elem_of_here).
  split; [exact H|]. exact (proj2 (apply_to_keeps_denials _ _ _ H)).
Defined.

(** ** Constraints *)
Section constraints.
Context {Ma : Matching} {Mi : Mitm} {So : SocketPaths}.

(** How the user's allowlist may differ from the managed one: not at all, apart from what the user
    denies; by more entries; or only within the hosts the managed entries stand for. *)
Definition allowlist_within (allowed denied managed : list str) (expansion : option bool) : Prop :=
  match expansion with
  | Some true => ∀ x, x ∈ lower_set managed → x ∈ lower_set allowed ∨ x ∈ lower_set denied
  | Some false => ∀ x, x ∈ lower_set allowed ↔ x ∈ lower_set managed ∧ x ∉ lower_set denied
  | None => ∀ p, p ∈ allowed → ∃ m, m ∈ managed ∧ allows (parse_for_constraints m) (parse_for_constraints p) = true
  end.
Definition denylist_within (denied managed : list str) (expansion : option bool) : Prop :=
  match expansion with
  | Some false => ∀ x, x ∈ lower_set denied ↔ x ∈ lower_set managed
  | _ => ∀ x, x ∈ lower_set managed → x ∈ lower_set denied
  end.
Definition no_global (ps : list str) : Prop := ∀ p, p ∈ ps → is_global_wildcard_domain_pattern p = false.
Definition off_unless (max : option bool) (b : bool) : Prop := max = Some false → b = false.

Record respects (c : NetworkProxyConfig) (k : NetworkProxyConstraints) : Prop := {
  r_hooks : validate_mitm_hook_config c = Ok ();
  r_denied : no_global (default [] (denied_domains c));
  r_enabled : off_unless (max_enabled k) (enabled c);
  r_mode : ∀ m, max_mode k = Some m → network_mode_rank (mode c) ≤ network_mode_rank m;
  r_upstream : off_unless (max_allow_upstream_proxy k) (allow_upstream_proxy c);
  r_non_loopback : off_unless (max_allow_non_loopback_proxy k) (dangerously_allow_non_loopback_proxy c);
  r_all_sockets : dangerously_allow_all_unix_sockets c = true →
    default (bool_decide (managed_allow_unix_sockets k = None)) (max_allow_all_unix_sockets k) = true;
  r_local : off_unless (max_allow_local_binding k) (allow_local_binding c);
  r_allowlist : ∀ managed, managed_allowed_domains k = Some managed → no_global managed ∧
    allowlist_within (default [] (allowed_domains c)) (default [] (denied_domains c)) managed
      (allowlist_expansion_enabled k);
  r_denylist : ∀ managed, managed_denied_domains k = Some managed → no_global managed ∧
    denylist_within (default [] (denied_domains c)) managed (denylist_expansion_enabled k);
  r_sockets : ∀ managed, managed_allow_unix_sockets k = Some managed →
    ∀ p, p ∈ allow_unix_sockets c → to_ascii_lowercase p ∈ lower_set managed
}.

Lemma rbind_Ok {E A B} (m : result E A) (f : A → result E B) b :
  rbind m f = Ok b ↔ ∃ a, m = Ok a ∧ f a = Ok b.
Proof. destruct m; cbn; naive_solver. Qed.
Lemma rbind_unit {E B} (m : result E unit) (k : result E B) b :
  rbind m (λ _, k) = Ok b ↔ m = Ok () ∧ k = Ok b.
Proof. rewrite rbind_Ok. split; [intros ([] & ? & ?); done|naive_solver]. Qed.
Lemma reject_when_Ok b e : reject_when b e = Ok () ↔ b = false.
Proof. by destruct b. Qed.
Lemma no_global_Ok field ps : validate_non_global_wildcard_domain_patterns field ps = Ok () ↔ no_global ps.
Proof.
  unfold validate_non_global_wildcard_domain_patterns, find_wildcard, no_global.
  destruct (List.find _ ps) as [p|] eqn:Hf.
  - apply List.find_some in Hf as [Hin Hg]. split; [done|]. intros H. rewrite H in Hg; [done|]. by apply list_elem_of_In.
  - split; [|done]. intros _ p Hin. eapply List.find_none; [done|]. by apply list_elem_of_In.
Qed.
Lemma is_empty_nil {A} (l : list A) : negb (is_empty l) = false ↔ l = [].
Proof. by destruct l. Qed.
Lemma filterb_nil {A} (f : A → bool) l : List.filter f l = [] ↔ ∀ x, x ∈ l → f x = false.
Proof.
  split.
  - intros H x Hx. destruct (f x) eqn:E; [|done]. assert (x ∈ List.filter f l) as Hin by by apply elem_of_filterb.
    rewrite H in Hin. by apply elem_of_nil in Hin.
  - intros H. apply elem_of_nil_inv. intros x [Hx Hf]%elem_of_filterb. rewrite H in Hf; done.
Qed.
Lemma missing_nil (P : str → Prop) `{∀ x, Decision (P x)} (X : gset str) :
  elements (filter P X) = [] ↔ ∀ x, x ∈ X → ¬ P x.
Proof.
  split.
  - intros H0 x Hx HP. assert (x ∈ elements (filter P X)) as Hin by (apply elem_of_elements, elem_of_filter; done).
    rewrite H0 in Hin. by apply elem_of_nil in Hin.
  - intros H0. apply elem_of_nil_inv. intros x [HP Hx]%elem_of_elements%elem_of_filter. by eapply H0.
Qed.

Lemma validate_allowed_Ok allowed denied e managed :
  validate_allowed_domains allowed (lower_set denied) e managed = Ok () ↔ allowlist_within allowed denied managed e.
Proof.
  unfold validate_allowed_domains, allowlist_within. destruct e as [[]|]; rewrite reject_when_Ok.
  - rewrite is_empty_nil, missing_nil. apply forall_proper. intros x.
    destruct (decide (x ∈ lower_set allowed)), (decide (x ∈ lower_set denied)); naive_solver.
  - rewrite bool_decide_eq_false. split; [intros ->%dec_stable x; set_solver|]. intros H Hne. apply Hne. apply set_eq. intros x. rewrite H. set_solver.
  - rewrite is_empty_nil, filterb_nil. apply forall_proper. intros p. apply forall_proper. intros _.
    rewrite negb_false_iff, existsb_elem. split.
    + intros (q & (m & -> & Hm)%list_elem_of_fmap & Ha). eauto.
    + intros (m & Hm & Ha). exists (parse_for_constraints m). split; [|done]. apply list_elem_of_fmap. eauto.
Qed.
Lemma validate_denied_Ok denied e managed :
  validate_denied_domains denied e managed = Ok () ↔ denylist_within denied managed e.
Proof.
  unfold validate_denied_domains, denylist_within. destruct e as [[]|]; rewrite reject_when_Ok.
  - rewrite is_empty_nil, missing_nil. apply forall_proper. intros x. destruct (decide (x ∈ lower_set denied)); naive_solver.
  - rewrite bool_decide_eq_false. split; [intros ->%dec_stable; done|]. intros H Hne. apply Hne. by apply set_eq.
  - rewrite is_empty_nil, missing_nil. apply forall_proper. intros x. destruct (decide (x ∈ lower_set denied)); naive_solver.
Qed.
Lemma validate_sockets_Ok sockets managed :
  validate_unix_sockets sockets managed = Ok () ↔ ∀ p, p ∈ sockets → to_ascii_lowercase p ∈ lower_set managed.
Proof.
  unfold validate_unix_sockets. rewrite reject_when_Ok, is_empty_nil, filterb_nil.
  apply forall_proper. intros p. apply forall_proper. intros _. by rewrite negb_false_iff, bool_decide_eq_true.
Qed.

Lemma max_and_Ok (o : option bool) b e :
  match o with Some m => reject_when (b && negb m) e | None => Ok () end = Ok () ↔ off_unless o b.
Proof. unfold off_unless. destruct o as [[]|], b; cbn; naive_solver. Qed.
Lemma max_false_Ok (o : option bool) b e :
  match o with Some false => reject_when b e | Some true | None => Ok () end = Ok () ↔ off_unless o b.
Proof. unfold off_unless. destruct o as [[]|], b; cbn; naive_solver. Qed.
Lemma managed_Ok (o : option (list str)) f (v : list str → result NetworkProxyConstraintError unit) (P : list str → Prop) :
  (∀ managed, v managed = Ok () ↔ P managed) →
  match o with
  | Some managed => let? _ := validate_non_global_wildcard_domain_patterns f managed in v managed
  | None => Ok ()
  end = Ok () ↔ ∀ managed, o = Some managed → no_global managed ∧ P managed.
Proof.
  intros Hv. destruct o as [managed|]; [|naive_solver]. rewrite rbind_unit, no_global_Ok, Hv. naive_solver.
Qed.

Lemma validate_respects c k : validate_policy_against_constraints c k = Ok () ↔ respects c k.
Proof.
  unfold validate_policy_against_constraints. cbn zeta. rewrite !rbind_unit, no_global_Ok, !max_and_Ok, !max_false_Ok, reject_when_Ok.
  rewrite (managed_Ok _ _ _ (λ managed, allowlist_within (default [] (allowed_domains c)) (default [] (denied_domains c))
    managed (allowlist_expansion_enabled k))) by (intros; apply validate_allowed_Ok).
  rewrite (managed_Ok _ _ _ (λ managed, denylist_within (default [] (denied_domains c)) managed
    (denylist_expansion_enabled k))) by (intros; apply validate_denied_Ok).
  assert (match validate_mitm_hook_config c with
          | Ok _ => Ok ()
          | Err err => Err (InvalidValue ($"network.mitm_hooks") err ($"valid MITM hook configuration"))
          end = Ok () ↔ validate_mitm_hook_config c = Ok ()) as ->
    by (destruct (validate_mitm_hook_config c) as [[]|]; naive_solver).
  assert (match max_mode k with
          | Some m => reject_when (network_mode_rank m <? network_mode_rank (mode c))
                        (InvalidValue ($"network.mode") (debug_mode (mode c)) (debug_mode m ++ $" or more restrictive"))
          | None => Ok ()
          end = Ok () ↔ ∀ m, max_mode k = Some m → network_mode_rank (mode c) ≤ network_mode_rank m) as ->
    by (destruct (max_mode k) as [m|]; [rewrite reject_when_Ok, Nat.ltb_ge|]; naive_solver).
  assert (match managed_allow_unix_sockets k with
          | Some managed => validate_unix_sockets (allow_unix_sockets c) managed
          | None => Ok ()
          end = Ok () ↔ ∀ managed, managed_allow_unix_sockets k = Some managed →
            ∀ p, p ∈ allow_unix_sockets c → to_ascii_lowercase p ∈ lower_set managed) as ->
    by (destruct (managed_allow_unix_sockets k) as [m|]; [rewrite validate_sockets_Ok|]; naive_solver).
  rewrite andb_false_iff, negb_false_iff. split.
  - intros (?&?&?&?&?&?&H7&?&?&?&?). split; try done. intros E. destruct H7; congruence.
  - intros [?????? H7 ????]. split_and!; try done.
    destruct (dangerously_allow_all_unix_sockets c); [right; by apply H7|by left].
Qed.

(** The check of a configuration against the constraints succeeds exactly for the configurations that
    respect them: no switch is on that is turned off, the mode is at most the maximal one, the lists of
    domains relate to the managed lists as the expansion settings ask, and the sockets are managed ones. *)
Theorem validate_policy_spec c k :
  is_ok (validate_policy_against_constraints c k) = true ↔ respects c k.
Proof.
  rewrite <-validate_respects. destruct (validate_policy_against_constraints c k) as [[]|]; cbn; naive_solver.
Qed.

(** ** Compiling a configuration *)
Lemma set_star_denied c p :
  p ∈ default [] (denied_domains (set_allowed_domains c [$"*"])) ↔ p ∈ default [] (denied_domains c).
Proof. rewrite !denied_elem. unfold set_allowed_domains. rewrite set_domain_entries_elem. naive_solver. Qed.
Lemma lower_set_ext l l' : (∀ p, p ∈ l ↔ p ∈ l') → lower_set l = lower_set l'.
Proof.
  intros H. apply set_eq. intros x. unfold lower_set.
  rewrite !elem_of_list_to_set, !list_elem_of_fmap. naive_solver.
Qed.

(** What [brokered_config] leaves as it is. *)
Lemma brokered_keeps c k :
  let c' := (brokered_config c k).1 in
  mode c' = mode c ∧ mitm c' = mitm c ∧ mitm_hooks c' = mitm_hooks c ∧ unix_sockets c' = unix_sockets c ∧
  allow_upstream_proxy c' = allow_upstream_proxy c ∧ allow_local_binding c' = allow_local_binding c ∧
  dangerously_allow_all_unix_sockets c' = dangerously_allow_all_unix_sockets c ∧
  dangerously_allow_non_loopback_proxy c' = dangerously_allow_non_loopback_proxy c ∧
  (∀ p, p ∈ default [] (denied_domains c') ↔ p ∈ default [] (denied_domains c)) ∧
  (managed_allowed_domains k ≠ None → domains c' = domains c) ∧
  (max_enabled k = Some false → enabled c' = enabled c).
Proof.
  cbn zeta. unfold brokered_config.
  set (c1 := if bool_decide (max_enabled k = Some false) then set_credential_broker false c else c).
  set (created := credential_broker c1 && negb (enabled c1)).
  set (dflt := created && bool_decide (allowed_domains c1 = None) && bool_decide (managed_allowed_domains k = None)).
  set (c2 := if created then set_enabled true c1 else c1). cbn [fst].
  assert (domains c2 = domains c) as Hd by (unfold c2, c1; by destruct created, (bool_decide _)).
  split_and!; try (unfold c2, c1; by destruct dflt, created, (bool_decide _)).
  - intros p. destruct dflt; [rewrite set_star_denied|]; rewrite !denied_elem, Hd; done.
  - intros Hk. destruct dflt eqn:Hf; [|done]. unfold dflt in Hf. rewrite (bool_decide_false (managed_allowed_domains k = None)) in Hf by done.
    by rewrite andb_false_r in Hf.
  - intros Hk. unfold c2, created, c1. rewrite bool_decide_true by done. cbn [credential_broker set_credential_broker andb].
    by destruct dflt.
Qed.

Lemma respects_brokered c k : respects c k → respects (brokered_config c k).1 k.
Proof.
  intros [H1 H2 H3 H4 H5 H6 H7 H8 H9 H10 H11].
  destruct (brokered_keeps c k) as (Km & Kmi & Kh & Ku & Kup & Kl & Ka & Kn & Kd & Kal & Ke). cbn zeta in *.
  pose proof (lower_set_ext _ _ Kd) as Hlow.
  split; unfold off_unless in *; rewrite ?Km, ?Kup, ?Kl, ?Ka, ?Kn; try done.
  - unfold validate_mitm_hook_config in *. by rewrite Kmi, Kh.
  - intros p Hp. by apply H2, Kd.
  - intros Hk. rewrite Ke by done. by apply H3.
  - intros managed Hk. destruct (H9 _ Hk) as [Hg Ha]. split; [done|].
    assert (allowed_domains (brokered_config c k).1 = allowed_domains c) as ->
      by (unfold allowed_domains, domain_entries; rewrite Kal by congruence; done).
    unfold allowlist_within in *. by rewrite Hlow.
  - intros managed Hk. destruct (H10 _ Hk) as [Hg Ha]. split; [done|]. unfold denylist_within in *. by rewrite Hlow.
  - unfold allow_unix_sockets in *. by rewrite Ku.
Qed.

(** The sets a state matches with are compiled from its configuration. *)
Record compiled (st : ConfigState) : Prop := {
  c_allow : compile_allowlist_globset (default [] (allowed_domains (config st))) = Ok (allow_set st);
  c_deny : compile_denylist_globset (default [] (denied_domains (config st))) = Ok (deny_set st);
  c_hooks : compile_mitm_hooks (config st) = Ok (mitm_hooks_by_host st)
}.
Lemma build_state_inv c k st :
  build_config_state c k = Ok st →
  compiled st ∧ config st = (brokered_config c k).1 ∧ constraints st = k ∧ blocked st = [] ∧ blocked_total st = 0%N.
Proof.
  unfold build_config_state. destruct (brokered_config c k) as [c' dflt]. cbn [fst].
  rewrite !rbind_unit. intros (_ & _ & _ & H). apply rbind_Ok in H as (deny & Hd & H).
  apply rbind_Ok in H as (allow & Ha & H). apply rbind_Ok in H as (hooks & Hh & H).
  apply rbind_Ok in H as (m & _ & H). simplify_eq. done.
Qed.
Lemma build_respects c k st :
  respects c k → build_config_state c k = Ok st → respects (config st) (constraints st).
Proof. intros H (_ & -> & -> & _)%build_state_inv. by apply respects_brokered. Qed.
End constraints.
