(* ===== verification/NetworkProxy.v ===== *)
(** * The running proxy: [network-proxy/src/runtime.rs], [network_policy.rs] and
    [connect_policy.rs]

    The decision about one host, the decision a request gets once a decider was
    asked, the check of the address that is finally connected to, and the updates
    of the shared state. The state sits behind a lock: [thread] names the points
    at which an operation takes it, [run_thread] is what it does there, and [step]
    interleaves the operations of several clients. What the configuration's source
    answers when it is asked for news, what a name resolves to and the display of a
    target address are given from outside. *)

From stdpp Require Import prelude list gmap strings.
From S2P Require Import Prelude NetAddr NetworkPolicy NetworkState.

Definition MAX_BLOCKED_EVENTS : nat := 200.

Definition REASON_DENIED : str := $"denied".
Definition REASON_NOT_ALLOWED : str := $"not_allowed".
Definition REASON_NOT_ALLOWED_LOCAL : str := $"not_allowed_local".
Definition REASON_POLICY_DENIED : str := $"policy_denied".

Inductive HostBlockReason : Type := Denied | NotAllowed | NotAllowedLocal.
#[export] Instance HostBlockReason_eq_dec : EqDecision HostBlockReason.
Proof. solve_decision. Defined.
Definition reason_as_str (r : HostBlockReason) : str :=
  match r with
  | Denied => REASON_DENIED
  | NotAllowed => REASON_NOT_ALLOWED
  | NotAllowedLocal => REASON_NOT_ALLOWED_LOCAL
  end.
Inductive HostBlockDecision : Type := Allowed | Blocked (reason : HostBlockReason).
#[export] Instance HostBlockDecision_eq_dec : EqDecision HostBlockDecision.
Proof. solve_decision. Defined.

(** ** One host *)
Definition globset_matches_host_or_unscoped (set : GlobSet) (host : str) : bool :=
  is_match set host
  || match unscoped_ip_literal host with Some ip => is_match set ip | None => false end.

Definition is_explicit_local_allowlisted (allowed_domains : list str) (host : str) : bool :=
  let unscoped_host := unscoped_ip_literal host in
  existsb (λ pattern,
    let pattern := trim pattern in
    if bool_decide (pattern = $"*") || starts_with ($"*.") pattern || starts_with ($"**.") pattern then false
    else if contains_char 42 pattern || contains_char 63 pattern then false
    else
      let normalized_pattern := normalize_host pattern in
      bool_decide (normalized_pattern = host)
      || match unscoped_host with Some ip => bool_decide (normalized_pattern = ip) | None => false end)
    allowed_domains.

(** A lookup gives the addresses, or [None] when it fails or takes too long. *)
Definition host_resolves_to_non_public_ip (lookup : str → N → option (list SocketAddr)) (host : str) (port : N)
    : bool :=
  match parse_ip host with
  | Some ip => is_non_public_ip ip
  | None =>
      match lookup host port with
      | Some addrs => existsb (λ addr, is_non_public_ip addr.1) addrs
      | None => true
      end
  end.

Definition is_local_literal (host : str) : bool :=
  let host_no_scope := default host (unscoped_ip_literal host) in
  if is_loopback_host host then true
  else match parse_ip host_no_scope with Some ip => is_non_public_ip ip | None => false end.

Section runtime.
Context {Ma : Matching} {Mi : Mitm} {So : SocketPaths}.

(** [host_blocked] once the state is read. *)
Definition host_decision (lookup : str → N → option (list SocketAddr)) (st : ConfigState) (host : str) (port : N)
    : HostBlockDecision :=
  match parse_host host with
  | None => Blocked NotAllowed
  | Some host =>
      let allowed_domains := allowed_domains (config st) in
      let allowed_domains_empty := bool_decide (allowed_domains = None) in
      let allowed_domains := default [] allowed_domains in
      if globset_matches_host_or_unscoped (deny_set st) host then Blocked Denied else
      let is_allowlisted := globset_matches_host_or_unscoped (allow_set st) host in
      let local_block :=
        if negb (allow_local_binding (config st)) then
          if is_local_literal host then negb (is_explicit_local_allowlisted allowed_domains host)
          else host_resolves_to_non_public_ip lookup host port
        else false in
      if local_block then Blocked NotAllowedLocal
      else if allowed_domains_empty || negb is_allowlisted then Blocked NotAllowed
      else Allowed
  end.

(** ** Reloading *)
Definition with_blocked (b : list BlockedRequest) (total : N) (st : ConfigState) : ConfigState :=
  mkConfigState (config st) (brokerage_created_default_allowlist st) (allow_set st) (deny_set st)
    (mitm_state st) (mitm_hooks_by_host st) (constraints st) b total.
Definition set_config (c : NetworkProxyConfig) (st : ConfigState) : ConfigState :=
  mkConfigState c (brokerage_created_default_allowlist st) (allow_set st) (deny_set st)
    (mitm_state st) (mitm_hooks_by_host st) (constraints st) (blocked st) (blocked_total st).

(** What the reloader answers: an error, nothing new, or a fresh state. *)
Definition Answer : Type := result str (option ConfigState).

Definition reload_if_needed (answer : Answer) (st : ConfigState) : result str ConfigState :=
  match answer with
  | Err e => Err e
  | Ok None => Ok st
  | Ok (Some new_state) => Ok (with_blocked (blocked st) (blocked_total st) new_state)
  end.

Definition host_blocked (lookup : str → N → option (list SocketAddr)) (answer : Answer) (host : str) (port : N)
    (st : ConfigState) : result str (HostBlockDecision * ConfigState) :=
  let? st := reload_if_needed answer st in Ok (host_decision lookup st host port, st).

(** The write under the lock of [force_reload], which keeps the buffered requests but not their count. *)
Definition force_reload_write (new_state st : ConfigState) : ConfigState :=
  with_blocked (blocked st) (blocked_total new_state) new_state.
Definition force_reload (answer : result str ConfigState) (st : ConfigState) : result str ConfigState :=
  match answer with
  | Ok new_state => Ok (force_reload_write new_state st)
  | Err e => Err e
  end.
Definition replace_write (new_state st : ConfigState) : ConfigState :=
  with_blocked (blocked st) (blocked_total st) new_state.

(** ** Blocked requests *)
Definition push_blocked (entry : BlockedRequest) (st : ConfigState) : ConfigState :=
  let b := blocked st ++ [entry] in
  with_blocked (drop (length b - MAX_BLOCKED_EVENTS) b) (saturating_add (blocked_total st) 1) st.
Definition set_execution_id (execution_id : option str) (e : BlockedRequest) : BlockedRequest :=
  mkBlockedRequest (br_host e) (br_reason e) (br_client e) (br_method e) (br_mode e) (br_protocol e)
    execution_id (br_decision e) (br_source e) (br_port e) (br_timestamp e).

(** [record_blocked], with what its observer is shown. *)
Definition record_blocked (execution_id : option str) (answer : Answer) (entry : BlockedRequest) (st : ConfigState)
    : result str (BlockedRequest * ConfigState) :=
  let? st := reload_if_needed answer st in
  let entry := set_execution_id execution_id entry in
  Ok (entry, push_blocked entry st).
Definition blocked_snapshot (answer : Answer) (st : ConfigState) : result str (list BlockedRequest * ConfigState) :=
  let? st := reload_if_needed answer st in Ok (blocked st, st).
Definition drain_write (st : ConfigState) : ConfigState := with_blocked [] (blocked_total st) st.
Definition drain_blocked (answer : Answer) (st : ConfigState) : result str (list BlockedRequest * ConfigState) :=
  let? st := reload_if_needed answer st in Ok (blocked st, drain_write st).

(** ** Sockets *)
Definition socket_matches (requested_abs : str) (requested_canonical : option str) (allowed : str) : bool :=
  match parse_socket_path allowed with
  | Some (Native allowed_path) =>
      bool_decide (allowed_path = requested_abs)
      || match requested_canonical with
         | Some rc => bool_decide (canonicalize allowed_path = Some rc)
         | None => false
         end
  | Some (UnixStyleAbsolute _) | None => false
  end.
(** [is_unix_socket_allowed] once the state is read; the permissions exist on one platform only. *)
Definition is_unix_socket_allowed (supported : bool) (st : ConfigState) (path : str) : bool :=
  if negb supported then false
  else if negb (path_is_absolute path) then false
  else if dangerously_allow_all_unix_sockets (config st) then true
  else match absolute_path path with
       | None => false
       | Some requested_abs =>
           existsb (socket_matches requested_abs (canonicalize requested_abs)) (allow_unix_sockets (config st))
       end.

(** ** Updates of the domain lists *)
Inductive DomainListKind : Type := AllowList | DenyList.
Definition list_name (k : DomainListKind) : str :=
  match k with AllowList => $"allowlist" | DenyList => $"denylist" end.
Definition constraint_field (k : DomainListKind) : str :=
  match k with AllowList => $"network.allowed_domains" | DenyList => $"network.denied_domains" end.
Definition list_permission (k : DomainListKind) : NetworkDomainPermission :=
  match k with AllowList => PermissionAllow | DenyList => PermissionDeny end.
Definition list_entries (k : DomainListKind) (c : NetworkProxyConfig) : list str :=
  default [] (match k with AllowList => allowed_domains c | DenyList => denied_domains c end).
Definition opposite_entries (k : DomainListKind) (c : NetworkProxyConfig) : list str :=
  default [] (match k with AllowList => denied_domains c | DenyList => allowed_domains c end).

Inductive attempt : Type :=
| AlreadyListed
| Rejected (err : str)
| Candidate (new_state : ConfigState).

(** One turn of the loop of [update_domain_list], from the state it read. *)
Definition update_attempt (host : str) (target : DomainListKind) (st : ConfigState) : attempt :=
  let contains := existsb (λ entry, bool_decide (normalize_host entry = host)) in
  if contains (list_entries target (config st)) && negb (contains (opposite_entries target (config st)))
  then AlreadyListed else
  let candidate := upsert_domain_permission (config st) host (list_permission target) normalize_host in
  match validate_policy_against_constraints candidate (constraints st) with
  | Err _ => Rejected (constraint_field target ++ $" constrained by managed config")
  | Ok _ =>
      match build_config_state candidate (constraints st) with
      | Err _ => Rejected ($"failed to compile updated network " ++ list_name target)
      | Ok new_state => Candidate (with_blocked (blocked st) (blocked_total st) new_state)
      end
  end.

(** The comparison under the write lock with what was read. *)
Definition update_commit (read_config : NetworkProxyConfig) (read_constraints : NetworkProxyConstraints)
    (new_state st : ConfigState) : option ConfigState :=
  if bool_decide (constraints st ≠ read_constraints) || bool_decide (config st ≠ read_config)
  then None else Some new_state.

Definition mode_attempt (m : NetworkMode) (st : ConfigState) : option str :=
  match validate_policy_against_constraints (set_mode m (config st)) (constraints st) with
  | Err _ => Some ($"network.mode constrained by managed config")
  | Ok _ => None
  end.
Definition mode_commit (m : NetworkMode) (read_constraints : NetworkProxyConstraints) (st : ConfigState)
    : option ConfigState :=
  if bool_decide (constraints st ≠ read_constraints) then None else Some (set_config (set_mode m (config st)) st).

(** ** Operations that share the state *)

(** An operation at the point where it next takes the lock. *)
Inductive thread : Type :=
| Reloading (next : thread)                             (* asks the reloader *)
| ReloadRead (new_state : ConfigState) (next : thread)  (* reads what it keeps *)
| ReloadWrite (new_state : ConfigState) (next : thread)
| UpdateRead (host : str) (target : DomainListKind)
| UpdateWrite (host : str) (target : DomainListKind) (read_config : NetworkProxyConfig)
    (read_constraints : NetworkProxyConstraints) (new_state : ConfigState)
| ModeRead (m : NetworkMode)
| ModeWrite (m : NetworkMode) (read_constraints : NetworkProxyConstraints)
| RecordWrite (entry : BlockedRequest)
| DrainWrite
| ForceWrite (new_state : ConfigState)
| ReplaceWrite (new_state : ConfigState)
| Finished (r : result str unit).

Definition update_domain_list (host : str) (target : DomainListKind) : thread :=
  match parse_host host with
  | None => Finished (Err ($"invalid network host"))
  | Some host => Reloading (UpdateRead host target)
  end.
Definition add_allowed_domain (host : str) : thread := update_domain_list host AllowList.
Definition add_denied_domain (host : str) : thread := update_domain_list host DenyList.
Definition set_network_mode (m : NetworkMode) : thread := Reloading (ModeRead m).
Definition record_thread (execution_id : option str) (entry : BlockedRequest) : thread :=
  Reloading (RecordWrite (set_execution_id execution_id entry)).
Definition drain_thread : thread := Reloading DrainWrite.
Definition replace_config_state (new_state : ConfigState) : thread := Reloading (ReplaceWrite new_state).
Definition force_thread (answer : result str ConfigState) : thread :=
  match answer with Ok new_state => ForceWrite new_state | Err e => Finished (Err e) end.

(** What the operation does at that point, given what the reloader answers if it is asked. *)
Definition run_thread (answer : Answer) (t : thread) (st : ConfigState) : thread * ConfigState :=
  match t with
  | Reloading next =>
      match answer with
      | Err e => (Finished (Err e), st)
      | Ok None => (next, st)
      | Ok (Some new_state) => (ReloadRead new_state next, st)
      end
  | ReloadRead new_state next =>
      (ReloadWrite (with_blocked (blocked st) (blocked_total st) new_state) next, st)
  | ReloadWrite new_state next => (next, new_state)
  | UpdateRead host target =>
      match update_attempt host target st with
      | AlreadyListed => (Finished (Ok ()), st)
      | Rejected err => (Finished (Err err), st)
      | Candidate new_state => (UpdateWrite host target (config st) (constraints st) new_state, st)
      end
  | UpdateWrite host target read_config read_constraints new_state =>
      match update_commit read_config read_constraints new_state st with
      | None => (Reloading (UpdateRead host target), st)
      | Some st' => (Finished (Ok ()), st')
      end
  | ModeRead m =>
      match mode_attempt m st with
      | Some err => (Finished (Err err), st)
      | None => (ModeWrite m (constraints st), st)
      end
  | ModeWrite m read_constraints =>
      match mode_commit m read_constraints st with
      | None => (Reloading (ModeRead m), st)
      | Some st' => (Finished (Ok ()), st')
      end
  | RecordWrite entry => (Finished (Ok ()), push_blocked entry st)
  | DrainWrite => (Finished (Ok ()), drain_write st)
  | ForceWrite new_state => (Finished (Ok ()), force_reload_write new_state st)
  | ReplaceWrite new_state => (Finished (Ok ()), replace_write new_state st)
  | Finished r => (Finished r, st)
  end.

(** Any client may go next; [reloads] are the states the source of the configuration may hand out. *)
Inductive step (reloads : ConfigState → Prop) : list thread * ConfigState → list thread * ConfigState → Prop :=
| step_thread pool i t answer st t' st' :
    pool !! i = Some t →
    (∀ new_state, answer = Ok (Some new_state) → reloads new_state) →
    run_thread answer t st = (t', st') →
    step reloads (pool, st) (<[i := t']> pool, st').

(** Runs by a schedule: which client, and what the reloader answers it. *)
Fixpoint run_schedule (schedule : list (nat * Answer)) (pool : list thread) (st : ConfigState)
    : list thread * ConfigState :=
  match schedule with
  | [] => (pool, st)
  | (i, answer) :: schedule =>
      match pool !! i with
      | None => run_schedule schedule pool st
      | Some t => let '(t', st') := run_thread answer t st in run_schedule schedule (<[i := t']> pool) st'
      end
  end.

(** ** Requests ([network_policy.rs]) *)
Inductive NetworkProtocol : Type := Http | HttpsConnect | Socks5Tcp | Socks5Udp.
Definition as_policy_protocol (p : NetworkProtocol) : str :=
  match p with
  | Http => $"http"
  | HttpsConnect => $"https_connect"
  | Socks5Tcp => $"socks5_tcp"
  | Socks5Udp => $"socks5_udp"
  end.
Inductive NetworkPolicyDecision : Type := DecisionDeny | DecisionAsk.
Definition policy_decision_as_str (d : NetworkPolicyDecision) : str :=
  match d with DecisionDeny => $"deny" | DecisionAsk => $"ask" end.
Inductive NetworkDecisionSource : Type := BaselinePolicy | ModeGuard | ProxyState | Decider.
Definition source_as_str (s : NetworkDecisionSource) : str :=
  match s with
  | BaselinePolicy => $"baseline_policy"
  | ModeGuard => $"mode_guard"
  | ProxyState => $"proxy_state"
  | Decider => $"decider"
  end.

Record NetworkPolicyRequest : Type := mkRequest {
  req_protocol : NetworkProtocol;
  req_host : str;
  req_port : N;
  environment_id : option str;
  client_addr : option str;
  method : option str;
  command : option str;
  exec_policy_hint : option str;
  execution_id : option str
}.

Inductive NetworkDecision : Type :=
| DecideAllow
| DecideDeny (reason : str) (source : NetworkDecisionSource) (decision : NetworkPolicyDecision).

Definition deny_with_source (reason : str) (source : NetworkDecisionSource) : NetworkDecision :=
  DecideDeny (if is_empty reason then REASON_POLICY_DENIED else reason) source DecisionDeny.
Definition ask_with_source (reason : str) (source : NetworkDecisionSource) : NetworkDecision :=
  DecideDeny (if is_empty reason then REASON_POLICY_DENIED else reason) source DecisionAsk.
Definition map_decider_decision (d : NetworkDecision) : NetworkDecision :=
  match d with
  | DecideAllow => DecideAllow
  | DecideDeny reason _ decision => DecideDeny reason Decider decision
  end.

Record PolicyAuditEventArgs : Type := mkAuditEvent {
  audit_decision : str;
  audit_source : str;
  audit_reason : str;
  audit_protocol : NetworkProtocol;
  audit_address : str;
  audit_port : N;
  audit_method : option str;
  audit_client : option str;
  audit_execution_id : option str;
  policy_override : bool
}.

(** The request as the decider sees it. *)
Definition decider_request (env_id exec_id : option str) (r : NetworkPolicyRequest) : NetworkPolicyRequest :=
  mkRequest (req_protocol r) (req_host r) (req_port r)
    (match environment_id r with None => env_id | Some e => Some e end)
    (client_addr r) (method r) (command r) (exec_policy_hint r) exec_id.

Definition decide_host (host_decision : HostBlockDecision) (decider : option (NetworkPolicyRequest → NetworkDecision))
    (env_id exec_id : option str) (request : NetworkPolicyRequest) : NetworkDecision * bool :=
  match host_decision with
  | Allowed => (DecideAllow, false)
  | Blocked NotAllowed =>
      match decider with
      | Some decide =>
          let decision := map_decider_decision (decide (decider_request env_id exec_id request)) in
          (decision, match decision with DecideAllow => true | DecideDeny _ _ _ => false end)
      | None => (deny_with_source (reason_as_str NotAllowed) BaselinePolicy, false)
      end
  | Blocked reason => (deny_with_source (reason_as_str reason) BaselinePolicy, false)
  end.

Definition audit_event (decision : NetworkDecision) (policy_override : bool) (exec_id : option str)
    (request : NetworkPolicyRequest) : PolicyAuditEventArgs :=
  let '(policy_decision, source, reason) :=
    match decision with
    | DecideAllow => ($"allow", if policy_override then Decider else BaselinePolicy,
                      if policy_override then reason_as_str NotAllowed else $"allow")
    | DecideDeny reason source decision => (policy_decision_as_str decision, source, reason)
    end in
  mkAuditEvent policy_decision (source_as_str source) reason (req_protocol request) (req_host request)
    (req_port request) (method request) (client_addr request) exec_id policy_override.

Definition evaluate_host_policy (lookup : str → N → option (list SocketAddr))
    (decider : option (NetworkPolicyRequest → NetworkDecision)) (env_id exec_id : option str) (answer : Answer)
    (request : NetworkPolicyRequest) (st : ConfigState)
    : result str (NetworkDecision * PolicyAuditEventArgs * ConfigState) :=
  let? r := host_blocked lookup answer (req_host request) (req_port request) st in
  let '(decision, overridden) := decide_host r.1 decider env_id exec_id request in
  Ok (decision, audit_event decision overridden exec_id request, r.2).

(** ** The address that is connected to ([connect_policy.rs]) *)
Inductive TargetHost : Type := Address (ip : IpAddr) | Name (name : str).
Definition is_localhost_name (name : str) : bool :=
  eq_ignore_ascii_case (trim_end_matches (N.eqb DOT) name) ($"localhost").
Definition is_non_public_target (host : TargetHost) : bool :=
  match host with Address ip => is_non_public_ip ip | Name name => is_localhost_name name end.
Definition target_matches_non_public_addr (host : TargetHost) (addr : IpAddr) : bool :=
  match host with
  | Address ip => bool_decide (ip = addr)
  | Name name => is_localhost_name name && is_loopback addr
  end.

Definition allows_non_public_target (lookup : str → N → option (list SocketAddr)) (display : TargetHost → str)
    (answer1 answer2 : Answer) (target : TargetHost) (port : N) (addr : SocketAddr) (st : ConfigState)
    : result str (bool * ConfigState) :=
  let? st := reload_if_needed answer1 st in
  if allow_local_binding (config st) then Ok (true, st)
  else if negb (target_matches_non_public_addr target addr.1) then Ok (false, st)
  else
    let? r := host_blocked lookup answer2 (display target) port st in
    Ok (bool_decide (r.1 = Allowed), r.2).

(** [TargetCheckedStreamConnector::connect]: [true] goes on to open the connection. *)
Definition connect_permitted (lookup : str → N → option (list SocketAddr)) (display : TargetHost → str)
    (answer1 answer2 : Answer) (target : TargetHost) (port : N) (addr : SocketAddr) (st : ConfigState)
    : result str (bool * ConfigState) :=
  if is_non_public_ip addr.1
  then allows_non_public_target lookup display answer1 answer2 target port addr st
  else Ok (true, st).
End runtime.
