(* ===== verification/NetworkProxySpec.v ===== *)
(** * What the running proxy guarantees

    Which hosts are allowed and denied, in terms of the lists in the configuration;
    what a decider can and cannot change; which addresses are connected to; and,
    for any interleaving of clients, that the shared state keeps to its constraints
    and its compiled sets, and that an update of a list takes effect as if it had
    been made in one step. *)

From stdpp Require Import prelude list gmap strings.
From S2P Require Import Prelude NetAddr NetworkPolicy NetworkState NetworkProxy NetworkPolicySpec.

(** ** Normalised hosts are in lower case *)
Definition lowercase (c : char) : Prop := to_ascii_lowercase [c] = [c].
Lemma lower_iff s : to_ascii_lowercase s = s ↔ ∀ c, c ∈ s → lowercase c.
Proof.
  unfold lowercase, to_ascii_lowercase. induction s as [|c s IH]; cbn; [set_solver|].
  split.
  - intros [= H1 H2] c' [->|Hc]%elem_of_cons; [by rewrite H1 at 1|]. by apply IH.
  - intros H. f_equal; [|apply IH; set_solver]. specialize (H c). cbn in H.
    assert (c ∈ c :: s) as Hc by by left. by injection (H Hc).
Qed.
Lemma lower_lower s : to_ascii_lowercase (to_ascii_lowercase s) = to_ascii_lowercase s.
Proof.
  unfold to_ascii_lowercase. induction s as [|c s IH]; [done|]. cbn [fmap list_fmap]. f_equal; [|done].
  destruct ((65 <=? c) && (c <=? 90))%N eqn:E; [|by rewrite E].
  rewrite andb_true_iff, !N.leb_le in E. rewrite (proj2 (N.leb_gt (c + 32) 90)) by lia. by rewrite andb_false_r.
Qed.
Lemma lower_incl s t : to_ascii_lowercase s = s → (∀ c, c ∈ t → c ∈ s ∨ c = 37%N) → to_ascii_lowercase t = t.
Proof.
  rewrite !lower_iff. intros Hs Ht c Hc. destruct (Ht c Hc) as [| ->]; [auto|]. reflexivity.
Qed.
Lemma trim_end_matches_split p s : ∃ r, s = trim_end_matches p s ++ r ∧ Forall (λ c, p c = true) r.
Proof.
  induction s as [|c s (r & Hs & Hr)]; [by exists []|]. cbn [trim_end_matches].
  destruct (trim_end_matches p s) as [|d t] eqn:E.
  - cbn in Hs. subst r. destruct (p c) eqn:Hc; [exists (c :: s)|exists s]; split; try done. by constructor.
  - exists r. split; [|done]. cbn. by rewrite Hs at 1.
Qed.
Lemma trim_end_matches_all p s : Forall (λ c, p c = true) s → trim_end_matches p s = [].
Proof. induction 1 as [|c s Hc _ IH]; [done|]. cbn [trim_end_matches]. by rewrite IH, Hc. Qed.
Lemma trim_id s : (∀ c, c ∈ s → is_whitespace c = false) → trim s = s.
Proof.
  intros H. unfold trim. assert (trim_start s = s) as ->.
  { unfold trim_start. destruct s as [|c s]; [done|]. cbn. rewrite H; [done|by left]. }
  apply trim_end_matches_fix. intros c Hc. apply H. by apply last_Some_elem_of.
Qed.
Lemma split_once_str_incl d s a b c : split_once_str d s = Some (a, b) → c ∈ a ++ b → c ∈ s.
Proof.
  unfold split_once_str. destruct (find_str d s) as [k|]; [|done]. intros [= <- <-] [H|H]%elem_of_app.
  - rewrite <-(take_drop k s). set_solver.
  - rewrite <-(take_drop (k + length d) s). set_solver.
Qed.
Lemma normalize_ip_literal_incl s t c : normalize_ip_literal s = Some t → c ∈ t → c ∈ s ∨ c = 37%N.
Proof.
  unfold normalize_ip_literal. destruct (parse_ip s); [intros [= ->]; by left|].
  intros (l1 & d & l2 & _ & Hd & _)%find_map_Some Hc.
  destruct (split_once_str d s) as [[a b]|] eqn:E; [|done]. destruct (parse_ip a); [|done]. simplify_eq.
  apply elem_of_app in Hc as [Hc|[Hc|Hc]%elem_of_app].
  - left. eapply split_once_str_incl; [done|]. set_solver.
  - right. by apply list_elem_of_singleton in Hc.
  - left. eapply split_once_str_incl; [done|]. set_solver.
Qed.
Lemma normalize_dns_lower s : to_ascii_lowercase (normalize_dns_host_or_ip_literal s) = normalize_dns_host_or_ip_literal s.
Proof.
  unfold normalize_dns_host_or_ip_literal. cbn zeta.
  apply (lower_incl (to_ascii_lowercase s)); [apply lower_lower|]. intros c.
  destruct (normalize_ip_literal _) as [t|] eqn:E.
  - intros Hc. destruct (normalize_ip_literal_incl _ _ _ E Hc) as [?|]; [|by right].
    left. by eapply trim_end_matches_incl.
  - intros Hc. left. by eapply trim_end_matches_incl.
Qed.
Lemma normalize_host_lower s : to_ascii_lowercase (normalize_host s) = normalize_host s.
Proof. unfold normalize_host. cbn zeta. repeat case_match; apply normalize_dns_lower. Qed.
Lemma parse_host_lower s h : parse_host s = Some h → to_ascii_lowercase h = h.
Proof. unfold parse_host. destruct (is_empty _); [done|]. intros [= <-]. apply normalize_host_lower. Qed.
Lemma unscoped_lower h ip : to_ascii_lowercase h = h → unscoped_ip_literal h = Some ip → to_ascii_lowercase ip = ip.
Proof.
  intros Hh. unfold unscoped_ip_literal. destruct (split_once 37%N h) as [[a b]|] eqn:E; [|done]. cbn.
  destruct (parse_ip a); [|done]. cbn. intros [= <-]. apply split_once_Some in E as [-> _].
  eapply lower_incl; [done|]. set_solver.
Qed.

(** ** One host *)

(** A list names a host: by an entry that covers it, or covers the address without its scope. *)
Definition listed (ps : list str) (h : str) : Prop :=
  ∃ p, p ∈ ps ∧ (entry_covers p h ∨ ∃ ip, unscoped_ip_literal h = Some ip ∧ entry_covers p ip).
(** An entry without wildcards that spells the host, or the address without its scope. *)
Definition spells (p h : str) : Prop :=
  contains_char 42 (trim p) = false ∧ contains_char 63 (trim p) = false ∧
  (normalize_host (trim p) = h ∨ unscoped_ip_literal h = Some (normalize_host (trim p))).
Definition resolves_public (lookup : str → N → option (list SocketAddr)) (h : str) (port : N) : Prop :=
  match parse_ip h with
  | Some ip => is_non_public_ip ip = false
  | None => ∃ addrs, lookup h port = Some addrs ∧ ∀ a, a ∈ addrs → is_non_public_ip a.1 = false
  end.
(** Where local addresses are not allowed in general: a local host has to be spelled out, and any other
    host has to resolve to public addresses only. *)
Definition local_rule (lookup : str → N → option (list SocketAddr)) (allowed : list str) (h : str) (port : N) : Prop :=
  if is_local_literal h then ∃ p, p ∈ allowed ∧ spells p h else resolves_public lookup h port.

Lemma contains_star p : starts_with ($"*.") p = true ∨ starts_with ($"**.") p = true ∨ p = $"*" → contains_char 42 p = true.
Proof. intros [[r ->]%starts_with_true|[[r ->]%starts_with_true| ->]]; reflexivity. Qed.
Lemma explicit_true allowed h :
  is_explicit_local_allowlisted allowed h = true ↔ ∃ p, p ∈ allowed ∧ spells p h.
Proof.
  unfold is_explicit_local_allowlisted, spells. rewrite existsb_elem. apply exist_proper. intros p.
  apply and_iff_compat_l. cbn zeta.
  destruct (bool_decide _ || _ || _) eqn:Hs.
  { split; [done|]. intros (Hc & _). rewrite contains_star in Hc; [done|].
    rewrite !orb_true_iff, bool_decide_eq_true in Hs. tauto. }
  destruct (contains_char 42 (trim p)), (contains_char 63 (trim p)); cbn [orb]; try naive_solver.
  rewrite orb_true_iff, bool_decide_eq_true.
  destruct (unscoped_ip_literal h) as [ip|]; [rewrite bool_decide_eq_true|]; naive_solver.
Qed.
Lemma resolves_false lookup h port :
  host_resolves_to_non_public_ip lookup h port = false ↔ resolves_public lookup h port.
Proof.
  unfold host_resolves_to_non_public_ip, resolves_public. destruct (parse_ip h); [done|].
  destruct (lookup h port) as [addrs|]; [|naive_solver]. rewrite <-not_true_iff_false, existsb_elem. split.
  - intros H. exists addrs. split; [done|]. intros a Ha. apply not_true_iff_false. eauto.
  - intros (? & [= <-] & H) (a & Ha & Hn). rewrite H in Hn; done.
Qed.

Section decisions.
Context {Ma : Matching} {Mi : Mitm} {So : SocketPaths} {GL : GlobLaws}.

Lemma globset_listed ps w set h :
  compile_globset_with_policy ps w = Ok set → Forall (λ p, plain_entry p = true) ps → to_ascii_lowercase h = h →
  globset_matches_host_or_unscoped set h = true ↔ listed ps h.
Proof.
  intros Hc Hp Hh. unfold globset_matches_host_or_unscoped, listed. rewrite orb_true_iff.
  rewrite (compile_covers _ _ _ _ Hc Hp Hh). destruct (unscoped_ip_literal h) as [ip|] eqn:Hu.
  - rewrite (compile_covers _ _ _ _ Hc Hp (unscoped_lower _ _ Hh Hu)). naive_solver.
  - naive_solver.
Qed.

(** A state whose lists are spelled plainly: no entry has special characters of globs but single stars. *)
Definition plain_lists (st : ConfigState) : Prop :=
  Forall (λ p, plain_entry p = true) (default [] (allowed_domains (config st))) ∧
  Forall (λ p, plain_entry p = true) (default [] (denied_domains (config st))).

Lemma local_block_rule lookup st h port :
  (if negb (allow_local_binding (config st)) then
     if is_local_literal h then negb (is_explicit_local_allowlisted (default [] (allowed_domains (config st))) h)
     else host_resolves_to_non_public_ip lookup h port
   else false) = false ↔
  allow_local_binding (config st) = true ∨ local_rule lookup (default [] (allowed_domains (config st))) h port.
Proof.
  unfold local_rule. destruct (allow_local_binding (config st)); cbn [negb]; [tauto|].
  destruct (is_local_literal h); [rewrite negb_false_iff, explicit_true|rewrite resolves_false]; naive_solver.
Qed.

(** C4: With the lists spelled plainly (each entry a domain in normal form, itself or behind [*.] or [**.],
    in which single stars may stand for any text, [*] alone and [region*.example.com] included, but no
    other special character of globs), a host is denied exactly when the denylist names it; and it is allowed exactly when the denylist does not name it, the allowlist does, and either local addresses
    are allowed or the host is local and spelled out in the allowlist or it resolves to public
    addresses only. *)
Theorem host_decision_spec lookup st host port :
  compiled st → plain_lists st →
  (host_decision lookup st host port = Blocked Denied ↔
   ∃ h, parse_host host = Some h ∧ listed (default [] (denied_domains (config st))) h) ∧
  (host_decision lookup st host port = Allowed ↔
   ∃ h, parse_host host = Some h ∧ ¬ listed (default [] (denied_domains (config st))) h ∧
     listed (default [] (allowed_domains (config st))) h ∧
     (allow_local_binding (config st) = true ∨
      local_rule lookup (default [] (allowed_domains (config st))) h port)).
Proof.
  intros [Ha Hd _] [Pa Pd]. unfold host_decision. destruct (parse_host host) as [h|] eqn:Hh; [|naive_solver].
  cbn zeta. pose proof (parse_host_lower _ _ Hh) as Hl.
  pose proof (globset_listed _ _ _ _ Ha Pa Hl) as La. pose proof (globset_listed _ _ _ _ Hd Pd Hl) as Ld.
  pose proof (local_block_rule lookup st h port) as Lr.
  assert (listed (default [] (allowed_domains (config st))) h →
          bool_decide (allowed_domains (config st) = None) = false) as Hne.
  { intros (p & Hp & _). apply bool_decide_eq_false. intros E. rewrite E in Hp. by apply elem_of_nil in Hp. }
  destruct (globset_matches_host_or_unscoped (deny_set st) h); [naive_solver|].
  match goal with |- context[if ?b then Blocked NotAllowedLocal else _] => destruct b end; [naive_solver|].
  destruct (globset_matches_host_or_unscoped (allow_set st) h); cbn [negb];
    [rewrite Hne by naive_solver; cbn [orb]|rewrite orb_true_r]; naive_solver.
Qed.
End decisions.

(** ** Requests *)
Section requests.
Context {Ma : Matching} {Mi : Mitm} {So : SocketPaths}.

(** A request is let through only if the lists allow its host, and then the decision is reported as
    the baseline's; or if they merely do not name it and a decider, asked about this very request with the
    ids of its environment and execution, allows it, which is reported as an override by the decider. A
    host that is denied or local is refused whatever the decider would say. *)
Theorem decider_cannot_lift_denial lookup decider env_id exec_id answer req st d ev st' :
  evaluate_host_policy lookup decider env_id exec_id answer req st = Ok (d, ev, st') →
  let verdict := host_decision lookup st' (req_host req) (req_port req) in
  (d = DecideAllow →
   verdict = Allowed ∧ policy_override ev = false ∧ audit_source ev = $"baseline_policy" ∨
   verdict = Blocked NotAllowed ∧ policy_override ev = true ∧ audit_source ev = $"decider" ∧
     ∃ decide, decider = Some decide ∧ decide (decider_request env_id exec_id req) = DecideAllow) ∧
  (∀ reason, verdict = Blocked reason → reason ≠ NotAllowed →
   d = DecideDeny (reason_as_str reason) BaselinePolicy DecisionDeny ∧ policy_override ev = false).
Proof.
  unfold evaluate_host_policy, host_blocked. rewrite rbind_Ok. intros ([v s] & Hh & H).
  apply rbind_Ok in Hh as (s' & _ & Hh). simplify_eq/=.
  destruct (decide_host _ decider env_id exec_id req) as [d' ov] eqn:Hd. simplify_eq. cbn zeta.
  unfold decide_host, deny_with_source in Hd. destruct (host_decision lookup st' (req_host req) (req_port req)) as [|r] eqn:Hv.
  - simplify_eq. split; [by left|done].
  - destruct r, decider as [decide|]; simplify_eq/=; try (split; [done|]; naive_solver).
    split; [|naive_solver].
    destruct (decide (decider_request env_id exec_id req)) as [|re so de] eqn:Hdec; cbn; [|done].
    intros _. right. split_and!; [done..|by exists decide].
Qed.

(** ** Connections *)

(** How a target is displayed: an address so that it is read back as that address, a name as it is. *)
Definition displayed (shown : str) (target : TargetHost) : Prop :=
  match target with
  | Address ip => ∃ h, parse_host shown = Some h ∧ contains_char 37 h = false ∧ parse_ip h = Some ip
  | Name name => shown = name
  end.

Lemma split_once_None c s : contains_char c s = false → split_once c s = None.
Proof.
  unfold contains_char. induction s as [|d s IH]; [done|]. cbn. intros [Hd Hs]%orb_false_iff.
  rewrite N.eqb_sym in Hd. rewrite ?Hd, IH by done. apply N.eqb_neq in Hd. by rewrite ?decide_False by done.
Qed.
Lemma literal_is_local h ip :
  contains_char 37 h = false → parse_ip h = Some ip → is_non_public_ip ip = true → is_local_literal h = true.
Proof.
  intros Hc Hp Hn. unfold is_local_literal, unscoped_ip_literal. rewrite split_once_None by done. cbn.
  rewrite Hp, Hn. by destruct (is_loopback_host h).
Qed.

(** The letters of [localhost], in either case, and dots. *)
Definition localhost_char (c : char) : bool :=
  (c =? 46)%N || existsb (N.eqb c) ($"localhostLOCALHOST").
Lemma localhost_shape n :
  is_localhost_name n = true →
  (∀ c, c ∈ n → localhost_char c = true) ∧ trim_end_matches (N.eqb DOT) (to_ascii_lowercase n) = $"localhost".
Proof.
  unfold is_localhost_name, eq_ignore_ascii_case. rewrite bool_decide_eq_true.
  destruct (trim_end_matches_split (N.eqb DOT) n) as (r & Hn & Hr).
  set (l := trim_end_matches (N.eqb DOT) n) in *. intros Hl.
  change (to_ascii_lowercase ($"localhost")) with ($"localhost") in Hl. clearbody l. subst n.
  assert (to_ascii_lowercase r = r) as Hlr.
  { apply lower_iff. rewrite Forall_forall in Hr. intros c Hc. apply Hr in Hc. apply N.eqb_eq in Hc. by subst c. }
  split.
  - intros c [Hc|Hc]%elem_of_app.
    + assert (∃ d, d ∈ $"localhost" ∧ to_ascii_lowercase [c] = [d]) as (d & Hd & Hcd).
      { rewrite <-Hl. unfold to_ascii_lowercase. eexists. split; [by apply list_elem_of_fmap_2|done]. }
      unfold to_ascii_lowercase in Hcd. cbn [fmap list_fmap] in Hcd. injection Hcd as Hcd.
      assert (c = d ∨ c = (d - 32)%N) as Hc'.
      { destruct ((65 <=? c) && (c <=? 90))%N; [right; lia|by left]. }
      revert Hd Hc'. clear. intros Hd Hc'. repeat (apply elem_of_cons in Hd as [->|Hd]);
        [destruct Hc' as [->| ->]; vm_compute; reflexivity..|]. by apply elem_of_nil in Hd.
    + rewrite Forall_forall in Hr. apply Hr, N.eqb_eq in Hc. subst c. reflexivity.
  - unfold to_ascii_lowercase in *. rewrite fmap_app, Hl, Hlr, trim_end_matches_app, trim_end_matches_all by done.
    reflexivity.
Qed.
Lemma localhost_char_no (f : char → bool) n :
  is_localhost_name n = true → forallb (λ c, negb (f c)) ($".localhostLOCALHOST") = true →
  ∀ c, c ∈ n → f c = false.
Proof.
  intros Hn Hf c Hc. apply localhost_shape in Hn as [Hn _]. apply Hn in Hc. rewrite forallb_forall in Hf.
  apply negb_true_iff, Hf. unfold localhost_char in Hc. apply orb_true_iff in Hc as [Hc|Hc].
  - apply N.eqb_eq in Hc. subst c. by left.
  - right. apply existsb_exists in Hc as (d & Hd & ->%N.eqb_eq). exact Hd.
Qed.
Lemma localhost_parses n : is_localhost_name n = true → parse_host n = Some ($"localhost").
Proof.
  intros Hn. assert (normalize_host n = $"localhost") as H; [|by unfold parse_host; rewrite H].
  unfold normalize_host. rewrite trim_id by by apply localhost_char_no.
  assert (starts_with ($"[") n = false) as ->.
  { apply not_true_iff_false. intros [r Hr]%starts_with_true. pose proof (localhost_char_no (N.eqb 91) n Hn eq_refl 91%N) as Hc.
    rewrite Hr in Hc. specialize (Hc ltac:(by left)). done. }
  assert (List.filter (N.eqb COLON) n = []) as ->.
  { apply filterb_nil. by apply (localhost_char_no (N.eqb COLON)). }
  cbn [length Nat.eqb]. unfold normalize_dns_host_or_ip_literal. rewrite (proj2 (localhost_shape _ Hn)).
  vm_compute. reflexivity.
Qed.

(** A host that is allowed although it is local is spelled out in the allowlist. *)
Lemma allowed_local_spelled lookup st host port h :
  host_decision lookup st host port = Allowed → parse_host host = Some h → is_local_literal h = true →
  allow_local_binding (config st) = false → ∃ p, p ∈ default [] (allowed_domains (config st)) ∧ spells p h.
Proof.
  unfold host_decision. intros H Hh Hl Hb. rewrite Hh in H. cbn zeta in H.
  destruct (globset_matches_host_or_unscoped (deny_set st) h); [done|]. rewrite Hb, Hl in H. cbn [negb] in H.
  destruct (is_explicit_local_allowlisted _ h) eqn:He; [|done]. by apply explicit_true.
Qed.

(** C29: While local addresses are not allowed in general, a connection is opened to an address that is not
    public only if the target is that very address, or [localhost] and the address a loopback one, and if an
    entry without wildcards in the allowlist spells the target; so a name that resolves to a local address
    is never connected to. *)
Theorem connect_public_or_spelled lookup display answer1 answer2 target port addr st st' :
  displayed (display target) target →
  connect_permitted lookup display answer1 answer2 target port addr st = Ok (true, st') →
  is_non_public_ip addr.1 = true →
  allow_local_binding (config st') = false →
  (target = Address addr.1 ∨ ∃ name, target = Name name ∧ is_localhost_name name = true ∧ is_loopback addr.1 = true) ∧
  ∃ h p, parse_host (display target) = Some h ∧ p ∈ default [] (allowed_domains (config st')) ∧ spells p h.
Proof.
  intros Dt Hc Hn Hb. unfold connect_permitted in Hc. rewrite Hn in Hc. unfold allows_non_public_target in Hc.
  apply rbind_Ok in Hc as (s1 & _ & Hc). destruct (allow_local_binding (config s1)) eqn:Hs1; [congruence|].
  destruct (target_matches_non_public_addr target addr.1) eqn:Ht; [|done]. cbn [negb] in Hc.
  apply rbind_Ok in Hc as ([v s2] & Hv & Hc). apply rbind_Ok in Hv as (s3 & _ & Hv). simplify_eq/=.
  match goal with H : bool_decide _ = true |- _ => apply bool_decide_eq_true in H; rename H into Hv end.
  destruct target as [ip|name]; cbn in Ht; cbn [displayed] in Dt.
  - apply bool_decide_eq_true in Ht. subst ip. split; [by left|].
    destruct Dt as (h & Hh & Hno & Hp). exists h.
    destruct (allowed_local_spelled _ _ _ _ _ Hv Hh) as (p & ? & ?); eauto using literal_is_local.
  - apply andb_true_iff in Ht as [Hln Hlo]. split; [right; eauto|]. rewrite Dt in *.
    pose proof (localhost_parses _ Hln) as Hh. exists ($"localhost").
    destruct (allowed_local_spelled _ _ _ _ _ Hv Hh) as (p & ? & ?); [vm_compute; reflexivity|done|]. eauto.
Qed.
End requests.

(** ** Clients that share the state *)
Section clients.
Context {Ma : Matching} {Mi : Mitm} {So : SocketPaths}.

(** A state that keeps to its constraints and matches with what it says. *)
Definition good (st : ConfigState) : Prop := respects (config st) (constraints st) ∧ compiled st.
Definition bounded (st : ConfigState) : Prop := length (blocked st) ≤ MAX_BLOCKED_EVENTS.

(** The operations clients start, with states from outside that are themselves good. *)
Inductive client : thread → Prop :=
| client_allow host : client (add_allowed_domain host)
| client_deny host : client (add_denied_domain host)
| client_mode m : client (set_network_mode m)
| client_record execution_id entry : client (record_thread execution_id entry)
| client_drain : client drain_thread
| client_replace new_state : good new_state → client (replace_config_state new_state)
| client_force answer : (∀ new_state, answer = Ok new_state → good new_state) → client (force_thread answer).

(** What an operation under way knows. *)
Fixpoint sound (t : thread) : Prop :=
  match t with
  | Reloading next => sound next
  | ReloadRead new_state next => good new_state ∧ sound next
  | ReloadWrite new_state next => good new_state ∧ bounded new_state ∧ sound next
  | UpdateWrite host target read_config read_constraints new_state =>
      good new_state ∧ bounded new_state ∧
      ∃ read, config read = read_config ∧ constraints read = read_constraints ∧
        update_attempt host target read = Candidate new_state
  | ModeWrite m read_constraints =>
      ∀ max, max_mode read_constraints = Some max → network_mode_rank m ≤ network_mode_rank max
  | ForceWrite new_state | ReplaceWrite new_state => good new_state
  | UpdateRead _ _ | ModeRead _ | RecordWrite _ | DrainWrite | Finished _ => True
  end.
Lemma client_sound t : client t → sound t.
Proof.
  destruct 1 as [host|host| | | | |answer Ha]; cbn; try done;
    [unfold add_allowed_domain, update_domain_list|unfold add_denied_domain, update_domain_list|];
    [by destruct (parse_host host)..|]. destruct answer; cbn; [by apply Ha|done].
Qed.

Lemma good_with_blocked b n st : good st → good (with_blocked b n st).
Proof. by intros [Hr [? ? ?]]. Qed.
Lemma respects_set_mode c k m :
  respects c k → (∀ max, max_mode k = Some max → network_mode_rank m ≤ network_mode_rank max) →
  respects (set_mode m c) k.
Proof. intros [] Hm. by split. Qed.
Lemma update_candidate host target st new_state :
  update_attempt host target st = Candidate new_state →
  respects (upsert_domain_permission (config st) host (list_permission target) normalize_host) (constraints st) ∧
  ∃ built, build_config_state (upsert_domain_permission (config st) host (list_permission target) normalize_host)
             (constraints st) = Ok built ∧ new_state = with_blocked (blocked st) (blocked_total st) built.
Proof.
  unfold update_attempt. destruct (_ && _); [done|].
  destruct (validate_policy_against_constraints _ _) as [[]|] eqn:Hv; [|done]. apply validate_respects in Hv.
  destruct (build_config_state _ _) as [built|]; [|done]. intros [= <-]. eauto.
Qed.
Lemma candidate_good host target st new_state :
  update_attempt host target st = Candidate new_state → good new_state.
Proof.
  intros (Hr & built & Hb & ->)%update_candidate. apply good_with_blocked.
  split; [by eapply build_respects|exact (proj1 (build_state_inv _ _ _ Hb))].
Qed.
Lemma mode_attempt_max m st :
  mode_attempt m st = None →
  ∀ max, max_mode (constraints st) = Some max → network_mode_rank m ≤ network_mode_rank max.
Proof.
  unfold mode_attempt. destruct (validate_policy_against_constraints _ _) as [[]|] eqn:Hv; [|done].
  intros _. apply validate_respects in Hv. exact (r_mode _ _ Hv).
Qed.
Lemma push_blocked_bounded entry st : bounded st → bounded (push_blocked entry st).
Proof.
  unfold bounded, push_blocked. cbn zeta. cbn [blocked with_blocked]. rewrite length_drop, length_app.
  cbn [length]. lia.
Qed.

Lemma run_thread_sound answer t st t' st' :
  (∀ new_state, answer = Ok (Some new_state) → good new_state) →
  run_thread answer t st = (t', st') → sound t → good st → bounded st → sound t' ∧ good st' ∧ bounded st'.
Proof.
  intros Ha H Ht Hg Hb. destruct t; cbn [run_thread sound] in *.
  - destruct answer as [[new_state|]|]; simplify_eq; cbn [sound]; auto.
  - simplify_eq. cbn [sound]. destruct Ht. split_and!; auto using good_with_blocked.
  - simplify_eq. naive_solver.
  - destruct (update_attempt host target st) as [| |new_state] eqn:Hu; simplify_eq; [done..|]. cbn [sound].
    split; [|done]. split; [by eapply candidate_good|].
    destruct (update_candidate _ _ _ _ Hu) as (_ & built & _ & ->). split; [exact Hb|]. by exists st'.
  - unfold update_commit in H. destruct (_ || _); simplify_eq; cbn [sound]; naive_solver.
  - destruct (mode_attempt m st) eqn:Hm; simplify_eq; cbn [sound]; [done|]. split; [|done]. by apply mode_attempt_max.
  - unfold mode_commit in H. destruct (bool_decide (constraints st ≠ read_constraints)) eqn:Hk;
      injection H as <- <-; cbn [sound]; [done|].
    apply bool_decide_eq_false, dec_stable in Hk. subst read_constraints. split; [done|]. split; [|exact Hb]. destruct Hg as [Hr [H1 H2 H3]].
    split; [by apply respects_set_mode|by split].
  - simplify_eq. split_and!; [done| |by apply push_blocked_bounded]. by apply good_with_blocked.
  - simplify_eq. split_and!; [done|by apply good_with_blocked|]. unfold bounded. cbn. lia.
  - simplify_eq. split_and!; [done|by apply good_with_blocked|exact Hb].
  - simplify_eq. split_and!; [done|by apply good_with_blocked|exact Hb].
  - by simplify_eq.
Qed.

Lemma steps_sound x y :
  rtc (step good) x y → Forall sound x.1 → good x.2 → bounded x.2 →
  Forall sound y.1 ∧ good y.2 ∧ bounded y.2.
Proof.
  induction 1 as [|x y z Hs _ IH]; [done|]. intros Ht Hg Hb.
  destruct Hs as [pool i t answer st t' st' Hi Ha Hr]. cbn [fst snd] in *.
  destruct (run_thread_sound _ _ _ _ _ Ha Hr (Forall_lookup_1 _ _ _ _ Ht Hi) Hg Hb) as (? & ? & ?).
  apply IH; [by apply Forall_insert|done..].
Qed.
Lemma clients_sound pool : Forall client pool → Forall sound pool.
Proof. intros H. eapply Forall_impl; [exact H|]. intros t. apply client_sound. Qed.

(** C26: However clients that add domains, change the mode, record and drain blocked requests, replace the
    state or force reloads are interleaved, if the first state and every state from outside keep to their
    constraints and are compiled from their configuration, so does the state at any time; and at most
    200 blocked requests are buffered. *)
Theorem reachable_states_good pool st pool' st' :
  Forall client pool → good st → bounded st → rtc (step good) (pool, st) (pool', st') →
  respects (config st') (constraints st') ∧ compiled st' ∧ length (blocked st') ≤ MAX_BLOCKED_EVENTS.
Proof.
  intros Hc Hg Hb Hs. destruct (steps_sound _ _ Hs (clients_sound _ Hc) Hg Hb) as (_ & [? ?] & ?). done.
Qed.

(** The attempt depends on the configuration and the constraints only. *)
Lemma update_attempt_same host target st read new_state :
  config read = config st → constraints read = constraints st →
  update_attempt host target read = Candidate new_state →
  update_attempt host target st = Candidate (with_blocked (blocked st) (blocked_total st) new_state).
Proof.
  intros Hc Hk. unfold update_attempt. rewrite Hc, Hk. destruct (_ && _); [done|].
  destruct (validate_policy_against_constraints _ _) as [[]|]; [|done].
  destruct (build_config_state _ _) as [built|]; [|done]. by intros [= <-].
Qed.

(** C33: An update of a list that is written takes effect on the configuration as it is at that moment: the
    state written is, apart from the buffered blocked requests and their count (which [recorded_request_is_lost]
    shows can be lost), the one that the update computes from the state it overwrites, so no other change of the
    configuration is lost. *)
Theorem update_takes_effect_at_once pool st pool' st1 i host target rc rk new_state answer st2 :
  Forall client pool → good st → bounded st → rtc (step good) (pool, st) (pool', st1) →
  pool' !! i = Some (UpdateWrite host target rc rk new_state) →
  run_thread answer (UpdateWrite host target rc rk new_state) st1 = (Finished (Ok ()), st2) →
  ∃ now, update_attempt host target st1 = Candidate now ∧
    with_blocked (blocked st2) (blocked_total st2) now = st2.
Proof.
  intros Hcl Hg Hb Hs Hi Hr. destruct (steps_sound _ _ Hs (clients_sound _ Hcl) Hg Hb) as (Ht & _).
  destruct (Forall_lookup_1 _ _ _ _ Ht Hi) as (_ & _ & read & Hrc & Hrk & Hu).
  cbn [run_thread] in Hr. unfold update_commit in Hr. destruct (_ || _) eqn:E; simplify_eq.
  apply orb_false_iff in E as [Ek%bool_decide_eq_false%dec_stable Ec%bool_decide_eq_false%dec_stable].
  eexists. split; [by eapply update_attempt_same|]. by destruct st2.
Qed.

Lemma brokered_allowed c k :
  default [] (allowed_domains c) ≠ [] → allowed_domains (brokered_config c k).1 = allowed_domains c.
Proof.
  intros Ha. unfold brokered_config.
  set (c1 := if bool_decide (max_enabled k = Some false) then set_credential_broker false c else c).
  assert (allowed_domains c1 = allowed_domains c) as H1 by (unfold c1; by destruct (bool_decide _)).
  rewrite (bool_decide_false (allowed_domains c1 = None)) by (rewrite H1, allowed_None; done).
  rewrite andb_false_r. cbn [andb fst]. rewrite <-H1. by destruct (_ && _).
Qed.
Lemma candidate_listed h target st new_state :
  update_attempt h target st = Candidate new_state → h ∈ list_entries target (config new_state).
Proof.
  intros (_ & built & (_ & Hc & _)%build_state_inv & ->)%update_candidate. cbn [config with_blocked]. rewrite Hc.
  set (c := upsert_domain_permission _ _ _ _). set (k := constraints st).
  destruct target; unfold list_entries.
  - assert (h ∈ default [] (allowed_domains c)) as Hin.
    { apply allowed_elem. unfold c. rewrite !upsert_elem. cbn. split; [by right|].
      intros [[_ ?]|?]; simplify_eq/=; done. }
    rewrite brokered_allowed; [done|]. intros E. rewrite E in Hin. by apply elem_of_nil in Hin.
  - destruct (brokered_keeps c k) as (_&_&_&_&_&_&_&_& Kd & _). apply Kd, denied_elem, upsert_elem. by right.
Qed.

(** Left alone, an update of a list is over once the reloader was asked, the state read and the state
    written: it fails and changes nothing, or it succeeds and the list then has an entry for the host. *)
Theorem update_alone_finishes host target st :
  ∃ r st', run_schedule [(0, Ok None); (0, Ok None); (0, Ok None)] [update_domain_list host target] st
             = ([Finished r], st') ∧
    match r with
    | Err _ => st' = st
    | Ok _ => ∃ h p, parse_host host = Some h ∧ p ∈ list_entries target (config st') ∧ (p = h ∨ normalize_host p = h)
    end.
Proof.
  unfold update_domain_list. destruct (parse_host host) as [h|]; [|eexists _, st; by split].
  cbn [run_schedule lookup list_lookup run_thread]. change (list_insert 0 ?t ?p) with (<[0 := t]> p).
  change (<[0 := UpdateRead h target]> [_]) with [UpdateRead h target].
  cbn [run_schedule lookup list_lookup run_thread].
  destruct (update_attempt h target st) as [|err|new_state] eqn:Hu.
  - eexists _, st. split; [reflexivity|]. unfold update_attempt in Hu. destruct (_ && _) eqn:E; [|by repeat case_match].
    apply andb_true_iff in E as [(p & Hp & Hn%bool_decide_eq_true)%existsb_elem _]. eauto 7.
  - eexists _, st. by split.
  - eexists _, new_state. split.
    + cbn. unfold update_commit. rewrite !bool_decide_false by (intros Hne; by apply Hne). reflexivity.
    + exists h, h. split_and!; [done|by eapply candidate_listed|by left].
Qed.

(** A host that was added to the denylist is denied from then on: for a host without wildcards, in
    normal form, and a matcher that honours its documentation, the state the addition writes denies it. *)
Theorem added_denial_blocks {GL : GlobLaws} lookup host h port st new_state :
  parse_host host = Some h → literal h = true → parse_pattern (normalize_pattern h) = Exact h →
  update_attempt h DenyList st = Candidate new_state →
  host_decision lookup new_state host port = Blocked Denied.
Proof.
  intros Hh Hlit Hpat Hu. unfold host_decision. rewrite Hh. cbn zeta.
  destruct (candidate_good _ _ _ _ Hu) as [_ [_ Hd _]].
  assert (is_match (deny_set new_state) h = true) as Hm.
  { apply (compile_globset_matches _ _ _ _ Hd). destruct (glob_literal h Hlit) as (g & Hg & Hgm).
    exists h, h, g. split_and!; [exact (candidate_listed _ _ _ _ Hu)| |done|by apply Hgm].
    unfold expand_domain_pattern. rewrite Hpat. by left. }
  unfold globset_matches_host_or_unscoped. by rewrite Hm.
Qed.
End clients.

(** ** A small proxy *)
#[local] Existing Instance simple_matching.
#[local] Existing Instance simple_mitm.
#[local] Existing Instance simple_sockets.

Definition example_config : NetworkProxyConfig :=
  set_denied_domains (set_allowed_domains (set_enabled true default_config) [$"*.Example.com"; $"127.0.0.1"])
    [$"evil.example.com."].
Definition example_constraints : NetworkProxyConstraints :=
  mkConstraints (Some true) (Some Full) (Some true) None None (Some [$"**.example.com"; $"127.0.0.1"]) None
    (Some [$"EVIL.example.com."]) None None (Some false).
Definition state_of (c : NetworkProxyConfig) (k : NetworkProxyConstraints) : ConfigState :=
  match build_config_state c k with
  | Ok st => st
  | Err _ => mkConfigState c false [] [] None () k [] 0
  end.
Definition example_state : ConfigState := state_of example_config example_constraints.
Definition example_lookup (host : str) (port : N) : option (list SocketAddr) :=
  if bool_decide (host = $"api.example.com") then Some [(V4 0x5db8d822, port)]
  else if bool_decide (host = $"rebind.example.com") then Some [(V4 0x5db8d822, port); (V4 0x0a000001, port)]
  else None.

Lemma state_of_built c k : is_ok (build_config_state c k) = true → build_config_state c k = Ok (state_of c k).
Proof. unfold state_of. by destruct (build_config_state c k). Qed.
Lemma example_built : build_config_state example_config example_constraints = Ok example_state.
Proof. apply state_of_built. vm_compute. reflexivity. Qed.
Lemma example_compiled : compiled example_state.
Proof. exact (proj1 (build_state_inv _ _ _ example_built)). Qed.
Lemma example_plain : plain_lists example_state.
Proof.
  assert (config example_state = example_config) as E.
  { rewrite (proj1 (proj2 (build_state_inv _ _ _ example_built))). vm_compute. reflexivity. }
  unfold plain_lists. rewrite E. split; repeat (apply Forall_cons; split; [vm_compute; reflexivity|]);
    by apply Forall_nil.
Qed.
Lemma example_respects : respects (config example_state) (constraints example_state).
Proof.
  apply (build_respects example_config example_constraints); [|exact example_built].
  apply validate_respects. vm_compute. reflexivity.
Qed.

Lemma host_decision_spec_witness :
  (host_decision example_lookup example_state ($"API.Example.com:443") 443 = Allowed ∧
   listed (default [] (allowed_domains (config example_state))) ($"api.example.com")) ∧
  (host_decision example_lookup example_state ($"Evil.example.com") 443 = Blocked Denied ∧
   listed (default [] (denied_domains (config example_state))) ($"evil.example.com")) ∧
  host_decision example_lookup example_state ($"rebind.example.com") 80 = Blocked NotAllowedLocal ∧
  host_decision example_lookup example_state ($"example.com") 80 = Blocked NotAllowedLocal ∧
  host_decision example_lookup example_state ($"127.0.0.1") 80 = Allowed ∧
  host_decision example_lookup example_state ($"10.0.0.1") 80 = Blocked NotAllowedLocal.
Proof.
  split; [split; [vm_compute; reflexivity|]|split; [split; [vm_compute; reflexivity|]|]].
  - destruct (proj1 (proj2 (@host_decision_spec simple_matching simple_mitm simple_globs example_lookup example_state
      ($"API.Example.com:443") 443 example_compiled example_plain))) as (h & Hh & _ & Hl & _);
      [vm_compute; reflexivity|].
    assert (parse_host ($"API.Example.com:443") = Some ($"api.example.com")) as E by (vm_compute; reflexivity).
    rewrite E in Hh. injection Hh as <-. exact Hl.
  - destruct (proj1 (proj1 (@host_decision_spec simple_matching simple_mitm simple_globs example_lookup example_state
      ($"Evil.example.com") 443 example_compiled example_plain))) as (h & Hh & Hl);
      [vm_compute; reflexivity|].
    assert (parse_host ($"Evil.example.com") = Some ($"evil.example.com")) as E by (vm_compute; reflexivity).
    rewrite E in Hh. injection Hh as <-. exact Hl.
  - split_and!; vm_compute; reflexivity.
Defined.

Definition example_request (host : str) : NetworkPolicyRequest :=
  mkRequest HttpsConnect host 443 None None None None None None.
Definition allow_everything (_ : NetworkPolicyRequest) : NetworkDecision := DecideAllow.
Definition audited (host : str) : option (NetworkDecision * bool) :=
  match evaluate_host_policy example_lookup (Some allow_everything) None None (Ok None) (example_request host) example_state with
  | Ok (d, ev, _) => Some (d, policy_override ev)
  | Err _ => None
  end.
Lemma decider_cannot_lift_denial_witness :
  audited ($"api.example.com") = Some (DecideAllow, false) ∧
  ∃ d ev st', evaluate_host_policy example_lookup (Some allow_everything) None None (Ok None)
      (example_request ($"evil.example.com")) example_state = Ok (d, ev, st') ∧
    d = DecideDeny ($"denied") BaselinePolicy DecisionDeny.
Proof.
  split; [vm_compute; reflexivity|].
  destruct (evaluate_host_policy example_lookup (Some allow_everything) None None (Ok None)
    (example_request ($"evil.example.com")) example_state) as [[[d ev] st']|e] eqn:H.
  - exists d, ev, st'. split; [reflexivity|].
    refine (proj1 (proj2 (decider_cannot_lift_denial _ _ _ _ _ _ _ _ _ _ H) Denied _ _)); [|discriminate].
    assert (st' = example_state) as ->; [|vm_compute; reflexivity].
    unfold evaluate_host_policy, host_blocked in H. cbn [rbind reload_if_needed fst snd] in H.
    destruct (decide_host _ _ _ _ _). congruence.
  - exfalso. unfold evaluate_host_policy, host_blocked in H. cbn [rbind reload_if_needed fst snd] in H.
    destruct (decide_host _ _ _ _ _). congruence.
Defined.

Definition example_display (target : TargetHost) : str :=
  match target with Address _ => $"127.0.0.1" | Name name => name end.
Lemma connect_public_or_spelled_witness :
  let addr := (V4 0x7f000001, 80%N) in
  connect_permitted example_lookup example_display (Ok None) (Ok None) (Address (V4 0x7f000001)) 80 addr example_state
    = Ok (true, example_state) ∧
  (∃ h p, parse_host (example_display (Address (V4 0x7f000001))) = Some h ∧
     p ∈ default [] (allowed_domains (config example_state)) ∧ spells p h) ∧
  match connect_permitted example_lookup example_display (Ok None) (Ok None) (Name ($"api.example.com")) 80 addr example_state with
  | Ok (b, _) => b = false
  | Err _ => False
  end.
Proof.
  cbn zeta.
  assert (connect_permitted example_lookup example_display (Ok None) (Ok None) (Address (V4 0x7f000001)) 80
    (V4 0x7f000001, 80%N) example_state = Ok (true, example_state)) as H.
  { unfold connect_permitted, allows_non_public_target, host_blocked.
    change (is_non_public_ip (V4 0x7f000001, 80%N).1) with true. cbn [rbind reload_if_needed fst snd].
    assert (allow_local_binding (config example_state) = false) as -> by (vm_compute; reflexivity).
    assert (host_decision example_lookup example_state (example_display (Address (V4 0x7f000001))) 80 = Allowed) as ->
      by (vm_compute; reflexivity). reflexivity. }
  split; [exact H|]. split.
  - refine (proj2 (connect_public_or_spelled example_lookup example_display (Ok None) (Ok None)
      (Address (V4 0x7f000001)) 80 (V4 0x7f000001, 80%N) example_state example_state _ H _ _));
      [exists ($"127.0.0.1"); vm_compute; repeat split|vm_compute; reflexivity..].
  - vm_compute. reflexivity.
Defined.

(** Runs by a schedule are runs of the step relation. *)
Lemma run_schedule_steps schedule pool st :
  Forall (λ x, x.2 = Ok None) schedule → rtc (step good) (pool, st) (run_schedule schedule pool st).
Proof.
  intros H. revert pool st. induction H as [|[i a] schedule Ha _ IH]; intros pool st; [done|]. cbn in Ha. subst a.
  cbn [run_schedule]. destruct (pool !! i) as [t|] eqn:Hi; [|apply IH].
  destruct (run_thread (Ok None) t st) as [t' st'] eqn:Hr. eapply rtc_l; [|apply IH].
  eapply step_thread; [exact Hi| |exact Hr]. intros ? ?. discriminate.
Qed.
Lemma example_good : good example_state.
Proof. split; [exact example_respects|exact example_compiled]. Qed.
Lemma example_bounded : bounded example_state.
Proof.
  unfold bounded. rewrite (proj1 (proj2 (proj2 (proj2 (build_state_inv _ _ _ example_built))))). apply Nat.le_0_l.
Qed.

Definition example_blocked : BlockedRequest :=
  mkBlockedRequest ($"evil.example.com") ($"denied") None None None ($"http") None None None (Some 443%N) 0.
Definition example_pool : list thread := [add_denied_domain ($"Bad.org"); record_thread None example_blocked].
Lemma example_clients : Forall client example_pool.
Proof. repeat constructor. Qed.
(** The first client runs to its end, then the second. *)
Definition in_turn : list (nat * Answer) := [(0, Ok None); (0, Ok None); (0, Ok None); (1, Ok None); (1, Ok None)].
(** The second client records while the first is about to write. *)
Definition recorded_between : list (nat * Answer) :=
  [(0, Ok None); (0, Ok None); (1, Ok None); (1, Ok None); (0, Ok None)].

Lemma reachable_states_good_witness :
  let st' := (run_schedule in_turn example_pool example_state).2 in
  denied_domains (config st') = Some [$"evil.example.com."; $"bad.org"] ∧ blocked st' = [example_blocked] ∧
  respects (config st') (constraints st').
Proof.
  cbn zeta. split; [vm_compute; reflexivity|]. split; [vm_compute; reflexivity|].
  refine (proj1 (reachable_states_good example_pool example_state
    (run_schedule in_turn example_pool example_state).1 _ example_clients example_good example_bounded _)).
  rewrite <-surjective_pairing. apply run_schedule_steps. repeat constructor.
Defined.

Definition is_candidate (a : attempt) : bool := match a with Candidate _ => true | _ => false end.
Lemma is_candidate_true a : is_candidate a = true → ∃ st, a = Candidate st.
Proof. destruct a; try done. eauto. Qed.
Lemma update_takes_effect_at_once_witness :
  ∃ pool' new_state, rtc (step good) ([add_denied_domain ($"Bad.org")], example_state) (pool', example_state) ∧
    pool' !! 0 = Some (UpdateWrite ($"bad.org") DenyList (config example_state) (constraints example_state) new_state) ∧
    ∃ now st2, update_attempt ($"bad.org") DenyList example_state = Candidate now ∧
      with_blocked (blocked st2) (blocked_total st2) now = st2.
Proof.
  destruct (is_candidate_true (update_attempt ($"bad.org") DenyList example_state)) as [new_state Hn];
    [vm_compute; reflexivity|].
  pose proof (run_schedule_steps [(0, Ok None); (0, Ok None)] [add_denied_domain ($"Bad.org")] example_state) as Hs.
  assert (run_schedule [(0, Ok None); (0, Ok None)] [add_denied_domain ($"Bad.org")] example_state =
    ([UpdateWrite ($"bad.org") DenyList (config example_state) (constraints example_state) new_state], example_state)) as E.
  { assert (add_denied_domain ($"Bad.org") = Reloading (UpdateRead ($"bad.org") DenyList)) as -> by (vm_compute; reflexivity).
    change (run_schedule _ _ _) with (run_schedule [(0, Ok None)] [UpdateRead ($"bad.org") DenyList] example_state).
    cbn [run_schedule run_thread lookup list_lookup]. rewrite Hn. reflexivity. }
  rewrite E in Hs. specialize (Hs ltac:(repeat constructor)).
  eexists _, new_state. split; [exact Hs|]. split; [reflexivity|].
  assert (Forall client [add_denied_domain ($"Bad.org")]) as Hcl by (apply Forall_singleton, client_deny).
  assert (run_thread (Ok None) (UpdateWrite ($"bad.org") DenyList (config example_state) (constraints example_state)
    new_state) example_state = (Finished (Ok ()), new_state)) as Hr.
  { cbn [run_thread]. unfold update_commit. rewrite !bool_decide_false by (intros Hne; by apply Hne). reflexivity. }
  destruct (update_takes_effect_at_once [add_denied_domain ($"Bad.org")] example_state _ example_state 0 ($"bad.org")
    DenyList (config example_state) (constraints example_state) new_state (Ok None) new_state
    Hcl example_good example_bounded Hs (@eq_refl _ _) Hr) as (now & Hnow & Hw).
  exists now, new_state. split; [exact Hnow|exact Hw].
Defined.

Lemma added_denial_blocks_witness :
  ∃ new_state, update_attempt ($"bad.org") DenyList example_state = Candidate new_state ∧
    host_decision example_lookup new_state ($"BAD.org:80") 80 = Blocked Denied.
Proof.
  destruct (is_candidate_true (update_attempt ($"bad.org") DenyList example_state)) as [new_state Hn];
    [vm_compute; reflexivity|]. exists new_state. split; [exact Hn|].
  refine (@added_denial_blocks simple_matching simple_mitm simple_sockets simple_globs example_lookup ($"BAD.org:80")
    ($"bad.org") 80 example_state new_state _ _ _ Hn); vm_compute; reflexivity.
Defined.

(** The configuration is compared before a list is written, the buffered requests are not: a request that
    is recorded in between is neither buffered nor counted afterwards, although its client was told that it
    was recorded. *)
Example recorded_request_is_lost :
  let '(pool, st') := run_schedule recorded_between example_pool example_state in
  pool = [Finished (Ok ()); Finished (Ok ())] ∧ blocked st' = [] ∧ blocked_total st' = 0%N.
Proof. vm_compute. repeat split. Qed.

(** A forced reload keeps the buffered requests and forgets how many there were. *)
Example force_reload_forgets_total :
  match force_reload (Ok example_state) (push_blocked example_blocked example_state) with
  | Ok st' => blocked st' = [example_blocked] ∧ blocked_total st' = 0%N
  | Err _ => False
  end.
Proof. vm_compute. repeat split. Qed.
