(* ===== verification/MitmPolicy.v ===== *)
(** * The policy on requests inside an intercepted tunnel: [network-proxy/src/mitm.rs]

    [evaluate_mitm_policy] judges a request that arrived inside a tunnel the proxy
    opened to one host: no nested tunnels, no other host, no local addresses, a hook
    that matches where the host has hooks, a method the mode allows. The state is
    that of [NetworkProxy.v] with the hooks of [MitmHook.v]; what is refused is
    recorded in it. Responses stand for their status and the reason they name. *)

From stdpp Require Import prelude list gmap strings.
From S2P Require Import Prelude NetAddr NetworkPolicy NetworkState NetworkPolicySpec NetworkProxy MitmHook MitmHookSpec.

Definition REASON_METHOD_NOT_ALLOWED : str := $"method_not_allowed".
Definition REASON_MITM_HOOK_DENIED : str := $"mitm_hook_denied".

Inductive Response : Type :=
| TextResponse (status : N) (body : str)
| BlockedTextResponse (reason : str).

(** What [blocked_text_response] tells the client ([responses.rs]). *)
Definition blocked_message (reason : str) : str :=
  if bool_decide (reason = REASON_NOT_ALLOWED) then $"Domain not in allowlist."
  else if bool_decide (reason = REASON_NOT_ALLOWED_LOCAL)
       then $"Sandbox policy blocks local/private network addresses."
  else if bool_decide (reason = REASON_DENIED) then $"Domain denied by the sandbox policy."
  else if bool_decide (reason = REASON_METHOD_NOT_ALLOWED) then $"Method not allowed in limited mode."
  else if bool_decide (reason = REASON_MITM_HOOK_DENIED) then $"HTTPS request denied by MITM hook policy."
  else if bool_decide (reason = $"mitm_required") then $"MITM required for limited HTTPS."
  else if bool_decide (reason = $"proxy_disabled") then $"network proxy is disabled"
  else $"Request blocked by network policy.".

Inductive MitmPolicyDecision : Type :=
| MitmAllow (hook_actions : option MitmHookActions)
| MitmBlock (response : Response).

(** The tunnel: its target, and the mode when it was opened. *)
Record MitmPolicyContext : Type := mkMitmContext {
  target_host : str;
  target_port : N;
  ctx_mode : NetworkMode;
  ctx_execution_id : option str
}.

Definition extract_request_host (req : Request) : option str :=
  match List.find (λ nv, bool_decide (nv.1 = $"host")) (rq_headers req) with
  | Some (_, Some v) => Some v
  | Some (_, None) | None => rq_authority req
  end.

Section policy.
Context {Ma : Matching} {Ho : HookOps} {So : SocketPaths}.

(** The request as it is recorded when it is refused. *)
Definition blocked_request (policy : MitmPolicyContext) (client : option str) (method reason : str) (now : Z)
    : BlockedRequest :=
  mkBlockedRequest (target_host policy) reason client (Some method) (Some (ctx_mode policy)) ($"https") None None None
    (Some (target_port policy)) now.
(** [let _ = state.record_blocked(..).await]. *)
Definition record_ignoring_errors (policy : MitmPolicyContext) (answer : Answer) (entry : BlockedRequest)
    (st : ConfigState) : ConfigState :=
  match record_blocked (ctx_execution_id policy) answer entry st with Ok (_, st') => st' | Err _ => st end.

(** [evaluate_mitm_hook_request] of the state. *)
Definition evaluate_mitm_hook_request (answer : Answer) (host : str) (req : Request) (st : ConfigState)
    : result str (HookEvaluation * ConfigState) :=
  let? st := reload_if_needed answer st in Ok (evaluate_mitm_hooks (mitm_hooks_by_host st) host req, st).

Definition host_mismatch (req : Request) (policy : MitmPolicyContext) : bool :=
  match extract_request_host req with
  | Some request_host =>
      let normalized := normalize_host request_host in
      negb (is_empty normalized) && bool_decide (normalized ≠ target_host policy)
  | None => false
  end.

(** The answers are those to the reloads of the three calls on the state it may make. *)
Definition evaluate_mitm_policy (lookup : str → N → option (list SocketAddr)) (answer1 answer2 answer3 : Answer)
    (now : Z) (client : option str) (req : Request) (policy : MitmPolicyContext) (st : ConfigState)
    : result str (MitmPolicyDecision * ConfigState) :=
  let method := rq_method req in
  let block reason answer st :=
    Ok (MitmBlock (BlockedTextResponse reason),
        record_ignoring_errors policy answer (blocked_request policy client method reason now) st) in
  if bool_decide (method = $"CONNECT")
  then Ok (MitmBlock (TextResponse 405 ($"CONNECT not supported inside MITM")), st)
  else if host_mismatch req policy then Ok (MitmBlock (TextResponse 400 ($"host mismatch")), st)
  else
    let? r := host_blocked lookup answer1 (target_host policy) (target_port policy) st in
    if bool_decide (r.1 = Blocked NotAllowedLocal) then block (reason_as_str NotAllowedLocal) answer2 r.2 else
    let? e := evaluate_mitm_hook_request answer2 (target_host policy) req r.2 in
    match e.1 with
    | HookedHostNoMatch => block REASON_MITM_HOOK_DENIED answer3 e.2
    | NoHooksForHost =>
        if allows_method (ctx_mode policy) method then Ok (MitmAllow None, e.2)
        else block REASON_METHOD_NOT_ALLOWED answer3 e.2
    | Matched actions =>
        if allows_method (ctx_mode policy) method then Ok (MitmAllow (Some actions), e.2)
        else block REASON_METHOD_NOT_ALLOWED answer3 e.2
    end.

(** ** What the policy guarantees *)

(** The hooks a state was compiled with. *)
Definition configured_hooks (st : ConfigState) : list HookConfig := mitm_hooks (config st).

Lemma compiled_hooks (st : ConfigState) :
  compiled st → compile_hooks_into ∅ (configured_hooks st) = Ok (mitm_hooks_by_host st).
Proof. intros [_ _ H]. unfold compile_mitm_hooks in H. by apply NetworkPolicySpec.rbind_Ok in H as (? & _ & H). Qed.

Lemma mismatch_false req policy :
  host_mismatch req policy = false →
  ∀ h, extract_request_host req = Some h → normalize_host h = [] ∨ normalize_host h = target_host policy.
Proof.
  unfold host_mismatch. intros H h Hh. rewrite Hh in H. cbn zeta in H.
  apply andb_false_iff in H as [H|H]; [left; by destruct (normalize_host h)|right].
  by apply bool_decide_eq_false, dec_stable in H.
Qed.

(** C35: A request inside a tunnel is passed on only if it opens no tunnel of its own, names no other host
    than the tunnel's, uses a method that the tunnel's mode allows, and the decision on the host is not that it
    is local and not allowed (other refusals of the host are the tunnel's matter); and, where hooks are
    configured for the host, only with the actions of the first one in their order that matches, on a path that
    is safe for authorisation. *)
Theorem intercepted_request_allowed lookup answer1 answer2 answer3 now client req policy st actions st' :
  compiled st' →
  evaluate_mitm_policy lookup answer1 answer2 answer3 now client req policy st = Ok (MitmAllow actions, st') →
  rq_method req ≠ $"CONNECT" ∧
  (∀ h, extract_request_host req = Some h → normalize_host h = [] ∨ normalize_host h = target_host policy) ∧
  allows_method (ctx_mode policy) (rq_method req) = true ∧
  (∃ st1, reload_if_needed answer1 st = Ok st1 ∧ reload_if_needed answer2 st1 = Ok st' ∧
     host_decision lookup st1 (target_host policy) (target_port policy) ≠ Blocked NotAllowedLocal) ∧
  ∃ hooks, Forall2 (λ cfg hook, compile_hook cfg = Ok hook) (configured_hooks st') hooks ∧
    match hooks_for (normalize_host (target_host policy)) hooks with
    | [] => actions = None
    | mine => ∃ before hook after, mine = before ++ hook :: after ∧ (∀ other, other ∈ before → hook_matches other req = false) ∧
        hook_matches hook req = true ∧ actions = Some (hook_actions hook) ∧ is_safe_for_authorization (rq_path req) = true
    end.
Proof.
  intros Hc H. unfold evaluate_mitm_policy in H. cbn zeta in H.
  destruct (bool_decide (rq_method req = $"CONNECT")) eqn:Hm; [done|]. apply bool_decide_eq_false in Hm.
  destruct (host_mismatch req policy) eqn:Hh; [done|].
  apply NetworkPolicySpec.rbind_Ok in H as ([v s1] & Hb & H). unfold host_blocked in Hb.
  apply NetworkPolicySpec.rbind_Ok in Hb as (s1' & H1 & Hb). simplify_eq/=.
  destruct (bool_decide _) eqn:Hl; [done|]. apply bool_decide_eq_false in Hl.
  apply NetworkPolicySpec.rbind_Ok in H as ([e s2] & He & H). unfold evaluate_mitm_hook_request in He.
  apply NetworkPolicySpec.rbind_Ok in He as (s2' & H2 & He). simplify_eq/=.
  assert (allows_method (ctx_mode policy) (rq_method req) = true ∧ s2 = st') as [Hmode ->].
  { destruct (evaluate_mitm_hooks _ _ _), (allows_method _ _); by simplify_eq. }
  split_and!; [done|by apply mismatch_false|done|by exists s1|].
  destruct (evaluate_hooks_cases _ _ (target_host policy) req (compiled_hooks _ Hc)) as (hooks & Hf & Hev).
  exists hooks. split; [done|]. rewrite Hmode in H.
  destruct (evaluate_mitm_hooks _ _ _) as [|acts|]; simplify_eq; [by rewrite Hev|].
  destruct Hev as (before & hook & after & Hmine & -> & Hb & Hk & Hs & _). rewrite Hmine.
  destruct (before ++ hook :: after) as [|k ks] eqn:E; [by destruct before|]. exists before, hook, after. by rewrite <-E.
Qed.
End policy.

(** ** A tunnel with a hook *)
#[local] Existing Instance simple_matching.
#[local] Existing Instance simple_hook_ops.
#[local] Existing Instance absolute_sockets.

Definition hooked_config : @NetworkProxyConfig hook_mitm :=
  mkProxyConfig true ($"http://127.0.0.1:3128") true ($"http://127.0.0.1:8081") true true false false Limited
    (Some [mkDomainEntry ($"api.github.com") PermissionAllow]) None false true false None false [example_hook].
Definition hooked_state : ConfigState :=
  match build_config_state hooked_config no_constraints with
  | Ok st => st
  | Err _ => mkConfigState hooked_config false [] [] None ∅ no_constraints [] 0
  end.
Definition example_tunnel : MitmPolicyContext := mkMitmContext ($"api.github.com") 443 Limited None.
Definition public_lookup (host : str) (port : N) : option (list SocketAddr) := Some [(V4 0x5db8d822, port)].
Definition judge (method path : str) : option (result str (option MitmHookActions) * nat) :=
  match evaluate_mitm_policy public_lookup (Ok None) (Ok None) (Ok None) 0 None (example_http method path)
          example_tunnel hooked_state with
  | Ok (MitmAllow a, st') => Some (Ok a, length (blocked st'))
  | Ok (MitmBlock (BlockedTextResponse reason), st') => Some (Err reason, length (blocked st'))
  | _ => None
  end.

Lemma hooked_built : build_config_state hooked_config no_constraints = Ok hooked_state.
Proof.
  unfold hooked_state. destruct (build_config_state hooked_config no_constraints) as [st|e] eqn:E; [reflexivity|].
  exfalso. assert (is_ok (build_config_state hooked_config no_constraints) = true) as Hok by (vm_compute; reflexivity).
  by rewrite E in Hok.
Qed.
Lemma hooked_compiled : compiled hooked_state.
Proof. exact (proj1 (build_state_inv _ _ _ hooked_built)). Qed.

Example judged :
  judge ($"GET") ($"/repos/openai/../x") = Some (Err ($"mitm_hook_denied"), 1) ∧
  judge ($"POST") ($"/repos/openai/codex") = Some (Err ($"mitm_hook_denied"), 1) ∧
  (judge ($"get") ($"/repos/openai/codex")) = Some (Err ($"method_not_allowed"), 1).
Proof. vm_compute. repeat split. Qed.

(** Without news from the configuration an allowed request leaves the state. *)
Lemma allowed_unchanged lookup now client req policy st actions st' :
  evaluate_mitm_policy lookup (Ok None) (Ok None) (Ok None) now client req policy st = Ok (MitmAllow actions, st') → st' = st.
Proof.
  unfold evaluate_mitm_policy, host_blocked, evaluate_mitm_hook_request. cbn [rbind reload_if_needed fst snd].
  repeat (case_match; try discriminate); congruence.
Qed.

Lemma intercepted_request_allowed_witness :
  ∃ actions, evaluate_mitm_policy public_lookup (Ok None) (Ok None) (Ok None) 0 None
      (example_http ($"GET") ($"/repos/openai/codex")) example_tunnel hooked_state = Ok (MitmAllow actions, hooked_state) ∧
    allows_method Limited ($"GET") = true ∧ ∃ hooks, Forall2 (λ cfg hook, compile_hook cfg = Ok hook) [example_hook] hooks.
Proof.
  assert (match judge ($"GET") ($"/repos/openai/codex") with Some (Ok _, _) => true | _ => false end = true) as J
    by (vm_compute; reflexivity).
  unfold judge in J.
  destruct (evaluate_mitm_policy _ _ _ _ _ _ _ _ _) as [[[actions|r] st']|e] eqn:H; [|by destruct r|done].
  pose proof (allowed_unchanged _ _ _ _ _ _ _ _ H) as Hs. rewrite Hs in H |- *. exists actions. split; [done|].
  destruct (intercepted_request_allowed _ _ _ _ _ _ _ _ _ _ _ hooked_compiled H) as (_ & _ & Hm & _ & hooks & Hf & _).
  split; [exact Hm|]. exists hooks.
  assert (configured_hooks hooked_state = [example_hook]) as <-; [|exact Hf].
  unfold configured_hooks. rewrite (proj1 (proj2 (build_state_inv _ _ _ hooked_built))). reflexivity.
Defined.
