(* ===== verification/ConfigMerge.v ===== *)
(** * Configuration values: [config/src/merge.rs], [key_aliases.rs] and [overrides.rs]

    A configuration document is a TOML value. Layers are merged from the lowest
    precedence to the highest: tables merge key by key, anything else is
    replaced. On the way legacy keys are renamed, boolean feature switches merge
    with feature tables, keys of domain and filter tables are normalised, and
    the two representations of the shell-environment filters displace each
    other. Command-line overrides are dotted paths applied to an empty table.

    The package's maps preserve insertion order (the feature [preserve_order] of
    [toml]): a table is an association list without duplicate keys, an insertion
    replaces in place or appends, a removal keeps the order of the others. *)

From stdpp Require Import prelude list gmap strings sorting.
From S2P Require Import Prelude NetAddr NetworkPolicy.

(** ** Values *)

(** [toml::Value]; a float is its bit pattern, a date its text. *)
Inductive TomlValue : Type :=
| TString (s : str)
| TInteger (z : Z)
| TFloat (bits : N)
| TBoolean (b : bool)
| TDatetime (text : str)
| TArray (items : list TomlValue)
| TTable (table : list (str * TomlValue)).

Notation Table := (list (str * TomlValue)).

Definition is_table (v : TomlValue) : bool := match v with TTable _ => true | _ => false end.
Definition as_table (v : TomlValue) : option Table := match v with TTable t => Some t | _ => None end.

(** ** Insertion-ordered maps ([toml::map::Map]) *)
Section maps.
Context {A : Type}.

Fixpoint tm_get (key : str) (t : list (str * A)) : option A :=
  match t with
  | [] => None
  | (k, v) :: t => if bool_decide (k = key) then Some v else tm_get key t
  end.

Fixpoint tm_insert (key : str) (value : A) (t : list (str * A)) : list (str * A) :=
  match t with
  | [] => [(key, value)]
  | (k, v) :: t => if bool_decide (k = key) then (k, value) :: t else (k, v) :: tm_insert key value t
  end.

Definition tm_remove (key : str) (t : list (str * A)) : list (str * A) :=
  List.filter (λ '(k, _), negb (bool_decide (k = key))) t.

Definition contains_key (key : str) (t : list (str * A)) : bool :=
  match tm_get key t with Some _ => true | None => false end.

(** [entry(key).or_insert(value)]. *)
Definition or_insert (key : str) (value : A) (t : list (str * A)) : list (str * A) :=
  if contains_key key t then t else tm_insert key value t.

(** Collecting entries into a map: a later entry of a key replaces an earlier. *)
Definition from_iter (es : list (str * A)) : list (str * A) :=
  foldl (λ t '(k, v), tm_insert k v t) [] es.

Definition rekey (f : str → str) (t : list (str * A)) : list (str * A) :=
  from_iter ((λ '(k, v), (f k, v)) <$> t).
End maps.

(** [Value::get] with a key. *)
Definition value_get (v : TomlValue) (key : str) : option TomlValue :=
  match v with TTable t => tm_get key t | _ => None end.

(** [str::to_lowercase] follows the Unicode tables; on ASCII text it is the ASCII
    mapping, and lowering twice changes nothing more. *)
Class Lowercase := {
  to_lowercase : str → str;
  to_lowercase_ascii : ∀ s, Forall (λ c, (c < 128)%N) s → to_lowercase s = to_ascii_lowercase s;
  to_lowercase_idemp : ∀ s, to_lowercase (to_lowercase s) = to_lowercase s;
}.

(** ** Key aliases *)
Record ConfigKeyAlias := mkAlias {
  table_path : list str;
  legacy_key : str;
  canonical_key : str;
}.

Definition CONFIG_KEY_ALIASES : list ConfigKeyAlias :=
  [mkAlias [ $"memories"] ($"no_memories_if_mcp_or_web_search") ($"disable_on_external_context");
   mkAlias [ $"agents"] ($"max_threads") ($"max_concurrent_threads_per_session")].

Definition rename_key {A} (legacy canonical : str) (t : list (str * A)) : list (str * A) :=
  match tm_get legacy t with
  | Some value => or_insert canonical value (tm_remove legacy t)
  | None => t
  end.

Definition normalize_key_aliases {A} (path : list str) (t : list (str * A)) : list (str * A) :=
  foldl (λ t alias,
    if bool_decide (path = table_path alias) then rename_key (legacy_key alias) (canonical_key alias) t else t)
    t CONFIG_KEY_ALIASES.

Fixpoint normalized_with_key_aliases (value : TomlValue) (path : list str) : TomlValue :=
  match value with
  | TTable table =>
      TTable (normalize_key_aliases path
        (from_iter (map (λ '(key, child), (key, normalized_with_key_aliases child (path ++ [key]))) table)))
  | TArray items => TArray (map (λ item, normalized_with_key_aliases item path) items)
  | _ => value
  end.

(** ** Special paths *)
Definition SHELL_POLICY : str := $"shell_environment_policy".
Definition ENABLED : str := $"enabled".

Inductive FilterRepresentation : Type := Filters | Legacy.
#[global] Instance FilterRepresentation_eq_dec : EqDecision FilterRepresentation.
Proof. solve_decision. Defined.

Definition from_policy (policy : TomlValue) : option FilterRepresentation :=
  policy ← as_table policy;
  if contains_key ($"filters") policy then Some Filters
  else if contains_key ($"exclude") policy || contains_key ($"include_only") policy then Some Legacy
  else None.

Definition from_path (path : list str) : option FilterRepresentation :=
  match path with
  | policy :: field :: _ =>
      if bool_decide (policy = SHELL_POLICY)
      then if bool_decide (field = $"filters") then Some Filters
           else if one_of [ $"exclude"; $"include_only"] field then Some Legacy
           else None
      else None
  | _ => None
  end.

Definition from_edit (path : list str) (value : TomlValue) : option FilterRepresentation :=
  if bool_decide (path = [SHELL_POLICY]) then from_policy value else from_path path.

Definition displaced_fields (r : FilterRepresentation) : list str :=
  match r with Filters => [ $"exclude"; $"include_only"] | Legacy => [ $"filters"] end.

Definition is_structured_feature (features feature : str) : bool :=
  bool_decide (features = $"features") && one_of [ $"multi_agent_v2"; $"network_proxy"; $"sleep_tool"] feature.

Definition is_structured_feature_path (path : list str) : bool :=
  match path with
  | [profiles; _; features; feature] =>
      bool_decide (profiles = $"profiles") && is_structured_feature features feature
  | [features; feature] => is_structured_feature features feature
  | _ => false
  end.

Definition is_shell_environment_filters_path (path : list str) : bool :=
  bool_decide (path = [SHELL_POLICY; $"filters"]).

Definition is_network_domains_path (path : list str) : bool :=
  match path with
  | [permissions; _; network; domains] =>
      bool_decide (permissions = $"permissions") && bool_decide (network = $"network") &&
      bool_decide (domains = $"domains")
  | [application; network; domains] =>
      bool_decide (application = $"application") && bool_decide (network = $"network") &&
      bool_decide (domains = $"domains")
  | _ => false
  end.

Definition normalize_network_domain_keys {A} (t : list (str * A)) : list (str * A) := rekey normalize_host t.

Definition replace_shell_environment_policy_filter_representation
    (base overlay : TomlValue) (path : list str) : TomlValue :=
  if bool_decide (path = [SHELL_POLICY]) then
    match from_policy overlay, base with
    | Some overlay_representation, TTable base =>
        TTable (foldl (λ base field, tm_remove field base) base (displaced_fields overlay_representation))
    | _, _ => base
    end
  else base.

(** The environment keys that give credential providers their context. *)
Definition credential_broker_provider_context_env_keys : list str := [ $"GH_HOST"; $"OPENAI_BASE_URL"].

(** ** Merging *)

(** The nesting of tables: how deep a merge of this overlay goes. *)
Fixpoint toml_depth (v : TomlValue) : nat :=
  match v with
  | TTable t => S (list_max (map (λ '(_, c), toml_depth c) t))
  | _ => 1
  end.

Section merge.
Context `{Lowercase} (windows : bool).

Definition normalize_case_insensitive_keys {A} (t : list (str * A)) : list (str * A) := rekey to_lowercase t.

(** The keys of a table that takes part in a merge at [path]. *)
Definition normalize_keys {A} (path : list str) (t : list (str * A)) : list (str * A) :=
  let t := normalize_key_aliases path t in
  let t := if is_network_domains_path path then normalize_network_domain_keys t else t in
  if is_shell_environment_filters_path path then normalize_case_insensitive_keys t else t.

(** On Windows, environment names differ in case only when they are the same
    variable: an overlay's context key removes its other spellings below. *)
Definition drop_other_spellings (path : list str) (overlay_table base_table : Table) : Table :=
  if windows && bool_decide (path = [SHELL_POLICY; $"set"]) then
    foldl (λ bt '(key, _),
      if existsb (eq_ignore_ascii_case key) credential_broker_provider_context_env_keys
      then List.filter (λ '(candidate, _), bool_decide (candidate = key) || negb (eq_ignore_ascii_case candidate key)) bt
      else bt) base_table overlay_table
  else base_table.

(** The loop over the overlay's entries; [merge] is the recursive call. *)
Definition merge_entries (merge : TomlValue → TomlValue → list str → TomlValue)
    (path : list str) (base_table overlay_table : Table) : Table :=
  foldl (λ base_table '(key, value),
    match tm_get key base_table with
    | Some existing => tm_insert key (merge existing value (path ++ [key])) base_table
    | None => tm_insert key (normalized_with_key_aliases value (path ++ [key])) base_table
    end) base_table overlay_table.

Definition merge_or_replace (merge : TomlValue → TomlValue → list str → TomlValue)
    (path : list str) (overlay base : TomlValue) : TomlValue :=
  match overlay, base with
  | TTable overlay_table, TTable base_table =>
      let overlay_table := normalize_keys path overlay_table in
      let base_table := drop_other_spellings path overlay_table (normalize_keys path base_table) in
      TTable (merge_entries merge path base_table overlay_table)
  | _, _ => normalized_with_key_aliases overlay path
  end.

Definition merge_body (merge : TomlValue → TomlValue → list str → TomlValue)
    (base overlay : TomlValue) (path : list str) : TomlValue :=
  let base := replace_shell_environment_policy_filter_representation base overlay path in
  if is_structured_feature_path path then
    match base, overlay with
    | TBoolean enabled, TTable _ => merge_or_replace merge path overlay (TTable [(ENABLED, TBoolean enabled)])
    | TTable table, TBoolean enabled => TTable (tm_insert ENABLED (TBoolean enabled) table)
    | _, _ => merge_or_replace merge path overlay base
    end
  else merge_or_replace merge path overlay base.

Fixpoint merge_at (fuel : nat) (base overlay : TomlValue) (path : list str) : TomlValue :=
  match fuel with
  | O => base
  | S fuel => merge_body (merge_at fuel) base overlay path
  end.

Definition merge_toml_values_at_path (base overlay : TomlValue) (path : list str) : TomlValue :=
  merge_at (toml_depth overlay) base overlay path.

Definition merge_toml_values (base overlay : TomlValue) : TomlValue :=
  merge_toml_values_at_path base overlay [].

Definition shell_environment_filter_entry (root : TomlValue) (path : list str) : option (str * TomlValue) :=
  match path with
  | [policy; filters; pattern] =>
      if bool_decide (policy = SHELL_POLICY) && bool_decide (filters = $"filters") then
        let pattern := to_lowercase pattern in
        p ← value_get root policy;
        f ← value_get p filters;
        t ← as_table f;
        find (λ '(candidate, _), bool_decide (to_lowercase candidate = pattern)) t
      else None
  | _ => None
  end.

(** ** Overrides *)
Definition default_empty_table : TomlValue := TTable [].

(** The last segment of an override. *)
Definition override_last (current : TomlValue) (traversed : list str) (segment : str) (value : TomlValue) : TomlValue :=
  match current with
  | TTable table =>
      match (if is_structured_feature_path traversed then tm_get segment table else None) with
      | Some existing =>
          match existing, value with
          | TTable feature, TBoolean enabled =>
              TTable (tm_insert segment (TTable (tm_insert ENABLED (TBoolean enabled) feature)) table)
          | TBoolean enabled, TTable _ =>
              TTable (tm_insert segment (merge_toml_values (TTable [(ENABLED, TBoolean enabled)]) value) table)
          | TTable _, TTable _ => TTable (tm_insert segment (merge_toml_values existing value) table)
          | _, _ => TTable (tm_insert segment value table)
          end
      | None => TTable (tm_insert segment value table)
      end
  | _ => TTable [(segment, value)]
  end.

(** A feature switch on the way to a deeper key becomes a table. *)
Definition open_feature (traversed : list str) (current : TomlValue) : TomlValue :=
  match current with
  | TBoolean enabled =>
      if is_structured_feature_path traversed then TTable [(ENABLED, TBoolean enabled)] else current
  | _ => current
  end.

Fixpoint override_at (current : TomlValue) (traversed segments : list str) (value : TomlValue) : TomlValue :=
  match segments with
  | [] => current
  | [segment] => override_last current (traversed ++ [segment]) segment value
  | segment :: rest =>
      let traversed := traversed ++ [segment] in
      match current with
      | TTable table =>
          let next := open_feature traversed (default (TTable []) (tm_get segment table)) in
          TTable (tm_insert segment (override_at next traversed rest value) table)
      | _ => TTable [(segment, override_at (TTable []) traversed rest value)]
      end
  end.

Definition apply_toml_override (root : TomlValue) (path : str) (value : TomlValue) : TomlValue :=
  override_at root [] (split_char DOT path) value.

Definition build_cli_overrides_layer (cli_overrides : list (str * TomlValue)) : TomlValue :=
  foldl (λ root '(path, value), apply_toml_override root path value) default_empty_table cli_overrides.
End merge.

(** The mapping restricted to ASCII text. *)
Program Definition ascii_lowercase : Lowercase := {| to_lowercase := to_ascii_lowercase |}.
Next Obligation. done. Qed.
Next Obligation.
  intros s. unfold to_ascii_lowercase. rewrite <-list_fmap_compose. apply list_fmap_ext. intros _ c _. cbn.
  destruct ((65 <=? c)%N && (c <=? 90)%N) eqn:E; cbn; [|by rewrite E].
  apply andb_true_iff in E as [?%N.leb_le ?%N.leb_le].
  replace (c + 32 <=? 90)%N with false; [by rewrite andb_false_r|symmetry; apply N.leb_gt; lia].
Qed.
