(* ===== verification/ConfigMergeSpec.v ===== *)
(** * What merging configuration values means

    A path into a document reads a setting. A document takes one of three
    positions on a path: it sets a value there, it hides what lower layers set
    (a table where they have a value, a value where they have a table), or it is
    silent. Merging is shown to be: the overlay's position if it takes one, the
    base's otherwise. *)

From stdpp Require Import prelude list gmap strings sorting.
From S2P Require Import Prelude NetAddr NetworkPolicy ConfigMerge.

(** ** Induction on values *)
Definition is_scalar (v : TomlValue) : bool :=
  match v with TArray _ | TTable _ => false | _ => true end.

Section toml_ind.
Variable P : TomlValue → Prop.
Hypothesis Hscalar : ∀ v, is_scalar v = true → P v.
Hypothesis Harray : ∀ items, Forall P items → P (TArray items).
Hypothesis Htable : ∀ t, Forall (λ e, P e.2) t → P (TTable t).

Fixpoint toml_rect (v : TomlValue) : P v :=
  match v with
  | TString s => Hscalar (TString s) eq_refl
  | TInteger z => Hscalar (TInteger z) eq_refl
  | TFloat f => Hscalar (TFloat f) eq_refl
  | TBoolean b => Hscalar (TBoolean b) eq_refl
  | TDatetime d => Hscalar (TDatetime d) eq_refl
  | TArray items =>
      Harray items ((fix go l : Forall P l :=
        match l with [] => Forall_nil_2 _ | x :: l => Forall_cons_2 _ _ _ (toml_rect x) (go l) end) items)
  | TTable t =>
      Htable t ((fix go l : Forall (λ e, P e.2) l :=
        match l with [] => Forall_nil_2 _ | x :: l => Forall_cons_2 (λ e, P e.2) x l (toml_rect x.2) (go l) end) t)
  end.
End toml_ind.

Ltac toml_induction v := induction v as [v Hv|items IH|t IH] using toml_rect.

(** Tables have distinct keys at every level. *)
Fixpoint well_formed (v : TomlValue) : bool :=
  match v with
  | TTable t => bool_decide (NoDup t.*1) && forallb (λ '(_, c), well_formed c) t
  | TArray items => forallb well_formed items
  | _ => true
  end.

Lemma well_formed_table t :
  well_formed (TTable t) = true ↔ NoDup t.*1 ∧ Forall (λ e, well_formed e.2 = true) t.
Proof.
  cbn. rewrite andb_true_iff, bool_decide_eq_true, forallb_forall, Forall_forall.
  split; intros [? H]; (split; [done|]).
  - intros [k c] Hin. apply (H (k, c)), list_elem_of_In, Hin.
  - intros [k c] Hin%list_elem_of_In. apply (H (k, c)), Hin.
Qed.
Lemma well_formed_array items :
  well_formed (TArray items) = true ↔ Forall (λ v, well_formed v = true) items.
Proof. cbn. rewrite forallb_forall, Forall_forall. by setoid_rewrite list_elem_of_In. Qed.

(** ** Maps *)
Section map_lemmas.
Context {A : Type}.
Implicit Types t : list (str * A).

Lemma get_insert k k' (v : A) t :
  tm_get k' (tm_insert k v t) = if bool_decide (k = k') then Some v else tm_get k' t.
Proof.
  induction t as [|[j w] t IH]; cbn; [done|].
  destruct (bool_decide (j = k)) eqn:E; cbn.
  - apply bool_decide_eq_true in E as ->. by destruct (bool_decide (k = k')).
  - rewrite IH. apply bool_decide_eq_false in E. repeat case_bool_decide; by simplify_eq.
Qed.

Lemma get_insert_eq k (v : A) t : tm_get k (tm_insert k v t) = Some v.
Proof. rewrite get_insert. by rewrite bool_decide_eq_true_2. Qed.
Lemma get_insert_ne k k' (v : A) t : k ≠ k' → tm_get k' (tm_insert k v t) = tm_get k' t.
Proof. intros ?. rewrite get_insert. by rewrite bool_decide_eq_false_2. Qed.

Lemma get_None k t : tm_get k t = None ↔ k ∉ t.*1.
Proof.
  induction t as [|[j w] t IH]; cbn; [split; [intros _; apply not_elem_of_nil|done]|].
  rewrite not_elem_of_cons. case_bool_decide; [naive_solver|]. rewrite IH. naive_solver.
Qed.

Lemma get_elem k (v : A) t : tm_get k t = Some v → (k, v) ∈ t.
Proof.
  induction t as [|[j w] t IH]; cbn; [done|]. case_bool_decide; [|intros; right; auto].
  intros [= <-]. subst. left.
Qed.

Lemma elem_get k (v : A) t : NoDup t.*1 → (k, v) ∈ t → tm_get k t = Some v.
Proof.
  induction t as [|[j w] t IH]; cbn; [by intros ? ?%not_elem_of_nil|]. rewrite NoDup_cons.
  intros [Hj Hd] [[= -> ->]|Hin]%elem_of_cons; [by rewrite bool_decide_eq_true_2|].
  rewrite bool_decide_eq_false_2; [auto|]. intros ->. apply Hj, list_elem_of_fmap. by exists (k, v).
Qed.

Lemma keys_insert k (v : A) t :
  (tm_insert k v t).*1 = if contains_key k t then t.*1 else t.*1 ++ [k].
Proof.
  unfold contains_key. induction t as [|[j w] t IH]; cbn; [done|].
  case_bool_decide; cbn; [done|]. rewrite IH. by destruct (tm_get k t).
Qed.

Lemma nodup_insert k (v : A) t : NoDup t.*1 → NoDup (tm_insert k v t).*1.
Proof.
  intros Hd. rewrite keys_insert. unfold contains_key. destruct (tm_get k t) eqn:E; [done|].
  apply get_None in E. apply NoDup_app. split_and!; [done| |apply NoDup_singleton].
  intros x Hx ->%list_elem_of_singleton. done.
Qed.

Lemma insert_elem k (v : A) t e : e ∈ tm_insert k v t → e = (k, v) ∨ e ∈ t.
Proof.
  induction t as [|[j w] t IH]; cbn; [rewrite list_elem_of_singleton; auto|].
  case_bool_decide as Hj; subst; rewrite !elem_of_cons; naive_solver.
Qed.

Lemma insert_app k (v : A) t : k ∉ t.*1 → tm_insert k v t = t ++ [(k, v)].
Proof.
  induction t as [|[j w] t IH]; cbn; [done|]. rewrite not_elem_of_cons. intros [Hk Hn].
  rewrite bool_decide_eq_false_2 by congruence. by rewrite IH.
Qed.

Lemma get_remove k k' t : tm_get k' (tm_remove k t) = if bool_decide (k = k') then None else tm_get k' t.
Proof.
  unfold tm_remove. induction t as [|[j w] t IH]; cbn; [by destruct (bool_decide (k = k'))|].
  destruct (bool_decide (j = k)) eqn:E; cbn; rewrite IH.
  - apply bool_decide_eq_true in E as ->. repeat case_bool_decide; by simplify_eq.
  - apply bool_decide_eq_false in E. repeat case_bool_decide; by simplify_eq.
Qed.

Lemma nodup_filter_keys (f : str * A → bool) t : NoDup t.*1 → NoDup (List.filter f t).*1.
Proof.
  induction t as [|[j w] t IH]; cbn; [done|]. rewrite NoDup_cons. intros [Hj Hd].
  destruct (f (j, w)); cbn; [|auto]. rewrite NoDup_cons. split; [|auto].
  intros ((k, v) & -> & Hin)%list_elem_of_fmap. apply elem_of_filterb in Hin as [Hin _].
  apply Hj, list_elem_of_fmap. by exists (k, v).
Qed.

Lemma from_iter_app (es : list (str * A)) k v : from_iter (es ++ [(k, v)]) = tm_insert k v (from_iter es).
Proof. unfold from_iter. by rewrite foldl_app. Qed.

Lemma from_iter_id t : NoDup t.*1 → from_iter t = t.
Proof.
  induction t as [|[k v] t IH] using rev_ind; [done|]. rewrite fmap_app, NoDup_app.
  intros (Hd & Hn & _). rewrite from_iter_app, IH by done. apply insert_app.
  intros Hin. apply (Hn k Hin). by left.
Qed.

Lemma nodup_from_iter (es : list (str * A)) : NoDup (from_iter es).*1.
Proof.
  induction es as [|[k v] es IH] using rev_ind; [apply NoDup_nil_2|].
  rewrite from_iter_app. by apply nodup_insert.
Qed.

Lemma from_iter_elem (es : list (str * A)) e : e ∈ from_iter es → e ∈ es.
Proof.
  induction es as [|[k v] es IH] using rev_ind; [done|]. rewrite from_iter_app, elem_of_app.
  intros [->|Hin]%insert_elem; [right; by left|left; auto].
Qed.
End map_lemmas.

Lemma get_fmap {A B} (f : str → A → B) k (t : list (str * A)) :
  tm_get k ((λ '(j, v), (j, f j v)) <$> t) = f k <$> tm_get k t.
Proof. induction t as [|[j w] t IH]; cbn; [done|]. case_bool_decide; by subst. Qed.

Lemma keys_fmap {A B} (f : str → A → B) (t : list (str * A)) : ((λ '(j, v), (j, f j v)) <$> t).*1 = t.*1.
Proof. induction t as [|[j w] t IH]; cbn; [done|]. by rewrite IH. Qed.

(** ** Aliases *)
Definition alias_of (path : list str) : option (str * str) :=
  if bool_decide (path = [ $"memories"])
  then Some ($"no_memories_if_mcp_or_web_search", $"disable_on_external_context")
  else if bool_decide (path = [ $"agents"])
  then Some ($"max_threads", $"max_concurrent_threads_per_session")
  else None.

Lemma alias_of_ne path l c : alias_of path = Some (l, c) → l ≠ c.
Proof. unfold alias_of. repeat case_bool_decide; intros [= <- <-]; by vm_compute. Qed.

Lemma normalize_key_aliases_eq {A} path (t : list (str * A)) :
  normalize_key_aliases path t =
  match alias_of path with Some (l, c) => rename_key l c t | None => t end.
Proof.
  unfold normalize_key_aliases, alias_of. cbn [CONFIG_KEY_ALIASES foldl table_path legacy_key canonical_key].
  destruct (bool_decide (path = [ $"memories"])) eqn:E; [|by destruct (bool_decide (path = [ $"agents"]))].
  apply bool_decide_eq_true in E as ->.
  by rewrite (bool_decide_eq_false_2 ([ $"memories"] = [ $"agents"])) by by vm_compute.
Qed.

(** What a renamed table answers. *)
Lemma get_rename {A} l c k (t : list (str * A)) : l ≠ c →
  tm_get k (rename_key l c t) =
  if bool_decide (k = l) then None
  else if bool_decide (k = c) then match tm_get c t with Some v => Some v | None => tm_get l t end
  else tm_get k t.
Proof.
  intros Hlc. unfold rename_key, or_insert, contains_key. destruct (tm_get l t) as [v|] eqn:Hl.
  - rewrite get_remove, bool_decide_eq_false_2 by done. destruct (tm_get c t) as [w|] eqn:Hc.
    + rewrite get_remove. repeat case_bool_decide; by simplify_eq.
    + rewrite get_insert, get_remove. repeat case_bool_decide; by simplify_eq.
  - repeat case_bool_decide; subst; try done. by destruct (tm_get c t).
Qed.

Lemma rename_elem {A} l c (t : list (str * A)) k v :
  (k, v) ∈ rename_key l c t → ∃ j, (j, v) ∈ t.
Proof.
  unfold rename_key, or_insert. destruct (tm_get l t) as [w|] eqn:Hl; [|eauto].
  assert (∀ e, e ∈ tm_remove l t → e ∈ t) as Hr by (intros e; unfold tm_remove; rewrite elem_of_filterb; tauto).
  destruct (contains_key c _); [eauto|]. intros [[= -> ->]|Hin]%insert_elem; [|eauto].
  apply get_elem in Hl. eauto.
Qed.

Lemma nodup_rename {A} l c (t : list (str * A)) : NoDup t.*1 → NoDup (rename_key l c t).*1.
Proof.
  intros Hd. unfold rename_key, or_insert. destruct (tm_get l t); [|done].
  destruct (contains_key c _); [|apply nodup_insert]; by apply nodup_filter_keys.
Qed.

Lemma rename_id {A} l c (t : list (str * A)) : tm_get l t = None → rename_key l c t = t.
Proof. unfold rename_key. by intros ->. Qed.

Lemma nodup_aliases {A} path (t : list (str * A)) : NoDup t.*1 → NoDup (normalize_key_aliases path t).*1.
Proof. rewrite normalize_key_aliases_eq. destruct (alias_of path) as [[]|]; auto using nodup_rename. Qed.
Lemma aliases_elem {A} path (t : list (str * A)) k v :
  (k, v) ∈ normalize_key_aliases path t → ∃ j, (j, v) ∈ t.
Proof. rewrite normalize_key_aliases_eq. destruct (alias_of path) as [[]|]; eauto using rename_elem. Qed.

(** Nothing at or below an inert path has an alias. *)
Definition inert (path : list str) : Prop := path ≠ [] ∧ alias_of path = None.

Lemma inert_child path k : path ≠ [] → inert (path ++ [k]).
Proof.
  intros Hp. split; [by destruct path|]. unfold alias_of.
  rewrite !bool_decide_eq_false_2; [done|..]; destruct path as [|? []]; naive_solver.
Qed.

Lemma normalized_inert v path : inert path → well_formed v = true → normalized_with_key_aliases v path = v.
Proof.
  revert path. toml_induction v; intros path Hp Hw.
  - by destruct v.
  - apply well_formed_array in Hw. cbn. f_equal. rewrite <-(list_fmap_id items) at 2.
    apply list_fmap_ext. intros i x Hx. rewrite Forall_lookup in IH, Hw. cbn. eauto.
  - apply well_formed_table in Hw as [Hd Hw]. cbn [normalized_with_key_aliases].
    assert (map (λ '(key, child), (key, normalized_with_key_aliases child (path ++ [key]))) t = t) as ->.
    { rewrite <-(list_fmap_id t) at 2. apply list_fmap_ext. intros i [k c] Hx.
      rewrite Forall_lookup in IH, Hw. cbn. f_equal. apply (IH i _ Hx); [|by apply (Hw i (k, c))].
      apply inert_child, Hp. }
    rewrite from_iter_id, normalize_key_aliases_eq by done. by rewrite (proj2 Hp).
Qed.

(** Off the root, normalising a table only renames its own keys. *)
Lemma normalized_table t path : path ≠ [] → well_formed (TTable t) = true →
  normalized_with_key_aliases (TTable t) path = TTable (normalize_key_aliases path t).
Proof.
  intros Hp [Hd Hw]%well_formed_table. cbn [normalized_with_key_aliases].
  assert (map (λ '(key, child), (key, normalized_with_key_aliases child (path ++ [key]))) t = t) as ->.
  { rewrite <-(list_fmap_id t) at 2. apply list_fmap_ext. intros i [k c] Hx. rewrite Forall_lookup in Hw.
    cbn. f_equal. apply normalized_inert; [by apply inert_child|by apply (Hw i (k, c))]. }
  by rewrite from_iter_id.
Qed.

Lemma well_formed_elem t k v : well_formed (TTable t) = true → (k, v) ∈ t → well_formed v = true.
Proof. intros [_ Hw]%well_formed_table Hin. rewrite Forall_forall in Hw. by apply (Hw (k, v)). Qed.

Lemma well_formed_get t k v : well_formed (TTable t) = true → tm_get k t = Some v → well_formed v = true.
Proof. eauto using well_formed_elem, get_elem. Qed.

Lemma well_formed_aliases t path : well_formed (TTable t) = true →
  well_formed (TTable (normalize_key_aliases path t)) = true.
Proof.
  intros Hw. apply well_formed_table. split; [apply nodup_aliases, (well_formed_table t), Hw|].
  apply Forall_forall. intros [k v] [j Hin]%aliases_elem. eapply well_formed_elem; eauto.
Qed.

Lemma normalized_wf v path : well_formed v = true → well_formed (normalized_with_key_aliases v path) = true.
Proof.
  revert path. toml_induction v; intros path Hw.
  - by destruct v.
  - apply well_formed_array. apply well_formed_array in Hw. apply Forall_fmap.
    rewrite Forall_forall in *. intros x Hx. cbn. auto.
  - cbn [normalized_with_key_aliases]. apply well_formed_aliases, well_formed_table.
    split; [apply nodup_from_iter|]. apply Forall_forall. intros e He%from_iter_elem.
    apply list_elem_of_fmap in He as ([k c] & -> & Hin). rewrite Forall_forall in IH. cbn.
    apply (IH _ Hin). by eapply well_formed_elem.
Qed.

(** Renaming twice changes nothing more. *)
Lemma aliases_idemp {A} path (t : list (str * A)) :
  normalize_key_aliases path (normalize_key_aliases path t) = normalize_key_aliases path t.
Proof.
  rewrite !normalize_key_aliases_eq. destruct (alias_of path) as [[l c]|] eqn:E; [|done].
  apply rename_id. rewrite get_rename by by eapply alias_of_ne. by rewrite bool_decide_eq_true_2.
Qed.

Lemma normalized_idemp v path : path ≠ [] → well_formed v = true →
  normalized_with_key_aliases (normalized_with_key_aliases v path) path = normalized_with_key_aliases v path.
Proof.
  intros Hp. toml_induction v; intros Hw.
  - by destruct v.
  - apply well_formed_array in Hw. cbn. f_equal.
    change (@map ?A ?B) with (@fmap list _ A B). rewrite <-list_fmap_compose. apply list_fmap_ext.
    intros i x Hx. rewrite Forall_lookup in IH, Hw. cbn. eauto.
  - rewrite (normalized_table t) by done. rewrite normalized_table by eauto using well_formed_aliases.
    by rewrite aliases_idemp.
Qed.

(** ** The equations of merging *)
Section merge.
Context `{Lowercase} (windows : bool).
Notation merge := (merge_toml_values_at_path windows).

Lemma rekey_elem {A} (f : str → str) (t : list (str * A)) k v : (k, v) ∈ rekey f t → ∃ j, (j, v) ∈ t.
Proof. intros ([j w] & [= -> ->] & Hin)%from_iter_elem%list_elem_of_fmap. eauto. Qed.

Lemma normalize_keys_elem {A} path (t : list (str * A)) k v : (k, v) ∈ normalize_keys path t → ∃ j, (j, v) ∈ t.
Proof.
  unfold normalize_keys, normalize_case_insensitive_keys, normalize_network_domain_keys.
  destruct (is_shell_environment_filters_path path), (is_network_domains_path path); intros Hin;
    repeat (apply rekey_elem in Hin as [? Hin]); by eapply aliases_elem.
Qed.

Lemma nodup_normalize_keys {A} path (t : list (str * A)) : NoDup t.*1 → NoDup (normalize_keys path t).*1.
Proof.
  intros Hd. unfold normalize_keys, normalize_case_insensitive_keys, normalize_network_domain_keys, rekey.
  destruct (is_shell_environment_filters_path path), (is_network_domains_path path);
    auto using nodup_from_iter, nodup_aliases.
Qed.

Lemma well_formed_normalize_keys path t : well_formed (TTable t) = true →
  well_formed (TTable (normalize_keys path t)) = true.
Proof.
  intros Hw. apply well_formed_table. split; [apply nodup_normalize_keys, (well_formed_table t), Hw|].
  apply Forall_forall. intros [k v] [j Hin]%normalize_keys_elem. by eapply well_formed_elem.
Qed.

Lemma toml_depth_elem t k v : (k, v) ∈ t → toml_depth v < toml_depth (TTable t).
Proof.
  intros Hin. cbn. apply Nat.lt_succ_r.
  assert (Forall (λ n, n ≤ list_max (map (λ '(_, c), toml_depth c) t)) (map (λ '(_, c), toml_depth c) t)) as Hm
    by (apply list_max_le; done).
  rewrite Forall_forall in Hm. apply Hm, list_elem_of_fmap. by exists (k, v).
Qed.

Lemma foldl_ext_elem {A B} (f g : A → B → A) l a :
  (∀ a x, x ∈ l → f a x = g a x) → foldl f a l = foldl g a l.
Proof.
  revert a. induction l as [|x l IH]; intros a Hfg; cbn; [done|].
  rewrite Hfg by left. apply IH. intros. apply Hfg. by right.
Qed.

(** A merge calls itself on the overlay's children only. *)
Lemma merge_body_ext m1 m2 b o path :
  (∀ e v p, toml_depth v < toml_depth o → m1 e v p = m2 e v p) →
  merge_body windows m1 b o path = merge_body windows m2 b o path.
Proof.
  intros Hm. unfold merge_body.
  assert (∀ base, merge_or_replace windows m1 path o base = merge_or_replace windows m2 path o base) as Hr.
  { intros base. unfold merge_or_replace. destruct o as [| | | | | |ot]; try done.
    destruct base as [| | | | | |bt]; try done. f_equal. apply foldl_ext_elem.
    intros acc [k v] [j Hin]%normalize_keys_elem. apply toml_depth_elem in Hin. cbv beta iota. destruct (tm_get k acc); [|done]. by rewrite Hm. }
  destruct (is_structured_feature_path path); [|by rewrite Hr].
  destruct (replace_shell_environment_policy_filter_representation b o path), o; rewrite ?Hr; done.
Qed.

(** Fuel beyond the depth of the overlay changes nothing. *)
Lemma merge_at_fuel f g b o path : toml_depth o ≤ f → toml_depth o ≤ g →
  merge_at windows f b o path = merge_at windows g b o path.
Proof.
  revert g b o path. induction f as [|f IH]; intros g b o path Hf Hg; [destruct o; cbn in Hf; lia|].
  destruct g as [|g]; [destruct o; cbn in Hg; lia|]. cbn [merge_at]. apply merge_body_ext.
  intros e v p Hv. apply IH; lia.
Qed.

Lemma merge_eq b o path : merge b o path = merge_body windows merge b o path.
Proof.
  unfold merge_toml_values_at_path at 1. destruct (toml_depth o) as [|n] eqn:Hn; [by destruct o|].
  cbn [merge_at]. apply merge_body_ext. intros e v p Hv. apply merge_at_fuel; lia.
Qed.

Lemma get_merge_entries path bt ot k : NoDup ot.*1 →
  tm_get k (merge_entries merge path bt ot) =
  match tm_get k ot with
  | Some v => Some match tm_get k bt with
                   | Some e => merge e v (path ++ [k])
                   | None => normalized_with_key_aliases v (path ++ [k])
                   end
  | None => tm_get k bt
  end.
Proof.
  unfold merge_entries. revert bt. induction ot as [|[j w] ot IH]; intros bt; cbn [tm_get foldl]; [done|].
  cbn. rewrite NoDup_cons. intros [Hj Hd]. rewrite IH by done. case_bool_decide as Hk.
  - subst j. apply get_None in Hj. rewrite Hj. destruct (tm_get k bt); by rewrite get_insert_eq.
  - destruct (tm_get j bt); by rewrite get_insert_ne.
Qed.

Lemma nodup_merge_entries path bt ot : NoDup bt.*1 → NoDup (merge_entries merge path bt ot).*1.
Proof.
  unfold merge_entries. revert bt. induction ot as [|[j w] ot IH]; intros bt Hd; cbn; [done|].
  apply IH. destruct (tm_get j bt); by apply nodup_insert.
Qed.

(** ** Well-formedness *)
Lemma drop_other_spellings_elem path ot bt e : e ∈ drop_other_spellings windows path ot bt → e ∈ bt.
Proof.
  unfold drop_other_spellings. destruct (windows && bool_decide (path = [SHELL_POLICY; $"set"])); [|done]. revert bt.
  induction ot as [|[k v] ot IH]; intros bt; cbn [foldl]; [done|]. intros He%IH.
  destruct (existsb (eq_ignore_ascii_case k) credential_broker_provider_context_env_keys); [|done].
  by apply elem_of_filterb in He as [He _].
Qed.

Lemma nodup_drop_other_spellings path ot bt : NoDup bt.*1 → NoDup (drop_other_spellings windows path ot bt).*1.
Proof.
  unfold drop_other_spellings. destruct (windows && bool_decide (path = [SHELL_POLICY; $"set"])); [|done]. revert bt.
  induction ot as [|[k v] ot IH]; intros bt Hd; cbn [foldl]; [done|]. apply IH.
  destruct (existsb (eq_ignore_ascii_case k) credential_broker_provider_context_env_keys); [|done].
  by apply nodup_filter_keys.
Qed.

Lemma well_formed_insert k v t : well_formed (TTable t) = true → well_formed v = true →
  well_formed (TTable (tm_insert k v t)) = true.
Proof.
  intros [Hd Hw]%well_formed_table Hv. apply well_formed_table. split; [by apply nodup_insert|].
  rewrite Forall_forall in *. intros e [->|He]%insert_elem; [done|auto].
Qed.

Lemma well_formed_incl t t' : well_formed (TTable t) = true → NoDup t'.*1 → (∀ e, e ∈ t' → e ∈ t) →
  well_formed (TTable t') = true.
Proof.
  intros [Hd Hw]%well_formed_table Hd' Hin. apply well_formed_table. split; [done|].
  rewrite Forall_forall in *. auto.
Qed.

Lemma well_formed_displaced b o path : well_formed b = true →
  well_formed (replace_shell_environment_policy_filter_representation b o path) = true.
Proof.
  intros Hb. unfold replace_shell_environment_policy_filter_representation.
  destruct (bool_decide (path = [SHELL_POLICY])); [|done]. destruct (from_policy o) as [r|]; [|done].
  destruct b as [| | | | | |bt]; try done. revert bt Hb.
  induction (displaced_fields r) as [|f fs IH]; intros bt Hb; cbn [foldl]; [done|]. apply IH.
  eapply well_formed_incl; [done|apply nodup_filter_keys, (well_formed_table bt), Hb|].
  intros e. unfold tm_remove. rewrite elem_of_filterb. tauto.
Qed.

Lemma merge_entries_wf m path bt ot :
  well_formed (TTable bt) = true →
  (∀ k v, (k, v) ∈ ot → well_formed v = true ∧ ∀ e p, well_formed e = true → well_formed (m e v p) = true) →
  well_formed (TTable (merge_entries m path bt ot)) = true.
Proof.
  unfold merge_entries. revert bt. induction ot as [|[k v] ot IH]; intros bt Hb Ho; cbn [foldl]; [done|].
  destruct (Ho k v) as [Hv Hm]; [left|]. apply IH; [|intros k' v' ?; apply (Ho k' v'); by right].
  destruct (tm_get k bt) eqn:E; apply well_formed_insert; eauto using normalized_wf, well_formed_get.
Qed.

Lemma merge_wf b o path : well_formed b = true → well_formed o = true → well_formed (merge b o path) = true.
Proof.
  remember (toml_depth o) as n eqn:Hn. revert b o path Hn.
  induction n as [n IH] using (well_founded_induction lt_wf); intros b o path -> Hb Ho.
  rewrite merge_eq. unfold merge_body. apply (well_formed_displaced b o path) in Hb.
  generalize dependent (replace_shell_environment_policy_filter_representation b o path). intros base Hb.
  assert (∀ base, well_formed base = true → well_formed (merge_or_replace windows merge path o base) = true) as Hr.
  { clear base Hb. intros base Hb. unfold merge_or_replace.
    destruct o as [| | | | | |ot]; try by apply normalized_wf. destruct base as [| | | | | |bt]; try by apply normalized_wf.
    apply (well_formed_normalize_keys path) in Hb. apply merge_entries_wf.
    - eapply well_formed_incl; [exact Hb|apply nodup_drop_other_spellings, (well_formed_table _), Hb|].
      eauto using drop_other_spellings_elem.
    - intros k v [j Hj]%normalize_keys_elem. pose proof (well_formed_elem _ _ _ Ho Hj).
      split; [done|]. intros e p He. eapply IH; eauto using toml_depth_elem. }
  destruct (is_structured_feature_path path); [|auto]. destruct base, o; auto.
  by apply well_formed_insert.
Qed.

Lemma merge_is_table b o path : is_table b = true → is_table o = true → is_table (merge b o path) = true.
Proof.
  intros Hb Ho. rewrite merge_eq. unfold merge_body. destruct o as [| | | | | |ot]; try done.
  assert (is_table (replace_shell_environment_policy_filter_representation b (TTable ot) path) = true) as Hr.
  { unfold replace_shell_environment_policy_filter_representation. destruct (bool_decide (path = [SHELL_POLICY])); [|done].
    destruct (from_policy (TTable ot)), b; done. }
  destruct (replace_shell_environment_policy_filter_representation b (TTable ot) path); try done.
  by destruct (is_structured_feature_path path).
Qed.
End merge.

(** ** Positions on a path *)
Inductive Position : Type :=
| Sets (v : TomlValue)
| Hides
| Silent.

Fixpoint position (v : TomlValue) (p : list str) : Position :=
  match p, v with
  | [], TTable _ => Hides
  | [], _ => Sets v
  | k :: p, TTable t => match tm_get k t with Some c => position c p | None => Silent end
  | _ :: _, _ => Hides
  end.

Definition setting (v : TomlValue) (p : list str) : option TomlValue :=
  match position v p with Sets x => Some x | _ => None end.

(** A position above a setting. *)
Definition over (below : option TomlValue) (d : Position) : option TomlValue :=
  match d with Sets v => Some v | Hides => None | Silent => below end.

(** A document with its legacy keys renamed and its feature switches spelled as
    tables: [features.network_proxy = true] says [features.network_proxy.enabled]. *)
Fixpoint canonical (v : TomlValue) (path : list str) : TomlValue :=
  match v with
  | TBoolean _ => if is_structured_feature_path path then TTable [(ENABLED, v)] else v
  | TArray _ => normalized_with_key_aliases v path
  | TTable t => TTable (normalize_key_aliases path (map (λ '(k, c), (k, canonical c (path ++ [k]))) t))
  | _ => v
  end.

(** The table a value stands for at a path. *)
Definition view (path : list str) (v : TomlValue) : option Table :=
  match v with
  | TTable t => Some t
  | TBoolean _ => if is_structured_feature_path path then Some [(ENABLED, v)] else None
  | _ => None
  end.

(** A table whose keys keep their spelling in a merge. *)
Definition plain_node (path : list str) : bool :=
  negb (bool_decide (head path = Some SHELL_POLICY)) && negb (is_network_domains_path path).

(** A path that does not pass through the shell-environment policy or a table of domains. *)
Definition ordinary (p : list str) : bool := forallb (λ n, plain_node (take n p)) (seq 0 (S (length p))).

Lemma ordinary_prefix p q : ordinary p = true → q `prefix_of` p → plain_node q = true.
Proof.
  unfold ordinary. rewrite forallb_forall. intros Hp [r ->]. specialize (Hp (length q)).
  rewrite take_app_length in Hp. apply Hp, in_seq. rewrite length_app. lia.
Qed.

Lemma structured_cases path : is_structured_feature_path path = true →
  (∃ f, path = [ $"features"; f]) ∨ (∃ x f, path = [ $"profiles"; x; $"features"; f]).
Proof.
  unfold is_structured_feature_path, is_structured_feature.
  destruct path as [|a [|b [|c [|d []]]]]; try done.
  - intros [->%bool_decide_eq_true _]%andb_true_iff. eauto.
  - intros [->%bool_decide_eq_true [->%bool_decide_eq_true _]%andb_true_iff]%andb_true_iff. eauto.
Qed.

Lemma structured_no_alias path : is_structured_feature_path path = true → alias_of path = None.
Proof. intros [[f ->]|(x & f & ->)]%structured_cases; done. Qed.

Lemma structured_child path k : is_structured_feature_path path = true →
  is_structured_feature_path (path ++ [k]) = false.
Proof. intros [[f ->]|(x & f & ->)]%structured_cases; done. Qed.

(** Under the tables with aliases there are no feature switches. *)
Lemma alias_child_unstructured path a k q : alias_of path = Some a →
  is_structured_feature_path ((path ++ [k]) ++ q) = false.
Proof.
  unfold alias_of. intros Ha. assert (path = [ $"memories"] ∨ path = [ $"agents"]) as [->| ->].
  { repeat case_bool_decide; naive_solver. }
  all: destruct q as [|b [|c []]]; done.
Qed.

Lemma canonical_id v path : (∀ q, is_structured_feature_path (path ++ q) = false) → inert path →
  well_formed v = true → canonical v path = v.
Proof.
  revert path. toml_induction v; intros path Hs Hp Hw.
  - destruct v; try done. cbn. specialize (Hs []). rewrite app_nil_r in Hs. by rewrite Hs.
  - by apply normalized_inert.
  - apply well_formed_table in Hw as [Hd Hw]. cbn [canonical].
    rewrite normalize_key_aliases_eq, (proj2 Hp). f_equal.
    rewrite <-(list_fmap_id t) at 2. apply list_fmap_ext. intros i [k c] Hx.
    rewrite Forall_lookup in IH, Hw. cbn. f_equal. apply (IH i _ Hx); [|apply inert_child, Hp|by apply (Hw i (k, c))].
    intros q. rewrite <-app_assoc. apply Hs.
Qed.

Lemma get_canonical path t k : well_formed (TTable t) = true →
  value_get (canonical (TTable t) path) k =
  (λ c, canonical c (path ++ [k])) <$> tm_get k (normalize_key_aliases path t).
Proof.
  intros Hw. cbn [canonical value_get]. change (@map ?A ?B) with (@fmap list _ A B).
  rewrite !normalize_key_aliases_eq. destruct (alias_of path) as [[l c]|] eqn:Ha;
    [|by rewrite (get_fmap (λ k c, canonical c (path ++ [k])))].
  pose proof (alias_of_ne _ _ _ Ha). rewrite !get_rename by done.
  rewrite !(get_fmap (λ k c, canonical c (path ++ [k]))).
  case_bool_decide; [done|]. case_bool_decide as Hk; [subst k|done].
  destruct (tm_get c t) as [w|]; [done|]. cbn. destruct (tm_get l t) as [w|] eqn:Hl; [|done]. cbn.
  assert (path ≠ []) by by intros ->.
  rewrite !canonical_id; eauto using inert_child, alias_child_unstructured, well_formed_get.
Qed.

Lemma canonical_view path v t : view path v = Some t → canonical v path = canonical (TTable t) path.
Proof.
  destruct v; cbn [view]; try done; [|by intros [= <-]].
  destruct (is_structured_feature_path path) eqn:Hs; [|done]. intros [= <-]. cbn [canonical map].
  rewrite Hs, structured_child, normalize_key_aliases_eq by done. by rewrite structured_no_alias.
Qed.

Lemma canonical_no_view path v : view path v = None → is_table (canonical v path) = false.
Proof. destruct v; cbn; try done. by destruct (is_structured_feature_path path). Qed.

Lemma canonical_normalized path v : path ≠ [] → well_formed v = true →
  canonical (normalized_with_key_aliases v path) path = canonical v path.
Proof.
  intros Hp Hw. destruct v as [| | | | |items|t]; try done.
  - exact (normalized_idemp (TArray items) path Hp Hw).
  - rewrite normalized_table by done. cbn [canonical]. f_equal. change (@map ?A ?B) with (@fmap list _ A B).
    rewrite !normalize_key_aliases_eq. destruct (alias_of path) as [[l c]|] eqn:Ha; [|done].
    assert (∀ t, well_formed (TTable t) = true → (λ '(k, c), (k, canonical c (path ++ [k]))) <$> t = t) as Hid.
    { intros t' [_ Hw']%well_formed_table. rewrite <-(list_fmap_id t') at 2. apply list_fmap_ext. intros i [k w] Hx.
      cbn. rewrite Forall_lookup in Hw'. rewrite canonical_id; [done|..];
        eauto using alias_child_unstructured, inert_child. apply (Hw' i (k, w) Hx). }
    assert (rename_key l c t = normalize_key_aliases path t) as Ht by (by rewrite normalize_key_aliases_eq, Ha).
    rewrite !Hid; [|done|by rewrite Ht; apply well_formed_aliases].
    apply rename_id. rewrite get_rename by by eapply alias_of_ne. by rewrite bool_decide_eq_true_2.
Qed.

(** ** Merging and positions *)
Section positions.
Context `{Lowercase} (windows : bool).
Notation merge := (merge_toml_values_at_path windows).

Lemma plain_not_shell path : plain_node path = true → head path ≠ Some SHELL_POLICY.
Proof. intros [Hs%negb_true_iff _]%andb_true_iff. by apply bool_decide_eq_false in Hs. Qed.

Lemma plain_displaced b o path : plain_node path = true →
  replace_shell_environment_policy_filter_representation b o path = b.
Proof.
  intros Hp%plain_not_shell. unfold replace_shell_environment_policy_filter_representation.
  rewrite bool_decide_eq_false_2; [done|]. by intros ->.
Qed.

Lemma plain_normalize_keys {A} path (t : list (str * A)) : plain_node path = true →
  normalize_keys path t = normalize_key_aliases path t.
Proof.
  intros Hp. pose proof (plain_not_shell _ Hp) as Hs. apply andb_true_iff in Hp as [_ Hd%negb_true_iff].
  unfold normalize_keys, is_shell_environment_filters_path. rewrite Hd, bool_decide_eq_false_2; [done|]. by intros ->.
Qed.

Lemma plain_spellings path ot bt : plain_node path = true → drop_other_spellings windows path ot bt = bt.
Proof.
  intros Hp%plain_not_shell. unfold drop_other_spellings.
  rewrite (bool_decide_eq_false_2 (path = _)); [by rewrite andb_false_r|]. by intros ->.
Qed.

Lemma merge_scalar_boolean e x path : is_structured_feature_path path = false → plain_node path = true →
  merge e (TBoolean x) path = TBoolean x.
Proof. intros Hs Hp. rewrite merge_eq. unfold merge_body. by rewrite plain_displaced, Hs. Qed.

(** Where either side is not a table, the overlay replaces the base. *)
Lemma merge_replaces b o path : plain_node path = true →
  view path b = None ∨ view path o = None → merge b o path = normalized_with_key_aliases o path.
Proof.
  intros Hp Hv. rewrite merge_eq. unfold merge_body. rewrite plain_displaced by done. cbv zeta.
  destruct (is_structured_feature_path path) eqn:Hs.
  - destruct b, o; cbn in Hv; rewrite ?Hs in Hv; cbn [merge_or_replace]; destruct Hv; done.
  - destruct b, o; cbn in Hv; rewrite ?Hs in Hv; cbn [merge_or_replace]; destruct Hv; done.
Qed.

(** Where both sides stand for tables, their entries are merged. *)
Lemma merge_views b o path bt ot : plain_node path = true →
  (is_structured_feature_path path = true → plain_node (path ++ [ENABLED]) = true) →
  view path b = Some bt → view path o = Some ot →
  canonical (merge b o path) path =
  canonical (TTable (merge_entries merge path (normalize_key_aliases path bt) (normalize_key_aliases path ot))) path.
Proof.
  intros Hp He Hb Ho. rewrite merge_eq. unfold merge_body, merge_or_replace. rewrite plain_displaced by done. cbv zeta.
  destruct b as [| | |b| | |bt']; cbn [view] in Hb; try done;
    destruct o as [| | |o| | |ot']; cbn [view] in Ho; try done;
    destruct (is_structured_feature_path path) eqn:Hs; simplify_eq;
    rewrite ?plain_spellings, ?plain_normalize_keys by done; try done.
  - pose proof (structured_child _ ENABLED Hs).
    rewrite !normalize_key_aliases_eq, !structured_no_alias by done. cbn [merge_entries foldl tm_get].
    rewrite bool_decide_eq_true_2 by done. rewrite merge_scalar_boolean by auto. cbn [tm_insert].
    rewrite bool_decide_eq_true_2 by done. apply canonical_view. cbn [view normalized_with_key_aliases]. by rewrite Hs.
  - pose proof (structured_child _ ENABLED Hs).
    rewrite !normalize_key_aliases_eq, !structured_no_alias by done. cbn [merge_entries foldl].
    destruct (tm_get ENABLED bt); [|done]. by rewrite merge_scalar_boolean by auto.
Qed.

Lemma merge_root bt ot :
  merge_toml_values windows (TTable bt) (TTable ot) = TTable (merge_entries merge [] bt ot).
Proof.
  unfold merge_toml_values. rewrite merge_eq. unfold merge_body, merge_or_replace.
  by rewrite plain_displaced, plain_spellings, !plain_normalize_keys, !normalize_key_aliases_eq by done.
Qed.

(** A merged table has no legacy keys left. *)
Lemma aliases_merged path bt ot : NoDup ot.*1 →
  normalize_key_aliases path (merge_entries merge path (normalize_key_aliases path bt) (normalize_key_aliases path ot)) =
  merge_entries merge path (normalize_key_aliases path bt) (normalize_key_aliases path ot).
Proof.
  intros Hd. pose proof (nodup_aliases path ot Hd) as Hd'. revert Hd'.
  rewrite !normalize_key_aliases_eq. destruct (alias_of path) as [[l c]|] eqn:Ha; [|done]. intros Hd'.
  pose proof (alias_of_ne _ _ _ Ha) as Hlc. apply rename_id. rewrite get_merge_entries by done.
  rewrite !get_rename by done. by rewrite bool_decide_eq_true_2.
Qed.

Lemma position_value_get v k p : is_table v = true →
  position v (k :: p) = match value_get v k with Some c => position c p | None => Silent end.
Proof. by destruct v. Qed.

Lemma setting_over below v p : below = None → setting v p = over below (position v p).
Proof. intros ->. unfold setting. by destruct (position v p). Qed.

Lemma structured_child_plain path k : is_structured_feature_path path = true → plain_node (path ++ [k]) = true.
Proof. intros [[f ->]|(x & f & ->)]%structured_cases; done. Qed.

(** The positions of a merge of tables, key by key. *)
Lemma setting_entries path bt ot k p :
  well_formed (TTable bt) = true → well_formed (TTable ot) = true →
  (∀ e v, well_formed e = true → well_formed v = true →
    setting (canonical (merge e v (path ++ [k])) (path ++ [k])) p =
    over (setting (canonical e (path ++ [k])) p) (position (canonical v (path ++ [k])) p)) →
  setting (canonical (TTable (merge_entries merge path (normalize_key_aliases path bt) (normalize_key_aliases path ot))) path) (k :: p) =
  over (setting (canonical (TTable bt) path) (k :: p)) (position (canonical (TTable ot) path) (k :: p)).
Proof.
  intros Hb Ho Hm. pose proof (proj1 (well_formed_table ot) Ho) as [Hod _].
  assert (well_formed (TTable (merge_entries merge path (normalize_key_aliases path bt) (normalize_key_aliases path ot))) = true) as Hw.
  { apply merge_entries_wf; [by apply well_formed_aliases|]. intros j v [i Hin]%aliases_elem.
    pose proof (well_formed_elem _ _ _ Ho Hin). split; [done|]. intros. by apply merge_wf. }
  unfold setting. rewrite !position_value_get by done. rewrite !get_canonical by done.
  rewrite aliases_merged by done. rewrite get_merge_entries by by apply nodup_aliases.
  destruct (tm_get k (normalize_key_aliases path ot)) as [v|] eqn:Hv, (tm_get k (normalize_key_aliases path bt)) as [e|] eqn:He;
    cbn [fmap option_fmap option_map over]; try done.
  - apply Hm; [by apply (well_formed_get _ _ _ (well_formed_aliases _ path Hb) He)|].
    by apply (well_formed_get _ _ _ (well_formed_aliases _ path Ho) Hv).
  - rewrite canonical_normalized; [|by destruct path|].
    + by destruct (position (canonical v (path ++ [k])) p).
    + by apply (well_formed_get _ _ _ (well_formed_aliases _ path Ho) Hv).
Qed.

(** A document that replaces another is never silent below a value. *)
Lemma setting_replaced path b o p : view path b = None ∨ view path o = None →
  setting (canonical o path) p = over (setting (canonical b path) p) (position (canonical o path) p).
Proof.
  intros Hv. unfold setting at 1. destruct (position (canonical o path) p) eqn:Ho; cbn; try done.
  destruct p as [|k p]; [by destruct (canonical o path)|].
  destruct Hv as [Hv|Hv]; apply canonical_no_view in Hv; [|by destruct (canonical o path)].
  unfold setting. by destruct (canonical b path).
Qed.

Lemma view_wf path v t : view path v = Some t → well_formed v = true → well_formed (TTable t) = true.
Proof.
  destruct v; cbn [view]; try done; [|by intros [= <-]]. by destruct (is_structured_feature_path path); intros [= <-].
Qed.

(** Below the root: the overlay's position where it takes one, the base's setting otherwise. *)
Lemma setting_merge_at p path b o :
  path ≠ [] → (∀ q, q `prefix_of` p → plain_node (path ++ q) = true) →
  well_formed b = true → well_formed o = true →
  setting (canonical (merge b o path) path) p = over (setting (canonical b path) p) (position (canonical o path) p).
Proof.
  revert path b o. induction p as [|k p IH]; intros path b o Hp Hq Hb Ho.
  all: assert (plain_node path = true) as Hn by (rewrite <-(app_nil_r path); apply Hq, prefix_nil).
  all: destruct (view path b) as [bt|] eqn:Vb; [destruct (view path o) as [ot|] eqn:Vo|].
  all: try (rewrite merge_replaces, canonical_normalized by auto; apply setting_replaced; by auto).
  all: rewrite (merge_views _ _ _ bt ot) by eauto using structured_child_plain.
  all: rewrite (canonical_view _ _ _ Vb), (canonical_view _ _ _ Vo).
  { done. }
  apply setting_entries; [by eapply view_wf|by eapply view_wf|]. intros e v He Hv.
  apply IH; [by destruct path| |done|done]. intros q Hpre. rewrite <-app_assoc. by apply Hq, prefix_cons.
Qed.

Lemma setting_merge p b o : ordinary p = true →
  is_table b = true → is_table o = true → well_formed b = true → well_formed o = true →
  setting (canonical (merge_toml_values windows b o) []) p =
  over (setting (canonical b []) p) (position (canonical o []) p).
Proof.
  intros Hp Tb To Hb Ho. destruct b as [| | | | | |bt]; try done. destruct o as [| | | | | |ot]; try done.
  unfold merge_toml_values. rewrite (merge_views _ _ [] bt ot) by done.
  destruct p as [|k p]; [done|]. apply setting_entries; [done..|]. intros e v He Hv.
  apply setting_merge_at; [done| |done|done]. intros q Hq. eapply ordinary_prefix; [done|].
  by apply prefix_cons.
Qed.

(** ** Layers *)

(** What a sequence of documents, the lowest first, says of a path: the last
    position that is not silence. *)
Definition resolve (docs : list TomlValue) (p : list str) : option TomlValue :=
  foldl (λ below doc, over below (position (canonical doc []) p)) None docs.

Definition document (v : TomlValue) : bool := is_table v && well_formed v.

Lemma merge_document b o : document b = true → document o = true → document (merge_toml_values windows b o) = true.
Proof.
  unfold document, merge_toml_values. intros [? ?]%andb_true_iff [? ?]%andb_true_iff. apply andb_true_iff.
  split; [by apply merge_is_table|by apply merge_wf].
Qed.

Lemma setting_merge_all docs base p : ordinary p = true →
  document base = true → Forall (λ d, document d = true) docs →
  setting (canonical (foldl (merge_toml_values windows) base docs) []) p =
  foldl (λ below doc, over below (position (canonical doc []) p)) (setting (canonical base []) p) docs.
Proof.
  intros Hp. revert base. induction docs as [|d docs IH]; intros base Hb Hd; cbn [foldl]; [done|].
  apply Forall_cons in Hd as [Hd Hds]. rewrite IH by auto using merge_document. f_equal.
  apply andb_true_iff in Hb as [? ?], Hd as [? ?]. by apply setting_merge.
Qed.

(** ** Legacy keys and plain roots *)

(** No document of the fold keeps a legacy key. *)
Definition legacy_free (v : TomlValue) : Prop :=
  ∀ root l c t, alias_of [root] = Some (l, c) → value_get v root = Some (TTable t) → tm_get l t = None.

Lemma alias_root root a : alias_of [root] = Some a →
  plain_node [root] = true ∧ is_structured_feature_path [root] = false.
Proof.
  unfold alias_of. intros Ha. split; [|done].
  assert (root = $"memories" ∨ root = $"agents") as [->| ->]; [|done..].
  destruct (bool_decide ([root] = [ $"memories"])) eqn:E; [apply bool_decide_eq_true in E; naive_solver|].
  destruct (bool_decide ([root] = [ $"agents"])) eqn:E'; [apply bool_decide_eq_true in E'; naive_solver|done].
Qed.

Lemma aliases_no_legacy {A} path l c (t : list (str * A)) : alias_of path = Some (l, c) →
  tm_get l (normalize_key_aliases path t) = None.
Proof.
  intros Ha. rewrite normalize_key_aliases_eq, Ha, get_rename by by eapply alias_of_ne.
  by rewrite bool_decide_eq_true_2.
Qed.

Lemma merge_legacy_free b o : is_table b = true → document o = true → legacy_free b →
  legacy_free (merge_toml_values windows b o).
Proof.
  intros Tb [To Hw]%andb_true_iff Hb. destruct b as [| | | | | |bt]; try done. destruct o as [| | | | | |ot]; try done.
  rewrite merge_root. intros root l c t Ha. cbn [value_get]. pose proof (proj1 (well_formed_table _) Hw) as [Hd _].
  destruct (alias_root _ _ Ha) as [Hpn Hst]. rewrite get_merge_entries by done. cbn [app].
  destruct (tm_get root ot) as [v|] eqn:Hv; [|by apply (Hb root l c)].
  pose proof (well_formed_get _ _ _ Hw Hv) as Hwv.
  assert (normalized_with_key_aliases v [root] = TTable t → tm_get l t = None) as Hn.
  { destruct v; try done. rewrite normalized_table by done. intros [= <-]. by eapply aliases_no_legacy. }
  destruct (tm_get root bt) as [e|] eqn:He; [|intros [= Hx]; auto].
  destruct (view [root] e) as [et|] eqn:Ve; [|rewrite merge_replaces by auto; intros [= Hx]; auto].
  destruct (view [root] v) as [vt|] eqn:Vv; [|rewrite merge_replaces by auto; intros [= Hx]; auto].
  destruct e; cbn in Ve; try done. destruct v; cbn in Vv; try done. simplify_eq.
  rewrite merge_eq. unfold merge_body, merge_or_replace. rewrite plain_displaced, Hst, plain_spellings by done.
  rewrite !plain_normalize_keys by done. intros [= <-].
  rewrite get_merge_entries by (apply nodup_aliases, (well_formed_table vt), Hwv).
  by rewrite !(aliases_no_legacy [root] l c) by done.
Qed.

(** The top-level keys under which nothing is renamed or spelled in two ways. *)
Definition plain_root (k : str) : bool := negb (one_of [ $"features"; $"profiles"; $"memories"; $"agents"] k).

Lemma plain_root_inert k : plain_root k = true → inert [k] ∧ ∀ q, is_structured_feature_path ([k] ++ q) = false.
Proof.
  unfold plain_root. intros Hk%negb_true_iff. split; [split; [done|]|].
  - unfold alias_of. rewrite !bool_decide_eq_false_2; [done|..]; intros [= ->]; done.
  - assert (k ≠ $"features" ∧ k ≠ $"profiles") as [Hf Hp] by (split; intros ->; done).
    intros [|a [|b [|c []]]]; try done; cbn; unfold is_structured_feature;
      by rewrite bool_decide_eq_false_2.
Qed.

Lemma setting_plain v k p : document v = true → plain_root k = true → setting (canonical v []) (k :: p) = setting v (k :: p).
Proof.
  intros [Tv Hw]%andb_true_iff [Hi Hs]%plain_root_inert. destruct v as [| | | | | |t]; try done.
  unfold setting. rewrite position_value_get, get_canonical by done. cbn [position value_get app].
  change (normalize_key_aliases [] t) with t. destruct (tm_get k t) as [c|] eqn:Hc; cbn; [|done].
  by rewrite canonical_id by eauto using well_formed_get.
Qed.
End positions.
