(* ===== verification/ConfigLayers.v ===== *)
(** * Configuration layers: [config/src/state.rs], [config_layer_source.rs], [fingerprint.rs],
    [shell_environment_policy.rs] and [constraint.rs]

    A stack lists the layers a session loaded, from the lowest precedence to the
    highest. Building it validates the layers and their order; the effective
    configuration is the merge of the enabled layers, and the origins say which
    layer a field came from. A user layer can be replaced or copied from another
    stack. Values that requirements restrict carry their validator. *)

From stdpp Require Import prelude list gmap strings sorting.
From S2P Require Import Prelude NetAddr NetworkPolicy ConfigMerge.

(** ** Paths

    [AbsolutePathBuf] is a normalised absolute path; here the list of its
    components, the root being the empty list ([Path] on Unix). *)
Notation AbsolutePath := (list str).

Definition path_parent (p : AbsolutePath) : option AbsolutePath :=
  match p with [] => None | _ => Some (removelast p) end.

(** [Path::ancestors]: the path itself, its parent, and so on to the root. *)
Definition ancestors (p : AbsolutePath) : list AbsolutePath :=
  (λ n, take (length p - n) p) <$> seq 0 (S (length p)).

Definition path_display (p : AbsolutePath) : str := $"/" ++ join ($"/") p.

(** ** Sources *)
Inductive ConfigLayerSource : Type :=
| PackagedDefaults (file : AbsolutePath)
| Mdm (domain key : str)
| System (file : AbsolutePath)
| EnterpriseManaged (id name : str)
| User (file : AbsolutePath) (profile : option str)
| Project (dot_codex_folder : AbsolutePath)
| SessionFlags
| LegacyManagedConfigTomlFromFile (file : AbsolutePath)
| LegacyManagedConfigTomlFromMdm.

#[global] Instance ConfigLayerSource_eq_dec : EqDecision ConfigLayerSource.
Proof. solve_decision. Defined.

Definition precedence (s : ConfigLayerSource) : Z :=
  match s with
  | PackagedDefaults _ => -10
  | Mdm _ _ => 0
  | System _ => 10
  | EnterpriseManaged _ _ => 15
  | User _ profile => match profile with Some _ => 21 | None => 20 end
  | Project _ => 25
  | SessionFlags => 30
  | LegacyManagedConfigTomlFromFile _ => 40
  | LegacyManagedConfigTomlFromMdm => 50
  end%Z.

Definition is_user (s : ConfigLayerSource) : bool := match s with User _ _ => true | _ => false end.

Definition format_config_layer_source (source : ConfigLayerSource) (config_toml_file : str) : str :=
  match source with
  | PackagedDefaults file => $"packaged defaults (" ++ path_display file ++ $")"
  | Mdm domain key => $"MDM (" ++ domain ++ $":" ++ key ++ $")"
  | System file => $"system (" ++ path_display file ++ $")"
  | EnterpriseManaged id name => $"enterprise-managed (" ++ name ++ $", " ++ id ++ $")"
  | User file _ => $"user (" ++ path_display file ++ $")"
  | Project folder => $"project (" ++ path_display folder ++ $"/" ++ config_toml_file ++ $")"
  | SessionFlags => $"session-flags"
  | LegacyManagedConfigTomlFromFile file => $"legacy managed_config.toml (" ++ path_display file ++ $")"
  | LegacyManagedConfigTomlFromMdm => $"legacy managed_config.toml (MDM)"
  end.

Definition CONFIG_TOML_FILE : str := $"config.toml".

(** ** Validating the shell-environment filters *)
Inductive FilterError : Type :=
| WrongType (field : str)
| MixedRepresentations
| DuplicateFilter (pattern : str).

Definition is_string (v : TomlValue) : bool := match v with TString _ => true | _ => false end.
Definition is_string_array (v : TomlValue) : bool :=
  match v with TArray items => forallb is_string items | _ => false end.

Section layers.
Context `{Lowercase} (windows : bool).

(** Whether a value deserialises to [include] or [exclude] (the [toml] package). *)
Context (is_filter_action : TomlValue → bool).
(** What the derived visitor answers for a document that is not a table. *)
Context (accepts_root : TomlValue → bool).

(** The keys of a [BTreeMap]: sorted. *)
Definition sorted_keys {A} (t : list (str * A)) : list str := merge_sort str_le t.*1.

(** The first pattern, in the order of the keys, whose lower-case spelling was seen before. *)
Fixpoint duplicate_pattern (seen patterns : list str) : option str :=
  match patterns with
  | [] => None
  | pattern :: rest =>
      if bool_decide (to_lowercase pattern ∈ seen) then Some pattern
      else duplicate_pattern (to_lowercase pattern :: seen) rest
  end.

(** A field that may be absent and must satisfy a test when present. *)
Definition check_field (policy : Table) (field : str) (test : TomlValue → bool) : result FilterError () :=
  match tm_get field policy with
  | Some v => if test v then Ok () else Err (WrongType field)
  | None => Ok ()
  end.

Definition is_filter_table (v : TomlValue) : bool :=
  match v with TTable t => forallb (λ '(_, action), is_filter_action action) t | _ => false end.

(** [ShellEnvironmentPolicyToml::deserialize] on the filter fields of a policy. *)
Definition deserialize_filter_fields (policy : Table) : result FilterError () :=
  let? _ := check_field policy ($"exclude") is_string_array in
  let? _ := check_field policy ($"include_only") is_string_array in
  let? _ := check_field policy ($"filters") is_filter_table in
  if contains_key ($"filters") policy &&
     (contains_key ($"exclude") policy || contains_key ($"include_only") policy)
  then Err MixedRepresentations
  else match tm_get ($"filters") policy with
       | Some (TTable filters) =>
           match duplicate_pattern [] (sorted_keys filters) with
           | Some pattern => Err (DuplicateFilter pattern)
           | None => Ok ()
           end
       | _ => Ok ()
       end.

Definition validate_shell_environment_policy_filter_config (value : TomlValue) : result FilterError () :=
  match value with
  | TTable root =>
      match tm_get SHELL_POLICY root with
      | Some (TTable policy) => deserialize_filter_fields policy
      | _ => Ok ()
      end
  | _ => if accepts_root value then Ok () else Err (WrongType [])
  end.

(** ** Entries *)
Record ConfigLayerMetadata := mkMetadata {
  meta_name : ConfigLayerSource;
  meta_version : str;
}.

Record RawTomlLayer := mkRawToml { contents : str; base_dir : AbsolutePath }.

Record ConfigLayerEntry := mkLayer {
  layer_name : ConfigLayerSource;
  layer_config : TomlValue;
  layer_version : str;
  disabled_reason : option str;
  raw_toml : option RawTomlLayer;
  hooks_config_folder_override : option AbsolutePath;
}.

(** The fingerprint of a document: a hash of its JSON rendering. *)
Context (version_for_toml : TomlValue → str).

Definition entry_new (name : ConfigLayerSource) (config : TomlValue) : ConfigLayerEntry :=
  mkLayer name config (version_for_toml config) None None None.
Definition entry_new_with_raw_toml (name : ConfigLayerSource) (config : TomlValue) (raw : str)
    (raw_base_dir : AbsolutePath) : ConfigLayerEntry :=
  mkLayer name config (version_for_toml config) None (Some (mkRawToml raw raw_base_dir)) None.
Definition entry_new_disabled (name : ConfigLayerSource) (config : TomlValue) (reason : str) : ConfigLayerEntry :=
  mkLayer name config (version_for_toml config) (Some reason) None None.

Definition is_disabled (l : ConfigLayerEntry) : bool := bool_decide (is_Some (disabled_reason l)).
Definition with_hooks_config_folder_override (l : ConfigLayerEntry) (o : option AbsolutePath) : ConfigLayerEntry :=
  mkLayer (layer_name l) (layer_config l) (layer_version l) (disabled_reason l) (raw_toml l) o.
Definition metadata (l : ConfigLayerEntry) : ConfigLayerMetadata := mkMetadata (layer_name l) (layer_version l).

Definition config_folder (l : ConfigLayerEntry) : option AbsolutePath :=
  match layer_name l with
  | System file | User file _ => path_parent file
  | Project dot_codex_folder => Some dot_codex_folder
  | _ => None
  end.
Definition hooks_config_folder (l : ConfigLayerEntry) : option AbsolutePath :=
  match hooks_config_folder_override l with Some f => Some f | None => config_folder l end.

(** ** Stacks *)

(** The requirements travel with the stack; they are another component's data. *)
Context {Requirements : Type}.

Record ConfigLayerStack := mkStack {
  layers : list ConfigLayerEntry;
  requirements : Requirements;
  ignore_user_and_project_exec_policy_rules : bool;
  startup_warnings : option (list str);
}.

Inductive StackError : Type :=
| InvalidShellPolicy (layer : str) (error : FilterError)
| WrongPrecedenceOrder
| ProjectWithoutParent
| ProjectsNotRootToCwd.

Fixpoint validate_enabled_config_layers (ls : list ConfigLayerEntry) : result StackError () :=
  match ls with
  | [] => Ok ()
  | l :: ls =>
      if is_disabled l then validate_enabled_config_layers ls
      else match validate_shell_environment_policy_filter_config (layer_config l) with
           | Err e => Err (InvalidShellPolicy (format_config_layer_source (layer_name l) CONFIG_TOML_FILE) e)
           | Ok _ => validate_enabled_config_layers ls
           end
  end.

(** [is_sorted] of the names, compared by precedence. *)
Fixpoint is_sorted (ls : list ConfigLayerEntry) : bool :=
  match ls with
  | a :: (b :: _) as rest => (precedence (layer_name a) <=? precedence (layer_name b))%Z && is_sorted rest
  | _ => true
  end.

(** Project layers go from the root to the working directory. *)
Fixpoint verify_projects (previous : option AbsolutePath) (ls : list ConfigLayerEntry) : result StackError () :=
  match ls with
  | [] => Ok ()
  | l :: ls =>
      match layer_name l with
      | Project current =>
          let? _ :=
            match previous with
            | None => Ok ()
            | Some previous =>
                match path_parent previous with
                | None => Err ProjectWithoutParent
                | Some parent =>
                    if bool_decide (previous = current) || negb (bool_decide (parent ∈ ancestors current))
                    then Err ProjectsNotRootToCwd else Ok ()
                end
            end in
          verify_projects (Some current) ls
      | _ => verify_projects previous ls
      end
  end.

Definition verify_layer_ordering (ls : list ConfigLayerEntry) : result StackError () :=
  if is_sorted ls then verify_projects None ls else Err WrongPrecedenceOrder.

Definition stack_new (ls : list ConfigLayerEntry) (req : Requirements) : result StackError ConfigLayerStack :=
  let? _ := validate_enabled_config_layers ls in
  let? _ := verify_layer_ordering ls in
  Ok (mkStack ls req false None).

Definition with_layers (s : ConfigLayerStack) (ls : list ConfigLayerEntry) : ConfigLayerStack :=
  mkStack ls (requirements s) (ignore_user_and_project_exec_policy_rules s) (startup_warnings s).
Definition with_user_and_project_exec_policy_rules_ignored (s : ConfigLayerStack) (ignored : bool) : ConfigLayerStack :=
  mkStack (layers s) (requirements s) ignored (startup_warnings s).
Definition with_startup_warnings (s : ConfigLayerStack) (warnings : list str) : ConfigLayerStack :=
  mkStack (layers s) (requirements s) (ignore_user_and_project_exec_policy_rules s) (Some warnings).

Definition all_layers_low_to_high (s : ConfigLayerStack) : list ConfigLayerEntry := layers s.
Definition layers_low_to_high (s : ConfigLayerStack) : list ConfigLayerEntry :=
  List.filter (λ l, negb (is_disabled l)) (all_layers_low_to_high s).
Definition layers_high_to_low (s : ConfigLayerStack) : list ConfigLayerEntry := reverse (layers_low_to_high s).
Definition all_layers_high_to_low (s : ConfigLayerStack) : list ConfigLayerEntry := reverse (all_layers_low_to_high s).

Definition get_active_user_layer (s : ConfigLayerStack) : option ConfigLayerEntry :=
  find (λ l, is_user (layer_name l)) (reverse (layers s)).
Definition get_user_config_file (s : ConfigLayerStack) : option AbsolutePath :=
  l ← get_active_user_layer s;
  match layer_name l with User file _ => Some file | _ => None end.

Definition effective_config (s : ConfigLayerStack) : TomlValue :=
  foldl (λ merged l, merge_toml_values windows merged (layer_config l)) (TTable []) (layers_low_to_high s).
Definition effective_user_config (s : ConfigLayerStack) : option TomlValue :=
  let user_layers := List.filter (λ l, is_user (layer_name l)) (layers_low_to_high s) in
  if is_empty user_layers then None
  else Some (foldl (λ merged l, merge_toml_values windows merged (layer_config l)) (TTable []) user_layers).

(** ** Replacing user layers *)

(** Before the first layer of a higher precedence. *)
Fixpoint insert_layer (l : ConfigLayerEntry) (ls : list ConfigLayerEntry) : list ConfigLayerEntry :=
  match ls with
  | [] => [l]
  | x :: ls' =>
      if (precedence (layer_name l) <? precedence (layer_name x))%Z then l :: ls else x :: insert_layer l ls'
  end.

Definition is_user_file (file : AbsolutePath) (l : ConfigLayerEntry) : bool :=
  match layer_name l with User f _ => bool_decide (f = file) | _ => false end.

Fixpoint remove_first (test : ConfigLayerEntry → bool) (ls : list ConfigLayerEntry) : list ConfigLayerEntry :=
  match ls with
  | [] => []
  | x :: ls => if test x then ls else x :: remove_first test ls
  end.

Definition with_user_config_profile (s : ConfigLayerStack) (config_toml : AbsolutePath) (profile : option str)
    (user_config : TomlValue) : result StackError ConfigLayerStack :=
  let user_layer := entry_new (User config_toml profile) user_config in
  let? _ := validate_enabled_config_layers [user_layer] in
  Ok (with_layers s (insert_layer user_layer (remove_first (is_user_file config_toml) (layers s)))).

(** [ProfileV2Name::from_str]. *)
Definition is_profile_name_char (c : char) : bool :=
  is_ascii_alphabetic c || is_ascii_digit c || N.eqb c 95 || N.eqb c 45.
Definition parse_profile_name (value : str) : option str :=
  if is_empty value || negb (forallb is_profile_name_char value) then None else Some value.

Definition profile_of_file (s : ConfigLayerStack) (config_toml : AbsolutePath) : option str :=
  find_map (λ l,
    match layer_name l with
    | User file profile => if bool_decide (file = config_toml) then profile ≫= parse_profile_name else None
    | _ => None
    end) (layers s).

Definition with_user_config (s : ConfigLayerStack) (config_toml : AbsolutePath) (user_config : TomlValue)
    : result StackError ConfigLayerStack :=
  with_user_config_profile s config_toml (profile_of_file s config_toml) user_config.

Definition with_user_layer_from (s other : ConfigLayerStack) : ConfigLayerStack :=
  let user_layers := List.filter (λ l, is_user (layer_name l)) (layers other) in
  let others := List.filter (λ l, negb (is_user (layer_name l))) (layers s) in
  with_layers s (foldl (λ ls l, insert_layer l ls) others user_layers).

(** ** Origins *)
Notation Origins := (gmap str ConfigLayerMetadata).
Definition dotted (path : list str) : str := join [DOT] path.

Fixpoint record_origins (value : TomlValue) (meta : ConfigLayerMetadata) (path : list str) (origins : Origins) : Origins :=
  match value with
  | TTable table =>
      (fix go (t : Table) (origins : Origins) : Origins :=
        match t with
        | [] => origins
        | (key, val) :: t => go t (record_origins val meta (path ++ [key]) origins)
        end) table origins
  | TArray items =>
      (fix go (items : list TomlValue) (idx : nat) (origins : Origins) : Origins :=
        match items with
        | [] => origins
        | item :: items => go items (S idx) (record_origins item meta (path ++ [fmt_nat idx]) origins)
        end) items 0 origins
  | _ =>
      if is_empty path then origins
      else match value with
           | TBoolean _ =>
               if is_structured_feature_path path then
                 let origins :=
                   if bool_decide (last path = Some ($"network_proxy")) then <[dotted path := meta]> origins else origins in
                 <[dotted (path ++ [ENABLED]) := meta]> origins
               else <[dotted path := meta]> origins
           | _ => <[dotted path := meta]> origins
           end
  end.

Definition origins (s : ConfigLayerStack) : Origins :=
  foldl (λ origins l, record_origins (normalized_with_key_aliases (layer_config l) []) (metadata l) [] origins)
    ∅ (layers_low_to_high s).
End layers.

(** ** Fingerprints *)
Inductive JsonValue : Type :=
| JNull
| JBool (b : bool)
| JNumber (text : str)
| JString (s : str)
| JArray (items : list JsonValue)
| JObject (map : list (str * JsonValue)).

(** A copy of a value with the keys of every object inserted in sorted order. *)
Fixpoint canonical_json (value : JsonValue) : JsonValue :=
  match value with
  | JObject map => 
      let canonical := List.map (λ '(k, v), (k, canonical_json v)) map in
      JObject (foldl (λ sorted key,
        match tm_get key canonical with Some val => tm_insert key val sorted | None => sorted end)
        [] (sorted_keys map))
  | JArray items => JArray (List.map canonical_json items)
  | _ => value
  end.

(** [to_value], [to_vec] and [sha256_hex] are the packages [serde_json] and [sha2]. *)
Definition version_for_toml (to_value : TomlValue → option JsonValue) (to_vec : JsonValue → option (list N))
    (sha256_hex : list N → str) (value : TomlValue) : str :=
  let json := default JNull (to_value value) in
  let serialized := default [] (to_vec (canonical_json json)) in
  $"sha256:" ++ sha256_hex serialized.

(** ** Constrained values *)
Record Constrained (E T : Type) := mkConstrained {
  value : T;
  validator : T → result E ();
  normalizer : option (T → T);
}.
Arguments mkConstrained {E T}.
Arguments value {E T}.
Arguments validator {E T}.
Arguments normalizer {E T}.

Section constrained.
Context {E T : Type}.
Implicit Types c : Constrained E T.

Definition constrained_new (initial : T) (validator : T → result E ()) : result E (Constrained E T) :=
  let? _ := validator initial in
  Ok (mkConstrained initial validator None).

Definition constrained_normalized (initial : T) (normalizer : T → T) : result E (Constrained E T) :=
  let validator := λ _ : T, Ok () in
  let normalized := normalizer initial in
  let? _ := validator normalized in
  Ok (mkConstrained normalized validator (Some normalizer)).

Definition allow_any (initial : T) : Constrained E T := mkConstrained initial (λ _, Ok ()) None.

Definition allow_only `{EqDecision T} (invalid_value : T → E) (only : T) : Constrained E T :=
  mkConstrained only (λ candidate, if bool_decide (candidate = only) then Ok () else Err (invalid_value candidate)) None.

Definition can_set c (candidate : T) : result E () := validator c candidate.

(** The constraint after a call, and what the call answered. *)
Definition add_validator c (extra : T → result E ()) : Constrained E T * result E () :=
  let combined := λ candidate, let? _ := validator c candidate in extra candidate in
  match combined (value c) with
  | Err e => (c, Err e)
  | Ok _ => (mkConstrained (value c) combined (normalizer c), Ok ())
  end.

Definition set c (v : T) : Constrained E T * result E () :=
  let v := match normalizer c with Some normalizer => normalizer v | None => v end in
  match validator c v with
  | Err e => (c, Err e)
  | Ok _ => (mkConstrained v (validator c) (normalizer c), Ok ())
  end.
End constrained.
