(* ===== verification/ConfigShellSpec.v ===== *)
(** * The shell-environment policy under merging

    A policy selects its variables either by keyed filters or by the legacy
    arrays, never by both, and a filter pattern occurs once up to case. Merging
    two valid policies gives a valid policy, so the validation of each layer
    carries over to the effective configuration. *)

From stdpp Require Import prelude list gmap strings sorting.
From S2P Require Import Prelude NetAddr NetworkPolicy ConfigMerge ConfigMergeSpec ConfigLayers.

Section shell.
Context `{Lowercase} (windows : bool) (is_filter_action accepts_root : TomlValue → bool).
Notation merge := (merge_toml_values_at_path windows).
Notation FILTERS := ($"filters").
Notation EXCLUDE := ($"exclude").
Notation INCLUDE := ($"include_only").

(** A valid table of filters; no entry is itself a table. *)
Definition filters_ok (v : TomlValue) : Prop :=
  ∃ t, v = TTable t ∧ Forall (λ e, is_filter_action e.2 = true ∧ is_table e.2 = false) t ∧
       NoDup (to_lowercase <$> t.*1).

Record policy_ok (t : Table) : Prop := {
  ok_exclude v : tm_get EXCLUDE t = Some v → is_string_array v = true;
  ok_include v : tm_get INCLUDE t = Some v → is_string_array v = true;
  ok_filters v : tm_get FILTERS t = Some v → filters_ok v;
  ok_exclusive : is_Some (tm_get FILTERS t) → tm_get EXCLUDE t = None ∧ tm_get INCLUDE t = None;
}.

(** The entries of the filters are not tables. *)
Definition scalar_filters (v : TomlValue) : bool :=
  match value_get v SHELL_POLICY with
  | Some policy =>
      match value_get policy FILTERS with
      | Some (TTable t) => forallb (λ '(_, action), negb (is_table action)) t
      | _ => true
      end
  | None => true
  end.

Lemma duplicate_pattern_None seen ps :
  duplicate_pattern seen ps = None ↔ NoDup (to_lowercase <$> ps) ∧ ∀ p, p ∈ ps → to_lowercase p ∉ seen.
Proof.
  revert seen. induction ps as [|p ps IH]; intros seen; cbn.
  { split; [|done]. intros _. split; [constructor|by intros ? ?%not_elem_of_nil]. }
  case_bool_decide as Hp.
  { split; [done|]. intros [_ Hs]. destruct (Hs p); [left|done]. }
  rewrite IH, NoDup_cons. split.
  - intros [Hd Hs]. split_and!; [|done|].
    + intros (q & Hq & Hin)%list_elem_of_fmap. apply (Hs q Hin). rewrite <-Hq. left.
    + intros q [->|Hin]%elem_of_cons; [done|]. intros Hc. apply (Hs q Hin). by right.
  - intros [[Hn Hd] Hs]. split; [done|]. intros q Hin [Hq|Hc]%elem_of_cons.
    + apply Hn. rewrite <-Hq. by apply list_elem_of_fmap_2.
    + apply (Hs q); [by right|done].
Qed.

Lemma no_duplicates (t : Table) :
  duplicate_pattern [] (sorted_keys t) = None ↔ NoDup (to_lowercase <$> t.*1).
Proof.
  rewrite duplicate_pattern_None. unfold sorted_keys. rewrite merge_sort_Permutation. split; [by intros []|].
  intros ?. split; [done|]. intros ? _. apply not_elem_of_nil.
Qed.

Lemma check_field_Ok t f test : check_field t f test = Ok () ↔ ∀ v, tm_get f t = Some v → test v = true.
Proof.
  unfold check_field. destruct (tm_get f t) as [v|]; [|by split]. destruct (test v) eqn:E; split; try done.
  - by intros _ w [= <-].
  - intros Hv. by rewrite (Hv v eq_refl) in E.
Qed.

Lemma rbind_unit_Ok {E} (m : result E ()) k : (let? _ := m in k) = Ok () ↔ m = Ok () ∧ k = Ok ().
Proof. destruct m as [[]|]; cbn; naive_solver. Qed.

Lemma policy_ok_spec t :
  deserialize_filter_fields is_filter_action t = Ok () ∧
  (∀ f, tm_get FILTERS t = Some (TTable f) → forallb (λ '(_, action), negb (is_table action)) f = true) ↔
  policy_ok t.
Proof.
  unfold deserialize_filter_fields. rewrite !rbind_unit_Ok, !check_field_Ok. unfold contains_key.
  split.
  - intros [(He & Hi & Hf & Hx) Hs]. split; [done|done| |].
    + intros v Hv. specialize (Hf v Hv). rewrite Hv in Hx. cbn [andb] in Hx. destruct v as [| | | | | |f]; try done.
      exists f. split; [done|]. assert (duplicate_pattern [] (sorted_keys f) = None) as Hd
        by (destruct (tm_get EXCLUDE t), (tm_get INCLUDE t), (duplicate_pattern [] (sorted_keys f)); done).
      apply no_duplicates in Hd. split; [|done].
      specialize (Hs f Hv). cbn in Hf. rewrite forallb_forall in Hf, Hs. apply Forall_forall. intros [k a] Hin.
      apply list_elem_of_In in Hin. split; [apply (Hf _ Hin)|apply negb_true_iff, (Hs _ Hin)].
    + intros [v Hv]. rewrite Hv in Hx. cbn [andb] in Hx. by destruct (tm_get EXCLUDE t), (tm_get INCLUDE t).
  - intros [He Hi Hf Hx]. split_and!; [done|done| | |].
    + intros v (f & -> & Hfs & _)%Hf. cbn. apply forallb_forall. intros [k a] Hin%list_elem_of_In.
      rewrite Forall_forall in Hfs. apply (Hfs _ Hin).
    + destruct (tm_get FILTERS t) as [v|] eqn:Hv; [|done]. destruct Hx as [-> ->]; [done|]. cbn.
      destruct (Hf v eq_refl) as (f & -> & _ & Hd%no_duplicates). by rewrite Hd.
    + intros f Hv. destruct (Hf _ Hv) as (f' & [= <-] & Hfs & _). apply forallb_forall. intros [k a] Hin%list_elem_of_In.
      rewrite Forall_forall in Hfs. apply negb_true_iff, (Hfs _ Hin).
Qed.

(** ** Merging *)
Lemma merge_non_table b o path : is_table o = false → is_structured_feature_path path = false →
  merge b o path = normalized_with_key_aliases o path.
Proof.
  intros Ho Hs. rewrite merge_eq. unfold merge_body, merge_or_replace. rewrite Hs. by destruct o.
Qed.

Lemma shell_inert p : inert (SHELL_POLICY :: p).
Proof. split; [done|]. by destruct p. Qed.

Lemma shell_unstructured p : is_structured_feature_path (SHELL_POLICY :: p) = false.
Proof. by destruct p as [|? [|? [|? []]]]. Qed.

(** A value that is not a table replaces what was there. *)
Lemma merge_shell_leaf b o p : is_table o = false → well_formed o = true → merge b o (SHELL_POLICY :: p) = o.
Proof.
  intros Ho Hw. rewrite merge_non_table by auto using shell_unstructured.
  apply normalized_inert; [apply shell_inert|done].
Qed.

Lemma merge_shell_onto_leaf b o p : is_table b = false → well_formed o = true → merge b o (SHELL_POLICY :: p) = o.
Proof.
  intros Hb Hw. rewrite merge_eq. unfold merge_body, merge_or_replace. rewrite shell_unstructured.
  assert (replace_shell_environment_policy_filter_representation b o (SHELL_POLICY :: p) = b) as ->.
  { unfold replace_shell_environment_policy_filter_representation.
    destruct (bool_decide (SHELL_POLICY :: p = [SHELL_POLICY])), (from_policy o), b; done. }
  transitivity (normalized_with_key_aliases o (SHELL_POLICY :: p)); [by destruct o, b|].
  apply normalized_inert; [apply shell_inert|done].
Qed.

Lemma merge_shell_tables bt ot p : 
  merge (TTable bt) (TTable ot) (SHELL_POLICY :: p) =
  match replace_shell_environment_policy_filter_representation (TTable bt) (TTable ot) (SHELL_POLICY :: p) with
  | TTable base =>
      TTable (merge_entries merge (SHELL_POLICY :: p)
        (drop_other_spellings windows (SHELL_POLICY :: p) (normalize_keys (SHELL_POLICY :: p) ot)
          (normalize_keys (SHELL_POLICY :: p) base)) (normalize_keys (SHELL_POLICY :: p) ot))
  | _ => TTable ot
  end.
Proof.
  rewrite merge_eq. unfold merge_body, merge_or_replace. rewrite shell_unstructured.
  unfold replace_shell_environment_policy_filter_representation.
  destruct (bool_decide _), (from_policy (TTable ot)); done.
Qed.

Lemma rekey_keys {A} (f : str → str) (t : list (str * A)) k : k ∈ (rekey f t).*1 → ∃ j, j ∈ t.*1 ∧ k = f j.
Proof.
  intros ((k' & v) & -> & Hin%from_iter_elem)%list_elem_of_fmap.
  apply list_elem_of_fmap in Hin as ((j & w) & [= -> ->] & Hin). exists j. split; [|done].
  apply list_elem_of_fmap. by exists (j, w).
Qed.

Lemma key_elem {A} (t : list (str * A)) k v : (k, v) ∈ t → k ∈ t.*1.
Proof. intros Hin. apply list_elem_of_fmap. by exists (k, v). Qed.

(** The entries of merged filters: one side's action under a lower-case pattern. *)
Lemma merged_filter_entry (P : TomlValue → Prop) bt ot k v :
  Forall (λ e, P e.2) bt → Forall (λ e, P e.2 ∧ is_table e.2 = false) ot → well_formed (TTable ot) = true →
  (k, v) ∈ merge_entries merge [SHELL_POLICY; FILTERS] (rekey to_lowercase bt) (rekey to_lowercase ot) →
  P v ∧ to_lowercase k = k.
Proof.
  intros Hb Ho Hw Hin. rewrite Forall_forall in Hb, Ho.
  apply elem_get in Hin; [|apply nodup_merge_entries, nodup_from_iter].
  rewrite get_merge_entries in Hin by apply nodup_from_iter.
  destruct (tm_get k (rekey to_lowercase ot)) as [w|] eqn:Ew.
  - apply get_elem in Ew. destruct (rekey_keys to_lowercase ot k) as (j & _ & ->); [by eapply key_elem|].
    apply rekey_elem in Ew as [i Hi]. destruct (Ho _ Hi) as [Ha Ht]. pose proof (well_formed_elem _ _ _ Hw Hi).
    split; [|apply to_lowercase_idemp]. injection Hin as <-. cbn in Ha, Ht.
    destruct (tm_get _ (rekey to_lowercase bt)); [by rewrite merge_shell_leaf|].
    by rewrite normalized_inert by (done || apply shell_inert).
  - apply get_elem in Hin. destruct (rekey_keys to_lowercase bt k) as (j & _ & ->); [by eapply key_elem|].
    apply rekey_elem in Hin as [i Hi]. split; [apply (Hb _ Hi)|apply to_lowercase_idemp].
Qed.

(** Merged filters are spelled in lower case, so no pattern occurs twice. *)
Lemma merge_filters_ok b o : filters_ok b → filters_ok o → well_formed o = true →
  filters_ok (merge b o [SHELL_POLICY; FILTERS]).
Proof.
  intros (bt & -> & Hb & Hbd) (ot & -> & Ho & Hod) Hw.
  rewrite merge_shell_tables. unfold replace_shell_environment_policy_filter_representation.
  rewrite bool_decide_eq_false_2 by done.
  assert (∀ t t' : Table, drop_other_spellings windows [SHELL_POLICY; FILTERS] t t' = t') as Hsp
    by (intros; unfold drop_other_spellings; by rewrite bool_decide_eq_false_2, andb_false_r by done).
  rewrite Hsp. change (normalize_keys [SHELL_POLICY; FILTERS]) with (@rekey TomlValue to_lowercase).
  pose proof (λ k v, merged_filter_entry (λ v, is_filter_action v = true ∧ is_table v = false) bt ot k v Hb) as Hall.
  eexists; split_and!; [done|..].
  - apply Forall_forall. intros [k v] Hin. apply (Hall k v); [|done|done]. eapply Forall_impl; [done|]. cbn. tauto.
  - set (m := merge_entries _ _ _ _) in *. assert (to_lowercase <$> m.*1 = m.*1) as ->;
      [|apply nodup_merge_entries, nodup_from_iter].
    etrans; [|apply list_fmap_id]. apply list_fmap_ext. intros i k Hk%list_elem_of_lookup_2.
    apply list_elem_of_fmap in Hk as ([k' v] & -> & Hin). apply (Hall k' v); [|done|done].
    eapply Forall_impl; [done|]. cbn. tauto.
Qed.

(** ** Policies *)
Lemma get_removed {A} k fs (t : list (str * A)) :
  tm_get k (foldl (λ t f, tm_remove f t) t fs) = if bool_decide (k ∈ fs) then None else tm_get k t.
Proof.
  revert t. induction fs as [|f fs IH]; intros t; cbn [foldl]; [done|]. rewrite IH, get_remove.
  repeat case_bool_decide; try done; set_solver.
Qed.

(** The policy below, without the fields the overlay displaces. *)
Definition kept (ot bt : Table) : Table :=
  match from_policy (TTable ot) with
  | Some r => foldl (λ t f, tm_remove f t) bt (displaced_fields r)
  | None => bt
  end.

Lemma merge_policies bt ot :
  merge (TTable bt) (TTable ot) [SHELL_POLICY] = TTable (merge_entries merge [SHELL_POLICY] (kept ot bt) ot).
Proof.
  rewrite merge_shell_tables. unfold replace_shell_environment_policy_filter_representation, kept.
  rewrite bool_decide_eq_true_2 by done.
  assert (∀ t t' : Table, drop_other_spellings windows [SHELL_POLICY] t t' = t') as Hsp
    by (intros; unfold drop_other_spellings; by rewrite bool_decide_eq_false_2, andb_false_r by done).
  change (normalize_keys [SHELL_POLICY]) with (λ t : Table, t). cbv beta.
  destruct (from_policy (TTable ot)); by rewrite Hsp.
Qed.

Lemma get_merged_leaf bt ot k v : well_formed (TTable ot) = true →
  tm_get k ot = Some v → is_table v = false →
  tm_get k (merge_entries merge [SHELL_POLICY] (kept ot bt) ot) = Some v.
Proof.
  intros Hw Hv Ht. pose proof (well_formed_get _ _ _ Hw Hv). apply well_formed_table in Hw as [Hd _].
  rewrite get_merge_entries, Hv by done. f_equal.
  destruct (tm_get k (kept ot bt)); [by apply merge_shell_leaf|]. apply normalized_inert; [apply shell_inert|done].
Qed.

Lemma get_merged_kept bt ot k : well_formed (TTable ot) = true → tm_get k ot = None →
  tm_get k (merge_entries merge [SHELL_POLICY] (kept ot bt) ot) = tm_get k (kept ot bt).
Proof. intros [Hd _]%well_formed_table Hk. by rewrite get_merge_entries, Hk. Qed.

Lemma string_array_leaf v : is_string_array v = true → is_table v = false.
Proof. by destruct v. Qed.

Lemma get_kept bt ot k :
  tm_get k (kept ot bt) =
  if bool_decide (k ∈ default [] (displaced_fields <$> from_policy (TTable ot))) then None else tm_get k bt.
Proof. unfold kept. destruct (from_policy (TTable ot)); [apply get_removed|done]. Qed.

Lemma kept_elem bt ot k v : tm_get k (kept ot bt) = Some v → tm_get k bt = Some v.
Proof. rewrite get_kept. by case_bool_decide. Qed.

(** A legacy field of a merged policy is one side's. *)
Lemma merged_array bt ot k v : well_formed (TTable ot) = true →
  (∀ w, tm_get k bt = Some w → is_string_array w = true) → (∀ w, tm_get k ot = Some w → is_string_array w = true) →
  tm_get k (merge_entries merge [SHELL_POLICY] (kept ot bt) ot) = Some v → is_string_array v = true.
Proof.
  intros Hw Hb Ho. destruct (tm_get k ot) as [w|] eqn:Hk.
  - rewrite (get_merged_leaf _ _ _ w) by auto using string_array_leaf. intros [= <-]. auto.
  - rewrite get_merged_kept by done. intros ?%kept_elem. auto.
Qed.

Lemma representation t :
  from_policy (TTable t) =
  match tm_get FILTERS t, tm_get EXCLUDE t, tm_get INCLUDE t with
  | Some _, _, _ => Some Filters
  | None, None, None => None
  | _, _, _ => Some Legacy
  end.
Proof.
  unfold from_policy, contains_key. cbn [as_table mbind option_bind].
  by destruct (tm_get FILTERS t), (tm_get EXCLUDE t), (tm_get INCLUDE t).
Qed.

Lemma merged_filters bt ot v : policy_ok bt → policy_ok ot → well_formed (TTable ot) = true →
  tm_get FILTERS (merge_entries merge [SHELL_POLICY] (kept ot bt) ot) = Some v → filters_ok v.
Proof.
  intros Hb Ho Hw. destruct (tm_get FILTERS ot) as [w|] eqn:Hk.
  - pose proof (ok_filters _ Ho _ Hk) as Hf. pose proof (well_formed_get _ _ _ Hw Hk) as Hww.
    apply well_formed_table in Hw as [Hd _]. rewrite get_merge_entries, Hk by done. intros [= <-].
    destruct (tm_get FILTERS (kept ot bt)) as [e|] eqn:He.
    + apply merge_filters_ok; [|done|done]. apply (ok_filters _ Hb). by apply (kept_elem _ ot).
    + by rewrite normalized_inert by (done || apply shell_inert).
  - rewrite get_merged_kept by done. intros Hv%kept_elem. by apply (ok_filters _ Hb).
Qed.

Lemma merged_exclusive bt ot : policy_ok bt → policy_ok ot → well_formed (TTable ot) = true →
  is_Some (tm_get FILTERS (merge_entries merge [SHELL_POLICY] (kept ot bt) ot)) →
  tm_get EXCLUDE (merge_entries merge [SHELL_POLICY] (kept ot bt) ot) = None ∧
  tm_get INCLUDE (merge_entries merge [SHELL_POLICY] (kept ot bt) ot) = None.
Proof.
  intros Hb Ho Hw Hf. destruct (tm_get FILTERS ot) as [w|] eqn:Hk.
  - destruct (ok_exclusive _ Ho) as [He Hi]; [by rewrite Hk|]. rewrite !get_merged_kept, !get_kept by done.
    rewrite representation, Hk. done.
  - rewrite get_merged_kept, get_kept, representation, Hk in Hf by done.
    destruct (tm_get EXCLUDE ot) eqn:He, (tm_get INCLUDE ot) eqn:Hi; try by destruct Hf.
    rewrite !get_merged_kept, !get_kept, representation, Hk, He, Hi by done. cbn in Hf. by apply (ok_exclusive _ Hb).
Qed.

Lemma merge_policy_ok bt ot : policy_ok bt → policy_ok ot → well_formed (TTable ot) = true →
  ∃ t, merge (TTable bt) (TTable ot) [SHELL_POLICY] = TTable t ∧ policy_ok t.
Proof.
  intros Hb Ho Hw. eexists. split; [apply merge_policies|]. split.
  - intros v. apply merged_array; [done|apply Hb|apply Ho].
  - intros v. apply merged_array; [done|apply Hb|apply Ho].
  - intros v. by apply merged_filters.
  - by apply merged_exclusive.
Qed.

(** ** Documents *)
Definition shell_ok (v : TomlValue) : Prop :=
  ∀ t, value_get v SHELL_POLICY = Some (TTable t) → policy_ok t.

Lemma shell_ok_spec v : is_table v = true →
  validate_shell_environment_policy_filter_config is_filter_action accepts_root v = Ok () ∧ scalar_filters v = true ↔
  shell_ok v.
Proof.
  destruct v as [| | | | | |root]; try done. intros _. unfold shell_ok, scalar_filters. cbn [value_get].
  unfold validate_shell_environment_policy_filter_config.
  destruct (tm_get SHELL_POLICY root) as [[| | | | | |t]|]; try (by split; [intros _ ? [=]|]); try by split.
  transitivity (policy_ok t); [|split; [by intros ? ? [= <-]|by intros Ht; apply Ht]].
  rewrite <-policy_ok_spec. cbn [value_get].
  destruct (tm_get FILTERS t) as [[| | | | | |f]|]; naive_solver.
Qed.

Lemma merge_shell_ok b o : is_table b = true → is_table o = true → well_formed o = true →
  shell_ok b → shell_ok o → shell_ok (merge_toml_values windows b o).
Proof.
  intros Tb To Hw Hb Ho. destruct b as [| | | | | |bt]; try done. destruct o as [| | | | | |ot]; try done.
  rewrite merge_root. unfold shell_ok in *. cbn [value_get] in *. intros t.
  pose proof (proj1 (well_formed_table _) Hw) as [Hd _]. rewrite get_merge_entries by done.
  destruct (tm_get SHELL_POLICY ot) as [v|] eqn:Hv; [|apply Hb].
  pose proof (well_formed_get _ _ _ Hw Hv) as Hwv. cbn [app].
  assert (normalized_with_key_aliases v [SHELL_POLICY] = v) as Hn by (apply normalized_inert; [apply shell_inert|done]).
  rewrite Hn. destruct (tm_get SHELL_POLICY bt) as [e|] eqn:He; [|intros [= ->]; by apply Ho].
  destruct (is_table v) eqn:Tv; [|rewrite merge_shell_leaf by done; by intros [= ->]].
  destruct (is_table e) eqn:Te; [|rewrite merge_shell_onto_leaf by done; intros [= ->]; by apply Ho].
  destruct v as [| | | | | |vt]; try done. destruct e as [| | | | | |et]; try done.
  destruct (merge_policy_ok et vt) as (m & -> & Hm); [by apply Hb|by apply Ho|done|]. by intros [= <-].
Qed.
End shell.
