(* ===== verification/ConfigSpec.v ===== *)
(** * Properties of configuration layers

    The effective configuration answers every setting from the highest enabled
    layer that takes a position on it; origins name that layer; stacks stay
    ordered and valid when user layers are replaced; overrides read back;
    constrained values satisfy every validator installed. *)

From stdpp Require Import prelude list gmap strings sorting.
From S2P Require Import Prelude NetAddr NetworkPolicy ConfigMerge ConfigMergeSpec ConfigLayers ConfigShellSpec.

(** ** Order of layers *)
Section ordering.
Context `{Lowercase} (windows : bool) (is_filter_action accepts_root : TomlValue → bool)
  (version_for_toml : TomlValue → str) {Requirements : Type}.
Notation Stack := (ConfigLayerStack (Requirements := Requirements)).
Notation validate_layers := (validate_enabled_config_layers is_filter_action accepts_root).
Implicit Types (l : ConfigLayerEntry) (ls : list ConfigLayerEntry) (s : Stack).

Definition layer_le l l' : Prop := (precedence (layer_name l) <= precedence (layer_name l'))%Z.

Lemma is_sorted_spec ls : is_sorted ls = true ↔ StronglySorted layer_le ls.
Proof.
  assert (Transitive layer_le) by (intros x y z; unfold layer_le; lia).
  split; intros Hs.
  - apply Sorted_StronglySorted; [done|]. induction ls as [|a [|b ls] IH]; [constructor|by repeat constructor|].
    cbn in Hs. apply andb_true_iff in Hs as [?%Z.leb_le Hs]. constructor; [auto|by constructor].
  - induction Hs as [|a [|b ls] Hs IH Ha]; [done|done|]. cbn [is_sorted]. apply Forall_cons in Ha as [Ha _].
    apply andb_true_iff. split; [by apply Z.leb_le|done].
Qed.

Lemma insert_layer_perm l ls : insert_layer l ls ≡ₚ l :: ls.
Proof. induction ls as [|x ls IH]; cbn; [done|]. case_match; [done|]. rewrite IH. apply Permutation_swap. Qed.

Lemma insert_layer_sorted l ls : StronglySorted layer_le ls → StronglySorted layer_le (insert_layer l ls).
Proof.
  induction 1 as [|x ls Hs IH Hx]; cbn; [by repeat constructor|].
  destruct (precedence (layer_name l) <? precedence (layer_name x))%Z eqn:E.
  - apply Z.ltb_lt in E. unfold layer_le in *. constructor; [by constructor|]. constructor; [lia|].
    eapply Forall_impl; [done|]. cbn. lia.
  - apply Z.ltb_ge in E. constructor; [done|]. rewrite insert_layer_perm. by constructor.
Qed.

Lemma remove_first_sublist f ls : remove_first f ls `sublist_of` ls.
Proof. induction ls as [|x ls IH]; cbn; [done|]. destruct (f x); [by apply sublist_cons|by apply sublist_skip]. Qed.

Lemma sublist_sorted ls ls' : ls `sublist_of` ls' → StronglySorted layer_le ls' → StronglySorted layer_le ls.
Proof.
  induction 1 as [|x l k Hs IH|x l k Hs IH]; [done|..]; intros [? Hx]%StronglySorted_inv; [|auto].
  constructor; [auto|]. rewrite Forall_forall in *. intros y Hy. apply Hx. by eapply elem_of_sublist.
Qed.

Lemma filter_insert_layer (P : ConfigLayerEntry → bool) l ls : P l = false →
  List.filter P (insert_layer l ls) = List.filter P ls.
Proof.
  intros Hl. induction ls as [|x ls IH]; cbn; [by rewrite Hl|].
  destruct (_ <? _)%Z; cbn; [by rewrite Hl|]. by rewrite IH.
Qed.

Lemma filter_remove_first (P f : ConfigLayerEntry → bool) ls : (∀ l, f l = true → P l = false) →
  List.filter P (remove_first f ls) = List.filter P ls.
Proof.
  intros Hf. induction ls as [|x ls IH]; cbn; [done|].
  destruct (f x) eqn:E; cbn; [by rewrite Hf|]. by rewrite IH.
Qed.

(** A layer inserted where the layers of its kind are all below comes after them. *)
Lemma filter_insert_last (P : ConfigLayerEntry → bool) l ls : P l = true →
  StronglySorted layer_le ls → Forall (λ x, P x = true → layer_le x l) ls →
  List.filter P (insert_layer l ls) = List.filter P ls ++ [l].
Proof.
  intros Hl Hs Hle. induction Hs as [|x ls Hs IH Hx]; cbn; [by rewrite Hl|].
  apply Forall_cons in Hle as [Hlx Hle].
  destruct (precedence (layer_name l) <? precedence (layer_name x))%Z eqn:E; cbn.
  - apply Z.ltb_lt in E. rewrite Hl. destruct (P x) eqn:Hp; [unfold layer_le in Hlx; specialize (Hlx eq_refl); lia|].
    assert (List.filter P ls = []) as ->; [|done].
    destruct (List.filter P ls) as [|y k] eqn:Hy; [done|].
    assert (y ∈ List.filter P ls) as Hin by (rewrite Hy; left). apply elem_of_filterb in Hin as [Hin Py].
    rewrite Forall_forall in Hle, Hx. pose proof (Hle _ Hin Py). pose proof (Hx _ Hin). unfold layer_le in *. lia.
  - rewrite IH by done. by destruct (P x).
Qed.

(** ** Project layers *)
Definition is_project l : bool := match layer_name l with Project _ => true | _ => false end.

Lemma verify_projects_filter prev ls : verify_projects prev ls = verify_projects prev (List.filter is_project ls).
Proof.
  revert prev. induction ls as [|x ls IH]; intros prev; cbn; [done|].
  unfold is_project at 1. destruct (layer_name x) eqn:E; cbn; rewrite ?E; auto.
  destruct prev as [prev|]; cbn; [|apply IH]. destruct (path_parent prev); cbn; [|done].
  destruct (_ || _); cbn; [done|apply IH].
Qed.

Lemma validate_layers_forall ls :
  validate_layers ls = Ok () ↔
  Forall (λ l, is_disabled l = true ∨
    validate_shell_environment_policy_filter_config is_filter_action accepts_root (layer_config l) = Ok ()) ls.
Proof.
  induction ls as [|x ls IH]; cbn; [by split|]. rewrite Forall_cons, <-IH.
  destruct (is_disabled x); [naive_solver|].
  destruct (validate_shell_environment_policy_filter_config _ _ _) as [[]|]; naive_solver.
Qed.

(** The invariant of stacks: what [ConfigLayerStack::new] checks. *)
Definition stack_ok s : Prop := validate_layers (layers s) = Ok () ∧ verify_layer_ordering (layers s) = Ok ().

Lemma ordering_ok ls : verify_layer_ordering ls = Ok () ↔
  StronglySorted layer_le ls ∧ verify_projects None (List.filter is_project ls) = Ok ().
Proof.
  unfold verify_layer_ordering. rewrite <-is_sorted_spec, <-verify_projects_filter.
  destruct (is_sorted ls); naive_solver.
Qed.

Lemma stack_new_ok ls req s : stack_new is_filter_action accepts_root ls req = Ok s → stack_ok s ∧ layers s = ls.
Proof.
  unfold stack_new, stack_ok. destruct (validate_layers ls) as [[]|] eqn:Hv; cbn; [|done].
  destruct (verify_layer_ordering ls) as [[]|] eqn:Ho; cbn; [|done]. by intros [= <-].
Qed.

Definition user_layers s : list ConfigLayerEntry := List.filter (λ l, is_user (layer_name l)) (layers s).
Definition other_layers s : list ConfigLayerEntry := List.filter (λ l, negb (is_user (layer_name l))) (layers s).

Lemma user_not_project l : is_user (layer_name l) = true → is_project l = false.
Proof. unfold is_project. by destruct (layer_name l). Qed.
Lemma user_file_user f l : is_user_file f l = true → is_user (layer_name l) = true.
Proof. unfold is_user_file. by destruct (layer_name l). Qed.

(** What replacing one user layer does to a stack. *)
Lemma with_user_config_profile_ok s file profile config s' :
  stack_ok s → with_user_config_profile is_filter_action accepts_root version_for_toml s file profile config = Ok s' →
  stack_ok s' ∧ other_layers s' = other_layers s ∧ requirements s' = requirements s ∧
  let l := entry_new version_for_toml (User file profile) config in
  layers s' ≡ₚ l :: remove_first (is_user_file file) (layers s) ∧ l ∈ layers_low_to_high s'.
Proof.
  intros [Hv Ho]. unfold with_user_config_profile.
  set (l := entry_new version_for_toml (User file profile) config).
  destruct (validate_layers [l]) as [[]|] eqn:Hl; cbn [rbind]; [|done]. intros [= <-].
  apply validate_layers_forall in Hl. rewrite Forall_singleton in Hl. rewrite validate_layers_forall in Hv.
  apply ordering_ok in Ho as [Hs Hp]. pose proof (remove_first_sublist (is_user_file file) (layers s)) as Hsub.
  pose proof (insert_layer_perm l (remove_first (is_user_file file) (layers s))) as Hperm.
  split_and!; [|unfold other_layers|done|done|].
  - split; cbn [layers with_layers].
    + apply validate_layers_forall. rewrite Hperm. constructor; [exact Hl|]. rewrite Forall_forall in *.
      intros x Hx. apply Hv. by eapply elem_of_sublist.
    + apply ordering_ok. split; [eapply insert_layer_sorted, sublist_sorted; done|].
      rewrite filter_insert_layer by done. rewrite filter_remove_first; [done|].
      eauto using user_not_project, user_file_user.
  - cbn. rewrite filter_insert_layer by done. apply filter_remove_first. intros x Hx%user_file_user. by rewrite Hx.
  - apply elem_of_filterb. split; [|done]. cbn. rewrite Hperm. left.
Qed.

(** Inserting user layers one by one, in order of precedence. *)
Lemma insert_user_layers us ls :
  StronglySorted layer_le us → StronglySorted layer_le ls → Forall (λ l, is_user (layer_name l) = true) us →
  Forall (λ x, is_user (layer_name x) = true → Forall (layer_le x) us) ls →
  let r := foldl (λ ls l, insert_layer l ls) ls us in
  StronglySorted layer_le r ∧ r ≡ₚ us ++ ls ∧
  List.filter (λ l, negb (is_user (layer_name l))) r = List.filter (λ l, negb (is_user (layer_name l))) ls ∧
  List.filter is_project r = List.filter is_project ls ∧
  List.filter (λ l, is_user (layer_name l)) r = List.filter (λ l, is_user (layer_name l)) ls ++ us.
Proof.
  intros Hus. revert ls. induction Hus as [|u us Hs IH Hu]; intros ls Hls Huser Hle; cbn [foldl].
  { split_and!; [done..|by rewrite app_nil_r]. }
  apply Forall_cons in Huser as [Hu1 Huser].
  destruct (IH (insert_layer u ls)) as (H1 & H2 & H3 & H4 & H5); [by apply insert_layer_sorted|done| |].
  { rewrite insert_layer_perm. constructor; [done|]. eapply Forall_impl; [done|]. cbn. intros x Hx ?.
    apply Forall_cons in Hx as [_ Hx]; done. }
  split_and!; [done| | | |].
  - rewrite H2, insert_layer_perm. symmetry. apply (Permutation_middle us ls u).
  - by rewrite H3, filter_insert_layer by (by rewrite Hu1).
  - by rewrite H4, filter_insert_layer by by apply user_not_project.
  - rewrite H5, filter_insert_last; [by rewrite <-app_assoc|done|done|].
    eapply Forall_impl; [done|]. cbn. intros x Hx ?. by apply Forall_cons in Hx as [Hx _].
Qed.

Lemma filterb_Forall {A} (f : A → bool) (l : list A) : Forall (λ x, f x = true) (List.filter f l).
Proof. apply Forall_forall. intros x Hx. by apply elem_of_filterb in Hx as [_ Hx]. Qed.

Lemma filterb_sublist (f : ConfigLayerEntry → bool) ls : List.filter f ls `sublist_of` ls.
Proof. induction ls as [|x ls IH]; cbn; [done|]. destruct (f x); [by apply sublist_skip|by apply sublist_cons]. Qed.

Lemma filterb_twice {A} (f g : A → bool) (l : list A) : (∀ x, f x = true → g x = true) →
  List.filter f (List.filter g l) = List.filter f l.
Proof.
  intros Hfg. induction l as [|x l IH]; cbn; [done|]. destruct (g x) eqn:Hg; cbn; [by rewrite IH|].
  destruct (f x) eqn:Hf; [by rewrite Hfg in Hg|done].
Qed.

Lemma filterb_disjoint {A} (f g : A → bool) (l : list A) : (∀ x, f x = true → g x = false) → List.filter f (List.filter g l) = [].
Proof.
  intros Hfg. induction l as [|x l IH]; cbn; [done|]. destruct (g x) eqn:Hg; cbn; [|done].
  destruct (f x) eqn:Hf; [by rewrite Hfg in Hg|done].
Qed.

(** What copying the user layers of another stack does. *)
Lemma with_user_layer_from_ok s other : stack_ok s → stack_ok other →
  let r := with_user_layer_from s other in
  stack_ok r ∧ other_layers r = other_layers s ∧ user_layers r = user_layers other ∧ requirements r = requirements s.
Proof.
  intros [Hv Ho] [Hv' Ho']. apply ordering_ok in Ho as [Hs Hp], Ho' as [Hs' Hp'].
  rewrite validate_layers_forall in Hv, Hv'.
  destruct (insert_user_layers (user_layers other) (other_layers s)) as (H1 & H2 & H3 & H4 & H5).
  - eapply sublist_sorted, Hs'. apply filterb_sublist.
  - eapply sublist_sorted, Hs. apply filterb_sublist.
  - apply filterb_Forall.
  - eapply Forall_impl; [apply filterb_Forall|]. cbn. intros x Hx ?. by destruct (is_user (layer_name x)).
  - unfold with_user_layer_from. unfold user_layers, other_layers in *. split_and!; [| | |done].
    + split; cbn [layers with_layers].
      * apply validate_layers_forall. rewrite H2, Forall_app. rewrite Forall_forall in Hv, Hv'.
        split; apply Forall_forall; intros x [Hx _]%elem_of_filterb; auto.
      * apply ordering_ok. split; [exact H1|]. rewrite H4, filterb_twice; [done|].
        intros x Hx. unfold is_project in Hx. by destruct (layer_name x).
    + cbn [layers with_layers]. by rewrite H3, filterb_twice.
    + cbn [layers with_layers]. rewrite H5, filterb_disjoint; [done|].
      intros x Hx. by rewrite Hx.
Qed.

(** ** The effective configuration *)
Definition enabled_configs s : list TomlValue := layer_config <$> layers_low_to_high s.

Lemma effective_fold s : effective_config windows s = foldl (merge_toml_values windows) (TTable []) (enabled_configs s).
Proof.
  unfold effective_config, enabled_configs. generalize (TTable []). induction (layers_low_to_high s); cbn; auto.
Qed.


Lemma effective_inv (P : TomlValue → Prop) s :
  P (TTable []) → (∀ b o, P b → o ∈ enabled_configs s → P (merge_toml_values windows b o)) → P (effective_config windows s).
Proof.
  rewrite effective_fold. intros Hi Hm. generalize dependent (TTable []). induction (enabled_configs s) as [|o os IH];
    intros b Hb; cbn; [done|]. apply IH; [|apply Hm; [done|left]]. intros. apply Hm; [done|by right].
Qed.

Lemma effective_document s : Forall (λ d, document d = true) (enabled_configs s) →
  document (effective_config windows s) = true.
Proof.
  intros Hd. rewrite Forall_forall in Hd. apply effective_inv; [done|]. intros. by apply merge_document; [|apply Hd].
Qed.

(** ** Reachable stacks *)
Inductive reachable : Stack → Prop :=
| reach_new ls req s : stack_new is_filter_action accepts_root ls req = Ok s → reachable s
| reach_user_config s file config s' : reachable s →
    with_user_config is_filter_action accepts_root version_for_toml s file config = Ok s' → reachable s'
| reach_user_config_profile s file profile config s' : reachable s →
    with_user_config_profile is_filter_action accepts_root version_for_toml s file profile config = Ok s' → reachable s'
| reach_user_layer_from s other : reachable s → reachable other → reachable (with_user_layer_from s other)
| reach_rules_ignored s ignored : reachable s → reachable (with_user_and_project_exec_policy_rules_ignored s ignored)
| reach_warnings s warnings : reachable s → reachable (with_startup_warnings s warnings).

Lemma reachable_ok s : reachable s → stack_ok s.
Proof.
  induction 1 as [ls req s Hs|s file config s' Hr IH Hs|s file profile config s' Hr IH Hs|s other Hs IHs Ho IHo|s ? Hs IH|s ? Hs IH].
  - by apply stack_new_ok in Hs as [? _].
  - unfold with_user_config in Hs. by apply with_user_config_profile_ok in Hs as [? _].
  - by apply with_user_config_profile_ok in Hs as [? _].
  - by apply with_user_layer_from_ok.
  - exact IH.
  - exact IH.
Qed.

(** C38: every stack the loader or an edit of the user configuration can build is sorted by precedence, and
    when its enabled layers are documents whose filters are actions, the effective configuration passes the
    validation each layer passed: keyed filters are never mixed with the legacy arrays and no pattern occurs
    twice up to case. *)
Theorem reachable_stacks_valid s :
  reachable s →
  StronglySorted layer_le (layers s) ∧
  (Forall (λ d, document d = true ∧ scalar_filters d = true) (enabled_configs s) →
   validate_shell_environment_policy_filter_config is_filter_action accepts_root (effective_config windows s) = Ok ()).
Proof.
  intros [Hv Ho]%reachable_ok. apply ordering_ok in Ho as [Hs _]. split; [done|]. intros Hd.
  apply validate_layers_forall in Hv. rewrite Forall_forall in Hd. rewrite Forall_forall in Hv.
  assert (document (effective_config windows s) = true ∧ shell_ok is_filter_action (effective_config windows s)) as [He Hok].
  { apply effective_inv; [done|]. intros b o [Hb Hob] Hin. destruct (Hd o Hin) as [Hdoc Hsc].
    split; [by apply merge_document|]. apply andb_true_iff in Hb as [Tb Wb], Hdoc as [To Wo].
    apply merge_shell_ok; [done..|]. apply (shell_ok_spec _ accepts_root); [done|]. split; [|done].
    apply list_elem_of_fmap in Hin as (l & -> & [Hl Hen%negb_true_iff]%elem_of_filterb).
    destruct (Hv l Hl) as [Hdis|]; [congruence|done]. }
  apply andb_true_iff in He as [Te _]. by apply (shell_ok_spec _ accepts_root) in Hok as [? _].
Qed.

(** Replacing one user layer changes that layer only, leaves it enabled, and keeps every other layer in
    its order; copying the user layers of another stack takes exactly those, in their order, and keeps the
    layers that are not the user's. *)
Theorem user_layers_replaced s other :
  stack_ok s → stack_ok other →
  (∀ file profile config s',
    with_user_config_profile is_filter_action accepts_root version_for_toml s file profile config = Ok s' →
    other_layers s' = other_layers s ∧ requirements s' = requirements s ∧
    let l := entry_new version_for_toml (User file profile) config in
    layers s' ≡ₚ l :: remove_first (is_user_file file) (layers s) ∧ l ∈ layers_low_to_high s') ∧
  other_layers (with_user_layer_from s other) = other_layers s ∧
  user_layers (with_user_layer_from s other) = user_layers other.
Proof.
  intros Hs Ho. split.
  - intros file profile config s' H'. by apply with_user_config_profile_ok in H' as [_ H'].
  - by destruct (with_user_layer_from_ok s other) as (_ & ? & ? & _).
Qed.

(** C37: where every enabled layer is a document, the effective configuration, read in its canonical form,
    refines the priority reading of the layers: a path that does not pass through the shell-environment policy
    or a table of domains (whose merging replaces whole representations and matches keys by their normal form) is answered by the
    highest enabled layer that takes a position on it, where a boolean feature switch speaks for the [enabled]
    key of the feature's table and legacy keys speak for their canonical ones. Below a root that canonicalising
    leaves alone it answers so as it stands, and no legacy key remains in it. *)
Theorem effective_config_refines s p :
  Forall (λ d, document d = true) (enabled_configs s) → ordinary p = true →
  setting (canonical (effective_config windows s) []) p = resolve (enabled_configs s) p ∧
  (match p with k :: _ => plain_root k | [] => false end = true →
   setting (effective_config windows s) p = resolve (enabled_configs s) p) ∧
  legacy_free (effective_config windows s).
Proof.
  intros Hd Hp.
  assert (setting (canonical (effective_config windows s) []) p = resolve (enabled_configs s) p) as Hs.
  { rewrite effective_fold. unfold resolve. rewrite (setting_merge_all windows (enabled_configs s) (TTable []) p) by done.
    f_equal. by destruct p. }
  split_and!; [done| |].
  - destruct p as [|k p]; [done|]. intros Hk. rewrite <-Hs. symmetry. apply setting_plain; [|done].
    by apply effective_document.
  - rewrite Forall_forall in Hd.
    enough (document (effective_config windows s) = true ∧ legacy_free (effective_config windows s)) as [_ ?] by done.
    apply effective_inv; [done|]. intros b o [Hb Hl] Hin. split; [by apply merge_document; [|apply Hd]|].
    apply andb_true_iff in Hb as [Tb _]. by apply merge_legacy_free; [|apply Hd|].
Qed.
End ordering.

(** ** A stack of three layers *)
Definition demo_action (v : TomlValue) : bool :=
  match v with TString s => one_of [ $"include"; $"exclude"] s | _ => false end.
Definition demo_version (v : TomlValue) : str := match v with TTable t => fmt_nat (length t) | _ => [] end.

Definition demo_user_config : TomlValue :=
  TTable [($"model", TString ($"small"));
          ($"features", TTable [($"network_proxy", TTable [($"enabled", TBoolean true); ($"port", TInteger 3128)])]);
          ($"memories", TTable [($"no_memories_if_mcp_or_web_search", TBoolean true)]);
          (SHELL_POLICY, TTable [($"exclude", TArray [TString ($"AWS_*")])])].
Definition demo_project_config : TomlValue :=
  TTable [($"model", TString ($"large"));
          (SHELL_POLICY, TTable [($"filters", TTable [($"AWS_*", TString ($"exclude")); ($"PATH", TString ($"include"))])])].
Definition demo_flags_config : TomlValue :=
  TTable [($"features", TTable [($"network_proxy", TBoolean false)]);
          (SHELL_POLICY, TTable [($"filters", TTable [($"aws_*", TString ($"include"))])])].

Definition demo_layers : list ConfigLayerEntry :=
  [entry_new demo_version (User [ $"home"; $"config.toml"] None) demo_user_config;
   entry_new demo_version (Project [ $"repo"; $".codex"]) demo_project_config;
   entry_new demo_version SessionFlags demo_flags_config].
Definition demo_stack : ConfigLayerStack (Requirements := ()) := mkStack demo_layers () false None.

#[local] Existing Instance ascii_lowercase.

Lemma demo_reachable : reachable demo_action is_table demo_version demo_stack.
Proof. apply (reach_new _ _ _ demo_layers ()). vm_compute. reflexivity. Qed.

Lemma demo_enabled : enabled_configs demo_stack = [demo_user_config; demo_project_config; demo_flags_config].
Proof. reflexivity. Qed.

Ltac demo_documents := rewrite ?demo_enabled; repeat constructor; vm_compute; reflexivity.

Lemma reachable_stacks_valid_witness :
  StronglySorted layer_le (layers demo_stack) ∧
  validate_shell_environment_policy_filter_config demo_action is_table (effective_config false demo_stack) = Ok ().
Proof.
  destruct (reachable_stacks_valid false demo_action is_table demo_version demo_stack demo_reachable) as [Hs Hv].
  split; [exact Hs|]. apply Hv. demo_documents.
Defined.

Lemma user_layers_replaced_witness :
  other_layers (with_user_layer_from demo_stack demo_stack) = other_layers demo_stack ∧
  user_layers (with_user_layer_from demo_stack demo_stack) = user_layers demo_stack.
Proof.
  assert (stack_ok demo_action is_table demo_stack) as Hok by exact (reachable_ok _ _ _ _ demo_reachable).
  destruct (user_layers_replaced demo_action is_table demo_version demo_stack demo_stack Hok Hok) as [_ Hu]. exact Hu.
Defined.

Lemma effective_config_refines_witness :
  setting (effective_config false demo_stack) [ $"model"] = Some (TString ($"large")) ∧
  setting (canonical (effective_config false demo_stack) []) [ $"features"; $"network_proxy"; $"enabled"] =
    Some (TBoolean false) ∧
  setting (canonical (effective_config false demo_stack) []) [ $"features"; $"network_proxy"; $"port"] =
    Some (TInteger 3128) ∧
  setting (canonical (effective_config false demo_stack) []) [ $"memories"; $"disable_on_external_context"] =
    Some (TBoolean true).
Proof.
  assert (Forall (λ d, document d = true) (enabled_configs demo_stack)) as Hd by demo_documents.
  split_and!.
  - rewrite (proj1 (proj2 (effective_config_refines false demo_stack [ $"model"] Hd eq_refl)) eq_refl). reflexivity.
  - rewrite (proj1 (effective_config_refines false demo_stack
      [ $"features"; $"network_proxy"; $"enabled"] Hd eq_refl)). reflexivity.
  - rewrite (proj1 (effective_config_refines false demo_stack
      [ $"features"; $"network_proxy"; $"port"] Hd eq_refl)). reflexivity.
  - rewrite (proj1 (effective_config_refines false demo_stack
      [ $"memories"; $"disable_on_external_context"] Hd eq_refl)). reflexivity.
Defined.
