(* ===== verification/ConfigOrigins.v ===== *)
(** * Origins, overrides and constrained values

    The origin recorded for a setting is the layer the effective configuration
    takes it from; an override reads back; a constrained value satisfies every
    validator that was installed. *)

From stdpp Require Import prelude list gmap strings sorting pretty.
From S2P Require Import Prelude NetAddr NetworkPolicy ConfigMerge ConfigMergeSpec ConfigLayers ConfigShellSpec ConfigSpec.

(** ** Recorded paths *)

(** The paths [record_origins] writes, in order. *)
Fixpoint recorded (v : TomlValue) (path : list str) : list (list str) :=
  match v with
  | TTable t => mjoin (map (λ '(k, c), recorded c (path ++ [k])) t)
  | TArray items => mjoin (imap (λ i f, f (path ++ [fmt_nat i])) (map recorded items))
  | _ =>
      if is_empty path then []
      else match v with
           | TBoolean _ =>
               if is_structured_feature_path path
               then (if bool_decide (last path = Some ($"network_proxy")) then [path] else []) ++ [path ++ [ENABLED]]
               else [path]
           | _ => [path]
           end
  end.

Definition record_all (meta : ConfigLayerMetadata) (ps : list (list str)) (o : gmap str ConfigLayerMetadata) :=
  foldl (λ o p, <[dotted p := meta]> o) o ps.

Arguments record_all : simpl never.

Lemma record_all_app meta ps qs o : record_all meta (ps ++ qs) o = record_all meta qs (record_all meta ps o).
Proof. apply foldl_app. Qed.

Lemma record_origins_eq v meta path o : record_origins v meta path o = record_all meta (recorded v path) o.
Proof.
  revert path o. toml_induction v; intros path o.
  - destruct v; try done; cbn; destruct (is_empty path); try done.
    destruct (is_structured_feature_path path); [|done]. by destruct (bool_decide (last path = Some _)).
  - cbn. assert (∀ n, (fix go (items : list TomlValue) (idx : nat) (origins : gmap str ConfigLayerMetadata) :=
        match items with
        | [] => origins
        | item :: items => go items (S idx) (record_origins item meta (path ++ [fmt_nat idx]) origins)
        end) items n o =
      record_all meta (mjoin (imap (λ i f, f (path ++ [fmt_nat (n + i)])) (map recorded items))) o) as Hg; [|apply (Hg 0)].
    revert o. induction IH as [|x items Hx _ IHi]; intros o n; [done|]. rewrite IHi, Hx. cbn.
    rewrite record_all_app, Nat.add_0_r. f_equal. f_equal. apply imap_ext. intros. cbn. by rewrite Nat.add_succ_r.
  - cbn. revert o. induction IH as [|[k c] t Hx _ IHt]; intros o; cbn; [done|]. rewrite IHt, record_all_app. f_equal.
    apply Hx.
Qed.

Lemma record_all_lookup meta ps o key :
  record_all meta ps o !! key = if bool_decide (key ∈ dotted <$> ps) then Some meta else o !! key.
Proof.
  revert o. induction ps as [|p ps IH]; intros o.
  - by rewrite bool_decide_eq_false_2 by apply not_elem_of_nil.
  - change (record_all meta (p :: ps) o) with (record_all meta ps (<[dotted p:=meta]> o)). rewrite IH. cbn [fmap list_fmap]. case_bool_decide as Hin.
    + rewrite bool_decide_eq_true_2; [done|by right].
    + destruct (decide (key = dotted p)) as [->|Hne].
      * rewrite lookup_insert_eq, bool_decide_eq_true_2; [done|left].
      * rewrite lookup_insert_ne, bool_decide_eq_false_2; [done| |done]. by rewrite not_elem_of_cons.
Qed.

(** ** Keys without dots *)
Fixpoint dot_free (v : TomlValue) : bool :=
  match v with
  | TTable t => forallb (λ '(k, c), negb (contains_char DOT k) && dot_free c) t
  | TArray items => forallb dot_free items
  | _ => true
  end.

Lemma contains_char_not_in c s : contains_char c s = false ↔ c ∉ s.
Proof.
  unfold contains_char. rewrite <-not_true_iff_false, existsb_elem. split; intros Hn Hin; apply Hn.
  - exists c. split; [done|apply N.eqb_refl].
  - by destruct Hin as (x & Hx & ->%N.eqb_eq).
Qed.

Lemma pretty_N_go_no_dot x s : DOT ∉ lit s → DOT ∉ lit (pretty.pretty_N_go x s).
Proof.
  revert s. induction (N.lt_wf_0 x) as [x _ IH]; intros s Hs.
  destruct (decide (0 < x)%N) as [Hx|Hx]; [|by assert (x = 0)%N as -> by lia; rewrite pretty.pretty_N_go_0].
  rewrite pretty.pretty_N_go_step by done. apply IH; [apply N.div_lt; lia|].
  unfold lit in *. cbn. rewrite not_elem_of_cons. split; [|done].
  destruct (x `mod` 10)%N as [|p]; [done|]. repeat (destruct p as [p|p|]; try done).
Qed.

Lemma fmt_nat_no_dot n : DOT ∉ fmt_nat n.
Proof.
  unfold fmt_nat. change (pretty n) with (pretty (N.of_nat n)). unfold pretty, pretty.pretty_N.
  destruct (decide (N.of_nat n = 0%N)); [apply not_elem_of_cons; split; [done|apply not_elem_of_nil]|].
  apply pretty_N_go_no_dot, not_elem_of_nil.
Qed.

Lemma dotted_inj p q : p ≠ [] → q ≠ [] → Forall (λ k, DOT ∉ k) p → Forall (λ k, DOT ∉ k) q →
  dotted p = dotted q → p = q.
Proof.
  intros Hp Hq Fp Fq Heq. rewrite <-(split_char_join DOT p), <-(split_char_join DOT q) by done.
  unfold dotted in Heq. by rewrite Heq.
Qed.

Lemma dot_free_table t : dot_free (TTable t) = true ↔ Forall (λ e, DOT ∉ e.1 ∧ dot_free e.2 = true) t.
Proof.
  cbn. rewrite forallb_forall, Forall_forall. split; intros Hf.
  - intros [k c] Hin%list_elem_of_In. specialize (Hf _ Hin). apply andb_true_iff in Hf as [Hk%negb_true_iff Hc].
    split; [by apply contains_char_not_in|done].
  - intros [k c] Hin%list_elem_of_In. destruct (Hf _ Hin) as [Hk Hc]. apply andb_true_iff. split; [|done].
    by apply negb_true_iff, contains_char_not_in.
Qed.

(** Every recorded path extends the path it starts from, by keys without dots. *)
Lemma recorded_extends v path q : dot_free v = true → q ∈ recorded v path →
  q ≠ [] ∧ ∃ r, q = path ++ r ∧ Forall (λ k, DOT ∉ k) r.
Proof.
  revert path q. toml_induction v; intros path q Hd.
  - assert (q ∈ (if is_empty path then [] else [path; path ++ [ENABLED]]) → q ≠ [] ∧ ∃ r, q = path ++ r ∧ Forall (λ k, DOT ∉ k) r) as Hq.
    { destruct path as [|k path]; cbn; [by intros ?%not_elem_of_nil|].
      intros [->|[->|?%not_elem_of_nil]%elem_of_cons]%elem_of_cons; [| |done]; (split; [done|]).
      - exists []. split; [by rewrite app_nil_r|constructor].
      - exists [ENABLED]. split; [done|]. constructor; [|constructor]. by apply contains_char_not_in. }
    intros Hin. apply Hq. clear Hq. destruct v; try done; cbn in *; destruct (is_empty path); try done;
      try (apply list_elem_of_singleton in Hin as ->; left).
    destruct (is_structured_feature_path path); [|apply list_elem_of_singleton in Hin as ->; left].
    apply elem_of_app in Hin as [Hin|Hin]; [|right; by apply list_elem_of_singleton in Hin as ->; left].
    destruct (bool_decide _); [apply list_elem_of_singleton in Hin as ->; left|by apply not_elem_of_nil in Hin].
  - cbn [recorded]. intros (l & Hin & Hl)%list_elem_of_join. apply elem_of_lookup_imap in Hl as (i & f & -> & Hf).
    apply list_lookup_fmap_Some in Hf as (x & -> & Hx). cbn in Hd. rewrite forallb_forall in Hd.
    rewrite Forall_lookup in IH. destruct (IH i x Hx _ _ (Hd x (proj1 (list_elem_of_In _ _) (list_elem_of_lookup_2 _ _ _ Hx))) Hin)
      as [Hne (r & -> & Hr)].
    split; [done|]. exists (fmt_nat i :: r). rewrite <-app_assoc. split; [done|]. constructor; [apply fmt_nat_no_dot|done].
  - cbn [recorded]. intros (l & Hin & Hl)%list_elem_of_join. apply list_elem_of_fmap in Hl as ([k c] & -> & Hl).
    apply dot_free_table in Hd. rewrite Forall_forall in Hd, IH. destruct (Hd _ Hl) as [Hk Hc].
    destruct (IH _ Hl _ _ Hc Hin) as [Hne (r & -> & Hr)].
    split; [done|]. exists (k :: r). rewrite <-app_assoc. split; [done|]. by constructor.
Qed.

Lemma dot_free_elem t k c : dot_free (TTable t) = true → (k, c) ∈ t → DOT ∉ k ∧ dot_free c = true.
Proof. intros Hd%dot_free_table Hin. rewrite Forall_forall in Hd. by apply (Hd (k, c)). Qed.

Lemma dot_free_rename l c t : DOT ∉ c → dot_free (TTable t) = true → dot_free (TTable (rename_key l c t)) = true.
Proof.
  intros Hc Hd. apply dot_free_table, Forall_forall. intros [k v] Hin. cbn.
  unfold rename_key, or_insert in Hin. destruct (tm_get l t) as [w|] eqn:Hl; [|by eapply dot_free_elem].
  assert ((k, v) = (c, w) ∨ (k, v) ∈ tm_remove l t) as [[= -> ->]|Hr]
    by (destruct (contains_key c (tm_remove l t)); [auto|by apply insert_elem]).
  - split; [done|]. by eapply dot_free_elem, get_elem.
  - apply elem_of_filterb in Hr as [Hr _]. by eapply dot_free_elem.
Qed.

Lemma dot_free_aliases path t : dot_free (TTable t) = true → dot_free (TTable (normalize_key_aliases path t)) = true.
Proof.
  intros Hd. rewrite normalize_key_aliases_eq. destruct (alias_of path) as [[l c]|] eqn:Ha; [|done].
  apply dot_free_rename; [|done]. unfold alias_of in Ha.
  repeat case_bool_decide; simplify_eq; by apply contains_char_not_in.
Qed.

Lemma dot_free_normalized v path : dot_free v = true → dot_free (normalized_with_key_aliases v path) = true.
Proof.
  revert path. toml_induction v; intros path Hd.
  - by destruct v.
  - cbn in *. rewrite forallb_forall in *. intros x Hx%list_elem_of_In.
    apply list_elem_of_fmap in Hx as (y & -> & Hy). rewrite Forall_forall in IH. apply IH; [done|].
    by apply Hd, list_elem_of_In.
  - cbn [normalized_with_key_aliases]. apply dot_free_aliases, dot_free_table, Forall_forall.
    intros e He%from_iter_elem. apply list_elem_of_fmap in He as ([k c] & -> & Hin). cbn.
    destruct (dot_free_elem _ _ _ Hd Hin). rewrite Forall_forall in IH. split; [done|]. by apply (IH _ Hin).
Qed.

Lemma elem_recorded_table path t q :
  q ∈ recorded (TTable t) path ↔ ∃ k c, (k, c) ∈ t ∧ q ∈ recorded c (path ++ [k]).
Proof.
  cbn [recorded]. rewrite list_elem_of_join. split.
  - intros (l & Hq & ([k c] & -> & Hin)%list_elem_of_fmap). eauto.
  - intros (k & c & Hin & Hq). eexists. split; [exact Hq|]. apply list_elem_of_fmap. by exists (k, c).
Qed.

(** A scalar the canonical document sets is recorded. *)
Lemma sets_recorded p path v x : path ≠ [] → well_formed v = true →
  position (canonical v path) p = Sets x → is_scalar x = true →
  path ++ p ∈ recorded (normalized_with_key_aliases v path) path.
Proof.
  revert path v. induction p as [|k p IH]; intros path v Hp Hw Hs Hx.
  - rewrite app_nil_r. destruct v as [| | |b| |items|t]; cbn [canonical position] in Hs;
      cbn [normalized_with_key_aliases recorded]; destruct path as [|k0 path]; try done; cbn [is_empty]; try (left; done).
    + destruct (is_structured_feature_path (k0 :: path)) eqn:E; [done|]. left.
    + by injection Hs as <-.
  - destruct v as [| | |b| |items|t]; try done.
    + cbn [canonical] in Hs. destruct (is_structured_feature_path path) eqn:E; [|done]. cbn [position] in Hs.
      revert Hs. cbn [tm_get]. case_bool_decide as Hk; [subst k|done]. destruct p as [|]; [|done]. intros _.
      cbn [normalized_with_key_aliases recorded]. rewrite E. destruct path; [done|]. apply elem_of_app. right. left.
    + rewrite position_value_get, get_canonical in Hs by done. rewrite normalized_table by done.
      destruct (tm_get k (normalize_key_aliases path t)) as [c|] eqn:Hc; [|done]. cbn [fmap option_fmap option_map] in Hs.
      pose proof (well_formed_get _ _ _ (well_formed_aliases t path Hw) Hc) as Hwc.
      apply elem_recorded_table. exists k, c. split; [by apply get_elem|].
      specialize (IH (path ++ [k]) c). rewrite normalized_inert, <-app_assoc in IH by (done || by apply inert_child).
      apply IH; [by destruct path|done..].
Qed.

(** A recorded path is one on which the canonical document is not silent. *)
Lemma recorded_not_silent p path v : path ≠ [] → well_formed v = true → dot_free v = true →
  path ++ p ∈ recorded (normalized_with_key_aliases v path) path → position (canonical v path) p ≠ Silent.
Proof.
  revert path v. induction p as [|k p IH]; intros path v Hp Hw Hd Hin; [by destruct (canonical v path)|].
  destruct v as [| | |b| |items|t]; try done.
  - cbn [canonical]. destruct (is_structured_feature_path path) eqn:E; [|done]. cbn [position tm_get].
    cbn [normalized_with_key_aliases recorded] in Hin. rewrite E in Hin. destruct path as [|k0 path]; [done|]. cbn [is_empty] in Hin.
    destruct (bool_decide (ENABLED = k)) eqn:Hk; [by destruct p|]. apply bool_decide_eq_false in Hk. exfalso.
    apply elem_of_app in Hin as [Hin|Hin%list_elem_of_singleton].
    + destruct (bool_decide _); [|by apply not_elem_of_nil in Hin]. apply list_elem_of_singleton in Hin.
      rewrite <-(app_nil_r (k0 :: path)) in Hin at 2. by apply app_inv_head in Hin.
    + apply app_inv_head in Hin. naive_solver.
  - rewrite normalized_table in Hin by done. apply elem_recorded_table in Hin as (j & c & Hjc & Hin).
    pose proof (dot_free_elem _ _ _ (dot_free_aliases path t Hd) Hjc) as [_ Hdc].
    destruct (recorded_extends _ _ _ Hdc Hin) as [_ (r & Hr & _)]. rewrite <-app_assoc in Hr.
    apply app_inv_head in Hr. injection Hr as <- <-.
    pose proof (well_formed_elem _ _ _ (well_formed_aliases t path Hw) Hjc) as Hwc.
    rewrite position_value_get, get_canonical by done.
    rewrite (elem_get _ _ _ (nodup_aliases path t (proj1 (proj1 (well_formed_table t) Hw))) Hjc). cbn.
    apply IH; [by destruct path|done|done|].
    rewrite normalized_inert, <-app_assoc by (done || by apply inert_child). done.
Qed.

(** The same at the root of a document. *)
Section root.
Context (t : Table) (Hw : well_formed (TTable t) = true).

Lemma normalized_root : normalized_with_key_aliases (TTable t) [] =
  TTable ((λ '(k, c), (k, normalized_with_key_aliases c [k])) <$> t).
Proof.
  cbn [normalized_with_key_aliases]. rewrite normalize_key_aliases_eq. cbn [app alias_of].
  rewrite from_iter_id; [done|]. change (@map ?A ?B) with (@fmap list _ A B).
  rewrite (keys_fmap (λ k c, normalized_with_key_aliases c [k])). apply (well_formed_table t), Hw.
Qed.

Lemma root_sets_recorded p x : position (canonical (TTable t) []) p = Sets x → is_scalar x = true →
  p ∈ recorded (normalized_with_key_aliases (TTable t) []) [].
Proof.
  destruct p as [|k p]; [done|]. rewrite position_value_get, get_canonical by done.
  change (normalize_key_aliases [] t) with t. destruct (tm_get k t) as [c|] eqn:Hc; [|done]. cbn [fmap option_fmap option_map app].
  intros Hs Hx. rewrite normalized_root. apply elem_recorded_table. exists k, (normalized_with_key_aliases c [k]).
  split; [apply list_elem_of_fmap; exists (k, c); split; [done|by apply get_elem]|].
  apply (sets_recorded p [k] c x); [done|by eapply well_formed_get|done|done].
Qed.

Lemma root_recorded_not_silent p : dot_free (TTable t) = true →
  p ∈ recorded (normalized_with_key_aliases (TTable t) []) [] → position (canonical (TTable t) []) p ≠ Silent.
Proof.
  intros Hd. rewrite normalized_root. intros (j & c & Hjc & Hin)%elem_recorded_table. cbn [app] in Hin.
  apply list_elem_of_fmap in Hjc as ([k c'] & [= -> ->] & Hk).
  destruct (dot_free_elem _ _ _ Hd Hk) as [_ Hdc].
  destruct (recorded_extends _ [k] p (dot_free_normalized _ [k] Hdc) Hin) as [_ (r & -> & _)]. cbn [app].
  rewrite position_value_get, get_canonical by done. change (normalize_key_aliases [] t) with t.
  rewrite (elem_get _ _ _ (proj1 (proj1 (well_formed_table t) Hw)) Hk). cbn.
  apply (recorded_not_silent r [k] c'); [done|by eapply well_formed_elem|done|done].
Qed.
End root.

(** ** Origins of the effective configuration *)
Section origins.
Context `{Lowercase} (windows : bool) {Requirements : Type}.
Implicit Types (s : ConfigLayerStack (Requirements := Requirements)) (ls : list ConfigLayerEntry).

Definition layer_position (p : list str) (l : ConfigLayerEntry) : Position := position (canonical (layer_config l) []) p.

(** A value the layers resolve to is set by a layer above which all are silent. *)
Lemma resolve_split ls p v : resolve (layer_config <$> ls) p = Some v →
  ∃ before l after, ls = before ++ l :: after ∧ layer_position p l = Sets v ∧
    Forall (λ l, layer_position p l = Silent) after.
Proof.
  unfold resolve. induction ls as [|l ls IH] using rev_ind; [done|]. rewrite fmap_app, foldl_app. cbn [fmap list_fmap foldl].
  fold (layer_position p l). destruct (layer_position p l) eqn:Hl; cbn [over]; [|done|].
  - intros [= <-]. exists ls, l, []. done.
  - intros (b & x & a & -> & Hx & Ha)%IH. exists b, x, (a ++ [l]). rewrite <-app_assoc. split_and!; [done|done|].
    apply Forall_app. split; [done|]. by constructor.
Qed.

Definition record_layer (o : gmap str ConfigLayerMetadata) (l : ConfigLayerEntry) : gmap str ConfigLayerMetadata :=
  record_origins (normalized_with_key_aliases (layer_config l) []) (metadata l) [] o.

Lemma record_layer_sets o l p v : document (layer_config l) = true → is_scalar v = true →
  layer_position p l = Sets v → record_layer o l !! dotted p = Some (metadata l).
Proof.
  intros [Tl Hw]%andb_true_iff Hv Hs. unfold record_layer. rewrite record_origins_eq, record_all_lookup.
  rewrite bool_decide_eq_true_2; [done|]. apply list_elem_of_fmap_2. unfold layer_position in Hs.
  destruct (layer_config l) as [| | | | | |t]; try done. by apply (root_sets_recorded t Hw p v).
Qed.

Lemma record_layer_silent o l p : document (layer_config l) = true → dot_free (layer_config l) = true →
  p ≠ [] → Forall (λ k, DOT ∉ k) p → layer_position p l = Silent → record_layer o l !! dotted p = o !! dotted p.
Proof.
  intros [Tl Hw]%andb_true_iff Hd Hp Fp Hs. unfold record_layer. rewrite record_origins_eq, record_all_lookup.
  rewrite bool_decide_eq_false_2; [done|]. intros (q & Hq & Hin)%list_elem_of_fmap. unfold layer_position in Hs.
  destruct (recorded_extends _ _ _ (dot_free_normalized _ [] Hd) Hin) as [Hne (r & -> & Fr)]. cbn [app] in *.
  apply dotted_inj in Hq as <-; [|done..].
  destruct (layer_config l) as [| | | | | |t]; try done. by apply (root_recorded_not_silent t Hw p Hd Hin).
Qed.

(** The origin recorded under the dotted path of a scalar setting is the identity of the layer the
    effective configuration takes the setting from: the highest enabled layer that takes a position on the
    path (keys without dots, paths outside the shell-environment policy and the tables of domains). *)
Theorem origins_name_deciding_layer s p v :
  Forall (λ d, document d = true ∧ dot_free d = true) (enabled_configs s) →
  ordinary p = true → Forall (λ k, DOT ∉ k) p → is_scalar v = true →
  setting (canonical (effective_config windows s) []) p = Some v →
  ∃ before l after, layers_low_to_high s = before ++ l :: after ∧
    layer_position p l = Sets v ∧ Forall (λ l, layer_position p l = Silent) after ∧
    origins s !! dotted p = Some (metadata l).
Proof.
  intros Hd Hp Fp Hv Hs.
  assert (Forall (λ d, document d = true) (enabled_configs s)) as Hdoc by (eapply Forall_impl; [done|]; cbn; tauto).
  rewrite (effective_fold windows s), setting_merge_all in Hs by done.
  assert (setting (canonical (TTable []) []) p = None) as Hn by by destruct p. rewrite Hn in Hs. clear Hn.
  apply (resolve_split (layers_low_to_high s) p v) in Hs as (before & l & after & Heq & Hl & Ha).
  exists before, l, after. split_and!; [done..|]. unfold origins. fold record_layer. rewrite Heq, foldl_app. cbn [foldl].
  unfold enabled_configs in Hd. rewrite Heq, fmap_app, Forall_app, fmap_cons, Forall_cons in Hd.
  destruct Hd as (_ & [Hdl _] & Hda). apply Forall_fmap in Hda.
  assert (p ≠ []) as Hne.
  { intros ->. apply andb_true_iff in Hdl as [Tl _]. unfold layer_position in Hl. by destruct (layer_config l). }
  change (foldl record_layer (record_layer (foldl record_layer ∅ before) l) after !! dotted p = Some (metadata l)).
  pose proof (record_layer_sets (foldl record_layer ∅ before) l p v Hdl Hv Hl) as Hrec. revert Hrec.
  generalize (record_layer (foldl record_layer ∅ before) l).
  clear -Ha Hda Hne Fp. induction after as [|x after IH]; intros o Ho; [done|]. cbn [foldl].
  apply Forall_cons in Ha as [Hx Ha], Hda as [[Hxd Hxf] Hda]. apply IH; [done|done|]. by rewrite record_layer_silent.
Qed.
End origins.

(** ** Overrides *)
Fixpoint get_path (v : TomlValue) (p : list str) : option TomlValue :=
  match p with
  | [] => Some v
  | k :: p => c ← value_get v k; get_path c p
  end.

(** Two paths that part at some key. *)
Fixpoint diverge (p q : list str) : bool :=
  match p, q with
  | a :: p, b :: q => if bool_decide (a = b) then diverge p q else true
  | _, _ => false
  end.

Section overrides.
Context `{Lowercase} (windows : bool).

Lemma override_cons root traversed k k' segs v :
  override_at windows root traversed (k :: k' :: segs) v =
  match root with
  | TTable t =>
      TTable (tm_insert k (override_at windows (open_feature (traversed ++ [k]) (default (TTable []) (tm_get k t)))
        (traversed ++ [k]) (k' :: segs) v) t)
  | _ => TTable [(k, override_at windows (TTable []) (traversed ++ [k]) (k' :: segs) v)]
  end.
Proof. by destruct root. Qed.

Lemma override_reads v segs root traversed : segs ≠ [] →
  is_structured_feature_path (traversed ++ segs) = false →
  get_path (override_at windows root traversed segs v) segs = Some v.
Proof.
  revert root traversed. induction segs as [|k segs IH]; intros root traversed Hne Hs; [done|].
  destruct segs as [|k' segs].
  - cbn [override_at get_path]. unfold override_last. rewrite Hs.
    destruct root; cbn [value_get tm_get mbind option_bind]; rewrite ?get_insert_eq, ?bool_decide_eq_true_2 by done; done.
  - rewrite (cons_middle k traversed) in Hs. rewrite app_assoc in Hs.
    change (get_path ?r (k :: k' :: segs)) with (c ← value_get r k; get_path c (k' :: segs)).
    rewrite override_cons. destruct root; cbn [value_get tm_get]; rewrite ?get_insert_eq, ?bool_decide_eq_true_2 by done;
      cbn [mbind option_bind]; by apply IH.
Qed.

Lemma override_frame v w q segs root traversed : diverge q segs = true → get_path root q = Some v →
  get_path (override_at windows root traversed segs w) q = Some v.
Proof.
  revert q root traversed. induction segs as [|k segs IH]; intros [|j q] root traversed Hd Hg; try done.
  cbn [diverge] in Hd. cbn [get_path] in Hg. destruct root as [| | | | | |t]; try done. cbn [value_get] in Hg.
  destruct (bool_decide (j = k)) eqn:Hjk.
  - apply bool_decide_eq_true in Hjk as ->. destruct segs as [|k' segs]; [by destruct q|].
    rewrite override_cons.
    cbn [get_path value_get]. rewrite get_insert_eq. destruct (tm_get k t) as [c|]; [|done]. cbn [mbind option_bind default] in *.
    apply IH; [done|]. destruct q as [|j q]; [done|]. cbn [get_path] in Hg |- *. by destruct c.
  - apply bool_decide_eq_false in Hjk.
    assert (∀ x, get_path (TTable (tm_insert k x t)) (j :: q) = Some v) as Hins
      by (intros x; cbn [get_path value_get]; by rewrite get_insert_ne).
    destruct segs as [|k' segs]; [|apply Hins]. cbn [override_at]. unfold override_last.
    destruct (if is_structured_feature_path (traversed ++ [k]) then tm_get k t else None) as [e|]; [|apply Hins].
    destruct e, w; apply Hins.
Qed.

Lemma overrides_frame v q os root : Forall (λ o, diverge q (split_char DOT o.1) = true) os → get_path root q = Some v →
  get_path (foldl (λ root '(path, value), apply_toml_override windows root path value) root os) q = Some v.
Proof.
  revert root. induction os as [|[path w] os IH]; intros root Ho Hg; cbn [foldl]; [done|].
  apply Forall_cons in Ho as [Hd Ho]. apply IH; [done|]. by apply override_frame.
Qed.

(** The layer built from command-line overrides answers the value given last for a path: an override
    reads back at its dotted path whatever came before, and overrides of paths that part from it leave it. *)
Theorem overrides_read_back os1 path v os2 :
  is_structured_feature_path (split_char DOT path) = false →
  Forall (λ o, diverge (split_char DOT path) (split_char DOT o.1) = true) os2 →
  get_path (build_cli_overrides_layer windows (os1 ++ (path, v) :: os2)) (split_char DOT path) = Some v.
Proof.
  intros Hs Ho. unfold build_cli_overrides_layer. rewrite foldl_app. cbn [foldl]. apply overrides_frame; [done|].
  apply override_reads; [apply split_char_ne|done].
Qed.

Lemma structured_below p k q : is_structured_feature_path p = true → is_structured_feature_path (p ++ k :: q) = false.
Proof. intros [[f ->]|(x & f & ->)]%structured_cases; [destruct q as [|? []]|]; done. Qed.

Lemma override_feature b segs root traversed : segs ≠ [] →
  is_structured_feature_path (traversed ++ segs) = true →
  get_path (override_at windows root traversed segs (TBoolean b)) segs =
  Some match get_path root segs with
       | Some (TTable f) => TTable (tm_insert ENABLED (TBoolean b) f)
       | _ => TBoolean b
       end.
Proof.
  revert root traversed. induction segs as [|k segs IH]; intros root traversed Hne Hs; [done|].
  destruct segs as [|k' segs].
  - cbn [override_at get_path]. unfold override_last. rewrite Hs.
    destruct root as [| | | | | |t]; cbn [value_get tm_get mbind option_bind]; rewrite ?bool_decide_eq_true_2 by done; try done.
    destruct (tm_get k t) as [e|] eqn:He; cbn [value_get mbind option_bind]; [|by rewrite get_insert_eq].
    destruct e; cbn [value_get]; by rewrite get_insert_eq.
  - rewrite (cons_middle k traversed) in Hs. rewrite app_assoc in Hs.
    change (get_path ?r (k :: k' :: segs)) with (c ← value_get r k; get_path c (k' :: segs)).
    rewrite override_cons. destruct root as [| | | | | |t]; cbn [value_get tm_get]; rewrite ?get_insert_eq, ?bool_decide_eq_true_2 by done;
      cbn [mbind option_bind]; rewrite IH by done; try done.
    destruct (tm_get k t) as [c|]; cbn [default mbind option_bind]; [|done].
    destruct c; try done. unfold open_feature. destruct (is_structured_feature_path (traversed ++ [k])) eqn:E; [|done].
    by rewrite structured_below in Hs.
Qed.
(** Switching a structured feature by an override keeps the options an earlier override or table gave it:
    only its [enabled] key changes. *)
Theorem feature_override_keeps_options os path b :
  is_structured_feature_path (split_char DOT path) = true →
  get_path (build_cli_overrides_layer windows (os ++ [(path, TBoolean b)])) (split_char DOT path) =
  Some match get_path (build_cli_overrides_layer windows os) (split_char DOT path) with
       | Some (TTable options) => TTable (tm_insert ENABLED (TBoolean b) options)
       | _ => TBoolean b
       end.
Proof.
  intros Hs. unfold build_cli_overrides_layer. rewrite foldl_app. cbn [foldl]. unfold apply_toml_override at 1.
  apply override_feature; [apply split_char_ne|done].
Qed.
End overrides.

(** ** Constrained values *)
Section constrained.
Context {E T : Type} `{EqDecision T}.
Implicit Types c : Constrained E T.

(** A constrained value with the validators that were installed on it. *)
Inductive installed : Constrained E T → list (T → result E ()) → Prop :=
| installed_new x v c : constrained_new x v = Ok c → installed c [v]
| installed_normalized x n c : constrained_normalized x n = Ok c → installed c []
| installed_any x : installed (allow_any x) []
| installed_only bad x : installed (allow_only bad x)
    [λ y, if bool_decide (y = x) then Ok () else Err (bad y)]
| installed_set c vs x : installed c vs → installed (set c x).1 vs
| installed_add c vs v c' : installed c vs → add_validator c v = (c', Ok ()) → installed c' (v :: vs)
| installed_add_refused c vs v c' e : installed c vs → add_validator c v = (c', Err e) → installed c' vs.

(** The value held satisfies every validator that was installed, a candidate is accepted exactly when all
    of them accept it, and a refused assignment changes nothing. *)
Theorem constrained_invariant c vs :
  installed c vs →
  Forall (λ v, v (value c) = Ok ()) vs ∧
  (∀ x, can_set c x = Ok () ↔ Forall (λ v, v x = Ok ()) vs) ∧
  (∀ x e, (set c x).2 = Err e → (set c x).1 = c).
Proof.
  intros Hi.
  enough (validator c (value c) = Ok () ∧ ∀ x, validator c x = Ok () ↔ Forall (λ v, v x = Ok ()) vs) as [Hv Hc].
  { split_and!; [by apply Hc|done|]. intros x e. unfold set. cbv zeta. set (y := match normalizer c with Some n => n x | None => x end).
    by destruct (validator c y). }
  induction Hi as [x v c Hn|x n c Hn|x|bad x|c vs x Hi [IHv IHc]|c vs v c' Hi [IHv IHc] Ha|c vs v c' e Hi IH Ha].
  - unfold constrained_new in Hn. destruct (v x) as [[]|] eqn:Hx; [|done]. injection Hn as <-.
    split; [done|]. intros y. by rewrite Forall_singleton.
  - injection Hn as <-. split; [done|]. intros y. by rewrite Forall_nil.
  - split; [done|]. intros y. by rewrite Forall_nil.
  - split; [cbn; by rewrite bool_decide_eq_true_2|]. intros y. by rewrite Forall_singleton.
  - unfold set. cbv zeta. set (y := match normalizer c with Some n => n x | None => x end).
    destruct (validator c y) as [[]|] eqn:Hx; by split.
  - unfold add_validator in Ha. destruct (validator c (value c)) as [[]|] eqn:Hx; cbn [rbind] in Ha; [|done].
    destruct (v (value c)) as [[]|] eqn:Hv; [|done]. injection Ha as <-. cbn. rewrite Hx. split; [done|]. intros y.
    rewrite Forall_cons, <-IHc. destruct (validator c y) as [[]|]; cbn; naive_solver.
  - unfold add_validator in Ha. destruct (rbind _ _); [done|]. by injection Ha as <- _.
Qed.
End constrained.

(** ** The three layers again *)
#[local] Existing Instance ascii_lowercase.

Lemma origins_name_deciding_layer_witness :
  ∃ before l after, layers_low_to_high demo_stack = before ++ l :: after ∧
    layer_position [ $"features"; $"network_proxy"; $"port"] l = Sets (TInteger 3128) ∧
    Forall (λ l, layer_position [ $"features"; $"network_proxy"; $"port"] l = Silent) after ∧
    origins demo_stack !! $"features.network_proxy.port" = Some (metadata l).
Proof.
  apply (origins_name_deciding_layer false demo_stack [ $"features"; $"network_proxy"; $"port"]); [|done| |done|done].
  - demo_documents.
  - repeat constructor; by apply contains_char_not_in.
Defined.

(** The boolean of the session flags is the origin of the switch, the user's table that of the port. *)
Example demo_origins :
  meta_name <$> origins demo_stack !! $"features.network_proxy.enabled" = Some SessionFlags ∧
  meta_name <$> origins demo_stack !! $"features.network_proxy.port" = Some (User [ $"home"; $"config.toml"] None).
Proof. split; vm_compute; reflexivity. Qed.

(** Elements of an array that a higher layer replaced by a shorter one keep an origin. *)
Example replaced_array_origin :
  let low := entry_new demo_version (User [ $"config.toml"] None) (TTable [($"notify", TArray [TString ($"a"); TString ($"b")])]) in
  let high := entry_new demo_version SessionFlags (TTable [($"notify", TArray [TString ($"c")])]) in
  let s := mkStack (Requirements := ()) [low; high] () false None in
  effective_config false s = TTable [($"notify", TArray [TString ($"c")])] ∧
  meta_name <$> origins s !! $"notify.1" = Some (User [ $"config.toml"] None).
Proof. split; vm_compute; reflexivity. Qed.

(** Filters are spelled in lower case in the effective configuration, in the layer's spelling in the origins. *)
Example filter_origin_spelling :
  get_path (effective_config false demo_stack) [SHELL_POLICY; $"filters"; $"path"] = Some (TString ($"include")) ∧
  origins demo_stack !! $"shell_environment_policy.filters.path" = None ∧
  meta_name <$> origins demo_stack !! $"shell_environment_policy.filters.PATH" = Some (Project [ $"repo"; $".codex"]).
Proof. split_and!; vm_compute; reflexivity. Qed.

Definition demo_overrides : list (str * TomlValue) :=
  [($"model", TString ($"x")); ($"features.network_proxy.port", TInteger 1)].

Lemma overrides_read_back_witness :
  get_path (build_cli_overrides_layer false (demo_overrides ++ ($"tui.theme", TString ($"dark")) :: [($"tui.width", TInteger 80)]))
    [ $"tui"; $"theme"] = Some (TString ($"dark")).
Proof. apply (overrides_read_back false demo_overrides ($"tui.theme")); [done|]. by repeat constructor. Defined.

Lemma feature_override_keeps_options_witness :
  get_path (build_cli_overrides_layer false (demo_overrides ++ [($"features.network_proxy", TBoolean true)]))
    [ $"features"; $"network_proxy"] = Some (TTable [($"port", TInteger 1); (ENABLED, TBoolean true)]).
Proof.
  change [ $"features"; $"network_proxy"] with (split_char DOT ($"features.network_proxy")).
  rewrite (feature_override_keeps_options false demo_overrides ($"features.network_proxy") true eq_refl). reflexivity.
Defined.

Definition demo_constrained : Constrained str nat :=
  mkConstrained 5 (λ n, if bool_decide (n < 10) then Ok () else Err ($"too large")) None.

Lemma constrained_invariant_witness :
  can_set (set demo_constrained 7).1 3 = Ok () ∧ value (set demo_constrained 7).1 = 7.
Proof.
  assert (installed (set demo_constrained 7).1 [λ n, if bool_decide (n < 10) then Ok () else Err ($"too large")]) as Hi
    by (apply installed_set, (installed_new 5); reflexivity).
  split; [|reflexivity]. apply (proj1 (proj2 (constrained_invariant _ _ Hi))). by repeat constructor.
Defined.
