(* ===== verification/ThreadItems.v ===== *)
(** * Items of a thread and the events they are built from:
    [app-server-protocol/src/protocol/item_builders.rs], the item and turn types of
    [app-server-protocol/src/protocol/v2], and the events of [protocol/src/protocol.rs]

    A thread is shown to clients as turns of items. Items are built from recorded
    events. Values that the code only copies, or converts field by field between
    the two protocol packages, have opaque types here (the class [Wire]); so do
    the functions of other components that render a command, a finding or a
    completed item. *)

From stdpp Require Import prelude list gmap strings sorting.
From S2P Require Import Prelude.

(** ** Opaque values and functions *)
Class Wire := {
  Json : Type;
  json_null : Json;
  TextElement : Type;
  ImageDetail : Type;
  MemoryCitation : Type;
  AgentMessageDelivery : Type;
  AsyncUserInputQuestion : Type;
  FunctionCallOutputBody : Type;
  ReasoningEffort : Type;
  SubAgentActivityKind : Type;
  WebSearchAction : Type;
  CommandExecutionSource : Type;
  (** [CommandExecutionSource::Agent] *)
  source_agent : CommandExecutionSource;
  ImageGenerationFailure : Type;
  MisalignmentErrorDetails : Type;
  ReviewFinding : Type;
  SleepItem : Type;
  sleep_id : SleepItem → str;
  (** A parsed message part and the result of a tool call *)
  ContentItem : Type;
  CallToolResult : Type;
  call_tool_is_error : CallToolResult → option bool;
  (** The text of an input part, if it is one; the fragment its XML states. *)
  input_text : ContentItem → option str;
  from_xml_str : str → option (str * str);
  (** Rendering of commands and findings *)
  redact_secrets : str → str;
  shlex_join : list str → str;
  uri_join : str → str → option str;
  abs_join : str → str → str;
  format_review_findings_block : list ReviewFinding → str;
  (** The n-th identifier drawn from the clock and the random source *)
  uuid_now_v7 : nat → str;
  (** An item of the core protocol, with its conversion *)
  ItemPayload : Type;
}.

Definition I64_MAX : Z := (2 ^ 63 - 1)%Z.

(** [i64::try_from] of a count of milliseconds. *)
Definition try_i64 (n : N) : option Z := if (Z.of_N n <=? I64_MAX)%Z then Some (Z.of_N n) else None.

Section items.
Context {W : Wire}.

(** ** Messages *)
Inductive MessagePhase : Type := Commentary | FinalAnswer.

(** A fact of a realtime session; its content is copied. *)
Record RealtimeItem := mkRealtime { realtime_id : str; realtime_session_id : str; realtime_type : str; realtime_content : Json }.

(** ** Commands *)
Inductive ParsedCommand : Type :=
| ParsedRead (cmd name path : str)
| ParsedListFiles (cmd : str) (path : option str)
| ParsedSearch (cmd : str) (query path : option str)
| ParsedUnknown (cmd : str).

Inductive CommandAction : Type :=
| ActionRead (command name path : str)
| ActionListFiles (command : str) (path : option str)
| ActionSearch (command : str) (query path : option str)
| ActionUnknown (command : str).

Inductive CommandExecutionStatus : Type := CommandInProgress | CommandCompleted | CommandFailed | CommandDeclined.
Inductive PatchApplyStatus : Type := PatchInProgress | PatchCompleted | PatchFailed | PatchDeclined.
Inductive McpToolCallStatus : Type := McpInProgress | McpCompleted | McpFailed.
Inductive DynamicToolCallStatus : Type := DynamicInProgress | DynamicCompleted | DynamicFailed.
Inductive CollabAgentTool : Type := SpawnAgent | SendInput | ResumeAgent | WaitAgents | CloseAgent.
Inductive CollabAgentToolCallStatus : Type := CollabInProgress | CollabCompleted | CollabFailed.

Definition command_actions_for_path_uri (parsed_cmd : list ParsedCommand) (cwd : str) : list CommandAction :=
  omap (λ parsed,
    match parsed with
    | ParsedRead cmd name path =>
        match uri_join cwd path with
        | Some path => Some (ActionRead (redact_secrets cmd) name path)
        | None => None
        end
    | ParsedListFiles cmd path => Some (ActionListFiles (redact_secrets cmd) path)
    | ParsedSearch cmd query path => Some (ActionSearch (redact_secrets cmd) (redact_secrets <$> query) path)
    | ParsedUnknown cmd => Some (ActionUnknown (redact_secrets cmd))
    end) parsed_cmd.

Definition from_core_with_cwd (value : ParsedCommand) (cwd : str) : CommandAction :=
  match value with
  | ParsedRead cmd name path => ActionRead cmd name (abs_join cwd path)
  | ParsedListFiles cmd path => ActionListFiles cmd path
  | ParsedSearch cmd query path => ActionSearch cmd query path
  | ParsedUnknown cmd => ActionUnknown cmd
  end.

(** ** Agents *)
Inductive AgentStatus : Type :=
| PendingInit
| Running
| AgentInterrupted
| AgentCompleted (message : option str)
| Errored (message : str)
| Shutdown
| NotFound.

Inductive CollabAgentStatus : Type :=
| CollabPendingInit | CollabRunning | CollabInterrupted | CollabDone | CollabErrored | CollabShutdown | CollabNotFound.

Record CollabAgentState := mkAgentState { agent_status : CollabAgentStatus; agent_message : option str }.

Definition collab_agent_state (value : AgentStatus) : CollabAgentState :=
  match value with
  | PendingInit => mkAgentState CollabPendingInit None
  | Running => mkAgentState CollabRunning None
  | AgentInterrupted => mkAgentState CollabInterrupted None
  | AgentCompleted message => mkAgentState CollabDone message
  | Errored message => mkAgentState CollabErrored (Some message)
  | Shutdown => mkAgentState CollabShutdown None
  | NotFound => mkAgentState CollabNotFound None
  end.

(** ** File changes *)
Inductive FileChange : Type :=
| ChangeAdd (content : str)
| ChangeDelete (content : str)
| ChangeUpdate (unified_diff : str) (move_path : option str).

Inductive PatchChangeKind : Type := KindAdd | KindDelete | KindUpdate (move_path : option str).
Record FileUpdateChange := mkFileUpdate { update_path : str; update_kind : PatchChangeKind; update_diff : str }.

Definition map_patch_change_kind (change : FileChange) : PatchChangeKind :=
  match change with
  | ChangeAdd _ => KindAdd
  | ChangeDelete _ => KindDelete
  | ChangeUpdate _ move_path => KindUpdate move_path
  end.

Definition format_file_change_diff (change : FileChange) : str :=
  match change with
  | ChangeAdd content | ChangeDelete content => content
  | ChangeUpdate unified_diff (Some path) => unified_diff ++ [LF; LF] ++ $"Moved to: " ++ path
  | ChangeUpdate unified_diff None => unified_diff
  end.

Definition update_le (a b : FileUpdateChange) : Prop := str_le (update_path a) (update_path b).
#[global] Instance update_le_dec : RelDecision update_le.
Proof. intros a b. unfold update_le, str_le. apply _. Defined.

Definition convert_patch_changes (changes : gmap str FileChange) : list FileUpdateChange :=
  merge_sort update_le
    ((λ '(path, change), mkFileUpdate path (map_patch_change_kind change) (format_file_change_diff change))
       <$> map_to_list changes).

(** ** Thread items *)
Inductive UserInput : Type :=
| InputTextPart (text : str) (text_elements : list TextElement)
| InputImage (url : str) (detail : option ImageDetail)
| InputLocalImage (path : str) (detail : option ImageDetail)
| InputAudio (url : str)
| InputLocalAudio (path : str).

Record HookPromptFragment := mkFragment { fragment_text : str; hook_run_id : str }.

Record McpToolCallAppContext := mkAppContext {
  connector_id : str;
  app_link_id : option str;
  resource_uri : option str;
  app_name : option str;
  app_action_name : option str;
}.

Inductive DynamicContent : Type :=
| DynamicText (text : str)
| DynamicImage (image_url : str)
| DynamicAudio (audio_url : str).

Inductive ThreadItem : Type :=
| UserMessage (id : str) (client_id : option str) (content : list UserInput)
| HookPrompt (id : str) (fragments : list HookPromptFragment)
| AgentMessage (id text : str) (phase : option MessagePhase) (memory_citation : option MemoryCitation)
    (delivery : option AgentMessageDelivery) (questions : option (list AsyncUserInputQuestion))
| FunctionCallOutput (id name : str) (namespace : option str) (output : FunctionCallOutputBody)
| Plan (id text : str)
| Reasoning (id : str) (summary content : list str)
| CommandExecution (id : str) (plugin_id script_path : option str) (command cwd : str) (process_id : option str)
    (source : CommandExecutionSource) (status : CommandExecutionStatus) (command_actions : list CommandAction)
    (aggregated_output : option str) (exit_code : option Z) (duration_ms : option Z)
| FileChangeItem (id : str) (changes : list FileUpdateChange) (status : PatchApplyStatus)
| McpToolCall (id server tool : str) (status : McpToolCallStatus) (arguments : Json)
    (app_context : option McpToolCallAppContext) (mcp_app_resource_uri plugin_id : option str)
    (read_only_hint : option bool) (result : option CallToolResult) (error : option str) (duration_ms : option Z)
| DynamicToolCall (id : str) (namespace : option str) (tool : str) (arguments : Json)
    (status : DynamicToolCallStatus) (content_items : option (list DynamicContent)) (success : option bool)
    (duration_ms : option Z)
| CollabAgentToolCall (id : str) (tool : CollabAgentTool) (status : CollabAgentToolCallStatus)
    (sender_thread_id : str) (receiver_thread_ids : list str) (prompt model : option str)
    (reasoning_effort : option ReasoningEffort) (agents_states : gmap str CollabAgentState)
| SubAgentActivity (id : str) (kind : SubAgentActivityKind) (agent_thread_id agent_path : str)
| WebSearch (id query : str) (action : option WebSearchAction) (results : option Json)
| ImageView (id path : str)
| Sleep (item : SleepItem)
| ImageGeneration (id status : str) (revised_prompt : option str) (result : str)
    (transparent_background : option bool) (failure : option ImageGenerationFailure) (saved_path : option str)
    (imagegen_request_id : option str)
| EnteredReviewMode (id review : str)
| ExitedReviewMode (id review : str)
| ContextCompaction (id : str).

Definition item_id (item : ThreadItem) : str :=
  match item with
  | UserMessage id _ _ | HookPrompt id _ | AgentMessage id _ _ _ _ _ | FunctionCallOutput id _ _ _ | Plan id _
  | Reasoning id _ _ | CommandExecution id _ _ _ _ _ _ _ _ _ _ _ | FileChangeItem id _ _
  | McpToolCall id _ _ _ _ _ _ _ _ _ _ _ | DynamicToolCall id _ _ _ _ _ _ _ | CollabAgentToolCall id _ _ _ _ _ _ _ _
  | SubAgentActivity id _ _ _ | ImageView id _ | EnteredReviewMode id _ | ExitedReviewMode id _ | ContextCompaction id
  | WebSearch id _ _ _ | ImageGeneration id _ _ _ _ _ _ _ => id
  | Sleep item => sleep_id item
  end.

(** ** Turns *)
Inductive TurnStatus : Type := TurnCompleted | TurnInterrupted | TurnFailed | TurnInProgress.

Inductive CodexErrorInfo : Type :=
| ContextWindowExceeded | SessionBudgetExceeded | UsageLimitExceeded | RateLimitExceeded | ServerOverloaded
| CyberPolicy | MisalignmentPolicyViolation
| HttpConnectionFailed (http_status_code : option N)
| ResponseStreamConnectionFailed (http_status_code : option N)
| InternalServerError | Unauthorized | BadRequest | SandboxError
| ResponseStreamDisconnected (http_status_code : option N)
| ResponseTooManyFailedAttempts (http_status_code : option N)
| ActiveTurnNotSteerable (review : bool)
| ThreadRollbackFailed
| OtherError.

Definition info_affects_turn_status (info : CodexErrorInfo) : bool :=
  match info with ThreadRollbackFailed | ActiveTurnNotSteerable _ => false | _ => true end.

Record ErrorEvent := mkErrorEvent {
  error_message : str;
  error_info : option CodexErrorInfo;
  error_misalignment : option MisalignmentErrorDetails;
}.

Definition affects_turn_status (e : ErrorEvent) : bool :=
  match error_info e with None => true | Some info => info_affects_turn_status info end.

Record TurnError := mkTurnError {
  turn_error_misalignment : option MisalignmentErrorDetails;
  turn_error_message : str;
  turn_error_info : option CodexErrorInfo;
  additional_details : option str;
}.

Definition turn_error (e : ErrorEvent) : TurnError :=
  mkTurnError (error_misalignment e) (error_message e) (error_info e) None.

Record Turn := mkTurn {
  turn_id : str;
  turn_items : list ThreadItem;
  turn_err : option TurnError;
  turn_status : TurnStatus;
  turn_started_at : option Z;
  turn_completed_at : option Z;
  turn_duration_ms : option Z;
}.

(** ** Events *)
Record UserMessageEvent := mkUserMessageEvent {
  um_client_id : option str;
  um_message : str;
  um_images : option (list str);
  um_image_details : list (option ImageDetail);
  um_local_images : list str;
  um_local_image_details : list (option ImageDetail);
  um_audio : option (list str);
  um_local_audio : list str;
  um_text_elements : list TextElement;
}.

Record ExecCommandBeginEvent := mkExecBegin {
  eb_call_id : str;
  eb_plugin_id : option str;
  eb_script_path : option str;
  eb_process_id : option str;
  eb_turn_id : str;
  eb_command : list str;
  eb_cwd : str;
  eb_parsed_cmd : list ParsedCommand;
  eb_source : CommandExecutionSource;
}.

Record ExecCommandEndEvent := mkExecEnd {
  ee_begin : ExecCommandBeginEvent;
  ee_aggregated_output : str;
  ee_exit_code : Z;
  ee_duration_millis : N;
  ee_status : CommandExecutionStatus;
}.

Inductive GuardianAssessmentStatus : Type := GuardianInProgress | GuardianApproved | GuardianDenied | GuardianTimedOut | GuardianAborted.
Inductive GuardianAssessmentAction : Type :=
| GuardianCommand (command cwd : str)
| GuardianExecve (program : str) (argv : list str) (cwd : str)
| GuardianOther.

Record GuardianAssessmentEvent := mkGuardian {
  ga_target_item_id : option str;
  ga_plugin_id : option str;
  ga_script_path : option str;
  ga_turn_id : str;
  ga_status : GuardianAssessmentStatus;
  ga_action : GuardianAssessmentAction;
}.

Record PatchEvent := mkPatchEvent { pe_call_id : str; pe_turn_id : str; pe_changes : gmap str FileChange }.

Record DynamicToolCallEvent := mkDynamicCall {
  dt_call_id : str;
  dt_turn_id : str;
  dt_namespace : option str;
  dt_tool : str;
  dt_arguments : Json;
}.
Record DynamicToolCallResponse := mkDynamicResponse {
  dr_call : DynamicToolCallEvent;
  dr_content_items : list DynamicContent;
  dr_success : bool;
  dr_duration_millis : N;
}.

Record McpToolCallBeginEvent := mkMcpBegin {
  mb_call_id : str;
  mb_server : str;
  mb_tool : str;
  mb_arguments : option Json;
  mb_connector_id : option str;
  mb_mcp_app_resource_uri : option str;
  mb_link_id : option str;
  mb_app_name : option str;
  mb_action_name : option str;
  mb_plugin_id : option str;
  mb_read_only_hint : option bool;
}.
Record McpToolCallEndEvent := mkMcpEnd {
  me_begin : McpToolCallBeginEvent;
  me_duration_millis : N;
  me_result : result str CallToolResult;
}.

Record ImageGenerationEndEvent := mkImageEnd {
  ie_call_id : str;
  ie_status : str;
  ie_revised_prompt : option str;
  ie_result : str;
  ie_transparent_background : option bool;
  ie_failure : option ImageGenerationFailure;
  ie_saved_path : option str;
}.

Record ReviewOutputEvent := mkReviewOutput { overall_explanation : str; findings : list ReviewFinding }.

(** Items of the core protocol by kind; the payload is converted elsewhere. *)
Inductive TurnItemKind : Type :=
| KPlan (text : str)
| KHookPrompt | KFunctionCallOutput | KCommandExecution | KDynamicToolCall | KCollabAgentToolCall
| KSubAgentActivity | KExtension | KEnteredReviewMode | KExitedReviewMode
| KUserMessage | KAgentMessage | KReasoning | KWebSearch | KImageView | KImageGeneration | KFileChange
| KMcpToolCall | KContextCompaction.
Record TurnItem := mkTurnItem { turn_item_kind : TurnItemKind; turn_item_payload : ItemPayload }.

Inductive EventMsg : Type :=
| EvUserMessage (payload : UserMessageEvent)
| EvAgentMessage (message : str) (phase : option MessagePhase) (memory_citation : option MemoryCitation)
    (delivery : option AgentMessageDelivery) (questions : option (list AsyncUserInputQuestion))
| EvAgentReasoning (text : str)
| EvAgentReasoningRawContent (text : str)
| EvWebSearchBegin (call_id : str)
| EvWebSearchEnd (call_id query : str) (action : WebSearchAction) (results : option Json)
| EvExecCommandBegin (payload : ExecCommandBeginEvent)
| EvExecCommandEnd (payload : ExecCommandEndEvent)
| EvGuardianAssessment (payload : GuardianAssessmentEvent)
| EvApplyPatchApprovalRequest (payload : PatchEvent)
| EvPatchApplyBegin (payload : PatchEvent)
| EvPatchApplyEnd (payload : PatchEvent) (status : PatchApplyStatus)
| EvDynamicToolCallRequest (payload : DynamicToolCallEvent)
| EvDynamicToolCallResponse (payload : DynamicToolCallResponse)
| EvMcpToolCallBegin (payload : McpToolCallBeginEvent)
| EvMcpToolCallEnd (payload : McpToolCallEndEvent)
| EvViewImageToolCall (call_id path : str)
| EvImageGenerationBegin (call_id : str)
| EvImageGenerationEnd (payload : ImageGenerationEndEvent)
| EvCollabAgentSpawnBegin (call_id sender prompt model : str) (effort : ReasoningEffort)
| EvCollabAgentSpawnEnd (call_id sender : str) (new_thread : option str) (prompt model : str)
    (effort : ReasoningEffort) (status : AgentStatus)
| EvCollabAgentInteractionBegin (call_id sender receiver prompt : str)
| EvCollabAgentInteractionEnd (call_id sender receiver prompt : str) (status : AgentStatus)
| EvSubAgentActivity (event_id : str) (kind : SubAgentActivityKind) (agent_thread agent_path : str)
| EvCollabWaitingBegin (call_id sender : str) (receivers : list str)
| EvCollabWaitingEnd (call_id sender : str) (statuses : gmap str AgentStatus)
| EvCollabCloseBegin (call_id sender receiver : str)
| EvCollabCloseEnd (call_id sender receiver : str) (status : AgentStatus)
| EvCollabResumeBegin (call_id sender receiver : str)
| EvCollabResumeEnd (call_id sender receiver : str) (status : AgentStatus)
| EvContextCompacted
| EvEnteredReviewMode (turn_id item_id user_facing_hint : option str)
| EvExitedReviewMode (turn_id item_id : option str) (review_output : option ReviewOutputEvent)
| EvItemStarted (turn_id : str) (item : TurnItem)
| EvItemCompleted (turn_id : str) (item : TurnItem) (started_at_ms : option Z) (completed_at_ms : Z)
| EvError (payload : ErrorEvent)
| EvThreadRolledBack (num_turns : N)
| EvTurnAborted (turn_id : option str) (started_at completed_at duration_ms : option Z)
| EvTurnStarted (turn_id : str) (started_at : option Z)
| EvTurnComplete (turn_id : str) (error : option ErrorEvent) (started_at completed_at duration_ms : option Z)
| EvOther.

(** The variants of [RolloutItem] the history reads. *)
Inductive RolloutItem : Type :=
| RolloutEvent (event : EventMsg)
| RolloutCompacted
| RolloutMessage (role : str) (content : list ContentItem) (id : option str)
| RolloutRealtime (item : RealtimeItem)
| RolloutOther.

(** ** Item builders *)
Definition REVIEW_FALLBACK_MESSAGE : str := $"Reviewer failed to output a response.".

Definition render_review_output_text (output : ReviewOutputEvent) : str :=
  let explanation := trim (overall_explanation output) in
  let sections := if is_empty explanation then [] else [explanation] in
  let sections :=
    if is_empty (findings output) then sections
    else let trimmed := trim (format_review_findings_block (findings output)) in
         if is_empty trimmed then sections else sections ++ [trimmed] in
  if is_empty sections then REVIEW_FALLBACK_MESSAGE else join [LF; LF] sections.

Definition review_output_text (output : option ReviewOutputEvent) : str :=
  match output with Some output => render_review_output_text output | None => REVIEW_FALLBACK_MESSAGE end.

Definition build_file_change_approval_request_item (p : PatchEvent) : ThreadItem :=
  FileChangeItem (pe_call_id p) (convert_patch_changes (pe_changes p)) PatchInProgress.
Definition build_file_change_begin_item (p : PatchEvent) : ThreadItem :=
  FileChangeItem (pe_call_id p) (convert_patch_changes (pe_changes p)) PatchInProgress.
Definition build_file_change_end_item (p : PatchEvent) (status : PatchApplyStatus) : ThreadItem :=
  FileChangeItem (pe_call_id p) (convert_patch_changes (pe_changes p)) status.

(** [CommandExecutionPresentation::from_raw]. *)
Definition presentation (command : list str) (parsed_cmd : list ParsedCommand) (cwd : str) : str * list CommandAction :=
  (redact_secrets (shlex_join command), command_actions_for_path_uri parsed_cmd cwd).

Definition build_command_execution_begin_item (p : ExecCommandBeginEvent) : ThreadItem :=
  let '(command, actions) := presentation (eb_command p) (eb_parsed_cmd p) (eb_cwd p) in
  CommandExecution (eb_call_id p) (eb_plugin_id p) (eb_script_path p) command (eb_cwd p) (eb_process_id p)
    (eb_source p) CommandInProgress actions None None None.

Definition build_command_execution_end_item (e : ExecCommandEndEvent) : ThreadItem :=
  let p := ee_begin e in
  let aggregated_output := if is_empty (ee_aggregated_output e) then None else Some (ee_aggregated_output e) in
  let duration_ms := default I64_MAX (try_i64 (ee_duration_millis e)) in
  let '(command, actions) := presentation (eb_command p) (eb_parsed_cmd p) (eb_cwd p) in
  CommandExecution (eb_call_id p) (eb_plugin_id p) (eb_script_path p) command (eb_cwd p) (eb_process_id p)
    (eb_source p) (ee_status e) actions aggregated_output (Some (ee_exit_code e)) (Some duration_ms).

(** [parse_command] summarises a command ([shell-command/src/parse_command.rs]). *)
Definition build_item_from_guardian_event (parse_command : list str → list ParsedCommand)
    (a : GuardianAssessmentEvent) (status : CommandExecutionStatus) : option ThreadItem :=
  match ga_action a with
  | GuardianCommand command cwd =>
      id ← ga_target_item_id a;
      Some (CommandExecution id (ga_plugin_id a) (ga_script_path a) command cwd None source_agent status
        [ActionUnknown command] None None None)
  | GuardianExecve program argv cwd =>
      id ← ga_target_item_id a;
      let argv := if is_empty argv then [program] else program :: drop 1 argv in
      let command := shlex_join argv in
      let parsed_cmd := parse_command argv in
      let actions := if is_empty parsed_cmd then [ActionUnknown command]
                     else (λ parsed, from_core_with_cwd parsed cwd) <$> parsed_cmd in
      Some (CommandExecution id (ga_plugin_id a) (ga_script_path a) command cwd None source_agent status
        actions None None None)
  | GuardianOther => None
  end.

Definition parse_hook_prompt_fragment (text : str) : option HookPromptFragment :=
  match from_xml_str (trim text) with
  | Some (text, run_id) => if is_empty (trim run_id) then None else Some (mkFragment text run_id)
  | None => None
  end.

(** The fragments of a message all of whose parts are hook prompts. *)
Definition parse_hook_prompt_fragments (content : list ContentItem) : option (list HookPromptFragment) :=
  match mapM (λ part, input_text part ≫= parse_hook_prompt_fragment) content with
  | Some [] | None => None
  | Some fragments => Some fragments
  end.
End items.
