(* ===== verification/ThreadHistory.v ===== *)
(** * Rebuilding a thread from its events:
    [app-server-protocol/src/protocol/thread_history.rs]

    The builder reduces recorded events to turns of items. Items of a turn are
    found by a lazily built index; an event may refer to a turn that is already
    finished. On request the builder reports what each event changed, and a batch
    of reports is coalesced. *)

From stdpp Require Import prelude list gmap strings sorting pretty.
From S2P Require Import Prelude ThreadItems.

Section history.
Context {W : Wire}.
(** [ThreadItem::from] of an item of the core protocol, and the summary of a command. *)
Context (thread_item_from : TurnItem → ThreadItem) (parse_command : list str → list ParsedCommand).

(** ** Items of a turn and their index *)
Definition TURN_ITEM_INDEX_THRESHOLD : nat := 32.

(** The position of the first occurrence of each identifier, once built. *)
Notation TurnItemIndex := (option (gmap str nat)).

(** [entry(key).or_insert(value)]. *)
Definition entry_or_insert (key : str) (value : nat) (positions : gmap str nat) : gmap str nat :=
  match positions !! key with Some _ => positions | None => <[key := value]> positions end.

Definition index_push (index : TurnItemIndex) (items : list ThreadItem) (item : ThreadItem)
    : TurnItemIndex * list ThreadItem :=
  (entry_or_insert (item_id item) (length items) <$> index, items ++ [item]).

Definition build_positions (items : list ThreadItem) : gmap str nat :=
  foldl (λ positions '(index, existing), entry_or_insert (item_id existing) index positions)
    ∅ (imap (λ index existing, (index, existing)) items).

(** [items.iter().position(|existing| existing.id() == id)] *)
Fixpoint position_of (id : str) (items : list ThreadItem) : option nat :=
  match items with
  | [] => None
  | x :: items => if bool_decide (item_id x = id) then Some 0 else S <$> position_of id items
  end.

Definition index_upsert (index : TurnItemIndex) (items : list ThreadItem) (item : ThreadItem)
    : TurnItemIndex * list ThreadItem :=
  let index :=
    match index with
    | None => if TURN_ITEM_INDEX_THRESHOLD <=? length items then Some (build_positions items) else None
    | Some positions => Some positions
    end in
  let existing_index :=
    match index with
    | Some positions => positions !! item_id item
    | None => position_of (item_id item) items
    end in
  match existing_index with
  | Some i => (index, <[i := item]> items)
  | None => index_push index items item
  end.

(** ** Turns under construction *)
Record PendingTurn := mkPending {
  pt_id : str;
  pt_items : list ThreadItem;
  pt_index : TurnItemIndex;
  pt_error : option TurnError;
  pt_status : TurnStatus;
  pt_started_at : option Z;
  pt_completed_at : option Z;
  pt_duration_ms : option Z;
  pt_opened_explicitly : bool;
  pt_saw_compaction : bool;
  pt_rollout_start_index : nat;
}.

Definition turn_of (t : PendingTurn) : Turn :=
  mkTurn (pt_id t) (pt_items t) (pt_error t) (pt_status t) (pt_started_at t) (pt_completed_at t) (pt_duration_ms t).

Definition with_items (t : PendingTurn) (ii : TurnItemIndex * list ThreadItem) : PendingTurn :=
  mkPending (pt_id t) ii.2 ii.1 (pt_error t) (pt_status t) (pt_started_at t) (pt_completed_at t) (pt_duration_ms t)
    (pt_opened_explicitly t) (pt_saw_compaction t) (pt_rollout_start_index t).
Definition with_outcome (t : PendingTurn) (error : option TurnError) (status : TurnStatus)
    (completed_at duration_ms : option Z) : PendingTurn :=
  mkPending (pt_id t) (pt_items t) (pt_index t) error status (pt_started_at t) completed_at duration_ms
    (pt_opened_explicitly t) (pt_saw_compaction t) (pt_rollout_start_index t).
Definition opened_explicitly (t : PendingTurn) : PendingTurn :=
  mkPending (pt_id t) (pt_items t) (pt_index t) (pt_error t) (pt_status t) (pt_started_at t) (pt_completed_at t)
    (pt_duration_ms t) true (pt_saw_compaction t) (pt_rollout_start_index t).
Definition with_status (t : PendingTurn) (status : TurnStatus) : PendingTurn :=
  with_outcome t (pt_error t) status (pt_completed_at t) (pt_duration_ms t).
Definition with_started_at (t : PendingTurn) (started_at : option Z) : PendingTurn :=
  mkPending (pt_id t) (pt_items t) (pt_index t) (pt_error t) (pt_status t) started_at (pt_completed_at t)
    (pt_duration_ms t) (pt_opened_explicitly t) (pt_saw_compaction t) (pt_rollout_start_index t).
Definition mark_compaction (t : PendingTurn) : PendingTurn :=
  mkPending (pt_id t) (pt_items t) (pt_index t) (pt_error t) (pt_status t) (pt_started_at t) (pt_completed_at t)
    (pt_duration_ms t) (pt_opened_explicitly t) true (pt_rollout_start_index t).

Definition push_item (t : PendingTurn) (item : ThreadItem) : PendingTurn :=
  with_items t (index_push (pt_index t) (pt_items t) item).
Definition upsert_item (t : PendingTurn) (item : ThreadItem) : PendingTurn :=
  with_items t (index_upsert (pt_index t) (pt_items t) item).

(** ** Changes *)
Record ThreadHistoryItemChange := mkItemChange {
  ic_turn_id : str;
  ic_item : ThreadItem;
  ic_started_at_ms : option Z;
  ic_completed_at_ms : option Z;
}.

Record ThreadHistoryTurnChange := mkTurnChange {
  tc_turn_id : str;
  tc_status : TurnStatus;
  tc_error : option TurnError;
  tc_started_at : option Z;
  tc_completed_at : option Z;
  tc_duration_ms : option Z;
}.

Record ThreadHistoryChangeSet := mkChangeSet {
  changed_items : list ThreadHistoryItemChange;
  changed_turns : list ThreadHistoryTurnChange;
  removed_turn_ids : list str;
}.

Definition no_changes : ThreadHistoryChangeSet := mkChangeSet [] [] [].
Definition changes_empty (c : ThreadHistoryChangeSet) : bool :=
  is_empty (changed_items c) && is_empty (changed_turns c) && is_empty (removed_turn_ids c).

Definition from_pending_turn (t : PendingTurn) : ThreadHistoryTurnChange :=
  mkTurnChange (pt_id t) (pt_status t) (pt_error t) (pt_started_at t) (pt_completed_at t) (pt_duration_ms t).

(** ** The builder *)
Record ThreadHistoryBuilder := mkBuilder {
  turns : list PendingTurn;
  current_turn : option PendingTurn;
  next_item_index : Z;
  current_rollout_index : nat;
  next_rollout_index : nat;
  active_change_set : option ThreadHistoryChangeSet;
  (** how many random identifiers were drawn *)
  uuids_drawn : nat;
}.
Implicit Types b : ThreadHistoryBuilder.

Definition builder_new : ThreadHistoryBuilder := mkBuilder [] None 1 0 0 None 0.

(** [reset]: a new builder; the source of identifiers goes on. *)
Definition builder_reset b : ThreadHistoryBuilder := mkBuilder [] None 1 0 0 None (uuids_drawn b).

Definition set_turns b (ts : list PendingTurn) : ThreadHistoryBuilder :=
  mkBuilder ts (current_turn b) (next_item_index b) (current_rollout_index b) (next_rollout_index b)
    (active_change_set b) (uuids_drawn b).
Definition set_current b (t : option PendingTurn) : ThreadHistoryBuilder :=
  mkBuilder (turns b) t (next_item_index b) (current_rollout_index b) (next_rollout_index b)
    (active_change_set b) (uuids_drawn b).
Definition set_next_item_index b (n : Z) : ThreadHistoryBuilder :=
  mkBuilder (turns b) (current_turn b) n (current_rollout_index b) (next_rollout_index b)
    (active_change_set b) (uuids_drawn b).
Definition set_changes b (c : option ThreadHistoryChangeSet) : ThreadHistoryBuilder :=
  mkBuilder (turns b) (current_turn b) (next_item_index b) (current_rollout_index b) (next_rollout_index b)
    c (uuids_drawn b).
Definition draw_uuid b : str * ThreadHistoryBuilder :=
  (uuid_now_v7 (uuids_drawn b),
   mkBuilder (turns b) (current_turn b) (next_item_index b) (current_rollout_index b) (next_rollout_index b)
     (active_change_set b) (S (uuids_drawn b))).

Definition record_changed_item b (turn_id : str) (item : ThreadItem) : ThreadHistoryBuilder :=
  match active_change_set b with
  | Some c => set_changes b (Some (mkChangeSet (changed_items c ++ [mkItemChange turn_id item None None])
                                     (changed_turns c) (removed_turn_ids c)))
  | None => b
  end.
Definition record_changed_turn b (change : ThreadHistoryTurnChange) : ThreadHistoryBuilder :=
  match active_change_set b with
  | Some c => set_changes b (Some (mkChangeSet (changed_items c) (changed_turns c ++ [change]) (removed_turn_ids c)))
  | None => b
  end.
Definition record_changed_pending_turn b (t : PendingTurn) : ThreadHistoryBuilder :=
  record_changed_turn b (from_pending_turn t).
Definition record_removed_turn_ids b (ids : list str) : ThreadHistoryBuilder :=
  match active_change_set b with
  | Some c => set_changes b (Some (mkChangeSet (changed_items c) (changed_turns c) (removed_turn_ids c ++ ids)))
  | None => b
  end.

Definition finish_current_turn b : ThreadHistoryBuilder :=
  match current_turn b with
  | Some t =>
      let b := set_current b None in
      if is_empty (pt_items t) && negb (pt_opened_explicitly t) && negb (pt_saw_compaction t) then b
      else set_turns b (turns b ++ [t])
  | None => b
  end.

Definition new_turn b (id : option str) : PendingTurn * ThreadHistoryBuilder :=
  let '(id, b) :=
    match id with
    | Some id => (id, b)
    | None => if next_rollout_index b =? 0 then draw_uuid b else ($"rollout-" ++ fmt_nat (current_rollout_index b), b)
    end in
  (mkPending id [] None None TurnCompleted None None None false false (current_rollout_index b), b).

Definition ensure_turn b : PendingTurn * ThreadHistoryBuilder :=
  match current_turn b with
  | Some t => (t, b)
  | None =>
      let '(t, b) := new_turn b None in
      (t, set_current (record_changed_pending_turn b t) (Some t))
  end.

(** The counter is an [i64] that wraps around in a release build. *)
Definition next_item_id b : str * ThreadHistoryBuilder :=
  let n := next_item_index b in
  ($"item-" ++ lit (pretty n),
   set_next_item_index b (if (n =? I64_MAX)%Z then (- I64_MAX - 1)%Z else (n + 1)%Z)).

Definition push_item_in_current_turn b (item : ThreadItem) : ThreadHistoryBuilder :=
  let '(t, b) := ensure_turn b in
  record_changed_item (set_current b (Some (push_item t item))) (pt_id t) item.

(** Applying [f] to the first turn with an identifier. *)
Fixpoint update_turn (turn_id : str) (f : PendingTurn → PendingTurn) (ts : list PendingTurn)
    : option (PendingTurn * list PendingTurn) :=
  match ts with
  | [] => None
  | t :: ts =>
      if bool_decide (pt_id t = turn_id) then Some (f t, f t :: ts)
      else match update_turn turn_id f ts with Some (t', ts') => Some (t', t :: ts') | None => None end
  end.

(** The current turn, when it has the identifier. *)
Definition current_with_id b (turn_id : str) : option PendingTurn :=
  match current_turn b with
  | Some t => if bool_decide (pt_id t = turn_id) then Some t else None
  | None => None
  end.

Definition upsert_item_in_turn_id b (turn_id : str) (item : ThreadItem) : ThreadHistoryBuilder :=
  match current_with_id b turn_id with
  | Some t => record_changed_item (set_current b (Some (upsert_item t item))) (pt_id t) item
  | None =>
      match update_turn turn_id (λ t, upsert_item t item) (turns b) with
      | Some (t, ts) => record_changed_item (set_turns b ts) (pt_id t) item
      | None => b
      end
  end.

Definition upsert_item_in_current_turn b (item : ThreadItem) : ThreadHistoryBuilder :=
  let '(t, b) := ensure_turn b in
  record_changed_item (set_current b (Some (upsert_item t item))) (pt_id t) item.

(** An empty identifier means the current turn. *)
Definition upsert_item_in_turn_or_current b (turn_id : str) (item : ThreadItem) : ThreadHistoryBuilder :=
  if is_empty turn_id then upsert_item_in_current_turn b item else upsert_item_in_turn_id b turn_id item.

(** ** Handlers: messages and reasoning *)
Definition handle_response_item b (role : str) (content : list ContentItem) (id : option str) : ThreadHistoryBuilder :=
  if negb (bool_decide (role = $"user")) then b
  else match parse_hook_prompt_fragments content with
       | None => b
       | Some fragments =>
           let '(id, b) := match id with Some id => (id, b) | None => draw_uuid b end in
           push_item_in_current_turn b (HookPrompt id fragments)
       end.

Definition build_user_inputs (p : UserMessageEvent) : list UserInput :=
  (if is_empty (trim (um_message p)) then [] else [InputTextPart (um_message p) (um_text_elements p)]) ++
  imap (λ idx image, InputImage image (mjoin (um_image_details p !! idx))) (default [] (um_images p)) ++
  imap (λ idx path, InputLocalImage path (mjoin (um_local_image_details p !! idx))) (um_local_images p) ++
  (InputAudio <$> default [] (um_audio p)) ++
  (InputLocalAudio <$> um_local_audio p).

Definition handle_user_message b (p : UserMessageEvent) : ThreadHistoryBuilder :=
  let b :=
    match current_turn b with
    | Some t =>
        if negb (pt_opened_explicitly t) && negb (pt_saw_compaction t && is_empty (pt_items t))
        then finish_current_turn b else b
    | None => b
    end in
  let '(id, b) := next_item_id b in
  push_item_in_current_turn b (UserMessage id (um_client_id p) (build_user_inputs p)).

Definition handle_agent_message b (message : str) phase memory_citation delivery questions : ThreadHistoryBuilder :=
  if is_empty message then b
  else let '(id, b) := next_item_id b in
       push_item_in_current_turn b (AgentMessage id message phase memory_citation delivery questions).

(** The last item, when it is reasoning, is extended; otherwise a new one is pushed. *)
Definition extend_reasoning b (extend : list str → list str → list str * list str) : ThreadHistoryBuilder :=
  let '(t, b) := ensure_turn b in
  match last (pt_items t) with
  | Some (Reasoning id summary content) =>
      let '(summary, content) := extend summary content in
      let item := Reasoning id summary content in
      let t' := with_items t (pt_index t, update_last (λ _, item) (pt_items t)) in
      record_changed_item (set_current b (Some t')) (pt_id t) item
  | _ =>
      let '(id, b) := next_item_id b in
      let '(summary, content) := extend [] [] in
      push_item_in_current_turn b (Reasoning id summary content)
  end.

Definition handle_agent_reasoning b (text : str) : ThreadHistoryBuilder :=
  if is_empty text then b else extend_reasoning b (λ summary content, (summary ++ [text], content)).
Definition handle_agent_reasoning_raw_content b (text : str) : ThreadHistoryBuilder :=
  if is_empty text then b else extend_reasoning b (λ summary content, (summary, content ++ [text])).

(** ** Handlers: completed items and review mode *)
Definition has_turn b (turn_id : str) : bool :=
  bool_decide (is_Some (current_with_id b turn_id)) || existsb (λ t, bool_decide (pt_id t = turn_id)) (turns b).

Definition upsert_review_mode_item b (turn_id : option str) (item : ThreadItem) : ThreadHistoryBuilder :=
  match turn_id with
  | None => upsert_item_in_current_turn b item
  | Some turn_id =>
      let b :=
        if has_turn b turn_id then b
        else let b := finish_current_turn b in
             let '(t, b) := new_turn b (Some turn_id) in
             set_current (record_changed_pending_turn b t) (Some t) in
      upsert_item_in_turn_id b turn_id item
  end.

Definition is_review_mode_item (k : TurnItemKind) : bool :=
  match k with KEnteredReviewMode | KExitedReviewMode => true | _ => false end.
Definition should_upsert (k : TurnItemKind) : bool :=
  match k with
  | KPlan text => negb (is_empty text)
  | KHookPrompt | KFunctionCallOutput | KCommandExecution | KDynamicToolCall | KCollabAgentToolCall
  | KSubAgentActivity | KExtension | KEnteredReviewMode | KExitedReviewMode => true
  | _ => false
  end.

Definition handle_materialized_item_lifecycle b (turn_id : str) (item : TurnItem) : ThreadHistoryBuilder :=
  if should_upsert (turn_item_kind item) then
    let thread_item := thread_item_from item in
    if is_review_mode_item (turn_item_kind item) then upsert_review_mode_item b (Some turn_id) thread_item
    else upsert_item_in_turn_id b turn_id thread_item
  else b.

Definition handle_entered_review_mode b (turn_id item_id hint : option str) : ThreadHistoryBuilder :=
  let review := default ($"Review requested.") hint in
  let '(id, b) := match item_id with Some id => (id, b) | None => next_item_id b end in
  upsert_review_mode_item b turn_id (EnteredReviewMode id review).

Definition handle_exited_review_mode b (turn_id item_id : option str) (output : option ReviewOutputEvent)
    : ThreadHistoryBuilder :=
  let review := review_output_text output in
  let '(id, b) := match item_id with Some id => (id, b) | None => next_item_id b end in
  upsert_review_mode_item b turn_id (ExitedReviewMode id review).

Definition handle_context_compacted b : ThreadHistoryBuilder :=
  let '(id, b) := next_item_id b in
  push_item_in_current_turn b (ContextCompaction id).

Definition handle_compacted b : ThreadHistoryBuilder :=
  let '(t, b) := ensure_turn b in
  set_current b (Some (mark_compaction t)).

(** ** Handlers: tool calls *)
Definition handle_guardian_assessment b (a : GuardianAssessmentEvent) : ThreadHistoryBuilder :=
  let status :=
    match ga_status a with
    | GuardianInProgress => Some CommandInProgress
    | GuardianDenied | GuardianAborted => Some CommandDeclined
    | GuardianTimedOut => Some CommandFailed
    | GuardianApproved => None
    end in
  match status with
  | None => b
  | Some status =>
      match build_item_from_guardian_event parse_command a status with
      | None => b
      | Some item => upsert_item_in_turn_or_current b (ga_turn_id a) item
      end
  end.

Definition handle_dynamic_tool_call_request b (p : DynamicToolCallEvent) : ThreadHistoryBuilder :=
  upsert_item_in_turn_or_current b (dt_turn_id p)
    (DynamicToolCall (dt_call_id p) (dt_namespace p) (dt_tool p) (dt_arguments p) DynamicInProgress None None None).

(** The two packages' content types have the same variants. *)
Definition convert_dynamic_tool_content_items (items : list DynamicContent) : list DynamicContent :=
  (λ item, match item with
           | DynamicText text => DynamicText text
           | DynamicImage image_url => DynamicImage image_url
           | DynamicAudio audio_url => DynamicAudio audio_url
           end) <$> items.

Definition handle_dynamic_tool_call_response b (r : DynamicToolCallResponse) : ThreadHistoryBuilder :=
  let p := dr_call r in
  let status := if dr_success r then DynamicCompleted else DynamicFailed in
  upsert_item_in_turn_or_current b (dt_turn_id p)
    (DynamicToolCall (dt_call_id p) (dt_namespace p) (dt_tool p) (dt_arguments p) status
       (Some (convert_dynamic_tool_content_items (dr_content_items r))) (Some (dr_success r))
       (try_i64 (dr_duration_millis r))).

Definition mcp_app_context (p : McpToolCallBeginEvent) : option McpToolCallAppContext :=
  (λ connector, mkAppContext connector (mb_link_id p) (mb_mcp_app_resource_uri p) (mb_app_name p) (mb_action_name p))
    <$> mb_connector_id p.

Definition handle_mcp_tool_call_begin b (p : McpToolCallBeginEvent) : ThreadHistoryBuilder :=
  upsert_item_in_current_turn b
    (McpToolCall (mb_call_id p) (mb_server p) (mb_tool p) McpInProgress (default json_null (mb_arguments p))
       (mcp_app_context p) (mb_mcp_app_resource_uri p) (mb_plugin_id p) (mb_read_only_hint p) None None None).

Definition is_success (e : McpToolCallEndEvent) : bool :=
  match me_result e with Ok r => negb (default false (call_tool_is_error r)) | Err _ => false end.

Definition handle_mcp_tool_call_end b (e : McpToolCallEndEvent) : ThreadHistoryBuilder :=
  let p := me_begin e in
  let status := if is_success e then McpCompleted else McpFailed in
  let '(res, error) := match me_result e with Ok v => (Some v, None) | Err message => (None, Some message) end in
  upsert_item_in_current_turn b
    (McpToolCall (mb_call_id p) (mb_server p) (mb_tool p) status (default json_null (mb_arguments p))
       (mcp_app_context p) (mb_mcp_app_resource_uri p) (mb_plugin_id p) (mb_read_only_hint p) res error
       (try_i64 (me_duration_millis e))).

Definition agent_failed (status : AgentStatus) : bool :=
  match status with Errored _ | NotFound => true | _ => false end.
Definition collab_status (status : AgentStatus) : CollabAgentToolCallStatus :=
  if agent_failed status then CollabFailed else CollabCompleted.

(** Starting a call of another agent, and its end with the status of the receiver. *)
Definition collab_begin (call_id : str) (tool : CollabAgentTool) (sender : str) (receivers : list str)
    (prompt model : option str) (effort : option ReasoningEffort) : ThreadItem :=
  CollabAgentToolCall call_id tool CollabInProgress sender receivers prompt model effort ∅.
Definition collab_end (call_id : str) (tool : CollabAgentTool) (sender receiver : str) (prompt : option str)
    (status : AgentStatus) : ThreadItem :=
  CollabAgentToolCall call_id tool (collab_status status) sender [receiver] prompt None None
    {[receiver := collab_agent_state status]}.

Definition handle_collab_agent_spawn_end b (call_id sender : str) (new_thread : option str) (prompt model : str)
    (effort : ReasoningEffort) (status : AgentStatus) : ThreadHistoryBuilder :=
  let has_receiver := bool_decide (is_Some new_thread) in
  let call_status := if agent_failed status then CollabFailed
                     else if has_receiver then CollabCompleted else CollabFailed in
  let '(receivers, states) :=
    match new_thread with
    | Some id => ([id], {[id := collab_agent_state status]})
    | None => ([], ∅)
    end in
  upsert_item_in_current_turn b
    (CollabAgentToolCall call_id SpawnAgent call_status sender receivers (Some prompt) (Some model) (Some effort) states).

Definition handle_collab_waiting_end b (call_id sender : str) (statuses : gmap str AgentStatus) : ThreadHistoryBuilder :=
  let status := if existsb agent_failed (map_to_list statuses).*2 then CollabFailed else CollabCompleted in
  let receivers := merge_sort str_le (map_to_list statuses).*1 in
  upsert_item_in_current_turn b
    (CollabAgentToolCall call_id WaitAgents status sender receivers None None None (collab_agent_state <$> statuses)).

(** ** Handlers: the life of a turn *)
Definition handle_error b (e : ErrorEvent) : ThreadHistoryBuilder :=
  if affects_turn_status e then
    match current_turn b with
    | Some t =>
        let t := with_outcome t (Some (turn_error e)) TurnFailed (pt_completed_at t) (pt_duration_ms t) in
        record_changed_pending_turn (set_current b (Some t)) t
    | None => b
    end
  else b.

Definition apply_abort (completed_at duration_ms : option Z) (t : PendingTurn) : PendingTurn :=
  with_outcome t (pt_error t) TurnInterrupted completed_at duration_ms.

Definition abort_current b (completed_at duration_ms : option Z) : ThreadHistoryBuilder :=
  match current_turn b with
  | Some t => let t := apply_abort completed_at duration_ms t in record_changed_pending_turn (set_current b (Some t)) t
  | None => b
  end.

Definition handle_turn_aborted b (turn_id : option str) (completed_at duration_ms : option Z) : ThreadHistoryBuilder :=
  match turn_id with
  | Some id =>
      match current_with_id b id with
      | Some _ => abort_current b completed_at duration_ms
      | None =>
          match update_turn id (apply_abort completed_at duration_ms) (turns b) with
          | Some (t, ts) => record_changed_pending_turn (set_turns b ts) t
          | None => abort_current b completed_at duration_ms
          end
      end
  | None => abort_current b completed_at duration_ms
  end.

Definition handle_turn_started b (turn_id : str) (started_at : option Z) : ThreadHistoryBuilder :=
  let b := finish_current_turn b in
  let '(t, b) := new_turn b (Some turn_id) in
  let t := opened_explicitly (with_started_at (with_status t TurnInProgress) started_at) in
  set_current (record_changed_pending_turn b t) (Some t).

Definition apply_completion (error : option TurnError) (completed_at duration_ms : option Z) (t : PendingTurn)
    : PendingTurn :=
  match error with
  | Some error => with_outcome t (Some error) TurnFailed completed_at duration_ms
  | None =>
      let status := match pt_status t with
                    | TurnCompleted | TurnInProgress => TurnCompleted
                    | status => status
                    end in
      with_outcome t (pt_error t) status completed_at duration_ms
  end.

Definition complete_current b (error : option TurnError) (completed_at duration_ms : option Z) : ThreadHistoryBuilder :=
  match current_turn b with
  | Some t =>
      let t := apply_completion error completed_at duration_ms t in
      finish_current_turn (record_changed_pending_turn (set_current b (Some t)) t)
  | None => b
  end.

Definition handle_turn_complete b (turn_id : str) (error : option ErrorEvent) (completed_at duration_ms : option Z)
    : ThreadHistoryBuilder :=
  let error := turn_error <$> error in
  match current_with_id b turn_id with
  | Some _ => complete_current b error completed_at duration_ms
  | None =>
      match update_turn turn_id (apply_completion error completed_at duration_ms) (turns b) with
      | Some (t, ts) => record_changed_pending_turn (set_turns b ts) t
      | None => complete_current b error completed_at duration_ms
      end
  end.

Definition item_count (ts : list PendingTurn) : nat := sum_list_with (λ t, length (pt_items t)) ts.

Definition handle_thread_rollback b (num_turns : N) : ThreadHistoryBuilder :=
  let b := finish_current_turn b in
  let n := N.to_nat num_turns in
  let len := length (turns b) in
  let removed := if len <=? n then pt_id <$> turns b
                 else if n =? 0 then [] else pt_id <$> drop (len - n) (turns b) in
  let b := record_removed_turn_ids b removed in
  let b := set_turns b (if len <=? n then [] else take (len - n) (turns b)) in
  set_next_item_index b (Z.min (Z.of_nat (item_count (turns b)) + 1) I64_MAX).

(** ** Handlers: one item each *)
Definition handle_web_search_begin b (call_id : str) : ThreadHistoryBuilder :=
  upsert_item_in_current_turn b (WebSearch call_id [] None None).
Definition handle_web_search_end b (call_id query : str) (action : WebSearchAction) (results : option Json)
    : ThreadHistoryBuilder :=
  upsert_item_in_current_turn b (WebSearch call_id query (Some action) results).
Definition handle_exec_command_begin b (p : ExecCommandBeginEvent) : ThreadHistoryBuilder :=
  upsert_item_in_turn_id b (eb_turn_id p) (build_command_execution_begin_item p).
Definition handle_exec_command_end b (p : ExecCommandEndEvent) : ThreadHistoryBuilder :=
  upsert_item_in_turn_id b (eb_turn_id (ee_begin p)) (build_command_execution_end_item p).
Definition handle_apply_patch_approval_request b (p : PatchEvent) : ThreadHistoryBuilder :=
  upsert_item_in_turn_or_current b (pe_turn_id p) (build_file_change_approval_request_item p).
Definition handle_patch_apply_begin b (p : PatchEvent) : ThreadHistoryBuilder :=
  upsert_item_in_turn_or_current b (pe_turn_id p) (build_file_change_begin_item p).
Definition handle_patch_apply_end b (p : PatchEvent) (status : PatchApplyStatus) : ThreadHistoryBuilder :=
  upsert_item_in_turn_or_current b (pe_turn_id p) (build_file_change_end_item p status).
Definition handle_view_image_tool_call b (call_id path : str) : ThreadHistoryBuilder :=
  upsert_item_in_current_turn b (ImageView call_id path).
Definition handle_image_generation_begin b (call_id : str) : ThreadHistoryBuilder :=
  upsert_item_in_current_turn b (ImageGeneration call_id [] None [] None None None None).
Definition handle_image_generation_end b (p : ImageGenerationEndEvent) : ThreadHistoryBuilder :=
  upsert_item_in_current_turn b
    (ImageGeneration (ie_call_id p) (ie_status p) (ie_revised_prompt p) (ie_result p)
       (ie_transparent_background p) (ie_failure p) (ie_saved_path p) None).
Definition handle_collab_agent_spawn_begin b (call_id sender prompt model : str) (effort : ReasoningEffort)
    : ThreadHistoryBuilder :=
  upsert_item_in_current_turn b (collab_begin call_id SpawnAgent sender [] (Some prompt) (Some model) (Some effort)).
Definition handle_collab_agent_interaction_begin b (call_id sender receiver prompt : str) : ThreadHistoryBuilder :=
  upsert_item_in_current_turn b (collab_begin call_id SendInput sender [receiver] (Some prompt) None None).
Definition handle_collab_agent_interaction_end b (call_id sender receiver prompt : str) (status : AgentStatus)
    : ThreadHistoryBuilder :=
  upsert_item_in_current_turn b (collab_end call_id SendInput sender receiver (Some prompt) status).
Definition handle_sub_agent_activity b (event_id : str) (kind : SubAgentActivityKind) (agent_thread agent_path : str)
    : ThreadHistoryBuilder :=
  upsert_item_in_current_turn b (SubAgentActivity event_id kind agent_thread agent_path).
Definition handle_collab_waiting_begin b (call_id sender : str) (receivers : list str) : ThreadHistoryBuilder :=
  upsert_item_in_current_turn b (collab_begin call_id WaitAgents sender receivers None None None).
Definition handle_collab_close_begin b (call_id sender receiver : str) : ThreadHistoryBuilder :=
  upsert_item_in_current_turn b (collab_begin call_id CloseAgent sender [receiver] None None None).
Definition handle_collab_close_end b (call_id sender receiver : str) (status : AgentStatus) : ThreadHistoryBuilder :=
  upsert_item_in_current_turn b (collab_end call_id CloseAgent sender receiver None status).
Definition handle_collab_resume_begin b (call_id sender receiver : str) : ThreadHistoryBuilder :=
  upsert_item_in_current_turn b (collab_begin call_id ResumeAgent sender [receiver] None None None).
Definition handle_collab_resume_end b (call_id sender receiver : str) (status : AgentStatus) : ThreadHistoryBuilder :=
  upsert_item_in_current_turn b (collab_end call_id ResumeAgent sender receiver None status).
Definition handle_item_started b (turn_id : str) (item : TurnItem) : ThreadHistoryBuilder :=
  handle_materialized_item_lifecycle b turn_id item.
Definition handle_item_completed b (turn_id : str) (item : TurnItem) : ThreadHistoryBuilder :=
  handle_materialized_item_lifecycle b turn_id item.

(** ** Dispatch *)
Definition handle_event b (event : EventMsg) : ThreadHistoryBuilder :=
  match event with
  | EvUserMessage p => handle_user_message b p
  | EvAgentMessage message phase citation delivery questions =>
      handle_agent_message b message phase citation delivery questions
  | EvAgentReasoning text => handle_agent_reasoning b text
  | EvAgentReasoningRawContent text => handle_agent_reasoning_raw_content b text
  | EvWebSearchBegin call_id => handle_web_search_begin b call_id
  | EvWebSearchEnd call_id query action results => handle_web_search_end b call_id query action results
  | EvExecCommandBegin p => handle_exec_command_begin b p
  | EvExecCommandEnd p => handle_exec_command_end b p
  | EvGuardianAssessment p => handle_guardian_assessment b p
  | EvApplyPatchApprovalRequest p => handle_apply_patch_approval_request b p
  | EvPatchApplyBegin p => handle_patch_apply_begin b p
  | EvPatchApplyEnd p status => handle_patch_apply_end b p status
  | EvDynamicToolCallRequest p => handle_dynamic_tool_call_request b p
  | EvDynamicToolCallResponse p => handle_dynamic_tool_call_response b p
  | EvMcpToolCallBegin p => handle_mcp_tool_call_begin b p
  | EvMcpToolCallEnd p => handle_mcp_tool_call_end b p
  | EvViewImageToolCall call_id path => handle_view_image_tool_call b call_id path
  | EvImageGenerationBegin call_id => handle_image_generation_begin b call_id
  | EvImageGenerationEnd p => handle_image_generation_end b p
  | EvCollabAgentSpawnBegin call_id sender prompt model effort =>
      handle_collab_agent_spawn_begin b call_id sender prompt model effort
  | EvCollabAgentSpawnEnd call_id sender new_thread prompt model effort status =>
      handle_collab_agent_spawn_end b call_id sender new_thread prompt model effort status
  | EvCollabAgentInteractionBegin call_id sender receiver prompt =>
      handle_collab_agent_interaction_begin b call_id sender receiver prompt
  | EvCollabAgentInteractionEnd call_id sender receiver prompt status =>
      handle_collab_agent_interaction_end b call_id sender receiver prompt status
  | EvSubAgentActivity event_id kind agent_thread agent_path =>
      handle_sub_agent_activity b event_id kind agent_thread agent_path
  | EvCollabWaitingBegin call_id sender receivers => handle_collab_waiting_begin b call_id sender receivers
  | EvCollabWaitingEnd call_id sender statuses => handle_collab_waiting_end b call_id sender statuses
  | EvCollabCloseBegin call_id sender receiver => handle_collab_close_begin b call_id sender receiver
  | EvCollabCloseEnd call_id sender receiver status => handle_collab_close_end b call_id sender receiver status
  | EvCollabResumeBegin call_id sender receiver => handle_collab_resume_begin b call_id sender receiver
  | EvCollabResumeEnd call_id sender receiver status =>
      handle_collab_resume_end b call_id sender receiver status
  | EvContextCompacted => handle_context_compacted b
  | EvEnteredReviewMode turn_id item_id hint => handle_entered_review_mode b turn_id item_id hint
  | EvExitedReviewMode turn_id item_id output => handle_exited_review_mode b turn_id item_id output
  | EvItemStarted turn_id item => handle_item_started b turn_id item
  | EvItemCompleted turn_id item _ _ => handle_item_completed b turn_id item
  | EvError e => handle_error b e
  | EvThreadRolledBack num_turns => handle_thread_rollback b num_turns
  | EvTurnAborted turn_id _ completed_at duration_ms => handle_turn_aborted b turn_id completed_at duration_ms
  | EvTurnStarted turn_id started_at => handle_turn_started b turn_id started_at
  | EvTurnComplete turn_id error _ completed_at duration_ms =>
      handle_turn_complete b turn_id error completed_at duration_ms
  | EvOther => b
  end.

Definition next_rollout b : ThreadHistoryBuilder :=
  mkBuilder (turns b) (current_turn b) (next_item_index b) (next_rollout_index b) (S (next_rollout_index b))
    (active_change_set b) (uuids_drawn b).

Definition handle_rollout_item b (item : RolloutItem) : ThreadHistoryBuilder :=
  let b := next_rollout b in
  match item with
  | RolloutEvent event => handle_event b event
  | RolloutCompacted => handle_compacted b
  | RolloutMessage role content id => handle_response_item b role content id
  | RolloutRealtime _ | RolloutOther => b
  end.

Definition finish b : list Turn := turn_of <$> turns (finish_current_turn b).

Definition build_turns_from_rollout_items (items : list RolloutItem) : list Turn :=
  finish (foldl handle_rollout_item builder_new items).

(** ** Queries *)
Definition active_turn b : option PendingTurn :=
  match current_turn b with Some t => Some t | None => last (turns b) end.
Definition active_turn_snapshot b : option Turn := turn_of <$> active_turn b.
Definition active_turn_id b : option str := pt_id <$> active_turn b.
Definition turn_snapshot b (turn_id : str) : option Turn :=
  match current_with_id b turn_id with
  | Some t => Some (turn_of t)
  | None => turn_of <$> find (λ t, bool_decide (pt_id t = turn_id)) (turns b)
  end.
Definition has_active_turn b : bool := bool_decide (is_Some (current_turn b)).
Definition active_turn_id_if_explicit b : option str :=
  match current_turn b with Some t => if pt_opened_explicitly t then Some (pt_id t) else None | None => None end.
Definition active_turn_start_index b : option nat := pt_rollout_start_index <$> current_turn b.
Definition active_turn_position b : option nat :=
  match current_turn b with
  | Some _ => Some (length (turns b))
  | None => if is_empty (turns b) then None else Some (length (turns b) - 1)
  end.

(** ** Reporting changes *)
Definition collect_changes (handle : ThreadHistoryBuilder → ThreadHistoryBuilder) b
    : ThreadHistoryChangeSet * ThreadHistoryBuilder :=
  let b := handle (set_changes b (Some no_changes)) in
  (default no_changes (active_change_set b), set_changes b None).

Definition handle_event_with_changes b (event : EventMsg) : ThreadHistoryChangeSet * ThreadHistoryBuilder :=
  collect_changes (λ b, handle_event b event) b.
Definition handle_rollout_item_with_changes b (item : RolloutItem) : ThreadHistoryChangeSet * ThreadHistoryBuilder :=
  collect_changes (λ b, handle_rollout_item b item) b.

Record Accumulator := mkAccumulator {
  acc_items : list (option ThreadHistoryItemChange);
  acc_item_indexes : gmap (str * str) nat;
  acc_turns : list (option ThreadHistoryTurnChange);
  acc_turn_indexes : gmap str nat;
  acc_removed : list str;
  acc_removed_indexes : gmap str nat;
}.

Definition acc_empty : Accumulator := mkAccumulator [] ∅ [] ∅ [] ∅.

Definition item_key (c : ThreadHistoryItemChange) : str * str := (ic_turn_id c, item_id (ic_item c)).

Definition push_item_change (a : Accumulator) (c : ThreadHistoryItemChange) : Accumulator :=
  match acc_item_indexes a !! item_key c with
  | Some index =>
      mkAccumulator (<[index := Some c]> (acc_items a)) (acc_item_indexes a) (acc_turns a) (acc_turn_indexes a)
        (acc_removed a) (acc_removed_indexes a)
  | None =>
      mkAccumulator (acc_items a ++ [Some c]) (<[item_key c := length (acc_items a)]> (acc_item_indexes a))
        (acc_turns a) (acc_turn_indexes a) (acc_removed a) (acc_removed_indexes a)
  end.

Definition push_turn_change (a : Accumulator) (c : ThreadHistoryTurnChange) : Accumulator :=
  match acc_turn_indexes a !! tc_turn_id c with
  | Some index =>
      mkAccumulator (acc_items a) (acc_item_indexes a) (<[index := Some c]> (acc_turns a)) (acc_turn_indexes a)
        (acc_removed a) (acc_removed_indexes a)
  | None =>
      mkAccumulator (acc_items a) (acc_item_indexes a) (acc_turns a ++ [Some c])
        (<[tc_turn_id c := length (acc_turns a)]> (acc_turn_indexes a)) (acc_removed a) (acc_removed_indexes a)
  end.

(** Forgetting the changes under a list of keys. *)
Definition drop_keys {K A : Type} `{Countable K} (keys : list K) (slots : list (option A)) (indexes : gmap K nat)
    : list (option A) * gmap K nat :=
  foldl (λ '(slots, indexes) key,
    match indexes !! key with
    | Some index => (<[index := None]> slots, delete key indexes)
    | None => (slots, indexes)
    end) (slots, indexes) keys.

Definition push_removed_turn_id (a : Accumulator) (id : str) : Accumulator :=
  let '(removed, removed_indexes) :=
    match acc_removed_indexes a !! id with
    | Some _ => (acc_removed a, acc_removed_indexes a)
    | None => (acc_removed a ++ [id], <[id := length (acc_removed a)]> (acc_removed_indexes a))
    end in
  let '(turn_slots, turn_indexes) := drop_keys [id] (acc_turns a) (acc_turn_indexes a) in
  let removed_item_keys := List.filter (λ key, bool_decide (key.1 = id)) (map_to_list (acc_item_indexes a)).*1 in
  let '(item_slots, item_indexes) := drop_keys removed_item_keys (acc_items a) (acc_item_indexes a) in
  mkAccumulator item_slots item_indexes turn_slots turn_indexes removed removed_indexes.

Definition acc_push (a : Accumulator) (c : ThreadHistoryChangeSet) : Accumulator :=
  let a := foldl push_removed_turn_id a (removed_turn_ids c) in
  let a := foldl push_item_change a (changed_items c) in
  foldl push_turn_change a (changed_turns c).

Definition acc_finish (a : Accumulator) : ThreadHistoryChangeSet :=
  mkChangeSet (omap id (acc_items a)) (omap id (acc_turns a)) (acc_removed a).

Definition handle_rollout_items_with_changes b (items : list RolloutItem)
    : ThreadHistoryChangeSet * ThreadHistoryBuilder :=
  let '(a, b) :=
    foldl (λ '(a, b) item,
      let '(c, b) := handle_rollout_item_with_changes b item in (acc_push a c, b)) (acc_empty, b) items in
  (acc_finish a, b).
End history.

Create HintDb thread_handlers.
#[export] Hint Unfold handle_web_search_begin handle_web_search_end handle_exec_command_begin handle_exec_command_end
  handle_apply_patch_approval_request handle_patch_apply_begin handle_patch_apply_end handle_view_image_tool_call
  handle_image_generation_begin handle_image_generation_end handle_collab_agent_spawn_begin handle_collab_agent_interaction_begin
  handle_collab_agent_interaction_end handle_sub_agent_activity handle_collab_waiting_begin handle_collab_close_begin
  handle_collab_close_end handle_collab_resume_begin handle_collab_resume_end handle_item_started
  handle_item_completed : thread_handlers.
