(* ===== verification/ThreadHistorySpec.v ===== *)
(** * Properties of the thread history

    The index of a turn finds what a search of its items finds; reporting changes
    does not influence what is built; and a client that keeps a table of turns
    and a table of items, and applies the reported changes, batched or not, holds
    the turns a rebuild of the whole rollout gives. *)

From stdpp Require Import prelude list gmap strings sorting pretty.
From S2P Require Import Prelude ThreadItems ThreadHistory.

(** ** Replacing or appending by key *)
Section upserts.
Context {A K : Type} `{EqDecision K} (key : A → K).

Fixpoint upsert (x : A) (l : list A) : list A :=
  match l with
  | [] => [x]
  | y :: l => if bool_decide (key y = key x) then x :: l else y :: upsert x l
  end.

Definition upserts (l xs : list A) : list A := foldl (λ l x, upsert x l) l xs.

Lemma upserts_app l xs ys : upserts l (xs ++ ys) = upserts (upserts l xs) ys.
Proof. apply foldl_app. Qed.

Lemma upsert_keys x l : key <$> upsert x l = if bool_decide (key x ∈ key <$> l) then key <$> l else (key <$> l) ++ [key x].
Proof.
  induction l as [|y l IH]; [done|]. cbn. destruct (bool_decide (key y = key x)) eqn:E.
  - apply bool_decide_eq_true in E. cbn. rewrite E, bool_decide_eq_true_2; [done|left].
  - apply bool_decide_eq_false in E. cbn. rewrite IH.
    destruct (decide (key x ∈ key <$> l)) as [Hin|Hin].
    + rewrite !bool_decide_eq_true_2; [done|by right|done].
    + rewrite !bool_decide_eq_false_2; [done| |done]. rewrite not_elem_of_cons. naive_solver.
Qed.

Lemma upsert_nodup x l : NoDup (key <$> l) → NoDup (key <$> upsert x l).
Proof.
  intros Hd. rewrite upsert_keys. case_bool_decide as Hin; [done|]. apply NoDup_app. split_and!; [done| |apply NoDup_singleton].
  by intros k Hk ->%list_elem_of_singleton.
Qed.

Lemma upsert_new x l : key x ∉ key <$> l → upsert x l = l ++ [x].
Proof.
  induction l as [|y l IH]; cbn; [done|]. rewrite not_elem_of_cons. intros [Hk Hl].
  rewrite bool_decide_eq_false_2 by congruence. by rewrite IH.
Qed.

Lemma upsert_mid l1 y l2 x : key y = key x → key x ∉ key <$> l1 → upsert x (l1 ++ y :: l2) = l1 ++ x :: l2.
Proof.
  intros Hy. induction l1 as [|z l1 IH]; cbn; [by rewrite bool_decide_eq_true_2|].
  rewrite not_elem_of_cons. intros [Hk Hl]. rewrite bool_decide_eq_false_2 by congruence. by rewrite IH.
Qed.

(** Every list with a key splits at its first occurrence. *)
Lemma key_split x l : key x ∈ key <$> l → ∃ l1 y l2, l = l1 ++ y :: l2 ∧ key y = key x ∧ key x ∉ key <$> l1.
Proof.
  induction l as [|y l IH]; cbn; [by intros ?%not_elem_of_nil|].
  destruct (decide (key y = key x)) as [E|E].
  - intros _. exists [], y, l. split_and!; [done|done|apply not_elem_of_nil].
  - intros [?|Hin]%elem_of_cons; [congruence|]. destruct (IH Hin) as (l1 & z & l2 & -> & Hz & Hn).
    exists (y :: l1), z, l2. split_and!; [done|done|]. cbn. rewrite not_elem_of_cons. naive_solver.
Qed.

Lemma upsert_twice x y l : key x = key y → upsert x (upsert y l) = upsert x l.
Proof.
  intros Hk. induction l as [|z l IH]; cbn; [by rewrite bool_decide_eq_true_2|]. rewrite Hk.
  destruct (bool_decide (key z = key y)) eqn:E; cbn; [by rewrite bool_decide_eq_true_2|]. by rewrite Hk, E, IH.
Qed.

(** A replacement commutes with changes under other keys. *)
Lemma upsert_swap x y l : key x ≠ key y → key x ∈ key <$> l → upsert x (upsert y l) = upsert y (upsert x l).
Proof.
  intros Hne Hin. destruct (key_split _ _ Hin) as (l1 & z & l2 & -> & Hz & Hn).
  rewrite (upsert_mid l1 z l2 x) by done. destruct (decide (key y ∈ key <$> l1)) as [Hy|Hy].
  - destruct (key_split _ _ Hy) as (m1 & w & m2 & -> & Hw & Hm). rewrite <-!app_assoc. cbn.
    rewrite (upsert_mid m1 w (m2 ++ z :: l2) y), (upsert_mid m1 w (m2 ++ x :: l2) y) by done.
    replace (m1 ++ y :: m2 ++ z :: l2) with ((m1 ++ y :: m2) ++ z :: l2) by by rewrite <-app_assoc.
    rewrite (upsert_mid _ z l2 x); [|done|].
    + by rewrite <-app_assoc.
    + rewrite fmap_app, not_elem_of_app in *. cbn in *. rewrite !not_elem_of_cons in *. naive_solver.
  - assert (∀ u, key u = key x → upsert y (l1 ++ u :: l2) = l1 ++ u :: upsert y l2) as Hu.
    { intros u Hu. clear -Hy Hne Hu. induction l1 as [|v l1 IH]; cbn.
      - by rewrite bool_decide_eq_false_2 by congruence.
      - cbn in Hy. rewrite not_elem_of_cons in Hy. rewrite bool_decide_eq_false_2 by naive_solver. by rewrite IH by naive_solver. }
    rewrite !Hu by done. by rewrite upsert_mid.
Qed.

Lemma upserts_swap x l xs : key x ∉ key <$> xs → key x ∈ key <$> l → upsert x (upserts l xs) = upserts (upsert x l) xs.
Proof.
  revert l. induction xs as [|y xs IH]; intros l Hn Hin; cbn; [done|]. cbn in Hn. rewrite not_elem_of_cons in Hn.
  destruct Hn as [Hxy Hn]. fold (upserts (upsert y l) xs) (upserts (upsert y (upsert x l)) xs).
  rewrite IH; [|done|]; [by rewrite upsert_swap|]. rewrite upsert_keys. case_bool_decide; [done|]. apply elem_of_app. by left.
Qed.

(** Replacing a change in a batch is applying it after the batch. *)
Lemma upserts_upsert x l xs : NoDup (key <$> xs) → upserts l (upsert x xs) = upsert x (upserts l xs).
Proof.
  intros Hd. destruct (decide (key x ∈ key <$> xs)) as [Hin|Hin].
  - destruct (key_split _ _ Hin) as (xs1 & y & xs2 & -> & Hy & Hn). rewrite upsert_mid by done.
    rewrite !upserts_app. cbn. rewrite fmap_app, NoDup_app in Hd. destruct Hd as (_ & _ & Hd). cbn in Hd.
    apply NoDup_cons in Hd as [Hyn _].
    fold (upserts (upsert x (upserts l xs1)) xs2) (upserts (upsert y (upserts l xs1)) xs2).
    rewrite (upserts_swap x (upsert y (upserts l xs1)) xs2), upsert_twice; [done|done|by rewrite <-Hy|].
    rewrite upsert_keys, Hy.
    case_bool_decide; [done|]. apply elem_of_app. right. left.
  - rewrite upsert_new, upserts_app by done. done.
Qed.

Lemma filter_upsert (P : K → bool) x l :
  List.filter (λ y, P (key y)) (upsert x l) =
  if P (key x) then upsert x (List.filter (λ y, P (key y)) l) else List.filter (λ y, P (key y)) l.
Proof.
  induction l as [|y l IH]; cbn; [by destruct (P (key x))|].
  destruct (bool_decide (key y = key x)) eqn:E; cbn.
  - apply bool_decide_eq_true in E. rewrite E. destruct (P (key x)) eqn:Hp; cbn; [by rewrite bool_decide_eq_true_2|done].
  - rewrite IH. destruct (P (key x)) eqn:Hx, (P (key y)) eqn:Hy; cbn; rewrite ?E; done.
Qed.

Lemma filter_upserts (P : K → bool) xs l :
  List.filter (λ y, P (key y)) (upserts l xs) =
  upserts (List.filter (λ y, P (key y)) l) (List.filter (λ y, P (key y)) xs).
Proof.
  revert l. induction xs as [|x xs IH]; intros l; cbn; [done|]. fold (upserts (upsert x l) xs).
  rewrite IH, filter_upsert. by destruct (P (key x)).
Qed.
End upserts.

Section spec.
Context {W : Wire}.
Context (thread_item_from : TurnItem → ThreadItem) (parse_command : list str → list ParsedCommand).
Notation handle_event := (handle_event thread_item_from parse_command).
Notation handle_rollout_item := (handle_rollout_item thread_item_from parse_command).
Notation upsert_thread_item := (upsert item_id).
Implicit Types (b : ThreadHistoryBuilder) (t : PendingTurn) (items : list ThreadItem).

(** ** The index of a turn *)
Definition index_ok (index : option (gmap str nat)) items : Prop :=
  match index with None => True | Some m => ∀ id, m !! id = position_of id items end.

Lemma position_of_ids id items items' : item_id <$> items = item_id <$> items' → position_of id items = position_of id items'.
Proof.
  revert items'. induction items as [|x items IH]; intros [|y items'] He; cbn in *; try done.
  injection He as -> He. by rewrite (IH _ He).
Qed.

Lemma position_of_snoc id items x :
  position_of id (items ++ [x]) =
  match position_of id items with
  | Some i => Some i
  | None => if bool_decide (item_id x = id) then Some (length items) else None
  end.
Proof.
  induction items as [|y items IH]; cbn; [by destruct (bool_decide (item_id x = id))|].
  destruct (bool_decide (item_id y = id)); [done|]. rewrite IH. destruct (position_of id items); cbn; [done|].
  by destruct (bool_decide (item_id x = id)).
Qed.

Lemma entry_or_insert_lookup k v m id :
  entry_or_insert k v m !! id = match m !! id with Some i => Some i | None => if bool_decide (k = id) then Some v else None end.
Proof.
  unfold entry_or_insert. destruct (m !! k) as [i|] eqn:Hk.
  - destruct (m !! id) eqn:Hi; [done|]. case_bool_decide; by simplify_eq.
  - destruct (decide (k = id)) as [->|Hne].
    + rewrite lookup_insert_eq, Hk. by rewrite bool_decide_eq_true_2.
    + rewrite lookup_insert_ne by done. rewrite bool_decide_eq_false_2 by done. by destruct (m !! id).
Qed.

Lemma index_push_ok index items x : index_ok index items → index_ok (index_push index items x).1 (items ++ [x]).
Proof.
  destruct index as [m|]; cbn; [|done]. intros Hm id. by rewrite entry_or_insert_lookup, Hm, position_of_snoc.
Qed.

Lemma build_positions_ok items : index_ok (Some (build_positions items)) items.
Proof.
  intros id. unfold build_positions. induction items as [|x items IH] using rev_ind; [done|].
  rewrite imap_app, foldl_app. cbn. rewrite entry_or_insert_lookup, IH, position_of_snoc. by rewrite Nat.add_0_r.
Qed.

Lemma position_of_upsert x items :
  upsert_thread_item x items =
  match position_of (item_id x) items with Some i => <[i := x]> items | None => items ++ [x] end.
Proof.
  induction items as [|y items IH]; cbn; [done|]. destruct (bool_decide (item_id y = item_id x)); [done|].
  rewrite IH. by destruct (position_of (item_id x) items).
Qed.

Lemma position_of_None x items : position_of (item_id x) items = None → item_id x ∉ item_id <$> items.
Proof.
  induction items as [|y items IH]; cbn; [intros _; apply not_elem_of_nil|].
  case_bool_decide; [done|]. destruct (position_of (item_id x) items); [done|]. intros _.
  rewrite not_elem_of_cons. naive_solver.
Qed.

(** The indexed update replaces the first item with the identifier or appends, as a search would. *)
Lemma index_upsert_ok index items x : index_ok index items →
  (index_upsert index items x).2 = upsert_thread_item x items ∧
  index_ok (index_upsert index items x).1 (index_upsert index items x).2.
Proof.
  intros Hi. unfold index_upsert.
  set (idx := match index with Some p => Some p | None => _ end).
  assert (index_ok idx items) as Hidx.
  { subst idx. destruct index as [m|]; [done|]. destruct (_ <=? _); [apply build_positions_ok|done]. }
  assert (match idx with Some p => p !! item_id x | None => position_of (item_id x) items end = position_of (item_id x) items)
    as -> by (destruct idx; [apply Hidx|done]).
  rewrite position_of_upsert. destruct (position_of (item_id x) items) as [i|] eqn:Hp; cbn [fst snd].
  - split; [done|]. destruct idx as [m|]; [|done]. intros id. rewrite Hidx. apply position_of_ids.
    pose proof (upsert_keys item_id x items) as Hk. rewrite position_of_upsert, Hp in Hk. rewrite Hk.
    case_bool_decide as Hin; [done|]. exfalso. apply Hin. clear -Hp. revert i Hp.
    induction items as [|y items IH]; intros i; cbn; [done|]. case_bool_decide as E; [rewrite E; left|].
    destruct (position_of (item_id x) items) as [j|]; [|done]. intros _. right. by apply (IH j).
  - split; [done|]. by apply (index_push_ok idx items x).
Qed.

(** ** Reports do not influence the builder *)
Definition erase b : ThreadHistoryBuilder := set_changes b None.

Lemma erase_record_item b id x : erase (record_changed_item b id x) = erase b.
Proof. unfold record_changed_item. by destruct (active_change_set b). Qed.
Lemma erase_record_turn b c : erase (record_changed_turn b c) = erase b.
Proof. unfold record_changed_turn. by destruct (active_change_set b). Qed.
Lemma erase_record_removed b ids : erase (record_removed_turn_ids b ids) = erase b.
Proof. unfold record_removed_turn_ids. by destruct (active_change_set b). Qed.
Lemma erase_idemp b : erase (erase b) = erase b.
Proof. done. Qed.
Lemma erase_set_current b o : erase (set_current b o) = set_current (erase b) o.
Proof. done. Qed.
Lemma erase_set_turns b ts : erase (set_turns b ts) = set_turns (erase b) ts.
Proof. done. Qed.

Lemma erase_finish b : erase (finish_current_turn b) = finish_current_turn (erase b).
Proof. unfold finish_current_turn. cbn. destruct (current_turn b); [|done]. by destruct (_ && _). Qed.

Lemma erase_new_turn b id : new_turn (erase b) id = ((new_turn b id).1, erase (new_turn b id).2).
Proof. unfold new_turn. destruct id; [done|]. cbn. by destruct (next_rollout_index b =? 0). Qed.

Lemma erase_ensure b : ensure_turn (erase b) = ((ensure_turn b).1, erase (ensure_turn b).2).
Proof.
  unfold ensure_turn. cbn. destruct (current_turn b); [done|]. rewrite erase_new_turn.
  destruct (new_turn b None) as [t b'] eqn:E. cbn. f_equal. rewrite erase_set_current. unfold record_changed_pending_turn.
  by rewrite erase_record_turn.
Qed.

Lemma erase_next_id b : next_item_id (erase b) = ((next_item_id b).1, erase (next_item_id b).2).
Proof. done. Qed.

Lemma erase_push b x : erase (push_item_in_current_turn b x) = push_item_in_current_turn (erase b) x.
Proof.
  unfold push_item_in_current_turn. rewrite erase_ensure. destruct (ensure_turn b) as [t b']. cbn.
  by rewrite erase_record_item.
Qed.
Lemma erase_upsert_current b x : erase (upsert_item_in_current_turn b x) = upsert_item_in_current_turn (erase b) x.
Proof.
  unfold upsert_item_in_current_turn. rewrite erase_ensure. destruct (ensure_turn b) as [t b']. cbn.
  by rewrite erase_record_item.
Qed.
Lemma erase_upsert_id b id x : erase (upsert_item_in_turn_id b id x) = upsert_item_in_turn_id (erase b) id x.
Proof.
  unfold upsert_item_in_turn_id. change (current_with_id (erase b) id) with (current_with_id b id).
  destruct (current_with_id b id); [by rewrite erase_record_item|]. cbn.
  destruct (update_turn id (λ t, upsert_item t x) (turns b)) as [[]|]; [by rewrite erase_record_item|done].
Qed.
Lemma erase_upsert_or b id x :
  erase (upsert_item_in_turn_or_current b id x) = upsert_item_in_turn_or_current (erase b) id x.
Proof. unfold upsert_item_in_turn_or_current. destruct (is_empty id); [apply erase_upsert_current|apply erase_upsert_id]. Qed.

#[local] Hint Rewrite erase_record_item erase_record_turn erase_record_removed erase_finish erase_push erase_upsert_current
  erase_upsert_id erase_upsert_or : erase.

Lemma erase_abort_current b c d : erase (abort_current b c d) = abort_current (erase b) c d.
Proof.
  unfold abort_current, record_changed_pending_turn. cbn. destruct (current_turn b); [|done]. by autorewrite with erase.
Qed.
Lemma erase_complete_current b e c d : erase (complete_current b e c d) = complete_current (erase b) e c d.
Proof.
  unfold complete_current, record_changed_pending_turn. cbn. destruct (current_turn b); [|done]. by autorewrite with erase.
Qed.
Lemma erase_extend b f : erase (extend_reasoning b f) = extend_reasoning (erase b) f.
Proof.
  unfold extend_reasoning. rewrite erase_ensure. destruct (ensure_turn b) as [t b']. cbn [fst snd].
  assert (erase (let '(id, b) := next_item_id b' in let '(summary, content) := f [] [] in
      push_item_in_current_turn b (Reasoning id summary content)) =
    (let '(id, b) := next_item_id (erase b') in let '(summary, content) := f [] [] in
      push_item_in_current_turn b (Reasoning id summary content))) as Hp.
  { rewrite erase_next_id. destruct (next_item_id b') as [id b'']. destruct (f [] []). cbn. apply erase_push. }
  destruct (last (pt_items t)) as [[]|]; try apply Hp. destruct (f summary content). by autorewrite with erase.
Qed.
Lemma erase_review b id x : erase (upsert_review_mode_item b id x) = upsert_review_mode_item (erase b) id x.
Proof.
  unfold upsert_review_mode_item. destruct id as [id|]; [|apply erase_upsert_current].
  change (has_turn (erase b) id) with (has_turn b id). destruct (has_turn b id); [apply erase_upsert_id|].
  rewrite <-erase_finish, erase_new_turn. destruct (new_turn (finish_current_turn b) (Some id)) as [t b'] eqn:E.
  cbn [fst snd]. rewrite erase_upsert_id, erase_set_current. unfold record_changed_pending_turn. by rewrite !erase_record_turn.
Qed.
Lemma erase_aborted b id c d : erase (handle_turn_aborted b id c d) = handle_turn_aborted (erase b) id c d.
Proof.
  unfold handle_turn_aborted, record_changed_pending_turn. destruct id as [id|]; [|apply erase_abort_current].
  change (current_with_id (erase b) id) with (current_with_id b id).
  destruct (current_with_id b id); [apply erase_abort_current|]. cbn.
  destruct (update_turn id (apply_abort c d) (turns b)) as [[]|]; [by autorewrite with erase|apply erase_abort_current].
Qed.
Lemma erase_complete b id e c d : erase (handle_turn_complete b id e c d) = handle_turn_complete (erase b) id e c d.
Proof.
  unfold handle_turn_complete, record_changed_pending_turn. change (current_with_id (erase b) id) with (current_with_id b id).
  destruct (current_with_id b id); [apply erase_complete_current|]. cbn.
  destruct (update_turn id _ (turns b)) as [[]|]; [by autorewrite with erase|apply erase_complete_current].
Qed.
Lemma erase_started b id s : erase (handle_turn_started b id s) = handle_turn_started (erase b) id s.
Proof.
  unfold handle_turn_started, record_changed_pending_turn. rewrite <-erase_finish, erase_new_turn.
  destruct (new_turn (finish_current_turn b) (Some id)) as [t b']. cbn [fst snd].
  by rewrite erase_set_current, !erase_record_turn.
Qed.
Lemma erase_rollback b n : erase (handle_thread_rollback b n) = handle_thread_rollback (erase b) n.
Proof.
  unfold handle_thread_rollback. rewrite <-erase_finish. set (b' := finish_current_turn b).
  unfold record_removed_turn_ids. cbn. by destruct (active_change_set b').
Qed.
Lemma erase_user_message b p : erase (handle_user_message b p) = handle_user_message (erase b) p.
Proof.
  unfold handle_user_message. change (current_turn (erase b)) with (current_turn b).
  assert (∀ b, erase (let '(id, b) := next_item_id b in push_item_in_current_turn b (UserMessage id (um_client_id p) (build_user_inputs p))) =
    (let '(id, b) := next_item_id (erase b) in push_item_in_current_turn b (UserMessage id (um_client_id p) (build_user_inputs p)))) as Hp
    by (intros b'; rewrite erase_next_id; destruct (next_item_id b'); apply erase_push).
  destruct (current_turn b) as [t|]; [|apply Hp]. destruct (_ && _); rewrite Hp; [by rewrite erase_finish|done].
Qed.

Lemma erase_push_fresh b (f : str → ThreadItem) :
  erase (let '(id, b) := next_item_id b in push_item_in_current_turn b (f id)) =
  (let '(id, b) := next_item_id (erase b) in push_item_in_current_turn b (f id)).
Proof. rewrite erase_next_id. destruct (next_item_id b). apply erase_push. Qed.

Lemma erase_review_fresh b turn (id : option str) (f : str → ThreadItem) :
  erase (let '(id, b) := match id with Some id => (id, b) | None => next_item_id b end in upsert_review_mode_item b turn (f id)) =
  (let '(id, b) := match id with Some id => (id, erase b) | None => next_item_id (erase b) end in upsert_review_mode_item b turn (f id)).
Proof. destruct id; [apply erase_review|]. rewrite erase_next_id. destruct (next_item_id b). apply erase_review. Qed.

(** Handling an event commutes with forgetting the report. *)
Lemma erase_handle_event b e : erase (handle_event b e) = handle_event (erase b) e.
Proof.
  destruct e; cbn [ThreadHistory.handle_event]; autounfold with thread_handlers;
    auto using erase_upsert_current, erase_upsert_id, erase_upsert_or, erase_user_message, erase_aborted,
      erase_complete, erase_started, erase_rollback.
  - unfold handle_agent_message. destruct (is_empty message); [done|]. apply (erase_push_fresh b (λ id, AgentMessage id _ _ _ _ _)).
  - unfold handle_agent_reasoning. destruct (is_empty text); [done|apply erase_extend].
  - unfold handle_agent_reasoning_raw_content. destruct (is_empty text); [done|apply erase_extend].
  - unfold handle_guardian_assessment. destruct (ga_status payload); try done;
      destruct (build_item_from_guardian_event _ _ _); auto using erase_upsert_or.
  - apply erase_upsert_or.
  - apply erase_upsert_or.
  - apply erase_upsert_current.
  - unfold handle_mcp_tool_call_end. destruct (me_result payload); apply erase_upsert_current.
  - unfold handle_collab_agent_spawn_end. destruct new_thread; apply erase_upsert_current.
  - apply erase_upsert_current.
  - apply (erase_push_fresh b ContextCompaction).
  - apply (erase_review_fresh b turn_id item_id (λ id, EnteredReviewMode id _)).
  - apply (erase_review_fresh b turn_id item_id (λ id, ExitedReviewMode id _)).
  - unfold handle_materialized_item_lifecycle. destruct (should_upsert _); [|done].
    destruct (is_review_mode_item _); [apply erase_review|apply erase_upsert_id].
  - unfold handle_materialized_item_lifecycle. destruct (should_upsert _); [|done].
    destruct (is_review_mode_item _); [apply erase_review|apply erase_upsert_id].
  - unfold handle_error, record_changed_pending_turn. destruct (affects_turn_status payload); [|done]. cbn.
    destruct (current_turn b); [by autorewrite with erase|done].
Qed.

Lemma erase_handle_rollout_item b item : erase (handle_rollout_item b item) = handle_rollout_item (erase b) item.
Proof.
  unfold ThreadHistory.handle_rollout_item. destruct item as [e| |role content id|r|]; [|..|done|done].
  - rewrite erase_handle_event. done.
  - unfold handle_compacted. change (next_rollout (erase b)) with (erase (next_rollout b)). rewrite erase_ensure.
    by destruct (ensure_turn (next_rollout b)).
  - unfold handle_response_item. destruct (negb _); [done|]. destruct (parse_hook_prompt_fragments content); [|done].
    destruct id; apply erase_push.
Qed.

(** Collecting changes does not change what is built. *)
Lemma with_changes_state b item : active_change_set b = None →
  (handle_rollout_item_with_changes thread_item_from parse_command b item).2 = handle_rollout_item b item.
Proof.
  intros Hb. unfold handle_rollout_item_with_changes, collect_changes. cbn [snd].
  change (set_changes (handle_rollout_item (set_changes b (Some no_changes)) item) None)
    with (erase (handle_rollout_item (set_changes b (Some no_changes)) item)).
  rewrite erase_handle_rollout_item. change (erase (set_changes b (Some no_changes))) with (erase b).
  f_equal. unfold erase, set_changes. rewrite <-Hb. by destruct b.
Qed.
End spec.
