(* ===== verification/ThreadProjection.v ===== *)
(** * Following a thread by its changes

    A client keeps a table of turns and a table of the items of each turn and
    applies the changes the builder reports. While identifiers are distinct, the
    tables hold exactly what the builder has built. *)

From stdpp Require Import prelude list gmap strings sorting pretty.
From S2P Require Import Prelude ThreadItems ThreadHistory ThreadHistorySpec.

Section projection.
Context {W : Wire}.
Context (thread_item_from : TurnItem → ThreadItem) (parse_command : list str → list ParsedCommand).
Notation handle_event := (handle_event thread_item_from parse_command).
Notation handle_rollout_item := (handle_rollout_item thread_item_from parse_command).
Implicit Types (b : ThreadHistoryBuilder) (t : PendingTurn) (v : list PendingTurn).

(** ** The client *)
Record Client := mkClient {
  client_turns : list ThreadHistoryTurnChange;
  client_items : gmap str (list ThreadItem);
}.
Implicit Types cl : Client.

Definition rows cl (turn_id : str) : list ThreadItem := default [] (client_items cl !! turn_id).

Definition apply_removed cl (turn_id : str) : Client :=
  mkClient (List.filter (λ c, negb (bool_decide (tc_turn_id c = turn_id))) (client_turns cl))
    (delete turn_id (client_items cl)).
Definition apply_turn cl (c : ThreadHistoryTurnChange) : Client :=
  mkClient (upsert tc_turn_id c (client_turns cl)) (client_items cl).
Definition apply_item cl (c : ThreadHistoryItemChange) : Client :=
  mkClient (client_turns cl) (<[ic_turn_id c := upsert item_id (ic_item c) (rows cl (ic_turn_id c))]> (client_items cl)).

Definition apply_changes cl (cs : ThreadHistoryChangeSet) : Client :=
  foldl apply_item (foldl apply_turn (foldl apply_removed cl (removed_turn_ids cs)) (changed_turns cs)) (changed_items cs).

(** The client holds a list of turns: their data in order, and the items of each. *)
Record holds cl v : Prop := {
  holds_turns : client_turns cl = from_pending_turn <$> v;
  holds_items t : t ∈ v → rows cl (pt_id t) = pt_items t;
  holds_rest id : id ∉ pt_id <$> v → rows cl id = [];
}.

(** The turns of a builder, the open one last. *)
Definition view b : list PendingTurn := turns b ++ match current_turn b with Some t => [t] | None => [] end.

Record distinct v : Prop := {
  distinct_turns : NoDup (pt_id <$> v);
  distinct_items : Forall (λ t, NoDup (item_id <$> pt_items t)) v;
}.

(** ** Sets of changes *)
Definition cs_app (c d : ThreadHistoryChangeSet) : ThreadHistoryChangeSet :=
  mkChangeSet (changed_items c ++ changed_items d) (changed_turns c ++ changed_turns d)
    (removed_turn_ids c ++ removed_turn_ids d).
Definition cs_item (id : str) (x : ThreadItem) : ThreadHistoryChangeSet := mkChangeSet [mkItemChange id x None None] [] [].
Definition cs_turn t : ThreadHistoryChangeSet := mkChangeSet [] [from_pending_turn t] [].

Lemma cs_app_nil c : cs_app c no_changes = c.
Proof. destruct c. unfold cs_app. cbn. by rewrite !app_nil_r. Qed.
Lemma cs_nil_app c : cs_app no_changes c = c.
Proof. by destruct c. Qed.
Lemma cs_app_assoc c d e : cs_app c (cs_app d e) = cs_app (cs_app c d) e.
Proof. unfold cs_app. cbn. by rewrite !app_assoc. Qed.

Lemma items_turns_commute cl ics tcs :
  foldl apply_turn (foldl apply_item cl ics) tcs = foldl apply_item (foldl apply_turn cl tcs) ics.
Proof.
  revert cl. induction ics as [|i ics IH]; intros cl; cbn; [done|]. rewrite IH. f_equal. clear IH ics.
  revert cl. induction tcs as [|c tcs IH]; intros cl; cbn; [done|]. by rewrite <-IH.
Qed.

Lemma apply_changes_app cl c d : removed_turn_ids d = [] →
  apply_changes cl (cs_app c d) = apply_changes (apply_changes cl c) d.
Proof.
  intros Hd. unfold apply_changes, cs_app. cbn. rewrite Hd, app_nil_r, !foldl_app. cbn.
  by rewrite items_turns_commute.
Qed.

(** What a handler adds to the report. *)
Definition emits b b' (cs : ThreadHistoryChangeSet) : Prop :=
  ∀ c, active_change_set b = Some c → active_change_set b' = Some (cs_app c cs).

Lemma emits_same b b' : active_change_set b' = active_change_set b → emits b b' no_changes.
Proof. intros He c Hc. by rewrite He, Hc, cs_app_nil. Qed.
Lemma emits_trans b1 b2 b3 c d : emits b1 b2 c → emits b2 b3 d → emits b1 b3 (cs_app c d).
Proof. intros H1 H2 e He. rewrite cs_app_assoc. by apply H2, H1. Qed.
Lemma emits_item b id x : emits b (record_changed_item b id x) (cs_item id x).
Proof. intros c Hc. unfold record_changed_item. rewrite Hc. unfold cs_app, cs_item. cbn. by rewrite !app_nil_r. Qed.
Lemma emits_turn b t : emits b (record_changed_pending_turn b t) (cs_turn t).
Proof.
  intros c Hc. unfold record_changed_pending_turn, record_changed_turn. rewrite Hc. unfold cs_app, cs_turn. cbn.
  by rewrite !app_nil_r.
Qed.

Lemma view_record_item b id x : view (record_changed_item b id x) = view b.
Proof. unfold record_changed_item. by destruct (active_change_set b). Qed.
Lemma current_record_item b id x : current_turn (record_changed_item b id x) = current_turn b.
Proof. unfold record_changed_item. by destruct (active_change_set b). Qed.
Lemma record_turn_proj b c : turns (record_changed_turn b c) = turns b ∧ current_turn (record_changed_turn b c) = current_turn b.
Proof. unfold record_changed_turn. by destruct (active_change_set b). Qed.

(** ** Steps of the list of turns *)
Definition indexed v : Prop := Forall (λ t, index_ok (pt_index t) (pt_items t)) v.

(** A step of the turns that the changes describe. *)
Definition view_step v v' (cs : ThreadHistoryChangeSet) : Prop :=
  removed_turn_ids cs = [] ∧ (indexed v → indexed v') ∧
  (indexed v → distinct v → distinct v' → ∀ cl, holds cl v → holds (apply_changes cl cs) v').

Lemma view_step_refl v : view_step v v no_changes.
Proof. done. Qed.

Lemma rows_apply_item cl c id :
  rows (apply_item cl c) id = if bool_decide (ic_turn_id c = id) then upsert item_id (ic_item c) (rows cl id) else rows cl id.
Proof.
  unfold rows, apply_item. cbn. case_bool_decide as E; [subst; by rewrite lookup_insert_eq|by rewrite lookup_insert_ne].
Qed.

Lemma middle_ids v1 t v2 t' : pt_id t' = pt_id t → pt_id <$> v1 ++ t' :: v2 = pt_id <$> v1 ++ t :: v2.
Proof. intros E. by rewrite !fmap_app, !fmap_cons, E. Qed.

Lemma middle_other v1 t v2 x : NoDup (pt_id <$> v1 ++ t :: v2) → x ∈ v1 ++ v2 → pt_id x ≠ pt_id t.
Proof.
  rewrite fmap_app, NoDup_app, fmap_cons, NoDup_cons. intros (_ & Hd & Ht & _) [Hx|Hx]%elem_of_app He.
  - apply (Hd (pt_id x)); [by apply list_elem_of_fmap_2|]. rewrite He. left.
  - apply Ht. rewrite <-He. by apply list_elem_of_fmap_2.
Qed.

(** An item of one turn is replaced or appended. *)
Lemma view_step_item v1 t v2 t' x :
  from_pending_turn t' = from_pending_turn t →
  (index_ok (pt_index t) (pt_items t) → index_ok (pt_index t') (pt_items t')) →
  (index_ok (pt_index t) (pt_items t) → distinct (v1 ++ t :: v2) → distinct (v1 ++ t' :: v2) →
     pt_items t' = upsert item_id x (pt_items t)) →
  view_step (v1 ++ t :: v2) (v1 ++ t' :: v2) (cs_item (pt_id t) x).
Proof.
  intros Hf Hi Hx. assert (pt_id t' = pt_id t) as Hid by by injection Hf.
  split_and!; [done| |].
  - unfold indexed. rewrite !Forall_app, !Forall_cons. tauto.
  - intros Hix Hd Hd' cl [Ht Hr Hn]. unfold indexed in Hix. rewrite Forall_app, Forall_cons in Hix.
    specialize (Hx (proj1 (proj2 Hix)) Hd Hd'). unfold apply_changes, cs_item. cbn [changed_items changed_turns removed_turn_ids foldl].
    split.
    + cbn. rewrite Ht, !fmap_app, !fmap_cons. by rewrite Hf.
    + intros u Hu. rewrite rows_apply_item. cbn [ic_turn_id ic_item].
      apply elem_of_app in Hu as [Hu|[->|Hu]%elem_of_cons].
      * rewrite bool_decide_eq_false_2; [apply Hr; apply elem_of_app; by left|].
        intros E. apply (middle_other v1 t v2 u); [apply Hd|apply elem_of_app; by left|done].
      * rewrite Hid, bool_decide_eq_true_2 by done. rewrite Hr by (apply elem_of_app; right; left). done.
      * rewrite bool_decide_eq_false_2; [apply Hr; apply elem_of_app; right; by right|].
        intros E. apply (middle_other v1 t v2 u); [apply Hd|apply elem_of_app; by right|done].
    + intros id Hid'. rewrite (middle_ids v1 t v2 t') in Hid' by done. rewrite rows_apply_item. cbn [ic_turn_id].
      rewrite bool_decide_eq_false_2; [by apply Hn|]. intros <-. apply Hid'. apply list_elem_of_fmap_2, elem_of_app. right. left.
Qed.

(** The data of one turn change, its items do not. *)
Lemma view_step_turn v1 t v2 t' :
  pt_id t' = pt_id t → pt_items t' = pt_items t → pt_index t' = pt_index t →
  view_step (v1 ++ t :: v2) (v1 ++ t' :: v2) (cs_turn t').
Proof.
  intros Hid Hit Hix. split_and!; [done| |].
  - unfold indexed. rewrite !Forall_app, !Forall_cons, Hit, Hix. tauto.
  - intros _ Hd _ cl [Ht Hr Hn]. unfold apply_changes, cs_turn. cbn [changed_items changed_turns removed_turn_ids foldl].
    split.
    + cbn. rewrite Ht, !fmap_app, !fmap_cons. apply upsert_mid; [done|].
      destruct Hd as [Hd _]. rewrite fmap_app, NoDup_app, fmap_cons in Hd. destruct Hd as (_ & Hd & _).
      rewrite <-list_fmap_compose. cbn. intros Hin. apply (Hd (pt_id t')); [done|]. rewrite Hid. left.
    + intros u Hu. change (rows (apply_turn cl (from_pending_turn t')) (pt_id u)) with (rows cl (pt_id u)).
      apply elem_of_app in Hu as [Hu|[->|Hu]%elem_of_cons].
      * apply Hr. apply elem_of_app. by left.
      * rewrite Hid, Hit. apply Hr. apply elem_of_app. right. left.
      * apply Hr. apply elem_of_app. right. by right.
    + intros id Hi. rewrite (middle_ids v1 t v2 t') in Hi by done. by apply Hn.
Qed.

(** A turn without items is opened. *)
Lemma view_step_new v t : pt_items t = [] → pt_index t = None → view_step v (v ++ [t]) (cs_turn t).
Proof.
  intros Hi Hx. split_and!; [done| |].
  - unfold indexed. rewrite Forall_app, Forall_singleton, Hx. done.
  - intros _ _ Hd cl [Ht Hr Hn]. unfold apply_changes, cs_turn. cbn [changed_items changed_turns removed_turn_ids foldl].
    destruct Hd as [Hd _]. rewrite fmap_app, NoDup_app in Hd. destruct Hd as (_ & Hd & _).
    assert (pt_id t ∉ pt_id <$> v) as Hnew by (intros Hin; apply (Hd _ Hin); left).
    split.
    + cbn. rewrite Ht, fmap_app. apply upsert_new. by rewrite <-list_fmap_compose.
    + intros u [Hu| ->%list_elem_of_singleton]%elem_of_app; [by apply Hr|]. rewrite Hi. by apply Hn.
    + intros id Hid. apply Hn. rewrite fmap_app, not_elem_of_app in Hid. tauto.
Qed.

Lemma distinct_last_empty v t0 t' : pt_id t0 = pt_id t' → pt_items t0 = [] → distinct (v ++ [t']) → distinct (v ++ [t0]).
Proof.
  intros Hid Hi [Hd Hit]. split.
  - by rewrite (middle_ids v t' [] t0).
  - rewrite Forall_app in *. destruct Hit as [Hit _]. split; [done|]. constructor; [|done]. rewrite Hi. constructor.
Qed.

(** A turn is opened with its first item. *)
Lemma view_step_new_item v t0 t' x :
  pt_items t0 = [] → pt_index t0 = None → from_pending_turn t' = from_pending_turn t0 →
  index_ok (pt_index t') (pt_items t') → pt_items t' = [x] →
  view_step v (v ++ [t']) (cs_app (cs_turn t0) (cs_item (pt_id t0) x)).
Proof.
  intros Hi Hx Hf Hix Hit. assert (pt_id t' = pt_id t0) as Hid by by injection Hf.
  destruct (view_step_new v t0 Hi Hx) as (_ & Hn1 & Hn2).
  destruct (view_step_item v t0 [] t' x Hf) as (_ & Hs1 & Hs2); [done|by rewrite Hit, Hi|].
  split_and!; [done|by auto|]. intros Hiv Hd Hd' cl Hh. rewrite apply_changes_app by done.
  pose proof (distinct_last_empty v t0 t' (eq_sym Hid) Hi Hd') as Hd0. apply Hs2; auto.
Qed.

(** ** Handlers *)

(** A turn that finishing does not drop. *)
Definition substantial t : bool := negb (is_empty (pt_items t)) || pt_opened_explicitly t || pt_saw_compaction t.
Definition open_ok b : Prop := ∀ t, current_turn b = Some t → substantial t = true.

Definition handles b b' : Prop :=
  ∃ cs, emits b b' cs ∧ view_step (view b) (view b') cs ∧ open_ok b'.

(** Steps that prepare a handler: the turns and the report stay. *)
Definition same b b' : Prop :=
  view b' = view b ∧ active_change_set b' = active_change_set b ∧ (open_ok b → open_ok b').

Lemma handles_same b b' : open_ok b → same b b' → handles b b'.
Proof.
  intros Ho (Hv & Ha & Hs). exists no_changes. split_and!; [by apply emits_same| |auto].
  rewrite Hv. apply view_step_refl.
Qed.

Lemma handles_pre b b0 b' : same b b0 → handles b0 b' → handles b b'.
Proof.
  intros (Hv & Ha & _) (cs & He & Hs & Ho). exists cs. split_and!; [|by rewrite <-Hv|done].
  intros c Hc. apply He. by rewrite Ha.
Qed.

Lemma same_finish b : open_ok b → same b (finish_current_turn b) ∧ current_turn (finish_current_turn b) = None.
Proof.
  intros Ho. unfold same, finish_current_turn, view.
  destruct (current_turn b) as [t|] eqn:Hc; [|by rewrite Hc].
  specialize (Ho t Hc). unfold substantial in Ho.
  assert (is_empty (pt_items t) && negb (pt_opened_explicitly t) && negb (pt_saw_compaction t) = false) as ->
    by (destruct (is_empty (pt_items t)), (pt_opened_explicitly t), (pt_saw_compaction t); done).
  cbn. rewrite app_nil_r. done.
Qed.

Lemma same_next_id b : same b (next_item_id b).2.
Proof. done. Qed.
Lemma same_uuid b : same b (draw_uuid b).2.
Proof. done. Qed.

Lemma new_turn_spec b id : ∃ i, (new_turn b id).1 =
    mkPending i [] None None TurnCompleted None None None false false (current_rollout_index (new_turn b id).2) ∧
  turns (new_turn b id).2 = turns b ∧ current_turn (new_turn b id).2 = current_turn b ∧
  active_change_set (new_turn b id).2 = active_change_set b ∧ (∀ j, id = Some j → i = j).
Proof.
  unfold new_turn. destruct id as [id|]; [exists id; cbn; naive_solver|].
  destruct (next_rollout_index b =? 0); cbn; eexists; split_and!; done || by intros.
Qed.

Lemma ensure_turn_cases b t b1 : ensure_turn b = (t, b1) →
  turns b1 = turns b ∧ current_turn b1 = Some t ∧
  ((current_turn b = Some t ∧ b1 = b) ∨
   (current_turn b = None ∧ pt_items t = [] ∧ pt_index t = None ∧ emits b b1 (cs_turn t))).
Proof.
  unfold ensure_turn. destruct (current_turn b) as [u|] eqn:Hc; [intros [= <- <-]; auto|].
  destruct (new_turn_spec b None) as (i & Ht & Hts & Hcur & Ha & _). destruct (new_turn b None) as [u b0]. cbn [fst snd] in *.
  intros [= <- <-]. pose proof (record_turn_proj b0 (from_pending_turn u)) as [Hp1 Hp2].
  split_and!; [cbn; unfold record_changed_pending_turn; congruence|done|right].
  rewrite Ht. cbn [pt_items pt_index]. split_and!; [done|done|done|]. rewrite <-Ht.
  intros c Hc'. cbn. apply (emits_turn b0 u). by rewrite Ha.
Qed.

(** An item enters the open turn, which is opened first if there is none. *)
Lemma handles_current_item b t b1 t' x : ensure_turn b = (t, b1) →
  from_pending_turn t' = from_pending_turn t →
  (index_ok (pt_index t) (pt_items t) → index_ok (pt_index t') (pt_items t')) →
  (index_ok (pt_index t) (pt_items t) → NoDup (item_id <$> pt_items t) → NoDup (item_id <$> pt_items t') →
     pt_items t' = upsert item_id x (pt_items t)) →
  (pt_items t = [] → pt_items t' = [x]) → pt_items t' ≠ [] →
  handles b (record_changed_item (set_current b1 (Some t')) (pt_id t) x).
Proof.
  intros He Hf Hi Hx Hnew Hne. destruct (ensure_turn_cases b t b1 He) as (Hts & Hcur & Hcase).
  assert (view (record_changed_item (set_current b1 (Some t')) (pt_id t) x) = turns b ++ [t']) as Hv
    by (rewrite view_record_item; unfold view; cbn; by rewrite Hts).
  assert (open_ok (record_changed_item (set_current b1 (Some t')) (pt_id t) x)) as Ho.
  { intros u. rewrite current_record_item. intros [= <-]. unfold substantial. by destruct (pt_items t'). }
  destruct Hcase as [[Hc ->]|(Hc & Hi0 & Hx0 & Hem)].
  - exists (cs_item (pt_id t) x). split_and!; [apply (emits_item (set_current b (Some t')))| |done].
    rewrite Hv. unfold view. rewrite Hc. apply view_step_item; [done|done|]. intros Hix [_ Hd] [_ Hd'].
    rewrite Forall_app, Forall_singleton in Hd, Hd'. apply Hx; tauto.
  - exists (cs_app (cs_turn t) (cs_item (pt_id t) x)). split_and!; [|rewrite Hv; unfold view; rewrite Hc, app_nil_r|done].
    + eapply emits_trans; [exact Hem|]. apply (emits_item (set_current b1 (Some t'))).
    + apply view_step_new_item; [done|done|done| |auto]. apply Hi. by rewrite Hx0.
Qed.

Lemma handles_push b x : handles b (push_item_in_current_turn b x).
Proof.
  unfold push_item_in_current_turn. destruct (ensure_turn b) as [t b1] eqn:He.
  eapply handles_current_item; [exact He|done| | | |]; unfold push_item, with_items; cbn.
  - intros. by apply (index_push_ok (pt_index t) (pt_items t) x).
  - intros _ _ Hd. rewrite fmap_app, NoDup_app in Hd. destruct Hd as (_ & Hd & _). symmetry. apply upsert_new.
    intros Hin. apply (Hd _ Hin). left.
  - by intros ->.
  - by destruct (pt_items t).
Qed.

Lemma upsert_ne_nil {A K} `{EqDecision K} (key : A → K) x l : upsert key x l ≠ [].
Proof. destruct l as [|y l]; cbn; [done|]. by destruct (bool_decide (key y = key x)). Qed.

Lemma handles_upsert_current b x : indexed (view b) → handles b (upsert_item_in_current_turn b x).
Proof.
  intros Hidx. unfold upsert_item_in_current_turn. destruct (ensure_turn b) as [t b1] eqn:He.
  assert (index_ok (pt_index t) (pt_items t)) as Hix.
  { destruct (ensure_turn_cases b t b1 He) as (_ & _ & [[Hc _]|(_ & _ & -> & _)]); [|done].
    unfold indexed, view in Hidx. rewrite Hc, Forall_app, Forall_singleton in Hidx. apply Hidx. }
  destruct (index_upsert_ok (pt_index t) (pt_items t) x Hix) as [Hr Hok].
  eapply handles_current_item; [exact He|done| | | |]; unfold upsert_item, with_items; cbn [pt_index pt_items]; auto.
  - rewrite Hr. by intros ->.
  - rewrite Hr. apply upsert_ne_nil.
Qed.

(** An item enters a turn that is not the open one. *)
Lemma update_turn_split id f ts t' ts' : update_turn id f ts = Some (t', ts') →
  ∃ ts1 t ts2, ts = ts1 ++ t :: ts2 ∧ t' = f t ∧ ts' = ts1 ++ f t :: ts2 ∧ pt_id t = id.
Proof.
  revert t' ts'. induction ts as [|t ts IH]; intros t' ts'; cbn; [done|]. case_bool_decide as Ht.
  - intros [= <- <-]. by exists [], t, ts.
  - destruct (update_turn id f ts) as [[u us]|]; [|done]. intros [= <- <-].
    destruct (IH u us eq_refl) as (ts1 & w & ts2 & -> & -> & -> & Hw). by exists (t :: ts1), w, ts2.
Qed.

Definition open_turn b : list PendingTurn := match current_turn b with Some t => [t] | None => [] end.

Lemma view_split b ts1 t ts2 : turns b = ts1 ++ t :: ts2 → view b = ts1 ++ t :: (ts2 ++ open_turn b).
Proof. intros Ht. unfold view. rewrite Ht, <-app_assoc. done. Qed.

Lemma indexed_mid v1 t v2 : indexed (v1 ++ t :: v2) → index_ok (pt_index t) (pt_items t).
Proof. unfold indexed. rewrite Forall_app, Forall_cons. tauto. Qed.

Lemma view_step_upsert v1 t v2 x : indexed (v1 ++ t :: v2) →
  view_step (v1 ++ t :: v2) (v1 ++ upsert_item t x :: v2) (cs_item (pt_id t) x).
Proof.
  intros Hi%indexed_mid. destruct (index_upsert_ok (pt_index t) (pt_items t) x Hi) as [Hr Hok].
  apply view_step_item; [done|done|]. intros _ _ _. exact Hr.
Qed.

Lemma current_with_id_split b id t : current_with_id b id = Some t →
  current_turn b = Some t ∧ pt_id t = id ∧ view b = turns b ++ [t].
Proof.
  unfold current_with_id, view. destruct (current_turn b) as [u|]; [|done]. case_bool_decide; [|done]. by intros [= ->].
Qed.

Lemma handles_upsert_id b id x : indexed (view b) → open_ok b → handles b (upsert_item_in_turn_id b id x).
Proof.
  intros Hi Ho. unfold upsert_item_in_turn_id. destruct (current_with_id b id) as [t|] eqn:Hc.
  - apply current_with_id_split in Hc as (Hc & _ & Hv). rewrite Hv in Hi.
    exists (cs_item (pt_id t) x). split_and!; [apply (emits_item (set_current b (Some (upsert_item t x))))| |].
    + rewrite view_record_item, Hv. by apply view_step_upsert.
    + intros u. rewrite current_record_item. intros [= <-]. unfold substantial. cbn.
      apply indexed_mid in Hi. destruct (index_upsert_ok (pt_index t) (pt_items t) x Hi) as [-> _].
      pose proof (upsert_ne_nil item_id x (pt_items t)). by destruct (upsert item_id x (pt_items t)).
  - destruct (update_turn id _ (turns b)) as [[t' ts']|] eqn:Hu; [|by apply handles_same].
    apply update_turn_split in Hu as (ts1 & t & ts2 & Ht & -> & -> & _). change (pt_id (upsert_item t x)) with (pt_id t).
    rewrite (view_split b ts1 t ts2 Ht) in Hi.
    exists (cs_item (pt_id t) x). split_and!; [apply (emits_item (set_turns b (ts1 ++ upsert_item t x :: ts2)))| |].
    + rewrite view_record_item, (view_split b ts1 t ts2 Ht), (view_split (set_turns b (ts1 ++ upsert_item t x :: ts2)) ts1 (upsert_item t x) ts2 eq_refl).
      by apply view_step_upsert.
    + intros u. rewrite current_record_item. apply Ho.
Qed.

Lemma handles_upsert_or b id x : indexed (view b) → open_ok b → handles b (upsert_item_in_turn_or_current b id x).
Proof.
  intros Hi Ho. unfold upsert_item_in_turn_or_current.
  destruct (is_empty id); [by apply handles_upsert_current|by apply handles_upsert_id].
Qed.

Lemma handles_push_fresh b (f : str → ThreadItem) :
  handles b (let '(id, b) := next_item_id b in push_item_in_current_turn b (f id)).
Proof. apply (handles_pre b (next_item_id b).2); [apply same_next_id|]. apply handles_push. Qed.

(** The data of a turn change. *)
Lemma handles_outcome_current b t t' : current_turn b = Some t →
  pt_id t' = pt_id t → pt_items t' = pt_items t → pt_index t' = pt_index t → substantial t' = true →
  handles b (record_changed_pending_turn (set_current b (Some t')) t').
Proof.
  intros Hc Hid Hit Hix Hs. pose proof (record_turn_proj (set_current b (Some t')) (from_pending_turn t')) as [Hp1 Hp2].
  exists (cs_turn t'). split_and!; [apply (emits_turn (set_current b (Some t')))| |].
  - unfold view, record_changed_pending_turn. rewrite Hp1, Hp2, Hc. by apply view_step_turn.
  - intros u. unfold record_changed_pending_turn. rewrite Hp2. by intros [= <-].
Qed.

Lemma handles_outcome_earlier b ts1 t ts2 t' : turns b = ts1 ++ t :: ts2 → open_ok b →
  pt_id t' = pt_id t → pt_items t' = pt_items t → pt_index t' = pt_index t →
  handles b (record_changed_pending_turn (set_turns b (ts1 ++ t' :: ts2)) t').
Proof.
  intros Ht Ho Hid Hit Hix. pose proof (record_turn_proj (set_turns b (ts1 ++ t' :: ts2)) (from_pending_turn t')) as [Hp1 Hp2].
  exists (cs_turn t'). split_and!; [apply (emits_turn (set_turns b (ts1 ++ t' :: ts2)))| |].
  - unfold view at 2. unfold record_changed_pending_turn. rewrite Hp1, Hp2, (view_split b ts1 t ts2 Ht).
    change (turns (set_turns b (ts1 ++ t' :: ts2))) with (ts1 ++ t' :: ts2). rewrite <-app_assoc. by apply view_step_turn.
  - intros u. unfold record_changed_pending_turn. rewrite Hp2. apply Ho.
Qed.

Lemma handles_post b b' b'' : handles b b' → (open_ok b' → same b' b'') → handles b b''.
Proof.
  intros (cs & He & Hs & Ho) Hsame. destruct (Hsame Ho) as (Hv & Ha & Hk). exists cs. split_and!; [|by rewrite Hv|auto].
  intros c Hc. rewrite Ha. by apply He.
Qed.

Lemma substantial_outcome t e st c d : substantial (with_outcome t e st c d) = substantial t.
Proof. done. Qed.

Lemma handles_error b e : open_ok b → handles b (handle_error b e).
Proof.
  intros Ho. unfold handle_error. destruct (affects_turn_status e); [|by apply handles_same].
  destruct (current_turn b) as [t|] eqn:Hc; [|by apply handles_same]. cbv zeta.
  apply (handles_outcome_current b t); [done..|]. rewrite substantial_outcome. by apply Ho.
Qed.

Lemma handles_abort_current b c d : open_ok b → handles b (abort_current b c d).
Proof.
  intros Ho. unfold abort_current. destruct (current_turn b) as [t|] eqn:Hc; [|by apply handles_same]. cbv zeta.
  apply (handles_outcome_current b t); [done..|]. unfold apply_abort. rewrite substantial_outcome. by apply Ho.
Qed.

Lemma handles_aborted b id c d : open_ok b → handles b (handle_turn_aborted b id c d).
Proof.
  intros Ho. unfold handle_turn_aborted. destruct id as [id|]; [|by apply handles_abort_current].
  destruct (current_with_id b id); [by apply handles_abort_current|].
  destruct (update_turn id _ (turns b)) as [[t' ts']|] eqn:Hu; [|by apply handles_abort_current].
  apply update_turn_split in Hu as (ts1 & t & ts2 & Ht & -> & -> & _). by apply (handles_outcome_earlier b ts1 t ts2).
Qed.

Lemma apply_completion_keeps e c d t : pt_id (apply_completion e c d t) = pt_id t ∧
  pt_items (apply_completion e c d t) = pt_items t ∧ pt_index (apply_completion e c d t) = pt_index t ∧
  substantial (apply_completion e c d t) = substantial t.
Proof. unfold apply_completion. by destruct e, (pt_status t). Qed.

Lemma handles_complete_current b e c d : open_ok b → handles b (complete_current b e c d).
Proof.
  intros Ho. unfold complete_current. destruct (current_turn b) as [t|] eqn:Hc; [|by apply handles_same]. cbv zeta.
  destruct (apply_completion_keeps e c d t) as (H1 & H2 & H3 & H4).
  eapply handles_post; [|intros Ho'; by apply same_finish].
  apply (handles_outcome_current b t); [done..|]. rewrite H4. by apply Ho.
Qed.

Lemma handles_complete b id e c d : open_ok b → handles b (handle_turn_complete b id e c d).
Proof.
  intros Ho. unfold handle_turn_complete. cbv zeta. destruct (current_with_id b id); [by apply handles_complete_current|].
  destruct (update_turn id _ (turns b)) as [[t' ts']|] eqn:Hu; [|by apply handles_complete_current].
  apply update_turn_split in Hu as (ts1 & t & ts2 & Ht & -> & -> & _).
  destruct (apply_completion_keeps (turn_error <$> e) c d t) as (H1 & H2 & H3 & _). by apply (handles_outcome_earlier b ts1 t ts2).
Qed.

(** A turn is opened after the open one is finished. *)
Lemma handles_started b id s : open_ok b → handles b (handle_turn_started b id s).
Proof.
  intros Ho. destruct (same_finish b Ho) as [Hs Hn]. unfold handle_turn_started. apply (handles_pre _ _ _ Hs).
  set (b0 := finish_current_turn b) in *. cbn [new_turn]. set (t := opened_explicitly _).
  pose proof (record_turn_proj b0 (from_pending_turn t)) as [Hp1 Hp2].
  exists (cs_turn t). split_and!.
  - intros c Hc. by apply (emits_turn b0 t).
  - unfold view. cbn [set_current turns current_turn]. unfold record_changed_pending_turn. rewrite Hp1, Hn, app_nil_r.
    by apply view_step_new.
  - by intros u [= <-].
Qed.

Lemma upsert_item_empty t x : pt_items t = [] → pt_index t = None → pt_items (upsert_item t x) = [x] ∧ pt_index (upsert_item t x) = None.
Proof. unfold upsert_item, with_items. cbn. by intros -> ->. Qed.

Lemma handles_review b id x : indexed (view b) → open_ok b → handles b (upsert_review_mode_item b id x).
Proof.
  intros Hi Ho. unfold upsert_review_mode_item. destruct id as [id|]; [|by apply handles_upsert_current].
  destruct (has_turn b id); [by apply handles_upsert_id|].
  destruct (same_finish b Ho) as [Hs Hn]. apply (handles_pre _ _ _ Hs). set (b0 := finish_current_turn b) in *. cbn [new_turn].
  set (t := mkPending id _ _ _ _ _ _ _ _ _ _). set (b1 := set_current _ _).
  pose proof (record_turn_proj b0 (from_pending_turn t)) as [Hp1 Hp2].
  unfold upsert_item_in_turn_id, current_with_id. cbn [current_turn b1 set_current]. change (pt_id t) with id.
  rewrite bool_decide_eq_true_2 by done. destruct (upsert_item_empty t x eq_refl eq_refl) as [Hu1 Hu2].
  exists (cs_app (cs_turn t) (cs_item (pt_id t) x)). split_and!.
  - eapply emits_trans; [|apply (emits_item (set_current b1 (Some (upsert_item t x))))].
    intros c Hc. by apply (emits_turn b0 t).
  - rewrite view_record_item. unfold view. cbn [set_current turns current_turn b1]. unfold record_changed_pending_turn.
    rewrite Hp1, Hn, app_nil_r. apply view_step_new_item; [done|done|done|by rewrite Hu2|done].
  - intros u. rewrite current_record_item. intros [= <-]. unfold substantial. by rewrite Hu1.
Qed.

Lemma handles_review_fresh b turn (id : option str) (f : str → ThreadItem) : indexed (view b) → open_ok b →
  handles b (let '(id, b) := match id with Some id => (id, b) | None => next_item_id b end in upsert_review_mode_item b turn (f id)).
Proof.
  intros Hi Ho. destruct id as [id|]; [by apply handles_review|].
  apply (handles_pre b (next_item_id b).2); [apply same_next_id|]. by apply handles_review.
Qed.

(** The last item is reasoning and is extended in place, or a new item is pushed. *)
Lemma record_item_next b id x n :
  record_changed_item (set_next_item_index b n) id x = set_next_item_index (record_changed_item b id x) n.
Proof. unfold record_changed_item. cbn. by destruct (active_change_set b). Qed.

Lemma handles_push_after_ensure b t b1 x n : ensure_turn b = (t, b1) →
  handles b (push_item_in_current_turn (set_next_item_index b1 n) x).
Proof.
  intros He. destruct (ensure_turn_cases b t b1 He) as (_ & Hcur & _). unfold push_item_in_current_turn, ensure_turn.
  cbn [set_next_item_index current_turn]. rewrite Hcur.
  change (set_current (set_next_item_index b1 n) (Some (push_item t x)))
    with (set_next_item_index (set_current b1 (Some (push_item t x))) n).
  rewrite record_item_next. eapply (handles_post b); [|by intros _].
  pose proof (handles_push b x) as Hp. unfold push_item_in_current_turn in Hp. by rewrite He in Hp.
Qed.

Lemma handles_extend b f : handles b (extend_reasoning b f).
Proof.
  unfold extend_reasoning. destruct (ensure_turn b) as [t b1] eqn:He.
  assert (handles b (let '(id, b) := next_item_id b1 in let '(summary, content) := f [] [] in
      push_item_in_current_turn b (Reasoning id summary content))) as Hp.
  { cbn [next_item_id]. destruct (f [] []) as [s c]. by apply (handles_push_after_ensure b t b1). }
  destruct (last (pt_items t)) as [[]|] eqn:Hl; try exact Hp. clear Hp.
  destruct (f summary content) as [s c]. apply last_Some in Hl as [l Hl].
  assert (update_last (λ _, Reasoning id s c) (pt_items t) = l ++ [Reasoning id s c]) as Hu
    by by rewrite Hl, update_last_snoc.
  eapply (handles_current_item b t b1); [done|done|..]; unfold with_items; cbn [pt_index pt_items fst snd]; rewrite Hu.
  - destruct (pt_index t) as [m|]; [|done]. intros Hix id'. rewrite Hix, Hl. apply position_of_ids. by rewrite !fmap_app.
  - intros _ Hd _. rewrite Hl in *. symmetry. apply upsert_mid; [done|]. rewrite fmap_app, NoDup_app in Hd.
    intros Hin. destruct Hd as (_ & Hd & _). apply (Hd _ Hin). left.
  - rewrite Hl. by destruct l.
  - by destruct l.
Qed.

(** A compaction is noted, which no report mentions. *)
Lemma view_step_silent v1 t v2 t' :
  from_pending_turn t' = from_pending_turn t → pt_items t' = pt_items t → pt_index t' = pt_index t →
  view_step (v1 ++ t :: v2) (v1 ++ t' :: v2) no_changes.
Proof.
  intros Hf Hit Hix. assert (pt_id t' = pt_id t) as Hid by by injection Hf. split_and!; [done| |].
  - unfold indexed. rewrite !Forall_app, !Forall_cons, Hit, Hix. tauto.
  - intros _ _ _ cl [Ht Hr Hn]. split; change (apply_changes cl no_changes) with cl.
    + by rewrite Ht, !fmap_app, !fmap_cons, Hf.
    + intros u [Hu|[->|Hu]%elem_of_cons]%elem_of_app.
      * apply Hr, elem_of_app. by left.
      * rewrite Hid, Hit. apply Hr, elem_of_app. right. left.
      * apply Hr, elem_of_app. right. by right.
    + intros id. rewrite (middle_ids v1 t v2 t' Hid). apply Hn.
Qed.

Lemma handles_compacted b : handles b (handle_compacted b).
Proof.
  unfold handle_compacted. destruct (ensure_turn b) as [t b1] eqn:He.
  destruct (ensure_turn_cases b t b1 He) as (Hts & Hcur & [[Hc ->]|(Hc & Hi & Hx & Hem)]).
  - exists no_changes. split_and!; [by apply emits_same| |].
    + unfold view. rewrite Hc. by apply view_step_silent.
    + intros u [= <-]. unfold substantial. cbn. by rewrite orb_true_r.
  - exists (cs_turn t). split_and!; [done| |].
    + unfold view. rewrite Hc. cbn. rewrite Hts, app_nil_r. by apply (view_step_new (turns b) (mark_compaction t)).
    + intros u [= <-]. unfold substantial. cbn. by rewrite orb_true_r.
Qed.

Lemma handles_response b role content id : open_ok b → handles b (handle_response_item b role content id).
Proof.
  intros Ho. unfold handle_response_item. destruct (negb _); [by apply handles_same|].
  destruct (parse_hook_prompt_fragments content); [|by apply handles_same]. destruct id; [apply handles_push|].
  apply (handles_pre b (draw_uuid b).2); [done|]. apply handles_push.
Qed.

Lemma handles_user_message b p : open_ok b → handles b (handle_user_message b p).
Proof.
  intros Ho. unfold handle_user_message.
  set (b0 := match current_turn b with Some t => _ | None => b end).
  assert (same b b0) as Hs.
  { unfold b0. destruct (current_turn b); [|done]. destruct (_ && _); [by apply same_finish|done]. }
  apply (handles_pre _ _ _ Hs). apply (handles_push_fresh b0 (λ id, UserMessage id _ _)).
Qed.

(** Every event but a rollback. *)
Lemma handles_event b e : indexed (view b) → open_ok b → (∀ n, e ≠ EvThreadRolledBack n) → handles b (handle_event b e).
Proof.
  intros Hi Ho Hr. destruct e; cbn [ThreadHistory.handle_event]; autounfold with thread_handlers;
    auto using handles_upsert_current, handles_upsert_id, handles_upsert_or, handles_user_message, handles_aborted,
      handles_complete, handles_started, handles_error, handles_same.
  - unfold handle_agent_message. destruct (is_empty message); [by apply handles_same|].
    apply (handles_push_fresh b (λ id, AgentMessage id _ _ _ _ _)).
  - unfold handle_agent_reasoning. destruct (is_empty text); [by apply handles_same|apply handles_extend].
  - unfold handle_agent_reasoning_raw_content. destruct (is_empty text); [by apply handles_same|apply handles_extend].
  - unfold handle_guardian_assessment. destruct (ga_status payload); try (by apply handles_same);
      destruct (build_item_from_guardian_event _ _ _); auto using handles_upsert_or; by apply handles_same.
  - by apply handles_upsert_or.
  - by apply handles_upsert_or.
  - by apply handles_upsert_current.
  - unfold handle_mcp_tool_call_end. destruct (me_result payload); by apply handles_upsert_current.
  - unfold handle_collab_agent_spawn_end. destruct new_thread; by apply handles_upsert_current.
  - by apply handles_upsert_current.
  - apply (handles_push_fresh b ContextCompaction).
  - by apply (handles_review_fresh b turn_id item_id (λ id, EnteredReviewMode id _)).
  - by apply (handles_review_fresh b turn_id item_id (λ id, ExitedReviewMode id _)).
  - unfold handle_materialized_item_lifecycle. destruct (should_upsert _); [|by apply handles_same].
    destruct (is_review_mode_item _); [by apply handles_review|by apply handles_upsert_id].
  - unfold handle_materialized_item_lifecycle. destruct (should_upsert _); [|by apply handles_same].
    destruct (is_review_mode_item _); [by apply handles_review|by apply handles_upsert_id].
  - by destruct (Hr num_turns).
  - by apply handles_same.
Qed.

(** ** Rollback *)
Lemma rows_removed cl id id' : rows (apply_removed cl id) id' = if bool_decide (id = id') then [] else rows cl id'.
Proof.
  unfold rows, apply_removed. cbn. case_bool_decide as E; [subst; by rewrite lookup_delete_eq|by rewrite lookup_delete_ne].
Qed.

Lemma filterb_all {A} (f : A → bool) l : Forall (λ x, f x = true) l → List.filter f l = l.
Proof. induction 1 as [|x l Hx _ IH]; cbn; [done|]. by rewrite Hx, IH. Qed.

Lemma holds_remove_one cl v1 t v2 : distinct (v1 ++ t :: v2) → holds cl (v1 ++ t :: v2) →
  holds (apply_removed cl (pt_id t)) (v1 ++ v2).
Proof.
  intros [Hd _] [Ht Hr Hn]. assert (∀ u, u ∈ v1 ++ v2 → pt_id u ≠ pt_id t) as Hne by (intros u; by apply middle_other).
  split.
  - unfold apply_removed. cbn [client_turns]. rewrite Ht, !fmap_app, fmap_cons, List.filter_app. cbn.
    rewrite bool_decide_eq_true_2 by done. cbn. f_equal; apply filterb_all; apply Forall_fmap, Forall_forall; intros u Hu; cbn;
      rewrite bool_decide_eq_false_2; try done; apply Hne, elem_of_app; [by left|by right].
  - intros u Hu. rewrite rows_removed, bool_decide_eq_false_2 by (intros E; by apply (Hne u Hu)).
    apply Hr. apply elem_of_app in Hu as [Hu|Hu]; apply elem_of_app; [by left|right; by right].
  - intros id Hid. rewrite rows_removed. destruct (bool_decide (pt_id t = id)) eqn:E; [done|]. apply bool_decide_eq_false in E.
    apply Hn. rewrite fmap_app, fmap_cons, not_elem_of_app, not_elem_of_cons. rewrite fmap_app, not_elem_of_app in Hid. naive_solver.
Qed.

Lemma distinct_sub v1 t v2 : distinct (v1 ++ t :: v2) → distinct (v1 ++ v2).
Proof.
  intros [Hd Hi]. split.
  - revert Hd. rewrite !fmap_app, fmap_cons. intros Hd. eapply sublist_NoDup; [exact Hd|].
    apply sublist_app; [done|]. by apply sublist_cons.
  - rewrite Forall_app, Forall_cons in Hi. rewrite Forall_app. tauto.
Qed.

Lemma holds_remove cl v1 v2 : distinct (v1 ++ v2) → holds cl (v1 ++ v2) →
  holds (foldl apply_removed cl (pt_id <$> v2)) v1.
Proof.
  revert cl. induction v2 as [|t v2 IH]; intros cl Hd Hh; cbn; [by rewrite app_nil_r in Hh|].
  apply IH; [by eapply distinct_sub|by apply holds_remove_one].
Qed.

(** Rolling back keeps the first turns and reports the others. *)
Definition kept b (n : N) : nat := length (view b) - N.to_nat n.

Lemma rollback_spec b n : open_ok b →
  view (handle_thread_rollback b n) = take (kept b n) (view b) ∧ current_turn (handle_thread_rollback b n) = None ∧
  next_item_index (handle_thread_rollback b n) = Z.min (Z.of_nat (item_count (take (kept b n) (view b))) + 1) I64_MAX ∧
  emits b (handle_thread_rollback b n) (mkChangeSet [] [] (pt_id <$> drop (kept b n) (view b))).
Proof.
  intros Ho. destruct (same_finish b Ho) as [(Hv & Ha & _) Hn]. unfold handle_thread_rollback, kept. set (b0 := finish_current_turn b) in *.
  assert (view b = turns b0) as Hvb by (rewrite <-Hv; unfold view; by rewrite Hn, app_nil_r). rewrite Hvb. cbv zeta.
  set (len := length (turns b0)). set (m := N.to_nat n).
  assert ((if len <=? m then pt_id <$> turns b0 else if m =? 0 then [] else pt_id <$> drop (len - m) (turns b0)) =
    pt_id <$> drop (len - m) (turns b0)) as ->.
  { destruct (Nat.leb_spec len m); [replace (len - m) with 0 by lia; by rewrite drop_0|].
    destruct (Nat.eqb_spec m 0); [|done]. rewrite drop_ge by (unfold len in *; lia). done. }
  assert ((if len <=? m then [] else take (len - m) (turns b0)) = take (len - m) (turns b0)) as Ht.
  { destruct (Nat.leb_spec len m); [|done]. replace (len - m) with 0 by lia. done. }
  assert (∀ ids, turns (record_removed_turn_ids b0 ids) = turns b0 ∧ current_turn (record_removed_turn_ids b0 ids) = None) as Hrec.
  { intros ids. unfold record_removed_turn_ids. by destruct (active_change_set b0). }
  destruct (Hrec (pt_id <$> drop (len - m) (turns b0))) as [Hr1 Hr2].
  unfold view. cbn [set_next_item_index set_turns turns current_turn next_item_index active_change_set]. rewrite Hr1, Hr2, Ht, app_nil_r.
  split_and!; [done|done|done|]. intros c Hc. cbn [active_change_set]. rewrite <-Ha in Hc.
  unfold record_removed_turn_ids. rewrite Hc. unfold cs_app. cbn. by rewrite !app_nil_r.
Qed.
End projection.
