(* ===== verification/ThreadSync.v ===== *)
(** * A client that follows a thread holds what a rebuild gives

    One report moves the client's tables as one rollout item moves the builder
    ([ThreadProjection]); here the reports of many items are coalesced by slots
    and indexes, and the single report that results moves the tables as the
    reports would one after the other. *)

From stdpp Require Import prelude list gmap strings sorting pretty.
From S2P Require Import Prelude ThreadItems ThreadHistory ThreadHistorySpec ThreadProjection.

(** ** Slots found by key *)
Section slots.
Context {K A : Type} `{Countable K} (key : A → K).
Implicit Types (slots : list (option A)) (indexes : gmap K nat).

(** Every occupied slot is found under its key, and nothing else is. *)
Definition slots_ok slots indexes : Prop :=
  ∀ k i, indexes !! k = Some i ↔ ∃ c, slots !! i = Some (Some c) ∧ key c = k.

Definition push_slot slots indexes (c : A) : list (option A) * gmap K nat :=
  match indexes !! key c with
  | Some i => (<[i := Some c]> slots, indexes)
  | None => (slots ++ [Some c], <[key c := length slots]> indexes)
  end.

Notation live := (omap id).

Lemma live_elem slots c : c ∈ live slots ↔ ∃ i, slots !! i = Some (Some c).
Proof.
  rewrite list_elem_of_omap. split.
  - intros (x & Hx & E). cbn in E. subst x. by apply list_elem_of_lookup in Hx.
  - intros [i Hi]. exists (Some c). split; [by eapply list_elem_of_lookup_2|done].
Qed.

Lemma slots_ok_none slots indexes k : slots_ok slots indexes → indexes !! k = None → k ∉ key <$> live slots.
Proof.
  intros Hok Hk (c & -> & [i Hi]%live_elem)%list_elem_of_fmap. assert (indexes !! key c = Some i) by (apply Hok; eauto).
  congruence.
Qed.

(** The slot of a key splits the slots, and the key occurs nowhere else. *)
Lemma slots_ok_split slots indexes k i : slots_ok slots indexes → indexes !! k = Some i →
  ∃ s1 c s2, slots = s1 ++ Some c :: s2 ∧ length s1 = i ∧ key c = k ∧ k ∉ key <$> live s1 ∧ k ∉ key <$> live s2.
Proof.
  intros Hok Hk. destruct (proj1 (Hok k i) Hk) as (c & Hc & Hkc). apply list_elem_of_split_length in Hc as (s1 & s2 & -> & Hl).
  exists s1, c, s2. split_and!; [done|done|done|..].
  - intros (d & Hd & [j Hj]%live_elem)%list_elem_of_fmap. pose proof (lookup_lt_Some _ _ _ Hj).
    assert (indexes !! k = Some j) by (apply Hok; exists d; split; [by rewrite lookup_app_l|done]). assert (i = j) by congruence. lia.
  - intros (d & Hd & [j Hj]%live_elem)%list_elem_of_fmap.
    assert (indexes !! k = Some (S (length s1) + j)) as E.
    { apply Hok. exists d. split; [|done]. rewrite lookup_app_r by lia.
      replace (S (length s1) + j - length s1) with (S j) by lia. done. }
    rewrite Hk in E. injection E. lia.
Qed.

Lemma slots_ok_nodup slots indexes : slots_ok slots indexes → NoDup (key <$> live slots).
Proof.
  intros Hok. assert (∀ i j c d, slots !! i = Some (Some c) → slots !! j = Some (Some d) → key c = key d → i = j) as Hinj.
  { intros i j c d Hi Hj He. assert (indexes !! key c = Some i) by (apply Hok; eauto).
    assert (indexes !! key c = Some j) by (apply Hok; eauto). congruence. }
  clear Hok. induction slots as [|[c|] slots IH]; cbn; [constructor| |].
  - constructor.
    + intros (d & Hd & [j Hj]%live_elem)%list_elem_of_fmap. pose proof (Hinj 0 (S j) c d eq_refl Hj Hd). done.
    + apply IH. intros i j x y Hi Hj He. pose proof (Hinj (S i) (S j) x y Hi Hj He). lia.
  - apply IH. intros i j x y Hi Hj He. pose proof (Hinj (S i) (S j) x y Hi Hj He). lia.
Qed.

Lemma slots_ok_empty : slots_ok [] ∅.
Proof. intros k i. rewrite lookup_empty. split; [done|]. intros (c & Hc & _). done. Qed.

Lemma push_slot_ok slots indexes c : slots_ok slots indexes →
  live (push_slot slots indexes c).1 = upsert key c (live slots) ∧
  slots_ok (push_slot slots indexes c).1 (push_slot slots indexes c).2.
Proof.
  intros Hok. unfold push_slot. destruct (indexes !! key c) as [i|] eqn:Hi; cbn [fst snd].
  - destruct (slots_ok_split _ _ _ _ Hok Hi) as (s1 & d & s2 & -> & <- & Hd & Hn1 & Hn2). split.
    + rewrite insert_app_r_alt, Nat.sub_diag, !omap_app by lia. cbn. by rewrite (upsert_mid key _ d).
    + intros k j. rewrite (Hok k j). destruct (decide (j = length s1)) as [->|Hj].
      * rewrite list_lookup_insert_eq by (rewrite length_app; cbn; lia). rewrite list_lookup_middle by done. naive_solver.
      * by rewrite list_lookup_insert_ne.
  - split; [rewrite omap_app; cbn; by rewrite upsert_new by by eapply slots_ok_none|].
    intros k j. destruct (decide (key c = k)) as [<-|Hk].
    + rewrite lookup_insert_eq. split.
      * intros [= <-]. exists c. by rewrite list_lookup_middle.
      * intros (d & Hd & Hkd). apply lookup_snoc_Some in Hd as [[_ Hd]|[-> _]]; [|done].
        assert (indexes !! key c = Some j) by (apply Hok; eauto). congruence.
    + rewrite lookup_insert_ne by done. rewrite (Hok k j). split.
      * intros (d & Hd & <-). exists d. split; [|done]. by apply lookup_app_l_Some.
      * intros (d & Hd & Hkd). apply lookup_snoc_Some in Hd as [[_ Hd]|[_ [= <-]]]; [eauto|done].
Qed.

Definition drop_key slots indexes (k : K) : list (option A) * gmap K nat :=
  match indexes !! k with
  | Some i => (<[i := None]> slots, delete k indexes)
  | None => (slots, indexes)
  end.

Lemma drop_key_ok slots indexes k : slots_ok slots indexes →
  live (drop_key slots indexes k).1 = List.filter (λ c, negb (bool_decide (key c = k))) (live slots) ∧
  slots_ok (drop_key slots indexes k).1 (drop_key slots indexes k).2.
Proof.
  assert (∀ l, k ∉ key <$> l → List.filter (λ c, negb (bool_decide (key c = k))) l = l) as Hf.
  { intros l Hn. apply filterb_all, Forall_forall. intros c Hc. rewrite bool_decide_eq_false_2; [done|].
    intros <-. by apply Hn, list_elem_of_fmap_2. }
  intros Hok. unfold drop_key. destruct (indexes !! k) as [i|] eqn:Hi; cbn [fst snd].
  - destruct (slots_ok_split _ _ _ _ Hok Hi) as (s1 & d & s2 & -> & <- & Hd & Hn1 & Hn2). split.
    + rewrite insert_app_r_alt, Nat.sub_diag, !omap_app by lia. cbn. rewrite List.filter_app. cbn.
      rewrite bool_decide_eq_true_2 by done. cbn. by rewrite !Hf.
    + intros k' j. rewrite lookup_delete_Some, (Hok k' j). destruct (decide (j = length s1)) as [->|Hj].
      * rewrite list_lookup_insert_eq by (rewrite length_app; cbn; lia). rewrite list_lookup_middle by done. naive_solver.
      * rewrite list_lookup_insert_ne by done. split; [naive_solver|]. intros (c & Hc & Hk'). split; [|eauto].
        intros <-. assert (indexes !! k = Some j) by (apply Hok; eauto). congruence.
  - split; [|done]. symmetry. apply Hf. by eapply slots_ok_none.
Qed.

Lemma drop_keys_ok keys slots indexes : slots_ok slots indexes →
  live (drop_keys keys slots indexes).1 = List.filter (λ c, negb (bool_decide (key c ∈ keys))) (live slots) ∧
  slots_ok (drop_keys keys slots indexes).1 (drop_keys keys slots indexes).2.
Proof.
  revert slots indexes. induction keys as [|k keys IH]; intros slots indexes Hok; cbn.
  - split; [|done]. symmetry. apply filterb_all, Forall_forall. intros c _. by rewrite bool_decide_eq_false_2 by apply not_elem_of_nil.
  - fold (drop_key slots indexes k). destruct (drop_key_ok slots indexes k Hok) as [Hl Hok'].
    destruct (drop_key slots indexes k) as [s ix]. cbn [fst snd] in *. destruct (IH s ix Hok') as [Hl' Hok''].
    split; [|done]. unfold drop_keys in Hl'. rewrite Hl', Hl. clear. induction (live slots) as [|c l IH]; cbn; [done|].
    destruct (decide (key c = k)) as [->|Hk].
    + rewrite bool_decide_eq_true_2 by done. cbn. rewrite bool_decide_eq_true_2 by left. done.
    + rewrite (bool_decide_eq_false_2 (key c = k)) by done. cbn. rewrite IH.
      rewrite (bool_decide_ext (key c ∈ k :: keys) (key c ∈ keys)); [done|]. rewrite elem_of_cons. naive_solver.
Qed.
End slots.

Section sync.
Context {W : Wire}.
Context (thread_item_from : TurnItem → ThreadItem) (parse_command : list str → list ParsedCommand).
Notation handle_rollout_item := (handle_rollout_item thread_item_from parse_command).
Notation handle_rollout_item_with_changes := (handle_rollout_item_with_changes thread_item_from parse_command).
Notation handle_rollout_items_with_changes := (handle_rollout_items_with_changes thread_item_from parse_command).
Implicit Types (b : ThreadHistoryBuilder) (a : Accumulator) (cl : Client).

(** ** Clients with the same tables *)
#[global] Instance client_equiv : Equiv Client :=
  λ cl cl', client_turns cl = client_turns cl' ∧ ∀ id, rows cl id = rows cl' id.
#[global] Instance client_equivalence : Equivalence (≡@{Client}).
Proof.
  split; unfold equiv, client_equiv.
  - done.
  - intros x y [Ht Hr]. split; [done|]. intros id. by rewrite Hr.
  - intros x y z [Ht Hr] [Ht' Hr']. split; [congruence|]. intros id. by rewrite Hr, Hr'.
Qed.

#[global] Instance holds_proper : Proper ((≡) ==> (=) ==> iff) holds.
Proof.
  assert (∀ cl cl' v, cl ≡ cl' → holds cl v → holds cl' v) as Hp.
  { intros cl cl' v [Ht Hr] [H1 H2 H3]. split; [congruence| |].
    - intros t Hv. rewrite <-Hr. by apply H2.
    - intros id Hid. rewrite <-Hr. by apply H3. }
  intros cl cl' He v ? <-. split; apply Hp; [done|by symmetry].
Qed.

#[global] Instance apply_removed_proper : Proper ((≡) ==> (=) ==> (≡)) apply_removed.
Proof.
  intros cl cl' [Ht Hr] id ? <-. split; [cbn; by rewrite Ht|]. intros id'. rewrite !rows_removed. by rewrite Hr.
Qed.
#[global] Instance apply_turn_proper : Proper ((≡) ==> (=) ==> (≡)) apply_turn.
Proof. intros cl cl' [Ht Hr] c ? <-. split; [cbn; by rewrite Ht|]. exact Hr. Qed.
#[global] Instance apply_item_proper : Proper ((≡) ==> (=) ==> (≡)) apply_item.
Proof. intros cl cl' [Ht Hr] c ? <-. split; [exact Ht|]. intros id. rewrite !rows_apply_item. by rewrite Hr. Qed.

Lemma foldl_proper {B} (f : Client → B → Client) `{!Proper ((≡) ==> (=) ==> (≡)) f} xs cl cl' :
  cl ≡ cl' → foldl f cl xs ≡ foldl f cl' xs.
Proof. revert cl cl'. induction xs as [|x xs IH]; intros cl cl' He; cbn; [done|]. apply IH. by rewrite He. Qed.

#[global] Instance apply_changes_proper : Proper ((≡) ==> (=) ==> (≡)) apply_changes.
Proof. intros cl cl' He cs ? <-. unfold apply_changes. by do 3 (apply foldl_proper; [apply _|]). Qed.

(** ** What a set of changes does to the tables *)
Lemma turns_after_items cl ics : client_turns (foldl apply_item cl ics) = client_turns cl.
Proof. revert cl. induction ics as [|i ics IH]; intros cl; cbn; [done|]. by rewrite IH. Qed.
Lemma turns_after_turns cl tcs : client_turns (foldl apply_turn cl tcs) = upserts tc_turn_id (client_turns cl) tcs.
Proof. revert cl. induction tcs as [|c tcs IH]; intros cl; cbn; [done|]. by rewrite IH. Qed.
Lemma rows_after_turns cl tcs id : rows (foldl apply_turn cl tcs) id = rows cl id.
Proof. revert cl. induction tcs as [|c tcs IH]; intros cl; cbn; [done|]. by rewrite IH. Qed.

Definition of_turn (id : str) (ics : list ThreadHistoryItemChange) : list ThreadItem :=
  ic_item <$> List.filter (λ c, bool_decide (ic_turn_id c = id)) ics.

Lemma rows_after_items cl ics id :
  rows (foldl apply_item cl ics) id = upserts item_id (rows cl id) (of_turn id ics).
Proof.
  revert cl. induction ics as [|i ics IH]; intros cl; cbn; [done|]. rewrite IH, rows_apply_item. unfold of_turn. cbn.
  by destruct (bool_decide (ic_turn_id i = id)).
Qed.

(** ** The accumulator holds a set of changes *)
Record acc_ok a : Prop := {
  acc_items_ok : slots_ok item_key (acc_items a) (acc_item_indexes a);
  acc_turns_ok : slots_ok tc_turn_id (acc_turns a) (acc_turn_indexes a);
  acc_removed_ok id : is_Some (acc_removed_indexes a !! id) ↔ id ∈ acc_removed a;
}.

Lemma acc_empty_ok : acc_ok acc_empty.
Proof.
  split; [apply slots_ok_empty..|]. intros id. cbn. rewrite lookup_empty. split; [by intros [? ?]|by intros ?%not_elem_of_nil].
Qed.

Lemma push_turn_change_ok a c : acc_ok a → acc_ok (push_turn_change a c) ∧
  acc_finish (push_turn_change a c) =
    mkChangeSet (changed_items (acc_finish a)) (upsert tc_turn_id c (changed_turns (acc_finish a))) (acc_removed a).
Proof.
  intros [Hi Ht Hr]. destruct (push_slot_ok tc_turn_id (acc_turns a) (acc_turn_indexes a) c Ht) as [Hl Hok].
  unfold push_turn_change, push_slot in *. destruct (acc_turn_indexes a !! tc_turn_id c); cbn [fst snd] in *;
    (split; [by split|]); unfold acc_finish; cbn; by rewrite Hl.
Qed.

Lemma push_item_change_ok a c : acc_ok a → acc_ok (push_item_change a c) ∧
  acc_finish (push_item_change a c) =
    mkChangeSet (upsert item_key c (changed_items (acc_finish a))) (changed_turns (acc_finish a)) (acc_removed a).
Proof.
  intros [Hi Ht Hr]. destruct (push_slot_ok item_key (acc_items a) (acc_item_indexes a) c Hi) as [Hl Hok].
  unfold push_item_change, push_slot in *. destruct (acc_item_indexes a !! item_key c); cbn [fst snd] in *;
    (split; [by split|]); unfold acc_finish; cbn; by rewrite Hl.
Qed.

Definition add_removed (id : str) (ids : list str) : list str := if bool_decide (id ∈ ids) then ids else ids ++ [id].

Lemma push_removed_ok a id : acc_ok a → acc_ok (push_removed_turn_id a id) ∧
  acc_finish (push_removed_turn_id a id) =
    mkChangeSet (List.filter (λ c, negb (bool_decide (ic_turn_id c = id))) (changed_items (acc_finish a)))
      (List.filter (λ c, negb (bool_decide (tc_turn_id c = id))) (changed_turns (acc_finish a)))
      (add_removed id (acc_removed a)).
Proof.
  intros [Hi Ht Hr]. unfold push_removed_turn_id.
  set (keys := List.filter _ _).
  pose proof (drop_keys_ok item_key keys (acc_items a) (acc_item_indexes a) Hi) as [Hl Hok].
  pose proof (drop_keys_ok tc_turn_id [id] (acc_turns a) (acc_turn_indexes a) Ht) as [Hlt Hokt].
  destruct (drop_keys keys _ _) as [is_ ii]. destruct (drop_keys [id] _ _) as [ts ti]. cbn [fst snd] in *.
  set (r := match acc_removed_indexes a !! id with Some _ => _ | None => _ end).
  assert (r.1 = add_removed id (acc_removed a) ∧ ∀ i, is_Some (r.2 !! i) ↔ i ∈ r.1) as [Hr1 Hr2].
  { unfold r, add_removed. destruct (acc_removed_indexes a !! id) as [j|] eqn:Hj; cbn [fst snd].
    - rewrite bool_decide_eq_true_2; [done|]. apply Hr. eauto.
    - rewrite bool_decide_eq_false_2 by (rewrite <-Hr, Hj; by intros [? ?]). split; [done|]. intros i.
      rewrite elem_of_app, list_elem_of_singleton, <-Hr. destruct (decide (id = i)) as [<-|Hne].
      + rewrite lookup_insert_eq. split; [by right|eauto].
      + rewrite lookup_insert_ne by done. naive_solver. }
  destruct r as [rem ri]. cbn [fst snd] in *. subst rem. split; [by split|]. unfold acc_finish. cbn [changed_items changed_turns acc_items acc_turns acc_removed].
  f_equal.
  - rewrite Hl. apply List.filter_ext_in. intros c [i Hc]%list_elem_of_In%live_elem. f_equal. apply bool_decide_ext.
    unfold keys. rewrite elem_of_filterb, bool_decide_eq_true. split; [by intros [_ ?]|]. intros E. split; [|done].
    apply list_elem_of_fmap. exists (item_key c, i). split; [done|]. apply elem_of_map_to_list, Hi. eauto.
  - rewrite Hlt. apply List.filter_ext. intros c. f_equal. apply bool_decide_ext. by rewrite list_elem_of_singleton.
Qed.

(** ** Coalescing is applying in sequence *)

Definition not_id (id k : str) : bool := negb (bool_decide (k = id)).
Definition in_turn (id : str) (k : str * str) : bool := bool_decide (k.1 = id).

Lemma turns_after_removed cl ids :
  client_turns (foldl apply_removed cl ids) = List.filter (λ c, negb (bool_decide (tc_turn_id c ∈ ids))) (client_turns cl).
Proof.
  revert cl. induction ids as [|id ids IH]; intros cl; cbn.
  - symmetry. apply filterb_all, Forall_forall. intros c _. by rewrite bool_decide_eq_false_2 by apply not_elem_of_nil.
  - rewrite IH. cbn. rewrite filterb_filterb. apply List.filter_ext. intros c. rewrite <-negb_orb. f_equal.
    rewrite <-bool_decide_or. apply bool_decide_ext. by rewrite elem_of_cons.
Qed.

Lemma rows_after_removed cl ids id : rows (foldl apply_removed cl ids) id = if bool_decide (id ∈ ids) then [] else rows cl id.
Proof.
  revert cl. induction ids as [|j ids IH]; intros cl; cbn; [by rewrite bool_decide_eq_false_2 by apply not_elem_of_nil|].
  rewrite IH, rows_removed. destruct (decide (id ∈ ids)) as [Hin|Hin]; [by rewrite !bool_decide_eq_true_2 by (by right || done)|].
  rewrite (bool_decide_eq_false_2 (id ∈ ids)) by done. apply (f_equal (λ b : bool, if b then _ else _)). apply bool_decide_ext.
  rewrite elem_of_cons. naive_solver.
Qed.

Lemma changes_turns cl cs : client_turns (apply_changes cl cs) =
  upserts tc_turn_id (List.filter (λ c, negb (bool_decide (tc_turn_id c ∈ removed_turn_ids cs))) (client_turns cl)) (changed_turns cs).
Proof. unfold apply_changes. by rewrite turns_after_items, turns_after_turns, turns_after_removed. Qed.

Lemma changes_rows cl cs id : rows (apply_changes cl cs) id =
  upserts item_id (if bool_decide (id ∈ removed_turn_ids cs) then [] else rows cl id) (of_turn id (changed_items cs)).
Proof. unfold apply_changes. by rewrite rows_after_items, rows_after_turns, rows_after_removed. Qed.

Lemma elem_of_add_removed id ids j : j ∈ add_removed id ids ↔ j = id ∨ j ∈ ids.
Proof.
  unfold add_removed. case_bool_decide; [naive_solver|]. rewrite elem_of_app, list_elem_of_singleton. tauto.
Qed.

Lemma push_removed_applies a id cl : acc_ok a →
  apply_changes cl (acc_finish (push_removed_turn_id a id)) ≡ apply_removed (apply_changes cl (acc_finish a)) id.
Proof.
  intros Ha. rewrite (proj2 (push_removed_ok a id Ha)). split.
  - rewrite changes_turns. cbn [apply_removed client_turns removed_turn_ids changed_turns]. rewrite changes_turns.
    etransitivity; [|symmetry; apply (filter_upserts tc_turn_id (not_id id))].
    rewrite filterb_filterb. f_equal. apply List.filter_ext.
    intros c. unfold not_id. rewrite <-negb_orb. f_equal. rewrite <-bool_decide_or. apply bool_decide_ext.
    rewrite elem_of_add_removed. cbn. tauto.
  - intros i. rewrite rows_removed, !changes_rows. cbn [removed_turn_ids changed_items]. unfold of_turn. rewrite filterb_filterb.
    destruct (decide (id = i)) as [->|Hne].
    + rewrite !bool_decide_eq_true_2 by (done || (apply elem_of_add_removed; by left)).
      rewrite (List.filter_ext _ (λ _, false)); [|intros c; by destruct (bool_decide (ic_turn_id c = i))].
      by induction (changed_items (acc_finish a)).
    + rewrite (bool_decide_eq_false_2 (id = i)) by done. f_equal.
      * apply (f_equal (λ b : bool, if b then _ else _)), bool_decide_ext. rewrite elem_of_add_removed. cbn. naive_solver.
      * f_equal. apply List.filter_ext. intros c. destruct (decide (ic_turn_id c = i)) as [->|E];
          [by rewrite (bool_decide_eq_false_2 (i = id)) by congruence|]. rewrite (bool_decide_eq_false_2 _ E). apply andb_false_r.
Qed.

Lemma push_turn_applies a c cl : acc_ok a →
  apply_changes cl (acc_finish (push_turn_change a c)) ≡ apply_turn (apply_changes cl (acc_finish a)) c.
Proof.
  intros Ha. rewrite (proj2 (push_turn_change_ok a c Ha)). split.
  - cbn [apply_turn client_turns]. rewrite !changes_turns. cbn [removed_turn_ids changed_turns].
    rewrite upserts_upsert; [done|]. apply (slots_ok_nodup _ _ _ (acc_turns_ok a Ha)).
  - intros id. change (rows (apply_turn ?x c) id) with (rows x id). by rewrite !changes_rows.
Qed.

(** Within one turn an item's key is its identifier. *)
Lemma of_turn_upsert id c ics : of_turn id (upsert item_key c ics) =
  if bool_decide (ic_turn_id c = id) then upsert item_id (ic_item c) (of_turn id ics) else of_turn id ics.
Proof.
  unfold of_turn.
  etransitivity; [apply f_equal, (filter_upsert item_key (in_turn id))|]. unfold in_turn. cbn [item_key fst].
  destruct (bool_decide (ic_turn_id c = id)) eqn:Hc; [|done]. apply bool_decide_eq_true in Hc.
  assert (Forall (λ d, ic_turn_id d = id) (List.filter (λ d, bool_decide (ic_turn_id d = id)) ics)) as Hall.
  { apply Forall_forall. intros d [_ Hd%bool_decide_eq_true]%elem_of_filterb. done. }
  induction Hall as [|d l Hd _ IH]; cbn; [done|]. unfold item_key at 1 2.
  rewrite (bool_decide_ext ((ic_turn_id d, item_id (ic_item d)) = (ic_turn_id c, item_id (ic_item c))) (item_id (ic_item d) = item_id (ic_item c)))
    by (rewrite Hc, Hd; split; congruence).
  destruct (bool_decide (item_id (ic_item d) = item_id (ic_item c))); [done|]. cbn. by rewrite IH.
Qed.

Lemma of_turn_nodup id ics : NoDup (item_key <$> ics) → NoDup (item_id <$> of_turn id ics).
Proof.
  unfold of_turn. induction ics as [|c ics IH]; cbn; [constructor|]. intros [Hn Hd]%NoDup_cons.
  destruct (bool_decide (ic_turn_id c = id)) eqn:E; [|auto]. apply bool_decide_eq_true in E. cbn. constructor; [|auto].
  intros (x & Hx & (d & -> & [Hd1 Hd2%bool_decide_eq_true]%elem_of_filterb)%list_elem_of_fmap)%list_elem_of_fmap.
  apply Hn, list_elem_of_fmap. exists d. split; [|done]. unfold item_key. congruence.
Qed.

Lemma push_item_applies a c cl : acc_ok a →
  apply_changes cl (acc_finish (push_item_change a c)) ≡ apply_item (apply_changes cl (acc_finish a)) c.
Proof.
  intros Ha. rewrite (proj2 (push_item_change_ok a c Ha)). split.
  - cbn [apply_item client_turns]. by rewrite !changes_turns.
  - intros id. rewrite rows_apply_item, !changes_rows. cbn [removed_turn_ids changed_items]. rewrite of_turn_upsert.
    destruct (bool_decide (ic_turn_id c = id)); [|done]. apply upserts_upsert, of_turn_nodup.
    apply (slots_ok_nodup _ _ _ (acc_items_ok a Ha)).
Qed.

Lemma foldl_applies {B} (push : Accumulator → B → Accumulator) (app : Client → B → Client)
    `{!Proper ((≡) ==> (=) ==> (≡)) app} xs a cl :
  (∀ a x, acc_ok a → acc_ok (push a x)) →
  (∀ a x, acc_ok a → apply_changes cl (acc_finish (push a x)) ≡ app (apply_changes cl (acc_finish a)) x) →
  acc_ok a → acc_ok (foldl push a xs) ∧
    apply_changes cl (acc_finish (foldl push a xs)) ≡ foldl app (apply_changes cl (acc_finish a)) xs.
Proof.
  intros Hok Hp. revert a. induction xs as [|x xs IH]; intros a Ha; cbn; [done|].
  destruct (IH (push a x) (Hok a x Ha)) as [H1 H2]. split; [done|]. rewrite H2. apply foldl_proper; [done|]. by apply Hp.
Qed.

(** The coalesced report of two batches moves a client as the batches do in turn. *)
Lemma acc_push_applies a c cl : acc_ok a → acc_ok (acc_push a c) ∧
  apply_changes cl (acc_finish (acc_push a c)) ≡ apply_changes (apply_changes cl (acc_finish a)) c.
Proof.
  intros Ha. unfold acc_push.
  destruct (foldl_applies push_removed_turn_id apply_removed (removed_turn_ids c) a cl) as [H1 H2];
    [intros; by apply push_removed_ok|intros; by apply push_removed_applies|done|].
  set (a1 := foldl push_removed_turn_id a (removed_turn_ids c)) in *.
  destruct (foldl_applies push_item_change apply_item (changed_items c) a1 cl) as [H3 H4];
    [intros; by apply push_item_change_ok|intros; by apply push_item_applies|done|].
  set (a2 := foldl push_item_change a1 (changed_items c)) in *.
  destruct (foldl_applies push_turn_change apply_turn (changed_turns c) a2 cl) as [H5 H6];
    [intros; by apply push_turn_change_ok|intros; by apply push_turn_applies|done|].
  split; [done|]. rewrite H6. unfold apply_changes at 2. rewrite <-items_turns_commute.
  apply foldl_proper; [apply _|]. rewrite H4. apply foldl_proper; [apply _|]. done.
Qed.

(** ** One item *)
Record tidy b : Prop := {
  tidy_indexed : indexed (view b);
  tidy_open : open_ok b;
}.

Lemma tidy_new : tidy builder_new.
Proof. split; [constructor|done]. Qed.

Definition moves b b' cs : Prop :=
  tidy b' ∧ emits b b' cs ∧
  (distinct (view b) → distinct (view b') → ∀ cl, holds cl (view b) → holds (apply_changes cl cs) (view b')).

Lemma handles_moves b b' : tidy b → handles b b' → ∃ cs, moves b b' cs.
Proof.
  intros [Hi Ho] (cs & He & (_ & Hi' & Hh) & Ho'). exists cs. split_and!; [by split; auto|done|auto].
Qed.

Lemma rollback_moves b n : tidy b → ∃ cs, moves b (handle_thread_rollback b n) cs.
Proof.
  intros [Hi Ho]. destruct (rollback_spec b n Ho) as (Hv & Hc & _ & He). eexists. split_and!; [|exact He|].
  - split; [rewrite Hv; by apply Forall_take|]. intros t. by rewrite Hc.
  - intros Hd _ cl Hh. rewrite Hv. unfold apply_changes. cbn [changed_items changed_turns removed_turn_ids foldl].
    apply holds_remove; by rewrite take_drop.
Qed.

Lemma rollout_item_moves b item : tidy b → ∃ cs, moves b (handle_rollout_item b item) cs.
Proof.
  intros Hb. unfold ThreadHistory.handle_rollout_item. assert (tidy (next_rollout b)) as Hn by (destruct Hb; by split).
  assert (∀ b' cs, moves (next_rollout b) b' cs → moves b b' cs) as Hpre by (intros b' cs (H1 & H2 & H3); by split_and!).
  assert (∃ cs, moves (next_rollout b) (match item with
    | RolloutEvent event => handle_event thread_item_from parse_command (next_rollout b) event
    | RolloutCompacted => handle_compacted (next_rollout b)
    | RolloutMessage role content id => handle_response_item (next_rollout b) role content id
    | RolloutRealtime _ | RolloutOther => next_rollout b end) cs) as [cs Hcs]; [|exists cs; by apply Hpre].
  destruct item as [e| |role content id|r|].
  - assert ((∃ n, e = EvThreadRolledBack n) ∨ ∀ n, e ≠ EvThreadRolledBack n) as [[n ->]|He] by (destruct e; eauto);
      [by apply rollback_moves|].
    apply handles_moves; [done|]. destruct Hn. by apply handles_event.
  - apply handles_moves; [done|]. apply handles_compacted.
  - apply handles_moves; [done|]. destruct Hn. by apply handles_response.
  - apply handles_moves; [done|]. destruct Hn. by apply handles_same.
  - apply handles_moves; [done|]. destruct Hn. by apply handles_same.
Qed.

(** The report of one item. *)
Lemma with_changes_moves b item c b' : tidy b → active_change_set b = None → handle_rollout_item_with_changes b item = (c, b') →
  b' = handle_rollout_item b item ∧ active_change_set b' = None ∧ tidy b' ∧
  (distinct (view b) → distinct (view b') → ∀ cl, holds cl (view b) → holds (apply_changes cl c) (view b')).
Proof.
  intros Hb Ha Hw. pose proof (with_changes_state thread_item_from parse_command b item Ha) as Hs. rewrite Hw in Hs. cbn in Hs.
  assert (tidy (set_changes b (Some no_changes))) as Hb0 by (destruct Hb; by split).
  destruct (rollout_item_moves _ item Hb0) as (cs & Ht & He & Hh). specialize (He no_changes eq_refl). rewrite cs_nil_app in He.
  unfold ThreadHistory.handle_rollout_item_with_changes, collect_changes in Hw. injection Hw as Hc Hb'.
  rewrite He in Hc. cbn in Hc. subst c b'. split_and!; [done|done| |done]. destruct Ht. by split.
Qed.

(** ** Many items *)
Fixpoint states b (items : list RolloutItem) : list ThreadHistoryBuilder :=
  match items with [] => [b] | item :: items => b :: states (handle_rollout_item b item) items end.

Lemma states_head b items P : Forall P (states b items) → P b.
Proof. by destruct items; intros [? _]%Forall_cons. Qed.

Lemma states_app b items items' P : Forall P (states b (items ++ items')) →
  Forall P (states b items) ∧ Forall P (states (foldl handle_rollout_item b items) items').
Proof.
  revert b. induction items as [|item items IH]; intros b; cbn.
  - intros H. split; [|done]. constructor; [by eapply states_head|done].
  - intros [Hb H]%Forall_cons. destruct (IH _ H). split; [by constructor|done].
Qed.

Lemma states_tidy b items : tidy b → Forall tidy (states b items).
Proof.
  revert b. induction items as [|item items IH]; intros b Hb; cbn; [by apply Forall_singleton|]. constructor; [done|].
  apply IH. by destruct (rollout_item_moves b item Hb) as (cs & ? & _).
Qed.

Lemma batch_follows b items cl a : tidy b → active_change_set b = None → acc_ok a →
  Forall (λ b, distinct (view b)) (states b items) → holds (apply_changes cl (acc_finish a)) (view b) →
  let r := foldl (λ '(a, b) item, let '(c, b) := handle_rollout_item_with_changes b item in (acc_push a c, b)) (a, b) items in
  r.2 = foldl handle_rollout_item b items ∧ active_change_set r.2 = None ∧
  holds (apply_changes cl (acc_finish r.1)) (view r.2).
Proof.
  revert b a. induction items as [|item items IH]; intros b a Hb Ha Hok Hd Hh; cbn [foldl]; [done|].
  destruct (handle_rollout_item_with_changes b item) as [c b'] eqn:Hw. cbn [states] in Hd. apply Forall_cons in Hd as [Hdb Hd].
  destruct (with_changes_moves b item c b' Hb Ha Hw) as (-> & Ha' & Hb' & Hm).
  destruct (acc_push_applies a c cl Hok) as [Hok' Happ]. pose proof (states_head _ _ _ Hd) as Hd'. cbn beta in Hd'.
  apply IH; [done|done|done|done|]. rewrite Happ. by apply Hm.
Qed.

Definition client_empty : Client := mkClient [] ∅.

(** What a client shows. *)
Definition shown cl : list Turn :=
  (λ c, mkTurn (tc_turn_id c) (rows cl (tc_turn_id c)) (tc_error c) (tc_status c) (tc_started_at c) (tc_completed_at c)
          (tc_duration_ms c)) <$> client_turns cl.

Lemma holds_shown cl v : holds cl v → shown cl = turn_of <$> v.
Proof.
  intros [Ht Hr _]. unfold shown. rewrite Ht, <-list_fmap_compose. apply list_fmap_ext. intros i t Hi. cbn.
  rewrite Hr by by eapply list_elem_of_lookup_2. done.
Qed.

Lemma finish_view b : tidy b → finish b = turn_of <$> view b.
Proof.
  intros [_ Ho]. destruct (same_finish b Ho) as [(Hv & _) Hn]. unfold finish. rewrite <-Hv. unfold view. by rewrite Hn, app_nil_r.
Qed.

(** A client that receives one report per batch. *)
Definition follow (batches : list (list RolloutItem)) : Client * ThreadHistoryBuilder :=
  foldl (λ '(cl, b) items, let '(c, b) := handle_rollout_items_with_changes b items in (apply_changes cl c, b))
    (client_empty, builder_new) batches.

Lemma follow_holds batches : Forall (λ b, distinct (view b)) (states builder_new (mjoin batches)) →
  (follow batches).2 = foldl handle_rollout_item builder_new (mjoin batches) ∧ active_change_set (follow batches).2 = None ∧
  holds (follow batches).1 (view (follow batches).2).
Proof.
  induction batches as [|items batches IH] using rev_ind; intros Hd; cbn.
  - split_and!; [done|done|]. split; [done|by intros t ?%not_elem_of_nil|done].
  - rewrite join_app in Hd. cbn in Hd. rewrite app_nil_r in Hd. apply states_app in Hd as [Hd1 Hd2].
    destruct (IH Hd1) as (Hb & Ha & Hh). unfold follow in *. rewrite foldl_app, join_app, foldl_app. cbn. rewrite app_nil_r.
    destruct (foldl _ (client_empty, builder_new) batches) as [cl b]. cbn [fst snd] in *. subst b.
    assert (tidy (foldl handle_rollout_item builder_new (mjoin batches))) as Htidy.
    { apply (states_head _ items). apply (states_app builder_new (mjoin batches) items). apply states_tidy, tidy_new. }
    pose proof (batch_follows _ items cl acc_empty Htidy Ha acc_empty_ok Hd2) as Hf.
    change (apply_changes cl (acc_finish acc_empty)) with cl in Hf. specialize (Hf Hh).
    unfold ThreadHistory.handle_rollout_items_with_changes. destruct (foldl _ (acc_empty, _) items) as [a b'].
    cbn [fst snd] in *. exact Hf.
Qed.

(** ** The claims *)

(** C7: A client that starts with nothing and applies one coalesced report per
    batch of rollout items shows, after every batch split, exactly the turns that
    rebuilding the thread from the whole rollout gives, provided no intermediate
    state has two turns with one identifier or a turn with two items with one. *)
Theorem followed_client_shows_rebuild (batches : list (list RolloutItem)) :
  Forall (λ b, distinct (view b)) (states builder_new (mjoin batches)) →
  shown (follow batches).1 = build_turns_from_rollout_items thread_item_from parse_command (mjoin batches).
Proof.
  intros Hd. destruct (follow_holds batches Hd) as (Hb & _ & Hh). rewrite (holds_shown _ _ Hh), Hb.
  unfold build_turns_from_rollout_items. rewrite finish_view; [done|].
  apply (states_head _ []), (states_app builder_new (mjoin batches) []), states_tidy, tidy_new.
Qed.

(** In every state reached from an empty builder, the update of an item
    through the lazily built index of its turn gives the list that a search of
    the items for the identifier gives, and the turn's index agrees with the
    search afterwards too. *)
Theorem indexed_upsert_is_search (items : list RolloutItem) t (x : ThreadItem) :
  t ∈ view (foldl handle_rollout_item builder_new items) →
  pt_items (upsert_item t x) =
    match position_of (item_id x) (pt_items t) with
    | Some i => <[i := x]> (pt_items t)
    | None => pt_items t ++ [x]
    end ∧
  index_ok (pt_index (upsert_item t x)) (pt_items (upsert_item t x)).
Proof.
  intros Ht. assert (tidy (foldl handle_rollout_item builder_new items)) as [Hi _].
  { apply (states_head _ []), (states_app builder_new items []), states_tidy, tidy_new. }
  unfold indexed in Hi. rewrite Forall_forall in Hi. destruct (index_upsert_ok _ _ x (Hi t Ht)) as [Hr Hok].
  rewrite <-position_of_upsert. done.
Qed.

(** Rolling back n turns after any rollout leaves the first turns in their
    order with nothing open, reports the identifiers of exactly the others when a
    report is being collected, and restarts the item counter after the items that
    stay. *)
Theorem rollback_keeps_first_turns (items : list RolloutItem) (n : N) :
  let b := foldl handle_rollout_item builder_new items in
  let b' := handle_thread_rollback b n in
  let keep := length (finish b) - N.to_nat n in
  finish b' = take keep (finish b) ∧ current_turn b' = None ∧
  next_item_index b' = Z.min (Z.of_nat (sum_list_with (λ t, length (turn_items t)) (finish b')) + 1) I64_MAX ∧
  (handle_event_with_changes thread_item_from parse_command b (EvThreadRolledBack n)).1 =
    mkChangeSet [] [] (turn_id <$> drop keep (finish b)).
Proof.
  cbv zeta. set (b := foldl _ _ _). assert (tidy b) as Hb.
  { apply (states_head _ []), (states_app builder_new items []), states_tidy, tidy_new. }
  destruct (rollback_spec b n (tidy_open b Hb)) as (Hv & Hc & Hx & He).
  assert (tidy (handle_thread_rollback b n)) as Hb' by by destruct (rollback_moves b n Hb) as (cs & ? & _).
  rewrite !finish_view by done. rewrite Hv, length_fmap. unfold kept in *. split_and!; [by rewrite fmap_take|done| |].
  - rewrite Hx. unfold item_count. do 3 f_equal. clear.
    induction (take _ (view b)) as [|t v IH]; cbn; [done|]. by rewrite IH.
  - unfold handle_event_with_changes, collect_changes. cbn [fst ThreadHistory.handle_event].
    destruct (rollback_spec (set_changes b (Some no_changes)) n (tidy_open b Hb)) as (_ & _ & _ & He').
    rewrite (He' no_changes eq_refl). unfold kept. cbn. f_equal. by rewrite <-fmap_drop, <-list_fmap_compose.
Qed.
End sync.

(** Distinctness of a list of states, evaluated. *)
Definition all_distinct {W : Wire} (bs : list ThreadHistoryBuilder) : bool :=
  forallb (λ b, bool_decide (NoDup (pt_id <$> view b)) &&
    forallb (λ t, bool_decide (NoDup (item_id <$> pt_items t))) (view b)) bs.

Lemma distinct_states_dec {W : Wire} (bs : list ThreadHistoryBuilder) :
  all_distinct bs = true → Forall (λ b, distinct (view b)) bs.
Proof.
  unfold all_distinct. rewrite forallb_forall. intros H. apply Forall_forall. intros b Hb%list_elem_of_In.
  apply H, andb_true_iff in Hb as [H1 H2]. split; [by apply bool_decide_eq_true in H1|].
  rewrite forallb_forall in H2. apply Forall_forall. intros t Ht%list_elem_of_In. by apply H2, bool_decide_eq_true in Ht.
Qed.

(** ** A concrete run *)
Module Examples.
#[local] Instance unit_wire : Wire := {|
  Json := unit; json_null := tt; TextElement := unit; ImageDetail := unit; MemoryCitation := unit;
  AgentMessageDelivery := unit; AsyncUserInputQuestion := unit; FunctionCallOutputBody := unit; ReasoningEffort := unit;
  SubAgentActivityKind := unit; WebSearchAction := unit; CommandExecutionSource := unit; source_agent := tt;
  ImageGenerationFailure := unit; MisalignmentErrorDetails := unit; ReviewFinding := unit; SleepItem := str;
  sleep_id := id; ContentItem := str; CallToolResult := unit; call_tool_is_error := λ _, None; input_text := Some;
  from_xml_str := λ s, Some (s, s); redact_secrets := id; shlex_join := mjoin; uri_join := λ a b, Some (a ++ b);
  abs_join := λ a b, a ++ b; format_review_findings_block := λ _, []; uuid_now_v7 := λ n, $"uuid-" ++ fmt_nat n;
  ItemPayload := str |}.

Definition plan_of (i : TurnItem) : ThreadItem := Plan (turn_item_payload i) [].
Definition no_parse (_ : list str) : list ParsedCommand := [].
Definition says (s : str) : RolloutItem := RolloutEvent (EvUserMessage (mkUserMessageEvent None s None [] [] [] None [] [])).

Definition run : list (list RolloutItem) :=
  [ [RolloutEvent (EvTurnStarted ($"t1") (Some 5%Z)); says ($"hi"); RolloutEvent (EvAgentReasoning ($"first"));
     RolloutEvent (EvAgentReasoning ($"second")); RolloutEvent (EvWebSearchBegin ($"w"))];
    [RolloutEvent (EvWebSearchEnd ($"w") ($"q") tt None); RolloutEvent (EvTurnComplete ($"t1") None None (Some 9%Z) None);
     says ($"again"); RolloutEvent (EvItemCompleted ($"t1") (mkTurnItem KSubAgentActivity ($"late")) None 0%Z)];
    [RolloutEvent (EvThreadRolledBack 1); RolloutCompacted; says ($"more"); RolloutMessage ($"user") [$"hook"] None;
     RolloutEvent (EvEnteredReviewMode (Some ($"r")) None None)] ].

Lemma followed_client_shows_rebuild_witness :
  Forall (λ b, distinct (view b)) (states plan_of no_parse builder_new (mjoin run)) ∧
  shown (follow plan_of no_parse run).1 = build_turns_from_rollout_items plan_of no_parse (mjoin run) ∧
  length (build_turns_from_rollout_items plan_of no_parse (mjoin run)) = 3.
Proof.
  assert (Forall (λ b, distinct (view b)) (states plan_of no_parse builder_new (mjoin run))) as Hd.
  { apply distinct_states_dec. vm_compute. reflexivity. }
  split_and!; [exact Hd|exact (followed_client_shows_rebuild plan_of no_parse run Hd)|vm_compute; reflexivity].
Defined.

Lemma indexed_upsert_is_search_witness :
  ∃ t, t ∈ view (foldl (handle_rollout_item plan_of no_parse) builder_new (mjoin run)) ∧
    length (pt_items (upsert_item t (Plan ($"late") ($"new")))) = 4 ∧
    index_ok (pt_index (upsert_item t (Plan ($"late") ($"new")))) (pt_items (upsert_item t (Plan ($"late") ($"new")))).
Proof.
  assert (match head (view (foldl (handle_rollout_item plan_of no_parse) builder_new (mjoin run))) with
          | Some t => length (pt_items (upsert_item t (Plan ($"late") ($"new")))) = 4
          | None => False
          end) as H by (vm_compute; reflexivity).
  destruct (view _) as [|t ts] eqn:E; [destruct H|]. cbn [head] in H. exists t.
  assert (t ∈ view (foldl (handle_rollout_item plan_of no_parse) builder_new (mjoin run))) as Ht by (rewrite E; left).
  split; [left|split; [exact H|exact (proj2 (indexed_upsert_is_search plan_of no_parse (mjoin run) _ _ Ht))]].
Defined.
End Examples.
