(* ===== verification/RolloutStore.v ===== *)
(** * Projecting a rollout file into tables:
    [app-server-protocol/src/protocol/thread_history_projection.rs],
    [thread-store/src/local/thread_history_materialization.rs] and
    [thread-store/src/local/thread_history.rs]

    A rollout is a file of JSON lines that only grows. The projection reads the
    complete lines past a checkpoint, turns each into changes, and writes the
    changes and the new checkpoint to the tables of the thread in one
    transaction. *)

From stdpp Require Import prelude list gmap strings pretty.
From S2P Require Import Prelude ThreadItems ThreadHistory.

Inductive ThreadStoreError : Type :=
| Internal (message : str)
| InvalidRequest (message : str)
| Unsupported (operation : str).

#[global] Instance ThreadStoreError_eq_dec : EqDecision ThreadStoreError.
Proof. solve_decision. Defined.

Notation store_result := (result ThreadStoreError).

Definition fmt_Z (z : Z) : str := lit (pretty z).

Definition U64_MAX : N := (2 ^ 64 - 1)%N.
Definition checked_add_u64 (a b : N) : option N := if (a + b <=? U64_MAX)%N then Some (a + b)%N else None.

(** [opt.ok_or_else(..)] *)
Definition ok_or {A} (e : ThreadStoreError) (o : option A) : store_result A :=
  match o with Some a => Ok a | None => Err e end.

(** [u8::is_ascii_whitespace] *)
Definition is_ascii_whitespace (b : N) : bool := (b =? 9)%N || (b =? 10)%N || (b =? 12)%N || (b =? 13)%N || (b =? 32)%N.

(** [iter().rposition(|byte| byte == '\n').map_or(0, |index| index + 1)] *)
Fixpoint complete_byte_count (bytes : list N) : nat :=
  match bytes with
  | [] => 0
  | b :: bytes =>
      match complete_byte_count bytes with
      | S n => S (S n)
      | 0 => if (b =? LF)%N then 1 else 0
      end
  end.

(** [split_inclusive(|byte| byte == '\n')] *)
Fixpoint split_inclusive (bytes : list N) : list (list N) :=
  match bytes with
  | [] => []
  | b :: bytes =>
      if (b =? LF)%N then [b] :: split_inclusive bytes
      else match split_inclusive bytes with
           | [] => [[b]]
           | line :: lines => (b :: line) :: lines
           end
  end.

Section store.
Context {W : Wire} (thread_item_from : TurnItem → ThreadItem).

(** ** One line *)
Record RolloutLine := mkLine {
  line_timestamp : str;
  line_ordinal : option N;
  line_item : RolloutItem;
}.

Definition turn_change (id : str) (status : TurnStatus) (error : option TurnError)
    (started_at completed_at duration_ms : option Z) : ThreadHistoryChangeSet :=
  mkChangeSet [] [mkTurnChange id status error started_at completed_at duration_ms] [].

Definition project_rollout_line (line : RolloutLine) : ThreadHistoryChangeSet :=
  match line_item line with
  | RolloutEvent (EvTurnStarted turn_id started_at) => turn_change turn_id TurnInProgress None started_at None None
  | RolloutEvent (EvTurnComplete turn_id error started_at completed_at duration_ms) =>
      turn_change turn_id (if error then TurnFailed else TurnCompleted) (turn_error <$> error)
        started_at completed_at duration_ms
  | RolloutEvent (EvTurnAborted turn_id started_at completed_at duration_ms) =>
      match turn_id with
      | Some turn_id => turn_change turn_id TurnInterrupted None started_at completed_at duration_ms
      | None => no_changes
      end
  | RolloutEvent (EvItemCompleted turn_id item started_at_ms completed_at_ms) =>
      mkChangeSet
        [mkItemChange turn_id (thread_item_from item) started_at_ms
           (if (completed_at_ms =? 0)%Z then None else Some completed_at_ms)] [] []
  | _ => no_changes
  end.

(** ** Reading the lines past a checkpoint *)
Record ProjectedRolloutLine := mkProjected {
  pl_ordinal : N;
  pl_start_byte_offset : N;
  pl_end_byte_offset : N;
  pl_fallback_created_at_ms : option Z;
  pl_changes : ThreadHistoryChangeSet;
  pl_realtime_item : option RealtimeItem;
}.

Inductive RolloutProjectionStep : Type :=
| StepLine (line : ProjectedRolloutLine)
| SkippedOrdinalRange (start_ordinal end_ordinal_exclusive : N).

(** JSON, the decoder of lines and the parser of timestamps (in milliseconds). *)
Context {Value : Type} (from_slice : list N → option Value) (decode_rollout_line : Value → option RolloutLine)
        (parse_from_rfc3339 : str → option Z).

Record ReadState := mkRead {
  rs_projections : list RolloutProjectionStep;
  rs_next_ordinal : N;
  rs_next_offset : N;
  rs_line_start : N;
}.

Definition ordinal_overflow : ThreadStoreError := Internal ($"rollout ordinal exceeds SQLite integer range").
Definition offset_overflow : ThreadStoreError := Internal ($"durable rollout byte offset overflow").

(** A line that only moves the byte checkpoint. *)
Definition skip_line (s : ReadState) (line_end : N) : ReadState :=
  mkRead (rs_projections s) (rs_next_ordinal s) line_end line_end.

Definition is_realtime (item : RolloutItem) : bool := match item with RolloutRealtime _ => true | _ => false end.

(** The body of the loop for a decoded line with an ordinal that is not behind. *)
Definition project_line (subagent_start : option N) (s : ReadState) (line : RolloutLine) (ordinal line_end : N)
    : store_result ReadState :=
  let inherited := match subagent_start with Some start => (ordinal <? start)%N | None => false end in
  let changes := if inherited then no_changes else project_rollout_line line in
  let needs_timestamp :=
    existsb (λ c, negb (bool_decide (is_Some (ic_started_at_ms c)))) (changed_items changes) ||
    (negb inherited && is_realtime (line_item line)) in
  let timestamp := parse_from_rfc3339 (line_timestamp line) in
  if needs_timestamp && negb (bool_decide (is_Some timestamp)) then
    let? end_ordinal := ok_or ordinal_overflow (checked_add_u64 ordinal 1) in
    Ok (mkRead (rs_projections s ++ [SkippedOrdinalRange (rs_next_ordinal s) end_ordinal]) end_ordinal line_end line_end)
  else
    let fallback := if needs_timestamp then timestamp else None in
    let gap := if (rs_next_ordinal s <? ordinal)%N then [SkippedOrdinalRange (rs_next_ordinal s) ordinal] else [] in
    let? next_line_ordinal := ok_or ordinal_overflow (checked_add_u64 ordinal 1) in
    let realtime := match line_item line with
                    | RolloutRealtime item => if inherited then None else Some item
                    | _ => None
                    end in
    Ok (mkRead (rs_projections s ++ gap ++ [StepLine (mkProjected ordinal (rs_line_start s) line_end fallback changes realtime)])
          next_line_ordinal line_end line_end).

(** One iteration of the loop. *)
Definition read_line (subagent_start : option N) (s : ReadState) (line_bytes : list N) : store_result ReadState :=
  let? line_end := ok_or offset_overflow (checked_add_u64 (rs_line_start s) (N.of_nat (length line_bytes))) in
  if forallb is_ascii_whitespace line_bytes then Ok (skip_line s line_end)
  else match from_slice line_bytes with
       | None => Ok (skip_line s line_end)
       | Some value =>
           match decode_rollout_line value with
           | None => Ok (skip_line s line_end)
           | Some line =>
               match line_ordinal line with
               | None => Ok (skip_line s line_end)
               | Some ordinal =>
                   if (ordinal <? rs_next_ordinal s)%N then Ok (skip_line s line_end)
                   else project_line subagent_start s line ordinal line_end
               end
           end
       end.

Fixpoint read_lines (subagent_start : option N) (s : ReadState) (lines : list (list N)) : store_result ReadState :=
  match lines with
  | [] => Ok s
  | line :: lines => let? s := read_line subagent_start s line in read_lines subagent_start s lines
  end.

(** The file is [None] when it does not exist; then opening it fails with [io_error]. *)
Context (io_error : str).

Definition read_projection_steps (file : option (list N)) (start_offset expected_ordinal : N) (subagent_start : option N)
    : store_result (list RolloutProjectionStep * N) :=
  match file with
  | None => if (start_offset =? 0)%N then Ok ([], 0%N) else Err (Internal io_error)
  | Some content =>
      if (N.of_nat (length content) <? start_offset)%N then Err (Internal ($"durable rollout shrank before projection"))
      else
        let bytes := drop (N.to_nat start_offset) content in
        let lines := split_inclusive (take (complete_byte_count bytes) bytes) in
        let? s := read_lines subagent_start (mkRead [] expected_ordinal start_offset start_offset) lines in
        Ok (rs_projections s, rs_next_offset s)
  end.

(** ** Tables *)
Record TurnRow := mkTurnRow {
  tr_turn_id : str;
  tr_rollout_ordinal : Z;
  tr_rollout_byte_offset : Z;
  tr_rollout_end_ordinal : option Z;
  tr_rollout_end_byte_offset : option Z;
  tr_status : str;
  tr_error : option TurnError;
  tr_started_at : option Z;
  tr_completed_at : option Z;
  tr_duration_ms : option Z;
  tr_first_user_item_id : option str;
  tr_final_agent_item_id : option str;
}.

Record ItemRow := mkItemRow {
  ir_turn_id : str;
  ir_item_id : str;
  ir_rollout_ordinal : Z;
  ir_updated_at_ordinal : Z;
  ir_created_at_ms : Z;
  ir_item_type : str;
  ir_item : ThreadItem;
}.

Record RealtimeRow := mkRealtimeRow {
  rr_item_id : str;
  rr_rollout_ordinal : Z;
  rr_created_at_ms : Z;
  rr_item : RealtimeItem;
}.

(** The rows of one thread; every statement selects its thread. *)
Record ThreadRows := mkRows {
  thread_turns : list TurnRow;
  thread_items : list ItemRow;
  thread_realtime_items : list RealtimeRow;
  projection_row : option (Z * Z);
}.
Implicit Types r : ThreadRows.

Definition no_rows : ThreadRows := mkRows [] [] [] None.

Definition turn_status_name (status : TurnStatus) : str :=
  match status with
  | TurnCompleted => $"completed"
  | TurnInterrupted => $"interrupted"
  | TurnFailed => $"failed"
  | TurnInProgress => $"inProgress"
  end.

Definition sqlite_integer (value : N) (field : str) : store_result Z :=
  if (Z.of_N value <=? I64_MAX)%Z then Ok (Z.of_N value) else Err (Internal (field ++ $" exceeds SQLite integer range")).

(** The [type] tag of a serialized item. *)
Definition item_type_name (item : ThreadItem) : str :=
  match item with
  | UserMessage _ _ _ => $"userMessage"
  | HookPrompt _ _ => $"hookPrompt"
  | AgentMessage _ _ _ _ _ _ => $"agentMessage"
  | FunctionCallOutput _ _ _ _ => $"functionCallOutput"
  | Plan _ _ => $"plan"
  | Reasoning _ _ _ => $"reasoning"
  | CommandExecution _ _ _ _ _ _ _ _ _ _ _ _ => $"commandExecution"
  | FileChangeItem _ _ _ => $"fileChange"
  | McpToolCall _ _ _ _ _ _ _ _ _ _ _ _ => $"mcpToolCall"
  | DynamicToolCall _ _ _ _ _ _ _ _ => $"dynamicToolCall"
  | CollabAgentToolCall _ _ _ _ _ _ _ _ _ => $"collabAgentToolCall"
  | SubAgentActivity _ _ _ _ => $"subAgentActivity"
  | WebSearch _ _ _ _ => $"webSearch"
  | ImageView _ _ => $"imageView"
  | Sleep _ => $"sleep"
  | ImageGeneration _ _ _ _ _ _ _ _ => $"imageGeneration"
  | EnteredReviewMode _ _ => $"enteredReviewMode"
  | ExitedReviewMode _ _ => $"exitedReviewMode"
  | ContextCompaction _ => $"contextCompaction"
  end.

(** ** Writing changes *)
Definition constraint_failed : ThreadStoreError := Internal ($"failed to access thread history: UNIQUE constraint failed").

(** Replacing the columns of the row with a key, or appending a row; a row that
    already uses the ordinal violates the unique index on ordinals. *)
Definition upsert_row {A} (same : A → bool) (ordinal_of : A → Z) (ordinal : Z) (update : A → A) (row : A) (table : list A)
    : store_result (list A) :=
  if existsb (λ x, (ordinal_of x =? ordinal)%Z) table then Err constraint_failed
  else if existsb same table then Ok ((λ x, if same x then update x else x) <$> table)
  else Ok (table ++ [row]).

Definition is_turn (turn_id : str) (t : TurnRow) : bool := bool_decide (tr_turn_id t = turn_id).

(** A row a later record may still change. *)
Definition is_open (t : TurnRow) : bool :=
  negb (bool_decide (is_Some (tr_rollout_end_ordinal t))) && bool_decide (tr_status t = $"inProgress").

Definition is_terminal (status : TurnStatus) : bool := match status with TurnInProgress => false | _ => true end.

Definition new_turn_row (c : ThreadHistoryTurnChange) (ordinal offset end_offset : Z) : TurnRow :=
  mkTurnRow (tc_turn_id c) ordinal offset
    (if is_terminal (tc_status c) then Some ordinal else None)
    (if is_terminal (tc_status c) then Some end_offset else None)
    (turn_status_name (tc_status c)) (tc_error c) (tc_started_at c) (tc_completed_at c) (tc_duration_ms c) None None.

(** [ON CONFLICT(thread_id, turn_id) DO UPDATE SET .. WHERE ..] *)
Definition update_turn_row (new old : TurnRow) : TurnRow :=
  if is_open old then
    mkTurnRow (tr_turn_id old) (tr_rollout_ordinal old) (tr_rollout_byte_offset old)
      (tr_rollout_end_ordinal new) (tr_rollout_end_byte_offset new) (tr_status new) (tr_error new)
      (tr_started_at new) (tr_completed_at new) (tr_duration_ms new)
      (tr_first_user_item_id old) (tr_final_agent_item_id old)
  else old.

Definition row_has_type (name : str) (i : ItemRow) : bool :=
  bool_decide (ir_item_type i = name) ||
  (is_empty (ir_item_type i) && bool_decide (item_type_name (ir_item i) = name)).

Definition row_phase (i : ItemRow) : option MessagePhase :=
  match ir_item i with AgentMessage _ _ phase _ _ _ => phase | _ => None end.

(** [SELECT item_id .. ORDER BY rollout_ordinal LIMIT 1], and the same with [DESC]. *)
Definition select_first (p : ItemRow → bool) (items : list ItemRow) : option ItemRow :=
  foldl (λ best i, if p i then match best with
                               | Some b => if (ir_rollout_ordinal i <? ir_rollout_ordinal b)%Z then Some i else best
                               | None => Some i
                               end else best) None items.
Definition select_last (p : ItemRow → bool) (items : list ItemRow) : option ItemRow :=
  foldl (λ best i, if p i then match best with
                               | Some b => if (ir_rollout_ordinal b <? ir_rollout_ordinal i)%Z then Some i else best
                               | None => Some i
                               end else best) None items.

Definition of_turn_and_type (turn_id name : str) (i : ItemRow) : bool :=
  bool_decide (ir_turn_id i = turn_id) && row_has_type name i.

Definition first_user_item (turn_id : str) (items : list ItemRow) : option str :=
  ir_item_id <$> select_first (of_turn_and_type turn_id ($"userMessage")) items.
Definition final_answer_item (turn_id : str) (items : list ItemRow) : option str :=
  ir_item_id <$> select_last (λ i, of_turn_and_type turn_id ($"agentMessage") i &&
    match row_phase i with Some FinalAnswer => true | _ => false end) items.
Definition last_unphased_item (turn_id : str) (items : list ItemRow) : option str :=
  ir_item_id <$> select_last (λ i, of_turn_and_type turn_id ($"agentMessage") i &&
    match row_phase i with None => true | _ => false end) items.

(** [COALESCE(a, b)] *)
Definition coalesce {A} (a b : option A) : option A := match a with Some _ => a | None => b end.

Definition with_summary (t : TurnRow) (first_user final_agent : option str) : TurnRow :=
  mkTurnRow (tr_turn_id t) (tr_rollout_ordinal t) (tr_rollout_byte_offset t) (tr_rollout_end_ordinal t)
    (tr_rollout_end_byte_offset t) (tr_status t) (tr_error t) (tr_started_at t) (tr_completed_at t) (tr_duration_ms t)
    first_user final_agent.

Definition has_terminal_status (t : TurnRow) : bool :=
  bool_decide (tr_status t ∈ [$"completed"; $"interrupted"; $"failed"]).

(** The summary columns of the turn a record has just written. *)
Definition summarize_turn (items : list ItemRow) (turn_id : str) (ordinal : Z) (t : TurnRow) : TurnRow :=
  if is_turn turn_id t &&
     (bool_decide (tr_rollout_end_ordinal t = Some ordinal) || bool_decide (tr_status t = $"inProgress"))
  then with_summary t
         (coalesce (tr_first_user_item_id t) (first_user_item turn_id items))
         (coalesce (final_answer_item turn_id items)
            (coalesce (if has_terminal_status t then last_unphased_item turn_id items else None)
               (tr_final_agent_item_id t)))
  else t.

Definition apply_turn_change (ordinal offset end_offset : Z) r (c : ThreadHistoryTurnChange) : store_result ThreadRows :=
  let row := new_turn_row c ordinal offset end_offset in
  let? turns := upsert_row (is_turn (tc_turn_id c)) tr_rollout_ordinal ordinal (update_turn_row row) row (thread_turns r) in
  Ok (mkRows (summarize_turn (thread_items r) (tc_turn_id c) ordinal <$> turns) (thread_items r)
        (thread_realtime_items r) (projection_row r)).

Definition is_item (turn_id item_id : str) (i : ItemRow) : bool :=
  bool_decide (ir_turn_id i = turn_id) && bool_decide (ir_item_id i = item_id).

(** A snapshot of an item that is already there replaces it in place. *)
Definition update_item_row (new old : ItemRow) : ItemRow :=
  mkItemRow (ir_turn_id old) (ir_item_id old) (ir_rollout_ordinal old) (ir_updated_at_ordinal new)
    (ir_created_at_ms old) (ir_item_type new) (ir_item new).

(** The summary columns of the turn a completed item belongs to, while it is open. *)
Definition note_item (turn_id : str) (item : ThreadItem) (t : TurnRow) : TurnRow :=
  if is_turn turn_id t && is_open t then
    match item with
    | UserMessage _ _ _ =>
        with_summary t (coalesce (tr_first_user_item_id t) (Some (item_id item))) (tr_final_agent_item_id t)
    | AgentMessage _ _ (Some FinalAnswer) _ _ _ => with_summary t (tr_first_user_item_id t) (Some (item_id item))
    | _ => t
    end
  else t.

Definition apply_item_change (thread_id : str) (ordinal : Z) (fallback : option Z) r (c : ThreadHistoryItemChange)
    : store_result ThreadRows :=
  let? created_at_ms :=
    ok_or (Internal ($"thread history projection for " ++ thread_id ++ $" is missing an item creation timestamp"))
      (coalesce (ic_started_at_ms c) fallback) in
  let row := mkItemRow (ic_turn_id c) (item_id (ic_item c)) ordinal ordinal created_at_ms
               (item_type_name (ic_item c)) (ic_item c) in
  let? items := upsert_row (is_item (ic_turn_id c) (item_id (ic_item c))) ir_rollout_ordinal ordinal
                  (update_item_row row) row (thread_items r) in
  Ok (mkRows (note_item (ic_turn_id c) (ic_item c) <$> thread_turns r) items (thread_realtime_items r) (projection_row r)).

(** A loop that stops at the first error. *)
Fixpoint try_fold {A} (f : ThreadRows → A → store_result ThreadRows) r (xs : list A) : store_result ThreadRows :=
  match xs with
  | [] => Ok r
  | x :: xs => let? r := f r x in try_fold f r xs
  end.

Definition apply_change_set (thread_id : str) (ordinal offset end_offset : Z) (fallback : option Z) r
    (changes : ThreadHistoryChangeSet) : store_result ThreadRows :=
  let? r := try_fold (apply_turn_change ordinal offset end_offset) r (changed_turns changes) in
  try_fold (apply_item_change thread_id ordinal fallback) r (changed_items changes).

(** [ON CONFLICT(thread_id, item_id) DO NOTHING] *)
Definition insert_realtime (ordinal created_at_ms : Z) (item : RealtimeItem) r : store_result ThreadRows :=
  let table := thread_realtime_items r in
  if existsb (λ x, bool_decide (rr_item_id x = realtime_id item)) table then Ok r
  else if existsb (λ x, (rr_rollout_ordinal x =? ordinal)%Z) table then Err constraint_failed
  else Ok (mkRows (thread_turns r) (thread_items r)
             (table ++ [mkRealtimeRow (realtime_id item) ordinal created_at_ms item]) (projection_row r)).

(** ** Applying a projection *)
Definition unexpected_ordinal (thread_id : str) (expected got : Z) : ThreadStoreError :=
  Internal ($"thread history projection for " ++ thread_id ++ $" expected ordinal " ++ fmt_Z expected ++
            $", got " ++ fmt_Z got).

Definition checked_add_i64 (a b : Z) : option Z := if (a + b <=? I64_MAX)%Z then Some (a + b)%Z else None.

Definition apply_line (thread_id : str) (acc : ThreadRows * Z) (p : ProjectedRolloutLine) : store_result (ThreadRows * Z) :=
  let '(r, next_ordinal) := acc in
  let? ordinal := sqlite_integer (pl_ordinal p) ($"rollout ordinal") in
  if negb (ordinal =? next_ordinal)%Z then Err (unexpected_ordinal thread_id next_ordinal ordinal)
  else
    let? start := sqlite_integer (pl_start_byte_offset p) ($"rollout byte offset") in
    let? end_ := sqlite_integer (pl_end_byte_offset p) ($"rollout byte offset") in
    let? r := apply_change_set thread_id ordinal start end_ (pl_fallback_created_at_ms p) r (pl_changes p) in
    let? r := match pl_realtime_item p with
              | None => Ok r
              | Some item =>
                  let? created_at_ms := ok_or (Internal ($"realtime rollout item is missing its timestamp"))
                                          (pl_fallback_created_at_ms p) in
                  insert_realtime ordinal created_at_ms item r
              end in
    let? next_ordinal := ok_or ordinal_overflow (checked_add_i64 next_ordinal 1) in
    Ok (r, next_ordinal).

Definition apply_skip (thread_id : str) (acc : ThreadRows * Z) (start_ordinal end_ordinal : N) : store_result (ThreadRows * Z) :=
  let '(r, next_ordinal) := acc in
  let? start := sqlite_integer start_ordinal ($"rollout ordinal") in
  if negb (start =? next_ordinal)%Z then Err (unexpected_ordinal thread_id next_ordinal start)
  else
    let? end_ := sqlite_integer end_ordinal ($"rollout ordinal") in
    if (end_ <=? start)%Z then
      Err (Internal ($"thread history projection for " ++ thread_id ++ $" has an empty skipped ordinal range"))
    else Ok (r, end_).

Definition apply_step (thread_id : str) (acc : ThreadRows * Z) (step : RolloutProjectionStep) : store_result (ThreadRows * Z) :=
  match step with
  | StepLine p => apply_line thread_id acc p
  | SkippedOrdinalRange s e => apply_skip thread_id acc s e
  end.

Fixpoint apply_steps (thread_id : str) (acc : ThreadRows * Z) (steps : list RolloutProjectionStep)
    : store_result (ThreadRows * Z) :=
  match steps with
  | [] => Ok acc
  | step :: steps => let? acc := apply_step thread_id acc step in apply_steps thread_id acc steps
  end.

(** One transaction: on an error the rows stay as they were. *)
Definition apply_projection (thread_id : str) (start_offset next_offset initial_ordinal : N)
    (projections : list RolloutProjectionStep) r : store_result ThreadRows :=
  let? initial := sqlite_integer initial_ordinal ($"rollout ordinal") in
  let '(expected_offset, next_ordinal) := default (0%Z, initial) (projection_row r) in
  let? start := sqlite_integer start_offset ($"rollout byte offset") in
  if negb (expected_offset =? start)%Z then
    Err (Internal ($"thread history projection for " ++ thread_id ++ $" is behind durable rollout"))
  else
    let? (r, next_ordinal) := apply_steps thread_id (r, next_ordinal) projections in
    let? offset := sqlite_integer next_offset ($"rollout byte offset") in
    Ok (mkRows (thread_turns r) (thread_items r) (thread_realtime_items r) (Some (offset, next_ordinal))).

(** ** Catching up with the file *)
Definition projection_state (thread_id : str) r : store_result (option (N * N)) :=
  match projection_row r with
  | None => Ok None
  | Some (offset, ordinal) =>
      if (offset <? 0)%Z then Err (Internal ($"thread history projection for " ++ thread_id ++ $" has a negative byte offset"))
      else if (ordinal <? 0)%Z then Err (Internal ($"thread history projection for " ++ thread_id ++ $" has a negative ordinal"))
      else Ok (Some (Z.to_N offset, Z.to_N ordinal))
  end.

(** What the first line of the file states: where a fork's base ends, and where a
    subagent's own history starts. *)
Record SessionMeta := mkMeta {
  history_base_end : option N;
  subagent_history_start_ordinal : option N;
}.
Context (read_session_meta_line : list N → store_result SessionMeta).

Definition materialize (thread_id : str) (file : option (list N)) r : store_result ThreadRows :=
  let? state := projection_state thread_id r in
  let start_offset := match state with Some (offset, _) => offset | None => 0%N end in
  match state, file with
  | None, None => Ok r
  | _, _ =>
      let? meta := match file with Some content => read_session_meta_line content | None => Err (Internal io_error) end in
      let initial_ordinal := default 0%N (history_base_end meta) in
      let expected_ordinal := match state with Some (_, ordinal) => ordinal | None => initial_ordinal end in
      let? (projections, next_offset) :=
        read_projection_steps file start_offset expected_ordinal (subagent_history_start_ordinal meta) in
      if is_empty projections && (start_offset =? next_offset)%N then Ok r
      else apply_projection thread_id start_offset next_offset initial_ordinal projections r
  end.

(** The rows of all threads; deleting a thread deletes its rows and its checkpoint. *)
Definition delete_thread (db : gmap str ThreadRows) (thread_id : str) : gmap str ThreadRows := delete thread_id db.
End store.
