(* ===== verification/RolloutStoreSpec.v ===== *)
(** * Properties of the projection of rollouts

    The lines past a checkpoint are the lines that were not read before, so that
    catching up in stages is catching up once; what the reader produces the writer
    accepts; and a finished turn stays as it was recorded. *)

From stdpp Require Import prelude list gmap strings sorting pretty.
From S2P Require Import Prelude ThreadItems ThreadHistory RolloutStore.

(** ** Complete lines *)
Implicit Types bytes : list N.

Definition complete bytes : Prop := complete_byte_count bytes = length bytes.

Lemma complete_le bytes : complete_byte_count bytes ≤ length bytes.
Proof. induction bytes as [|b bytes IH]; cbn; [done|]. destruct (complete_byte_count bytes); [|lia]. destruct (b =? LF)%N; lia. Qed.

Lemma complete_cons b bytes : complete (b :: bytes) → complete bytes ∧ (bytes = [] → b = LF).
Proof.
  unfold complete. cbn. pose proof (complete_le bytes). destruct (complete_byte_count bytes) eqn:E.
  - destruct (N.eqb_spec b LF); [|lia]. intros ?. destruct bytes; cbn in *; [done|lia].
  - intros ?. split; [lia|]. intros ->. done.
Qed.

Lemma complete_app a bytes : complete a → complete_byte_count (a ++ bytes) = length a + complete_byte_count bytes.
Proof.
  induction a as [|b a IH]; intros Hc; cbn; [done|]. apply complete_cons in Hc as [Ha Hb]. rewrite IH by done.
  destruct a as [|c a]; cbn.
  - rewrite (Hb eq_refl). cbn. by destruct (complete_byte_count bytes).
  - done.
Qed.

Lemma complete_prefix bytes : complete (take (complete_byte_count bytes) bytes).
Proof.
  unfold complete. induction bytes as [|b bytes IH]; cbn; [done|]. destruct (complete_byte_count bytes) as [|n] eqn:E.
  - destruct (b =? LF)%N eqn:Hb; cbn; [by rewrite Hb|done].
  - cbn. cbn in IH. rewrite IH. destruct bytes; [done|]. cbn in IH |- *. done.
Qed.

Lemma split_complete_app a bytes : complete a → split_inclusive (a ++ bytes) = split_inclusive a ++ split_inclusive bytes.
Proof.
  induction a as [|b a IH]; intros Hc; cbn; [done|]. apply complete_cons in Hc as [Ha Hb]. rewrite IH by done.
  destruct (N.eqb_spec b LF) as [->|Hne]; [done|]. destruct a as [|c a]; [by destruct (Hne (Hb eq_refl))|].
  assert (split_inclusive (c :: a) ≠ []) as Hs.
  { cbn. destruct (c =? LF)%N; [done|]. by destruct (split_inclusive a). }
  by destruct (split_inclusive (c :: a)).
Qed.

Lemma split_join bytes : mjoin (split_inclusive bytes) = bytes.
Proof.
  induction bytes as [|b bytes IH]; [done|]. cbn [split_inclusive]. destruct (b =? LF)%N.
  - change (mjoin ([b] :: split_inclusive bytes)) with (b :: mjoin (split_inclusive bytes)). by rewrite IH.
  - rewrite <-IH at 2. by destruct (split_inclusive bytes).
Qed.

(** The lines of a longer file past a point are the lines of the file, then those past its last complete line. *)
Lemma lines_extend bytes more :
  let c := complete_byte_count bytes in
  split_inclusive (take (complete_byte_count (bytes ++ more)) (bytes ++ more)) =
  split_inclusive (take c bytes) ++
  split_inclusive (take (complete_byte_count (drop c bytes ++ more)) (drop c bytes ++ more)).
Proof.
  cbv zeta. set (c := complete_byte_count bytes). assert (bytes ++ more = take c bytes ++ (drop c bytes ++ more)) as ->
    by by rewrite app_assoc, take_drop.
  pose proof (complete_prefix bytes) as Hc. fold c in Hc. rewrite complete_app by done.
  rewrite take_app_add, split_complete_app by done. done.
Qed.

Section store_spec.
Context {W : Wire} (thread_item_from : TurnItem → ThreadItem).
Context {Value : Type} (from_slice : list N → option Value) (decode_rollout_line : Value → option RolloutLine)
        (parse_from_rfc3339 : str → option Z) (io_error : str) (read_session_meta_line : list N → store_result SessionMeta).
Notation project_line := (project_line thread_item_from parse_from_rfc3339).
Notation read_line := (read_line thread_item_from from_slice decode_rollout_line parse_from_rfc3339).
Notation read_lines := (read_lines thread_item_from from_slice decode_rollout_line parse_from_rfc3339).
Notation read_projection_steps := (read_projection_steps thread_item_from from_slice decode_rollout_line parse_from_rfc3339 io_error).
Notation materialize :=
  (materialize thread_item_from from_slice decode_rollout_line parse_from_rfc3339 io_error read_session_meta_line).
Implicit Types (r : ThreadRows) (s : ReadState) (steps : list RolloutProjectionStep).

(** ** Reading in stages *)
Definition map_ok {A B} (f : A → B) (x : store_result A) : store_result B :=
  match x with Ok a => Ok (f a) | Err e => Err e end.

Definition after_steps steps s : ReadState :=
  mkRead (steps ++ rs_projections s) (rs_next_ordinal s) (rs_next_offset s) (rs_line_start s).

Lemma project_line_after steps sub s line ordinal e :
  project_line sub (after_steps steps s) line ordinal e = map_ok (after_steps steps) (project_line sub s line ordinal e).
Proof.
  unfold RolloutStore.project_line. cbn [after_steps rs_projections rs_next_ordinal rs_line_start].
  destruct (_ && _); destruct (checked_add_u64 ordinal 1); cbn; unfold after_steps; cbn; by rewrite ?app_assoc.
Qed.

Lemma read_line_after steps sub s line :
  read_line sub (after_steps steps s) line = map_ok (after_steps steps) (read_line sub s line).
Proof.
  unfold RolloutStore.read_line. cbn [after_steps rs_line_start rs_next_ordinal].
  destruct (checked_add_u64 _ _) as [e|]; [|done]. cbn [ok_or rbind].
  destruct (forallb _ _); [done|]. destruct (from_slice line) as [v|]; [|done].
  destruct (decode_rollout_line v) as [l|]; [|done]. destruct (line_ordinal l) as [o|]; [|done].
  destruct (o <? rs_next_ordinal s)%N; [done|]. apply project_line_after.
Qed.

Lemma read_lines_after steps sub s lines :
  read_lines sub (after_steps steps s) lines = map_ok (after_steps steps) (read_lines sub s lines).
Proof.
  revert s. induction lines as [|line lines IH]; intros s; cbn; [done|]. rewrite read_line_after.
  destruct (read_line sub s line) as [s'|]; cbn; [apply IH|done].
Qed.

Lemma read_lines_app sub s l1 l2 : read_lines sub s (l1 ++ l2) = let? s := read_lines sub s l1 in read_lines sub s l2.
Proof. revert s. induction l1 as [|l l1 IH]; intros s; cbn; [done|]. destruct (read_line sub s l); cbn; [apply IH|done]. Qed.

(** The steps continue each other from an ordinal to the next one expected. *)
Fixpoint chain (n : N) steps (n' : N) : Prop :=
  match steps with
  | [] => n = n'
  | StepLine p :: steps => pl_ordinal p = n ∧ chain (n + 1) steps n'
  | SkippedOrdinalRange a b :: steps => a = n ∧ (a < b)%N ∧ chain b steps n'
  end.

Lemma chain_app n steps m steps' n' : chain n steps m → chain m steps' n' → chain n (steps ++ steps') n'.
Proof. revert n. induction steps as [|[p|a b] steps IH]; intros n; cbn; [by intros ->|naive_solver..]. Qed.

Lemma chain_le n steps n' : chain n steps n' → (n ≤ n')%N.
Proof.
  revert n. induction steps as [|[p|a b] steps IH]; intros n; cbn.
  - by intros ->.
  - intros [_ H%IH]. lia.
  - intros (-> & Hab & H%IH). lia.
Qed.

(** The writer finds the times it needs: a line that changes an item without a
    time of its own, or that holds a realtime item, has the time of the line. *)
Definition timed (p : ProjectedRolloutLine) : Prop :=
  (∀ c, c ∈ changed_items (pl_changes p) → is_Some (coalesce (ic_started_at_ms c) (pl_fallback_created_at_ms p))) ∧
  (is_Some (pl_realtime_item p) → is_Some (pl_fallback_created_at_ms p)) ∧
  length (changed_items (pl_changes p)) ≤ 1 ∧ length (changed_turns (pl_changes p)) ≤ 1.

Definition step_within (lo hi : N) (step : RolloutProjectionStep) : Prop :=
  match step with
  | StepLine p => (lo ≤ pl_start_byte_offset p)%N ∧ (pl_start_byte_offset p ≤ pl_end_byte_offset p)%N ∧
                  (pl_end_byte_offset p ≤ hi)%N ∧ timed p
  | SkippedOrdinalRange _ _ => True
  end.

Lemma checked_add_u64_Some a b c : checked_add_u64 a b = Some c → c = (a + b)%N.
Proof. unfold checked_add_u64. destruct (_ <=? _)%N; [by intros [= <-]|done]. Qed.

Lemma project_changes_small line : length (changed_items (project_rollout_line thread_item_from line)) ≤ 1 ∧
  length (changed_turns (project_rollout_line thread_item_from line)) ≤ 1.
Proof.
  unfold project_rollout_line. destruct (line_item line) as [e| | | |]; cbn; try lia. destruct e; cbn; try lia.
  destruct turn_id; cbn; lia.
Qed.

(** What one line adds. *)
Definition extends s s' : Prop :=
  ∃ new, rs_projections s' = rs_projections s ++ new ∧ chain (rs_next_ordinal s) new (rs_next_ordinal s') ∧
    Forall (step_within (rs_line_start s) (rs_line_start s')) new.

Lemma project_line_extends sub s line ordinal e s' :
  (rs_next_ordinal s ≤ ordinal)%N → (rs_line_start s ≤ e)%N → project_line sub s line ordinal e = Ok s' →
  rs_next_offset s' = e ∧ rs_line_start s' = e ∧ extends s s'.
Proof.
  intros Hord He. unfold RolloutStore.project_line.
  set (inh := match sub with Some start => _ | None => false end). set (changes := if inh then no_changes else _).
  set (needs := existsb _ _ || _).
  assert (length (changed_items changes) ≤ 1 ∧ length (changed_turns changes) ≤ 1) as [Hi Ht].
  { unfold changes. destruct inh; [cbn; lia|apply project_changes_small]. }
  set (ts := parse_from_rfc3339 (line_timestamp line)).
  destruct (needs && negb (bool_decide (is_Some ts))) eqn:Hb; destruct (checked_add_u64 ordinal 1) as [next|] eqn:Hn; try done;
    apply checked_add_u64_Some in Hn as ->; cbn; intros [= <-]; cbn; (split_and!; [done|done|]); eexists; (split_and!; [cbn; done| |]).
  - cbn. split_and!; [done|lia|done].
  - by apply Forall_singleton.
  - cbn. destruct (N.ltb_spec (rs_next_ordinal s) ordinal); cbn; [naive_solver|]. by assert (ordinal = rs_next_ordinal s) as <- by lia.
  - assert (needs = true → is_Some (if needs then ts else None)) as Hfb.
    { intros Hneeds. rewrite Hneeds in *. cbn in Hb. apply negb_false_iff, bool_decide_eq_true in Hb. done. }
    apply Forall_app. split; [destruct (_ <? _)%N; by repeat constructor|]. apply Forall_singleton. cbn. split_and!; [lia|lia|lia|].
    split_and!; cbn; [| |done|done].
    + intros c Hc. destruct (ic_started_at_ms c) eqn:Hs; [by eexists|]. apply Hfb. unfold needs.
      rewrite (proj2 (existsb_exists _ _)); [done|]. exists c. split; [by apply list_elem_of_In|]. by rewrite Hs.
    + intros Hr. apply Hfb. unfold needs. destruct (line_item line); cbn in *; try (by destruct Hr).
      destruct inh; [by destruct Hr|apply orb_true_r].
Qed.

Lemma extends_refl s e : extends s (skip_line s e).
Proof. exists []. cbn. by rewrite app_nil_r. Qed.

Lemma read_line_extends sub s line s' : read_line sub s line = Ok s' →
  rs_line_start s' = (rs_line_start s + N.of_nat (length line))%N ∧ rs_next_offset s' = rs_line_start s' ∧ extends s s'.
Proof.
  unfold RolloutStore.read_line. destruct (checked_add_u64 _ _) as [e|] eqn:He; [|done]. apply checked_add_u64_Some in He as ->.
  cbn [ok_or rbind]. set (e := (rs_line_start s + N.of_nat (length line))%N).
  assert (@Ok ThreadStoreError _ (skip_line s e) = Ok s' → rs_line_start s' = e ∧ rs_next_offset s' = rs_line_start s' ∧ extends s s') as Hskip.
  { intros [= <-]. split_and!; [done|done|apply extends_refl]. }
  destruct (forallb _ _); [exact Hskip|]. destruct (from_slice line) as [v|]; [|exact Hskip].
  destruct (decode_rollout_line v) as [l|]; [|exact Hskip]. destruct (line_ordinal l) as [o|]; [|exact Hskip].
  destruct (N.ltb_spec o (rs_next_ordinal s)); [exact Hskip|]. intros Hp.
  apply project_line_extends in Hp as (H1 & H2 & H3); [|done|unfold e; lia]. split_and!; [done|congruence|done].
Qed.

Lemma step_within_mono lo hi lo' hi' step : (lo' ≤ lo)%N → (hi ≤ hi')%N → step_within lo hi step → step_within lo' hi' step.
Proof. intros Hl Hh. destruct step as [p|]; cbn; [|done]. intros (H1 & H2 & H3 & H4). split_and!; [lia|lia|lia|done]. Qed.

Lemma extends_trans s1 s2 s3 : (rs_line_start s1 ≤ rs_line_start s2)%N → (rs_line_start s2 ≤ rs_line_start s3)%N →
  extends s1 s2 → extends s2 s3 → extends s1 s3.
Proof.
  intros H12 H23 (n1 & E1 & C1 & F1) (n2 & E2 & C2 & F2). exists (n1 ++ n2). split_and!.
  - by rewrite E2, E1, app_assoc.
  - by eapply chain_app.
  - apply Forall_app. split; (eapply Forall_impl; [eassumption|]); intros step; by apply step_within_mono.
Qed.

Lemma read_lines_extends sub s lines s' : read_lines sub s lines = Ok s' → rs_next_offset s = rs_line_start s →
  rs_line_start s' = (rs_line_start s + N.of_nat (length (mjoin lines)))%N ∧ rs_next_offset s' = rs_line_start s' ∧ extends s s'.
Proof.
  revert s. induction lines as [|line lines IH]; intros s; cbn [RolloutStore.read_lines].
  - intros [= <-] Ho. cbn. split_and!; [lia|done|]. exists []. cbn. by rewrite app_nil_r.
  - destruct (read_line sub s line) as [s1|] eqn:H1; [|done]. cbn [rbind]. intros H2 Ho.
    apply read_line_extends in H1 as (L1 & N1 & E1). destruct (IH s1 H2 N1) as (L2 & N2 & E2).
    change (mjoin (line :: lines)) with (line ++ mjoin lines). rewrite length_app. split_and!; [lia|done|].
    eapply extends_trans; [| |exact E1|exact E2]; lia.
Qed.

(** What the reader returns from a checkpoint. *)
Record read_ok (content : list N) (start_offset expected_ordinal : N) steps (next_offset next_ordinal : N) : Prop := {
  read_start : (start_offset ≤ N.of_nat (length content))%N;
  read_offset : next_offset = (start_offset + N.of_nat (complete_byte_count (drop (N.to_nat start_offset) content)))%N;
  read_chain : chain expected_ordinal steps next_ordinal;
  read_within : Forall (step_within start_offset next_offset) steps;
}.

Lemma read_steps_state sub content o n steps o' : read_projection_steps (Some content) o n sub = Ok (steps, o') →
  ∃ s, read_lines sub (mkRead [] n o o)
         (split_inclusive (take (complete_byte_count (drop (N.to_nat o) content)) (drop (N.to_nat o) content))) = Ok s ∧
    s = mkRead steps (rs_next_ordinal s) o' o' ∧ read_ok content o n steps o' (rs_next_ordinal s).
Proof.
  unfold RolloutStore.read_projection_steps. destruct (N.ltb_spec (N.of_nat (length content)) o); [done|].
  set (bytes := drop (N.to_nat o) content). set (lines := split_inclusive _).
  destruct (read_lines sub _ lines) as [s|] eqn:Hr; [|done]. cbn. intros [= <- <-]. exists s.
  apply read_lines_extends in Hr as (Hl & Ho & (new & Hn & Hc & Hw)); [|done]. cbn in *. unfold lines in Hl.
  rewrite split_join, length_take_le in Hl by apply complete_le. split_and!; [done|destruct s; cbn in *; by subst|]. subst new.
  split; [done|by rewrite Ho|done|by rewrite Ho].
Qed.

(** ** Applying in stages *)
Definition with_projection r (row : option (Z * Z)) : ThreadRows :=
  mkRows (thread_turns r) (thread_items r) (thread_realtime_items r) row.

Definition both (row : option (Z * Z)) (acc : ThreadRows * Z) : ThreadRows * Z := (with_projection acc.1 row, acc.2).

Lemma try_fold_projection {A} (f : ThreadRows → A → store_result ThreadRows) row r xs :
  (∀ r x, f (with_projection r row) x = map_ok (λ r, with_projection r row) (f r x)) →
  try_fold f (with_projection r row) xs = map_ok (λ r, with_projection r row) (try_fold f r xs).
Proof.
  intros Hf. revert r. induction xs as [|x xs IH]; intros r; cbn; [done|]. rewrite Hf. destruct (f r x); cbn; [apply IH|done].
Qed.

Lemma apply_change_set_projection id o a b t row r cs :
  apply_change_set id o a b t (with_projection r row) cs = map_ok (λ r, with_projection r row) (apply_change_set id o a b t r cs).
Proof.
  unfold apply_change_set. rewrite try_fold_projection.
  - destruct (try_fold _ r (changed_turns cs)) as [r'|]; cbn; [|done]. apply try_fold_projection.
    intros r2 c. unfold apply_item_change. destruct (coalesce _ _); cbn; [|done]. by destruct (upsert_row _ _ _ _ _ _).
  - intros r2 c. unfold apply_turn_change. cbn. by destruct (upsert_row _ _ _ _ _ _).
Qed.

Lemma insert_realtime_projection o c item row r :
  insert_realtime o c item (with_projection r row) = map_ok (λ r, with_projection r row) (insert_realtime o c item r).
Proof. unfold insert_realtime. cbn. destruct (existsb _ _); [done|]. by destruct (existsb _ _). Qed.

Lemma apply_step_projection id row acc step : apply_step id (both row acc) step = map_ok (both row) (apply_step id acc step).
Proof.
  destruct acc as [r n], step as [p|a b]; cbn; unfold apply_line, apply_skip, both; cbn.
  - destruct (sqlite_integer (pl_ordinal p) _) as [o|]; cbn; [|done]. destruct (negb _); [done|].
    destruct (sqlite_integer (pl_start_byte_offset p) _) as [sb|]; cbn; [|done].
    destruct (sqlite_integer (pl_end_byte_offset p) _) as [eb|]; cbn; [|done]. rewrite apply_change_set_projection.
    destruct (apply_change_set _ _ _ _ _ r _) as [r1|]; cbn; [|done].
    destruct (pl_realtime_item p) as [item|]; cbn; [|by destruct (checked_add_i64 n 1)].
    destruct (pl_fallback_created_at_ms p) as [t|]; cbn; [|done]. rewrite insert_realtime_projection.
    destruct (insert_realtime o t item r1); cbn; [|done]. by destruct (checked_add_i64 n 1).
  - destruct (sqlite_integer a _) as [a'|]; cbn; [|done]. destruct (negb _); [done|].
    destruct (sqlite_integer b _) as [b'|]; cbn; [|done]. by destruct (_ <=? _)%Z.
Qed.

Lemma apply_steps_projection id row acc steps : apply_steps id (both row acc) steps = map_ok (both row) (apply_steps id acc steps).
Proof.
  revert acc. induction steps as [|step steps IH]; intros acc; cbn; [done|]. rewrite apply_step_projection.
  destruct (apply_step id acc step); cbn; [apply IH|done].
Qed.

Lemma apply_steps_app id acc steps1 steps2 :
  apply_steps id acc (steps1 ++ steps2) = let? acc := apply_steps id acc steps1 in apply_steps id acc steps2.
Proof. revert acc. induction steps1 as [|x steps1 IH]; intros acc; cbn; [done|]. destruct (apply_step id acc x); cbn; [apply IH|done]. Qed.

Lemma sqlite_integer_Ok v f z : sqlite_integer v f = Ok z → z = Z.of_N v ∧ (z ≤ I64_MAX)%Z.
Proof. unfold sqlite_integer. destruct (Z.leb_spec (Z.of_N v) I64_MAX); [by intros [= <-]|done]. Qed.

Lemma apply_step_next id r n step r' z : apply_step id (r, Z.of_N n) step = Ok (r', z) →
  match step with StepLine _ => z = (Z.of_N n + 1)%Z | SkippedOrdinalRange _ b => z = Z.of_N b end.
Proof.
  destruct step as [p|a b]; cbn; unfold apply_line, apply_skip.
  - destruct (sqlite_integer (pl_ordinal p) _) as [o|]; cbn; [|done]. destruct (negb _); [done|].
    destruct (sqlite_integer (pl_start_byte_offset p) _); cbn; [|done]. destruct (sqlite_integer (pl_end_byte_offset p) _); cbn; [|done].
    destruct (apply_change_set _ _ _ _ _ _ _) as [r1|]; cbn; [|done].
    destruct (match pl_realtime_item p with None => _ | Some item => _ end) as [r2|]; cbn; [|done].
    unfold checked_add_i64. destruct (_ <=? _)%Z; cbn; [by intros [= _ <-]|done].
  - destruct (sqlite_integer a _) as [a'|]; cbn; [|done]. destruct (negb _); [done|].
    destruct (sqlite_integer b _) as [b'|] eqn:Hb; cbn; [|done]. apply sqlite_integer_Ok in Hb as [-> _].
    destruct (_ <=? _)%Z; [done|]. by intros [= _ <-].
Qed.

Lemma apply_steps_next id r n steps n' r' z : chain n steps n' → apply_steps id (r, Z.of_N n) steps = Ok (r', z) → z = Z.of_N n'.
Proof.
  revert r n. induction steps as [|step steps IH]; intros r n; cbn [chain apply_steps]; [intros -> [= _ <-]; done|].
  destruct (apply_step id (r, Z.of_N n) step) as [[r1 z1]|] eqn:H1; cbn [rbind]; [|by destruct step].
  apply apply_step_next in H1. destruct step as [p|a b].
  - intros [_ Hc] H2. subst z1. replace (Z.of_N n + 1)%Z with (Z.of_N (n + 1)) in H2 by lia. by eapply IH.
  - intros (_ & _ & Hc) H2. subst z1. by eapply IH.
Qed.

(** ** Catching up in stages is catching up once *)
Lemma read_extend sub f g o n steps o1 s :
  read_projection_steps (Some f) o n sub = Ok (steps, o1) →
  read_lines sub (mkRead [] n o o)
    (split_inclusive (take (complete_byte_count (drop (N.to_nat o) f)) (drop (N.to_nat o) f))) = Ok s →
  read_projection_steps (Some (f ++ g)) o n sub =
    map_ok (λ x, (steps ++ x.1, x.2)) (read_projection_steps (Some (f ++ g)) o1 (rs_next_ordinal s) sub).
Proof.
  intros Hr Hs. destruct (read_steps_state sub f o n steps o1 Hr) as (s' & Hs' & Es & [Ho Hn _ _]).
  assert (s' = s) as -> by congruence. clear Hs' Hr. unfold RolloutStore.read_projection_steps. rewrite length_app.
  set (c := complete_byte_count (drop (N.to_nat o) f)) in *. pose proof (complete_le (drop (N.to_nat o) f)) as Hle.
  fold c in Hle. rewrite length_drop in Hle.
  destruct (N.ltb_spec (N.of_nat (length f + length g)) o); [lia|]. destruct (N.ltb_spec (N.of_nat (length f + length g)) o1); [lia|].
  rewrite drop_app_le by lia. rewrite lines_extend, read_lines_app. fold c. rewrite Hs. cbn [rbind].
  assert (drop (N.to_nat o1) (f ++ g) = drop c (drop (N.to_nat o) f) ++ g) as ->.
  { rewrite drop_app_le by lia. rewrite drop_drop. do 2 f_equal. lia. }
  set (l2 := split_inclusive _).
  assert (s = after_steps steps (mkRead [] (rs_next_ordinal s) o1 o1)) as E
    by (rewrite Es at 1; unfold after_steps; cbn; by rewrite app_nil_r).
  rewrite E at 1. rewrite read_lines_after. by destruct (read_lines sub _ l2) as [s2|].
Qed.

Lemma apply_projection_Ok id o o1 n0 steps r r1 : apply_projection id o o1 n0 steps r = Ok r1 →
  ∃ r' z n, sqlite_integer n0 ($"rollout ordinal") = Ok n ∧ (default (0%Z, n) (projection_row r)).1 = Z.of_N o ∧
    apply_steps id (r, (default (0%Z, n) (projection_row r)).2) steps = Ok (r', z) ∧
    sqlite_integer o1 ($"rollout byte offset") = Ok (Z.of_N o1) ∧ r1 = with_projection r' (Some (Z.of_N o1, z)).
Proof.
  unfold apply_projection. destruct (sqlite_integer n0 _) as [n|] eqn:Hn; cbn [rbind]; [|done].
  destruct (default (0%Z, n) (projection_row r)) as [eo en] eqn:Hd. destruct (sqlite_integer o _) as [so|] eqn:Hso; cbn [rbind]; [|done].
  apply sqlite_integer_Ok in Hso as [-> _]. destruct (Z.eqb_spec eo (Z.of_N o)) as [->|]; cbn [negb]; [|done].
  destruct (apply_steps id (r, en) steps) as [[r' z]|] eqn:Ha; cbn [rbind]; [|done].
  destruct (sqlite_integer o1 _) as [zo|] eqn:Ho1; cbn [rbind]; [|done]. pose proof (sqlite_integer_Ok _ _ _ Ho1) as [-> _].
  intros [= <-]. exists r', z, n. by rewrite Hd.
Qed.

Lemma apply_projection_stages id o o1 o2 n0 steps1 steps2 r r1 : apply_projection id o o1 n0 steps1 r = Ok r1 →
  apply_projection id o o2 n0 (steps1 ++ steps2) r = apply_projection id o1 o2 n0 steps2 r1.
Proof.
  intros H. destruct (apply_projection_Ok _ _ _ _ _ _ _ H) as (r' & z & n & Hn & Ho & Ha & Ho1 & ->).
  unfold apply_projection in *. rewrite Hn in *. cbn [rbind] in *. rewrite Ho1. cbn [rbind].
  change (default (0%Z, n) (projection_row (with_projection r' (Some (Z.of_N o1, z))))) with (Z.of_N o1, z). cbv iota beta.
  destruct (default (0%Z, n) (projection_row r)) as [eo en]. cbn [fst snd] in *. subst eo.
  destruct (sqlite_integer o _) as [so|] eqn:Hso; cbn [rbind] in *; [|done]. apply sqlite_integer_Ok in Hso as [-> _].
  rewrite !Z.eqb_refl. cbn [negb]. rewrite apply_steps_app, Ha. cbn [rbind].
  change (with_projection r' (Some (Z.of_N o1, z)), z) with (both (Some (Z.of_N o1, z)) (r', z)).
  rewrite apply_steps_projection. by destruct (apply_steps id (r', z) steps2) as [[r2 z2]|].
Qed.

Lemma apply_projection_none id o o1 n0 steps r r1 : apply_projection id o o1 n0 steps r = Ok r1 →
  apply_projection id o1 o1 n0 [] r1 = Ok r1.
Proof.
  intros H. rewrite <-(apply_projection_stages id o o1 o1 n0 steps [] r r1 H). by rewrite app_nil_r.
Qed.

(** A run on an existing file, from the checkpoint of the rows. *)
Definition at_checkpoint (m : SessionMeta) r (o n : N) : Prop :=
  match projection_row r with
  | None => o = 0%N ∧ n = default 0%N (history_base_end m)
  | Some (zo, zn) => zo = Z.of_N o ∧ zn = Z.of_N n
  end.

Definition catch_up (id : str) (f : list N) (m : SessionMeta) (o n : N) r : store_result ThreadRows :=
  let? (steps, o1) := read_projection_steps (Some f) o n (subagent_history_start_ordinal m) in
  if is_empty steps && (o =? o1)%N then Ok r
  else apply_projection id o o1 (default 0%N (history_base_end m)) steps r.

Lemma materialize_catch_up id f m r o n : read_session_meta_line f = Ok m → at_checkpoint m r o n →
  materialize id (Some f) r = catch_up id f m o n r.
Proof.
  intros Hm. unfold at_checkpoint, RolloutStore.materialize, projection_state, catch_up.
  destruct (projection_row r) as [[zo zn]|]; intros [-> ->]; [|cbn [rbind]; by rewrite Hm].
  rewrite !(proj2 (Z.ltb_ge _ _)) by lia. cbn [rbind]. rewrite Hm, !N2Z.id. done.
Qed.

Lemma materialize_Ok id f r r1 : materialize id (Some f) r = Ok r1 →
  ∃ m o n, read_session_meta_line f = Ok m ∧ at_checkpoint m r o n ∧ catch_up id f m o n r = Ok r1.
Proof.
  intros H. assert (∃ m o n, read_session_meta_line f = Ok m ∧ at_checkpoint m r o n) as (m & o & n & Hm & Hc).
  { revert H. unfold RolloutStore.materialize, projection_state, at_checkpoint. destruct (projection_row r) as [[zo zn]|].
    - destruct (Z.ltb_spec zo 0); [done|]. destruct (Z.ltb_spec zn 0); [done|]. cbn [rbind].
      destruct (read_session_meta_line f) as [m|]; [|done]. intros _. exists m, (Z.to_N zo), (Z.to_N zn). split; [done|lia].
    - cbn [rbind]. destruct (read_session_meta_line f) as [m|]; [|done]. intros _. by exists m, 0%N, (default 0%N (history_base_end m)). }
  exists m, o, n. split_and!; [done|done|]. by rewrite <-(materialize_catch_up id f m r o n Hm Hc).
Qed.

(** ** The tables of a thread *)
Definition turn_row_ok (n : Z) (t : TurnRow) : Prop :=
  (tr_rollout_ordinal t < n)%Z ∧
  ∀ k, tr_rollout_end_ordinal t = Some k → (k < n)%Z ∧ tr_status t ≠ $"inProgress".

(** The status of a turn is one that the writer knows. *)
Definition known_status (t : TurnRow) : Prop := ∃ status, tr_status t = turn_status_name status.

Record tables_ok (n : Z) r : Prop := {
  ok_turns : Forall (turn_row_ok n) (thread_turns r);
  ok_items : Forall (λ i, (ir_rollout_ordinal i < n)%Z) (thread_items r);
  ok_realtime : Forall (λ i, (rr_rollout_ordinal i < n)%Z) (thread_realtime_items r);
  ok_turns_sorted : StronglySorted Z.lt (tr_rollout_ordinal <$> thread_turns r);
  ok_items_sorted : StronglySorted Z.lt (ir_rollout_ordinal <$> thread_items r);
  ok_turn_ids : NoDup (tr_turn_id <$> thread_turns r);
  ok_statuses : Forall known_status (thread_turns r);
}.

Lemma sorted_snoc (l : list Z) x : StronglySorted Z.lt l → Forall (λ y, (y < x)%Z) l → StronglySorted Z.lt (l ++ [x]).
Proof.
  induction 1 as [|y l Hs IH Hy]; cbn; [by repeat constructor|]. intros [Hx Hl]%Forall_cons. constructor; [auto|].
  apply Forall_app. by split; [|apply Forall_singleton].
Qed.

Lemma fmap_same {A B} (f : A → B) (g : A → A) (l : list A) : (∀ x, f (g x) = f x) → f <$> (g <$> l) = f <$> l.
Proof. intros H. induction l as [|x l IH]; cbn; [done|]. by rewrite H, IH. Qed.

(** An update that keeps the ordinals, or a row at the end. *)
Lemma sorted_upsert {A} (ordinal_of : A → Z) (upd : A → A) (b : bool) row table o : (∀ x, ordinal_of (upd x) = ordinal_of x) →
  ordinal_of row = o → Forall (λ x, (ordinal_of x < o)%Z) table → StronglySorted Z.lt (ordinal_of <$> table) →
  StronglySorted Z.lt (ordinal_of <$> (if b then upd <$> table else table ++ [row])).
Proof.
  intros Hu Hr Hb Hs. destruct b.
  - by rewrite fmap_same.
  - rewrite fmap_app. cbn. apply sorted_snoc; [done|]. rewrite Hr. by apply Forall_fmap.
Qed.

Lemma tables_ok_mono n n' r : (n ≤ n')%Z → tables_ok n r → tables_ok n' r.
Proof.
  intros Hn [H1 H2 H3 H4 H5 H6 H7]. split; [| | |done..].
  - eapply Forall_impl; [exact H1|]. intros t [Ha Hb]. split; [lia|]. intros k Hk. destruct (Hb k Hk). split; [lia|done].
  - eapply Forall_impl; [exact H2|]. cbn. lia.
  - eapply Forall_impl; [exact H3|]. cbn. lia.
Qed.

(** Turns that are finished in [r] are unchanged in [r']. *)
Definition keeps_finished r r' : Prop :=
  ∀ t, t ∈ thread_turns r → is_Some (tr_rollout_end_ordinal t) → t ∈ thread_turns r'.

Lemma keeps_refl r : keeps_finished r r.
Proof. by intros t Ht _. Qed.
#[local] Hint Resolve keeps_refl : core.
Lemma keeps_trans r1 r2 r3 : keeps_finished r1 r2 → keeps_finished r2 r3 → keeps_finished r1 r3.
Proof. intros H1 H2 t Ht He. apply H2; [by apply H1|done]. Qed.

Lemma upsert_row_Ok {A} same (ordinal_of : A → Z) ordinal update row table :
  Forall (λ x, (ordinal_of x < ordinal)%Z) table →
  upsert_row same ordinal_of ordinal update row table =
    Ok (if existsb same table then (λ x, if same x then update x else x) <$> table else table ++ [row]).
Proof.
  intros Hb. unfold upsert_row. assert (existsb (λ x, (ordinal_of x =? ordinal)%Z) table = false) as ->; [|by destruct (existsb same table)].
  apply not_true_iff_false. intros (x & Hx & E)%existsb_exists. rewrite Forall_forall in Hb. apply list_elem_of_In, Hb in Hx. lia.
Qed.

Lemma status_open status : (turn_status_name status = $"inProgress") → is_terminal status = false.
Proof. by destruct status. Qed.

Lemma new_turn_row_ok c o a b : turn_row_ok (o + 1) (new_turn_row c o a b).
Proof.
  split; cbn; [lia|]. intros k Hk. destruct (is_terminal (tc_status c)) eqn:Ht; [|done]. injection Hk as <-. split; [lia|].
  intros Hs%status_open. congruence.
Qed.

Lemma update_turn_row_ok n new old : turn_row_ok n new → turn_row_ok n old → turn_row_ok n (update_turn_row new old).
Proof. intros [_ Hn] [Ho Hb]. unfold update_turn_row. by destruct (is_open old). Qed.

Lemma summarize_turn_ok items id o n t : turn_row_ok n t → turn_row_ok n (summarize_turn items id o t).
Proof. unfold summarize_turn. by destruct (_ && _). Qed.

Lemma note_item_ok id item n t : turn_row_ok n t → turn_row_ok n (note_item id item t).
Proof. unfold note_item. destruct (_ && _); [|done]. destruct item as [| |? ? [[]|]| | | | | | | | | | | | | | | |]; done. Qed.

Lemma new_turn_status c o a b : known_status (new_turn_row c o a b).
Proof. by exists (tc_status c). Qed.
Lemma update_turn_status new old : known_status new → known_status old → known_status (update_turn_row new old).
Proof. unfold update_turn_row. by destruct (is_open old). Qed.
Lemma summarize_turn_status items id o t : known_status t → known_status (summarize_turn items id o t).
Proof. unfold summarize_turn. by destruct (_ && _). Qed.
Lemma note_item_status id item t : known_status t → known_status (note_item id item t).
Proof. unfold note_item. destruct (_ && _); [|done]. by destruct item as [| |? ? [[]|]| | | | | | | | | | | | | | | |]. Qed.

(** A finished row is left alone. *)
Lemma finished_fixed items id o item n new t : turn_row_ok o t → is_Some (tr_rollout_end_ordinal t) →
  update_turn_row new t = t ∧ summarize_turn items id o t = t ∧ note_item n item t = t.
Proof.
  intros [_ Hk] [k Hend]. destruct (Hk k Hend) as [Hlt Hs].
  assert (is_open t = false) as Hopen by (unfold is_open; rewrite Hend, bool_decide_eq_true_2 by eauto; done).
  unfold update_turn_row, summarize_turn, note_item. rewrite Hopen, Hend.
  rewrite (bool_decide_eq_false_2 (Some k = Some o)) by (intros [= ->]; lia). rewrite (bool_decide_eq_false_2 _ Hs). cbn.
  by rewrite !andb_false_r.
Qed.

Lemma note_item_id id item t : tr_turn_id (note_item id item t) = tr_turn_id t.
Proof. unfold note_item. destruct (_ && _); [|done]. by destruct item as [| |? ? [[]|]| | | | | | | | | | | | | | | |]. Qed.

(** A row is added only under a new key. *)
Lemma unique_upsert {A K} (key : A → K) (same : A → bool) (upd : A → A) row table : (∀ x, key (upd x) = key x) →
  NoDup (key <$> table) → ∀ k, key row = k → (∀ x, same x = true ↔ key x = k) →
  NoDup (key <$> (if existsb same table then (λ x, if same x then upd x else x) <$> table else table ++ [row])).
Proof.
  intros Hu Hd k Hr Hs. destruct (existsb same table) eqn:He.
  - rewrite fmap_same; [done|]. intros x. by destruct (same x).
  - rewrite fmap_app. apply NoDup_app. split_and!; [done| |apply NoDup_singleton].
    intros y (x & -> & Hx)%list_elem_of_fmap Hy%list_elem_of_singleton. apply not_true_iff_false in He. apply He.
    apply existsb_exists. exists x. split; [by apply list_elem_of_In|]. apply Hs. by rewrite Hy.
Qed.

Lemma apply_turn_change_ok o a b r c : tables_ok o r →
  ∃ r', apply_turn_change o a b r c = Ok r' ∧ tables_ok (o + 1) r' ∧ thread_items r' = thread_items r ∧ keeps_finished r r'.
Proof.
  intros Ht. pose proof (tables_ok_mono o (o + 1) r ltac:(lia) Ht) as [H1 H2 H3 H4 H5 H6 H7]. destruct Ht as [H1' _ _ _ _ _ _].
  unfold apply_turn_change. rewrite upsert_row_Ok by (eapply Forall_impl; [exact H1'|]; by intros t [? _]). cbn [rbind].
  eexists. split_and!; [done| |done|].
  - split; cbn [thread_turns thread_items thread_realtime_items]; [|done|done| |done| |].
    4:{ apply Forall_fmap, (Forall_impl known_status); [|intros t; apply summarize_turn_status].
        destruct (existsb _ _); [|apply Forall_app; split; [done|by apply Forall_singleton, new_turn_status]].
        apply Forall_fmap. eapply Forall_impl; [exact H7|]. intros t Hr. cbn. destruct (is_turn _ t); [|done].
        apply update_turn_status; [apply new_turn_status|done]. }
    3:{ rewrite fmap_same by (intros t; unfold summarize_turn; by destruct (_ && _)). apply (unique_upsert tr_turn_id) with (k := tc_turn_id c); [|done|done|].
        - intros t. unfold update_turn_row. by destruct (is_open t).
        - intros t. unfold is_turn. by rewrite bool_decide_eq_true. }
    2:{ rewrite fmap_same by (intros t; unfold summarize_turn; by destruct (_ && _)).
        apply (sorted_upsert tr_rollout_ordinal (λ x, if is_turn _ x then _ else x) _ _ _ o); [|done| |done].
        - intros t. destruct (is_turn _ t); [|done]. unfold update_turn_row. by destruct (is_open t).
        - eapply Forall_impl; [exact H1'|]. by intros t [? _]. }
    apply Forall_fmap, (Forall_impl (turn_row_ok (o + 1))); [|intros t; apply summarize_turn_ok].
    destruct (existsb _ _); [|apply Forall_app; split; [done|apply Forall_singleton, new_turn_row_ok]].
    apply Forall_fmap. eapply Forall_impl; [exact H1|]. intros t Hr. cbn. destruct (is_turn _ t); [|done].
    apply update_turn_row_ok; [apply new_turn_row_ok|done].
  - intros t Hin Hend. cbn [thread_turns]. rewrite Forall_forall in H1'. pose proof (H1' t Hin) as Hrow.
    destruct (finished_fixed (thread_items r) (tc_turn_id c) o (ContextCompaction []) [] (new_turn_row c o a b) t Hrow Hend) as (E1 & E2 & _).
    apply list_elem_of_fmap. exists t. split; [done|]. destruct (existsb _ _); [|apply elem_of_app; by left].
    apply list_elem_of_fmap. exists t. split; [|done]. destruct (is_turn _ t); [by rewrite E1|done].
Qed.

Lemma apply_item_change_ok id o fb r c : is_Some (coalesce (ic_started_at_ms c) fb) →
  Forall (λ i, (ir_rollout_ordinal i < o)%Z) (thread_items r) → tables_ok (o + 1) r →
  ∃ r', apply_item_change id o fb r c = Ok r' ∧ tables_ok (o + 1) r'.
Proof.
  intros [t0 Ht0] Hi [H1 H2 H3 H4 H5 H6 H7]. unfold apply_item_change. rewrite Ht0. cbn [ok_or rbind]. rewrite upsert_row_Ok by done. cbn [rbind].
  eexists. split; [done|]. split; cbn [thread_turns thread_items thread_realtime_items].
  - apply Forall_fmap. eapply Forall_impl; [exact H1|]. intros t. apply note_item_ok.
  - destruct (existsb _ _); [|apply Forall_app; split; [done|apply Forall_singleton; cbn; lia]].
    apply Forall_fmap. eapply Forall_impl; [exact H2|]. intros i Hr. cbn. by destruct (is_item _ _ i).
  - done.
  - rewrite fmap_same; [done|]. intros t. unfold note_item. destruct (_ && _); [|done].
    by destruct (ic_item c) as [| |? ? [[]|]| | | | | | | | | | | | | | | |].
  - apply (sorted_upsert ir_rollout_ordinal (λ x, if is_item _ _ x then _ else x) _ _ _ o); [|done|done|done].
    intros i. by destruct (is_item _ _ i).
  - by rewrite fmap_same by apply note_item_id.
  - apply Forall_fmap. eapply Forall_impl; [exact H7|]. intros t. apply note_item_status.
Qed.

Lemma apply_item_keeps id o fb r c r' : apply_item_change id o fb r c = Ok r' → keeps_finished r r'.
Proof.
  unfold apply_item_change. destruct (coalesce _ _); cbn [ok_or rbind]; [|done]. destruct (upsert_row _ _ _ _ _ _); cbn [rbind]; [|done].
  intros [= <-] t Ht He. apply list_elem_of_fmap. exists t. split; [|done]. unfold note_item, is_open.
  rewrite (bool_decide_eq_true_2 _ He). cbn [negb andb]. by rewrite andb_false_r.
Qed.

Lemma insert_realtime_ok o c item r : Forall (λ i, (rr_rollout_ordinal i < o)%Z) (thread_realtime_items r) → tables_ok (o + 1) r →
  ∃ r', insert_realtime o c item r = Ok r' ∧ tables_ok (o + 1) r' ∧ keeps_finished r r'.
Proof.
  intros Hr Ht. unfold insert_realtime. destruct (existsb _ _); [by exists r|].
  assert (existsb (λ x, (rr_rollout_ordinal x =? o)%Z) (thread_realtime_items r) = false) as ->.
  { apply not_true_iff_false. intros (x & Hx & E)%existsb_exists. rewrite Forall_forall in Hr. apply list_elem_of_In, Hr in Hx. lia. }
  eexists. split_and!; [done| |by intros t Ht' _]. destruct Ht as [H1 H2 H3 H4 H5 H6 H7]. split; [done|done| |done|done|done|done].
  cbn [thread_realtime_items]. apply Forall_app. split; [done|]. apply Forall_singleton. cbn. lia.
Qed.

Lemma apply_change_set_ok id o a b fb r cs : tables_ok o r → length (changed_items cs) ≤ 1 → length (changed_turns cs) ≤ 1 →
  (∀ c, c ∈ changed_items cs → is_Some (coalesce (ic_started_at_ms c) fb)) →
  ∃ r', apply_change_set id o a b fb r cs = Ok r' ∧ tables_ok (o + 1) r' ∧ keeps_finished r r' ∧
    thread_realtime_items r' = thread_realtime_items r.
Proof.
  intros Ht Hi Htn Htime. unfold apply_change_set.
  assert (∃ r1, try_fold (apply_turn_change o a b) r (changed_turns cs) = Ok r1 ∧ tables_ok (o + 1) r1 ∧
    thread_items r1 = thread_items r ∧ keeps_finished r r1 ∧ thread_realtime_items r1 = thread_realtime_items r)
    as (r1 & -> & Hok & Hit & Hk & Hrt).
  { destruct (changed_turns cs) as [|c [|? ?]]; cbn in Htn; [|..|lia].
    - exists r. split_and!; [done|apply (tables_ok_mono o); [lia|done]|done|done|done].
    - destruct (apply_turn_change_ok o a b r c Ht) as (r1 & E & H1 & H2 & H3). exists r1. cbn. rewrite E. split_and!; try done.
      revert E. unfold apply_turn_change. destruct (upsert_row _ _ _ _ _ _); cbn; [by intros [= <-]|done]. }
  cbn [rbind]. destruct (changed_items cs) as [|c [|? ?]]; cbn in Hi; [by exists r1| |lia].
  destruct (apply_item_change_ok id o fb r1 c) as (r2 & E & H2); [apply Htime; left|rewrite Hit; apply Ht|done|].
  exists r2. cbn. rewrite E. split_and!; [done|done|by eapply keeps_trans; [|eapply apply_item_keeps]|].
  rewrite <-Hrt. revert E. unfold apply_item_change. destruct (coalesce _ _); cbn; [|done].
  destruct (upsert_row _ _ _ _ _ _); cbn; [by intros [= <-]|done].
Qed.

Lemma sqlite_integer_small v f : (Z.of_N v ≤ I64_MAX)%Z → sqlite_integer v f = Ok (Z.of_N v).
Proof. intros H. unfold sqlite_integer. by rewrite (proj2 (Z.leb_le _ _) H). Qed.

(** The writer accepts a line at the ordinal it expects. *)
Lemma apply_line_ok id n lo hi r p : tables_ok (Z.of_N n) r → pl_ordinal p = n → step_within lo hi (StepLine p) →
  (Z.of_N (n + 1) ≤ I64_MAX)%Z → (Z.of_N hi ≤ I64_MAX)%Z →
  ∃ r', apply_line id (r, Z.of_N n) p = Ok (r', Z.of_N (n + 1)) ∧ tables_ok (Z.of_N (n + 1)) r' ∧ keeps_finished r r'.
Proof.
  intros Ht Hp (Hlo & Hse & Hhi & Hc & Hrt & Hi & Htn) Hn Hh. unfold apply_line. rewrite Hp.
  rewrite !sqlite_integer_small by lia. cbn [rbind]. rewrite Z.eqb_refl. cbn [negb].
  destruct (apply_change_set_ok id (Z.of_N n) (Z.of_N (pl_start_byte_offset p)) (Z.of_N (pl_end_byte_offset p))
    (pl_fallback_created_at_ms p) r (pl_changes p) Ht Hi Htn Hc) as (r1 & -> & Hok & Hk & Hr). cbn [rbind].
  assert (checked_add_i64 (Z.of_N n) 1 = Some (Z.of_N (n + 1))) as ->.
  { unfold checked_add_i64. rewrite (proj2 (Z.leb_le _ _)) by lia. f_equal. lia. }
  replace (Z.of_N (n + 1)) with (Z.of_N n + 1)%Z by lia. destruct (pl_realtime_item p) as [item|]; cbn [rbind ok_or]; [|by exists r1].
  destruct (Hrt ltac:(by eexists)) as [t0 ->]. cbn [ok_or rbind].
  destruct (insert_realtime_ok (Z.of_N n) t0 item r1) as (r2 & -> & Hok2 & Hk2); [rewrite Hr; apply Ht|done|].
  exists r2. cbn [rbind]. split_and!; [done|done|by eapply keeps_trans].
Qed.

Lemma apply_steps_ok id n steps n' lo hi r : tables_ok (Z.of_N n) r → chain n steps n' → Forall (step_within lo hi) steps →
  (Z.of_N n' ≤ I64_MAX)%Z → (Z.of_N hi ≤ I64_MAX)%Z →
  ∃ r', apply_steps id (r, Z.of_N n) steps = Ok (r', Z.of_N n') ∧ tables_ok (Z.of_N n') r' ∧ keeps_finished r r'.
Proof.
  intros Ht Hc Hw Hn Hh. revert n r Ht Hc. induction Hw as [|step steps Hs Hw IH]; intros n r Ht Hc.
  - cbn in Hc. subst. by exists r.
  - cbn [apply_steps]. destruct step as [p|a b]; cbn [chain] in Hc.
    + destruct Hc as [Hp Hc]. pose proof (chain_le _ _ _ Hc).
      destruct (apply_line_ok id n lo hi r p Ht Hp Hs) as (r1 & E & H1 & K1); [lia|done|]. cbn [apply_step]. rewrite E. cbn [rbind].
      destruct (IH (n + 1)%N r1 H1 Hc) as (r2 & -> & H2 & K2). exists r2. split_and!; [done|done|by eapply keeps_trans].
    + destruct Hc as (-> & Hab & Hc). pose proof (chain_le _ _ _ Hc). cbn [apply_step apply_skip].
      rewrite !sqlite_integer_small by lia. cbn [rbind]. rewrite Z.eqb_refl. cbn [negb rbind].
      destruct (Z.leb_spec (Z.of_N b) (Z.of_N n)); [lia|]. cbn [rbind]. apply IH; [|done]. apply (tables_ok_mono (Z.of_N n)); [lia|done].
Qed.

(** *** Update ordinals *)
Definition item_key (i : ItemRow) : str * str := (ir_turn_id i, ir_item_id i).

(** Every line updates one item at most, so that no two items were updated last by
    the same line. Rows of writers that kept no update ordinals have zero. *)
Record updates_ok (n : Z) r : Prop := mkUpdatesOk {
  updates_bounded : Forall (λ i, 0 ≤ ir_updated_at_ordinal i < n)%Z (thread_items r);
  updates_keys : NoDup (item_key <$> thread_items r);
  updates_distinct : NoDup (ir_updated_at_ordinal <$> List.filter (λ i, (0 <? ir_updated_at_ordinal i)%Z) (thread_items r))
}.

Lemma updates_ok_mono n n' r : (n ≤ n')%Z → updates_ok n r → updates_ok n' r.
Proof. intros Hn [H1 H2 H3]. split; [|done|done]. eapply Forall_impl; [exact H1|]. cbn. lia. Qed.

Definition updated_ordinals (l : list ItemRow) : list Z := ir_updated_at_ordinal <$> List.filter (λ i, (0 <? ir_updated_at_ordinal i)%Z) l.
Lemma elem_updated_ordinals l o : o ∈ updated_ordinals l → ∃ i, i ∈ l ∧ ir_updated_at_ordinal i = o.
Proof. intros (i & -> & [Hi _]%elem_of_filterb)%list_elem_of_fmap. by exists i. Qed.

Lemma map_updates turn id row (l : list ItemRow) :
  Forall (λ i, (ir_updated_at_ordinal i < ir_updated_at_ordinal row)%Z) l → NoDup (item_key <$> l) → NoDup (updated_ordinals l) →
  NoDup (updated_ordinals ((λ i, if is_item turn id i then update_item_row row i else i) <$> l)) ∧
  ∀ o, o ∈ updated_ordinals ((λ i, if is_item turn id i then update_item_row row i else i) <$> l) →
    o ∈ updated_ordinals l ∨ o = ir_updated_at_ordinal row.
Proof.
  unfold updated_ordinals. intros Hb Hk Hd. induction l as [|i l IH]; [split; [constructor|set_solver]|].
  apply Forall_cons in Hb as [Hi Hb]. apply NoDup_cons in Hk as [Hik Hk].
  assert (NoDup (updated_ordinals l)) as Hdl.
  { unfold updated_ordinals. cbn [List.filter] in Hd. destruct (0 <? ir_updated_at_ordinal i)%Z; [|done]. by apply NoDup_cons in Hd as [_ Hd]. }
  destruct (IH Hb Hk Hdl) as [IH1 IH2]. cbn [fmap list_fmap]. destruct (is_item turn id i) eqn:Ei.
  - assert ((λ i, if is_item turn id i then update_item_row row i else i) <$> l = l) as El.
    { clear -Hik Ei. apply andb_true_iff in Ei as [E1%bool_decide_eq_true E2%bool_decide_eq_true]. induction l as [|j l IH]; [done|].
      cbn [fmap list_fmap] in *. apply not_elem_of_cons in Hik as [Hj Hl]. rewrite IH by done. f_equal. unfold is_item.
      destruct (bool_decide (ir_turn_id j = turn)) eqn:F1; [|done]. destruct (bool_decide (ir_item_id j = id)) eqn:F2; [|done]. destruct Hj.
      apply bool_decide_eq_true in F1, F2. unfold item_key. congruence. }
    rewrite El. cbn [List.filter ir_updated_at_ordinal update_item_row].
    assert (∀ o, o ∈ updated_ordinals l → o ≠ ir_updated_at_ordinal row) as Hne.
    { intros o (j & Hj & <-)%elem_updated_ordinals. rewrite Forall_forall in Hb. specialize (Hb j Hj). lia. }
    destruct (0 <? ir_updated_at_ordinal row)%Z; cbn [fmap list_fmap ir_updated_at_ordinal update_item_row]; split.
    + constructor; [|done]. intros H. by destruct (Hne _ H).
    + intros o [->|Ho]%elem_of_cons; [by right|left]. destruct (0 <? ir_updated_at_ordinal i)%Z; [by right|done].
    + done.
    + intros o Ho. left. destruct (0 <? ir_updated_at_ordinal i)%Z; [by right|done].
  - cbn [List.filter] in *. destruct (0 <? ir_updated_at_ordinal i)%Z; [|done]. cbn [fmap list_fmap] in *. apply NoDup_cons in Hd as [Hni Hd]. split.
    + constructor; [|done]. intros [?|E]%IH2; [done|lia].
    + intros o [->|Ho]%elem_of_cons; [left; left|]. apply IH2 in Ho as [?|?]; [left; by right|by right].
Qed.

Lemma apply_item_updates id o fb r c r' : (0 ≤ o)%Z → updates_ok o r → apply_item_change id o fb r c = Ok r' → updates_ok (o + 1) r'.
Proof.
  intros Ho [H1 H2 H3]. unfold apply_item_change. destruct (coalesce _ _) as [t|]; cbn [ok_or rbind]; [|done].
  unfold upsert_row. destruct (existsb (λ x, (ir_rollout_ordinal x =? o)%Z) _); cbn [rbind]; [done|].
  set (row := mkItemRow (ic_turn_id c) (item_id (ic_item c)) o o t _ _).
  assert (Forall (λ i, (ir_updated_at_ordinal i < ir_updated_at_ordinal row)%Z) (thread_items r)) as Hb by (eapply Forall_impl; [exact H1|]; cbn; lia).
  destruct (existsb (is_item _ _) (thread_items r)) eqn:E; cbn [rbind]; intros [= <-]; split; cbn [thread_items].
  - apply Forall_fmap. eapply Forall_impl; [exact H1|]. intros i Hi. cbn in *. destruct (is_item _ _ i); cbn; lia.
  - rewrite fmap_same; [done|]. intros i. by destruct (is_item _ _ i).
  - by apply map_updates.
  - apply Forall_app. split; [eapply Forall_impl; [exact H1|]; cbn; lia|]. apply Forall_singleton. cbn. lia.
  - rewrite fmap_app. apply NoDup_app. split_and!; [done| |apply NoDup_singleton].
    intros k (i & -> & Hi)%list_elem_of_fmap [= E1 E2]%list_elem_of_singleton. apply not_true_iff_false in E. apply E.
    apply existsb_exists. exists i. split; [by apply list_elem_of_In|]. unfold is_item. by rewrite !bool_decide_eq_true_2.
  - rewrite List.filter_app, fmap_app. apply NoDup_app. split_and!; [done| |cbn [List.filter]; destruct (0 <? _)%Z; cbn; repeat constructor; set_solver].
    intros k (i & Hi & <-)%elem_updated_ordinals Hk. rewrite Forall_forall in Hb. specialize (Hb i Hi).
    apply elem_updated_ordinals in Hk as (j & ->%list_elem_of_singleton & Hj). lia.
Qed.

(** Every run of projected lines keeps the update ordinals distinct. *)
Lemma apply_line_updates id n n' r r' p lo hi : (0 ≤ n)%Z → step_within lo hi (StepLine p) → updates_ok n r →
  apply_line id (r, n) p = Ok (r', n') → (0 ≤ n')%Z ∧ updates_ok n' r'.
Proof.
  intros Hn (_ & _ & _ & _ & _ & Hi & _) Hu. unfold apply_line.
  destruct (sqlite_integer (pl_ordinal p) _) as [o|]; cbn [rbind]; [|done]. destruct (Z.eqb_spec o n) as [->|]; cbn [negb]; [|done].
  destruct (sqlite_integer (pl_start_byte_offset p) _) as [a|]; cbn [rbind]; [|done].
  destruct (sqlite_integer (pl_end_byte_offset p) _) as [b|]; cbn [rbind]; [|done].
  destruct (apply_change_set _ _ _ _ _ _ _) as [r1|] eqn:Ec; cbn [rbind]; [|done].
  assert (updates_ok (n + 1) r1) as H1.
  { revert Ec. unfold apply_change_set. destruct (try_fold (apply_turn_change n a b) r _) as [r0|] eqn:E0; cbn [rbind]; [|done].
    assert (updates_ok n r0) as H0.
    { revert E0. generalize (changed_turns (pl_changes p)). intros ts. revert r Hu. induction ts as [|c ts IH]; intros r Hu; cbn [try_fold]; [by intros [= <-]|].
      destruct (apply_turn_change n a b r c) as [r2|] eqn:E2; cbn [rbind]; [|done]. apply IH. revert E2. unfold apply_turn_change.
      destruct (upsert_row _ _ _ _ _ _); cbn [rbind]; [|done]. intros [= <-]. by destruct Hu. }
    destruct (changed_items (pl_changes p)) as [|c [|? ?]]; cbn in Hi; [|..|lia]; cbn [try_fold].
    - intros [= <-]. by apply (updates_ok_mono n); [lia|].
    - destruct (apply_item_change _ _ _ _ c) as [r2|] eqn:E2; cbn [rbind]; [|done]. intros [= <-]. by eapply apply_item_updates. }
  clear Ec. destruct (match pl_realtime_item p with None => _ | Some item => _ end) as [r2|] eqn:Er; cbn [rbind]; [|done].
  assert (updates_ok (n + 1) r2) as H2.
  { revert Er. destruct (pl_realtime_item p) as [item|]; [|by intros [= <-]]. destruct (pl_fallback_created_at_ms p); cbn [ok_or rbind]; [|done].
    unfold insert_realtime. destruct (existsb _ _); [by intros [= <-]|]. destruct (existsb _ _); [done|]. intros [= <-]. by destruct H1. }
  unfold checked_add_i64. destruct (_ <=? _)%Z; cbn [ok_or rbind]; [|done]. intros [= <- <-]. split; [lia|done].
Qed.

Lemma apply_steps_updates id steps lo hi n n' r r' : (0 ≤ n)%Z → Forall (step_within lo hi) steps → updates_ok n r →
  apply_steps id (r, n) steps = Ok (r', n') → updates_ok n' r'.
Proof.
  intros Hn Hw. revert n r Hn. induction Hw as [|step steps Hs _ IH]; intros n r Hn Hu; cbn [apply_steps]; [by intros [= <- <-]|].
  destruct step as [p|a b]; cbn [apply_step].
  - destruct (apply_line id (r, n) p) as [[r1 n1]|] eqn:E; cbn [rbind]; [|done].
    destruct (apply_line_updates _ _ _ _ _ _ _ _ Hn Hs Hu E). by apply IH.
  - unfold apply_skip. destruct (sqlite_integer a _) as [x|]; cbn [rbind]; [|done]. destruct (Z.eqb_spec x n) as [->|]; cbn [negb]; [|done].
    destruct (sqlite_integer b _) as [y|]; cbn [rbind]; [|done]. destruct (Z.leb_spec y n); cbn [rbind]; [done|]. apply IH; [lia|]. by apply (updates_ok_mono n); [lia|].
Qed.

(** Each run finds the same session metadata in the file as it is then. *)
Definition reads_meta (m : SessionMeta) (f : list N) (chunks : list (list N)) : Prop :=
  ∀ k, read_session_meta_line (f ++ mjoin (take k chunks)) = Ok m.

(** The checkpoint that a run leaves. *)
Lemma apply_projection_checkpoint m id o n o1 n1 steps r r1 : at_checkpoint m r o n → chain n steps n1 →
  apply_projection id o o1 (default 0%N (history_base_end m)) steps r = Ok r1 → at_checkpoint m r1 o1 n1.
Proof.
  intros Hc Hch Ha. destruct (apply_projection_Ok _ _ _ _ _ _ _ Ha) as (r' & z & n0 & Hn0 & Ho & Hsteps & Ho1 & ->).
  unfold at_checkpoint in *. cbn [with_projection projection_row]. split; [done|].
  assert ((default (0%Z, n0) (projection_row r)).2 = Z.of_N n) as Hnn.
  { destruct (projection_row r) as [[zo zn]|]; cbn; [by destruct Hc|]. destruct Hc as [_ ->].
    by apply sqlite_integer_Ok in Hn0 as [-> _]. }
  rewrite Hnn in Hsteps. by apply (apply_steps_next _ _ _ _ _ _ _ Hch) in Hsteps.
Qed.

(** A second run after the file has grown gives what one run from the same start gives, errors included. *)
Lemma resume_is_restart id f g r r1 :
  (∀ m, read_session_meta_line f = Ok m → read_session_meta_line (f ++ g) = Ok m) → materialize id (Some f) r = Ok r1 →
  materialize id (Some (f ++ g)) r1 = materialize id (Some (f ++ g)) r.
Proof.
  intros Hmeta (m & o & n & Hm & Hc & H)%materialize_Ok. unfold catch_up in H.
  destruct (read_projection_steps (Some f) o n _) as [[steps o1]|] eqn:Hr; cbn [rbind] in H; [|done].
  destruct (is_empty steps && (o =? o1)%N) eqn:He; [by injection H as <-|].
  destruct (read_steps_state _ _ _ _ _ _ Hr) as (s & Hs & Es & Hok). pose proof (read_extend _ _ g _ _ _ _ _ Hr Hs) as Hx.
  pose proof (apply_projection_checkpoint _ _ _ _ _ _ _ _ _ Hc (read_chain _ _ _ _ _ _ Hok) H) as Hc1.
  rewrite (materialize_catch_up _ _ m r1 o1 (rs_next_ordinal s)), (materialize_catch_up _ _ m r o n) by auto.
  unfold catch_up. rewrite Hx.
  destruct (read_projection_steps (Some (f ++ g)) o1 (rs_next_ordinal s) _) as [[steps2 o2]|] eqn:Hr2; [|done].
  cbn [map_ok rbind fst snd]. rewrite (apply_projection_stages id o o1 o2 _ steps steps2 r r1 H).
  destruct (read_steps_state _ _ _ _ _ _ Hr2) as (s2 & _ & _ & Hok2). pose proof (read_offset _ _ _ _ _ _ Hok) as Eo1.
  pose proof (read_offset _ _ _ _ _ _ Hok2) as Eo2.
  assert (is_empty (steps ++ steps2) && (o =? o2)%N = false) as ->.
  { apply andb_false_iff in He as [He|Ho%N.eqb_neq]; [by destruct steps|]. apply andb_false_iff. right. apply N.eqb_neq. lia. }
  destruct (is_empty steps2 && (o1 =? o2)%N) eqn:He2; [|done].
  apply andb_true_iff in He2 as [He2 <-%N.eqb_eq]. destruct steps2; [|done]. symmetry. by eapply apply_projection_none.
Qed.

(** ** A run succeeds *)

(** The ordinal of a line, if it is read and has one, fits the integers of the
    tables with room for the next one; and so it is for each complete line of a file. *)
Definition small_line (line : list N) : Prop := ∀ v l o,
  from_slice line = Some v → decode_rollout_line v = Some l → line_ordinal l = Some o → (Z.of_N (o + 1) ≤ I64_MAX)%Z.
Definition small_file (f : list N) : Prop := Forall small_line (split_inclusive (take (complete_byte_count f) f)).

Lemma complete_lines_app a f : complete a →
  split_inclusive (take (complete_byte_count (a ++ f)) (a ++ f)) = split_inclusive a ++ split_inclusive (take (complete_byte_count f) f).
Proof. intros H. by rewrite complete_app, take_app_add, split_complete_app by done. Qed.

Lemma small_file_prefix f g : small_file (f ++ g) → small_file f.
Proof.
  unfold small_file. pose proof (complete_prefix f) as Hc. rewrite <-(take_drop (complete_byte_count f) f) at 1 2.
  rewrite <-(assoc_L app), complete_lines_app by done. intros H%Forall_app. tauto.
Qed.
Lemma small_file_after o f : complete (take o f) → small_file f →
  Forall small_line (split_inclusive (take (complete_byte_count (drop o f)) (drop o f))).
Proof. intros Hc. unfold small_file. rewrite <-(take_drop o f) at 1 2. rewrite complete_lines_app by done. intros H%Forall_app. tauto. Qed.

Lemma small_add a b : (Z.of_N (a + b) ≤ I64_MAX)%Z → checked_add_u64 a b = Some (a + b)%N.
Proof. intros H. unfold checked_add_u64, I64_MAX, U64_MAX in *. by rewrite (proj2 (N.leb_le _ _)) by lia. Qed.

Lemma project_line_succeeds sub s line ordinal e : (Z.of_N (ordinal + 1) ≤ I64_MAX)%Z →
  ∃ s', project_line sub s line ordinal e = Ok s' ∧ rs_next_ordinal s' = (ordinal + 1)%N.
Proof.
  intros Ho. unfold RolloutStore.project_line. rewrite small_add by done. cbn [ok_or rbind].
  destruct (_ && _); by eexists.
Qed.

Lemma read_line_succeeds sub s line : small_line line → (Z.of_N (rs_next_ordinal s) ≤ I64_MAX)%Z →
  (Z.of_N (rs_line_start s + N.of_nat (length line)) ≤ I64_MAX)%Z →
  ∃ s', read_line sub s line = Ok s' ∧ (Z.of_N (rs_next_ordinal s') ≤ I64_MAX)%Z.
Proof.
  intros Hsmall Hn Ho. unfold RolloutStore.read_line. rewrite small_add by done. cbn [ok_or rbind].
  destruct (forallb _ _); [by eexists|]. destruct (from_slice line) as [v|] eqn:Hv; [|by eexists].
  destruct (decode_rollout_line v) as [l|] eqn:Hl; [|by eexists]. destruct (line_ordinal l) as [o|] eqn:Hord; [|by eexists].
  destruct (o <? rs_next_ordinal s)%N; [by eexists|]. pose proof (Hsmall _ _ _ Hv Hl Hord) as Hso.
  destruct (project_line_succeeds sub s l o (rs_line_start s + N.of_nat (length line)) Hso) as (s' & Hs' & E).
  exists s'. split; [done|]. by rewrite E.
Qed.

Lemma read_lines_succeeds sub s lines : Forall small_line lines → (Z.of_N (rs_next_ordinal s) ≤ I64_MAX)%Z →
  (Z.of_N (rs_line_start s + N.of_nat (length (mjoin lines))) ≤ I64_MAX)%Z →
  ∃ s', read_lines sub s lines = Ok s' ∧ (Z.of_N (rs_next_ordinal s') ≤ I64_MAX)%Z.
Proof.
  intros Hsmall. revert s. induction Hsmall as [|line lines Hsmall _ IH]; intros s Hn Ho; cbn [RolloutStore.read_lines]; [by eexists|].
  change (mjoin (line :: lines)) with (line ++ mjoin lines) in Ho. rewrite length_app in Ho.
  destruct (read_line_succeeds sub s line Hsmall Hn) as (s1 & H1 & Hn1); [lia|]. rewrite H1. cbn [rbind].
  apply read_line_extends in H1 as (Hl & _). apply IH; [done|]. rewrite Hl. lia.
Qed.

(** Rows that describe a prefix of complete lines of the file. *)
Definition store_ok (f : list N) (m : SessionMeta) r : Prop :=
  ∃ o n, at_checkpoint m r o n ∧ (o ≤ N.of_nat (length f))%N ∧ complete (take (N.to_nat o) f) ∧
    (Z.of_N n ≤ I64_MAX)%Z ∧ tables_ok (Z.of_N n) r ∧ updates_ok (Z.of_N n) r.

Lemma store_ok_grows f g m r : store_ok f m r → store_ok (f ++ g) m r.
Proof.
  intros (o & n & Hc & Ho & Hco & Hn & Ht). exists o, n. rewrite length_app. split_and!; [done|lia| |done|apply Ht|apply Ht].
  by rewrite take_app_le by lia.
Qed.

Lemma store_ok_start f m : (Z.of_N (default 0%N (history_base_end m)) ≤ I64_MAX)%Z → store_ok f m no_rows.
Proof. intros Hb. exists 0%N, (default 0%N (history_base_end m)). split_and!; [done|lia|done|done|..]; split; constructor. Qed.

(** The byte up to which a checkpoint has read. *)
Definition checkpoint_offset r : N := match projection_row r with Some (o, _) => Z.to_N o | None => 0%N end.

Lemma materialize_succeeds id f m r : small_file f → read_session_meta_line f = Ok m → store_ok f m r →
  (Z.of_N (default 0%N (history_base_end m)) ≤ I64_MAX)%Z → (Z.of_nat (length f) ≤ I64_MAX)%Z →
  ∃ r', materialize id (Some f) r = Ok r' ∧ store_ok f m r' ∧ keeps_finished r r' ∧
    checkpoint_offset r' = N.of_nat (complete_byte_count f).
Proof.
  intros Hsmall Hm (o & n & Hc & Ho & Hco & Hn & Ht & Hu) Hb Hlen. rewrite (materialize_catch_up id f m r o n Hm Hc).
  set (bytes := drop (N.to_nat o) f). pose proof (complete_le bytes) as Hle. unfold bytes in Hle. rewrite length_drop in Hle. fold bytes in Hle.
  destruct (read_lines_succeeds (subagent_history_start_ordinal m) (mkRead [] n o o)
    (split_inclusive (take (complete_byte_count bytes) bytes)) (small_file_after _ _ Hco Hsmall) Hn) as (s & Hs & Hns).
  { cbn. rewrite split_join, length_take_le by apply complete_le. lia. }
  assert (read_projection_steps (Some f) o n (subagent_history_start_ordinal m) = Ok (rs_projections s, rs_next_offset s)) as Hr.
  { unfold RolloutStore.read_projection_steps. rewrite (proj2 (N.ltb_ge _ _)) by lia. fold bytes. rewrite Hs. done. }
  destruct (read_steps_state _ _ _ _ _ _ Hr) as (s' & Hs' & _ & [_ Hoff Hch Hw]). fold bytes in Hs', Hoff.
  assert (s' = s) as -> by congruence. clear Hs'.
  assert (complete_byte_count f = N.to_nat o + complete_byte_count bytes) as Ecb.
  { rewrite <-(take_drop (N.to_nat o) f) at 1. rewrite complete_app by done. rewrite length_take_le by lia. done. }
  assert (∀ r1 n1, at_checkpoint m r1 (rs_next_offset s) n1 → checkpoint_offset r1 = N.of_nat (complete_byte_count f)) as Hcp.
  { intros r1 n1. unfold at_checkpoint, checkpoint_offset. destruct (projection_row r1) as [[zo zn]|]; intros [? _]; lia. }
  unfold catch_up. rewrite Hr. cbn [rbind]. destruct (is_empty _ && _) eqn:He.
  - exists r. apply andb_true_iff in He as [_ He%N.eqb_eq]. split_and!; [done|by exists o, n|done|apply (Hcp r n); by rewrite <-He].
  - destruct (apply_steps_ok id n _ _ o (rs_next_offset s) r Ht Hch Hw Hns) as (r1 & Ha & Ht1 & Hk); [lia|].
    assert (apply_projection id o (rs_next_offset s) (default 0%N (history_base_end m)) (rs_projections s) r =
      Ok (with_projection r1 (Some (Z.of_N (rs_next_offset s), Z.of_N (rs_next_ordinal s))))) as Hap.
    { unfold apply_projection. rewrite !sqlite_integer_small by lia. cbn [rbind].
      assert (default (0%Z, Z.of_N (default 0%N (history_base_end m))) (projection_row r) = (Z.of_N o, Z.of_N n)) as ->
        by (unfold at_checkpoint in Hc; destruct (projection_row r) as [[zo zn]|]; by destruct Hc as [-> ->]).
      rewrite Z.eqb_refl. cbn [negb]. by rewrite Ha. }
    rewrite Hap. pose proof (apply_projection_checkpoint _ _ _ _ _ _ _ _ _ Hc Hch Hap) as Hc1. eexists. split_and!; [done| |exact Hk|by eapply Hcp].
    exists (rs_next_offset s), (rs_next_ordinal s).
    assert (updates_ok (Z.of_N (rs_next_ordinal s)) r1) as Hu1 by (eapply (apply_steps_updates id _ _ _ (Z.of_N n)); [lia|exact Hw|exact Hu|exact Ha]).
    split_and!; [done|lia| |done|by destruct Ht1|by destruct Hu1].
    replace (N.to_nat (rs_next_offset s)) with (complete_byte_count f) by lia. apply complete_prefix.
Qed.

(** ** The claims *)

(** Runs between appends to the file. *)
Definition catch_ups (id : str) (f : list N) (chunks : list (list N)) : list N * store_result ThreadRows :=
  foldl (λ '(f, r) chunk, (f ++ chunk, let? r := r in materialize id (Some (f ++ chunk)) r))
    (f, materialize id (Some f) no_rows) chunks.

Lemma reads_meta_prefix m f chunks later : reads_meta m f (chunks ++ later) → reads_meta m f chunks.
Proof. intros H k. specialize (H (min k (length chunks))). rewrite take_app_le in H by lia. by rewrite <-take_take, (take_ge chunks) in H by lia. Qed.
Lemma reads_meta_all m f chunks : reads_meta m f chunks → read_session_meta_line (f ++ mjoin chunks) = Ok m.
Proof. intros H. specialize (H (length chunks)). by rewrite take_ge in H by lia. Qed.

Lemma catch_ups_spec id f chunks m : reads_meta m f chunks → small_file (f ++ mjoin chunks) →
  (Z.of_N (default 0%N (history_base_end m)) ≤ I64_MAX)%Z → (Z.of_nat (length (f ++ mjoin chunks)) ≤ I64_MAX)%Z →
  ∃ r, catch_ups id f chunks = (f ++ mjoin chunks, Ok r) ∧ materialize id (Some (f ++ mjoin chunks)) no_rows = Ok r ∧
    store_ok (f ++ mjoin chunks) m r ∧ checkpoint_offset r = N.of_nat (complete_byte_count (f ++ mjoin chunks)).
Proof.
  intros Hmeta Hsmall Hb. revert Hmeta Hsmall. unfold catch_ups. induction chunks as [|chunk chunks IH] using rev_ind; intros Hmeta Hsmall Hlen.
  - cbn [foldl]. apply reads_meta_all in Hmeta. change (mjoin []) with (@nil N) in *. rewrite app_nil_r in *.
    destruct (materialize_succeeds id f m no_rows Hsmall Hmeta) as (r & H1 & H2 & _ & H3);
      [by apply store_ok_start|done|done|]. exists r. by rewrite H1.
  - pose proof (reads_meta_all _ _ _ Hmeta) as Hm. pose proof (reads_meta_prefix _ _ _ _ Hmeta) as Hmeta'. pose proof (reads_meta_all _ _ _ Hmeta') as Hm'.
    rewrite foldl_app, join_app in *. change (mjoin [chunk]) with (chunk ++ []) in *. rewrite app_nil_r, app_assoc in *.
    rewrite length_app in Hlen. destruct IH as (r & E & H1 & H2 & _); [done|by apply small_file_prefix in Hsmall|lia|]. rewrite E. cbn [foldl rbind].
    destruct (materialize_succeeds id ((f ++ mjoin chunks) ++ chunk) m r Hsmall Hm) as (r' & H1' & H2' & _ & H3');
      [by apply store_ok_grows|done|rewrite length_app; lia|].
    exists r'. rewrite H1'. split_and!; [done| |done|done]. rewrite <-(resume_is_restart id _ chunk no_rows r); [done| |done]. by rewrite Hm'; intros ? [= <-].
Qed.

(** C8: However a rollout grows, in whatever pieces (a piece may end inside a
    line) and with a run of the projection after each, broken and repeated lines
    included: if every run finds the same session metadata, and the ordinals of the
    file's complete lines and its length fit the integers of the tables, every run
    succeeds, the tables end up as one run over the final file leaves them, and the
    checkpoint is the end of the last complete line. *)
Theorem staged_projection_is_one_projection (id : str) (f : list N) (chunks : list (list N)) (m : SessionMeta) :
  reads_meta m f chunks → small_file (f ++ mjoin chunks) →
  (Z.of_N (default 0%N (history_base_end m)) ≤ I64_MAX)%Z → (Z.of_nat (length (f ++ mjoin chunks)) ≤ I64_MAX)%Z →
  ∃ r, (catch_ups id f chunks).2 = Ok r ∧ materialize id (Some (f ++ mjoin chunks)) no_rows = Ok r ∧
    checkpoint_offset r = N.of_nat (complete_byte_count (f ++ mjoin chunks)).
Proof.
  intros Hmeta Hsmall Hb Hl. destruct (catch_ups_spec id f chunks m Hmeta Hsmall Hb Hl) as (r & E & H1 & _ & H3).
  exists r. by rewrite E.
Qed.

(** C11: A turn that a run has recorded as completed, interrupted or failed keeps
    its row, summary columns included, whatever later lines of the file say; and
    the rows of turns and items stay in the strict order of their ordinals, and no
    two items share a positive ordinal of their last update. This is
    for files whose session metadata is the same at every run and whose ordinals and
    length fit the integers of the tables. *)
Theorem finished_turns_are_final (id : str) (f : list N) (chunks later : list (list N)) (m : SessionMeta) (r r' : ThreadRows) :
  reads_meta m f (chunks ++ later) → small_file (f ++ mjoin (chunks ++ later)) →
  (Z.of_N (default 0%N (history_base_end m)) ≤ I64_MAX)%Z → (Z.of_nat (length (f ++ mjoin (chunks ++ later))) ≤ I64_MAX)%Z →
  (catch_ups id f chunks).2 = Ok r → (catch_ups id f (chunks ++ later)).2 = Ok r' →
  (∀ t, t ∈ thread_turns r → is_Some (tr_rollout_end_ordinal t) → t ∈ thread_turns r') ∧
  StronglySorted Z.lt (tr_rollout_ordinal <$> thread_turns r') ∧ StronglySorted Z.lt (ir_rollout_ordinal <$> thread_items r') ∧
  NoDup (ir_updated_at_ordinal <$> List.filter (λ i, (0 <? ir_updated_at_ordinal i)%Z) (thread_items r')).
Proof.
  intros Hmeta Hsmall Hb Hl Hr Hr'. destruct (catch_ups_spec id f _ m Hmeta Hsmall Hb Hl) as (x & E' & _ & (o & n & _ & _ & _ & _ & Hok & Hu) & _).
  rewrite E' in Hr'. injection Hr' as ->. split; [|split_and!; [apply Hok..|apply Hu]]. clear Hok Hu o n. revert r' E' Hl Hmeta Hsmall.
  induction later as [|chunk later IH] using rev_ind; intros r' E' Hl Hmeta Hsmall.
  - rewrite app_nil_r in E'. rewrite E' in Hr. by injection Hr as ->.
  - rewrite app_assoc in *. pose proof (reads_meta_all _ _ _ Hmeta) as Hm. pose proof (reads_meta_prefix _ _ _ _ Hmeta) as Hmeta'.
    rewrite (join_app (chunks ++ later) [chunk]) in E', Hl, Hsmall, Hm. change (mjoin [chunk]) with (chunk ++ []) in *.
    rewrite app_nil_r, app_assoc in E', Hl, Hsmall, Hm. rewrite length_app in Hl.
    pose proof (small_file_prefix _ _ Hsmall) as Hsmall'.
    destruct (catch_ups_spec id f (chunks ++ later) m Hmeta' Hsmall' Hb) as (r1 & E1 & _ & H2 & _); [lia|].
    destruct (materialize_succeeds id ((f ++ mjoin (chunks ++ later)) ++ chunk) m r1 Hsmall Hm) as (r2 & H2' & _ & Hk & _);
      [by apply store_ok_grows|done|rewrite length_app; lia|].
    unfold catch_ups in E', E1. rewrite foldl_app, E1 in E'. cbn [foldl rbind] in E'. rewrite H2' in E'. injection E' as ->.
    intros t Ht He. apply Hk; [|done]. apply IH; [exact E1|lia|done|done|done|done].
Qed.
End store_spec.

(** ** A concrete rollout *)
Module Examples.
#[local] Instance demo_wire : Wire := {|
  Json := unit; json_null := tt; TextElement := unit; ImageDetail := unit; MemoryCitation := unit;
  AgentMessageDelivery := unit; AsyncUserInputQuestion := unit; FunctionCallOutputBody := unit; ReasoningEffort := unit;
  SubAgentActivityKind := unit; WebSearchAction := unit; CommandExecutionSource := unit; source_agent := tt;
  ImageGenerationFailure := unit; MisalignmentErrorDetails := unit; ReviewFinding := unit; SleepItem := str;
  sleep_id := id; ContentItem := str; CallToolResult := unit; call_tool_is_error := λ _, None; input_text := Some;
  from_xml_str := λ s, Some (s, s); redact_secrets := id; shlex_join := mjoin; uri_join := λ a b, Some (a ++ b);
  abs_join := λ a b, a ++ b; format_review_findings_block := λ _, []; uuid_now_v7 := λ n, $"uuid-" ++ fmt_nat n;
  ItemPayload := str |}.

(** A line is a letter for its kind and a digit for its ordinal. *)
Definition demo_parse (bytes : list N) : option (N * N) := match bytes with k :: o :: _ => Some (k, o) | _ => None end.
Definition demo_event (k : N) (o : N) : option EventMsg :=
  if (k =? 115)%N then Some (EvTurnStarted ($"t") None)
  else if (k =? 99)%N then Some (EvTurnComplete ($"t") None None (Some 9%Z) None)
  else if (k =? 105)%N then Some (EvItemCompleted ($"t") (mkTurnItem KUserMessage [o]) None 0%Z)
  else None.
Definition demo_decode (v : N * N) : option RolloutLine :=
  (λ e, mkLine [] (Some (N.min (v.2 - 48) 9)) (RolloutEvent e)) <$> demo_event v.1 v.2.
Definition demo_item (i : TurnItem) : ThreadItem := UserMessage (turn_item_payload i) None [].
Definition demo_time (_ : str) : option Z := Some 7%Z.
Definition demo_meta (_ : list N) : store_result SessionMeta := Ok (mkMeta None None).

Definition line (s : str) : list N := s ++ [LF].
Definition piece1 : list N := line ($"s0") ++ $"i".
Definition piece2 : list N := line ($"1") ++ line ($"{") ++ line ($"i4") ++ line ($"c5").
Definition piece3 : list N := line ($"s5") ++ line ($"i6") ++ $"c7".

Lemma demo_reads_meta f chunks : reads_meta demo_meta (mkMeta None None) f chunks.
Proof. by intros k. Qed.
Lemma demo_small f : small_file demo_parse demo_decode f.
Proof.
  apply Forall_forall. intros line _ v l o _ Hd Ho. unfold demo_decode in Hd. destruct (demo_event v.1 v.2); [|done].
  injection Hd as <-. injection Ho as <-. unfold I64_MAX. lia.
Qed.

Definition demo_runs := catch_ups demo_item demo_parse demo_decode demo_time [] demo_meta ($"thread") piece1.

Definition items_shown (r : store_result ThreadRows) : nat := match r with Ok r => length (thread_items r) | Err _ => 0 end.
Definition turn_ends (r : store_result ThreadRows) : list (option Z) :=
  match r with Ok r => tr_rollout_end_ordinal <$> thread_turns r | Err _ => [] end.
Definition succeeds (r : store_result ThreadRows) : bool := match r with Ok _ => true | Err _ => false end.

Lemma staged_projection_is_one_projection_witness :
  ∃ r, (demo_runs [piece2; piece3]).2 = Ok r ∧
    materialize demo_item demo_parse demo_decode demo_time [] demo_meta ($"thread") (Some (piece1 ++ piece2 ++ piece3)) no_rows = Ok r ∧
    checkpoint_offset r = 20%N ∧ length (thread_items r) = 3.
Proof.
  destruct (staged_projection_is_one_projection demo_item demo_parse demo_decode demo_time [] demo_meta ($"thread") piece1
    [piece2; piece3] (mkMeta None None) (demo_reads_meta _ _) (demo_small _)) as (r & H1 & H2 & H3); [by vm_compute|by vm_compute|].
  exists r. split_and!; [exact H1| |by rewrite H3|].
  - revert H2. by change (mjoin [piece2; piece3]) with (piece2 ++ piece3 ++ []); rewrite app_nil_r.
  - assert (items_shown (demo_runs [piece2; piece3]).2 = 3) as H by (vm_compute; reflexivity).
    unfold demo_runs in H. by rewrite H1 in H.
Defined.

Lemma finished_turns_are_final_witness :
  ∃ r r', (demo_runs [piece2]).2 = Ok r ∧ (demo_runs ([piece2] ++ [piece3])).2 = Ok r' ∧
    (∀ t, t ∈ thread_turns r → is_Some (tr_rollout_end_ordinal t) → t ∈ thread_turns r') ∧
    (tr_rollout_end_ordinal <$> thread_turns r) = [Some 5%Z] ∧ StronglySorted Z.lt (ir_rollout_ordinal <$> thread_items r').
Proof.
  assert (succeeds (demo_runs [piece2]).2 = true) as S1 by (vm_compute; reflexivity).
  assert (succeeds (demo_runs ([piece2] ++ [piece3])).2 = true) as S2 by (vm_compute; reflexivity).
  destruct (demo_runs [piece2]).2 as [r|] eqn:Hr; [|discriminate S1].
  destruct (demo_runs ([piece2] ++ [piece3])).2 as [r'|] eqn:Hr'; [|discriminate S2]. clear S1 S2.
  destruct (finished_turns_are_final demo_item demo_parse demo_decode demo_time [] demo_meta ($"thread") piece1
    [piece2] [piece3] (mkMeta None None) r r' (demo_reads_meta _ _) (demo_small _)) as (H1 & _ & H3 & _);
    [by vm_compute|by vm_compute|exact Hr|exact Hr'|].
  exists r, r'. split_and!; [done|done|exact H1| |exact H3]. 
  assert (turn_ends (demo_runs [piece2]).2 = [Some 5%Z]) as H by (vm_compute; reflexivity).
  by rewrite Hr in H.
Defined.
End Examples.
