(* ===== verification/HistoryPaging.v ===== *)
(** * Reading a thread's history in pages:
    [thread-store/src/local/rollout_lineage.rs] and
    [thread-store/src/local/thread_history/{read,segment_paging,turn_lookup}.rs]

    A forked thread reads ranges of several rollouts, oldest first: its lineage.
    A page walks the segments of the lineage from a cursor, collecting one row
    more than asked for to know whether there is a next page. *)

From stdpp Require Import prelude list gmap strings sorting pretty.
From S2P Require Import Prelude ThreadItems ThreadHistory RolloutStore.

(** ** Lineage *)
Record HistoryPosition := mkPosition {
  hp_thread_id : str;
  hp_end_ordinal_exclusive : N;
  hp_end_byte_offset : N;
}.

Record RolloutLineageSegment := mkSegment {
  rollout_id : str;
  start_ordinal : N;
  seg_end : option HistoryPosition;
}.
Implicit Types seg : RolloutLineageSegment.

Definition end_ordinal seg : option N := hp_end_ordinal_exclusive <$> seg_end seg.

(** What the first line of a rollout states, and how long the file is. *)
Record RolloutInfo := mkInfo {
  ri_thread_id : str;
  ri_paginated : bool;
  ri_history_base : option HistoryPosition;
  ri_length : N;
}.

Definition malformed_lineage (thread_id detail : str) : ThreadStoreError :=
  InvalidRequest ($"invalid paginated history lineage for " ++ thread_id ++ $": " ++ detail).

Definition validate_cutoff_bounds (requested : str) (info : RolloutInfo) (end_ : HistoryPosition) : store_result unit :=
  if (hp_end_ordinal_exclusive end_ =? 0)%N then
    Err (malformed_lineage requested ($"cutoff cannot include source session metadata"))
  else if (ri_length info <? hp_end_byte_offset end_)%N then
    Err (malformed_lineage requested ($"cutoff byte offset is past the source rollout"))
  else Ok tt.

(** One round of the loop: the segment of a rollout and the base it points to. *)
Definition lineage_segment (requested : str) (first : bool) (id : str) (info : RolloutInfo) (end_ : option HistoryPosition)
    : store_result RolloutLineageSegment :=
  if first && negb (bool_decide (ri_thread_id info = requested)) then
    Err (malformed_lineage requested ($"source rollout belongs to another thread"))
  else if negb (ri_paginated info) then Err (malformed_lineage requested ($"source rollout is not paginated"))
  else
    let? _ := match end_ with Some e => validate_cutoff_bounds requested info e | None => Ok tt end in
    let? start := match ri_history_base info with
                  | Some base => ok_or (malformed_lineage requested ($"source ordinal overflow"))
                                   (checked_add_u64 (hp_end_ordinal_exclusive base) 1)
                  | None => Ok 1%N
                  end in
    Ok (mkSegment id start end_).

Section lineage.
(** The rollouts that exist, and the rollout of a thread. *)
Context (rollouts : gmap str RolloutInfo) (current_rollout : str → option str).

(** The loop follows the pointers to older rollouts; the segments come newest
    first. It runs out of fuel, returning nothing, only if there is too little. *)
Fixpoint lineage_loop (fuel : nat) (requested : str) (seen : gset str) (first : bool) (id : str) (end_ : option HistoryPosition)
    : option (store_result (list RolloutLineageSegment)) :=
  match fuel with
  | 0 => None
  | S fuel =>
      match rollouts !! id with
      | None => Some (Err (malformed_lineage (if first then requested else id) ($"missing source rollout")))
      | Some info =>
          if bool_decide (id ∈ seen) then Some (Err (malformed_lineage requested ($"cycle detected")))
          else match lineage_segment requested first id info end_ with
               | Err e => Some (Err e)
               | Ok segment =>
                   match ri_history_base info with
                   | None => Some (Ok [segment])
                   | Some base =>
                       match lineage_loop fuel requested ({[id]} ∪ seen) false (hp_thread_id base) (Some base) with
                       | Some (Ok segments) => Some (Ok (segment :: segments))
                       | o => o
                       end
                   end
               end
      end
  end.

Definition resolve_rollout_lineage (requested : str) : option (store_result (list RolloutLineageSegment)) :=
  match current_rollout requested with
  | None => Some (Err (malformed_lineage requested ($"missing source rollout")))
  | Some id =>
      match lineage_loop (S (S (size rollouts))) requested ∅ true id None with
      | Some (Ok segments) => Some (Ok (reverse segments))
      | o => o
      end
  end.
End lineage.

Definition in_segment (ordinal : N) seg : bool :=
  (start_ordinal seg <=? ordinal)%N && match end_ordinal seg with Some e => (ordinal <? e)%N | None => true end.

(** [segments.iter().position(..)] *)
Fixpoint segment_index_for_ordinal (ordinal : N) (segments : list RolloutLineageSegment) : option nat :=
  match segments with
  | [] => None
  | seg :: segments => if in_segment ordinal seg then Some 0 else S <$> segment_index_for_ordinal ordinal segments
  end.

Definition truncate_at (info : RolloutInfo) (segments : list RolloutLineageSegment) (end_ : HistoryPosition)
    : store_result (list RolloutLineageSegment) :=
  match list_find (λ seg, rollout_id seg = hp_thread_id end_) segments with
  | None => Err (Internal ($"fork position is outside the source lineage"))
  | Some (i, seg) =>
      let? _ := validate_cutoff_bounds (hp_thread_id end_) info end_ in
      Ok (take i segments ++ [mkSegment (rollout_id seg) (start_ordinal seg) (Some end_)])
  end.

(** ** Cursors *)
Inductive SortDirection : Type := Asc | Desc.
Inductive CursorScope : Type := ScopeTurns | ItemsByCreatedAtOrdinal | ItemsByUpdatedAtOrdinal.
#[global] Instance CursorScope_eq_dec : EqDecision CursorScope.
Proof. solve_decision. Defined.

Record HistoryCursor := mkCursor {
  requested_thread_id : str;
  cursor_ordinal : N;
  include_anchor : bool;
  cursor_scope : CursorScope;
}.

Definition invalid_cursor (cursor : str) : ThreadStoreError := InvalidRequest ($"invalid cursor: " ++ cursor).

Definition sqlite_ordinal (value : N) : store_result Z :=
  if (Z.of_N value <=? I64_MAX)%Z then Ok (Z.of_N value)
  else Err (InvalidRequest ($"rollout ordinal exceeds SQLite integer range")).

Definition page_size_too_large : ThreadStoreError := InvalidRequest ($"page size is too large").

Definition validate_page_size (page_size : N) : store_result unit :=
  if (page_size =? 0)%N then Err (InvalidRequest ($"page size must be positive"))
  else let? limit := ok_or page_size_too_large (checked_add_u64 page_size 1) in
       if (Z.of_N limit <=? I64_MAX)%Z then Ok tt else Err page_size_too_large.

Definition remaining_limit (page_size row_count : N) : store_result N :=
  match checked_add_u64 page_size 1 with
  | None => Err page_size_too_large
  | Some limit =>
      if (limit <? row_count)%N then Err page_size_too_large
      else if (Z.of_N (limit - row_count) <=? I64_MAX)%Z then Ok (limit - row_count)%N else Err page_size_too_large
  end.

(** The operator of the cursor clause. *)
Definition beyond (dir : SortDirection) (anchor : bool) (ordinal position : Z) : bool :=
  match dir, anchor with
  | Asc, true => (ordinal <=? position)%Z
  | Asc, false => (ordinal <? position)%Z
  | Desc, true => (position <=? ordinal)%Z
  | Desc, false => (position <? ordinal)%Z
  end.

Record SegmentPage (T : Type) := mkPage {
  rows : list T;
  next_cursor : option str;
  backwards_cursor : option str;
}.
Arguments mkPage {T}.
Arguments rows {T}.
Arguments next_cursor {T}.
Arguments backwards_cursor {T}.

Section paging.
(** The text of a cursor is JSON. *)
Context (cursor_to_string : HistoryCursor → str) (cursor_from_str : str → option HistoryCursor).

Definition parse_cursor (cursor : option str) (thread_id : str) (scope : CursorScope) : store_result (option HistoryCursor) :=
  match cursor with
  | None => Ok None
  | Some text =>
      match cursor_from_str text with
      | None => Err (invalid_cursor text)
      | Some c =>
          if negb (bool_decide (requested_thread_id c = thread_id)) || negb (bool_decide (cursor_scope c = scope))
          then Err (invalid_cursor text) else Ok (Some c)
      end
  end.

Definition serialize_cursor (thread_id : str) (scope : CursorScope) (ordinal : Z) (anchor : bool) : store_result str :=
  if (ordinal <? 0)%Z then Err (invalid_cursor ($"negative rollout ordinal"))
  else Ok (cursor_to_string (mkCursor thread_id (Z.to_N ordinal) anchor scope)).

(** ** Pages *)
Context {T : Type} (position : T → Z).
(** Whether the columns of a row can be read back. *)
Context (stored : T → store_result unit).

(** [ORDER BY rollout_ordinal]; ordinals are unique in a table. *)
Definition precedes (dir : SortDirection) (a b : T) : Prop :=
  match dir with Asc => (position a ≤ position b)%Z | Desc => (position b ≤ position a)%Z end.
#[global] Instance precedes_dec dir a b : Decision (precedes dir a b).
Proof. destruct dir; cbn; apply _. Defined.

Definition order_by (dir : SortDirection) (xs : list T) : list T := merge_sort (precedes dir) xs.

Definition segments_from_cursor (segments : list RolloutLineageSegment) (dir : SortDirection) (cursor : option HistoryCursor)
    : store_result (list (nat * RolloutLineageSegment * option HistoryCursor)) :=
  let? cursor_index := match cursor with
                       | None => Ok None
                       | Some c => match segment_index_for_ordinal (cursor_ordinal c) segments with
                                   | Some i => Ok (Some i)
                                   | None => Err (invalid_cursor ($"position outside thread lineage"))
                                   end
                       end in
  let indexes := match dir with
                 | Asc => seq (default 0 cursor_index) (length segments - default 0 cursor_index)
                 | Desc => reverse (seq 0 (S (default (length segments - 1) cursor_index)))
                 end in
  Ok (omap (λ i, (λ seg, (i, seg, if bool_decide (Some i = cursor_index) then cursor else None)) <$> segments !! i) indexes).

(** [push_segment_range] *)
Definition segment_range seg : store_result (Z → bool) :=
  let? start := sqlite_ordinal (start_ordinal seg) in
  match end_ordinal seg with
  | None => Ok (λ p, (start <=? p)%Z)
  | Some e => let? e := sqlite_ordinal e in Ok (λ p, (start <=? p)%Z && (p <? e)%Z)
  end.

(** [push_cursor_clause] *)
Definition cursor_clause (dir : SortDirection) (cursor : option HistoryCursor) : store_result (Z → bool) :=
  match cursor with
  | None => Ok (λ _, true)
  | Some c => let? o := sqlite_ordinal (cursor_ordinal c) in Ok (beyond dir (include_anchor c) o)
  end.

Fixpoint check_rows (xs : list T) : store_result unit :=
  match xs with
  | [] => Ok tt
  | x :: xs => let? _ := stored x in check_rows xs
  end.

(** The rows of a segment: those of its rollout in its range, past the cursor, in order, up to a limit. *)
Definition query_segment (fetch : nat → RolloutLineageSegment → store_result (list T)) (dir : SortDirection) (i : nat) seg
    (cursor : option HistoryCursor) (limit : N) : store_result (list T) :=
  let? range := segment_range seg in
  let? candidates := fetch i seg in
  let? clause := cursor_clause dir cursor in
  let found := take (N.to_nat limit)
                 (order_by dir (List.filter (λ x, range (position x) && clause (position x)) candidates)) in
  let? _ := check_rows found in Ok found.

Fixpoint collect (fetch : nat → RolloutLineageSegment → store_result (list T)) (dir : SortDirection) (page_size : N)
    (acc : list T) (segments : list (nat * RolloutLineageSegment * option HistoryCursor)) : store_result (list T) :=
  match segments with
  | [] => Ok acc
  | (i, seg, cursor) :: segments =>
      let? remaining := remaining_limit page_size (N.of_nat (length acc)) in
      if (remaining =? 0)%N then Ok acc
      else let? found := query_segment fetch dir i seg cursor remaining in
           collect fetch dir page_size (acc ++ found) segments
  end.

(** [opt.map(f).transpose()] *)
Definition transpose {A B} (f : A → store_result B) (o : option A) : store_result (option B) :=
  match o with None => Ok None | Some a => let? b := f a in Ok (Some b) end.

Definition finish_page (thread_id : str) (scope : CursorScope) (found : list T) (page_size : N) : store_result (SegmentPage T) :=
  let has_more := (page_size <? N.of_nat (length found))%N in
  let found := take (N.to_nat page_size) found in
  let? backwards := transpose (λ row, serialize_cursor thread_id scope (position row) true) (head found) in
  let? next := if has_more then transpose (λ row, serialize_cursor thread_id scope (position row) false) (last found)
               else Ok None in
  Ok (mkPage found next backwards).

(** The loop shared by the listings of turns and items. *)
Definition page_rows (fetch : nat → RolloutLineageSegment → store_result (list T)) (thread_id : str) (scope : CursorScope)
    (segments : list RolloutLineageSegment) (cursor : option str) (page_size : N) (dir : SortDirection) : store_result (SegmentPage T) :=
  let? cursor := parse_cursor cursor thread_id scope in
  let? walk := segments_from_cursor segments dir cursor in
  let? found := collect fetch dir page_size [] walk in
  finish_page thread_id scope found page_size.
End paging.

(** ** Listings *)
Section listings.
Context {W : Wire}.
Context (cursor_to_string : HistoryCursor → str) (cursor_from_str : str → option HistoryCursor).
Implicit Types (db : gmap str ThreadRows) (segments : list RolloutLineageSegment).

(** What the state database holds of a thread, as far as reading asks for it. *)
Record ThreadAccess := mkAccess { ta_archived : bool; ta_paginated : bool }.

(** Without a state database nothing can be listed; an error of reading it is [Err]. *)
Definition validate_thread_for_paginated_reads (state_db : option (str → result str (option ThreadAccess))) (thread_id : str)
    (include_archived : bool) (operation : str) : store_result unit :=
  match state_db with
  | None => Err (Unsupported operation)
  | Some get_thread =>
      match get_thread thread_id with
      | Err e => Err (Internal ($"failed to read thread metadata: " ++ e))
      | Ok None => Err (Unsupported operation)
      | Ok (Some metadata) =>
          if ta_archived metadata && negb include_archived then Err (InvalidRequest ($"thread " ++ thread_id ++ $" is archived"))
          else if ta_paginated metadata then Ok tt else Err (Unsupported operation)
      end
  end.

(** The conversions of rows: an ordinal is not negative, a status is known. *)
Definition stored_item_row (position : ItemRow → Z) (i : ItemRow) : store_result unit :=
  if (position i <? 0)%Z then Err (Internal ($"invalid stored item rollout ordinal: " ++ fmt_Z (position i)))
  else if (ir_updated_at_ordinal i <? 0)%Z
  then Err (Internal ($"invalid stored item updated-at ordinal: " ++ fmt_Z (ir_updated_at_ordinal i)))
  else Ok tt.
Definition turn_statuses : list str := [$"completed"; $"interrupted"; $"failed"; $"inProgress"].
Definition stored_turn_row (t : TurnRow) : store_result unit :=
  if bool_decide (tr_status t ∈ turn_statuses) then Ok tt else Err (Internal ($"unknown stored turn status: " ++ tr_status t)).

Definition rows_of db (id : str) : ThreadRows := default no_rows (db !! id).

Inductive ItemSortKey : Type := CreatedAtOrdinal | UpdatedAtOrdinal.

Record ListItemsParams := mkListItems {
  li_thread_id : str;
  li_turn_id : option str;
  li_cursor : option str;
  li_page_size : N;
  li_sort_direction : SortDirection;
  li_sort_key : ItemSortKey;
  li_after_updated_at_ordinal : option N;
  li_include_archived : bool;
}.
Implicit Types params : ListItemsParams.

Definition of_requested_turn params (i : ItemRow) : bool :=
  match li_turn_id params with Some id => bool_decide (ir_turn_id i = id) | None => true end.

(** The items of a rollout that pass the filters of the request. *)
Definition item_candidates db params (_ : nat) seg : store_result (list ItemRow) :=
  let? updated := match li_after_updated_at_ordinal params with
                  | None => Ok (λ _, true)
                  | Some w => let? w := sqlite_ordinal w in Ok (λ i, (w <? ir_updated_at_ordinal i)%Z)
                  end in
  Ok (List.filter (λ i, updated i && of_requested_turn params i) (thread_items (rows_of db (rollout_id seg)))).

Definition page_updated_item_rows db (id : str) params (watermark : N) : store_result (SegmentPage ItemRow) :=
  let? cursor := parse_cursor cursor_from_str (li_cursor params) (li_thread_id params) ItemsByUpdatedAtOrdinal in
  let? w := sqlite_ordinal watermark in
  let? clause := cursor_clause (li_sort_direction params) cursor in
  let? limit := remaining_limit (li_page_size params) 0 in
  let found := take (N.to_nat limit)
    (order_by ir_updated_at_ordinal (li_sort_direction params)
       (List.filter (λ i, (w <? ir_updated_at_ordinal i)%Z && of_requested_turn params i && clause (ir_updated_at_ordinal i))
          (thread_items (rows_of db id)))) in
  let? _ := check_rows (stored_item_row ir_updated_at_ordinal) found in
  finish_page cursor_to_string ir_updated_at_ordinal (li_thread_id params) ItemsByUpdatedAtOrdinal found (li_page_size params).

Definition page_item_rows db segments params : store_result (SegmentPage ItemRow) :=
  if bool_decide (is_Some (li_after_updated_at_ordinal params)) && (1 <? length segments)%nat then
    Err (InvalidRequest ($"incremental item replay is not supported for forked threads"))
  else match li_sort_key params with
       | UpdatedAtOrdinal =>
           match li_after_updated_at_ordinal params with
           | None => Err (InvalidRequest ($"update-ordinal item sorting requires an update watermark"))
           | Some w =>
               match segments with
               | [seg] => page_updated_item_rows db (rollout_id seg) params w
               | _ => Err (Internal ($"update-ordinal item paging requires one rollout segment"))
               end
           end
       | CreatedAtOrdinal =>
           page_rows cursor_to_string cursor_from_str ir_rollout_ordinal (stored_item_row ir_rollout_ordinal) (item_candidates db params)
             (li_thread_id params) ItemsByCreatedAtOrdinal segments (li_cursor params) (li_page_size params)
             (li_sort_direction params)
       end.

(** [lineage] is what [resolve_rollout_lineage] answers for the thread. *)
Definition list_items state_db (lineage : store_result (list RolloutLineageSegment)) db params : store_result (SegmentPage ItemRow) :=
  let? _ := validate_thread_for_paginated_reads state_db (li_thread_id params) (li_include_archived params) ($"list_items") in
  let? _ := validate_page_size (li_page_size params) in
  let? segments := lineage in page_item_rows db segments params.

(** The ranges of segments, with their rollouts. *)
Fixpoint segment_ranges segments : store_result (list (str * (Z → bool))) :=
  match segments with
  | [] => Ok []
  | seg :: segments =>
      let? range := segment_range seg in
      let? ranges := segment_ranges segments in
      Ok ((rollout_id seg, range) :: ranges)
  end.

(** [NOT EXISTS (SELECT 1 FROM thread_turns AS newer_turn ..)] for each newer segment. *)
Definition shadowed_in db (turn_id : str) (newer : str * (Z → bool)) : bool :=
  existsb (λ t, is_turn turn_id t && newer.2 (tr_rollout_ordinal t)) (thread_turns (rows_of db newer.1)).

Definition turn_candidates db segments (i : nat) seg : store_result (list TurnRow) :=
  let? newer := segment_ranges (drop (S i) segments) in
  Ok (List.filter (λ t, negb (existsb (shadowed_in db (tr_turn_id t)) newer)) (thread_turns (rows_of db (rollout_id seg)))).

Definition page_turn_rows db segments (thread_id : str) (cursor : option str) (page_size : N) (dir : SortDirection)
    : store_result (SegmentPage TurnRow) :=
  page_rows cursor_to_string cursor_from_str tr_rollout_ordinal stored_turn_row (turn_candidates db segments) thread_id ScopeTurns segments
    cursor page_size dir.

Definition list_turns state_db (include_archived : bool) (lineage : store_result (list RolloutLineageSegment)) db (thread_id : str)
    (cursor : option str) (page_size : N) (dir : SortDirection) : store_result (SegmentPage TurnRow) :=
  let? _ := validate_thread_for_paginated_reads state_db thread_id include_archived ($"list_turns") in
  let? _ := validate_page_size page_size in
  let? segments := lineage in page_turn_rows db segments thread_id cursor page_size dir.

(** ** Looking up one turn *)
Definition query_turn_row db seg (turn_id : str) : store_result (option TurnRow) :=
  let? end_ := transpose (λ e, sqlite_integer e ($"rollout ordinal")) (end_ordinal seg) in
  let? start := sqlite_integer (start_ordinal seg) ($"rollout ordinal") in
  Ok (head (List.filter (λ t, is_turn turn_id t && (start <=? tr_rollout_ordinal t)%Z &&
                              match end_ with Some e => (tr_rollout_ordinal t <? e)%Z | None => true end)
              (thread_turns (rows_of db (rollout_id seg))))).

Fixpoint find_turn db segments (turn_id : str) : store_result (str * TurnRow) :=
  match segments with
  | [] => Err (InvalidRequest ($"turn not found: " ++ turn_id))
  | seg :: segments =>
      let? found := query_turn_row db seg turn_id in
      match found with
      | Some t => Ok (rollout_id seg, t)
      | None => find_turn db segments turn_id
      end
  end.
Definition find_source_turn db segments (turn_id : str) : store_result (str * TurnRow) := find_turn db segments turn_id.
Definition find_visible_turn db segments (turn_id : str) : store_result (str * TurnRow) := find_turn db (reverse segments) turn_id.
End listings.
