(* ===== verification/HistoryPagingSpec.v ===== *)
(** * Properties of the paged history

    Following the cursor of each page to the next visits every row of the
    lineage once, in order; the listing of turns shows, of each turn, the row the
    lookup of a turn finds; and following pointers to older rollouts ends. *)

From stdpp Require Import prelude list gmap strings sorting pretty.
From S2P Require Import Prelude ThreadItems ThreadHistory RolloutStore RolloutStoreSpec HistoryPaging.

Lemma filterb_nodup {A} (g : A → Z) (f : A → bool) l : NoDup (g <$> l) → NoDup (g <$> List.filter f l).
Proof.
  induction l as [|x l IH]; cbn; [done|]. intros [Hn Hd]%NoDup_cons. destruct (f x); [|auto]. cbn. constructor; [|auto].
  intros (y & E & [Hy _]%elem_of_filterb)%list_elem_of_fmap. apply Hn. rewrite E. by apply list_elem_of_fmap_2.
Qed.

(** ** Strictly ordered lists *)
Section ordered.
Context {T : Type} (position : T → Z).

Definition before (dir : SortDirection) (a b : T) : Prop :=
  match dir with Asc => (position a < position b)%Z | Desc => (position b < position a)%Z end.

#[global] Instance precedes_total dir : Total (precedes position dir).
Proof. intros a b. destruct dir; cbn; lia. Qed.
#[global] Instance precedes_trans dir : Transitive (precedes position dir).
Proof. intros a b c. destruct dir; cbn; lia. Qed.

Lemma order_by_elem dir xs x : x ∈ order_by position dir xs ↔ x ∈ xs.
Proof. unfold order_by. by rewrite (merge_sort_Permutation (precedes position dir) xs). Qed.

Lemma before_irrefl dir a : ¬ before dir a a.
Proof. destruct dir; cbn; lia. Qed.
Lemma before_asym dir a b : before dir a b → ¬ before dir b a.
Proof. destruct dir; cbn; lia. Qed.

Lemma order_by_strict dir xs : NoDup (position <$> xs) → StronglySorted (before dir) (order_by position dir xs).
Proof.
  intros Hd. unfold order_by. pose proof (merge_sort_Permutation (precedes position dir) xs) as Hp.
  assert (NoDup (position <$> merge_sort (precedes position dir) xs)) as Hd' by (by rewrite Hp). clear Hd Hp.
  pose proof (StronglySorted_merge_sort (precedes position dir) xs) as Hs. induction Hs as [|x l Hs IH Hx]; [constructor|].
  cbn in Hd'. apply NoDup_cons in Hd' as [Hn Hd']. constructor; [by apply IH|]. rewrite Forall_forall in *. intros y Hy.
  specialize (Hx y Hy). assert (position x ≠ position y) by (intros E; apply Hn; rewrite E; by apply list_elem_of_fmap_2).
  destruct dir; cbn in *; lia.
Qed.

(** A strictly ordered list is determined by its elements. *)
Lemma strict_unique dir l1 l2 : StronglySorted (before dir) l1 → StronglySorted (before dir) l2 →
  (∀ x, x ∈ l1 ↔ x ∈ l2) → l1 = l2.
Proof.
  intros H1. revert l2. induction H1 as [|x l1 H1 IH Hx]; intros l2 H2 He.
  - destruct l2 as [|y l2]; [done|]. exfalso. apply (not_elem_of_nil y), He. left.
  - destruct H2 as [|y l2 H2 Hy]; [exfalso; apply (not_elem_of_nil x), He; left|].
    rewrite Forall_forall in Hx, Hy.
    assert (x = y) as <-.
    { assert (x ∈ y :: l2) as [->|Hxl]%elem_of_cons by (apply He; left); [done|].
      assert (y ∈ x :: l1) as [->|Hyl]%elem_of_cons by (apply He; left); [done|].
      by destruct (before_asym dir x y (Hx y Hyl) (Hy x Hxl)). }
    f_equal. apply IH; [done|]. intros z. split; intros Hz.
    + assert (z ∈ x :: l2) as [->|?]%elem_of_cons by (apply He; by right); [|done]. by destruct (before_irrefl dir x (Hx x Hz)).
    + assert (z ∈ x :: l1) as [->|?]%elem_of_cons by (apply He; by right); [|done]. by destruct (before_irrefl dir x (Hy x Hz)).
Qed.

Lemma strict_app dir l1 l2 : StronglySorted (before dir) l1 → StronglySorted (before dir) l2 →
  (∀ x y, x ∈ l1 → y ∈ l2 → before dir x y) → StronglySorted (before dir) (l1 ++ l2).
Proof.
  intros H1 H2. induction H1 as [|x l1 H1 IH Hx]; intros Hxy; cbn; [done|]. constructor.
  - apply IH. intros a b Ha Hb. apply Hxy; [by right|done].
  - apply Forall_app. split; [done|]. apply Forall_forall. intros b Hb. apply Hxy; [left|done].
Qed.

(** Pieces in order make a list in order. *)
Lemma strict_join {I} dir (lt_i : I → I → Prop) (g : I → list T) idxs : StronglySorted lt_i idxs →
  (∀ i, i ∈ idxs → StronglySorted (before dir) (g i)) →
  (∀ i j x y, i ∈ idxs → j ∈ idxs → lt_i i j → x ∈ g i → y ∈ g j → before dir x y) →
  StronglySorted (before dir) (mjoin (g <$> idxs)).
Proof.
  intros Hs. induction Hs as [|i idxs Hs IH Hi]; intros Hg Hx; [constructor|].
  change (mjoin (g <$> i :: idxs)) with (g i ++ mjoin (g <$> idxs)). apply strict_app.
  - apply Hg. left.
  - apply IH; [intros; apply Hg; by right|]. intros a b x y Ha Hb. apply Hx; by right.
  - intros x y Hxi (l & Hy & (j & -> & Hj)%list_elem_of_fmap)%list_elem_of_join. rewrite Forall_forall in Hi.
    apply (Hx i j); [left|by right|by apply Hi|done|done].
Qed.

Lemma strict_filter dir (f : T → bool) l : StronglySorted (before dir) l → StronglySorted (before dir) (List.filter f l).
Proof.
  induction 1 as [|x l Hs IH Hx]; cbn; [constructor|]. destruct (f x); [|done]. constructor; [done|].
  rewrite Forall_forall in *. intros y [Hy _]%elem_of_filterb. by apply Hx.
Qed.

(** Past an element of a strictly ordered list are the elements after it. *)
Lemma strict_beyond dir l1 x l2 : StronglySorted (before dir) (l1 ++ x :: l2) →
  List.filter (λ y, beyond dir false (position x) (position y)) (l1 ++ x :: l2) = l2.
Proof.
  intros Hs. apply (strict_unique dir); [by apply strict_filter| |].
  - induction l1 as [|y l1 IH]; cbn in Hs; apply StronglySorted_inv in Hs as [Hs _]; [done|by apply IH].
  - assert (∀ y, before dir x y ↔ beyond dir false (position x) (position y) = true) as Hb.
    { intros y. destruct dir; cbn; by rewrite Z.ltb_lt. }
    intros y. rewrite elem_of_filterb, <-Hb, elem_of_app, elem_of_cons. split.
    + intros [[Hy|[->|Hy]] Hxy]; [|by destruct (before_irrefl dir x)|done]. exfalso. revert Hs Hy.
      induction l1 as [|z l1 IH]; [by intros _ ?%not_elem_of_nil|]. cbn. intros [Hs Hz]%StronglySorted_inv [->|Hy]%elem_of_cons; [|by apply IH].
      rewrite Forall_forall in Hz. apply (before_asym dir x z); [done|]. apply Hz, elem_of_app. right. left.
    + intros Hy. split; [by right; right|]. clear Hb. induction l1 as [|z l1 IH]; cbn in Hs; apply StronglySorted_inv in Hs as [Hs Hz]; [|by apply IH].
      rewrite Forall_forall in Hz. by apply Hz.
Qed.
End ordered.

(** ** Lineages *)

(** Segments in order: each but the last ends, at or before the start of every newer one. *)
Fixpoint lineage_ok (segments : list RolloutLineageSegment) : Prop :=
  match segments with
  | [] => True
  | seg :: newer => Forall (λ seg', ∃ e, end_ordinal seg = Some e ∧ (e ≤ start_ordinal seg')%N) newer ∧ lineage_ok newer
  end.

Lemma lineage_ok_lookup segments i j seg seg' : lineage_ok segments → i < j → segments !! i = Some seg → segments !! j = Some seg' →
  ∃ e, end_ordinal seg = Some e ∧ (e ≤ start_ordinal seg')%N.
Proof.
  revert i j. induction segments as [|s segments IH]; intros i j; [done|]. intros [Hf Hl] Hij Hi Hj.
  destruct j as [|j]; [lia|]. destruct i as [|i]; cbn in Hi, Hj.
  - injection Hi as ->. rewrite Forall_forall in Hf. apply Hf. by eapply list_elem_of_lookup_2.
  - apply (IH i j); [done|lia|done|done].
Qed.

(** Ordinals that the tables can hold. *)
Definition small_segment (seg : RolloutLineageSegment) : Prop :=
  (Z.of_N (start_ordinal seg) ≤ I64_MAX)%Z ∧ ∀ e, end_ordinal seg = Some e → (Z.of_N e ≤ I64_MAX)%Z.

Definition in_range (seg : RolloutLineageSegment) (p : Z) : bool :=
  (Z.of_N (start_ordinal seg) <=? p)%Z && match end_ordinal seg with Some e => (p <? Z.of_N e)%Z | None => true end.

Lemma sqlite_ordinal_small v : (Z.of_N v ≤ I64_MAX)%Z → sqlite_ordinal v = Ok (Z.of_N v).
Proof. intros H. unfold sqlite_ordinal. by rewrite (proj2 (Z.leb_le _ _) H). Qed.

Lemma segment_range_small seg : small_segment seg → ∃ f, segment_range seg = Ok f ∧ ∀ p, f p = in_range seg p.
Proof.
  intros [Hs He]. unfold segment_range, in_range. rewrite sqlite_ordinal_small by done. cbn [rbind].
  destruct (end_ordinal seg) as [e|]; [|eexists; split; [done|]; intros p; by rewrite andb_true_r].
  rewrite sqlite_ordinal_small by auto. by eexists.
Qed.

Lemma segment_index_in ordinal segments j : segment_index_for_ordinal ordinal segments = Some j →
  ∃ seg, segments !! j = Some seg ∧ in_segment ordinal seg = true.
Proof.
  revert j. induction segments as [|s segments IH]; intros j; cbn; [done|]. destruct (in_segment ordinal s) eqn:Hs.
  - intros [= <-]. by exists s.
  - destruct (segment_index_for_ordinal ordinal segments) as [i|]; cbn; [|done]. intros [= <-]. by apply (IH i).
Qed.

Lemma segment_index_some ordinal segments i seg : segments !! i = Some seg → in_segment ordinal seg = true →
  is_Some (segment_index_for_ordinal ordinal segments).
Proof.
  revert i. induction segments as [|s segments IH]; intros i; [done|]. destruct i as [|i]; cbn; intros Hi Hs.
  - injection Hi as ->. rewrite Hs. by eexists.
  - destruct (in_segment ordinal s); [by eexists|]. destruct (IH i Hi Hs) as [j ->]. by eexists.
Qed.

Lemma in_range_segment seg p : in_range seg p = true → (0 ≤ p)%Z ∧ in_segment (Z.to_N p) seg = true.
Proof.
  unfold in_range, in_segment. rewrite andb_true_iff, Z.leb_le. intros [Hs He]. split; [lia|].
  apply andb_true_iff. rewrite N.leb_le. split; [lia|]. destruct (end_ordinal seg); [|done].
  apply N.ltb_lt. apply Z.ltb_lt in He. lia.
Qed.

(** Reading page after page, from a cursor to the last page. *)
Fixpoint follow_pages {T} (fuel : nat) (page_of : option str → store_result (SegmentPage T)) (cursor : option str)
    : store_result (list (list T)) :=
  match fuel with
  | 0 => Err (Internal [])
  | S fuel =>
      let? pg := page_of cursor in
      match next_cursor pg with
      | None => Ok [rows pg]
      | Some c => let? rest := follow_pages fuel page_of (Some c) in Ok (rows pg :: rest)
      end
  end.

Lemma follow_pages_ext {T} fuel (f g : option str → store_result (SegmentPage T)) cursor : (∀ c, f c = g c) →
  follow_pages fuel f cursor = follow_pages fuel g cursor.
Proof.
  intros E. revert cursor. induction fuel as [|fuel IH]; intros cursor; cbn [follow_pages]; [done|]. rewrite E.
  destruct (g cursor) as [pg|]; cbn [rbind]; [|done]. destruct (next_cursor pg); [by rewrite IH|done].
Qed.

(** ** Pages of a list *)
Section pages.
Context (cursor_to_string : HistoryCursor → str) (cursor_from_str : str → option HistoryCursor).
Context {T : Type} (position : T → Z) (stored : T → store_result unit) (fetch : nat → RolloutLineageSegment → store_result (list T))
        (candidates : nat → RolloutLineageSegment → list T) (segments : list RolloutLineageSegment).
Context (thread_id : str) (scope : CursorScope).

(** The rows of a segment, all of them or those past a cursor, in order. *)
Definition segment_rows (dir : SortDirection) (clause : Z → bool) (i : nat) : list T :=
  match segments !! i with
  | Some seg => order_by position dir (List.filter (λ x, in_range seg (position x) && clause (position x)) (candidates i seg))
  | None => []
  end.

Definition walk (dir : SortDirection) : list nat :=
  match dir with Asc => seq 0 (length segments) | Desc => reverse (seq 0 (length segments)) end.

(** Everything there is to list. *)
Definition visible (dir : SortDirection) : list T := mjoin (segment_rows dir (λ _, true) <$> walk dir).

Record listable : Prop := {
  listable_roundtrip c : cursor_from_str (cursor_to_string c) = Some c;
  listable_lineage : lineage_ok segments;
  listable_small : Forall small_segment segments;
  listable_fetch i seg : segments !! i = Some seg → fetch i seg = Ok (candidates i seg);
  listable_unique i seg : segments !! i = Some seg → NoDup (position <$> candidates i seg);
  listable_bounded i seg x : segments !! i = Some seg → x ∈ candidates i seg → (position x ≤ I64_MAX)%Z;
  listable_stored i seg x : segments !! i = Some seg → x ∈ candidates i seg → in_range seg (position x) = true → stored x = Ok tt;
}.
Context (Hl : listable).

Lemma segment_rows_elem dir clause i x : x ∈ segment_rows dir clause i ↔
  ∃ seg, segments !! i = Some seg ∧ x ∈ candidates i seg ∧ in_range seg (position x) = true ∧ clause (position x) = true.
Proof.
  unfold segment_rows. destruct (segments !! i) as [seg|]; [|split; [by intros ?%not_elem_of_nil|by intros (? & ? & _)]].
  rewrite order_by_elem, elem_of_filterb, andb_true_iff. naive_solver.
Qed.

Lemma segment_rows_strict dir clause i : StronglySorted (before position dir) (segment_rows dir clause i).
Proof.
  unfold segment_rows. destruct (segments !! i) as [seg|] eqn:Hi; [|constructor].
  by apply order_by_strict, filterb_nodup, (listable_unique Hl).
Qed.

(** Positions grow with the index of the segment. *)
Lemma across_segments i j seg seg' x y : i < j → segments !! i = Some seg → segments !! j = Some seg' →
  in_range seg x = true → in_range seg' y = true → (x < y)%Z.
Proof.
  intros Hij Hi Hj Hx Hy. destruct (lineage_ok_lookup segments i j seg seg' (listable_lineage Hl) Hij Hi Hj) as (e & He & Hle).
  unfold in_range in *. rewrite He in Hx. apply andb_true_iff in Hx as [_ Hx%Z.ltb_lt], Hy as [Hy%Z.leb_le _]. lia.
Qed.

Definition index_before (dir : SortDirection) (i j : nat) : Prop := match dir with Asc => i < j | Desc => j < i end.

Lemma pieces_strict dir (clause : nat → Z → bool) idxs : StronglySorted (index_before dir) idxs →
  StronglySorted (before position dir) (mjoin ((λ i, segment_rows dir (clause i) i) <$> idxs)).
Proof.
  intros Hs. apply (strict_join position dir (index_before dir)); [done|intros; apply segment_rows_strict|].
  intros i j x y _ _ Hij (seg & Hi & _ & Hx & _)%segment_rows_elem (seg' & Hj & _ & Hy & _)%segment_rows_elem.
  destruct dir; cbn in *; [by eapply (across_segments i j)|by eapply (across_segments j i)].
Qed.

Lemma pieces_elem dir (clause : nat → Z → bool) idxs x : x ∈ mjoin ((λ i, segment_rows dir (clause i) i) <$> idxs) ↔
  ∃ i seg, i ∈ idxs ∧ segments !! i = Some seg ∧ x ∈ candidates i seg ∧ in_range seg (position x) = true ∧ clause i (position x) = true.
Proof.
  rewrite list_elem_of_join. split.
  - intros (l & Hx & (i & -> & Hi)%list_elem_of_fmap). apply segment_rows_elem in Hx as (seg & H). naive_solver.
  - intros (i & seg & Hi & H). exists (segment_rows dir (clause i) i). split; [apply segment_rows_elem; naive_solver|].
    apply list_elem_of_fmap. by exists i.
Qed.

Lemma seq_sorted a n : StronglySorted lt (seq a n).
Proof.
  revert a. induction n as [|n IH]; intros a; cbn; [constructor|]. constructor; [apply IH|].
  apply Forall_forall. intros i [Hi _]%elem_of_seq. lia.
Qed.
Lemma reverse_sorted (l : list nat) : StronglySorted lt l → StronglySorted (λ i j, j < i) (reverse l).
Proof.
  induction 1 as [|i l Hs IH Hi]; [constructor|]. rewrite reverse_cons. clear Hs. revert Hi. rewrite <-(Forall_reverse _ l).
  induction IH as [|j m Hm IH Hj]; cbn; [by repeat constructor|]. intros [Hij Hi]%Forall_cons. constructor; [auto|].
  apply Forall_app. split; [done|]. by apply Forall_singleton.
Qed.

Lemma walk_sorted dir : StronglySorted (index_before dir) (walk dir).
Proof. destruct dir; cbn; [apply seq_sorted|apply reverse_sorted, seq_sorted]. Qed.

Lemma visible_strict dir : StronglySorted (before position dir) (visible dir).
Proof. apply (pieces_strict dir (λ _ _, true)), walk_sorted. Qed.

Lemma visible_elem dir x : x ∈ visible dir ↔
  ∃ i seg, segments !! i = Some seg ∧ x ∈ candidates i seg ∧ in_range seg (position x) = true.
Proof.
  unfold visible. rewrite (pieces_elem dir (λ _ _, true)). split; [naive_solver|]. intros (i & seg & Hi & Hx & Hr).
  exists i, seg. split_and!; [|done|done|done|done]. apply lookup_lt_Some in Hi.
  destruct dir; cbn; [|apply elem_of_reverse]; apply elem_of_seq; lia.
Qed.

(** ** One page *)
Definition clause_of (dir : SortDirection) (cursor : option HistoryCursor) (p : Z) : bool :=
  match cursor with None => true | Some c => beyond dir (include_anchor c) (Z.of_N (cursor_ordinal c)) p end.

Definition small_cursor (cursor : option HistoryCursor) : Prop := ∀ c, cursor = Some c → (Z.of_N (cursor_ordinal c) ≤ I64_MAX)%Z.

Lemma check_rows_ok l : Forall (λ x, stored x = Ok tt) l → check_rows stored l = Ok tt.
Proof. induction 1 as [|x l Hx _ IH]; cbn [check_rows]; [done|]. by rewrite Hx. Qed.

Lemma query_segment_rows dir i seg cursor limit : segments !! i = Some seg → small_cursor cursor →
  query_segment position stored fetch dir i seg cursor limit = Ok (take (N.to_nat limit) (segment_rows dir (clause_of dir cursor) i)).
Proof.
  intros Hi Hc. unfold query_segment. pose proof (listable_small Hl) as Hsm. rewrite Forall_lookup in Hsm.
  destruct (segment_range_small seg (Hsm i seg Hi)) as (f & -> & Hf). cbn [rbind]. rewrite (listable_fetch Hl i seg Hi). cbn [rbind].
  assert (∃ g, cursor_clause dir cursor = Ok g ∧ ∀ p, g p = clause_of dir cursor p) as (g & -> & Hg).
  { unfold cursor_clause, clause_of. destruct cursor as [c|]; [|by eexists]. rewrite sqlite_ordinal_small by by apply Hc. by eexists. }
  cbn [rbind]. assert (take (N.to_nat limit) (order_by position dir (List.filter (λ x, f (position x) && g (position x)) (candidates i seg))) =
    take (N.to_nat limit) (segment_rows dir (clause_of dir cursor) i)) as ->.
  { unfold segment_rows. rewrite Hi. do 2 f_equal. apply List.filter_ext. intros x. by rewrite Hf, Hg. }
  rewrite check_rows_ok; [done|]. apply Forall_take, Forall_forall. intros x (seg' & Hi' & Hx & Hr & _)%segment_rows_elem.
  by apply (listable_stored Hl i seg').
Qed.

Lemma remaining_limit_ok page_size n : (Z.of_N (page_size + 1) ≤ I64_MAX)%Z → (n ≤ page_size + 1)%N →
  remaining_limit page_size n = Ok (page_size + 1 - n)%N.
Proof.
  intros Hp Hn. unfold remaining_limit, checked_add_u64. unfold I64_MAX, U64_MAX in *.
  rewrite (proj2 (N.leb_le _ _)) by lia. rewrite (proj2 (N.ltb_ge _ _)) by lia. by rewrite (proj2 (Z.leb_le _ _)) by lia.
Qed.

Lemma collect_rows dir page_size w acc : (Z.of_N (page_size + 1) ≤ I64_MAX)%Z → length acc ≤ S (N.to_nat page_size) →
  Forall (λ x, segments !! x.1.1 = Some x.1.2 ∧ small_cursor x.2) w →
  collect position stored fetch dir page_size acc w =
    Ok (take (S (N.to_nat page_size)) (acc ++ mjoin ((λ x, segment_rows dir (clause_of dir x.2) x.1.1) <$> w))).
Proof.
  intros Hp. revert acc. induction w as [|[[i seg] c] w IH]; intros acc Hacc Hw; cbn [collect].
  - cbn. rewrite app_nil_r, take_ge by lia. done.
  - apply Forall_cons in Hw as [[Hi Hc] Hw]. cbn [fst snd] in *. rewrite remaining_limit_ok by lia. cbn [rbind].
    change (mjoin (?f <$> ?x :: w)) with (f x ++ mjoin (f <$> w)). cbn [fst snd].
    destruct (N.eqb_spec (page_size + 1 - N.of_nat (length acc)) 0).
    + rewrite take_app_le, take_ge by lia. done.
    + rewrite (query_segment_rows dir i seg c _ Hi Hc). cbn [rbind]. set (rows := segment_rows dir (clause_of dir c) i).
      set (k := N.to_nat (page_size + 1 - N.of_nat (length acc))). rewrite IH; [|rewrite length_app, length_take; lia|done].
      f_equal. set (rest := mjoin _). assert (S (N.to_nat page_size) = length acc + k) as -> by lia.
      rewrite <-app_assoc, !take_app_add. f_equal. rewrite !take_app, take_take, Nat.min_id, length_take. f_equal.
      destruct (decide (k ≤ length rows)); [by replace (k - k `min` length rows) with (k - length rows) by lia|].
      by rewrite Nat.min_r by lia.
Qed.

Lemma omap_lookup_pieces {B} (h : nat → RolloutLineageSegment → B) (g : B → list T) (d : nat → list T) idxs :
  (∀ i seg, segments !! i = Some seg → g (h i seg) = d i) → (∀ i, segments !! i = None → d i = []) →
  mjoin (g <$> omap (λ i, h i <$> segments !! i) idxs) = mjoin (d <$> idxs).
Proof.
  intros Hg Hd. induction idxs as [|i idxs IH]; [done|]. change (mjoin (d <$> i :: idxs)) with (d i ++ mjoin (d <$> idxs)). rewrite <-IH.
  cbn. destruct (segments !! i) as [seg|] eqn:Hi; cbn; [by rewrite Hg by done|by rewrite Hd].
Qed.

Lemma segment_rows_none dir clause i : segments !! i = None → segment_rows dir clause i = [].
Proof. intros H. unfold segment_rows. by rewrite H. Qed.

(** The indexes a page walks. *)
Definition indexes_from (dir : SortDirection) (ci : option nat) : list nat :=
  match dir with
  | Asc => seq (default 0 ci) (length segments - default 0 ci)
  | Desc => reverse (seq 0 (S (default (length segments - 1) ci)))
  end.

Lemma walked_rows dir cursor page_size w ci : (Z.of_N (page_size + 1) ≤ I64_MAX)%Z → small_cursor cursor →
  w = omap (λ i, (λ seg, (i, seg, if bool_decide (Some i = ci) then cursor else None)) <$> segments !! i) (indexes_from dir ci) →
  collect position stored fetch dir page_size [] w = Ok (take (S (N.to_nat page_size))
    (mjoin ((λ i, segment_rows dir (clause_of dir (if bool_decide (Some i = ci) then cursor else None)) i) <$> indexes_from dir ci))).
Proof.
  intros Hp Hc ->. rewrite collect_rows; [|done|cbn; lia|].
  - do 2 f_equal. cbn [app]. apply omap_lookup_pieces; [done|]. intros i. apply segment_rows_none.
  - apply Forall_forall. intros x (i & _ & Hi)%list_elem_of_omap. destruct (segments !! i) as [seg|] eqn:Hs; [|done].
    injection Hi as <-. cbn. split; [done|]. by case_bool_decide.
Qed.

Lemma indexes_sorted dir ci : StronglySorted (index_before dir) (indexes_from dir ci).
Proof. destruct dir; cbn [indexes_from index_before]; [apply seq_sorted|apply reverse_sorted, seq_sorted]. Qed.

(** Without a cursor a page walks everything. *)
Lemma pieces_all dir cursor :
  mjoin ((λ i, segment_rows dir (clause_of dir (if bool_decide (Some i = None) then cursor else None)) i) <$> indexes_from dir None) = visible dir.
Proof.
  apply (strict_unique position dir); [|apply visible_strict|].
  - apply (pieces_strict dir (λ i, clause_of dir (if bool_decide (Some i = None) then cursor else None))), indexes_sorted.
  - intros x. rewrite (pieces_elem dir (λ i, clause_of dir (if bool_decide (Some i = None) then cursor else None))), visible_elem.
    split; [naive_solver|]. intros (i & seg & Hi & Hx & Hr). exists i, seg. split_and!; try done. apply lookup_lt_Some in Hi.
    destruct dir; cbn [indexes_from default from_option]; [|apply elem_of_reverse]; apply elem_of_seq; cbn; lia.
Qed.

(** With a cursor in some segment a page walks what is past it. *)
Lemma pieces_beyond dir c j seg : segments !! j = Some seg → in_segment (cursor_ordinal c) seg = true →
  mjoin ((λ i, segment_rows dir (clause_of dir (if bool_decide (Some i = Some j) then Some c else None)) i) <$> indexes_from dir (Some j)) =
  List.filter (λ x, beyond dir (include_anchor c) (Z.of_N (cursor_ordinal c)) (position x)) (visible dir).
Proof.
  intros Hj Hc. pose (cl := λ i, clause_of dir (if bool_decide (Some i = Some j) then Some c else None)).
  change (mjoin (_ <$> _)) with (mjoin ((λ i, segment_rows dir (cl i) i) <$> indexes_from dir (Some j))).
  assert (in_range seg (Z.of_N (cursor_ordinal c)) = true) as Hcr.
  { unfold in_range, in_segment in *. apply andb_true_iff in Hc as [H1%N.leb_le H2]. apply andb_true_iff. split; [apply Z.leb_le; lia|].
    destruct (end_ordinal seg); [|done]. apply N.ltb_lt in H2. apply Z.ltb_lt. lia. }
  apply (strict_unique position dir); [apply (pieces_strict dir cl), indexes_sorted|apply strict_filter, visible_strict|].
  intros x. rewrite (pieces_elem dir cl), elem_of_filterb, visible_elem.
  assert (∀ i seg', segments !! i = Some seg' → in_range seg' (position x) = true →
    (i ∈ indexes_from dir (Some j) ∧ cl i (position x) = true ↔
     beyond dir (include_anchor c) (Z.of_N (cursor_ordinal c)) (position x) = true)) as Hcase.
  { intros i seg' Hi Hr. pose proof (lookup_lt_Some _ _ _ Hi) as Hlen. unfold cl.
    assert (i ∈ indexes_from dir (Some j) ↔ match dir with Asc => j ≤ i | Desc => i ≤ j end) as ->
      by (destruct dir; cbn [indexes_from default from_option id]; [|rewrite elem_of_reverse]; rewrite elem_of_seq; cbn; lia).
    destruct (lt_eq_lt_dec i j) as [[Hij| ->]|Hij].
    - pose proof (across_segments i j seg' seg _ _ Hij Hi Hj Hr Hcr). rewrite bool_decide_eq_false_2 by (intros [= ->]; lia). cbn.
      destruct dir, (include_anchor c); cbn; rewrite ?Z.leb_le, ?Z.ltb_lt; lia.
    - rewrite bool_decide_eq_true_2 by done. cbn. destruct dir; intuition lia.
    - pose proof (across_segments j i seg seg' _ _ Hij Hj Hi Hcr Hr). rewrite bool_decide_eq_false_2 by (intros [= ->]; lia). cbn.
      destruct dir, (include_anchor c); cbn; rewrite ?Z.leb_le, ?Z.ltb_lt; lia. }
  split.
  - intros (i & seg' & Hi & Hs & Hx & Hr & Hcl). split; [naive_solver|]. by apply (Hcase i seg').
  - intros [(i & seg' & Hs & Hx & Hr) Hb]. exists i, seg'. apply (Hcase i seg') in Hb as [H1 H2]; naive_solver.
Qed.

Notation page := (page_rows cursor_to_string cursor_from_str position stored fetch thread_id scope segments).

(** The cursor of a row. *)
Definition cursor_at (anchor : bool) (x : T) : str := cursor_to_string (mkCursor thread_id (Z.to_N (position x)) anchor scope).

Lemma visible_bounds dir x : x ∈ visible dir → (0 ≤ position x ≤ I64_MAX)%Z.
Proof.
  intros (i & seg & Hi & Hx & Hr)%visible_elem. destruct (in_range_segment _ _ Hr). split; [done|].
  by apply (listable_bounded Hl i seg).
Qed.

Lemma page_first page_size dir : (Z.of_N (page_size + 1) ≤ I64_MAX)%Z →
  page None page_size dir = finish_page cursor_to_string position thread_id scope (take (S (N.to_nat page_size)) (visible dir)) page_size.
Proof.
  intros Hp. unfold page_rows. cbn [parse_cursor rbind]. unfold segments_from_cursor. cbn [rbind].
  rewrite (walked_rows dir None page_size _ None Hp); [|done|reflexivity]. cbn [rbind]. by rewrite pieces_all.
Qed.

Lemma page_from page_size dir anchor x : (Z.of_N (page_size + 1) ≤ I64_MAX)%Z → (∃ dir', x ∈ visible dir') →
  page (Some (cursor_at anchor x)) page_size dir =
    finish_page cursor_to_string position thread_id scope
      (take (S (N.to_nat page_size)) (List.filter (λ y, beyond dir anchor (position x) (position y)) (visible dir))) page_size.
Proof.
  intros Hp [dir' Hx]. destruct (visible_bounds dir' x Hx) as [H0 Hmax].
  apply visible_elem in Hx as (i & seg & Hi & _ & Hr). apply in_range_segment in Hr as [_ Hs].
  unfold page_rows, parse_cursor, cursor_at. rewrite (listable_roundtrip Hl). cbn [requested_thread_id cursor_scope].
  rewrite !bool_decide_eq_true_2 by done. cbn [negb orb rbind]. unfold segments_from_cursor. cbn [cursor_ordinal].
  destruct (segment_index_some _ _ _ _ Hi Hs) as [j Hj]. rewrite Hj. cbn [rbind].
  apply segment_index_in in Hj as (seg' & Hj & Hs').
  set (c := mkCursor thread_id (Z.to_N (position x)) anchor scope).
  rewrite (walked_rows dir (Some c) page_size _ (Some j) Hp); [|intros ? [= <-]; cbn; lia|reflexivity]. cbn [rbind].
  rewrite (pieces_beyond dir c j seg' Hj) by done. cbn [c include_anchor cursor_ordinal]. by rewrite Z2N.id.
Qed.

Lemma serialize_row anchor x : (0 ≤ position x)%Z →
  serialize_cursor cursor_to_string thread_id scope (position x) anchor = Ok (cursor_at anchor x).
Proof. intros H. unfold serialize_cursor. by rewrite (proj2 (Z.ltb_ge _ _) H). Qed.

Lemma finish_page_ok l page_size : Forall (λ x, (0 ≤ position x)%Z) l →
  finish_page cursor_to_string position thread_id scope (take (S (N.to_nat page_size)) l) page_size =
    Ok (mkPage (take (N.to_nat page_size) l)
          (if decide (N.to_nat page_size < length l) then cursor_at false <$> last (take (N.to_nat page_size) l) else None)
          (cursor_at true <$> head (take (N.to_nat page_size) l))).
Proof.
  intros Hpos. unfold finish_page. rewrite take_take, Nat.min_l by lia. set (k := N.to_nat page_size).
  assert (Forall (λ x, (0 ≤ position x)%Z) (take k l)) as Hk by by apply Forall_take.
  assert (∀ anchor o, (∀ x, o = Some x → x ∈ take k l) →
    transpose (λ row, serialize_cursor cursor_to_string thread_id scope (position row) anchor) o = Ok (cursor_at anchor <$> o)) as Htr.
  { intros anchor [x|] Hx; [|done]. cbn. rewrite serialize_row; [done|]. rewrite Forall_forall in Hk. by apply Hk, Hx. }
  rewrite Htr by (intros x Hx; destruct (take k l); [done|]; injection Hx as <-; left). cbn [rbind].
  assert ((page_size <? N.of_nat (length (take (S k) l)))%N = bool_decide (k < length l)) as ->.
  { rewrite length_take. destruct (decide (k < length l)); [rewrite bool_decide_eq_true_2 by done; apply N.ltb_lt; lia|].
    rewrite bool_decide_eq_false_2 by done. apply N.ltb_ge. lia. }
  destruct (decide (k < length l)).
  - rewrite bool_decide_eq_true_2 by done. rewrite Htr by (intros x Hx; apply last_Some_elem_of in Hx; done). done.
  - by rewrite bool_decide_eq_false_2.
Qed.

(** ** Following the cursors *)
Lemma follow_from fuel page_size dir cursor l1 l2 : (Z.of_N (page_size + 1) ≤ I64_MAX)%Z → page_size ≠ 0%N →
  visible dir = l1 ++ l2 → length l2 < fuel →
  page cursor page_size dir = finish_page cursor_to_string position thread_id scope (take (S (N.to_nat page_size)) l2) page_size →
  ∃ pages, follow_pages fuel (λ c, page c page_size dir) cursor = Ok pages ∧ mjoin pages = l2 ∧ Forall (λ pg, length pg ≤ N.to_nat page_size) pages.
Proof.
  intros Hp H0. revert cursor l1 l2. induction fuel as [|fuel IH]; intros cursor l1 l2 Hv Hf Hpage; [lia|]. cbn [follow_pages].
  set (k := N.to_nat page_size) in *. assert (0 < k) as Hk by (unfold k; lia).
  assert (Forall (λ x, (0 ≤ position x)%Z) l2) as Hpos.
  { apply Forall_forall. intros x Hx. apply (visible_bounds dir). rewrite Hv. apply elem_of_app. by right. }
  pose proof (finish_page_ok l2 page_size Hpos) as Hfin. fold k in Hfin. rewrite Hpage, Hfin. cbn [rbind next_cursor rows]. destruct (decide (k < length l2)) as [Hmore|Hmore].
  - assert (∃ l2' x, take k l2 = l2' ++ [x]) as (l2' & x & Hx).
    { destruct (last_cases (take k l2)) as [E|(l & x & E)]; [|by exists l, x]. apply (f_equal length) in E. rewrite length_take in E. cbn in E. lia. }
    rewrite Hx, last_snoc. cbn [fmap option_fmap option_map].
    assert (visible dir = (l1 ++ l2') ++ x :: drop k l2) as Hv'.
    { rewrite Hv, <-(take_drop k l2) at 1. rewrite Hx, <-!app_assoc. done. }
    destruct (IH (Some (cursor_at false x)) (l1 ++ l2' ++ [x]) (drop k l2)) as (pages & E & Hj & Hlen).
    + rewrite Hv'. by rewrite <-!app_assoc.
    + rewrite length_drop. lia.
    + rewrite page_from; [|done|exists dir; rewrite Hv'; apply elem_of_app; right; left].
      rewrite Hv', strict_beyond; [done|]. rewrite <-Hv'. apply visible_strict.
    + rewrite E. cbn [rbind]. eexists. split_and!; [done| |].
      * change (mjoin ((l2' ++ [x]) :: pages)) with ((l2' ++ [x]) ++ mjoin pages). rewrite Hj, <-Hx. apply take_drop.
      * constructor; [|done]. rewrite <-Hx, length_take. fold k. lia.
  - rewrite take_ge by lia. eexists. split_and!; [done|by cbn; rewrite app_nil_r|]. apply Forall_singleton. fold k. lia.
Qed.

Lemma follow_all page_size dir : (Z.of_N (page_size + 1) ≤ I64_MAX)%Z → page_size ≠ 0%N →
  ∃ pages, follow_pages (S (length (visible dir))) (λ c, page c page_size dir) None = Ok pages ∧ mjoin pages = visible dir ∧
    Forall (λ pg, length pg ≤ N.to_nat page_size) pages.
Proof. intros Hp H0. apply (follow_from _ _ _ _ []); [done|done|done|lia|by apply page_first]. Qed.
End pages.

(** ** Listings *)
Section listing_spec.
Context {W : Wire}.
Context (cursor_to_string : HistoryCursor → str) (cursor_from_str : str → option HistoryCursor).
Implicit Types (db : gmap str ThreadRows) (segments : list RolloutLineageSegment).

(** The tables of every rollout are as the projection leaves them. *)
Definition db_ok db : Prop := ∀ id, ∃ n, (n ≤ I64_MAX)%Z ∧ tables_ok n (rows_of db id).

Lemma sorted_nodup (l : list Z) : StronglySorted Z.lt l → NoDup l.
Proof. induction 1 as [|x l Hs IH Hx]; constructor; [|done]. intros Hin. rewrite Forall_forall in Hx. specialize (Hx x Hin). lia. Qed.

Definition cursors_roundtrip : Prop := ∀ c, cursor_from_str (cursor_to_string c) = Some c.

Definition with_cursor (params : ListItemsParams) (c : option str) : ListItemsParams :=
  mkListItems (li_thread_id params) (li_turn_id params) c (li_page_size params) (li_sort_direction params) (li_sort_key params)
    (li_after_updated_at_ordinal params) (li_include_archived params).

(** The tables hold update ordinals as the projection writes them. *)
Definition updates_kept db : Prop := ∀ id, ∃ n, (n ≤ I64_MAX)%Z ∧ updates_ok n (rows_of db id).

(** The updates that a request asks for. *)
Definition updated_since params (i : ItemRow) : bool :=
  match li_after_updated_at_ordinal params with Some w => (Z.of_N w <? ir_updated_at_ordinal i)%Z | None => true end.
Definition asked_items db params (seg : RolloutLineageSegment) : list ItemRow :=
  List.filter (λ i, updated_since params i && of_requested_turn params i) (thread_items (rows_of db (rollout_id seg))).
Definition small_watermark params : Prop := ∀ w, li_after_updated_at_ordinal params = Some w → (Z.of_N w ≤ I64_MAX)%Z.

Lemma item_candidates_asked db params i seg : small_watermark params → item_candidates db params i seg = Ok (asked_items db params seg).
Proof.
  intros Hw. unfold item_candidates, asked_items, updated_since. destruct (li_after_updated_at_ordinal params) as [w|] eqn:E; [|done].
  by rewrite (sqlite_ordinal_small w (Hw w E)).
Qed.

Lemma items_listable db segments params : db_ok db → updates_kept db → cursors_roundtrip → lineage_ok segments →
  Forall small_segment segments → small_watermark params →
  listable cursor_to_string cursor_from_str ir_rollout_ordinal (stored_item_row ir_rollout_ordinal) (item_candidates db params)
    (λ _, asked_items db params) segments.
Proof.
  intros Hdb Hu Hrt Hlin Hsm Hw. split; [done|done|done|..].
  - intros i seg _. by apply item_candidates_asked.
  - intros i seg _. destruct (Hdb (rollout_id seg)) as (n & _ & Ht). apply filterb_nodup, sorted_nodup, (ok_items_sorted n _ Ht).
  - intros i seg x _ [Hx _]%elem_of_filterb. destruct (Hdb (rollout_id seg)) as (n & Hn & Ht).
    pose proof (ok_items n _ Ht) as Hi. rewrite Forall_forall in Hi. specialize (Hi x Hx). cbn in Hi. lia.
  - intros i seg x Hi [Hx _]%elem_of_filterb Hr. destruct (Hu (rollout_id seg)) as (n & _ & Hub).
    pose proof (updates_bounded n _ Hub) as Hb. rewrite Forall_forall in Hb. specialize (Hb x Hx).
    destruct (in_range_segment _ _ Hr) as [H0 _]. unfold stored_item_row. by rewrite !(proj2 (Z.ltb_ge _ _)) by lia.
Qed.

(** Listing by updates reads the whole rollout as one segment. *)
Definition whole_rollout (id : str) : RolloutLineageSegment := mkSegment id 0 None.

Lemma updates_listable db id params w : updates_kept db → cursors_roundtrip → small_watermark params →
  li_after_updated_at_ordinal params = Some w →
  listable cursor_to_string cursor_from_str ir_updated_at_ordinal (stored_item_row ir_updated_at_ordinal)
    (λ _, item_candidates db params 0) (λ _, asked_items db params) [whole_rollout id].
Proof.
  intros Hu Hrt Hw Ew.
  assert (∀ x, x ∈ asked_items db params (whole_rollout id) →
    (0 ≤ ir_updated_at_ordinal x ≤ I64_MAX)%Z) as Hb.
  { intros x [Hx _]%elem_of_filterb. destruct (Hu id) as (n & Hn & Hub). pose proof (updates_bounded n _ Hub) as Hb.
    rewrite Forall_forall in Hb. specialize (Hb x Hx). cbn in Hb. lia. }
  assert (∀ i seg, [whole_rollout id] !! i = Some seg → seg = whole_rollout id) as Hone.
  { intros [|i] seg; cbn; [by intros [= <-]|done]. }
  split; [done|..].
  - cbn. split; [constructor|done].
  - apply Forall_singleton. split; cbn; [by vm_compute|done].
  - intros i seg _. by apply item_candidates_asked.
  - intros i seg ->%Hone. destruct (Hu id) as (n & _ & Hub). pose proof (updates_distinct n _ Hub) as Hd.
    unfold asked_items, updated_since. rewrite Ew. cbn [rollout_id whole_rollout].
    assert (List.filter (λ i, (Z.of_N w <? ir_updated_at_ordinal i)%Z && of_requested_turn params i) (thread_items (rows_of db id)) =
      List.filter (λ i, (Z.of_N w <? ir_updated_at_ordinal i)%Z && of_requested_turn params i)
        (List.filter (λ i, (0 <? ir_updated_at_ordinal i)%Z) (thread_items (rows_of db id)))) as ->; [|by apply filterb_nodup].
    rewrite filterb_filterb. apply List.filter_ext. intros x. destruct (Z.ltb_spec (Z.of_N w) (ir_updated_at_ordinal x)) as [Hlt|]; cbn;
      [|by rewrite ?andb_false_r]. rewrite (proj2 (Z.ltb_lt 0 _)) by lia. by rewrite ?andb_true_r.
  - intros i seg x ->%Hone Hx. by apply Hb.
  - intros i seg x ->%Hone Hx _. unfold stored_item_row. specialize (Hb x Hx). by rewrite !(proj2 (Z.ltb_ge _ _)) by lia.
Qed.

Lemma validate_page_size_ok page_size : page_size ≠ 0%N → (Z.of_N (page_size + 1) ≤ I64_MAX)%Z → validate_page_size page_size = Ok tt.
Proof.
  intros H0 Hp. unfold validate_page_size. rewrite (proj2 (N.eqb_neq _ _) H0). unfold checked_add_u64, I64_MAX, U64_MAX in *.
  rewrite (proj2 (N.leb_le _ _)) by lia. cbn [ok_or rbind]. by rewrite (proj2 (Z.leb_le _ _)) by lia.
Qed.

(** A listing by updates is a listing of the whole rollout by update ordinals. *)
Lemma page_updated_rows db id params w : (Z.of_N (li_page_size params + 1) ≤ I64_MAX)%Z → small_watermark params →
  li_after_updated_at_ordinal params = Some w →
  page_updated_item_rows cursor_to_string cursor_from_str db id params w =
  page_rows cursor_to_string cursor_from_str ir_updated_at_ordinal (stored_item_row ir_updated_at_ordinal)
    (λ _, item_candidates db params 0) (li_thread_id params) ItemsByUpdatedAtOrdinal [whole_rollout id] (li_cursor params)
    (li_page_size params) (li_sort_direction params).
Proof.
  intros Hp Hw Ew. unfold page_updated_item_rows, page_rows. destruct (parse_cursor _ _ _ _) as [c|e]; cbn [rbind]; [|done].
  rewrite (sqlite_ordinal_small w (Hw w Ew)). cbn [rbind].
  assert (segments_from_cursor [whole_rollout id] (li_sort_direction params) c = Ok [(0, whole_rollout id, c)]) as ->.
  { unfold segments_from_cursor. destruct c as [c|]; [|by destruct (li_sort_direction params)]. cbn [segment_index_for_ordinal].
    assert (in_segment (cursor_ordinal c) (whole_rollout id) = true) as -> by (unfold in_segment; cbn; by destruct (cursor_ordinal c)).
    by destruct (li_sort_direction params). }
  cbn [rbind collect]. rewrite remaining_limit_ok by (cbn; lia). cbn [rbind]. change (N.of_nat (length [])) with 0%N.
  rewrite remaining_limit_ok by (cbn; lia). cbn [rbind]. rewrite (proj2 (N.eqb_neq _ _)) by lia. unfold query_segment.
  change (segment_range (whole_rollout id)) with (Ok (λ p, (0 <=? p)%Z) : store_result (Z → bool)). cbn [rbind].
  rewrite item_candidates_asked by done. cbn [rbind]. destruct (cursor_clause _ c) as [clause|e]; cbn [rbind]; [|done].
  assert (List.filter (λ x, (0 <=? ir_updated_at_ordinal x)%Z && clause (ir_updated_at_ordinal x)) (asked_items db params (whole_rollout id)) =
    List.filter (λ i, (Z.of_N w <? ir_updated_at_ordinal i)%Z && of_requested_turn params i && clause (ir_updated_at_ordinal i))
      (thread_items (rows_of db id))) as ->.
  { unfold asked_items, updated_since. rewrite Ew, filterb_filterb. apply List.filter_ext. intros x.
    destruct (Z.ltb_spec (Z.of_N w) (ir_updated_at_ordinal x)); [|done]. rewrite (proj2 (Z.leb_le _ _)) by lia. done. }
  by destruct (check_rows _ _).
Qed.

(** What a listing is ordered by, and whether an item of a segment belongs to it. *)
Definition listing_position params : ItemRow → Z :=
  match li_sort_key params with CreatedAtOrdinal => ir_rollout_ordinal | UpdatedAtOrdinal => ir_updated_at_ordinal end.
Definition listed_item params (seg : RolloutLineageSegment) (i : ItemRow) : bool :=
  updated_since params i && of_requested_turn params i &&
  match li_sort_key params with CreatedAtOrdinal => in_range seg (ir_rollout_ordinal i) | UpdatedAtOrdinal => true end.

(** C9: listing the items of a paginated thread that may be read, page by page, each
    page from the cursor of the one before, ends and returns, over the pages
    together, in strict order in the chosen direction, exactly the items asked for (of
    the requested turn and updated after the watermark, if these are given); no page
    is longer than asked for. Sorted by creation these are the items that the
    rollouts of the lineage hold in their ranges; sorted by updates, which needs a
    watermark, all items of the thread's rollout. A watermark is for threads that are
    not forked; the tables are as the projection leaves them. *)
Theorem item_pages_cover_lineage state_db db segments (params : ListItemsParams) :
  validate_thread_for_paginated_reads state_db (li_thread_id params) (li_include_archived params) ($"list_items") = Ok tt →
  db_ok db → updates_kept db → cursors_roundtrip → lineage_ok segments → Forall small_segment segments → small_watermark params →
  (is_Some (li_after_updated_at_ordinal params) → length segments = 1) →
  (li_sort_key params = UpdatedAtOrdinal → is_Some (li_after_updated_at_ordinal params)) →
  li_page_size params ≠ 0%N → (Z.of_N (li_page_size params + 1) ≤ I64_MAX)%Z →
  ∃ fuel pages,
    follow_pages fuel (λ c, list_items cursor_to_string cursor_from_str state_db (Ok segments) db (with_cursor params c)) None = Ok pages ∧
    StronglySorted (before (listing_position params) (li_sort_direction params)) (mjoin pages) ∧
    (∀ x, x ∈ mjoin pages ↔ ∃ seg, seg ∈ segments ∧ x ∈ thread_items (rows_of db (rollout_id seg)) ∧ listed_item params seg x = true) ∧
    Forall (λ pg, length pg ≤ N.to_nat (li_page_size params)) pages.
Proof.
  intros Hopen Hdb Hu Hrt Hlin Hsm Hw Hone Hup H0 Hp. set (dir := li_sort_direction params).
  assert (∀ c, list_items cursor_to_string cursor_from_str state_db (Ok segments) db (with_cursor params c) =
    page_item_rows cursor_to_string cursor_from_str db segments (with_cursor params c)) as Hlist.
  { intros c. unfold list_items. cbn [li_thread_id li_include_archived li_page_size with_cursor]. rewrite Hopen. cbn [rbind].
    by rewrite validate_page_size_ok. }
  assert (bool_decide (is_Some (li_after_updated_at_ordinal params)) && (1 <? length segments)%nat = false) as Hfork.
  { case_bool_decide as Hs; [|done]. by rewrite Hone. }
  unfold listing_position, listed_item. destruct (li_sort_key params) eqn:Hk.
  - pose proof (items_listable db segments params Hdb Hu Hrt Hlin Hsm Hw) as Hl.
    destruct (follow_all cursor_to_string cursor_from_str ir_rollout_ordinal _ _ _ segments (li_thread_id params) ItemsByCreatedAtOrdinal Hl
      (li_page_size params) dir Hp H0) as (pages & Hf & Hj & Hlen).
    eexists _, pages. split_and!; [|rewrite Hj; by eapply visible_strict| |done].
    + rewrite <-Hf. apply follow_pages_ext. intros c. rewrite Hlist. unfold page_item_rows, with_cursor.
      cbn [li_after_updated_at_ordinal li_sort_key li_thread_id li_cursor li_page_size li_sort_direction]. by rewrite Hfork, Hk.
    + intros x. rewrite Hj, visible_elem. unfold asked_items. setoid_rewrite elem_of_filterb. setoid_rewrite andb_true_iff at 3. split.
      * intros (i & seg & Hi & [Hx Ho] & Hr). exists seg. split_and!; try done. by eapply list_elem_of_lookup_2.
      * intros (seg & [i Hi]%list_elem_of_lookup & Hx & Hr & Ho). by exists i, seg.
  - destruct (Hup eq_refl) as [w Ew]. destruct segments as [|seg [|]]; [by rewrite Ew in Hone; discriminate Hone; eauto| |by rewrite Ew in Hone; discriminate Hone; eauto].
    pose proof (updates_listable db (rollout_id seg) params w Hu Hrt Hw Ew) as Hl.
    destruct (follow_all cursor_to_string cursor_from_str ir_updated_at_ordinal _ _ _ _ (li_thread_id params) ItemsByUpdatedAtOrdinal Hl
      (li_page_size params) dir Hp H0) as (pages & Hf & Hj & Hlen).
    eexists _, pages. split_and!; [|rewrite Hj; by eapply visible_strict| |done].
    + rewrite <-Hf. apply follow_pages_ext. intros c. rewrite Hlist. unfold page_item_rows.
      cbn [li_after_updated_at_ordinal li_sort_key with_cursor]. rewrite Hfork, Hk, Ew. by rewrite (page_updated_rows db _ _ w).
    + intros x. rewrite Hj, visible_elem. setoid_rewrite andb_true_r. split.
      * intros ([|i] & seg' & [= <-] & [Hx Ho]%elem_of_filterb & _). exists seg. split; [left|done].
      * intros (seg' & ->%list_elem_of_singleton & Hx & Ho). exists 0, (whole_rollout (rollout_id seg)). split_and!; [done|by apply elem_of_filterb|].
        destruct (Hu (rollout_id seg)) as (n & _ & Hub). pose proof (updates_bounded n _ Hub) as Hb. rewrite Forall_forall in Hb.
        specialize (Hb x Hx). unfold in_range. cbn. rewrite andb_true_r. apply Z.leb_le. lia.
Qed.

(** ** Turns *)
Definition segment_turns db (seg : RolloutLineageSegment) (turn_id : str) : list TurnRow :=
  List.filter (λ t, is_turn turn_id t && in_range seg (tr_rollout_ordinal t)) (thread_turns (rows_of db (rollout_id seg))).

(** No newer segment has the turn. *)
Definition unshadowed db (newer : list RolloutLineageSegment) (t : TurnRow) : bool :=
  forallb (λ seg, is_empty (segment_turns db seg (tr_turn_id t))) newer.

Definition listed_turns db segments (i : nat) (seg : RolloutLineageSegment) : list TurnRow :=
  List.filter (unshadowed db (drop (S i) segments)) (thread_turns (rows_of db (rollout_id seg))).

Lemma is_empty_filter {A} (f : A → bool) l : is_empty (List.filter f l) = negb (existsb f l).
Proof. induction l as [|x l IH]; cbn; [done|]. by destruct (f x). Qed.

Lemma segment_ranges_small db segments : Forall small_segment segments → ∃ ranges, segment_ranges segments = Ok ranges ∧
  ∀ t, negb (existsb (shadowed_in db (tr_turn_id t)) ranges) = unshadowed db segments t.
Proof.
  induction 1 as [|seg segments Hs _ (ranges & E & IH)]; cbn [segment_ranges]; [by eexists|].
  destruct (segment_range_small seg Hs) as (f & -> & Hf). cbn [rbind]. rewrite E. cbn [rbind]. eexists. split; [done|].
  intros t. cbn [existsb]. rewrite negb_orb, IH. unfold unshadowed. cbn [forallb]. f_equal. unfold segment_turns, shadowed_in. cbn [fst snd].
  rewrite is_empty_filter. f_equal. apply existsb_ext. intros x. by rewrite Hf.
Qed.

Lemma turns_listable db segments : db_ok db → cursors_roundtrip → lineage_ok segments → Forall small_segment segments →
  listable cursor_to_string cursor_from_str tr_rollout_ordinal stored_turn_row (turn_candidates db segments) (listed_turns db segments) segments.
Proof.
  intros Hdb Hrt Hlin Hsm. split; [done|done|done|..].
  - intros i seg _. unfold turn_candidates. destruct (segment_ranges_small db (drop (S i) segments)) as (ranges & -> & E); [by apply Forall_drop|].
    cbn [rbind]. f_equal. apply List.filter_ext. apply E.
  - intros i seg _. destruct (Hdb (rollout_id seg)) as (n & _ & Ht). apply filterb_nodup, sorted_nodup, (ok_turns_sorted n _ Ht).
  - intros i seg x _ [Hx _]%elem_of_filterb. destruct (Hdb (rollout_id seg)) as (n & Hn & Ht).
    pose proof (ok_turns n _ Ht) as Hi. rewrite Forall_forall in Hi. destruct (Hi x Hx) as [? _]. lia.
  - intros i seg x _ [Hx _]%elem_of_filterb _. destruct (Hdb (rollout_id seg)) as (n & _ & Ht).
    pose proof (ok_statuses n _ Ht) as Hi. rewrite Forall_forall in Hi. destruct (Hi x Hx) as [status Hst].
    unfold stored_turn_row. rewrite Hst. by destruct status.
Qed.

Lemma query_turn_row_small db seg id : small_segment seg → query_turn_row db seg id = Ok (head (segment_turns db seg id)).
Proof.
  intros [Hs He]. unfold query_turn_row, segment_turns, in_range. destruct (end_ordinal seg) as [e|]; cbn [transpose rbind].
  - rewrite !sqlite_integer_small by auto. cbn [rbind]. do 2 f_equal. apply List.filter_ext. intros t. by rewrite andb_assoc.
  - rewrite sqlite_integer_small by auto. cbn [rbind]. do 2 f_equal. apply List.filter_ext. intros t. by rewrite !andb_true_r.
Qed.

Lemma find_turn_split db segments id rid x : Forall small_segment segments → find_turn db segments id = Ok (rid, x) ↔
  ∃ l1 seg l2, segments = l1 ++ seg :: l2 ∧ rollout_id seg = rid ∧ head (segment_turns db seg id) = Some x ∧
    Forall (λ s, segment_turns db s id = []) l1.
Proof.
  induction 1 as [|seg segments Hs Hf IH]; cbn [find_turn].
  - split; [done|]. intros (l1 & s & l2 & E & _). by destruct l1.
  - rewrite query_turn_row_small by done. cbn [rbind]. destruct (segment_turns db seg id) as [|t ts] eqn:E; cbn [head].
    + rewrite IH. split.
      * intros (l1 & s & l2 & -> & H1 & H2 & H3). exists (seg :: l1), s, l2. split_and!; [done|done|done|by constructor].
      * intros ([|s' l1] & s & l2 & [= -> ->] & H1 & H2 & H3); [by rewrite E in H2|]. apply Forall_cons in H3 as [_ H3]. by exists l1, s, l2.
    + split.
      * intros [= <- <-]. exists [], seg, segments. split_and!; [done|done|by rewrite E|constructor].
      * intros ([|s' l1] & s & l2 & [= -> ->] & H1 & H2 & H3); [rewrite E in H2; cbn in H2; congruence|].
        apply Forall_cons in H3 as [H3 _]. congruence.
Qed.

Lemma nodup_key_inj {A K} (f : A → K) l x y : NoDup (f <$> l) → x ∈ l → y ∈ l → f x = f y → x = y.
Proof.
  intros Hd [i Hi]%list_elem_of_lookup [j Hj]%list_elem_of_lookup E.
  assert (i = j) as <- by (eapply (NoDup_lookup (f <$> l)); [done|rewrite list_lookup_fmap, Hi; done|rewrite list_lookup_fmap, Hj; cbn; by rewrite E]).
  congruence.
Qed.

Lemma segment_turn_head db seg x : db_ok db → head (segment_turns db seg (tr_turn_id x)) = Some x ↔
  x ∈ thread_turns (rows_of db (rollout_id seg)) ∧ in_range seg (tr_rollout_ordinal x) = true.
Proof.
  intros Hdb. destruct (Hdb (rollout_id seg)) as (n & _ & Ht). split.
  - intros Hh. assert (x ∈ segment_turns db seg (tr_turn_id x)) as [Hx [_ Hr]%andb_true_iff]%elem_of_filterb; [|done].
    destruct (segment_turns db seg (tr_turn_id x)); [done|]. injection Hh as ->. left.
  - intros [Hx Hr]. assert (x ∈ segment_turns db seg (tr_turn_id x)) as Hin.
    { apply elem_of_filterb. split; [done|]. unfold is_turn. by rewrite bool_decide_eq_true_2, Hr. }
    destruct (segment_turns db seg (tr_turn_id x)) as [|y l] eqn:E; [by apply not_elem_of_nil in Hin|]. cbn. f_equal.
    assert (y ∈ segment_turns db seg (tr_turn_id x)) as [Hy [Hid _]%andb_true_iff]%elem_of_filterb by (rewrite E; left).
    apply (nodup_key_inj tr_turn_id _ _ _ (ok_turn_ids n _ Ht)); [done|done|]. unfold is_turn in Hid. by apply bool_decide_eq_true in Hid.
Qed.

Lemma unshadowed_spec db newer t : unshadowed db newer t = true ↔ Forall (λ s, segment_turns db s (tr_turn_id t) = []) newer.
Proof.
  unfold unshadowed. rewrite forallb_forall, Forall_forall. split.
  - intros H s Hs%list_elem_of_In. specialize (H s Hs). by destruct (segment_turns db s (tr_turn_id t)).
  - intros H s Hs%list_elem_of_In. by rewrite (H s Hs).
Qed.

(** C10: Listing the turns of a paginated thread that may be read page by page ends,
    returns the turns in strict order of their ordinals, and shows of each turn
    exactly the row that looking it up by its identifier finds, so a turn that a fork
    continued is listed once, as its newest segment has it. *)
Theorem turn_pages_show_visible_turns state_db (archived : bool) db segments (thread_id : str) (page_size : N) (dir : SortDirection) :
  validate_thread_for_paginated_reads state_db thread_id archived ($"list_turns") = Ok tt →
  db_ok db → cursors_roundtrip → lineage_ok segments → Forall small_segment segments →
  page_size ≠ 0%N → (Z.of_N (page_size + 1) ≤ I64_MAX)%Z →
  ∃ fuel pages,
    follow_pages fuel (λ c, list_turns cursor_to_string cursor_from_str state_db archived (Ok segments) db thread_id c page_size dir) None = Ok pages ∧
    StronglySorted (before tr_rollout_ordinal dir) (mjoin pages) ∧
    (∀ x, x ∈ mjoin pages ↔ ∃ rid, find_visible_turn db segments (tr_turn_id x) = Ok (rid, x)) ∧
    Forall (λ pg, length pg ≤ N.to_nat page_size) pages.
Proof.
  intros Hopen Hdb Hrt Hlin Hsm H0 Hp. pose proof (turns_listable db segments Hdb Hrt Hlin Hsm) as Hl.
  destruct (follow_all cursor_to_string cursor_from_str tr_rollout_ordinal _ _ _ segments thread_id ScopeTurns Hl page_size dir Hp H0)
    as (pages & Hf & Hj & Hlen).
  eexists _, pages. split_and!; [|rewrite Hj; by eapply visible_strict| |done].
  - rewrite <-Hf. apply follow_pages_ext. intros c. unfold list_turns. rewrite Hopen. cbn [rbind]. by rewrite validate_page_size_ok.
  - intros x. rewrite Hj, visible_elem. unfold find_visible_turn.
    setoid_rewrite find_turn_split; [|by apply Forall_reverse]. unfold listed_turns. setoid_rewrite elem_of_filterb.
    setoid_rewrite unshadowed_spec. split.
    + intros (i & seg & Hi & [Hx Hu] & Hr). exists (rollout_id seg), (reverse (drop (S i) segments)), seg, (reverse (take i segments)).
      split_and!; [|done|by apply segment_turn_head|by apply Forall_reverse].
      rewrite <-(take_drop_middle segments i seg Hi) at 1. by rewrite reverse_app, reverse_cons, <-app_assoc.
    + intros (rid & l1 & seg & l2 & E & <- & Hh & Hn). apply segment_turn_head in Hh as [Hx Hr]; [|done].
      assert (segments = reverse l2 ++ seg :: reverse l1) as ->.
      { rewrite <-(reverse_involutive segments), E, reverse_app, reverse_cons, <-app_assoc. done. }
      exists (length (reverse l2)), seg. rewrite list_lookup_middle by done. split_and!; [done|done| |done].
      rewrite drop_app_ge by lia. replace (S (length (reverse l2)) - length (reverse l2)) with 1 by lia. cbn. by apply Forall_reverse.
Qed.
End listing_spec.

(** ** Following the pointers to older rollouts *)
Section lineage_spec.
Context (rollouts : gmap str RolloutInfo).

(** Segments, newest first, each starting after the position in the next one that it continues. *)
Fixpoint linked (end_ : option HistoryPosition) (newest_first : list RolloutLineageSegment) : Prop :=
  match newest_first with
  | [] => False
  | seg :: older =>
      seg_end seg = end_ ∧
      match older with
      | [] => start_ordinal seg = 1%N
      | next :: _ => ∃ base, hp_thread_id base = rollout_id next ∧ start_ordinal seg = (hp_end_ordinal_exclusive base + 1)%N ∧
                             linked (Some base) older
      end
  end.

Lemma lineage_segment_Ok requested first id info end_ seg : lineage_segment requested first id info end_ = Ok seg →
  rollout_id seg = id ∧ seg_end seg = end_ ∧
  start_ordinal seg = match ri_history_base info with Some base => (hp_end_ordinal_exclusive base + 1)%N | None => 1%N end.
Proof.
  unfold lineage_segment. destruct (_ && _); [done|]. destruct (negb _); [done|].
  destruct (match end_ with Some e => _ | None => _ end); cbn [rbind]; [|done]. destruct (ri_history_base info) as [base|]; cbn [rbind].
  - destruct (checked_add_u64 _ 1) as [n|] eqn:Hn; cbn [ok_or rbind]; [|done]. apply checked_add_u64_Some in Hn as ->. by intros [= <-].
  - by intros [= <-].
Qed.

Lemma lineage_loop_spec fuel requested seen first id end_ : seen ⊆ dom rollouts → size rollouts < fuel + size seen →
  ∃ res, lineage_loop rollouts fuel requested seen first id end_ = Some res ∧
    match res with
    | Ok segs => head (rollout_id <$> segs) = Some id ∧ NoDup (rollout_id <$> segs) ∧ Forall (λ s, rollout_id s ∉ seen) segs ∧ linked end_ segs
    | Err _ => True
    end.
Proof.
  revert seen first id end_. induction fuel as [|fuel IH]; intros seen first id end_ Hsub Hsz.
  { apply subseteq_size in Hsub. rewrite size_dom in Hsub. lia. }
  cbn [lineage_loop]. destruct (rollouts !! id) as [info|] eqn:Hid; [|by eexists].
  destruct (bool_decide (id ∈ seen)) eqn:Hseen; [by eexists|]. apply bool_decide_eq_false in Hseen.
  destruct (lineage_segment requested first id info end_) as [seg|] eqn:Hseg; [|by eexists].
  apply lineage_segment_Ok in Hseg as (Hrid & Hend & Hst). destruct (ri_history_base info) as [base|] eqn:Hb.
  - destruct (IH ({[id]} ∪ seen) false (hp_thread_id base) (Some base)) as (res & -> & Hres).
    + apply union_subseteq. split; [|done]. intros x ->%elem_of_singleton. by apply elem_of_dom_2 in Hid.
    + rewrite size_union, size_singleton by set_solver. lia.
    + destruct res as [segs|]; [|by eexists]. eexists. split; [done|]. destruct Hres as (Hh & Hd & Hf & Hl).
      destruct segs as [|next segs]; [done|]. injection Hh as Hh. cbn [fmap list_fmap head]. rewrite Hrid. split_and!; [done| |..].
      * constructor; [|done]. intros (s & E & Hs)%(list_elem_of_fmap rollout_id (next :: segs)). rewrite Forall_forall in Hf. specialize (Hf s Hs). set_solver.
      * constructor; [by rewrite Hrid|]. eapply Forall_impl; [exact Hf|]. set_solver.
      * cbn [linked]. split; [done|]. exists base. split; [by symmetry|]. split; [done|exact Hl].
  - eexists. split; [done|]. cbn. rewrite Hrid. split_and!; [done|apply NoDup_singleton|apply Forall_singleton; by rewrite Hrid|done|done].
Qed.

(** A lineage without reversed ranges is in order. *)
Lemma linked_ends_below end_ segs e : linked end_ segs → end_ordinal <$> head segs = Some (Some e) →
  Forall (λ s, ∀ e, end_ordinal s = Some e → (start_ordinal s ≤ e)%N) segs →
  Forall (λ s, ∃ e', end_ordinal s = Some e' ∧ (e' ≤ e)%N) segs.
Proof.
  revert end_ e. induction segs as [|seg segs IH]; intros end_ e Hl Hh Hr; [done|]. cbn in Hh. injection Hh as Hh.
  apply Forall_cons in Hr as [Hr1 Hr]. constructor; [by exists e|]. destruct Hl as [_ Hl]. destruct segs as [|next segs]; [done|].
  destruct Hl as (base & _ & Hst & Hl). specialize (Hr1 e Hh).
  assert (end_ordinal <$> head (next :: segs) = Some (Some (hp_end_ordinal_exclusive base))) as Hn.
  { cbn. destruct Hl as [Hl _]. unfold end_ordinal. by rewrite Hl. }
  specialize (IH _ _ Hl Hn Hr). eapply Forall_impl; [exact IH|]. intros s (e' & He & Hle). exists e'. split; [done|lia].
Qed.

Lemma lineage_ok_snoc segs seg : lineage_ok segs → Forall (λ s, ∃ e, end_ordinal s = Some e ∧ (e ≤ start_ordinal seg)%N) segs →
  lineage_ok (segs ++ [seg]).
Proof.
  induction segs as [|s segs IH]; cbn; [by repeat constructor|]. intros [Hs Hl] [Hx Hf]%Forall_cons. split; [|by apply IH].
  apply Forall_app. split; [done|]. by apply Forall_singleton.
Qed.

Lemma linked_lineage_ok end_ segs : linked end_ segs → Forall (λ s, ∀ e, end_ordinal s = Some e → (start_ordinal s ≤ e)%N) segs →
  lineage_ok (reverse segs).
Proof.
  revert end_. induction segs as [|seg segs IH]; intros end_ Hl Hr; [done|]. rewrite reverse_cons. apply Forall_cons in Hr as [_ Hr].
  destruct Hl as [_ Hl]. destruct segs as [|next segs]; [cbn; by repeat constructor|]. destruct Hl as (base & _ & Hst & Hl).
  apply lineage_ok_snoc; [by apply (IH (Some base))|]. apply Forall_reverse.
  assert (end_ordinal <$> head (next :: segs) = Some (Some (hp_end_ordinal_exclusive base))) as Hn.
  { cbn. destruct Hl as [Hl _]. unfold end_ordinal. by rewrite Hl. }
  eapply Forall_impl; [exact (linked_ends_below _ _ _ Hl Hn Hr)|]. intros s (e & He & Hle). exists e. split; [done|lia].
Qed.

(** C12: Resolving the lineage of a thread always ends, pointers that form a cycle
    included: it reports an error or returns segments of distinct rollouts, the
    thread's own last and unbounded, each starting right after the position it
    continues in the one before; if no range is reversed, the segments are in
    order and disjoint, as paging needs them. *)
Theorem lineage_resolution_ends (current_rollout : str → option str) (requested : str) :
  ∃ res, resolve_rollout_lineage rollouts current_rollout requested = Some res ∧
    ∀ segs, res = Ok segs →
      rollout_id <$> last segs = current_rollout requested ∧ NoDup (rollout_id <$> segs) ∧ linked None (reverse segs) ∧
      (Forall (λ s, ∀ e, end_ordinal s = Some e → (start_ordinal s ≤ e)%N) segs → lineage_ok segs).
Proof.
  unfold resolve_rollout_lineage. destruct (current_rollout requested) as [id|]; [|by eexists].
  destruct (lineage_loop_spec (S (S (size rollouts))) requested ∅ true id None) as (res & -> & Hres);
    [set_solver|rewrite size_empty; lia|]. destruct res as [segs|]; [|by eexists].
  eexists. split; [done|]. intros ? [= <-]. destruct Hres as (Hh & Hd & _ & Hl). rewrite reverse_involutive. split_and!; [| |done|].
  - rewrite last_reverse. by destruct segs.
  - by rewrite fmap_reverse, reverse_Permutation.
  - intros Hr. rewrite Forall_reverse in Hr. by eapply linked_lineage_ok.
Qed.
End lineage_spec.

(** ** A concrete forked thread *)
Module PagingExamples.
#[local] Existing Instance RolloutStoreSpec.Examples.demo_wire.

Definition cursor_text (c : HistoryCursor) : str :=
  (if include_anchor c then 1%N else 0%N) ::
  match cursor_scope c with ScopeTurns => 0%N | ItemsByCreatedAtOrdinal => 1%N | ItemsByUpdatedAtOrdinal => 2%N end ::
  cursor_ordinal c :: requested_thread_id c.
Definition text_cursor (s : str) : option HistoryCursor :=
  match s with
  | a :: k :: o :: id =>
      Some (mkCursor id o (a =? 1)%N (if (k =? 0)%N then ScopeTurns else if (k =? 1)%N then ItemsByCreatedAtOrdinal else ItemsByUpdatedAtOrdinal))
  | _ => None
  end.
Lemma text_roundtrip : cursors_roundtrip cursor_text text_cursor.
Proof. intros [id o [] []]; reflexivity. Qed.

Definition turn_at (id : str) (o : Z) : TurnRow := mkTurnRow id o 0 None None ($"inProgress") None None None None None None.
Definition item_at (id : str) (o : Z) : ItemRow := mkItemRow ($"t1") id o o 0 ($"plan") (Plan id []).

(** A fork of the first rollout after its ordinal 2: turn t2 goes on in the fork. *)
Definition old_rows : ThreadRows :=
  mkRows [turn_at ($"t1") 1; turn_at ($"t2") 2; turn_at ($"t9") 7] [item_at ($"i1") 1; item_at ($"i2") 2; item_at ($"i9") 7] [] None.
Definition new_rows : ThreadRows := mkRows [turn_at ($"t2") 4; turn_at ($"t3") 5] [item_at ($"i4") 4; item_at ($"i5") 5] [] None.
Definition demo_db : gmap str ThreadRows := {[ $"old" := old_rows; $"new" := new_rows ]}.
Definition demo_segments : list RolloutLineageSegment :=
  [mkSegment ($"old") 1 (Some (mkPosition ($"old") 3 0)); mkSegment ($"new") 4 None].

Ltac rows :=
  repeat first [apply Forall_nil_2 | apply Forall_cons_2 | apply SSorted_nil | apply SSorted_cons | apply NoDup_nil_2 | apply NoDup_cons_2 |
                by apply (bool_decide_unpack _); vm_compute].

Lemma demo_db_ok : db_ok demo_db.
Proof.
  assert (tables_ok 8 old_rows ∧ tables_ok 8 new_rows ∧ tables_ok 8 no_rows) as (H1 & H2 & H3).
  { split_and!; split; cbn; rows; try (by exists TurnInProgress); try (split; [cbn; lia|done]); cbn; lia. }
  intros id. exists 8%Z. split; [by vm_compute|]. unfold rows_of, demo_db.
  destruct (decide (id = $"old")) as [->|Ho]; [done|]. destruct (decide (id = $"new")) as [->|Hn]; [done|].
  by rewrite lookup_insert_ne, lookup_singleton_ne by done.
Qed.

Lemma demo_lineage : lineage_ok demo_segments ∧ Forall small_segment demo_segments.
Proof.
  split.
  - cbn. split; [|by repeat constructor]. apply Forall_singleton. exists 3%N. split; [done|cbn; lia].
  - repeat constructor; cbn; intros; simplify_eq; by vm_compute.
Qed.

Definition demo_params : ListItemsParams := mkListItems ($"thread") None None 3 Desc CreatedAtOrdinal None false.
Definition demo_access : option (str → result str (option ThreadAccess)) := Some (λ _, Ok (Some (mkAccess false true))).

Lemma demo_updates : updates_kept demo_db.
Proof.
  assert (updates_ok 8 old_rows ∧ updates_ok 8 new_rows ∧ updates_ok 8 no_rows) as (H1 & H2 & H3).
  { split_and!; split; cbn; rows; try (repeat constructor; cbn; lia); cbn; lia. }
  intros id. exists 8%Z. split; [by vm_compute|]. unfold rows_of, demo_db.
  destruct (decide (id = $"old")) as [->|Ho]; [done|]. destruct (decide (id = $"new")) as [->|Hn]; [done|].
  by rewrite lookup_insert_ne, lookup_singleton_ne by done.
Qed.

Lemma item_pages_cover_lineage_witness :
  ∃ fuel pages,
    follow_pages fuel (λ c, list_items cursor_text text_cursor demo_access (Ok demo_segments) demo_db (with_cursor demo_params c)) None = Ok pages ∧
    StronglySorted (before ir_rollout_ordinal Desc) (mjoin pages) ∧ item_at ($"i2") 2 ∈ mjoin pages.
Proof.
  destruct demo_lineage as [Hl Hs].
  destruct (item_pages_cover_lineage cursor_text text_cursor demo_access demo_db demo_segments demo_params eq_refl demo_db_ok demo_updates
    text_roundtrip Hl Hs) as (fuel & pages & Hf & Hsort & He & _);
    [intros w [=]|intros [w [=]]|discriminate|discriminate|by vm_compute|].
  exists fuel, pages. split_and!; [exact Hf|exact Hsort|]. apply He. exists (mkSegment ($"old") 1 (Some (mkPosition ($"old") 3 0))).
  split_and!; [left| |reflexivity]. change (rows_of demo_db _) with old_rows. right. left.
Defined.

(** A request for what was updated after the third line, in the order of updates. *)
Definition update_params (c : option str) : ListItemsParams := mkListItems ($"thread") None c 1 Asc UpdatedAtOrdinal (Some 1%N) false.
Example updates_listed :
  follow_pages 4 (λ c, list_items cursor_text text_cursor demo_access (Ok [mkSegment ($"old") 1 None]) demo_db (update_params c)) None =
    Ok [[item_at ($"i2") 2]; [item_at ($"i9") 7]] ∧
  follow_pages 4 (λ c, list_items cursor_text text_cursor (Some (λ _, Ok (Some (mkAccess true true)))) (Ok demo_segments) demo_db (update_params c)) None =
    Err (InvalidRequest ($"thread thread is archived")).
Proof. split; vm_compute; reflexivity. Qed.

Lemma turn_pages_show_visible_turns_witness :
  ∃ fuel pages,
    follow_pages fuel (λ c, list_turns cursor_text text_cursor demo_access false (Ok demo_segments) demo_db ($"thread") c 2 Asc) None = Ok pages ∧
    StronglySorted (before tr_rollout_ordinal Asc) (mjoin pages) ∧ turn_at ($"t2") 4 ∈ mjoin pages ∧ turn_at ($"t2") 2 ∉ mjoin pages.
Proof.
  destruct demo_lineage as [Hl Hs].
  destruct (turn_pages_show_visible_turns cursor_text text_cursor demo_access false demo_db demo_segments ($"thread") 2 Asc eq_refl demo_db_ok text_roundtrip Hl Hs)
    as (fuel & pages & Hf & Hsort & He & _); [discriminate|by vm_compute|].
  exists fuel, pages. split_and!; [exact Hf|exact Hsort| |].
  - apply He. exists ($"new"). vm_compute. reflexivity.
  - intros [rid Hr]%He. vm_compute in Hr. discriminate.
Defined.
End PagingExamples.
