(* ===== verification/MemoryJobs.v ===== *)
(** * The store of memory jobs: [state/src/runtime/memories.rs]

    Memories are extracted from idle threads in two stages. A stage-1 job per
    thread summarises it into a row of [stage1_outputs]; one global job, the
    phase-2 lock, consolidates the selected rows. Workers of several processes
    share one table of jobs: a claim writes a token and a lease, later statements
    act only on the row that still carries the token. A claim, a completion, a
    heartbeat, a deletion and a pruning are one transaction or statement each; the
    clock and the new token are arguments. What runs as several statements sees what
    others did in between: the readers of outputs take the tables that each of their
    queries sees ([views]), the writers what other workers do before each
    statement ([others]).

    Texts that the statements compare ([status], [memory_mode]) keep their values;
    a thread identifier is its canonical text. SQLite integers are integers:
    counters stay far from 64 bits. Durations beyond the range of [chrono], which
    panic, and errors of the database itself are left out. *)

From stdpp Require Import prelude list gmap strings sorting.
From S2P Require Import Prelude History.

Open Scope rust_scope.

(** ** Tables *)
Inductive JobStatus : Type := Pending | Running | Done | Failed.
#[global] Instance JobStatus_eq_dec : EqDecision JobStatus.
Proof. solve_decision. Defined.

Record Job : Type := mkJob {
  job_status : JobStatus;
  worker_id : option str;
  ownership_token : option str;
  started_at : option Z;
  finished_at : option Z;
  lease_until : option Z;
  retry_at : option Z;
  retry_remaining : Z;
  last_error : option str;
  input_watermark : option Z;
  last_success_watermark : option Z
}.
#[global] Instance Job_eq_dec : EqDecision Job.
Proof. solve_decision. Defined.

Record OutputRow : Type := mkOutput {
  source_updated_at : Z;
  raw_memory : str;
  rollout_summary : str;
  rollout_slug : option str;
  generated_at : Z;
  usage_count : option Z;
  last_usage : option Z;
  selected_for_phase2 : Z;
  selected_for_phase2_source_updated_at : option Z
}.

(** The columns of [threads] the store reads; the others are opaque. *)
Record ThreadColumns {Columns : Type} : Type := mkThread {
  th_updated_at_ms : Z;
  th_archived : bool;
  th_preview : str;
  th_source : str;
  th_memory_mode : str;
  th_rollout_path : str;
  th_cwd : str;
  th_git_branch : option str;
  th_columns : Columns
}.
Arguments ThreadColumns : clear implicits.

Definition JOB_KIND_MEMORY_STAGE1 : str := $"memory_stage1".
Definition JOB_KIND_MEMORY_CONSOLIDATE_GLOBAL : str := $"memory_consolidate_global".
Definition MEMORY_CONSOLIDATION_JOB_KEY : str := $"global".
Definition PHASE2_SUCCESS_COOLDOWN_SECONDS : Z := (6 * 60 * 60)%Z.
Definition PHASE2_INPUT_SELECTION_PAGE_SIZE : N := 512.
Definition DEFAULT_RETRY_REMAINING : Z := 3.

Definition stage1_key (thread_id : str) : str * str := (JOB_KIND_MEMORY_STAGE1, thread_id).
Definition global_key : str * str := (JOB_KIND_MEMORY_CONSOLIDATE_GLOBAL, MEMORY_CONSOLIDATION_JOB_KEY).

(** [memory_mode] of a thread whose memories are kept. *)
Definition ENABLED_MODE : str := $"enabled".
Definition POLLUTED_MODE : str := $"polluted".

Record MemoryDb : Type := mkDb { jobs : gmap (str * str) Job; stage1_outputs : gmap str OutputRow }.
Definition with_jobs (db : MemoryDb) js : MemoryDb := mkDb js (stage1_outputs db).
Definition with_outputs (db : MemoryDb) os : MemoryDb := mkDb (jobs db) os.
Definition empty_db : MemoryDb := mkDb ∅ ∅.

(** ** SQL and casts *)

(** [usize as i64]: wraps. *)
Definition usize_as_i64 (n : N) : Z := if (Z.of_N n <=? I64_MAX)%Z then Z.of_N n else (Z.of_N n - 2 ^ 64)%Z.

(** [LIMIT]: a negative limit is none. *)
Definition sql_limit {A} (limit : Z) (rows : list A) : list A :=
  if (limit <? 0)%Z then rows else take (Z.to_nat limit) rows.

(** [trim] removes spaces, [length] stops at a zero character. *)
Definition is_space (c : char) : bool := (c =? SPACE)%N.
Definition sql_trim (s : str) : str := trim_end_matches is_space (trim_start_matches is_space s).
Fixpoint sql_length (s : str) : nat :=
  match s with [] => 0 | c :: s => if (c =? 0)%N then 0 else S (sql_length s) end.

(** ** Outcomes *)
Inductive Stage1JobClaimOutcome : Type :=
| Stage1Claimed (token : str)
| Stage1SkippedUpToDate
| Stage1SkippedRunning
| Stage1SkippedRetryBackoff
| Stage1SkippedRetryExhausted.

Inductive Phase2JobClaimOutcome : Type :=
| Phase2Claimed (token : str) (input_watermark : Z)
| Phase2SkippedRetryUnavailable
| Phase2SkippedCooldown
| Phase2SkippedRunning.

(** ** Conditions on a job *)
Definition is_running (j : Job) : bool := bool_decide (job_status j = Running).
Definition later_than (now : Z) (t : option Z) : bool := match t with Some t => (now <? t)%Z | None => false end.

(** Running with a lease that has not expired. *)
Definition lease_live (now : Z) (j : Job) : bool := is_running j && later_than now (lease_until j).
(** The row a holder of the token may change. *)
Definition owned_running (token : str) (j : Job) : bool :=
  is_running j && bool_decide (ownership_token j = Some token).
(** The source is newer than the one the last claim was for. *)
Definition advanced (watermark : Z) (j : Job) : bool := (default (-1) (input_watermark j) <? watermark)%Z.

Definition live_jobs (kind : str) (now : Z) (db : MemoryDb) : gmap (str * str) Job :=
  filter (λ kj, kj.1.1 = kind ∧ lease_live now kj.2 = true) (jobs db).
Definition running_count (kind : str) (now : Z) (db : MemoryDb) : Z := Z.of_nat (size (live_jobs kind now db)).

(** ** Stage 1 *)
Definition up_to_date (db : MemoryDb) (thread_id : str) (source : Z) : bool :=
  match stage1_outputs db !! thread_id with Some o => (source <=? source_updated_at o)%Z | None => false end
  || match jobs db !! stage1_key thread_id with
     | Some j => match last_success_watermark j with Some w => (source <=? w)%Z | None => false end
     | None => false
     end.

Definition stage1_source_needs_update (db : MemoryDb) (thread_id : str) (source : Z) : bool :=
  negb (up_to_date db thread_id source).

(** The row of a first claim. *)
Definition new_stage1_job (now lease : Z) (token worker : str) (source : Z) : Job :=
  mkJob Running (Some worker) (Some token) (Some now) None (Some lease) None DEFAULT_RETRY_REMAINING None (Some source) None.

(** The condition and the assignments of [ON CONFLICT DO UPDATE]. *)
Definition stage1_claimable (db : MemoryDb) (key : str * str) (now source max_running : Z) (j : Job) : bool :=
  (negb (is_running j) || negb (later_than now (lease_until j)))
  && (negb (later_than now (retry_at j)) || advanced source j)
  && ((0 <? retry_remaining j)%Z || advanced source j)
  && (Z.of_nat (size (delete key (live_jobs JOB_KIND_MEMORY_STAGE1 now db))) <? max_running)%Z.

Definition reclaimed_stage1_job (now lease : Z) (token worker : str) (source : Z) (j : Job) : Job :=
  mkJob Running (Some worker) (Some token) (Some now) None (Some lease) None
    (if advanced source j then DEFAULT_RETRY_REMAINING else retry_remaining j)
    None (Some source) (last_success_watermark j).

(** [INSERT … SELECT … WHERE … ON CONFLICT …]: the new row, if a row was written. *)
Definition stage1_claim_row (db : MemoryDb) (key : str * str) (now lease : Z) (token worker : str) (source max_running : Z)
    : option Job :=
  if (running_count JOB_KIND_MEMORY_STAGE1 now db <? max_running)%Z then
    match jobs db !! key with
    | None => Some (new_stage1_job now lease token worker source)
    | Some j => if stage1_claimable db key now source max_running j
                then Some (reclaimed_stage1_job now lease token worker source j) else None
    end
  else None.

(** Why a claim was not granted, read from the row. *)
Definition stage1_skip_reason (now : Z) (row : option Job) : Stage1JobClaimOutcome :=
  match row with
  | Some j =>
      if (retry_remaining j <=? 0)%Z then Stage1SkippedRetryExhausted
      else if later_than now (retry_at j) then Stage1SkippedRetryBackoff
      else if lease_live now j then Stage1SkippedRunning
      else Stage1SkippedRunning
  | None => Stage1SkippedRunning
  end.

Definition try_claim_stage1_job (now : Z) (token : str) (thread_id worker : str) (source lease_seconds : Z)
    (max_running_jobs : N) (db : MemoryDb) : MemoryDb * Stage1JobClaimOutcome :=
  let lease := saturating_add_i64 now (Z.max lease_seconds 0) in
  let max_running := usize_as_i64 max_running_jobs in
  let key := stage1_key thread_id in
  if up_to_date db thread_id source then (db, Stage1SkippedUpToDate)
  else match stage1_claim_row db key now lease token worker source max_running with
       | Some row => (with_jobs db (<[key := row]> (jobs db)), Stage1Claimed token)
       | None => (db, stage1_skip_reason now (jobs db !! key))
       end.

(** ** The global job *)
Definition enqueued_job (watermark : Z) (row : option Job) : Job :=
  match row with
  | None => mkJob Pending None None None None None None DEFAULT_RETRY_REMAINING None (Some watermark) (Some 0%Z)
  | Some j =>
      mkJob (if is_running j then Running else Pending) (worker_id j) (ownership_token j) (started_at j) (finished_at j)
        (lease_until j) (if is_running j then retry_at j else None)
        (Z.max (retry_remaining j) DEFAULT_RETRY_REMAINING) (last_error j)
        (Some (if (default 0 (input_watermark j) <? watermark)%Z then watermark else default 0 (input_watermark j) + 1)%Z)
        (last_success_watermark j)
  end.

Definition enqueue_global_consolidation (watermark : Z) (db : MemoryDb) : MemoryDb :=
  with_jobs db (<[global_key := enqueued_job watermark (jobs db !! global_key)]> (jobs db)).

(** ** Finishing stage-1 jobs *)
(** [UPDATE jobs … WHERE key AND condition]: the table, and whether a row was changed. *)
Definition update_job (key : str * str) (p : Job → bool) (f : Job → Job) (db : MemoryDb) : MemoryDb * bool :=
  match jobs db !! key with
  | Some j => if p j then (with_jobs db (<[key := f j]> (jobs db)), true) else (db, false)
  | None => (db, false)
  end.

Definition succeeded_job (now : Z) (j : Job) : Job :=
  mkJob Done (worker_id j) (ownership_token j) (started_at j) (Some now) None (retry_at j) (retry_remaining j) None
    (input_watermark j) (input_watermark j).

Definition upsert_output (thread_id : str) (new : OutputRow) (os : gmap str OutputRow) : gmap str OutputRow :=
  match os !! thread_id with
  | None => <[thread_id := new]> os
  | Some old =>
      if (source_updated_at old <=? source_updated_at new)%Z then
        <[thread_id := mkOutput (source_updated_at new) (raw_memory new) (rollout_summary new) (rollout_slug new)
            (generated_at new) (usage_count old) (last_usage old) (selected_for_phase2 old)
            (selected_for_phase2_source_updated_at old)]> os
      else os
  end.

Definition mark_stage1_job_succeeded (now : Z) (thread_id token : str) (source : Z) (raw summary : str) (slug : option str)
    (db : MemoryDb) : MemoryDb * bool :=
  let '(db', updated) := update_job (stage1_key thread_id) (owned_running token) (succeeded_job now) db in
  if negb updated then (db, false)
  else
    let new := mkOutput source raw summary slug now None None 0 None in
    (enqueue_global_consolidation source (with_outputs db' (upsert_output thread_id new (stage1_outputs db'))), true).

(** A missing watermark fails to decode, and the transaction is rolled back. *)
Definition null_watermark : str := $"error occurred while decoding column input_watermark".

Definition mark_stage1_job_succeeded_no_output (now : Z) (thread_id token : str) (db : MemoryDb)
    : MemoryDb * result str bool :=
  let '(db', updated) := update_job (stage1_key thread_id) (owned_running token) (succeeded_job now) db in
  if negb updated then (db, Ok false)
  else match jobs db' !! stage1_key thread_id ≫= input_watermark with
       | None => (db, Err null_watermark)
       | Some source =>
           match stage1_outputs db' !! thread_id with
           | None => (db', Ok true)
           | Some _ =>
               (enqueue_global_consolidation source (with_outputs db' (delete thread_id (stage1_outputs db'))), Ok true)
           end
       end.

Definition failed_stage1_job (now retry : Z) (reason : str) (j : Job) : Job :=
  mkJob Failed (worker_id j) (ownership_token j) (started_at j) (Some now) None (Some retry) (retry_remaining j - 1)
    (Some reason) (input_watermark j) (last_success_watermark j).

Definition mark_stage1_job_failed (now : Z) (thread_id token reason : str) (retry_delay : Z) (db : MemoryDb) : MemoryDb * bool :=
  let retry := saturating_add_i64 now (Z.max retry_delay 0) in
  update_job (stage1_key thread_id) (owned_running token) (failed_stage1_job now retry reason) db.

(** ** Claiming and finishing the global job *)
Definition new_global_job (now lease : Z) (token worker : str) : Job :=
  mkJob Running (Some worker) (Some token) (Some now) None (Some lease) None DEFAULT_RETRY_REMAINING None (Some 0%Z) (Some 0%Z).

Definition cooling_down (cutoff : Z) (j : Job) : bool :=
  negb (bool_decide (is_Some (last_error j))) && later_than cutoff (finished_at j).

Definition global_claimable (now cutoff : Z) (j : Job) : bool :=
  (negb (is_running j) || negb (later_than now (lease_until j)))
  && negb (later_than now (retry_at j))
  && (bool_decide (is_Some (last_error j)) || negb (later_than cutoff (finished_at j))).

Definition claimed_global_job (now lease : Z) (token worker : str) (j : Job) : Job :=
  mkJob Running (Some worker) (Some token) (Some now) None (Some lease) None (retry_remaining j) None (input_watermark j)
    (last_success_watermark j).

Definition try_claim_global_phase2_job (now : Z) (token worker : str) (lease_seconds : Z) (db : MemoryDb)
    : MemoryDb * Phase2JobClaimOutcome :=
  let lease := saturating_add_i64 now (Z.max lease_seconds 0) in
  let cutoff := saturating_sub_i64 now PHASE2_SUCCESS_COOLDOWN_SECONDS in
  match jobs db !! global_key with
  | None => (with_jobs db (<[global_key := new_global_job now lease token worker]> (jobs db)), Phase2Claimed token 0)
  | Some j =>
      if later_than now (retry_at j) then (db, Phase2SkippedRetryUnavailable)
      else if lease_live now j then (db, Phase2SkippedRunning)
      else if cooling_down cutoff j then (db, Phase2SkippedCooldown)
      else
        let '(db', updated) := update_job global_key (global_claimable now cutoff) (claimed_global_job now lease token worker) db in
        if updated then (db', Phase2Claimed token (default 0 (input_watermark j))%Z) else (db', Phase2SkippedRunning)
  end.

Definition with_lease (lease : Z) (j : Job) : Job :=
  mkJob (job_status j) (worker_id j) (ownership_token j) (started_at j) (finished_at j) (Some lease) (retry_at j)
    (retry_remaining j) (last_error j) (input_watermark j) (last_success_watermark j).

Definition heartbeat_global_phase2_job (now : Z) (token : str) (lease_seconds : Z) (db : MemoryDb) : MemoryDb * bool :=
  update_job global_key (owned_running token) (with_lease (saturating_add_i64 now (Z.max lease_seconds 0))) db.

Definition succeeded_global_job (now completed : Z) (j : Job) : Job :=
  mkJob Done (worker_id j) (ownership_token j) (started_at j) (Some now) None (retry_at j) (retry_remaining j) None
    (input_watermark j) (Some (Z.max (default 0%Z (last_success_watermark j)) completed)).

Definition mark_global_phase2_job_succeeded_row (now : Z) (token : str) (completed : Z) (db : MemoryDb) : MemoryDb * bool :=
  update_job global_key (owned_running token) (succeeded_global_job now completed) db.

Definition select_output (flag : Z) (snapshot : option Z) (o : OutputRow) : OutputRow :=
  mkOutput (source_updated_at o) (raw_memory o) (rollout_summary o) (rollout_slug o) (generated_at o) (usage_count o)
    (last_usage o) flag snapshot.

Definition unselect_output (o : OutputRow) : OutputRow :=
  if negb (selected_for_phase2 o =? 0)%Z || bool_decide (is_Some (selected_for_phase2_source_updated_at o))
  then select_output 0 None o else o.

(** One selected snapshot: the row of the thread, if it is still the same version. *)
Definition select_snapshot (os : gmap str OutputRow) (snapshot : str * Z) : gmap str OutputRow :=
  match os !! snapshot.1 with
  | Some o => if (source_updated_at o =? snapshot.2)%Z then <[snapshot.1 := select_output 1 (Some snapshot.2) o]> os else os
  | None => os
  end.

Definition mark_global_phase2_job_succeeded (now : Z) (token : str) (completed : Z) (selected : list (str * Z)) (db : MemoryDb)
    : MemoryDb * bool :=
  let '(db', updated) := mark_global_phase2_job_succeeded_row now token completed db in
  if negb updated then (db', false)
  else (with_outputs db' (foldl select_snapshot (unselect_output <$> stage1_outputs db') selected), true).

Definition failed_global_job (now retry : Z) (reason : str) (j : Job) : Job :=
  mkJob Failed (worker_id j) (ownership_token j) (started_at j) (Some now) None (Some retry)
    (Z.max (retry_remaining j - 1) 0) (Some reason) (input_watermark j) (last_success_watermark j).

Definition mark_global_phase2_job_failed (now : Z) (token reason : str) (retry_delay : Z) (db : MemoryDb) : MemoryDb * bool :=
  update_job global_key (owned_running token) (failed_global_job now (saturating_add_i64 now (Z.max retry_delay 0)) reason) db.

Definition owned_or_unowned (token : str) (j : Job) : bool :=
  is_running j && (bool_decide (ownership_token j = Some token) || negb (bool_decide (is_Some (ownership_token j)))).

Definition mark_global_phase2_job_failed_if_unowned (now : Z) (token reason : str) (retry_delay : Z) (db : MemoryDb)
    : MemoryDb * bool :=
  update_job global_key (owned_or_unowned token) (failed_global_job now (saturating_add_i64 now (Z.max retry_delay 0)) reason) db.

(** ** Housekeeping *)
Definition clear_memory_data (db : MemoryDb) : MemoryDb :=
  mkDb (filter (λ kj, ¬ (kj.1.1 = JOB_KIND_MEMORY_STAGE1 ∨ kj.1.1 = JOB_KIND_MEMORY_CONSOLIDATE_GLOBAL)) (jobs db)) ∅.

Definition use_output (now : Z) (o : OutputRow) : OutputRow :=
  mkOutput (source_updated_at o) (raw_memory o) (rollout_summary o) (rollout_slug o) (generated_at o)
    (Some (default 0 (usage_count o) + 1)%Z) (Some now) (selected_for_phase2 o) (selected_for_phase2_source_updated_at o).

Definition record_usage (now : Z) (acc : gmap str OutputRow * nat) (thread_id : str) : gmap str OutputRow * nat :=
  match acc.1 !! thread_id with
  | Some o => (<[thread_id := use_output now o]> acc.1, S acc.2)
  | None => acc
  end.

Definition record_stage1_output_usage (now : Z) (thread_ids : list str) (db : MemoryDb) : MemoryDb * nat :=
  if is_empty thread_ids then (db, 0)
  else let '(os, updated) := foldl (record_usage now) (stage1_outputs db, 0) thread_ids in (with_outputs db os, updated).

Definition is_selected (o : OutputRow) : bool := negb (selected_for_phase2 o =? 0)%Z.

Definition delete_thread_memory (now : Z) (thread_id : str) (db : MemoryDb) : MemoryDb :=
  let was_selected := match stage1_outputs db !! thread_id with Some o => is_selected o | None => false end in
  let db' := mkDb (delete (stage1_key thread_id) (jobs db)) (delete thread_id (stage1_outputs db)) in
  if was_selected then enqueue_global_consolidation now db' else db'.

(** The age rules of retention: last use, or the age of the source. *)
Definition recency (o : OutputRow) : Z := default (source_updated_at o) (last_usage o).
Definition seconds_before (now days : Z) : Z := (now - 86400 * Z.max days 0)%Z.

(** [ORDER BY recency ASC, source_updated_at ASC, thread_id ASC]. *)
Definition staler (a b : str * OutputRow) : Prop :=
  (recency a.2 < recency b.2)%Z ∨ (recency a.2 = recency b.2 ∧
  ((source_updated_at a.2 < source_updated_at b.2)%Z ∨ (source_updated_at a.2 = source_updated_at b.2 ∧ str_le a.1 b.1))).
#[global] Instance staler_dec : RelDecision staler.
Proof. intros a b. unfold staler. apply _. Defined.

Definition prunable (cutoff : Z) (row : str * OutputRow) : bool :=
  (selected_for_phase2 row.2 =? 0)%Z && (recency row.2 <? cutoff)%Z.

Definition pruned_rows (cutoff limit : Z) (db : MemoryDb) : list (str * OutputRow) :=
  sql_limit limit (merge_sort staler (List.filter (prunable cutoff) (map_to_list (stage1_outputs db)))).

Definition prune_stage1_outputs_for_retention (now max_unused_days : Z) (limit : N) (db : MemoryDb) : MemoryDb * nat :=
  if (limit =? 0)%N then (db, 0)
  else
    let rows := pruned_rows (seconds_before now max_unused_days) (usize_as_i64 limit) db in
    (with_outputs db (foldr (λ row os, delete row.1 os) (stage1_outputs db) rows), length rows).

(** ** Threads *)

(** Legacy rows hold seconds; milliseconds start in 2020. *)
Definition MIN_EPOCH_MILLIS : Z := 1577836800000.
Definition saturating_mul_1000 (v : Z) : Z := saturating_mul_i64 v 1000.
Definition epoch_millis (value : Z) : Z := if (value <? MIN_EPOCH_MILLIS)%Z then saturating_mul_1000 value else value.

Record ThreadMetadata {Details : Type} : Type := mkMetadata {
  md_id : str;
  md_updated_at_ms : Z;
  md_rollout_path : str;
  md_cwd : str;
  md_git_branch : option str;
  md_details : Details
}.
Arguments ThreadMetadata : clear implicits.

(** [DateTime::timestamp]. *)
Definition timestamp_of_millis (ms : Z) : Z := (ms `div` 1000)%Z.

Record Stage1Output : Type := mkStage1Output {
  so_thread_id : str;
  so_rollout_path : str;
  so_source_updated_at : Z;
  so_raw_memory : str;
  so_rollout_summary : str;
  so_rollout_slug : option str;
  so_cwd : str;
  so_git_branch : option str;
  so_generated_at : Z
}.

Record Stage1StartupClaimParams : Type := mkStartup {
  scan_limit : N;
  max_claimed : N;
  max_age_days : Z;
  min_rollout_idle_hours : Z;
  allowed_sources : list str;
  lease_seconds : Z
}.

(** [iter.map(f).collect::<Result<Vec<_>, _>>()]. *)
Fixpoint collect_results {E A B} (f : A → result E B) (l : list A) : result E (list B) :=
  match l with
  | [] => Ok []
  | x :: l => let? y := f x in let? ys := collect_results f l in Ok (y :: ys)
  end.

Definition nonblank (o : OutputRow) : bool :=
  (0 <? sql_length (sql_trim (raw_memory o))) || (0 <? sql_length (sql_trim (rollout_summary o))).

(** [ORDER BY source_updated_at DESC, thread_id DESC]. *)
Definition newer_source (a b : str * OutputRow) : Prop :=
  (source_updated_at b.2 < source_updated_at a.2)%Z ∨ (source_updated_at a.2 = source_updated_at b.2 ∧ str_le b.1 a.1).
#[global] Instance newer_source_dec : RelDecision newer_source.
Proof. intros a b. unfold newer_source. apply _. Defined.

(** [ORDER BY usage DESC, recency DESC, source_updated_at DESC, thread_id DESC]. *)
Definition uses (o : OutputRow) : Z := default 0%Z (usage_count o).
Definition ranks_before (a b : str * OutputRow) : Prop :=
  (uses b.2 < uses a.2)%Z ∨ (uses a.2 = uses b.2 ∧
  ((recency b.2 < recency a.2)%Z ∨ (recency a.2 = recency b.2 ∧ newer_source a b))).
#[global] Instance ranks_before_dec : RelDecision ranks_before.
Proof. intros a b. unfold ranks_before. apply _. Defined.

Definition id_le (a b : Stage1Output) : Prop := str_le (so_thread_id a) (so_thread_id b).
#[global] Instance id_le_dec : RelDecision id_le.
Proof. intros a b. unfold id_le. apply _. Defined.

Definition recent_enough (cutoff : Z) (o : OutputRow) : bool :=
  match last_usage o with Some u => (cutoff <=? u)%Z | None => (cutoff <=? source_updated_at o)%Z end.

(** The candidates of phase 2 in their order. *)
Definition ranked_candidates (cutoff : Z) (db : MemoryDb) : list (str * OutputRow) :=
  merge_sort ranks_before
    (List.filter (λ row, nonblank row.2 && recent_enough cutoff row.2) (map_to_list (stage1_outputs db))).

Definition page_of {A} (page_size : N) (offset : nat) (rows : list A) : list A :=
  take (N.to_nat page_size) (drop offset rows).

Section threads.
(** UUIDs, the remaining columns of a thread and the range of timestamps come
    from other packages; [order_by_updated] is [ORDER BY updated_at_ms DESC], which
    leaves open how ties are ordered. *)
Context {Columns Details : Type}.
Context (parse_thread_id : str → result str str).
Context (read_details : Columns → result str Details).
Context (valid_millis valid_seconds : Z → bool).
Context (order_by_updated : list (str * ThreadColumns Columns) → list (str * ThreadColumns Columns)).

Abbreviation threads := (gmap str (ThreadColumns Columns)).

Definition invalid_timestamp : str := $"invalid unix timestamp".

Definition read_metadata (row : str * ThreadColumns Columns) : result str (ThreadMetadata Details) :=
  let? details := read_details (th_columns row.2) in
  let? id := parse_thread_id row.1 in
  let ms := epoch_millis (th_updated_at_ms row.2) in
  if valid_millis ms
  then Ok (mkMetadata _ id ms (th_rollout_path row.2) (th_cwd row.2) (th_git_branch row.2) details)
  else Err invalid_timestamp.

(** *** Stage 1 at startup *)
Definition in_age_window (oldest newest : Z) (t : ThreadColumns Columns) : bool :=
  (oldest <=? th_updated_at_ms t)%Z && (th_updated_at_ms t <=? newest)%Z.

(** [push_thread_filters] with the options of this query. *)
Definition visible_thread (sources : list str) (t : ThreadColumns Columns) : bool :=
  negb (th_archived t) && negb (is_empty (th_preview t)) && (is_empty sources || one_of sources (th_source t)).

Definition startup_thread (current : str) (oldest newest : Z) (sources : list str) (row : str * ThreadColumns Columns) : bool :=
  visible_thread sources row.2 && bool_decide (th_memory_mode row.2 = ENABLED_MODE)
  && negb (bool_decide (row.1 = current)) && in_age_window oldest newest row.2.

Definition scan_threads (current : str) (now_ms now_ms' : Z) (p : Stage1StartupClaimParams) (ts : threads)
    : list (str * ThreadColumns Columns) :=
  let oldest := (now_ms - 86400000 * Z.max (max_age_days p) 0)%Z in
  let newest := (now_ms' - 3600000 * Z.max (min_rollout_idle_hours p) 0)%Z in
  sql_limit (i64_of_usize (scan_limit p))
    (order_by_updated (List.filter (startup_thread current oldest newest (allowed_sources p)) (map_to_list ts))).

(** The loop over the scanned threads; [clock] and [uuid] give the time and the
    token of the claim of each, [others] what other workers do before each statement. *)
Fixpoint claim_threads (clock : nat → Z) (uuid : nat → str) (others : nat → MemoryDb → MemoryDb) (current : str) (p : Stage1StartupClaimParams) (i : nat)
    (items : list (ThreadMetadata Details)) (claimed : list (ThreadMetadata Details * str)) (db : MemoryDb)
    : MemoryDb * list (ThreadMetadata Details * str) :=
  match items with
  | [] => (db, claimed)
  | item :: items =>
      if (max_claimed p <=? N.of_nat (length claimed))%N then (db, claimed)
      else
        let source := timestamp_of_millis (md_updated_at_ms item) in
        let db := others (2 * i) db in
        if negb (stage1_source_needs_update db (md_id item) source)
        then claim_threads clock uuid others current p (S i) items claimed db
        else
          let '(db, outcome) := try_claim_stage1_job (clock i) (uuid i) (md_id item) current source (lease_seconds p)
                                  (max_claimed p) (others (2 * i + 1) db) in
          let claimed := match outcome with Stage1Claimed token => claimed ++ [(item, token)] | _ => claimed end in
          claim_threads clock uuid others current p (S i) items claimed db
  end.

Definition claim_stage1_jobs_for_startup (clock : nat → Z) (uuid : nat → str) (others : nat → MemoryDb → MemoryDb) (current : str) (now_ms now_ms' : Z)
    (p : Stage1StartupClaimParams) (ts : threads) (db : MemoryDb)
    : MemoryDb * result str (list (ThreadMetadata Details * str)) :=
  if (scan_limit p =? 0)%N || (max_claimed p =? 0)%N then (db, Ok [])
  else match collect_results read_metadata (scan_threads current now_ms now_ms' p ts) with
       | Err e => (db, Err e)
       | Ok items => let '(db, claimed) := claim_threads clock uuid others current p 0 items [] db in (db, Ok claimed)
       end.

(** *** Reading outputs *)
Definition enabled_thread_metadata (ts : threads) (thread_id : str) : result str (option (ThreadMetadata Details)) :=
  match ts !! thread_id with
  | Some t =>
      if bool_decide (th_memory_mode t = ENABLED_MODE)
      then let? m := read_metadata (thread_id, t) in Ok (Some m) else Ok None
  | None => Ok None
  end.

Definition stage1_output_from_row_and_thread (o : OutputRow) (m : ThreadMetadata Details) : result str Stage1Output :=
  if valid_seconds (source_updated_at o) && valid_seconds (generated_at o)
  then Ok (mkStage1Output (md_id m) (md_rollout_path m) (source_updated_at o) (raw_memory o) (rollout_summary o)
             (rollout_slug o) (md_cwd m) (md_git_branch m) (generated_at o))
  else Err invalid_timestamp.

Definition stage1_output_from_row_if_thread_enabled (ts : threads) (row : str * OutputRow) : result str (option Stage1Output) :=
  let? id := parse_thread_id row.1 in
  let? m := enabled_thread_metadata ts id in
  match m with
  | None => Ok None
  | Some m => let? o := stage1_output_from_row_and_thread row.2 m in Ok (Some o)
  end.

(** What the [i]th query of a call sees: the threads and the memory tables. Between
    two queries other workers may change either. *)
Definition Views : Type := nat → threads * MemoryDb.
Definition threads_at (views : Views) (i : nat) : threads := (views i).1.
Definition db_at (views : Views) (i : nat) : MemoryDb := (views i).2.

(** The rows in order until [n] outputs are found. *)
Fixpoint collect_outputs (views : Views) (n : N) (rows : list (str * OutputRow)) (outputs : list Stage1Output) (i : nat)
    : result str (list Stage1Output) :=
  match rows with
  | [] => Ok outputs
  | row :: rows =>
      let? o := stage1_output_from_row_if_thread_enabled (threads_at views i) row in
      match o with
      | None => collect_outputs views n rows outputs (S i)
      | Some o =>
          if (n <=? N.of_nat (length (outputs ++ [o])))%N then Ok (outputs ++ [o])
          else collect_outputs views n rows (outputs ++ [o]) (S i)
      end
  end.

Definition list_stage1_outputs_for_global (n : N) (views : Views) : result str (list Stage1Output) :=
  if (n =? 0)%N then Ok []
  else collect_outputs views n
         (merge_sort newer_source (List.filter (λ row, nonblank row.2) (map_to_list (stage1_outputs (db_at views 0))))) [] 1.

(** *** The input of phase 2 *)
(** The rows of one page whose thread is enabled, until [n] keys are selected; a
    query per row, from the [i]th on. *)
Fixpoint select_page (views : Views) (n : N) (rows : list (str * OutputRow)) (keys : list (str * Z)) (i : nat)
    : result str (list (str * Z) * nat) :=
  match rows with
  | [] => Ok (keys, i)
  | (id, o) :: rows =>
      let? thread := parse_thread_id id in
      let? m := enabled_thread_metadata (threads_at views i) thread in
      match m with
      | None => select_page views n rows keys (S i)
      | Some _ =>
          let keys := keys ++ [(id, source_updated_at o)] in
          if (n <=? N.of_nat (length keys))%N then Ok (keys, S i) else select_page views n rows keys (S i)
      end
  end.

(** A query per page; [None] when the fuel is used up. *)
Fixpoint select_pages (fuel : nat) (views : Views) (cutoff : Z) (n page_size : N) (offset : nat) (keys : list (str * Z)) (i : nat)
    : option (result str (list (str * Z) * nat)) :=
  if (n <=? N.of_nat (length keys))%N then Some (Ok (keys, i))
  else match fuel with
       | 0 => None
       | S fuel =>
           match page_of page_size offset (ranked_candidates cutoff (db_at views i)) with
           | [] => Some (Ok (keys, S i))
           | rows =>
               match select_page views n rows keys (S i) with
               | Err e => Some (Err e)
               | Ok (keys, i) => select_pages fuel views cutoff n page_size (offset + length rows) keys i
               end
           end
       end.

(** The selected rows, read again. *)
Fixpoint load_selected (views : Views) (keys : list (str * Z)) (i : nat) : result str (list Stage1Output) :=
  match keys with
  | [] => Ok []
  | (id, source) :: keys =>
      match stage1_outputs (db_at views i) !! id with
      | Some o =>
          if (source_updated_at o =? source)%Z then
            let? out := stage1_output_from_row_if_thread_enabled (threads_at views (S i)) (id, o) in
            let? outs := load_selected views keys (S (S i)) in
            Ok (match out with Some out => out :: outs | None => outs end)
          else load_selected views keys (S i)
      | None => load_selected views keys (S i)
      end
  end.

Definition selection_page_size (n : N) : N := N.max 1 (N.min n PHASE2_INPUT_SELECTION_PAGE_SIZE).

(** Each page but the last moves on by a row at least: one turn more than there are
    rows at any time is enough. *)
Definition get_phase2_input_selection (fuel : nat) (now : Z) (n : N) (max_unused_days : Z) (views : Views)
    : option (result str (list Stage1Output)) :=
  if (n =? 0)%N then Some (Ok [])
  else
    match select_pages fuel views (seconds_before now max_unused_days) n (selection_page_size n) 0 [] 0 with
    | None => None
    | Some (Err e) => Some (Err e)
    | Some (Ok (keys, i)) => Some (let? outs := load_selected views keys i in Ok (merge_sort id_le outs))
    end.

(** *** Pollution *)
Definition with_memory_mode (mode : str) (t : ThreadColumns Columns) : ThreadColumns Columns :=
  mkThread _ (th_updated_at_ms t) (th_archived t) (th_preview t) (th_source t) mode (th_rollout_path t) (th_cwd t)
    (th_git_branch t) (th_columns t).

(** [others] is what other workers do to the memory tables before the job is enqueued. *)
Definition mark_thread_memory_mode_polluted (now : Z) (others : MemoryDb → MemoryDb) (thread_id : str) (ts : threads) (db : MemoryDb)
    : threads * MemoryDb * bool :=
  let selected := match stage1_outputs db !! thread_id with Some o => is_selected o | None => false end in
  let '(ts, changed) :=
    match ts !! thread_id with
    | Some t => if bool_decide (th_memory_mode t = POLLUTED_MODE) then (ts, false)
                else (<[thread_id := with_memory_mode POLLUTED_MODE t]> ts, true)
    | None => (ts, false)
    end in
  (ts, if selected then enqueue_global_consolidation now (others db) else others db, changed).
End threads.
