(* ===== verification/MemoryJobsSpec.v ===== *)
(** * Properties of the memory jobs

    The calls of any number of workers, in the order in which the database
    commits them, form a run. From the replies alone each worker knows the leases
    it was granted; the theorems say what such knowledge is worth: a lease that
    has not expired is exclusive, the number of live stage-1 jobs is capped,
    failures are retried a bounded number of times, and finished work is not
    handed out again. *)

From stdpp Require Import prelude list gmap strings sorting.
From S2P Require Import Prelude History MemoryJobs.

Open Scope rust_scope.

(** ** Runs *)
Inductive Call : Type :=
| ClaimStage1 (token thread worker : str) (source lease_seconds : Z) (max_running : N)
| SucceedStage1 (thread token : str) (source : Z) (raw summary : str) (slug : option str)
| SucceedStage1NoOutput (thread token : str)
| FailStage1 (thread token reason : str) (delay : Z)
| EnqueueGlobal (watermark : Z)
| ClaimGlobal (token worker : str) (lease_seconds : Z)
| HeartbeatGlobal (token : str) (lease_seconds : Z)
| SucceedGlobal (token : str) (completed : Z) (selected : list (str * Z))
| FailGlobal (token reason : str) (delay : Z)
| FailGlobalIfUnowned (token reason : str) (delay : Z)
| RecordUsage (threads : list str)
| Prune (max_unused_days : Z) (limit : N)
| DeleteThread (thread : str)
| ClearAll.

(** What a caller learns: whether its claim was granted or its update applied. *)
Definition exec (now : Z) (c : Call) (db : MemoryDb) : MemoryDb * bool :=
  match c with
  | ClaimStage1 token thread worker source lease max =>
      let '(db, o) := try_claim_stage1_job now token thread worker source lease max db in
      (db, match o with Stage1Claimed _ => true | _ => false end)
  | SucceedStage1 thread token source raw summary slug => mark_stage1_job_succeeded now thread token source raw summary slug db
  | SucceedStage1NoOutput thread token =>
      let '(db, r) := mark_stage1_job_succeeded_no_output now thread token db in
      (db, match r with Ok b => b | Err _ => false end)
  | FailStage1 thread token reason delay => mark_stage1_job_failed now thread token reason delay db
  | EnqueueGlobal watermark => (enqueue_global_consolidation watermark db, true)
  | ClaimGlobal token worker lease =>
      let '(db, o) := try_claim_global_phase2_job now token worker lease db in
      (db, match o with Phase2Claimed _ _ => true | _ => false end)
  | HeartbeatGlobal token lease => heartbeat_global_phase2_job now token lease db
  | SucceedGlobal token completed selected => mark_global_phase2_job_succeeded now token completed selected db
  | FailGlobal token reason delay => mark_global_phase2_job_failed now token reason delay db
  | FailGlobalIfUnowned token reason delay => mark_global_phase2_job_failed_if_unowned now token reason delay db
  | RecordUsage threads => ((record_stage1_output_usage now threads db).1, true)
  | Prune days limit => ((prune_stage1_outputs_for_retention now days limit db).1, true)
  | DeleteThread thread => (delete_thread_memory now thread db, true)
  | ClearAll => (clear_memory_data db, true)
  end.

(** The leases workers know of: by key and token, until when. *)
Abbreviation Leases := (gmap ((str * str) * str) Z).
Definition lease_end (now lease_seconds : Z) : Z := saturating_add_i64 now (Z.max lease_seconds 0).

Definition memory_kind (k : str * str) : bool :=
  bool_decide (k.1 = JOB_KIND_MEMORY_STAGE1) || bool_decide (k.1 = JOB_KIND_MEMORY_CONSOLIDATE_GLOBAL).

(** A granted claim or heartbeat sets the lease, an applied update ends it;
    deleting a job revokes the leases on it. *)
Definition learn (now : Z) (c : Call) (reply : bool) (ls : Leases) : Leases :=
  if negb reply then ls
  else match c with
       | ClaimStage1 token thread _ _ lease _ => <[(stage1_key thread, token) := lease_end now lease]> ls
       | ClaimGlobal token _ lease | HeartbeatGlobal token lease => <[(global_key, token) := lease_end now lease]> ls
       | SucceedStage1 thread token _ _ _ _ | SucceedStage1NoOutput thread token | FailStage1 thread token _ _ =>
           delete (stage1_key thread, token) ls
       | SucceedGlobal token _ _ | FailGlobal token _ _ | FailGlobalIfUnowned token _ _ => delete (global_key, token) ls
       | DeleteThread thread => filter (λ kl, kl.1.1 ≠ stage1_key thread) ls
       | ClearAll => filter (λ kl, memory_kind kl.1.1 = false) ls
       | EnqueueGlobal _ | RecordUsage _ | Prune _ _ => ls
       end.

Definition step (s : MemoryDb * Leases) (e : Z * Call) : MemoryDb * Leases :=
  let '(db, reply) := exec e.1 e.2 s.1 in (db, learn e.1 e.2 reply s.2).
Definition run (calls : list (Z * Call)) : MemoryDb * Leases := foldl step (empty_db, ∅) calls.

(** ** What a call does to the table of jobs *)

(** The rows whose leases a call with this reply affects. *)
Definition touched (c : Call) (reply : bool) (k : str * str) : bool :=
  reply && match c with
           | ClaimStage1 _ thread _ _ _ _ | SucceedStage1 thread _ _ _ _ _ | SucceedStage1NoOutput thread _
           | FailStage1 thread _ _ _ | DeleteThread thread => bool_decide (k = stage1_key thread)
           | ClaimGlobal _ _ _ | HeartbeatGlobal _ _ | SucceedGlobal _ _ _ | FailGlobal _ _ _ | FailGlobalIfUnowned _ _ _ =>
               bool_decide (k = global_key)
           | ClearAll => memory_kind k
           | EnqueueGlobal _ | RecordUsage _ | Prune _ _ => false
           end.

(** The transitions of one row. *)
Inductive job_step (now : Z) (db : MemoryDb) : Call → bool → str * str → option Job → option Job → Prop :=
| step_same c reply k o : touched c reply k = false → job_step now db c reply k o o
| step_claim token thread worker source lease max o row :
    up_to_date db thread source = false →
    stage1_claim_row db (stage1_key thread) now (lease_end now lease) token worker source (usize_as_i64 max) = Some row →
    job_step now db (ClaimStage1 token thread worker source lease max) true (stage1_key thread) o (Some row)
| step_succeed c thread token j :
    (∃ source raw summary slug, c = SucceedStage1 thread token source raw summary slug) ∨ c = SucceedStage1NoOutput thread token →
    owned_running token j = true →
    job_step now db c true (stage1_key thread) (Some j) (Some (succeeded_job now j))
| step_fail thread token reason delay j :
    owned_running token j = true →
    job_step now db (FailStage1 thread token reason delay) true (stage1_key thread) (Some j)
      (Some (failed_stage1_job now (lease_end now delay) reason j))
| step_enqueue c reply w o :
    touched c reply global_key = false → job_step now db c reply global_key o (Some (enqueued_job w o))
| step_claim_new token worker lease :
    job_step now db (ClaimGlobal token worker lease) true global_key None (Some (new_global_job now (lease_end now lease) token worker))
| step_claim_global token worker lease j :
    lease_live now j = false → later_than now (retry_at j) = false →
    cooling_down (saturating_sub_i64 now PHASE2_SUCCESS_COOLDOWN_SECONDS) j = false →
    job_step now db (ClaimGlobal token worker lease) true global_key (Some j)
      (Some (claimed_global_job now (lease_end now lease) token worker j))
| step_heartbeat token lease j :
    owned_running token j = true →
    job_step now db (HeartbeatGlobal token lease) true global_key (Some j) (Some (with_lease (lease_end now lease) j))
| step_succeed_global token completed selected j :
    owned_running token j = true →
    job_step now db (SucceedGlobal token completed selected) true global_key (Some j) (Some (succeeded_global_job now completed j))
| step_fail_global c token reason delay j :
    c = FailGlobal token reason delay ∨ c = FailGlobalIfUnowned token reason delay →
    owned_or_unowned token j = true →
    job_step now db c true global_key (Some j) (Some (failed_global_job now (lease_end now delay) reason j))
| step_delete thread o : job_step now db (DeleteThread thread) true (stage1_key thread) o None
| step_clear k o : memory_kind k = true → job_step now db ClearAll true k o None.

Lemma stage1_not_global thread : stage1_key thread ≠ global_key.
Proof. intros [=]. Qed.
#[local] Hint Resolve stage1_not_global : memory.

Lemma update_job_spec key p f db :
  (∃ j, jobs db !! key = Some j ∧ p j = true ∧ update_job key p f db = (with_jobs db (<[key := f j]> (jobs db)), true)) ∨
  update_job key p f db = (db, false).
Proof. unfold update_job. destruct (jobs db !! key) as [j|] eqn:E; [destruct (p j) eqn:P|]; eauto. Qed.

(** An update of one row, seen from a row. *)
Lemma update_job_row now db0 key p f db c k :
  (∀ j, jobs db !! key = Some j → p j = true → job_step now db0 c true key (Some j) (Some (f j))) →
  (k ≠ key → touched c true k = false) →
  job_step now db0 c (update_job key p f db).2 k (jobs db !! k) (jobs (update_job key p f db).1 !! k).
Proof.
  intros Hf Ht. destruct (update_job_spec key p f db) as [(j & Hj & Hp & ->)| ->]; cbn [fst snd jobs with_jobs].
  - destruct (decide (k = key)) as [->|Hne]; [rewrite lookup_insert_eq, Hj; by apply Hf|].
    rewrite lookup_insert_ne by done. by apply step_same, Ht.
  - by apply step_same.
Qed.

Ltac untouched := intros; unfold touched; cbn [andb]; by rewrite bool_decide_eq_false_2.

(** A row after an update of a stage-1 job and the enqueueing of the global one. *)
Lemma enqueue_row now db0 c thread w db j j' k :
  (∀ k, k ≠ stage1_key thread → touched c true k = false) →
  job_step now db0 c true (stage1_key thread) (Some j) (Some j') → jobs db !! stage1_key thread = Some j →
  job_step now db0 c true k (jobs db !! k)
    (jobs (enqueue_global_consolidation w (with_jobs db (<[stage1_key thread := j']> (jobs db)))) !! k).
Proof.
  intros Ht Hs Hj. unfold enqueue_global_consolidation. cbn [jobs with_jobs].
  rewrite (lookup_insert_ne _ (stage1_key thread) global_key) by (apply stage1_not_global).
  destruct (decide (k = global_key)) as [->|Hg].
  - rewrite lookup_insert_eq. apply step_enqueue, Ht. intros E. by apply (stage1_not_global thread).
  - rewrite lookup_insert_ne by done. destruct (decide (k = stage1_key thread)) as [->|Hk].
    + by rewrite lookup_insert_eq, Hj.
    + rewrite lookup_insert_ne by done. by apply step_same, Ht.
Qed.

Lemma succeed_row now db thread token source raw summary slug k :
  let c := SucceedStage1 thread token source raw summary slug in
  job_step now db c (exec now c db).2 k (jobs db !! k) (jobs (exec now c db).1 !! k).
Proof.
  cbn zeta. unfold exec, mark_stage1_job_succeeded.
  destruct (update_job_spec (stage1_key thread) (owned_running token) (succeeded_job now) db) as [(j & Hj & Hp & ->)| ->];
    cbn [negb fst snd]; [|by apply step_same].
  refine (enqueue_row now db _ thread source (mkDb (jobs db) (upsert_output thread _ (stage1_outputs db))) j _ k _ _ Hj); [untouched|].
  apply (step_succeed _ _ _ _ token); [left; eauto|done].
Qed.

Lemma succeed_no_output_row now db thread token k :
  let c := SucceedStage1NoOutput thread token in
  job_step now db c (exec now c db).2 k (jobs db !! k) (jobs (exec now c db).1 !! k).
Proof.
  cbn zeta. unfold exec, mark_stage1_job_succeeded_no_output.
  destruct (update_job_spec (stage1_key thread) (owned_running token) (succeeded_job now) db) as [(j & Hj & Hp & ->)| ->];
    cbn [negb]; [|by apply step_same].
  assert (job_step now db (SucceedStage1NoOutput thread token) true (stage1_key thread) (Some j) (Some (succeeded_job now j)))
    as Hs by (apply (step_succeed _ _ _ _ token); [by right|done]).
  cbn [jobs with_jobs stage1_outputs]. rewrite lookup_insert_eq. cbn [mbind option_bind].
  destruct (input_watermark (succeeded_job now j)) as [source|]; cbn [fst snd]; [|by apply step_same].
  destruct (stage1_outputs db !! thread); cbn [fst snd].
  - refine (enqueue_row now db _ thread source (mkDb (jobs db) (delete thread (stage1_outputs db))) j _ k _ Hs Hj). untouched.
  - cbn [jobs with_jobs]. destruct (decide (k = stage1_key thread)) as [->|Hk]; [by rewrite lookup_insert_eq, Hj|].
    rewrite lookup_insert_ne by done. apply step_same. untouched.
Qed.

Lemma delete_row now db thread k :
  job_step now db (DeleteThread thread) true k (jobs db !! k) (jobs (delete_thread_memory now thread db) !! k).
Proof.
  unfold delete_thread_memory. set (sel := match stage1_outputs db !! thread with Some o => is_selected o | None => false end).
  destruct (decide (k = stage1_key thread)) as [->|Hk].
  - match goal with |- job_step _ _ _ _ _ _ ?o => assert (o = None) as ->; [|apply step_delete] end.
    destruct sel; cbn [jobs enqueue_global_consolidation with_jobs];
      [rewrite lookup_insert_ne by (symmetry; apply stage1_not_global)|]; by rewrite lookup_delete_eq.
  - assert (touched (DeleteThread thread) true k = false) as Ht by untouched.
    destruct sel; cbn [jobs enqueue_global_consolidation with_jobs]; [|rewrite lookup_delete_ne by done; by apply step_same].
    rewrite (lookup_delete_ne _ (stage1_key thread) global_key) by (apply stage1_not_global).
    destruct (decide (k = global_key)) as [->|Hg]; [rewrite lookup_insert_eq; by apply step_enqueue|].
    rewrite lookup_insert_ne, lookup_delete_ne by done. by apply step_same.
Qed.

Lemma clear_row now db k :
  job_step now db ClearAll true k (jobs db !! k) (jobs (clear_memory_data db) !! k).
Proof.
  unfold clear_memory_data. cbn [jobs]. destruct (memory_kind k) eqn:Hk.
  - rewrite (map_lookup_filter_None_2 _ (jobs db)); [by apply step_clear|]. right. intros j _ Hn. apply Hn.
    unfold memory_kind in Hk. apply orb_true_iff in Hk. rewrite !bool_decide_eq_true in Hk. exact Hk.
  - destruct (jobs db !! k) as [j|] eqn:E.
    + rewrite (map_lookup_filter_Some_2 _ (jobs db) k j); [by apply step_same|done|]. cbn [fst].
      unfold memory_kind in Hk. apply orb_false_iff in Hk. rewrite !bool_decide_eq_false in Hk. naive_solver.
    + rewrite (map_lookup_filter_None_2 _ (jobs db)); [by apply step_same|by left].
Qed.

Lemma claim_stage1_row now db token thread worker source lease max k :
  let c := ClaimStage1 token thread worker source lease max in
  job_step now db c (exec now c db).2 k (jobs db !! k) (jobs (exec now c db).1 !! k).
Proof.
  cbn zeta. unfold exec, try_claim_stage1_job. fold (lease_end now lease).
  destruct (up_to_date db thread source) eqn:Hu; [by apply step_same|].
  destruct (stage1_claim_row _ _ _ _ _ _ _ _) as [row|] eqn:Hr; cbn [fst snd].
  - cbn [jobs with_jobs]. destruct (decide (k = stage1_key thread)) as [->|Hk].
    + rewrite lookup_insert_eq. by eapply step_claim.
    + rewrite lookup_insert_ne by done. apply step_same. untouched.
  - apply step_same. by destruct (stage1_skip_reason now _) eqn:E; revert E; unfold stage1_skip_reason; repeat case_match.
Qed.

Lemma claim_global_row now db token worker lease k :
  let c := ClaimGlobal token worker lease in
  job_step now db c (exec now c db).2 k (jobs db !! k) (jobs (exec now c db).1 !! k).
Proof.
  cbn zeta. unfold exec, try_claim_global_phase2_job. fold (lease_end now lease). set (cutoff := saturating_sub_i64 _ _).
  destruct (jobs db !! global_key) as [j|] eqn:Hj; cycle 1.
  { cbn [fst snd jobs with_jobs]. destruct (decide (k = global_key)) as [->|Hk].
    - rewrite lookup_insert_eq, Hj. apply step_claim_new.
    - rewrite lookup_insert_ne by done. apply step_same. untouched. }
  destruct (later_than now (retry_at j)) eqn:Hr; [by apply step_same|].
  destruct (lease_live now j) eqn:Hl; [by apply step_same|].
  destruct (cooling_down cutoff j) eqn:Hc; [by apply step_same|].
  pose proof (update_job_row now db global_key (global_claimable now cutoff) (claimed_global_job now (lease_end now lease) token worker)
    db (ClaimGlobal token worker lease) k) as H.
  destruct (update_job _ _ _ _) as [db' updated]. destruct updated; cbn [fst snd] in *; apply H; try untouched;
    intros j' Hj' _; assert (j' = j) as -> by congruence; by apply step_claim_global.
Qed.

(** Every call moves every row by a listed transition. *)
Lemma exec_row now c db k : job_step now db c (exec now c db).2 k (jobs db !! k) (jobs (exec now c db).1 !! k).
Proof.
  destruct c; [apply claim_stage1_row|apply succeed_row|apply succeed_no_output_row| | |apply claim_global_row| | | | | | | |].
  - apply update_job_row; [intros; by apply step_fail|untouched].
  - cbn [exec fst snd enqueue_global_consolidation jobs with_jobs]. destruct (decide (k = global_key)) as [->|Hk].
    + rewrite lookup_insert_eq. by apply step_enqueue.
    + rewrite lookup_insert_ne by done. by apply step_same.
  - apply update_job_row; [intros; by apply step_heartbeat|untouched].
  - unfold exec, mark_global_phase2_job_succeeded, mark_global_phase2_job_succeeded_row.
    pose proof (update_job_row now db global_key (owned_running token) (succeeded_global_job now completed) db
      (SucceedGlobal token completed selected) k) as H.
    destruct (update_job _ _ _ _) as [db' []]; cbn [negb fst snd jobs with_outputs] in *; apply H; try untouched;
      intros; by apply step_succeed_global.
  - apply update_job_row; [|untouched]. intros j _ Ho. apply (step_fail_global _ _ _ token); [by left|].
    unfold owned_running, owned_or_unowned in *. apply andb_true_iff in Ho as [-> ->]. done.
  - apply update_job_row; [|untouched]. intros j _ Ho. apply (step_fail_global _ _ _ token); [by right|done].
  - cbn [exec fst snd]. unfold record_stage1_output_usage. destruct (is_empty threads); [by apply step_same|].
    destruct (foldl _ _ _). by apply step_same.
  - cbn [exec fst snd]. unfold prune_stage1_outputs_for_retention. destruct (limit =? 0)%N; by apply step_same.
  - apply delete_row.
  - apply clear_row.
Qed.

(** ** Leases are exclusive *)
Definition leases_ok (now : Z) (db : MemoryDb) (ls : Leases) : Prop :=
  ∀ k t u, ls !! (k, t) = Some u → (now < u)%Z →
    ∃ j, jobs db !! k = Some j ∧ owned_running t j = true ∧ lease_until j = Some u.

Lemma learn_untouched now c reply ls k t : touched c reply k = false → learn now c reply ls !! (k, t) = ls !! (k, t).
Proof.
  unfold touched, learn. destruct reply; cbn [andb negb]; [|done].
  assert (∀ (P : ((str * str) * str) * Z → Prop) `{∀ x, Decision (P x)}, (∀ u, P ((k, t), u)) →
    filter P ls !! (k, t) = ls !! (k, t)) as Hf.
  { intros P ? HP. destruct (ls !! (k, t)) as [u|] eqn:E.
    - by apply map_lookup_filter_Some_2.
    - apply map_lookup_filter_None_2. by left. }
  destruct c; rewrite ?bool_decide_eq_false; intros Hk; rewrite ?lookup_insert_ne, ?lookup_delete_ne by congruence; try done;
    by apply Hf.
Qed.

Lemma owned_running_iff t j : owned_running t j = true ↔ job_status j = Running ∧ ownership_token j = Some t.
Proof. unfold owned_running, is_running. by rewrite andb_true_iff, !bool_decide_eq_true. Qed.

Lemma lease_live_iff now j : lease_live now j = true ↔ job_status j = Running ∧ ∃ u, lease_until j = Some u ∧ (now < u)%Z.
Proof.
  unfold lease_live, is_running, later_than. rewrite andb_true_iff, bool_decide_eq_true.
  destruct (lease_until j) as [u|]; [rewrite Z.ltb_lt|]; naive_solver.
Qed.

(** A claim is granted only on a row without a live lease, and writes its own. *)
Lemma stage1_claim_row_spec db key now lease token worker source max row :
  stage1_claim_row db key now lease token worker source max = Some row →
  (∀ j, jobs db !! key = Some j → lease_live now j = false ∧
     retry_remaining row = (if advanced source j then DEFAULT_RETRY_REMAINING else retry_remaining j) ∧
     last_success_watermark row = last_success_watermark j ∧ ((0 < retry_remaining j)%Z ∨ advanced source j = true)) ∧
  (jobs db !! key = None → retry_remaining row = DEFAULT_RETRY_REMAINING ∧ last_success_watermark row = None) ∧
  owned_running token row = true ∧ lease_until row = Some lease ∧ input_watermark row = Some source ∧
  (running_count JOB_KIND_MEMORY_STAGE1 now db < max)%Z.
Proof.
  unfold stage1_claim_row. destruct (Z.ltb_spec (running_count JOB_KIND_MEMORY_STAGE1 now db) max) as [Hc|]; [|done].
  destruct (jobs db !! key) as [j|]; [|intros [= <-]; rewrite owned_running_iff; naive_solver].
  destruct (stage1_claimable db key now source max j) eqn:Hj; [|done]. intros [= <-].
  unfold stage1_claimable in Hj. rewrite !andb_true_iff, !orb_true_iff, Z.ltb_lt in Hj. destruct Hj as [[[H1 _] H3] _].
  rewrite owned_running_iff. split; [|naive_solver]. intros j' [= <-]. split; [|done].
  unfold lease_live. rewrite !negb_true_iff in H1. destruct (is_running j), (later_than now (lease_until j)); naive_solver.
Qed.

Lemma leases_ok_later now now' db ls : leases_ok now db ls → (now ≤ now')%Z → leases_ok now' db ls.
Proof. intros H Hle k t u Hl Hu. apply (H k t u Hl). lia. Qed.

(** A live lease makes its row live, so that no other claim is granted there. *)
Lemma leases_ok_free now db ls k t u :
  leases_ok now db ls → ls !! (k, t) = Some u → (now < u)%Z → (∀ j, jobs db !! k = Some j → lease_live now j = false) → False.
Proof.
  intros H Hl Hu Hf. destruct (H k t u Hl Hu) as (j & Hj & Ho & Hle). apply owned_running_iff in Ho as [Hr _].
  assert (lease_live now j = true) as Hlive by (apply lease_live_iff; eauto). by rewrite (Hf j Hj) in Hlive.
Qed.

Lemma learn_one_insert (ls : Leases) k t t' v u :
  <[(k, t) := v]> ls !! (k, t') = Some u → (t' = t ∧ u = v) ∨ (t' ≠ t ∧ ls !! (k, t') = Some u).
Proof. rewrite lookup_insert_Some. naive_solver. Qed.

Lemma leases_ok_owner now db ls k t u token j :
  leases_ok now db ls → jobs db !! k = Some j → owned_or_unowned token j = true →
  ls !! (k, t) = Some u → (now < u)%Z → t = token.
Proof.
  intros H Hj Ho Hl Hu. destruct (H k t u Hl Hu) as (j' & Hj' & [_ Ht]%owned_running_iff & _).
  assert (j' = j) as -> by congruence. unfold owned_or_unowned in Ho. rewrite Ht in Ho.
  apply andb_true_iff in Ho as [_ [[= ->]%bool_decide_eq_true|Hn]%orb_true_iff]; [done|].
  by rewrite bool_decide_eq_true_2 in Hn by eauto.
Qed.

Lemma owned_is_owned_or_unowned token j : owned_running token j = true → owned_or_unowned token j = true.
Proof. unfold owned_running, owned_or_unowned. by intros [-> ->]%andb_true_iff. Qed.

(** Ending the lease of the holder leaves no live lease on the row. *)
Lemma leases_ok_ended now db ls k t u token j :
  leases_ok now db ls → jobs db !! k = Some j → owned_or_unowned token j = true →
  delete (k, token) ls !! (k, t) = Some u → (now < u)%Z → False.
Proof. intros H Hj Ho [Hne Hl]%lookup_delete_Some Hu. by destruct (leases_ok_owner _ _ _ _ _ _ _ _ H Hj Ho Hl Hu). Qed.

Lemma leases_step now c db ls :
  leases_ok now db ls → leases_ok now (exec now c db).1 (learn now c (exec now c db).2 ls).
Proof.
  intros H k t u. pose proof (exec_row now c db k) as Hs. revert Hs. generalize (exec now c db). intros [db' r]. cbn [fst snd].
  intros Hs. inversion Hs as [c' r' k' o Ht|token thread worker source lease max o row Hup Hrow|c' thread token j Hc Ho
    |thread token reason delay j Ho|c' r' w o Ht|token worker lease|token worker lease j Hlv Hr Hcd|token lease j Ho
    |token completed selected j Ho|c' token reason delay j Hc Ho|thread o|k' o Hk]; subst.
  - rewrite learn_untouched by done. intros Hl Hu. destruct (H k t u Hl Hu) as (j & Hj & ?). exists j. split; [congruence|done].
  - cbn [learn negb]. destruct (stage1_claim_row_spec _ _ _ _ _ _ _ _ _ Hrow) as (Hj & _ & Hown & Hlu & _).
    intros [[-> ->]|[Hne Hl]]%learn_one_insert Hu; [eauto|].
    exfalso. apply (leases_ok_free _ _ _ _ _ _ H Hl Hu). intros j E. by destruct (Hj j E).
  - assert (learn now c true ls = delete (stage1_key thread, token) ls) as -> by (destruct Hc as [(? & ? & ? & ? & ->)| ->]; done).
    intros Hl Hu. exfalso. eapply leases_ok_ended; [exact H|by symmetry|by apply owned_is_owned_or_unowned|exact Hl|exact Hu].
  - cbn [learn negb]. intros Hl Hu.
    exfalso. eapply leases_ok_ended; [exact H|by symmetry|by apply owned_is_owned_or_unowned|exact Hl|exact Hu].
  - rewrite learn_untouched by done. intros Hl Hu. destruct (H _ t u Hl Hu) as (j & Hj & Ho & Hle). rewrite Hj.
    eexists. split; [done|]. apply owned_running_iff in Ho as [Hr Hto]. cbn. unfold is_running.
    rewrite (bool_decide_eq_true_2 (job_status j = Running)) by done. split; [by apply owned_running_iff|done].
  - cbn [learn negb]. intros [[-> ->]|[Hne Hl]]%learn_one_insert Hu; [eexists; split_and!; [done|by apply owned_running_iff|done]|].
    exfalso. apply (leases_ok_free _ _ _ _ _ _ H Hl Hu). congruence.
  - cbn [learn negb]. intros [[-> ->]|[Hne Hl]]%learn_one_insert Hu; [eexists; split_and!; [done|by apply owned_running_iff|done]|].
    exfalso. apply (leases_ok_free _ _ _ _ _ _ H Hl Hu). congruence.
  - cbn [learn negb]. intros [[-> ->]|[Hne Hl]]%learn_one_insert Hu; [eexists; by split_and!|].
    destruct Hne. apply (leases_ok_owner now db ls global_key _ u token j H); try done. by apply owned_is_owned_or_unowned.
  - cbn [learn negb]. intros Hl Hu.
    exfalso. eapply leases_ok_ended; [exact H|by symmetry|by apply owned_is_owned_or_unowned|exact Hl|exact Hu].
  - assert (learn now c true ls = delete (global_key, token) ls) as -> by (destruct Hc as [-> | ->]; done).
    intros Hl Hu. exfalso. eapply leases_ok_ended; [exact H|by symmetry|exact Ho|exact Hl|exact Hu].
  - cbn [learn negb]. intros [_ Hn]%map_lookup_filter_Some. done.
  - cbn [learn negb]. intros [_ Hn]%map_lookup_filter_Some. cbn [fst] in Hn. congruence.
Qed.

(** The clock of the callers does not go back. *)
Definition timely (calls : list (Z * Call)) (now : Z) : Prop := StronglySorted Z.le (calls.*1 ++ [now]).

Lemma timely_snoc calls e now : timely (calls ++ [e]) now → timely calls e.1 ∧ (e.1 ≤ now)%Z.
Proof.
  unfold timely. rewrite fmap_app, <-(assoc_L app). cbn [fmap list_fmap app]. intros H. split.
  - apply (StronglySorted_app_1_l _ _ [now]). by rewrite <-(assoc_L app).
  - apply StronglySorted_app_1_r in H. inversion H as [|? ? ? Hf]; subst. by inversion Hf.
Qed.

(** Invariants of runs: kept as time passes and by each allowed call. *)
Lemma run_invariant (P : Z → MemoryDb * Leases → Prop) (Q : Call → Prop) calls now :
  (∀ n, P n (empty_db, ∅)) → (∀ n n' s, P n s → (n ≤ n')%Z → P n' s) → (∀ n c s, Q c → P n s → P n (step s (n, c))) →
  Forall Q calls.*2 → timely calls now → P now (run calls).
Proof.
  intros H0 Hl Hs. revert now. induction calls as [|[n c] calls IH] using rev_ind; intros now Hq Ht; [apply H0|].
  apply timely_snoc in Ht as [Ht Hn]. rewrite fmap_app, Forall_app in Hq. destruct Hq as [Hq [Hc _]%Forall_cons].
  unfold run in *. rewrite foldl_snoc. apply (Hl n); [|done]. apply Hs; [done|]. by apply IH.
Qed.

(** C20: Whatever the calls of the workers and their order, as long as the clock does
    not go back: take the leases that the replies granted or prolonged, less those
    that the replies ended and those that were voided, without a reply to their
    holders, when the thread's memory was deleted or all memory was cleared. Of
    two such leases on the same job that have not expired both are the same one,
    and the row of the job is running under its token, so that its holder's next
    update is the one that counts. *)
Theorem live_leases_exclusive (calls : list (Z * Call)) (now : Z) key token token' until until' :
  timely calls now →
  (run calls).2 !! (key, token) = Some until → (now < until)%Z →
  (run calls).2 !! (key, token') = Some until' → (now < until')%Z →
  token' = token ∧ until' = until ∧
  ∃ j, jobs (run calls).1 !! key = Some j ∧ owned_running token j = true ∧ lease_live now j = true.
Proof.
  intros Ht Hl Hu Hl' Hu'.
  assert (leases_ok now (run calls).1 (run calls).2) as H.
  { apply (run_invariant (λ n s, leases_ok n s.1 s.2) (λ _, True)); [done|eauto using leases_ok_later| |by apply Forall_true|done].
    intros n c s _ Hok. unfold step. pose proof (leases_step n c s.1 s.2 Hok) as Hs. cbn [fst snd]. by destruct (exec n c s.1). }
  destruct (H key token until Hl Hu) as (j & Hj & Ho & Hlu).
  assert (token' = token) as -> by (apply (leases_ok_owner _ _ _ _ _ _ _ _ H Hj (owned_is_owned_or_unowned _ _ Ho) Hl' Hu')).
  split_and!; [done|congruence|]. exists j. split_and!; [done|done|]. apply lease_live_iff.
  apply owned_running_iff in Ho as [? _]. eauto.
Qed.

(** ** The number of live jobs *)
Definition capped (limit : Z) (c : Call) : Prop :=
  match c with ClaimStage1 _ _ _ _ _ max => (usize_as_i64 max ≤ limit)%Z | _ => True end.

Lemma live_jobs_lookup kind now db k j :
  live_jobs kind now db !! k = Some j ↔ jobs db !! k = Some j ∧ k.1 = kind ∧ lease_live now j = true.
Proof. unfold live_jobs. rewrite map_lookup_filter_Some. naive_solver. Qed.

(** The domain of the live jobs decides how many there are. *)
Lemma live_count_mono kind now now' db db' :
  (∀ k j, jobs db' !! k = Some j → k.1 = kind → lease_live now' j = true → ∃ j', jobs db !! k = Some j' ∧ lease_live now j' = true) →
  (running_count kind now' db' ≤ running_count kind now db)%Z.
Proof.
  intros H. unfold running_count. apply Nat2Z.inj_le. rewrite <-!size_dom. apply subseteq_size. intros k.
  rewrite !elem_of_dom. intros [j (Hj & Hk & Hl)%live_jobs_lookup]. destruct (H k j Hj Hk Hl) as (j' & ? & ?).
  exists j'. by apply live_jobs_lookup.
Qed.

Lemma live_count_claim kind now db db' key :
  (∀ k j, k ≠ key → jobs db' !! k = Some j → k.1 = kind → lease_live now j = true → ∃ j', jobs db !! k = Some j' ∧ lease_live now j' = true) →
  (running_count kind now db' ≤ running_count kind now db + 1)%Z.
Proof.
  intros H. unfold running_count. rewrite <-!size_dom.
  transitivity (Z.of_nat (size ({[key]} ∪ dom (live_jobs kind now db)))).
  - apply Nat2Z.inj_le, subseteq_size. intros k. rewrite elem_of_union, elem_of_singleton, !elem_of_dom.
    intros [j (Hj & Hk & Hl)%live_jobs_lookup]. destruct (decide (k = key)) as [->|Hne]; [by left|right].
    destruct (H k j Hne Hj Hk Hl) as (j' & ? & ?). exists j'. by apply live_jobs_lookup.
  - rewrite size_union_alt, size_singleton.
    assert (size (dom (live_jobs kind now db) ∖ {[key]}) ≤ size (dom (live_jobs kind now db))) by (apply subseteq_size; set_solver).
    lia.
Qed.

(** Seen from one row: a call other than a stage-1 claim on it leaves no new live job. *)
Lemma step_not_revived now db c r k o j : job_step now db c r k o (Some j) → k.1 = JOB_KIND_MEMORY_STAGE1 →
  (∀ token thread worker source lease max, c = ClaimStage1 token thread worker source lease max → k = stage1_key thread → r = false) →
  lease_live now j = true → ∃ j', o = Some j' ∧ lease_live now j' = true.
Proof.
  intros Hs Hk Hc Hl. inversion Hs; subst; try discriminate Hk; try discriminate Hl; [eauto|].
  by pose proof (Hc _ _ _ _ _ _ eq_refl eq_refl).
Qed.

(** A granted stage-1 claim wrote the row of the statement. *)
Lemma claim_granted now db token thread worker source lease max :
  (exec now (ClaimStage1 token thread worker source lease max) db).2 = true → ∃ row,
  up_to_date db thread source = false ∧
  stage1_claim_row db (stage1_key thread) now (lease_end now lease) token worker source (usize_as_i64 max) = Some row ∧
  exec now (ClaimStage1 token thread worker source lease max) db = (with_jobs db (<[stage1_key thread := row]> (jobs db)), true).
Proof.
  unfold exec, try_claim_stage1_job. fold (lease_end now lease). destruct (up_to_date db thread source); [done|].
  destruct (stage1_claim_row _ _ _ _ _ _ _ _) as [row|] eqn:E; [intros _; by exists row|].
  cbn [snd]. unfold stage1_skip_reason. repeat case_match; done.
Qed.

Lemma live_count_step limit now c db : capped limit c → (0 ≤ limit)%Z → (running_count JOB_KIND_MEMORY_STAGE1 now db ≤ limit)%Z →
  (running_count JOB_KIND_MEMORY_STAGE1 now (exec now c db).1 ≤ limit)%Z.
Proof.
  intros Hc H0 Hle.
  destruct (match c with ClaimStage1 _ _ _ _ _ _ => (exec now c db).2 | _ => false end) eqn:Hg.
  - destruct c as [token thread worker source lease max| | | | | | | | | | | | |]; try discriminate Hg. cbn [capped] in Hc.
    destruct (claim_granted _ _ _ _ _ _ _ _ Hg) as (row & _ & Hr & _).
    destruct (stage1_claim_row_spec _ _ _ _ _ _ _ _ _ Hr) as (_ & _ & _ & _ & _ & Hlt).
    etrans; [apply (live_count_claim _ _ db _ (stage1_key thread))|lia].
    intros k j Hne Hj Hk Hl. pose proof (exec_row now (ClaimStage1 token thread worker source lease max) db k) as Hs'.
    rewrite Hj in Hs'. apply (step_not_revived _ _ _ _ _ _ _ Hs' Hk); [|done]. by intros ? ? ? ? ? ? [= <- <- <- <- <- <-].
  - etrans; [apply (live_count_mono _ now now db)|done]. intros k j Hj Hk Hl. pose proof (exec_row now c db k) as Hs.
    rewrite Hj in Hs. apply (step_not_revived _ _ _ _ _ _ _ Hs Hk); [|done]. by intros ? ? ? ? ? ? -> _.
Qed.

(** Whatever the calls, as long as the clock does not go back and no claim allows
    more than [limit] running jobs: at every time at most [limit] stage-1 jobs are
    running under a lease that has not expired. *)
Theorem running_jobs_capped (limit : Z) (calls : list (Z * Call)) (now : Z) :
  (0 ≤ limit)%Z → Forall (capped limit) calls.*2 → timely calls now →
  (running_count JOB_KIND_MEMORY_STAGE1 now (run calls).1 ≤ limit)%Z.
Proof.
  intros H0 Hq Ht.
  apply (run_invariant (λ n s, (running_count JOB_KIND_MEMORY_STAGE1 n s.1 ≤ limit)%Z) (capped limit)); try done.
  - intros n n' s Hle Hn. etrans; [apply (live_count_mono _ n n' s.1)|done]. intros k j Hj _ Hl. exists j. split; [done|].
    apply lease_live_iff in Hl as (? & u & ? & ?). apply lease_live_iff. eauto with lia.
  - intros n c s Hc Hle. pose proof (live_count_step limit n c s.1 Hc H0 Hle) as Hs. unfold step. cbn [fst snd].
    by destruct (exec n c s.1).
Qed.

(** ** One job over time *)

(** The calls that were granted or applied, in order. *)
Definition log_step (s : MemoryDb * list Call) (e : Z * Call) : MemoryDb * list Call :=
  let '(db, reply) := exec e.1 e.2 s.1 in (db, if reply then s.2 ++ [e.2] else s.2).
Definition logged (db : MemoryDb) (calls : list (Z * Call)) : MemoryDb * list Call := foldl log_step (db, []) calls.

(** Calls that do not delete the job of a thread. *)
Definition keeps (thread : str) (c : Call) : bool :=
  match c with DeleteThread t => negb (bool_decide (t = thread)) | ClearAll => false | _ => true end.

Lemma logged_row (R : option Job → list Call → Prop) (Q : Call → Prop) k db calls :
  (∀ now db c r o' log, Q c → R (jobs db !! k) log → job_step now db c r k (jobs db !! k) o' → R o' (if r then log ++ [c] else log)) →
  R (jobs db !! k) [] → Forall Q calls.*2 → R (jobs (logged db calls).1 !! k) (logged db calls).2.
Proof.
  intros Hstep H0. induction calls as [|[n c] calls IH] using rev_ind; intros Hq; [done|].
  rewrite fmap_app, Forall_app in Hq. destruct Hq as [Hq [Hc _]%Forall_cons]. specialize (IH Hq).
  unfold logged in *. rewrite foldl_snoc. set (s := foldl log_step (db, []) calls) in *.
  pose proof (Hstep n s.1 c _ _ _ Hc IH (exec_row n c s.1 k)) as H. unfold log_step. cbn [fst snd].
  by destruct (exec n c s.1).
Qed.

Lemma stage1_key_inj thread thread' : stage1_key thread = stage1_key thread' → thread = thread'.
Proof. by intros [= ->]. Qed.

(** The transitions of a stage-1 job that is not deleted. *)
Lemma stage1_step now db c r thread o o' : keeps thread c = true → job_step now db c r (stage1_key thread) o o' →
  (o' = o ∧ (∀ token reason delay, c = FailStage1 thread token reason delay → r = false)) ∨
  (∃ token worker source lease max row, c = ClaimStage1 token thread worker source lease max ∧ r = true ∧ o' = Some row ∧
     up_to_date db thread source = false ∧
     stage1_claim_row db (stage1_key thread) now (lease_end now lease) token worker source (usize_as_i64 max) = Some row) ∨
  (∃ token j, o = Some j ∧ owned_running token j = true ∧ r = true ∧
     (((∃ source raw summary slug, c = SucceedStage1 thread token source raw summary slug) ∨ c = SucceedStage1NoOutput thread token) ∧
        o' = Some (succeeded_job now j) ∨
      ∃ reason delay, c = FailStage1 thread token reason delay ∧ o' = Some (failed_stage1_job now (lease_end now delay) reason j))).
Proof.
  intros Hk Hs. remember (stage1_key thread) as k eqn:Ek in Hs.
  destruct Hs as [c r k o Ht|token th worker source lease max o row Hup Hrow|c th token j Hc Ho|th token reason delay j Ho
    |c r w o Ht| | | | | |th o|k o Hm]; try (by destruct (stage1_not_global thread)); try discriminate Hk;
    try (assert (th = thread) as -> by (by apply stage1_key_inj)); first [subst k|clear Ek].
  - left. split; [done|]. intros token reason delay ->. unfold touched in Ht. destruct r; [|done].
    by rewrite bool_decide_eq_true_2 in Ht.
  - right; left. by exists token, worker, source, lease, max, row.
  - right; right. eexists token, j. split_and!; try done. by left.
  - right; right. eexists token, j. split_and!; try done. right. by exists reason, delay.
  - cbn [keeps] in Hk. by rewrite bool_decide_eq_true_2 in Hk.
Qed.

(** *** Bounded retries *)
Definition is_failure (thread : str) (c : Call) : bool :=
  match c with FailStage1 t _ _ _ => bool_decide (t = thread) | _ => false end.
Definition failures (thread : str) (log : list Call) : Z := Z.of_nat (length (List.filter (is_failure thread) log)).

(** Every claim for the thread is for the same source. *)
Definition claims_for (thread : str) (source : Z) (c : Call) : Prop :=
  keeps thread c = true ∧ match c with ClaimStage1 _ t _ s _ _ => t = thread → s = source | _ => True end.

Definition retries_left (thread : str) (source : Z) (o : option Job) (log : list Call) : Prop :=
  match o with
  | None => failures thread log = 0%Z
  | Some j => retry_remaining j = (DEFAULT_RETRY_REMAINING - failures thread log)%Z ∧ input_watermark j = Some source ∧
              (0 ≤ retry_remaining j)%Z ∧ (job_status j = Running → (1 ≤ retry_remaining j)%Z)
  end.

Lemma failures_snoc thread log c : failures thread (log ++ [c]) = (failures thread log + if is_failure thread c then 1 else 0)%Z.
Proof.
  unfold failures. rewrite List.filter_app, length_app. cbn [List.filter]. destruct (is_failure thread c); cbn [length]; lia.
Qed.

Lemma retries_step now db c r thread source o' log :
  claims_for thread source c → retries_left thread source (jobs db !! stage1_key thread) log →
  job_step now db c r (stage1_key thread) (jobs db !! stage1_key thread) o' →
  retries_left thread source o' (if r then log ++ [c] else log).
Proof.
  intros [Hk Hcl] H Hs. destruct (stage1_step _ _ _ _ _ _ _ Hk Hs) as
    [[-> Hf]|[(token & worker & s & lease & max & row & -> & -> & -> & _ & Hr)|(token & j & Hj & Ho & -> & Hc)]].
  - destruct r; [|done]. unfold retries_left in *. rewrite failures_snoc. destruct (is_failure thread c) eqn:E; [|by rewrite Z.add_0_r].
    destruct c; try discriminate E. apply bool_decide_eq_true in E as ->. by pose proof (Hf _ _ _ eq_refl).
  - rewrite (Hcl eq_refl) in Hr. cbn [retries_left]. rewrite failures_snoc. cbn [is_failure].
    destruct (stage1_claim_row_spec _ _ _ _ _ _ _ _ _ Hr) as (Hs' & Hn & [Hst _]%owned_running_iff & _ & Hi & _).
    destruct (jobs db !! stage1_key thread) as [j|] eqn:Hj; cbn [retries_left] in H.
    + destruct (Hs' j eq_refl) as (_ & Hrr & _ & Hor). destruct H as (H1 & H2 & H3 & _).
      assert (advanced source j = false) as Ha by (unfold advanced; rewrite H2; apply Z.ltb_irrefl).
      rewrite Ha in Hrr, Hor. destruct Hor as [Hor|]; [|done]. rewrite Hrr. split_and!; [lia|done|lia|lia].
    + destruct (Hn eq_refl) as [Hrr _]. rewrite Hrr. unfold DEFAULT_RETRY_REMAINING in *. split_and!; [lia|done|lia|lia].
  - rewrite Hj in H. cbn [retries_left] in H. destruct H as (H1 & H2 & H3 & H4). apply owned_running_iff in Ho as [Hst _].
    specialize (H4 Hst). destruct Hc as [[Hc ->]|(reason & delay & -> & ->)]; cbn [retries_left]; rewrite failures_snoc.
    + assert (is_failure thread c = false) as -> by (destruct Hc as [(? & ? & ? & ? & ->)| ->]; done).
      cbn [succeeded_job retry_remaining input_watermark job_status]. split_and!; [lia|done|lia|done].
    + cbn [is_failure failed_stage1_job retry_remaining input_watermark job_status]. rewrite bool_decide_eq_true_2 by done.
      split_and!; [lia|done|lia|done].
Qed.

(** C22: Starting from an empty store, and as long as the thread does not change and its
    memory is neither deleted nor cleared (which forgets the job and its retries),
    at most three failures of its extraction are recorded, whatever else happens to
    the store; and once three are, no claim for the same source is granted any more. *)
Theorem retries_bounded (thread : str) (source : Z) (calls : list (Z * Call)) :
  Forall (claims_for thread source) calls.*2 →
  let '(db, log) := logged empty_db calls in
  (failures thread log ≤ DEFAULT_RETRY_REMAINING)%Z ∧
  (failures thread log = DEFAULT_RETRY_REMAINING → ∀ now token worker lease max,
     try_claim_stage1_job now token thread worker source lease max db =
       (db, if up_to_date db thread source then Stage1SkippedUpToDate else Stage1SkippedRetryExhausted)).
Proof.
  intros Hq. pose proof (logged_row (retries_left thread source) (claims_for thread source) (stage1_key thread) empty_db calls
    (λ now db c r o' log, retries_step now db c r thread source o' log) eq_refl Hq) as H.
  destruct (logged empty_db calls) as [db log]. cbn [fst snd] in H. unfold retries_left in H.
  unfold try_claim_stage1_job. destruct (jobs db !! stage1_key thread) as [j|] eqn:Hj; [|rewrite H; done].
  destruct H as (H1 & H2 & H3 & _). split; [lia|]. intros Hf now token worker lease max.
  destruct (up_to_date db thread source); [done|].
  destruct (stage1_claim_row _ _ _ _ _ _ _ _) as [row|] eqn:Hr.
  - apply stage1_claim_row_spec in Hr as [Hr _]. destruct (Hr j Hj) as (_ & _ & _ & [Hlt|Ha]); [lia|].
    unfold advanced in Ha. rewrite H2 in Ha. cbn in Ha. lia.
  - cbn [stage1_skip_reason]. by rewrite (proj2 (Z.leb_le (retry_remaining j) 0)) by lia.
Qed.

(** *** Finished work *)
Definition watermark_reached (w : Z) (o : option Job) (_ : list Call) : Prop :=
  ∃ j v, o = Some j ∧ last_success_watermark j = Some v ∧ (w ≤ v)%Z ∧
    (job_status j = Running → ∃ i, input_watermark j = Some i ∧ (w ≤ i)%Z).

Lemma up_to_date_watermark db thread source j v :
  jobs db !! stage1_key thread = Some j → last_success_watermark j = Some v → up_to_date db thread source = false → (v < source)%Z.
Proof. unfold up_to_date. intros -> -> [_ H]%orb_false_iff. lia. Qed.

Lemma watermark_step now db c r thread w o' log :
  keeps thread c = true → watermark_reached w (jobs db !! stage1_key thread) log →
  job_step now db c r (stage1_key thread) (jobs db !! stage1_key thread) o' →
  watermark_reached w o' (if r then log ++ [c] else log).
Proof.
  intros Hk (j & v & Hj & Hv & Hw & Hi) Hs. destruct (stage1_step _ _ _ _ _ _ _ Hk Hs) as
    [[-> _]|[(token & worker & s & lease & max & row & _ & _ & -> & Hu & Hr)|(token & j' & Hj' & Ho & _ & Hc)]].
  - by exists j, v.
  - destruct (stage1_claim_row_spec _ _ _ _ _ _ _ _ _ Hr) as (Hs' & _ & _ & _ & Hin & _).
    destruct (Hs' j Hj) as (_ & _ & Hlsw & _). pose proof (up_to_date_watermark _ _ _ _ _ Hj Hv Hu).
    exists row, v. split_and!; [done|congruence|done|]. intros _. exists s. split; [done|lia].
  - assert (j' = j) as -> by congruence. apply owned_running_iff in Ho as [Hst _]. destruct (Hi Hst) as (i & Hii & Hwi).
    destruct Hc as [[_ ->]|(reason & delay & _ & ->)].
    + exists (succeeded_job now j), i. split_and!; try done.
    + exists (failed_stage1_job now (lease_end now delay) reason j), v. by split_and!.
Qed.

(** C21: Once the extraction claimed for a source has been recorded as successful, with
    or without output, the thread is reported as up to date to every claim for that
    source or an older one, whatever happens in between, until its memory is deleted. *)
Theorem finished_work_not_reclaimed db thread token j w now c later now' token' worker source lease max :
  jobs db !! stage1_key thread = Some j → owned_running token j = true → input_watermark j = Some w →
  (∃ s raw summary slug, c = SucceedStage1 thread token s raw summary slug) ∨ c = SucceedStage1NoOutput thread token →
  Forall (λ c, keeps thread c = true) later.*2 → (source ≤ w)%Z →
  (exec now c db).2 = true ∧
  let db' := (logged (exec now c db).1 later).1 in
  try_claim_stage1_job now' token' thread worker source lease max db' = (db', Stage1SkippedUpToDate).
Proof.
  intros Hj Ho Hw Hc Hk Hle.
  assert ((exec now c db).2 = true ∧ jobs (exec now c db).1 !! stage1_key thread = Some (succeeded_job now j)) as [Hr Hj'].
  { destruct Hc as [(s & raw & summary & slug & ->)| ->]; cbn [exec];
      unfold mark_stage1_job_succeeded, mark_stage1_job_succeeded_no_output, update_job; rewrite Hj, Ho; cbn [negb].
    - split; [done|]. cbn [fst enqueue_global_consolidation jobs with_jobs with_outputs].
      rewrite lookup_insert_ne by (symmetry; apply stage1_not_global). apply lookup_insert_eq.
    - cbn [jobs with_jobs]. rewrite lookup_insert_eq. cbn [mbind option_bind succeeded_job input_watermark]. rewrite Hw.
      destruct (stage1_outputs _ !! thread); (split; [done|]); cbn [fst enqueue_global_consolidation jobs with_jobs with_outputs];
        rewrite ?lookup_insert_ne by (symmetry; apply stage1_not_global); apply lookup_insert_eq. }
  split; [done|]. cbn zeta. set (db1 := (exec now c db).1) in *.
  assert (watermark_reached w (jobs db1 !! stage1_key thread) []) as H0.
  { exists (succeeded_job now j), w. by split_and!. }
  destruct (logged_row (watermark_reached w) (λ c, keeps thread c = true) (stage1_key thread) db1 later
    (λ now db c r o' log, watermark_step now db c r thread w o' log) H0 Hk) as (j2 & v & Hj2 & Hv & Hwv & _).
  unfold try_claim_stage1_job. assert (up_to_date (logged db1 later).1 thread source = true) as ->; [|done].
  unfold up_to_date. rewrite Hj2, Hv. apply orb_true_iff. right. apply Z.leb_le. lia.
Qed.

(** ** The input of phase 2 *)
#[global] Instance id_le_total : Total id_le.
Proof. intros a b. apply (total str_le). Qed.
#[global] Instance id_le_transitive : Transitive id_le.
Proof. intros a b c. unfold id_le. apply transitivity. Qed.
Section selection.
Context {Columns Details : Type}.
Context (parse_thread_id : str → result str str).
Context (read_details : Columns → result str Details).
Context (valid_millis valid_seconds : Z → bool).
Implicit Types ts : gmap str (ThreadColumns Columns).

Abbreviation metadata := (enabled_thread_metadata parse_thread_id read_details valid_millis).
Abbreviation page := (select_page parse_thread_id read_details valid_millis).
Abbreviation pages := (select_pages parse_thread_id read_details valid_millis).
Abbreviation load := (load_selected parse_thread_id read_details valid_millis valid_seconds).
Abbreviation output := (stage1_output_from_row_if_thread_enabled parse_thread_id read_details valid_millis valid_seconds).
Abbreviation selection := (get_phase2_input_selection parse_thread_id read_details valid_millis valid_seconds).

Abbreviation Views := (@Views Columns).

(** A key that was selected before the query [i]: a candidate of some query whose
    thread was found enabled by a later one. *)
Definition picked (views : Views) (cutoff : Z) (key : str * Z) (i : nat) : Prop :=
  ∃ id o p j thread m, key = (id, source_updated_at o) ∧ (id, o) ∈ ranked_candidates cutoff (db_at views p) ∧ p < j < i ∧
    parse_thread_id id = Ok thread ∧ metadata (threads_at views j) thread = Ok (Some m).
Lemma picked_later views cutoff key i i' : i ≤ i' → picked views cutoff key i → picked views cutoff key i'.
Proof. intros Hi (id & o & p & j & thread & m & H1 & H2 & H3 & H4). exists id, o, p, j, thread, m. split_and!; try done; try lia; apply H4. Qed.

Lemma select_page_picks views cutoff n p rows keys i keys' i' : page views n rows keys i = Ok (keys', i') →
  p < i → rows ⊆ ranked_candidates cutoff (db_at views p) → length keys < N.to_nat n →
  i ≤ i' ∧ length keys' ≤ N.to_nat n ∧ ∀ key, key ∈ keys' → key ∈ keys ∨ picked views cutoff key i'.
Proof.
  revert keys i. induction rows as [|[id o] rows IH]; intros keys i; cbn [select_page rbind].
  { intros [= <- <-] _ _ Hn. split_and!; [lia..|]. auto. }
  destruct (parse_thread_id id) as [thread|e] eqn:Hp; cbn [rbind]; [|done]. destruct (metadata _ thread) as [[m|]|e] eqn:Hm; cbn [rbind]; [| |done].
  - intros H Hpi Hr Hn. assert (picked views cutoff (id, source_updated_at o) (S i)) as Hk by (exists id, o, p, i, thread, m; split_and!; (done || lia || set_solver)).
    assert (i ≤ i' ∧ length keys' ≤ N.to_nat n ∧ ∀ key, key ∈ keys' → key ∈ keys ++ [(id, source_updated_at o)] ∨ picked views cutoff key i') as (H1 & H2 & H3).
    { destruct (N.leb_spec n (N.of_nat (length (keys ++ [(id, source_updated_at o)])))) as [Hle|Hlt].
      - injection H as <- <-. rewrite length_app in *. cbn [length] in *. split_and!; [lia..|auto].
      - apply IH in H; [|lia|set_solver|lia]. destruct H as (H1 & H2 & H3). split_and!; [lia|done|done]. }
    assert (S i ≤ i') as Hi.
    { destruct (N.leb_spec n (N.of_nat (length (keys ++ [(id, source_updated_at o)])))) as [Hle|Hlt]; [by injection H as _ <-|].
      apply IH in H as (H & _); [lia|lia|set_solver|lia]. }
    split_and!; [done|done|]. intros key [[?| ->%list_elem_of_singleton]%elem_of_app|?]%H3; [by left|right|by right]. by eapply picked_later.
  - intros H Hpi Hr Hn. apply IH in H as (H1 & H2 & H3); [|lia|set_solver|done]. split_and!; [lia|done|done].
Qed.

Lemma select_pages_picks fuel views cutoff n page_size offset keys i keys' i' :
  pages fuel views cutoff n page_size offset keys i = Some (Ok (keys', i')) → length keys ≤ N.to_nat n →
  i ≤ i' ∧ length keys' ≤ N.to_nat n ∧ ∀ key, key ∈ keys' → key ∈ keys ∨ picked views cutoff key i'.
Proof.
  revert offset keys i. induction fuel as [|fuel IH]; intros offset keys i; cbn [select_pages];
    (destruct (N.leb_spec n (N.of_nat (length keys))) as [Hle|Hlt]; [intros [= <- <-] Hn; split_and!; [lia|done|auto]|]); [done|].
  destruct (page_of page_size offset _) as [|row rows] eqn:Hpage; [intros [= <- <-] Hn; split_and!; [lia|done|auto]|].
  destruct (page views n (row :: rows) keys (S i)) as [[keys1 i1]|e] eqn:E; [|done]. intros H Hn.
  apply (select_page_picks views cutoff n i) in E as (H1 & H2 & H3); [|lia| |lia].
  - apply IH in H as (H4 & H5 & H6); [|done]. split_and!; [lia|done|]. intros key [[?|?]%H3|?]%H6; [by left|right|by right]. by apply (picked_later _ _ _ i1).
  - rewrite <-Hpage. unfold page_of. intros x Hx. eapply subseteq_drop, subseteq_take, Hx.
Qed.

(** Every page but the last is not empty, whatever each query sees. *)
Lemma select_pages_end fuel views cutoff n page_size offset keys i :
  (∀ j, length (ranked_candidates cutoff (db_at views j)) - offset < fuel) → ∃ r, pages fuel views cutoff n page_size offset keys i = Some r.
Proof.
  revert offset keys i. induction fuel as [|fuel IH]; intros offset keys i Hf; [specialize (Hf 0); lia|]. cbn [select_pages].
  destruct (n <=? _)%N; [eauto|]. destruct (page_of page_size offset _) as [|row rows] eqn:Hpage; [eauto|].
  destruct (page views n (row :: rows) keys (S i)) as [[keys1 i1]|e]; [|eauto]. apply IH. intros j. cbn [length].
  apply (f_equal length) in Hpage. unfold page_of in Hpage. rewrite length_take, length_drop in Hpage. cbn [length] in Hpage.
  pose proof (Hf j). pose proof (Hf i). lia.
Qed.

Lemma ranked_length cutoff db : length (ranked_candidates cutoff db) ≤ size (stage1_outputs db).
Proof.
  unfold ranked_candidates. rewrite (Permutation_length (merge_sort_Permutation ranks_before _)), <-length_map_to_list.
  induction (map_to_list _) as [|x l IH]; [done|]. cbn. case_match; cbn; lia.
Qed.

(** A row that was read again for a key. *)
Definition reread (views : Views) (key : str * Z) (i : nat) (out : Stage1Output) : Prop :=
  ∃ o k, i ≤ k ∧ stage1_outputs (db_at views k) !! key.1 = Some o ∧ source_updated_at o = key.2 ∧
    output (threads_at views (S k)) (key.1, o) = Ok (Some out).

Lemma load_selected_reads views keys i outs : load views keys i = Ok outs →
  length outs ≤ length keys ∧ ∀ out, out ∈ outs → ∃ key, key ∈ keys ∧ reread views key i out.
Proof.
  assert (∀ key out j, i ≤ j → reread views key j out → reread views key i out) as Hl.
  { intros key out j Hj (o & k & H1 & H2). exists o, k. split; [lia|done]. }
  revert i outs Hl. induction keys as [|[id source] keys IH]; intros i outs Hl; cbn [load_selected].
  { intros [= <-]. split; [done|]. set_solver. }
  assert (∀ j outs, i ≤ j → load views keys j = Ok outs →
    length outs ≤ length keys ∧ ∀ out, out ∈ outs → ∃ key, key ∈ (id, source) :: keys ∧ reread views key i out) as Hrec.
  { intros j outs' Hj H. apply IH in H as [H1 H2].
    - split; [done|]. intros out Ho. destruct (H2 out Ho) as (key & ? & ?). exists key. split; [by right|]. by apply (Hl _ _ j).
    - intros key out k Hk (o & k' & ? & ?). exists o, k'. split; [lia|done]. }
  cbn [length]. destruct (stage1_outputs (db_at views i) !! id) as [o|] eqn:Ho.
  2: { intros H. apply Hrec in H as [H1 H2]; [|lia]. split; [lia|done]. }
  destruct (Z.eqb_spec (source_updated_at o) source) as [Hs|_].
  2: { intros H. apply Hrec in H as [H1 H2]; [|lia]. split; [lia|done]. }
  destruct (output _ (id, o)) as [out|e] eqn:Eo; cbn [rbind]; [|done].
  destruct (load views keys _) as [outs'|e] eqn:El; cbn [rbind]; [|done]. apply Hrec in El as [H1 H2]; [|lia]. intros [= <-].
  destruct out as [out|]; [|split; [lia|done]]. cbn [length]. split; [lia|]. intros out' [->|?]%elem_of_cons; [|by apply H2].
  exists (id, source). split; [by left|]. exists o, i. by split_and!.
Qed.

(** Every stored row can be read: identifiers are canonical, timestamps in range. *)
Definition readable ts (db : MemoryDb) : Prop :=
  ∀ id o, stage1_outputs db !! id = Some o → parse_thread_id id = Ok id ∧ valid_seconds (source_updated_at o) = true ∧
    valid_seconds (generated_at o) = true ∧ ∃ m, metadata ts id = Ok m.

Definition enabled ts (row : str * OutputRow) : bool :=
  match ts !! row.1 with Some t => bool_decide (th_memory_mode t = ENABLED_MODE) | None => false end.

(** The output a row stands for, if its thread is enabled. *)
Definition shown ts (row : str * OutputRow) : option Stage1Output := match output ts row with Ok o => o | Err _ => None end.

Definition stored (db : MemoryDb) (row : str * OutputRow) : Prop := stage1_outputs db !! row.1 = Some row.2.
Definition key_of (row : str * OutputRow) : str * Z := (row.1, source_updated_at row.2).

Lemma readable_metadata ts db row : readable ts db → stored db row →
  parse_thread_id row.1 = Ok row.1 ∧ ∃ m, metadata ts row.1 = Ok m ∧ enabled ts row = bool_decide (is_Some m).
Proof.
  intros H Hs. destruct (H _ _ Hs) as (Hp & _ & _ & m & Hm). split; [done|]. exists m. split; [done|].
  unfold enabled_thread_metadata, enabled in *. destruct (ts !! row.1) as [t|]; [|by injection Hm as <-].
  destruct (bool_decide (th_memory_mode t = ENABLED_MODE)); [|by injection Hm as <-].
  destruct (read_metadata _ _ _ _); [|done]. injection Hm as <-. by rewrite bool_decide_eq_true_2 by eauto.
Qed.

(** Queries between which neither the threads nor the stored outputs change. *)
Definition steady (views : Views) ts (db : MemoryDb) : Prop :=
  ∀ i, threads_at views i = ts ∧ stage1_outputs (db_at views i) = stage1_outputs db.

Lemma select_page_readable views ts db n rows keys i : steady views ts db → readable ts db → Forall (stored db) rows →
  (N.of_nat (length keys) < n)%N →
  ∃ i', page views n rows keys i = Ok (take (N.to_nat n) (keys ++ (key_of <$> List.filter (enabled ts) rows)), i').
Proof.
  intros Hv Hr. revert keys i. induction rows as [|[id o] rows IH]; intros keys i Hs Hn; cbn [select_page List.filter].
  { cbn [fmap list_fmap]. rewrite app_nil_r, take_ge by lia. eauto. }
  apply Forall_cons in Hs as [Hio Hs]. destruct (readable_metadata ts db (id, o) Hr Hio) as (Hp & m & Hm & He). cbn [fst] in Hp, Hm.
  rewrite Hp, He. cbn [rbind]. rewrite (proj1 (Hv i)), Hm. cbn [rbind]. destruct m as [m|]; cycle 1.
  { rewrite bool_decide_eq_false_2 by (by intros []). by apply IH. }
  rewrite bool_decide_eq_true_2 by eauto. cbn [fmap list_fmap]. change (id, source_updated_at o) with (key_of (id, o)).
  replace (keys ++ key_of (id, o) :: (key_of <$> List.filter (enabled ts) rows))
    with ((keys ++ [key_of (id, o)]) ++ (key_of <$> List.filter (enabled ts) rows)) by (by rewrite <-(assoc_L app)).
  destruct (N.leb_spec n (N.of_nat (length (keys ++ [key_of (id, o)])))) as [Hle|Hlt]; [|by apply IH].
  rewrite length_app in Hle. cbn [length] in Hle. exists (S i). rewrite take_app_length'; [done|]. rewrite length_app. cbn [length]. lia.
Qed.

Lemma take_take_app {A} n (k l : list A) : take n (take n k ++ l) = take n (k ++ l).
Proof.
  destruct (decide (n ≤ length k)); [|by rewrite (take_ge k) by lia].
  rewrite !take_app_le by (rewrite ?length_take; lia). by rewrite take_take, Nat.min_id.
Qed.

(** Reading in pages is reading the whole list. *)
Lemma select_pages_whole fuel views ts db cutoff n page_size offset keys i : steady views ts db → readable ts db →
  Forall (stored db) (ranked_candidates cutoff db) → (1 ≤ page_size)%N → length keys ≤ N.to_nat n →
  length (ranked_candidates cutoff db) - offset < fuel →
  ∃ i', pages fuel views cutoff n page_size offset keys i =
    Some (Ok (take (N.to_nat n) (keys ++ (key_of <$> List.filter (enabled ts) (drop offset (ranked_candidates cutoff db)))), i')).
Proof.
  intros Hv Hr Hst Hp. revert offset keys i. induction fuel as [|fuel IH]; intros offset keys i Hn Hf; [lia|]. cbn [select_pages].
  destruct (N.leb_spec n (N.of_nat (length keys))) as [Hle|Hlt]; [exists i; rewrite take_app_length' by lia; done|].
  assert (ranked_candidates cutoff (db_at views i) = ranked_candidates cutoff db) as -> by (unfold ranked_candidates; by rewrite (proj2 (Hv i))).
  set (ranked := ranked_candidates cutoff db) in *.
  pose proof (take_drop (N.to_nat page_size) (drop offset ranked)) as Hd. fold (page_of page_size offset ranked) in Hd.
  assert (length (page_of page_size offset ranked) = N.to_nat page_size `min` (length ranked - offset)) as Hl
    by (unfold page_of; by rewrite length_take, length_drop).
  destruct (page_of page_size offset ranked) as [|row rows] eqn:Hpage.
  { assert (drop offset ranked = []) as -> by (apply length_zero_iff_nil; rewrite length_drop; cbn in Hl; lia).
    exists (S i). cbn [List.filter fmap list_fmap]. rewrite app_nil_r, take_ge by lia. done. }
  assert (Forall (stored db) (row :: rows)) as Hrow by (rewrite <-Hpage; unfold page_of; by apply Forall_take, Forall_drop).
  destruct (select_page_readable views ts db n (row :: rows) keys (S i) Hv Hr Hrow Hlt) as [i1 ->].
  destruct (IH (offset + length (row :: rows)) (take (N.to_nat n) (keys ++ (key_of <$> List.filter (enabled ts) (row :: rows)))) i1) as [i2 ->];
    [rewrite length_take; lia|cbn [length] in *; lia|]. exists i2. do 3 f_equal.
  rewrite take_take_app, <-(assoc_L app), <-fmap_app, <-List.filter_app, <-Hd, drop_drop. cbn [length] in *. do 5 f_equal.
  destruct (decide (N.to_nat page_size ≤ length ranked - offset)); [f_equal; lia|]. by rewrite !drop_ge by lia.
Qed.

Lemma load_selected_readable views ts db rows i : steady views ts db → readable ts db → Forall (stored db) rows →
  load views (key_of <$> rows) i = Ok (omap (shown ts) rows).
Proof.
  intros Hv Hr. revert i. induction rows as [|[id o] rows IH]; intros i Hs; [done|]. apply Forall_cons in Hs as [Hio Hs].
  cbn [fmap list_fmap key_of load_selected omap list_omap fst snd]. rewrite (proj2 (Hv i)), (proj1 (Hv (S i))).
  unfold stored in Hio. cbn [fst snd] in Hio. rewrite Hio, Z.eqb_refl.
  rewrite IH by done. unfold shown at 2.
  assert (∃ out, output ts (id, o) = Ok out) as [out ->]; [|cbn [rbind]; by destruct out].
  destruct (Hr id o Hio) as (Hp & Hv1 & Hv2 & m & Hm). unfold stage1_output_from_row_if_thread_enabled. cbn [fst snd].
  rewrite Hp. cbn [rbind]. rewrite Hm. cbn [rbind]. destruct m as [m|]; [|eauto].
  unfold stage1_output_from_row_and_thread. rewrite Hv1, Hv2. cbn. eauto.
Qed.

Lemma ranked_stored cutoff db : Forall (stored db) (ranked_candidates cutoff db).
Proof.
  unfold ranked_candidates. rewrite (merge_sort_Permutation ranks_before). apply Forall_forall. intros [i o] [H _]%elem_of_filterb.
  by apply elem_of_map_to_list in H.
Qed.

(** C23: the input of phase 2 is read by a query per page, per selected thread and
    per selected row, and other workers may write in between. Whatever each of the
    queries sees, if the stored rows are fewer than the fuel at all times the loop over
    pages ends; and an answer has at most [n] outputs in the order of their
    identifiers, each of a row that one query ranked among the candidates, whose
    thread a later query found enabled, and that still later queries read again from
    the same source and an enabled thread. When neither the threads nor the stored
    outputs change in between and every stored row can be read, the answer is that of
    one query: the best [n] candidates whose thread is enabled. *)
Theorem selection_pages_are_one_query fuel now n days views :
  let cutoff := seconds_before now days in
  ((∀ i, size (stage1_outputs (db_at views i)) < fuel) → ∃ r, selection fuel now n days views = Some r) ∧
  (∀ outs, selection fuel now n days views = Some (Ok outs) →
     length outs ≤ N.to_nat n ∧ StronglySorted id_le outs ∧
     ∀ out, out ∈ outs → ∃ key i, picked views cutoff key i ∧ reread views key i out) ∧
  (∀ ts db, steady views ts db → readable ts db → size (stage1_outputs db) < fuel →
     selection fuel now n days views =
     Some (Ok (merge_sort id_le (omap (shown ts) (take (N.to_nat n) (List.filter (enabled ts) (ranked_candidates cutoff db))))))).
Proof.
  cbv zeta. unfold get_phase2_input_selection. set (cutoff := seconds_before now days). split_and!.
  - intros Hf. destruct (n =? 0)%N; [eauto|].
    destruct (select_pages_end fuel views cutoff n (selection_page_size n) 0 [] 0) as [[[keys i]|e] ->]; [|eauto..].
    intros j. pose proof (ranked_length cutoff (db_at views j)). pose proof (Hf j). lia.
  - intros outs. destruct (n =? 0)%N; [intros [= <-]; split_and!; [cbn; lia|constructor|set_solver]|].
    destruct (pages _ _ _ _ _ _ _ _) as [[[keys i]|e]|] eqn:E; [|done..].
    apply select_pages_picks in E as (_ & Hl & Hk); [|cbn; lia]. destruct (load views keys i) as [outs'|e] eqn:El; cbn [rbind]; [|done].
    apply load_selected_reads in El as [Hl' Ho]. intros [= <-]. split_and!.
    + rewrite (Permutation_length (merge_sort_Permutation id_le outs')). lia.
    + apply (StronglySorted_merge_sort id_le).
    + intros out. rewrite (merge_sort_Permutation id_le outs'). intros (key & Hin & Hre)%Ho. exists key, i. split; [|done].
      destruct (Hk key Hin); [set_solver|done].
  - intros ts db Hv Hr Hf. destruct (N.eqb_spec n 0) as [->|Hn]; [done|].
    destruct (select_pages_whole fuel views ts db cutoff n (selection_page_size n) 0 [] 0) as [i ->];
      [done|done|apply ranked_stored|unfold selection_page_size; lia|cbn; lia|pose proof (ranked_length cutoff db); lia|].
    cbn [app]. rewrite drop_0, <-fmap_take, (load_selected_readable views ts db); [done|done|done|].
    apply Forall_take, Forall_forall. intros row [H _]%elem_of_filterb. revert row H. apply Forall_forall, ranked_stored.
Qed.
End selection.

(** The ranking is a total order, so that the query has one answer. *)
#[global] Instance newer_source_total : Total newer_source.
Proof.
  intros [i o] [i' o']. unfold newer_source. cbn [fst snd]. destruct (total str_le i i'); [|]; destruct (Z.lt_total (source_updated_at o) (source_updated_at o')) as [?|[?|?]]; auto.
Qed.
#[global] Instance newer_source_transitive : Transitive newer_source.
Proof.
  intros [i o] [i' o'] [i'' o'']. unfold newer_source. cbn [fst snd]. intros [?|[? H]] [?|[? H']]; [left; lia..|].
  right. split; [lia|]. by transitivity i'.
Qed.
#[global] Instance ranks_before_total : Total ranks_before.
Proof.
  intros a b. unfold ranks_before. destruct (total newer_source a b), (Z.lt_total (uses a.2) (uses b.2)) as [?|[?|?]],
    (Z.lt_total (recency a.2) (recency b.2)) as [?|[?|?]]; naive_solver.
Qed.
#[global] Instance ranks_before_transitive : Transitive ranks_before.
Proof.
  intros a b c. unfold ranks_before. intros [?|[? [?|[? H]]]] [?|[? [?|[? H']]]]; try (left; lia); right; (split; [lia|]);
    try (left; lia). right. split; [lia|]. by transitivity b.
Qed.

Lemma ranked_sorted cutoff db : StronglySorted ranks_before (ranked_candidates cutoff db).
Proof. apply (StronglySorted_merge_sort _). Qed.

(** ** Retention *)
#[global] Instance staler_total : Total staler.
Proof.
  intros a b. unfold staler. destruct (total str_le a.1 b.1), (Z.lt_total (recency a.2) (recency b.2)) as [?|[?|?]],
    (Z.lt_total (source_updated_at a.2) (source_updated_at b.2)) as [?|[?|?]]; naive_solver.
Qed.
#[global] Instance staler_transitive : Transitive staler.
Proof.
  intros a b c. unfold staler. intros [?|[? [?|[? H]]]] [?|[? [?|[? H']]]]; try (left; lia); right; (split; [lia|]);
    try (left; lia). right. split; [lia|]. by transitivity b.1.
Qed.

Lemma lookup_foldr_delete (rows : list (str * OutputRow)) (os : gmap str OutputRow) id :
  foldr (λ row os, delete row.1 os) os rows !! id = if bool_decide (id ∈ rows.*1) then None else os !! id.
Proof.
  induction rows as [|[i o] rows IH]; [done|]. cbn [foldr fmap list_fmap fst]. destruct (decide (i = id)) as [->|Hne].
  - rewrite lookup_delete_eq, bool_decide_eq_true_2; [done|by left].
  - rewrite lookup_delete_ne, IH by done. do 2 case_bool_decide; set_solver.
Qed.

Lemma map_to_list_key (os : gmap str OutputRow) id o rows :
  (∀ row, row ∈ rows → os !! row.1 = Some row.2) → os !! id = Some o → id ∈ rows.*1 ↔ (id, o) ∈ rows.
Proof.
  intros H Ho. rewrite list_elem_of_fmap. split; [|by exists (id, o)]. intros ([i o'] & -> & Hin). cbn [fst] in *.
  pose proof (H _ Hin) as Ho'. cbn in Ho'. by simplify_eq.
Qed.

(** Pruning removes the stalest of the rows that are beyond the retention age and not
    part of the consolidated baseline, at most [limit] of them, and nothing else:
    what it leaves of them is not staler than what it removed, and it leaves none
    when it removed fewer than [limit]. *)
Theorem prune_removes_stalest now days limit db : (0 < limit)%N → (Z.of_N limit ≤ I64_MAX)%Z →
  let cutoff := seconds_before now days in
  let '(db', removed) := prune_stage1_outputs_for_retention now days limit db in
  let gone row := stage1_outputs db !! row.1 = Some row.2 ∧ stage1_outputs db' !! row.1 = None in
  jobs db' = jobs db ∧
  (∀ id o, stage1_outputs db' !! id = Some o → stage1_outputs db !! id = Some o) ∧
  (∃ rows, NoDup rows ∧ (∀ row, row ∈ rows ↔ gone row) ∧ removed = length rows ∧ (N.of_nat removed ≤ limit)%N) ∧
  (∀ row, gone row → is_selected row.2 = false ∧ (recency row.2 < cutoff)%Z) ∧
  (∀ row kept, gone row → stage1_outputs db' !! kept.1 = Some kept.2 → prunable cutoff kept = true → staler row kept) ∧
  ((N.of_nat removed < limit)%N → ∀ id o, stage1_outputs db' !! id = Some o → prunable cutoff (id, o) = false).
Proof.
  intros Hl Hmax. cbn zeta. unfold prune_stage1_outputs_for_retention. destruct (N.eqb_spec limit 0) as [->|_]; [lia|].
  set (cutoff := seconds_before now days). unfold pruned_rows, sql_limit, usize_as_i64.
  rewrite (proj2 (Z.leb_le _ _) Hmax). destruct (Z.ltb_spec (Z.of_N limit) 0) as [|_]; [lia|].
  set (all := merge_sort staler _). set (k := Z.to_nat (Z.of_N limit)).
  assert (∀ row, row ∈ all ↔ stage1_outputs db !! row.1 = Some row.2 ∧ prunable cutoff row = true) as Hall.
  { intros [i o]. unfold all. rewrite (merge_sort_Permutation staler), elem_of_filterb, elem_of_map_to_list. done. }
  assert (StronglySorted staler (take k all ++ drop k all)) as Hsort by (rewrite take_drop; apply (StronglySorted_merge_sort _)).
  assert (NoDup all) as Hnd.
  { unfold all. rewrite (merge_sort_Permutation staler). apply NoDup_ListNoDup, List.NoDup_filter, NoDup_ListNoDup, NoDup_map_to_list. }
  assert (∀ row, row ∈ take k all → row ∈ all) as Htk by (intros row; rewrite <-(take_drop k all) at 2; set_solver).
  assert (∀ id o, stage1_outputs db !! id = Some o → id ∈ (take k all).*1 ↔ (id, o) ∈ take k all) as Hkey.
  { intros id o. apply map_to_list_key. intros row Hrow. by apply Hall, Htk. }
  assert (∀ row, (stage1_outputs db !! row.1 = Some row.2 ∧
    foldr (λ row os, delete row.1 os) (stage1_outputs db) (take k all) !! row.1 = None) ↔ row ∈ take k all) as Hgone.
  { intros [i o]. cbn [fst snd]. rewrite lookup_foldr_delete. split.
    - intros [Ho Hn]. case_bool_decide as Hin; [by apply (Hkey _ _ Ho)|congruence].
    - intros Hin. pose proof (proj1 (proj1 (Hall _) (Htk _ Hin))) as Ho. cbn in Ho. split; [done|].
      by rewrite bool_decide_eq_true_2 by by apply (Hkey _ _ Ho). }
  assert (∀ row, foldr (λ row os, delete row.1 os) (stage1_outputs db) (take k all) !! row.1 = Some row.2 →
    prunable cutoff row = true → row ∈ drop k all) as Hkept.
  { intros row. rewrite lookup_foldr_delete. case_bool_decide as Hin; [done|]. intros Ho Hp.
    assert (row ∈ take k all ++ drop k all) as Ha by (rewrite take_drop; by apply Hall).
    apply elem_of_app in Ha as [Ha|]; [|done]. destruct Hin. apply list_elem_of_fmap. eauto. }
  cbn [with_outputs stage1_outputs jobs]. split_and!; [done|..].
  - intros id o. rewrite lookup_foldr_delete. by case_bool_decide.
  - exists (take k all). split_and!; [|intros row; symmetry; apply Hgone|done|rewrite length_take; lia].
    rewrite <-(take_drop k all) in Hnd. by apply NoDup_app in Hnd as [? _].
  - intros row Hrow%Hgone%Htk%Hall. destruct Hrow as [_ [Hs Hr]%andb_true_iff]. unfold is_selected. rewrite Hs. split; [done|lia].
  - intros row kept Hrow%Hgone Hk Hp. by apply (StronglySorted_app_1_elem_of _ _ _ _ _ Hsort Hrow), Hkept.
  - rewrite length_take. intros Hlt id o Ho. destruct (prunable cutoff (id, o)) eqn:Hp; [|done].
    pose proof (Hkept (id, o) Ho Hp) as Hin. rewrite drop_ge in Hin by lia. by apply not_elem_of_nil in Hin.
Qed.

(** ** The consolidated baseline *)
Lemma select_snapshots_lookup selected os id :
  foldl select_snapshot os selected !! id =
  (λ o, if bool_decide ((id, source_updated_at o) ∈ selected) then select_output 1 (Some (source_updated_at o)) o else o) <$> os !! id.
Proof.
  revert os. induction selected as [|[i s] selected IH]; intros os; cbn [foldl].
  { by destruct (os !! id). }
  rewrite IH. unfold select_snapshot. cbn [fst snd].
  destruct (os !! i) as [o|] eqn:Ho; [destruct (Z.eqb_spec (source_updated_at o) s) as [<-|Hs]|].
  - destruct (decide (i = id)) as [->|Hne]; [|rewrite lookup_insert_ne by done; destruct (os !! id); cbn; [|done]; do 2 case_bool_decide; set_solver].
    rewrite lookup_insert_eq, Ho. cbn. rewrite (bool_decide_eq_true_2 (_ ∈ _ :: _)) by (by left). by case_bool_decide.
  - destruct (os !! id) as [o'|] eqn:Ho'; cbn; [|done]. f_equal. do 2 case_bool_decide; try done; set_solver.
  - destruct (os !! id) as [o'|] eqn:Ho'; cbn; [|done]. f_equal. do 2 case_bool_decide; try done; set_solver.
Qed.

(** A consolidation that is recorded as successful makes its input the baseline: a
    row is marked exactly if its current version was among the selected snapshots,
    with that version, and no other column changes; a caller without the token
    changes nothing. *)
Theorem consolidation_sets_baseline now token completed selected db :
  let '(db', applied) := mark_global_phase2_job_succeeded now token completed selected db in
  if applied then
    (∃ j, jobs db !! global_key = Some j ∧ owned_running token j = true ∧
       jobs db' = <[global_key := succeeded_global_job now completed j]> (jobs db)) ∧
    ∀ id, stage1_outputs db' !! id =
      (λ o, if bool_decide ((id, source_updated_at o) ∈ selected) then select_output 1 (Some (source_updated_at o)) o
            else select_output 0 None o) <$> stage1_outputs db !! id
  else db' = db.
Proof.
  unfold mark_global_phase2_job_succeeded, mark_global_phase2_job_succeeded_row.
  destruct (update_job_spec global_key (owned_running token) (succeeded_global_job now completed) db) as [(j & Hj & Ho & ->)| ->];
    cbn [negb]; [|done]. split; [by exists j|]. intros id. cbn [stage1_outputs with_outputs with_jobs].
  rewrite select_snapshots_lookup, lookup_fmap. destruct (stage1_outputs db !! id) as [o|]; [|done]. cbn.
  assert (source_updated_at (unselect_output o) = source_updated_at o) as -> by (unfold unselect_output; by case_match).
  f_equal. destruct o as [s raw sum slug gen uses last flag snap]. unfold unselect_output, select_output. cbn.
  destruct (Z.eqb_spec flag 0) as [->|]; [|done]. destruct snap; [done|]. cbn. by case_bool_decide.
Qed.

(** ** Examples *)
Module MemoryExamples.
Definition claim (token thread : str) : Call := ClaimStage1 token thread ($"worker") 100 60 2.
Definition shift : list (Z * Call) :=
  [ (10%Z, ClaimGlobal ($"a") ($"w1") 60); (20%Z, claim ($"s") ($"t1")); (30%Z, claim ($"u") ($"t2")); (35%Z, claim ($"v") ($"t3"));
    (40%Z, SucceedStage1 ($"t1") ($"s") 100 ($"memory") ($"summary") None);
    (50%Z, HeartbeatGlobal ($"a") 60); (75%Z, ClaimGlobal ($"b") ($"w2") 60) ].

Lemma shift_timely : timely shift 80.
Proof. unfold timely, shift. cbn. repeat constructor; lia. Qed.

Lemma live_leases_exclusive_witness :
  (run shift).2 !! (global_key, $"a") = Some 110%Z ∧ (run shift).2 !! (global_key, $"b") = None ∧
  ∃ j, jobs (run shift).1 !! global_key = Some j ∧ owned_running ($"a") j = true ∧ lease_live 80 j = true.
Proof.
  assert ((run shift).2 !! (global_key, $"a") = Some 110%Z) as H by (vm_compute; reflexivity).
  split_and!; [exact H|vm_compute; reflexivity|].
  destruct (live_leases_exclusive shift 80 global_key ($"a") ($"a") 110 110 shift_timely H) as (_ & _ & Hj); [lia|exact H|lia|exact Hj].
Defined.

Lemma running_jobs_capped_witness :
  (running_count JOB_KIND_MEMORY_STAGE1 80 (run shift).1 ≤ 2)%Z ∧ running_count JOB_KIND_MEMORY_STAGE1 80 (run shift).1 = 1%Z.
Proof.
  split; [|vm_compute; reflexivity]. apply (running_jobs_capped 2 shift 80); [lia| |exact shift_timely].
  unfold shift, claim. cbn. repeat constructor; by vm_compute.
Defined.

(** Three failures, and a fourth attempt. *)
Definition attempt (now : Z) (token : str) : list (Z * Call) :=
  [(now, claim token ($"t1")); ((now + 1)%Z, FailStage1 ($"t1") token ($"timeout") 10)].
Definition attempts : list (Z * Call) := attempt 0 ($"a") ++ attempt 20 ($"b") ++ attempt 40 ($"c") ++ attempt 60 ($"d").

Lemma retries_bounded_witness :
  failures ($"t1") (logged empty_db attempts).2 = 3%Z ∧
  (try_claim_stage1_job 90 ($"e") ($"t1") ($"worker") 100 60 2 (logged empty_db attempts).1).2 = Stage1SkippedRetryExhausted.
Proof.
  assert (Forall (claims_for ($"t1") 100) attempts.*2) as Hq by (unfold attempts, attempt, claim; cbn; repeat constructor).
  pose proof (retries_bounded ($"t1") 100 attempts Hq) as H.
  destruct (logged empty_db attempts) as [db log] eqn:E. destruct H as [_ H].
  assert (failures ($"t1") (logged empty_db attempts).2 = 3%Z) as Hf by (vm_compute; reflexivity).
  assert (up_to_date (logged empty_db attempts).1 ($"t1") 100 = false) as Hu by (vm_compute; reflexivity).
  rewrite E in Hf, Hu. cbn [fst snd] in *. split; [exact Hf|]. rewrite (H Hf), Hu. reflexivity.
Defined.

Lemma finished_work_not_reclaimed_witness :
  let db := (run (take 2 shift)).1 in
  let c := SucceedStage1NoOutput ($"t1") ($"s") in
  ∃ db', (logged (exec 40 c db).1 (drop 5 shift)).1 = db' ∧
    try_claim_stage1_job 200 ($"z") ($"t1") ($"worker") 90 60 2 db' = (db', Stage1SkippedUpToDate).
Proof.
  cbn zeta. eexists. split; [reflexivity|].
  assert (match jobs (run (take 2 shift)).1 !! stage1_key ($"t1") with
          | Some j => owned_running ($"s") j = true ∧ input_watermark j = Some 100%Z | None => False end) as H
    by (vm_compute; split; reflexivity).
  destruct (jobs (run (take 2 shift)).1 !! stage1_key ($"t1")) as [j|] eqn:Hj; [|destruct H]. destruct H as [Ho Hw].
  refine (proj2 (finished_work_not_reclaimed _ ($"t1") ($"s") j 100 40 _ (drop 5 shift) 200 ($"z") ($"worker") 90 60 2
    Hj Ho Hw (or_intror eq_refl) _ _)); [|lia]. unfold shift. cbn. by repeat constructor.
Defined.

(** Rows of three threads, one of them not enabled. *)
Definition row (source : Z) (uses : Z) : OutputRow := mkOutput source ($"memory") [] None source (Some uses) None 0 None.
Definition rows_db : MemoryDb := mkDb ∅ (<[$"a" := row 10 1]> (<[$"b" := row 20 5]> (<[$"c" := row 30 3]> (<[$"d" := row 40 2]> ∅)))).
Definition thread (mode : str) : ThreadColumns unit := mkThread unit 2000000000000 false ($"p") ($"cli") mode ($"path") ($"/") None tt.
Definition three_threads : gmap str (ThreadColumns unit) :=
  <[$"a" := thread ENABLED_MODE]> (<[$"b" := thread ENABLED_MODE]> (<[$"c" := thread POLLUTED_MODE]> (<[$"d" := thread ENABLED_MODE]> ∅))).
Definition any_id (s : str) : result str str := Ok s.
Definition any_columns (c : unit) : result str unit := Ok c.
Definition any_time (_ : Z) : bool := true.

Lemma rows_readable : readable any_id any_columns any_time any_time three_threads rows_db.
Proof.
  intros id o _. split_and!; [done|done|done|]. unfold enabled_thread_metadata. destruct (three_threads !! id); [|eauto].
  case_match; cbn; eauto.
Qed.

Lemma selection_pages_are_one_query_witness :
  ∃ outs, get_phase2_input_selection any_id any_columns any_time any_time 5 50 2 1 (λ _, (three_threads, rows_db)) = Some (Ok outs) ∧
    so_thread_id <$> outs = [$"b"; $"d"].
Proof.
  eexists. split.
  - apply (selection_pages_are_one_query any_id any_columns any_time any_time 5 50 2 1 (λ _, (three_threads, rows_db))) with (ts := three_threads) (db := rows_db).
    + intros i. split; reflexivity.
    + exact rows_readable.
    + vm_compute. lia.
  - vm_compute. reflexivity.
Defined.

(** The memories of [a] and [d] are used between the queries of the first and of the
    second page: the row [b] moves to the second page and is selected twice, in the
    place of a better one. *)
Definition used_db : MemoryDb :=
  (record_stage1_output_usage 45 [$"a"; $"a"; $"a"; $"a"; $"a"; $"d"; $"d"; $"d"; $"d"] rows_db).1.
Example usage_between_pages_repeats_a_row :
  match get_phase2_input_selection any_id any_columns any_time any_time 5 50 2 1
          (λ i, (three_threads, if i <? 3 then rows_db else used_db)) with
  | Some (Ok outs) => so_thread_id <$> outs = [$"b"; $"b"]
  | _ => False
  end.
Proof. vm_compute. reflexivity. Qed.

Lemma prune_removes_stalest_witness :
  let '(db', removed) := prune_stage1_outputs_for_retention 100 0 2 rows_db in
  removed = 2 ∧ stage1_outputs db' !! $"b" = None ∧ stage1_outputs db' !! $"d" = Some (row 40 2) ∧ staler ($"b", row 20 5) ($"d", row 40 2).
Proof.
  pose proof (prune_removes_stalest 100 0 2 rows_db eq_refl ltac:(by vm_compute)) as H.
  assert (match prune_stage1_outputs_for_retention 100 0 2 rows_db with (db', removed) =>
    removed = 2 ∧ stage1_outputs db' !! $"b" = None ∧ stage1_outputs db' !! $"d" = Some (row 40 2) end) as E by (vm_compute; done).
  destruct (prune_stage1_outputs_for_retention 100 0 2 rows_db) as [db' removed]. destruct E as (-> & Hb & Hd).
  destruct H as (_ & _ & _ & _ & H & _). split_and!; [reflexivity|exact Hb|exact Hd|].
  apply (H ($"b", row 20 5) ($"d", row 40 2)); [split; [vm_compute; reflexivity|exact Hb]|exact Hd|vm_compute; reflexivity].
Defined.
End MemoryExamples.
