(* ===== verification/TurnDiff.v ===== *)
(** * The net diff of a turn: [core/src/turn_diff_tracker.rs]

    While a turn runs, the tracker follows the deltas that applied patches record
    ([ApplyPatch.v]) and shows the net change of the turn as one diff, without
    reading the file system again. It keeps the contents of a file when the turn
    first touched it, the contents now, and for moved files where they came from.
    Rendered diffs are cached by the revisions of the contents they compare.

    Hash maps are finite maps; the order in which one is iterated is the parameter
    [iterate]. The line diff and SHA-1 are other packages; the timeout of the diff,
    after which a coarser one is shown, is taken not to fire. *)

From stdpp Require Import prelude list gmap strings sorting.
From S2P Require Import Prelude Truncate PatchParser ApplyPatch.

Open Scope rust_scope.

Definition ZERO_OID : str := $"0000000000000000000000000000000000000000".
Definition DEV_NULL : str := $"/dev/null".
Definition REGULAR_FILE_MODE : str := $"100644".

Record TrackedContent : Type := mkTracked { tc_content : str; tc_revision : N }.

(** [str::replace] of one character. *)
Definition replace_char (from to : char) (s : str) : str := (λ c, if (c =? from)%N then to else c) <$> s.

(** [Vec::dedup]. *)
Fixpoint dedup_adjacent {A} `{EqDecision A} (l : list A) : list A :=
  match l with
  | [] => []
  | x :: l' => match l' with
               | [] => [x]
               | y :: _ => if decide (x = y) then dedup_adjacent l' else x :: dedup_adjacent l'
               end
  end.

Section tracker.
Context {P : PathOps} `{!Countable PathUri}.

(** An environment and a path in it. *)
Abbreviation TrackedPath := (str * PathUri)%type.

Record DiffCacheKey : Type := mkCacheKey {
  left_path : TrackedPath;
  left_revision : option N;
  right_path : TrackedPath;
  right_revision : option N
}.
#[export] Instance DiffCacheKey_eq_dec : EqDecision DiffCacheKey.
Proof. solve_decision. Defined.
#[export] Instance DiffCacheKey_countable : Countable DiffCacheKey.
Proof.
  refine (inj_countable' (λ k, (left_path k, left_revision k, right_path k, right_revision k))
    (λ t, mkCacheKey t.1.1.1 t.1.1.2 t.1.2 t.2) _). by intros [].
Defined.

Record TurnDiffTracker : Type := mkTracker {
  valid : bool;
  display_roots_by_environment : gmap str PathUri;
  baseline_by_path : gmap TrackedPath TrackedContent;
  current_by_path : gmap TrackedPath TrackedContent;
  origin_by_current_path : gmap TrackedPath TrackedPath;
  next_revision : N;
  rendered_diffs : gmap DiffCacheKey (option str);
  unified_diff : option str
}.

Definition with_environment_display_roots (roots : list (str * PathUri)) : TurnDiffTracker :=
  mkTracker true (list_to_map (reverse roots)) ∅ ∅ ∅ 0 ∅ None.

Definition invalidate (t : TurnDiffTracker) : TurnDiffTracker :=
  mkTracker false (display_roots_by_environment t) (baseline_by_path t) (current_by_path t) (origin_by_current_path t)
    (next_revision t) ∅ None.

Definition get_unified_diff (t : TurnDiffTracker) : option str := unified_diff t.

(** ** Following a change *)
Definition set_baseline (t : TurnDiffTracker) b : TurnDiffTracker :=
  mkTracker (valid t) (display_roots_by_environment t) b (current_by_path t) (origin_by_current_path t) (next_revision t)
    (rendered_diffs t) (unified_diff t).
Definition set_current (t : TurnDiffTracker) c : TurnDiffTracker :=
  mkTracker (valid t) (display_roots_by_environment t) (baseline_by_path t) c (origin_by_current_path t) (next_revision t)
    (rendered_diffs t) (unified_diff t).
Definition set_origin (t : TurnDiffTracker) o : TurnDiffTracker :=
  mkTracker (valid t) (display_roots_by_environment t) (baseline_by_path t) (current_by_path t) o (next_revision t)
    (rendered_diffs t) (unified_diff t).
Definition set_diffs (t : TurnDiffTracker) r u : TurnDiffTracker :=
  mkTracker (valid t) (display_roots_by_environment t) (baseline_by_path t) (current_by_path t) (origin_by_current_path t)
    (next_revision t) r u.

Definition tracked_content (content : str) (t : TurnDiffTracker) : TrackedContent * TurnDiffTracker :=
  (mkTracked content (next_revision t),
   mkTracker (valid t) (display_roots_by_environment t) (baseline_by_path t) (current_by_path t) (origin_by_current_path t)
     (next_revision t + 1) (rendered_diffs t) (unified_diff t)).

Definition contains {A} (m : gmap TrackedPath A) (p : TrackedPath) : bool := bool_decide (is_Some (m !! p)).
Definition untracked (t : TurnDiffTracker) (p : TrackedPath) : bool :=
  negb (contains (current_by_path t) p) && negb (contains (baseline_by_path t) p).

(** [baseline_by_path.insert] and [current_by_path.insert] of new contents. *)
Definition insert_baseline (p : TrackedPath) (content : str) (t : TurnDiffTracker) : TurnDiffTracker :=
  let '(c, t) := tracked_content content t in set_baseline t (<[p := c]> (baseline_by_path t)).
Definition insert_current (p : TrackedPath) (content : str) (t : TurnDiffTracker) : TurnDiffTracker :=
  let '(c, t) := tracked_content content t in set_current t (<[p := c]> (current_by_path t)).

Definition tracker_add (p : TrackedPath) (content : str) (overwritten : option str) (t : TurnDiffTracker) : TurnDiffTracker :=
  let t := set_origin t (delete p (origin_by_current_path t)) in
  let t := match overwritten with
           | Some overwritten => if untracked t p then insert_baseline p overwritten t else t
           | None => t
           end in
  insert_current p content t.

Definition tracker_delete (p : TrackedPath) (content : str) (t : TurnDiffTracker) : TurnDiffTracker :=
  let absent := untracked t p in
  let t := set_current t (delete p (current_by_path t)) in
  let t := if absent then insert_baseline p content t else t in
  set_origin t (delete p (origin_by_current_path t)).

Definition tracker_update (source : TrackedPath) (move_path : option TrackedPath) (old_content : str)
    (overwritten : option str) (new_content : str) (t : TurnDiffTracker) : TurnDiffTracker :=
  let t := if untracked t source then insert_baseline source old_content t else t in
  match move_path with
  | Some dest =>
      let t := match overwritten with
               | Some overwritten => if untracked t dest then insert_baseline dest overwritten t else t
               | None => t
               end in
      let origin := default source (origin_by_current_path t !! source) in
      let t := set_origin t (delete source (origin_by_current_path t)) in
      let t := set_current t (delete source (current_by_path t)) in
      let t := insert_current dest new_content t in
      let t := set_origin t (delete dest (origin_by_current_path t)) in
      if bool_decide (dest = origin) then t
      else set_origin t (<[dest := origin]> (origin_by_current_path t))
  | None => insert_current source new_content t
  end.

Definition apply_change (environment_id : str) (t : TurnDiffTracker) (c : AppliedPatchChange) : TurnDiffTracker :=
  let source := (environment_id, change_path c) in
  match change c with
  | DeltaAdd content overwritten => tracker_add source content overwritten t
  | DeltaDelete content => tracker_delete source content t
  | DeltaUpdate move_path old_content overwritten new_content =>
      tracker_update source ((λ p, (environment_id, p)) <$> move_path) old_content overwritten new_content t
  end.

(** ** Rendering *)
Section render.
Context (relative_path_from : PathUri → PathUri → option str).
Context (unified_lines : str → str → str → str → str) (sha1_hex : str → str).
Context (iterate : ∀ A, gmap TrackedPath A → list (TrackedPath * A)).

Definition display_path (t : TurnDiffTracker) (p : TrackedPath) : str :=
  let display := default (native_string p.2) (display_roots_by_environment t !! p.1 ≫= λ root, relative_path_from p.2 root) in
  if (1 <? size (display_roots_by_environment t)) && negb (is_empty p.1) then p.1 ++ $"/" ++ display else display.

Definition git_blob_oid (data : str) : str := sha1_hex ($"blob " ++ fmt_N (byte_len data) ++ [0%N] ++ data).

Definition render_diff (t : TurnDiffTracker) (left : TrackedPath) (left_content : option str) (right : TrackedPath)
    (right_content : option str) : option str :=
  if bool_decide (left_content = right_content) then None
  else
    let left_display := replace_char 92 47 (display_path t left) in
    let right_display := replace_char 92 47 (display_path t right) in
    let left_oid := match left_content with None => ZERO_OID | Some c => git_blob_oid c end in
    let right_oid := match right_content with None => ZERO_OID | Some c => git_blob_oid c end in
    let diff := $"diff --git a/" ++ left_display ++ $" b/" ++ right_display ++ [LF] in
    let mode := match left_content, right_content with
                | None, Some _ => Some ($"new file mode " ++ REGULAR_FILE_MODE ++ [LF])
                | Some _, None => Some ($"deleted file mode " ++ REGULAR_FILE_MODE ++ [LF])
                | Some _, Some _ => Some []
                | None, None => None
                end in
    match mode with
    | None => None
    | Some mode =>
        let old_header := match left_content with Some _ => $"a/" ++ left_display | None => DEV_NULL end in
        let new_header := match right_content with Some _ => $"b/" ++ right_display | None => DEV_NULL end in
        Some (diff ++ mode ++ $"index " ++ left_oid ++ $".." ++ right_oid ++ [LF]
              ++ unified_lines (default [] left_content) (default [] right_content) old_header new_header)
    end.

Definition is_rename_pair (t : TurnDiffTracker) (dest origin : TrackedPath) : bool :=
  negb (bool_decide (dest = origin)) && negb (contains (current_by_path t) origin) && contains (current_by_path t) dest
  && contains (baseline_by_path t) origin && negb (contains (baseline_by_path t) dest).

(** Origins and where they went; a later pair of an origin replaces an earlier one. *)
Definition rename_pairs (t : TurnDiffTracker) : gmap TrackedPath TrackedPath :=
  list_to_map (reverse (omap (λ e, if is_rename_pair t e.1 e.2 then Some (e.2, e.1) else None)
    (iterate _ (origin_by_current_path t)))).

Definition paired_destinations (pairs : gmap TrackedPath TrackedPath) : gset TrackedPath :=
  list_to_set (map_to_list pairs).*2.

Definition display_le (t : TurnDiffTracker) (p q : TrackedPath) : Prop := str_le (display_path t p) (display_path t q).
#[local] Instance display_le_dec t : RelDecision (display_le t).
Proof. intros p q. unfold display_le. apply _. Defined.

Definition sorted_paths (t : TurnDiffTracker) : list TrackedPath :=
  dedup_adjacent (merge_sort (display_le t)
    ((iterate _ (baseline_by_path t)).*1 ++ (iterate _ (current_by_path t)).*1)).

(** [aggregated.push_str(diff)], ending in a line break. *)
Definition append_diff (aggregated : str) (rendered : option str) : str :=
  match rendered with
  | Some diff => let aggregated := aggregated ++ diff in
                 if ends_with [LF] aggregated then aggregated else aggregated ++ [LF]
  | None => aggregated
  end.

Record RefreshState : Type := mkRefresh {
  handled : gset TrackedPath;
  previous_diffs : gmap DiffCacheKey (option str);
  new_diffs : gmap DiffCacheKey (option str);
  aggregated : str
}.

(** The body of the loop over the paths. *)
Definition refresh_path (t : TurnDiffTracker) (pairs : gmap TrackedPath TrackedPath) (s : RefreshState) (p : TrackedPath)
    : RefreshState :=
  if bool_decide (p ∈ handled s) then s
  else
    let done := {[p]} ∪ handled s in
    if bool_decide (p ∈ paired_destinations pairs) then mkRefresh done (previous_diffs s) (new_diffs s) (aggregated s)
    else
      let '(dest, done) := match pairs !! p with Some dest => (dest, {[dest]} ∪ done) | None => (p, done) end in
      let left_content := baseline_by_path t !! p in
      let right_content := current_by_path t !! dest in
      let key := mkCacheKey p (tc_revision <$> left_content) dest (tc_revision <$> right_content) in
      let rendered := match previous_diffs s !! key with
                      | Some rendered => rendered
                      | None => render_diff t p (tc_content <$> left_content) dest (tc_content <$> right_content)
                      end in
      mkRefresh done (delete key (previous_diffs s)) (<[key := rendered]> (new_diffs s)) (append_diff (aggregated s) rendered).

Definition refresh_unified_diff (t : TurnDiffTracker) : TurnDiffTracker :=
  let s := foldl (refresh_path t (rename_pairs t)) (mkRefresh ∅ (rendered_diffs t) ∅ []) (sorted_paths t) in
  set_diffs t (new_diffs s) (if is_empty (aggregated s) then None else Some (aggregated s)).

Definition track_delta (environment_id : str) (t : TurnDiffTracker) (delta : AppliedPatchDelta) : TurnDiffTracker :=
  if negb (valid t) then t
  else if negb (exact delta) then invalidate t
  else refresh_unified_diff (foldl (apply_change environment_id) t (changes delta)).
End render.
End tracker.
