(* ===== verification/TurnDiffSpec.v ===== *)
(** * Properties of the turn diff

    Wherever the deltas are exact the tracker knows the contents of every file it
    follows at the start of the turn and now; what it shows is the diff of exactly
    these contents, with renames paired, and turning the one into the other takes
    exactly the shown entries. The cache of rendered diffs does not change what is
    shown. *)

From stdpp Require Import prelude list gmap strings sorting.
From S2P Require Import Prelude Truncate PatchParser SeekSequence FileUpdate ApplyPatch ApplyPatchSpec TurnDiff.

Open Scope rust_scope.

Section contents.
Context {P : PathOps} `{!Countable PathUri}.
Abbreviation TrackedPath := (str * PathUri)%type.
Abbreviation World := (TrackedPath → option str).
Implicit Types (t : TurnDiffTracker) (k p : TrackedPath) (W : World).

(** ** What the tracker knows *)
Definition base t k : option str := tc_content <$> baseline_by_path t !! k.
Definition cur t k : option str := tc_content <$> current_by_path t !! k.

Lemma untracked_iff t k : untracked t k = true ↔ base t k = None ∧ cur t k = None.
Proof.
  unfold untracked, contains, base, cur. rewrite andb_true_iff, !negb_true_iff, !bool_decide_eq_false, <-!eq_None_not_Some, !fmap_None.
  tauto.
Qed.
Lemma untracked_false t k : untracked t k = false ↔ base t k ≠ None ∨ cur t k ≠ None.
Proof.
  rewrite <-not_true_iff_false, untracked_iff. destruct (base t k), (cur t k); naive_solver.
Qed.

(** A file is as it was, or both contents are known. *)
Definition follows W0 W t : Prop :=
  ∀ k, (untracked t k = true ∧ W0 k = W k) ∨ (base t k = W0 k ∧ cur t k = W k).

(** What a change says of the world it was made in, and what it makes of it. *)
Definition recorded (e : str) W (c : AppliedPatchChange) : Prop :=
  match change c with
  | DeltaAdd _ overwritten => W (e, change_path c) = overwritten
  | DeltaDelete old | DeltaUpdate None old _ _ => W (e, change_path c) = Some old
  | DeltaUpdate (Some dest) old overwritten _ =>
      change_path c ≠ dest ∧ W (e, change_path c) = Some old ∧ W (e, dest) = overwritten
  end.

Definition put k (x : option str) W : World := λ q, if decide (q = k) then x else W q.
Definition changed (e : str) (c : AppliedPatchChange) W : World :=
  match change c with
  | DeltaAdd new _ | DeltaUpdate None _ _ new => put (e, change_path c) (Some new) W
  | DeltaDelete _ => put (e, change_path c) None W
  | DeltaUpdate (Some dest) _ _ new => put (e, change_path c) None (put (e, dest) (Some new) W)
  end.

Lemma base_insert_baseline p x t k : base (insert_baseline p x t) k = if decide (k = p) then Some x else base t k.
Proof.
  unfold base, insert_baseline. cbn. case_decide as E; [subst; by rewrite lookup_insert_eq|]. by rewrite lookup_insert_ne by done.
Qed.
Lemma cur_insert_baseline p x t k : cur (insert_baseline p x t) k = cur t k.
Proof. done. Qed.
Lemma base_insert_current p x t k : base (insert_current p x t) k = base t k.
Proof. done. Qed.
Lemma cur_insert_current p x t k : cur (insert_current p x t) k = if decide (k = p) then Some x else cur t k.
Proof.
  unfold cur, insert_current. cbn. case_decide as E; [subst; by rewrite lookup_insert_eq|]. by rewrite lookup_insert_ne by done.
Qed.
Lemma base_set_origin o t k : base (set_origin t o) k = base t k.
Proof. done. Qed.
Lemma cur_set_origin o t k : cur (set_origin t o) k = cur t k.
Proof. done. Qed.
Lemma untracked_set_origin o t k : untracked (set_origin t o) k = untracked t k.
Proof. done. Qed.
Lemma base_remove p t k : base (set_current t (delete p (current_by_path t))) k = base t k.
Proof. done. Qed.
Lemma cur_remove p t k : cur (set_current t (delete p (current_by_path t))) k = if decide (k = p) then None else cur t k.
Proof.
  unfold cur. cbn. case_decide as E; [subst; by rewrite lookup_delete_eq|]. by rewrite lookup_delete_ne by done.
Qed.

(** Contents seen before a change are recorded once. *)
Definition note_baseline p (x : option str) t : TurnDiffTracker :=
  match x with Some x => if untracked t p then insert_baseline p x t else t | None => t end.

Lemma base_note p x t k : base (note_baseline p x t) k = if decide (k = p) then (if untracked t p then x else base t p) else base t k.
Proof.
  unfold note_baseline. destruct x as [x|]; [destruct (untracked t p) eqn:E|destruct (untracked t p) eqn:E]; rewrite ?base_insert_baseline;
    case_decide; subst; try done. by apply untracked_iff in E as [-> _].
Qed.
Lemma cur_note p x t k : cur (note_baseline p x t) k = cur t k.
Proof. unfold note_baseline. destruct x; [|done]. by destruct (untracked t p). Qed.
Lemma untracked_note p x t k : k ≠ p → untracked (note_baseline p x t) k = untracked t k.
Proof. intros Hk. apply eq_iff_eq_true. rewrite !untracked_iff, base_note, cur_note. by rewrite decide_False by done. Qed.

Lemma tracker_add_note p x o t :
  tracker_add p x o t = insert_current p x (note_baseline p o (set_origin t (delete p (origin_by_current_path t)))).
Proof. done. Qed.

Lemma tracker_delete_contents p x t k :
  base (tracker_delete p x t) k = base (note_baseline p (Some x) t) k ∧
  cur (tracker_delete p x t) k = if decide (k = p) then None else cur t k.
Proof.
  unfold tracker_delete, note_baseline. destruct (untracked t p); rewrite ?base_set_origin, ?cur_set_origin,
    ?base_insert_baseline, ?cur_insert_baseline, base_remove, cur_remove; done.
Qed.

Lemma tracker_update_contents p old o new t k :
  base (tracker_update p None old o new t) k = base (note_baseline p (Some old) t) k ∧
  cur (tracker_update p None old o new t) k = if decide (k = p) then Some new else cur t k.
Proof.
  unfold tracker_update. cbv zeta. fold (note_baseline p (Some old) t). rewrite base_insert_current, cur_insert_current, cur_note. done.
Qed.

Lemma tracker_move_contents p dest old o new t k :
  base (tracker_update p (Some dest) old o new t) k = base (note_baseline dest o (note_baseline p (Some old) t)) k ∧
  cur (tracker_update p (Some dest) old o new t) k =
    if decide (k = dest) then Some new else if decide (k = p) then None else cur t k.
Proof.
  unfold tracker_update. cbv zeta. fold (note_baseline p (Some old) t). fold (note_baseline dest o (note_baseline p (Some old) t)).
  destruct (bool_decide _); rewrite ?base_set_origin, ?cur_set_origin, base_insert_current, cur_insert_current, base_remove, cur_remove,
    base_set_origin, cur_set_origin, !cur_note; done.
Qed.

(** *** One file *)
Definition known (w0 w b c : option str) : Prop := (b = None ∧ c = None ∧ w0 = w) ∨ (b = w0 ∧ c = w).

Lemma follows_known W0 W t : follows W0 W t ↔ ∀ k, known (W0 k) (W k) (base t k) (cur t k).
Proof. unfold follows, known. split; intros H k; specialize (H k); rewrite untracked_iff in *; naive_solver. Qed.

Lemma known_note W0 W t p k : known (W0 k) (W k) (base t k) (cur t k) → k = p →
  base (note_baseline p (W p) t) k = W0 k.
Proof.
  intros H ->. rewrite base_note, decide_True by done. destruct (untracked t p) eqn:E.
  - apply untracked_iff in E as [Hb Hc]. rewrite Hb, Hc in H. destruct H as [(_ & _ & ->)|[<- <-]]; done.
  - apply untracked_false in E. destruct H as [(? & ? & _)|[? _]]; naive_solver.
Qed.

Lemma follow_change e c W0 W t : follows W0 W t → recorded e W c → follows W0 (changed e c W) (apply_change e t c).
Proof.
  rewrite !follows_known. intros H Hr k. specialize (H k). unfold apply_change, recorded, changed in *.
  destruct c as [q [x o|x|[dest|] old o new]]; cbn [change change_path fmap option_fmap option_map] in *; unfold put.
  - rewrite tracker_add_note, base_insert_current, cur_insert_current, cur_note, cur_set_origin. case_decide as E.
    + right. split; [|done]. subst k o. by rewrite (known_note W0 W (set_origin t _) (e, q) (e, q)).
    + by rewrite base_note, decide_False, base_set_origin by done.
  - destruct (tracker_delete_contents (e, q) x t k) as [-> ->]. case_decide as E.
    + right. split; [|done]. subst k. rewrite <-Hr. by apply known_note.
    + by rewrite base_note, decide_False by done.
  - destruct Hr as (Hne & Hq & Hd). destruct (tracker_move_contents (e, q) (e, dest) old o new t k) as [-> ->].
    rewrite <-Hq. destruct (decide (k = (e, q))) as [->|Hk].
    + rewrite decide_False by congruence. right. split; [|done]. rewrite base_note, decide_False by congruence. by apply known_note.
    + destruct (decide (k = (e, dest))) as [->|Hk'].
      * right. split; [|done]. rewrite <-Hd. apply known_note; [|done]. rewrite base_note, cur_note, decide_False by done. done.
      * by rewrite !base_note, !decide_False by done.
  - destruct (tracker_update_contents (e, q) old o new t k) as [-> ->]. case_decide as E.
    + right. split; [|done]. subst k. rewrite <-Hr. by apply known_note.
    + by rewrite base_note, decide_False by done.
Qed.

(** Every change of a list was recorded in the world it met. *)
Fixpoint all_recorded (e : str) W (cs : list AppliedPatchChange) : Prop :=
  match cs with [] => True | c :: cs => recorded e W c ∧ all_recorded e (changed e c W) cs end.
Definition all_changed (e : str) W (cs : list AppliedPatchChange) : World := foldl (λ W c, changed e c W) W cs.

Lemma follow_changes e cs W0 W t : follows W0 W t → all_recorded e W cs →
  follows W0 (all_changed e W cs) (foldl (apply_change e) t cs).
Proof.
  revert W t. induction cs as [|c cs IH]; intros W t H Hr; [done|]. destruct Hr as [Hc Hcs].
  by apply IH; [apply follow_change|].
Qed.
End contents.

(** ** Revisions *)
Section revisions.
Context {P : PathOps} `{!Countable PathUri}.
Abbreviation TrackedPath := (str * PathUri)%type.
Implicit Types (t : TurnDiffTracker) (p : TrackedPath) (log : list str).

(** The contents ever tracked, by revision. *)
Definition contents_ok log t : Prop :=
  next_revision t = N.of_nat (length log) ∧
  ∀ p c, baseline_by_path t !! p = Some c ∨ current_by_path t !! p = Some c →
    log !! N.to_nat (tc_revision c) = Some (tc_content c).

(** New contents get new revisions; nothing that rendering reads besides them changes. *)
Definition grows t t' : Prop :=
  valid t' = valid t ∧ display_roots_by_environment t' = display_roots_by_environment t ∧ rendered_diffs t' = rendered_diffs t ∧
  ∀ log, contents_ok log t → ∃ ext, contents_ok (log ++ ext) t'.

#[export] Instance grows_preorder : PreOrder grows.
Proof.
  split.
  - intros t. split_and!; try done. intros log H. exists []. by rewrite app_nil_r.
  - intros t1 t2 t3 (H1 & H2 & H3 & H4) (H5 & H6 & H7 & H8). split_and!; [congruence..|].
    intros log (ext & He)%H4. destruct (H8 _ He) as (ext' & He'). exists (ext ++ ext'). by rewrite (assoc_L app).
Qed.

Lemma grows_kept t b c o : b ⊆ baseline_by_path t → c ⊆ current_by_path t →
  grows t (set_origin (set_current (set_baseline t b) c) o).
Proof.
  intros Hb Hc. split_and!; try done. intros log [Hn H]. exists []. rewrite app_nil_r. split; [done|].
  intros p x [Hx|Hx]; apply (H p); [left; by eapply lookup_weaken|right; by eapply lookup_weaken].
Qed.

Lemma grows_origin t o : grows t (set_origin t o).
Proof. apply (grows_kept t (baseline_by_path t) (current_by_path t)); done. Qed.
Lemma grows_remove t p : grows t (set_current t (delete p (current_by_path t))).
Proof.
  apply (grows_kept t (baseline_by_path t) (delete p (current_by_path t)) (origin_by_current_path t)); [done|apply delete_subseteq].
Qed.

Lemma contents_ok_snoc log t x p c : contents_ok log t →
  baseline_by_path t !! p = Some c ∨ current_by_path t !! p = Some c →
  (log ++ [x]) !! N.to_nat (tc_revision c) = Some (tc_content c).
Proof. intros [_ H] Hc. apply lookup_app_l_Some, (H p c Hc). Qed.

Lemma snoc_revision log t x : contents_ok log t → (log ++ [x]) !! N.to_nat (next_revision t) = Some x.
Proof. intros [-> _]. rewrite Nat2N.id. apply list_lookup_middle. done. Qed.

Lemma grows_insert_baseline p x t : grows t (insert_baseline p x t).
Proof.
  split_and!; try done. intros log H. exists [x]. split.
  { cbn. destruct H as [-> _]. rewrite length_app. cbn. lia. }
  intros q c. cbn. intros [Hc|Hc]; [|by eapply contents_ok_snoc; eauto].
  apply lookup_insert_Some in Hc as [[-> <-]|[_ Hc]]; [by apply snoc_revision|by eapply contents_ok_snoc; eauto].
Qed.
Lemma grows_insert_current p x t : grows t (insert_current p x t).
Proof.
  split_and!; try done. intros log H. exists [x]. split.
  { cbn. destruct H as [-> _]. rewrite length_app. cbn. lia. }
  intros q c. cbn. intros [Hc|Hc]; [by eapply contents_ok_snoc; eauto|].
  apply lookup_insert_Some in Hc as [[-> <-]|[_ Hc]]; [by apply snoc_revision|by eapply contents_ok_snoc; eauto].
Qed.

Lemma grows_note p x t : grows t (note_baseline p x t).
Proof. unfold note_baseline. destruct x; [|done]. destruct (untracked t p); [apply grows_insert_baseline|done]. Qed.

Lemma grows_change e t c : grows t (apply_change e t c).
Proof.
  unfold apply_change. destruct c as [q [x o|x|[dest|] old o new]]; cbn [change change_path fmap option_fmap option_map].
  - rewrite tracker_add_note. etrans; [|apply grows_insert_current]. etrans; [|apply grows_note]. apply grows_origin.
  - unfold tracker_delete. etrans; [|apply grows_origin].
    destruct (untracked t _); [etrans; [|apply grows_insert_baseline]|]; apply grows_remove.
  - unfold tracker_update. cbv zeta. fold (note_baseline (e, q) (Some old) t).
    fold (note_baseline (e, dest) o (note_baseline (e, q) (Some old) t)).
    set (t1 := note_baseline (e, dest) o _). assert (grows t t1) as H by (etrans; apply grows_note).
    assert (∀ t2, grows t t2 → grows t (set_origin t2 (delete (e, q) (origin_by_current_path t2)))) as Ho
      by (intros t2 H2; etrans; [exact H2|apply grows_origin]).
    destruct (bool_decide _); repeat (etrans; [|apply grows_origin]); (etrans; [|apply grows_insert_current]);
      (etrans; [|apply grows_remove]); by apply Ho.
  - unfold tracker_update. cbv zeta. fold (note_baseline (e, q) (Some old) t).
    etrans; [|apply grows_insert_current]. apply grows_note.
Qed.

Lemma grows_changes e cs t : grows t (foldl (apply_change e) t cs).
Proof. revert t. induction cs as [|c cs IH]; intros t; [done|]. cbn [foldl]. etrans; [apply grows_change|apply IH]. Qed.
End revisions.

(** ** What is shown *)
Section shown.
Context {P : PathOps} `{!Countable PathUri}.
Abbreviation TrackedPath := (str * PathUri)%type.
Abbreviation World := (TrackedPath → option str).
Context (relative_path_from : PathUri → PathUri → option str).
Context (unified_lines : str → str → str → str → str) (sha1_hex : str → str).
Context (iterate : ∀ A, gmap TrackedPath A → list (TrackedPath * A)).
Implicit Types (t : TurnDiffTracker) (p : TrackedPath) (log : list str) (W : World).

Abbreviation render := (render_diff relative_path_from unified_lines sha1_hex).
Abbreviation refresh := (refresh_unified_diff relative_path_from unified_lines sha1_hex iterate).
Abbreviation loop := (refresh_path relative_path_from unified_lines sha1_hex).
Abbreviation track := (track_delta relative_path_from unified_lines sha1_hex iterate).
Abbreviation renames := (rename_pairs iterate).
Abbreviation paths_of := (sorted_paths relative_path_from iterate).

(** The entries of the diff: each path once, destinations of renames with their origin. *)
Fixpoint plan_from (pairs : gmap TrackedPath TrackedPath) (seen : gset TrackedPath) (paths : list TrackedPath)
    : list (TrackedPath * TrackedPath) :=
  match paths with
  | [] => []
  | p :: paths =>
      if bool_decide (p ∈ seen) then plan_from pairs seen paths
      else if bool_decide (p ∈ paired_destinations pairs) then plan_from pairs ({[p]} ∪ seen) paths
      else (p, default p (pairs !! p)) :: plan_from pairs ({[p]} ∪ seen) paths
  end.
Definition plan t : list (TrackedPath * TrackedPath) := plan_from (renames t) ∅ (paths_of t).

(** Their text, rendered anew from the contents before and after. *)
Definition entry_text t (before after : World) (e : TrackedPath * TrackedPath) : option str := render t e.1 (before e.1) e.2 (after e.2).
Definition diff_text t (before after : World) (entries : list (TrackedPath * TrackedPath)) : option str :=
  let text := foldl append_diff [] (entry_text t before after <$> entries) in if is_empty text then None else Some text.

(** *** The cache *)
Definition rev_content log (r : option N) : option str := r ≫= λ n, log !! N.to_nat n.
Definition rev_known log (r : option N) : Prop := match r with Some n => N.to_nat n < length log | None => True end.
Definition cache_ok log t (m : gmap DiffCacheKey (option str)) : Prop :=
  ∀ key text, m !! key = Some text → rev_known log (left_revision key) ∧ rev_known log (right_revision key) ∧
    text = render t (left_path key) (rev_content log (left_revision key)) (right_path key) (rev_content log (right_revision key)).

Lemma render_roots t t' l a r b : display_roots_by_environment t' = display_roots_by_environment t → render t' l a r b = render t l a r b.
Proof. intros H. unfold render_diff, display_path. by rewrite H. Qed.

Lemma rev_content_ext log ext r : rev_known log r → rev_content (log ++ ext) r = rev_content log r.
Proof. destruct r as [n|]; [|done]. cbn. intros H. by apply lookup_app_l. Qed.

Lemma cache_ok_grows log ext t t' m : display_roots_by_environment t' = display_roots_by_environment t →
  cache_ok log t m → cache_ok (log ++ ext) t' m.
Proof.
  intros Hr H key text Hk. destruct (H key text Hk) as (H1 & H2 & ->).
  assert (∀ r, rev_known log r → rev_known (log ++ ext) r) as Hx by (intros [n|]; cbn; [rewrite length_app; lia|done]).
  split_and!; [by apply Hx..|]. rewrite !rev_content_ext by done. symmetry. by apply render_roots.
Qed.

(** A revision in the tables stands for the contents there. *)
Lemma rev_of_content log t p m : contents_ok log t → (m = baseline_by_path t ∨ m = current_by_path t) →
  rev_known log (tc_revision <$> m !! p) ∧ rev_content log (tc_revision <$> m !! p) = tc_content <$> m !! p.
Proof.
  intros [_ H] Hm. destruct (m !! p) as [c|] eqn:Hc; [|done]. cbn.
  assert (log !! N.to_nat (tc_revision c) = Some (tc_content c)) as Hl by (apply (H p); destruct Hm; subst; auto).
  split; [by eapply lookup_lt_Some|done].
Qed.

(** The loop shows the plan, whatever the cache held. *)
Lemma loop_plan log t pairs paths s seen :
  contents_ok log t → cache_ok log t (previous_diffs s) → cache_ok log t (new_diffs s) →
  seen ⊆ handled s → handled s ⊆ seen ∪ paired_destinations pairs →
  (∀ p d, pairs !! p = Some d → d ∈ paired_destinations pairs) →
  let s' := foldl (loop t pairs) s paths in
  aggregated s' = foldl append_diff (aggregated s) (entry_text t (base t) (cur t) <$> plan_from pairs seen paths) ∧
  cache_ok log t (new_diffs s').
Proof.
  intros Hlog. revert s seen. induction paths as [|p paths IH]; intros s seen Hprev Hnew Hs1 Hs2 Hd; [done|].
  cbn [foldl plan_from]. cbv zeta. unfold refresh_path at 2 4.
  destruct (decide (p ∈ handled s)) as [Hh|Hh]; [rewrite (bool_decide_eq_true_2 (p ∈ handled s)) by done|
    rewrite (bool_decide_eq_false_2 (p ∈ handled s)) by done].
  { destruct (decide (p ∈ seen)) as [Hse|Hse]; [rewrite bool_decide_eq_true_2 by done; by apply IH|].
    rewrite bool_decide_eq_false_2 by done. rewrite bool_decide_eq_true_2 by set_solver. apply IH; try done; set_solver. }
  rewrite (bool_decide_eq_false_2 (p ∈ seen)) by set_solver.
  destruct (decide (p ∈ paired_destinations pairs)) as [Hp|Hp].
  { rewrite bool_decide_eq_true_2 by done. apply (IH (mkRefresh _ _ _ _)); cbn; try done; set_solver. }
  rewrite bool_decide_eq_false_2 by done.
  set (dest := default p (pairs !! p)).
  set (key := mkCacheKey p (tc_revision <$> baseline_by_path t !! p) dest (tc_revision <$> current_by_path t !! dest)).
  destruct (rev_of_content log t p (baseline_by_path t) Hlog (or_introl eq_refl)) as [Hk1 Hc1].
  destruct (rev_of_content log t dest (current_by_path t) Hlog (or_intror eq_refl)) as [Hk2 Hc2].
  set (text := match previous_diffs s !! key with
               | Some text => text
               | None => render t p (base t p) dest (cur t dest) end).
  assert (text = entry_text t (base t) (cur t) (p, dest)) as Htext.
  { unfold text, entry_text. cbn [fst snd]. destruct (previous_diffs s !! key) as [x|] eqn:Hx; [|done].
    destruct (Hprev _ _ Hx) as (_ & _ & ->). cbn [key left_path left_revision right_path right_revision]. by rewrite Hc1, Hc2. }
  assert (cache_ok log t (delete key (previous_diffs s))) as Hprev' by (intros k x [_ Hx]%lookup_delete_Some; by apply Hprev).
  assert (cache_ok log t (<[key := text]> (new_diffs s))) as Hnew'.
  { intros k x [[<- <-]|[_ Hx]]%lookup_insert_Some; [|by apply Hnew]. split_and!; [done..|].
    cbn [key left_path left_revision right_path right_revision]. by rewrite Hc1, Hc2, Htext. }
  cbn [fmap list_fmap foldl]. rewrite <-Htext.
  destruct (pairs !! p) as [d|] eqn:Hpd; apply (IH (mkRefresh _ _ _ _)); cbn [previous_diffs new_diffs handled aggregated]; try done;
    try set_solver.
Qed.

Lemma pair_destination (pairs : gmap TrackedPath TrackedPath) p d : pairs !! p = Some d → d ∈ paired_destinations pairs.
Proof.
  intros H. unfold paired_destinations. rewrite elem_of_list_to_set, list_elem_of_fmap. exists (p, d). split; [done|].
  by apply elem_of_map_to_list.
Qed.

(** What holds of every tracker. *)
Definition consistent t : Prop :=
  if valid t then
    (∃ log, contents_ok log t ∧ cache_ok log t (rendered_diffs t)) ∧ unified_diff t = diff_text t (base t) (cur t) (plan t)
  else unified_diff t = None.

Lemma refresh_consistent log t : valid t = true → contents_ok log t → cache_ok log t (rendered_diffs t) → consistent (refresh t).
Proof.
  intros Hv Hc Hr. destruct (loop_plan log t (renames t) (paths_of t) (mkRefresh ∅ (rendered_diffs t) ∅ []) ∅ Hc Hr) as [Ha Hn].
  - cbn [new_diffs]. by intros key text ?%lookup_empty_Some.
  - set_solver.
  - set_solver.
  - apply pair_destination.
  - unfold consistent, refresh_unified_diff. cbn [valid set_diffs unified_diff rendered_diffs]. rewrite Hv. split.
    + exists log. split; [exact Hc|exact Hn].
    + rewrite Ha. done.
Qed.

Lemma track_consistent e t d : consistent t → consistent (track e t d) ∧ valid (track e t d) = valid t && exact d.
Proof.
  intros H. unfold track_delta. destruct (valid t) eqn:Hv; cbn [negb andb]; [|by rewrite Hv].
  destruct (exact d); cbn [negb]; [|done]. unfold consistent in H. rewrite Hv in H. destruct H as [(log & Hc & Hr) _].
  destruct (grows_changes e (changes d) t) as (Hv' & Hroots & Hdiffs & Hext). destruct (Hext log Hc) as (ext & Hc').
  split; [|cbn; by rewrite Hv'].
  apply (refresh_consistent (log ++ ext)); [by rewrite Hv'|done|]. rewrite Hdiffs. by apply (cache_ok_grows log ext t).
Qed.

Definition track_all t (ds : list (str * AppliedPatchDelta)) : TurnDiffTracker := foldl (λ t e, track e.1 t e.2) t ds.

Lemma track_all_consistent t ds : consistent t → consistent (track_all t ds) ∧ valid (track_all t ds) = valid t && forallb exact ds.*2.
Proof.
  revert t. induction ds as [|[e d] ds IH]; intros t H; [by rewrite andb_true_r|]. cbn [fmap list_fmap forallb].
  destruct (track_consistent e t d H) as [Hc Hv]. destruct (IH _ Hc) as [H1 H2]. split; [exact H1|].
  unfold track_all in *. cbn [foldl fst snd]. rewrite H2, Hv. by rewrite andb_assoc.
Qed.

Definition start (roots : list (str * PathUri)) : TurnDiffTracker := with_environment_display_roots roots.

Hypothesis iterate_perm : ∀ A (m : gmap TrackedPath A), iterate A m ≡ₚ map_to_list m.

Lemma start_consistent roots : consistent (start roots).
Proof.
  unfold consistent. change (valid (start roots)) with true. split.
  - exists []. split; [|intros key text H; cbn [start with_environment_display_roots rendered_diffs] in H; by rewrite lookup_empty in H].
    split; [done|]. intros p c [H|H]; cbn [start with_environment_display_roots baseline_by_path current_by_path] in H;
      by rewrite lookup_empty in H.
  - assert (paths_of (start roots) = []) as E.
    { unfold sorted_paths. cbn [start with_environment_display_roots baseline_by_path current_by_path].
      assert (∀ A, (iterate A ∅).*1 = []) as Hi.
      { intros A. pose proof (iterate_perm A ∅) as Hp. rewrite map_to_list_empty in Hp. by apply Permutation_nil_r in Hp as ->. }
      by rewrite !Hi. }
    unfold plan, diff_text. by rewrite E.
Qed.
(** *** The entries *)
Lemma dedup_adjacent_elem {A} `{EqDecision A} (l : list A) x : x ∈ dedup_adjacent l ↔ x ∈ l.
Proof.
  induction l as [|y l IH]; [done|]. destruct l as [|z l]; [done|].
  change (dedup_adjacent (y :: z :: l)) with (if decide (y = z) then dedup_adjacent (z :: l) else y :: dedup_adjacent (z :: l)).
  case_decide as E; [subst|]; set_solver.
Qed.

Lemma iterate_keys A (m : gmap TrackedPath A) p : p ∈ (iterate A m).*1 ↔ is_Some (m !! p).
Proof.
  rewrite list_elem_of_fmap. setoid_rewrite iterate_perm. split.
  - intros ([q x] & -> & H%elem_of_map_to_list). eauto.
  - intros [x Hx]. exists (p, x). split; [done|]. by apply elem_of_map_to_list.
Qed.

Lemma paths_elem t p : p ∈ paths_of t ↔ untracked t p = false.
Proof.
  unfold sorted_paths. rewrite dedup_adjacent_elem, (merge_sort_Permutation (display_le relative_path_from t)), elem_of_app, !iterate_keys.
  rewrite untracked_false. unfold base, cur. by destruct (baseline_by_path t !! p), (current_by_path t !! p); cbn; naive_solver.
Qed.

Lemma renames_spec t o d : renames t !! o = Some d → origin_by_current_path t !! d = Some o ∧ is_rename_pair t d o = true.
Proof.
  unfold rename_pairs. intros H%elem_of_list_to_map_2. rewrite elem_of_reverse, list_elem_of_omap in H.
  destruct H as ([d' o'] & Hin & Hp). cbn in Hp. destruct (is_rename_pair t d' o') eqn:E; [|done]. injection Hp as -> ->.
  rewrite iterate_perm in Hin. by apply elem_of_map_to_list in Hin.
Qed.

Lemma is_rename_pair_spec t d o : is_rename_pair t d o = true →
  d ≠ o ∧ cur t o = None ∧ cur t d ≠ None ∧ base t o ≠ None ∧ base t d = None.
Proof.
  unfold is_rename_pair, contains, cur, base. rewrite !andb_true_iff, !negb_true_iff, !bool_decide_eq_true, !bool_decide_eq_false.
  intros [[[[H1 H2] H3] H4] H5]. rewrite <-!eq_None_not_Some in *. rewrite !fmap_None. split_and!; try done.
  - by apply not_eq_None_Some.
  - by apply not_eq_None_Some.
Qed.

Lemma destination_origin t d : d ∈ paired_destinations (renames t) → ∃ o, renames t !! o = Some d.
Proof.
  unfold paired_destinations. rewrite elem_of_list_to_set, list_elem_of_fmap. intros ([o d'] & -> & H%elem_of_map_to_list). eauto.
Qed.

Lemma plan_from_elem pairs seen paths l r : (l, r) ∈ plan_from pairs seen paths ↔
  l ∈ paths ∧ l ∉ seen ∧ l ∉ paired_destinations pairs ∧ r = default l (pairs !! l).
Proof.
  revert seen. induction paths as [|p paths IH]; intros seen; cbn [plan_from]; [set_solver|].
  destruct (bool_decide_reflect (p ∈ seen)) as [Hs|Hs]; [rewrite IH; set_solver|].
  destruct (bool_decide_reflect (p ∈ paired_destinations pairs)) as [Hd|Hd]; [rewrite IH; set_solver|].
  rewrite elem_of_cons, IH, elem_of_cons, not_elem_of_union, elem_of_singleton. destruct (decide (l = p)) as [->|Hne]; naive_solver.
Qed.

Lemma plan_from_nodup pairs seen paths : NoDup (plan_from pairs seen paths).*1.
Proof.
  revert seen. induction paths as [|p paths IH]; intros seen; cbn [plan_from]; [constructor|].
  repeat case_bool_decide; [apply IH..|]. cbn [fmap list_fmap fst]. constructor; [|apply IH].
  rewrite list_elem_of_fmap. intros ([l r] & -> & Hin%plan_from_elem). set_solver.
Qed.

Lemma plan_elem t l r : (l, r) ∈ plan t ↔
  untracked t l = false ∧ l ∉ paired_destinations (renames t) ∧ r = default l (renames t !! l).
Proof. unfold plan. rewrite plan_from_elem, paths_elem. set_solver. Qed.

(** Two entries do not share a path. *)
Lemma plan_disjoint t l r l' r' : (l, r) ∈ plan t → (l', r') ∈ plan t → l ≠ l' → r ≠ r' ∧ l ≠ r'.
Proof.
  rewrite !plan_elem. intros (_ & Hd & ->) (_ & Hd' & ->) Hne.
  destruct (renames t !! l) as [d|] eqn:E, (renames t !! l') as [d'|] eqn:E'; cbn;
    try (pose proof (pair_destination _ _ _ E)); try (pose proof (pair_destination _ _ _ E')); split; try congruence.
  intros ->. apply renames_spec in E as [E _], E' as [E' _]. congruence.
Qed.

(** Entries and the worlds before and after. *)
Record net_change (W0 W : World) (entries : list (TrackedPath * TrackedPath)) : Prop := mkNet {
  net_once : NoDup entries.*1;
  net_disjoint l r l' r' : (l, r) ∈ entries → (l', r') ∈ entries → l ≠ l' → r ≠ r' ∧ l ≠ r';
  net_complete p : W0 p ≠ W p → p ∈ entries.*1 ∨ p ∈ entries.*2;
  net_renames l r : (l, r) ∈ entries → l ≠ r → W0 l ≠ None ∧ W l = None ∧ W0 r = None ∧ W r ≠ None
}.

Lemma follows_entry W0 W t l r : follows W0 W t → (l, r) ∈ plan t →
  base t l = W0 l ∧ cur t r = W r ∧ (l ≠ r → base t r = W0 r ∧ cur t l = W l).
Proof.
  intros H (Hl & Hd & ->)%plan_elem. assert (∀ p, untracked t p = false → base t p = W0 p ∧ cur t p = W p) as Hk.
  { intros p Hp. destruct (H p) as [[Hu _]|?]; [congruence|done]. }
  destruct (Hk l Hl) as [Hb Hc]. destruct (renames t !! l) as [d|] eqn:E; cbn; [|done].
  apply renames_spec in E as (_ & (_ & _ & Hcd & _)%is_rename_pair_spec).
  destruct (Hk d) as [Hbd Hcd']; [apply untracked_false; auto|]. done.
Qed.

Lemma follows_net_change W0 W t : follows W0 W t → net_change W0 W (plan t).
Proof.
  intros H. split; [apply plan_from_nodup|apply plan_disjoint| |].
  - intros p Hp. destruct (decide (p ∈ paired_destinations (renames t))) as [(o & Ho)%destination_origin|Hd].
    + right. rewrite list_elem_of_fmap. exists (o, p). split; [done|]. apply plan_elem. rewrite Ho. split_and!; [| |done].
      * apply untracked_false. left. by apply renames_spec in Ho as (_ & (_ & _ & _ & ? & _)%is_rename_pair_spec).
      * intros (o' & Ho')%destination_origin. apply renames_spec in Ho as (_ & (_ & Hco & _)%is_rename_pair_spec).
        apply renames_spec in Ho' as (_ & (_ & _ & Hc & _)%is_rename_pair_spec). by apply Hc.
    + left. rewrite list_elem_of_fmap. exists (p, default p (renames t !! p)). split; [done|]. apply plan_elem. split_and!; try done.
      destruct (untracked t p) eqn:E; [|done]. destruct (H p) as [[_ ?]|[Hb Hc]]; [congruence|].
      apply untracked_iff in E as [E1 E2]. congruence.
  - intros l r Hin Hne. destruct (follows_entry W0 W t l r H Hin) as (<- & <- & Hlr). destruct (Hlr Hne) as [<- <-].
    apply plan_elem in Hin as (_ & _ & ->). destruct (renames t !! l) as [d|] eqn:E; cbn in *; [|done].
    apply renames_spec in E as (_ & (_ & ? & ? & ? & ?)%is_rename_pair_spec). done.
Qed.

Lemma follows_diff_text W0 W t : follows W0 W t → diff_text t (base t) (cur t) (plan t) = diff_text t W0 W (plan t).
Proof.
  intros H. unfold diff_text. assert (entry_text t (base t) (cur t) <$> plan t = entry_text t W0 W <$> plan t) as ->; [|done].
  apply list_fmap_ext. intros i [l r] Hin%list_elem_of_lookup_2. unfold entry_text. cbn [fst snd].
  by destruct (follows_entry W0 W t l r H Hin) as (-> & -> & _).
Qed.
End shown.

(** ** Patches and the tracker *)
Section patches.
Context `{FS : ExecutorFileSystem} `{!Countable PathUri} (opts : ApplyPatchOptions).
Let follow := follow_symlinks opts.
Context {Laws : LawfulFS follow}.
Abbreviation TrackedPath := (str * PathUri)%type.
Abbreviation World := (TrackedPath → option str).

(** Each environment has its file system. *)
Definition world (fss : str → fs_state) : World := λ k, content follow (fss k.1) k.2.
Definition put_fs (e : str) (s : fs_state) (fss : str → fs_state) : str → fs_state := λ x, if decide (x = e) then s else fss x.

Definition moves_away (c : AppliedPatchChange) : Prop :=
  match change c with DeltaUpdate (Some dest) _ _ _ => change_path c ≠ dest | _ => True end.

(** A hunk records at most one change. *)
Definition one_change (d d' : AppliedPatchDelta) : Prop :=
  changes d' = changes d ∨ ∃ c, changes d' = changes d ++ [c] ∧ moves_away c.

Lemma apply_move_one s d a p dest original new s' d' r : p ≠ dest →
  apply_move opts s d a p dest original new = (s', d', r) → one_change d d'.
Proof.
  intros Hne. unfold apply_move, one_change. intros H. repeat case_match; simplify_eq/=; rewrite ?insert_snoc; (by left) || (right; eexists; by split).
Qed.

Lemma apply_hunk_one s d cwd h s' d' r : no_self_move cwd h → apply_hunk opts cwd s d h = (s', d', r) → one_change d d'.
Proof.
  intros Hns. unfold apply_hunk. destruct (resolve_path h cwd) as [p|e] eqn:Hp; [|intros [= <- <- <-]; by left].
  destruct h as [path contents|path|path mv chunks]; cbn [resolve_path] in Hp.
  - unfold apply_add. intros H. repeat case_match; simplify_eq/=; (by left) || (right; eexists; by split).
  - unfold apply_delete. intros H. repeat case_match; simplify_eq/=; (by left) || (right; eexists; by split).
  - unfold apply_update. destruct (derive_new_contents_from_chunks _ _ _ _ _) as [[original new]| |]; [|intros [= <- <- <-]; by left..].
    destruct mv as [dest|].
    + destruct (path_join cwd dest) as [q|] eqn:Hq; [|intros [= <- <- <-]; by left].
      intros H. apply apply_move_one in H; [exact H|]. cbn in Hns. rewrite Hp, Hq in Hns. congruence.
    + intros H. repeat case_match; simplify_eq/=; (by left) || (right; eexists; by split).
Qed.

(** A change that can be replayed and reverted was recorded as it happened. *)
Lemma tracks_recorded e s c s' fss : moves_away c → tracks follow s [c] s' → fss e = s →
  recorded e (world fss) c ∧ ∀ k, changed e c (world fss) k = world (put_fs e s' fss) k.
Proof.
  intros Hm [Hf Hb] Hs. assert (view_eq (revert_change c (replay_change c (content follow s))) (content follow s)) as Hrr.
  { etrans; [|exact Hb]. cbn. by rewrite <-Hf. }
  assert (∀ q, replay_change c (content follow s) q = content follow s' q) as Hf' by exact Hf. clear Hf Hb.
  split.
  - unfold recorded, world, moves_away in *. destruct c as [q [x o|x|[dest|] old o new]]; cbn [change change_path fst snd] in *;
      rewrite Hs; unfold revert_change, replay_change, upd in Hrr; cbn [change change_path] in Hrr.
    + specialize (Hrr q). cbv beta in Hrr. by rewrite decide_True in Hrr.
    + specialize (Hrr q). cbv beta in Hrr. by rewrite decide_True in Hrr.
    + split_and!; [done|specialize (Hrr q); cbv beta in Hrr; by rewrite decide_True in Hrr|].
      specialize (Hrr dest). cbv beta in Hrr. rewrite decide_False, decide_True in Hrr by done. done.
    + specialize (Hrr q). cbv beta in Hrr. by rewrite decide_True in Hrr.
  - intros [x k]. unfold world, put_fs. cbn [fst snd]. destruct (decide (x = e)) as [->|Hx].
    + rewrite <-Hf', <-Hs. unfold changed, replay_change, put, upd, world.
      destruct c as [q [y o|y|[dest|] old o new]]; cbn [change change_path fst snd]; repeat case_decide; congruence.
    + unfold changed, put, world. destruct c as [q [y o|y|[dest|] old o new]]; cbn [change change_path fst snd]; repeat case_decide; congruence.
Qed.

Lemma recorded_ext e W W' c : (∀ k, W k = W' k) → recorded e W c → recorded e W' c.
Proof. intros H. unfold recorded. repeat case_match; by rewrite ?H. Qed.
Lemma changed_ext e W W' c : (∀ k, W k = W' k) → ∀ k, changed e c W k = changed e c W' k.
Proof. intros H k. unfold changed, put. repeat case_match; try done; by rewrite ?H. Qed.
Lemma all_recorded_ext e cs W W' : (∀ k, W k = W' k) → all_recorded e W cs → all_recorded e W' cs.
Proof.
  revert W W'. induction cs as [|c cs IH]; intros W W' H; [done|]. intros [Hc Hcs]. split; [by eapply recorded_ext|].
  eapply IH; [|exact Hcs]. by apply changed_ext.
Qed.
Lemma all_changed_ext e cs W W' : (∀ k, W k = W' k) → ∀ k, all_changed e W cs k = all_changed e W' cs k.
Proof. revert W W'. induction cs as [|c cs IH]; intros W W' H; [done|]. apply IH. by apply changed_ext. Qed.

Lemma all_recorded_app e cs cs' W : all_recorded e W (cs ++ cs') ↔ all_recorded e W cs ∧ all_recorded e (all_changed e W cs) cs'.
Proof. revert W. induction cs as [|c cs IH]; intros W; cbn [app all_recorded]; [naive_solver|]. rewrite IH. cbn. naive_solver. Qed.

(** What a step of the application adds to the delta, seen by the tracker. *)
Definition step_recorded (e : str) fss (d : AppliedPatchDelta) s' (d' : AppliedPatchDelta) : Prop :=
  exact d' = true → exact d = true ∧ ∃ cs, changes d' = changes d ++ cs ∧ all_recorded e (world fss) cs ∧
    ∀ k, all_changed e (world fss) cs k = world (put_fs e s' fss) k.

Lemma put_fs_same e s fss : fss e = s → ∀ k, world (put_fs e s fss) k = world fss k.
Proof. intros H k. unfold world, put_fs. case_decide; congruence. Qed.

Lemma apply_hunk_recorded e fss d cwd h s' d' r : no_self_move cwd h →
  apply_hunk opts cwd (fss e) d h = (s', d', r) → step_recorded e fss d s' d'.
Proof.
  intros Hns Hap He. destruct (apply_hunk_tracked opts _ _ _ _ _ _ _ Hns Hap He) as (He0 & cs & Hcs & Ht).
  split; [done|]. exists cs. split; [done|].
  destruct (apply_hunk_one _ _ _ _ _ _ _ Hns Hap) as [Hone|(c & Hone & Hm)].
  - rewrite Hcs in Hone. assert (cs = []) as -> by (by apply (app_inv_head (changes d)); rewrite app_nil_r). split; [done|].
    intros [x k]. destruct Ht as [Hv _]. unfold world, put_fs. cbn. case_decide; [|done]. subst. apply Hv.
  - rewrite Hcs in Hone. apply app_inv_head in Hone as ->. destruct (tracks_recorded e _ c s' fss Hm Ht eq_refl) as [H1 H2].
    done.
Qed.

Lemma apply_hunk_list_recorded hs e fss d cwd ps s' d' r : Forall (no_self_move cwd) hs →
  apply_hunk_list opts cwd (fss e) d ps hs = (s', d', r) → step_recorded e fss d s' d'.
Proof.
  intros Hns. revert fss d ps. induction Hns as [|h hs Hh _ IH]; intros fss d ps; cbn [apply_hunk_list].
  { intros [= <- <- <-] He. split; [done|]. exists []. rewrite app_nil_r. split_and!; [done..|]. intros k. by rewrite put_fs_same. }
  destruct (apply_hunk opts cwd (fss e) d h) as [[s1 d1] [a|x|]] eqn:Hap;
    apply (apply_hunk_recorded e) in Hap; try done; [|by intros [= <- <- <-]..].
  intros Hrest He. assert (put_fs e s1 fss e = s1) as Hp by (unfold put_fs; by rewrite decide_True).
  rewrite <-Hp in Hrest at 1. destruct (IH _ _ _ Hrest He) as (He1 & cs2 & Hc2 & Hr2 & Hw2).
  destruct (Hap He1) as (He0 & cs1 & Hc1 & Hr1 & Hw1). split; [done|]. exists (cs1 ++ cs2).
  split; [by rewrite Hc2, Hc1, (assoc_L app)|]. split.
  - apply all_recorded_app. split; [done|]. eapply all_recorded_ext; [|exact Hr2]. intros k. by rewrite Hw1.
  - intros k. unfold all_changed. rewrite foldl_app. fold (all_changed e (world fss) cs1). change (all_changed e (all_changed e (world fss) cs1) cs2 k = world (put_fs e s' fss) k).
    rewrite (all_changed_ext e cs2 _ (world (put_fs e s1 fss))) by done. rewrite Hw2. unfold world, put_fs. by case_decide.
Qed.
(** ** A turn *)
Context (relative_path_from : PathUri → PathUri → option str).
Context (unified_lines : str → str → str → str → str) (sha1_hex : str → str).
Context (iterate : ∀ A, gmap TrackedPath A → list (TrackedPath * A)).

Abbreviation track := (track_delta relative_path_from unified_lines sha1_hex iterate).
Abbreviation text := (diff_text relative_path_from unified_lines sha1_hex).
Abbreviation entries := (plan relative_path_from iterate).

(** A patch is applied in an environment, and the tracker sees its delta. *)
Record PatchCall : Type := mkPatch { in_environment : str; in_directory : PathUri; hunks : list Hunk }.
Definition turn_step (st : (str → fs_state) * TurnDiffTracker) (c : PatchCall) : (str → fs_state) * TurnDiffTracker :=
  let '(s, d, _) := apply_hunks_to_files (hunks c) opts (in_directory c) (st.1 (in_environment c)) empty_delta in
  (put_fs (in_environment c) s st.1, track (in_environment c) st.2 d).
Definition turn fss roots (calls : list PatchCall) : (str → fs_state) * TurnDiffTracker := foldl turn_step (fss, start roots) calls.

Lemma follows_ext W0 W W' t : (∀ k, W k = W' k) → follows W0 W t → follows W0 W' t.
Proof. intros H Hf k. rewrite <-H. apply Hf. Qed.

Lemma track_follows e W0 W W' t d : valid t = true → exact d = true → follows W0 W t → all_recorded e W (changes d) →
  (∀ k, all_changed e W (changes d) k = W' k) → follows W0 W' (track e t d).
Proof.
  intros Hv He Hf Hr Hw. unfold track_delta. rewrite Hv, He. cbn [negb]. eapply follows_ext; [exact Hw|].
  exact (follow_changes e (changes d) W0 W t Hf Hr).
Qed.

Hypothesis iterate_perm : ∀ A (m : gmap TrackedPath A), iterate A m ≡ₚ map_to_list m.

Lemma turn_follows fss roots calls : Forall (λ c, Forall (no_self_move (in_directory c)) (hunks c)) calls →
  consistent relative_path_from unified_lines sha1_hex iterate (turn fss roots calls).2 ∧
  (valid (turn fss roots calls).2 = true → follows (world fss) (world (turn fss roots calls).1) (turn fss roots calls).2).
Proof.
  induction calls as [|c calls IH] using rev_ind; intros Hns.
  { split; [by apply start_consistent|]. intros _ k. left. split; [|done]. apply untracked_iff. unfold base, cur. cbn.
    by rewrite !lookup_empty. }
  apply Forall_app in Hns as [Hns [Hc _]%Forall_cons]. destruct (IH Hns) as [Hcons Hfol]. clear IH.
  unfold turn in *. rewrite foldl_snoc. set (st := foldl turn_step (fss, start roots) calls) in *. unfold turn_step.
  destruct (apply_hunks_to_files (hunks c) opts (in_directory c) (st.1 (in_environment c)) empty_delta) as [[s d] r] eqn:Hap.
  cbn [fst snd]. destruct (track_consistent relative_path_from unified_lines sha1_hex iterate (in_environment c) st.2 d Hcons) as [H1 H2].
  split; [exact H1|]. rewrite H2. intros [Hv He]%andb_true_iff.
  assert (step_recorded (in_environment c) st.1 empty_delta s d) as Hst.
  { unfold apply_hunks_to_files in Hap. destruct (is_empty (hunks c)); [|by eapply apply_hunk_list_recorded].
    injection Hap as <- <- <-. intros _. split; [done|]. exists []. split_and!; [done..|]. intros k. by rewrite put_fs_same. }
  destruct (Hst He) as (_ & cs & Hcs & Hr & Hw). cbn in Hcs. subst cs. by apply (track_follows _ _ (world st.1)); [| |apply Hfol| |].
Qed.

End patches.

(** C14: The cache of rendered diffs never shows: whatever the deltas, exact or not, the
    diff is the one rendered anew from the contents the tracker holds, and it is
    withheld for good from the first delta that is not exact. *)
Theorem cached_diff_is_fresh {P : PathOps} `{!Countable PathUri} (relative_path_from : PathUri → PathUri → option str)
    (unified_lines : str → str → str → str → str) (sha1_hex : str → str)
    (iterate : ∀ A, gmap (str * PathUri) A → list ((str * PathUri) * A))
    (roots : list (str * PathUri)) (deltas : list (str * AppliedPatchDelta)) :
  (∀ A (m : gmap (str * PathUri) A), iterate A m ≡ₚ map_to_list m) →
  let t := track_all relative_path_from unified_lines sha1_hex iterate (start roots) deltas in
  get_unified_diff t =
  if forallb exact deltas.*2
  then diff_text relative_path_from unified_lines sha1_hex t (base t) (cur t) (plan relative_path_from iterate t)
  else None.
Proof.
  intros Hi. cbv zeta.
  destruct (track_all_consistent relative_path_from unified_lines sha1_hex iterate (start roots) deltas) as [Hc Hv];
    [by apply start_consistent|].
  unfold consistent in Hc. rewrite Hv in Hc. change (valid (start roots)) with true in *. cbn [andb] in Hc.
  destruct (forallb exact deltas.*2); [by destruct Hc|done].
Qed.

(** ** Examples *)
Module TurnDiffExamples.
#[local] Existing Instance mem_paths.
#[local] Existing Instance mem_fs.
#[local] Instance path_countable : Countable (@PathUri mem_paths) := list_countable.

Definition relative (p root : @PathUri mem_paths) : option str := strip_prefix (root ++ [SLASH]) p.
Definition whole_files (before after old new : str) : str := $"--- " ++ old ++ [LF] ++ before ++ $"+++ " ++ new ++ [LF] ++ after.
Definition oid_stub (s : str) : str := fmt_N (N.of_nat (length s)).
Definition iterate_list (A : Type) (m : gmap (str * @PathUri mem_paths) A) := map_to_list m.

(** The file [a] is moved and edited, [b] is deleted, and a new file is added and edited. *)
Definition edit_new : list Hunk := [UpdateFile ($"d/n") None [mkChunk None [ $"new"] [ $"newer"] [] false]].
Definition calls : list PatchCall := [mkPatch ($"env") demo_cwd demo_hunks; mkPatch ($"env") demo_cwd edit_new].
Definition demo_turn := turn (FS := mem_fs) demo_opts relative whole_files oid_stub iterate_list (λ _, demo_state) [($"env", $"/w")] calls.


Definition one_delta : AppliedPatchDelta := mkDelta [mkChangeAt (P := mem_paths) ($"/w/x") (DeltaAdd ($"x") None)] true.
Definition deltas : list (str * AppliedPatchDelta) := [($"env", one_delta); ($"env", one_delta)].

Lemma cached_diff_is_fresh_witness :
  let t := track_all relative whole_files oid_stub iterate_list (start [($"env", $"/w")]) deltas in
  get_unified_diff t = diff_text relative whole_files oid_stub t (base t) (cur t) (plan relative iterate_list t) ∧ get_unified_diff t ≠ None.
Proof.
  cbv zeta. split.
  - exact (cached_diff_is_fresh relative whole_files oid_stub iterate_list [($"env", $"/w")] deltas (λ A m, reflexivity _)).
  - vm_compute. done.
Defined.
End TurnDiffExamples.
