(* ===== verification/RequestQueue.v ===== *)
(** * Serialized requests: [app-server/src/request_serialization.rs] and [connection_rpc_gate.rs]

    Requests that touch the same resource are queued under a key. The first
    request of a key spawns a task that drains the queue: an exclusive request
    runs alone, shared reads at the front run together and are joined by reads
    that arrive while they run. A request first passes the gate of its
    connection: once the gate is closed it is skipped.

    The state is what the lock protects and what each task holds; an action is
    what happens between two waits of a task. What a request does is opaque: it is
    a name, its key, its access and its gate. [Notify::notify_one] leaves at most
    one permit. The trace records what happened. *)

From stdpp Require Import prelude list gmap strings.
From S2P Require Import Prelude.

Open Scope rust_scope.

(** ** Keys *)
Inductive ClientRequestSerializationScope : Type :=
| ScopeGlobal (name : str)
| ScopeGlobalSharedRead (name : str)
| ScopeThread (thread_id : str)
| ScopeThreadPath (path : str)
| ScopeCommandExecProcess (process_id : str)
| ScopeProcess (process_handle : str)
| ScopeFuzzyFileSearchSession (session_id : str)
| ScopeFsWatch (watch_id : str)
| ScopeMcpOauth (server_name : str).

Inductive RequestSerializationQueueKey : Type :=
| KGlobal (name : str)
| KThread (thread_id : str)
| KThreadPath (path : str)
| KCommandExecProcess (connection_id : N) (process_id : str)
| KProcess (connection_id : N) (process_handle : str)
| KFuzzyFileSearchSession (session_id : str)
| KFsWatch (connection_id : N) (watch_id : str)
| KMcpOauth (server_name : str).
Abbreviation Key := RequestSerializationQueueKey.

Inductive RequestSerializationAccess : Type := Exclusive | SharedRead.

#[global] Instance Key_eq_dec : EqDecision Key.
Proof. solve_decision. Defined.
#[global] Instance Access_eq_dec : EqDecision RequestSerializationAccess.
Proof. solve_decision. Defined.

Definition key_code (k : Key) : N * N * str :=
  match k with
  | KGlobal s => (0, 0, s) | KThread s => (1, 0, s) | KThreadPath s => (2, 0, s) | KCommandExecProcess c s => (3, c, s)
  | KProcess c s => (4, c, s) | KFuzzyFileSearchSession s => (5, 0, s) | KFsWatch c s => (6, c, s) | KMcpOauth s => (7, 0, s)
  end%N.
Definition key_decode (c : N * N * str) : option Key :=
  match c with
  | (0, _, s) => Some (KGlobal s) | (1, _, s) => Some (KThread s) | (2, _, s) => Some (KThreadPath s)
  | (3, c, s) => Some (KCommandExecProcess c s) | (4, c, s) => Some (KProcess c s) | (5, _, s) => Some (KFuzzyFileSearchSession s)
  | (6, c, s) => Some (KFsWatch c s) | (7, _, s) => Some (KMcpOauth s) | _ => None
  end%N.
#[global] Instance Key_countable : Countable Key.
Proof. refine (inj_countable key_code key_decode _). by intros []. Defined.

Definition from_scope (connection_id : N) (scope : ClientRequestSerializationScope) : Key * RequestSerializationAccess :=
  match scope with
  | ScopeGlobal name => (KGlobal name, Exclusive)
  | ScopeGlobalSharedRead name => (KGlobal name, SharedRead)
  | ScopeThread thread_id => (KThread thread_id, Exclusive)
  | ScopeThreadPath path => (KThreadPath path, Exclusive)
  | ScopeCommandExecProcess process_id => (KCommandExecProcess connection_id process_id, Exclusive)
  | ScopeProcess process_handle => (KProcess connection_id process_handle, Exclusive)
  | ScopeFuzzyFileSearchSession session_id => (KFuzzyFileSearchSession session_id, Exclusive)
  | ScopeFsWatch watch_id => (KFsWatch connection_id watch_id, Exclusive)
  | ScopeMcpOauth server_name => (KMcpOauth server_name, Exclusive)
  end.

(** ** State *)
Record Request : Type := mkRequest {
  rq_id : N;
  rq_key : Key;
  rq_access : RequestSerializationAccess;
  rq_gate : option N
}.
#[global] Instance Request_eq_dec : EqDecision Request.
Proof. solve_decision. Defined.

(** A queue and the permit of its [Notify]. *)
Record RequestSerializationQueue : Type := mkQueue { requests : list Request; changed : bool }.

(** Where a draining task is: at the head of its loop, running one exclusive
    request, or running reads. A request it holds has begun or waits for its gate.
    A task that [notified] woke waits for the lock, and polls no read meanwhile. *)
Inductive DrainPc : Type :=
| LoopHead
| RunningExclusive (held : list (Request * bool))
| RunningReads (woken : bool) (held : list (Request * bool)).

Record Drain : Type := mkDrain { drain_key : Key; drain_pc : DrainPc }.

Inductive Event : Type :=
| Enqueued (r : Request)
| Begun (r : Request)
| Ended (r : Request)
| Skipped (r : Request)
| Closed (gate : N).

Record RequestSerializationQueues : Type := mkQueues {
  queues : gmap Key RequestSerializationQueue;
  drains : gmap N Drain;
  next_drain : N;
  next_request : N;
  closed_gates : gset N;
  trace : list Event
}.
Abbreviation Sys := RequestSerializationQueues.
Definition empty_queues : Sys := mkQueues ∅ ∅ 0 0 ∅ [].

(** ** Enqueueing *)
Definition enqueue (key : Key) (access : RequestSerializationAccess) (gate : option N) (st : Sys) : Sys :=
  let r := mkRequest (next_request st) key access gate in
  match queues st !! key with
  | Some q =>
      mkQueues (<[key := mkQueue (requests q ++ [r]) true]> (queues st)) (drains st) (next_drain st) (next_request st + 1)
        (closed_gates st) (trace st ++ [Enqueued r])
  | None =>
      mkQueues (<[key := mkQueue [r] false]> (queues st)) (<[next_drain st := mkDrain key LoopHead]> (drains st))
        (next_drain st + 1) (next_request st + 1) (closed_gates st) (trace st ++ [Enqueued r])
  end.

(** ** Draining *)

(** The shared reads at the front. *)
Fixpoint split_reads (rs : list Request) : list Request * list Request :=
  match rs with
  | r :: rs' => match rq_access r with
                | SharedRead => let '(reads, rest) := split_reads rs' in (r :: reads, rest)
                | Exclusive => ([], rs)
                end
  | [] => ([], [])
  end.

Definition waiting (rs : list Request) : list (Request * bool) := (λ r, (r, false)) <$> rs.

Definition set_drain (i : N) (d : Drain) (qs : gmap Key RequestSerializationQueue) (st : Sys) : Sys :=
  mkQueues qs (<[i := d]> (drains st)) (next_drain st) (next_request st) (closed_gates st) (trace st).
Definition end_drain (i : N) (qs : gmap Key RequestSerializationQueue) (st : Sys) : Sys :=
  mkQueues qs (delete i (drains st)) (next_drain st) (next_request st) (closed_gates st) (trace st).

(** The head of the loop, under the lock. *)
Definition drain_next (i : N) (st : Sys) : option Sys :=
  match drains st !! i with
  | Some (mkDrain key LoopHead) =>
      Some match queues st !! key with
           | None => end_drain i (queues st) st
           | Some q =>
               match requests q with
               | [] => end_drain i (delete key (queues st)) st
               | r :: rest =>
                   match rq_access r with
                   | SharedRead =>
                       let '(reads, rest) := split_reads rest in
                       set_drain i (mkDrain key (RunningReads false (waiting (r :: reads))))
                         (<[key := mkQueue rest (changed q)]> (queues st)) st
                   | Exclusive =>
                       set_drain i (mkDrain key (RunningExclusive (waiting [r])))
                         (<[key := mkQueue rest (changed q)]> (queues st)) st
                   end
               end
           end
  | _ => None
  end.

(** [changed.notified()]: the task takes the permit of its queue. *)
Definition drain_notified (i : N) (st : Sys) : option Sys :=
  match drains st !! i with
  | Some (mkDrain key (RunningReads false held)) =>
      match queues st !! key with
      | Some q =>
          if changed q
          then Some (set_drain i (mkDrain key (RunningReads true held)) (<[key := mkQueue (requests q) false]> (queues st)) st)
          else None
      | None => None
      end
  | _ => None
  end.

(** Then, under the lock, the reads that have come to the front join. *)
Definition drain_join (i : N) (st : Sys) : option Sys :=
  match drains st !! i with
  | Some (mkDrain key (RunningReads true held)) =>
      Some match queues st !! key with
           | None => end_drain i (queues st) st
           | Some q =>
               let '(reads, rest) := split_reads (requests q) in
               set_drain i (mkDrain key (RunningReads false (held ++ waiting reads)))
                 (<[key := mkQueue rest (changed q)]> (queues st)) st
           end
  | _ => None
  end.

(** The requests a task may act on: the first exclusive one, any of the reads it polls. *)
Definition held_requests (pc : DrainPc) : list (Request * bool) :=
  match pc with LoopHead => [] | RunningExclusive held => take 1 held | RunningReads woken held => if woken then [] else held end.

Definition with_held (pc : DrainPc) (held : list (Request * bool)) : DrainPc :=
  match pc with
  | LoopHead => LoopHead
  | RunningExclusive _ => if is_empty held then LoopHead else RunningExclusive held
  | RunningReads woken _ => if is_empty held then LoopHead else RunningReads woken held
  end.
Definition all_held (pc : DrainPc) : list (Request * bool) :=
  match pc with LoopHead => [] | RunningExclusive held | RunningReads _ held => held end.

Definition record_event (e : Event) (st : Sys) : Sys :=
  mkQueues (queues st) (drains st) (next_drain st) (next_request st) (closed_gates st) (trace st ++ [e]).

Definition drop_request (r : Request) (held : list (Request * bool)) : list (Request * bool) :=
  List.filter (λ h, negb (bool_decide (h.1 = r))) held.
Definition mark_begun (r : Request) (held : list (Request * bool)) : list (Request * bool) :=
  (λ h, if bool_decide (h.1 = r) then (r, true) else h) <$> held.

(** [ConnectionRpcGate::run]: a closed gate drops the request. *)
Definition gate_open (st : Sys) (r : Request) : bool :=
  match rq_gate r with None => true | Some g => negb (bool_decide (g ∈ closed_gates st)) end.

Definition run_request (i : N) (r : Request) (st : Sys) : option Sys :=
  match drains st !! i with
  | Some (mkDrain key pc) =>
      if bool_decide ((r, false) ∈ held_requests pc) then
        Some (if gate_open st r
              then record_event (Begun r) (set_drain i (mkDrain key (with_held pc (mark_begun r (all_held pc)))) (queues st) st)
              else record_event (Skipped r) (set_drain i (mkDrain key (with_held pc (drop_request r (all_held pc)))) (queues st) st))
      else None
  | None => None
  end.

(** A request that has begun comes to its end. *)
Definition finish_request (i : N) (r : Request) (st : Sys) : option Sys :=
  match drains st !! i with
  | Some (mkDrain key pc) =>
      if bool_decide ((r, true) ∈ held_requests pc) then
        Some (record_event (Ended r) (set_drain i (mkDrain key (with_held pc (drop_request r (all_held pc)))) (queues st) st))
      else None
  | None => None
  end.

Definition close_gate (g : N) (st : Sys) : Sys :=
  mkQueues (queues st) (drains st) (next_drain st) (next_request st) ({[g]} ∪ closed_gates st) (trace st ++ [Closed g]).

(** ** Steps *)
Inductive Action : Type :=
| ActEnqueue (key : Key) (access : RequestSerializationAccess) (gate : option N)
| ActClose (gate : N)
| ActNext (drain : N)
| ActNotified (drain : N)
| ActJoin (drain : N)
| ActRun (drain : N) (r : Request)
| ActFinish (drain : N) (r : Request).

Definition act (a : Action) (st : Sys) : option Sys :=
  match a with
  | ActEnqueue key access gate => Some (enqueue key access gate st)
  | ActClose g => Some (close_gate g st)
  | ActNext i => drain_next i st
  | ActNotified i => drain_notified i st
  | ActJoin i => drain_join i st
  | ActRun i r => run_request i r st
  | ActFinish i r => finish_request i r st
  end.

(** The actions of the draining tasks. *)
Definition internal (a : Action) : bool := match a with ActEnqueue _ _ _ | ActClose _ => false | _ => true end.

Inductive reachable : Sys → Prop :=
| reach_start : reachable empty_queues
| reach_step a st st' : reachable st → act a st = Some st' → reachable st'.
