(* ===== verification/RequestQueueSpec.v ===== *)
(** * Properties of the serialized requests

    Per key the trace of every run is serial: a request begins only when every
    conflicting request that was queued before it has ended or was skipped. No
    request is lost: left alone the tasks come to rest, and at rest every request
    has ended or was skipped and no queue or task is left. After a gate is closed
    none of its requests begins. *)

From stdpp Require Import prelude list gmap strings.
From S2P Require Import Prelude RequestQueue.

Open Scope rust_scope.

(** ** Traces *)
Definition event_request (e : Event) : option Request :=
  match e with Enqueued r | Begun r | Ended r | Skipped r => Some r | Closed _ => None end.
Definition of_key (key : Key) (e : Event) : bool := bool_decide (rq_key <$> event_request e = Some key).
Definition events_of (key : Key) (tr : list Event) : list Event := List.filter (of_key key) tr.

(** The requests in the order in which they were queued. *)
Definition enqueued (tr : list Event) : list Request := omap (λ e, match e with Enqueued r => Some r | _ => None end) tr.
Definition ended_in (tr : list Event) (r : Request) : Prop := Ended r ∈ tr ∨ Skipped r ∈ tr.
Definition conflict (r r' : Request) : Prop := rq_access r = Exclusive ∨ rq_access r' = Exclusive.

Definition serial (tr : list Event) : Prop :=
  ∀ tr1 r tr2, tr = tr1 ++ Begun r :: tr2 →
    r ∈ enqueued tr1 ∧ ∀ before after r', enqueued tr1 = before ++ r :: after → r' ∈ before → conflict r' r → ended_in tr1 r'.

Lemma enqueued_app tr tr' : enqueued (tr ++ tr') = enqueued tr ++ enqueued tr'.
Proof. apply omap_app. Qed.
Lemma events_of_app key tr tr' : events_of key (tr ++ tr') = events_of key tr ++ events_of key tr'.
Proof. apply List.filter_app. Qed.
Lemma events_of_one key e : events_of key [e] = if of_key key e then [e] else [].
Proof. done. Qed.

Lemma ended_app tr tr' r : ended_in (tr ++ tr') r ↔ ended_in tr r ∨ ended_in tr' r.
Proof. unfold ended_in. set_solver. Qed.

Lemma serial_snoc tr e : serial tr →
  (∀ r, e = Begun r → r ∈ enqueued tr ∧
     ∀ before after r', enqueued tr = before ++ r :: after → r' ∈ before → conflict r' r → ended_in tr r') →
  serial (tr ++ [e]).
Proof.
  intros Hs He tr1 r tr2 Heq. destruct tr2 as [|x tr2] using rev_ind.
  - apply app_inj_tail in Heq as [<- Hx]. by apply He.
  - rewrite app_comm_cons, (assoc_L app) in Heq. apply app_inj_tail in Heq as [-> _]. by eapply Hs.
Qed.

(** Before an element of the first part of a list come elements of that part. *)
Lemma before_in_prefix {A} (l k before after : list A) x y :
  NoDup (l ++ k) → l ++ k = before ++ x :: after → x ∈ l → y ∈ before → y ∈ l.
Proof.
  intros Hnd Heq Hx Hy. apply app_eq_inv in Heq as [(m & -> & _)|(m & -> & ->)]; [set_solver|].
  apply NoDup_app in Hnd as (_ & Hd & _). destruct (Hd x Hx). set_solver.
Qed.

(** ** The invariant of one key *)
(** What a task holds, as the trace tells it. *)
Definition not_begun (tr : list Event) (r : Request) : Prop := Begun r ∉ tr ∧ ¬ ended_in tr r.
Definition held_ok (tr : list Event) (held : list (Request * bool)) : Prop :=
  NoDup held.*1 ∧ ∀ r b, (r, b) ∈ held → ¬ ended_in tr r ∧ (b = true ↔ Begun r ∈ tr).

Definition batch_ok (tr : list Event) (pc : DrainPc) (batch : list Request) : Prop :=
  match pc with
  | LoopHead => batch = []
  | RunningExclusive held => held_ok tr held ∧ ∃ r b, held = [(r, b)] ∧ batch = [r] ∧ rq_access r = Exclusive
  | RunningReads _ held =>
      held_ok tr held ∧ held ≠ [] ∧ Forall (λ r, rq_access r = SharedRead) batch ∧ held.*1 ⊆ batch ∧
      ∀ r, r ∈ batch → ended_in tr r ∨ r ∈ held.*1
  end.

Definition trace_ok (tr : list Event) : Prop :=
  NoDup (enqueued tr) ∧ serial tr ∧ (∀ r, Begun r ∈ tr ∨ ended_in tr r → r ∈ enqueued tr) ∧ NoDup tr.

Definition key_ok (qs : gmap Key RequestSerializationQueue) (ds : gmap N Drain) (key : Key) (tr : list Event) : Prop :=
  trace_ok tr ∧
  match qs !! key with
  | None => (∀ i d, ds !! i = Some d → drain_key d ≠ key) ∧ Forall (ended_in tr) (enqueued tr)
  | Some q =>
      ∃ i pc past batch,
        ds !! i = Some (mkDrain key pc) ∧ (∀ j d, ds !! j = Some d → drain_key d = key → j = i) ∧
        enqueued tr = past ++ batch ++ requests q ∧ Forall (ended_in tr) past ∧ Forall (not_begun tr) (requests q) ∧
        batch_ok tr pc batch
  end.

Record inv (st : Sys) : Prop := mkInv {
  inv_keys key : key_ok (queues st) (drains st) key (events_of key (trace st));
  inv_ids r : Enqueued r ∈ trace st → (rq_id r < next_request st)%N;
  inv_drains i d : drains st !! i = Some d → (i < next_drain st)%N
}.

(** Keys that a step does not concern. *)
Lemma key_ok_frame qs qs' ds ds' key tr : key_ok qs ds key tr → qs' !! key = qs !! key →
  (∀ i d, drain_key d = key → ds' !! i = Some d ↔ ds !! i = Some d) → key_ok qs' ds' key tr.
Proof.
  intros [Ht H] Hq Hd. split; [done|]. rewrite Hq. destruct (qs !! key) as [q|].
  - destruct H as (i & pc & past & batch & H1 & H2 & H3). exists i, pc, past, batch. split; [by apply Hd|]. split; [|done].
    intros j d Hj Hk. by apply (H2 j d); [apply Hd|].
  - destruct H as [H1 H2]. split; [|done]. intros i d Hi Hk. by apply (H1 i d); [apply Hd|].
Qed.

(** The task of a key, and what is known of it. *)
Lemma key_ok_drain qs ds i key pc tr : key_ok qs ds key tr → ds !! i = Some (mkDrain key pc) →
  ∃ q past batch, qs !! key = Some q ∧ (∀ j d, ds !! j = Some d → drain_key d = key → j = i) ∧
    enqueued tr = past ++ batch ++ requests q ∧ Forall (ended_in tr) past ∧ Forall (not_begun tr) (requests q) ∧ batch_ok tr pc batch.
Proof.
  intros [_ H] Hi. destruct (qs !! key) as [q|]; [|by destruct (proj1 H i _ Hi)].
  destruct H as (j & pc' & past & batch & H1 & H2 & H3 & H4 & H5 & H6). assert (i = j) as -> by (by eapply H2).
  assert (pc' = pc) as -> by congruence. exists q, past, batch. done.
Qed.

Lemma inv_step st st' k0 : inv st →
  (∀ key, key ≠ k0 → queues st' !! key = queues st !! key) →
  (∀ i d, drain_key d ≠ k0 → drains st' !! i = Some d ↔ drains st !! i = Some d) →
  (∀ key, key ≠ k0 → events_of key (trace st') = events_of key (trace st)) →
  key_ok (queues st') (drains st') k0 (events_of k0 (trace st')) →
  (∀ r, Enqueued r ∈ trace st' → (rq_id r < next_request st')%N) →
  (∀ i d, drains st' !! i = Some d → (i < next_drain st')%N) → inv st'.
Proof.
  intros H Hq Hd Ht Hk Hi Hn. split; [|done..]. intros key. destruct (decide (key = k0)) as [->|Hne]; [done|].
  rewrite Ht by done. apply (key_ok_frame (queues st) _ (drains st)); [apply H|by apply Hq|]. intros i d Hdk. apply Hd. congruence.
Qed.

(** A task changes its own entry only. *)
Lemma insert_drain_frame (ds : gmap N Drain) i k0 pc pc' j d : ds !! i = Some (mkDrain k0 pc) → drain_key d ≠ k0 →
  <[i := mkDrain k0 pc']> ds !! j = Some d ↔ ds !! j = Some d.
Proof.
  intros Hi Hne. destruct (decide (j = i)) as [->|Hj]; [|by rewrite lookup_insert_ne].
  rewrite lookup_insert_eq, Hi. split; intros [= <-]; by destruct Hne.
Qed.
Lemma delete_drain_frame (ds : gmap N Drain) i k0 pc j d : ds !! i = Some (mkDrain k0 pc) → drain_key d ≠ k0 →
  delete i ds !! j = Some d ↔ ds !! j = Some d.
Proof.
  intros Hi Hne. destruct (decide (j = i)) as [->|Hj]; [|by rewrite lookup_delete_ne].
  rewrite lookup_delete_eq, Hi. split; [done|]. intros [= <-]. by destruct Hne.
Qed.

Lemma insert_drain_bound (ds : gmap N Drain) n i d : (∀ j d, ds !! j = Some d → (j < n)%N) → is_Some (ds !! i) →
  ∀ j d', <[i := d]> ds !! j = Some d' → (j < n)%N.
Proof. intros H [d0 Hi] j d' [[<- _]|[_ ?]]%lookup_insert_Some; eauto. Qed.

(** Uniqueness of the task of a key. *)
Lemma insert_drain_unique (ds : gmap N Drain) i key pc : (∀ j d, ds !! j = Some d → drain_key d = key → j = i) →
  ∀ j d, <[i := mkDrain key pc]> ds !! j = Some d → drain_key d = key → j = i.
Proof. intros H j d [[-> _]|[_ Hj]]%lookup_insert_Some Hk; [done|by eapply H]. Qed.

(** Events of one request do not show under other keys. *)
Lemma events_other key tr e r : event_request e = Some r → rq_key r ≠ key → events_of key (tr ++ [e]) = events_of key tr.
Proof.
  intros He Hk. rewrite events_of_app, events_of_one. unfold of_key. rewrite He. cbn.
  rewrite bool_decide_eq_false_2 by congruence. apply app_nil_r.
Qed.
Lemma events_own tr e r : event_request e = Some r → events_of (rq_key r) (tr ++ [e]) = events_of (rq_key r) tr ++ [e].
Proof. intros He. rewrite events_of_app, events_of_one. unfold of_key. rewrite He. by rewrite bool_decide_eq_true_2. Qed.

Lemma elem_events e key tr : e ∈ events_of key tr ↔ e ∈ tr ∧ rq_key <$> event_request e = Some key.
Proof. unfold events_of. rewrite elem_of_filterb. unfold of_key. by rewrite bool_decide_eq_true. Qed.

Lemma elem_enqueued r tr : r ∈ enqueued tr ↔ Enqueued r ∈ tr.
Proof.
  unfold enqueued. rewrite list_elem_of_omap. split; [intros ([] & ? & ?); simplify_eq; done|]. intros H. by exists (Enqueued r).
Qed.

(** *** Queueing *)
Lemma nodup_snoc (tr : list Event) e : NoDup tr → e ∉ tr → NoDup (tr ++ [e]).
Proof. intros Hn He. apply NoDup_app. split_and!; [done|set_solver|apply NoDup_singleton]. Qed.

Lemma not_begun_fresh tr r : trace_ok tr → r ∉ enqueued tr → not_begun (tr ++ [Enqueued r]) r.
Proof. intros (_ & _ & H & _) Hr. split; [|unfold ended_in]; intros Hin; apply Hr, H; unfold ended_in; set_solver. Qed.

Lemma trace_ok_enqueue tr r : trace_ok tr → r ∉ enqueued tr → trace_ok (tr ++ [Enqueued r]).
Proof.
  intros (H1 & H2 & H3 & H4) Hr. unfold trace_ok. rewrite enqueued_app. split_and!.
  - apply NoDup_app. split_and!; [done|set_solver|]. cbn. apply NoDup_singleton.
  - by apply serial_snoc.
  - intros r' Hr'. assert (Begun r' ∈ tr ∨ ended_in tr r') as Hin%H3 by (unfold ended_in in *; set_solver). set_solver.
  - apply nodup_snoc; [done|]. by rewrite <-elem_enqueued.
Qed.

Lemma ended_enqueue tr r r' : ended_in tr r → ended_in (tr ++ [Enqueued r']) r.
Proof. unfold ended_in. set_solver. Qed.
Lemma not_begun_enqueue tr r r' : not_begun tr r → not_begun (tr ++ [Enqueued r']) r.
Proof. unfold not_begun, ended_in. set_solver. Qed.

Lemma held_ok_enqueue tr r held : held_ok tr held → held_ok (tr ++ [Enqueued r]) held.
Proof.
  intros [H1 H2]. split; [done|]. intros r' b Hin. destruct (H2 r' b Hin) as [He Hb]. split.
  - unfold ended_in in *. set_solver.
  - rewrite Hb. set_solver.
Qed.
Lemma batch_ok_enqueue tr r pc batch : batch_ok tr pc batch → batch_ok (tr ++ [Enqueued r]) pc batch.
Proof.
  destruct pc as [|held|woken held]; cbn [batch_ok]; [done| |].
  - intros [H ?]. split; [by apply held_ok_enqueue|done].
  - intros (H1 & H2 & H3 & H4 & H5). split_and!; [by apply held_ok_enqueue|done..|]. intros r' Hr'.
    destruct (H5 r' Hr'); [left; by apply ended_enqueue|by right].
Qed.

Lemma enqueue_inv key access gate st : inv st → inv (enqueue key access gate st).
Proof.
  intros H. set (r := mkRequest (next_request st) key access gate).
  assert (rq_key r = key) as Hrk by done. destruct (inv_keys st H key) as [Htr Hkey].
  assert (r ∉ enqueued (events_of key (trace st))) as Hr.
  { rewrite elem_enqueued, elem_events. intros [Hin _]. pose proof (inv_ids st H r Hin). cbn in *. lia. }
  assert (∀ r', Enqueued r' ∈ trace st ++ [Enqueued r] → (rq_id r' < next_request st + 1)%N) as Hids.
  { intros r' [Hin|Hin]%elem_of_app; [pose proof (inv_ids st H r' Hin); lia|]. apply list_elem_of_singleton in Hin as [= ->]. cbn. lia. }
  pose proof (events_own (trace st) (Enqueued r) r eq_refl
    : events_of key (trace st ++ [Enqueued r]) = events_of key (trace st) ++ [Enqueued r]) as Hev.
  unfold enqueue. fold r. destruct (queues st !! key) as [q|] eqn:Hq; apply (inv_step st _ key H); cbn [queues drains trace next_request next_drain];
    try done; try (intros k Hk; by rewrite lookup_insert_ne by done); try (intros k Hk; by apply (events_other _ _ _ r)).
  - rewrite Hev. split; [by apply trace_ok_enqueue|]. rewrite lookup_insert_eq.
    destruct Hkey as (i & pc & past & batch & H1 & H2 & H3 & H4 & H5 & H6). exists i, pc, past, batch. cbn [requests]. split_and!; [done..| | | |].
    + rewrite enqueued_app, H3, <-!(assoc_L app). done.
    + eapply Forall_impl; [exact H4|]. intros. by apply ended_enqueue.
    + apply Forall_app. split; [eapply Forall_impl; [exact H5|]; intros; by apply not_begun_enqueue|].
      apply Forall_singleton. by apply not_begun_fresh.
    + by apply batch_ok_enqueue.
  - apply (inv_drains st H).
  - intros i d Hd. destruct (decide (i = next_drain st)) as [->|Hi]; [|by rewrite lookup_insert_ne].
    rewrite lookup_insert_eq. split; [by intros [= <-]|]. intros Hin%(inv_drains st H). lia.
  - rewrite Hev. split; [by apply trace_ok_enqueue|]. rewrite lookup_insert_eq.
    destruct Hkey as [H1 H2]. exists (next_drain st), LoopHead, (enqueued (events_of key (trace st))), []. cbn [requests app].
    split_and!; [by rewrite lookup_insert_eq| | | | |done].
    + intros j d [[<- _]|[_ Hj]]%lookup_insert_Some Hk; [done|]. by destruct (H1 j d Hj).
    + by rewrite enqueued_app.
    + eapply Forall_impl; [exact H2|]. intros. by apply ended_enqueue.
    + apply Forall_singleton. by apply not_begun_fresh.
  - intros i d [[<- _]|[_ Hi]]%lookup_insert_Some; [lia|]. pose proof (inv_drains st H i d Hi). lia.
Qed.

(** *** Draining *)
Lemma key_ok_intro qs ds key tr q i pc past batch : trace_ok tr → qs !! key = Some q → 
  (∀ j d, ds !! j = Some d → drain_key d = key → j = i) →
  enqueued tr = past ++ batch ++ requests q → Forall (ended_in tr) past → Forall (not_begun tr) (requests q) → batch_ok tr pc batch →
  key_ok qs (<[i := mkDrain key pc]> ds) key tr.
Proof.
  intros Ht Hq Hu He Hp Hr Hb. split; [done|]. rewrite Hq. exists i, pc, past, batch. split_and!; try done.
  - apply lookup_insert_eq.
  - by apply insert_drain_unique.
Qed.

(** A task that holds its own key keeps the rest of the invariant. *)
Lemma drain_step st i key pc pc' qs' evs : inv st → drains st !! i = Some (mkDrain key pc) →
  (∀ k, k ≠ key → qs' !! k = queues st !! k) → (∀ k, k ≠ key → events_of k evs = []) → enqueued evs = [] →
  key_ok qs' (<[i := mkDrain key pc']> (drains st)) key (events_of key (trace st ++ evs)) →
  inv (mkQueues qs' (<[i := mkDrain key pc']> (drains st)) (next_drain st) (next_request st) (closed_gates st) (trace st ++ evs)).
Proof.
  intros H Hi Hq Hev Hen Hk. apply (inv_step st _ key H); cbn [queues drains trace next_request next_drain]; try done.
  - intros j d. by apply (insert_drain_frame _ _ _ pc).
  - intros k Hne. by rewrite events_of_app, Hev, app_nil_r.
  - intros r [Hr|Hr]%elem_of_app; [by apply (inv_ids st H)|]. apply elem_enqueued in Hr. rewrite Hen in Hr. set_solver.
  - apply insert_drain_bound; [apply (inv_drains st H)|eauto].
Qed.

Lemma split_reads_spec rs reads rest : split_reads rs = (reads, rest) →
  rs = reads ++ rest ∧ Forall (λ r, rq_access r = SharedRead) reads ∧ match rest with r :: _ => rq_access r = Exclusive | [] => True end.
Proof.
  revert reads rest. induction rs as [|r rs IH]; intros reads rest; cbn [split_reads]; [by intros [= <- <-]|].
  destruct (rq_access r) eqn:E; [by intros [= <- <-]|]. destruct (split_reads rs) as [reads' rest']. intros [= <- <-].
  destruct (IH _ _ eq_refl) as (-> & H & H'). split_and!; [done|by constructor|done].
Qed.

Lemma waiting_fst rs : (waiting rs).*1 = rs.
Proof. unfold waiting. rewrite <-list_fmap_compose. apply list_fmap_id. Qed.

(** Requests fresh from the queue are held as waiting. *)
Lemma held_ok_waiting tr rs : NoDup rs → Forall (not_begun tr) rs → held_ok tr (waiting rs).
Proof.
  intros Hn Hf. split; [by rewrite waiting_fst|]. intros r b (r' & [= -> ->] & Hin)%list_elem_of_fmap.
  rewrite Forall_forall in Hf. destruct (Hf r' Hin) as [H1 H2]. split; [done|]. split; [done|]. intros ?. by destruct H1.
Qed.

Lemma trace_ok_nodup tr past batch q : trace_ok tr → enqueued tr = past ++ batch ++ q → NoDup (batch ++ q).
Proof. intros [Hn _] He. rewrite He in Hn. apply NoDup_app in Hn. tauto. Qed.

Lemma drain_next_inv i st st' : inv st → drain_next i st = Some st' → inv st'.
Proof.
  intros H. unfold drain_next. destruct (drains st !! i) as [[key [| |]]|] eqn:Hi; try done. intros [= <-].
  pose proof (inv_keys st H key) as Hk. destruct (key_ok_drain _ _ _ _ _ _ Hk Hi) as (q & past & batch & Hq & Hu & He & Hp & Hn & Hb).
  cbn [batch_ok] in Hb. subst batch. rewrite Hq. destruct Hk as [Htr _]. pose proof (trace_ok_nodup _ _ _ _ Htr He) as Hnd. cbn [app] in *.
  destruct (requests q) as [|r rest] eqn:Hr.
  - apply (inv_step st _ key H); cbn [end_drain queues drains trace next_request next_drain].
    + intros k Hne. by rewrite lookup_delete_ne.
    + intros j d. by apply (delete_drain_frame _ _ _ LoopHead).
    + done.
    + split; [done|]. rewrite lookup_delete_eq. split; [|by rewrite He, app_nil_r].
      intros j d [Hne Hj]%lookup_delete_Some Hdk. by destruct Hne; symmetry; eapply Hu.
    + apply (inv_ids st H).
    + intros j d [_ Hj]%lookup_delete_Some. by apply (inv_drains st H j d).
  - apply Forall_cons in Hn as [Hnr Hn]. rewrite <-(app_nil_r (trace st)) in *.
    destruct (rq_access r) eqn:Ha; [|destruct (split_reads rest) as [reads rest'] eqn:Hs];
      unfold set_drain; rewrite <-(app_nil_r (trace st)); apply (drain_step st i key LoopHead _ _ [] H Hi); try done;
      try (intros k Hne; by rewrite lookup_insert_ne); rewrite app_nil_r in *.
    + eapply (key_ok_intro _ _ _ _ (mkQueue rest (changed q)) _ _ past [r]); try done; [by rewrite lookup_insert_eq|].
      split; [apply (held_ok_waiting _ [r]); [apply NoDup_singleton|by apply Forall_singleton]|]. by exists r, false.
    + destruct (split_reads_spec _ _ _ Hs) as (-> & Hreads & _). apply Forall_app in Hn as [Hn1 Hn2].
      eapply (key_ok_intro _ _ _ _ (mkQueue rest' (changed q)) _ (RunningReads false (waiting (r :: reads))) past (r :: reads)); try done;
        [by rewrite lookup_insert_eq|].
      unfold batch_ok.
      split_and!; [|done|by constructor|by rewrite waiting_fst|rewrite waiting_fst; by right].
      apply held_ok_waiting; [|by constructor]. rewrite app_comm_cons in Hnd. apply NoDup_app in Hnd. tauto.
Qed.

Lemma drain_notified_inv i st st' : inv st → drain_notified i st = Some st' → inv st'.
Proof.
  intros H. unfold drain_notified. destruct (drains st !! i) as [[key [| |[] held]]|] eqn:Hi; try done.
  pose proof (inv_keys st H key) as Hk. destruct (key_ok_drain _ _ _ _ _ _ Hk Hi) as (q & past & batch & Hq & Hu & He & Hp & Hn & Hb).
  rewrite Hq. destruct (changed q); [|done]. intros [= <-]. destruct Hk as [Htr _].
  unfold set_drain. rewrite <-(app_nil_r (trace st)). apply (drain_step st i key (RunningReads false held) _ _ [] H Hi); try done.
  { intros k Hne. by rewrite lookup_insert_ne. }
  rewrite app_nil_r. eapply (key_ok_intro _ _ _ _ (mkQueue (requests q) false) _ _ past batch); try done. by rewrite lookup_insert_eq.
Qed.

Lemma drain_join_inv i st st' : inv st → drain_join i st = Some st' → inv st'.
Proof.
  intros H. unfold drain_join. destruct (drains st !! i) as [[key [| |[] held]]|] eqn:Hi; try done.
  pose proof (inv_keys st H key) as Hk. destruct (key_ok_drain _ _ _ _ _ _ Hk Hi) as (q & past & batch & Hq & Hu & He & Hp & Hn & Hb).
  rewrite Hq. destruct (split_reads (requests q)) as [reads rest] eqn:Hs. intros [= <-].
  destruct (split_reads_spec _ _ _ Hs) as (Hr & Hreads & _). rewrite Hr in *. destruct Hk as [Htr _].
  unfold set_drain. rewrite <-(app_nil_r (trace st)). apply (drain_step st i key (RunningReads true held) _ _ [] H Hi); try done.
  { intros k Hne. by rewrite lookup_insert_ne. }
  rewrite app_nil_r. apply Forall_app in Hn as [Hn1 Hn2].
  eapply (key_ok_intro _ _ _ _ (mkQueue rest (changed q)) _ _ past (batch ++ reads)); try done.
  - by rewrite lookup_insert_eq.
  - cbn [requests]. by rewrite He, <-(assoc_L app).
  - pose proof (trace_ok_nodup _ _ _ _ Htr He) as Hnd. destruct Hb as ([Hh1 Hh2] & Hh3 & Hh4 & Hh5 & Hh6).
    apply NoDup_app in Hnd as (_ & Hdis & Hnd). apply NoDup_app in Hnd as (Hndr & _ & _).
    destruct (held_ok_waiting _ reads Hndr Hn1) as [Hw1 Hw2].
    split_and!; [split| | | |].
    + rewrite fmap_app. apply NoDup_app. split_and!; [done| |done]. rewrite waiting_fst. set_solver.
    + intros r b [Hin|Hin]%elem_of_app; [by apply Hh2|by apply Hw2].
    + by destruct held.
    + by apply Forall_app.
    + rewrite fmap_app, waiting_fst. set_solver.
    + intros r [Hin|Hin]%elem_of_app; rewrite fmap_app, waiting_fst; [destruct (Hh6 r Hin); set_solver|set_solver].
Qed.

(** *** Running *)
Lemma held_member tr pc batch r b : batch_ok tr pc batch → (r, b) ∈ held_requests pc →
  (r, b) ∈ all_held pc ∧ r ∈ batch ∧ held_ok tr (all_held pc) ∧ ∀ r', r' ∈ batch → r' ≠ r → ¬ conflict r' r.
Proof.
  destruct pc as [|held|woken held]; cbn [held_requests all_held batch_ok]; [set_solver| |].
  - intros (Hh & r0 & b0 & -> & -> & _) Hin. cbn in Hin. apply list_elem_of_singleton in Hin as [= -> ->]. split_and!; [set_solver..|done|set_solver].
  - destruct woken; [set_solver|]. intros (Hh & _ & Ha & Hs & _) Hin. assert (r ∈ batch) as Hr by (apply Hs, list_elem_of_fmap; by exists (r, b)).
    split_and!; try done. intros r' Hr' _. rewrite Forall_forall in Ha. intros [E|E]; rewrite Ha in E; done.
Qed.

Lemma enqueued_key key tr r : r ∈ enqueued (events_of key tr) → rq_key r = key.
Proof. rewrite elem_enqueued, elem_events. cbn. intros [_ [= H]]. done. Qed.

Lemma elem_mark_begun r held r' b' : (r', b') ∈ mark_begun r held ↔ (r' = r ∧ b' = true ∧ ∃ b, (r, b) ∈ held) ∨ (r' ≠ r ∧ (r', b') ∈ held).
Proof.
  unfold mark_begun. rewrite list_elem_of_fmap. split.
  - intros ([x y] & E & Hin). cbn in E. case_bool_decide as Hx; [injection E as -> ->; subst; left; eauto|]. injection E as -> ->. by right.
  - intros [(-> & -> & b & Hin)|[Hne Hin]]; [exists (r, b)|exists (r', b')]; cbn; (split; [|done]); by case_bool_decide.
Qed.
Lemma mark_begun_fst r held : (mark_begun r held).*1 = held.*1.
Proof.
  unfold mark_begun. rewrite <-list_fmap_compose. apply list_fmap_ext. intros i [x y] _. cbn. case_bool_decide; [by subst|done].
Qed.
Lemma elem_drop_request r held r' b' : (r', b') ∈ drop_request r held ↔ r' ≠ r ∧ (r', b') ∈ held.
Proof. unfold drop_request. rewrite elem_of_filterb. cbn. rewrite negb_true_iff, bool_decide_eq_false. tauto. Qed.

Lemma drop_request_nodup r held : NoDup held.*1 → NoDup (drop_request r held).*1.
Proof.
  induction held as [|[x y] held IH]; [done|]. cbn. intros [Hx Hn]%NoDup_cons. destruct (negb _); [|by apply IH]. cbn. constructor; [|by apply IH].
  intros ([x' y'] & -> & Hin)%list_elem_of_fmap. apply elem_drop_request in Hin as [_ Hin]. destruct Hx. apply list_elem_of_fmap. by exists (x', y').
Qed.

Lemma with_held_some pc held : held ≠ [] → pc ≠ LoopHead → with_held pc held =
  match pc with LoopHead => LoopHead | RunningExclusive _ => RunningExclusive held | RunningReads woken _ => RunningReads woken held end.
Proof. intros Hh Hp. destruct pc, held; done. Qed.

(** Beginning a request that its task holds. *)
Lemma begin_batch tr pc batch r : batch_ok tr pc batch → (r, false) ∈ held_requests pc →
  batch_ok (tr ++ [Begun r]) (with_held pc (mark_begun r (all_held pc))) batch.
Proof.
  intros Hb Hin. destruct (held_member _ _ _ _ _ Hb Hin) as (Hin' & _ & [Hn Hh] & _).
  assert (∀ x, ended_in (tr ++ [Begun r]) x ↔ ended_in tr x) as He by (intros x; unfold ended_in; set_solver).
  assert (held_ok (tr ++ [Begun r]) (mark_begun r (all_held pc))) as Hh'.
  { split; [by rewrite mark_begun_fst|]. intros x b. rewrite elem_mark_begun, He. intros [(-> & -> & b0 & Hx)|[Hne Hx]].
    - split; [by apply (Hh r b0)|]. set_solver.
    - destruct (Hh x b Hx) as [H1 H2]. split; [done|]. rewrite H2. set_solver. }
  destruct pc as [|held|woken held]; cbn [all_held held_requests] in *; [set_solver| |].
  - destruct Hb as (_ & r0 & b0 & -> & -> & Ha). cbn in Hin. apply list_elem_of_singleton in Hin as [= <- <-]. cbn in Hh' |- *.
    rewrite bool_decide_eq_true_2 in Hh' by done. rewrite bool_decide_eq_true_2 by done. cbn. split; [done|]. by exists r, true.
  - destruct Hb as (_ & Hne & Ha & Hs & Hall). rewrite with_held_some; [|by destruct held|done]. cbn [batch_ok].
    rewrite mark_begun_fst. split_and!; try done; [by destruct held|]. intros x Hx. rewrite He. by apply Hall.
Qed.

(** Ending or skipping it: either more are held, or the batch is over. *)
Lemma end_batch tr pc batch r b e : batch_ok tr pc batch → (r, b) ∈ held_requests pc → e = Ended r ∨ e = Skipped r →
  let pc' := with_held pc (drop_request r (all_held pc)) in
  batch_ok (tr ++ [e]) pc' batch ∨ (pc' = LoopHead ∧ Forall (ended_in (tr ++ [e])) batch).
Proof.
  intros Hb Hin He. destruct (held_member _ _ _ _ _ Hb Hin) as (Hin' & _ & [Hn Hh] & _).
  assert (∀ x, ended_in (tr ++ [e]) x ↔ x = r ∨ ended_in tr x) as Hend.
  { intros x. unfold ended_in. destruct He as [-> | ->]; set_solver. }
  destruct pc as [|held|woken held]; cbn [all_held held_requests] in *; [set_solver| |]; cbv zeta.
  - destruct Hb as (_ & r0 & b0 & -> & -> & Ha). cbn in Hin. apply list_elem_of_singleton in Hin as [= <- <-]. right. cbn.
    rewrite bool_decide_eq_true_2 by done. cbn. split; [done|]. apply Forall_singleton, Hend. by left.
  - destruct Hb as (_ & Hne & Ha & Hs & Hall). destruct (drop_request r held) as [|h held'] eqn:Hd; [right|left].
    + split; [done|]. apply Forall_forall. intros x Hx. apply Hend. destruct (Hall x Hx) as [?|Hxh]; [by right|].
      apply list_elem_of_fmap in Hxh as ([y c] & -> & Hyc). destruct (decide (y = r)) as [->|Hyr]; [by left|].
      assert ((y, c) ∈ drop_request r held) as Hy by (by apply elem_drop_request). rewrite Hd in Hy. set_solver.
    + cbn [with_held is_empty batch_ok]. rewrite <-Hd. split_and!; [split| | | |].
      * by apply drop_request_nodup.
      * intros x c [Hxr Hx]%elem_drop_request. destruct (Hh x c Hx) as [H1 H2]. rewrite Hend. split; [naive_solver|]. rewrite H2.
        destruct He as [-> | ->]; set_solver.
      * by rewrite Hd.
      * done.
      * intros x ([y c] & -> & [_ Hy]%elem_drop_request)%list_elem_of_fmap. apply Hs, list_elem_of_fmap. by exists (y, c).
      * intros x Hx. rewrite Hend. destruct (Hall x Hx) as [?|([y c] & -> & Hyc)%list_elem_of_fmap]; [by left; right|].
        destruct (decide (y = r)) as [->|Hyr]; [by left; left|]. right. apply list_elem_of_fmap. exists (y, c). split; [done|].
        by apply elem_drop_request.
Qed.

(** The events of a held request belong to the key of its task. *)
Lemma held_events st i key pc r b e : inv st → drains st !! i = Some (mkDrain key pc) → (r, b) ∈ held_requests pc →
  event_request e = Some r →
  events_of key (trace st ++ [e]) = events_of key (trace st) ++ [e] ∧ ∀ k, k ≠ key → events_of k [e] = [].
Proof.
  intros H Hi Hin He. pose proof (inv_keys st H key) as Hk.
  destruct (key_ok_drain _ _ _ _ _ _ Hk Hi) as (q & past & batch & _ & _ & Henq & _ & _ & Hb).
  destruct (held_member _ _ _ _ _ Hb Hin) as (_ & Hr & _). assert (rq_key r = key) as <-.
  { apply (enqueued_key key (trace st)). rewrite Henq. set_solver. }
  split; [by apply events_own|]. intros k Hk'. rewrite events_of_one. unfold of_key. rewrite He. cbn.
  by rewrite bool_decide_eq_false_2 by congruence.
Qed.

(** A held request is not in the queue any more, and its end does not disturb the queue. *)
Lemma end_request_inv i key pc r b e st : inv st → drains st !! i = Some (mkDrain key pc) → (r, b) ∈ held_requests pc →
  e = Ended r ∨ e = Skipped r →
  inv (record_event e (set_drain i (mkDrain key (with_held pc (drop_request r (all_held pc)))) (queues st) st)).
Proof.
  intros H Hi Hin Hre. pose proof (inv_keys st H key) as Hk.
  destruct (key_ok_drain _ _ _ _ _ _ Hk Hi) as (q & past & batch & Hq & Hu & He & Hp & Hn & Hb).
  destruct Hk as [(Hnd & Hser & Hen & Hnt) _]. set (tr := events_of key (trace st)) in *.
  destruct (held_member _ _ _ _ _ Hb Hin) as (Hin' & Hr & Hh & Hcf).
  assert (r ∉ requests q) as Hrq.
  { rewrite He in Hnd. apply NoDup_app in Hnd as (_ & _ & Hnd). apply NoDup_app in Hnd as (_ & Hd & _). by apply Hd. }
  assert (r ∈ enqueued tr) as Hren by (rewrite He; set_solver).
  destruct (held_events st i key pc r b e H Hi Hin) as [Hev Hev']; [by destruct Hre as [-> | ->]|].
  assert (enqueued [e] = []) as Hee by (by destruct Hre as [-> | ->]).
  assert (∀ x, ended_in (tr ++ [e]) x ↔ x = r ∨ ended_in tr x) as Hend by (intros x; unfold ended_in; destruct Hre as [-> | ->]; set_solver).
  assert (∀ x, Begun x ∈ tr ++ [e] ↔ Begun x ∈ tr) as Hbeg by (intros x; destruct Hre as [-> | ->]; set_solver).
  assert (trace_ok (tr ++ [e])) as Htr.
  { unfold trace_ok. rewrite enqueued_app, Hee, app_nil_r. split_and!; [done| | |].
    - apply serial_snoc; [done|]. intros r0 ->. by destruct Hre.
    - intros x. rewrite Hend, Hbeg. intros [?|[->|?]]; [apply Hen; by left|done|apply Hen; by right].
    - apply nodup_snoc; [done|]. destruct Hh as [_ Hh], (Hh r b Hin') as [Hne _]. unfold ended_in in Hne. destruct Hre as [-> | ->]; tauto. }
  assert (Forall (ended_in (tr ++ [e])) past) as Hp' by (eapply Forall_impl; [exact Hp|]; intros x Hx; apply Hend; by right).
  assert (Forall (not_begun (tr ++ [e])) (requests q)) as Hn'.
  { rewrite Forall_forall in *. intros x Hx. destruct (Hn x Hx) as [H1 H2]. split; [by rewrite Hbeg|]. rewrite Hend. intros [->|?]; done. }
  apply (drain_step st i key pc _ _ [e] H Hi); try done. rewrite Hev. fold tr.
  destruct (end_batch tr pc batch r b e Hb Hin Hre) as [Hb'|[Hpc Hall]].
  - apply (key_ok_intro _ _ _ _ q _ _ past batch); try done. by rewrite enqueued_app, Hee, app_nil_r.
  - rewrite Hpc. apply (key_ok_intro _ _ _ _ q _ _ (past ++ batch) []); try done.
    + by rewrite enqueued_app, Hee, app_nil_r, He, <-(assoc_L app).
    + by apply Forall_app.
Qed.

Lemma run_request_inv i r st st' : inv st → run_request i r st = Some st' → inv st'.
Proof.
  intros H. unfold run_request. destruct (drains st !! i) as [[key pc]|] eqn:Hi; [|done].
  case_bool_decide as Hin; [|done]. intros [= <-]. pose proof (inv_keys st H key) as Hk.
  destruct (key_ok_drain _ _ _ _ _ _ Hk Hi) as (q & past & batch & Hq & Hu & He & Hp & Hn & Hb).
  destruct Hk as [(Hnd & Hser & Hen & Hnt) _]. set (tr := events_of key (trace st)) in *.
  destruct (held_member _ _ _ _ _ Hb Hin) as (Hin' & Hr & Hh & Hcf).
  assert (r ∉ requests q) as Hrq by (rewrite He in Hnd; apply NoDup_app in Hnd as (_ & _ & Hnd); apply NoDup_app in Hnd as (_ & Hd & _); by apply Hd).
  assert (r ∈ enqueued tr) as Hren by (rewrite He; set_solver).
  destruct (gate_open st r).
  - destruct (held_events st i key pc r false (Begun r) H Hi Hin eq_refl) as [Hev Hev'].
    apply (drain_step st i key pc _ _ [Begun r] H Hi); try done. rewrite Hev. fold tr.
    apply (key_ok_intro _ _ _ _ q _ _ past batch); try done.
    + unfold trace_ok. rewrite enqueued_app. cbn. rewrite app_nil_r. split_and!; [done| | |].
      * apply serial_snoc; [done|]. intros r0 [= <-]. split; [done|]. intros before after r' Hbe Hr' Hc. rewrite He in Hbe.
        assert (r' ∈ past ++ batch) as Hpb.
        { apply (before_in_prefix (past ++ batch) (requests q) before after r); [|by rewrite <-(assoc_L app)|set_solver|done].
          rewrite <-(assoc_L app), <-He. done. }
        apply elem_of_app in Hpb as [Hpa|Hba]; [by rewrite Forall_forall in Hp; apply Hp|].
        destruct (Hcf r' Hba); [|done]. intros ->. rewrite He, Hbe in Hnd. apply NoDup_app in Hnd as (_ & Hd & _). destruct (Hd r Hr'). set_solver.
      * intros r' Hr'. destruct (decide (r' = r)) as [->|Hne]; [done|]. apply Hen. unfold ended_in in *. set_solver.
      * apply nodup_snoc; [done|]. destruct Hh as [_ Hh], (Hh r false Hin') as [_ Hbe]. by rewrite <-Hbe.
    + rewrite enqueued_app. cbn. by rewrite app_nil_r.
    + eapply Forall_impl; [exact Hp|]. intros x. rewrite ended_app. by left.
    + rewrite Forall_forall in *. intros x Hx. destruct (Hn x Hx) as [H1 H2]. unfold not_begun, ended_in in *. set_solver.
    + by apply begin_batch.
  - apply (end_request_inv _ _ _ _ false); auto.
Qed.

Lemma finish_request_inv i r st st' : inv st → finish_request i r st = Some st' → inv st'.
Proof.
  intros H. unfold finish_request. destruct (drains st !! i) as [[key pc]|] eqn:Hi; [|done].
  case_bool_decide as Hin; [|done]. intros [= <-]. apply (end_request_inv _ _ _ _ true); auto.
Qed.

Lemma close_inv g st : inv st → inv (close_gate g st).
Proof.
  intros [H1 H2 H3]. split; cbn [close_gate queues drains trace next_request next_drain].
  - intros key. rewrite events_of_app. cbn. rewrite app_nil_r. apply H1.
  - intros r [Hr|Hr]%elem_of_app; [by apply H2|]. set_solver.
  - done.
Qed.

Lemma reachable_inv st : reachable st → inv st.
Proof.
  induction 1 as [|a st st' _ IH Ha].
  - split; cbn; [|set_solver..]. intros key. split; [|by rewrite lookup_empty]. split_and!; [constructor| |unfold ended_in; set_solver|constructor].
    intros [] ? ?; done.
  - destruct a; cbn [act] in Ha; [injection Ha as <-; by apply enqueue_inv|injection Ha as <-; by apply close_inv|..];
      eauto using drain_next_inv, drain_notified_inv, drain_join_inv, run_request_inv, finish_request_inv.
Qed.

(** ** Exclusion and order *)
Definition in_flight (tr : list Event) (r : Request) : Prop := Begun r ∈ tr ∧ ¬ ended_in tr r.

Lemma events_begun key tr1 r tr2 : rq_key r = key →
  events_of key (tr1 ++ Begun r :: tr2) = events_of key tr1 ++ Begun r :: events_of key tr2.
Proof.
  intros <-. rewrite events_of_app. f_equal. cbn [events_of List.filter]. unfold of_key at 1. by rewrite bool_decide_eq_true_2.
Qed.

Lemma ended_events key tr r : ended_in (events_of key tr) r → ended_in tr r.
Proof. unfold ended_in. rewrite !elem_events. tauto. Qed.
Lemma ended_events_own tr r : ended_in tr r → ended_in (events_of (rq_key r) tr) r.
Proof. unfold ended_in. rewrite !elem_events. cbn. tauto. Qed.

(** What was queued earlier in the trace was queued earlier under its key. *)
Lemma enqueued_split a b c r' r : rq_key r' = rq_key r →
  enqueued (events_of (rq_key r) (a ++ Enqueued r' :: b ++ Enqueued r :: c)) =
  (enqueued (events_of (rq_key r) a) ++ r' :: enqueued (events_of (rq_key r) b)) ++ r :: enqueued (events_of (rq_key r) c).
Proof.
  intros Hk. assert (∀ x tr, rq_key x = rq_key r → enqueued (events_of (rq_key r) (Enqueued x :: tr)) = x :: enqueued (events_of (rq_key r) tr)) as Hc.
  { intros x tr Hx. cbn [events_of List.filter]. unfold of_key at 1. cbn [event_request fmap option_fmap option_map].
    by rewrite Hx, bool_decide_eq_true_2. }
  rewrite events_of_app, enqueued_app, (Hc r') by done. rewrite events_of_app, enqueued_app, (Hc r) by done.
  by rewrite <-(assoc_L app).
Qed.

(** Two elements of a list come in one order or the other. *)
Lemma elem_order {A} (l : list A) x y : x ∈ l → y ∈ l → x ≠ y →
  (∃ before after, l = before ++ y :: after ∧ x ∈ before) ∨ (∃ before after, l = before ++ x :: after ∧ y ∈ before).
Proof.
  intros (l1 & l2 & ->)%list_elem_of_split Hy Hne. apply elem_of_app in Hy as [Hy|[Hy|Hy]%elem_of_cons]; [right; eauto|by subst|].
  apply list_elem_of_split in Hy as (l3 & l4 & ->). left. exists (l1 ++ x :: l3), l4. split; [|set_solver].
  by rewrite <-(assoc_L app).
Qed.

Lemma flight_blocked tr r r' before after : trace_ok tr → enqueued tr = before ++ r :: after → r' ∈ before →
  in_flight tr r → in_flight tr r' → ¬ conflict r' r.
Proof.
  intros (Hnd & Hs & Hen & _) He Hr' [Hb Hne] [_ Hne'] Hc. apply list_elem_of_split in Hb as (tr1 & tr2 & ->).
  destruct (Hs tr1 r tr2 eq_refl) as [(b1 & a1 & Ho)%list_elem_of_split Hx].
  rewrite enqueued_app, Ho, <-(assoc_L app), <-app_comm_cons in He.
  assert (b1 = before) as ->.
  { rewrite enqueued_app, Ho, <-(assoc_L app), <-app_comm_cons in Hnd. rewrite He in Hnd.
    apply app_eq_inv in He as [(m & -> & Hm)|(m & -> & Hm)].
    - destruct m as [|y m]; [by rewrite app_nil_r|]. cbn in Hm. injection Hm as <- ->.
      apply NoDup_app in Hnd as (_ & _ & Hd). apply NoDup_cons in Hd as [Hd _]. set_solver.
    - destruct m as [|y m]; [by rewrite app_nil_r|]. cbn in Hm. injection Hm as <- _.
      apply NoDup_app in Hnd as (_ & Hd & _). destruct (Hd r); set_solver. }
  destruct Hne'. apply ended_app. left. by apply (Hx before a1).
Qed.

(** C15: in every run, whatever is queued and closed meanwhile and however the
    tasks interleave: a request begins only after every request of its key that
    was queued before it and conflicts with it (one of them is exclusive) has
    ended or was skipped; no request begins, ends or is skipped twice; and of two
    requests of a key that are running at the same time both are shared reads. *)
Theorem requests_are_serialized st : reachable st →
  (∀ tr1 r tr2, trace st = tr1 ++ Begun r :: tr2 → Enqueued r ∈ tr1 ∧ Begun r ∉ tr1 ++ tr2 ∧
     ∀ a b c r', tr1 = a ++ Enqueued r' :: b ++ Enqueued r :: c → rq_key r' = rq_key r → conflict r' r → ended_in tr1 r') ∧
  ∀ r r', in_flight (trace st) r → in_flight (trace st) r' → r ≠ r' → rq_key r = rq_key r' →
    rq_access r = SharedRead ∧ rq_access r' = SharedRead.
Proof.
  intros H%reachable_inv. split.
  - intros tr1 r tr2 He. destruct (inv_keys st H (rq_key r)) as [(Hnd & Hs & _ & Hnt) _].
    rewrite He, events_begun in * by done. destruct (Hs _ r _ eq_refl) as [Hr Hx]. split_and!.
    + apply elem_enqueued, elem_events in Hr. tauto.
    + apply NoDup_app in Hnt as (_ & Hd & [Hd' _]%NoDup_cons). intros [Hin|Hin]%elem_of_app.
      * destruct (Hd (Begun r)); [by apply elem_events|set_solver].
      * destruct Hd'. by apply elem_events.
    + intros a b c r' -> Hk Hc. eapply ended_events, (Hx _ _ r'); [by apply enqueued_split|set_solver|done].
  - intros r r' Hf Hf' Hne Hk. destruct (inv_keys st H (rq_key r)) as [Htr _]. set (tr := events_of (rq_key r) (trace st)) in *.
    assert (∀ x, rq_key x = rq_key r → in_flight (trace st) x → in_flight tr x ∧ x ∈ enqueued tr) as Hin.
    { intros x Hx [H1 H2]. assert (Begun x ∈ tr) by (apply elem_events; cbn; split; [done|congruence]). split.
      - split; [done|]. intros ?. by eapply H2, ended_events.
      - apply Htr. by left. }
    destruct (Hin r eq_refl Hf) as [Hr1 Hr2], (Hin r' (eq_sym Hk) Hf') as [Hr1' Hr2'].
    assert (¬ conflict r r') as Hc.
    { destruct (elem_order _ r r' Hr2 Hr2' Hne) as [(b & a & He & Hb)|(b & a & He & Hb)].
      - by apply (flight_blocked tr r' r b a).
      - intros [?|?]; apply (flight_blocked tr r r' b a); try done; [by right|by left]. }
    unfold conflict in Hc. destruct (rq_access r), (rq_access r'); tauto.
Qed.

(** ** Coming to rest *)

(** What is left to do, counted so that every step of a task takes some of it. *)
Definition held_work (h : Request * bool) : nat := if h.2 then 2 else 3.
Definition drain_work (d : Drain) : nat :=
  match drain_pc d with
  | LoopHead => 1
  | RunningExclusive held => sum_list_with held_work held
  | RunningReads woken held => sum_list_with held_work held + (if woken then 1 else 0)
  end.
Definition queue_work (q : RequestSerializationQueue) : nat := 4 * length (requests q) + (if changed q then 2 else 0).
Definition map_work {K A} `{Countable K} (f : A → nat) (m : gmap K A) : nat := sum_list_with (f ∘ snd) (map_to_list m).
Definition work (st : Sys) : nat := map_work queue_work (queues st) + map_work drain_work (drains st).

Lemma sum_list_perm {A} (f : A → nat) l k : l ≡ₚ k → sum_list_with f l = sum_list_with f k.
Proof. induction 1; cbn; lia. Qed.

Lemma map_work_delete {K A} `{Countable K} (f : A → nat) (m : gmap K A) k x : m !! k = Some x →
  map_work f m = f x + map_work f (delete k m).
Proof. intros Hx. unfold map_work. by rewrite <-(sum_list_perm _ _ _ (map_to_list_delete m k x Hx)). Qed.

Lemma map_work_insert {K A} `{Countable K} (f : A → nat) (m : gmap K A) k x y : m !! k = Some x →
  map_work f (<[k := y]> m) + f x = map_work f m + f y.
Proof.
  intros Hx. rewrite (map_work_delete f m k x Hx), (map_work_delete f (<[k := y]> m) k y) by apply lookup_insert_eq.
  rewrite delete_insert_eq. lia.
Qed.

Lemma waiting_work rs : sum_list_with held_work (waiting rs) = 3 * length rs.
Proof. induction rs as [|r rs IH]; [done|]. unfold waiting in *. cbn in *. lia. Qed.

Lemma sum_held_app l k : sum_list_with held_work (l ++ k) = sum_list_with held_work l + sum_list_with held_work k.
Proof. induction l as [|x l IH]; [done|]. cbn. lia. Qed.

Lemma mark_begun_cons r h l : mark_begun r (h :: l) = (if bool_decide (h.1 = r) then (r, true) else h) :: mark_begun r l.
Proof. done. Qed.
Lemma drop_request_cons r h l : drop_request r (h :: l) = if bool_decide (h.1 = r) then drop_request r l else h :: drop_request r l.
Proof. cbn. by case_bool_decide. Qed.

Lemma mark_work r held : (r, false) ∈ held → sum_list_with held_work (mark_begun r held) < sum_list_with held_work held.
Proof.
  assert (∀ h, held_work (if bool_decide (h.1 = r) then (r, true) else h) ≤ held_work h) as Hh.
  { intros [x []]; case_bool_decide; cbn; lia. }
  assert (∀ l, sum_list_with held_work (mark_begun r l) ≤ sum_list_with held_work l) as Hle.
  { induction l as [|h l IH]; [done|]. rewrite mark_begun_cons. cbn [sum_list_with]. specialize (Hh h). lia. }
  induction held as [|h held IH]; [set_solver|]. rewrite mark_begun_cons. cbn [sum_list_with]. intros [<-|Hin]%elem_of_cons.
  - rewrite bool_decide_eq_true_2 by done. pose proof (Hle held). cbn [held_work snd]. lia.
  - specialize (IH Hin). specialize (Hh h). lia.
Qed.

Lemma drop_work r b held : (r, b) ∈ held → sum_list_with held_work (drop_request r held) + 2 ≤ sum_list_with held_work held.
Proof.
  assert (∀ h, 2 ≤ held_work h) as H2 by (intros [x []]; cbn; lia).
  assert (∀ l, sum_list_with held_work (drop_request r l) ≤ sum_list_with held_work l) as Hle.
  { induction l as [|h l IH]; [done|]. rewrite drop_request_cons. case_bool_decide; cbn [sum_list_with]; lia. }
  induction held as [|h held IH]; [set_solver|]. rewrite drop_request_cons. specialize (H2 h). intros [<-|Hin]%elem_of_cons.
  - rewrite bool_decide_eq_true_2 by done. pose proof (Hle held). cbn [sum_list_with]. lia.
  - specialize (IH Hin). case_bool_decide; cbn [sum_list_with]; lia.
Qed.

(** A task that begins, ends or skips a request has less left to do. *)
Lemma begin_work key pc r : (r, false) ∈ held_requests pc →
  drain_work (mkDrain key (with_held pc (mark_begun r (all_held pc)))) < drain_work (mkDrain key pc).
Proof.
  destruct pc as [|held|woken held]; cbn [held_requests all_held]; [set_solver| |destruct woken; [set_solver|]]; intros Hin.
  - apply (subseteq_take 1) in Hin as Hin'. pose proof (mark_work r held Hin').
    destruct (mark_begun r held) as [|h l] eqn:E; [destruct held; [set_solver|done]|]. cbn [with_held is_empty drain_work drain_pc]. lia.
  - pose proof (mark_work r held Hin).
    destruct (mark_begun r held) as [|h l] eqn:E; [destruct held; [set_solver|done]|]. cbn [with_held is_empty drain_work drain_pc]. lia.
Qed.

Lemma end_work key pc r b : (r, b) ∈ held_requests pc →
  drain_work (mkDrain key (with_held pc (drop_request r (all_held pc)))) < drain_work (mkDrain key pc).
Proof.
  destruct pc as [|held|woken held]; cbn [held_requests all_held]; [set_solver| |destruct woken; [set_solver|]]; intros Hin;
    [apply (subseteq_take 1) in Hin|]; pose proof (drop_work r b held Hin);
    destruct (drop_request r held) as [|h l]; cbn [with_held is_empty drain_work drain_pc sum_list_with] in *; lia.
Qed.

Lemma set_drain_work i d d' qs st : drains st !! i = Some d →
  work (set_drain i d' qs st) + drain_work d = map_work queue_work qs + map_work drain_work (drains st) + drain_work d'.
Proof. intros Hd. unfold work. cbn [set_drain queues drains]. pose proof (map_work_insert drain_work (drains st) i d d' Hd). lia. Qed.
Lemma end_drain_work i d qs st : drains st !! i = Some d →
  work (end_drain i qs st) + drain_work d = map_work queue_work qs + map_work drain_work (drains st).
Proof. intros Hd. unfold work. cbn [end_drain queues drains]. rewrite (map_work_delete drain_work (drains st) i d Hd). lia. Qed.

Lemma take_work i d d' key q q' st : drains st !! i = Some d → queues st !! key = Some q →
  drain_work d' + queue_work q' < drain_work d + queue_work q → work (set_drain i d' (<[key := q']> (queues st)) st) < work st.
Proof.
  intros Hi Hq Hlt. pose proof (set_drain_work i d d' (<[key := q']> (queues st)) st Hi).
  pose proof (map_work_insert queue_work (queues st) key q q' Hq). unfold work in *. lia.
Qed.
Lemma leave_work i d qs st : drains st !! i = Some d → map_work queue_work qs ≤ map_work queue_work (queues st) → 0 < drain_work d →
  work (end_drain i qs st) < work st.
Proof. intros Hi Hq Hd. pose proof (end_drain_work i d qs st Hi). unfold work in *. lia. Qed.

Lemma drain_next_work i st st' : drain_next i st = Some st' → work st' < work st.
Proof.
  unfold drain_next. destruct (drains st !! i) as [[key []]|] eqn:Hi; try done. intros [= <-].
  destruct (queues st !! key) as [q|] eqn:Hq; [|eapply leave_work; [done|done|cbn; lia]].
  destruct (requests q) as [|r rest] eqn:Hr.
  { eapply leave_work; [done| |cbn; lia]. rewrite (map_work_delete queue_work (queues st) key q Hq). lia. }
  destruct (rq_access r).
  - eapply take_work; [done..|]. unfold queue_work, drain_work. rewrite Hr. cbn [drain_pc requests changed].
    change (sum_list_with held_work [(r, false)]) with 3. cbn [length]. lia.
  - destruct (split_reads rest) as [reads rest'] eqn:Hs. apply split_reads_spec in Hs as (-> & _).
    eapply take_work; [done..|]. unfold queue_work, drain_work. rewrite Hr. cbn [drain_pc requests changed].
    cbn [sum_list_with held_work snd length]. rewrite waiting_work, length_app. lia.
Qed.

Lemma drain_notified_work i st st' : drain_notified i st = Some st' → work st' < work st.
Proof.
  unfold drain_notified. destruct (drains st !! i) as [[key [| |[] held]]|] eqn:Hi; try done.
  destruct (queues st !! key) as [q|] eqn:Hq; [|done]. destruct (changed q) eqn:Hc; [|done]. intros [= <-].
  eapply take_work; [done..|]. unfold queue_work, drain_work. rewrite Hc. cbn [drain_pc requests changed]. lia.
Qed.

Lemma drain_join_work i st st' : drain_join i st = Some st' → work st' < work st.
Proof.
  unfold drain_join. destruct (drains st !! i) as [[key [| |[] held]]|] eqn:Hi; try done. intros [= <-].
  destruct (queues st !! key) as [q|] eqn:Hq; [|eapply leave_work; [done|done|cbn; lia]].
  destruct (split_reads (requests q)) as [reads rest] eqn:Hs. apply split_reads_spec in Hs as (Hr & _).
  eapply take_work; [done..|]. unfold queue_work, drain_work. rewrite Hr. cbn [drain_pc requests changed].
  rewrite length_app, sum_held_app, waiting_work. lia.
Qed.

Lemma record_work e st : work (record_event e st) = work st.
Proof. done. Qed.

Lemma internal_work a st st' : internal a = true → act a st = Some st' → work st' < work st.
Proof.
  destruct a as [| |i|i|i|i r|i r]; cbn [internal act]; try done; intros _.
  - apply drain_next_work.
  - apply drain_notified_work.
  - apply drain_join_work.
  - unfold run_request. destruct (drains st !! i) as [[key pc]|] eqn:Hi; [|done]. case_bool_decide as Hin; [|done]. intros [= <-].
    destruct (gate_open st r); rewrite record_work; [pose proof (begin_work key pc r Hin)|pose proof (end_work key pc r false Hin)];
      match goal with |- work (set_drain _ ?d _ _) < _ => pose proof (set_drain_work i _ d (queues st) st Hi) end; unfold work in *; lia.
  - unfold finish_request. destruct (drains st !! i) as [[key pc]|] eqn:Hi; [|done]. case_bool_decide as Hin; [|done]. intros [= <-].
    rewrite record_work. pose proof (end_work key pc r true Hin).
    match goal with |- work (set_drain _ ?d _ _) < _ => pose proof (set_drain_work i _ d (queues st) st Hi) end. unfold work in *. lia.
Qed.

(** A task that is left can act. *)
Lemma drain_enabled st i d : inv st → drains st !! i = Some d → ∃ a, internal a = true ∧ is_Some (act a st).
Proof.
  intros H Hi. destruct d as [key pc]. destruct (key_ok_drain _ _ _ _ _ _ (inv_keys st H key) Hi) as (q & past & batch & Hq & _ & _ & _ & _ & Hb).
  assert (pc = LoopHead ∨ (∃ held, pc = RunningReads true held) ∨ ∃ r b, (r, b) ∈ held_requests pc) as [->|[[held ->]|(r & b & Hin)]].
  { destruct pc as [|held|woken held]; cbn [batch_ok held_requests] in *; [by left| |].
    - destruct Hb as (_ & r & b & -> & _). right. right. exists r, b. cbn. set_solver.
    - destruct woken; [eauto|]. destruct Hb as (_ & Hne & _). destruct held as [|[r b] held]; [done|]. right. right. exists r, b. set_solver. }
  - exists (ActNext i). split; [done|]. cbn [act]. unfold drain_next. rewrite Hi. eauto.
  - exists (ActJoin i). split; [done|]. cbn [act]. unfold drain_join. rewrite Hi. eauto.
  - exists (if b then ActFinish i r else ActRun i r). split; [by destruct b|].
    destruct b; cbn [act]; [unfold finish_request|unfold run_request]; rewrite Hi, bool_decide_eq_true_2 by done; eauto.
Qed.

(** Runs of the tasks alone. *)
Inductive tasks_run : nat → Sys → Sys → Prop :=
| run_none st : tasks_run 0 st st
| run_more n a st st' st'' : internal a = true → act a st = Some st' → tasks_run n st' st'' → tasks_run (S n) st st''.

Definition at_rest (st : Sys) : Prop := ∀ a, internal a = true → act a st = None.

Lemma tasks_run_reachable n st st' : tasks_run n st st' → reachable st → reachable st'.
Proof. induction 1 as [|n a st st' st'' _ Ha _ IH]; [done|]. intros H. apply IH. by eapply reach_step. Qed.

Lemma tasks_run_bounded n st st' : tasks_run n st st' → n + work st' ≤ work st.
Proof. induction 1 as [|n a st st' st'' Hi Ha _ IH]; [done|]. pose proof (internal_work a st st' Hi Ha). lia. Qed.

Lemma no_drains_rest st : drains st = ∅ → at_rest st.
Proof.
  intros Hd a. destruct a; cbn [internal act]; try done; intros _;
    unfold drain_next, drain_notified, drain_join, run_request, finish_request; by rewrite Hd, lookup_empty.
Qed.

Lemma tasks_come_to_rest st : reachable st → ∃ n st', tasks_run n st st' ∧ at_rest st'.
Proof.
  remember (work st) as w eqn:Hw. revert st Hw. induction (lt_wf w) as [w _ IH]. intros st -> H.
  destruct (map_choose_or_empty (drains st)) as [(i & d & Hi)|Hd]; [|exists 0, st; split; [constructor|by apply no_drains_rest]].
  destruct (drain_enabled st i d (reachable_inv st H) Hi) as (a & Ha & st' & Hst).
  destruct (IH (work st') (internal_work a st st' Ha Hst) st' eq_refl) as (n & st'' & Hr & Hq); [by eapply reach_step|].
  exists (S n), st''. split; [by eapply run_more|done].
Qed.

Lemma rest_is_done st : inv st → at_rest st → queues st = ∅ ∧ drains st = ∅ ∧ ∀ r, Enqueued r ∈ trace st → ended_in (trace st) r.
Proof.
  intros H Hr. assert (drains st = ∅) as Hd.
  { apply map_empty. intros i. destruct (drains st !! i) as [d|] eqn:Hi; [|done].
    destruct (drain_enabled st i d H Hi) as (a & Ha & st' & Hst). by rewrite (Hr a Ha) in Hst. }
  assert (queues st = ∅) as Hq.
  { apply map_empty. intros k. destruct (queues st !! k) as [q|] eqn:Hk; [|done]. destruct (inv_keys st H k) as [_ Hx]. rewrite Hk in Hx.
    destruct Hx as (i & pc & past & batch & Hi & _). by rewrite Hd, lookup_empty in Hi. }
  split_and!; [done..|]. intros r Hin. destruct (inv_keys st H (rq_key r)) as [_ Hx]. rewrite Hq, lookup_empty, Forall_forall in Hx.
  eapply ended_events, (proj2 Hx r), elem_enqueued, elem_events. done.
Qed.

(** C16: no request is lost and no task is stuck. From every state the system can
    be in, the tasks left alone come to rest (every request that begins can come
    to its end), whatever their order in at most [work st] steps: there is no
    run of more steps, and a run that stops before is not at rest. At rest every
    request that was ever queued has ended or was skipped, no queue is left in
    the table and no task is left. *)
Theorem requests_come_to_rest st : reachable st →
  (∃ n st', tasks_run n st st' ∧ at_rest st') ∧
  ∀ n st', tasks_run n st st' → n ≤ work st ∧
    (at_rest st' ∨ ∃ st'', tasks_run 1 st' st'') ∧
    (at_rest st' → queues st' = ∅ ∧ drains st' = ∅ ∧ ∀ r, Enqueued r ∈ trace st' → ended_in (trace st') r).
Proof.
  intros H. split; [by apply tasks_come_to_rest|]. intros n st' Hr. pose proof (tasks_run_bounded n st st' Hr).
  assert (inv st') as Hi by (by eapply reachable_inv, tasks_run_reachable). split_and!; [lia| |by apply rest_is_done].
  destruct (map_choose_or_empty (drains st')) as [(i & d & Hd)|Hd]; [right|left; by apply no_drains_rest].
  destruct (drain_enabled st' i d Hi Hd) as (a & Ha & st'' & Hst). exists st''. by eapply run_more; [| |constructor].
Qed.

(** ** The gate *)
Definition gate_ok (st : Sys) : Prop :=
  ∀ tr1 g tr2, trace st = tr1 ++ Closed g :: tr2 → g ∈ closed_gates st ∧ ∀ r, Begun r ∈ tr2 → rq_gate r ≠ Some g.

Lemma gate_ok_snoc st st' e : gate_ok st → trace st' = trace st ++ [e] → closed_gates st ⊆ closed_gates st' →
  (∀ g, e = Closed g → g ∈ closed_gates st') → (∀ r, e = Begun r → gate_open st r = true) → gate_ok st'.
Proof.
  intros H Ht Hc Hg Hb tr1 g tr2 Heq. rewrite Ht in Heq. destruct tr2 as [|x tr2 _] using rev_ind.
  - apply app_inj_tail in Heq as [<- ->]. split; [by apply Hg|set_solver].
  - rewrite app_comm_cons, (assoc_L app) in Heq. apply app_inj_tail in Heq as [Heq <-]. destruct (H _ _ _ Heq) as [H1 H2].
    split; [set_solver|]. intros r [Hr|<-%list_elem_of_singleton]%elem_of_app; [by apply H2|]. specialize (Hb r eq_refl).
    unfold gate_open in Hb. intros E. rewrite E, negb_true_iff, bool_decide_eq_false in Hb. done.
Qed.

Lemma gate_ok_same st st' : gate_ok st → trace st' = trace st → closed_gates st' = closed_gates st → gate_ok st'.
Proof. unfold gate_ok. intros H -> ->. done. Qed.

Lemma act_gate_ok a st st' : gate_ok st → act a st = Some st' → gate_ok st'.
Proof.
  intros H. destruct a as [key access gate|g|i|i|i|i r|i r]; cbn [act].
  - intros [= <-]. unfold enqueue. destruct (queues st !! key); eapply gate_ok_snoc; try done.
  - intros [= <-]. apply (gate_ok_snoc st _ (Closed g) H); [done|set_solver| |done]. intros g' [= <-]. cbn. set_solver.
  - unfold drain_next. destruct (drains st !! i) as [[key []]|]; try done. intros [= <-].
    destruct (queues st !! key) as [q|]; [|by apply (gate_ok_same st)]. destruct (requests q) as [|r rest]; [by apply (gate_ok_same st)|].
    destruct (rq_access r); [|destruct (split_reads rest)]; by apply (gate_ok_same st).
  - unfold drain_notified. destruct (drains st !! i) as [[key [| |[] held]]|]; try done.
    destruct (queues st !! key) as [q|]; [|done]. destruct (changed q); [|done]. intros [= <-]. by apply (gate_ok_same st).
  - unfold drain_join. destruct (drains st !! i) as [[key [| |[] held]]|]; try done. intros [= <-].
    destruct (queues st !! key) as [q|]; [destruct (split_reads _)|]; by apply (gate_ok_same st).
  - unfold run_request. destruct (drains st !! i) as [[key pc]|]; [|done]. case_bool_decide; [|done]. intros [= <-].
    destruct (gate_open st r) eqn:E; eapply gate_ok_snoc; try done. by intros r' [= <-].
  - unfold finish_request. destruct (drains st !! i) as [[key pc]|]; [|done]. case_bool_decide; [|done]. intros [= <-].
    by eapply gate_ok_snoc.
Qed.

(** Once a gate is closed no request behind it begins. *)
Theorem closed_gate_begins_nothing st tr1 g tr2 r : reachable st → trace st = tr1 ++ Closed g :: tr2 → Begun r ∈ tr2 → rq_gate r ≠ Some g.
Proof.
  intros H Ht Hr. assert (gate_ok st) as Hg; [|by apply (Hg tr1 g tr2)].
  clear Ht. induction H as [|a st st' _ IH Ha]; [by intros [] ? ?|]. by eapply act_gate_ok.
Qed.

(** ** Examples *)
Module RequestExamples.

Definition key : Key := (from_scope 1 (ScopeGlobal ($"config"))).1.
Definition read (n : N) (g : option N) : Request := mkRequest n key SharedRead g.
Definition write (n : N) (g : option N) : Request := mkRequest n key Exclusive g.

Fixpoint perform (acts : list Action) (st : Sys) : option Sys :=
  match acts with [] => Some st | a :: acts => match act a st with Some st' => perform acts st' | None => None end end.

Lemma perform_reachable acts st st' : reachable st → perform acts st = Some st' → reachable st'.
Proof.
  revert st. induction acts as [|a acts IH]; intros st H; cbn [perform]; [by intros [= <-]|].
  destruct (act a st) as [st1|] eqn:E; [|done]. apply IH. by eapply reach_step.
Qed.

(** Two reads, a write and a read; a third read joins before the write is queued;
    the gate of the write is closed while it waits. *)
Definition script : list Action :=
  [ActEnqueue key SharedRead (Some 7%N); ActNext 0; ActRun 0 (read 0 (Some 7%N)); ActEnqueue key SharedRead None;
   ActNotified 0; ActJoin 0; ActRun 0 (read 1 None); ActEnqueue key Exclusive (Some 8%N); ActEnqueue key SharedRead None;
   ActFinish 0 (read 0 (Some 7%N)); ActClose 8].
Definition rest_script : list Action :=
  [ActFinish 0 (read 1 None); ActNext 0; ActRun 0 (write 2 (Some 8%N)); ActNext 0; ActRun 0 (read 3 None); ActFinish 0 (read 3 None); ActNext 0].

Definition final_trace : list Event :=
  [Enqueued (read 0 (Some 7%N)); Begun (read 0 (Some 7%N)); Enqueued (read 1 None); Begun (read 1 None); Enqueued (write 2 (Some 8%N));
   Enqueued (read 3 None); Ended (read 0 (Some 7%N)); Closed 8; Ended (read 1 None); Skipped (write 2 (Some 8%N));
   Begun (read 3 None); Ended (read 3 None)].

(** The last read begins after the write that was queued before it was skipped. *)
Lemma requests_are_serialized_witness : ∃ st, perform (script ++ rest_script) empty_queues = Some st ∧ trace st = final_trace ∧
  ended_in (take 10 final_trace) (write 2 (Some 8%N)).
Proof.
  assert (trace <$> perform (script ++ rest_script) empty_queues = Some final_trace) as Hp by (vm_compute; reflexivity).
  destruct (perform (script ++ rest_script) empty_queues) as [st|] eqn:E; [|discriminate]. injection Hp as Ht. exists st. split_and!; [done..|].
  destruct (requests_are_serialized st (perform_reachable _ _ _ reach_start E)) as [H _].
  apply (H (take 10 final_trace) (read 3 None) (drop 11 final_trace)) with (a := take 4 final_trace) (b := []) (c := drop 6 (take 10 final_trace)).
  - by rewrite Ht.
  - reflexivity.
  - reflexivity.
  - by left.
Defined.

(** With the write skipped and the reads ended, nothing is left. *)
Lemma requests_come_to_rest_witness : ∃ st st', perform script empty_queues = Some st ∧ perform rest_script st = Some st' ∧
  work st = 12 ∧ queues st' = ∅ ∧ drains st' = ∅ ∧ ∃ n st'', tasks_run n st st'' ∧ at_rest st''.
Proof.
  assert (match perform script empty_queues with
          | Some st => match perform rest_script st with
                       | Some st' => work st = 12 ∧ queues st' = ∅ ∧ drains st' = ∅
                       | None => False end
          | None => False end) as Hp by (vm_compute; split_and!; reflexivity).
  destruct (perform script empty_queues) as [st|] eqn:E; [|destruct Hp]. destruct (perform rest_script st) as [st'|] eqn:E'; [|destruct Hp].
  destruct Hp as (Hw & Hq & Hd). exists st, st'. split_and!; [done..|]. apply (requests_come_to_rest st). by apply (perform_reachable script empty_queues st reach_start).
Defined.

Lemma closed_gate_begins_nothing_witness : ∃ st, perform (script ++ rest_script) empty_queues = Some st ∧ rq_gate (read 3 None) ≠ Some 8%N.
Proof.
  assert (trace <$> perform (script ++ rest_script) empty_queues = Some final_trace) as Hp by (vm_compute; reflexivity).
  destruct (perform (script ++ rest_script) empty_queues) as [st|] eqn:E; [|discriminate]. injection Hp as Ht. exists st. split; [done|].
  apply (closed_gate_begins_nothing st (take 7 final_trace) 8 (drop 8 final_trace) (read 3 None)).
  - apply (perform_reachable _ _ _ reach_start E).
  - by rewrite Ht.
  - cbn. do 2 right. left.
Defined.

End RequestExamples.
