(* ===== verification/RetainedContext.v ===== *)
(** * Retained instructions and answers: [history/src/retained_context.rs] and [reconciled_retained_context.rs]

    Compaction may drop what the user said from the history the model sees. The
    host keeps the user's instructions and verified answers apart, in two bounded
    families with a flag each that says whether something was lost. Facts are
    ordered by when they were accepted, which may differ from when they were
    recorded; instructions copied from a parent thread come first.

    The size of a record or a family as JSON is a parameter ([Json]): an error of
    the serialisation is [None] and counts as too large. *)

From stdpp Require Import prelude list gmap strings sorting.
From S2P Require Import Prelude.

Open Scope rust_scope.

Definition MAX_FAMILY_RECORDS : nat := 8.
Definition MAX_RECORD_BYTES : N := 16384.
Definition MAX_FAMILY_BYTES : N := 65536.

(** ** Records *)
Record VerifiedQuestionAnswer : Type := mkQuestion { question : str; answer : str }.
Record VerifiedAnswer : Type := mkAnswer { va_turn_id : str; va_call_id : str; questions : list VerifiedQuestionAnswer }.
Record RetainedUserMessage : Type := mkMessage { turn_id : str; message_id : option str; text : str; complete : bool }.

(** The fields of [CodexHarnessMetadata] that are read here. *)
Record CodexHarnessMetadata : Type := mkMetadata { user_input_order : option N; inherited_user_message : bool }.

Inductive RetainedInputSource : Type := SourceLocal (order : option N) | SourceInherited.
Definition acceptance_order (s : RetainedInputSource) : option N :=
  match s with SourceLocal order => order | SourceInherited => None end.
Definition input_source_from (metadata : option CodexHarnessMetadata) : RetainedInputSource :=
  match metadata with
  | Some m => if inherited_user_message m then SourceInherited else SourceLocal (user_input_order m)
  | None => SourceLocal None
  end.

Inductive RetainedContextOrder : Type := Inherited (order : N) | Local (order : N).
Record Ordered (T : Type) : Type := mkOrdered { inherited : bool; order : N; value : T }.
Arguments mkOrdered {T}.
Arguments inherited {T}.
Arguments order {T}.
Arguments value {T}.
Definition key {T} (e : Ordered T) : RetainedContextOrder := if inherited e then Inherited (order e) else Local (order e).

Inductive RetainedContextEntry : Type := EntryUserMessage (m : RetainedUserMessage) | EntryVerifiedAnswer (a : VerifiedAnswer).

#[global] Instance VerifiedQuestionAnswer_eq_dec : EqDecision VerifiedQuestionAnswer.
Proof. solve_decision. Defined.
#[global] Instance VerifiedAnswer_eq_dec : EqDecision VerifiedAnswer.
Proof. solve_decision. Defined.
#[global] Instance RetainedUserMessage_eq_dec : EqDecision RetainedUserMessage.
Proof. solve_decision. Defined.
#[global] Instance RetainedInputSource_eq_dec : EqDecision RetainedInputSource.
Proof. solve_decision. Defined.
#[global] Instance RetainedContextOrder_eq_dec : EqDecision RetainedContextOrder.
Proof. solve_decision. Defined.

(** The derived order. *)
Definition order_le (a b : RetainedContextOrder) : bool :=
  match a, b with
  | Inherited m, Inherited n | Local m, Local n => (m <=? n)%N
  | Inherited _, Local _ => true
  | Local _, Inherited _ => false
  end.
Definition order_lt (a b : RetainedContextOrder) : bool := negb (order_le b a).

(** [sort_by_key], which is stable. *)
Fixpoint insert_in_order {A} (f : A → RetainedContextOrder) (x : A) (v : list A) : list A :=
  match v with
  | [] => [x]
  | y :: v' => if order_le (f x) (f y) then x :: v else y :: insert_in_order f x v'
  end.
Definition sort_in_order {A} (f : A → RetainedContextOrder) (v : list A) : list A := foldr (insert_in_order f) [] v.

Record RetainedContext : Type := mkContext {
  verified_answers : list (Ordered VerifiedAnswer);
  verified_answers_incomplete : bool;
  user_messages : list (Ordered RetainedUserMessage);
  user_messages_incomplete : bool;
  next_order : N
}.
Definition default_context : RetainedContext := mkContext [] false [] false 0.

Definition set_answers (l : list (Ordered VerifiedAnswer)) (lost : bool) (c : RetainedContext) : RetainedContext :=
  mkContext l lost (user_messages c) (user_messages_incomplete c) (next_order c).
Definition set_messages (l : list (Ordered RetainedUserMessage)) (lost : bool) (c : RetainedContext) : RetainedContext :=
  mkContext (verified_answers c) (verified_answers_incomplete c) l lost (next_order c).
Definition set_next (n : N) (c : RetainedContext) : RetainedContext :=
  mkContext (verified_answers c) (verified_answers_incomplete c) (user_messages c) (user_messages_incomplete c) n.
Definition lose_answers (b : bool) (c : RetainedContext) : RetainedContext :=
  set_answers (verified_answers c) (verified_answers_incomplete c || b) c.

(** [serde_json::to_vec(..).len()]. *)
Class Json : Type := {
  message_json : RetainedUserMessage → option N;
  answer_json : VerifiedAnswer → option N;
  messages_json : list (Ordered RetainedUserMessage) → option N;
  answers_json : list (Ordered VerifiedAnswer) → option N
}.

Definition over (limit : N) (len : option N) : bool := match len with Some n => (limit <? n)%N | None => true end.

(** [s.truncate(s.floor_char_boundary(n))]. *)
Fixpoint truncate_at (n : nat) (s : str) : str :=
  match s with
  | [] => []
  | c :: s => if (len_utf8 c <=? n)%nat then c :: truncate_at (n - len_utf8 c) s else []
  end.

(** The position of the first element that satisfies a test. *)
Fixpoint position {A} (p : A → bool) (l : list A) : option nat :=
  match l with
  | [] => None
  | x :: l => if p x then Some 0 else S <$> position p l
  end.

Section operations.
Context `{Json}.

(** ** Limits *)

(** The loop of [bound_family]. An empty family is never too large, so that the
    loop ends. *)
Fixpoint evict {T} (to_vec : list T → option N) (items : list T) (incomplete : bool) : list T * bool :=
  match items with
  | [] => ([], incomplete)
  | _ :: rest =>
      if (MAX_FAMILY_RECORDS <? length items)%nat || over MAX_FAMILY_BYTES (to_vec items)
      then evict to_vec rest true else (items, incomplete)
  end.
Definition bound_family {T} (to_vec : list (Ordered T) → option N) (items : list (Ordered T)) (incomplete : bool)
    : list (Ordered T) * bool :=
  evict to_vec (sort_in_order key items) incomplete.

Definition bound_messages (c : RetainedContext) : RetainedContext :=
  let '(l, lost) := bound_family messages_json (user_messages c) (user_messages_incomplete c) in set_messages l lost c.
Definition bound_answers (c : RetainedContext) : RetainedContext :=
  let '(l, lost) := bound_family answers_json (verified_answers c) (verified_answers_incomplete c) in set_answers l lost c.

Definition bound_message (m : RetainedUserMessage) : RetainedUserMessage :=
  if over MAX_RECORD_BYTES (message_json m)
  then mkMessage (truncate_at 1024 (turn_id m)) (truncate_at 1024 <$> message_id m) [] false else m.
Definition bound_answer (a : VerifiedAnswer) : VerifiedAnswer :=
  if over MAX_RECORD_BYTES (answer_json a)
  then mkAnswer (truncate_at 1024 (va_turn_id a)) (truncate_at 1024 (va_call_id a)) [] else a.

(** ** Recording *)
Definition reserve_order (c : RetainedContext) : N * RetainedContext :=
  (next_order c, set_next (saturating_add (next_order c) 1) c).
Definition record_order (acceptance : option N) (c : RetainedContext) : N * RetainedContext :=
  let n := default (next_order c) acceptance in (n, set_next (N.max (next_order c) (saturating_add n 1)) c).

Definition verified_answers_complete (c : RetainedContext) : bool :=
  negb (verified_answers_incomplete c) && forallb (λ e, negb (is_empty (questions (value e)))) (verified_answers c).
Definition has_missing_user_messages (c : RetainedContext) : bool := user_messages_incomplete c.
Definition user_messages_complete (c : RetainedContext) : bool :=
  negb (has_missing_user_messages c) && forallb (λ e, complete (value e)) (user_messages c).
Definition mark_user_messages_incomplete (c : RetainedContext) : RetainedContext := set_messages (user_messages c) true c.
Definition has_inherited_user_messages (c : RetainedContext) : bool := existsb inherited (user_messages c).

Definition ordered_entries (c : RetainedContext) : list (RetainedContextOrder * RetainedContextEntry) :=
  sort_in_order fst
    (((λ e, (key e, EntryVerifiedAnswer (value e))) <$> verified_answers c) ++
     ((λ e, (key e, EntryUserMessage (value e))) <$> user_messages c)).

Definition same_message (m : RetainedUserMessage) (e : Ordered RetainedUserMessage) : bool :=
  bool_decide (is_Some (message_id m)) && bool_decide (message_id (value e) = message_id m).

(** The order of an instruction copied from the parent. *)
Definition inherited_order (l : list (Ordered RetainedUserMessage)) : N :=
  foldr (λ e n, if inherited e then N.max (saturating_add (order e) 1) n else n) 0%N l.

(** [record_user_message] up to the limits; [false] when the message is already there. *)
Definition push_user_message (message : RetainedUserMessage) (source : RetainedInputSource) (c : RetainedContext)
    : bool * RetainedContext :=
  let message := bound_message message in
  let is_inherited := bool_decide (source = SourceInherited) in
  let c := lose_answers is_inherited c in
  let push l :=
    let c := set_messages l (user_messages_incomplete c) c in
    let '(n, c) := if is_inherited then (inherited_order l, c) else record_order (acceptance_order source) c in
    (true, set_messages (l ++ [mkOrdered is_inherited n message]) (user_messages_incomplete c) c) in
  match position (same_message message) (user_messages c) with
  | Some i =>
      match user_messages c !! i with
      | Some e => if bool_decide (value e = message) && eqb (inherited e) is_inherited then (false, c)
                  else push (delete i (user_messages c))
      | None => push (user_messages c)
      end
  | None => push (user_messages c)
  end.
Definition record_user_message (message : RetainedUserMessage) (source : RetainedInputSource) (c : RetainedContext) : RetainedContext :=
  let '(pushed, c) := push_user_message message source c in if pushed then bound_messages c else c.

Definition recover_excerpt (excerpt_for_id : str → option str) (e : Ordered RetainedUserMessage) : Ordered RetainedUserMessage :=
  let m := value e in
  if is_empty (text m) && negb (complete m) then
    match message_id m with
    | Some id => match excerpt_for_id id with
                 | Some text => mkOrdered (inherited e) (order e) (bound_message (mkMessage (turn_id m) (message_id m) text (complete m)))
                 | None => e
                 end
    | None => e
    end
  else e.
Definition recover_texts (excerpt_for_id : str → option str) (c : RetainedContext) : RetainedContext :=
  set_messages (recover_excerpt excerpt_for_id <$> user_messages c) (user_messages_incomplete c) c.
Definition recover_user_message_excerpts (excerpt_for_id : str → option str) (c : RetainedContext) : RetainedContext :=
  bound_messages (recover_texts excerpt_for_id c).

Definition same_answer (a : VerifiedAnswer) (e : Ordered VerifiedAnswer) : bool :=
  bool_decide (va_turn_id (value e) = va_turn_id a) && bool_decide (va_call_id (value e) = va_call_id a).

(** [record] up to the limits. *)
Definition push_answer (a : VerifiedAnswer) (acceptance : option N) (c : RetainedContext) : bool * RetainedContext :=
  let a := bound_answer a in
  let push l :=
    let c := set_answers l (verified_answers_incomplete c) c in
    let '(n, c) := record_order acceptance c in
    (true, set_answers (l ++ [mkOrdered false n a]) (verified_answers_incomplete c) c) in
  match position (same_answer a) (verified_answers c) with
  | Some i =>
      match verified_answers c !! i with
      | Some e => if bool_decide (value e = a) then (false, c) else push (delete i (verified_answers c))
      | None => push (verified_answers c)
      end
  | None => push (verified_answers c)
  end.
Definition record (a : VerifiedAnswer) (acceptance : option N) (c : RetainedContext) : bool * RetainedContext :=
  let '(pushed, c) := push_answer a acceptance c in (pushed, if pushed then bound_answers c else c).

(** ** Checkpoints and rollback *)
Definition restore_answer (c : RetainedContext) (e : Ordered VerifiedAnswer) : RetainedContext :=
  mkContext (verified_answers c ++ [mkOrdered (inherited e) (order e) (bound_answer (value e))]) (verified_answers_incomplete c)
    (user_messages c) (user_messages_incomplete c) (N.max (next_order c) (saturating_add (order e) 1)).
Definition restore_message (c : RetainedContext) (e : Ordered RetainedUserMessage) : RetainedContext :=
  mkContext (verified_answers c) (verified_answers_incomplete c || inherited e)
    (user_messages c ++ [mkOrdered (inherited e) (order e) (bound_message (value e))]) (user_messages_incomplete c)
    (if inherited e then next_order c else N.max (next_order c) (saturating_add (order e) 1)).
Definition surviving_orders (items : list (option CodexHarnessMetadata)) : list N :=
  omap (λ m, match m with Some m => if inherited_user_message m then None else user_input_order m | None => None end) items.

Definition restore (checkpoint : option RetainedContext) (surviving_items : list (option CodexHarnessMetadata)) : RetainedContext :=
  let c := default (mkContext [] false [] true 0) checkpoint in
  let c0 := set_messages [] (user_messages_incomplete c) (set_answers [] (verified_answers_incomplete c) c) in
  let c1 := foldl restore_answer c0 (verified_answers c) in
  let c2 := foldl restore_message c1 (user_messages c) in
  let c3 := foldl (λ c n, set_next (N.max (next_order c) (saturating_add n 1)) c) c2 (surviving_orders surviving_items) in
  bound_messages (bound_answers c3).

Definition retain_answers (keep : VerifiedAnswer → bool) (c : RetainedContext) : RetainedContext :=
  set_answers (List.filter (λ e, keep (value e)) (verified_answers c)) (verified_answers_incomplete c) c.

Definition contains_id (turn_ids : list str) (id : str) : bool := bool_decide (id ∈ turn_ids).

(** Where a rollback cuts, if it is known. *)
Definition boundary (first_removed_message_id : option str) (source : RetainedInputSource) (c : RetainedContext)
    : option RetainedContextOrder :=
  match acceptance_order source with
  | Some n => Some (Local n)
  | None =>
      match first_removed_message_id with
      | Some id => key <$> List.find (λ e, bool_decide (message_id (value e) = Some id)) (user_messages c)
      | None => None
      end
  end.
Definition cut_before (b : RetainedContextOrder) (c : RetainedContext) : RetainedContext :=
  set_messages (List.filter (λ e, order_lt (key e) b) (user_messages c)) (user_messages_incomplete c)
    (set_answers (List.filter (λ e, order_lt (key e) b) (verified_answers c)) (verified_answers_incomplete c) c).
Definition rollback (turn_ids : list str) (first_removed_message_id : option str) (source : RetainedInputSource) (c : RetainedContext)
    : RetainedContext :=
  match boundary first_removed_message_id source c with
  | Some b => cut_before b c
  | None =>
      let lost := user_messages_incomplete c || bool_decide (is_Some first_removed_message_id)
                  || existsb (λ e, contains_id turn_ids (turn_id (value e))) (user_messages c) in
      let from_parent := bool_decide (source = SourceInherited) in
      set_messages
        (List.filter (λ e, (negb from_parent || inherited e) && negb (contains_id turn_ids (turn_id (value e)))) (user_messages c)) lost
        (set_answers (List.filter (λ e, negb from_parent && negb (contains_id turn_ids (va_turn_id (value e)))) (verified_answers c))
           (verified_answers_incomplete c) c)
  end.
End operations.

(** ** Reconciliation with the live history *)
Record ReconciledRetainedContext : Type := mkReconciled {
  retained_context : option RetainedContext;
  recovered : list (RetainedContextOrder * RetainedUserMessage);
  missing_user_messages : bool
}.

Definition retained_entries (c : option RetainedContext) : list (RetainedContextOrder * RetainedContextEntry) :=
  match c with Some c => ordered_entries c | None => [] end.

Definition matches_source (message : RetainedUserMessage) (entry : RetainedContextEntry) : bool :=
  match entry with
  | EntryUserMessage retained =>
      match message_id retained with
      | Some id => bool_decide (message_id message = Some id)
      | None => bool_decide (turn_id message = turn_id retained) && bool_decide (text message = text retained)
      end
  | EntryVerifiedAnswer _ => false
  end.

(** The first entry that matches and that no earlier message has taken. *)
Fixpoint find_entry (i : nat) (message : RetainedUserMessage) (entries : list (RetainedContextOrder * RetainedContextEntry))
    (matched : gset nat) : option nat :=
  match entries with
  | [] => None
  | (_, entry) :: entries =>
      if matches_source message entry && negb (bool_decide (i ∈ matched)) then Some i else find_entry (S i) message entries matched
  end.

Record Reconciling : Type := mkReconciling {
  matched_entries : gset nat;
  used_orders : list RetainedContextOrder;
  found : list (RetainedContextOrder * RetainedUserMessage);
  missing : bool
}.

Definition reconcile_message (entries : list (RetainedContextOrder * RetainedContextEntry)) (s : Reconciling)
    (live : option N * RetainedUserMessage) : Reconciling :=
  let '(n, message) := live in
  match find_entry 0 message entries (matched_entries s) with
  | Some i => mkReconciling ({[i]} ∪ matched_entries s) (used_orders s) (found s) (missing s)
  | None =>
      match n with
      | Some n =>
          if bool_decide (Local n ∈ used_orders s)
          then mkReconciling (matched_entries s) (used_orders s) (found s) true
          else mkReconciling (matched_entries s) (Local n :: used_orders s) (found s ++ [(Local n, message)]) (missing s)
      | None => mkReconciling (matched_entries s) (used_orders s) (found s) true
      end
  end.

Definition reconcile (c : option RetainedContext) (live_messages : list (option N * RetainedUserMessage)) : ReconciledRetainedContext :=
  let missing := match c with Some c => has_missing_user_messages c | None => true end in
  let entries := retained_entries c in
  if match c with Some c => negb (user_messages_complete c) | None => true end then
    let s := foldl (reconcile_message entries) (mkReconciling ∅ entries.*1 [] missing) live_messages in
    mkReconciled c (found s) (RetainedContext.missing s)
  else mkReconciled c [] missing.

Definition reconciled_entries (r : ReconciledRetainedContext) : list (RetainedContextOrder * RetainedContextEntry) :=
  sort_in_order fst (retained_entries (retained_context r) ++ ((λ e, (e.1, EntryUserMessage e.2)) <$> recovered r)).
