(* ===== verification/RetainedContextSpec.v ===== *)
(** * Properties of the retained instructions and answers

    A family that is not marked incomplete is what it would be without limits, so
    that evidence claimed to be complete is all there was. Every state that
    recording, rollback and restoring can reach is ordered and within the limits,
    and survives its own checkpoint. A rollback cuts the ordered evidence at one
    place and undoes what was recorded since. Reconciliation loses no live message
    without saying so. *)

From stdpp Require Import prelude list gmap strings sorting.
From S2P Require Import Prelude RetainedContext.

Open Scope rust_scope.

(** ** The order *)
Lemma order_le_refl a : order_le a a = true.
Proof. destruct a; cbn; apply N.leb_refl. Qed.
Lemma order_le_trans a b c : order_le a b = true → order_le b c = true → order_le a c = true.
Proof. destruct a, b, c; cbn; try done; rewrite !N.leb_le; lia. Qed.
Lemma order_le_total a b : order_le a b = false → order_le b a = true.
Proof. destruct a, b; cbn; try done; rewrite N.leb_gt, N.leb_le; lia. Qed.
Lemma order_lt_le_trans a b c : order_lt a b = true → order_le b c = true → order_lt a c = true.
Proof.
  unfold order_lt. rewrite !negb_true_iff. intros H1 H2. destruct (order_le c a) eqn:E; [|done].
  by rewrite (order_le_trans b c a) in H1.
Qed.
Lemma order_le_lt_trans a b c : order_le a b = true → order_lt b c = true → order_lt a c = true.
Proof.
  unfold order_lt. rewrite !negb_true_iff. intros H1 H2. destruct (order_le c a) eqn:E; [|done].
  by rewrite (order_le_trans c a b) in H2.
Qed.

Section sorting.
Context {A : Type} (f : A → RetainedContextOrder).
Implicit Types (x y : A) (v : list A).
Definition in_order (v : list A) : Prop := StronglySorted (λ x y, order_le (f x) (f y) = true) v.

Lemma insert_perm x v : insert_in_order f x v ≡ₚ x :: v.
Proof. induction v as [|y v IH]; [done|]. cbn. destruct (order_le _ _); [done|]. rewrite IH. apply Permutation_swap. Qed.
Lemma sort_perm v : sort_in_order f v ≡ₚ v.
Proof. induction v as [|x v IH]; [done|]. cbn. by rewrite insert_perm, IH. Qed.

Lemma insert_sorted x v : in_order v → in_order (insert_in_order f x v).
Proof.
  induction 1 as [|y v Hs IH Hy]; cbn; [repeat constructor|]. destruct (order_le (f x) (f y)) eqn:E.
  - constructor; [by constructor|]. constructor; [done|]. eapply Forall_impl; [exact Hy|]. intros z Hz. by eapply order_le_trans.
  - constructor; [exact IH|]. rewrite insert_perm. constructor; [by apply order_le_total|done].
Qed.
Lemma sort_sorted v : in_order (sort_in_order f v).
Proof. induction v as [|x v IH]; [constructor|]. by apply insert_sorted. Qed.

Lemma sort_id v : in_order v → sort_in_order f v = v.
Proof.
  induction 1 as [|x v Hs IH Hx]; [done|]. change (insert_in_order f x (sort_in_order f v) = x :: v). rewrite IH.
  destruct v as [|y v]; [done|]. cbn. apply Forall_cons in Hx as [-> _]. done.
Qed.

Lemma in_order_suffix k v : in_order (k ++ v) → in_order v.
Proof. apply StronglySorted_app_1_r. Qed.

Lemma in_order_filter (p : A → bool) v : in_order v → in_order (List.filter p v).
Proof.
  induction 1 as [|x v Hs IH Hx]; cbn; [constructor|]. destruct (p x); [|done]. constructor; [done|].
  rewrite Forall_forall in *. intros y [Hy _]%elem_of_filterb. by apply Hx.
Qed.

(** A test on the key commutes with sorting. *)
Lemma filter_insert (p : A → bool) x v : in_order v →
  List.filter p (insert_in_order f x v) = if p x then insert_in_order f x (List.filter p v) else List.filter p v.
Proof.
  induction 1 as [|y v Hs IH Hy]; [cbn; by destruct (p x)|]. cbn [insert_in_order List.filter]. destruct (order_le (f x) (f y)) eqn:E.
  - cbn [List.filter]. destruct (p x) eqn:Ex; [|done]. destruct (p y) eqn:Ey; [cbn [insert_in_order]; by rewrite E|].
    destruct (List.filter p v) as [|z w] eqn:Ev; [done|]. cbn [insert_in_order].
    assert (z ∈ v) as Hz by (assert (z ∈ List.filter p v) as [? _]%elem_of_filterb by (rewrite Ev; left); done).
    rewrite Forall_forall in Hy. by rewrite (order_le_trans _ _ _ E (Hy z Hz)).
  - cbn [List.filter]. rewrite IH. destruct (p x) eqn:Ex, (p y) eqn:Ey; try done. cbn [insert_in_order]. by rewrite E.
Qed.
Lemma filter_sort (p : A → bool) v : List.filter p (sort_in_order f v) = sort_in_order f (List.filter p v).
Proof.
  induction v as [|x v IH]; [done|]. cbn [sort_in_order foldr List.filter]. fold (sort_in_order f v). rewrite filter_insert by apply sort_sorted.
  rewrite IH. by destruct (p x).
Qed.
End sorting.

Lemma in_order_map {A B} (f : A → RetainedContextOrder) (g : B → RetainedContextOrder) (h : A → B) v :
  (∀ x, g (h x) = f x) → in_order f v → in_order g (h <$> v).
Proof.
  intros Hh. induction 1 as [|x v Hs IH Hx]; [constructor|]. cbn. constructor; [exact IH|]. apply Forall_fmap.
  eapply Forall_impl; [exact Hx|]. intros y. cbn. by rewrite !Hh.
Qed.

(** ** Limits *)

(** What is relied on of the serialisation: an empty array takes two bytes, and
    leaving out elements of an array does not make it longer. *)
Class JsonLaws `(J : Json) : Prop := {
  messages_json_nil : messages_json [] = Some 2%N;
  answers_json_nil : answers_json [] = Some 2%N;
  messages_json_sublist l k n : sublist l k → messages_json k = Some n → ∃ m, messages_json l = Some m ∧ (m ≤ n)%N;
  answers_json_sublist l k n : sublist l k → answers_json k = Some n → ∃ m, answers_json l = Some m ∧ (m ≤ n)%N
}.

Definition fits {T} (to_vec : list T → option N) (l : list T) : Prop :=
  length l ≤ MAX_FAMILY_RECORDS ∧ over MAX_FAMILY_BYTES (to_vec l) = false.

Lemma evict_spec {T} (to_vec : list T → option N) items lost l lost' : evict to_vec items lost = (l, lost') →
  ∃ k, items = k ++ l ∧ lost' = lost || negb (is_empty k) ∧ (over MAX_FAMILY_BYTES (to_vec []) = false → fits to_vec l).
Proof.
  revert lost. induction items as [|x items IH]; intros lost; cbn [evict].
  - intros [= <- <-]. exists []. rewrite orb_false_r. split_and!; try done. unfold fits. cbn. intros ->. split; [lia|done].
  - destruct (_ || _) eqn:E.
    + intros (k & -> & -> & Hf)%IH. exists (x :: k). cbn. by rewrite orb_true_r.
    + intros [= <- <-]. exists []. rewrite orb_false_r. split_and!; try done. intros _. apply orb_false_iff in E as [E1 E2].
      apply Nat.ltb_ge in E1. done.
Qed.
Lemma evict_fits {T} (to_vec : list T → option N) items lost : fits to_vec items → evict to_vec items lost = (items, lost).
Proof.
  intros [H1 H2]. destruct items as [|x items]; [done|]. cbn [evict]. rewrite H2. by rewrite (proj2 (Nat.ltb_ge _ _)) by done.
Qed.

Lemma over_le limit n m : over limit (Some n) = false → (m ≤ n)%N → over limit (Some m) = false.
Proof. cbn. rewrite !N.ltb_ge. lia. Qed.

Lemma truncate_at_idemp n s : truncate_at n (truncate_at n s) = truncate_at n s.
Proof.
  revert n. induction s as [|c s IH]; intros n; [done|]. cbn [truncate_at]. destruct (len_utf8 c <=? n) eqn:E; [|done].
  cbn [truncate_at]. by rewrite E, IH.
Qed.

Section spec.
Context `{J : Json}.
Implicit Types (c : RetainedContext) (m : RetainedUserMessage) (a : VerifiedAnswer).

Lemma bound_message_cases m : bound_message m = m ∨
  bound_message m = mkMessage (truncate_at 1024 (turn_id m)) (truncate_at 1024 <$> message_id m) [] false.
Proof. unfold bound_message. destruct (over _ _); auto. Qed.
Lemma bound_message_idemp m : bound_message (bound_message m) = bound_message m.
Proof.
  destruct (bound_message_cases m) as [E|E]; [by rewrite !E|]. rewrite !E.
  match goal with |- bound_message ?x = _ => destruct (bound_message_cases x) as [Ex|Ex] end; rewrite Ex; [done|].
  cbn [turn_id message_id]. rewrite truncate_at_idemp. f_equal. destruct (message_id m) as [id|]; [|done].
  cbn [fmap option_fmap option_map]. by rewrite truncate_at_idemp.
Qed.
Lemma bound_answer_cases a : bound_answer a = a ∨
  bound_answer a = mkAnswer (truncate_at 1024 (va_turn_id a)) (truncate_at 1024 (va_call_id a)) [].
Proof. unfold bound_answer. destruct (over _ _); auto. Qed.
Lemma bound_answer_idemp a : bound_answer (bound_answer a) = bound_answer a.
Proof.
  destruct (bound_answer_cases a) as [E|E]; [by rewrite !E|]. rewrite !E.
  match goal with |- bound_answer ?x = _ => destruct (bound_answer_cases x) as [Ex|Ex] end; rewrite Ex; [done|].
  cbn [va_turn_id va_call_id]. by rewrite !truncate_at_idemp.
Qed.
Lemma bound_message_complete m : complete (bound_message m) = true → bound_message m = m.
Proof. unfold bound_message. by destruct (over _ _). Qed.

(** ** Operations *)
Inductive Op : Type :=
| OpReserve
| OpMessage (message : RetainedUserMessage) (source : RetainedInputSource)
| OpAnswer (answer : VerifiedAnswer) (acceptance : option N)
| OpMark
| OpRecover (excerpt_for_id : str → option str)
| OpRetain (keep : VerifiedAnswer → bool)
| OpRollback (turn_ids : list str) (first_removed_message_id : option str) (source : RetainedInputSource).

(** The operations, with what is done to each family after it has grown. *)
Definition perform_with (bm ba : RetainedContext → RetainedContext) (op : Op) (c : RetainedContext) : RetainedContext :=
  match op with
  | OpReserve => (reserve_order c).2
  | OpMessage m s => let '(pushed, c) := push_user_message m s c in if pushed then bm c else c
  | OpAnswer a n => let '(pushed, c) := push_answer a n c in if pushed then ba c else c
  | OpMark => mark_user_messages_incomplete c
  | OpRecover f => bm (recover_texts f c)
  | OpRetain keep => retain_answers keep c
  | OpRollback turns id s => rollback turns id s c
  end.
Definition perform_op (op : Op) (c : RetainedContext) : RetainedContext :=
  match op with
  | OpReserve => (reserve_order c).2
  | OpMessage m s => record_user_message m s c
  | OpAnswer a n => (record a n c).2
  | OpMark => mark_user_messages_incomplete c
  | OpRecover f => recover_user_message_excerpts f c
  | OpRetain keep => retain_answers keep c
  | OpRollback turns id s => rollback turns id s c
  end.
Lemma perform_op_with op c : perform_op op c = perform_with bound_messages bound_answers op c.
Proof. destruct op; try done. cbn. unfold record. by destruct (push_answer _ _ _). Qed.

(** Without limits a family is only kept in order. *)
Definition keep_messages (c : RetainedContext) : RetainedContext :=
  set_messages (sort_in_order key (user_messages c)) (user_messages_incomplete c) c.
Definition keep_answers (c : RetainedContext) : RetainedContext :=
  set_answers (sort_in_order key (verified_answers c)) (verified_answers_incomplete c) c.

Definition perform_ops (ops : list Op) (c : RetainedContext) : RetainedContext := foldl (λ c op, perform_op op c) c ops.
Definition perform_all_with (bm ba : RetainedContext → RetainedContext) (ops : list Op) (c : RetainedContext) : RetainedContext :=
  foldl (λ c op, perform_with bm ba op c) c ops.

Lemma perform_ops_with ops c : perform_ops ops c = perform_all_with bound_messages bound_answers ops c.
Proof. revert c. induction ops as [|op ops IH]; intros c; [done|]. cbn. rewrite perform_op_with. apply IH. Qed.

(** *** What recording does *)
Lemma first_position_Some {A} (p : A → bool) l i : position p l = Some i → ∃ x, l !! i = Some x ∧ p x = true.
Proof.
  revert i. induction l as [|y l IH]; intros i; [done|]. cbn. destruct (p y) eqn:E; [intros [= <-]; eauto|].
  destruct (position p l) as [j|]; [|done]. intros [= <-]. by apply IH.
Qed.
(** What is left of a family to which a record of the same source is added. *)
Definition without {A} (p : A → bool) (l : list A) : list A := match position p l with Some i => delete i l | None => l end.
Lemma without_sublist {A} (p : A → bool) l : sublist (without p l) l.
Proof. unfold without. destruct (position p l); [apply sublist_delete|done]. Qed.

Definition from_parent (s : RetainedInputSource) : bool := bool_decide (s = SourceInherited).

Lemma push_message_cases m s c :
  (push_user_message m s c = (false, lose_answers (from_parent s) c) ∧
     ∃ e, e ∈ user_messages c ∧ value e = bound_message m ∧ inherited e = from_parent s) ∨
  let l := without (same_message (bound_message m)) (user_messages c) in
  let n := if from_parent s then inherited_order l else default (next_order c) (acceptance_order s) in
  push_user_message m s c =
    (true, mkContext (verified_answers c) (verified_answers_incomplete c || from_parent s)
             (l ++ [mkOrdered (from_parent s) n (bound_message m)]) (user_messages_incomplete c)
             (if from_parent s then next_order c else N.max (next_order c) (saturating_add n 1))).
Proof.
  unfold push_user_message, without, from_parent. cbn [user_messages lose_answers set_answers].
  destruct (position _ _) as [i|] eqn:Hp; [|right; cbn; by destruct (bool_decide (s = SourceInherited))].
  apply first_position_Some in Hp as (e & He & _). rewrite He. destruct (_ && _) eqn:E; [left|right; cbn; by destruct (bool_decide (s = SourceInherited))].
  apply andb_true_iff in E as [E1%bool_decide_eq_true E2%eqb_prop]. split; [done|]. exists e. split_and!; try done. by eapply list_elem_of_lookup_2.
Qed.

Lemma push_answer_cases a n c :
  (push_answer a n c = (false, c) ∧ ∃ e, e ∈ verified_answers c ∧ value e = bound_answer a) ∨
  let o := default (next_order c) n in
  push_answer a n c =
    (true, mkContext (without (same_answer (bound_answer a)) (verified_answers c) ++ [mkOrdered false o (bound_answer a)])
             (verified_answers_incomplete c) (user_messages c) (user_messages_incomplete c) (N.max (next_order c) (saturating_add o 1))).
Proof.
  unfold push_answer, without. destruct (position _ _) as [i|] eqn:Hp; [|by right].
  apply first_position_Some in Hp as (e & He & _). rewrite He. case_bool_decide as E; [left|by right]. split; [done|]. exists e. split; [|done]. by eapply list_elem_of_lookup_2.
Qed.

Lemma bound_messages_complete c : user_messages_incomplete (bound_messages c) = false →
  bound_messages c = keep_messages c ∧ user_messages_incomplete c = false.
Proof.
  unfold bound_messages, bound_family. destruct (evict _ _ _) as [l lost] eqn:E. apply evict_spec in E as (k & Hk & -> & _).
  cbn. intros [Hc Hn]%orb_false_iff. destruct k; [|done]. unfold keep_messages. rewrite Hk, Hc. done.
Qed.
Lemma bound_answers_complete c : verified_answers_incomplete (bound_answers c) = false →
  bound_answers c = keep_answers c ∧ verified_answers_incomplete c = false.
Proof.
  unfold bound_answers, bound_family. destruct (evict _ _ _) as [l lost] eqn:E. apply evict_spec in E as (k & Hk & -> & _).
  cbn. intros [Hc Hn]%orb_false_iff. destruct k; [|done]. unfold keep_answers. rewrite Hk, Hc. done.
Qed.
Lemma bound_messages_others c : verified_answers (bound_messages c) = verified_answers c ∧
  verified_answers_incomplete (bound_messages c) = verified_answers_incomplete c ∧ next_order (bound_messages c) = next_order c.
Proof. unfold bound_messages. by destruct (bound_family _ _ _). Qed.
Lemma bound_answers_others c : user_messages (bound_answers c) = user_messages c ∧
  user_messages_incomplete (bound_answers c) = user_messages_incomplete c ∧ next_order (bound_answers c) = next_order c.
Proof. unfold bound_answers. by destruct (bound_family _ _ _). Qed.

(** *** A family that is not marked is whole *)
Lemma messages_step ba op c : (∀ c, user_messages_incomplete (ba c) = user_messages_incomplete c) →
  user_messages_incomplete (perform_with bound_messages ba op c) = false →
  user_messages_incomplete c = false ∧ perform_with bound_messages ba op c = perform_with keep_messages ba op c.
Proof.
  intros Hba. destruct op as [|m s|a n| |f|keep|turns id s]; cbn [perform_with]; try done.
  - destruct (push_message_cases m s c) as [[-> _]| ->]; cbn [lose_answers]; [done|]. intros [-> Hc]%bound_messages_complete. done.
  - destruct (push_answer_cases a n c) as [[-> _]| ->]; [done|]. by rewrite Hba.
  - intros [-> Hc]%bound_messages_complete. done.
  - unfold rollback. destruct (boundary _ _ _); cbn; [done|]. intros [[? _]%orb_false_iff _]%orb_false_iff. done.
Qed.
Lemma answers_step bm op c : (∀ c, verified_answers_incomplete (bm c) = verified_answers_incomplete c) →
  verified_answers_incomplete (perform_with bm bound_answers op c) = false →
  verified_answers_incomplete c = false ∧ perform_with bm bound_answers op c = perform_with bm keep_answers op c.
Proof.
  intros Hbm. destruct op as [|m s|a n| |f|keep|turns id s]; cbn [perform_with]; try done.
  - destruct (push_message_cases m s c) as [[-> _]| ->]; cbn; rewrite ?Hbm; cbn; intros [? _]%orb_false_iff; done.
  - destruct (push_answer_cases a n c) as [[-> _]| ->]; [done|]. intros [-> Hc]%bound_answers_complete. done.
  - by rewrite Hbm.
  - unfold rollback. by destruct (boundary _ _ _).
Qed.

Lemma run_simulation (flag : RetainedContext → bool) bm ba bm' ba' ops c :
  (∀ op c, flag (perform_with bm ba op c) = false → flag c = false ∧ perform_with bm ba op c = perform_with bm' ba' op c) →
  flag (perform_all_with bm ba ops c) = false → flag c = false ∧ perform_all_with bm ba ops c = perform_all_with bm' ba' ops c.
Proof.
  intros Hstep. induction ops as [|op ops IH] using rev_ind; [done|]. unfold perform_all_with in *. rewrite !foldl_app. cbn.
  intros [Hf ->]%Hstep. destruct (IH Hf) as [Hc ->]. done.
Qed.

(** *** What is retained was recorded *)
Lemma bound_messages_incl c : user_messages (bound_messages c) ⊆ user_messages c.
Proof.
  unfold bound_messages, bound_family. destruct (evict _ _ _) as [l lost] eqn:E. apply evict_spec in E as (k & Hk & _). cbn.
  intros x Hx. rewrite <-(sort_perm key (user_messages c)), Hk. set_solver.
Qed.

Lemma recover_incomplete f e : complete (value (recover_excerpt f e)) = true → recover_excerpt f e = e.
Proof.
  unfold recover_excerpt. destruct (is_empty _ && negb (complete (value e))) eqn:E; [|done]. apply andb_true_iff in E as [_ E%negb_true_iff].
  destruct (message_id (value e)) as [id|]; [|done]. destruct (f id); [|done]. cbn [value].
  match goal with |- complete (bound_message ?x) = _ → _ => destruct (bound_message_cases x) as [-> | ->] end; cbn [complete]; congruence.
Qed.

Lemma complete_was_recorded ops e : e ∈ user_messages (perform_ops ops default_context) → complete (value e) = true →
  ∃ s, OpMessage (value e) s ∈ ops.
Proof.
  revert e. induction ops as [|op ops IH] using rev_ind; [set_solver|]. unfold perform_ops in *. rewrite foldl_app. cbn [foldl].
  set (c := foldl _ _ _) in *. intros e He Hc.
  assert (e ∈ user_messages c ∨ ∃ m s, op = OpMessage m s ∧ value e = bound_message m) as [Hin|(m & s & -> & Hv)].
  { rewrite perform_op_with in He. destruct op as [|m s|a n| |f|keep|turns id s]; cbn [perform_with] in He.
    - by left.
    - destruct (push_message_cases m s c) as [[E _]|E]; rewrite E in He; [by left|]. apply bound_messages_incl in He. cbn in He.
      apply elem_of_app in He as [He| ->%list_elem_of_singleton]; [|right; eauto].
      left. eapply sublist_subseteq; [apply without_sublist|done].
    - left. destruct (push_answer_cases a n c) as [[E _]|E]; rewrite E in He; [done|]. by rewrite (proj1 (bound_answers_others _)) in He.
    - by left.
    - left. apply bound_messages_incl in He. apply list_elem_of_fmap in He as (e' & -> & He'). by rewrite recover_incomplete.
    - by left.
    - left. unfold rollback in He. destruct (boundary _ _ _); apply elem_of_filterb in He; tauto. }
  - destruct (IH e Hin Hc) as [s Hs]. exists s. set_solver.
  - exists s. rewrite Hv in Hc |- *. rewrite bound_message_complete by done. set_solver.
Qed.

(** *** What was recorded is retained *)

(** An operation that in the state [c] neither replaces nor takes back what [m],
    recorded from [s], became at the place [k]. A rollback to a boundary takes back
    what is not before it; without a boundary it takes back the turns it names,
    which is recorded as a loss, and those to the parent's evidence all that is local. *)
Definition spares (m : RetainedUserMessage) (s : RetainedInputSource) (k : RetainedContextOrder) (c : RetainedContext) (op : Op) : Prop :=
  match op with
  | OpMessage m' _ => message_id (bound_message m') = None ∨ message_id (bound_message m') ≠ message_id (bound_message m)
  | OpRollback _ id source =>
      match boundary id source c with
      | Some b => order_lt k b = true
      | None => source = SourceInherited → s = SourceInherited
      end
  | _ => True
  end.
Fixpoint spared (m : RetainedUserMessage) (s : RetainedInputSource) (k : RetainedContextOrder) (c : RetainedContext) (ops : list Op) : Prop :=
  match ops with
  | [] => True
  | op :: ops => spares m s k c op ∧ spared m s k (perform_op op c) ops
  end.

(** The record of [m] at the place [k], which may have lost its text. *)
Record record_of (m : RetainedUserMessage) (s : RetainedInputSource) (k : RetainedContextOrder) (e : Ordered RetainedUserMessage) : Prop := mkRecordOf {
  record_key : key e = k;
  record_source : inherited e = from_parent s;
  record_id : message_id (value e) = message_id (bound_message m);
  record_text : value e = m ∨ complete (value e) = false ∧ truncate_at 1024 <$> message_id (value e) = message_id (value e)
}.

Lemma record_of_bound m s e : complete m = true → inherited e = from_parent s → value e = bound_message m → record_of m s (key e) e.
Proof.
  intros Hm Hi Hv. split; [done|done|by rewrite Hv|]. rewrite Hv. destruct (bound_message_cases m) as [-> | ->]; [by left|right].
  cbn [complete message_id]. split; [done|]. destruct (message_id m) as [id|]; [|done]. cbn [fmap option_fmap option_map]. by rewrite truncate_at_idemp.
Qed.

Lemma record_of_recover m s k f e : complete m = true → record_of m s k e → record_of m s k (recover_excerpt f e).
Proof.
  intros Hm Hr. pose proof Hr as [H0 H1 H2 H3]. unfold recover_excerpt. destruct (is_empty _ && _) eqn:E; [|done]. apply andb_true_iff in E as [_ E%negb_true_iff].
  destruct (message_id (value e)) as [id|] eqn:Hid; [|done]. destruct (f id) as [t|]; [|done].
  destruct H3 as [H3|[_ H3]]; [congruence|]. split; cbn [inherited value]; [done|done|..].
  - match goal with |- message_id (bound_message ?x) = _ => destruct (bound_message_cases x) as [-> | ->] end; cbn [message_id]; congruence.
  - right. match goal with |- complete (bound_message ?x) = _ ∧ _ => destruct (bound_message_cases x) as [-> | ->] end; cbn [complete message_id];
      (split; [done|]); [done|]. by rewrite H3.
Qed.

Lemma without_keeps {A} (p : A → bool) (l : list A) x : x ∈ l → p x = false → x ∈ without p l.
Proof.
  intros Hx Hp. unfold without. destruct (position p l) as [i|] eqn:Hi; [|done]. apply first_position_Some in Hi as (y & Hy & Hpy).
  apply list_elem_of_lookup in Hx as [j Hj]. destruct (decide (j = i)) as [->|Hne]; [congruence|].
  destruct (decide (j < i)).
  - apply (list_elem_of_lookup_2 _ j). by rewrite list_lookup_delete_lt.
  - apply (list_elem_of_lookup_2 _ (j - 1)). rewrite list_lookup_delete_ge by lia. by replace (S (j - 1)) with j by lia.
Qed.

Lemma spared_step m s k op c : complete m = true → spares m s k c op → user_messages_incomplete (perform_op op c) = false →
  (∃ e, e ∈ user_messages c ∧ record_of m s k e) → ∃ e, e ∈ user_messages (perform_op op c) ∧ record_of m s k e.
Proof.
  intros Hm Hs Hf (e & He & Hr). rewrite perform_op_with in *. pose proof Hf as Hf'.
  apply messages_step in Hf as [_ E]; [|intros x; apply bound_answers_others]. rewrite E in *. clear E.
  destruct op as [|m' s'|a n| |f|keep|turns id s']; cbn [perform_with spares] in *; try (by exists e).
  - destruct (push_message_cases m' s' c) as [[-> _]| ->]; [by exists e|]. exists e. split; [|done].
    cbn [keep_messages set_messages user_messages]. rewrite sort_perm. apply elem_of_app. left. apply without_keeps; [done|]. unfold same_message.
    rewrite (record_id _ _ _ _ Hr). destruct Hs as [-> | Hs]; [done|]. rewrite (bool_decide_eq_false_2 (message_id _ = _)) by congruence. apply andb_false_r.
  - exists e. destruct (push_answer_cases a n c) as [[-> _]| ->]; [done|]. by rewrite (proj1 (bound_answers_others _)).
  - exists (recover_excerpt f e). split; [|by apply record_of_recover]. cbn [keep_messages set_messages user_messages]. rewrite sort_perm. by apply list_elem_of_fmap_2.
  - exists e. split; [|done]. unfold rollback in *. destruct (boundary id s' c) as [b|]; cbn [cut_before set_messages set_answers user_messages user_messages_incomplete] in *.
    + apply elem_of_filterb. split; [done|]. by rewrite (record_key _ _ _ _ Hr).
    + apply orb_false_iff in Hf' as [_ Ht]. apply elem_of_filterb. split; [done|]. apply andb_true_iff. split.
      * rewrite (record_source _ _ _ _ Hr). unfold from_parent. case_bool_decide as Hi; [|done]. by rewrite bool_decide_eq_true_2 by auto.
      * apply negb_true_iff. destruct (contains_id turns _) eqn:Ec; [|done]. rewrite <-Ht. symmetry. apply existsb_exists. exists e. by rewrite <-list_elem_of_In.
Qed.

Lemma recorded_step m s c : complete m = true → user_messages_incomplete (perform_op (OpMessage m s) c) = false →
  ∃ e, e ∈ user_messages (perform_op (OpMessage m s) c) ∧ value e = bound_message m ∧ inherited e = from_parent s.
Proof.
  intros Hm Hf. rewrite perform_op_with in *.
  destruct (messages_step bound_answers (OpMessage m s) c (λ c, proj1 (proj2 (bound_answers_others c))) Hf) as [_ ->]. cbn [perform_with].
  destruct (push_message_cases m s c) as [(-> & e & He & Hv & Hi)| ->]; [by exists e|].
  match goal with |- context [_ ++ [?x]] => exists x end. split; [|done].
  cbn [keep_messages set_messages user_messages]. rewrite sort_perm. apply elem_of_app. right. by apply list_elem_of_singleton.
Qed.

(** A run marks a loss for good. *)
Lemma still_whole ops c : user_messages_incomplete (perform_ops ops c) = false → user_messages_incomplete c = false.
Proof.
  rewrite perform_ops_with. apply (run_simulation user_messages_incomplete bound_messages bound_answers keep_messages bound_answers).
  intros op c'. apply messages_step. intros x. apply bound_answers_others.
Qed.

Lemma spared_run m s k ops c : complete m = true → spared m s k c ops → user_messages_incomplete (perform_ops ops c) = false →
  (∃ e, e ∈ user_messages c ∧ record_of m s k e) → ∃ e, e ∈ user_messages (perform_ops ops c) ∧ record_of m s k e.
Proof.
  intros Hm. revert c. induction ops as [|op ops IH]; intros c; [done|]. intros [Hop Hs] Hf He. apply IH; [done|done|].
  apply spared_step; try done. by apply (still_whole ops).
Qed.

Lemma user_messages_complete_iff c : user_messages_complete c = true ↔
  user_messages_incomplete c = false ∧ ∀ e, e ∈ user_messages c → complete (value e) = true.
Proof. unfold user_messages_complete, has_missing_user_messages. rewrite andb_true_iff, negb_true_iff, forallb_forall. by setoid_rewrite list_elem_of_In. Qed.

(** C17: evidence said to be complete is all there was. When the instructions of
    a thread are said to be complete, its state is the one that a run without limits
    on instructions gives; every retained instruction was recorded with exactly
    its text; and every complete instruction ever recorded is retained with exactly
    its text, at the place in the order that it was given when it was recorded,
    unless a later record of the same identity replaced it or a later rollback went
    back to a boundary that is not past its place (or to the parent's evidence, when
    it is not the parent's). The state is likewise that of a run without limits on answers when these
    are said to be complete, and without any limits when both are. *)
Theorem complete_evidence_is_whole ops : let c := perform_ops ops default_context in
  (user_messages_complete c = true →
     c = perform_all_with keep_messages bound_answers ops default_context ∧
     (∀ e, e ∈ user_messages c → ∃ s, OpMessage (value e) s ∈ ops) ∧
     ∀ before m s after, ops = before ++ OpMessage m s :: after → complete m = true →
       let c1 := perform_ops (before ++ [OpMessage m s]) default_context in
       ∃ e1, e1 ∈ user_messages c1 ∧ value e1 = bound_message m ∧ inherited e1 = from_parent s ∧
         (spared m s (key e1) c1 after → ∃ e, e ∈ user_messages c ∧ value e = m ∧ key e = key e1)) ∧
  (verified_answers_complete c = true →
     c = perform_all_with bound_messages keep_answers ops default_context ∧
     (user_messages_complete c = true → c = perform_all_with keep_messages keep_answers ops default_context)).
Proof.
  cbv zeta. set (c := perform_ops ops default_context). split.
  - intros [Hf Hall]%user_messages_complete_iff. split_and!.
    + unfold c in *. rewrite perform_ops_with in *. apply (run_simulation user_messages_incomplete); [|done].
      intros op c'. apply messages_step. intros x. apply bound_answers_others.
    + intros e He. apply complete_was_recorded; [done|by apply Hall].
    + intros before m s after -> Hm. set (c1 := perform_ops (before ++ [_]) default_context). assert (c = perform_ops after c1) as Ec by (unfold c, c1, perform_ops; rewrite !foldl_app; reflexivity).
      rewrite Ec in Hf, Hall |- *. pose proof (still_whole after c1 Hf) as Hf1. unfold c1, perform_ops in Hf1. rewrite foldl_app in Hf1. cbn [foldl] in Hf1.
      destruct (recorded_step m s _ Hm Hf1) as (e1 & He1 & Hv & Hi). exists e1.
      split; [unfold c1, perform_ops; by rewrite foldl_app|]. split_and!; [done..|]. intros Hsp.
      destruct (spared_run m s (key e1) after c1 Hm Hsp Hf) as (e & He & [H0 _ _ H3]).
      { exists e1. split; [unfold c1, perform_ops; by rewrite foldl_app|]. by apply record_of_bound. }
      exists e. destruct H3 as [?|[H3 _]]; [done|]. by rewrite Hall in H3.
  - intros Ha. assert (verified_answers_incomplete c = false) as Hf by (apply andb_true_iff in Ha as [Ha _]; by apply negb_true_iff).
    unfold c in *. rewrite perform_ops_with in *.
    assert (perform_all_with bound_messages bound_answers ops default_context = perform_all_with bound_messages keep_answers ops default_context) as E.
    { apply (run_simulation verified_answers_incomplete); [|done]. intros op c'. apply answers_step. intros x. apply bound_messages_others. }
    split; [done|]. intros [Hm _]%user_messages_complete_iff. rewrite E in *. apply (run_simulation user_messages_incomplete); [|done].
    intros op c'. by apply messages_step.
Qed.

(** ** Limits and checkpoints *)
Definition entries_ok (c : RetainedContext) : Prop :=
  (∀ e, e ∈ verified_answers c → bound_answer (value e) = value e ∧ (saturating_add (order e) 1 ≤ next_order c)%N) ∧
  (∀ e, e ∈ user_messages c → bound_message (value e) = value e ∧
     if inherited e then verified_answers_incomplete c = true else (saturating_add (order e) 1 ≤ next_order c)%N).
Definition family_ok {T} (to_vec : list (Ordered T) → option N) (l : list (Ordered T)) : Prop := in_order key l ∧ fits to_vec l.

(** In order, within the limits, and the counter beyond every order in use. *)
Record context_ok (c : RetainedContext) : Prop := mkContextOk {
  ok_entries : entries_ok c;
  ok_answers : family_ok answers_json (verified_answers c);
  ok_messages : family_ok messages_json (user_messages c);
  ok_next : (next_order c ≤ USIZE_MAX)%N
}.

Lemma entries_ok_sub c c' : entries_ok c → verified_answers c' ⊆ verified_answers c → user_messages c' ⊆ user_messages c →
  (next_order c ≤ next_order c')%N → (verified_answers_incomplete c = true → verified_answers_incomplete c' = true) → entries_ok c'.
Proof.
  intros [H1 H2] Ha Hm Hn Hi. split; intros e He.
  - destruct (H1 e (Ha e He)). split; [done|lia].
  - destruct (H2 e (Hm e He)) as [? H3]. split; [done|]. destruct (inherited e); [auto|lia].
Qed.

Lemma family_of_evict {T} (to_vec : list (Ordered T) → option N) items lost l lost' :
  over MAX_FAMILY_BYTES (to_vec []) = false → bound_family to_vec items lost = (l, lost') → family_ok to_vec l ∧ l ⊆ items.
Proof.
  intros Hn (k & Hk & _ & Hf)%evict_spec. split; [split; [|by apply Hf]|].
  - apply (in_order_suffix key k). rewrite <-Hk. apply sort_sorted.
  - intros x Hx. rewrite <-(sort_perm key items), Hk. set_solver.
Qed.
Lemma bound_family_id {T} (to_vec : list (Ordered T) → option N) l lost : family_ok to_vec l → bound_family to_vec l lost = (l, lost).
Proof. intros [Ho Hf]. unfold bound_family. rewrite sort_id by done. by apply evict_fits. Qed.

Lemma filter_sublist {A} (p : A → bool) (l : list A) : sublist (List.filter p l) l.
Proof. induction l as [|x l IH]; cbn; [constructor|]. destruct (p x); by constructor. Qed.

Context {HJ : JsonLaws J}.

Lemma messages_nil_fits : over MAX_FAMILY_BYTES (messages_json []) = false.
Proof. by rewrite messages_json_nil. Qed.
Lemma answers_nil_fits : over MAX_FAMILY_BYTES (answers_json []) = false.
Proof. by rewrite answers_json_nil. Qed.

Lemma filter_messages_ok p l : family_ok messages_json l → family_ok messages_json (List.filter p l).
Proof.
  intros [Ho [Hl Hf]]. split; [by apply in_order_filter|]. split; [pose proof (sublist_length _ _ (filter_sublist p l)); lia|].
  destruct (messages_json l) as [n|] eqn:E; [|done]. destruct (messages_json_sublist _ _ n (filter_sublist p l) E) as (k & -> & Hk).
  by eapply over_le.
Qed.
Lemma filter_answers_ok p l : family_ok answers_json l → family_ok answers_json (List.filter p l).
Proof.
  intros [Ho [Hl Hf]]. split; [by apply in_order_filter|]. split; [pose proof (sublist_length _ _ (filter_sublist p l)); lia|].
  destruct (answers_json l) as [n|] eqn:E; [|done]. destruct (answers_json_sublist _ _ n (filter_sublist p l) E) as (k & -> & Hk).
  by eapply over_le.
Qed.

Lemma bound_messages_ok c : entries_ok c → family_ok answers_json (verified_answers c) → (next_order c ≤ USIZE_MAX)%N →
  context_ok (bound_messages c).
Proof.
  intros He Ha Hn. unfold bound_messages. destruct (bound_family _ _ _) as [l lost] eqn:E.
  destruct (family_of_evict _ _ _ _ _ messages_nil_fits E) as [Hl Hs]. split; [|done..]. by apply (entries_ok_sub c).
Qed.
Lemma bound_answers_ok c : entries_ok c → family_ok messages_json (user_messages c) → (next_order c ≤ USIZE_MAX)%N →
  context_ok (bound_answers c).
Proof.
  intros He Hm Hn. unfold bound_answers. destruct (bound_family _ _ _) as [l lost] eqn:E.
  destruct (family_of_evict _ _ _ _ _ answers_nil_fits E) as [Hl Hs].
  apply evict_spec in E as (k & _ & -> & _). split; [|done..]. apply (entries_ok_sub c); try done. cbn. by intros ->.
Qed.

Lemma elem_without {A} (p : A → bool) (l : list A) x : x ∈ without p l → x ∈ l.
Proof. apply sublist_subseteq, without_sublist. Qed.

Lemma saturating_add_bound x y : (saturating_add x y ≤ USIZE_MAX)%N.
Proof. unfold saturating_add. lia. Qed.

Lemma push_message_ok m s c b c' : context_ok c → push_user_message m s c = (b, c') →
  entries_ok c' ∧ verified_answers c' = verified_answers c ∧ (next_order c' ≤ USIZE_MAX)%N ∧ (b = false → context_ok c').
Proof.
  intros [He Ha Hm Hn]. destruct (push_message_cases m s c) as [[-> _]| ->]; intros [= <- <-].
  - assert (entries_ok (lose_answers (from_parent s) c)) by (apply (entries_ok_sub c); try done; cbn; by intros ->). by split_and!.
  - split_and!; [|done| |done].
    + destruct He as [H1 H2]. split; cbn [verified_answers user_messages next_order verified_answers_incomplete]; intros e Hin.
      * destruct (H1 e Hin). split; [done|]. destruct (from_parent s); lia.
      * apply elem_of_app in Hin as [Hin%elem_without| ->%list_elem_of_singleton].
        -- destruct (H2 e Hin) as [? H3]. split; [done|]. destruct (inherited e); [by rewrite H3|]. destruct (from_parent s); lia.
        -- cbn [value inherited order]. split; [apply bound_message_idemp|]. destruct (from_parent s); [apply orb_true_r|lia].
    + cbn [next_order]. destruct (from_parent s); [done|]. apply N.max_lub; [done|apply saturating_add_bound].
Qed.
Lemma push_answer_ok a n c b c' : context_ok c → push_answer a n c = (b, c') →
  entries_ok c' ∧ user_messages c' = user_messages c ∧ (next_order c' ≤ USIZE_MAX)%N ∧ (b = false → context_ok c').
Proof.
  intros H. pose proof H as [He Ha Hm Hn]. destruct (push_answer_cases a n c) as [[-> _]| ->]; intros [= <- <-]; [done|].
  split_and!; [|done| |done].
  - destruct He as [H1 H2]. split; cbn [verified_answers user_messages next_order verified_answers_incomplete]; intros e Hin.
    + apply elem_of_app in Hin as [Hin%elem_without| ->%list_elem_of_singleton].
      * destruct (H1 e Hin). split; [done|lia].
      * cbn [value order]. split; [apply bound_answer_idemp|lia].
    + destruct (H2 e Hin) as [? H3]. split; [done|]. destruct (inherited e); [done|lia].
  - cbn [next_order]. apply N.max_lub; [done|apply saturating_add_bound].
Qed.

Lemma recover_texts_ok f c : entries_ok c → entries_ok (recover_texts f c).
Proof.
  intros [H1 H2]. split; [done|]. cbn [recover_texts set_messages user_messages]. intros e (e' & -> & He')%list_elem_of_fmap.
  destruct (H2 e' He') as [H3 H4]. unfold recover_excerpt. destruct (_ && _); [|done]. destruct (message_id (value e')); [|done].
  destruct (f _); [|done]. cbn [value inherited order]. split; [apply bound_message_idemp|done].
Qed.

Lemma elem_filter_incl {A} (p : A → bool) (l : list A) : List.filter p l ⊆ l.
Proof. intros x [? _]%elem_of_filterb. done. Qed.

Lemma perform_op_ok op c : context_ok c → context_ok (perform_op op c).
Proof.
  intros H. pose proof H as [He Ha Hm Hn]. rewrite perform_op_with. destruct op as [|m s|a n| |f|keep|turns id s]; cbn [perform_with].
  - split; [|done..|apply saturating_add_bound]. apply (entries_ok_sub c); try done. cbn. unfold saturating_add. lia.
  - destruct (push_user_message m s c) as [b c'] eqn:E. destruct (push_message_ok _ _ _ _ _ H E) as (H1 & H2 & H3 & H4).
    destruct b; [|by apply H4]. apply bound_messages_ok; [done|by rewrite H2|done].
  - destruct (push_answer a n c) as [b c'] eqn:E. destruct (push_answer_ok _ _ _ _ _ H E) as (H1 & H2 & H3 & H4).
    destruct b; [|by apply H4]. apply bound_answers_ok; [done|by rewrite H2|done].
  - split; [|done..]. by apply (entries_ok_sub c).
  - apply bound_messages_ok; [by apply recover_texts_ok|done..].
  - split; [|by apply filter_answers_ok|done..]. apply (entries_ok_sub c); try done. apply elem_filter_incl.
  - unfold rollback. destruct (boundary _ _ _); (split; [|by apply filter_answers_ok|by apply filter_messages_ok|done]);
      apply (entries_ok_sub c); try done; apply elem_filter_incl.
Qed.

(** *** Restoring *)
Lemma restore_answers_ok l c : entries_ok c → (next_order c ≤ USIZE_MAX)%N →
  let c' := foldl restore_answer c l in entries_ok c' ∧ (next_order c' ≤ USIZE_MAX)%N.
Proof.
  revert c. induction l as [|e l IH]; intros c Hc Hn; cbn [foldl]; [done|]. apply IH.
  - destruct Hc as [H1 H2]. split; cbn [restore_answer verified_answers user_messages next_order verified_answers_incomplete]; intros x Hx.
    + apply elem_of_app in Hx as [Hx| ->%list_elem_of_singleton]; [destruct (H1 x Hx); split; [done|lia]|].
      cbn [value order]. split; [apply bound_answer_idemp|lia].
    + destruct (H2 x Hx) as [? H3]. split; [done|]. destruct (inherited x); [done|lia].
  - cbn. apply N.max_lub; [done|apply saturating_add_bound].
Qed.
Lemma restore_messages_ok l c : entries_ok c → (next_order c ≤ USIZE_MAX)%N →
  let c' := foldl restore_message c l in entries_ok c' ∧ (next_order c' ≤ USIZE_MAX)%N.
Proof.
  revert c. induction l as [|e l IH]; intros c Hc Hn; cbn [foldl]; [done|]. apply IH.
  - destruct Hc as [H1 H2]. split; cbn [restore_message verified_answers user_messages next_order verified_answers_incomplete]; intros x Hx.
    + destruct (H1 x Hx). split; [done|]. destruct (inherited e); lia.
    + apply elem_of_app in Hx as [Hx| ->%list_elem_of_singleton].
      * destruct (H2 x Hx) as [? H3]. split; [done|]. destruct (inherited x); [by rewrite H3|]. destruct (inherited e); lia.
      * cbn [value inherited order]. split; [apply bound_message_idemp|]. destruct (inherited e); [apply orb_true_r|lia].
  - cbn. destruct (inherited e); [done|]. apply N.max_lub; [done|apply saturating_add_bound].
Qed.
Lemma restore_orders_ok l c : entries_ok c → (next_order c ≤ USIZE_MAX)%N →
  let c' := foldl (λ c n, set_next (N.max (next_order c) (saturating_add n 1)) c) c l in entries_ok c' ∧ (next_order c' ≤ USIZE_MAX)%N.
Proof.
  revert c. induction l as [|n l IH]; intros c Hc Hn; cbn [foldl]; [done|]. apply IH.
  - apply (entries_ok_sub c); try done. cbn. lia.
  - cbn. apply N.max_lub; [done|apply saturating_add_bound].
Qed.

Lemma restore_ok cp items : (∀ c, cp = Some c → (next_order c ≤ USIZE_MAX)%N) → context_ok (restore cp items).
Proof.
  intros Hcp. unfold restore. set (c := default _ cp).
  assert (next_order c ≤ USIZE_MAX)%N as Hn by (unfold c; destruct cp as [x|]; [by apply Hcp|cbn; lia]).
  match goal with |- context [foldl restore_answer ?x _] => assert (entries_ok x) as H0 by (split; cbn; set_solver) end.
  destruct (restore_answers_ok (verified_answers c) _ H0 Hn) as [H1 Hn1].
  destruct (restore_messages_ok (user_messages c) _ H1 Hn1) as [H2 Hn2].
  destruct (restore_orders_ok (surviving_orders items) _ H2 Hn2) as [H3 Hn3].
  match goal with |- context_ok (bound_messages (bound_answers ?x)) => set (c3 := x) in * end.
  unfold bound_answers. destruct (bound_family _ (verified_answers c3) _) as [l lost] eqn:E.
  destruct (family_of_evict _ _ _ _ _ answers_nil_fits E) as [Hl Hs]. apply bound_messages_ok; [|done..].
  apply evict_spec in E as (k & _ & -> & _). apply (entries_ok_sub c3); try done. cbn. by intros ->.
Qed.

Inductive reachable_context : RetainedContext → Prop :=
| reached_default : reachable_context default_context
| reached_restore cp items : (∀ c, cp = Some c → (next_order c ≤ USIZE_MAX)%N) → reachable_context (restore cp items)
| reached_op op c : reachable_context c → reachable_context (perform_op op c).

Lemma reachable_context_ok c : reachable_context c → context_ok c.
Proof.
  induction 1 as [|cp items Hcp|op c _ IH]; [|by apply restore_ok|by apply perform_op_ok].
  split; [split; cbn; set_solver|split; [constructor|]..|cbn; lia]; split; try (cbn; lia); [apply answers_nil_fits|apply messages_nil_fits].
Qed.

Lemma restore_answers_id l c : (∀ e, e ∈ l → bound_answer (value e) = value e ∧ (saturating_add (order e) 1 ≤ next_order c)%N) →
  foldl restore_answer c l = set_answers (verified_answers c ++ l) (verified_answers_incomplete c) c.
Proof.
  revert c. induction l as [|e l IH]; intros c H; cbn [foldl]; [rewrite app_nil_r; by destruct c|].
  destruct (H e) as [H1 H2]; [set_solver|]. assert (restore_answer c e = set_answers (verified_answers c ++ [e]) (verified_answers_incomplete c) c) as ->.
  { unfold restore_answer. rewrite H1, N.max_l by done. by destruct e. }
  rewrite IH by (intros x Hx; apply H; set_solver). cbn. by rewrite <-(assoc_L app).
Qed.
Lemma restore_messages_id l c : (∀ e, e ∈ l → bound_message (value e) = value e ∧
    if inherited e then verified_answers_incomplete c = true else (saturating_add (order e) 1 ≤ next_order c)%N) →
  foldl restore_message c l = set_messages (user_messages c ++ l) (user_messages_incomplete c) c.
Proof.
  revert c. induction l as [|e l IH]; intros c H; cbn [foldl]; [rewrite app_nil_r; by destruct c|].
  destruct (H e) as [H1 H2]; [set_solver|].
  assert (restore_message c e = set_messages (user_messages c ++ [e]) (user_messages_incomplete c) c) as ->.
  { unfold restore_message, set_messages. rewrite H1. destruct e as [[] n v]; cbn in *; [by rewrite H2|]. rewrite N.max_l by done. by rewrite orb_false_r. }
  rewrite IH by (intros x Hx; apply H; set_solver). cbn. by rewrite <-(assoc_L app).
Qed.
Definition next_after (orders : list N) (n : N) : N := foldl (λ n o, N.max n (saturating_add o 1)) n orders.
Lemma restore_orders_next l c :
  foldl (λ c n, set_next (N.max (next_order c) (saturating_add n 1)) c) c l = set_next (next_after l (next_order c)) c.
Proof. revert c. induction l as [|n l IH]; intros c; [by destruct c|]. cbn [foldl]. by rewrite IH. Qed.

(** C19: whatever was recorded, rolled back, recovered or restored from any
    checkpoint before: each family is in acceptance order, of at most eight
    records and 64 KiB, its records within their own limit, and the counter is past
    every local order in use. Such a state, saved and restored, is unchanged but for
    the counter, which is raised past the orders of the surviving items (and is
    unchanged too if it was past them). *)
Theorem checkpoint_roundtrip c items : reachable_context c →
  context_ok c ∧ restore (Some c) items = set_next (next_after (surviving_orders items) (next_order c)) c.
Proof.
  intros H%reachable_context_ok. split; [done|]. destruct H as [[He1 He2] Ha Hm Hn]. unfold restore. cbn [default].
  rewrite restore_answers_id by done. cbn [app set_answers set_messages verified_answers verified_answers_incomplete user_messages user_messages_incomplete next_order].
  rewrite restore_messages_id by done. rewrite restore_orders_next. cbn [app set_messages verified_answers verified_answers_incomplete user_messages user_messages_incomplete next_order].
  unfold bound_answers. cbn [set_next verified_answers verified_answers_incomplete]. rewrite bound_family_id by done.
  unfold bound_messages. cbn [set_next set_answers user_messages user_messages_incomplete]. rewrite bound_family_id by done. by destruct c.
Qed.

(** ** Rollback *)

(** In a list that is in order, what comes before a boundary is a prefix. *)
Lemma in_order_cut {A} (f : A → RetainedContextOrder) b (l : list A) : in_order f l →
  l = List.filter (λ x, order_lt (f x) b) l ++ List.filter (λ x, negb (order_lt (f x) b)) l.
Proof.
  induction 1 as [|x l Hs IH Hx]; [done|]. cbn [List.filter]. destruct (order_lt (f x) b) eqn:E; cbn [negb app].
  - by rewrite <-IH.
  - assert (∀ y, y ∈ l → order_lt (f y) b = false) as Hl.
    { intros y Hy. rewrite Forall_forall in Hx. specialize (Hx y Hy). destruct (order_lt (f y) b) eqn:Ey; [|done].
      by rewrite (order_le_lt_trans _ _ _ Hx Ey) in E. }
    assert (List.filter (λ x, order_lt (f x) b) l = []) as Hnil.
    { destruct (List.filter _ l) as [|y k] eqn:Ek; [done|]. assert (y ∈ List.filter (λ x, order_lt (f x) b) l) as [Hy Hlt]%elem_of_filterb by (rewrite Ek; left).
      by rewrite Hl in Hlt. }
    rewrite Hnil in IH |- *. cbn [app] in *. by rewrite <-IH.
Qed.

Lemma filter_map {A B} (p : B → bool) (g : A → B) (l : list A) : List.filter p (g <$> l) = g <$> List.filter (λ x, p (g x)) l.
Proof. induction l as [|x l IH]; [done|]. cbn. rewrite IH. by destruct (p (g x)). Qed.

Lemma cut_before_entries b c : ordered_entries (cut_before b c) = List.filter (λ e, order_lt e.1 b) (ordered_entries c).
Proof.
  unfold ordered_entries. rewrite (filter_sort fst (λ e, order_lt e.1 b)), List.filter_app, !filter_map. done.
Qed.

(** What is known to be recorded after a boundary. *)
Definition at_or_after (k : N) (n : option N) : Prop := match n with Some n => (k ≤ n)%N | None => True end.
Definition later (k : N) (id : str) (c : RetainedContext) (op : Op) : Prop :=
  match op with
  | OpReserve => True
  | OpMessage m s => ∃ n, s = SourceLocal n ∧ at_or_after k n ∧ message_id (bound_message m) ≠ Some id ∧
      ∀ e, e ∈ user_messages c → same_message (bound_message m) e = false
  | OpAnswer a n => at_or_after k n ∧ ∀ e, e ∈ verified_answers c → same_answer (bound_answer a) e = false
  | _ => False
  end.

(** The state after such operations: below the boundary it is what it was. *)
Record grown (k : N) (id : str) (c c' : RetainedContext) : Prop := mkGrown {
  grown_messages : List.filter (λ e, order_lt (key e) (Local k)) (user_messages c') = user_messages c;
  grown_answers : List.filter (λ e, order_lt (key e) (Local k)) (verified_answers c') = verified_answers c;
  grown_next : (k ≤ next_order c')%N;
  grown_only e : e ∈ user_messages c' → message_id (value e) = Some id → key e = Local k;
  grown_there : ∃ e, e ∈ user_messages c' ∧ message_id (value e) = Some id
}.

Lemma filter_without {A} (q p : A → bool) (l : list A) : (∀ x, x ∈ l → q x = true → p x = false) →
  List.filter q (without p l) = List.filter q l.
Proof.
  unfold without. induction l as [|x l IH]; intros H; [done|]. cbn [position]. destruct (p x) eqn:E.
  - cbn. destruct (q x) eqn:Eq; [|done]. by rewrite H in E by (done || left).
  - assert (∀ y, y ∈ l → q y = true → p y = false) as H' by (intros y Hy; apply H; by right). specialize (IH H').
    destruct (position p l) as [i|]; [|done]. cbn [fmap option_fmap option_map].
    change (delete (S i) (x :: l)) with (x :: delete i l). cbn [List.filter]. by rewrite IH.
Qed.

Lemma filter_grow {A} (f : A → RetainedContextOrder) b (l : list A) x base : in_order f base →
  List.filter (λ e, order_lt (f e) b) l = base → order_lt (f x) b = false →
  List.filter (λ e, order_lt (f e) b) (sort_in_order f (l ++ [x])) = base.
Proof.
  intros Hb Hl Hx. rewrite filter_sort, List.filter_app, Hl. cbn [List.filter]. rewrite Hx, app_nil_r. by apply sort_id.
Qed.

Lemma not_before k n : (k ≤ n)%N → order_lt (Local n) (Local k) = false.
Proof. intros H. unfold order_lt. cbn. by rewrite (proj2 (N.leb_le _ _)) by done. Qed.

Lemma default_after k n o : (k ≤ n)%N → at_or_after k o → (k ≤ default n o)%N.
Proof. by destruct o. Qed.

Lemma later_step k id op c c' : context_ok c → (k ≤ USIZE_MAX)%N → later k id c op → grown k id c c' → grown k id c (perform_with keep_messages keep_answers op c').
Proof.
  intros Hok Hk Hl Hg. pose proof Hg as [G1 G2 G3 G4 G5]. destruct op as [|m s|a n| |f|keep|turns i s]; cbn [later perform_with] in *; try done.
  - split; try done. cbn. unfold saturating_add. lia.
  - destruct Hl as (n & -> & Hn & Hid & Hsame). destruct (push_message_cases m (SourceLocal n) c') as [[-> _]| ->].
    { by split. }
    replace (from_parent (SourceLocal n)) with false by done. cbn [acceptance_order].
    assert (∀ e, e ∈ user_messages c' → order_lt (key e) (Local k) = true → same_message (bound_message m) e = false) as Hw.
    { intros e He Hlt. apply Hsame. rewrite <-G1. by apply elem_of_filterb. }
    split; cbn [keep_messages set_messages user_messages verified_answers next_order].
    + apply filter_grow; [apply Hok|by rewrite filter_without|]. apply not_before. by apply default_after.
    + done.
    + lia.
    + intros e. rewrite sort_perm. intros [He%elem_without| ->%list_elem_of_singleton]%elem_of_app; [by apply G4|]. done.
    + destruct G5 as (e & He & Hi). exists e. split; [|done]. rewrite sort_perm. apply elem_of_app. left. apply without_keeps; [done|].
      unfold same_message. rewrite (bool_decide_eq_false_2 (_ = message_id _)) by congruence. apply andb_false_r.
  - destruct Hl as [Hn Hsame]. destruct (push_answer_cases a n c') as [[-> _]| ->]; [done|].
    split; cbn [keep_answers set_answers user_messages verified_answers next_order]; try done; [|lia].
    apply filter_grow; [apply Hok| |apply not_before; by apply default_after].
    rewrite filter_without; [done|]. intros e He Hlt. apply Hsame. rewrite <-G2. by apply elem_of_filterb.
Qed.

Lemma below_next c : context_ok c → (next_order c < USIZE_MAX)%N →
  (∀ e, e ∈ user_messages c → order_lt (key e) (Local (next_order c)) = true) ∧
  (∀ e, e ∈ verified_answers c → order_lt (key e) (Local (next_order c)) = true).
Proof.
  intros [[H1 H2] _ _ _] Hn. unfold saturating_add, key, order_lt in *. split; intros e He.
  - destruct (H2 e He) as [_ H3]. destruct (inherited e); [done|]. cbn. rewrite (proj2 (N.leb_gt _ _)); [done|]. lia.
  - destruct (H1 e He) as [_ H3]. destruct (inherited e); [done|]. cbn. rewrite (proj2 (N.leb_gt _ _)); [done|]. lia.
Qed.

Lemma filter_every {A} (p : A → bool) (l : list A) : (∀ x, x ∈ l → p x = true) → List.filter p l = l.
Proof. induction l as [|x l IH]; intros H; [done|]. cbn. rewrite H by left. f_equal. apply IH. intros y Hy. apply H. by right. Qed.

Lemma grown_first m id c : context_ok c → (next_order c < USIZE_MAX)%N → message_id (bound_message m) = Some id →
  (∀ e, e ∈ user_messages c → message_id (value e) ≠ Some id) →
  grown (next_order c) id c (perform_with keep_messages keep_answers (OpMessage m (SourceLocal None)) c).
Proof.
  intros Hok Hn Hid Hfresh. destruct (below_next c Hok Hn) as [B1 B2]. cbn [perform_with].
  destruct (push_message_cases m (SourceLocal None) c) as [(_ & e & He & Hv & _)| ->]; [destruct (Hfresh e He); by rewrite Hv|].
  replace (from_parent (SourceLocal None)) with false by done. cbn [acceptance_order default].
  split; cbn [keep_messages set_messages user_messages verified_answers next_order].
  - apply filter_grow; [apply Hok| |by apply not_before]. rewrite filter_without; [by apply filter_every|].
    intros e He _. unfold same_message. rewrite (bool_decide_eq_false_2 (_ = message_id _)); [apply andb_false_r|]. rewrite Hid. by apply Hfresh.
  - by apply filter_every.
  - lia.
  - intros e. rewrite sort_perm. intros [He%elem_without| ->%list_elem_of_singleton]%elem_of_app; [|done]. intros Hi. by destruct (Hfresh e He).
  - match goal with |- context [_ ++ [?x]] => exists x end. split; [|done]. rewrite sort_perm. apply elem_of_app. right. by apply list_elem_of_singleton.
Qed.

Lemma grown_all m id c after : context_ok c → (next_order c < USIZE_MAX)%N → message_id (bound_message m) = Some id →
  (∀ e, e ∈ user_messages c → message_id (value e) ≠ Some id) → Forall (later (next_order c) id c) after →
  grown (next_order c) id c (perform_all_with keep_messages keep_answers (OpMessage m (SourceLocal None) :: after) c).
Proof.
  intros H Hn Hid Hf. unfold perform_all_with. cbn [foldl]. induction after as [|op after IH] using rev_ind; intros Hl; [by apply grown_first|].
  apply Forall_app in Hl as [Hl Hop]. apply Forall_cons in Hop as [Hop _]. rewrite foldl_app. cbn [foldl].
  apply later_step; [done|by apply H|done|]. by apply IH.
Qed.

End spec.

(** ** Reconciliation *)
Lemma find_entry_Some i m entries matched j : find_entry i m entries matched = Some j →
  j ∉ matched ∧ i ≤ j ∧ ∃ o en, entries !! (j - i) = Some (o, en) ∧ matches_source m en = true.
Proof.
  revert i. induction entries as [|[o en] entries IH]; intros i; [done|]. cbn [find_entry]. destruct (_ && _) eqn:E.
  - intros [= <-]. apply andb_true_iff in E as [E1 E2]. rewrite negb_true_iff, bool_decide_eq_false in E2.
    split_and!; [done..|]. rewrite Nat.sub_diag. by exists o, en.
  - intros (H1 & H2 & o' & en' & H3 & H4)%IH. split_and!; [done|lia|]. exists o', en'. split; [|done].
    by replace (j - i) with (S (j - S i)) by lia.
Qed.

(** The state of the reconciliation after some live messages. *)
Record reconciling_ok (entries : list (RetainedContextOrder * RetainedContextEntry)) (live : list (option N * RetainedUserMessage))
    (s : Reconciling) : Prop := mkReconcilingOk {
  rec_matched i : i ∈ matched_entries s → i < length entries;
  rec_used o : o ∈ used_orders s ↔ o ∈ (found s).*1 ∨ o ∈ entries.*1;
  rec_fresh : NoDup (found s).*1 ∧ ∀ o, o ∈ (found s).*1 → o ∉ entries.*1;
  rec_found o m : (o, m) ∈ found s → ∃ n, o = Local n ∧ (Some n, m) ∈ live;
  rec_count : missing s = false → size (matched_entries s) + length (found s) = length live;
  rec_all n m : missing s = false → (n, m) ∈ live → (∃ k, n = Some k ∧ (Local k, m) ∈ found s) ∨
    ∃ i o en, i ∈ matched_entries s ∧ entries !! i = Some (o, en) ∧ matches_source m en = true
}.

Lemma reconcile_message_ok entries live s n m : reconciling_ok entries live s →
  reconciling_ok entries (live ++ [(n, m)]) (reconcile_message entries s (n, m)).
Proof.
  intros [H1 H2 [H3 H3'] H4 H5 H6]. unfold reconcile_message. destruct (find_entry 0 m entries (matched_entries s)) as [i|] eqn:E.
  - apply find_entry_Some in E as (Hi & _ & o & en & Hen & Hm). rewrite Nat.sub_0_r in Hen.
    split; cbn [matched_entries used_orders found missing]; try done.
    + intros j [->%elem_of_singleton|Hj]%elem_of_union; [by eapply lookup_lt_Some|by apply H1].
    + intros o' m' (k & -> & Hk)%H4. exists k. set_solver.
    + intros Hf. rewrite size_union, size_singleton, length_app, <-H5 by (done || set_solver). cbn. lia.
    + intros n' m' Hf [Hin|[= -> ->]%list_elem_of_singleton]%elem_of_app; [|right; exists i, o, en; set_solver].
      destruct (H6 n' m' Hf Hin) as [?|(j & ? & ? & ? & ?)]; [by left|right; exists j; set_solver].
  - destruct n as [k|]; [case_bool_decide as Hk|]; (split; cbn [matched_entries used_orders found missing]; try done);
      try (intros o' m' (k' & -> & Hk')%H4; exists k'; set_solver).
    + intros o. rewrite fmap_app. cbn. rewrite elem_of_cons, elem_of_app, list_elem_of_singleton, H2. tauto.
    + rewrite H2 in Hk. rewrite fmap_app. cbn. split.
      * apply NoDup_app. split_and!; [done| |apply NoDup_singleton]. intros o Ho ->%list_elem_of_singleton. tauto.
      * intros o [Ho| ->%list_elem_of_singleton]%elem_of_app; [by apply H3'|tauto].
    + intros o' m' [(k' & -> & Hk')%H4|[= -> ->]%list_elem_of_singleton]%elem_of_app; [exists k'|exists k]; set_solver.
    + intros Hf. rewrite !length_app, <-H5 by done. cbn. lia.
    + intros n' m' Hf [Hin|[= -> ->]%list_elem_of_singleton]%elem_of_app; [|left; exists k; set_solver].
      destruct (H6 n' m' Hf Hin) as [(k' & -> & Hk')|?]; [left; exists k'; set_solver|by right].
Qed.

Lemma reconcile_all_ok entries live lost :
  reconciling_ok entries live (foldl (reconcile_message entries) (mkReconciling ∅ entries.*1 [] lost) live).
Proof.
  induction live as [|[n m] live IH] using rev_ind; [|rewrite foldl_app; by apply reconcile_message_ok].
  cbn [foldl]. split; cbn [matched_entries used_orders found missing]; try set_solver.
  split; [constructor|set_solver].
Qed.

Lemma missing_stays entries live s : missing s = true → missing (foldl (reconcile_message entries) s live) = true.
Proof.
  revert s. induction live as [|[n m] live IH]; intros s Hs; [done|]. cbn [foldl]. apply IH. unfold reconcile_message.
  destruct (find_entry _ _ _ _); [done|]. destruct n; [|done]. by case_bool_decide.
Qed.

(** Reconciling retained evidence with the live history shows all retained
    entries and the recovered messages in acceptance order, recovered ones under
    orders of their own. If nothing is said to be missing and the retained
    instructions were not complete anyway, every live message was recovered or was
    matched with a retained entry of the same source, different messages with
    different entries. A gap that was recorded before stays recorded. *)
Theorem reconciliation_accounts c live : let r := reconcile c live in
  in_order fst (reconciled_entries r) ∧
  reconciled_entries r ≡ₚ retained_entries c ++ ((λ e, (e.1, EntryUserMessage e.2)) <$> recovered r) ∧
  NoDup (recovered r).*1 ∧ (∀ o, o ∈ (recovered r).*1 → o ∉ (retained_entries c).*1) ∧
  (∀ o m, (o, m) ∈ recovered r → ∃ n, o = Local n ∧ (Some n, m) ∈ live) ∧
  (match c with Some c => has_missing_user_messages c | None => true end = true → missing_user_messages r = true) ∧
  (missing_user_messages r = false → (∃ c', c = Some c' ∧ user_messages_complete c' = true) ∨
     ∃ matched : gset nat, size matched + length (recovered r) = length live ∧ (∀ i, i ∈ matched → i < length (retained_entries c)) ∧
       ∀ n m, (n, m) ∈ live → (∃ k, n = Some k ∧ (Local k, m) ∈ recovered r) ∨
         ∃ i o en, i ∈ matched ∧ retained_entries c !! i = Some (o, en) ∧ matches_source m en = true).
Proof.
  cbv zeta. assert (retained_context (reconcile c live) = c) as Hc by (unfold reconcile; by destruct (match c with Some c => negb (user_messages_complete c) | None => true end)).
  unfold reconciled_entries. rewrite Hc. split; [apply sort_sorted|]. split; [apply sort_perm|]. unfold reconcile.
  destruct (match c with Some c => negb (user_messages_complete c) | None => true end) eqn:E; cbn [recovered missing_user_messages].
  - destruct (reconcile_all_ok (retained_entries c) live (match c with Some c => has_missing_user_messages c | None => true end)) as [H1 H2 [H3 H3'] H4 H5 H6].
    split_and!; [done..|intros Hx; by apply missing_stays|]. intros Hm. right. eexists. split; [by apply H5|]. split; [done|]. intros n m. by apply H6.
  - split; [constructor|]. split; [set_solver|]. split; [set_solver|]. split; [done|]. intros _. left. destruct c as [c'|]; [|done]. exists c'. split; [done|]. by apply negb_false_iff.
Qed.

(** ** Examples *)
Module RetainedExamples.

(** A serialisation that counts the bytes of the texts. *)
Definition message_size (m : RetainedUserMessage) : N := N.of_nat (40 + str_len (turn_id m) + str_len (text m)).
Definition answer_size (a : VerifiedAnswer) : N := N.of_nat (40 + str_len (va_turn_id a) + str_len (va_call_id a)).
Definition array_size {T} (size : T → N) (l : list (Ordered T)) : N := foldr (λ e n, (size (value e) + 20 + n)%N) 2%N l.
#[local] Instance example_json : Json :=
  { message_json m := Some (message_size m); answer_json a := Some (answer_size a);
    messages_json l := Some (array_size message_size l); answers_json l := Some (array_size answer_size l) }.

Lemma array_size_sublist {T} (size : T → N) l k : sublist l k → (array_size size l ≤ array_size size k)%N.
Proof. unfold array_size. induction 1; cbn [foldr]; lia. Qed.
#[local] Instance example_laws : JsonLaws example_json.
Proof.
  split; [done..| |]; intros l k n Hs [= <-]; eexists; (split; [reflexivity|by apply array_size_sublist]).
Qed.

Definition said (id t : string) : RetainedUserMessage := mkMessage ($"turn") (Some (lit id)) (lit t) true.
Definition asked : VerifiedAnswer := mkAnswer ($"turn") ($"call") [mkQuestion ($"Push?") ($"No")].
Definition first_ops : list Op := [OpMessage (said "a" "Fix the tests") (SourceLocal None); OpReserve].
Definition start_context : RetainedContext := perform_ops first_ops default_context.
Definition later_ops : list Op := [OpAnswer asked (Some 4%N); OpMessage (said "c" "Do not push") (SourceLocal (Some 3%N))].

Lemma ops_reachable ops c : reachable_context c → reachable_context (perform_ops ops c).
Proof. revert c. induction ops as [|op ops IH]; intros c H; [done|]. cbn. by apply IH, reached_op. Qed.

Definition rolled_ops : list Op := OpReserve :: later_ops ++ [OpRollback [] (Some ($"c")) (SourceLocal None)].

Lemma complete_evidence_is_whole_witness : let ops := OpMessage (said "a" "Fix the tests") (SourceLocal None) :: rolled_ops in
  let c := perform_ops ops default_context in
  user_messages_complete c = true ∧ length (user_messages c) = 1 ∧ ∃ e, e ∈ user_messages c ∧ value e = said "a" "Fix the tests".
Proof.
  cbv zeta. set (ops := OpMessage _ _ :: _).
  assert (user_messages_complete (perform_ops ops default_context) = true) as Hc by (vm_compute; reflexivity).
  split; [exact Hc|]. split; [vm_compute; reflexivity|].
  destruct (proj1 (complete_evidence_is_whole ops) Hc) as (_ & _ & H).
  destruct (H [] (said "a" "Fix the tests") (SourceLocal None) rolled_ops eq_refl eq_refl) as (e1 & He1 & _ & _ & Hsp).
  vm_compute in He1. apply list_elem_of_singleton in He1 as ->.
  destruct Hsp as (e & He & Hv & _); [|exists e; split; [exact He|exact Hv]].
  split; [exact I|]. split; [exact I|]. split; [right; vm_compute; discriminate|]. split; [vm_compute; reflexivity|exact I].
Defined.

Lemma checkpoint_roundtrip_witness : length (user_messages start_context) = 1 ∧
  restore (Some start_context) [Some (mkMetadata (Some 6%N) false)] = set_next 7 start_context.
Proof.
  split; [vm_compute; reflexivity|]. apply (checkpoint_roundtrip start_context [Some (mkMetadata (Some 6%N) false)]).
  apply ops_reachable, reached_default.
Defined.


End RetainedExamples.
